(* ===== verification/_CoqProject ===== *)
-Q . S2P
Prelude.v
Types.v
Traversal.v
GraphUtils.v
WorkflowClass.v
ExecutionTypes.v
ExecutionStack.v
NodeRun.v
RequestsResponse.v
WorkflowExecute.v
EngineInvariants.v
EngineTermination.v
DirectedGraph.v
PartialExecution.v
PartialProofs.v
Concurrency.v
ActiveExecutions.v
CapacityProofs.v
CircuitBreaker.v
TaskBroker.v
TaskBrokerProofs.v
TaskRunner.v
TaskRunnerProofs.v
RunnerSystem.v
BrokerViews.v
RunnerSystemProofs.v
Expressions.v
ConnectionsDiff.v
WorkflowDiff.v
WorkflowDiffProofs.v
NodeParameters.v
NodeParametersProofs.v
NodeParametersSafety.v
CrdtProtocol.v
WorkerTransport.v
WebSocketTransport.v
CrdtSync.v
PairedItems.v
LeaderElection.v
WaitTracker.v
UndoHistory.v
CanvasOperations.v
TriggerActivation.v
WorkflowActivation.v
Webhooks.v
QueueRecovery.v
Deduplication.v
Collaboration.v
CollaborationLease.v
Text.v
FromAi.v
OutboundRequests.v
DnsResolver.v
