(* ===== verification/Prelude.v ===== *)
(** * The n8n workflow engine

    n8n runs workflows: graphs of nodes joined by connections, over arrays of
    items.  This development models the code that decides what is run, in which
    order and with which data, and the services around it that admit, track and
    protect executions.  It is translated from the TypeScript sources below
    [src/packages/]; paths in this file are relative to that directory.

    ** Parts and files

    - [Prelude]: results with errors, JavaScript maps ([jmap]) and sets, array
      access, iteration, the hint databases and the tactics all files share.
    - [Types]: JSON values, connections, nodes, items, array cells
      (workflow/src/interfaces.ts).
    - [Traversal]: workflow/src/common: [getConnectedNodes] and its wrappers,
      the inversion of the connections.
    - [GraphUtils]: workflow/src/graph/graph-utils.ts and
      node-grouping-validation.ts: paths, roots, leaves, extractable selections.
    - [WorkflowClass]: workflow/src/workflow.ts: construction, lookup, renaming,
      searches, connection indexes, the start node.
    - [ExecutionTypes]: the run execution data: stack entries, task data,
      waiting maps.
    - [ExecutionStack]: core/src/execution-engine/workflow-execute.ts, the
      scheduling: [addNodeToBeExecuted], the children of a node, deferred and
      released nodes, the start of a run.
    - [NodeRun]: the same file, the run of one node: input and output pairing,
      error outputs, [runNode].
    - [RequestsResponse]: core/src/execution-engine/requests-response.ts: nodes
      that ask the engine to run other nodes.
    - [WorkflowExecute]: the loop of [processRunExecutionData] with retries,
      recording, errors, waiting and the result of the execution.
    - [EngineInvariants], [EngineTermination]: theorems on the loop.
    - [PairedItems]: workflow/src/workflow-data-proxy.ts: the item of an earlier node that
      an item came from, and what an expression reads of another node.
    - [DirectedGraph]: core/src/execution-engine/partial-execution-utils/
      directed-graph.ts, with its searches and Tarjan's components.
    - [PartialExecution], [PartialProofs]: the other files of that directory and
      [runPartialWorkflow2]; their theorems.
    - [Concurrency]: cli/src/concurrency: the queue, the control service and the
      reservations, behind the interface [CapacityControl] with its laws.
    - [ActiveExecutions]: cli/src/active-executions.ts over any [CapacityControl];
      an [add] is split at its awaits, and events interleave freely.
    - [CapacityProofs]: the theorems on both.
    - [CircuitBreaker]: cli/src/utils/sliding-window.ts and circuit-breaker.ts.
    - [TaskBroker], [TaskBrokerProofs]: cli/src/task-runners/task-broker: the
      matching of the offers of runners with the requests of tasks; each running
      [acceptOffer] is a process.
    - [TaskRunner], [TaskRunnerProofs]: @n8n/task-runner/src/task-runner.ts and
      task-state.ts: the other end, which makes the offers and executes the tasks.
    - [RunnerSystem], [BrokerViews], [RunnerSystemProofs]: task-broker-ws-server.ts
      joins the broker and any number of runners by channels.  [BrokerViews] reduces
      every event of the broker to moves of single tasks.
    - [Expressions]: workflow/src/extensions/expression-parser.ts and the splitter
      of @n8n/tournament: text and code of an expression.
    - [Text]: the characters and the string methods of the files on texts.
    - [FromAi]: workflow/src/from-ai-parse-utils.ts: the calls of [$fromAI] in parameters,
      by which a language model gives values to the node of a tool: how they are found and
      read, which expressions are such a call only, the arguments of a tool, and how the
      editor writes them and reads them back (fromAIOverride.utils.ts).
    - [ConnectionsDiff], [WorkflowDiff], [WorkflowDiffProofs]: workflow/src/
      connections-diff.ts and workflow-diff.ts, and the compaction of the history
      of a workflow, which deletes versions by their rules.
    - [NodeParameters], [NodeParametersProofs], [NodeParametersSafety]: the values of
      the parameters of a node (workflow/src/node-helpers.ts): which are displayed, in
      which order they are resolved, which are stored and which defaults are filled in.
    - [CrdtProtocol], [WorkerTransport], [WebSocketTransport], [CrdtSync]: the documents
      edited by several users (@n8n/crdt/src): the message formats, the transports over
      a worker and over a web socket, and the provider that keeps two copies of a
      document the same over any [SyncTransport].
    - [LeaderElection]: cli/src/scaling/multi-main-setup.ee.ts and
      leader-election-client.ts: several main processes, of which one leads by a key
      with an expiry.
    - [WaitTracker]: cli/src/wait-tracker.ts: timers that resume waiting executions, and
      the resumption of a parent by its child.
    - [QueueRecovery]: cli/src/scaling/scaling.service.ts: the cycles that find executions
      whose job was lost.
    - [TriggerActivation]: core/src/execution-engine/active-workflow-triggers.ts and
      scheduled-task-manager.ts: the triggers and crons of active workflows, by calls
      that overlap.
    - [WorkflowActivation]: cli/src/active-workflow-manager.ts: which workflows are active
      in a main process: the start, changes of the leader, the queue of activations that
      are tried again, deactivation.
    - [Webhooks]: cli/src/webhooks/webhook.service.ts and the entity of @n8n/db: which
      webhook a request is for, with the cache, and the parameters in its path.
    - [Deduplication]: cli/src/deduplication/deduplication-helper.ts: which items of the
      batches of a node were processed before.
    - [Collaboration], [CollaborationLease]: cli/src/collaboration: who has a workflow open
      and who may write to it.  Handlers are programs over the commands they await.
    - [OutboundRequests]: core/src/ssrf, workflow/src/credential-domain-restrictions.ts and
      their use around a request of a node with its redirects: which addresses, names of
      hosts and domains it may go to.
    - [DnsResolver]: dns-resolver.ts of core/src/ssrf: lookups of names that overlap, with
      the cache and the queries they share.
    - [UndoHistory], [CanvasOperations]: frontend/editor-ui/src/app: the undo and redo
      stacks over any [Document] with its laws, and the operations on the canvas that
      record their changes and the handlers that revert them, which satisfy the laws.

    The engine loop ([WorkflowExecute.exec_loop]) takes an entry from the stack,
    runs it with [NodeRun.runNode] in the retry loop, records the result and lets
    [ExecutionStack] schedule the children; a request of the node goes through
    [RequestsResponse].  A partial execution builds the state the loop starts from
    with [DirectedGraph] and [PartialExecution].  Every execution is registered by
    [ActiveExecutions], which asks [Concurrency] for capacity first; code nodes hand
    their work to a [TaskRunner] through the [TaskBroker].  The process that leads
    ([LeaderElection]) activates the workflows ([WorkflowActivation]), which starts their
    triggers ([TriggerActivation]) and stores their webhooks ([Webhooks]).

    ** How state is represented

    - A JavaScript [Map], or an object used as a map, is an association list
      without duplicate keys in insertion order ([jmap]).  Keys that look like
      array indexes, which an object would enumerate first, and the names of the
      object prototype are excluded as node names.
    - A [Set] is a list without duplicates in insertion order.
    - An array cell that may hold [null], [undefined] or nothing is a [slot]; a
      hole and [undefined] are the same cell.
    - A function that throws returns a [result]; what it wrote to the state
      before it threw is kept where a caller goes on with it.
    - Items are values.  A node that returns its own input array shares it with
      the engine in the code; this sharing is not modelled.
    - Asynchronous code runs in steps between its awaits; a component that awaits is a
      transition function on events ([ActiveExecutions.handle], [TaskBroker.broker_next],
      [TaskRunner.runner_next], [RunnerSystem.system_next], [CircuitBreaker.breaker_next],
      [WorkerTransport.transport_next], [WebSocketTransport.transport_next],
      [CrdtSync.sync_next], [LeaderElection.cluster_next], [WaitTracker.tracker_next],
      [QueueRecovery.recovery_next],
      [TriggerActivation.activation_next], [WorkflowActivation.manager_next],
      [Webhooks.service_next], [DnsResolver.dns_next]),
      and theorems range over all sequences of them.  In [Collaboration] a handler is a
      value of a free monad over its effects, which [Collaboration.step] interleaves with
      the others, and a weakest precondition over what the others may change
      ([Collaboration.wp]) is the proof rule for it.
    - Code that is not part of these files (node types, the evaluation of
      expressions, credentials, telemetry, lodash, regular expressions, the type of the
      shared documents) is a parameter: the record [WorkflowExecute.Env], a class with
      its laws ([NodeParametersProofs.LodashGet], [CrdtSync.CRDTLaws]) or a
      [Context], as the rules that allow a connection on the canvas are.  A node call reads and changes a
      world [W] of any type.

    ** What the theorems show

    - Scheduling: a node with several inputs runs once with each input at its
      index in whatever order they arrive; waiting data and waiting sources stay
      paired; children run top-left first; a release schedules at most one node.
    - The loop: every iteration completes and keeps the invariants
      ([EngineInvariant] is the interface between a predicate and the loop); a
      run with a destination runs only its ancestors; an execution of an acyclic
      workflow ends within a bound; retries are bounded; errors stop a run with
      the failed node back on the stack.
    - Data: error outputs partition the items; paired items point to existing
      inputs; requested nodes get runs of their own; the search for the item an item
      came from ends, and gives it when there is one only.
    - Graphs: searches terminate and return exactly what is reachable; the
      inversion of connections is exact; renaming is complete; grouping checks
      decide their specification.
    - Partial executions: the start nodes and the groups of source data are characterised,
      and cleaning removes the run data it has to and keeps that of unrelated nodes.
    - Capacity: a queue without removals is a first-come first-served semaphore, and
      a waiting execution is let through by as many departures as stand before it;
      under every interleaving the capacity in use is that of the reservations held.
    - Task broker: no request is left behind by an [acceptOffer], and a pass of
      matching leaves no request and offer that fit.
    - Task runner: it never promises more slots than it has, takes every task along
      the life cycle of task-state.ts, and answers each accepted task once.
    - Broker and runners together: no task is lost between them, a runner is never
      overcommitted nor surprised by a message, and a turn of the broker completes.
    - Circuit breaker: the pruned window counts like the full history, half-open
      requests are bounded, an open breaker recovers.
    - Expressions: splitting and joining are inverse to each other on the texts and
      chunks named there; chunks alternate.
    - Calls of [$fromAI]: calls with literal arguments are accepted as a call only, and what is
      accepted is one call without another one, an operator or interpolation in it; what the
      editor writes is read back, for the descriptions named there; the arguments of a tool agree on each key.
    - Differences: the diff of connections is exact; a version of a history is
      deleted only if a remaining one contains it, as far as nodes are compared.
    - Node parameters: stripping the defaults and filling them in again gives the
      complete values back; resolving the order succeeds exactly when the dependencies
      can be ordered and lists every parameter after those its display depends on; what
      is returned is shown; the recursion ends.
    - Shared documents: messages are decoded to what was encoded; a web socket transport
      has one live connection and is silent after [disconnect]; over a reliable transport,
      two synchronising copies that were never stopped are the same once no message is under
      way, and a bounded number of deliveries gets there.
    - Leader election: at most one of two processes leads while replies are prompt and no
      shutdown is late, a calm round of checks elects one, takeovers and stepdowns alternate.
    - Waiting executions: a tracking leader resumes every stored execution in bounded
      time; a retried step is attempted a bounded number of times.
    - Recovery: in orderly runs only executions whose job was lost are marked as crashed,
      and a cycle that reads such an execution marks it.
    - Triggers: while calls on a workflow do not overlap, a workflow that is not active in
      memory has no cron and no running trigger, and an activation that fails leaves
      nothing; a queued activation has one timeout or retry; a workflow removed in a
      process that is alone is not active again until it is activated.
    - Webhooks: the best match among the dynamic webhooks is found, a stored path answers
      the requests that fill it in, and the cache does not change what is found.
    - Deduplication: over any batches, the entries implement a set of what was seen and the
      latest modes a maximum; a limit bounds what is kept.
    - Collaboration: however handlers interleave, locks are held and messages received only
      by those who passed the check of access; handled in turn, messages make the lock of a
      workflow a lease; the users shown are those seen lately, once each.
    - Requests: a list of ranges is a union of intervals of addresses; whatever the DNS
      answers and wherever responses redirect, a request connects only to what is permitted,
      and the code copies its credentials to the origin only, unless they may leave it.  Of a name one query
      is under way at a time, and a lookup gets a recent answer to its own question.
    - Undo: the stacks move along a line of at most a hundred documents on either side;
      undoing the deletion of a node gives the canvas back, redoing deletes it again.
    - Some theorems exhibit behaviour the code does not intend, each on a concrete
      input.

    ** Fuel

    A recursion that is not structural takes fuel and returns [None] (or
    [OutOfFuel]) without it; each is used with an amount that a theorem shows to
    be enough: [getConnectedNodes] one more than the number of keys
    ([Traversal.connected_fuel_stable]), [hasPath] and the searches of
    [GraphUtils] and [DirectedGraph] one or two more than the number of
    connections, the release loop the number of waiting runs, the retry loop the
    number of tries, [getSourceDataGroups] twice the connections plus one, the loop
    of [splitExpression] the length of the expression plus one, [extractFromAICalls] the
    length of the text plus one ([FromAi.extract_calls_fuel]), [getNodeParameters] the
    depth of the properties plus two ([NodeParametersSafety.getNodeParameters_total]),
    [getPairedItem] the rank of the place it starts from plus one
    ([PairedItems.getPairedItem_spec]; [PairedItems.ranked_by_execution] gives ranks),
    [filterOpenWorkflowIds] the number of the workflows
    ([Collaboration.open_batches_filter]), the resolve order a number computed from the
    parameters and their dependencies
    ([NodeParametersProofs.resolve_order_decides]), [withRetry] the allowed attempts plus
    one ([WaitTracker.withRetry_attempts]).
    The engine loop has no bound in general, since a workflow may be cyclic:
    [EngineTermination] bounds it for acyclic ones.

    ** Not modelled

    Hooks, logging, telemetry, hints and wall-clock times; cancellation in the
    middle of an iteration; the implementation of nodes, the database, the REST
    API, the jobs and messages of queue mode, the requests and responses of webhooks, the
    user interface but for undo, and the evaluation of expressions but for the data of
    earlier nodes, which run third-party code or are glue around it. *)

From stdpp Require Import prelude list gmap strings pretty.
From Stdlib Require Import ZArith Lia Sorted.

(** * Errors

    The source signals failures by throwing.  [result] is the value of a
    computation that may throw; stdpp's [x ← c; k] sequences it. *)

Inductive result (E A : Type) : Type :=
| Ok (a : A)
| Err (e : E).
Arguments Ok {E A} a.
Arguments Err {E A} e.

#[export] Instance result_ret E : MRet (result E) := λ A, Ok.
#[export] Instance result_bind E : MBind (result E) :=
  λ A B f c, match c with Ok a => f a | Err e => Err e end.
#[export] Instance result_fmap E : FMap (result E) :=
  λ A B f c, match c with Ok a => Ok (f a) | Err e => Err e end.

Definition is_Ok {E A} (r : result E A) : bool :=
  match r with Ok _ => true | Err _ => false end.

(** The value of an optional lookup, or the error the source throws. *)
Definition of_option {E A} (e : E) (o : option A) : result E A :=
  match o with Some a => Ok a | None => Err e end.

Lemma of_option_Ok {E A} (e : E) (o : option A) a :
  of_option e o = Ok a ↔ o = Some a.
Proof. destruct o; simpl; split; intros H; inversion H; done. Qed.

Lemma bind_Ok {E A B} (c : result E A) (f : A → result E B) b :
  (c ≫= f) = Ok b ↔ ∃ a, c = Ok a ∧ f a = Ok b.
Proof.
  destruct c as [a|e]; simpl; split.
  - eauto.
  - by intros (a' & [= ->] & ?).
  - intros [=].
  - by intros (a' & [=] & ?).
Qed.

(** Fold with early exit, the shape of a [for] loop whose body may throw. *)
Fixpoint foldM {E A S} (f : S → A → result E S) (s : S) (l : list A) : result E S :=
  match l with
  | [] => Ok s
  | x :: l' => s' ← f s x; foldM f s' l'
  end.

Lemma foldM_app {E A S} (f : S → A → result E S) s l1 l2 :
  foldM f s (l1 ++ l2) = (s' ← foldM f s l1; foldM f s' l2).
Proof.
  revert s; induction l1 as [|x l1 IH]; intros s; simpl; [done|].
  destruct (f s x) as [s'|e]; simpl; [apply IH|done].
Qed.

(** An invariant of the loop body is an invariant of the loop. *)
Lemma foldM_inv {E A S} (f : S → A → result E S) (P : S → Prop) l s s' :
  (∀ s x s', x ∈ l → P s → f s x = Ok s' → P s') →
  P s → foldM f s l = Ok s' → P s'.
Proof.
  revert s; induction l as [|x l IH]; intros s Hf HP; simpl.
  - by intros [= <-].
  - intros (s1 & H1 & H2)%bind_Ok.
    eapply (IH s1); [|by eapply (Hf s x); [left|..]|done].
    intros; eapply Hf; eauto. by right.
Qed.

(** The same for a loop that cannot throw. *)
Lemma foldl_inv {A S} (f : S → A → S) (P : S → Prop) l s :
  (∀ s x, x ∈ l → P s → P (f s x)) → P s → P (foldl f s l).
Proof.
  revert s; induction l as [|x l IH]; intros s Hf Hs; simpl; [done|].
  apply IH; [|by apply Hf; [left|]]. intros; apply Hf; [by right|done].
Qed.

Lemma foldl_ext_in {A S} (f g : S → A → S) l s :
  (∀ s x, x ∈ l → f s x = g s x) → foldl f s l = foldl g s l.
Proof.
  revert s; induction l as [|x l IH]; intros s H; simpl; [done|].
  rewrite (H s x) by left. apply IH. intros; apply H; by right.
Qed.

(** * Insertion-ordered maps

    A JS [Map], and a plain object used as a map, iterates its keys in
    insertion order; [set] on a present key keeps its position and [delete]
    followed by [set] moves the key to the end.  Both are modelled by the list
    of their entries. *)

Abbreviation jmap K V := (list (K * V)).

Section JMap.
Context {K V : Type} `{EqDecision K}.
Implicit Types (m : jmap K V) (k : K) (v : V).

Fixpoint jm_get m k : option V :=
  match m with
  | [] => None
  | (k', v) :: m' => if decide (k' = k) then Some v else jm_get m' k
  end.

Fixpoint jm_set m k v : jmap K V :=
  match m with
  | [] => [(k, v)]
  | (k', v') :: m' => if decide (k' = k) then (k', v) :: m' else (k', v') :: jm_set m' k v
  end.

Definition jm_del m k : jmap K V := filter (λ p, p.1 ≠ k) m.

Definition jm_keys m : list K := m.*1.
Definition jm_vals m : list V := m.*2.
Definition jm_has m k : bool := match jm_get m k with Some _ => true | None => false end.

(** A JS map never holds a key twice. *)
Definition jm_wf m : Prop := NoDup (jm_keys m).

Lemma jm_get_set m k v : jm_get (jm_set m k v) k = Some v.
Proof.
  induction m as [|[k' v'] m IH]; simpl; [by rewrite decide_True|].
  destruct (decide (k' = k)); simpl; [by rewrite decide_True|].
  by rewrite decide_False.
Qed.

Lemma jm_get_set_ne m k k' v : k ≠ k' → jm_get (jm_set m k v) k' = jm_get m k'.
Proof.
  intros Hne; induction m as [|[k0 v0] m IH]; simpl; [by rewrite decide_False|].
  destruct (decide (k0 = k)) as [->|]; simpl.
  - by rewrite !(decide_False _ _ Hne).
  - by rewrite IH.
Qed.

Lemma jm_get_None m k : jm_get m k = None ↔ k ∉ jm_keys m.
Proof.
  induction m as [|[k' v'] m IH]; simpl; [split; [intros _; apply not_elem_of_nil|done]|].
  rewrite not_elem_of_cons; destruct (decide (k' = k)) as [->|]; naive_solver.
Qed.

Lemma jm_get_Some_elem m k v : jm_get m k = Some v → (k, v) ∈ m.
Proof.
  induction m as [|[k' v'] m IH]; simpl; [done|].
  destruct (decide (k' = k)) as [->|]; [intros [= ->]; left|right; auto].
Qed.

Lemma jm_elem_get m k v : jm_wf m → (k, v) ∈ m → jm_get m k = Some v.
Proof.
  unfold jm_wf, jm_keys.
  induction m as [|[k' v'] m IH]; simpl; [by intros _ ?%not_elem_of_nil|].
  intros [Hn Hd]%NoDup_cons [[= -> ->]|Hin]%elem_of_cons; [by rewrite decide_True|].
  destruct (decide (k' = k)) as [->|]; [|auto].
  exfalso; apply Hn, list_elem_of_fmap; by exists (k, v).
Qed.

Lemma jm_keys_set m k v :
  jm_keys (jm_set m k v) = if decide (k ∈ jm_keys m) then jm_keys m else jm_keys m ++ [k].
Proof.
  induction m as [|[k' v'] m IH]; simpl; [done|].
  destruct (decide (k' = k)) as [->|Hne]; simpl.
  - rewrite decide_True; [done|by left].
  - change (k' :: jm_keys (jm_set m k v) =
      if decide (k ∈ k' :: jm_keys m) then k' :: jm_keys m else (k' :: jm_keys m) ++ [k]).
    rewrite IH. destruct (decide (k ∈ jm_keys m)) as [Hin|Hout].
    + rewrite decide_True; [done|by right].
    + rewrite decide_False; [done|].
      by intros [?|?]%elem_of_cons.
Qed.

Lemma jm_wf_set m k v : jm_wf m → jm_wf (jm_set m k v).
Proof.
  unfold jm_wf; rewrite jm_keys_set; intros Hm. case_decide as Hin; [done|].
  apply NoDup_app; repeat split; [done| |apply NoDup_singleton].
  by intros x Hx ->%list_elem_of_singleton.
Qed.

Lemma jm_get_del m k : jm_get (jm_del m k) k = None.
Proof.
  unfold jm_del; induction m as [|[k' v'] m IH]; [done|].
  rewrite filter_cons; simpl; case_decide; simpl; [by rewrite decide_False|done].
Qed.

Lemma jm_get_del_ne m k k' : k ≠ k' → jm_get (jm_del m k) k' = jm_get m k'.
Proof.
  intros Hne; unfold jm_del; induction m as [|[k0 v0] m IH]; [done|].
  rewrite filter_cons; simpl; case_decide; simpl; [by rewrite IH|].
  destruct (decide (k0 = k')); naive_solver.
Qed.

Lemma jm_keys_del m k : jm_keys (jm_del m k) = filter (λ k', k' ≠ k) (jm_keys m).
Proof.
  unfold jm_keys, jm_del; induction m as [|[k' v'] m IH]; [done|].
  rewrite fmap_cons, !filter_cons; simpl.
  destruct (decide (k' ≠ k)); [rewrite fmap_cons|]; by rewrite IH.
Qed.

Lemma jm_wf_del m k : jm_wf m → jm_wf (jm_del m k).
Proof. unfold jm_wf; rewrite jm_keys_del; apply NoDup_filter. Qed.

Lemma jm_elem_del m k k' v : (k', v) ∈ jm_del m k ↔ k' ≠ k ∧ (k', v) ∈ m.
Proof. unfold jm_del; by rewrite list_elem_of_filter. Qed.

Lemma jm_has_spec m k : jm_has m k = true ↔ k ∈ jm_keys m.
Proof.
  unfold jm_has. pose proof (jm_get_None m k) as HN.
  destruct (jm_get m k); split; intros H; try done.
  - destruct (decide (k ∈ jm_keys m)); [done|naive_solver].
  - by apply HN in H.
Qed.

Lemma jm_elem_set m k v p : p ∈ jm_set m k v → p = (k, v) ∨ p ∈ m.
Proof.
  induction m as [|[k0 v0] m IH]; simpl.
  - intros ->%list_elem_of_singleton; by left.
  - destruct (decide (k0 = k)) as [->|]; set_solver.
Qed.

(** [set] overwrites in place or appends. *)
Lemma jm_set_split m k v :
  (jm_get m k = None ∧ jm_set m k v = m ++ [(k, v)]) ∨
  (∃ m1 v0 m2, jm_get m k = Some v0 ∧ m = m1 ++ (k, v0) :: m2 ∧
     jm_set m k v = m1 ++ (k, v) :: m2).
Proof.
  induction m as [|[k0 v0] m IH]; simpl; [by left|].
  destruct (decide (k0 = k)) as [->|Hne].
  - right. by exists [], v0, m.
  - destruct IH as [[? ->]|(m1 & v1 & m2 & ? & -> & ->)]; [by left|right].
    by exists ((k0, v0) :: m1), v1, m2.
Qed.

Lemma jm_set_elem m k v : (k, v) ∈ jm_set m k v.
Proof. apply jm_get_Some_elem, jm_get_set. Qed.
End JMap.

(** A map with every value replaced: [for (const k of Object.keys(m)) m[k] = f(m[k])]. *)
Definition jm_map {K V W} (f : V → W) (m : jmap K V) : jmap K W := (λ p, (p.1, f p.2)) <$> m.

Lemma jm_get_map {K V W} `{EqDecision K} (f : V → W) (m : jmap K V) k :
  jm_get (jm_map f m) k = f <$> jm_get m k.
Proof. induction m as [|[k' v] m IH]; simpl; [done|]. by destruct (decide (k' = k)). Qed.

Lemma jm_keys_map {K V W} (f : V → W) (m : jmap K V) : jm_keys (jm_map f m) = jm_keys m.
Proof. unfold jm_keys, jm_map. rewrite <- list_fmap_compose. done. Qed.

(** The sum of a weight over the values of a map. *)
Definition jm_sum {K V} (f : V → nat) (m : jmap K V) : nat := sum_list (f <$> jm_vals m).

Lemma jm_sum_set {K V} `{EqDecision K} (f : V → nat) (m : jmap K V) k v :
  jm_sum f (jm_set m k v) + default 0 (f <$> jm_get m k) = jm_sum f m + f v.
Proof.
  unfold jm_sum, jm_vals. induction m as [|[k' v'] m IH]; cbn; [lia|].
  destruct (decide (k' = k)) as [->|Hne]; cbn.
  - lia.
  - unfold jm_sum, jm_vals in IH. lia.
Qed.

Lemma jm_del_cons {K V} `{EqDecision K} (m : jmap K V) k k' v :
  jm_del ((k', v) :: m) k = if decide (k' = k) then jm_del m k else (k', v) :: jm_del m k.
Proof. unfold jm_del. rewrite filter_cons. cbn [fst]. destruct (decide (k' = k)); by case_decide. Qed.

Lemma jm_del_id {K V} `{EqDecision K} (m : jmap K V) k : k ∉ jm_keys m → jm_del m k = m.
Proof.
  unfold jm_keys. induction m as [|[k' v'] m IH]; [done|]. rewrite jm_del_cons. cbn.
  intros [Hk Hm]%not_elem_of_cons. rewrite decide_False by done. by rewrite IH.
Qed.

Lemma jm_sum_del {K V} `{EqDecision K} (f : V → nat) (m : jmap K V) k :
  jm_wf m → jm_sum f (jm_del m k) + default 0 (f <$> jm_get m k) = jm_sum f m.
Proof.
  unfold jm_sum, jm_vals. induction m as [|[k' v'] m IH]; [done|].
  intros [Hk Hm]%NoDup_cons. rewrite jm_del_cons. cbn. destruct (decide (k' = k)) as [->|Hne]; cbn.
  - rewrite jm_del_id by done. lia.
  - specialize (IH Hm). lia.
Qed.

(** [if (k in m) m[k] = f(m[k])] *)
Definition jm_update {K V} `{EqDecision K} (m : jmap K V) (k : K) (f : V → V) : jmap K V :=
  match jm_get m k with Some v => jm_set m k (f v) | None => m end.

Lemma jm_get_update {K V} `{EqDecision K} (m : jmap K V) k f k' :
  jm_get (jm_update m k f) k' = if decide (k = k') then f <$> jm_get m k' else jm_get m k'.
Proof.
  unfold jm_update. destruct (jm_get m k) as [v|] eqn:Hv; case_decide as Hk; subst; rewrite ?Hv; cbn; try done.
  - by rewrite jm_get_set.
  - by rewrite jm_get_set_ne.
Qed.

Lemma jm_set_new {K V} `{EqDecision K} (m : jmap K V) k v : jm_get m k = None → jm_set m k v = m ++ [(k, v)].
Proof. induction m as [|[k' v'] m IH]; cbn; [done|]. case_decide; [done|]. intros ?. by rewrite IH. Qed.

Lemma jm_set_fresh_length {K V} `{EqDecision K} (m : jmap K V) k v : jm_get m k = None → length (jm_set m k v) = S (length m).
Proof.
  induction m as [|[k' v'] m IH]; [done|]. cbn. destruct (decide (k' = k)); [done|]. cbn. intros H. by rewrite IH.
Qed.

Lemma jm_del_length {K V} `{EqDecision K} (m : jmap K V) k v :
  jm_wf m → jm_get m k = Some v → length m = S (length (jm_del m k)).
Proof.
  unfold jm_wf. induction m as [|[k' v'] m IH]; [done|]. intros [Hk Hm]%NoDup_cons. rewrite jm_del_cons. cbn.
  destruct (decide (k' = k)) as [->|]; [by rewrite jm_del_id|]. intros H. cbn. by rewrite <- IH.
Qed.

Lemma jm_set_length {K V} `{EqDecision K} (m : jmap K V) k v : length (jm_set m k v) ≤ S (length m).
Proof. induction m as [|[k' v'] m IH]; cbn; [lia|]. case_decide; cbn; lia. Qed.

Lemma jm_del_length_le {K V} `{EqDecision K} (m : jmap K V) k : length (jm_del m k) ≤ length m.
Proof. unfold jm_del. apply length_filter. Qed.

Lemma jm_wf_filter {K V} (P : K * V → Prop) `{∀ x, Decision (P x)} (m : jmap K V) : jm_wf m → jm_wf (filter P m).
Proof. unfold jm_wf, jm_keys. intros Hm. eapply sublist_NoDup; [exact Hm|]. apply fmap_sublist, sublist_filter. Qed.

Lemma jm_set_present {K V} `{EqDecision K} (m : jmap K V) k v w : jm_get m k = Some w → length (jm_set m k v) = length m.
Proof. induction m as [|[k' v'] m IH]; cbn; [done|]. case_decide; [done|]. intros Hk. cbn. by rewrite IH. Qed.

Lemma jm_del_set {K V} `{EqDecision K} (m : jmap K V) k v : jm_del (jm_set m k v) k = jm_del m k.
Proof.
  induction m as [|[k' v'] m IH]; cbn [jm_set]; [by rewrite jm_del_cons, decide_True|].
  case_decide as Hk; rewrite !jm_del_cons; [by rewrite !decide_True|]. rewrite !decide_False by done. by rewrite IH.
Qed.

Lemma jm_set_set {K V} `{EqDecision K} (m : jmap K V) k v w : jm_set (jm_set m k v) k w = jm_set m k w.
Proof.
  induction m as [|[k' v'] m IH]; cbn [jm_set]; [by rewrite decide_True|].
  case_decide as Hk; cbn [jm_set]; [by rewrite decide_True|]. rewrite decide_False by done. by rewrite IH.
Qed.

Lemma jm_get_key {K V} `{EqDecision K} (m : jmap K V) k v : jm_get m k = Some v → k ∈ jm_keys m.
Proof. intros Hv. destruct (decide (k ∈ jm_keys m)) as [|Hn]; [done|]. apply jm_get_None in Hn. congruence. Qed.

Lemma jm_sum_cons {K V} (f : V → nat) k (v : V) (m : jmap K V) : jm_sum f ((k, v) :: m) = f v + jm_sum f m.
Proof. done. Qed.

Lemma jm_sum_del_le {K V} `{EqDecision K} (f : V → nat) (m : jmap K V) k : jm_sum f (jm_del m k) ≤ jm_sum f m.
Proof.
  induction m as [|[k' v'] m IH]; [done|]. rewrite jm_del_cons, jm_sum_cons. case_decide; [|rewrite jm_sum_cons]; lia.
Qed.

Lemma jm_sum_del_lt {K V} `{EqDecision K} (f : V → nat) (m : jmap K V) k v : jm_get m k = Some v → jm_sum f (jm_del m k) + f v ≤ jm_sum f m.
Proof.
  induction m as [|[k' v'] m IH]; cbn [jm_get]; [done|]. rewrite jm_del_cons, jm_sum_cons. case_decide.
  - intros [= ->]. pose proof (jm_sum_del_le f m k). lia.
  - intros Hv. specialize (IH Hv). rewrite jm_sum_cons. lia.
Qed.

(** A prefix of the longer list is one of the shorter list, or extends it. *)
Lemma prefix_either {A} (Q l l' : list A) : l `prefix_of` l' → Q `prefix_of` l' → Q `prefix_of` l ∨ l `prefix_of` Q.
Proof. intros H1 H2. destruct (prefix_weak_total Q l l' H2 H1); auto. Qed.

(** How often a value occurs in a list. *)
Definition times {X} `{EqDecision X} (x : X) (l : list X) : nat := length (filter (λ y, y = x) l).

Lemma times_app {X} `{EqDecision X} (x : X) l k : times x (l ++ k) = times x l + times x k.
Proof. unfold times. by rewrite filter_app, length_app. Qed.

Lemma times_elem {X} `{EqDecision X} (x : X) l : 1 ≤ times x l ↔ x ∈ l.
Proof.
  unfold times. split.
  - intros H. destruct (filter _ l) as [|y k] eqn:Hf; cbn in H; [lia|].
    assert (y ∈ filter (λ y, y = x) l) as [-> Hy]%list_elem_of_filter by (rewrite Hf; left). done.
  - intros H. assert (x ∈ filter (λ y, y = x) l) as Hx by (by apply list_elem_of_filter).
    destruct (filter _ l); [by apply elem_of_nil in Hx|cbn; lia].
Qed.

Lemma times_one {X} `{EqDecision X} (x y : X) : times x [y] = if decide (y = x) then 1 else 0.
Proof. unfold times. rewrite filter_cons, filter_nil. by case_decide. Qed.

(** * JS sets

    A JS [Set] is the duplicate-free list of its elements in insertion order. *)

Section JSet.
Context {A : Type} `{EqDecision A}.
Implicit Types (s : list A) (x y : A).

Definition js_add (s : list A) (x : A) : list A := if decide (x ∈ s) then s else s ++ [x].
Definition js_del (s : list A) (x : A) : list A := filter (λ y, y ≠ x) s.
Definition js_has (s : list A) (x : A) : bool := bool_decide (x ∈ s).

(** [new Set(xs)] *)
Definition js_of_list (l : list A) : list A := foldl js_add [] l.

Lemma js_add_elem s x y : y ∈ js_add s x ↔ y = x ∨ y ∈ s.
Proof. unfold js_add; case_decide; [set_solver|]. rewrite elem_of_app; set_solver. Qed.

Lemma js_add_NoDup s x : NoDup s → NoDup (js_add s x).
Proof.
  unfold js_add; case_decide; [done|]. intros Hs.
  apply NoDup_app; repeat split; [done| |apply NoDup_singleton].
  by intros y Hy ->%list_elem_of_singleton.
Qed.

Lemma js_add_id s x : x ∈ s → js_add s x = s.
Proof. intros; unfold js_add; by rewrite decide_True. Qed.

Lemma js_del_elem s x y : y ∈ js_del s x ↔ y ≠ x ∧ y ∈ s.
Proof. unfold js_del; by rewrite list_elem_of_filter. Qed.

Lemma js_del_NoDup s x : NoDup s → NoDup (js_del s x).
Proof. apply NoDup_filter. Qed.

Lemma foldl_js_add_elem s l x : x ∈ foldl js_add s l ↔ x ∈ s ∨ x ∈ l.
Proof.
  revert s; induction l as [|y l IH]; intros s; simpl; [set_solver|].
  rewrite IH, js_add_elem; set_solver.
Qed.

Lemma foldl_js_add_NoDup s l : NoDup s → NoDup (foldl js_add s l).
Proof.
  revert s; induction l as [|y l IH]; intros s Hs; simpl; [done|].
  apply IH, js_add_NoDup, Hs.
Qed.

Lemma js_of_list_elem l x : x ∈ js_of_list l ↔ x ∈ l.
Proof. unfold js_of_list; rewrite foldl_js_add_elem; set_solver. Qed.

Lemma js_of_list_NoDup l : NoDup (js_of_list l).
Proof. apply foldl_js_add_NoDup, NoDup_nil_2. Qed.
End JSet.

Lemma js_has_true {A} `{EqDecision A} (s : list A) x : js_has s x = true ↔ x ∈ s.
Proof. unfold js_has. by rewrite bool_decide_eq_true. Qed.

Lemma js_has_false {A} `{EqDecision A} (s : list A) x : js_has s x = false ↔ x ∉ s.
Proof. unfold js_has. by rewrite bool_decide_eq_false. Qed.

(** ** How many of [V] are not in [seen]: the measure of a search *)

Section Unseen.
Context {A : Type} `{EqDecision A}.

Definition unseen (V seen : list A) : nat := length (filter (λ v, v ∉ seen) V).

Lemma unseen_mono V seen seen' : seen ⊆ seen' → unseen V seen' ≤ unseen V seen.
Proof.
  unfold unseen. intros Hs. induction V as [|v V IH]; [done|]. rewrite !filter_cons.
  repeat case_decide; simpl; try lia. set_solver.
Qed.

Lemma unseen_add V seen v : v ∈ V → v ∉ seen → unseen V (js_add seen v) < unseen V seen.
Proof.
  unfold unseen. intros Hin Hn. induction V as [|w V IH]; [by apply not_elem_of_nil in Hin|].
  rewrite !filter_cons.
  assert (length (filter (λ v0, v0 ∉ js_add seen v) V) ≤ length (filter (λ v0, v0 ∉ seen) V)) as Hle.
  { apply (unseen_mono V). intros x. rewrite js_add_elem. auto. }
  apply elem_of_cons in Hin as [<-|Hin].
  - rewrite decide_False by (rewrite js_add_elem; naive_solver). rewrite decide_True by done. simpl; lia.
  - specialize (IH Hin). destruct (decide (w ∉ js_add seen v)) as [Hw|Hw].
    + rewrite decide_True; [simpl; lia|]. intros ?; apply Hw. rewrite js_add_elem. auto.
    + destruct (decide _); simpl; lia.
Qed.

Lemma unseen_snoc V seen v : v ∈ V → v ∉ seen → unseen V (seen ++ [v]) < unseen V seen.
Proof.
  intros Hin Hn. pose proof (unseen_add V seen v Hin Hn) as H.
  unfold js_add in H. by rewrite decide_False in H.
Qed.

Lemma unseen_le V seen : unseen V seen ≤ length V.
Proof. apply length_filter. Qed.
End Unseen.

(** * JS arrays *)

Section JArray.
Context {A : Type}.
Implicit Types (l : list A) (i : nat) (x d : A).

(** [l[i] = x]: a write past the end extends the array with holes [d]. *)
Definition arr_set (d : A) (l : list A) (i : nat) (x : A) : list A :=
  if decide (i < length l) then <[i:=x]> l else l ++ replicate (i - length l) d ++ [x].

(** [l.splice(i, 1)] *)
Definition splice1 (l : list A) (i : nat) : list A := take i l ++ drop (S i) l.

(** [l.findIndex(p)], [None] for [-1]. *)
Definition find_index (p : A → bool) (l : list A) : option nat := fst <$> list_find p l.

(** [l.at(i)] with a possibly negative index. *)
Definition arr_at (l : list A) (i : Z) : option A :=
  if decide (0 ≤ i)%Z then l !! Z.to_nat i
  else let j := (Z.of_nat (length l) + i)%Z in
       if decide (0 ≤ j)%Z then l !! Z.to_nat j else None.

(** [l.entries()]: elements with their index. *)
Definition entries (l : list A) : list (nat * A) := imap pair l.

Lemma arr_set_lookup d l i x : arr_set d l i x !! i = Some x.
Proof.
  unfold arr_set; case_decide; [by apply list_lookup_insert_eq|].
  rewrite lookup_app_r by lia. rewrite lookup_app_r by (rewrite length_replicate; lia).
  rewrite length_replicate.
  by replace (i - length l - (i - length l)) with 0 by lia.
Qed.

Lemma arr_set_lookup_ne d l i j x :
  i ≠ j → j < length l → arr_set d l i x !! j = l !! j.
Proof.
  intros; unfold arr_set; case_decide; [by apply list_lookup_insert_ne|].
  by rewrite lookup_app_l by lia.
Qed.

Lemma arr_set_length d l i x : length (arr_set d l i x) = max (length l) (S i).
Proof.
  unfold arr_set; case_decide; [rewrite length_insert; lia|].
  rewrite !length_app, length_replicate; simpl; lia.
Qed.

Lemma splice1_perm l i x : l !! i = Some x → l ≡ₚ x :: splice1 l i.
Proof.
  intros Hi. unfold splice1.
  rewrite <- (take_drop_middle l i x Hi) at 1. by rewrite Permutation_middle.
Qed.

Lemma splice1_sublist l i : splice1 l i `sublist_of` l.
Proof.
  unfold splice1. rewrite <- (take_drop i l) at 3. apply sublist_app; [done|].
  replace (drop (S i) l) with (drop 1 (drop i l)) by (rewrite drop_drop; f_equal; lia).
  destruct (drop i l); [done|]. by apply sublist_cons.
Qed.

Lemma splice1_not_in l i x : NoDup l → l !! i = Some x → x ∉ splice1 l i.
Proof. intros Hn Hi. rewrite (splice1_perm l i x Hi) in Hn. by apply NoDup_cons in Hn as [? _]. Qed.

Lemma find_index_Some p l i :
  find_index p l = Some i ↔ ∃ x, l !! i = Some x ∧ p x ∧ ∀ j y, l !! j = Some y → j < i → ¬ p y.
Proof.
  unfold find_index. rewrite fmap_Some. split.
  - intros ([j x] & Hf & ->); simpl. apply list_find_Some in Hf as (?&?&?). eauto.
  - intros (x & Hl & Hp & Hmin). exists (i, x); split; [|done].
    apply list_find_Some; eauto.
Qed.

Lemma find_index_None p l : find_index p l = None ↔ Forall (λ x, ¬ p x) l.
Proof. unfold find_index; rewrite fmap_None; apply list_find_None. Qed.

Lemma entries_lookup l i j x : entries l !! i = Some (j, x) ↔ i = j ∧ l !! i = Some x.
Proof.
  unfold entries; rewrite list_lookup_imap, fmap_Some. split.
  - by intros (y & Hy & [= -> ->]).
  - intros [-> H]; eauto.
Qed.

Lemma elem_of_entries l j x : (j, x) ∈ entries l ↔ l !! j = Some x.
Proof.
  rewrite list_elem_of_lookup. split.
  - intros [i Hi]. by apply entries_lookup in Hi as [-> ?].
  - intros H; exists j; by apply entries_lookup.
Qed.
End JArray.

(** * Array.prototype.sort

    The sort is stable: with a consistent comparator the result is the unique
    stable rearrangement, computed here by insertion. *)

Section StableSort.
Context {A : Type} (cmp : A → A → Z).

Fixpoint sort_insert (x : A) (l : list A) : list A :=
  match l with
  | [] => [x]
  | y :: l' => if (cmp x y <? 0)%Z then x :: l else y :: sort_insert x l'
  end.

(** Elements are inserted from the left, each after its equals. *)
Definition js_sort (l : list A) : list A := foldl (λ acc x, sort_insert x acc) [] l.

Lemma sort_insert_perm x l : sort_insert x l ≡ₚ x :: l.
Proof.
  induction l as [|y l IH]; simpl; [done|].
  destruct (_ <? _)%Z; [done|]. rewrite IH. apply perm_swap.
Qed.

Lemma foldl_insert_perm acc l : foldl (λ acc x, sort_insert x acc) acc l ≡ₚ acc ++ l.
Proof.
  revert acc; induction l as [|x l IH]; intros acc; simpl; [by rewrite app_nil_r|].
  rewrite IH, sort_insert_perm. simpl. by rewrite <- Permutation_middle.
Qed.

Lemma js_sort_perm l : js_sort l ≡ₚ l.
Proof. apply foldl_insert_perm. Qed.

Lemma js_sort_elem l x : x ∈ js_sort l ↔ x ∈ l.
Proof. by rewrite js_sort_perm. Qed.

(** Sortedness, for a comparator whose negative results are a strict weak order: no
    element comes strictly before an earlier one. *)
Definition cmp_le (x y : A) : Prop := (0 <= cmp y x)%Z.

Context (cmp_asym : ∀ x y, (cmp x y < 0)%Z → (0 <= cmp y x)%Z).
Context (cmp_trans : ∀ x y z, cmp_le x y → cmp_le y z → cmp_le x z).

Lemma sort_insert_sorted x l :
  StronglySorted cmp_le l → StronglySorted cmp_le (sort_insert x l).
Proof.
  induction 1 as [|y l Hs IH Hy]; simpl; [by repeat constructor|].
  destruct (Z.ltb_spec (cmp x y) 0) as [Hlt|Hge].
  - constructor; [by constructor|]. constructor; [by apply cmp_asym|].
    eapply Forall_impl; [exact Hy|]. intros z Hz; simpl in Hz.
    apply cmp_trans with y; [by apply cmp_asym|done].
  - constructor; [done|]. rewrite sort_insert_perm. constructor; [done|done].
Qed.

Lemma js_sort_sorted l : StronglySorted cmp_le (js_sort l).
Proof.
  unfold js_sort.
  assert (∀ acc, StronglySorted cmp_le acc →
    StronglySorted cmp_le (foldl (λ acc x, sort_insert x acc) acc l)) as H.
  { induction l as [|x l IH]; intros acc Hacc; simpl; [done|]. by apply IH, sort_insert_sorted. }
  apply H; constructor.
Qed.
End StableSort.

(** * Strings *)

Definition starts_with (p s : string) : bool := String.prefix p s.
Definition ends_with (p s : string) : bool :=
  String.prefix (String.rev p) (String.rev s).

(** A string in a condition: [undefined] and the empty string are falsy. *)
Definition str_truthy (s : option string) : bool :=
  match s with Some s => negb (bool_decide (s = "")) | None => false end.

Definition ascii_lower (c : Ascii.ascii) : Ascii.ascii :=
  let n := Ascii.nat_of_ascii c in
  if (65 <=? n) && (n <=? 90) then Ascii.ascii_of_nat (n + 32) else c.

(** [toLowerCase] on ASCII strings. *)
Fixpoint to_lower (s : string) : string :=
  match s with
  | String.EmptyString => String.EmptyString
  | String.String c s => String.String (ascii_lower c) (to_lower s)
  end.

(** The default comparison of [Array.prototype.sort] on strings: by code units. *)
Definition str_cmp (a b : string) : Z :=
  match String.compare a b with Lt => -1 | Eq => 0 | Gt => 1 end%Z.

(** * Reflexive-transitive reachability helpers *)

Lemma tc_rtc_inv {A} (R : relation A) x z : tc R x z → ∃ y, R x y ∧ rtc R y z.
Proof. induction 1 as [x z H|x y z H Ht IH]; [eauto using rtc_refl|]. exists y; split; [done|]. by apply tc_rtc. Qed.

Lemma tc_r_inv {A} (R : relation A) x z : tc R x z → ∃ y, rtc R x y ∧ R y z.
Proof.
  induction 1 as [x z H|x y z H Ht (u & Hu & Huz)]; [by exists x|].
  exists u; split; [|done]. by eapply rtc_l.
Qed.

Lemma rtc_tc_or {A} (R : relation A) x z : rtc R x z → x = z ∨ tc R x z.
Proof. destruct 1 as [|x y z H1 H2]; [by left|right]. by eapply tc_rtc_r; [apply tc_once|]. Qed.

Lemma rtc_flip_sym {A} (R : relation A) x y :
  (∀ a b, R a b → R b a) → rtc R x y → rtc R y x.
Proof. intros Hs; induction 1; [done|]. eapply rtc_r; eauto. Qed.

(** * Automation *)

Create HintDb n8n discriminated.
#[export] Hint Resolve jm_wf_set jm_wf_del js_add_NoDup js_del_NoDup js_of_list_NoDup : n8n.
#[export] Hint Constants Opaque : n8n.

Create Rewrite HintDb n8n.
#[export] Hint Rewrite @jm_get_set @jm_get_del : n8n.

(** Case analysis on the [if decide] and [match] of an unfolded operation. *)
Ltac case_all :=
  repeat (case_decide || case_match || (progress simplify_eq/=)).

(** A decidable fact about concrete values, by evaluation. *)
Ltac by_decide :=
  match goal with |- ?P => apply (bool_decide_eq_true_1 P) end; vm_compute; reflexivity.
