(* ===== verification/Types.v ===== *)
(** Types: the data of a workflow and of an execution.

    The interfaces of packages/workflow/src/interfaces.ts that the modelled code
    reads or writes: connections, nodes, items, task data and execution stack
    entries.  Array indexes are [nat]; times and coordinates are [Z]. *)

From stdpp Require Import prelude list gmap strings.
From Stdlib Require Import ZArith QArith.
From S2P Require Import Prelude.

(** * JSON values *)

Inductive json : Type :=
| JNull
| JBool (b : bool)
| JNum (z : Z)
| JStr (s : string)
| JArr (l : list json)
| JObj (o : list (string * json)).

(** [v !== undefined && v !== null && v !== false] of the retry test, and plain truthiness. *)
Definition truthy (v : json) : bool :=
  match v with
  | JNull => false
  | JBool b => b
  | JNum z => negb (z =? 0)%Z
  | JStr s => negb (bool_decide (s = ""))
  | JArr _ | JObj _ => true
  end.

(** * Connections *)

Abbreviation NodeConnectionType := string (only parsing).
Definition Main : NodeConnectionType := "main".
Definition AiTool : NodeConnectionType := "ai_tool".

Record IConnection := mkConn {
  c_node : string;
  c_type : NodeConnectionType;
  c_index : nat;
}.

#[export] Instance IConnection_eq_dec : EqDecision IConnection.
Proof. solve_decision. Defined.

(** An output (or input) slot of a node may be [null] when it is unused. *)
Abbreviation NodeInputConnections := (list (option (list IConnection))) (only parsing).
Abbreviation INodeConnections := (jmap string NodeInputConnections) (only parsing).
Abbreviation IConnections := (jmap string INodeConnections) (only parsing).

(** [connections[node]?.[type]], [[]] when either key is absent. *)
Definition conns_of (cs : IConnections) (node : string) (type : NodeConnectionType)
    : option NodeInputConnections :=
  nc ← jm_get cs node; jm_get nc type.

(** [connsByIndex ?? []] *)
Definition bucket (b : option (list IConnection)) : list IConnection := default [] b.

(** * Nodes *)

Record INode := mkNode {
  n_id : string;
  n_name : string;
  n_type : string;
  n_typeVersion : Q;
  n_position : Z * Z;
  n_disabled : option bool;
  n_parameters : list (string * json);
  n_retryOnFail : option bool;
  n_maxTries : option Z;
  n_waitBetweenTries : option Z;
  n_alwaysOutputData : option bool;
  n_executeOnce : option bool;
  n_onError : option string;
  n_continueOnFail : option bool;
  n_rewireOutputLogTo : option NodeConnectionType;
}.

(** [node.disabled] in a condition, and [node.disabled === true / === false]. *)
Definition is_disabled (n : INode) : bool := bool_decide (n_disabled n = Some true).

(** A node with the given name and type and every optional property unset. *)
Definition plain_node (name type : string) : INode :=
  mkNode name name type (1#1) (0, 0)%Z None [] None None None None None None None None.

(** * Items *)

Record ISourceData := mkSource {
  previousNode : string;
  previousNodeOutput : option nat;
  previousNodeRun : option nat;
}.

#[export] Instance ISourceData_eq_dec : EqDecision ISourceData.
Proof. solve_decision. Defined.

Record IPairedItemData := mkPaired {
  pi_item : nat;
  pi_input : option nat;
  pi_sourceOverwrite : option ISourceData;
}.

(** [pairedItem?: IPairedItemData | IPairedItemData[] | number] *)
Inductive PairedItem :=
| PNum (n : nat)
| POne (d : IPairedItemData)
| PMany (l : list IPairedItemData).

Record ExecutionError := mkError {
  e_name : string;
  e_message : string;
}.

Record INodeExecutionData := mkItem {
  i_json : list (string * json);
  i_pairedItem : option PairedItem;
  i_error : option ExecutionError;
}.

Definition item_set_paired (it : INodeExecutionData) (p : PairedItem) : INodeExecutionData :=
  mkItem (i_json it) (Some p) (i_error it).

(** [{ json: {} }] *)
Definition empty_item : INodeExecutionData := mkItem [] None None.

(** * Task data *)

(** An array cell of the execution data: never written, [null], or a value. *)
Inductive slot (A : Type) : Type :=
| SUndef
| SNull
| SVal (a : A).
Arguments SUndef {A}.
Arguments SNull {A}.
Arguments SVal {A} a.

#[export] Instance slot_eq_dec A `{EqDecision A} : EqDecision (slot A).
Proof. solve_decision. Defined.

Definition is_null {A} (s : slot A) : bool := match s with SNull => true | _ => false end.
Definition is_val {A} (s : slot A) : bool := match s with SVal _ => true | _ => false end.

(** [arr[i]] as a slot: reading past the end gives [undefined]. *)
Definition slot_at {A} (l : list (slot A)) (i : nat) : slot A := default SUndef (l !! i).

Abbreviation Items := (list INodeExecutionData) (only parsing).
Abbreviation ITaskDataConnections := (jmap string (list (slot Items))) (only parsing).
Abbreviation ITaskDataConnectionsSource := (jmap string (list (slot ISourceData))) (only parsing).

(** [data.main], [[]] when the key is absent. *)
Definition main_of {A} (d : jmap string (list A)) : list A := default [] (jm_get d Main).

Definition only_main {A} (l : list A) : jmap string (list A) := [(Main, l)].

Abbreviation IPinData := (jmap string Items) (only parsing).

(** * Node types *)

(** [NodeConnectionType | INodeInputConfiguration | INodeOutputConfiguration] *)
Inductive NodeIo :=
| IoName (t : NodeConnectionType)
| IoConfig (t : NodeConnectionType) (displayName : option string).

(** The declared inputs or outputs: an array, or an expression evaluated per node. *)
Inductive IoSpec :=
| IoList (l : list NodeIo)
| IoExpr (e : string).

Definition io_type (io : NodeIo) : NodeConnectionType :=
  match io with IoName t => t | IoConfig t _ => t end.

(** [requiredInputs?: string | number[] | number] *)
Inductive RequiredInputs :=
| ReqExpr (e : string)
| ReqList (l : list nat)
| ReqCount (n : nat).

Record INodeTypeDescription := mkDescription {
  d_name : string;
  d_group : list string;
  d_inputs : IoSpec;
  d_outputs : IoSpec;
  d_requiredInputs : option RequiredInputs;
  d_requestDefaults : bool;
}.

(** [nodeTypeData.group.includes('trigger')] *)
Definition isTriggerNode (d : INodeTypeDescription) : bool := bool_decide ("trigger" ∈ d_group d).

(** Which of the optional methods a node type has. *)
Record INodeType := mkNodeType {
  t_description : INodeTypeDescription;
  t_execute : bool;
  t_poll : bool;
  t_trigger : bool;
  t_webhook : bool;
  t_supplyData : bool;
}.
