(* ===== verification/Traversal.v ===== *)
(** Traversal: packages/workflow/src/common.

    [getConnectedNodes] and its wrappers [getChildNodes] and [getParentNodes],
    and [mapConnectionsByDestination], the inversion of the connections object. *)

From stdpp Require Import prelude list strings relations.
From Stdlib Require Import ZArith Lia.
From S2P Require Import Prelude Types.

(** [NodeConnectionType | 'ALL' | 'ALL_NON_MAIN'] *)
Inductive ConnFilter :=
| OfType (t : NodeConnectionType)
| ALL
| ALL_NON_MAIN.

Definition types_of (f : ConnFilter) (nc : INodeConnections) : list NodeConnectionType :=
  match f with
  | OfType t => [t]
  | ALL => jm_keys nc
  | ALL_NON_MAIN => filter (λ t, t ≠ Main) (jm_keys nc)
  end.

(** [indexOf], [splice] and [unshift]: the element moves to the front. *)
Definition move_to_front (x : string) (l : list string) : list string :=
  x :: match find_index (λ y, bool_decide (y = x)) l with
       | Some i => splice1 l i
       | None => l
       end.

(** The connections of one node and type, through all its slots in order. *)
Definition flat_conns (inputs : NodeInputConnections) : list IConnection :=
  mjoin (bucket <$> inputs).

Section Traversal.
Context (connections : IConnections).

(** The body of the two inner [forEach] of [getConnectedNodes]; [rec] is the recursive call. *)
Definition visit_connection (rec : string → list string) (checkedNodes : list string)
    (returnNodes : list string) (connection : IConnection) : list string :=
  if bool_decide (c_node connection ∈ checkedNodes) then returnNodes
  else
    let returnNodes := move_to_front (c_node connection) returnNodes in
    foldr move_to_front returnNodes (rec (c_node connection)).

Fixpoint connected_fuel (fuel : nat) (connectionType : ConnFilter) (depth : Z)
    (checkedNodesIncoming : list string) (nodeName : string) : list string :=
  match fuel with
  | 0 => []
  | S fuel =>
    let newDepth := if (depth =? -1)%Z then depth else (depth - 1)%Z in
    if (depth =? 0)%Z then []
    else match jm_get connections nodeName with
    | None => []
    | Some nodeConnections =>
      foldl (λ returnNodes type,
        match jm_get nodeConnections type with
        | None => returnNodes
        | Some inputs =>
          if bool_decide (nodeName ∈ checkedNodesIncoming) then returnNodes
          else
            let checkedNodes := checkedNodesIncoming ++ [nodeName] in
            foldl (visit_connection
                     (connected_fuel fuel connectionType newDepth checkedNodes) checkedNodes)
              returnNodes (flat_conns inputs)
        end) [] (types_of connectionType nodeConnections)
    end
  end.

(** The recursion only descends from unchecked keys of [connections], so one
    more step than there are keys is enough fuel ([connected_fuel_stable]). *)
Definition getConnectedNodes (nodeName : string) (connectionType : ConnFilter) (depth : Z)
    (checkedNodesIncoming : list string) : list string :=
  connected_fuel (S (length connections)) connectionType depth checkedNodesIncoming nodeName.

(** [a] has a connection to [b] of a type the filter admits. *)
Definition edge (f : ConnFilter) (a b : string) : Prop :=
  ∃ nc type inputs c, jm_get connections a = Some nc ∧ type ∈ types_of f nc ∧
    jm_get nc type = Some inputs ∧ c ∈ flat_conns inputs ∧ c_node c = b.

(** An edge whose target is not in [C]. *)
Definition edge_avoiding (f : ConnFilter) (C : list string) (a b : string) : Prop :=
  edge f a b ∧ b ∉ C.
End Traversal.

(** packages/workflow/src/common/get-child-nodes.ts and get-parent-nodes.ts *)
Definition getChildNodes (connectionsBySourceNode : IConnections) (nodeName : string)
    (type : ConnFilter) (depth : Z) : list string :=
  getConnectedNodes connectionsBySourceNode nodeName type depth [].

Definition getParentNodes (connectionsByDestinationNode : IConnections) (nodeName : string)
    (type : ConnFilter) (depth : Z) : list string :=
  getConnectedNodes connectionsByDestinationNode nodeName type depth [].

(** * Lemmas on [getConnectedNodes] *)

Lemma move_to_front_elem x y l : y ∈ move_to_front x l ↔ y = x ∨ y ∈ l.
Proof.
  unfold move_to_front. destruct (find_index _ l) as [i|] eqn:Hf; [|set_solver].
  apply find_index_Some in Hf as (z & Hz & Hx%bool_decide_unpack & _). subst z.
  apply splice1_perm in Hz. rewrite Hz at 2. set_solver.
Qed.

Lemma move_to_front_NoDup x l : NoDup l → NoDup (move_to_front x l).
Proof.
  unfold move_to_front. destruct (find_index _ l) as [i|] eqn:Hf; intros Hd.
  - apply find_index_Some in Hf as (z & Hz & Hx%bool_decide_unpack & _). subst z.
    by rewrite <- (splice1_perm _ _ _ Hz).
  - apply NoDup_cons; split; [|done]. intros Hin.
    apply find_index_None in Hf. rewrite Forall_forall in Hf.
    apply (Hf x Hin). by apply bool_decide_pack.
Qed.

Lemma foldr_move_elem y ret l : y ∈ foldr move_to_front ret l ↔ y ∈ l ∨ y ∈ ret.
Proof. induction l as [|x l IH]; simpl; [set_solver|]. rewrite move_to_front_elem, IH. set_solver. Qed.

Lemma foldr_move_NoDup ret l : NoDup ret → NoDup (foldr move_to_front ret l).
Proof. intros; induction l as [|x l IH]; simpl; [done|]. by apply move_to_front_NoDup. Qed.

Lemma visit_elem rec C ret c y :
  y ∈ visit_connection rec C ret c ↔
    y ∈ ret ∨ (c_node c ∉ C ∧ (y = c_node c ∨ y ∈ rec (c_node c))).
Proof.
  unfold visit_connection. case_bool_decide; [naive_solver|].
  rewrite foldr_move_elem, move_to_front_elem. naive_solver.
Qed.

Lemma foldl_visit_elem rec C ret cs y :
  y ∈ foldl (visit_connection rec C) ret cs ↔
    y ∈ ret ∨ ∃ c, c ∈ cs ∧ c_node c ∉ C ∧ (y = c_node c ∨ y ∈ rec (c_node c)).
Proof.
  revert ret; induction cs as [|c cs IH]; intros ret; simpl; [set_solver|].
  rewrite IH, visit_elem. set_solver.
Qed.

Lemma foldl_visit_NoDup rec C ret cs :
  NoDup ret → NoDup (foldl (visit_connection rec C) ret cs).
Proof.
  revert ret; induction cs as [|c cs IH]; intros ret Hd; simpl; [done|]. apply IH.
  unfold visit_connection. case_bool_decide; [done|].
  by apply foldr_move_NoDup, move_to_front_NoDup.
Qed.

Section Connected.
Context (connections : IConnections) (f : ConnFilter).
Local Notation go := (connected_fuel connections).
Local Notation edge := (edge connections f).
Local Notation edge_av := (edge_avoiding connections f).

Lemma connected_NoDup fuel depth C n : NoDup (go fuel f depth C n).
Proof.
  destruct fuel as [|fuel]; simpl; [by constructor|].
  destruct (depth =? 0)%Z; [by constructor|].
  destruct (jm_get connections n) as [nc|]; [|by constructor].
  apply (foldl_inv _ NoDup); [|by constructor]. intros ret t _ Hr.
  destruct (jm_get nc t); [|done]. case_bool_decide; [done|]. by apply foldl_visit_NoDup.
Qed.

(** One unfolding of the recursion, as a statement on membership. *)
Lemma connected_step fuel C n y :
  n ∉ C →
  y ∈ go (S fuel) f (-1) C n ↔
    ∃ c, edge n c ∧ c ∉ C ++ [n] ∧ (y = c ∨ y ∈ go fuel f (-1) (C ++ [n]) c).
Proof.
  intros Hn; cbn [connected_fuel]. change ((-1 =? 0)%Z) with false. change ((-1 =? -1)%Z) with true.
  cbn [andb]. destruct (jm_get connections n) as [nc|] eqn:Hnc; last first.
  { split; [by intros ?%not_elem_of_nil|]. intros (c & (nc & ? & ? & ? & ? & _) & _). congruence. }
  assert (∀ ts ret, y ∈ foldl (λ returnNodes type,
        match jm_get nc type with
        | None => returnNodes
        | Some inputs =>
          if bool_decide (n ∈ C) then returnNodes
          else foldl (visit_connection (go fuel f (-1) (C ++ [n])) (C ++ [n]))
              returnNodes (flat_conns inputs)
        end) ret ts ↔ y ∈ ret ∨ ∃ t inputs c, t ∈ ts ∧ jm_get nc t = Some inputs ∧
          c ∈ flat_conns inputs ∧ c_node c ∉ C ++ [n] ∧
          (y = c_node c ∨ y ∈ go fuel f (-1) (C ++ [n]) (c_node c))) as H.
  { induction ts as [|t ts IH]; intros ret; simpl; [set_solver|]. rewrite IH.
    destruct (jm_get nc t) as [inputs|] eqn:Ht; [|set_solver].
    rewrite bool_decide_false by done. rewrite foldl_visit_elem. set_solver. }
  rewrite H. split.
  - intros [?%not_elem_of_nil|(t & inputs & c & Ht & Hi & Hc & Hav & Hy)]; [done|].
    exists (c_node c). split; [|done]. by exists nc, t, inputs, c.
  - intros (c & (nc' & t & inputs & cc & ? & Ht & Hi & Hc & <-) & Hav & Hy). simplify_eq.
    right. by exists t, inputs, cc.
Qed.

(** The last visit of [n] on a path cuts it into one edge out of [n] and a path avoiding [n]. *)
Lemma path_leaves_last C n x :
  rtc (edge_av C) n x → x ≠ n →
  ∃ c, edge_av C n c ∧ c ≠ n ∧ rtc (edge_av (C ++ [n])) c x.
Proof.
  intros Hr; revert x Hr. apply (rtc_ind_r (λ x, x ≠ n → ∃ c, edge_av C n c ∧ c ≠ n ∧
    rtc (edge_av (C ++ [n])) c x)); [done|]. intros y z Hr Hyz IH Hz.
  destruct (decide (y = n)) as [->|Hy].
  - exists z; repeat split; [apply Hyz..|done|apply rtc_refl].
  - destruct (IH Hy) as (c & Hc & Hcn & Hcy). exists c; repeat split; [apply Hc..|done|].
    eapply rtc_r; [exact Hcy|]. split; [apply Hyz|]. destruct Hyz. set_solver.
Qed.

Lemma edge_av_weaken C n x y : rtc (edge_av (C ++ [n])) x y → rtc (edge_av C) x y.
Proof.
  apply rtc_subrel. intros a b [? ?]; split; set_solver.
Qed.

Lemma rtc_av_end C x y : rtc (edge_av C) x y → x ∉ C → y ∉ C.
Proof. induction 1 as [|x y z [_ Hy] _ IH]; auto. Qed.

Definition unchecked (C : list string) : nat :=
  length (filter (λ k, k ∉ C) (jm_keys connections)).

Lemma unchecked_step C n :
  n ∉ C → n ∈ jm_keys connections → unchecked (C ++ [n]) < unchecked C.
Proof.
  unfold unchecked. intros Hn. generalize (jm_keys connections).
  induction l as [|k l IH]; [by intros ?%not_elem_of_nil|].
  intros Hin. rewrite !filter_cons.
  assert (length (filter (λ k, k ∉ C ++ [n]) l) ≤ length (filter (λ k, k ∉ C) l)) as Hle.
  { clear. induction l as [|k l IH]; [done|]. rewrite !filter_cons.
    repeat case_decide; simpl; try lia. set_solver. }
  apply elem_of_cons in Hin as [<-|Hin].
  - rewrite decide_False by set_solver. rewrite decide_True by done. simpl; lia.
  - specialize (IH Hin). repeat case_decide; simpl; try lia. set_solver.
Qed.

(** The nodes collected from [n] are those reachable from it by edges avoiding [C]. *)
Lemma connected_spec fuel C n x :
  n ∉ C → unchecked C < fuel →
  x ∈ go fuel f (-1) C n ↔ x ≠ n ∧ x ∉ C ∧ rtc (edge_av C) n x.
Proof.
  revert C n; induction fuel as [|fuel IH]; intros C n Hn Hf; [lia|].
  rewrite connected_step by done. split.
  - intros (c & Hc & Hav & Hy).
    assert (rtc (edge_av (C ++ [n])) c x ∧ x ∉ C ++ [n]) as [Hr Hx].
    { destruct Hy as [->|Hy]; [by split; [apply rtc_refl|]|].
      apply IH in Hy as (Hxc & HxC & Hr); [done|done|].
      assert (n ∈ jm_keys connections).
      { destruct Hc as (nc & ? & ? & ? & Hnc & _). apply jm_has_spec. unfold jm_has. by rewrite Hnc. }
      pose proof (unchecked_step C n Hn ltac:(done)). lia. }
    split_and!; [set_solver|set_solver|].
    eapply rtc_l; [|by eapply edge_av_weaken]. split; set_solver.
  - intros (Hxn & HxC & Hr).
    destruct (path_leaves_last C n x Hr Hxn) as (c & [Hc HcC] & Hcn & Hcx).
    exists c; split; [done|]. assert (c ∉ C ++ [n]) as Hav by set_solver. split; [done|].
    destruct (decide (x = c)) as [->|Hxc]; [by left|right].
    apply IH; [done| |].
    { assert (n ∈ jm_keys connections).
      { destruct Hc as (nc & ? & ? & ? & Hnc & _). apply jm_has_spec. unfold jm_has. by rewrite Hnc. }
      pose proof (unchecked_step C n Hn ltac:(done)). lia. }
    split_and!; [done| |done]. by eapply rtc_av_end.
Qed.
End Connected.

(** * Fuel *)

Lemma foldl_visit_ext rec1 rec2 C ret cs :
  (∀ m, rec1 m = rec2 m) →
  foldl (visit_connection rec1 C) ret cs = foldl (visit_connection rec2 C) ret cs.
Proof.
  intros H. apply foldl_ext_in. intros s c _. unfold visit_connection. by rewrite H.
Qed.

Lemma connected_fuel_stable connections f fuel fuel' depth C n :
  unchecked connections C < fuel → fuel ≤ fuel' →
  connected_fuel connections fuel f depth C n = connected_fuel connections fuel' f depth C n.
Proof.
  revert fuel' depth C n; induction fuel as [|fuel IH]; intros fuel' depth C n Hf Hle; [lia|].
  destruct fuel' as [|fuel']; [lia|]. simpl.
  destruct (depth =? 0)%Z; [done|].
  destruct (jm_get connections n) as [nc|] eqn:Hnc; [|done].
  assert (n ∈ jm_keys connections) as Hkey by (apply jm_has_spec; unfold jm_has; by rewrite Hnc).
  apply foldl_ext_in. intros ret t _. destruct (jm_get nc t); [|done].
  case_bool_decide as HC; [done|]. apply foldl_visit_ext. intros m. apply IH; [|lia].
  pose proof (unchecked_step connections C n HC Hkey). lia.
Qed.

Lemma unchecked_bound connections C : unchecked connections C ≤ length connections.
Proof.
  unfold unchecked, jm_keys. etrans; [apply length_filter|]. by rewrite length_fmap.
Qed.

(** * mapConnectionsByDestination *)

(** Every connection with its source node, source type and source index, in iteration order. *)
Definition all_conns (cs : IConnections) : list (string * NodeConnectionType * nat * IConnection) :=
  '(sourceNode, nc) ← cs; '(type, inputs) ← nc; '(inputIndex, b) ← entries inputs;
  connectionInfo ← bucket b; [(sourceNode, type, inputIndex, connectionInfo)].

(** The pushes of [for (let j = maxIndex; j < connectionInfo.index; j++)]. *)
Definition pad_slots (l : NodeInputConnections) (index : nat) : NodeInputConnections :=
  l ++ replicate (S index - length l) (Some []).

(** [arr[i]?.push(x)]: nothing happens on a null slot. *)
Definition slot_push (l : NodeInputConnections) (i : nat) (x : IConnection) : NodeInputConnections :=
  match l !! i with
  | Some (Some b) => <[i := Some (b ++ [x])]> l
  | _ => l
  end.

(** The body of the innermost loop: [connectionInfo] is filed under its destination. *)
Definition add_by_destination (returnConnection : IConnections)
    (e : string * NodeConnectionType * nat * IConnection) : IConnections :=
  let '(sourceNode, type, inputIndex, connectionInfo) := e in
  let nodeConns := default [] (jm_get returnConnection (c_node connectionInfo)) in
  let inputs := default [] (jm_get nodeConns (c_type connectionInfo)) in
  let padded := pad_slots inputs (c_index connectionInfo) in
  let inputs' := slot_push padded (c_index connectionInfo) (mkConn sourceNode type inputIndex) in
  jm_set returnConnection (c_node connectionInfo) (jm_set nodeConns (c_type connectionInfo) inputs').

Definition mapConnectionsByDestination (connections : IConnections) : IConnections :=
  foldl add_by_destination [] (all_conns connections).

(** [Workflow.getConnectionsByDestination] repeats the same loops. *)
Definition getConnectionsByDestination (connections : IConnections) : IConnections :=
  foldl add_by_destination [] (all_conns connections).

(** The two ends of a connection exchanged. *)
Definition flip_conn (e : string * NodeConnectionType * nat * IConnection)
    : string * NodeConnectionType * nat * IConnection :=
  let '(s, t, i, c) := e in (c_node c, c_type c, c_index c, mkConn s t i).

(** [null] slots never occur in the output of the inversion. *)
Definition no_null (cs : IConnections) : Prop :=
  ∀ s nc t inputs, (s, nc) ∈ cs → (t, inputs) ∈ nc → Forall is_Some inputs.

Lemma mjoin_pair_app {A} (l1 l2 : list (list A)) : mjoin (l1 ++ l2) = mjoin l1 ++ mjoin l2.
Proof. apply join_app. Qed.

Definition conns_of_inputs (s : string) (t : NodeConnectionType) (inputs : NodeInputConnections)
    : list (string * NodeConnectionType * nat * IConnection) :=
  '(i, b) ← entries inputs; c ← bucket b; [(s, t, i, c)].

Definition conns_of_node (s : string) (nc : INodeConnections)
    : list (string * NodeConnectionType * nat * IConnection) :=
  '(t, inputs) ← nc; conns_of_inputs s t inputs.

Lemma all_conns_app cs1 cs2 : all_conns (cs1 ++ cs2) = all_conns cs1 ++ all_conns cs2.
Proof. unfold all_conns. by rewrite bind_app. Qed.

Lemma all_conns_cons s nc cs : all_conns ((s, nc) :: cs) = conns_of_node s nc ++ all_conns cs.
Proof. done. Qed.

Lemma conns_of_node_app s nc1 nc2 :
  conns_of_node s (nc1 ++ nc2) = conns_of_node s nc1 ++ conns_of_node s nc2.
Proof. unfold conns_of_node. by rewrite bind_app. Qed.

Lemma conns_of_node_cons s t inputs nc :
  conns_of_node s ((t, inputs) :: nc) = conns_of_inputs s t inputs ++ conns_of_node s nc.
Proof. done. Qed.

Definition tag_slot (s : string) (t : NodeConnectionType) (i : nat) (b : option (list IConnection))
    : list (string * NodeConnectionType * nat * IConnection) :=
  (λ c, (s, t, i, c)) <$> bucket b.

Lemma bind_singleton {A B} (f : A → B) (l : list A) : (x ← l; [f x]) = f <$> l.
Proof. induction l as [|x l IH]; [done|]. cbn. by f_equal. Qed.

Lemma conns_of_inputs_alt s t inputs :
  conns_of_inputs s t inputs = mjoin (imap (tag_slot s t) inputs).
Proof.
  unfold conns_of_inputs, entries, tag_slot.
  assert (∀ k, (ib ← imap (λ i b, (k + i, b)) inputs; let '(i, b) := ib in
      c ← bucket b; [(s, t, i, c)]) = mjoin (imap (λ i b, (λ c, (s, t, k + i, c)) <$> bucket b) inputs)) as H.
  { induction inputs as [|b inputs IH]; intros k; [done|].
    rewrite !imap_cons. cbn. rewrite Nat.add_0_r, bind_singleton. f_equal.
    specialize (IH (S k)). etrans; [|etrans; [exact IH|]].
    - f_equal. apply imap_ext. intros; cbn. f_equal. lia.
    - f_equal. apply imap_ext. intros; cbn. apply list_fmap_ext. intros. do 2 f_equal. lia. }
  apply (H 0).
Qed.

Lemma conns_of_inputs_app s t l1 l2 :
  conns_of_inputs s t (l1 ++ l2) =
    conns_of_inputs s t l1 ++ mjoin (imap (λ i, tag_slot s t (length l1 + i)) l2).
Proof. rewrite !conns_of_inputs_alt, imap_app, join_app. done. Qed.

Lemma conns_of_inputs_pad s t l index :
  conns_of_inputs s t (pad_slots l index) = conns_of_inputs s t l.
Proof.
  unfold pad_slots. rewrite conns_of_inputs_app.
  assert (∀ n (g : nat → nat), mjoin (imap (λ i, tag_slot s t (g i)) (replicate n (Some []))) = []) as H.
  { induction n as [|n IH]; intros g; [done|]. apply (IH (λ i, g (S i))). }
  by rewrite H, app_nil_r.
Qed.

Lemma pad_slots_lookup l index :
  Forall is_Some l → ∃ b, pad_slots l index !! index = Some (Some b).
Proof.
  intros Hl. unfold pad_slots. destruct (decide (index < length l)) as [Hlt|Hge].
  - rewrite lookup_app_l by done. destruct (lookup_lt_is_Some_2 l index Hlt) as [b Hb].
    rewrite Hb. rewrite Forall_forall in Hl.
    destruct (Hl b) as [b' ->]; [by eapply list_elem_of_lookup_2|]. eauto.
  - rewrite lookup_app_r by lia. rewrite lookup_replicate_2 by lia. eauto.
Qed.

Lemma pad_slots_no_null l index : Forall is_Some l → Forall is_Some (pad_slots l index).
Proof. intros; apply Forall_app; split; [done|]. apply Forall_replicate. eauto. Qed.

Lemma conns_of_inputs_push s t l i x b :
  l !! i = Some (Some b) →
  conns_of_inputs s t (slot_push l i x) ≡ₚ (s, t, i, x) :: conns_of_inputs s t l.
Proof.
  intros Hi. unfold slot_push. rewrite Hi. rewrite !conns_of_inputs_alt.
  rewrite <- (take_drop_middle l i (Some b) Hi) at 2.
  rewrite insert_take_drop by (by eapply lookup_lt_Some).
  rewrite !imap_app. simpl. rewrite !join_app. simpl.
  assert (length (take i l) = i) as Hlen.
  { rewrite length_take. apply lookup_lt_Some in Hi. lia. }
  rewrite Hlen, Nat.add_0_r. unfold tag_slot at 2 4. simpl. rewrite fmap_app. simpl.
  rewrite <- !app_assoc. simpl. rewrite Permutation_middle.
  apply Permutation_app_head. by rewrite Permutation_middle.
Qed.

Lemma slot_push_no_null l i x : Forall is_Some l → Forall is_Some (slot_push l i x).
Proof.
  intros Hl. unfold slot_push. destruct (l !! i) as [[b|]|]; [|done..].
  apply Forall_insert; eauto.
Qed.

Lemma conns_of_node_set s nc t inputs x :
  conns_of_inputs s t inputs ≡ₚ x :: conns_of_inputs s t (default [] (jm_get nc t)) →
  conns_of_node s (jm_set nc t inputs) ≡ₚ x :: conns_of_node s nc.
Proof.
  intros H. destruct (jm_set_split nc t inputs) as [[Hn ->]|(m1 & v0 & m2 & Hg & -> & ->)].
  - rewrite Hn in H. rewrite conns_of_node_app, conns_of_node_cons. simpl in *.
    rewrite app_nil_r, H. change (conns_of_inputs s t []) with (@nil (string * NodeConnectionType * nat * IConnection)).
    symmetry; apply Permutation_cons_append.
  - rewrite Hg in H. simpl in H. rewrite !conns_of_node_app, !conns_of_node_cons, H.
    symmetry; apply Permutation_middle.
Qed.

Lemma all_conns_set cs s nc x :
  conns_of_node s nc ≡ₚ x :: conns_of_node s (default [] (jm_get cs s)) →
  all_conns (jm_set cs s nc) ≡ₚ x :: all_conns cs.
Proof.
  intros H. destruct (jm_set_split cs s nc) as [[Hn ->]|(m1 & v0 & m2 & Hg & -> & ->)].
  - rewrite Hn in H. rewrite all_conns_app, all_conns_cons. simpl in *.
    change (all_conns []) with (@nil (string * NodeConnectionType * nat * IConnection)).
    rewrite app_nil_r, H. change (conns_of_node s []) with (@nil (string * NodeConnectionType * nat * IConnection)).
    symmetry; apply Permutation_cons_append.
  - rewrite Hg in H. simpl in H. rewrite !all_conns_app, !all_conns_cons, H.
    symmetry; apply Permutation_middle.
Qed.

Lemma no_null_get cs s nc t inputs :
  no_null cs → jm_get cs s = Some nc → jm_get nc t = Some inputs → Forall is_Some inputs.
Proof. intros H Hs Ht. eapply H; by apply jm_get_Some_elem. Qed.

Lemma no_null_default cs s t :
  no_null cs → Forall is_Some (default [] (jm_get (default [] (jm_get cs s)) t)).
Proof.
  intros H. destruct (jm_get cs s) as [nc|] eqn:Hs; simpl; [|done].
  destruct (jm_get nc t) as [inputs|] eqn:Ht; simpl; [|done].
  by eapply no_null_get.
Qed.

Lemma add_by_destination_no_null ret e : no_null ret → no_null (add_by_destination ret e).
Proof.
  destruct e as [[[s t] i] c]. intros H s' nc' t' inputs' Hs Ht. unfold add_by_destination in Hs.
  apply jm_elem_set in Hs as [[= -> ->]|Hs]; [|by eapply H].
  apply jm_elem_set in Ht as [[= -> ->]|Ht].
  - by apply slot_push_no_null, pad_slots_no_null, no_null_default.
  - destruct (jm_get ret (c_node c)) as [nc|] eqn:Hg; simpl in Ht; [|by apply not_elem_of_nil in Ht].
    eapply H; [by apply jm_get_Some_elem|done].
Qed.

Lemma add_by_destination_perm ret e :
  no_null ret → all_conns (add_by_destination ret e) ≡ₚ flip_conn e :: all_conns ret.
Proof.
  destruct e as [[[s t] i] c]. intros Hnn. unfold add_by_destination. simpl.
  apply all_conns_set, conns_of_node_set.
  destruct (pad_slots_lookup _ (c_index c) (no_null_default ret (c_node c) (c_type c) Hnn)) as [b Hb].
  rewrite (conns_of_inputs_push _ _ _ _ _ _ Hb), conns_of_inputs_pad. done.
Qed.

Lemma mapConnections_perm_acc l ret :
  no_null ret →
  all_conns (foldl add_by_destination ret l) ≡ₚ (flip_conn <$> l) ++ all_conns ret ∧
  no_null (foldl add_by_destination ret l).
Proof.
  revert ret; induction l as [|e l IH]; intros ret Hnn; simpl; [done|].
  destruct (IH (add_by_destination ret e)) as [IH1 IH2].
  { by apply add_by_destination_no_null. }
  split; [|done]. rewrite IH1, add_by_destination_perm by done. by rewrite <- Permutation_middle.
Qed.

Lemma flip_conn_invol e : flip_conn (flip_conn e) = e.
Proof. destruct e as [[[s t] i] [n ct ci]]; done. Qed.

(** The nodes found are those a path reaches. *)
Lemma connected_elem connections f n x :
  x ∈ getConnectedNodes connections n f (-1) [] ↔ x ≠ n ∧ rtc (edge connections f) n x.
Proof.
  unfold getConnectedNodes.
  rewrite connected_spec; [|set_solver|pose proof (unchecked_bound connections []); lia].
  assert (rtc (edge_avoiding connections f []) n x ↔ rtc (edge connections f) n x) as ->.
  { split; apply rtc_subrel; unfold edge_avoiding; set_solver. }
  set_solver.
Qed.

(** * Properties *)

(** [getConnectedNodes] with no depth limit returns, without duplicates, exactly the nodes other
    than the start that a path of connections of the requested types reaches from it. *)
Theorem getConnectedNodes_reachable connections f n :
  NoDup (getConnectedNodes connections n f (-1) []) ∧
  ∀ x, x ∈ getConnectedNodes connections n f (-1) [] ↔ x ≠ n ∧ rtc (edge connections f) n x.
Proof. split; [apply connected_NoDup|]. intros x. apply connected_elem. Qed.

(** The recursion of [getConnectedNodes] terminates: the fuel built into the model is enough,
    so that the model satisfies the recursive equation of the source for every depth, filter and
    list of already checked nodes. *)
Theorem getConnectedNodes_equation connections n f depth C :
  getConnectedNodes connections n f depth C =
    if (depth =? 0)%Z then [] else
    match jm_get connections n with
    | None => []
    | Some nc =>
      foldl (λ returnNodes type,
        match jm_get nc type with
        | None => returnNodes
        | Some inputs =>
          if bool_decide (n ∈ C) then returnNodes
          else foldl (visit_connection (λ m,
                  getConnectedNodes connections m f
                    (if (depth =? -1)%Z then depth else (depth - 1)%Z) (C ++ [n])) (C ++ [n]))
                returnNodes (flat_conns inputs)
        end) [] (types_of f nc)
    end.
Proof.
  unfold getConnectedNodes at 1. cbn [connected_fuel].
  destruct (depth =? 0)%Z; [done|].
  destruct (jm_get connections n) as [nc|] eqn:Hnc; [|done].
  assert (n ∈ jm_keys connections) as Hkey by (apply jm_has_spec; unfold jm_has; by rewrite Hnc).
  apply foldl_ext_in. intros ret t _. destruct (jm_get nc t); [|done].
  case_bool_decide as HC; [done|]. apply foldl_visit_ext. intros m.
  apply connected_fuel_stable; [|lia].
  pose proof (unchecked_step connections C n HC Hkey). pose proof (unchecked_bound connections C). lia.
Qed.

(** [mapConnectionsByDestination] is the inversion of the connections object: every connection,
    counted with its multiplicity, appears once in the result with its two ends exchanged, and
    inverting twice gives back the original connections. *)
Theorem mapConnectionsByDestination_inverse cs :
  all_conns (mapConnectionsByDestination cs) ≡ₚ flip_conn <$> all_conns cs ∧
  all_conns (mapConnectionsByDestination (mapConnectionsByDestination cs)) ≡ₚ all_conns cs.
Proof.
  assert (∀ cs, all_conns (mapConnectionsByDestination cs) ≡ₚ flip_conn <$> all_conns cs) as H.
  { intros cs'. unfold mapConnectionsByDestination.
    destruct (mapConnections_perm_acc (all_conns cs') []) as [-> _]; [|by rewrite app_nil_r].
    by intros ???? ?%not_elem_of_nil. }
  split; [apply H|]. rewrite H, H, <- list_fmap_compose.
  erewrite list_fmap_ext; [by rewrite list_fmap_id|]. intros i e _. apply flip_conn_invol.
Qed.
