(* ===== verification/GraphUtils.v ===== *)
(** GraphUtils: packages/workflow/src/graph/graph-utils.ts and
    node-grouping-validation.ts.

    Edges into and out of a selection of nodes, its roots and leaves, path
    search, and the test that a selection can be extracted or grouped.  A JS
    [Set] of connection objects is compared by reference, so the set stored in
    an adjacency list is the list of the connection objects. *)

From stdpp Require Import prelude list strings relations.
From Stdlib Require Import ZArith Lia.
From S2P Require Import Prelude Types Traversal.

Abbreviation IConnectionAdjacencyList := (jmap string (list IConnection)).

(** * Edges, sets, roots and leaves *)

Definition getInputEdges (graphIds : list string) (adjacencyList : IConnectionAdjacencyList)
    : list (string * IConnection) :=
  '(from, tos) ← adjacencyList;
  if js_has graphIds from then [] else
  to ← tos; if js_has graphIds (c_node to) then [(from, to)] else [].

Definition getOutputEdges (graphIds : list string) (adjacencyList : IConnectionAdjacencyList)
    : list (string * IConnection) :=
  '(from, tos) ← adjacencyList;
  if negb (js_has graphIds from) then [] else
  to ← tos; if negb (js_has graphIds (c_node to)) then [(from, to)] else [].

Definition js_intersection (a b : list string) : list string :=
  foldl (λ result x, if js_has b x then js_add result x else result) [] a.

Definition js_union (a b : list string) : list string :=
  foldl js_add (foldl js_add [] a) b.

Definition js_difference (minuend subtrahend : list string) : list string :=
  foldl js_del minuend subtrahend.

(** [[...(adjacencyList.get(id) ?? [])].filter((x) => x.type === 'main').map((x) => x.node)] *)
Definition main_targets (adjacencyList : IConnectionAdjacencyList) (nodeId : string) : list string :=
  c_node <$> filter (λ x, c_type x = Main) (default [] (jm_get adjacencyList nodeId)).

Definition main_targets_other (adjacencyList : IConnectionAdjacencyList) (nodeId : string)
    : list string :=
  c_node <$> filter (λ x, c_type x = Main ∧ c_node x ≠ nodeId) (default [] (jm_get adjacencyList nodeId)).

Definition getRootNodes (graphIds : list string) (adjacencyList : IConnectionAdjacencyList)
    : list string :=
  let innerNodes := foldl (λ innerNodes nodeId,
    js_union innerNodes (js_of_list (main_targets_other adjacencyList nodeId))) [] graphIds in
  js_difference graphIds innerNodes.

Definition getLeafNodes (graphIds : list string) (adjacencyList : IConnectionAdjacencyList)
    : list string :=
  foldl (λ result nodeId,
    if bool_decide (js_intersection (js_of_list (main_targets_other adjacencyList nodeId)) graphIds = [])
    then js_add result nodeId else result) [] graphIds.

(** * hasPath

    The loop keeps a stack [paths] and the set [seen]; [fuel] bounds the number
    of its iterations and [None] is running out of it. *)

Fixpoint hasPath_loop (adjacencyList : IConnectionAdjacencyList) (end_ : string) (fuel : nat)
    (seen paths : list string) : option bool :=
  match fuel with
  | 0 => None
  | S fuel =>
    match last paths with
    | None => Some false
    | Some next =>
      if bool_decide (next = end_) then Some true
      else
        let seen := js_add seen next in
        hasPath_loop adjacencyList end_ fuel seen
          (removelast paths ++ js_difference (js_of_list (main_targets adjacencyList next)) seen)
    end
  end.

Definition hasPath (fuel : nat) (start end_ : string) (adjacencyList : IConnectionAdjacencyList)
    : option bool :=
  hasPath_loop adjacencyList end_ fuel [] [start].

(** * buildAdjacencyList *)

Definition addOrCreate (result : IConnectionAdjacencyList) (k : string) (v : IConnection)
    : IConnectionAdjacencyList :=
  jm_set result k (default [] (jm_get result k) ++ [v]).

Definition buildAdjacencyList (connectionsBySourceNode : IConnections) : IConnectionAdjacencyList :=
  foldl (λ result '(sourceNode, _, _, connection), addOrCreate result sourceNode connection)
    [] (all_conns connectionsBySourceNode).

(** * parseExtractableSubgraphSelection *)

Inductive ExtractableErrorResult :=
| MultipleInputNodes (nodes : list string)
| MultipleOutputNodes (nodes : list string)
| InputEdgeToNonRootNode (node : string)
| OutputEdgeFromNonLeafNode (node : string)
| NoContinuousPathFromRootToLeaf (start end_ : string).

Record ExtractableSubgraphData := mkSubgraph {
  sg_start : option string;
  sg_end : option string;
}.

(** Everything up to the path search: the errors found, and the start and end node. *)
Definition selection_checks (graphIds : list string) (adjacencyList : IConnectionAdjacencyList)
    : list ExtractableErrorResult * option string * option string :=
  let inputEdges := getInputEdges graphIds adjacencyList in
  let inputNodes := js_of_list ((λ x, c_node x.2) <$> filter (λ x, c_type x.2 = Main) inputEdges) in
  let rootNodes := getRootNodes graphIds adjacencyList in
  let rootNodes :=
    if (length rootNodes =? 0) && (length inputNodes =? 1) then inputNodes else rootNodes in
  let inputErrors := InputEdgeToNonRootNode <$> js_difference inputNodes rootNodes in
  let rootInputNodes := js_intersection rootNodes inputNodes in
  let manyInputs := if 1 <? length rootInputNodes then [MultipleInputNodes rootInputNodes] else [] in
  let outputEdges := getOutputEdges graphIds adjacencyList in
  let outputNodes := js_of_list (fst <$> filter (λ x, c_type x.2 = Main) outputEdges) in
  let leafNodes := getLeafNodes graphIds adjacencyList in
  let leafNodes :=
    if (length leafNodes =? 0) && (length outputNodes =? 1) then outputNodes else leafNodes in
  let outputErrors := OutputEdgeFromNonLeafNode <$> js_difference outputNodes leafNodes in
  let leafOutputNodes := js_intersection leafNodes outputNodes in
  let manyOutputs := if 1 <? length leafOutputNodes then [MultipleOutputNodes leafOutputNodes] else [] in
  (inputErrors ++ manyInputs ++ outputErrors ++ manyOutputs,
   head rootInputNodes, head leafOutputNodes).

Definition parseExtractableSubgraphSelection (fuel : nat) (graphIds : list string)
    (adjacencyList : IConnectionAdjacencyList)
    : option (result (list ExtractableErrorResult) ExtractableSubgraphData) :=
  let '(errors, start, end_) := selection_checks graphIds adjacencyList in
  let finish errors :=
    Some (match errors with [] => Ok (mkSubgraph start end_) | _ => Err errors end) in
  match start, end_ with
  | Some s, Some e =>
    if str_truthy start && str_truthy end_ then
      match hasPath fuel s e adjacencyList with
      | None => None
      | Some true => finish errors
      | Some false => finish (errors ++ [NoContinuousPathFromRootToLeaf s e])
      end
    else finish errors
  | _, _ => finish errors
  end.

(** * Node grouping *)

Record IWorkflowGroup := mkGroup { g_nodeIds : list string }.

Inductive NodeSelectionValidationResult :=
| SelValid (subGraph : list INode) (subGraphData : ExtractableSubgraphData)
| SelTrigger (triggers : list string)
| SelInvalidSubgraph (errors : list ExtractableErrorResult)
| SelMultipleInputBranches (node : string)
| SelMultipleOutputBranches (node : string)
| SelAlreadyGrouped (nodeIds : list string)
| SelNonMainBoundary (source target type : string).

Definition findAlreadyGroupedNodeIds (selectionNodeIds : list string)
    (existingNodeGroups : list IWorkflowGroup) : list string :=
  let groupedNodeIds := js_of_list (mjoin (g_nodeIds <$> existingNodeGroups)) in
  filter (λ nodeId, js_has groupedNodeIds nodeId = true) selectionNodeIds.

Definition isMainIo (io : NodeIo) : bool := bool_decide (io_type io = Main).

(** Both sides of every connection inside the selection are neighbours of each other. *)
Definition add_neighbors (nodeNames : list string) (neighbors : jmap string (list string))
    (sourceNodeName : string) (connection : IConnection) : jmap string (list string) :=
  let targetNodeName := c_node connection in
  if negb (js_has nodeNames targetNodeName) || bool_decide (targetNodeName = sourceNodeName)
  then neighbors
  else
    let neighbors := jm_set neighbors sourceNodeName
      (js_add (default [] (jm_get neighbors sourceNodeName)) targetNodeName) in
    match jm_get neighbors targetNodeName with
    | Some s => jm_set neighbors targetNodeName (js_add s sourceNodeName)
    | None => neighbors
    end.

(** The connections of one entry of the adjacency list. *)
Definition neighbors_step (nodeNames : list string) (neighbors : jmap string (list string))
    (entry : string * list IConnection) : jmap string (list string) :=
  let '(sourceNodeName, connections) := entry in
  if negb (js_has nodeNames sourceNodeName) then neighbors
  else match jm_get neighbors sourceNodeName with
  | None => neighbors
  | Some _ => foldl (λ ns c, add_neighbors nodeNames ns sourceNodeName c) neighbors connections
  end.

Definition neighborsByNodeName (nodeNames : list string)
    (currentAdjacencyList : IConnectionAdjacencyList) : jmap string (list string) :=
  foldl (neighbors_step nodeNames) (foldl (λ m nodeName, jm_set m nodeName []) [] nodeNames)
    currentAdjacencyList.

(** One iteration of the inner [for]: an unvisited neighbour is visited and queued. *)
Definition enqueue_unvisited (st : list string * list string) (neighborNodeName : string)
    : list string * list string :=
  let '(visited, queue) := st in
  if js_has visited neighborNodeName then st
  else (js_add visited neighborNodeName, queue ++ [neighborNodeName]).

Fixpoint bfs_loop (neighbors : jmap string (list string)) (fuel : nat)
    (visited queue : list string) : option (list string) :=
  match queue with
  | [] => Some visited
  | currentNodeName :: queue =>
    match fuel with
    | 0 => None
    | S fuel =>
      if bool_decide (currentNodeName = "") then bfs_loop neighbors fuel visited queue
      else
        let '(visited, queue) :=
          foldl enqueue_unvisited (visited, queue) (default [] (jm_get neighbors currentNodeName)) in
        bfs_loop neighbors fuel visited queue
    end
  end.

(** A node enters the queue once, so the number of names bounds the iterations
    ([findDisconnected_fuel]). *)
Definition findDisconnectedSelectionError (nodeNames : list string)
    (currentAdjacencyList : IConnectionAdjacencyList) : option (option ExtractableErrorResult) :=
  if length nodeNames <=? 1 then Some None
  else match head nodeNames with
  | None => Some None
  | Some firstNodeName =>
    if bool_decide (firstNodeName = "") then Some None
    else
      visited ← bfs_loop (neighborsByNodeName nodeNames currentAdjacencyList)
                  (S (length nodeNames)) [firstNodeName] [firstNodeName];
      if length visited =? length nodeNames then Some None
      else match head (filter (λ n, js_has visited n = false) nodeNames) with
      | None => Some None
      | Some disconnectedNodeName =>
        if bool_decide (disconnectedNodeName = "") then Some None
        else Some (Some (NoContinuousPathFromRootToLeaf firstNodeName disconnectedNodeName))
      end
  end.

Definition findNonMainBoundaryConnection (nodeNames : list string)
    (connectionsBySourceNode : IConnections) : option (string * string * string) :=
  head ('(sourceNodeName, type, _, connection) ← all_conns connectionsBySourceNode;
        if bool_decide (type = Main) then []
        else if eqb (js_has nodeNames sourceNodeName) (js_has nodeNames (c_node connection)) then []
        else [(sourceNodeName, c_node connection, type)]).

Inductive IODirection := DirInputs | DirOutputs.

Section NodeGrouping.
Context (getNodeType : INode → option INodeTypeDescription).
Context (getNodeInputs : option (INode → INodeTypeDescription → list NodeIo)).
Context (getNodeOutputs : option (INode → INodeTypeDescription → list NodeIo)).

Definition hasSingleMainIO (nodeName : string) (direction : IODirection)
    (nodesByName : jmap string INode) : bool :=
  match jm_get nodesByName nodeName with
  | None => true
  | Some node =>
    match getNodeType node with
    | None => true
    | Some nodeType =>
      let ios :=
        match direction with
        | DirInputs =>
          match getNodeInputs with Some f => IoList (f node nodeType) | None => d_inputs nodeType end
        | DirOutputs =>
          match getNodeOutputs with Some f => IoList (f node nodeType) | None => d_outputs nodeType end
        end in
      match ios with
      | IoExpr _ => true
      | IoList l => length (filter (λ io, isMainIo io = true) l) <=? 1
      end
    end
  end.

Definition validateNodeSelectionForExtraction (fuel : nat) (nodes : list INode)
    (connectionsBySourceNode : IConnections) : option NodeSelectionValidationResult :=
  let triggers := filter (λ node,
    match getNodeType node with Some d => isTriggerNode d | None => false end = true) nodes in
  if 0 <? length triggers then Some (SelTrigger (n_name <$> triggers))
  else
    let adjacencyList := buildAdjacencyList connectionsBySourceNode in
    let selectedNodeNames := js_of_list (n_name <$> nodes) in
    selection ← parseExtractableSubgraphSelection fuel selectedNodeNames adjacencyList;
    match selection with
    | Err errors => Some (SelInvalidSubgraph errors)
    | Ok selection =>
      disconnectedSelectionError ← findDisconnectedSelectionError selectedNodeNames adjacencyList;
      match disconnectedSelectionError with
      | Some e => Some (SelInvalidSubgraph [e])
      | None =>
        let nodesByName := foldl (λ m node, jm_set m (n_name node) node) [] nodes in
        let bad dir s := str_truthy s && negb (hasSingleMainIO (default "" s) dir nodesByName) in
        if bad DirInputs (sg_start selection)
        then Some (SelMultipleInputBranches (default "" (sg_start selection)))
        else if bad DirOutputs (sg_end selection)
        then Some (SelMultipleOutputBranches (default "" (sg_end selection)))
        else Some (SelValid nodes selection)
      end
    end.

Definition validateNodeSelectionForGrouping (fuel : nat) (nodes : list INode)
    (connectionsBySourceNode : IConnections) (existingNodeGroups : list IWorkflowGroup)
    : option NodeSelectionValidationResult :=
  let alreadyGroupedNodeIds := findAlreadyGroupedNodeIds (n_id <$> nodes) existingNodeGroups in
  if 0 <? length alreadyGroupedNodeIds then Some (SelAlreadyGrouped alreadyGroupedNodeIds)
  else
    extractableResult ← validateNodeSelectionForExtraction fuel nodes connectionsBySourceNode;
    match extractableResult with
    | SelValid subGraph _ =>
      let nodeNames := js_of_list (n_name <$> subGraph) in
      match findNonMainBoundaryConnection nodeNames connectionsBySourceNode with
      | Some (source, target, type) => Some (SelNonMainBoundary source target type)
      | None => Some extractableResult
      end
    | _ => Some extractableResult
    end.
End NodeGrouping.

(** * Lemmas on the set operations *)

Lemma js_intersection_elem a b x : x ∈ js_intersection a b ↔ x ∈ a ∧ x ∈ b.
Proof.
  unfold js_intersection.
  assert (∀ acc, x ∈ foldl (λ result x, if js_has b x then js_add result x else result) acc a ↔
    x ∈ acc ∨ (x ∈ a ∧ x ∈ b)) as H.
  { induction a as [|y a IH]; intros acc; simpl; [set_solver|]. rewrite IH.
    destruct (js_has b y) eqn:Hy; [apply js_has_true in Hy; rewrite js_add_elem|apply js_has_false in Hy];
      set_solver. }
  rewrite H. set_solver.
Qed.

Lemma js_difference_elem a b x : x ∈ js_difference a b ↔ x ∈ a ∧ x ∉ b.
Proof.
  unfold js_difference. revert a; induction b as [|y b IH]; intros a; simpl; [set_solver|].
  rewrite IH, js_del_elem. set_solver.
Qed.

Lemma js_difference_NoDup a b : NoDup a → NoDup (js_difference a b).
Proof. intros; unfold js_difference. apply (foldl_inv _ NoDup); auto using js_del_NoDup. Qed.

Lemma js_union_elem a b x : x ∈ js_union a b ↔ x ∈ a ∨ x ∈ b.
Proof. unfold js_union. rewrite !foldl_js_add_elem. set_solver. Qed.

Lemma main_targets_elem adj n x :
  x ∈ main_targets adj n ↔ ∃ c, c ∈ default [] (jm_get adj n) ∧ c_type c = Main ∧ c_node c = x.
Proof.
  unfold main_targets. rewrite list_elem_of_fmap. split.
  - intros (c & -> & [? ?]%list_elem_of_filter). eauto.
  - intros (c & ? & ? & <-). exists c. rewrite list_elem_of_filter. done.
Qed.

(** * hasPath decides reachability *)

Section HasPath.
Context (adj : IConnectionAdjacencyList) (end_ : string).

(** A [main] connection of the adjacency list. *)
Definition adj_edge (a b : string) : Prop := b ∈ main_targets adj a.

Local Notation loop := (hasPath_loop adj end_).

(** The names the search can meet. *)
Definition universe (start : string) : list string :=
  start :: mjoin ((λ p, c_node <$> p.2) <$> adj).

(** The loop ends from this state, with the same answer for every larger fuel. *)
Definition halts (seen paths : list string) : Prop :=
  ∃ fuel b, ∀ fuel', fuel ≤ fuel' → loop fuel' seen paths = Some b.

Definition pushed (seen : list string) (next : string) : list string :=
  js_difference (js_of_list (main_targets adj next)) (js_add seen next).

Lemma halts_nil seen : halts seen [].
Proof. exists 1, false. intros [|f] Hf; [lia|done]. Qed.

Lemma halts_end seen paths : halts seen (paths ++ [end_]).
Proof.
  exists 1, true. intros [|f] Hf; [lia|]. cbn [hasPath_loop]. rewrite last_snoc.
  by rewrite bool_decide_true.
Qed.

Lemma loop_step fuel seen paths next :
  next ≠ end_ → loop (S fuel) seen (paths ++ [next]) =
    loop fuel (js_add seen next) (paths ++ pushed seen next).
Proof.
  intros Hne. cbn [hasPath_loop]. rewrite last_snoc, bool_decide_false by done.
  by rewrite removelast_last.
Qed.

Lemma halts_step seen paths next :
  next ≠ end_ → halts (js_add seen next) (paths ++ pushed seen next) →
  halts seen (paths ++ [next]).
Proof.
  intros Hne (fuel & b & H). exists (S fuel), b. intros [|f] Hf; [lia|].
  rewrite loop_step by done. apply H. lia.
Qed.

Lemma adj_edge_universe start a b : adj_edge a b → b ∈ universe start.
Proof.
  intros (c & Hc & _ & <-)%main_targets_elem. right. apply list_elem_of_join.
  destruct (jm_get adj a) as [cs|] eqn:Ha; simpl in Hc; [|by apply not_elem_of_nil in Hc].
  exists (c_node <$> cs). split; [by apply list_elem_of_fmap_2|].
  apply jm_get_Some_elem in Ha. apply list_elem_of_fmap. by exists (a, cs).
Qed.

Lemma pushed_elem seen next x :
  x ∈ pushed seen next ↔ adj_edge next x ∧ x ∉ js_add seen next.
Proof. unfold pushed. by rewrite js_difference_elem, js_of_list_elem. Qed.

(** A segment on top of the stack is worked off: by induction on the number of
    unseen names, then on the segment. *)
Lemma halts_segment start k top seen rest :
  unseen (universe start) seen ≤ k → Forall (λ x, x ∈ universe start) top →
  (∀ seen', seen ⊆ seen' → halts seen' rest) → halts seen (rest ++ top).
Proof.
  revert top seen rest; induction k as [|k IHk]; intros top seen rest;
    revert seen; induction top as [|x top IH] using rev_ind; intros seen Hk Hall Hrest;
    try (rewrite app_nil_r; by apply Hrest).
  all: apply Forall_app in Hall as [Hall Hx%Forall_singleton].
  all: rewrite app_assoc; destruct (decide (x = end_)) as [->|Hne]; [apply halts_end|].
  all: apply halts_step; [done|].
  all: assert (seen ⊆ js_add seen x) as Hsub by (intros z; rewrite js_add_elem; auto).
  all: assert (∀ z, z ∈ pushed seen x → z ∉ js_add seen x ∧ z ∈ universe start) as Hp
    by (intros z [Hz ?]%pushed_elem; split; [done|by eapply adj_edge_universe]).
  all: destruct (pushed seen x) as [|y D _] using rev_ind;
    [rewrite app_nil_r; apply IH; [|done|intros; apply Hrest; by etrans];
     etrans; [by apply unseen_mono|done]|].
  all: destruct (Hp y) as [Hy1 Hy2]; [set_solver|].
  all: pose proof (unseen_add (universe start) (js_add seen x) y Hy2 Hy1) as Hlt.
  all: pose proof (unseen_mono (universe start) _ _ Hsub) as Hle.
  { lia. }
  rewrite app_assoc. destruct (decide (y = end_)) as [->|Hye]; [apply halts_end|].
  apply halts_step; [done|]. rewrite <- app_assoc.
  apply IHk; [lia| |].
  - apply Forall_app; split.
    + apply Forall_forall. intros z Hz. apply Hp. set_solver.
    + apply Forall_forall. intros z [Hz ?]%pushed_elem. by eapply adj_edge_universe.
  - intros seen' Hs. apply IH; [|done|].
    + etrans; [apply unseen_mono|exact Hk]. etrans; [exact Hsub|]. etrans; [|exact Hs].
      intros z; rewrite (js_add_elem (js_add seen x)); auto.
    + intros seen'' Hs'. apply Hrest. etrans; [exact Hsub|]. etrans; [|exact Hs'].
      etrans; [|exact Hs]. intros z; rewrite (js_add_elem (js_add seen x)); auto.
Qed.

Lemma hasPath_halts start : halts [] [start].
Proof.
  apply (halts_segment start (unseen (universe start) []) [start] [] []); [done| |].
  - apply Forall_singleton. by left.
  - intros; apply halts_nil.
Qed.

(** Everything in [seen] has been expanded. *)
Definition closed (seen paths : list string) : Prop :=
  ∀ x y, x ∈ seen → adj_edge x y → y ∈ seen ∨ y ∈ paths.

Lemma loop_correct start fuel seen paths b :
  (∀ x, x ∈ paths → rtc adj_edge start x) →
  start ∈ seen ∨ start ∈ paths → end_ ∉ seen → closed seen paths →
  loop fuel seen paths = Some b → b = true ↔ rtc adj_edge start end_.
Proof.
  revert seen paths; induction fuel as [|fuel IH]; intros seen paths Hp Hs He Hc; [done|].
  destruct paths as [|next paths _] using rev_ind.
  - cbn. intros [= <-]. split; [done|]. intros Hr. exfalso.
    assert (∀ x, rtc adj_edge start x → x ∈ seen) as Hall.
    { apply (rtc_ind_r (λ z, z ∈ seen) start); [set_solver|]. intros y z _ Hyz Hy.
      destruct (Hc y z Hy Hyz); set_solver. }
    by apply He, Hall.
  - destruct (decide (next = end_)) as [->|Hne].
    + cbn [hasPath_loop]. rewrite last_snoc, bool_decide_true by done.
      intros [= <-]. split; [|done]. intros _. apply Hp. set_solver.
    + rewrite loop_step by done. apply IH.
      * intros x [Hx|[Hx _]%pushed_elem]%elem_of_app; [apply Hp; set_solver|].
        apply rtc_r with next; [apply Hp; set_solver|done].
      * rewrite js_add_elem. set_solver.
      * rewrite js_add_elem. set_solver.
      * intros x y. rewrite !js_add_elem, elem_of_app, pushed_elem, js_add_elem.
        intros [->|Hx] Hxy.
        -- destruct (decide (y = next ∨ y ∈ seen)); naive_solver.
        -- destruct (Hc x y Hx Hxy) as [?|[?| ->%list_elem_of_singleton]%elem_of_app]; naive_solver.
Qed.
End HasPath.

(** The search of [hasPath] terminates on every adjacency list, and answers whether a path of
    [main] connections leads from the first node to the second. *)
Theorem hasPath_decides adj start end_ :
  ∃ fuel0 b, (∀ fuel, fuel0 ≤ fuel → hasPath fuel start end_ adj = Some b) ∧
    (b = true ↔ rtc (adj_edge adj) start end_).
Proof.
  destruct (hasPath_halts adj end_ start) as (fuel & b & H). exists fuel, b. split; [exact H|].
  apply (loop_correct adj end_ start fuel [] [start]); [| | | |by apply H].
  - by intros x ->%list_elem_of_singleton.
  - right. by left.
  - apply not_elem_of_nil.
  - by intros x y ?%not_elem_of_nil.
Qed.

(** * The extractable selection *)

Lemma head_of_short {A} (l : list A) x : x ∈ l → (1 <? length l) = false → head l = Some x.
Proof.
  intros Hx Hl. apply Nat.ltb_ge in Hl. destruct l as [|y [|z l]]; simpl in *; [|set_solver|lia].
  by apply not_elem_of_nil in Hx.
Qed.

Lemma getInputEdges_elem ids (adj : IConnectionAdjacencyList) from tos c :
  (from, tos) ∈ adj → c ∈ tos → from ∉ ids → c_node c ∈ ids → (from, c) ∈ getInputEdges ids adj.
Proof.
  intros Ha Hc Hf Hn. unfold getInputEdges. apply list_elem_of_bind. exists (from, tos).
  split; [|done]. rewrite (proj2 (js_has_false ids from) Hf). apply list_elem_of_bind. exists c.
  split; [|done]. rewrite (proj2 (js_has_true ids (c_node c)) Hn). by left.
Qed.

Lemma getOutputEdges_elem ids (adj : IConnectionAdjacencyList) from tos c :
  (from, tos) ∈ adj → c ∈ tos → from ∈ ids → c_node c ∉ ids → (from, c) ∈ getOutputEdges ids adj.
Proof.
  intros Ha Hc Hf Hn. unfold getOutputEdges. apply list_elem_of_bind. exists (from, tos).
  split; [|done]. rewrite (proj2 (js_has_true ids from) Hf). apply list_elem_of_bind. exists c.
  split; [|done]. rewrite (proj2 (js_has_false ids (c_node c)) Hn). by left.
Qed.

(** When the set of boundary nodes has no error, every boundary node is the single one reported. *)
Lemma boundary_single (boundary allowed : list string) err many x :
  err <$> js_difference boundary allowed = ([] : list ExtractableErrorResult) →
  (if 1 <? length (js_intersection allowed boundary) then [many] else []) = ([] : list ExtractableErrorResult) →
  x ∈ boundary → head (js_intersection allowed boundary) = Some x.
Proof.
  intros Hd Hm Hx. apply head_of_short.
  - apply js_intersection_elem; split; [|done].
    apply fmap_nil_inv in Hd. destruct (decide (x ∈ allowed)); [done|].
    assert (x ∈ js_difference boundary allowed) as H by (by apply js_difference_elem).
    rewrite Hd in H. by apply not_elem_of_nil in H.
  - by destruct (1 <? _).
Qed.

Lemma selection_checks_ok ids (adj : IConnectionAdjacencyList) start end_ :
  selection_checks ids adj = ([], start, end_) →
  (∀ from tos c, (from, tos) ∈ adj → c ∈ tos → c_type c = Main →
    from ∉ ids → c_node c ∈ ids → start = Some (c_node c)) ∧
  (∀ from tos c, (from, tos) ∈ adj → c ∈ tos → c_type c = Main →
    from ∈ ids → c_node c ∉ ids → end_ = Some from).
Proof.
  unfold selection_checks. intros [= [H1 [H2 [H3 H4]%app_nil]%app_nil]%app_nil <- <-].
  split; intros from tos c Ha Hc Ht Hf Hn; eapply boundary_single; try done.
  - apply js_of_list_elem, list_elem_of_fmap. exists (from, c). split; [done|].
    apply list_elem_of_filter. split; [done|]. by eapply getInputEdges_elem.
  - apply js_of_list_elem, list_elem_of_fmap. exists (from, c). split; [done|].
    apply list_elem_of_filter. split; [done|]. by eapply getOutputEdges_elem.
Qed.

(** The analysis of a selection terminates; when it accepts the selection, every main connection
    entering the selection enters it at the reported start node, every main connection leaving it
    leaves from the reported end node, and a main path leads from the start to the end. *)
Theorem extractable_selection ids (adj : IConnectionAdjacencyList) :
  ∃ fuel0 res, (∀ fuel, fuel0 ≤ fuel → parseExtractableSubgraphSelection fuel ids adj = Some res) ∧
    ∀ d, res = Ok d →
      (∀ from tos c, (from, tos) ∈ adj → c ∈ tos → c_type c = Main →
        from ∉ ids → c_node c ∈ ids → sg_start d = Some (c_node c)) ∧
      (∀ from tos c, (from, tos) ∈ adj → c ∈ tos → c_type c = Main →
        from ∈ ids → c_node c ∉ ids → sg_end d = Some from) ∧
      (∀ s e, sg_start d = Some s → sg_end d = Some e → s ≠ "" → e ≠ "" → rtc (adj_edge adj) s e).
Proof.
  unfold parseExtractableSubgraphSelection.
  destruct (selection_checks ids adj) as [[errors start] end_] eqn:Hsel.
  assert (∀ (errs : list ExtractableErrorResult) d,
    match errs with [] => Ok (mkSubgraph start end_) | _ => Err errs end = Ok d →
    errs = [] ∧ d = mkSubgraph start end_) as Hfin by (intros [|? ?] d [=]; done).
  destruct start as [s|]; [destruct end_ as [e|]; [destruct (_ && _) eqn:Ht|]|].
  2-4: exists 0; eexists; split; [intros; reflexivity|]; intros d [-> ->]%Hfin;
    apply selection_checks_ok in Hsel as [? ?]; split_and!; [done..|]; simpl; intros s' e' ? ? Hs He;
    simplify_eq; try done.
  2: { exfalso. cbn in Ht. by rewrite !bool_decide_false in Ht by done. }
  destruct (hasPath_decides adj s e) as (fuel0 & b & Hb & Hr). exists fuel0.
  exists (match errors ++ (if b then [] else [NoContinuousPathFromRootToLeaf s e]) with
          | [] => Ok (mkSubgraph (Some s) (Some e)) | es => Err es end).
  split; [intros fuel Hf; rewrite Hb by done; destruct b; rewrite ?app_nil_r; by destruct errors|].
  intros d Hd. assert (errors ++ (if b then [] else [NoContinuousPathFromRootToLeaf s e]) = [] ∧
    d = mkSubgraph (Some s) (Some e)) as [Hnil ->] by (apply Hfin; by destruct (_ ++ _)).
  apply app_nil in Hnil as [-> Hb0]. destruct b; [|done].
  apply selection_checks_ok in Hsel as [? ?]. split_and!; [done..|].
  intros ? ? [= <-] [= <-] _ _. by apply Hr.
Qed.

(** * Connectedness of a selection *)

Section Neighbors.
Context (names : list string).
Implicit Types (ns : jmap string (list string)).

Definition nb ns (a b : string) : Prop := b ∈ default [] (jm_get ns a).
Definition has_names ns : Prop := ∀ n, n ∈ names → is_Some (jm_get ns n).

(** A connection of [source] joins [a] and [b], in one direction or the other. *)
Definition joins (source : string) (c : IConnection) (a b : string) : Prop :=
  source ∈ names ∧ c_node c ∈ names ∧ c_node c ≠ source ∧
  ((a = source ∧ b = c_node c) ∨ (a = c_node c ∧ b = source)).

(** Two different selected nodes joined by a connection of any type. *)
Definition linked (adj : IConnectionAdjacencyList) (a b : string) : Prop :=
  ∃ source tos c, (source, tos) ∈ adj ∧ c ∈ tos ∧ joins source c a b.

Lemma nb_set ns k s a b :
  nb (jm_set ns k s) a b ↔ (if decide (a = k) then b ∈ s else nb ns a b).
Proof.
  unfold nb. destruct (decide (a = k)) as [->|Hne]; [by rewrite jm_get_set|].
  by rewrite jm_get_set_ne by done.
Qed.

Lemma has_names_set ns k s : has_names ns → has_names (jm_set ns k s).
Proof.
  intros H n Hn. destruct (decide (k = n)) as [->|Hne]; [by rewrite jm_get_set|].
  rewrite jm_get_set_ne by done. auto.
Qed.

Lemma add_neighbors_spec ns source c :
  has_names ns → source ∈ names →
  has_names (add_neighbors names ns source c) ∧
  ∀ a b, nb (add_neighbors names ns source c) a b ↔ nb ns a b ∨ joins source c a b.
Proof.
  intros Hns Hs. unfold add_neighbors.
  destruct (_ || _) eqn:Hc.
  { split; [done|]. intros a b. split; [by left|]. intros [?|(_ & Hin & Hne & _)]; [done|].
    apply (js_has_true names) in Hin. rewrite Hin, bool_decide_false in Hc by done. done. }
  apply orb_false_iff in Hc as [Hin%negb_false_iff%js_has_true Hne%bool_decide_eq_false].
  set (s := js_add (default [] (jm_get ns source)) (c_node c)).
  assert (jm_get (jm_set ns source s) (c_node c) = jm_get ns (c_node c)) as Hg
    by (by apply jm_get_set_ne).
  rewrite Hg. destruct (Hns _ Hin) as [t Ht]. rewrite Ht.
  split; [by repeat apply has_names_set|]. intros a b. rewrite !nb_set.
  unfold joins. destruct (decide (a = c_node c)) as [->|Ha].
  - rewrite js_add_elem. unfold nb; rewrite Ht; simpl. split.
    + intros [->|?]; [right; split_and!; auto|by left].
    + intros [?|(_ & _ & _ & [[? ?]|[_ ?]])]; [by right|congruence|by left].
  - destruct (decide (a = source)) as [->|Ha'].
    + rewrite nb_set, decide_True by done. unfold s. rewrite js_add_elem. unfold nb. split.
      * intros [->|?]; [right; split_and!; auto|by left].
      * intros [?|(_ & _ & _ & [[_ ?]|[? ?]])]; [by right|by left|congruence].
    + rewrite nb_set, decide_False by done. split; [by left|]. intros [?|(_ & _ & _ & [[? ?]|[? ?]])]; congruence.
Qed.

Lemma add_all_neighbors_spec ns source cs :
  has_names ns → source ∈ names →
  has_names (foldl (λ ns c, add_neighbors names ns source c) ns cs) ∧
  ∀ a b, nb (foldl (λ ns c, add_neighbors names ns source c) ns cs) a b ↔
    nb ns a b ∨ ∃ c, c ∈ cs ∧ joins source c a b.
Proof.
  intros Hns Hs. revert ns Hns; induction cs as [|c cs IH]; intros ns Hns; simpl.
  - split; [done|]. intros a b. split; [by left|]. intros [?|(c & Hc & _)]; [done|].
    by apply not_elem_of_nil in Hc.
  - destruct (add_neighbors_spec ns source c Hns Hs) as [Hn1 H1].
    destruct (IH _ Hn1) as [Hn2 H2]. split; [done|]. intros a b. rewrite H2, H1. set_solver.
Qed.

Lemma init_neighbors_spec :
  let ns := foldl (λ m n, jm_set m n []) [] names in
  has_names ns ∧ ∀ a b, ¬ nb ns a b.
Proof.
  simpl. split.
  - assert (∀ (l : list string) (m : jmap string (list string)) n, n ∈ l ∨ is_Some (jm_get m n) →
      is_Some (jm_get (foldl (λ m n, jm_set m n ([] : list string)) m l) n)) as H.
    { induction l as [|x l IH]; intros m n Hn; simpl; [destruct Hn as [Hn|Hn]; [by apply not_elem_of_nil in Hn|done]|].
      apply IH. destruct (decide (x = n)) as [->|]; [right; by rewrite jm_get_set|].
      rewrite jm_get_set_ne by done. set_solver. }
    intros n Hn. apply H. by left.
  - intros a b. apply (foldl_inv _ (λ m, ¬ nb m a b)).
    + intros m x _ Hm. rewrite nb_set. case_decide; [apply not_elem_of_nil|done].
    + unfold nb; simpl. apply not_elem_of_nil.
Qed.

Lemma neighbors_spec adj :
  has_names (neighborsByNodeName names adj) ∧
  ∀ a b, nb (neighborsByNodeName names adj) a b ↔ linked adj a b.
Proof.
  unfold neighborsByNodeName. destruct init_neighbors_spec as [H0 H1]. simpl in *.
  revert H0 H1. generalize (foldl (λ m n, jm_set m n ([] : list string)) [] names) as ns.
  set (f := neighbors_step names).
  assert (∀ ns, has_names ns → has_names (foldl f ns adj) ∧
    ∀ a b, nb (foldl f ns adj) a b ↔ nb ns a b ∨ linked adj a b) as H.
  { induction adj as [|[source cs] adj IH]; intros ns Hns; cbn [foldl].
    - split; [done|]. intros a b. unfold linked. set_solver.
    - assert (has_names (f ns (source, cs)) ∧ ∀ a b, nb (f ns (source, cs)) a b ↔
        nb ns a b ∨ ∃ c, c ∈ cs ∧ joins source c a b) as [Hf1 Hf2].
      { unfold f, neighbors_step. destruct (js_has names source) eqn:Hh; simpl.
        - apply js_has_true in Hh. destruct (Hns _ Hh) as [s ->].
          by apply add_all_neighbors_spec.
        - apply js_has_false in Hh. split; [done|]. intros a b. unfold joins. naive_solver. }
      destruct (IH _ Hf1) as [H2 H3]. split; [done|]. intros a b. rewrite H3, Hf2.
      unfold linked. set_solver. }
  intros ns H0 H1. destruct (H ns H0) as [H2 H3]. split; [done|]. intros a b. rewrite H3. naive_solver.
Qed.

Lemma linked_names adj a b : linked adj a b → a ∈ names ∧ b ∈ names ∧ linked adj b a.
Proof. unfold linked, joins. naive_solver. Qed.
End Neighbors.

Section Bfs.
Context (ns : jmap string (list string)) (names : list string) (start : string).
Context (closed_names : ∀ a b, nb ns a b → b ∈ names) (no_empty : "" ∉ names).

Lemma enqueue_spec l V Q :
  ∃ new, foldl enqueue_unvisited (V, Q) l = (V ++ new, Q ++ new) ∧
    (NoDup V → NoDup (V ++ new)) ∧ ∀ x, x ∈ V ++ new ↔ x ∈ V ∨ x ∈ l.
Proof.
  revert V Q; induction l as [|y l IH]; intros V Q; simpl.
  - exists []. rewrite !app_nil_r. split_and!; [done|done|]. set_solver.
  - unfold js_has. destruct (bool_decide (y ∈ V)) eqn:Hy.
    + apply bool_decide_eq_true in Hy. destruct (IH V Q) as (new & -> & ? & Hin).
      exists new. split_and!; [done|done|]. intros x. rewrite Hin. set_solver.
    + apply bool_decide_eq_false in Hy. unfold js_add. rewrite decide_False by done.
      destruct (IH (V ++ [y]) (Q ++ [y])) as (new & -> & Hnd & Hin).
      exists (y :: new). rewrite <- !app_assoc in *. split_and!; [done| |].
      * intros HV. apply Hnd. apply NoDup_app. split_and!; [done| |apply NoDup_singleton]. set_solver.
      * intros x. rewrite Hin. set_solver.
Qed.

(** What holds of the visited names [V] and the queue [Q]. *)
Record bfs_inv (V Q : list string) : Prop := {
  bi_nodup : NoDup V;
  bi_start : start ∈ V;
  bi_names : V ⊆ names;
  bi_queue : Q ⊆ V;
  bi_sound : ∀ x, x ∈ V → rtc (nb ns) start x;
  bi_closed : ∀ x y, x ∈ V → nb ns x y → y ∈ V ∨ x ∈ Q;
}.

Lemma bfs_step_inv V q Q :
  bfs_inv V (q :: Q) →
  ∃ new, foldl enqueue_unvisited (V, Q) (default [] (jm_get ns q)) = (V ++ new, Q ++ new) ∧
    bfs_inv (V ++ new) (Q ++ new).
Proof.
  intros [Hd Hs Hn Hq Hr Hc].
  destruct (enqueue_spec (default [] (jm_get ns q)) V Q) as (new & -> & Hnd & Hin).
  exists new. split; [done|].
  assert (∀ x, x ∈ V ++ new → x ∈ V ∨ nb ns q x) as Hin' by (intros x; rewrite Hin; done).
  split.
  - auto.
  - set_solver.
  - intros x [?|Hx]%Hin'; [auto|]. by eapply closed_names.
  - intros x [?|?]%elem_of_app; [apply elem_of_app; left; apply Hq; by right|set_solver].
  - intros x [?|Hx]%Hin'; [auto|]. apply rtc_r with q; [|done]. apply Hr, Hq. by left.
  - intros x y Hx Hxy. apply elem_of_app in Hx as [Hx|Hx]; [|right; set_solver].
    destruct (Hc x y Hx Hxy) as [?|[->|?]%elem_of_cons]; [set_solver| |set_solver].
    left. apply Hin. by right.
Qed.

Lemma bfs_loop_spec fuel V Q :
  bfs_inv V Q → length names + length Q ≤ fuel + length V →
  ∃ V', bfs_loop ns fuel V Q = Some V' ∧ bfs_inv V' [].
Proof.
  revert V Q; induction fuel as [|fuel IH]; intros V [|q Q] HI Hf; simpl; try by exists V.
  - exfalso. destruct HI as [Hd _ Hn _ _ _]. apply NoDup_submseteq in Hn; [|done].
    apply submseteq_length in Hn. simpl in Hf. lia.
  - rewrite bool_decide_false.
    2:{ intros ->. apply no_empty. destruct HI as [_ _ Hn Hq _ _]. apply Hn, Hq. by left. }
    destruct (bfs_step_inv V q Q HI) as (new & -> & HI'). apply IH; [done|].
    rewrite !length_app. simpl in Hf. lia.
Qed.
End Bfs.

(** The grouping check answers for every selection of distinct, non-empty names: it reports no
    error exactly when every two selected nodes are joined by connections inside the selection, and
    the node it reports otherwise is not joined to the first one. *)
Theorem findDisconnected_decides names (adj : IConnectionAdjacencyList) :
  NoDup names → "" ∉ names →
  ∃ r, findDisconnectedSelectionError names adj = Some r ∧
    (r = None ↔ ∀ a b, a ∈ names → b ∈ names → rtc (linked names adj) a b) ∧
    (∀ e, r = Some e → ∃ a b, e = NoContinuousPathFromRootToLeaf a b ∧ a ∈ names ∧ b ∈ names ∧
       ¬ rtc (linked names adj) a b).
Proof.
  intros Hnd Hne. unfold findDisconnectedSelectionError.
  destruct (length names <=? 1) eqn:Hle.
  { apply Nat.leb_le in Hle. exists None. split_and!; [done| |done]. split; [|done]. intros _ a b.
    destruct names as [|n [|? ?]]; [by intros ?%not_elem_of_nil| |simpl in Hle; lia].
    intros ->%list_elem_of_singleton ->%list_elem_of_singleton. done. }
  destruct (head names) as [n|] eqn:Hhead; [|by destruct names].
  assert (Hn : n ∈ names) by (destruct names; [done|]; simplify_eq/=; by left).
  rewrite bool_decide_false by (by intros ->).
  destruct (neighbors_spec names adj) as [_ Hnb].
  set (ns := neighborsByNodeName names adj) in *.
  destruct (bfs_loop_spec ns names n) with (fuel := S (length names)) (V := [n]) (Q := [n])
    as (V & -> & [Hd Hs HVn _ Hr Hc]); [|done| |simpl; lia|].
  { intros a b Hab. apply Hnb, linked_names in Hab. tauto. }
  { split; try by intros x ->%list_elem_of_singleton; constructor.
    - apply NoDup_singleton.
    - by left.
    - by intros x ->%list_elem_of_singleton.
    - intros x y Hx _. by right. }
  assert (∀ x, x ∈ V ↔ rtc (linked names adj) n x) as HV.
  { intros x. split.
    - intros Hx. eapply rtc_subrel; [|by apply Hr]. intros y z. apply Hnb.
    - revert x. apply (rtc_ind_r (λ z, z ∈ V) n); [done|]. intros y z _ Hyz Hy.
      apply Hnb in Hyz. destruct (Hc y z Hy Hyz) as [?|?%not_elem_of_nil]; done. }
  cbn [mbind option_bind]. case_match eqn:Hlen.
  - apply Nat.eqb_eq in Hlen. eexists; split_and!; [done| |done]. split; [|done]. intros _ a b Ha Hb.
    assert (names ⊆ V) as Hsub.
    { apply NoDup_submseteq in HVn; [|done]. apply submseteq_length_Permutation in HVn; [|lia].
      intros x Hx. by rewrite HVn. }
    assert (∀ x y, linked names adj x y → linked names adj y x) as Hsym
      by (intros x y ?%linked_names; tauto).
    trans n; [|by apply HV, Hsub]. apply rtc_flip_sym; [done|]. by apply HV, Hsub.
  - apply Nat.eqb_neq in Hlen.
    assert (∃ d, head (filter (λ n, js_has V n = false) names) = Some d ∧ d ∈ names ∧ d ∉ V)
      as (d & -> & Hd1 & Hd2).
    { destruct (filter _ names) as [|d l] eqn:Hf.
      - exfalso. apply Hlen. apply Permutation_length, NoDup_Permutation; [done|done|].
        intros x. split; [apply HVn|]. intros Hx. destruct (decide (x ∈ V)) as [|Hx']; [done|].
        assert (x ∈ filter (λ n, js_has V n = false) names) as Hxf
          by (apply list_elem_of_filter; split; [by apply js_has_false|done]).
        rewrite Hf in Hxf. by apply not_elem_of_nil in Hxf.
      - exists d. split; [done|]. assert (d ∈ filter (λ n, js_has V n = false) names) as Hxf
          by (rewrite Hf; by left).
        apply list_elem_of_filter in Hxf as [?%js_has_false ?]. done. }
    rewrite bool_decide_false by (intros ->; done).
    eexists; split_and!; [done| |].
    + split; [done|]. intros Hall. destruct Hd2. apply HV, Hall; done.
    + intros e [= <-]. exists n, d. split_and!; try done. by rewrite <- HV.
Qed.

Lemma findDisconnected_decides_witness :
  ∃ r, findDisconnectedSelectionError ["a"; "b"; "c"] [("a", [mkConn "b" Main 0])] = Some r ∧
    (r = None ↔ ∀ a b, a ∈ ["a"; "b"; "c"] → b ∈ ["a"; "b"; "c"] →
       rtc (linked ["a"; "b"; "c"] [("a", [mkConn "b" Main 0])]) a b) ∧
    (∀ e, r = Some e → ∃ a b, e = NoContinuousPathFromRootToLeaf a b ∧
       a ∈ ["a"; "b"; "c"] ∧ b ∈ ["a"; "b"; "c"] ∧
       ¬ rtc (linked ["a"; "b"; "c"] [("a", [mkConn "b" Main 0])]) a b).
Proof.
  apply (findDisconnected_decides ["a"; "b"; "c"] [("a", [mkConn "b" Main 0])]).
  - by_decide.
  - by_decide.
Defined.
