(* ===== verification/WorkflowClass.v ===== *)
(** WorkflowClass: packages/workflow/src/workflow.ts.

    The [Workflow] object: its nodes by name, its connections in both
    directions, static data, renaming, and the searches over the connections
    that choose where an execution starts. *)

From stdpp Require Import prelude list strings relations.
From Stdlib Require Import ZArith QArith Lia.
From S2P Require Import Prelude Types Traversal.
Local Open Scope nat_scope.

(** * The object *)

Record Workflow := mkWorkflow {
  w_nodes : jmap string INode;
  connectionsBySourceNode : IConnections;
  connectionsByDestinationNode : IConnections;
  w_executionOrder : option string;
  w_pinData : option IPinData;
  staticData : jmap string json;
  testStaticData : option (jmap string json);
}.

Definition with_nodes (w : Workflow) (ns : jmap string INode) : Workflow :=
  mkWorkflow ns (connectionsBySourceNode w) (connectionsByDestinationNode w) (w_executionOrder w)
    (w_pinData w) (staticData w) (testStaticData w).

Definition with_source (w : Workflow) (cs : IConnections) : Workflow :=
  mkWorkflow (w_nodes w) cs (connectionsByDestinationNode w) (w_executionOrder w)
    (w_pinData w) (staticData w) (testStaticData w).

Definition with_static (w : Workflow) (d : jmap string json) : Workflow :=
  mkWorkflow (w_nodes w) (connectionsBySourceNode w) (connectionsByDestinationNode w)
    (w_executionOrder w) (w_pinData w) d (testStaticData w).

Definition setNodes (w : Workflow) (nodes : list INode) : Workflow :=
  with_nodes w (foldl (λ m node, jm_set m (n_name node) node) [] nodes).

Definition setConnections (w : Workflow) (connections : IConnections) : Workflow :=
  mkWorkflow (w_nodes w) connections (mapConnectionsByDestination connections) (w_executionOrder w)
    (w_pinData w) (staticData w) (testStaticData w).

Definition empty_workflow : Workflow := mkWorkflow [] [] [] None None [] None.

(** The part of the constructor that fills the object. *)
Definition make_workflow (nodes : list INode) (connections : IConnections) (pinData : option IPinData)
    (executionOrder : option string) : Workflow :=
  let w := setConnections (setNodes empty_workflow nodes) connections in
  mkWorkflow (w_nodes w) (connectionsBySourceNode w) (connectionsByDestinationNode w)
    executionOrder pinData [] None.

Definition getNode (w : Workflow) (nodeName : string) : option INode := jm_get (w_nodes w) nodeName.

Definition getNodes (w : Workflow) (nodeNames : list string) : list INode :=
  omap (getNode w) nodeNames.

Definition getPinDataOfNode (w : Workflow) (nodeName : string) : option Items :=
  pinData ← w_pinData w; jm_get pinData nodeName.

Definition w_getChildNodes (w : Workflow) (nodeName : string) (type : ConnFilter) (depth : Z) : list string :=
  getChildNodes (connectionsBySourceNode w) nodeName type depth.

Definition w_getParentNodes (w : Workflow) (nodeName : string) (type : ConnFilter) (depth : Z) : list string :=
  getParentNodes (connectionsByDestinationNode w) nodeName type depth.

(** * Static data *)

(** [this.staticData[key]], created when it is [undefined]. *)
Definition own_static (w : Workflow) (key : string) : json * Workflow :=
  match jm_get (staticData w) key with
  | Some d => (d, w)
  | None => (JObj [], with_static w (jm_set (staticData w) key (JObj [])))
  end.

(** [getStaticData]: the data, and the workflow in which a missing entry has been created. *)
Definition getStaticData (w : Workflow) (type : string) (node : option INode)
    : result string (json * Workflow) :=
  key ← (if bool_decide (type = "global") then Ok "global"
         else if bool_decide (type = "node") then
           match node with
           | None => Err "node parameter has to be set"
           | Some n => Ok ("node:" ++ n_name n)%string
           end
         else Err "Unknown context type");
  let test := t ← testStaticData w; jm_get t key in
  match test with
  | Some d => if truthy d then Ok (d, w) else Ok (own_static w key)
  | None => Ok (own_static w key)
  end.

(** * Renaming *)

Definition restrictedKeys : list string :=
  ["hasOwnProperty"; "isPrototypeOf"; "propertyIsEnumerable"; "toLocaleString"; "toString"; "valueOf";
   "constructor"; "prototype"; "__proto__"; "__defineGetter__"; "__defineSetter__";
   "__lookupGetter__"; "__lookupSetter__"].

Definition rename_conn (currentName newName : string) (c : IConnection) : IConnection :=
  if bool_decide (c_node c = currentName) then mkConn newName (c_type c) (c_index c) else c.

Definition rename_slots (currentName newName : string) (slots : NodeInputConnections) : NodeInputConnections :=
  fmap (M:=option) (fmap (M:=list) (rename_conn currentName newName)) <$> slots.

Definition rename_targets (currentName newName : string) (nc : INodeConnections) : INodeConnections :=
  jm_map (rename_slots currentName newName) nc.

Section Rename.
(** [applyAccessPatterns] of node-reference-parser-utils.ts rewrites the node references of an expression. *)
Context (applyAccessPatterns : string → string → string → string).

Definition starts_with_eq (s : string) : bool := starts_with "=" s.

Fixpoint renameNodeInParameterValue (currentName newName : string) (hasRenamableContent : bool)
    (parameterValue : json) : json :=
  match parameterValue with
  | JStr s =>
      if starts_with_eq s || hasRenamableContent
      then JStr (applyAccessPatterns s currentName newName) else parameterValue
  | JBool _ | JNum _ => parameterValue
  | JArr l => JArr (map (renameNodeInParameterValue currentName newName false) l)
  | JNull => JObj []
  | JObj o => JObj (map (λ '(k, v),
      (k, renameNodeInParameterValue currentName newName hasRenamableContent v)) o)
  end.

Definition NODES_WITH_RENAMABLE_CONTENT : list string :=
  ["n8n-nodes-base.code"; "n8n-nodes-base.function"; "n8n-nodes-base.functionItem";
   "n8n-nodes-base.aiTransform"].
Definition NODES_WITH_RENAMEABLE_TOPLEVEL_HTML_CONTENT : list string :=
  ["n8n-nodes-base.mailgun"; "n8n-nodes-base.html"].
Definition NODES_WITH_RENAMABLE_FORM_HTML_CONTENT : list string := ["n8n-nodes-base.form"].

(** [renameFormFields]: the [html] of the form fields whose [fieldType] is [html]. *)
Definition renameFormField (renameField : json → json) (formFieldValue : json) : json :=
  match formFieldValue with
  | JObj o =>
      match jm_get o "fieldType" with
      | Some (JStr "html") => JObj (jm_update o "html" renameField)
      | _ => formFieldValue
      end
  | _ => formFieldValue
  end.

Definition renameFormFields (parameters : list (string * json)) (renameField : json → json)
    : list (string * json) :=
  jm_update parameters "formFields" (λ formFields,
    match formFields with
    | JObj o => JObj (jm_update o "values" (λ values,
        match values with JArr l => JArr (renameFormField renameField <$> l) | v => v end))
    | v => v
    end).

Definition with_parameters (n : INode) (ps : list (string * json)) : INode :=
  mkNode (n_id n) (n_name n) (n_type n) (n_typeVersion n) (n_position n) (n_disabled n) ps
    (n_retryOnFail n) (n_maxTries n) (n_waitBetweenTries n) (n_alwaysOutputData n)
    (n_executeOnce n) (n_onError n) (n_continueOnFail n) (n_rewireOutputLogTo n).

Definition with_name (n : INode) (name : string) : INode :=
  mkNode (n_id n) name (n_type n) (n_typeVersion n) (n_position n) (n_disabled n) (n_parameters n)
    (n_retryOnFail n) (n_maxTries n) (n_waitBetweenTries n) (n_alwaysOutputData n)
    (n_executeOnce n) (n_onError n) (n_continueOnFail n) (n_rewireOutputLogTo n).

Definition rename_in_parameters (currentName newName : string) (node : INode) : INode :=
  let rename := renameNodeInParameterValue currentName newName in
  let ps := jm_map (rename false) (n_parameters node) in
  let ps := if bool_decide (n_type node ∈ NODES_WITH_RENAMABLE_CONTENT)
            then jm_update ps "jsCode" (rename true) else ps in
  let ps := if bool_decide (n_type node ∈ NODES_WITH_RENAMEABLE_TOPLEVEL_HTML_CONTENT)
            then jm_update ps "html" (rename true) else ps in
  let ps := if bool_decide (n_type node ∈ NODES_WITH_RENAMABLE_FORM_HTML_CONTENT)
            then renameFormFields ps (rename true) else ps in
  with_parameters node ps.

Definition renameNode (w : Workflow) (currentName newName : string) : result string Workflow :=
  if bool_decide (to_lower newName ∈ to_lower <$> restrictedKeys)
  then Err "Node name is a restricted name"
  else
    let nodes :=
      match jm_get (w_nodes w) currentName with
      | Some n => jm_del (jm_set (w_nodes w) newName (with_name n newName)) currentName
      | None => w_nodes w
      end in
    let nodes := jm_map (rename_in_parameters currentName newName) nodes in
    let cs :=
      match jm_get (connectionsBySourceNode w) currentName with
      | Some nc => jm_del (jm_set (connectionsBySourceNode w) newName nc) currentName
      | None => connectionsBySourceNode w
      end in
    let cs := jm_map (rename_targets currentName newName) cs in
    Ok (with_source (with_nodes w nodes) cs).
End Rename.

(** * Searches *)

Record INodeConnection := mkNodeConnection { sourceIndex : nat; destinationIndex : nat }.

Record IConnectedNode := mkConnected {
  cn_name : string;
  cn_indicies : list nat;
  cn_depth : nat;
}.

(** [connections[name].main], [None] when either key is absent. *)
Definition main_conns (cs : IConnections) (name : string) : option NodeInputConnections :=
  conns_of cs name Main.

Section Highest.
Context (w : Workflow).

(** Push the names that are not on the list yet. *)
Definition push_new (l add : list string) : list string :=
  foldl (λ l name, if bool_decide (name ∈ l) then l else l ++ [name]) l add.

Definition not_disabled (name : string) : bool :=
  match jm_get (w_nodes w) name with
  | Some n => bool_decide (n_disabled n ≠ Some true)
  | None => false
  end.

(** The connections visited: every slot, or the one of the given index. *)
Definition highest_conns (nodeConnectionIndex : option nat) (slots : NodeInputConnections)
    : list IConnection :=
  match nodeConnectionIndex with
  | None => flat_conns slots
  | Some i => match slots !! i with Some b => bucket b | None => [] end
  end.

(** The body of [connectionsByIndex?.forEach]; [rec] is the recursive call and the
    state is [returnNodes] with the [checkedNodes] array the calls share. *)
Definition highest_visit (rec : string → list string → list string * list string)
    (st : list string * list string) (connection : IConnection) : list string * list string :=
  let '(returnNodes, checkedNodes) := st in
  if bool_decide (c_node connection ∈ checkedNodes) then st
  else if negb (jm_has (w_nodes w) (c_node connection)) then st
  else
    let '(addNodes, checkedNodes) := rec (c_node connection) checkedNodes in
    let addNodes :=
      match addNodes with
      | [] => if not_disabled (c_node connection) then [c_node connection] else []
      | _ => addNodes
      end in
    (push_new returnNodes addNodes, checkedNodes).

Fixpoint highest_fuel (fuel : nat) (nodeName : string) (nodeConnectionIndex : option nat)
    (checkedNodes : list string) : list string * list string :=
  match fuel with
  | 0 => ([], checkedNodes)
  | S fuel =>
    match jm_get (w_nodes w) nodeName with
    | None => ([], checkedNodes)
    | Some n =>
      let currentHighest := if bool_decide (n_disabled n = Some false) then [nodeName] else [] in
      match main_conns (connectionsByDestinationNode w) nodeName with
      | None => (currentHighest, checkedNodes)
      | Some slots =>
        if bool_decide (nodeName ∈ checkedNodes) then (currentHighest, checkedNodes)
        else
          foldl (highest_visit (λ name checked, highest_fuel fuel name None checked))
            ([], checkedNodes ++ [nodeName]) (highest_conns nodeConnectionIndex slots)
      end
    end
  end.

(** Each call that recurses checks another key of the connections. *)
Definition getHighestNode (nodeName : string) (nodeConnectionIndex : option nat) : list string :=
  (highest_fuel (S (length (connectionsByDestinationNode w))) nodeName nodeConnectionIndex []).1.
End Highest.

(** ** searchNodesBFS *)

(** The state of one level: the visited nodes in the order of [returnConns] (the source
    first), and the queue of the next level.  The records in [returnConns] are the ones in
    [visited], so a later update of [indicies] is seen in both. *)
Definition bfs_visit (connections : IConnections) (depth : nat)
    (st : jmap string IConnectedNode * list IConnectedNode) (curr : IConnectedNode)
    : jmap string IConnectedNode * list IConnectedNode :=
  let '(visited, queue) := st in
  match jm_get visited (cn_name curr) with
  | Some v =>
      (jm_set visited (cn_name curr)
         (mkConnected (cn_name v) (js_of_list (cn_indicies v ++ cn_indicies curr)) (cn_depth v)), queue)
  | None =>
      (jm_set visited (cn_name curr) curr,
       queue ++ ((λ c, mkConnected (c_node c) [c_index c] depth) <$>
                 flat_conns (default [] (main_conns connections (cn_name curr)))))
  end.

Fixpoint searchBFS_loop (connections : IConnections) (maxDepth : Z) (fuel depth : nat)
    (visited : jmap string IConnectedNode) (queue : list IConnectedNode)
    : option (jmap string IConnectedNode) :=
  match queue with
  | [] => Some visited
  | _ =>
    if negb (maxDepth =? -1)%Z && (maxDepth <? Z.of_nat depth)%Z then Some visited
    else
      match fuel with
      | 0 => None
      | S fuel =>
        let '(visited, queue) := foldl (bfs_visit connections (S depth)) (visited, []) queue in
        searchBFS_loop connections maxDepth fuel (S depth) visited queue
      end
  end.

(** A level that queues anything has visited a key of the connections for the first time. *)
Definition searchNodesBFS (connections : IConnections) (sourceNode : string) (maxDepth : Z)
    : option (list IConnectedNode) :=
  visited ← searchBFS_loop connections maxDepth (S (S (length connections))) 0 []
              [mkConnected sourceNode [] 0];
  Some (filter (λ v, cn_name v ≠ sourceNode) (jm_vals visited)).

Definition getParentNodesByDepth (w : Workflow) (nodeName : string) (maxDepth : Z)
    : option (list IConnectedNode) :=
  searchNodesBFS (connectionsByDestinationNode w) nodeName maxDepth.

(** ** getNodeConnectionIndexes *)

(** The scan of one slot: the connection to the parent, or the names to queue. *)
Fixpoint scan_slot (parentNodeName : string) (visitedNodes : list string) (destinationIndex : nat)
    (queue : list string) (conns : list IConnection) : INodeConnection + list string :=
  match conns with
  | [] => inr queue
  | connection :: conns =>
    if bool_decide (parentNodeName = c_node connection)
    then inl (mkNodeConnection (c_index connection) destinationIndex)
    else scan_slot parentNodeName visitedNodes (S destinationIndex)
           (if js_has visitedNodes (c_node connection) then queue else queue ++ [c_node connection]) conns
  end.

Fixpoint scan_slots (parentNodeName : string) (visitedNodes : list string) (queue : list string)
    (slots : NodeInputConnections) : INodeConnection + list string :=
  match slots with
  | [] => inr queue
  | slot :: slots =>
    match scan_slot parentNodeName visitedNodes 0 queue (bucket slot) with
    | inl r => inl r
    | inr queue => scan_slots parentNodeName visitedNodes queue slots
    end
  end.

Fixpoint indexes_loop (connectionsByDest : IConnections) (type parentNodeName : string) (fuel : nat)
    (visitedNodes queue : list string) : option (option INodeConnection) :=
  match queue with
  | [] => Some None
  | currentNodeName :: queue =>
    match fuel with
    | 0 => None
    | S fuel =>
      if js_has visitedNodes currentNodeName
      then indexes_loop connectionsByDest type parentNodeName fuel visitedNodes queue
      else
        let visitedNodes := js_add visitedNodes currentNodeName in
        match conns_of connectionsByDest currentNodeName type with
        | None => indexes_loop connectionsByDest type parentNodeName fuel visitedNodes queue
        | Some typeConnections =>
          match scan_slots parentNodeName visitedNodes queue typeConnections with
          | inl r => Some (Some r)
          | inr queue => indexes_loop connectionsByDest type parentNodeName fuel visitedNodes queue
          end
        end
    end
  end.

(** How many connections of the type the nodes outside [visited] have. *)
Fixpoint pending_conns (cs : IConnections) (type : string) (visited : list string) : nat :=
  match cs with
  | [] => 0
  | (k, nc) :: cs =>
    (if decide (k ∈ visited) then 0 else length (flat_conns (default [] (jm_get nc type)))) +
    pending_conns cs type visited
  end.

(** Every connection of the type queues at most one name. *)
Definition getNodeConnectionIndexes (w : Workflow) (nodeName parentNodeName type : string)
    : option (option INodeConnection) :=
  match getNode w parentNodeName with
  | None => Some None
  | Some _ =>
    indexes_loop (connectionsByDestinationNode w) type parentNodeName
      (S (pending_conns (connectionsByDestinationNode w) type [])) [] [nodeName]
  end.

(** ** Connections between two sets of nodes *)

Definition getConnectionsBetweenNodes (w : Workflow) (sources targets : list string)
    : list (IConnection * IConnection) :=
  source ← sources;
  '(type, slots) ← default [] (jm_get (connectionsBySourceNode w) source);
  '(sourceIndex, slot) ← entries slots;
  targetConnectionData ← bucket slot;
  if bool_decide (c_node targetConnectionData ∈ targets)
  then [(mkConn source type sourceIndex, targetConnectionData)] else [].

(** * Start nodes *)

Definition MANUAL_CHAT_TRIGGER_LANGCHAIN_NODE_TYPE : string := "@n8n/n8n-nodes-langchain.manualChatTrigger".
Definition STARTING_NODE_TYPES : list string :=
  ["n8n-nodes-base.manualTrigger"; "n8n-nodes-base.executeWorkflowTrigger";
   "n8n-nodes-base.errorTrigger"; "n8n-nodes-base.evaluationTrigger"; "n8n-nodes-base.formTrigger"].

(** [STARTING_NODE_TYPES.indexOf(type)] *)
Definition starting_index (type : string) : Z :=
  match find_index (λ t, bool_decide (t = type)) STARTING_NODE_TYPES with
  | Some i => Z.of_nat i
  | None => -1
  end.

Section StartNode.
Context (getByNameAndVersion : string → Q → option INodeType).
(** [NodeHelpers.getNodeOutputs] evaluates the declared outputs of a node. *)
Context (getNodeOutputs : Workflow → INode → INodeTypeDescription → list NodeIo).

Definition node_type_of (n : INode) : option INodeType :=
  getByNameAndVersion (n_type n) (n_typeVersion n).

Definition queryNodes (w : Workflow) (checkFunction : INodeType → bool) : list INode :=
  filter (λ node,
    (if bool_decide (n_disabled node = Some true) then false
     else match node_type_of node with Some t => checkFunction t | None => false end) = true)
    (jm_vals (w_nodes w)).

Definition getTriggerNodes (w : Workflow) : list INode := queryNodes w t_trigger.
Definition getPollNodes (w : Workflow) : list INode := queryNodes w t_poll.

(** The first trigger or poll node that is not disabled. *)
Fixpoint first_trigger (w : Workflow) (nodeNames : list string) : result string (option INode) :=
  match nodeNames with
  | [] => Ok None
  | nodeName :: nodeNames =>
    node ← of_option "TypeError: node is undefined" (jm_get (w_nodes w) nodeName);
    nodeType ← of_option "TypeError: nodeType is undefined" (node_type_of node);
    if bool_decide (d_name (t_description nodeType) = MANUAL_CHAT_TRIGGER_LANGCHAIN_NODE_TYPE)
    then first_trigger w nodeNames
    else if t_trigger nodeType || t_poll nodeType then
      if bool_decide (n_disabled node = Some true) then first_trigger w nodeNames else Ok (Some node)
    else first_trigger w nodeNames
  end.

Definition sorted_by_starting_type (w : Workflow) : list INode :=
  js_sort (λ a b, starting_index (n_type a) - starting_index (n_type b))%Z (jm_vals (w_nodes w)).

Definition first_starting (w : Workflow) : option INode :=
  head (omap (λ name, node ← jm_get (w_nodes w) name;
    if bool_decide (n_type node ∈ STARTING_NODE_TYPES) && bool_decide (n_disabled node ≠ Some true)
    then Some node else None) (n_name <$> sorted_by_starting_type w)).

Definition __getStartNode (w : Workflow) (nodeNames : list string) : result string (option INode) :=
  let single :=
    match nodeNames with
    | [name] => node ← jm_get (w_nodes w) name; if is_disabled node then None else Some node
    | _ => None
    end in
  match single with
  | Some node => Ok (Some node)
  | None =>
    trigger ← first_trigger w nodeNames;
    match trigger with
    | Some node => Ok (Some node)
    | None => Ok (first_starting w)
    end
  end.

Definition getStartNode (w : Workflow) (destinationNode : option string) : result string (option INode) :=
  match destinationNode with
  | Some destination =>
    if str_truthy destinationNode then
      let nodeNames := getHighestNode w destination None in
      let nodeNames := match nodeNames with [] => [destination] | _ => nodeNames end in
      node ← __getStartNode w nodeNames;
      match node with
      | Some node => Ok (Some node)
      | None => Ok (name ← head nodeNames; jm_get (w_nodes w) name)
      end
    else __getStartNode w (jm_keys (w_nodes w))
  | None => __getStartNode w (jm_keys (w_nodes w))
  end.

(** The recursion follows non-main outputs, which may form a cycle: [None] is running out of fuel. *)
Fixpoint getParentMainInputNode (fuel : nat) (w : Workflow) (node : INode) : option (result string INode) :=
  match fuel with
  | 0 => None
  | S fuel =>
    match node_type_of node with
    | None => Some (Ok node)
    | Some nodeType =>
      let outputs := getNodeOutputs w node (t_description nodeType) in
      let nonMainConnectionTypes :=
        js_sort str_cmp (filter (λ t, t ≠ Main) (io_type <$> outputs)) in
      let nodeConnections := jm_get (connectionsBySourceNode w) (n_name node) in
      let nonMainNodesConnected :=
        type ← nonMainConnectionTypes;
        if jm_has (default [] nodeConnections) type
        then w_getChildNodes w (n_name node) (OfType type) (-1) else [] in
      match js_sort str_cmp nonMainNodesConnected with
      | [] => Some (Ok node)
      | first :: _ =>
        match getNode w first with
        | None => Some (Err "Node not found")
        | Some returnNode => getParentMainInputNode fuel w returnNode
        end
      end
    end
  end.
End StartNode.

(** * searchNodesBFS finds shortest distances *)

Section BfsDistance.
Context (cs : IConnections) (src : string) (maxDepth : Z).

(** A [main] connection of [cs]. *)
Definition main_edge (a b : string) : Prop :=
  ∃ c, c ∈ flat_conns (default [] (main_conns cs a)) ∧ c_node c = b.

(** The depths the search is allowed to reach. *)
Definition within (k : nat) : Prop := maxDepth = (-1)%Z ∨ (Z.of_nat k ≤ maxDepth)%Z.

Definition at_distance (v : IConnectedNode) : Prop :=
  nsteps main_edge (cn_depth v) src (cn_name v) ∧
  ∀ k, nsteps main_edge k src (cn_name v) → cn_depth v ≤ k.

(** The visited nodes and the queue after [d] levels. *)
Record level_inv (d : nat) (V : jmap string IConnectedNode) (Q : list IConnectedNode) : Prop := {
  li_wf : jm_wf V;
  li_sound : ∀ x v, jm_get V x = Some v → cn_name v = x ∧ at_distance v ∧ cn_depth v < d;
  li_within : ∀ x v, jm_get V x = Some v → within (cn_depth v);
  li_complete : ∀ x k, k < d → nsteps main_edge k src x → is_Some (jm_get V x);
  li_queue : ∀ q, q ∈ Q → cn_depth q = d ∧ nsteps main_edge d src (cn_name q);
  li_next : ∀ x, nsteps main_edge d src x → is_Some (jm_get V x) ∨ x ∈ cn_name <$> Q;
}.

(** What folding [bfs_visit] over [l] has done to [V] and [Q]. *)
Record visited_spec (D : nat) (V V' : jmap string IConnectedNode)
    (Q Q' l : list IConnectedNode) : Prop := {
  vs_wf : jm_wf V → jm_wf V';
  vs_old : ∀ x v, jm_get V x = Some v →
    ∃ v', jm_get V' x = Some v' ∧ cn_name v' = cn_name v ∧ cn_depth v' = cn_depth v;
  vs_new : ∀ x v', jm_get V x = None → jm_get V' x = Some v' →
    cn_name v' = x ∧ ∃ q, q ∈ l ∧ cn_name q = x ∧ cn_depth v' = cn_depth q;
  vs_all : ∀ q, q ∈ l → is_Some (jm_get V' (cn_name q));
  vs_queue : ∀ q, q ∈ Q' → q ∈ Q ∨
    (cn_depth q = D ∧ ∃ x, x ∈ cn_name <$> l ∧ jm_get V x = None ∧ main_edge x (cn_name q));
  vs_succ : ∀ x y, x ∈ cn_name <$> l → jm_get V x = None → main_edge x y → y ∈ cn_name <$> Q';
  vs_keep : Q ⊆ Q';
}.

Lemma bfs_visit_spec D V Q q :
  visited_spec D V (bfs_visit cs D (V, Q) q).1 Q (bfs_visit cs D (V, Q) q).2 [q].
Proof.
  unfold bfs_visit. destruct (jm_get V (cn_name q)) as [v|] eqn:Hq; simpl.
  - split; simpl; try done.
    + apply jm_wf_set.
    + intros x v0 Hx. destruct (decide (cn_name q = x)) as [<-|Hne].
      * rewrite jm_get_set. simplify_eq. eexists; split; [done|]. done.
      * rewrite jm_get_set_ne by done. eauto.
    + intros x v' Hx. destruct (decide (cn_name q = x)) as [<-|Hne]; [congruence|].
      rewrite jm_get_set_ne by done. congruence.
    + intros q' ->%list_elem_of_singleton. by rewrite jm_get_set.
    + by left.
    + intros x y ->%list_elem_of_singleton ?. congruence.
  - split; simpl.
    + apply jm_wf_set.
    + intros x v0 Hx. rewrite jm_get_set_ne by congruence. eauto.
    + intros x v' Hx. destruct (decide (cn_name q = x)) as [<-|Hne].
      * rewrite jm_get_set. intros [= <-]. split; [done|]. exists q. split; [by left|done].
      * rewrite jm_get_set_ne by done. congruence.
    + intros q' ->%list_elem_of_singleton. by rewrite jm_get_set.
    + intros q' [?|(c & -> & Hc)%list_elem_of_fmap]%elem_of_app; [by left|right].
      split; [done|]. exists (cn_name q). split; [by left|]. split; [done|]. by exists c.
    + intros x y ->%list_elem_of_singleton _ (c & Hc & <-). rewrite fmap_app. apply elem_of_app; right.
      apply list_elem_of_fmap. eexists. split; [|apply list_elem_of_fmap; by exists c]. done.
    + set_solver.
Qed.

Lemma visited_spec_trans D V V1 V2 Q Q1 Q2 l q :
  visited_spec D V V1 Q Q1 [q] → visited_spec D V1 V2 Q1 Q2 l → visited_spec D V V2 Q Q2 (q :: l).
Proof.
  intros H1 H2. split.
  - intros; apply H2, H1; done.
  - intros x v Hx. destruct (vs_old _ _ _ _ _ _ H1 x v Hx) as (v1 & Hv1 & ? & ?).
    destruct (vs_old _ _ _ _ _ _ H2 x v1 Hv1) as (v2 & ? & ? & ?). exists v2. split_and!; congruence.
  - intros x v' Hx Hx'. destruct (jm_get V1 x) as [v1|] eqn:Hv1.
    + destruct (vs_new _ _ _ _ _ _ H1 x v1 Hx Hv1) as (? & q0 & Hq0%list_elem_of_singleton & ? & ?); subst q0.
      destruct (vs_old _ _ _ _ _ _ H2 x v1 Hv1) as (v2 & ? & ? & ?). simplify_eq.
      split; [congruence|]. exists q. split; [by left|]. split; congruence.
    + destruct (vs_new _ _ _ _ _ _ H2 x v' Hv1 Hx') as (? & q0 & Hq0 & ? & ?).
      split; [done|]. exists q0. split; [by right|done].
  - intros q' [->|Hq']%elem_of_cons; [|by apply H2].
    destruct (vs_all _ _ _ _ _ _ H1 q) as [v1 Hv1]; [by left|].
    destruct (vs_old _ _ _ _ _ _ H2 _ v1 Hv1) as (v2 & ? & _). by exists v2.
  - intros q' [Hq'|(? & x & Hx & HN & He)]%(vs_queue _ _ _ _ _ _ H2).
    + apply (vs_queue _ _ _ _ _ _ H1) in Hq' as [?|(? & x & Hx & ? & ?)]; [by left|right].
      split; [done|]. exists x. split; [set_solver|done].
    + right. split; [done|]. exists x. split; [set_solver|]. split; [|done].
      destruct (jm_get V x) as [v|] eqn:Hv; [|done].
      destruct (vs_old _ _ _ _ _ _ H1 x v Hv) as (? & ? & _). congruence.
  - intros x y Hx HN He. destruct (jm_get V1 x) as [v1|] eqn:Hv1.
    + destruct (vs_new _ _ _ _ _ _ H1 x v1 HN Hv1) as (_ & q0 & Hq0%list_elem_of_singleton & <- & _).
      subst q0. assert (y ∈ cn_name <$> Q1) as Hy by (eapply (vs_succ _ _ _ _ _ _ H1); [by left|done|done]).
      apply list_elem_of_fmap in Hy as (q1 & -> & Hq1). apply list_elem_of_fmap_2.
      by apply (vs_keep _ _ _ _ _ _ H2).
    + apply (vs_succ _ _ _ _ _ _ H2 x y); [|done|done]. apply list_elem_of_fmap in Hx as (q0 & -> & Hq0).
      apply elem_of_cons in Hq0 as [->|Hq0]; [|by apply list_elem_of_fmap_2].
      destruct (vs_all _ _ _ _ _ _ H1 q) as [? ?]; [by left|]. congruence.
  - etrans; [apply H1|apply H2].
Qed.

Lemma bfs_level_spec D l V Q :
  visited_spec D V (foldl (bfs_visit cs D) (V, Q) l).1 Q (foldl (bfs_visit cs D) (V, Q) l).2 l.
Proof.
  revert V Q; induction l as [|q l IH]; intros V Q; cbn [foldl].
  - split; simpl; try done.
    + intros x v Hx. eauto.
    + intros x v' ? ?; congruence.
    + by intros q ?%not_elem_of_nil.
    + by left.
    + by intros x y ?%not_elem_of_nil.
  - pose proof (bfs_visit_spec D V Q q) as H1. destruct (bfs_visit cs D (V, Q) q) as [V1 Q1].
    eapply visited_spec_trans; [exact H1|apply IH].
Qed.

Lemma nsteps_S_inv k x : nsteps main_edge (S k) src x → ∃ y, nsteps main_edge k src y ∧ main_edge y x.
Proof. intros H. by apply nsteps_inv_r in H. Qed.

Lemma level_step d V Q :
  within d → level_inv d V Q →
  level_inv (S d) (foldl (bfs_visit cs (S d)) (V, []) Q).1 (foldl (bfs_visit cs (S d)) (V, []) Q).2.
Proof.
  intros Hw [Hwf Hs Hwi Hc Hq Hn]. destruct (bfs_level_spec (S d) Q V []) as [Fw Fo Fn Fa Fq Fs _].
  set (V' := (foldl _ _ _).1) in *. set (Q' := (foldl _ _ _).2) in *.
  assert (∀ x v', jm_get V' x = Some v' →
    cn_name v' = x ∧ at_distance v' ∧ cn_depth v' < S d ∧ within (cn_depth v')) as Hall.
  { intros x v' Hx. destruct (jm_get V x) as [v|] eqn:Hv.
    - destruct (Fo x v Hv) as (v1 & Hv1 & Hnm & Hdp). rewrite Hx in Hv1. injection Hv1 as <-.
      destruct (Hs x v Hv) as (Hvx & [Hd Hmin] & ?). pose proof (Hwi _ _ Hv).
      unfold at_distance. rewrite Hnm, Hdp. split_and!; auto with lia.
    - destruct (Fn x v' Hv Hx) as (Hname & q & Hqin & Hqx & Hd). destruct (Hq q Hqin) as [Hqd Hqn].
      unfold at_distance. rewrite Hd, Hqd, Hname, <- Hqx in *. split_and!; [done|done| |lia|done].
      intros k Hk. destruct (decide (d ≤ k)); [done|].
      destruct (Hc (cn_name q) k) as [? ?]; [lia|done|congruence]. }
  assert (∀ x, nsteps main_edge d src x → is_Some (jm_get V' x)) as Hd'.
  { intros x Hx. destruct (Hn x Hx) as [[v Hv]|(q & -> & Hqin)%list_elem_of_fmap].
    - destruct (Fo x v Hv) as (v' & ? & _). by exists v'.
    - by apply Fa. }
  assert (∀ x k, k < S d → nsteps main_edge k src x → is_Some (jm_get V' x)) as Hc'.
  { intros x k Hk Hx. destruct (decide (k = d)) as [->|Hne]; [by apply Hd'|].
    destruct (Hc x k) as [v Hv]; [lia|done|]. destruct (Fo x v Hv) as (v' & ? & _). by exists v'. }
  split.
  - auto.
  - intros x v Hx. apply Hall in Hx. tauto.
  - intros x v Hx. apply Hall in Hx. tauto.
  - done.
  - intros q [?%not_elem_of_nil|(? & x & (q0 & -> & Hq0)%list_elem_of_fmap & _ & He)]%Fq; [done|].
    split; [done|]. apply nsteps_r with (cn_name q0); [by apply Hq|done].
  - intros x (y & Hy & He)%nsteps_S_inv. destruct (Hd' y Hy) as [v' Hv'].
    destruct (jm_get V y) as [v|] eqn:Hv.
    + left. destruct (Hs y v Hv) as (<- & [Hd _] & Hlt).
      apply (Hc' x (S (cn_depth v))); [lia|]. by apply nsteps_r with (cn_name v).
    + right. destruct (Fn y v' Hv Hv') as (_ & q & Hqin & <- & _).
      apply (Fs (cn_name q)); [by apply list_elem_of_fmap_2|done|done].
Qed.

Lemma main_edge_key x y : main_edge x y → x ∈ jm_keys cs.
Proof.
  intros (c & Hc & _). unfold main_conns, conns_of in Hc.
  destruct (jm_get cs x) as [nc|] eqn:Hx; [|by apply not_elem_of_nil in Hc].
  destruct (decide (x ∈ jm_keys cs)); [done|]. apply jm_get_None in n. congruence.
Qed.

(** The keys of the connections that the search has not visited. *)
Definition unvisited (V : jmap string IConnectedNode) : nat :=
  length (filter (λ k, jm_get V k = None) (jm_keys cs)).

Lemma unvisited_step d V Q :
  (foldl (bfs_visit cs (S d)) (V, []) Q).2 = [] ∨
  unvisited (foldl (bfs_visit cs (S d)) (V, []) Q).1 < unvisited V.
Proof.
  destruct (bfs_level_spec (S d) Q V []) as [Fw Fo Fn Fa Fq Fs _].
  set (V' := (foldl _ _ _).1) in *. set (Q' := (foldl _ _ _).2) in *.
  destruct Q' as [|q Q']; [by left|right].
  destruct (Fq q) as [?%not_elem_of_nil|(_ & x & (q0 & -> & Hq0)%list_elem_of_fmap & HN & He)]; [by left|done|].
  assert (cn_name q0 ∈ jm_keys cs) as Hk by (by eapply main_edge_key).
  assert (is_Some (jm_get V' (cn_name q0))) as [v' Hv'] by (by apply Fa).
  assert (∀ k, jm_get V' k = None → jm_get V k = None) as Hmono.
  { intros k Hk'. destruct (jm_get V k) as [v|] eqn:Hv; [|done].
    destruct (Fo k v Hv) as (? & ? & _). congruence. }
  unfold unvisited. clear Fw Fo Fn Fa Fq Fs.
  induction (jm_keys cs) as [|k ks IH]; [by apply not_elem_of_nil in Hk|].
  assert (length (filter (λ k, jm_get V' k = None) ks) ≤ length (filter (λ k, jm_get V k = None) ks)) as Hle.
  { clear IH Hk. induction ks as [|k' ks IH]; [done|]. rewrite !filter_cons.
    repeat case_decide; simpl; try lia. exfalso; auto. }
  rewrite !filter_cons. apply elem_of_cons in Hk as [<-|Hk].
  - rewrite (decide_False _ _) by congruence. rewrite decide_True by done. simpl; lia.
  - specialize (IH Hk). repeat case_decide; simpl; try lia. exfalso; auto.
Qed.

(** Every reachable node is visited once the queue is empty. *)
Lemma level_done d V : level_inv d V [] → ∀ k x, nsteps main_edge k src x → is_Some (jm_get V x).
Proof.
  intros [_ Hs _ Hc _ Hn] k. induction k as [k IH] using lt_wf_ind. intros x Hx.
  destruct (decide (k < d)); [eauto|]. destruct k as [|k].
  - destruct d; [|lia]. destruct (Hn x Hx) as [?|?%not_elem_of_nil]; done.
  - destruct (decide (S k = d)) as [<-|]; [by destruct (Hn x Hx) as [?|?%not_elem_of_nil]|].
    apply nsteps_S_inv in Hx as (y & Hy & He). destruct (IH k ltac:(lia) y Hy) as [v Hv].
    destruct (Hs y v Hv) as (<- & [Hd _] & Hlt).
    assert (nsteps main_edge (S (cn_depth v)) src x) as Hx' by (by apply nsteps_r with (cn_name v)).
    destruct (decide (S (cn_depth v) < d)); [eauto|].
    replace d with (S (cn_depth v)) in Hn by lia. destruct (Hn x Hx') as [?|?%not_elem_of_nil]; done.
Qed.

Lemma searchBFS_loop_spec fuel d V Q :
  (-1 <= maxDepth)%Z → unvisited V + 1 ≤ fuel → level_inv d V Q →
  ∃ V', searchBFS_loop cs maxDepth fuel d V Q = Some V' ∧ jm_wf V' ∧
    (∀ x v, jm_get V' x = Some v → cn_name v = x ∧ at_distance v ∧ within (cn_depth v)) ∧
    (∀ k x, within k → nsteps main_edge k src x → is_Some (jm_get V' x)).
Proof.
  intros HD. revert d V Q; induction fuel as [|fuel IH]; intros d V Q Hf HI; [lia|].
  destruct Q as [|q Q]; cbn [searchBFS_loop].
  { exists V. split_and!; [done|apply HI| |by intros; eapply level_done].
    intros x v Hx. pose proof (li_within _ _ _ HI x v Hx). apply HI in Hx. tauto. }
  destruct (negb _ && _) eqn:Hmax.
  { apply andb_true_iff in Hmax as [Hm1%negb_true_iff%Z.eqb_neq Hm2%Z.ltb_lt].
    exists V. split_and!; [done|apply HI| |].
    - intros x v Hx. pose proof (li_within _ _ _ HI x v Hx). apply HI in Hx. tauto.
    - intros k x [?|Hk] Hx; [lia|]. apply (li_complete _ _ _ HI x k); [lia|done]. }
  assert (within d) as Hw.
  { apply andb_false_iff in Hmax as [?%negb_false_iff%Z.eqb_eq|?%Z.ltb_ge]; [by left|by right]. }
  pose proof (level_step d V (q :: Q) Hw HI) as HI'.
  destruct (unvisited_step d V (q :: Q)) as [He|Hlt];
    destruct (foldl _ _ (q :: Q)) as [V' Q']; simpl in *.
  - subst Q'. exists V'. split_and!; [by destruct fuel|apply HI'| |by intros; eapply level_done].
    intros x v Hx. pose proof (li_within _ _ _ HI' x v Hx). apply HI' in Hx. tauto.
  - apply IH; [lia|done].
Qed.
End BfsDistance.

(** searchNodesBFS terminates and returns, once each, exactly the nodes other than the source
    within the depth limit, each with its shortest distance over main connections. *)
Theorem searchNodesBFS_shortest cs src maxDepth :
  (-1 <= maxDepth)%Z →
  ∃ res, searchNodesBFS cs src maxDepth = Some res ∧ NoDup (cn_name <$> res) ∧
    ∀ x d, (∃ v, v ∈ res ∧ cn_name v = x ∧ cn_depth v = d) ↔
      x ≠ src ∧ within maxDepth d ∧ nsteps (main_edge cs) d src x ∧
      ∀ k, nsteps (main_edge cs) k src x → d ≤ k.
Proof.
  intros HD. unfold searchNodesBFS.
  destruct (searchBFS_loop_spec cs src maxDepth (S (S (length cs))) 0 [] [mkConnected src [] 0])
    as (V & -> & Hwf & Hs & Hc); [done| | |].
  { unfold unvisited. etrans; [apply Nat.add_le_mono_r, length_filter|].
    unfold jm_keys. rewrite length_fmap. lia. }
  { split; try done.
    - constructor.
    - lia.
    - intros q ->%list_elem_of_singleton. split; [done|constructor].
    - intros x Hx. inversion Hx; subst. right. by left. }
  eexists; split; [done|].
  assert (cn_name <$> filter (λ v, cn_name v ≠ src) (jm_vals V) = filter (λ x, x ≠ src) (jm_keys V)) as Hk.
  { assert (∀ p, p ∈ V → cn_name p.2 = p.1) as Hp.
    { intros [k v] Hp. apply jm_elem_get in Hp; [|done]. by apply Hs in Hp as [? _]. }
    unfold jm_vals, jm_keys. clear -Hp. induction V as [|[k v] V IH]; [done|].
    specialize (Hp (k, v) ltac:(by left)) as Hkv. simpl in Hkv. subst k.
    assert (∀ p, p ∈ V → cn_name p.2 = p.1) as Hp' by (intros; apply Hp; by right).
    specialize (IH Hp'). rewrite !fmap_cons, !filter_cons. simpl.
    destruct (decide (cn_name v ≠ src)); [rewrite fmap_cons; f_equal|]; exact IH. }
  split; [rewrite Hk; by apply NoDup_filter|]. intros x d. split.
  - intros (v & [Hne Hv]%list_elem_of_filter & <- & <-). unfold jm_vals in Hv.
    apply list_elem_of_fmap in Hv as ([k v'] & -> & Hv). apply jm_elem_get in Hv; [|done].
    apply Hs in Hv as (? & [Hd Hmin] & Hw). simpl in *. split_and!; done.
  - intros (Hne & Hw & Hd & Hmin). destruct (Hc d x Hw Hd) as [v Hv].
    destruct (Hs x v Hv) as (<- & [Hd' Hmin'] & _). exists v. split_and!; [|done|].
    + apply list_elem_of_filter. split; [done|]. unfold jm_vals. apply list_elem_of_fmap.
      exists (cn_name v, v). split; [done|]. by apply jm_get_Some_elem.
    + apply Nat.le_antisymm; [by apply Hmin'|]. by apply Hmin.
Qed.

(** * getHighestNode *)

Section HighestSpec.
Context (w : Workflow).

(** [b] is an existing node with a [main] connection into [a]. *)
Definition parent_edge (a b : string) : Prop :=
  main_edge (connectionsByDestinationNode w) a b ∧ b ∈ jm_keys (w_nodes w).

Definition has_incoming (a : string) : Prop :=
  is_Some (main_conns (connectionsByDestinationNode w) a).

Lemma push_new_elem l add x : x ∈ push_new l add ↔ x ∈ l ∨ x ∈ add.
Proof.
  unfold push_new. revert l; induction add as [|y add IH]; intros l; simpl; [set_solver|].
  rewrite IH. case_bool_decide; [set_solver|]. rewrite elem_of_app. set_solver.
Qed.

Lemma push_new_NoDup l add : NoDup l → NoDup (push_new l add).
Proof.
  unfold push_new. revert l; induction add as [|y add IH]; intros l Hl; simpl; [done|].
  apply IH. case_bool_decide; [done|]. apply NoDup_app; split_and!; [done| |apply NoDup_singleton].
  by intros z Hz ->%list_elem_of_singleton.
Qed.

Lemma highest_conns_edge a idx slots c :
  main_conns (connectionsByDestinationNode w) a = Some slots → c ∈ highest_conns idx slots →
  main_edge (connectionsByDestinationNode w) a (c_node c).
Proof.
  intros Ha Hc. exists c. split; [|done]. rewrite Ha; simpl. destruct idx as [i|]; [|done].
  unfold highest_conns in Hc. destruct (slots !! i) as [b|] eqn:Hi; [|by apply not_elem_of_nil in Hc].
  apply list_elem_of_join. exists (bucket b). split; [done|]. apply list_elem_of_fmap_2.
  by eapply list_elem_of_lookup_2.
Qed.

(** A name the search may return from [a]. *)
Definition highest_ok (a x : string) : Prop := not_disabled w x = true ∧ rtc parent_edge a x.

Lemma highest_visit_sound rec a conns st :
  (∀ c, c ∈ conns → main_edge (connectionsByDestinationNode w) a (c_node c)) →
  (∀ n C x, x ∈ (rec n C).1 → highest_ok n x) →
  (NoDup st.1 ∧ ∀ x, x ∈ st.1 → highest_ok a x) →
  NoDup (foldl (highest_visit w rec) st conns).1 ∧
  ∀ x, x ∈ (foldl (highest_visit w rec) st conns).1 → highest_ok a x.
Proof.
  intros Hc Hrec Hst.
  apply (foldl_inv (highest_visit w rec) (λ st, NoDup st.1 ∧ ∀ x, x ∈ st.1 → highest_ok a x)); [|done].
  intros [R C] c Hin [Hnd HR]. unfold highest_visit. case_bool_decide; [done|].
  destruct (jm_has (w_nodes w) (c_node c)) eqn:Hh; simpl; [|done]. apply jm_has_spec in Hh.
  destruct (rec (c_node c) C) as [add C'] eqn:Hr; simpl. split; [by apply push_new_NoDup|].
  intros x [?|Hx]%push_new_elem; [auto|].
  assert (parent_edge a (c_node c)) as He by (split; auto).
  assert (highest_ok (c_node c) x) as [Hd Hp].
  { specialize (Hrec (c_node c) C x). rewrite Hr in Hrec. simpl in Hrec.
    destruct add as [|y add]; [|by apply Hrec].
    destruct (not_disabled w (c_node c)) eqn:Hd; [|by apply not_elem_of_nil in Hx].
    apply list_elem_of_singleton in Hx as ->. done. }
  split; [done|]. by apply rtc_l with (c_node c).
Qed.

Lemma highest_sound fuel n idx C :
  NoDup (highest_fuel w fuel n idx C).1 ∧ ∀ x, x ∈ (highest_fuel w fuel n idx C).1 → highest_ok n x.
Proof.
  revert n idx C; induction fuel as [|fuel IH]; intros n idx C; simpl.
  { split; [constructor|]. by intros x ?%not_elem_of_nil. }
  destruct (jm_get (w_nodes w) n) as [node|] eqn:Hn;
    [|split; [constructor|]; by intros x ?%not_elem_of_nil].
  assert (∀ l : list string, l = (if bool_decide (n_disabled node = Some false) then [n] else []) →
    NoDup l ∧ ∀ x, x ∈ l → highest_ok n x) as Hself.
  { intros l ->. case_bool_decide as Hd; [|split; [constructor|by intros x ?%not_elem_of_nil]].
    split; [apply NoDup_singleton|]. intros x ->%list_elem_of_singleton. split; [|done].
    unfold not_disabled. rewrite Hn, Hd. by rewrite bool_decide_true. }
  destruct (main_conns _ n) as [slots|] eqn:Hs; [|by apply Hself].
  destruct (bool_decide (n ∈ C)); [by apply Hself|]. apply highest_visit_sound.
  - intros c Hc. by eapply highest_conns_edge.
  - intros n' C' x Hx. by eapply IH.
  - split; [constructor|]. by intros x ?%not_elem_of_nil.
Qed.

(** ** Completeness *)

(** What an edge to [z] guarantees: an inner node is checked, an enabled root returned. *)
Definition covered (R C : list string) (z : string) : Prop :=
  (has_incoming z → z ∈ C) ∧ (¬ has_incoming z → not_disabled w z = true → z ∈ R).

Definition edges_covered (R C : list string) (y : string) : Prop :=
  ∀ z, parent_edge y z → covered R C z.

Lemma covered_mono R C R' C' z : R ⊆ R' → C ⊆ C' → covered R C z → covered R' C' z.
Proof. intros HR HC [H1 H2]. split; intros; [by apply HC, H1|by apply HR, H2]. Qed.

Definition inner (C : list string) : Prop := ∀ y, y ∈ C → has_incoming y.

(** What a call that starts from the checked names [C] has achieved. *)
Record call_done (C R C' : list string) : Prop := {
  cd_mono : C ⊆ C';
  cd_closed : ∀ y, y ∈ C' → y ∉ C → edges_covered R C' y;
  cd_inner : inner C';
}.

Lemma call_done_weaken C R R' C' : R ⊆ R' → call_done C R C' → call_done C R' C'.
Proof.
  intros HR [Hm Hc Hi]. split; [done| |done]. intros y Hy Hn z Hz.
  eapply covered_mono; [exact HR|reflexivity|]. by apply (Hc y).
Qed.

Lemma call_done_trans C R1 C1 R2 C2 :
  R1 ⊆ R2 → call_done C R1 C1 → call_done C1 R2 C2 → call_done C R2 C2.
Proof.
  intros HR [Hm Hc Hi] [Hm2 Hc2 Hi2]. split; [by etrans| |done]. intros y Hy Hn z Hz.
  destruct (decide (y ∈ C1)) as [Hy1|Hy1]; [|by apply (Hc2 y)].
  eapply covered_mono; [exact HR|exact Hm2|]. by apply (Hc y).
Qed.

(** What the recursive call on an unchecked [n] must guarantee. *)
Definition rec_ok (C : list string) (n : string) (r : list string * list string) : Prop :=
  call_done C r.1 r.2 ∧ (has_incoming n → n ∈ r.2) ∧ (¬ has_incoming n → r.1 ⊆ [n]).

Lemma highest_visit_step rec R C c :
  inner C → c_node c ∈ jm_keys (w_nodes w) →
  (c_node c ∉ C → rec_ok C (c_node c) (rec (c_node c) C)) →
  let st := highest_visit w rec (R, C) c in
  R ⊆ st.1 ∧ call_done C st.1 st.2 ∧ covered st.1 st.2 (c_node c).
Proof.
  intros Hi Hk Hrec. unfold highest_visit. case_bool_decide as Hin; simpl.
  { split_and!; [done| |]; split; try done. intros Hni. exfalso. by apply Hni, Hi. }
  rewrite (proj2 (jm_has_spec _ _) Hk). simpl. specialize (Hrec Hin).
  destruct (rec (c_node c) C) as [add C']; destruct Hrec as (Hd & H1 & H2); simpl in *.
  set (add' := match add with [] => _ | _ => _ end).
  assert (add ⊆ add') as Hsub by (destruct add; [apply list_subseteq_nil|done]).
  assert (push_new R add' ⊆ push_new R add') by done.
  split_and!.
  - intros x Hx. apply push_new_elem. by left.
  - eapply call_done_weaken; [|exact Hd]. intros x Hx. apply push_new_elem. right. by apply Hsub.
  - split; [done|]. intros Hni Hnd. apply push_new_elem. right. specialize (H2 Hni). unfold add'.
    destruct add as [|y add]; [rewrite Hnd; by left|].
    assert (y ∈ [c_node c]) as ->%list_elem_of_singleton by (apply H2; by left). by left.
Qed.

(** The scan of the connections of one node. *)
Lemma highest_visit_complete rec conns R C :
  inner C →
  (∀ c C', c ∈ conns → c_node c ∈ jm_keys (w_nodes w) → C ⊆ C' → inner C' → c_node c ∉ C' →
    rec_ok C' (c_node c) (rec (c_node c) C')) →
  let st := foldl (highest_visit w rec) (R, C) conns in
  R ⊆ st.1 ∧ call_done C st.1 st.2 ∧
  ∀ c, c ∈ conns → c_node c ∈ jm_keys (w_nodes w) → covered st.1 st.2 (c_node c).
Proof.
  revert R C; induction conns as [|c conns IH]; intros R C Hi Hrec; cbn [foldl].
  { simpl. split_and!; [done|split; [done|done|done]|]. by intros c ?%not_elem_of_nil. }
  destruct (decide (c_node c ∈ jm_keys (w_nodes w))) as [Hk|Hk].
  - destruct (highest_visit_step rec R C c Hi Hk) as (HR & Hd & Hcov).
    { intros. apply Hrec; [by left|done..]. }
    destruct (highest_visit w rec (R, C) c) as [R1 C1]; simpl in *.
    destruct (IH R1 C1) as (HR2 & Hd2 & Hcov2); [apply Hd| |].
    { intros c' C' ? ? HC' ? ?. apply Hrec; [by right|done| |done|done]. etrans; [apply Hd|done]. }
    split_and!.
    + by etrans.
    + by eapply call_done_trans.
    + intros c' [->|Hc']%elem_of_cons Hk'; [|by apply Hcov2].
      eapply covered_mono; [exact HR2|apply Hd2|done].
  - assert (highest_visit w rec (R, C) c = (R, C)) as ->.
    { unfold highest_visit. case_bool_decide; [done|]. destruct (jm_has _ _) eqn:Hh; [|done].
      by apply jm_has_spec in Hh. }
    destruct (IH R C Hi) as (HR2 & Hd2 & Hcov2).
    { intros; apply Hrec; [by right|done..]. }
    split_and!; [done|done|]. intros c' [->|Hc']%elem_of_cons Hk'; [done|by apply Hcov2].
Qed.

Lemma has_incoming_key n : has_incoming n → n ∈ jm_keys (connectionsByDestinationNode w).
Proof.
  intros [s Hs]. unfold main_conns, conns_of in Hs.
  destruct (decide (n ∈ jm_keys (connectionsByDestinationNode w))) as [|Hn]; [done|].
  apply jm_get_None in Hn. by rewrite Hn in Hs.
Qed.

Lemma highest_complete fuel n C :
  unseen (jm_keys (connectionsByDestinationNode w)) C < fuel →
  n ∈ jm_keys (w_nodes w) → inner C → n ∉ C → rec_ok C n (highest_fuel w fuel n None C).
Proof.
  revert n C; induction fuel as [|fuel IH]; intros n C Hf Hk Hi Hn; [lia|]. simpl.
  destruct (jm_get (w_nodes w) n) as [node|] eqn:Hnode; [|by apply jm_get_None in Hnode].
  destruct (main_conns (connectionsByDestinationNode w) n) as [slots|] eqn:Hs.
  - rewrite bool_decide_false by done.
    assert (has_incoming n) as Hinc by by eexists.
    assert (inner (C ++ [n])) as Hi'.
    { intros y [?| ->%list_elem_of_singleton]%elem_of_app; auto. }
    destruct (highest_visit_complete (λ name checked, highest_fuel w fuel name None checked)
      (highest_conns None slots) [] (C ++ [n]) Hi') as (_ & Hd & Hcov).
    { intros c C' _ Hkc HC' Hic Hnc. apply IH; [|done..].
      assert (unseen (jm_keys (connectionsByDestinationNode w)) C' ≤
        unseen (jm_keys (connectionsByDestinationNode w)) (C ++ [n])) by (by apply unseen_mono).
      pose proof (unseen_snoc (jm_keys (connectionsByDestinationNode w)) C n
        (has_incoming_key n Hinc) Hn). lia. }
    destruct Hd as [Hm Hcl Hin']. split_and!.
    + split; [set_solver| |done]. intros y Hy Hny.
      destruct (decide (y = n)) as [->|Hne]; [|apply Hcl; set_solver].
      intros z [(c & Hc & <-) Hz]. rewrite Hs in Hc. by apply Hcov.
    + set_solver.
    + done.
  - assert (¬ has_incoming n) as Hni by (unfold has_incoming; rewrite Hs; by intros [? ?]).
    split_and!; [split; simpl; [done|done|done]|done|]. intros _; simpl. case_bool_decide; set_solver.
Qed.
End HighestSpec.

Lemma getHighestNode_sound_enabled w n x : x ∈ getHighestNode w n None → not_disabled w x = true.
Proof. unfold getHighestNode. intros Hx. by apply highest_sound in Hx as [? _]. Qed.

(** getHighestNode terminates and returns distinct, enabled nodes upstream of the given one; for
    a node with incoming connections it returns every enabled upstream node that has none itself. *)
Theorem getHighestNode_roots w n :
  NoDup (getHighestNode w n None) ∧
  (∀ x, x ∈ getHighestNode w n None → not_disabled w x = true ∧ rtc (parent_edge w) n x) ∧
  (n ∈ jm_keys (w_nodes w) → has_incoming w n →
   ∀ x, rtc (parent_edge w) n x → ¬ has_incoming w x → not_disabled w x = true →
     x ∈ getHighestNode w n None).
Proof.
  unfold getHighestNode. destruct (highest_sound w (S (length (connectionsByDestinationNode w))) n None [])
    as [Hnd Hs]. split_and!; [done|done|].
  intros Hk Hinc x Hx Hni Hd.
  destruct (highest_complete w (S (length (connectionsByDestinationNode w))) n []) as ([_ Hcl _] & Hn & _).
  { pose proof (unseen_le (jm_keys (connectionsByDestinationNode w)) []) as Hl.
    unfold jm_keys in *. rewrite length_fmap in Hl. lia. }
  { done. } { by intros y ?%not_elem_of_nil. } { apply not_elem_of_nil. }
  set (C' := (highest_fuel _ _ _ _ _).2) in *.

  assert (∀ y, rtc (parent_edge w) n y → covered w (highest_fuel w
    (S (length (connectionsByDestinationNode w))) n None []).1 C' y) as Hall.
  { apply (rtc_ind_r (λ y, covered w _ C' y) n).
    - split; [auto|]. intros ?; done.
    - intros y z _ Hyz [Hy _]. apply (Hcl y); [|apply not_elem_of_nil|done].
      apply Hy. destruct Hyz as [(c & Hc & _) _]. unfold has_incoming.
      destruct (main_conns _ y); [by eexists|by apply not_elem_of_nil in Hc]. }
  by apply Hall.
Qed.

(** * getNodeConnectionIndexes *)

Section Indexes.
Context (cs : IConnections) (type parent start : string).

(** A connection of the type from [b] into [a]. *)
Definition typed_edge (a b : string) : Prop :=
  ∃ c, c ∈ flat_conns (default [] (conns_of cs a type)) ∧ c_node c = b.

(** The connection found: where it is stored, and what is returned for it. *)
Definition found_at (r : INodeConnection) : Prop :=
  ∃ a slots i slot c, rtc typed_edge start a ∧ conns_of cs a type = Some slots ∧
    slots !! i = Some (Some slot) ∧ slot !! destinationIndex r = Some c ∧
    c_node c = parent ∧ c_index c = sourceIndex r.

Lemma scan_slot_spec V i Q conns :
  match scan_slot parent V i Q conns with
  | inl r => ∃ j c, conns !! j = Some c ∧ destinationIndex r = i + j ∧ c_node c = parent ∧
      c_index c = sourceIndex r
  | inr Q' => length Q' ≤ length Q + length conns ∧ Q ⊆ Q' ∧ (∀ q, q ∈ Q' → q ∈ Q ∨ q ∈ c_node <$> conns) ∧
      ∀ c, c ∈ conns → c_node c ≠ parent ∧ (c_node c ∈ V ∨ c_node c ∈ Q')
  end.
Proof.
  revert i Q; induction conns as [|c conns IH]; intros i Q; cbn [scan_slot].
  { split_and!; [simpl; lia|done|by left|]. by intros c ?%not_elem_of_nil. }
  case_bool_decide as Hp.
  { exists 0, c. simpl. rewrite Nat.add_0_r. done. }
  specialize (IH (S i) (if js_has V (c_node c) then Q else Q ++ [c_node c])).
  destruct (scan_slot _ _ _ _ _) as [r|Q'].
  - destruct IH as (j & c' & ? & ? & ? & ?). exists (S j), c'. split_and!; try done. lia.
  - destruct IH as (Hl & Hsub & Hq & Hc). destruct (js_has V (c_node c)) eqn:HV.
    + apply js_has_true in HV. split_and!; [simpl; lia|done|set_solver|].
      intros c' [->|?]%elem_of_cons; [|auto]. split; [congruence|by left].
    + rewrite length_app in Hl. split_and!; [simpl in *; lia|set_solver| |].
      * intros q [[?| ->%list_elem_of_singleton]%elem_of_app|?]%Hq; [by left|right; by left|right; by right].
      * intros c' [->|?]%elem_of_cons; [|auto]. split; [congruence|right; set_solver].
Qed.

Lemma scan_slots_spec V Q slots :
  match scan_slots parent V Q slots with
  | inl r => ∃ i slot j c, slots !! i = Some (Some slot) ∧ slot !! j = Some c ∧ destinationIndex r = j ∧
      c_node c = parent ∧ c_index c = sourceIndex r
  | inr Q' => length Q' ≤ length Q + length (flat_conns slots) ∧ Q ⊆ Q' ∧
      (∀ q, q ∈ Q' → q ∈ Q ∨ q ∈ c_node <$> flat_conns slots) ∧
      ∀ c, c ∈ flat_conns slots → c_node c ≠ parent ∧ (c_node c ∈ V ∨ c_node c ∈ Q')
  end.
Proof.
  revert Q; induction slots as [|slot slots IH]; intros Q; cbn [scan_slots].
  { split_and!; [simpl; lia|done|by left|]. by intros c ?%not_elem_of_nil. }
  pose proof (scan_slot_spec V 0 Q (bucket slot)) as H1. destruct (scan_slot _ _ _ _ _) as [r|Q1].
  - destruct H1 as (j & c & Hj & ? & ? & ?). destruct slot as [slot|]; [|done].
    exists 0, slot, j, c. done.
  - specialize (IH Q1). destruct (scan_slots _ _ _ _) as [r|Q2].
    + destruct IH as (i & slot' & j & c & ? & ?). by exists (S i), slot', j, c.
    + destruct H1 as (Hl1 & Hs1 & Hq1 & Hc1), IH as (Hl2 & Hs2 & Hq2 & Hc2).
      change (flat_conns (slot :: slots)) with (bucket slot ++ flat_conns slots).
      rewrite length_app, fmap_app. split_and!; [lia|by etrans| |].
      * intros q [[?|?]%Hq1|?]%Hq2; set_solver.
      * intros c [Hc|Hc]%elem_of_app; [|auto]. destruct (Hc1 c Hc) as [? [?|?]]; split; auto.
Qed.

Lemma pending_visit V a slots :
  a ∉ V → conns_of cs a type = Some slots →
  pending_conns cs type (js_add V a) + length (flat_conns slots) ≤ pending_conns cs type V.
Proof.
  intros Ha. unfold conns_of, js_add. rewrite decide_False by done.
  assert (∀ l, pending_conns l type (V ++ [a]) ≤ pending_conns l type V) as Hmono.
  { induction l as [|[k nc] l IH]; cbn [pending_conns]; [lia|].
    repeat case_decide; try lia. set_solver. }
  induction cs as [|[k nc] l IH]; [done|]. cbn [pending_conns jm_get].
  destruct (decide (k = a)) as [->|Hne].
  - intros Hnc. change (jm_get nc type = Some slots) in Hnc.
    rewrite decide_True by set_solver. rewrite decide_False by done.
    rewrite Hnc. change (default [] (Some slots)) with slots. specialize (Hmono l). lia.
  - intros Hl. specialize (IH Hl). repeat case_decide; try lia; set_solver.
Qed.

Lemma pending_visit_none V a : pending_conns cs type (js_add V a) ≤ pending_conns cs type V.
Proof.
  induction cs as [|[k nc] l IH]; cbn [pending_conns]; [lia|].
  repeat case_decide; try lia. rewrite js_add_elem in *. naive_solver.
Qed.

(** The state of the loop: what is visited has been scanned without meeting the parent. *)
Record indexes_inv (V Q : list string) : Prop := {
  ii_start : start ∈ V ∨ start ∈ Q;
  ii_reach : ∀ x, x ∈ V ∨ x ∈ Q → rtc typed_edge start x;
  ii_scanned : ∀ x y, x ∈ V → typed_edge x y → y ≠ parent ∧ (y ∈ V ∨ y ∈ Q);
}.

Lemma indexes_loop_spec fuel V Q :
  indexes_inv V Q → pending_conns cs type V + length Q ≤ fuel →
  ∃ r, indexes_loop cs type parent fuel V Q = Some r ∧
    match r with
    | Some r => found_at r
    | None => ¬ tc typed_edge start parent
    end.
Proof.
  revert V Q; induction fuel as [|fuel IH]; intros V [|q Q] HI Hf; cbn [indexes_loop];
    try (simpl in Hf; lia).
  1-2: exists None; split; [done|]; destruct HI as [Hs Hr Hsc];
    assert (∀ x, rtc typed_edge start x → x ∈ V) as Hall by
      (apply (rtc_ind_r (λ z, z ∈ V) start); [set_solver|]; intros y z _ Hyz Hy;
       destruct (Hsc y z Hy Hyz) as [_ [?|?%not_elem_of_nil]]; done);
    intros Htc; apply tc_r_inv in Htc as (y & Hy & Hyp); by destruct (Hsc y parent (Hall y Hy) Hyp).
  destruct HI as [Hs Hr Hsc]. simpl in Hf.
  destruct (js_has V q) eqn:HV.
  { apply js_has_true in HV. apply IH; [|simpl; lia]. split; [set_solver|set_solver|].
    intros x y Hx Hxy. destruct (Hsc x y Hx Hxy) as [? Hy]. split; [done|set_solver]. }
  apply js_has_false in HV. destruct (conns_of cs q type) as [slots|] eqn:Hc.
  - pose proof (scan_slots_spec (js_add V q) Q slots) as Hscan.
    assert (rtc typed_edge start q) as Hrq by (apply Hr; right; by left).
    destruct (scan_slots _ _ _ _) as [r|Q'].
    + exists (Some r). split; [done|]. destruct Hscan as (i & slot & j & c & Hi & Hj & Hd & Hp & Hx).
      exists q, slots, i, slot, c. by rewrite Hd.
    + destruct Hscan as (Hl & Hsub & Hq & Hcs). pose proof (pending_visit V q slots HV Hc).
      apply IH; [|lia]. split.
      * rewrite js_add_elem. set_solver.
      * intros x. rewrite js_add_elem. intros [[->|?]|[?|(c & -> & Hcin)%list_elem_of_fmap]%Hq].
        -- done.
        -- apply Hr; by left.
        -- apply Hr; right; by right.
        -- apply rtc_r with q; [done|]. exists c. by rewrite Hc.
      * intros x y. rewrite !js_add_elem. intros [->|Hx] Hxy.
        -- destruct Hxy as (c & Hcin & <-). rewrite Hc in Hcin. destruct (Hcs c Hcin) as [? Hv].
           rewrite js_add_elem in Hv. done.
        -- destruct (Hsc x y Hx Hxy) as [? Hv]. split; [done|]. set_solver.
  - pose proof (pending_visit_none V q). apply IH; [|lia]. split.
    + rewrite js_add_elem. set_solver.
    + intros x. rewrite js_add_elem. set_solver.
    + intros x y. rewrite !js_add_elem. intros [->|Hx] Hxy.
      * destruct Hxy as (c & Hcin & _). rewrite Hc in Hcin. by apply not_elem_of_nil in Hcin.
      * destruct (Hsc x y Hx Hxy) as [? Hv]. split; [done|]. set_solver.
Qed.
End Indexes.

(** getNodeConnectionIndexes terminates; it returns indexes exactly when the parent exists and is
    upstream of the node, and they are those of a connection from the parent into an upstream node. *)
Theorem getNodeConnectionIndexes_spec w n parent type :
  ∃ r, getNodeConnectionIndexes w n parent type = Some r ∧
    (is_Some r ↔ is_Some (getNode w parent) ∧
       tc (typed_edge (connectionsByDestinationNode w) type) n parent) ∧
    ∀ i, r = Some i → found_at (connectionsByDestinationNode w) type parent n i.
Proof.
  unfold getNodeConnectionIndexes. destruct (getNode w parent) as [p|].
  2:{ exists None. split_and!; [done| |done]. split; [by intros [? ?]|]. by intros [[? ?] _]. }
  destruct (indexes_loop_spec (connectionsByDestinationNode w) type parent n
    (S (pending_conns (connectionsByDestinationNode w) type [])) [] [n]) as (r & -> & Hr).
  { split; [right; by left| |by intros x y ?%not_elem_of_nil].
    intros x [?%not_elem_of_nil| ->%list_elem_of_singleton]; done. }
  { simpl; lia. }
  exists r. split; [done|]. destruct r as [i|].
  - split; [|by intros i' [= <-]]. split; [|by eexists]. intros _. split; [by eexists|].
    destruct Hr as (a & slots & k & slot & c & Ha & Hs & Hk & Hj & Hp & _).
    eapply tc_rtc_l; [exact Ha|]. apply tc_once. exists c. split; [|done]. rewrite Hs; simpl.
    apply list_elem_of_join. exists slot. split; [by eapply list_elem_of_lookup_2|].
    apply list_elem_of_fmap. exists (Some slot). split; [done|]. by eapply list_elem_of_lookup_2.
  - split; [|done]. split; [by intros [? ?]|]. by intros [_ ?].
Qed.

(** * Renaming *)

(** A connection with both of its ends renamed. *)
Definition rename_name (currentName newName name : string) : string :=
  if bool_decide (name = currentName) then newName else name.

Definition rename_entry (currentName newName : string)
    (e : string * NodeConnectionType * nat * IConnection) : string * NodeConnectionType * nat * IConnection :=
  let '(s, t, i, c) := e in (rename_name currentName newName s, t, i, rename_conn currentName newName c).

Definition rename_target (currentName newName : string)
    (e : string * NodeConnectionType * nat * IConnection) : string * NodeConnectionType * nat * IConnection :=
  let '(s, t, i, c) := e in (s, t, i, rename_conn currentName newName c).

Section RenameSpec.
Context (cur new : string).

Lemma conns_of_inputs_rename s t inputs :
  conns_of_inputs s t (rename_slots cur new inputs) = rename_target cur new <$> conns_of_inputs s t inputs.
Proof.
  rewrite !conns_of_inputs_alt. unfold rename_slots.
  assert (∀ k, mjoin (imap (λ i, tag_slot s t (k + i))
      (fmap (M:=option) (fmap (M:=list) (rename_conn cur new)) <$> inputs)) =
    rename_target cur new <$> mjoin (imap (λ i, tag_slot s t (k + i)) inputs)) as H; [|apply (H 0)].
  induction inputs as [|b inputs IH]; intros k; [done|].
  rewrite fmap_cons, !imap_cons. cbn [mjoin list_join]. rewrite fmap_app. f_equal.
  - unfold tag_slot. rewrite <- list_fmap_compose. destruct b as [b|]; [|done]. cbn.
    rewrite <- list_fmap_compose. done.
  - specialize (IH (S k)). etrans; [|etrans; [exact IH|]].
    + f_equal. apply imap_ext. intros; cbn. f_equal. lia.
    + do 2 f_equal. apply imap_ext. intros; cbn. f_equal. lia.
Qed.

Lemma conns_of_node_rename s nc :
  conns_of_node s (rename_targets cur new nc) = rename_target cur new <$> conns_of_node s nc.
Proof.
  induction nc as [|[t inputs] nc IH]; [done|].
  change (rename_targets cur new ((t, inputs) :: nc)) with
    ((t, rename_slots cur new inputs) :: rename_targets cur new nc).
  by rewrite !conns_of_node_cons, fmap_app, IH, conns_of_inputs_rename.
Qed.

Lemma all_conns_rename cs :
  all_conns (jm_map (rename_targets cur new) cs) = rename_target cur new <$> all_conns cs.
Proof.
  induction cs as [|[s nc] cs IH]; [done|].
  change (jm_map (rename_targets cur new) ((s, nc) :: cs)) with
    ((s, rename_targets cur new nc) :: jm_map (rename_targets cur new) cs).
  by rewrite !all_conns_cons, fmap_app, IH, conns_of_node_rename.
Qed.

(** The source of every entry of [conns_of_node s _] is [s]. *)
Lemma conns_of_node_source s nc e : e ∈ conns_of_node s nc → e.1.1.1 = s.
Proof.
  unfold conns_of_node, conns_of_inputs. intros ([t inputs] & He & _)%list_elem_of_bind.
  apply list_elem_of_bind in He as ([i b] & He & _). apply list_elem_of_bind in He as (c & He & _).
  by apply list_elem_of_singleton in He as ->.
Qed.

Lemma conns_of_node_resource s s' nc :
  conns_of_node s' nc = (λ '(_, t, i, c), (s', t, i, c)) <$> conns_of_node s nc.
Proof.
  induction nc as [|[t inputs] nc IH]; [done|]. rewrite !conns_of_node_cons, fmap_app, <- IH. f_equal.
  rewrite !conns_of_inputs_alt.
  assert (∀ k, mjoin (imap (λ i, tag_slot s' t (k + i)) inputs) =
    (λ '(_, t, i, c), (s', t, i, c)) <$> mjoin (imap (λ i, tag_slot s t (k + i)) inputs)) as H; [|apply (H 0)].
  clear IH. induction inputs as [|b inputs IH]; intros k; [done|].
  rewrite !imap_cons. cbn [mjoin list_join]. rewrite fmap_app. f_equal.
  - unfold tag_slot. by rewrite <- list_fmap_compose.
  - specialize (IH (S k)). etrans; [|etrans; [exact IH|]].
    + f_equal. apply imap_ext. intros; cbn. f_equal. lia.
    + do 2 f_equal. apply imap_ext. intros; cbn. f_equal. lia.
Qed.

(** The entries of the other nodes do not change. *)
Lemma all_conns_other cs : cur ∉ jm_keys cs →
  (λ '(s, t, i, c), (rename_name cur new s, t, i, c)) <$> all_conns cs = all_conns cs.
Proof.
  intros Hn. rewrite <- (list_fmap_id (all_conns cs)) at 2.
  apply list_fmap_ext. intros i [[[s t] j] c] Hi.
  assert (s ∈ jm_keys cs) as Hs.
  { apply list_elem_of_lookup_2 in Hi. clear Hn. induction cs as [|[s' nc] cs IH]; [by apply not_elem_of_nil in Hi|].
    rewrite all_conns_cons in Hi. apply elem_of_app in Hi as [Hi%conns_of_node_source|Hi]; [simpl in Hi; subst s'; by left|right; auto]. }
  unfold rename_name. rewrite bool_decide_false; [done|]. by intros ->.
Qed.

Definition move_source (cs : IConnections) : IConnections :=
  match jm_get cs cur with
  | Some nc => jm_del (jm_set cs new nc) cur
  | None => cs
  end.

Lemma jm_del_notin {V} (m : jmap string V) k : k ∉ jm_keys m → jm_del m k = m.
Proof.
  unfold jm_del. induction m as [|[k' v] m IH]; [done|]. intros Hn. rewrite filter_cons.
  rewrite decide_True by (simpl; set_solver). f_equal. apply IH. set_solver.
Qed.

Lemma move_source_perm cs :
  jm_wf cs → new ∉ jm_keys cs → new ≠ cur →
  all_conns (move_source cs) ≡ₚ (λ '(s, t, i, c), (rename_name cur new s, t, i, c)) <$> all_conns cs.
Proof.
  intros Hwf Hnew Hne. unfold move_source. destruct (jm_get cs cur) as [nc|] eqn:Hc.
  2:{ apply jm_get_None in Hc. by rewrite all_conns_other. }
  destruct (jm_set_split cs new nc) as [[_ ->]|(? & ? & ? & Hs & _)].
  2:{ apply jm_get_Some_elem in Hs. exfalso. apply Hnew. apply list_elem_of_fmap. eexists; split; [|done]. done. }
  apply jm_get_Some_elem, list_elem_of_split in Hc as (l1 & l2 & ->).
  unfold jm_wf, jm_keys in Hwf. rewrite fmap_app, fmap_cons in Hwf. simpl in Hwf.
  apply NoDup_app in Hwf as (_ & Hd1 & [Hd2 _]%NoDup_cons).
  assert (cur ∉ jm_keys l1) as H1 by (intros H; specialize (Hd1 cur H); set_solver).
  unfold jm_del. rewrite !filter_app, filter_cons, decide_False by (simpl; auto).
  rewrite (filter_cons _ (new, nc)), decide_True by done.
  change (filter (λ p, p.1 ≠ cur) l1) with (jm_del l1 cur). change (filter (λ p, p.1 ≠ cur) l2) with (jm_del l2 cur).
  rewrite !jm_del_notin by done. rewrite !all_conns_app, !all_conns_cons, !fmap_app, !all_conns_other by done.
  change (all_conns (filter (λ p, p.1 ≠ cur) [])) with (@nil (string * NodeConnectionType * nat * IConnection)).
  rewrite app_nil_r, (conns_of_node_resource cur new).
  assert ((λ '(_, t, i, c), (new, t, i, c)) <$> conns_of_node cur nc =
    (λ '(s, t, i, c), (rename_name cur new s, t, i, c)) <$> conns_of_node cur nc) as ->.
  { apply list_fmap_ext. intros i [[[s t] j] c] Hi. apply list_elem_of_lookup_2, conns_of_node_source in Hi.
    simpl in Hi. subst s. unfold rename_name. by rewrite bool_decide_true. }
  rewrite <- !(assoc_L (++)). f_equiv. apply Permutation_app_comm.
Qed.
End RenameSpec.

(** Renaming a node to a fresh name that is not restricted renames both ends of every connection
    and nothing else of them, and moves the node, with its parameters rewritten, to its new name. *)
Theorem renameNode_fresh rw w cur new :
  jm_wf (connectionsBySourceNode w) → new ≠ cur →
  new ∉ jm_keys (connectionsBySourceNode w) → new ∉ jm_keys (w_nodes w) →
  to_lower new ∉ to_lower <$> restrictedKeys →
  ∃ w', renameNode rw w cur new = Ok w' ∧
    all_conns (connectionsBySourceNode w') ≡ₚ rename_entry cur new <$> all_conns (connectionsBySourceNode w) ∧
    jm_get (w_nodes w') cur = None ∧
    jm_get (w_nodes w') new =
      (λ n, rename_in_parameters rw cur new (with_name n new)) <$> jm_get (w_nodes w) cur ∧
    ∀ x, x ≠ cur → x ≠ new →
      jm_get (w_nodes w') x = rename_in_parameters rw cur new <$> jm_get (w_nodes w) x.
Proof.
  intros Hwf Hne Hc Hn Hr. unfold renameNode. rewrite bool_decide_false by done.
  eexists; split; [done|]. split.
  - simpl. fold (move_source cur new (connectionsBySourceNode w)).
    rewrite all_conns_rename, move_source_perm, <- list_fmap_compose by done.
    erewrite list_fmap_ext; [reflexivity|]. by intros i [[[s t] j] c] _.
  - simpl. apply jm_get_None in Hn. destruct (jm_get (w_nodes w) cur) as [n|] eqn:Hcur.
    + split_and!.
      * by rewrite jm_get_map, jm_get_del.
      * by rewrite jm_get_map, jm_get_del_ne, jm_get_set by done.
      * intros x Hx1 Hx2. by rewrite jm_get_map, jm_get_del_ne, jm_get_set_ne by done.
    + split_and!; [by rewrite jm_get_map, Hcur|by rewrite jm_get_map, Hn|].
      intros x _ _. by rewrite jm_get_map.
Qed.

(** Renaming a node to the name it already has deletes it together with its outgoing connections. *)
Theorem renameNode_same_name rw w n w' :
  renameNode rw w n n = Ok w' →
  n ∉ jm_keys (w_nodes w') ∧ n ∉ jm_keys (connectionsBySourceNode w').
Proof.
  unfold renameNode. case_bool_decide; [done|]. intros [= <-]. simpl. rewrite !jm_keys_map. split.
  - destruct (jm_get (w_nodes w) n) eqn:Hn; apply jm_get_None; [by rewrite jm_get_del|done].
  - destruct (jm_get (connectionsBySourceNode w) n) eqn:Hn; apply jm_get_None; [by rewrite jm_get_del|done].
Qed.

(** * Start nodes *)

Section StartNodeSpec.
Context (getByNameAndVersion : string → Q → option INodeType) (w : Workflow).

Definition enabled_node (n : INode) : Prop :=
  (∃ name, jm_get (w_nodes w) name = Some n) ∧ n_disabled n ≠ Some true.

Lemma first_trigger_enabled names n :
  first_trigger getByNameAndVersion w names = Ok (Some n) → enabled_node n.
Proof.
  induction names as [|name names IH]; simpl; [done|].
  destruct (jm_get (w_nodes w) name) as [node|] eqn:Hn; simpl; [|done].
  destruct (node_type_of getByNameAndVersion node) as [t|]; simpl; [|done].
  case_bool_decide; [done|]. destruct (_ || _); [|done]. case_bool_decide; [done|].
  intros [= <-]. split; [by exists name|done].
Qed.

Lemma first_starting_enabled n : first_starting w = Some n → enabled_node n.
Proof.
  unfold first_starting. intros H.
  assert (n ∈ omap (λ name, node ← jm_get (w_nodes w) name;
    if bool_decide (n_type node ∈ STARTING_NODE_TYPES) && bool_decide (n_disabled node ≠ Some true)
    then Some node else None) (n_name <$> sorted_by_starting_type w)) as Hin.
  { destruct (omap _ _) as [|x l]; [done|]. injection H as ->. by left. }
  apply list_elem_of_omap in Hin as (name & _ & Hn).
  destruct (jm_get (w_nodes w) name) as [node|] eqn:Hget; [|done]. cbn in Hn.
  destruct (bool_decide (n_type node ∈ STARTING_NODE_TYPES)); [|done]. cbn in Hn.
  case_bool_decide; [|done]. injection Hn as ->. split; [by exists name|done].
Qed.

Lemma __getStartNode_enabled names n :
  __getStartNode getByNameAndVersion w names = Ok (Some n) → enabled_node n.
Proof.
  unfold __getStartNode. destruct (match names with [name] => _ | _ => _ end) as [s|] eqn:Hs.
  - intros [= ->]. destruct names as [|name [|? ?]]; [done| |done].
    destruct (jm_get (w_nodes w) name) as [node|] eqn:Hn; [|done]. cbn in Hs.
    unfold is_disabled in Hs. case_bool_decide; [done|]. injection Hs as ->. split; [by exists name|done].
  - intros (r & Hr & Hn)%bind_Ok. destruct r as [m|].
    + injection Hn as ->. by eapply first_trigger_enabled.
    + injection Hn as Hn. by apply first_starting_enabled.
Qed.
End StartNodeSpec.

(** The start node chosen is a node of the workflow and enabled, unless nothing upstream of the
    destination is enabled and the destination itself is returned. *)
Theorem getStartNode_enabled gt w dest n :
  getStartNode gt w dest = Ok (Some n) →
  enabled_node w n ∨
  ∃ d, dest = Some d ∧ getHighestNode w d None = [] ∧ jm_get (w_nodes w) d = Some n.
Proof.
  unfold getStartNode. destruct dest as [d|]; [|intros H; left; by eapply __getStartNode_enabled].
  destruct (str_truthy _); [|intros H; left; by eapply __getStartNode_enabled].
  intros (r & Hr & Hn)%bind_Ok. destruct r as [m|].
  { injection Hn as ->. left. by eapply __getStartNode_enabled. }
  injection Hn as Hn. destruct (getHighestNode w d None) as [|x l] eqn:Hh.
  { right. by exists d. }
  left. cbn in Hn. split; [by exists x|].
  pose proof (getHighestNode_sound_enabled w d x) as Hx. rewrite Hh in Hx. specialize (Hx ltac:(by left)).
  unfold not_disabled in Hx. rewrite Hn in Hx. by apply bool_decide_eq_true in Hx.
Qed.

(** Choosing the start node throws when the first of several nodes has an unknown type, whatever
    the other nodes are: the type is dereferenced before it is tested. *)
Theorem getStartNode_unknown_type gt w name node name2 node2 rest :
  w_nodes w = (name, node) :: (name2, node2) :: rest →
  gt (n_type node) (n_typeVersion node) = None →
  getStartNode gt w None = Err "TypeError: nodeType is undefined".
Proof.
  intros Hw Ht. unfold getStartNode, __getStartNode.
  assert (jm_keys (w_nodes w) = name :: name2 :: jm_keys rest) as -> by (by rewrite Hw).
  assert (jm_get (w_nodes w) name = Some node) as Hn by (rewrite Hw; cbn [jm_get]; by rewrite decide_True).
  cbn [first_trigger]. rewrite Hn. cbn. unfold node_type_of. by rewrite Ht.
Qed.

(** * Instances *)

(** [a → b → c], with [a] a manual trigger. *)
Definition chain_workflow : Workflow :=
  make_workflow
    [plain_node "a" "n8n-nodes-base.manualTrigger"; plain_node "b" "n8n-nodes-base.set";
     plain_node "c" "n8n-nodes-base.set"]
    [("a", [(Main, [Some [mkConn "b" Main 0]])]); ("b", [(Main, [Some [mkConn "c" Main 0]])])]
    None (Some "v1").

Definition set_description : INodeTypeDescription :=
  mkDescription "set" ["transform"] (IoList [IoName Main]) (IoList [IoName Main]) None false.

(** Knows the [set] node only. *)
Definition chain_types (type : string) (_ : Q) : option INodeType :=
  if bool_decide (type = "n8n-nodes-base.set")
  then Some (mkNodeType set_description true false false false false) else None.

Lemma searchNodesBFS_shortest_witness :
  ∃ res, searchNodesBFS (connectionsByDestinationNode chain_workflow) "c" (-1) = Some res ∧
    NoDup (cn_name <$> res) ∧
    ∀ x d, (∃ v, v ∈ res ∧ cn_name v = x ∧ cn_depth v = d) ↔
      x ≠ "c" ∧ within (-1) d ∧
      nsteps (main_edge (connectionsByDestinationNode chain_workflow)) d "c" x ∧
      ∀ k, nsteps (main_edge (connectionsByDestinationNode chain_workflow)) k "c" x → d ≤ k.
Proof. apply (searchNodesBFS_shortest (connectionsByDestinationNode chain_workflow) "c" (-1)). lia. Defined.

Lemma renameNode_fresh_witness :
  let w := chain_workflow in
  ∃ w', renameNode (λ s _ _, s) w "b" "d" = Ok w' ∧
    all_conns (connectionsBySourceNode w') ≡ₚ rename_entry "b" "d" <$> all_conns (connectionsBySourceNode w) ∧
    jm_get (w_nodes w') "b" = None ∧
    jm_get (w_nodes w') "d" =
      (λ n, rename_in_parameters (λ s _ _, s) "b" "d" (with_name n "d")) <$> jm_get (w_nodes w) "b" ∧
    ∀ x, x ≠ "b" → x ≠ "d" →
      jm_get (w_nodes w') x = rename_in_parameters (λ s _ _, s) "b" "d" <$> jm_get (w_nodes w) x.
Proof. apply (renameNode_fresh (λ s _ _, s) chain_workflow "b" "d"); by_decide. Defined.

Lemma renameNode_same_name_witness :
  ∃ w', renameNode (λ s _ _, s) chain_workflow "b" "b" = Ok w' ∧
    "b" ∉ jm_keys (w_nodes w') ∧ "b" ∉ jm_keys (connectionsBySourceNode w').
Proof.
  eexists; split; [vm_compute; reflexivity|].
  apply (renameNode_same_name (λ s _ _, s) chain_workflow "b"). vm_compute; reflexivity.
Defined.

Lemma getStartNode_enabled_witness :
  let n := plain_node "a" "n8n-nodes-base.manualTrigger" in
  enabled_node chain_workflow n ∨
  ∃ d, Some "c" = Some d ∧ getHighestNode chain_workflow d None = [] ∧
    jm_get (w_nodes chain_workflow) d = Some n.
Proof.
  apply (getStartNode_enabled chain_types chain_workflow (Some "c")). vm_compute; reflexivity.
Defined.

Lemma getStartNode_unknown_type_witness :
  getStartNode chain_types chain_workflow None = Err "TypeError: nodeType is undefined".
Proof.
  eapply (getStartNode_unknown_type chain_types chain_workflow); vm_compute; reflexivity.
Defined.
