(* ===== verification/ExecutionTypes.v ===== *)
(** ExecutionTypes: the state of a workflow execution.

    The entries of the node execution stack, the data recorded for a run of a
    node, engine requests, and the part of [IRunExecutionData]
    (packages/workflow/src/interfaces.ts and run-execution-data) that the
    engine reads and writes.  Wall-clock fields ([startTime], [executionTime])
    and hints are left out.  Items and arrays of items are values: a node that
    returns its own input array shares it with the engine in the source. *)

From stdpp Require Import prelude list strings.
From Stdlib Require Import ZArith.
From S2P Require Import Prelude Types.

(** * Engine requests *)

Record EngineAction := mkAction {
  ea_nodeName : string;
  ea_input : list (string * json);
  ea_type : NodeConnectionType;
  ea_id : string;
  ea_parentNodeName : option string;
  ea_itemIndex : option nat;
}.

Record EngineRequest := mkRequest {
  er_actions : list EngineAction;
  er_metadata : json;
}.

Record SubNodeAction := mkSubNodeAction {
  sa_nodeName : string;
  sa_runIndex : nat;
  sa_action : EngineAction;
}.

Record SubNodeExecutionData := mkSubNodeData {
  sd_actions : list SubNodeAction;
  sd_metadata : json;
}.

(** * Metadata *)

(** The fields the engine reads, and every other one under its name. *)
Record ITaskMetadata := mkMeta {
  m_subNodeExecutionData : option SubNodeExecutionData;
  m_preserveSourceOverwrite : option bool;
  m_preservedSourceOverwrite : option ISourceData;
  m_nodeWasResumed : option bool;
  m_other : jmap string json;
}.

Definition no_meta : ITaskMetadata := mkMeta None None None None [].

Definition or_else {A} (b a : option A) : option A := match b with Some _ => b | None => a end.

(** [{ ...a, ...b }] *)
Definition meta_merge (a b : ITaskMetadata) : ITaskMetadata :=
  mkMeta (or_else (m_subNodeExecutionData b) (m_subNodeExecutionData a))
    (or_else (m_preserveSourceOverwrite b) (m_preserveSourceOverwrite a))
    (or_else (m_preservedSourceOverwrite b) (m_preservedSourceOverwrite a))
    (or_else (m_nodeWasResumed b) (m_nodeWasResumed a))
    (foldl (λ m '(k, v), jm_set m k v) (m_other a) (m_other b)).

(** * Stack entries and task data *)

(** [x_node] is [None] for the [undefined] that [workflow.nodes] gives for an unknown name. *)
Record IExecuteData := mkExecute {
  x_node : option INode;
  x_data : ITaskDataConnections;
  x_source : option ITaskDataConnectionsSource;
  x_runIndex : option nat;
  x_metadata : option ITaskMetadata;
}.

Inductive ExecutionStatus :=
| st_canceled | st_crashed | st_error | st_new | st_running | st_success | st_unknown | st_waiting.

#[export] Instance ExecutionStatus_eq_dec : EqDecision ExecutionStatus.
Proof. solve_decision. Defined.

Record ITaskData := mkTask {
  td_executionIndex : nat;
  td_source : list (slot ISourceData);
  td_executionStatus : option ExecutionStatus;
  td_data : option ITaskDataConnections;
  td_inputOverride : option ITaskDataConnections;
  td_error : option ExecutionError;
  td_metadata : option ITaskMetadata;
}.

(** [Object.assign(current, new)]: the properties the new task data has; its metadata is one
    of them also when it is undefined. *)
Definition task_assign (cur new : ITaskData) : ITaskData :=
  mkTask (td_executionIndex new) (td_source new)
    (or_else (td_executionStatus new) (td_executionStatus cur))
    (or_else (td_data new) (td_data cur))
    (or_else (td_inputOverride new) (td_inputOverride cur))
    (or_else (td_error new) (td_error cur))
    (td_metadata new).

Abbreviation IRunData := (jmap string (list ITaskData)) (only parsing).

(** * The run execution data *)

Inductive DestinationMode := inclusive | exclusive.

Record IDestinationNode := mkDestination {
  dn_nodeName : string;
  dn_mode : DestinationMode;
}.

(** Waiting data by node and run index.  The run indexes are the integer keys of an object. *)
Abbreviation IWaitingForExecution := (jmap string (jmap nat ITaskDataConnections)) (only parsing).
Abbreviation IWaitingForExecutionSource :=
  (jmap string (jmap nat ITaskDataConnectionsSource)) (only parsing).

Record IRunExecutionData := mkRun {
  nodeExecutionStack : list IExecuteData;
  waitingExecution : IWaitingForExecution;
  waitingExecutionSource : IWaitingForExecutionSource;
  runData : IRunData;
  execMetadata : jmap string (list ITaskMetadata);
  r_pinData : option IPinData;
  lastNodeExecuted : option string;
  resultError : option ExecutionError;
  destinationNode : option IDestinationNode;
  runNodeFilter : option (list string);
  waitTill : option Z;
}.

Definition with_stack (s : IRunExecutionData) (st : list IExecuteData) : IRunExecutionData :=
  mkRun st (waitingExecution s) (waitingExecutionSource s) (runData s) (execMetadata s) (r_pinData s)
    (lastNodeExecuted s) (resultError s) (destinationNode s) (runNodeFilter s) (waitTill s).

Definition with_waiting (s : IRunExecutionData) (we : IWaitingForExecution)
    (ws : IWaitingForExecutionSource) : IRunExecutionData :=
  mkRun (nodeExecutionStack s) we ws (runData s) (execMetadata s) (r_pinData s)
    (lastNodeExecuted s) (resultError s) (destinationNode s) (runNodeFilter s) (waitTill s).

Definition with_runData (s : IRunExecutionData) (rd : IRunData) : IRunExecutionData :=
  mkRun (nodeExecutionStack s) (waitingExecution s) (waitingExecutionSource s) rd (execMetadata s)
    (r_pinData s) (lastNodeExecuted s) (resultError s) (destinationNode s) (runNodeFilter s) (waitTill s).

Definition with_lastNode (s : IRunExecutionData) (n : string) : IRunExecutionData :=
  mkRun (nodeExecutionStack s) (waitingExecution s) (waitingExecutionSource s) (runData s)
    (execMetadata s) (r_pinData s) (Some n) (resultError s) (destinationNode s) (runNodeFilter s) (waitTill s).

Definition with_waitTill (s : IRunExecutionData) (t : option Z) : IRunExecutionData :=
  mkRun (nodeExecutionStack s) (waitingExecution s) (waitingExecutionSource s) (runData s)
    (execMetadata s) (r_pinData s) (lastNodeExecuted s) (resultError s) (destinationNode s)
    (runNodeFilter s) t.

Definition with_error (s : IRunExecutionData) (e : option ExecutionError) : IRunExecutionData :=
  mkRun (nodeExecutionStack s) (waitingExecution s) (waitingExecutionSource s) (runData s)
    (execMetadata s) (r_pinData s) (lastNodeExecuted s) e (destinationNode s)
    (runNodeFilter s) (waitTill s).

(** [createRunExecutionData] with the given parts. *)
Definition new_run (stack : list IExecuteData) (pin : option IPinData)
    (dest : option IDestinationNode) (filter : option (list string)) : IRunExecutionData :=
  mkRun stack [] [] [] [] pin None None dest filter None.

(** The run indexes a node waits with, in the order [Object.keys] lists integer keys. *)
Definition run_indexes {A} (runs : jmap nat A) : list nat :=
  js_sort (λ a b, Z.of_nat a - Z.of_nat b)%Z (jm_keys runs).

(** The waiting entries of a node. *)
Definition waiting_runs {A} (m : jmap string (jmap nat A)) (node : string) : jmap nat A :=
  default [] (jm_get m node).

(** [waiting[node][idx].main] *)
Definition waiting_main {A} (m : jmap string (jmap nat (jmap string (list A)))) (node : string)
    (idx : nat) : list A :=
  main_of (default [] (jm_get (waiting_runs m node) idx)).

Definition waiting_set {A} (m : jmap string (jmap nat A)) (node : string) (idx : nat) (v : A)
    : jmap string (jmap nat A) :=
  jm_set m node (jm_set (waiting_runs m node) idx v).

(** [delete m[node][idx]], and [delete m[node]] when nothing is left. *)
Definition waiting_del {A} (m : jmap string (jmap nat A)) (node : string) (idx : nat)
    : jmap string (jmap nat A) :=
  match jm_del (waiting_runs m node) idx with
  | [] => jm_del m node
  | runs => jm_set m node runs
  end.

(** * Lookups in the waiting maps *)

Section WaitingMap.
Context {A : Type}.
Implicit Types (m : jmap string (jmap nat A)).

Definition waiting_get m (node : string) (idx : nat) : option A := jm_get (waiting_runs m node) idx.

(** No node is kept without a waiting entry. *)
Definition no_empty_runs m : Prop := ∀ node runs, jm_get m node = Some runs → runs ≠ [].

Lemma jm_set_not_nil {K V} `{EqDecision K} (m : jmap K V) k v : jm_set m k v ≠ [].
Proof. destruct m as [|[k' v'] m]; simpl; [done|]. by destruct (decide (k' = k)). Qed.

Lemma waiting_runs_set m node idx v node' :
  waiting_runs (waiting_set m node idx v) node' =
    if decide (node = node') then jm_set (waiting_runs m node) idx v else waiting_runs m node'.
Proof.
  unfold waiting_set, waiting_runs. case_decide as Hn; [subst; by rewrite jm_get_set|].
  by rewrite jm_get_set_ne.
Qed.

Lemma waiting_runs_del m node idx node' :
  waiting_runs (waiting_del m node idx) node' =
    if decide (node = node') then jm_del (waiting_runs m node) idx else waiting_runs m node'.
Proof.
  unfold waiting_del. destruct (jm_del (waiting_runs m node) idx) as [|p l] eqn:Hd;
    unfold waiting_runs; (case_decide as Hn; [subst|]).
  - by rewrite jm_get_del.
  - by rewrite jm_get_del_ne.
  - by rewrite jm_get_set.
  - by rewrite jm_get_set_ne.
Qed.

Lemma waiting_get_set m node idx v : waiting_get (waiting_set m node idx v) node idx = Some v.
Proof. unfold waiting_get. by rewrite waiting_runs_set, decide_True, jm_get_set. Qed.

Lemma waiting_get_set_ne m node idx v node' idx' :
  node ≠ node' ∨ idx ≠ idx' → waiting_get (waiting_set m node idx v) node' idx' = waiting_get m node' idx'.
Proof.
  intros Hne. unfold waiting_get. rewrite waiting_runs_set. case_decide as Hn; [subst|done].
  destruct Hne; [done|]. by rewrite jm_get_set_ne.
Qed.

Lemma waiting_get_del m node idx : waiting_get (waiting_del m node idx) node idx = None.
Proof. unfold waiting_get. by rewrite waiting_runs_del, decide_True, jm_get_del. Qed.

Lemma waiting_get_del_ne m node idx node' idx' :
  node ≠ node' ∨ idx ≠ idx' → waiting_get (waiting_del m node idx) node' idx' = waiting_get m node' idx'.
Proof.
  intros Hne. unfold waiting_get. rewrite waiting_runs_del. case_decide as Hn; [subst|done].
  destruct Hne; [done|]. by rewrite jm_get_del_ne.
Qed.

Lemma no_empty_set m node idx v : no_empty_runs m → no_empty_runs (waiting_set m node idx v).
Proof.
  intros Hm node' runs. unfold waiting_set. destruct (decide (node = node')) as [->|].
  - rewrite jm_get_set. intros [= <-]. apply jm_set_not_nil.
  - rewrite jm_get_set_ne by done. apply Hm.
Qed.

Lemma no_empty_del m node idx : no_empty_runs m → no_empty_runs (waiting_del m node idx).
Proof.
  intros Hm node' runs. unfold waiting_del. destruct (jm_del (waiting_runs m node) idx) eqn:Hd.
  - destruct (decide (node = node')) as [->|]; [by rewrite jm_get_del|].
    rewrite jm_get_del_ne by done. apply Hm.
  - destruct (decide (node = node')) as [->|].
    + rewrite jm_get_set. by intros [= <-].
    + rewrite jm_get_set_ne by done. apply Hm.
Qed.
End WaitingMap.

(** How many entries wait in total. *)
Definition runs_total {A} (m : jmap string (jmap nat A)) : nat := sum_list ((λ p, length p.2) <$> m).

Lemma runs_total_app {A} (m1 m2 : jmap string (jmap nat A)) :
  runs_total (m1 ++ m2) = runs_total m1 + runs_total m2.
Proof. unfold runs_total. by rewrite fmap_app, sum_list_with_app. Qed.

Lemma runs_total_jm_del {A} (m : jmap string (jmap nat A)) node :
  runs_total (jm_del m node) + length (waiting_runs m node) ≤ runs_total m.
Proof.
  unfold waiting_runs, runs_total, jm_del. induction m as [|[k runs] m IH]; [done|].
  rewrite filter_cons. cbn [jm_get fst snd]. destruct (decide (k = node)) as [->|Hne].
  - rewrite decide_False by auto. cbn. clear IH.
    assert (sum_list ((λ p, length p.2) <$> filter (λ p, p.1 ≠ node) m) ≤
      sum_list ((λ p : string * jmap nat A, length p.2) <$> m)) as H; [|lia].
    induction m as [|[k' r'] m IH]; [done|]. rewrite filter_cons. case_decide; cbn; lia.
  - rewrite decide_True by done. cbn in *. lia.
Qed.

Lemma length_jm_del {K V} `{EqDecision K} (m : jmap K V) k :
  k ∈ jm_keys m → length (jm_del m k) < length m.
Proof.
  unfold jm_del, jm_keys. induction m as [|[k' v] m IH]; [by intros ?%not_elem_of_nil|].
  rewrite filter_cons, fmap_cons. cbn [fst length]. intros Hin.
  destruct (decide (k' ≠ k)) as [Hd|Hd]; cbn [length]; [|apply Nat.lt_succ_r, length_filter].
  apply elem_of_cons in Hin as [->|Hin]; [done|]. specialize (IH Hin). lia.
Qed.

Lemma runs_total_del {A} (m : jmap string (jmap nat A)) node idx :
  is_Some (waiting_get m node idx) → runs_total (waiting_del m node idx) < runs_total m.
Proof.
  intros [v Hv]. unfold waiting_get in Hv.
  assert (length (jm_del (waiting_runs m node) idx) < length (waiting_runs m node)) as Hlt.
  { apply length_jm_del. apply jm_get_Some_elem in Hv. apply list_elem_of_fmap. by exists (idx, v). }
  pose proof (runs_total_jm_del m node) as Hd. unfold waiting_del.
  destruct (jm_del (waiting_runs m node) idx) as [|p l] eqn:Hl; [simpl in Hlt; lia|].
  unfold waiting_runs in *. destruct (jm_set_split m node (p :: l)) as [[Hn _]|(m1 & v0 & m2 & Hg & Hm & ->)].
  - rewrite Hn in Hv. done.
  - rewrite Hg in Hlt. rewrite Hm, !runs_total_app. unfold runs_total. cbn in *. lia.
Qed.
