(* ===== verification/ExecutionStack.v ===== *)
(** ExecutionStack: how the engine schedules nodes
    (packages/core/src/execution-engine/workflow-execute.ts).

    [addNodeToBeExecuted] puts a node on the stack, or collects the inputs of a
    node with several inputs in [waitingExecution] until all have arrived;
    [ensureInputData] defers a node; the end of the loop releases a waiting node
    when the stack is empty.  A [TypeError] the code would throw is an [Err]. *)

From stdpp Require Import prelude list strings pretty sorting.
From Stdlib Require Import ZArith QArith Lia Sorted.
From S2P Require Import Prelude Types Traversal WorkflowClass ExecutionTypes.
Local Open Scope nat_scope.

(** * Helpers *)

Definition is_v1 (w : Workflow) : bool := bool_decide (w_executionOrder w = Some "v1").
Definition isLegacyExecutionOrder (w : Workflow) : bool := negb (is_v1 w).

(** [nodeExecutionStack[enqueueFn](item)]: [unshift] in v1, [push] in the legacy order. *)
Definition enqueue (w : Workflow) (s : IRunExecutionData) (item : IExecuteData) : IRunExecutionData :=
  with_stack s (if is_v1 w then item :: nodeExecutionStack s else nodeExecutionStack s ++ [item]).

(** [connectionsByDestinationNode[node]?.main ?? []] *)
Definition main_inputs (w : Workflow) (node : string) : NodeInputConnections :=
  default [] (main_conns (connectionsByDestinationNode w) node).

(** [connectionsByDestinationNode[node].main[0] ?? []], a [TypeError] without [main]. *)
Definition first_input (w : Workflow) (node : string) : result string (list IConnection) :=
  slots ← of_option "TypeError: main of undefined" (main_conns (connectionsByDestinationNode w) node);
  Ok (default [] (slots !! 0 ≫= id)).

(** [get(runData, [node, runIndex, 'data', 'main', index])] *)
Definition run_output (rd : IRunData) (node : string) (runIndex index : nat) : slot Items :=
  match jm_get rd node with
  | None => SUndef
  | Some tasks =>
    match tasks !! runIndex with
    | None => SUndef
    | Some t => slot_at (main_of (default [] (td_data t))) index
    end
  end.

Fixpoint incomingConnectionIsEmpty (rd : IRunData) (inputConnections : list IConnection)
    (runIndex : nat) : result string bool :=
  match inputConnections with
  | [] => Ok true
  | inputConnection :: rest =>
    match run_output rd (c_node inputConnection) runIndex (c_index inputConnection) with
    | SUndef | SVal [] => incomingConnectionIsEmpty rd rest runIndex
    | SVal _ => Ok false
    | SNull => Err "TypeError: length of null"
    end
  end.

Definition prepareWaitingToExecution (s : IRunExecutionData) (nodeName : string)
    (numberOfConnections runIndex : nat) : IRunExecutionData :=
  with_waiting s
    (waiting_set (waitingExecution s) nodeName runIndex (only_main (replicate numberOfConnections SNull)))
    (waiting_set (waitingExecutionSource s) nodeName runIndex (only_main (replicate numberOfConnections SNull))).

(** [d.main[i] = x] *)
Definition set_main {A} (d : jmap string (list (slot A))) (i : nat) (x : slot A)
    : jmap string (list (slot A)) :=
  jm_set d Main (arr_set SUndef (main_of d) i x).

Definition waiting_set_main {A} (m : jmap string (jmap nat (jmap string (list (slot A)))))
    (node : string) (idx i : nat) (x : slot A) :=
  waiting_set m node idx (set_main (default [] (jm_get (waiting_runs m node) idx)) i x).

(** [{ previousNode, previousNodeOutput, previousNodeRun }] *)
Definition source_of (parentNodeName : string) (outputIndex runIndex : nat) : ISourceData :=
  mkSource parentNodeName (Some outputIndex) (Some runIndex).

(** [nodeSuccessData[outputIndex]]; [None] is [nodeSuccessData === null]. *)
Definition NodeSuccessData := option (list (slot Items)).

Definition delivered (nsd : NodeSuccessData) (outputIndex : nat) : slot Items :=
  match nsd with None => SNull | Some l => slot_at l outputIndex end.

(** The names on the stack, a [TypeError] for an entry without a node. *)
Definition stack_names (s : IRunExecutionData) : result string (list string) :=
  foldM (λ acc d, n ← of_option "TypeError: name of undefined" (x_node d); Ok (acc ++ [n_name n]))
    [] (nodeExecutionStack s).

(** * addNodeToBeExecuted *)

(** ** Lines 430-579: the inputs of a node with several inputs are collected *)

(** The first run index whose entry has no data for the input. *)
Definition find_waiting_entry (runs : jmap nat ITaskDataConnections) (index : nat) : option nat :=
  head (filter (λ idx, is_val (slot_at (main_of (default [] (jm_get runs idx))) index) = false)
          (run_indexes runs)).

(** The entry the data goes to, created when no entry lacks this input. *)
Definition select_waiting_entry (w : Workflow) (s : IRunExecutionData) (node : string) (index : nat)
    : nat * IRunExecutionData :=
  let runs := waiting_runs (waitingExecution s) node in
  match find_waiting_entry runs index with
  | Some idx => (idx, s)
  | None => (length runs, prepareWaitingToExecution s node (length (main_inputs w node)) (length runs))
  end.

(** The data and its source are written to the entry. *)
Definition deliver (s : IRunExecutionData) (node : string) (idx index : nat) (nsd : NodeSuccessData)
    (outputIndex : nat) (parentNodeName : string) (runIndex : nat) : IRunExecutionData :=
  with_waiting s
    (waiting_set_main (waitingExecution s) node idx index (delivered nsd outputIndex))
    (waiting_set_main (waitingExecutionSource s) node idx index
       (match nsd with None => SNull | Some _ => SVal (source_of parentNodeName outputIndex runIndex) end)).

Definition all_data_found (s : IRunExecutionData) (node : string) (idx : nat) : bool :=
  forallb (λ d, negb (is_null d)) (waiting_main (waitingExecution s) node idx).

(** A complete entry moves to the stack. *)
Definition release (w : Workflow) (s : IRunExecutionData) (node : string) (idx : nat) : IRunExecutionData :=
  let item := mkExecute (jm_get (w_nodes w) node)
    (default [] (jm_get (waiting_runs (waitingExecution s) node) idx))
    (jm_get (waiting_runs (waitingExecutionSource s) node) idx) None None in
  let s := enqueue w s item in
  with_waiting s (waiting_del (waitingExecution s) node idx) (waiting_del (waitingExecutionSource s) node idx).

(** ** Lines 583-753: legacy order, the parents of the other inputs *)

(** The walk up from an input: the node to add, if any. *)
Fixpoint walk_parents (input : string) (checkOutputNodes stackNames : list string) (rd : IRunData)
    (parents : list string) (nodeToAdd : option string) : option string :=
  match parents with
  | [] => nodeToAdd
  | parentNode :: parents =>
    if negb (bool_decide (input = parentNode)) && bool_decide (parentNode ∈ checkOutputNodes) then None
    else if bool_decide (parentNode ∈ stackNames) then None
    else if jm_has rd parentNode then nodeToAdd
    else walk_parents input checkOutputNodes stackNames rd parents (Some parentNode)
  end.

(** A new parent is started with one empty item. *)
Definition empty_start (w : Workflow) (nodeToAdd parentNodeName : string) (outputIndex runIndex : nat)
    : IExecuteData :=
  mkExecute (getNode w nodeToAdd) (only_main [SVal [empty_item]])
    (Some (only_main [SVal (source_of parentNodeName outputIndex runIndex)])) None None.

Section AddParents.
Context (w : Workflow) (parentNodeName : string) (nsd : NodeSuccessData) (outputIndex runIndex : nat).
Context (checkOutputNodes : list string).

(** [nodeSuccessData[outputIndex].length === 0] *)
Definition delivered_empty : result string bool :=
  match delivered nsd outputIndex with
  | SVal l => Ok (bool_decide (l = []))
  | _ => Err "TypeError: length of undefined"
  end.

(** Lines 657-751, for an input whose node has not run and is not scheduled. *)
Definition add_parent (s : IRunExecutionData) (stackNames : list string) (input : string)
    : result string IRunExecutionData :=
  let parentNodes := rev (w_getParentNodes w input (OfType Main) (-1) ++ [input]) in
  let nodeToAdd := walk_parents input checkOutputNodes stackNames (runData s) parentNodes (Some input) in
  let parentNodesNodeToAdd :=
    w_getParentNodes w (default "undefined" nodeToAdd) (OfType Main) (-1) in
  nodeToAdd ← (if bool_decide (parentNodeName ∈ parentNodesNodeToAdd)
               then e ← delivered_empty; Ok (if e : bool then None else nodeToAdd)
               else Ok nodeToAdd);
  match nodeToAdd with
  | None => Ok s
  | Some n =>
    addEmptyItem ←
      match jm_get (connectionsByDestinationNode w) n with
      | None => Ok true
      | Some _ => conns ← first_input w n; incomingConnectionIsEmpty (runData s) conns runIndex
      end;
    Ok (if addEmptyItem : bool then enqueue w s (empty_start w n parentNodeName outputIndex runIndex) else s)
  end.

(** Lines 608-752: the body of the inner loop. *)
Definition check_input (s : IRunExecutionData) (inputData : IConnection)
    : result string IRunExecutionData :=
  let input := c_node inputData in
  if bool_decide (input = parentNodeName) then Ok s
  else
    stackNames ← stack_names s;
    skip ← (if bool_decide (input ∈ checkOutputNodes)
            then conns ← first_input w input;
                 empty ← incomingConnectionIsEmpty (runData s) conns runIndex;
                 Ok (negb empty)
            else Ok false);
    if (skip : bool) then Ok s
    else if bool_decide (input ∈ stackNames) then Ok s
    else if jm_has (runData s) input then Ok s
    else if negb (isLegacyExecutionOrder w) then Ok s
    else add_parent s stackNames input.
End AddParents.

(** The nodes on the main outputs of the parent. *)
Definition check_output_nodes (w : Workflow) (parentNodeName : string) : result string (list string) :=
  nc ← of_option "TypeError: main of undefined" (jm_get (connectionsBySourceNode w) parentNodeName);
  Ok (c_node <$> flat_conns (default [] (jm_get nc Main))).

(** ** Lines 757-824: the entry is written back, or the node goes on the stack *)

(** [get(..., [node, waitingNodeIndex, 'main'], null)] with the data of this delivery. *)
Definition connection_data_array (s : IRunExecutionData) (node : string) (waitingNodeIndex : option nat)
    (index : nat) (d : slot Items) : list (slot Items) :=
  let found := idx ← waitingNodeIndex;
               runs ← jm_get (waitingExecution s) node;
               entry ← jm_get runs idx; jm_get entry Main in
  arr_set SUndef (default (replicate (S index) SNull) found) index d.

(** Lines 783-804. *)
Definition write_back (w : Workflow) (s : IRunExecutionData) (node : string) (idx : nat)
    (connectionDataArray : list (slot Items)) : IRunExecutionData :=
  let sources := waiting_main (waitingExecutionSource s) node idx in
  let s := prepareWaitingToExecution s node (length (main_inputs w node)) idx in
  with_waiting s (waiting_set (waitingExecution s) node idx (only_main connectionDataArray))
    (waiting_set (waitingExecutionSource s) node idx
       (jm_set (default [] (jm_get (waiting_runs (waitingExecutionSource s) node) idx)) Main sources)).

(** Lines 805-824. *)
Definition add_directly (w : Workflow) (s : IRunExecutionData) (node : string)
    (connectionDataArray : list (slot Items)) (parentNodeName : string) (outputIndex runIndex : nat)
    (newRunIndex : option nat) (metadata : option ITaskMetadata) : IRunExecutionData :=
  match jm_get (w_nodes w) node with
  | None => s
  | Some n =>
    enqueue w s (mkExecute (Some n) (only_main connectionDataArray)
      (Some (only_main [SVal (source_of parentNodeName outputIndex runIndex)])) newRunIndex metadata)
  end.

Definition addNodeToBeExecuted (w : Workflow) (s : IRunExecutionData) (connectionData : IConnection)
    (outputIndex : nat) (parentNodeName : string) (nodeSuccessData : NodeSuccessData) (runIndex : nat)
    (newRunIndex : option nat) (metadata : option ITaskMetadata) : result string IRunExecutionData :=
  let node := c_node connectionData in
  let index := c_index connectionData in
  let d := delivered nodeSuccessData outputIndex in
  if 1 <? length (main_inputs w node) then
    let nodeWasWaiting := jm_has (waitingExecution s) node in
    let '(idx, s) := select_waiting_entry w s node index in
    let s := deliver s node idx index nodeSuccessData outputIndex parentNodeName runIndex in
    if all_data_found s node idx then Ok (release w s node idx)
    else
      s ← (if nodeWasWaiting then Ok s
           else
             checkOutputNodes ← check_output_nodes w parentNodeName;
             foldM (check_input w parentNodeName nodeSuccessData outputIndex runIndex checkOutputNodes)
               s (flat_conns (main_inputs w node)));
      Ok (write_back w s node idx (connection_data_array s node (Some idx) index d))
  else
    Ok (add_directly w s node (connection_data_array s node None index d) parentNodeName outputIndex
          runIndex newRunIndex metadata).

(** * The children of a node that has run (lines 2142-2235) *)

Record NodeToAdd := mkNodeToAdd {
  na_position : Z * Z;
  na_connection : IConnection;
  na_outputIndex : nat;
}.

(** The comparison of [nodesToAdd.sort]: bottom-right first, since [unshift] reverses. *)
Definition position_cmp (a b : NodeToAdd) : Z :=
  let '(ax, ay) := na_position a in
  let '(bx, by_) := na_position b in
  if (ay <? by_)%Z then 1 else if (ay >? by_)%Z then -1 else if (ax >? bx)%Z then -1 else 0.

Section Children.
Context (w : Workflow) (nodeName : string) (nsd : list (slot Items)) (runIndex : nat).

(** The output has data, or it feeds a later input of a node in the legacy order. *)
Definition output_delivers (outputIndex : nat) (connectionData : IConnection) : bool :=
  match slot_at nsd outputIndex with
  | SVal l => negb (bool_decide (l = [])) || ((0 <? c_index connectionData) && isLegacyExecutionOrder w)
  | _ => false
  end.

Definition add_child (s : IRunExecutionData) (connectionData : IConnection) (outputIndex : nat)
    : result string IRunExecutionData :=
  addNodeToBeExecuted w s connectionData outputIndex nodeName (Some nsd) runIndex None None.

(** One connection: collected in v1, added at once in the legacy order. *)
Definition visit_child (st : list NodeToAdd * IRunExecutionData) (e : nat * IConnection)
    : result string (list NodeToAdd * IRunExecutionData) :=
  let '(nodesToAdd, s) := st in
  let '(outputIndex, connectionData) := e in
  if negb (jm_has (w_nodes w) (c_node connectionData)) then Err "Destination node not found"
  else if output_delivers outputIndex connectionData then
    if is_v1 w then
      let position := default (0, 0)%Z (n_position <$> getNode w (c_node connectionData)) in
      Ok (nodesToAdd ++ [mkNodeToAdd position connectionData outputIndex], s)
    else s ← add_child s connectionData outputIndex; Ok (nodesToAdd, s)
  else Ok st.

(** The connections of all outputs in order. *)
Definition indexed_conns (slots : NodeInputConnections) : list (nat * IConnection) :=
  '(i, slot) ← entries slots; c ← bucket slot; [(i, c)].

Definition enqueue_children (s : IRunExecutionData) : result string IRunExecutionData :=
  match main_conns (connectionsBySourceNode w) nodeName with
  | None => Ok s
  | Some slots =>
    '(nodesToAdd, s) ← foldM visit_child ([], s) (indexed_conns slots);
    if is_v1 w then
      foldM (λ s nodeData, add_child s (na_connection nodeData) (na_outputIndex nodeData)) s
        (js_sort position_cmp nodesToAdd)
    else Ok s
  end.
End Children.

(** * ensureInputData *)

Fixpoint ensure_inputs (w : Workflow) (name : string) (executionData : IExecuteData)
    (s : IRunExecutionData) (connectionIndexes : list nat) : bool * IRunExecutionData :=
  let defer := (false, with_stack s (nodeExecutionStack s ++ [executionData])) in
  match connectionIndexes with
  | [] => (true, s)
  | connectionIndex :: rest =>
    match getHighestNode w name (Some connectionIndex) with
    | [] => (true, s)
    | _ =>
      match jm_get (x_data executionData) Main with
      | None => defer
      | Some main =>
        if isLegacyExecutionOrder w &&
           ((length main <? connectionIndex) || is_null (slot_at main connectionIndex))
        then defer
        else ensure_inputs w name executionData s rest
      end
    end
  end.

Definition ensureInputData (w : Workflow) (executionNode : INode) (executionData : IExecuteData)
    (s : IRunExecutionData) : bool * IRunExecutionData :=
  ensure_inputs w (n_name executionNode) executionData s
    (seq 0 (length (main_inputs w (n_name executionNode)))).

(** * Waiting nodes that may run without all of their inputs (lines 2247-2404) *)

(** The value of [requiredInputs] once an expression has been evaluated. *)
Inductive RequiredValue :=
| RVList (l : list nat)
| RVCount (n : nat).

(** [nodeType.description.inputs.length]: of the array, or of the expression string. *)
Definition inputs_length (d : INodeTypeDescription) : nat :=
  match d_inputs d with IoList l => length l | IoExpr e => String.length e end.

(** [Object.keys(runs).sort()]: the keys as strings, in the order of strings. *)
Definition sorted_run_keys {A} (runs : jmap nat A) : list nat :=
  js_sort (λ a b, str_cmp (pretty a) (pretty b)) (run_indexes runs).

Section Waiting.
Context (getByNameAndVersion : string → Q → option INodeType).
(** [workflow.expression.getSimpleParameterValue] on the [requiredInputs] expression. *)
Context (evalRequiredInputs : INode → string → option RequiredValue).
Context (w : Workflow).

Definition required_inputs (checkNode : INode) (d : INodeTypeDescription) : option RequiredValue :=
  match d_requiredInputs d with
  | None => None
  | Some (ReqExpr e) => evalRequiredInputs checkNode e
  | Some (ReqList l) => Some (RVList l)
  | Some (ReqCount n) => Some (RVCount n)
  end.

Definition all_inputs_required (r : option RequiredValue) (d : INodeTypeDescription) : bool :=
  match r with
  | None => false
  | Some (RVList l) => length l =? inputs_length d
  | Some (RVCount n) => n =? inputs_length d
  end.

(** The indexes of the inputs that received any data. *)
Definition inputs_with_data (main : list (slot Items)) : list nat :=
  fst <$> filter (λ e, is_null e.2 = false) (entries main).

Definition required_missing (r : option RequiredValue) (main : list (slot Items)) : bool :=
  match r with
  | None => false
  | Some (RVList l) => existsb (λ i, negb (bool_decide (i ∈ inputs_with_data main))) l
  | Some (RVCount n) => length (inputs_with_data main) <? n
  end.

(** [data === null ? [] : data]; reading the length of [undefined] throws. *)
Definition task_data_main (main : list (slot Items)) : result string (list Items) :=
  foldM (λ acc d, match d with
    | SNull => Ok (acc ++ [[]])
    | SVal l => Ok (acc ++ [l])
    | SUndef => Err "TypeError: length of undefined"
    end) [] main.

Definition has_items (taskDataMain : list Items) : bool :=
  existsb (λ d, negb (bool_decide (d = []))) taskDataMain.

Definition pad_inputs (d : INodeTypeDescription) (taskDataMain : list Items) : list Items :=
  taskDataMain ++ replicate (inputs_length d - length taskDataMain) [].

Inductive WaitingStep :=
| Skipped
| Released (s : IRunExecutionData)
| Removed (s : IRunExecutionData).

Definition drop_waiting (s : IRunExecutionData) (nodeName : string) (idx : nat) : IRunExecutionData :=
  with_waiting s (waiting_del (waitingExecution s) nodeName idx)
    (waiting_del (waitingExecutionSource s) nodeName idx).

(** One waiting node (the body of the [for] loop). *)
Definition check_waiting_node (waitingNodes : list string) (s : IRunExecutionData) (nodeName : string)
    : result string WaitingStep :=
  match getNode w nodeName with
  | None => Ok Skipped
  | Some checkNode =>
    let nodeType := getByNameAndVersion (n_type checkNode) (n_typeVersion checkNode) in
    required ← (if is_v1 w then
                  t ← of_option "TypeError: description of undefined" nodeType;
                  Ok (required_inputs checkNode (t_description t), all_inputs_required
                        (required_inputs checkNode (t_description t)) (t_description t))
                else Ok (None, false));
    let '(requiredInputs, allRequired) := required : option RequiredValue * bool in
    if allRequired then Ok Skipped
    else if existsb (λ p, bool_decide (p ∈ waitingNodes)) (w_getParentNodes w nodeName (OfType Main) (-1))
    then Ok Skipped
    else
      let runs := waiting_runs (waitingExecution s) nodeName in
      firstRunIndex ← of_option "TypeError: main of undefined" (head (sorted_run_keys runs));
      let main := waiting_main (waitingExecution s) nodeName firstRunIndex in
      if required_missing requiredInputs main then Ok Skipped
      else
        taskDataMain ← task_data_main main;
        if has_items taskDataMain then
          t ← of_option "TypeError: description of undefined" nodeType;
          let item := mkExecute (jm_get (w_nodes w) nodeName)
            (only_main (SVal <$> pad_inputs (t_description t) taskDataMain))
            (jm_get (waiting_runs (waitingExecutionSource s) nodeName) firstRunIndex) None None in
          Ok (Released (drop_waiting (with_stack s (nodeExecutionStack s ++ [item])) nodeName firstRunIndex))
        else Ok (Removed (drop_waiting s nodeName firstRunIndex))
  end.

(** The [for] loop up to the first node released or removed. *)
Fixpoint scan_waiting (waitingNodes : list string) (s : IRunExecutionData) (nodes : list string)
    : result string WaitingStep :=
  match nodes with
  | [] => Ok Skipped
  | nodeName :: nodes =>
    step ← check_waiting_node waitingNodes s nodeName;
    match step with
    | Skipped => scan_waiting waitingNodes s nodes
    | _ => Ok step
    end
  end.

(** Every removal of an empty entry restarts the loop from the first waiting node. *)
Fixpoint release_loop (fuel : nat) (s : IRunExecutionData) : option (result string IRunExecutionData) :=
  match fuel with
  | 0 => None
  | S fuel =>
    let waitingNodes := jm_keys (waitingExecution s) in
    match scan_waiting waitingNodes s waitingNodes with
    | Err e => Some (Err e)
    | Ok Skipped => Some (Ok s)
    | Ok (Released s) => Some (Ok s)
    | Ok (Removed s) => release_loop fuel s
    end
  end.

Definition release_waiting (s : IRunExecutionData) : option (result string IRunExecutionData) :=
  match nodeExecutionStack s with
  | [] => release_loop (S (runs_total (waitingExecution s))) s
  | _ => Some (Ok s)
  end.
End Waiting.

(** * Starting an execution *)

Definition run_filter (w : Workflow) (d : IDestinationNode) (additionalRunFilterNodes : list string)
    : list string :=
  js_of_list (w_getParentNodes w (dn_nodeName d) (OfType Main) (-1) ++
    w_getParentNodes w (dn_nodeName d) ALL_NON_MAIN (-1) ++
    (match dn_mode d with inclusive => [dn_nodeName d] | exclusive => [] end) ++
    additionalRunFilterNodes).

(** [run], up to the start of the loop. *)
Definition run_init (getByNameAndVersion : string → Q → option INodeType) (w : Workflow)
    (startNode : option INode) (dest : option IDestinationNode) (pinData : option IPinData)
    (triggerData : option ITaskDataConnections) (additionalRunFilterNodes : list string)
    : result string IRunExecutionData :=
  start ← match startNode with
          | Some n => Ok (Some n)
          | None => getStartNode getByNameAndVersion w (dn_nodeName <$> dest)
          end;
  start ← of_option "No node to start the workflow from could be found" start;
  let stack := [mkExecute (Some start) (default (only_main [SVal [empty_item]]) triggerData)
                  None None None] in
  Ok (new_run stack pinData dest ((λ d, run_filter w d additionalRunFilterNodes) <$> dest)).

(** The nodes whose parameters are checked before the run, and the issues found. *)
Definition checkReadyForExecution {Issues} (getByNameAndVersion : string → Q → option INodeType)
    (typeUnknown : Issues) (getNodeParametersIssues : INodeType → INode → option Issues) (w : Workflow)
    (startNode : option string) (dest : option IDestinationNode) : option (jmap string Issues) :=
  let checkNodes :=
    match dest with
    | Some d => w_getParentNodes w (dn_nodeName d) (OfType Main) (-1) ++
        match dn_mode d with inclusive => [dn_nodeName d] | exclusive => [] end
    | None =>
      match startNode with
      | Some n => if str_truthy startNode
                  then w_getChildNodes w n (OfType Main) (-1) ++ [n] else []
      | None => []
      end
    end in
  let issues := foldl (λ m nodeName,
    match jm_get (w_nodes w) nodeName with
    | None => m
    | Some node =>
      if bool_decide (n_disabled node = Some true) then m
      else match (match getByNameAndVersion (n_type node) (n_typeVersion node) with
                  | None => Some typeUnknown
                  | Some t => getNodeParametersIssues t node
                  end) with
           | Some i => jm_set m (n_name node) i
           | None => m
           end
    end) [] checkNodes in
  match issues with [] => None | _ => Some issues end.

(** * What the parents of the other inputs change *)

(** Everything but the stack. *)
Definition same_but_stack (s s' : IRunExecutionData) : Prop :=
  s' = with_stack s (nodeExecutionStack s').

Lemma same_but_stack_refl s : same_but_stack s s.
Proof. by destruct s. Qed.

Lemma same_but_stack_trans s1 s2 s3 : same_but_stack s1 s2 → same_but_stack s2 s3 → same_but_stack s1 s3.
Proof. unfold same_but_stack. intros H1 H2. rewrite H2, H1. done. Qed.

Lemma enqueue_same w s item : same_but_stack s (enqueue w s item).
Proof. done. Qed.

Lemma check_input_same w p nsd o r outs s c s' :
  check_input w p nsd o r outs s c = Ok s' → same_but_stack s s'.
Proof.
  unfold check_input, add_parent. intros H.
  repeat (case_bool_decide || case_match || (apply bind_Ok in H as (? & ? & H)) || simplify_eq/=);
    auto using same_but_stack_refl, enqueue_same.
Qed.

(** In the v1 order the parents of the other inputs are never added. *)
Lemma check_input_v1 w p nsd o r outs s c s' :
  is_v1 w = true → check_input w p nsd o r outs s c = Ok s' → s' = s.
Proof.
  unfold check_input, isLegacyExecutionOrder. intros -> H.
  repeat (case_bool_decide || case_match || (apply bind_Ok in H as (? & ? & H)) || simplify_eq/=); done.
Qed.

Lemma check_inputs_same w p nsd o r outs s l s' :
  foldM (check_input w p nsd o r outs) s l = Ok s' → same_but_stack s s'.
Proof.
  apply (foldM_inv _ (same_but_stack s)); [|apply same_but_stack_refl].
  intros s1 c s2 _ H1 H2%check_input_same. by eapply same_but_stack_trans.
Qed.

Lemma check_inputs_v1 w p nsd o r outs s l s' :
  is_v1 w = true → foldM (check_input w p nsd o r outs) s l = Ok s' → s' = s.
Proof.
  intros Hv. apply (foldM_inv _ (λ s1, s1 = s)); [|done].
  by intros s1 c s2 _ -> ->%check_input_v1.
Qed.

(** * The invariant of the waiting maps *)

(** The two maps wait for the same nodes and runs, with arrays of the same length, and every
    waiting entry lacks the data of some input. *)
Record waiting_inv (s : IRunExecutionData) : Prop := {
  wi_data : no_empty_runs (waitingExecution s);
  wi_source : no_empty_runs (waitingExecutionSource s);
  wi_paired : ∀ node idx,
    match waiting_get (waitingExecution s) node idx, waiting_get (waitingExecutionSource s) node idx with
    | Some d, Some src => length (main_of d) = length (main_of src) ∧ SNull ∈ main_of d
    | None, None => True
    | _, _ => False
    end;
}.

Lemma waiting_inv_same s s' : same_but_stack s s' → waiting_inv s → waiting_inv s'.
Proof. intros -> [H1 H2 H3]. split; done. Qed.

Lemma only_main_main {A} (l : list A) : main_of (only_main l) = l.
Proof. done. Qed.

Lemma set_main_main {A} (d : jmap string (list (slot A))) i x :
  main_of (set_main d i x) = arr_set SUndef (main_of d) i x.
Proof. unfold set_main, main_of at 1. by rewrite jm_get_set. Qed.

Lemma arr_set_id {A} (d : A) l i x : l !! i = Some x → arr_set d l i x = l.
Proof.
  intros H. unfold arr_set. rewrite decide_True by (by eapply lookup_lt_Some).
  by apply list_insert_id.
Qed.

(** ** One delivery to a waiting entry *)

Section Deliver.
Context (w : Workflow) (s : IRunExecutionData) (node : string) (index : nat).

(** An entry to which data can be delivered: it exists in both maps. *)
Definition entry_at (s : IRunExecutionData) (idx : nat) (d : ITaskDataConnections)
    (src : ITaskDataConnectionsSource) : Prop :=
  waiting_get (waitingExecution s) node idx = Some d ∧
  waiting_get (waitingExecutionSource s) node idx = Some src ∧
  length (main_of d) = length (main_of src).

Lemma select_spec idx s1 :
  waiting_inv s → select_waiting_entry w s node index = (idx, s1) →
  no_empty_runs (waitingExecution s1) ∧ no_empty_runs (waitingExecutionSource s1) ∧
  (∃ d src, entry_at s1 idx d src) ∧
  (∀ node' idx', node ≠ node' ∨ idx ≠ idx' →
    waiting_get (waitingExecution s1) node' idx' = waiting_get (waitingExecution s) node' idx' ∧
    waiting_get (waitingExecutionSource s1) node' idx' = waiting_get (waitingExecutionSource s) node' idx') ∧
  same_but_stack (with_waiting s (waitingExecution s1) (waitingExecutionSource s1)) s1.
Proof.
  intros [H1 H2 H3]. unfold select_waiting_entry.
  destruct (find_waiting_entry _ _) as [i|] eqn:Hf; intros [= <- <-].
  - split_and!; [done|done| |done|by destruct s]. unfold entry_at.
    assert (is_Some (waiting_get (waitingExecution s) node i)) as [d Hd].
    { unfold find_waiting_entry in Hf.
      assert (i ∈ run_indexes (waiting_runs (waitingExecution s) node)) as Hi.
      { destruct (filter _ _) as [|x l] eqn:Hl; [done|]. injection Hf as ->.
        assert (i ∈ i :: l) as Hil by (by left). rewrite <- Hl in Hil.
        by apply list_elem_of_filter in Hil as [_ ?]. }
      unfold run_indexes in Hi. apply js_sort_elem in Hi.
      unfold waiting_get. destruct (jm_get _ i) eqn:Hg; [by eexists|]. by apply jm_get_None in Hg. }
    specialize (H3 node i). rewrite Hd in H3. destruct (waiting_get (waitingExecutionSource s) node i) as [src|]; [|done].
    exists d, src. split_and!; [done|done|apply H3].
  - unfold prepareWaitingToExecution, entry_at.
    cbn [waitingExecution waitingExecutionSource with_waiting].
    split_and!; [by apply no_empty_set|by apply no_empty_set| | |done].
    + exists (only_main (replicate (length (main_inputs w node)) SNull)),
        (only_main (replicate (length (main_inputs w node)) SNull)).
      rewrite !waiting_get_set, !only_main_main, !length_replicate. done.
    + intros node' idx' Hne. by rewrite !waiting_get_set_ne.
Qed.
End Deliver.

Lemma deliver_spec s node idx index nsd o p r d src :
  entry_at node s idx d src →
  let s' := deliver s node idx index nsd o p r in
  entry_at node s' idx (set_main d index (delivered nsd o))
    (set_main src index (match nsd with None => SNull | Some _ => SVal (source_of p o r) end)).
Proof.
  intros (Hd & Hs & Hl). unfold entry_at, deliver, waiting_set_main.
  cbn [waitingExecution waitingExecutionSource with_waiting].
  rewrite !waiting_get_set. unfold waiting_get in Hd, Hs. rewrite Hd, Hs. cbn [default id].
  rewrite !set_main_main, !arr_set_length. split_and!; [done|done|lia].
Qed.

Lemma all_data_found_false s node idx d :
  waiting_get (waitingExecution s) node idx = Some d →
  all_data_found s node idx = false → SNull ∈ main_of d.
Proof.
  unfold all_data_found, waiting_main, waiting_get. intros ->. cbn [default id].
  generalize (main_of d). intros l H. induction l as [|x l IH]; [done|]. cbn in H.
  apply andb_false_iff in H as [H|H]; [|right; auto]. destruct x; [discriminate H|by left|discriminate H].
Qed.

(** The entry is written back unchanged. *)
Lemma write_back_spec w s node idx index x d src :
  entry_at node s idx d src → jm_get d Main = Some (main_of d) → main_of d !! index = Some x →
  let s' := write_back w s node idx (connection_data_array s node (Some idx) index x) in
  waiting_get (waitingExecution s') node idx = Some (only_main (main_of d)) ∧
  (∃ src', waiting_get (waitingExecutionSource s') node idx = Some src' ∧ main_of src' = main_of src).
Proof.
  intros (Hd & Hs & Hl) Hm Hx. unfold write_back, connection_data_array.
  assert ((idx ← Some idx; runs ← jm_get (waitingExecution s) node; entry ← jm_get runs idx; jm_get entry Main)
    = Some (main_of d)) as Hf.
  { cbn. unfold waiting_get, waiting_runs in Hd. destruct (jm_get (waitingExecution s) node) as [runs|]; [|done].
    cbn in *. rewrite Hd. done. }
  rewrite Hf. cbn [default id]. rewrite arr_set_id by done.
  cbn [waitingExecution waitingExecutionSource with_waiting prepareWaitingToExecution].
  rewrite waiting_get_set. split; [done|].
  eexists. rewrite waiting_get_set. split; [done|].
  unfold main_of at 1. rewrite jm_get_set. cbn [default id]. unfold waiting_main.
  unfold waiting_get in Hs. by rewrite Hs.
Qed.

(** A change of one entry that keeps the pairing of the others. *)
Lemma paired_update s s' node idx :
  waiting_inv s →
  (∀ node' idx', node ≠ node' ∨ idx ≠ idx' →
    waiting_get (waitingExecution s') node' idx' = waiting_get (waitingExecution s) node' idx' ∧
    waiting_get (waitingExecutionSource s') node' idx' = waiting_get (waitingExecutionSource s) node' idx') →
  match waiting_get (waitingExecution s') node idx, waiting_get (waitingExecutionSource s') node idx with
  | Some d, Some src => length (main_of d) = length (main_of src) ∧ SNull ∈ main_of d
  | None, None => True
  | _, _ => False
  end →
  ∀ node' idx',
    match waiting_get (waitingExecution s') node' idx', waiting_get (waitingExecutionSource s') node' idx' with
    | Some d, Some src => length (main_of d) = length (main_of src) ∧ SNull ∈ main_of d
    | None, None => True
    | _, _ => False
    end.
Proof.
  intros [_ _ H] Hne Hhere node' idx'. destruct (decide (node = node' ∧ idx = idx')) as [[<- <-]|Hd]; [done|].
  destruct (Hne node' idx') as [-> ->]; [|apply H].
  destruct (decide (node = node')); [right|left]; naive_solver.
Qed.

Lemma release_inv w s node idx :
  no_empty_runs (waitingExecution s) → no_empty_runs (waitingExecutionSource s) →
  let s' := release w s node idx in
  no_empty_runs (waitingExecution s') ∧ no_empty_runs (waitingExecutionSource s') ∧
  waiting_get (waitingExecution s') node idx = None ∧
  waiting_get (waitingExecutionSource s') node idx = None ∧
  ∀ node' idx', node ≠ node' ∨ idx ≠ idx' →
    waiting_get (waitingExecution s') node' idx' = waiting_get (waitingExecution s) node' idx' ∧
    waiting_get (waitingExecutionSource s') node' idx' = waiting_get (waitingExecutionSource s) node' idx'.
Proof.
  intros H1 H2. unfold release. cbn [waitingExecution waitingExecutionSource with_waiting enqueue with_stack].
  rewrite !waiting_get_del. split_and!; [by apply no_empty_del|by apply no_empty_del|done|done|].
  intros node' idx' Hne. by rewrite !waiting_get_del_ne.
Qed.

Lemma write_back_other w s node idx arr :
  no_empty_runs (waitingExecution s) → no_empty_runs (waitingExecutionSource s) →
  let s' := write_back w s node idx arr in
  no_empty_runs (waitingExecution s') ∧ no_empty_runs (waitingExecutionSource s') ∧
  ∀ node' idx', node ≠ node' ∨ idx ≠ idx' →
    waiting_get (waitingExecution s') node' idx' = waiting_get (waitingExecution s) node' idx' ∧
    waiting_get (waitingExecutionSource s') node' idx' = waiting_get (waitingExecutionSource s) node' idx'.
Proof.
  intros H1 H2. unfold write_back, prepareWaitingToExecution.
  cbn [waitingExecution waitingExecutionSource with_waiting].
  split_and!; [by repeat apply no_empty_set|by repeat apply no_empty_set|].
  intros node' idx' Hne. by rewrite !waiting_get_set_ne.
Qed.

Lemma deliver_other s node idx index nsd o p r :
  no_empty_runs (waitingExecution s) → no_empty_runs (waitingExecutionSource s) →
  let s' := deliver s node idx index nsd o p r in
  no_empty_runs (waitingExecution s') ∧ no_empty_runs (waitingExecutionSource s') ∧
  ∀ node' idx', node ≠ node' ∨ idx ≠ idx' →
    waiting_get (waitingExecution s') node' idx' = waiting_get (waitingExecution s) node' idx' ∧
    waiting_get (waitingExecutionSource s') node' idx' = waiting_get (waitingExecutionSource s) node' idx'.
Proof.
  intros H1 H2. unfold deliver, waiting_set_main. cbn [waitingExecution waitingExecutionSource with_waiting].
  split_and!; [by apply no_empty_set|by apply no_empty_set|].
  intros node' idx' Hne. by rewrite !waiting_get_set_ne.
Qed.

Lemma set_main_get {A} (d : jmap string (list (slot A))) i x :
  jm_get (set_main d i x) Main = Some (main_of (set_main d i x)).
Proof. rewrite set_main_main. unfold set_main. by rewrite jm_get_set. Qed.

Lemma addNodeToBeExecuted_waiting_inv_aux w s c o p nsd r nr meta s' :
  waiting_inv s → addNodeToBeExecuted w s c o p nsd r nr meta = Ok s' → waiting_inv s'.
Proof.
  intros HI. unfold addNodeToBeExecuted. destruct (1 <? length (main_inputs w (c_node c))).
  2:{ intros [= <-]. unfold add_directly. destruct (jm_get _ _); [|done].
      by eapply waiting_inv_same. }
  destruct (select_waiting_entry w s (c_node c) (c_index c)) as [idx s1] eqn:Hsel.
  destruct (select_spec w s (c_node c) (c_index c) idx s1 HI Hsel) as (N1 & N2 & (d & src & He) & Ho & _).
  pose proof (deliver_spec s1 (c_node c) idx (c_index c) nsd o p r d src He) as He2.
  destruct (deliver_other s1 (c_node c) idx (c_index c) nsd o p r N1 N2) as (M1 & M2 & Ho2).
  set (s2 := deliver _ _ _ _ _ _ _ _) in *. cbv zeta in He2.
  assert (∀ node' idx', c_node c ≠ node' ∨ idx ≠ idx' →
    waiting_get (waitingExecution s2) node' idx' = waiting_get (waitingExecution s) node' idx' ∧
    waiting_get (waitingExecutionSource s2) node' idx' = waiting_get (waitingExecutionSource s) node' idx') as Ho3.
  { intros node' idx' Hne. destruct (Ho node' idx' Hne) as [<- <-]. by apply Ho2. }
  destruct (all_data_found s2 (c_node c) idx) eqn:Hall.
  - intros [= <-]. destruct (release_inv w s2 (c_node c) idx M1 M2) as (R1 & R2 & R3 & R4 & R5).
    split; [done|done|]. apply (paired_update s _ (c_node c) idx HI).
    + intros node' idx' Hne. destruct (Ho3 node' idx' Hne) as [<- <-]. by apply R5.
    + by rewrite R3, R4.
  - intros (s3 & Hs3 & [= <-])%bind_Ok.
    assert (same_but_stack s2 s3) as Hsame.
    { destruct (jm_has _ _); [injection Hs3 as ->; apply same_but_stack_refl|].
      apply bind_Ok in Hs3 as (outs & _ & Hs3). by eapply check_inputs_same. }
    rewrite Hsame. set (s4 := with_stack s2 _).
    assert (entry_at (c_node c) s4 idx (set_main d (c_index c) (delivered nsd o))
      (set_main src (c_index c) (match nsd with None => SNull | Some _ => SVal (source_of p o r) end))) as He4 by done.
    destruct (write_back_spec w s4 (c_node c) idx (c_index c) (delivered nsd o) _ _ He4) as (W1 & src' & W2 & W3).
    { apply set_main_get. } { rewrite set_main_main. apply arr_set_lookup. }
    destruct (write_back_other w s4 (c_node c) idx
      (connection_data_array s4 (c_node c) (Some idx) (c_index c) (delivered nsd o)) M1 M2) as (W4 & W5 & W6).
    split; [done|done|]. apply (paired_update s _ (c_node c) idx HI).
    + intros node' idx' Hne. destruct (Ho3 node' idx' Hne) as [<- <-]. by apply W6.
    + rewrite W1, W2, only_main_main, W3. destruct He2 as (Hd2 & _ & Hl2). split; [done|].
      by eapply all_data_found_false.
Qed.

Lemma enqueue_children_waiting_inv w name nsd r s s' :
  waiting_inv s → enqueue_children w name nsd r s = Ok s' → waiting_inv s'.
Proof.
  intros HI. unfold enqueue_children. destruct (main_conns _ _) as [slots|]; [|by intros [= <-]].
  intros ([nodesToAdd s1] & H1 & H2)%bind_Ok.
  assert (waiting_inv s1) as HI1.
  { change s1 with (nodesToAdd, s1).2. revert H1. apply (foldM_inv _ (λ st, waiting_inv st.2)); [|done].
    intros [l s2] [i c] st' _ HI2. unfold visit_child. destruct (negb _); [done|].
    destruct (output_delivers _ _ _ _); [|by intros [= <-]].
    destruct (is_v1 w); [by intros [= <-]|]. intros (s3 & H3 & [= <-])%bind_Ok.
    by eapply addNodeToBeExecuted_waiting_inv_aux. }
  destruct (is_v1 w); [|by injection H2 as <-].
  revert H2. apply (foldM_inv _ waiting_inv); [|done].
  intros s2 n s3 _ HI2 H3. by eapply addNodeToBeExecuted_waiting_inv_aux.
Qed.

(** * Releasing waiting nodes *)

Section WaitingSpec.
Context (gt : string → Q → option INodeType) (evalR : INode → string → option RequiredValue) (w : Workflow).

(** The entry of a released node: it had data on some input. *)
Definition released_item (s : IRunExecutionData) (item : IExecuteData) : Prop :=
  ∃ name idx d, waiting_get (waitingExecution s) name idx = Some d ∧
    x_node item = getNode w name ∧ is_Some (x_node item) ∧
    x_source item = waiting_get (waitingExecutionSource s) name idx ∧
    (∃ l, l ≠ [] ∧ SVal l ∈ main_of (x_data item)) ∧ SNull ∉ main_of (x_data item).

Lemma drop_waiting_inv s name idx :
  waiting_inv s → waiting_inv (drop_waiting s name idx).
Proof.
  intros HI. pose proof HI as [H1 H2 _]. split; [by apply no_empty_del|by apply no_empty_del|].
  apply (paired_update s _ name idx HI); cbn [drop_waiting waitingExecution waitingExecutionSource with_waiting].
  - intros node' idx' Hne. by rewrite !waiting_get_del_ne.
  - by rewrite !waiting_get_del.
Qed.

Lemma sorted_run_keys_elem {A} (runs : jmap nat A) idx :
  head (sorted_run_keys runs) = Some idx → is_Some (jm_get runs idx).
Proof.
  intros H. assert (idx ∈ sorted_run_keys runs) as Hi.
  { destruct (sorted_run_keys runs); [done|]. injection H as ->. by left. }
  unfold sorted_run_keys in Hi. apply js_sort_elem in Hi. unfold run_indexes in Hi. apply js_sort_elem in Hi.
  destruct (jm_get runs idx) eqn:Hg; [by eexists|]. by apply jm_get_None in Hg.
Qed.

Lemma has_items_elem l : has_items l = true → ∃ d, d ∈ l ∧ d ≠ [].
Proof.
  unfold has_items. intros (d & Hd & Hn)%existsb_exists. exists d.
  split; [by apply list_elem_of_In|]. intros ->. by rewrite bool_decide_true in Hn.
Qed.

Lemma check_waiting_node_spec names s name step :
  waiting_inv s → check_waiting_node gt evalR w names s name = Ok step →
  match step with
  | Skipped => True
  | Released s' => waiting_inv s' ∧ runs_total (waitingExecution s') < runs_total (waitingExecution s) ∧
      ∃ item, nodeExecutionStack s' = nodeExecutionStack s ++ [item] ∧ released_item s item
  | Removed s' => waiting_inv s' ∧ runs_total (waitingExecution s') < runs_total (waitingExecution s) ∧
      nodeExecutionStack s' = nodeExecutionStack s
  end.
Proof.
  intros HI. unfold check_waiting_node. destruct (getNode w name) as [n|] eqn:Hn; [|by intros [= <-]].
  intros ([req allreq] & _ & H)%bind_Ok. destruct allreq; [by injection H as <-|].
  destruct (existsb _ _); [by injection H as <-|].
  apply bind_Ok in H as (idx & Hidx%of_option_Ok & H).
  destruct (required_missing _ _); [by injection H as <-|].
  apply bind_Ok in H as (main & Hmain & H).
  assert (is_Some (waiting_get (waitingExecution s) name idx)) as Hsome by (by apply sorted_run_keys_elem).
  destruct (has_items main) eqn:Hitems.
  - apply bind_Ok in H as (t & _ & H). injection H as <-.
    split_and!; [apply drop_waiting_inv; by eapply waiting_inv_same|by apply runs_total_del|].
    eexists; split; [reflexivity|]. destruct Hsome as [d Hd]. exists name, idx, d.
    split_and!; try done.
    + destruct (has_items_elem main Hitems) as (l & Hl & Hne). exists l. split; [done|].
      cbn. unfold only_main, main_of; cbn. apply list_elem_of_fmap_2. unfold pad_inputs. set_solver.
    + cbn. unfold only_main, main_of; cbn. by intros (? & ? & _)%list_elem_of_fmap.
  - injection H as <-. split_and!; [by apply drop_waiting_inv|by apply runs_total_del|done].
Qed.

Lemma scan_waiting_spec names s nodes step :
  waiting_inv s → scan_waiting gt evalR w names s nodes = Ok step →
  match step with
  | Skipped => True
  | Released s' => waiting_inv s' ∧ runs_total (waitingExecution s') < runs_total (waitingExecution s) ∧
      ∃ item, nodeExecutionStack s' = nodeExecutionStack s ++ [item] ∧ released_item s item
  | Removed s' => waiting_inv s' ∧ runs_total (waitingExecution s') < runs_total (waitingExecution s) ∧
      nodeExecutionStack s' = nodeExecutionStack s
  end.
Proof.
  intros HI. induction nodes as [|name nodes IH]; cbn [scan_waiting]; [by intros [= <-]|].
  intros (st & Hst & H)%bind_Ok. apply check_waiting_node_spec in Hst; [|done].
  destruct st; [by apply IH|by injection H as <-|by injection H as <-].
Qed.

Lemma release_loop_spec fuel s :
  waiting_inv s → runs_total (waitingExecution s) < fuel →
  ∃ r, release_loop gt evalR w fuel s = Some r ∧ ∀ s', r = Ok s' →
    waiting_inv s' ∧
    (nodeExecutionStack s' = nodeExecutionStack s ∨
     ∃ item s1, nodeExecutionStack s' = nodeExecutionStack s ++ [item] ∧ released_item s1 item ∧
       runs_total (waitingExecution s') < runs_total (waitingExecution s)).
Proof.
  revert s; induction fuel as [|fuel IH]; intros s HI Hf; [lia|]. cbn [release_loop].
  destruct (scan_waiting _ _ _ _ _ _) as [step|e] eqn:Hscan; [|by exists (Err e)].
  apply scan_waiting_spec in Hscan; [|done]. destruct step as [|s'|s'].
  - exists (Ok s). split; [done|]. intros s' [= <-]. split; [done|by left].
  - exists (Ok s'). split; [done|]. intros s1 [= <-]. destruct Hscan as (? & ? & item & ? & ?).
    split; [done|]. right. by exists item, s.
  - destruct Hscan as (HI' & Hlt & Hst). destruct (IH s' HI' ltac:(lia)) as (r & Hr & Hspec).
    exists r. split; [done|]. intros s1 ->. destruct (Hspec s1 eq_refl) as [? [Hs|(item & s2 & Hs & ? & ?)]].
    + split; [done|]. left. by rewrite Hs.
    + split; [done|]. right. exists item, s2. rewrite Hs, Hst. split_and!; [done|done|lia].
Qed.
End WaitingSpec.

(** When the stack is empty the search among the waiting nodes terminates; it keeps the waiting
    invariant and either schedules nothing or schedules one waiting node, with data on some input
    and an array on each, whose entry is removed. *)
Theorem release_waiting_spec gt evalR w s :
  waiting_inv s →
  ∃ r, release_waiting gt evalR w s = Some r ∧ ∀ s', r = Ok s' →
    waiting_inv s' ∧
    (nodeExecutionStack s' = nodeExecutionStack s ∨
     ∃ item s1, nodeExecutionStack s = [] ∧ nodeExecutionStack s' = [item] ∧ released_item w s1 item ∧
       runs_total (waitingExecution s') < runs_total (waitingExecution s)).
Proof.
  intros HI. unfold release_waiting. destruct (nodeExecutionStack s) as [|x l] eqn:Hs.
  - destruct (release_loop_spec gt evalR w (S (runs_total (waitingExecution s))) s HI) as (r & Hr & H); [lia|].
    exists r. split; [done|]. intros s' Hs'. rewrite Hs in H. destruct (H s' Hs') as [? [?|(item & s1 & ? & ? & ?)]].
    + split; [done|by left].
    + split; [done|]. right. by exists item, s1.
  - exists (Ok s). split; [done|]. intros s' [= <-]. split; [done|]. by left.
Qed.

(** Scheduling the children of a node, delivery by delivery, preserves the invariant of the waiting
    maps: data and sources wait for the same nodes and runs with arrays of the same length, no node is
    kept without an entry, and an entry that waits lacks the data of some input. *)
Theorem scheduling_keeps_waiting_inv w s :
  waiting_inv s →
  (∀ c o p nsd r nr meta s', addNodeToBeExecuted w s c o p nsd r nr meta = Ok s' → waiting_inv s') ∧
  (∀ name nsd r s', enqueue_children w name nsd r s = Ok s' → waiting_inv s').
Proof.
  intros HI. split; intros.
  - by eapply addNodeToBeExecuted_waiting_inv_aux.
  - by eapply enqueue_children_waiting_inv.
Qed.

(** * Joining the inputs of a node *)

(** One output delivered to one input of the node. *)
Record Delivery := mkDelivery {
  dv_index : nat;
  dv_parent : string;
  dv_output : nat;
  dv_run : nat;
  dv_data : list (slot Items);
}.

Definition dv_items (d : Delivery) : slot Items := slot_at (dv_data d) (dv_output d).
Definition dv_source (d : Delivery) : slot ISourceData :=
  SVal (source_of (dv_parent d) (dv_output d) (dv_run d)).

Section Join.
Context (w : Workflow) (node : string) (type : NodeConnectionType).

Definition deliver_to (s : IRunExecutionData) (d : Delivery) : result string IRunExecutionData :=
  addNodeToBeExecuted w s (mkConn node type (dv_index d)) (dv_output d) (dv_parent d)
    (Some (dv_data d)) (dv_run d) None None.

(** The waiting map [m] with one entry of [node] added. *)
Definition one_entry {A} (m : jmap string (jmap nat A)) (e : A) : jmap string (jmap nat A) :=
  m ++ [(node, [(0, e)])].

Section OneEntry.
Context {A : Type} (m : jmap string (jmap nat A)) (Hm : jm_get m node = None).

Lemma jm_get_one_entry e : jm_get (one_entry m e) node = Some [(0, e)].
Proof.
  unfold one_entry. induction m as [|[k v] m' IH]; cbn; [by rewrite decide_True|].
  cbn in Hm. destruct (decide (k = node)); [done|auto].
Qed.

Lemma waiting_runs_none : waiting_runs m node = [].
Proof. unfold waiting_runs. by rewrite Hm. Qed.

Lemma jm_set_one_entry e runs : jm_set (one_entry m e) node runs = m ++ [(node, runs)].
Proof.
  unfold one_entry. induction m as [|[k v] m' IH]; cbn; [by rewrite decide_True|].
  cbn in Hm. destruct (decide (k = node)); [done|]. by rewrite IH.
Qed.

Lemma jm_set_one_entry_one e e' : jm_set (one_entry m e) node [(0, e')] = one_entry m e'.
Proof. apply jm_set_one_entry. Qed.

Lemma waiting_set_new e : waiting_set m node 0 e = one_entry m e.
Proof.
  unfold waiting_set, one_entry. rewrite waiting_runs_none. cbn.
  destruct (jm_set_split m node [(0, e)]) as [[_ ->]|(? & ? & ? & Hg & _)]; [done|congruence].
Qed.

Lemma waiting_set_one_entry e e' : waiting_set (one_entry m e) node 0 e' = one_entry m e'.
Proof. unfold waiting_set, waiting_runs. by rewrite jm_get_one_entry, jm_set_one_entry. Qed.

Lemma waiting_del_one_entry e : waiting_del (one_entry m e) node 0 = m.
Proof.
  assert (jm_del (one_entry m e) node = m) as Hd.
  { unfold one_entry, jm_del. rewrite filter_app, filter_cons, decide_False, filter_nil, app_nil_r by (cbn; auto).
    clear e. induction m as [|[k v] m' IH]; [done|]. cbn in Hm.
    rewrite filter_cons. cbn [fst]. destruct (decide (k = node)) as [->|Hne]; [done|].
    rewrite decide_True by done. f_equal. by apply IH. }
  unfold waiting_del, waiting_runs. rewrite jm_get_one_entry. by rewrite Hd.
Qed.
End OneEntry.

Context (s0 : IRunExecutionData).
Context (Hv1 : is_v1 w = true) (Hmulti : 1 < length (main_inputs w node)).
Context (Hwe : jm_get (waitingExecution s0) node = None).
Context (Hws : jm_get (waitingExecutionSource s0) node = None).

(** The state while the inputs in [A] have arrived from the sources in [S]. *)
Definition joining (A : list (slot Items)) (S : list (slot ISourceData)) : IRunExecutionData :=
  with_waiting s0 (one_entry (waitingExecution s0) (only_main A))
    (one_entry (waitingExecutionSource s0) (only_main S)).

Definition joined (A : list (slot Items)) (S : list (slot ISourceData)) : IRunExecutionData :=
  enqueue w s0 (mkExecute (jm_get (w_nodes w) node) (only_main A) (Some (only_main S)) None None).

Definition complete (A : list (slot Items)) : bool := forallb (λ d, negb (is_null d)) A.

Lemma set_main_only {B} (A : list (slot B)) i x :
  i < length A → set_main (only_main A) i x = only_main (<[i:=x]> A).
Proof.
  intros Hi. unfold set_main, only_main, main_of. cbn. unfold arr_set. by rewrite !decide_True by done.
Qed.

(** The step once the entry has been selected. *)
Lemma deliver_joining A S d :
  dv_index d < length A → length A = length S →
  deliver (joining A S) node 0 (dv_index d) (Some (dv_data d)) (dv_output d) (dv_parent d) (dv_run d) =
    joining (<[dv_index d := dv_items d]> A) (<[dv_index d := dv_source d]> S).
Proof.
  intros HA HS. unfold deliver, joining, waiting_set_main.
  cbn [waitingExecution waitingExecutionSource with_waiting].
  rewrite (waiting_set_one_entry _ Hwe), (waiting_set_one_entry _ Hws). unfold waiting_runs. rewrite (jm_get_one_entry _ Hwe), (jm_get_one_entry _ Hws). cbn [default id jm_get].
  rewrite !decide_True by done. cbn [default id]. by rewrite !set_main_only by lia.
Qed.

Lemma joining_found A S : all_data_found (joining A S) node 0 = complete A.
Proof.
  unfold all_data_found, waiting_main, waiting_runs, joining.
  cbn [waitingExecution with_waiting]. by rewrite (jm_get_one_entry _ Hwe).
Qed.

Lemma release_joining A S : release w (joining A S) node 0 = joined A S.
Proof.
  unfold release, joined, joining, enqueue.
  cbn [waitingExecution waitingExecutionSource with_waiting with_stack nodeExecutionStack].
  unfold waiting_runs. rewrite (jm_get_one_entry _ Hwe), (jm_get_one_entry _ Hws). rewrite (waiting_del_one_entry _ Hwe), (waiting_del_one_entry _ Hws).
  cbn. by destruct s0.
Qed.

Lemma write_back_joining A S i x :
  A !! i = Some x →
  write_back w (joining A S) node 0 (connection_data_array (joining A S) node (Some 0) i x) = joining A S.
Proof.
  intros Hx. unfold write_back, connection_data_array, prepareWaitingToExecution, waiting_main, joining,
    waiting_runs.
  repeat (progress cbn || rewrite (jm_set_one_entry_one _ Hwe) || rewrite (jm_set_one_entry_one _ Hws) ||
    rewrite (jm_get_one_entry _ Hwe) || rewrite (jm_get_one_entry _ Hws) || rewrite decide_True by done).
  by rewrite (arr_set_id _ A) by done.
Qed.

(** The rest of a delivery once the entry exists. *)
Definition finish_delivery (s : IRunExecutionData) (wasWaiting : bool) (d : Delivery)
    : result string IRunExecutionData :=
  if all_data_found s node 0 then Ok (release w s node 0)
  else
    s1 ← (if wasWaiting then Ok s else
      outs ← check_output_nodes w (dv_parent d);
      foldM (check_input w (dv_parent d) (Some (dv_data d)) (dv_output d) (dv_run d) outs) s
        (flat_conns (main_inputs w node)));
    Ok (write_back w s1 node 0 (connection_data_array s1 node (Some 0) (dv_index d) (dv_items d))).

Lemma finish_joining A S d wasWaiting s' :
  A !! dv_index d = Some (dv_items d) → finish_delivery (joining A S) wasWaiting d = Ok s' →
  s' = if complete A then joined A S else joining A S.
Proof.
  intros Hx. unfold finish_delivery. rewrite joining_found. destruct (complete A).
  - intros [= <-]. apply release_joining.
  - intros (s1 & H1 & [= <-])%bind_Ok.
    assert (s1 = joining A S) as ->.
    { destruct wasWaiting; [by injection H1|]. apply bind_Ok in H1 as (outs & _ & H1).
      by eapply check_inputs_v1. }
    by apply write_back_joining.
Qed.

Lemma deliver_first d s' :
  dv_index d < length (main_inputs w node) → deliver_to s0 d = Ok s' →
  let n := length (main_inputs w node) in
  let A := <[dv_index d := dv_items d]> (replicate n SNull) in
  let S := <[dv_index d := dv_source d]> (replicate n SNull) in
  s' = if complete A then joined A S else joining A S.
Proof.
  intros Hi. unfold deliver_to, addNodeToBeExecuted. cbn [c_node c_index].
  rewrite (proj2 (Nat.ltb_lt _ _) Hmulti).
  assert (select_waiting_entry w s0 node (dv_index d) =
    (0, joining (replicate (length (main_inputs w node)) SNull)
          (replicate (length (main_inputs w node)) SNull))) as ->.
  { unfold select_waiting_entry. rewrite (waiting_runs_none _ Hwe). cbn.
    unfold prepareWaitingToExecution. by rewrite (waiting_set_new _ Hwe), (waiting_set_new _ Hws). }
  rewrite deliver_joining by (rewrite ?length_replicate; done).
  intros H. eapply (finish_joining _ _ d); [|exact H].
  apply list_lookup_insert_eq. by rewrite length_replicate.
Qed.

Lemma deliver_next A S d s' :
  length A = length S → A !! dv_index d = Some SNull →
  deliver_to (joining A S) d = Ok s' →
  let A' := <[dv_index d := dv_items d]> A in
  let S' := <[dv_index d := dv_source d]> S in
  s' = if complete A' then joined A' S' else joining A' S'.
Proof.
  intros HS Hi. unfold deliver_to, addNodeToBeExecuted. cbn [c_node c_index].
  rewrite (proj2 (Nat.ltb_lt _ _) Hmulti).
  assert (select_waiting_entry w (joining A S) node (dv_index d) = (0, joining A S)) as ->.
  { unfold select_waiting_entry, waiting_runs, joining. cbn [waitingExecution with_waiting].
    rewrite (jm_get_one_entry _ Hwe). cbn [default id].
    assert (find_waiting_entry [(0, only_main A)] (dv_index d) = Some 0) as ->; [|done].
    unfold find_waiting_entry. change (run_indexes [(0, only_main A)]) with [0].
    rewrite filter_cons, decide_True; [done|].
    change (is_val (slot_at A (dv_index d)) = false). unfold slot_at. by rewrite Hi. }
  assert (dv_index d < length A) as HA by (by eapply lookup_lt_Some).
  rewrite deliver_joining by done. intros H. eapply (finish_joining _ _ d); [|exact H].
  by apply list_lookup_insert_eq.
Qed.

(** The arrays once the deliveries [ds] have been written to them. *)
Definition put_data (A : list (slot Items)) (ds : list Delivery) : list (slot Items) :=
  foldl (λ A d, <[dv_index d := dv_items d]> A) A ds.
Definition put_source (S : list (slot ISourceData)) (ds : list Delivery) : list (slot ISourceData) :=
  foldl (λ S d, <[dv_index d := dv_source d]> S) S ds.

Lemma complete_true A : (∀ i x, A !! i = Some x → is_val x = true) → complete A = true.
Proof.
  intros H. apply forallb_forall. intros x Hx%list_elem_of_In.
  apply list_elem_of_lookup in Hx as [i Hi]. specialize (H i x Hi). by destruct x.
Qed.

Lemma complete_false A i : A !! i = Some SNull → complete A = false.
Proof.
  intros Hi. destruct (complete A) eqn:Hc; [|done].
  unfold complete in Hc. rewrite forallb_forall in Hc.
  assert (In SNull A) as Hin by (apply list_elem_of_In; by eapply list_elem_of_lookup_2).
  by specialize (Hc _ Hin).
Qed.

(** The deliveries [ds] are exactly the missing inputs of [A]. *)
Record missing_exactly (A : list (slot Items)) (ds : list Delivery) : Prop := {
  me_nodup : NoDup (dv_index <$> ds);
  me_null : ∀ d, d ∈ ds → A !! dv_index d = Some SNull;
  me_other : ∀ i x, A !! i = Some x → i ∉ dv_index <$> ds → is_val x = true;
  me_val : ∀ d, d ∈ ds → is_val (dv_items d) = true;
}.

Lemma missing_step A d ds : missing_exactly A (d :: ds) → missing_exactly (<[dv_index d := dv_items d]> A) ds.
Proof.
  intros [Hnd Hnull Hoth Hval]. rewrite fmap_cons in Hnd. apply NoDup_cons in Hnd as [Hn Hnd].
  split; [done| | |intros; apply Hval; by right].
  - intros d' Hd'. rewrite list_lookup_insert_ne; [apply Hnull; by right|].
    intros Heq. apply Hn. rewrite Heq. by apply list_elem_of_fmap_2.
  - intros i x Hi Hni. destruct (decide (i = dv_index d)) as [->|Hne].
    + rewrite list_lookup_insert_eq in Hi by (eapply lookup_lt_Some, Hnull; by left).
      injection Hi as <-. apply Hval; by left.
    + rewrite list_lookup_insert_ne in Hi by done. apply (Hoth i x Hi). rewrite fmap_cons. set_solver.
Qed.

Lemma missing_complete A d ds :
  missing_exactly A (d :: ds) →
  complete (<[dv_index d := dv_items d]> A) = bool_decide (ds = []).
Proof.
  intros HM. pose proof (missing_step A d ds HM) as [_ Hnull Hoth _]. destruct ds as [|d' ds].
  - rewrite bool_decide_true by done. apply complete_true. intros i x Hi. apply (Hoth i x Hi).
    apply not_elem_of_nil.
  - rewrite bool_decide_false by done. eapply complete_false. apply Hnull. by left.
Qed.

Lemma deliver_rest ds A S s' :
  ds ≠ [] → length A = length S → missing_exactly A ds →
  foldM deliver_to (joining A S) ds = Ok s' → s' = joined (put_data A ds) (put_source S ds).
Proof.
  revert A S; induction ds as [|d ds IH]; intros A S Hne HS HM; [done|]. cbn [foldM].
  intros (s1 & H1 & H2)%bind_Ok. apply deliver_next in H1; [|done|apply HM; by left].
  cbv zeta in H1. rewrite (missing_complete A d ds HM) in H1. destruct ds as [|d' ds].
  - rewrite bool_decide_true in H1 by done. cbn in H2. injection H2 as <-. exact H1.
  - rewrite bool_decide_false in H1 by done. subst s1. apply IH in H2; [exact H2|done| |by apply missing_step].
    by rewrite !length_insert.
Qed.

Lemma deliver_all ds s' :
  dv_index <$> ds ≡ₚ seq 0 (length (main_inputs w node)) →
  (∀ d, d ∈ ds → is_val (dv_items d) = true) →
  foldM deliver_to s0 ds = Ok s' →
  s' = joined (put_data (replicate (length (main_inputs w node)) SNull) ds)
         (put_source (replicate (length (main_inputs w node)) SNull) ds).
Proof.
  intros Hp Hval.
  assert (missing_exactly (replicate (length (main_inputs w node)) SNull) ds) as HM.
  { split; [rewrite Hp; apply NoDup_seq| | |done].
    - intros d Hd. apply lookup_replicate_2.
      assert (dv_index d ∈ seq 0 (length (main_inputs w node))) as Hs
        by (rewrite <- Hp; by apply list_elem_of_fmap_2). apply elem_of_seq in Hs. lia.
    - intros i x Hi Hni. exfalso. apply Hni. rewrite Hp. apply elem_of_seq.
      apply lookup_lt_Some in Hi. rewrite length_replicate in Hi. lia. }
  destruct ds as [|d ds].
  { apply Permutation_nil_l in Hp. destruct (main_inputs w node); [simpl in Hmulti; lia|done]. }
  cbn [foldM]. intros (s1 & H1 & H2)%bind_Ok. apply deliver_first in H1.
  2:{ pose proof (me_null _ _ HM d ltac:(by left)) as Hl. apply lookup_lt_Some in Hl.
      by rewrite length_replicate in Hl. }
  cbv zeta in H1. rewrite (missing_complete _ d ds HM) in H1. destruct ds as [|d' ds].
  - rewrite bool_decide_true in H1 by done. cbn in H2. injection H2 as <-. exact H1.
  - rewrite bool_decide_false in H1 by done. subst s1. apply deliver_rest in H2; [exact H2|done| |by apply missing_step].
    by rewrite !length_insert, !length_replicate.
Qed.
End Join.

Lemma put_lookup {A} (f : Delivery → A) ds (l : list A) d :
  NoDup (dv_index <$> ds) → d ∈ ds → dv_index d < length l →
  foldl (λ l d, <[dv_index d := f d]> l) l ds !! dv_index d = Some (f d).
Proof.
  revert l; induction ds as [|e ds IH]; intros l Hnd Hin Hl; [by apply not_elem_of_nil in Hin|].
  rewrite fmap_cons in Hnd. apply NoDup_cons in Hnd as [Hn Hnd]. cbn [foldl].
  apply elem_of_cons in Hin as [->|Hd]; [|apply IH; [done|done|by rewrite length_insert]].
  assert (∀ l, dv_index e < length l → l !! dv_index e = Some (f e) →
    foldl (λ l d, <[dv_index d := f d]> l) l ds !! dv_index e = Some (f e)) as H.
  { clear -Hn. induction ds as [|d ds IH]; intros l Hl He; [done|]. cbn [foldl]. rewrite fmap_cons in Hn.
    apply IH; [set_solver|by rewrite length_insert|]. rewrite list_lookup_insert_ne by set_solver. done. }
  apply H; [by rewrite length_insert|]. by apply list_lookup_insert_eq.
Qed.

Lemma put_length {A} (f : Delivery → A) ds (l : list A) :
  length (foldl (λ l d, <[dv_index d := f d]> l) l ds) = length l.
Proof.
  revert l; induction ds as [|e ds IH]; intros l; [done|]. cbn [foldl]. by rewrite IH, length_insert.
Qed.

(** The arrays only depend on which deliveries were made. *)
Lemma put_order {A} (f : Delivery → A) ds ds' n x :
  dv_index <$> ds ≡ₚ seq 0 n → ds' ≡ₚ ds →
  foldl (λ l d, <[dv_index d := f d]> l) (replicate n x) ds =
  foldl (λ l d, <[dv_index d := f d]> l) (replicate n x) ds'.
Proof.
  intros Hp Hds. assert (NoDup (dv_index <$> ds)) as Hnd by (rewrite Hp; apply NoDup_seq).
  assert (NoDup (dv_index <$> ds')) as Hnd' by (by rewrite Hds).
  apply list_eq. intros i. destruct (decide (i < n)) as [Hi|Hi].
  - assert (i ∈ dv_index <$> ds) as Hin by (rewrite Hp; apply elem_of_seq; lia).
    apply list_elem_of_fmap in Hin as (d & -> & Hd).
    rewrite !put_lookup; rewrite ?length_replicate; try done. by rewrite Hds.
  - rewrite !lookup_ge_None_2; [done|..]; rewrite put_length, length_replicate; lia.
Qed.

(** C1: in the v1 order, when every input of a node with several inputs receives its data once, the
    node goes on the stack exactly once, with each input's data and source at its index and nothing
    left waiting, and the order in which the inputs arrive makes no difference. *)
Theorem join_inputs w node type s0 ds ds' s s' :
  is_v1 w = true → 1 < length (main_inputs w node) →
  jm_get (waitingExecution s0) node = None → jm_get (waitingExecutionSource s0) node = None →
  dv_index <$> ds ≡ₚ seq 0 (length (main_inputs w node)) →
  (∀ d, d ∈ ds → is_val (dv_items d) = true) → ds' ≡ₚ ds →
  foldM (deliver_to w node type) s0 ds = Ok s → foldM (deliver_to w node type) s0 ds' = Ok s' →
  s' = s ∧ ∃ V S,
    s = enqueue w s0 (mkExecute (jm_get (w_nodes w) node) (only_main V) (Some (only_main S)) None None) ∧
    length V = length (main_inputs w node) ∧
    ∀ d, d ∈ ds → V !! dv_index d = Some (dv_items d) ∧ S !! dv_index d = Some (dv_source d).
Proof.
  intros Hv Hm Hwe Hws Hp Hval Hds H1 H2.
  apply deliver_all in H1; [|done..]. apply deliver_all in H2; [|done..| |].
  2:{ by rewrite Hds. } 2:{ intros d Hd. apply Hval. by rewrite <- Hds. }
  subst s s'. split.
  - unfold put_data, put_source. by rewrite <- !(put_order _ ds ds') by done.
  - eexists _, _. split; [reflexivity|]. unfold put_data, put_source. rewrite put_length, length_replicate.
    split; [done|]. intros d Hd. assert (NoDup (dv_index <$> ds)) by (rewrite Hp; apply NoDup_seq).
    assert (dv_index d < length (main_inputs w node)).
    { assert (dv_index d ∈ seq 0 (length (main_inputs w node))) as Hs
        by (rewrite <- Hp; by apply list_elem_of_fmap_2). apply elem_of_seq in Hs. lia. }
    rewrite !put_lookup; rewrite ?length_replicate; done.
Qed.

(** * The order of the children *)

(** [a] is not to be executed after [b]: it is higher, or as high and not further right. *)
Definition top_left_le (a b : NodeToAdd) : Prop :=
  ((na_position a).2 < (na_position b).2)%Z ∨
  ((na_position a).2 = (na_position b).2 ∧ (na_position a).1 <= (na_position b).1)%Z.

Lemma position_cmp_le a b : cmp_le position_cmp a b ↔ top_left_le b a.
Proof.
  unfold cmp_le, position_cmp, top_left_le.
  destruct (na_position a) as [ax ay], (na_position b) as [bx by_]. cbn.
  destruct (Z.ltb_spec by_ ay); [split; [by left|lia]|].
  destruct (Z.gtb_spec by_ ay); [split; lia|].
  destruct (Z.gtb_spec bx ax); lia.
Qed.

Lemma StronglySorted_rev {A} (R : relation A) l :
  StronglySorted R l → StronglySorted (flip R) (reverse l).
Proof.
  induction 1 as [|x l Hs IH Hx]; [constructor|]. rewrite reverse_cons.
  apply StronglySorted_app_2; [|done|repeat constructor].
  intros y z Hy ->%list_elem_of_singleton. rewrite elem_of_reverse in Hy. apply list_elem_of_lookup in Hy as [i Hi].
  exact (Forall_lookup_1 _ _ _ _ Hx Hi).
Qed.

Section ChildOrder.
Context (w : Workflow) (nodeName : string) (nsd : list (slot Items)) (runIndex : nat).
Context (Hv1 : is_v1 w = true).

(** The stack entry of a child with at most one main input. *)
Definition child_entry (n : NodeToAdd) : IExecuteData :=
  mkExecute (getNode w (c_node (na_connection n)))
    (only_main (arr_set SUndef (replicate (S (c_index (na_connection n))) SNull)
       (c_index (na_connection n)) (slot_at nsd (na_outputIndex n))))
    (Some (only_main [SVal (source_of nodeName (na_outputIndex n) runIndex)])) None None.

Definition simple_child (c : IConnection) : Prop :=
  length (main_inputs w (c_node c)) ≤ 1 ∧ c_node c ∈ jm_keys (w_nodes w).

(** The children that receive data, with their positions. *)
Definition delivered_children (conns : list (nat * IConnection)) : list NodeToAdd :=
  (λ e, mkNodeToAdd (default (0, 0)%Z (n_position <$> getNode w (c_node e.2))) e.2 e.1) <$>
    filter (λ e, output_delivers w nsd e.1 e.2 = true) conns.

Lemma collect_children conns acc s :
  (∀ e, e ∈ conns → simple_child e.2) →
  foldM (visit_child w nodeName nsd runIndex) (acc, s) conns = Ok (acc ++ delivered_children conns, s).
Proof.
  revert acc; induction conns as [|[i c] conns IH]; intros acc Hs.
  { cbn. unfold delivered_children. by rewrite app_nil_r. }
  destruct (Hs (i, c) ltac:(by left)) as [_ Hk]. cbn [snd] in Hk. apply jm_has_spec in Hk.
  set (n := mkNodeToAdd (default (0, 0)%Z (n_position <$> getNode w (c_node c))) c i).
  assert (visit_child w nodeName nsd runIndex (acc, s) (i, c) =
    Ok (if output_delivers w nsd i c then acc ++ [n] else acc, s)) as Hv.
  { unfold visit_child. rewrite Hk. cbn [negb]. rewrite Hv1. by destruct (output_delivers w nsd i c). }
  cbn [foldM]. rewrite Hv. cbn [mbind result_bind]. rewrite IH by (intros; apply Hs; by right).
  unfold delivered_children. rewrite filter_cons. cbn [fst snd].
  destruct (output_delivers w nsd i c).
  - rewrite decide_True by done. rewrite fmap_cons, <- app_assoc. done.
  - by rewrite decide_False by done.
Qed.

Lemma add_simple_child s n :
  simple_child (na_connection n) →
  add_child w nodeName nsd runIndex s (na_connection n) (na_outputIndex n) =
    Ok (with_stack s (child_entry n :: nodeExecutionStack s)).
Proof.
  intros [Hl Hk]. unfold add_child, addNodeToBeExecuted.
  rewrite (proj2 (Nat.ltb_ge _ _) Hl). f_equal. unfold add_directly, connection_data_array, child_entry.
  apply jm_has_spec in Hk. unfold jm_has in Hk. unfold getNode.
  destruct (jm_get (w_nodes w) (c_node (na_connection n))) as [node|] eqn:Hn; [|done].
  unfold enqueue. rewrite Hv1. done.
Qed.

Lemma add_simple_children s l :
  (∀ n, n ∈ l → simple_child (na_connection n)) →
  foldM (λ s n, add_child w nodeName nsd runIndex s (na_connection n) (na_outputIndex n)) s l =
    Ok (with_stack s ((child_entry <$> reverse l) ++ nodeExecutionStack s)).
Proof.
  revert s; induction l as [|n l IH]; intros s Hs; [by destruct s|].
  cbn [foldM]. rewrite add_simple_child by (apply Hs; by left). cbn [mbind result_bind].
  rewrite IH by (intros; apply Hs; by right). rewrite reverse_cons, fmap_app, <- app_assoc. done.
Qed.
End ChildOrder.

(** In the v1 order, when the children have one main input each, exactly the children whose output
    delivers items go on top of the stack, in the order of their positions: higher before lower, and
    left before right at the same height. *)
Theorem children_top_left_first w name nsd r s slots :
  is_v1 w = true → main_conns (connectionsBySourceNode w) name = Some slots →
  (∀ e, e ∈ indexed_conns slots → simple_child w e.2) →
  ∃ children, StronglySorted top_left_le children ∧
    children ≡ₚ delivered_children w nsd (indexed_conns slots) ∧
    enqueue_children w name nsd r s =
      Ok (with_stack s ((child_entry w name nsd r <$> children) ++ nodeExecutionStack s)).
Proof.
  intros Hv Hs Hsimple. unfold enqueue_children. rewrite Hs.
  rewrite (collect_children w name nsd r Hv) by done. cbn [mbind result_bind app]. rewrite Hv.
  set (l := delivered_children w nsd (indexed_conns slots)).
  exists (reverse (js_sort position_cmp l)). split_and!.
  - assert (StronglySorted (cmp_le position_cmp) (js_sort position_cmp l)) as Hsort.
    { apply js_sort_sorted.
      - intros x y. unfold position_cmp. destruct (na_position x), (na_position y).
        repeat match goal with
        | |- context [(?a <? ?b)%Z] => destruct (Z.ltb_spec a b)
        | |- context [(?a >? ?b)%Z] => destruct (Z.gtb_spec a b)
        end; lia.
      - intros x y z. rewrite !position_cmp_le. unfold top_left_le. lia. }
    apply StronglySorted_rev in Hsort. revert Hsort. generalize (reverse (js_sort position_cmp l)).
    induction 1 as [|x k _ IH Hx]; constructor; [done|].
    eapply Forall_impl; [exact Hx|]. intros y Hy. by apply position_cmp_le.
  - rewrite reverse_Permutation. apply js_sort_perm.
  - apply (add_simple_children w name nsd r Hv). intros n Hn. apply js_sort_elem in Hn.
    unfold l, delivered_children in Hn. apply list_elem_of_fmap in Hn as (e & -> & He).
    apply list_elem_of_filter in He as [_ He]. by apply Hsimple.
Qed.

(** * Waiting entries: what can go wrong *)

(** Two nodes feed the two inputs of [m], in the v1 order. *)
Definition merge_workflow : Workflow :=
  make_workflow
    [plain_node "a" "set"; plain_node "b" "set"; plain_node "m" "merge"]
    [("a", [(Main, [Some [mkConn "m" Main 0]])]); ("b", [(Main, [Some [mkConn "m" Main 1]])])]
    None (Some "v1").

Definition from_a (run : nat) (x : Items) : Delivery := mkDelivery 0 "a" 0 run [SVal x].
Definition from_b (run : nat) (x : Items) : Delivery := mkDelivery 1 "b" 0 run [SVal x].

Definition empty_run : IRunExecutionData := new_run [] None None None.

(** The inputs of the stack entries, the waiting map. *)
Definition stack_inputs (s : IRunExecutionData) : list (list (slot Items)) :=
  (λ d, main_of (x_data d)) <$> nodeExecutionStack s.

(** A new waiting entry takes the number of entries as its index, which may be the index of an entry
    that is still waiting: of three runs of [a] the second is overwritten by the third, and is never
    executed although [b] delivers as many runs as are started. *)
Theorem waiting_entry_overwritten x1 x2 x3 y1 y2 :
  ∃ s, foldM (deliver_to merge_workflow "m" Main) empty_run
         [from_a 0 x1; from_a 1 x2; from_b 0 y1; from_a 2 x3; from_b 1 y2] = Ok s ∧
    stack_inputs s = [[SVal x3; SVal y2]; [SVal x1; SVal y1]] ∧ waitingExecution s = [].
Proof. eexists. split; [vm_compute; reflexivity|]. by split. Qed.

(** A node type with one required input. *)
Definition merge_type (inputs : IoSpec) : INodeType :=
  mkNodeType (mkDescription "merge" ["transform"] inputs (IoList [IoName Main]) (Some (ReqCount 1)) false)
    true false false false false.

Definition merge_types (inputs : IoSpec) (_ : string) (_ : Q) : option INodeType := Some (merge_type inputs).
Definition two_inputs : IoSpec := IoList [IoName Main; IoName Main].

(** Runs 2 and 10 of [m] wait for their second input. *)
Definition two_waiting (x2 x10 : Items) : IRunExecutionData :=
  with_waiting empty_run
    [("m", [(2, only_main [SVal x2; SNull]); (10, only_main [SVal x10; SNull])])]
    [("m", [(2, only_main [SVal (source_of "a" 0 2); SNull]);
            (10, only_main [SVal (source_of "a" 0 10); SNull])])].

(** The run taken first is the least in the order of strings: with runs 2 and 10 waiting, run 10 is
    executed, although the earliest outstanding run is 2. *)
Theorem released_run_not_earliest x2 i10 x10 :
  ∃ s, release_waiting (merge_types two_inputs) (λ _ _, None) merge_workflow
         (two_waiting x2 (i10 :: x10)) = Some (Ok s) ∧
    stack_inputs s = [[SVal (i10 :: x10); SVal []]] ∧
    run_indexes (waiting_runs (waitingExecution s) "m") = [2].
Proof. eexists. split; [vm_compute; reflexivity|]. by split. Qed.

(** With inputs given by an expression, as many inputs are added as the expression has characters. *)
Lemma released_inputs_padded e l d :
  d_inputs d = IoExpr e → length (pad_inputs d l) = max (length l) (String.length e).
Proof. intros Hd. unfold pad_inputs, inputs_length. rewrite Hd, length_app, length_replicate. lia. Qed.

(** * Instances *)

Lemma waiting_inv_empty : waiting_inv empty_run.
Proof. split; [by intros node runs|by intros node runs|]. by intros node idx. Defined.

Definition one_item : Items := [empty_item].

Lemma join_inputs_witness :
  ∃ s s', s' = s ∧ ∃ V S,
    s = enqueue merge_workflow empty_run
      (mkExecute (jm_get (w_nodes merge_workflow) "m") (only_main V) (Some (only_main S)) None None) ∧
    length V = length (main_inputs merge_workflow "m") ∧
    ∀ d, d ∈ [from_a 0 one_item; from_b 0 []] → V !! dv_index d = Some (dv_items d) ∧ S !! dv_index d = Some (dv_source d).
Proof.
  eexists _, _. apply (join_inputs merge_workflow "m" Main empty_run [from_a 0 one_item; from_b 0 []]
    [from_b 0 []; from_a 0 one_item]).
  - reflexivity.
  - by_decide.
  - reflexivity.
  - reflexivity.
  - reflexivity.
  - by intros d [->|[->|?%not_elem_of_nil]%elem_of_cons]%elem_of_cons.
  - apply perm_swap.
  - vm_compute; reflexivity.
  - vm_compute; reflexivity.
Defined.

Lemma release_waiting_spec_witness :
  ∃ r, release_waiting (merge_types two_inputs) (λ _ _, None) merge_workflow empty_run = Some r ∧
    ∀ s', r = Ok s' → waiting_inv s' ∧
    (nodeExecutionStack s' = nodeExecutionStack empty_run ∨
     ∃ item s1, nodeExecutionStack empty_run = [] ∧ nodeExecutionStack s' = [item] ∧
       released_item merge_workflow s1 item ∧
       runs_total (waitingExecution s') < runs_total (waitingExecution empty_run)).
Proof. apply (release_waiting_spec (merge_types two_inputs) (λ _ _, None) merge_workflow empty_run), waiting_inv_empty. Defined.

Lemma scheduling_keeps_waiting_inv_witness :
  (∀ c o p nsd r nr meta s', addNodeToBeExecuted merge_workflow empty_run c o p nsd r nr meta = Ok s' → waiting_inv s') ∧
  (∀ name nsd r s', enqueue_children merge_workflow name nsd r empty_run = Ok s' → waiting_inv s').
Proof. apply (scheduling_keeps_waiting_inv merge_workflow empty_run), waiting_inv_empty. Defined.

Lemma children_top_left_first_witness :
  ∃ children, StronglySorted top_left_le children ∧
    children ≡ₚ delivered_children chain_workflow [SVal one_item] [(0, mkConn "b" Main 0)] ∧
    enqueue_children chain_workflow "a" [SVal one_item] 0 empty_run =
      Ok (with_stack empty_run ((child_entry chain_workflow "a" [SVal one_item] 0 <$> children) ++ [])).
Proof.
  apply (children_top_left_first chain_workflow "a" [SVal one_item] 0 empty_run [Some [mkConn "b" Main 0]]).
  - reflexivity.
  - reflexivity.
  - intros e [->|?%not_elem_of_nil]%elem_of_cons; [|done]. split; by_decide.
Defined.
