(* ===== verification/NodeRun.v ===== *)
(** NodeRun: running one node
    (packages/core/src/execution-engine/workflow-execute.ts and
    node-execution-context/utils/resolve-source-overwrite.ts).

    [runNode] chooses how a node is executed; the input items get their paired
    items before and the output items after; items with errors are moved to the
    error output; [try_loop] is the retry loop.  What a node type does when it is
    called is a parameter over a world [W], as is the evaluation of expressions. *)

From stdpp Require Import prelude list strings.
From Stdlib Require Import ZArith QArith Lia.
From S2P Require Import Prelude Types Traversal WorkflowClass ExecutionTypes ExecutionStack.
Local Open Scope nat_scope.

(** [{ ...a, ...b }] on plain objects. *)
Definition spread (a b : list (string * json)) : list (string * json) :=
  foldl (λ m '(k, v), jm_set m k v) a b.

Definition type_error (msg : string) : ExecutionError := mkError "TypeError" msg.

(** A [TypeError] as a thrown error. *)
Definition throwing {A} (r : result string A) : result ExecutionError A :=
  match r with Ok a => Ok a | Err m => Err (type_error m) end.

(** * Inputs *)

(** ** resolve-source-overwrite.ts *)

Definition resolveSourceOverwrite (item : INodeExecutionData) (executionData : IExecuteData)
    : option ISourceData :=
  match x_metadata executionData with
  | None => None
  | Some m =>
    if bool_decide (m_preserveSourceOverwrite m = Some true) then
      match m_preservedSourceOverwrite m with
      | Some src => Some src
      | None => match i_pairedItem item with Some (POne d) => pi_sourceOverwrite d | _ => None end
      end
    else None
  end.

(** Lines 1639-1666: the paired item of one input item. *)
Definition pair_item (executionData : IExecuteData) (inputIndex itemIndex : nat)
    (item : INodeExecutionData) : INodeExecutionData :=
  item_set_paired item
    (POne (mkPaired itemIndex (if inputIndex =? 0 then None else Some inputIndex)
             (resolveSourceOverwrite item executionData))).

Definition pair_input (executionData : IExecuteData) (inputIndex : nat) (input : slot Items) : slot Items :=
  match input with
  | SVal items => SVal (imap (pair_item executionData inputIndex) items)
  | _ => input
  end.

(** Lines 1630-1670. *)
Definition pair_inputs (executionData : IExecuteData) : IExecuteData :=
  mkExecute (x_node executionData) (jm_map (imap (pair_input executionData)) (x_data executionData))
    (x_source executionData) (x_runIndex executionData) (x_metadata executionData).

(** ** Disabled nodes, the data of the first input, executeOnce *)

Definition handleDisabledNode (inputData : ITaskDataConnections) : NodeSuccessData :=
  match jm_get inputData Main with
  | Some (SNull :: _) | Some [] | None => None
  | Some (first :: _) => Some [first]
  end.

(** The first input that has items. *)
Definition first_nonempty (main : list (slot Items)) : option Items :=
  head (omap (λ d, match d with SVal (x :: l) => Some (x :: l) | _ => None end) main).

Definition prepareConnectionInputData (w : Workflow) (nodeType : INodeType) (customOperation : bool)
    (inputData : ITaskDataConnections) : option Items :=
  if t_execute nodeType || customOperation ||
     (negb (t_poll nodeType) && negb (t_trigger nodeType) && negb (t_webhook nodeType))
  then
    match main_of inputData with
    | [] => None
    | first :: _ as main =>
      let own := match first with SVal l => Some l | _ => None end in
      let connectionInputData := if is_v1 w then or_else (first_nonempty main) own else own in
      match connectionInputData with
      | None | Some [] => None
      | Some l => Some l
      end
    end
  else Some [].

Definition handleExecuteOnce (node : INode) (inputData : ITaskDataConnections) : ITaskDataConnections :=
  if bool_decide (n_executeOnce node = Some true)
  then jm_map (fmap (λ input, match input with SVal l => SVal (take 1 l) | _ => input end)) inputData
  else inputData.

Definition rethrowLastNodeError (s : IRunExecutionData) (node : INode) : result ExecutionError unit :=
  if bool_decide (lastNodeExecuted s = Some (n_name node)) then
    match resultError s with
    | None => Ok ()
    | Some e =>
      if bool_decide (e_name e = "NodeOperationError" ∨ e_name e = "NodeApiError") then Err e
      else Err (mkError "Error" (e_message e))
    end
  else Ok ().

(** * Outputs *)

(** ** assignPairedItems *)

Definition slot_length (d : slot Items) : option nat :=
  match d with SVal l => Some (length l) | _ => None end.

Inductive PairRule := PairFirst | PairSame | PairNone.

(** How missing paired items can be completed.  With one output and one input the lengths are
    compared before the rule is chosen, which throws for a [null] output. *)
Definition pair_rule (nodeSuccessData : list (slot Items)) (main : list (slot Items))
    : result string PairRule :=
  let firstLength := slot_length (slot_at main 0) in
  let isSingleInputAndOutput := (length main =? 1) && bool_decide (firstLength = Some 1) in
  '(isSameNumberOfItems, isSingleOutput) ←
    (if (length nodeSuccessData =? 1) && (length main =? 1) then
       match slot_at nodeSuccessData 0 with
       | SVal out => Ok (bool_decide (firstLength = Some (length out)),
                         (length out =? 1) && (1 <? default 0 firstLength))
       | _ => Err "TypeError: length of null"
       end
     else Ok (false, false));
  Ok (if isSingleInputAndOutput then PairFirst
      else if (isSameNumberOfItems : bool) then PairSame
      else if (isSingleOutput : bool) then PairFirst else PairNone).

(** The items of one output: the new items, and whether the loop was left. *)
Fixpoint assign_items (rule : PairRule) (index : nat) (items : Items) : Items * bool :=
  match items with
  | [] => ([], false)
  | item :: rest =>
    match i_pairedItem item, rule with
    | None, PairNone => (items, true)
    | None, PairFirst =>
        let '(rest, broke) := assign_items rule (S index) rest in
        (item_set_paired item (POne (mkPaired 0 None None)) :: rest, broke)
    | None, PairSame =>
        let '(rest, broke) := assign_items rule (S index) rest in
        (item_set_paired item (POne (mkPaired index None None)) :: rest, broke)
    | Some _, _ =>
        let '(rest, broke) := assign_items rule (S index) rest in (item :: rest, broke)
    end
  end.

Fixpoint assign_outputs (rule : PairRule) (outputs : list (slot Items)) : result string (list (slot Items)) :=
  match outputs with
  | [] => Ok []
  | SNull :: rest => rest ← assign_outputs rule rest; Ok (SNull :: rest)
  | SUndef :: _ => Err "TypeError: entries of undefined"
  | SVal items :: rest =>
    let '(items, broke) := assign_items rule 0 items in
    if broke then Ok (SVal items :: rest)
    else rest ← assign_outputs rule rest; Ok (SVal items :: rest)
  end.

Definition assignPairedItems (nodeSuccessData : NodeSuccessData) (executionData : IExecuteData)
    : result string NodeSuccessData :=
  match nodeSuccessData with
  | None => Ok None
  | Some [] => Ok (Some [])
  | Some outputs =>
    main ← of_option "TypeError: length of undefined" (jm_get (x_data executionData) Main);
    rule ← pair_rule outputs main;
    outputs ← assign_outputs rule outputs;
    Ok (Some outputs)
  end.

(** ** alwaysOutputData (lines 1858-1883) *)

Definition first_item (nodeSuccessData : NodeSuccessData) : option INodeExecutionData :=
  l ← nodeSuccessData;
  match slot_at l 0 with SVal (x :: _) => Some x | _ => None end.

(** A reference to every input item. *)
Definition all_paired (main : list (slot Items)) : list IPairedItemData :=
  '(inputIndex, input) ← entries main;
  match input with
  | SVal items => imap (λ itemIndex _, mkPaired itemIndex (Some inputIndex) None) items
  | _ => []
  end.

Definition always_output (executionData : IExecuteData) (node : INode) (nodeSuccessData : NodeSuccessData)
    : result string NodeSuccessData :=
  match first_item nodeSuccessData with
  | Some _ => Ok nodeSuccessData
  | None =>
    if bool_decide (n_alwaysOutputData node = Some true) then
      main ← of_option "TypeError: forEach of undefined" (jm_get (x_data executionData) Main);
      Ok (Some (arr_set SUndef (default [] nodeSuccessData) 0
                  (SVal [mkItem [] (Some (PMany (all_paired main))) None])))
    else Ok nodeSuccessData
  end.

(** ** handleNodeErrorOutput *)

(** [item.error], or the error of a json that holds nothing else but a message. *)
Definition has_error (item : INodeExecutionData) : bool :=
  match i_error item with
  | Some _ => true
  | None =>
    let field k := match jm_get (i_json item) k with Some v => truthy v | None => false end in
    (field "error" && (length (i_json item) =? 1)) ||
    (field "error" && field "message" && (length (i_json item) =? 2))
  end.

(** [pairedItem], or the first of several. *)
Definition paired_item_data (item : INodeExecutionData) : option IPairedItemData :=
  match i_pairedItem item with
  | Some (POne d) => Some d
  | Some (PMany l) => head l
  | _ => None
  end.

Section ErrorOutput.
(** [dataProxy.$getPairedItem]: the input item an output item comes from. *)
Context (getPairedItem : string → ISourceData → IPairedItemData →
  result ExecutionError (option INodeExecutionData)).
Context (executionData : IExecuteData).

Definition error_item (item : INodeExecutionData) : result ExecutionError INodeExecutionData :=
  match x_source executionData, paired_item_data item with
  | Some source, Some pairedItemData =>
    sourceData ←
      match slot_at (main_of source) (default 0 (pi_input pairedItemData)) with
      | SVal s => Ok s
      | _ => Err (type_error "previousNode of undefined")
      end;
    constPairedItem ← getPairedItem (previousNode sourceData) sourceData pairedItemData;
    match constPairedItem with
    | None => Ok item
    | Some c => Ok (mkItem (spread (i_json c) (i_json item)) (i_pairedItem item) (i_error item))
    end
  | _, _ => Ok item
  end.

(** The items of one output: those without and those with an error. *)
Fixpoint split_items (successItems errorItems items : Items) : result ExecutionError (Items * Items) :=
  match items with
  | [] => Ok (successItems, errorItems)
  | item :: rest =>
    if has_error item
    then e ← error_item item; split_items successItems (errorItems ++ [e]) rest
    else split_items (successItems ++ [item]) errorItems rest
  end.

Definition split_output (st : list (slot Items) * Items) (outputIndex : nat)
    : result ExecutionError (list (slot Items) * Items) :=
  let '(nodeSuccessData, errorItems) := st in
  let items := match slot_at nodeSuccessData outputIndex with SVal l => l | _ => [] end in
  '(successItems, errorItems) ← split_items [] errorItems items;
  Ok (arr_set SUndef nodeSuccessData outputIndex (SVal successItems), errorItems).

(** [mainOutputs] is the number of main outputs, the last of which is the error output. *)
Definition handleNodeErrorOutput (mainOutputs : nat) (nodeSuccessData : list (slot Items))
    : result ExecutionError (list (slot Items)) :=
  '(nodeSuccessData, errorItems) ← foldM split_output (nodeSuccessData, []) (seq 0 (mainOutputs - 1));
  Ok (match mainOutputs with
      | 0 => nodeSuccessData
      | S last => arr_set SUndef nodeSuccessData last (SVal errorItems)
      end).
End ErrorOutput.

(** ** Errors in items (lines 2067-2082) *)

(** [v.message], a [TypeError] on [null]. *)
Definition json_message (v : json) : result string json :=
  match v with
  | JNull => Err "TypeError: message of null"
  | JObj o => Ok (default JNull (jm_get o "message"))
  | _ => Ok JNull
  end.

Definition json_error (v : json) : ExecutionError :=
  let str k := match v with
               | JObj o => match jm_get o k with Some (JStr s) => s | _ => "" end
               | _ => ""
               end in
  mkError (str "name") (str "message").

Definition merge_item_error (item : INodeExecutionData) : result string INodeExecutionData :=
  match jm_get (i_json item) "$error", jm_get (i_json item) "$json" with
  | Some e, Some _ =>
    message ← json_message e;
    Ok (mkItem [("error", message)] (i_pairedItem item) (Some (json_error e)))
  | _, _ =>
    match i_error item with
    | Some e => Ok (mkItem [("error", JStr (e_message e))] (i_pairedItem item) (i_error item))
    | None => Ok item
    end
  end.

Definition merge_output_errors (output : slot Items) : result string (slot Items) :=
  match output with
  | SVal items => items ← foldM (λ acc it, it ← merge_item_error it; Ok (acc ++ [it])) [] items; Ok (SVal items)
  | _ => Err "TypeError: output is not iterable"
  end.

Definition merge_errors (nodeSuccessData : NodeSuccessData) : result string (list (slot Items)) :=
  match nodeSuccessData with
  | None => Err "TypeError: null is not iterable"
  | Some outputs => foldM (λ acc o, o ← merge_output_errors o; Ok (acc ++ [o])) [] outputs
  end.

(** * runNode *)

(** What a node returns: data, or a request to run other nodes first. *)
Inductive RunNodeResult :=
| RData (data : NodeSuccessData)
| RRequest (request : EngineRequest).

(** How a close function of the node settled. *)
Inductive CloseResult := CloseOk | CloseFailed (e : ExecutionError) | CloseOther.

(** What calling a node does: its result, its close functions, and the time it asks to wait until. *)
Record NodeCall := mkCall {
  nc_result : result ExecutionError RunNodeResult;
  nc_close : list CloseResult;
  nc_waitTill : option Z;
}.

Record EngineResult := mkResult { er_action : EngineAction; er_data : ITaskData }.
Record EngineResponse := mkResponse { actionResponses : list EngineResult; rs_metadata : json }.

Definition makeEngineResponse : EngineResponse := mkResponse [] (JObj []).

(** The error of the first close function that failed. *)
Definition closing_error (closes : list CloseResult) : option ExecutionError :=
  head (omap (λ c, match c with
    | CloseOk => None
    | CloseFailed e => Some e
    | CloseOther => Some (mkError "ApplicationError" "Error on execution node's close function(s)")
    end) closes).

Section RunNode.
Context {W : Type}.
Context (getByNameAndVersion : string → Q → option INodeType).
(** The operations a node type overrides, by resource. *)
Context (customOperations : INodeType → jmap string (list string)).
(** Calling the node: its [execute] method or custom operation, its [poll], its trigger. *)
Context (callExecute : W → INode → IExecuteData → Items → ITaskDataConnections → nat →
  option EngineResponse → NodeCall * W).
Context (callPoll : W → INode → NodeCall * W).
Context (callTrigger : W → INode → option NodeCall * W).
Context (callDeclarative : W → INode → IExecuteData → Items → ITaskDataConnections → nat → NodeCall * W).
(** The evaluated [customTelemetryTags] of a node. *)
Context (telemetry : INode → IExecuteData → Items → option (list (string * json))).
(** [mode === 'manual'] *)
Context (manual : bool).
Context (w : Workflow).

Definition getCustomOperation (node : INode) (type : INodeType) : bool :=
  match jm_get (n_parameters node) "resource", jm_get (n_parameters node) "operation" with
  | Some (JStr resource), Some (JStr operation) =>
      bool_decide (operation ∈ default [] (jm_get (customOperations type) resource))
  | _, _ => false
  end.

(** The close functions run whatever the outcome; their errors count only after a success. *)
Definition executeNode (c : NodeCall) : result ExecutionError RunNodeResult :=
  match nc_result c with
  | Err e => Err e
  | Ok data =>
    match closing_error (nc_close c) with
    | Some e => Err e
    | None => Ok data
    end
  end.

Definition executePollNode (wd : W) (node : INode) (inputData : ITaskDataConnections)
    : result ExecutionError RunNodeResult * W :=
  if manual then let '(c, wd) := callPoll wd node in (nc_result c, wd)
  else (Ok (RData (jm_get inputData Main)), wd).

Definition executeTriggerNode (wd : W) (node : INode) (inputData : ITaskDataConnections)
    : result ExecutionError RunNodeResult * W :=
  if manual then
    let '(triggerResponse, wd) := callTrigger wd node in
    match triggerResponse with
    | None => (Ok (RData None), wd)
    | Some c =>
      match nc_result c with
      | Ok (RData (Some [])) => (Ok (RData None), wd)
      | r => (r, wd)
      end
    end
  else (Ok (RData (jm_get inputData Main)), wd).

(** The tags of [metadata.tracing] win over the evaluated ones. *)
Definition add_tracing (executionData : IExecuteData) (tags : option (list (string * json))) : IExecuteData :=
  match tags with
  | None => executionData
  | Some tags =>
    let m := default no_meta (x_metadata executionData) in
    let own := match jm_get (m_other m) "tracing" with Some (JObj o) => o | _ => [] end in
    mkExecute (x_node executionData) (x_data executionData) (x_source executionData) (x_runIndex executionData)
      (Some (mkMeta (m_subNodeExecutionData m) (m_preserveSourceOverwrite m) (m_preservedSourceOverwrite m)
               (m_nodeWasResumed m) (jm_set (m_other m) "tracing" (JObj (spread tags own)))))
  end.

(** The result of [runNode], the execution data with its metadata, the time to wait until. *)
Record NodeOutcome := mkOutcome {
  oc_result : result ExecutionError RunNodeResult;
  oc_exec : IExecuteData;
  oc_waitTill : option Z;
}.

Definition runNode (wd : W) (node : INode) (executionData : IExecuteData) (s : IRunExecutionData)
    (runIndex : nat) (responses : option EngineResponse) : NodeOutcome * W :=
  let inputData := x_data executionData in
  if bool_decide (n_disabled node = Some true)
  then (mkOutcome (Ok (RData (handleDisabledNode inputData))) executionData None, wd)
  else
    match getByNameAndVersion (n_type node) (n_typeVersion node) with
    | None => (mkOutcome (Err (type_error "customOperations of undefined")) executionData None, wd)
    | Some nodeType =>
      let customOperation := getCustomOperation node nodeType in
      match prepareConnectionInputData w nodeType customOperation inputData with
      | None => (mkOutcome (Ok (RData None)) executionData None, wd)
      | Some connectionInputData =>
        match rethrowLastNodeError s node with
        | Err e => (mkOutcome (Err e) executionData None, wd)
        | Ok _ =>
          let inputData := handleExecuteOnce node inputData in
          let executionData := add_tracing executionData (telemetry node executionData connectionInputData) in
          if t_execute nodeType || customOperation then
            let '(c, wd) := callExecute wd node executionData connectionInputData inputData runIndex responses in
            (mkOutcome (executeNode c) executionData (nc_waitTill c), wd)
          else if t_poll nodeType then
            let '(r, wd) := executePollNode wd node inputData in (mkOutcome r executionData None, wd)
          else if t_trigger nodeType then
            let '(r, wd) := executeTriggerNode wd node inputData in (mkOutcome r executionData None, wd)
          else if t_supplyData nodeType then
            (mkOutcome (Err (mkError "ApplicationError" "supplyData without execute")) executionData None, wd)
          else if t_webhook nodeType && negb (d_requestDefaults (t_description nodeType)) then
            (mkOutcome (Ok (RData (jm_get inputData Main))) executionData None, wd)
          else
            let '(c, wd) := callDeclarative wd node executionData connectionInputData inputData runIndex in
            (mkOutcome (nc_result c) executionData (nc_waitTill c), wd)
        end
      end
    end.
End RunNode.

(** * Theorems *)

Definition slot_items (d : slot Items) : Items := match d with SVal l => l | _ => [] end.
Definition is_error_item (it : INodeExecutionData) : Prop := has_error it = true.

#[export] Instance is_error_item_dec it : Decision (is_error_item it).
Proof. unfold is_error_item. apply _. Defined.

Lemma slot_at_arr_set {A} (l : list (slot A)) i x : slot_at (arr_set SUndef l i x) i = x.
Proof. unfold slot_at. by rewrite arr_set_lookup. Qed.

(** A write beyond the end leaves holes, which read as [undefined]. *)
Lemma slot_at_arr_set_ne {A} (l : list (slot A)) i j x :
  i ≠ j → slot_at (arr_set SUndef l i x) j = slot_at l j.
Proof.
  intros Hne. unfold slot_at. destruct (decide (j < length l)) as [Hj|Hj]; [by rewrite arr_set_lookup_ne|].
  rewrite (lookup_ge_None_2 l) by lia. destruct (arr_set SUndef l i x !! j) as [y|] eqn:Hy; [|done].
  unfold arr_set in Hy. case_decide as Hi.
  - apply lookup_lt_Some in Hy. rewrite length_insert in Hy. lia.
  - rewrite lookup_app_r in Hy by lia. destruct (decide (j < i)) as [Hji|Hji].
    + rewrite lookup_app_l in Hy by (rewrite length_replicate; lia). by apply lookup_replicate in Hy as [-> _].
    + apply lookup_lt_Some in Hy as Hlt. rewrite length_app, length_replicate in Hlt. simpl in Hlt. lia.
Qed.

(** Every element passes a test or fails it. *)
Lemma filter_length_split {A} (P : A → Prop) `{∀ x, Decision (P x)} (l : list A) :
  length l = length (filter P l) + length (filter (λ x, ¬ P x) l).
Proof. induction l as [|x l IH]; [done|]. rewrite !filter_cons. repeat case_decide; simpl; lia || tauto. Qed.

(** ** The error output *)

Section ErrorOutputSpec.
Context (gp : string → ISourceData → IPairedItemData → result ExecutionError (option INodeExecutionData)).
Context (d : IExecuteData).

(** [e] is the item [it] as it appears on the error output. *)
Definition error_of (it e : INodeExecutionData) : Prop := error_item gp d it = Ok e.

Lemma split_items_spec ok err items ok' err' :
  split_items gp d ok err items = Ok (ok', err') →
  ok' = ok ++ filter (λ it, ¬ is_error_item it) items ∧
  ∃ es, err' = err ++ es ∧ Forall2 error_of (filter is_error_item items) es.
Proof.
  revert ok err; induction items as [|it items IH]; intros ok err; cbn [split_items].
  - intros [= <- <-]. rewrite app_nil_r. split; [done|]. exists []. by rewrite app_nil_r.
  - rewrite !filter_cons. destruct (has_error it) eqn:He.
    + assert (is_error_item it) by done. rewrite (decide_False (P := ¬ _)) by tauto. rewrite decide_True by done.
      intros (e & H1 & H2)%bind_Ok. apply IH in H2 as (-> & es & -> & Hes). split; [done|].
      exists (e :: es). split; [by rewrite <- app_assoc|by constructor].
    + assert (¬ is_error_item it) by (unfold is_error_item; congruence).
      rewrite (decide_True (P := ¬ _)) by done. rewrite decide_False by done.
      intros (-> & es & -> & Hes)%IH. split; [by rewrite <- app_assoc|]. by exists es.
Qed.

Lemma split_outputs_spec n k nsd err nsd' err' :
  foldM (split_output gp d) (nsd, err) (seq k n) = Ok (nsd', err') →
  (∀ i, k ≤ i < k + n → slot_at nsd' i = SVal (filter (λ it, ¬ is_error_item it) (slot_items (slot_at nsd i)))) ∧
  (∀ i, i < k ∨ k + n ≤ i → slot_at nsd' i = slot_at nsd i) ∧
  ∃ es, err' = err ++ es ∧
    Forall2 error_of (i ← seq k n; filter is_error_item (slot_items (slot_at nsd i))) es.
Proof.
  revert k nsd err; induction n as [|n IH]; intros k nsd err.
  - intros [= <- <-]. split; [lia|]. split; [done|]. exists []. by rewrite app_nil_r.
  - cbn [seq foldM]. intros ([nsd1 err1] & H1 & H2)%bind_Ok. unfold split_output in H1.
    apply bind_Ok in H1 as ([ok err2] & Hs & [= <- <-]). apply split_items_spec in Hs as (-> & es1 & -> & Hes1).
    apply IH in H2 as (Hin & Hout & es2 & -> & Hes2). split_and!.
    + intros i Hi. destruct (decide (i = k)) as [->|].
      * rewrite Hout by lia. by rewrite slot_at_arr_set.
      * rewrite Hin by lia. by rewrite slot_at_arr_set_ne.
    + intros i Hi. rewrite Hout by lia. apply slot_at_arr_set_ne. lia.
    + exists (es1 ++ es2). split; [by rewrite app_assoc|]. rewrite bind_cons. apply Forall2_app; [done|].
      revert Hes2. clear. generalize (SVal (filter (λ it, ¬ is_error_item it) (slot_items (slot_at nsd k)))).
      intros x. assert (k < S k) as Hk by lia. revert Hk. generalize (S k) as j.
      induction n as [|n IH] in es2 |- *; intros j Hk; [done|]. cbn [seq]. rewrite !bind_cons.
      rewrite slot_at_arr_set_ne by lia. intros (l1 & l2 & H1 & H2 & ->)%Forall2_app_inv_l.
      apply Forall2_app; [done|]. apply IH; [lia|done].
Qed.
End ErrorOutputSpec.

(** With [continueErrorOutput], each regular output keeps its items without an error, in order, and
    the last output holds exactly the items with an error of all regular outputs, in order, each
    completed with the json of the input item it comes from; no item is lost or duplicated.  What the
    node itself put on the last output is replaced. *)
Theorem error_output_partition gp d last nsd out :
  handleNodeErrorOutput gp d (S last) nsd = Ok out →
  (∀ i, i < last → slot_at out i = SVal (filter (λ it, ¬ is_error_item it) (slot_items (slot_at nsd i)))) ∧
  (∀ i, last < i → slot_at out i = slot_at nsd i) ∧
  ∃ es, slot_at out last = SVal es ∧
    Forall2 (error_of gp d) (i ← seq 0 last; filter is_error_item (slot_items (slot_at nsd i))) es ∧
    sum_list ((λ i, length (slot_items (slot_at nsd i))) <$> seq 0 last) =
      sum_list ((λ i, length (slot_items (slot_at out i))) <$> seq 0 last) + length es.
Proof.
  unfold handleNodeErrorOutput. replace (S last - 1) with last by lia.
  intros ([nsd1 err1] & Hs & [= <-])%bind_Ok. apply split_outputs_spec in Hs as (Hin & Hout & es & -> & Hes).
  assert (∀ i, i < last → slot_at (arr_set SUndef nsd1 last (SVal es)) i =
    SVal (filter (λ it, ¬ is_error_item it) (slot_items (slot_at nsd i)))) as Hreg.
  { intros i Hi. rewrite slot_at_arr_set_ne by lia. apply Hin. lia. }
  split_and!; [done|intros; rewrite slot_at_arr_set_ne by lia; apply Hout; lia|].
  exists es. split; [apply slot_at_arr_set|]. split; [done|]. apply Forall2_length in Hes. rewrite <- Hes.
  cbn [app]. clear -Hreg. revert Hreg. generalize (arr_set SUndef nsd1 last (SVal es)) as o. intros o.
  assert (∀ l, (∀ i, i ∈ l → slot_at o i = SVal (filter (λ it, ¬ is_error_item it) (slot_items (slot_at nsd i)))) →
    sum_list ((λ i, length (slot_items (slot_at nsd i))) <$> l) =
      sum_list ((λ i, length (slot_items (slot_at o i))) <$> l) +
      length (i ← l; filter is_error_item (slot_items (slot_at nsd i)))) as H.
  { induction l as [|i l IH]; intros Hl; [done|]. rewrite bind_cons, !fmap_cons, length_app.
    specialize (IH ltac:(intros; apply Hl; by right)). cbn in *. rewrite IH.
    rewrite (Hl i) by by left. cbn [slot_items]. rewrite (filter_length_split is_error_item (slot_items (slot_at nsd i))). lia. }
  intros Hreg. apply H. intros i Hi%elem_of_seq. apply Hreg. lia.
Qed.

(** ** Paired items *)

(** The item as it was, or, when it had no paired item, paired with one of the [n] items of the first
    input. *)
Definition paired_as (n : nat) (it it' : INodeExecutionData) : Prop :=
  it' = it ∨
  (i_pairedItem it = None ∧ ∃ k, k < n ∧ it' = item_set_paired it (POne (mkPaired k None None))).

Definition slots_paired (n : nat) (a b : slot Items) : Prop :=
  match a, b with
  | SVal l, SVal l' => Forall2 (paired_as n) l l'
  | a, b => a = b
  end.

(** The items the rule may refer to exist. *)
Definition rule_fits (rule : PairRule) (n : nat) (outputs : list (slot Items)) : Prop :=
  match rule with
  | PairFirst => 0 < n
  | PairSame => ∃ items, outputs = [SVal items] ∧ length items = n
  | PairNone => True
  end.

Definition first_input_length (main : list (slot Items)) : nat := default 0 (slot_length (slot_at main 0)).

Lemma pair_rule_fits outputs main rule :
  pair_rule outputs main = Ok rule → rule_fits rule (first_input_length main) outputs.
Proof.
  unfold pair_rule, first_input_length. intros ([same single] & H & [= <-])%bind_Ok.
  destruct ((length main =? 1) && bool_decide (slot_length (slot_at main 0) = Some 1)) eqn:H1.
  { apply andb_true_iff in H1 as [_ H1%bool_decide_eq_true]. rewrite H1. simpl. lia. }
  destruct ((length outputs =? 1) && _) eqn:H2; [|by injection H as <- <-].
  apply andb_true_iff in H2 as [H2%Nat.eqb_eq _].
  destruct outputs as [|o [|]]; try done. unfold slot_at at 1 in H. cbn in H.
  destruct o as [| |out]; try done. injection H as <- <-.
  destruct (bool_decide_reflect (slot_length (slot_at main 0) = Some (length out))) as [Hs|Hs].
  - rewrite Hs. by exists out.
  - destruct ((length out =? 1) && _) eqn:H3; [|done]. apply andb_true_iff in H3 as [_ H3].
    unfold rule_fits. by destruct (default 0 _); [|lia].
Qed.

Lemma Forall2_same_refl {A} (R : relation A) (l : list A) : (∀ x, R x x) → Forall2 R l l.
Proof. intros HR. induction l; constructor; auto. Qed.

(** What [assign_items] does to one output, and that it leaves the loop only for [PairNone]. *)
Lemma assign_items_spec rule n index items items' broke :
  (match rule with PairFirst => 0 < n | PairSame => index + length items ≤ n | PairNone => True end) →
  assign_items rule index items = (items', broke) →
  Forall2 (paired_as n) items items' ∧
  (rule ≠ PairNone → broke = false ∧ Forall (λ it, is_Some (i_pairedItem it)) items').
Proof.
  revert index items' broke; induction items as [|it items IH]; intros index items' broke Hn; cbn [assign_items].
  - intros [= <- <-]. split; [constructor|]. intros _. split; [done|constructor].
  - assert (match rule with PairFirst => 0 < n | PairSame => S index + length items ≤ n | PairNone => True end) as Hn'
      by (destruct rule; simpl in *; lia || done).
    destruct (i_pairedItem it) as [p|] eqn:Hp.
    + destruct (assign_items rule (S index) items) as [rest b] eqn:Hr. intros [= <- <-].
      destruct (IH _ _ _ Hn' Hr) as [H1 H2]. split; [constructor; [by left|done]|].
      intros Hne. destruct (H2 Hne) as [-> H3]. split; [done|]. constructor; [by rewrite Hp|done].
    + assert (∀ k rest b, k < n → assign_items rule (S index) items = (rest, b) →
        (item_set_paired it (POne (mkPaired k None None)) :: rest, b) = (items', broke) →
        Forall2 (paired_as n) (it :: items) items' ∧
        (rule ≠ PairNone → broke = false ∧ Forall (λ it, is_Some (i_pairedItem it)) items')) as Hset.
      { intros k rest b Hk Hr [= <- <-]. destruct (IH _ _ _ Hn' Hr) as [H1 H2]. split.
        - constructor; [|done]. right. split; [done|]. by exists k.
        - intros Hne. destruct (H2 Hne) as [-> H3]. split; [done|]. constructor; [by eexists|done]. }
      destruct rule.
      * destruct (assign_items _ _ _) as [rest b] eqn:Hr. by apply Hset.
      * destruct (assign_items _ _ _) as [rest b] eqn:Hr. apply Hset; [simpl in Hn; lia|done].
      * intros [= <- <-]. split; [|done]. apply Forall2_same_refl. by left.
Qed.

Lemma assign_outputs_spec rule n outputs outputs' :
  (match rule with
   | PairFirst => 0 < n | PairSame => Forall (λ o, length (slot_items o) ≤ n) outputs | PairNone => True end) →
  assign_outputs rule outputs = Ok outputs' →
  Forall2 (slots_paired n) outputs outputs' ∧
  (rule ≠ PairNone → Forall (λ o, Forall (λ it, is_Some (i_pairedItem it)) (slot_items o)) outputs').
Proof.
  revert outputs'; induction outputs as [|o outputs IH]; intros outputs' Hn; cbn [assign_outputs].
  - intros [= <-]. by split; [constructor|].
  - assert (match rule with
      | PairFirst => 0 < n | PairSame => Forall (λ o, length (slot_items o) ≤ n) outputs | PairNone => True end) as Hn'
      by (destruct rule; [done|by inversion Hn|done]).
    destruct o as [| |items]; [done| |].
    + intros (rest & Hr & [= <-])%bind_Ok. destruct (IH _ Hn' Hr) as [H1 H2].
      split; [by constructor|]. intros Hne. constructor; [constructor|by apply H2].
    + destruct (assign_items rule 0 items) as [items' broke] eqn:Hi.
      apply (assign_items_spec rule n) in Hi as [Hit Hb]; [|destruct rule; [done|by inversion Hn|done]].
      destruct broke.
      * intros [= <-]. split; [|intros Hne; by destruct (Hb Hne)].
        constructor; [done|]. apply Forall2_same_refl. intros [| |l]; [done|done|].
        apply Forall2_same_refl. by left.
      * intros (rest & Hr & [= <-])%bind_Ok. destruct (IH _ Hn' Hr) as [H1 H2].
        split; [by constructor|]. intros Hne. constructor; [by apply Hb|by apply H2].
Qed.

(** Completing the paired items changes nothing but missing paired items, and every paired item it
    adds refers to an existing item of the first main input.  When there is one input with one item,
    or one input and one output of the same length, every output item is paired afterwards. *)
Theorem assignPairedItems_sound outputs d outputs' main :
  assignPairedItems (Some outputs) d = Ok (Some outputs') →
  jm_get (x_data d) Main = Some main →
  Forall2 (slots_paired (first_input_length main)) outputs outputs' ∧
  (length main = 1 →
   first_input_length main = 1 ∨
     (∃ items, outputs = [SVal items] ∧ slot_at main 0 = SVal (slot_items (slot_at main 0)) ∧
        length items = first_input_length main) →
   Forall (λ o, Forall (λ it, is_Some (i_pairedItem it)) (slot_items o)) outputs').
Proof.
  intros H Hmain. unfold assignPairedItems in H. destruct outputs as [|o outputs].
  { injection H as <-. by split; [constructor|]. }
  rewrite Hmain in H. apply bind_Ok in H as (main' & [= <-]%of_option_Ok & H). apply bind_Ok in H as (rule & Hrule & H). apply bind_Ok in H as (out & Hout & [= <-]).
  pose proof (pair_rule_fits _ _ _ Hrule) as Hfit.
  apply (assign_outputs_spec rule (first_input_length main)) in Hout as [H1 H2].
  2:{ destruct rule; [done| |done]. destruct Hfit as (items & [= -> ->] & <-). by repeat constructor. }
  split; [done|]. intros Hlen Hcase. apply H2. intros ->. revert Hrule. unfold pair_rule. rewrite Hlen.
  unfold first_input_length in Hcase. cbn [Nat.eqb andb].
  destruct Hcase as [Hone|(items & [= -> ->] & Hslot & Hitems)].
  - rewrite (bool_decide_true (slot_length (slot_at main 0) = Some 1)).
    2:{ destruct (slot_length (slot_at main 0)); simpl in Hone; congruence. }
    by intros ([??] & _ & ?)%bind_Ok.
  - unfold slot_at at 2. cbn. rewrite Hslot in *. cbn in *.
    rewrite (bool_decide_true (slot_length _ = Some (length items))); [by case_bool_decide|].
    rewrite Hslot. cbn. by rewrite Hitems.
Qed.

(** * Witnesses *)

Definition named_item (s : string) : INodeExecutionData := mkItem [("name", JStr s)] None None.

Definition failed_item (s : string) : INodeExecutionData :=
  mkItem [("error", JStr s)] (Some (POne (mkPaired 0 None None))) None.

Definition from_node_a (input : Items) : IExecuteData :=
  mkExecute None (only_main [SVal input]) (Some (only_main [SVal (mkSource "a" None None)])) None None.

Lemma error_output_partition_witness :
  ∃ out, handleNodeErrorOutput (λ _ _ _, Ok (Some (named_item "in"))) (from_node_a [named_item "in"]) 2
           [SVal [named_item "x"; failed_item "no"; named_item "y"]; SVal [named_item "stale"]] = Ok out ∧
    slot_at out 0 = SVal [named_item "x"; named_item "y"] ∧
    ∃ es, slot_at out 1 = SVal es.
Proof.
  eexists; split; [reflexivity|].
  destruct (error_output_partition (λ _ _ _, Ok (Some (named_item "in"))) (from_node_a [named_item "in"]) 1
    [SVal [named_item "x"; failed_item "no"; named_item "y"]; SVal [named_item "stale"]] _ eq_refl)
    as (H & _ & es & Hes & _).
  split; [by rewrite (H 0) by lia|by exists es].
Defined.

Lemma assignPairedItems_sound_witness :
  ∃ out, assignPairedItems (Some [SVal [named_item "x"; named_item "y"]])
           (from_node_a [named_item "u"; named_item "v"]) = Ok (Some out) ∧
    Forall (λ o, Forall (λ it, is_Some (i_pairedItem it)) (slot_items o)) out.
Proof.
  eexists; split; [reflexivity|].
  apply (assignPairedItems_sound [SVal [named_item "x"; named_item "y"]]
    (from_node_a [named_item "u"; named_item "v"]) _ [SVal [named_item "u"; named_item "v"]]).
  - reflexivity.
  - reflexivity.
  - reflexivity.
  - right. by eexists.
Defined.
