(* ===== verification/RequestsResponse.v ===== *)
(** RequestsResponse: packages/core/src/execution-engine/requests-response.ts
    and [handleEngineRequest] of workflow-execute.ts.

    A node may ask the engine to run other nodes and to be run again with their
    results.  The requested nodes and the requesting node are put on the stack;
    the requested nodes get an entry in the run data at once.  [getNode] returns
    the workflow's own node object, so the rewiring of a requested node changes
    the workflow. *)

From stdpp Require Import prelude list strings.
From Stdlib Require Import ZArith Lia.
From S2P Require Import Prelude Types Traversal WorkflowClass ExecutionTypes ExecutionStack NodeRun.
Local Open Scope nat_scope.

Record NodeToBeExecuted := mkToExecute {
  nt_inputConnectionData : IConnection;
  nt_parentOutputIndex : nat;
  nt_parentNode : string;
  nt_parentOutputData : option (list (slot Items));
  nt_runIndex : nat;
  nt_nodeRunIndex : nat;
  nt_metadata : option ITaskMetadata;
}.

Definition buildParentOutputData (json : list (string * json))
    (parentRunIndex parentOutputIndex : nat) (parentSourceNode : string) : list (slot Items) :=
  [SVal [mkItem json
    (Some (POne (mkPaired parentRunIndex (Some parentOutputIndex)
       (Some (mkSource parentSourceNode (Some parentOutputIndex) (Some parentRunIndex)))))) None]].

(** The new entry of the run data and its index. *)
Definition initializeNodeRunData (rd : IRunData) (nodeName parentNode : string)
    (parentOutputIndex parentRunIndex : nat) (customParent : bool) (runIndex : nat)
    (displayOutputData : list (slot Items)) : nat * IRunData :=
  let nodeRunData := default [] (jm_get rd nodeName) in
  let entry := mkTask 0
    [SVal (mkSource parentNode (Some parentOutputIndex)
             (Some (if customParent then parentRunIndex else runIndex)))]
    None None (Some [(AiTool, displayOutputData)]) None None in
  (length nodeRunData, jm_set rd nodeName (nodeRunData ++ [entry])).

Definition set_rewire (n : INode) (t : NodeConnectionType) : INode :=
  mkNode (n_id n) (n_name n) (n_type n) (n_typeVersion n) (n_position n) (n_disabled n) (n_parameters n)
    (n_retryOnFail n) (n_maxTries n) (n_waitBetweenTries n) (n_alwaysOutputData n)
    (n_executeOnce n) (n_onError n) (n_continueOnFail n) (Some t).

(** [executionData.source?.main?.[i]] *)
Definition source_at (executionData : IExecuteData) (i : nat) : option ISourceData :=
  src ← x_source executionData;
  main ← jm_get src Main;
  match slot_at main i with SVal s => Some s | _ => None end.

(** [executionData.data.main?.[0]?.[itemIndex]] *)
Definition agent_item (executionData : IExecuteData) (itemIndex : nat) : option INodeExecutionData :=
  match slot_at (main_of (x_data executionData)) 0 with
  | SVal items => items !! itemIndex
  | _ => None
  end.

Section Requests.
Context (currentNode : string) (executionData : IExecuteData) (runIndex : nat).

Definition defaultParentOutputIndex : nat :=
  default 0 (src ← source_at executionData runIndex; previousNodeOutput src).
Definition defaultParentSourceNode : string :=
  default currentNode (previousNode <$> source_at executionData runIndex).

(** [(runData[parentNode]?.length ?? 1) - 1]: a list in the run data has an entry. *)
Definition parent_run_index (rd : IRunData) (action : EngineAction) (parentNode : string) : nat :=
  if str_truthy (ea_parentNodeName action)
  then match jm_get rd parentNode with Some l => length l - 1 | None => 0 end
  else default 0 (src ← source_at executionData runIndex; previousNodeRun src).

Record PrepareState := mkPrepare {
  ps_workflow : Workflow;
  ps_runData : IRunData;
  ps_nodes : list NodeToBeExecuted;
  ps_actions : list SubNodeAction;
}.

(** The body of [for (const action of request.actions)]. *)
Definition prepare_action (st : PrepareState) (action : EngineAction) : result ExecutionError PrepareState :=
  match getNode (ps_workflow st) (ea_nodeName action) with
  | None => Err (mkError "UnexpectedError" "Workflow does not contain the node")
  | Some node =>
    let w := with_nodes (ps_workflow st)
               (jm_set (w_nodes (ps_workflow st)) (ea_nodeName action) (set_rewire node (ea_type action))) in
    let parentNode := default currentNode (ea_parentNodeName action) in
    let customParent := str_truthy (ea_parentNodeName action) in
    let parentRunIndex := parent_run_index (ps_runData st) action parentNode in
    let agentJson := match agent_item executionData (default 0 (ea_itemIndex action)) with
                     | Some item => i_json item | None => [] end in
    let mergedJson := spread (spread agentJson (ea_input action)) [("toolCallId", JStr (ea_id action))] in
    let build j := buildParentOutputData j parentRunIndex defaultParentOutputIndex defaultParentSourceNode in
    let '(nodeRunIndex, rd) :=
      initializeNodeRunData (ps_runData st) (n_name node) parentNode defaultParentOutputIndex
        parentRunIndex customParent runIndex (build (ea_input action)) in
    let preserved := default
      (mkSource defaultParentSourceNode (Some defaultParentOutputIndex) (Some parentRunIndex))
      (m ← x_metadata executionData; m_preservedSourceOverwrite m) in
    let toExecute := mkToExecute (mkConn (ea_nodeName action) (ea_type action) 0) 0 parentNode
      (Some (build mergedJson)) (if customParent then parentRunIndex else runIndex) nodeRunIndex
      (Some (mkMeta None (Some true) (Some preserved) None [])) in
    Ok (mkPrepare w rd (ps_nodes st ++ [toExecute])
          (ps_actions st ++ [mkSubNodeAction (ea_nodeName action) nodeRunIndex action]))
  end.

Definition prepareRequestedNodesForExecution (w : Workflow) (rd : IRunData) (request : EngineRequest)
    : result ExecutionError PrepareState :=
  foldM prepare_action (mkPrepare w rd [] []) (er_actions request).

(** The connection, the parent and the preserved metadata of the requesting node. *)
Definition prepareRequestingNodeForResuming (name : string) : option (IConnection * string * ITaskMetadata) :=
  let parentNode := previousNode <$> source_at executionData 0 in
  if str_truthy parentNode then
    let metadata :=
      match x_metadata executionData with
      | Some m =>
        match m_preservedSourceOverwrite m, m_preserveSourceOverwrite m with
        | Some src, Some true => mkMeta None (Some true) (Some src) None []
        | _, _ => no_meta
        end
      | None => no_meta
      end in
    Some (mkConn name AiTool 0, default "" parentNode, metadata)
  else None.

(** [handleRequest]: the nodes to schedule, the requesting node first. *)
Definition handleRequest (w : Workflow) (rd : IRunData) (name : string) (request : EngineRequest)
    : result ExecutionError (list NodeToBeExecuted * Workflow * IRunData) :=
  st ← prepareRequestedNodesForExecution w rd request;
  match prepareRequestingNodeForResuming name with
  | None => Ok ([], ps_workflow st, ps_runData st)
  | Some (connectionData, parentNode, metadata) =>
    let resume := mkMeta (Some (mkSubNodeData (ps_actions st) (er_metadata request))) None None (Some true) [] in
    let self := mkToExecute connectionData 0 parentNode (jm_get (x_data executionData) Main)
      runIndex runIndex (Some (meta_merge resume metadata)) in
    Ok (self :: ps_nodes st, ps_workflow st, ps_runData st)
  end.
End Requests.

(** Scheduling one of the nodes; the data of an input without [main] is [undefined]. *)
Definition schedule_requested (w : Workflow) (s : IRunExecutionData) (nodeData : NodeToBeExecuted)
    : result ExecutionError IRunExecutionData :=
  match nt_parentOutputData nodeData with
  | None => Err (type_error "Cannot read properties of undefined")
  | Some data =>
    throwing (addNodeToBeExecuted w s (nt_inputConnectionData nodeData) (nt_parentOutputIndex nodeData)
      (nt_parentNode nodeData) (Some data) (nt_runIndex nodeData) (Some (nt_nodeRunIndex nodeData))
      (nt_metadata nodeData))
  end.

Definition handleEngineRequest (w : Workflow) (s : IRunExecutionData) (currentNode : INode)
    (request : EngineRequest) (runIndex : nat) (executionData : IExecuteData)
    : result ExecutionError (Workflow * IRunExecutionData) :=
  '(nodesToBeExecuted, w, rd) ←
    handleRequest (n_name currentNode) executionData runIndex w (runData s) (n_name currentNode) request;
  s ← foldM (schedule_requested w) (with_runData s rd) nodesToBeExecuted;
  Ok (w, s).

(** * Theorems *)

(** The workflow changes in nothing but the nodes' output logs. *)
Record same_wiring (w w' : Workflow) : Prop := {
  sw_source : connectionsBySourceNode w' = connectionsBySourceNode w;
  sw_dest : connectionsByDestinationNode w' = connectionsByDestinationNode w;
  sw_order : w_executionOrder w' = w_executionOrder w;
  sw_nodes : ∀ n, is_Some (jm_get (w_nodes w') n) ↔ is_Some (jm_get (w_nodes w) n);
}.

Section Prepared.
Context (currentNode : string) (executionData : IExecuteData) (runIndex : nat).

(** What has been prepared for the actions [l]. *)
Record prepared (w : Workflow) (rd : IRunData) (l : list EngineAction) (st : PrepareState) : Prop := {
  pr_wiring : same_wiring w (ps_workflow st);
  pr_names : c_node ∘ nt_inputConnectionData <$> ps_nodes st = ea_nodeName <$> l;
  pr_data : Forall (λ n, is_Some (nt_parentOutputData n) ∧ nt_parentOutputIndex n = 0 ∧
    c_index (nt_inputConnectionData n) = 0) (ps_nodes st);
  pr_actions : sa_action <$> ps_actions st = l;
  pr_runs : (λ n, (c_node (nt_inputConnectionData n), nt_nodeRunIndex n)) <$> ps_nodes st =
    (λ a, (sa_nodeName a, sa_runIndex a)) <$> ps_actions st;
  pr_known : Forall (λ a, is_Some (jm_get (w_nodes w) (ea_nodeName a))) l;
}.

Lemma prepare_action_spec w rd l st a st' :
  prepared w rd l st → prepare_action currentNode executionData runIndex st a = Ok st' →
  prepared w rd (l ++ [a]) st'.
Proof.
  intros [[Hs Hd Ho Hn] Hnames Hdata Hact Hruns Hk]. unfold prepare_action.
  destruct (getNode (ps_workflow st) (ea_nodeName a)) as [node|] eqn:Hnode; [|done].
  unfold initializeNodeRunData. intros [= <-].
  assert (is_Some (jm_get (w_nodes (ps_workflow st)) (ea_nodeName a))) as Hsome by (by exists node).
  split; cbn.
  - split; [done|done|done|]. intros n. cbn. rewrite <- Hn.
    destruct (decide (ea_nodeName a = n)) as [<-|Hne]; [|by rewrite jm_get_set_ne].
    rewrite jm_get_set. split; [done|]. by eexists.
  - rewrite !fmap_app, Hnames. done.
  - apply Forall_app. split; [done|]. repeat constructor. by eexists.
  - by rewrite fmap_app, Hact.
  - rewrite !fmap_app, Hruns. done.
  - apply Forall_app. split; [done|]. apply Forall_singleton. by apply Hn.
Qed.

Lemma prepare_spec w rd request st :
  prepareRequestedNodesForExecution currentNode executionData runIndex w rd request = Ok st →
  prepared w rd (er_actions request) st.
Proof.
  unfold prepareRequestedNodesForExecution.
  assert (∀ l0 l st0, prepared w rd l0 st0 →
    foldM (prepare_action currentNode executionData runIndex) st0 l = Ok st → prepared w rd (l0 ++ l) st) as H.
  { intros l0 l; revert l0; induction l as [|a l IH]; intros l0 st0 H0; cbn.
    - intros [= <-]. by rewrite app_nil_r.
    - intros (st1 & H1 & H2)%bind_Ok. rewrite (cons_middle a l0 l), (assoc_L (++)).
      eapply IH; [|exact H2]. by eapply prepare_action_spec. }
  apply (H []). split; try done. all: constructor.
Qed.
End Prepared.

(** The stack entry a prepared node becomes, with at most one main input. *)
Definition requested_entry (w : Workflow) (n : NodeToBeExecuted) (e : IExecuteData) : Prop :=
  x_node e = getNode w (c_node (nt_inputConnectionData n)) ∧
  x_runIndex e = Some (nt_nodeRunIndex n) ∧ x_metadata e = nt_metadata n.

Lemma schedule_one w s n s' :
  schedule_requested w s n = Ok s' →
  length (main_inputs w (c_node (nt_inputConnectionData n))) ≤ 1 →
  is_Some (getNode w (c_node (nt_inputConnectionData n))) →
  ∃ e, s' = enqueue w s e ∧ requested_entry w n e.
Proof.
  unfold schedule_requested. destruct (nt_parentOutputData n) as [data|]; [|done].
  intros H Hl [node Hn]. unfold addNodeToBeExecuted in H. rewrite (proj2 (Nat.ltb_ge _ _) Hl) in H.
  cbn in H. injection H as <-. unfold add_directly. unfold getNode in Hn. rewrite Hn.
  eexists; split; [done|]. unfold requested_entry, getNode. by rewrite Hn.
Qed.

Lemma schedule_all w s l s' :
  foldM (schedule_requested w) s l = Ok s' →
  (∀ n, n ∈ l → length (main_inputs w (c_node (nt_inputConnectionData n))) ≤ 1 ∧
    is_Some (getNode w (c_node (nt_inputConnectionData n)))) →
  ∃ es, Forall2 (requested_entry w) l es ∧
    nodeExecutionStack s' = if is_v1 w then reverse es ++ nodeExecutionStack s
                            else nodeExecutionStack s ++ es.
Proof.
  revert s; induction l as [|n l IH]; intros s; cbn.
  - intros [= <-] _. exists []. split; [constructor|]. by destruct (is_v1 w); rewrite ?app_nil_r.
  - intros (s1 & H1 & H2)%bind_Ok Hall. apply schedule_one in H1 as (e & -> & He); [|apply Hall; by left..].
    destruct (IH _ H2) as (es & Hes & Hst); [intros; apply Hall; by right|].
    exists (e :: es). split; [by constructor|]. rewrite Hst. unfold enqueue.
    destruct (is_v1 w); cbn [nodeExecutionStack with_stack].
    + by rewrite reverse_cons, <- app_assoc.
    + by rewrite <- app_assoc.
Qed.

Lemma same_wiring_inputs w w' n : same_wiring w w' → main_inputs w' n = main_inputs w n.
Proof. intros [_ Hd _ _]. unfold main_inputs, main_conns. by rewrite Hd. Qed.

(** An engine request puts the requesting node and the requested nodes on the stack, each requested
    node with the run index its entry in the run data has, which the resumed node's metadata lists in
    the order of the actions.  In the v1 order all requested nodes come before the requesting node;
    in the legacy order the requesting node comes before them. *)
Theorem engine_request_schedule w s cur request r d w' s' src :
  handleEngineRequest w s cur request r d = Ok (w', s') →
  source_at d 0 = Some src → previousNode src ≠ "" →
  is_Some (getNode w (n_name cur)) →
  (∀ n, n ∈ n_name cur :: (ea_nodeName <$> er_actions request) → length (main_inputs w n) ≤ 1) →
  ∃ agent tools,
    nodeExecutionStack s' = (if is_v1 w then reverse tools ++ agent :: nodeExecutionStack s
                             else nodeExecutionStack s ++ agent :: tools) ∧
    x_node agent = getNode w' (n_name cur) ∧
    x_node <$> tools = (λ a, getNode w' (ea_nodeName a)) <$> er_actions request ∧
    ∃ m sd, x_metadata agent = Some m ∧ m_nodeWasResumed m = Some true ∧
      m_subNodeExecutionData m = Some sd ∧ sa_action <$> sd_actions sd = er_actions request ∧
      x_runIndex <$> tools = (λ a, Some (sa_runIndex a)) <$> sd_actions sd.
Proof.
  intros H Hsrc Hne Hcur Hin. unfold handleEngineRequest in H.
  apply bind_Ok in H as ([[nodes w1] rd] & H1 & H). apply bind_Ok in H as (s1 & Hall & H). injection H as -> ->.
  unfold handleRequest in H1. apply bind_Ok in H1 as (st & Hprep & H1).
  pose proof (prepare_spec _ _ _ w (runData s) request st Hprep) as [Hw Hnames Hdata Hact Hruns Hk].
  unfold prepareRequestingNodeForResuming in H1. rewrite Hsrc in H1. cbn [fmap option_fmap option_map] in H1.
  unfold str_truthy in H1. rewrite bool_decide_false in H1 by done. cbn [negb] in H1. injection H1 as <- <- <-.
  apply schedule_all in Hall as (es & Hes & Hst).
  2:{ assert (∀ n, n ∈ n_name cur :: (ea_nodeName <$> er_actions request) → is_Some (getNode w n)) as Hsome.
      { intros n [->|Hn]%elem_of_cons; [done|]. apply list_elem_of_fmap in Hn as (a & -> & Ha).
        rewrite Forall_forall in Hk. by apply Hk. }
      intros n Hn. rewrite (same_wiring_inputs _ _ _ Hw). unfold getNode. rewrite (sw_nodes _ _ Hw).
      assert (c_node (nt_inputConnectionData n) ∈ n_name cur :: (ea_nodeName <$> er_actions request)) as Hc.
      { apply elem_of_cons in Hn as [->|Hn]; [by left|]. right. rewrite <- Hnames.
        apply list_elem_of_fmap. by exists n. }
      split; [by apply Hin|by apply Hsome]. }
  apply Forall2_cons_inv_l in Hes as (agent & tools & (Ha1 & Ha2 & Ha3) & Ht & ->).
  exists agent, tools.
  assert (is_v1 (ps_workflow st) = is_v1 w) as Hv by (unfold is_v1; by rewrite (sw_order _ _ Hw)).
  rewrite Hv in Hst. split_and!.
  - rewrite Hst. destruct (is_v1 w); [|done]. by rewrite reverse_cons, <- app_assoc.
  - done.
  - assert (x_node <$> tools = (λ n, getNode (ps_workflow st) n) <$> (c_node ∘ nt_inputConnectionData <$> ps_nodes st)) as ->.
    { clear -Ht. induction Ht as [|n e l es (He & _) _ IH]; [done|]. cbn. by rewrite He, IH. }
    by rewrite Hnames, <- list_fmap_compose.
  - eexists _, _. split; [exact Ha3|]. cbn.
    assert (m_subNodeExecutionData (match x_metadata d with
      | Some m => match m_preservedSourceOverwrite m, m_preserveSourceOverwrite m with
                  | Some src, Some true => mkMeta None (Some true) (Some src) None []
                  | _, _ => no_meta end
      | None => no_meta end) = None ∧ m_nodeWasResumed (match x_metadata d with
      | Some m => match m_preservedSourceOverwrite m, m_preserveSourceOverwrite m with
                  | Some src, Some true => mkMeta None (Some true) (Some src) None []
                  | _, _ => no_meta end
      | None => no_meta end) = None) as [-> ->] by (repeat case_match; done).
    split_and!; [done|done|done|]. cbn.
    assert (x_runIndex <$> tools = (λ p, Some p.2) <$> ((λ n, (c_node (nt_inputConnectionData n), nt_nodeRunIndex n)) <$> ps_nodes st)) as ->.
    { clear -Ht. induction Ht as [|n e l es (_ & He & _) _ IH]; [done|]. cbn. by rewrite He, IH. }
    rewrite Hruns, <- list_fmap_compose. done.
Qed.

(** ** The runs of the requested nodes *)

Definition runs_of (rd : IRunData) (name : string) : list ITaskData := default [] (jm_get rd name).

Lemma runs_of_set rd name tasks name' :
  runs_of (jm_set rd name tasks) name' = if decide (name = name') then tasks else runs_of rd name'.
Proof.
  unfold runs_of. case_decide as Hn; [subst; by rewrite jm_get_set|by rewrite jm_get_set_ne].
Qed.

Definition action_run (a : SubNodeAction) : string * nat := (sa_nodeName a, sa_runIndex a).

(** The actions prepared so far have runs of their own, added behind the runs of [rd]. *)
Record fresh_runs (rd : IRunData) (rd' : IRunData) (actions : list SubNodeAction) : Prop := {
  fr_kept : ∀ name, runs_of rd name `prefix_of` runs_of rd' name;
  fr_new : ∀ a, a ∈ actions →
    length (runs_of rd (sa_nodeName a)) ≤ sa_runIndex a ∧ is_Some (runs_of rd' (sa_nodeName a) !! sa_runIndex a);
  fr_distinct : NoDup (action_run <$> actions);
}.

(** In [workflow.nodes] every node is filed under its own name. *)
Definition names_match (w : Workflow) : Prop := ∀ name n, getNode w name = Some n → n_name n = name.

Lemma prepare_action_fresh cur d r rd st a st' :
  names_match (ps_workflow st) →
  fresh_runs rd (ps_runData st) (ps_actions st) → prepare_action cur d r st a = Ok st' →
  names_match (ps_workflow st') ∧ fresh_runs rd (ps_runData st') (ps_actions st').
Proof.
  intros Hm [Hk Hn Hd]. unfold prepare_action. destruct (getNode _ _) as [n|] eqn:Hg; [|done].
  unfold initializeNodeRunData. rewrite (Hm _ _ Hg). intros [= <-]. cbn [ps_workflow ps_runData ps_actions].
  split.
  { intros name n'. unfold getNode, with_nodes; cbn [w_nodes].
    destruct (decide (ea_nodeName a = name)) as [<-|Hne]; [|rewrite jm_get_set_ne by done; apply Hm].
    rewrite jm_get_set. intros [= <-]. cbn. by apply Hm. }
  split.
  - intros name. rewrite runs_of_set. case_decide as He; [subst|done].
    etrans; [apply Hk|by apply prefix_app_r].
  - intros b [Hb| ->%list_elem_of_singleton]%elem_of_app.
    + destruct (Hn b Hb) as [H1 [t Ht]]. split; [done|]. rewrite runs_of_set. case_decide as He; [|by exists t].
      exists t. rewrite He. by apply lookup_app_l_Some.
    + cbn. split.
      * fold (runs_of (ps_runData st) (ea_nodeName a)). by apply prefix_length.
      * rewrite runs_of_set, decide_True by done. rewrite lookup_app_r by done.
        by rewrite Nat.sub_diag; eexists.
  - rewrite fmap_app. apply NoDup_app. split_and!; [done| |apply NoDup_singleton].
    intros p Hp ->%list_elem_of_singleton. apply list_elem_of_fmap in Hp as (b & Hb & Hin).
    destruct (Hn b Hin) as [_ [t Ht%lookup_lt_Some]]. injection Hb as Hb1 Hb2.
    fold (runs_of (ps_runData st) (ea_nodeName a)) in Hb2. rewrite <- Hb1, <- Hb2 in Ht. lia.
Qed.

(** Every action of a request gets a run of its own: the runs already in the run data are kept, each
    requested run is a new entry of the requested node, and no two actions share a run, even when
    they request the same node. *)
Theorem requested_runs_fresh cur d r w rd request st :
  names_match w →
  prepareRequestedNodesForExecution cur d r w rd request = Ok st →
  fresh_runs rd (ps_runData st) (ps_actions st) ∧ sa_action <$> ps_actions st = er_actions request.
Proof.
  intros Hm H. split; [|by eapply pr_actions, prepare_spec].
  unfold prepareRequestedNodesForExecution in H.
  assert (names_match (ps_workflow st) ∧ fresh_runs rd (ps_runData st) (ps_actions st)) as [_ Hf]; [|done].
  revert H. apply (foldM_inv _ (λ st, names_match (ps_workflow st) ∧ fresh_runs rd (ps_runData st) (ps_actions st))).
  - intros st0 a st1 _ [H1 H2] H3. by eapply prepare_action_fresh.
  - split; [done|]. split; [done|by intros a ?%not_elem_of_nil|constructor].
Qed.

(** * Witnesses *)

Definition agent_workflow : Workflow :=
  make_workflow
    [plain_node "start" "trigger"; plain_node "agent" "agent"; plain_node "tool" "tool"; plain_node "search" "tool"]
    [("start", [(Main, [Some [mkConn "agent" Main 0]])]); ("tool", [(AiTool, [Some [mkConn "agent" AiTool 0]])]);
     ("search", [(AiTool, [Some [mkConn "agent" AiTool 0]])])]
    None (Some "v1").

Definition agent_entry : IExecuteData :=
  mkExecute (getNode agent_workflow "agent") (only_main [SVal one_item])
    (Some (only_main [SVal (mkSource "start" (Some 0) (Some 0))])) None None.

Definition tool_request : EngineRequest :=
  mkRequest [mkAction "tool" [] AiTool "1" None None; mkAction "search" [] AiTool "2" None None;
             mkAction "tool" [] AiTool "3" None None] (JObj []).

Definition agent_node : INode := plain_node "agent" "agent".

Lemma engine_request_schedule_witness :
  ∃ w' s', handleEngineRequest agent_workflow empty_run agent_node tool_request 0 agent_entry = Ok (w', s') ∧
    ∃ agent tools,
      nodeExecutionStack s' = reverse tools ++ [agent] ∧
      x_node <$> tools = (λ a, getNode w' (ea_nodeName a)) <$> er_actions tool_request.
Proof.
  destruct (handleEngineRequest agent_workflow empty_run agent_node tool_request 0 agent_entry)
    as [[w' s']|e] eqn:H; [|by vm_compute in H].
  exists w', s'. split; [reflexivity|].
  destruct (engine_request_schedule agent_workflow empty_run agent_node tool_request 0 agent_entry w' s'
    (mkSource "start" (Some 0) (Some 0)) H) as (agent & tools & H1 & _ & H2 & _).
  - reflexivity.
  - discriminate.
  - by eexists.
  - intros n Hn. cbn in Hn.
    repeat (apply elem_of_cons in Hn as [->|Hn]; [vm_compute; lia|]). destruct (not_elem_of_nil n Hn).
  - exists agent, tools. split; [exact H1|exact H2].
Defined.

Lemma requested_runs_fresh_witness :
  ∃ st, prepareRequestedNodesForExecution "agent" agent_entry 0 agent_workflow [] tool_request = Ok st ∧
    NoDup (action_run <$> ps_actions st).
Proof.
  eexists; split; [reflexivity|].
  apply (requested_runs_fresh "agent" agent_entry 0 agent_workflow [] tool_request); [|reflexivity].
  intros name n Hn. unfold getNode in Hn. apply jm_get_Some_elem in Hn. cbn in Hn.
  repeat (apply elem_of_cons in Hn as [[= -> ->]|Hn]; [done|]). by apply not_elem_of_nil in Hn.
Defined.
