(* ===== verification/WorkflowExecute.v ===== *)
(** WorkflowExecute: the execution loop
    (packages/core/src/execution-engine/workflow-execute.ts, processRunExecutionData).

    [try_loop] runs one node with its retries, [finish_node] records the run and
    schedules what follows, [exec_step] is one iteration of the loop.  Hooks,
    logging and time are left out: a cancellation or timeout is observed through
    the environment at the head of an iteration. *)

From stdpp Require Import prelude list strings relations.
From Stdlib Require Import ZArith QArith Lia.
From S2P Require Import Prelude Types Traversal WorkflowClass ExecutionTypes ExecutionStack NodeRun RequestsResponse.
Local Open Scope nat_scope.

(** * The environment *)

(** The code the engine calls: node types and what they do, and expressions. *)
Record Env (W : Type) := mkEnv {
  env_types : string → Q → option INodeType;
  env_customOperations : INodeType → jmap string (list string);
  env_execute : W → INode → IExecuteData → Items → ITaskDataConnections → nat →
    option EngineResponse → NodeCall * W;
  env_poll : W → INode → NodeCall * W;
  env_trigger : W → INode → option NodeCall * W;
  env_declarative : W → INode → IExecuteData → Items → ITaskDataConnections → nat → NodeCall * W;
  env_telemetry : INode → IExecuteData → Items → option (list (string * json));
  env_manual : bool;
  (** The number of [main] outputs of a node, by [NodeHelpers.getNodeOutputs]. *)
  env_mainOutputs : Workflow → INode → nat;
  env_pairedItem : W → string → ISourceData → IPairedItemData →
    result ExecutionError (option INodeExecutionData);
  env_convertBinary : W → NodeSuccessData → NodeSuccessData;
  env_required : INode → string → option RequiredValue;
  (** The execution was canceled or has run out of time. *)
  env_canceled : W → bool;
}.
Arguments env_types {W}. Arguments env_customOperations {W}. Arguments env_execute {W}.
Arguments env_poll {W}. Arguments env_trigger {W}. Arguments env_declarative {W}.
Arguments env_telemetry {W}. Arguments env_manual {W}. Arguments env_mainOutputs {W}.
Arguments env_pairedItem {W}. Arguments env_convertBinary {W}. Arguments env_required {W}.
Arguments env_canceled {W}.

Definition default_number (z : option Z) (d : Z) : Z :=
  match z with Some z => if (z =? 0)%Z then d else z | None => d end.

Definition maxTries (node : INode) : nat :=
  if bool_decide (n_retryOnFail node = Some true)
  then Z.to_nat (Z.min 5 (Z.max 2 (default_number (n_maxTries node) 3))) else 1.

Definition waitBetweenTries (node : INode) : Z :=
  if bool_decide (n_retryOnFail node = Some true)
  then Z.min 5000 (Z.max 0 (default_number (n_waitBetweenTries node) 1000)) else 0.

(** [isErrorValue(data.data?.[0]?.[0]?.json?.error)]: a soft failure. *)
Definition checkFailure (d : RunNodeResult) : bool :=
  match d with
  | RRequest _ => false
  | RData data =>
    match first_item data with
    | None => false
    | Some item =>
      match jm_get (i_json item) "error" with
      | None | Some JNull | Some (JBool false) => false
      | Some _ => true
      end
    end
  end.

Section Engine.
Context {W : Type} (env : Env W).

(** * Running a node with its retries (lines 1717-1944) *)

(** [ts_calls] counts the calls of [runNode]. *)
Record TryState := mkTry {
  ts_world : W;
  ts_workflow : Workflow;
  ts_exec : IExecuteData;
  ts_run : IRunExecutionData;
  ts_responses : EngineResponse;
  ts_nsd : NodeSuccessData;
  ts_calls : nat;
}.

Definition ts_with_run (st : TryState) (s : IRunExecutionData) : TryState :=
  mkTry (ts_world st) (ts_workflow st) (ts_exec st) s (ts_responses st) (ts_nsd st) (ts_calls st).
Definition ts_with_nsd (st : TryState) (d : NodeSuccessData) : TryState :=
  mkTry (ts_world st) (ts_workflow st) (ts_exec st) (ts_run st) (ts_responses st) d (ts_calls st).
Definition ts_with_responses (st : TryState) (r : EngineResponse) : TryState :=
  mkTry (ts_world st) (ts_workflow st) (ts_exec st) (ts_run st) r (ts_nsd st) (ts_calls st).

Section Try.
Context (node : INode) (runIndex : nat).

(** One call of [runNode]. *)
Definition call_node (responses : option EngineResponse) (st : TryState)
    : result ExecutionError RunNodeResult * TryState :=
  let '(o, wd) := runNode (env_types env) (env_customOperations env) (env_execute env) (env_poll env)
    (env_trigger env) (env_declarative env) (env_telemetry env) (env_manual env) (ts_workflow st)
    (ts_world st) node (ts_exec st) (ts_run st) runIndex responses in
  let s := match oc_waitTill o with Some t => with_waitTill (ts_run st) (Some t) | None => ts_run st end in
  (oc_result o,
   mkTry wd (ts_workflow st) (oc_exec o) s (ts_responses st) (ts_nsd st) (S (ts_calls st))).

(** Lines 1792-1807: a soft failure is retried without the engine's responses.  [tries] is
    [maxTries - 1 - tryIndex]; a call that throws leaves it unchanged. *)
Fixpoint soft_retry (tries : nat) (d : RunNodeResult) (st : TryState)
    : result ExecutionError RunNodeResult * nat * TryState :=
  match tries with
  | 0 => (Ok d, 0, st)
  | S tries' =>
    if checkFailure d then
      let '(r, st) := call_node None st in
      match r with
      | Err e => (Err e, tries, st)
      | Ok d => soft_retry tries' d st
      end
    else (Ok d, tries, st)
  end.

(** Lines 1759-1772: the results of the nodes this node had requested. *)
Definition collect_responses (st : TryState) : TryState :=
  match (m ← x_metadata (ts_exec st); m_subNodeExecutionData m) with
  | None => st
  | Some sd =>
    let found := omap (λ a,
      tasks ← jm_get (runData (ts_run st)) (sa_nodeName a);
      task ← tasks !! sa_runIndex a; Some (mkResult (sa_action a) task)) (sd_actions sd) in
    ts_with_responses st (mkResponse (actionResponses (ts_responses st) ++ found) (sd_metadata sd))
  end.

Inductive TryOutcome :=
| TryDone
| TryNull
| TryRequest.

(** Lines 1852-1892, after the data of the node is known. *)
Definition complete_try (st : TryState) : result ExecutionError TryOutcome * TryState :=
  match assignPairedItems (ts_nsd st) (ts_exec st) with
  | Err m => (Err (type_error m), st)
  | Ok nsd =>
    let st := ts_with_nsd st nsd in
    let st := match nsd with
              | Some _ => ts_with_run st (with_lastNode (ts_run st) (n_name node))
              | None => st
              end in
    match always_output (ts_exec st) node nsd with
    | Err m => (Err (type_error m), st)
    | Ok nsd =>
      let st := ts_with_nsd st nsd in
      match nsd, waitTill (ts_run st) with
      | None, None => (Ok TryNull, st)
      | _, _ => (Ok TryDone, st)
      end
    end
  end.

(** The data of a node: items with errors move to the error output. *)
Definition take_data (st : TryState) (data : NodeSuccessData) : result ExecutionError TryOutcome * TryState :=
  let nsd := env_convertBinary env (ts_world st) data in
  let st := ts_with_nsd st nsd in
  match nsd with
  | Some outputs =>
    if bool_decide (n_onError node = Some "continueErrorOutput") then
      match handleNodeErrorOutput (env_pairedItem env (ts_world st)) (ts_exec st)
              (env_mainOutputs env (ts_workflow st) node) outputs with
      | Err e => (Err e, st)
      | Ok outputs => complete_try (ts_with_nsd st (Some outputs))
      end
    else complete_try st
  | None => complete_try st
  end.

(** The body of the [try] block; [tries] counts the tries that remain after this one. *)
Definition attempt (tries : nat) (st : TryState) : result ExecutionError TryOutcome * nat * TryState :=
  let pinned :=
    pinData ← r_pinData (ts_run st);
    if bool_decide (n_disabled node = Some true) then None else jm_get pinData (n_name node) in
  match pinned with
  | Some nodePinData =>
    let '(r, st) := complete_try (ts_with_nsd st (Some [SVal nodePinData])) in (r, tries, st)
  | None =>
    let st := collect_responses st in
    let '(r, st) := call_node (Some (ts_responses st)) st in
    let '(r, tries, st) := match r with
                          | Ok d => soft_retry tries d st
                          | Err e => (Err e, tries, st)
                          end in
    match r with
    | Err e => (Err e, tries, st)
    | Ok (RRequest request) =>
      match handleEngineRequest (ts_workflow st) (ts_run st) node request runIndex (ts_exec st) with
      | Err e => (Err e, tries, st)
      | Ok (w, s) =>
        (Ok TryRequest, tries,
         mkTry (ts_world st) w (ts_exec st) s (ts_responses st) (ts_nsd st) (ts_calls st))
      end
    | Ok (RData data) => let '(r, st) := take_data st data in (r, tries, st)
    end
  end.

(** The [for] loop over the tries; [fuel] exceeds the tries that are left. *)
Fixpoint try_loop (fuel tries : nat) (st : TryState) : option (result ExecutionError TryOutcome * TryState) :=
  match fuel with
  | 0 => None
  | S fuel =>
    let '(r, tries, st) := attempt tries st in
    match r with
    | Ok o => Some (Ok o, st)
    | Err e =>
      let st := ts_with_run st (with_lastNode (ts_run st) (n_name node)) in
      match tries with
      | 0 => Some (Err e, st)
      | S tries => try_loop fuel tries st
      end
    end
  end.

Definition run_tries (st : TryState) : option (result ExecutionError TryOutcome * TryState) :=
  try_loop (maxTries node) (maxTries node - 1) st.
End Try.

(** * Recording a run (lines 1949-2111) *)

(** [!!runData[name][runIndex]]: the new task data is merged into an existing entry or pushed. *)
Definition record_task (s : IRunExecutionData) (name : string) (runIndex : nat) (task : ITaskData)
    : IRunExecutionData :=
  let tasks := default [] (jm_get (runData s) name) in
  with_runData s (jm_set (runData s) name
    (match tasks !! runIndex with
     | Some cur => <[runIndex := task_assign cur task]> tasks
     | None => tasks ++ [task]
     end)).

(** [runData[name]?.[runIndex]?.inputOverride || {}] *)
Definition existing_override (s : IRunExecutionData) (name : string) (runIndex : nat) : ITaskDataConnections :=
  default [] (tasks ← jm_get (runData s) name; task ← tasks !! runIndex; td_inputOverride task).

Definition push_stack (s : IRunExecutionData) (executionData : IExecuteData) : IRunExecutionData :=
  with_stack s (executionData :: nodeExecutionStack s).

Definition error_item_of (e : ExecutionError) : Items :=
  [mkItem [("error", JStr (e_message e))] None None].

Definition is_ai_tool (node : INode) : bool := bool_decide (n_rewireOutputLogTo node = Some AiTool).

(** The node's error does not stop the workflow. *)
Definition continues_on_error (node : INode) : bool :=
  bool_decide (n_continueOnFail node = Some true) ||
  bool_decide (n_onError node = Some "continueRegularOutput" ∨ n_onError node = Some "continueErrorOutput") ||
  (is_ai_tool node && negb (bool_decide (n_onError node = Some "stopWorkflow"))).

(** Lines 2009-2021: what is passed on after an error. *)
Definition data_after_error (node : INode) (executionData : IExecuteData) (e : ExecutionError)
    (nsd : NodeSuccessData) : NodeSuccessData :=
  if is_ai_tool node then Some [SVal (error_item_of e)]
  else match jm_get (x_data executionData) Main with
       | Some (SNull :: _) | Some [] | None => nsd
       | Some (first :: _) => Some [first]
       end.

(** The data recorded for the node, under the connection type its log is rewired to. *)
Definition rewired (node : INode) (s : IRunExecutionData) (runIndex : nat) (task : ITaskData)
    (outputs : list (slot Items)) : ITaskData :=
  match n_rewireOutputLogTo node with
  | Some t =>
    mkTask (td_executionIndex task) (td_source task) (td_executionStatus task)
      (Some [(t, outputs)]) (Some (existing_override s (n_name node) runIndex)) (td_error task) (td_metadata task)
  | None =>
    mkTask (td_executionIndex task) (td_source task) (td_executionStatus task)
      (Some (only_main outputs)) (td_inputOverride task) (td_error task) (td_metadata task)
  end.

(** Lines 2022-2058: the task of a run that stops the workflow. *)
Definition failed_task (node : INode) (s : IRunExecutionData) (runIndex : nat) (task : ITaskData)
    (e : ExecutionError) : ITaskData :=
  match n_rewireOutputLogTo node with
  | Some t =>
    mkTask (td_executionIndex task) (td_source task) (td_executionStatus task)
      (Some [(t, [SVal (error_item_of e)])]) (Some (existing_override s (n_name node) runIndex))
      (td_error task) (td_metadata task)
  | None => task
  end.

(** * One iteration of the loop *)

Record EngineState := mkEngine {
  es_world : W;
  es_workflow : Workflow;
  es_run : IRunExecutionData;
  es_executionIndex : nat;
  es_lastTry : option (string * nat);
  (** [executionError], which the end of the loop reads: that of the last iteration. *)
  es_error : option ExecutionError;
  (** The names of the nodes run so far, the last one first. *)
  es_trace : list string;
}.

Definition es_with_run (st : EngineState) (s : IRunExecutionData) : EngineState :=
  mkEngine (es_world st) (es_workflow st) s (es_executionIndex st) (es_lastTry st) (es_error st) (es_trace st).
Definition es_with_error (st : EngineState) (e : option ExecutionError) : EngineState :=
  mkEngine (es_world st) (es_workflow st) (es_run st) (es_executionIndex st) (es_lastTry st) e (es_trace st).

(** How an iteration ends: the loop goes on, or stops, with the error of the node it ran if
    that is why, or an error leaves the loop. *)
Inductive StepResult :=
| Continue (st : EngineState)
| Stop (st : EngineState) (e : option ExecutionError)
| Throw (st : EngineState) (e : ExecutionError).

Definition run_index (s : IRunExecutionData) (executionData : IExecuteData) (name : string) : nat :=
  match x_runIndex executionData with
  | Some i => i
  | None => match jm_get (runData s) name with Some l => length l | None => 0 end
  end.

(** Lines 2114-2404: what follows a recorded run. *)
Definition after_record (st : EngineState) (node : INode) (executionData : IExecuteData) (runIndex : nat)
    (outputs : list (slot Items)) (error : option ExecutionError) : option StepResult :=
  let s := es_run st in
  if bool_decide (is_Some (waitTill s)) then Some (Stop (es_with_run st (push_stack s executionData)) error)
  else if bool_decide (dn_nodeName <$> destinationNode s = Some (n_name node)) then Some (Continue st)
  else
    match enqueue_children (es_workflow st) (n_name node) outputs runIndex s with
    | Err m => Some (Throw st (mkError "ApplicationError" m))
    | Ok s =>
      match release_waiting (env_types env) (env_required env) (es_workflow st) s with
      | None => None
      | Some (Err m) => Some (Throw (es_with_run st s) (type_error m))
      | Some (Ok s) => Some (Continue (es_with_run st s))
      end
    end.

(** Lines 1949-2404: the run is recorded. *)
Definition finish_node (st : EngineState) (node : INode) (executionData : IExecuteData) (runIndex : nat)
    (executionIndex : nat) (source : list (slot ISourceData)) (nsd : NodeSuccessData)
    (error : option ExecutionError) : option StepResult :=
  let s := es_run st in
  let name := n_name node in
  let s := if jm_has (runData s) name then s else with_runData s (jm_set (runData s) name []) in
  let st := es_with_error (es_with_run st s) error in
  let status := match error with
                | Some _ => st_error
                | None => if bool_decide (is_Some (waitTill s)) then st_waiting else st_success
                end in
  let task := mkTask executionIndex source (Some status) None None error (x_metadata executionData) in
  match error with
  | Some e =>
    if negb (continues_on_error node) then
      let s := record_task s name runIndex (failed_task node s runIndex task e) in
      Some (Stop (es_with_run st (push_stack s executionData)) error)
    else
      match merge_errors (data_after_error node executionData e nsd) with
      | Err m => Some (Throw st (type_error m))
      | Ok outputs =>
        let s := record_task s name runIndex (rewired node s runIndex task outputs) in
        after_record (es_with_run st s) node executionData runIndex outputs error
      end
  | None =>
    match merge_errors nsd with
    | Err m => Some (Throw st (type_error m))
    | Ok outputs =>
      let s := record_task s name runIndex (rewired node s runIndex task outputs) in
      after_record (es_with_run st s) node executionData runIndex outputs None
    end
  end.

(** Lines 1613-2405, with the popped entry [executionData]. *)
Definition exec_entry (st : EngineState) (executionData : IExecuteData) : option StepResult :=
  match x_node executionData with
  | None => Some (Throw st (type_error "name of undefined"))
  | Some node =>
    let s := es_run st in
    let executionIndex := es_executionIndex st in
    let source := match x_source executionData with Some src => main_of src | None => [] end in
    let st := mkEngine (es_world st) (es_workflow st) s (S executionIndex) (es_lastTry st) None (es_trace st) in
    let executionData := pair_inputs executionData in
    let runIndex := run_index s executionData (n_name node) in
    if bool_decide (es_lastTry st = Some (n_name node, runIndex))
    then Some (Throw st (mkError "ApplicationError"
                "Stopped execution because it seems to be in an endless loop"))
    else if match runNodeFilter s with Some f => negb (bool_decide (n_name node ∈ f)) | None => false end
    then Some (Continue st)
    else
      let '(hasInputData, s) := ensureInputData (es_workflow st) node executionData s in
      if negb hasInputData then
        Some (Continue (mkEngine (es_world st) (es_workflow st) s (S executionIndex)
                          (Some (n_name node, runIndex)) None (es_trace st)))
      else
        let try0 := mkTry (es_world st) (es_workflow st) executionData s makeEngineResponse None 0 in
        match run_tries node runIndex try0 with
        | None => None
        | Some (r, t) =>
          let st := mkEngine (ts_world t) (ts_workflow t) (ts_run t) (S executionIndex) (es_lastTry st) None
                      (n_name node :: es_trace st) in
          match r with
          | Ok TryRequest | Ok TryNull => Some (Continue st)
          | Ok TryDone => finish_node st node (ts_exec t) runIndex executionIndex source (ts_nsd t) None
          | Err e => finish_node st node (ts_exec t) runIndex executionIndex source (ts_nsd t) (Some e)
          end
        end
  end.

(** One iteration: the head of the stack is taken, unless the execution is over or canceled. *)
Definition exec_step (st : EngineState) : option StepResult :=
  match nodeExecutionStack (es_run st) with
  | [] => Some (Stop st None)
  | executionData :: stack =>
    if env_canceled env (es_world st) then Some (Stop st None)
    else exec_entry (es_with_run st (with_stack (es_run st) stack)) executionData
  end.

(** The [while] loop; an execution may loop forever, so [fuel] bounds the iterations. *)
Fixpoint exec_loop (fuel : nat) (st : EngineState) : option StepResult :=
  match fuel with
  | 0 => None
  | S fuel =>
    match exec_step st with
    | Some (Continue st) => exec_loop fuel st
    | r => r
    end
  end.

(** * Before and after the loop *)

(** [handleWaitingState]: the node that put the execution to wait is disabled and its last run removed. *)
Definition disable_node (n : INode) : INode :=
  mkNode (n_id n) (n_name n) (n_type n) (n_typeVersion n) (n_position n) (Some true) (n_parameters n)
    (n_retryOnFail n) (n_maxTries n) (n_waitBetweenTries n) (n_alwaysOutputData n)
    (n_executeOnce n) (n_onError n) (n_continueOnFail n) (n_rewireOutputLogTo n).

Definition handleWaitingState (s : IRunExecutionData) : result string IRunExecutionData :=
  match waitTill s with
  | None => Ok s
  | Some _ =>
    let s := with_waitTill s None in
    match nodeExecutionStack s with
    | [] => Err "TypeError: node of undefined"
    | d :: stack =>
      node ← of_option "TypeError: disabled of undefined" (x_node d);
      let d := mkExecute (Some (disable_node node)) (x_data d) (x_source d) (x_runIndex d) (x_metadata d) in
      last ← of_option "TypeError: runData[undefined]" (lastNodeExecuted s);
      tasks ← of_option "TypeError: pop of undefined" (jm_get (runData s) last);
      Ok (with_runData (with_stack s (d :: stack)) (jm_set (runData s) last (removelast tasks)))
    end
  end.

(** [moveNodeMetadata]: the metadata collected during the run is merged into the run data; an entry
    without a run is only reported. *)
Definition move_one (rd : IRunData) (nodeName : string) (e : nat * ITaskMetadata) : IRunData :=
  let '(index, m) := e in
  match (tasks ← jm_get rd nodeName; tasks !! index) with
  | None => rd
  | Some t =>
    let tasks := default [] (jm_get rd nodeName) in
    jm_set rd nodeName (<[index := mkTask (td_executionIndex t) (td_source t) (td_executionStatus t)
      (td_data t) (td_inputOverride t) (td_error t)
      (Some (meta_merge (default no_meta (td_metadata t)) m))]> tasks)
  end.

Definition moveNodeMetadata (s : IRunExecutionData) : IRunExecutionData :=
  with_runData s
    (foldl (λ rd '(nodeName, ms), foldl (λ rd e, move_one rd nodeName e) rd (entries ms))
       (runData s) (execMetadata s)).

Definition updateTaskStatusesToCancelled (s : IRunExecutionData) : IRunExecutionData :=
  with_runData s (jm_map (fmap (λ t,
    if bool_decide (td_executionStatus t = Some st_running)
    then mkTask (td_executionIndex t) (td_source t) (Some st_canceled) (td_data t) (td_inputOverride t)
           (td_error t) (td_metadata t)
    else t)) (runData s)).

(** [message.includes('canceled') || name.includes('Cancelled')] *)
Fixpoint includes (sub s : string) : bool :=
  String.prefix sub s ||
  match s with String.EmptyString => false | String.String _ s => includes sub s end.

Record RunResult := mkRunResult {
  rr_data : IRunExecutionData;
  rr_status : ExecutionStatus;
  rr_waitTill : option Z;
  rr_finished : bool;
}.

(** [processSuccessExecution]: the status of the execution and its final data. *)
Definition processSuccessExecution (s : IRunExecutionData) (executionError : option ExecutionError) : RunResult :=
  let status :=
    match executionError with
    | Some e => if includes "canceled" (e_message e) || includes "Cancelled" (e_name e)
                then st_canceled else st_error
    | None => if bool_decide (is_Some (waitTill s)) then st_waiting else st_success
    end in
  let s := moveNodeMetadata s in
  match executionError with
  | Some e => mkRunResult (with_error s (Some e)) status None false
  | None =>
    match waitTill s with
    | Some t => mkRunResult s status (Some t) false
    | None => mkRunResult s status None true
    end
  end.

(** The result of the loop: [.then] after it ends, [.catch] when an error leaves it.  When the
    loop is over, [executionError] is still that of the last iteration, even if its node
    continues on errors. *)
Definition execution_result (canceled : bool) (r : StepResult) : RunResult :=
  match r with
  | Continue st | Stop st None =>
      let e := match es_error st with
               | Some e => Some e
               | None => if canceled then Some (mkError "ManualExecutionCancelledError" "The execution was cancelled manually")
                         else None
               end in
      processSuccessExecution (es_run st) e
  | Stop st (Some e) => processSuccessExecution (es_run st) (Some e)
  | Throw st e =>
      mkRunResult (moveNodeMetadata (with_error (es_run st) (Some e))) st_running None false
  end.
End Engine.
