(* ===== verification/EngineInvariants.v ===== *)
(** EngineInvariants: what every iteration of the execution loop preserves.

    [EngineInvariant] is the interface between a predicate on the run execution
    data and the loop: a predicate with these laws holds in every state the loop
    reaches.  The pairing of the waiting maps and the plan of the run (destination,
    filter, pinned data) are instances.  The retry loop and the recording of a run
    follow. *)

From stdpp Require Import prelude list strings relations.
From Stdlib Require Import ZArith QArith Lia.
From S2P Require Import Prelude Types Traversal WorkflowClass ExecutionTypes ExecutionStack NodeRun RequestsResponse WorkflowExecute.
Local Open Scope nat_scope.

(** * The loop as a transition system *)

Definition state_of {W} (r : StepResult (W := W)) : EngineState :=
  match r with Continue st => st | Stop st _ => st | Throw st _ => st end.

Section Steps.
Context {W : Type} (env : Env W).

(** One iteration after which the loop goes on. *)
Definition engine_step (st st' : EngineState) : Prop := exec_step env st = Some (Continue st').

Definition reachable : EngineState → EngineState → Prop := rtc engine_step.

(** The loop stops in the state of the last of these iterations. *)
Lemma exec_loop_reachable fuel st r :
  exec_loop env fuel st = Some r → ∃ st', reachable st st' ∧ exec_step env st' = Some r.
Proof.
  revert st; induction fuel as [|fuel IH]; intros st; [done|]. cbn [exec_loop].
  destruct (exec_step env st) as [[st1|st1 e|st1 e]|] eqn:Hs; [|intros [= <-]; by exists st..|done].
  intros (st' & H1 & H2)%IH. exists st'. split; [|done]. by eapply rtc_l.
Qed.

(** More fuel does not change a result. *)
Lemma exec_loop_mono fuel fuel' st r :
  exec_loop env fuel st = Some r → fuel ≤ fuel' → exec_loop env fuel' st = Some r.
Proof.
  revert fuel' st; induction fuel as [|fuel IH]; intros [|fuel'] st H Hle; try done; [lia|].
  cbn [exec_loop] in *. destruct (exec_step env st) as [[]|]; try done. apply IH; [done|lia].
Qed.
End Steps.

(** * Predicates the loop preserves *)

Class EngineInvariant (P : IRunExecutionData → Prop) : Prop := {
  inv_stack s l : P s → P (with_stack s l);
  inv_runData s rd : P s → P (with_runData s rd);
  inv_lastNode s n : P s → P (with_lastNode s n);
  inv_waitTill s t : P s → P (with_waitTill s t);
  inv_add w s c o p nsd r nr meta s' :
    P s → addNodeToBeExecuted w s c o p nsd r nr meta = Ok s' → P s';
  inv_drop s name idx : P s → P (drop_waiting s name idx);
}.

(** Closes [P (with_.. (with_.. s))] from [P s]. *)
Ltac engine_inv :=
  repeat first [done | apply inv_drop | apply inv_stack | apply inv_runData
               | apply inv_lastNode | apply inv_waitTill].

Section Preserved.
Context (P : IRunExecutionData → Prop) `{!EngineInvariant P}.

Lemma enqueue_children_inv w name nsd r s s' :
  P s → enqueue_children w name nsd r s = Ok s' → P s'.
Proof.
  intros HI. unfold enqueue_children. destruct (main_conns _ _) as [slots|]; [|by intros [= <-]].
  intros ([nodesToAdd s1] & H1 & H2)%bind_Ok.
  assert (P s1) as HI1.
  { change s1 with (nodesToAdd, s1).2. revert H1. apply (foldM_inv _ (λ st, P st.2)); [|done].
    intros [l s2] [i c] st' _ HI2. unfold visit_child. destruct (negb _); [done|].
    destruct (output_delivers _ _ _ _); [|by intros [= <-]].
    destruct (is_v1 w); [by intros [= <-]|]. intros (s3 & H3 & [= <-])%bind_Ok. by eapply inv_add. }
  destruct (is_v1 w); [|by injection H2 as <-].
  revert H2. apply (foldM_inv _ P); [|done]. intros s2 n s3 _ HI2 H3. by eapply inv_add.
Qed.

Lemma check_waiting_inv gt ev w names s name step :
  P s → check_waiting_node gt ev w names s name = Ok step →
  match step with Skipped => True | Released s' | Removed s' => P s' end.
Proof.
  intros HI. unfold check_waiting_node. intros H.
  repeat (case_match || (apply bind_Ok in H as (? & ? & H)) || simplify_eq/=); first [done|engine_inv].
Qed.

Lemma scan_waiting_inv gt ev w names s l step :
  P s → scan_waiting gt ev w names s l = Ok step →
  match step with Skipped => True | Released s' | Removed s' => P s' end.
Proof.
  intros HI. induction l as [|name l IH]; cbn [scan_waiting]; [by intros [= <-]|].
  intros (st & Hst & H)%bind_Ok. apply check_waiting_inv in Hst; [|done].
  destruct st; [by apply IH|by injection H as <-|by injection H as <-].
Qed.

Lemma release_loop_inv gt ev w fuel s s' :
  P s → release_loop gt ev w fuel s = Some (Ok s') → P s'.
Proof.
  revert s; induction fuel as [|fuel IH]; intros s HI; [done|]. cbn [release_loop].
  destruct (scan_waiting _ _ _ _ _ _) as [step|e] eqn:Hscan; [|done].
  apply scan_waiting_inv in Hscan; [|done].
  destruct step; [by intros [= <-]|by intros [= <-]|by apply IH].
Qed.

Lemma release_waiting_inv gt ev w s s' :
  P s → release_waiting gt ev w s = Some (Ok s') → P s'.
Proof.
  intros HI. unfold release_waiting. destruct (nodeExecutionStack s); [by apply release_loop_inv|by intros [= <-]].
Qed.

Lemma ensureInputData_inv w n d s b s' : P s → ensureInputData w n d s = (b, s') → P s'.
Proof.
  intros HI. unfold ensureInputData. generalize (seq 0 (length (main_inputs w (n_name n)))) as l.
  induction l as [|i l IH]; cbn [ensure_inputs]; [by intros [= _ <-]|]. intros H.
  repeat (case_match || simplify_eq/=); first [by apply IH|engine_inv].
Qed.

Lemma schedule_requested_inv w s l s' : P s → foldM (schedule_requested w) s l = Ok s' → P s'.
Proof.
  intros HI. apply (foldM_inv _ P); [|done]. intros s1 n s2 _ HI1. unfold schedule_requested, throwing.
  destruct (nt_parentOutputData n); [|done]. case_match eqn:Ha; [|done]. intros [= <-]. by eapply inv_add.
Qed.

Lemma handleEngineRequest_inv w s n request r d w' s' :
  P s → handleEngineRequest w s n request r d = Ok (w', s') → P s'.
Proof.
  intros HI. unfold handleEngineRequest.
  intros ([[nodes w1] rd] & _ & H)%bind_Ok. apply bind_Ok in H as (s1 & Hall & [= <- <-]).
  eapply schedule_requested_inv; [|done]. engine_inv.
Qed.

Section Loop.
Context {W : Type} (env : Env W).

Lemma call_node_inv node i resp st r st' :
  P (ts_run st) → call_node env node i resp st = (r, st') → P (ts_run st').
Proof.
  unfold call_node. intros HI. destruct (runNode _ _ _ _ _ _ _ _ _ _ _ _ _ _ _) as [o wd].
  intros [= _ <-]. cbn. destruct (oc_waitTill o); engine_inv.
Qed.

Lemma soft_retry_inv node i tries d st r n st' :
  P (ts_run st) → soft_retry env node i tries d st = (r, n, st') → P (ts_run st').
Proof.
  revert d st; induction tries as [|tries IH]; intros d st HI; cbn [soft_retry]; [by intros [= _ _ <-]|].
  destruct (checkFailure d); [|by intros [= _ _ <-]].
  destruct (call_node env node i None st) as [r1 st1] eqn:Hc. apply call_node_inv in Hc; [|done].
  destruct r1; [by apply IH|by intros [= _ _ <-]].
Qed.

Lemma complete_try_inv node (st : TryState (W := W)) r st' :
  P (ts_run st) → complete_try node st = (r, st') → P (ts_run st').
Proof.
  unfold complete_try. intros HI H.
  repeat (case_match || simplify_eq/=); engine_inv.
Qed.

Lemma take_data_inv node st data r st' :
  P (ts_run st) → take_data env node st data = (r, st') → P (ts_run st').
Proof.
  unfold take_data. intros HI. destruct (env_convertBinary _ _ _) as [l|]; [|by apply complete_try_inv].
  case_bool_decide; [|by apply complete_try_inv].
  destruct (handleNodeErrorOutput _ _ _ _); [by apply complete_try_inv|by intros [= _ <-]].
Qed.

Lemma collect_responses_run (st : TryState (W := W)) : ts_run (collect_responses st) = ts_run st.
Proof. unfold collect_responses. by case_match. Qed.

Lemma attempt_inv node i tries st r n st' :
  P (ts_run st) → attempt env node i tries st = (r, n, st') → P (ts_run st').
Proof.
  intros HI. unfold attempt. destruct (_ ≫= _) as [pin|].
  { destruct (complete_try _ _) as [r1 st1] eqn:Hc. intros [= _ _ <-]. by apply complete_try_inv in Hc. }
  destruct (call_node _ _ _ _ _) as [r1 st1] eqn:Hc.
  apply call_node_inv in Hc; [|by rewrite collect_responses_run].
  destruct (match r1 with Ok d => _ | Err e => _ end) as [[r2 n2] st2] eqn:Hr.
  assert (P (ts_run st2)) as H2.
  { destruct r1; [by apply soft_retry_inv in Hr|by injection Hr as _ _ <-]. }
  destruct r2 as [[data|request]|e]; [| |by intros [= _ _ <-]].
  - destruct (take_data _ _ _ _) as [r3 st3] eqn:Ht. intros [= _ _ <-]. by apply take_data_inv in Ht.
  - destruct (handleEngineRequest _ _ _ _ _ _) as [[w' s']|e] eqn:Hq; intros [= _ _ <-]; [|done].
    by apply handleEngineRequest_inv in Hq.
Qed.

Lemma try_loop_inv node i fuel tries st r st' :
  P (ts_run st) → try_loop env node i fuel tries st = Some (r, st') → P (ts_run st').
Proof.
  revert tries st; induction fuel as [|fuel IH]; intros tries st HI; [done|]. cbn [try_loop].
  destruct (attempt _ _ _ _ _) as [[r1 n1] st1] eqn:Ha. apply attempt_inv in Ha; [|done].
  destruct r1; [by intros [= _ <-]|].
  assert (P (ts_run (ts_with_run st1 (with_lastNode (ts_run st1) (n_name node))))) as H1 by (cbn; engine_inv).
  destruct n1; [by intros [= _ <-]|by apply IH].
Qed.

Lemma after_record_inv st node d i outputs error r :
  P (es_run st) → after_record env st node d i outputs error = Some r → P (es_run (state_of r)).
Proof.
  unfold after_record, push_stack. intros HI.
  case_bool_decide; [intros [= <-]; cbn; engine_inv|].
  case_bool_decide; [by intros [= <-]|].
  destruct (enqueue_children _ _ _ _ _) as [s1|m] eqn:He; [|by intros [= <-]].
  apply enqueue_children_inv in He; [|done].
  destruct (release_waiting _ _ _ _) as [[s2|m]|] eqn:Hr; intros [= <-]; cbn; [|done].
  by apply release_waiting_inv in Hr.
Qed.

Lemma finish_node_inv st node d i ix src nsd error r :
  P (es_run st) → finish_node env st node d i ix src nsd error = Some r → P (es_run (state_of r)).
Proof.
  unfold finish_node, record_task, push_stack. intros HI.
  assert (P (if jm_has (runData (es_run st)) (n_name node) then es_run st
    else with_runData (es_run st) (jm_set (runData (es_run st)) (n_name node) []))) as H0
    by (case_match; engine_inv).
  revert H0. generalize (if jm_has (runData (es_run st)) (n_name node) then es_run st
    else with_runData (es_run st) (jm_set (runData (es_run st)) (n_name node) [])) as s0. intros s0 H0.
  destruct error as [e|].
  - destruct (negb (continues_on_error node)); [intros [= <-]; cbn; engine_inv|].
    destruct (merge_errors _); [|intros [= <-]; done].
    apply after_record_inv. cbn. engine_inv.
  - destruct (merge_errors _); [|intros [= <-]; done].
    apply after_record_inv. cbn. engine_inv.
Qed.

Lemma exec_step_inv st r : P (es_run st) → exec_step env st = Some r → P (es_run (state_of r)).
Proof.
  unfold exec_step. intros HI. destruct (nodeExecutionStack (es_run st)) as [|d l]; [by intros [= <-]|].
  destruct (env_canceled _ _); [by intros [= <-]|].
  assert (P (es_run (es_with_run st (with_stack (es_run st) l)))) as H1 by (cbn; engine_inv).
  revert H1. generalize (es_with_run st (with_stack (es_run st) l)) as st1. clear st HI. intros st HI.
  unfold exec_entry. destruct (x_node d) as [node|]; [|by intros [= <-]].
  case_bool_decide; [by intros [= <-]|]. cbn [es_run].
  destruct (match runNodeFilter (es_run st) with Some f => _ | None => _ end); [by intros [= <-]|].
  destruct (ensureInputData _ _ _ _) as [b s1] eqn:He. apply ensureInputData_inv in He; [|done].
  destruct (negb b); [by intros [= <-]|].
  destruct (run_tries _ _ _ _) as [[r1 t]|] eqn:Ht; [|done].
  apply try_loop_inv in Ht; [|done].
  destruct r1 as [[]|e]; try (by intros [= <-]); by apply finish_node_inv.
Qed.

Lemma reachable_inv st st' : P (es_run st) → reachable env st st' → P (es_run st').
Proof.
  intros HI. induction 1 as [|st1 st2 st3 Hs _ IH]; [done|]. apply IH. by apply exec_step_inv in Hs.
Qed.
End Loop.
End Preserved.

#[export] Instance waiting_inv_engine : EngineInvariant waiting_inv.
Proof.
  split; [by intros s l [] ..| |].
  - intros. by eapply addNodeToBeExecuted_waiting_inv_aux.
  - intros. by apply drop_waiting_inv.
Qed.

(** What is fixed when the run starts. *)
Definition plan_of (s : IRunExecutionData) :=
  (destinationNode s, runNodeFilter s, r_pinData s, execMetadata s).

#[export] Instance plan_engine p : EngineInvariant (λ s, plan_of s = p).
Proof.
  split; [done..| |done]. intros w s c o q nsd r nr meta s' <-. unfold addNodeToBeExecuted.
  destruct (1 <? _).
  2:{ intros [= <-]. unfold add_directly. by destruct (jm_get _ _). }
  destruct (select_waiting_entry _ _ _ _) as [idx s1] eqn:Hsel.
  assert (plan_of s1 = plan_of s) as H1.
  { unfold select_waiting_entry in Hsel. case_match; by injection Hsel as <- <-. }
  destruct (all_data_found _ _ _); [by intros [= <-]|].
  intros (s3 & Hs3 & [= <-])%bind_Ok. cbn. rewrite <- H1.
  destruct (jm_has _ _); [by injection Hs3 as <-|].
  apply bind_Ok in Hs3 as (outs & _ & ->%check_inputs_same). done.
Qed.

(** * Which nodes run *)

Section Filter.
Context {W : Type} (env : Env W).

Lemma after_record_trace st node d i outputs error r :
  after_record env st node d i outputs error = Some r → es_trace (state_of r) = es_trace st.
Proof.
  unfold after_record. intros H. repeat (case_match || case_bool_decide || simplify_eq/=); done.
Qed.

Lemma finish_node_trace st node d i ix src nsd error r :
  finish_node env st node d i ix src nsd error = Some r → es_trace (state_of r) = es_trace st.
Proof.
  unfold finish_node. intros H.
  repeat (case_match || simplify_eq/=); try done; by apply after_record_trace in H.
Qed.

(** An iteration runs at most one node, the one at the head of the stack, which the filter lets pass. *)
Lemma exec_step_trace st r :
  exec_step env st = Some r →
  es_trace (state_of r) = es_trace st ∨
  ∃ d l n, nodeExecutionStack (es_run st) = d :: l ∧ x_node d = Some n ∧
    es_trace (state_of r) = n_name n :: es_trace st ∧
    ∀ f, runNodeFilter (es_run st) = Some f → n_name n ∈ f.
Proof.
  unfold exec_step. destruct (nodeExecutionStack (es_run st)) as [|d l]; [intros [= <-]; by left|].
  destruct (env_canceled _ _); [intros [= <-]; by left|]. unfold exec_entry.
  destruct (x_node d) as [node|] eqn:Hn; [|intros [= <-]; by left].
  case_bool_decide; [intros [= <-]; by left|]. cbn [es_run es_with_run runNodeFilter with_stack].
  destruct (match runNodeFilter (es_run st) with Some f => _ | None => _ end) eqn:Hf; [intros [= <-]; by left|].
  destruct (ensureInputData _ _ _ _) as [b s1]. destruct (negb b); [intros [= <-]; by left|].
  destruct (run_tries _ _ _ _) as [[r1 t]|]; [|done]. intros Hr. right. exists d, l, node.
  split; [done|]. split; [done|]. split.
  - destruct r1 as [[]|e]; try (by injection Hr as <-); by apply finish_node_trace in Hr.
  - intros f Hsf. rewrite Hsf in Hf. by apply negb_false_iff, bool_decide_eq_true in Hf.
Qed.

Lemma trace_filtered f st st' :
  runNodeFilter (es_run st) = Some f → Forall (λ n, n ∈ f) (es_trace st) → reachable env st st' →
  runNodeFilter (es_run st') = Some f ∧ Forall (λ n, n ∈ f) (es_trace st').
Proof.
  intros Hf Ht. induction 1 as [|st1 st2 st3 Hs _ IH]; [done|]. apply IH.
  - apply (exec_step_inv (λ s, plan_of s = plan_of (es_run st1)) env) in Hs; [|done].
    unfold plan_of in Hs. cbn in Hs. congruence.
  - apply exec_step_trace in Hs as [Hs|(d & l & n & _ & _ & Hs & Hin)]; cbn in Hs; rewrite Hs; [done|].
    constructor; [by apply Hin|done].
Qed.

Lemma step_trace_filtered f st r :
  runNodeFilter (es_run st) = Some f → Forall (λ n, n ∈ f) (es_trace st) → exec_step env st = Some r →
  Forall (λ n, n ∈ f) (es_trace (state_of r)).
Proof.
  intros Hf Ht Hs. apply exec_step_trace in Hs as [->|(d & l & n & _ & _ & -> & Hin)]; [done|].
  constructor; [by apply Hin|done].
Qed.
End Filter.

(** The state in which [processRunExecutionData] enters the loop. *)
Definition engine_init {W} (wd : W) (w : Workflow) (s : IRunExecutionData) : EngineState :=
  mkEngine wd w s 0 None None [].

(** A run with a destination node only ever runs the destination, when it is inclusive, the nodes a
    path of main or of non-main connections leads to it from, and the extra nodes of the caller; with
    an exclusive destination the destination itself is never run. *)
Theorem destination_run_only_ancestors {W} (env : Env W) gt wd w start d pin trigger extra s0 fuel r :
  run_init gt w start (Some d) pin trigger extra = Ok s0 →
  exec_loop env fuel (engine_init wd w s0) = Some r →
  ∀ n, n ∈ es_trace (state_of r) →
    (n = dn_nodeName d ∧ dn_mode d = inclusive) ∨ n ∈ extra ∨
    (n ≠ dn_nodeName d ∧
      (rtc (edge (connectionsByDestinationNode w) (OfType Main)) (dn_nodeName d) n ∨
       rtc (edge (connectionsByDestinationNode w) ALL_NON_MAIN) (dn_nodeName d) n)).
Proof.
  unfold run_init. intros (n0 & _ & H)%bind_Ok. apply bind_Ok in H as (n1 & _ & [= <-]).
  intros (st & Hreach & Hstep)%exec_loop_reachable n Hn.
  eapply (trace_filtered env (run_filter w d extra)) in Hreach as [Hf Htr]; [|done|constructor].
  pose proof (step_trace_filtered env _ st r Hf Htr Hstep) as Hall.
  rewrite Forall_forall in Hall. apply Hall in Hn. unfold run_filter in Hn.
  rewrite js_of_list_elem, !elem_of_app in Hn.
  unfold w_getParentNodes, getParentNodes in Hn. rewrite !connected_elem in Hn.
  destruct Hn as [[? ?]|[[? ?]|[Hd|?]]]; [right; right; split; tauto|right; right; split; tauto| |by right; left].
  - destruct (dn_mode d); [|by apply not_elem_of_nil in Hd].
    apply list_elem_of_singleton in Hd as ->. by left.
Qed.

(** * Every iteration completes *)

Section Total.
Context {W : Type} (env : Env W).

(** Every call is paid for by the tries that remain: [tries] before and [n] after the attempt. *)
Lemma soft_retry_calls node i tries d st r n st' :
  soft_retry env node i tries d st = (r, n, st') →
  n ≤ tries ∧
  match r with
  | Ok _ => ts_calls st' + n = ts_calls st + tries
  | Err _ => n ≠ 0 ∧ ts_calls st' + n = ts_calls st + tries + 1
  end.
Proof.
  revert d st; induction tries as [|tries IH]; intros d st; cbn [soft_retry]; [by intros [= <- <- <-]|].
  destruct (checkFailure d); [|by intros [= <- <- <-]].
  destruct (call_node env node i None st) as [r1 st1] eqn:Hc.
  assert (ts_calls st1 = S (ts_calls st)) as H1.
  { unfold call_node in Hc. destruct (runNode _ _ _ _ _ _ _ _ _ _ _ _ _ _ _) as [o wd]. by injection Hc as _ <-. }
  destruct r1 as [d1|e].
  - intros H%IH. destruct H as [? H]. split; [lia|]. destruct r; [lia|destruct H; lia].
  - intros [= <- <- <-]. lia.
Qed.

Lemma complete_try_calls node (st : TryState (W := W)) r st' :
  complete_try node st = (r, st') → ts_calls st' = ts_calls st.
Proof. unfold complete_try. intros H. repeat (case_match || simplify_eq/=); done. Qed.

Lemma take_data_calls node st data r st' :
  take_data env node st data = (r, st') → ts_calls st' = ts_calls st.
Proof.
  unfold take_data. destruct (env_convertBinary _ _ _) as [l|]; [|by intros H%complete_try_calls].
  case_bool_decide; [|by intros H1%complete_try_calls].
  destruct (handleNodeErrorOutput _ _ _ _); [by intros H1%complete_try_calls|by intros [= _ <-]].
Qed.

Lemma attempt_calls node i tries st r n st' :
  attempt env node i tries st = (r, n, st') →
  n ≤ tries ∧ ts_calls st' + n ≤ ts_calls st + tries + 2 ∧
  (n = 0 ∨ (∃ o, r = Ok o) → ts_calls st' + n ≤ ts_calls st + tries + 1).
Proof.
  unfold attempt. destruct (_ ≫= _) as [pin|].
  { destruct (complete_try _ _) as [r1 st1] eqn:Hc. intros [= <- <- <-]. apply complete_try_calls in Hc.
    cbn in Hc. lia. }
  destruct (call_node _ _ _ _ _) as [r1 st1] eqn:Hc.
  assert (ts_calls st1 = S (ts_calls st)) as H1.
  { unfold call_node in Hc. destruct (runNode _ _ _ _ _ _ _ _ _ _ _ _ _ _ _) as [o wd]. injection Hc as _ <-.
    cbn. unfold collect_responses. by case_match. }
  destruct (match r1 with Ok d => _ | Err e => _ end) as [[r2 n2] st2] eqn:Hr.
  assert (n2 ≤ tries ∧ ts_calls st2 + n2 ≤ ts_calls st + tries + 2 ∧
    (n2 = 0 ∨ (∃ o, r2 = Ok o) → ts_calls st2 + n2 ≤ ts_calls st + tries + 1)) as (Ha & Hb & Hok).
  { destruct r1; [|injection Hr as <- <- <-; lia]. apply soft_retry_calls in Hr as [? Hr].
    destruct r2 as [|e2]; [lia|]. destruct Hr. split_and!; [lia|lia|]. intros [?|[o [=]]]. lia. }
  destruct r2 as [[data|request]|e].
  - assert (ts_calls st2 + n2 ≤ ts_calls st + tries + 1) as H2 by (apply Hok; eauto).
    destruct (take_data _ _ _ _) as [r3 st3] eqn:Ht. intros [= <- <- <-]. apply take_data_calls in Ht. lia.
  - assert (ts_calls st2 + n2 ≤ ts_calls st + tries + 1) as H2 by (apply Hok; eauto).
    destruct (handleEngineRequest _ _ _ _ _ _) as [[w' s']|e] eqn:Hq; intros [= <- <- <-]; cbn; lia.
  - intros [= <- <- <-]. split_and!; [done|done|]. intros [?|[o [=]]]. apply Hok. by left.
Qed.

Lemma try_loop_calls node i fuel tries st :
  tries < fuel →
  ∃ r st', try_loop env node i fuel tries st = Some (r, st') ∧ ts_calls st' ≤ ts_calls st + (2 * tries + 1).
Proof.
  revert tries st; induction fuel as [|fuel IH]; intros tries st Hf; [lia|]. cbn [try_loop].
  destruct (attempt _ _ _ _ _) as [[r n] st1] eqn:Ha. apply attempt_calls in Ha as (H1 & H2 & H3).
  destruct r as [o|e].
  - eexists _, _. split; [done|]. specialize (H3 ltac:(eauto)). lia.
  - destruct n as [|n].
    + eexists _, _. split; [done|]. cbn. specialize (H3 ltac:(by left)). lia.
    + destruct (IH n (ts_with_run st1 (with_lastNode (ts_run st1) (n_name node)))) as (r & st' & Hl & Hc); [lia|].
      exists r, st'. split; [done|]. cbn in Hc. lia.
Qed.

Lemma maxTries_bounds node :
  1 ≤ maxTries node ≤ 5 ∧ (n_retryOnFail node ≠ Some true → maxTries node = 1).
Proof.
  unfold maxTries. case_bool_decide; [|lia]. split; [lia|done].
Qed.

Lemma run_tries_total node i st :
  ∃ r st', run_tries env node i st = Some (r, st') ∧ ts_calls st' ≤ ts_calls st + (2 * maxTries node - 1).
Proof.
  unfold run_tries. pose proof (maxTries_bounds node) as [[H _] _].
  destruct (try_loop_calls node i (maxTries node) (maxTries node - 1) st) as (r & st' & ? & ?); [lia|].
  exists r, st'. split; [done|lia].
Qed.

Lemma after_record_total st node d i outputs error :
  waiting_inv (es_run st) → is_Some (after_record env st node d i outputs error).
Proof.
  intros HI. unfold after_record. case_bool_decide; [by eexists|]. case_bool_decide; [by eexists|].
  destruct (enqueue_children _ _ _ _ _) as [s1|m] eqn:He; [|by eexists].
  apply (enqueue_children_inv waiting_inv) in He; [|done].
  unfold release_waiting. destruct (nodeExecutionStack s1); [|by eexists].
  destruct (release_loop_spec (env_types env) (env_required env) (es_workflow st)
    (S (runs_total (waitingExecution s1))) s1 He) as (r & -> & _); [lia|].
  destruct r; by eexists.
Qed.

Lemma finish_node_total st node d i ix src nsd error :
  waiting_inv (es_run st) → is_Some (finish_node env st node d i ix src nsd error).
Proof.
  intros HI. unfold finish_node, record_task.
  assert (∀ rd, waiting_inv (with_runData (es_run st) rd)) as HI2 by (intros; by apply (inv_runData (P := waiting_inv))).
  destruct (jm_has _ _); destruct error as [e|]; try destruct (negb (continues_on_error node));
    try (destruct (merge_errors _); [|by eexists]); try (by eexists); apply after_record_total;
    apply HI2 || done.
Qed.

Lemma exec_step_total st : waiting_inv (es_run st) → is_Some (exec_step env st).
Proof.
  intros HI. unfold exec_step. destruct (nodeExecutionStack (es_run st)) as [|d l]; [by eexists|].
  destruct (env_canceled _ _); [by eexists|].
  assert (waiting_inv (es_run (es_with_run st (with_stack (es_run st) l)))) as H1
    by (by apply (inv_stack (P := waiting_inv))).
  revert H1. generalize (es_with_run st (with_stack (es_run st) l)) as st1. clear st HI. intros st HI.
  unfold exec_entry. destruct (x_node d) as [node|]; [|by eexists].
  case_bool_decide; [by eexists|]. cbn [es_run].
  destruct (match runNodeFilter (es_run st) with Some f => _ | None => _ end); [by eexists|].
  destruct (ensureInputData _ _ _ _) as [b s1] eqn:He. apply (ensureInputData_inv waiting_inv) in He; [|done].
  destruct (negb b); [by eexists|].
  match goal with |- context [run_tries env ?n ?i ?t] =>
    destruct (run_tries_total n i t) as (r1 & t1 & Ht & _) end.
  rewrite Ht. apply (try_loop_inv waiting_inv) in Ht; [|done].
  destruct r1 as [[]|e]; try (by eexists); by apply finish_node_total.
Qed.
End Total.

(** C3: from the start of a run, every iteration of the loop completes, retries and release of waiting
    nodes included, and in every state the loop reaches, and in the one it ends in, the waiting data
    and the waiting sources are paired and no complete entry is left waiting. *)
Theorem every_iteration_completes {W} (env : Env W) gt wd w start d pin trigger extra s0 st :
  run_init gt w start d pin trigger extra = Ok s0 →
  reachable env (engine_init wd w s0) st →
  waiting_inv (es_run st) ∧
  ∃ r, exec_step env st = Some r ∧ waiting_inv (es_run (state_of r)).
Proof.
  unfold run_init. intros (n0 & _ & H)%bind_Ok. apply bind_Ok in H as (n1 & _ & [= <-]). intros Hr.
  apply (reachable_inv waiting_inv) in Hr; [|by split]. split; [done|].
  destruct (exec_step_total env st Hr) as [r Hs]. exists r. split; [done|].
  by apply (exec_step_inv waiting_inv) in Hs.
Qed.

(** The retry loop terminates; a node is called at most once when it is not retried, and otherwise
    fewer than [2 * maxTries] times, where [maxTries] is between 1 and 5. *)
Theorem retries_bounded {W} (env : Env W) node i st :
  ∃ r st', run_tries env node i st = Some (r, st') ∧
    ts_calls st' ≤ ts_calls st + (2 * maxTries node - 1) ∧
    1 ≤ maxTries node ≤ 5 ∧
    (n_retryOnFail node ≠ Some true → ts_calls st' ≤ ts_calls st + 1).
Proof.
  destruct (run_tries_total env node i st) as (r & st' & H1 & H2).
  destruct (maxTries_bounds node) as [Hb Hone]. exists r, st'. split_and!; [done|done|lia|lia|].
  intros H. rewrite (Hone H) in H2. lia.
Qed.

(** * What a try leaves alone *)

(** The part of the run execution data that schedules and records. *)
Definition sched (s : IRunExecutionData) :=
  (nodeExecutionStack s, waitingExecution s, waitingExecutionSource s, runData s).

(** A stack entry but for its metadata. *)
Definition entry_of (d : IExecuteData) := (x_node d, x_data d, x_source d, x_runIndex d).

Section Keeps.
Context {W : Type} (env : Env W).

(** Only the world, the metadata of the entry, the last node and the time to wait until change. *)
Record keeps (st st' : TryState (W := W)) : Prop := {
  kp_sched : sched (ts_run st') = sched (ts_run st);
  kp_plan : plan_of (ts_run st') = plan_of (ts_run st);
  kp_entry : entry_of (ts_exec st') = entry_of (ts_exec st);
  kp_workflow : ts_workflow st' = ts_workflow st;
}.

#[export] Instance keeps_preorder : PreOrder keeps.
Proof. split; [by split|]. intros st1 st2 st3 [] []. split; congruence. Qed.

Lemma entry_add_tracing d tags : entry_of (add_tracing d tags) = entry_of d.
Proof. by destruct tags. Qed.

Lemma runNode_entry gt co ce cp ct cd te manual w wd node d s i resp o wd' :
  runNode (W := W) gt co ce cp ct cd te manual w wd node d s i resp = (o, wd') →
  entry_of (oc_exec o) = entry_of d.
Proof.
  unfold runNode. intros H.
  repeat (case_match || case_bool_decide || simplify_eq); cbn; rewrite ?entry_add_tracing; done.
Qed.

Lemma call_node_keeps node i resp st r st' : call_node env node i resp st = (r, st') → keeps st st'.
Proof.
  unfold call_node. destruct (runNode _ _ _ _ _ _ _ _ _ _ _ _ _ _ _) as [o wd] eqn:Hr.
  apply runNode_entry in Hr. intros [= _ <-].
  split; cbn; try (by destruct (oc_waitTill o)); done.
Qed.

Lemma soft_retry_keeps node i tries d st r n st' :
  soft_retry env node i tries d st = (r, n, st') → keeps st st'.
Proof.
  revert d st; induction tries as [|tries IH]; intros d st; cbn [soft_retry]; [by intros [= _ _ <-]|].
  destruct (checkFailure d); [|by intros [= _ _ <-]].
  destruct (call_node env node i None st) as [r1 st1] eqn:Hc. apply call_node_keeps in Hc.
  destruct r1; [intros ?%IH; by etrans|by intros [= _ _ <-]].
Qed.

Lemma complete_try_keeps node (st : TryState (W := W)) r st' :
  complete_try node st = (r, st') → keeps st st' ∧ r ≠ Ok TryRequest.
Proof. unfold complete_try. intros H. repeat (case_match || simplify_eq/=); done. Qed.

Lemma take_data_keeps node st data r st' :
  take_data env node st data = (r, st') → keeps st st' ∧ r ≠ Ok TryRequest.
Proof.
  assert (∀ st0, keeps st st0 → complete_try node st0 = (r, st') → keeps st st' ∧ r ≠ Ok TryRequest) as H.
  { intros st0 H0 [? ?]%complete_try_keeps. split; [by etrans|done]. }
  unfold take_data. destruct (env_convertBinary _ _ _) as [l|]; [|by apply H].
  case_bool_decide; [|by apply H].
  destruct (handleNodeErrorOutput _ _ _ _); [by apply H|by intros [= <- <-]].
Qed.

Lemma collect_responses_keeps st : keeps st (collect_responses st).
Proof. unfold collect_responses. by case_match. Qed.

Lemma attempt_keeps node i tries st r n st' :
  attempt env node i tries st = (r, n, st') → r ≠ Ok TryRequest → keeps st st'.
Proof.
  unfold attempt. destruct (_ ≫= _) as [pin|].
  { destruct (complete_try _ _) as [r1 st1] eqn:Hc. intros [= _ _ <-] _.
    apply complete_try_keeps in Hc as [? _]. etrans; [|done]. by split. }
  destruct (call_node _ _ _ _ _) as [r1 st1] eqn:Hc. apply call_node_keeps in Hc.
  destruct (match r1 with Ok d => _ | Err e => _ end) as [[r2 n2] st2] eqn:Hr.
  assert (keeps st st2) as H2.
  { trans st1; [by etrans; [apply collect_responses_keeps|]|].
    destruct r1; [by apply soft_retry_keeps in Hr|by injection Hr as _ _ <-]. }
  destruct r2 as [[data|request]|e]; [| |by intros [= _ _ <-]].
  - destruct (take_data _ _ _ _) as [r3 st3] eqn:Ht. intros [= _ _ <-] _.
    apply take_data_keeps in Ht as [? _]. by etrans.
  - destruct (handleEngineRequest _ _ _ _ _ _) as [[w' s']|e] eqn:Hq; [by intros [= <- _ _]|by intros [= _ _ <-]].
Qed.

Lemma try_loop_keeps node i fuel tries st r st' :
  try_loop env node i fuel tries st = Some (r, st') → r ≠ Ok TryRequest →
  keeps st st' ∧ (∀ e, r = Err e → lastNodeExecuted (ts_run st') = Some (n_name node)).
Proof.
  revert tries st; induction fuel as [|fuel IH]; intros tries st; [done|]. cbn [try_loop].
  destruct (attempt _ _ _ _ _) as [[r1 n1] st1] eqn:Ha. destruct r1 as [o|e].
  - intros [= <- <-] Hne. split; [by eapply attempt_keeps|done].
  - apply attempt_keeps in Ha; [|done].
    assert (keeps st (ts_with_run st1 (with_lastNode (ts_run st1) (n_name node)))) as H1 by (trans st1; [done|by split]).
    destruct n1; [by intros [= <- <-] _|]. intros Hl Hne. apply IH in Hl as [? ?]; [|done].
    split; [by etrans|done].
Qed.
End Keeps.

(** * A failing node *)

Lemma ensureInputData_true w n d s s' : ensureInputData w n d s = (true, s') → s' = s.
Proof.
  unfold ensureInputData. generalize (seq 0 (length (main_inputs w (n_name n)))) as l.
  induction l as [|i l IH]; cbn [ensure_inputs]; [by intros [= <-]|]. intros H.
  repeat (case_match || simplify_eq/=); auto.
Qed.

Lemma record_task_spec s name i task :
  i ≤ length (runs_of (runData s) name) →
  (∃ task', runs_of (runData (record_task s name i task)) name !! i = Some task' ∧
     td_executionStatus task' = or_else (td_executionStatus task) (td_executionStatus task') ∧
     td_error task' = or_else (td_error task) (td_error task')) ∧
  (∀ name', name' ≠ name → runs_of (runData (record_task s name i task)) name' = runs_of (runData s) name') ∧
  (∀ j, j ≠ i → runs_of (runData (record_task s name i task)) name !! j = runs_of (runData s) name !! j).
Proof.
  intros Hi. unfold record_task. cbn [runData with_runData].
  fold (runs_of (runData s) name). destruct (runs_of (runData s) name !! i) as [cur|] eqn:Hc.
  - split_and!.
    + exists (task_assign cur task). rewrite runs_of_set, decide_True by done.
      rewrite list_lookup_insert_eq by (by eapply lookup_lt_Some). split; [done|]. cbn.
      by destruct (td_executionStatus task), (td_error task).
    + intros name' Hne. by rewrite runs_of_set, decide_False.
    + intros j Hj. rewrite runs_of_set, decide_True by done. by apply list_lookup_insert_ne.
  - apply lookup_ge_None_1 in Hc. assert (i = length (runs_of (runData s) name)) as -> by lia. split_and!.
    + exists task. rewrite runs_of_set, decide_True by done. rewrite lookup_app_r, Nat.sub_diag by done.
      split; [done|]. by destruct (td_executionStatus task), (td_error task).
    + intros name' Hne. by rewrite runs_of_set, decide_False.
    + intros j Hj. rewrite runs_of_set, decide_True by done.
      destruct (decide (j < length (runs_of (runData s) name))); [by rewrite lookup_app_l|].
      rewrite !lookup_ge_None_2; [done|lia|rewrite length_app; simpl; lia].
Qed.

Section Failing.
Context {W : Type} (env : Env W).

(** An iteration that stops the loop has recorded a run. *)
Lemma exec_entry_stop st d st' e :
  exec_entry env st d = Some (Stop st' e) →
  ∃ node t res, x_node d = Some node ∧ keeps (W := W)
      (mkTry (es_world st) (es_workflow st) (pair_inputs d) (es_run st) makeEngineResponse None 0) t ∧
    (is_Some res → lastNodeExecuted (ts_run t) = Some (n_name node)) ∧
    finish_node env (mkEngine (ts_world t) (ts_workflow t) (ts_run t) (S (es_executionIndex st)) (es_lastTry st) None
      (n_name node :: es_trace st)) node (ts_exec t) (run_index (es_run st) d (n_name node))
      (es_executionIndex st) (match x_source d with Some src => main_of src | None => [] end) (ts_nsd t) res
      = Some (Stop st' e).
Proof.
  unfold exec_entry. destruct (x_node d) as [node|] eqn:Hn; [|done].
  case_bool_decide; [done|]. cbn [es_run].
  destruct (match runNodeFilter (es_run st) with Some f => _ | None => _ end); [done|].
  destruct (ensureInputData _ _ _ _) as [b s1] eqn:He. destruct b; [|done]. cbn [negb].
  apply ensureInputData_true in He as ->.
  destruct (run_tries _ _ _ _) as [[r1 t]|] eqn:Ht; [|done].
  destruct r1 as [[]|e1]; try done; intros Hf; apply try_loop_keeps in Ht as [Hk Hl]; try done.
  - exists node, t, None. split_and!; try done.
  - exists node, t, (Some e1). split_and!; eauto.
Qed.

Lemma after_record_stop st node d i outputs error st' e :
  after_record env st node d i outputs error = Some (Stop st' e) → is_Some (waitTill (es_run st')).
Proof.
  unfold after_record. intros H. repeat (case_match || case_bool_decide || simplify_eq/=); done.
Qed.

(** A run that stops the workflow: the entry is back on the stack, the failure is recorded. *)
Lemma finish_node_stop st node d i ix src nsd error st' e :
  finish_node env st node d i ix src nsd error = Some (Stop st' (Some e)) → waitTill (es_run st') = None →
  error = Some e ∧ continues_on_error node = false ∧
  nodeExecutionStack (es_run st') = d :: nodeExecutionStack (es_run st) ∧
  waitingExecution (es_run st') = waitingExecution (es_run st) ∧
  waitingExecutionSource (es_run st') = waitingExecutionSource (es_run st) ∧
  lastNodeExecuted (es_run st') = lastNodeExecuted (es_run st) ∧
  (i ≤ length (runs_of (runData (es_run st)) (n_name node)) →
    (∃ t, runs_of (runData (es_run st')) (n_name node) !! i = Some t ∧
      td_error t = Some e ∧ td_executionStatus t = Some st_error) ∧
    (∀ name j, (name, j) ≠ (n_name node, i) →
      runs_of (runData (es_run st')) name !! j = runs_of (runData (es_run st)) name !! j)).
Proof.
  unfold finish_node. intros H Hw. destruct error as [e0|].
  2:{ destruct (merge_errors _); [|done]. apply after_record_stop in H. rewrite Hw in H. by destruct H. }
  destruct (continues_on_error node) eqn:Hc; cbn [negb] in H.
  { destruct (merge_errors _); [|done]. apply after_record_stop in H. rewrite Hw in H. by destruct H. }
  injection H as <- ->. split; [done|]. split; [done|].
  set (s0 := if jm_has (runData (es_run st)) (n_name node) then _ else _).
  assert (∀ name, runs_of (runData s0) name = runs_of (runData (es_run st)) name) as Hruns.
  { intros name. unfold s0, jm_has. destruct (jm_get _ _) eqn:Hg; [done|].
    cbn [runData with_runData]. rewrite runs_of_set.
    case_decide as Hd; [|done]. subst. unfold runs_of. by rewrite Hg. }
  split_and!; try (unfold s0; by destruct (jm_has _ _)).
  intros Hi. rewrite <- Hruns in Hi.
  destruct (record_task_spec s0 (n_name node) i (failed_task node s0 i
    (mkTask ix src (Some st_error) None None (Some e) (x_metadata d)) e) Hi) as ((t & H1 & H2 & H3) & H4 & H5).
  split.
  - exists t. split; [done|]. unfold failed_task in H2, H3. by destruct (n_rewireOutputLogTo node).
  - intros name j Hne. rewrite <- Hruns. destruct (decide (name = n_name node)) as [->|Hnn].
    + apply H5. congruence.
    + cbn [es_run es_with_run runData push_stack with_stack]. by rewrite H4.
Qed.
End Failing.

(** C36: when the error of a node stops the workflow, the entry of the node is back on top of the stack
    with its input data and source, so that the execution can be resumed at that node; nothing else on
    the stack and nothing that waits has changed, the run is recorded with the error, and no other
    recorded run has changed. *)
Theorem failing_node_stops {W} (env : Env W) st st' e :
  exec_step env st = Some (Stop st' (Some e)) → waitTill (es_run st') = None →
  ∃ d l node d', nodeExecutionStack (es_run st) = d :: l ∧ x_node d = Some node ∧
    continues_on_error node = false ∧
    nodeExecutionStack (es_run st') = d' :: l ∧ entry_of d' = entry_of (pair_inputs d) ∧
    waitingExecution (es_run st') = waitingExecution (es_run st) ∧
    waitingExecutionSource (es_run st') = waitingExecutionSource (es_run st) ∧
    lastNodeExecuted (es_run st') = Some (n_name node) ∧
    let i := run_index (es_run st) d (n_name node) in
    (i ≤ length (runs_of (runData (es_run st)) (n_name node)) →
      (∃ t, runs_of (runData (es_run st')) (n_name node) !! i = Some t ∧
        td_error t = Some e ∧ td_executionStatus t = Some st_error) ∧
      (∀ name j, (name, j) ≠ (n_name node, i) →
        runs_of (runData (es_run st')) name !! j = runs_of (runData (es_run st)) name !! j)).
Proof.
  intros H Hw. unfold exec_step in H.
  destruct (nodeExecutionStack (es_run st)) as [|d l] eqn:Hst; [done|]. destruct (env_canceled _ _); [done|].
  apply exec_entry_stop in H as (node & t & res & Hn & [Hs _ He _] & Hl & Hf).
  apply finish_node_stop in Hf as (-> & Hc & H1 & H2 & H3 & H4 & H5); [|done].
  cbn [es_run] in *. unfold sched in Hs. cbn [ts_run] in Hs. injection Hs as Hs1 Hs2 Hs3 Hs4.
  cbn [es_run es_with_run nodeExecutionStack waitingExecution waitingExecutionSource runData with_stack] in *.
  exists d, l, node, (ts_exec t). rewrite H1, Hs1, H2, Hs2, H3, Hs3, H4, Hl by done.
  rewrite Hs4 in H5. split_and!; done.
Qed.

(** * A concrete environment *)

Definition plain_type : INodeType := mkNodeType set_description true false false false false.

(** Nodes that answer by the number of calls made so far. *)
Definition scripted_env (script : nat → INode → Items → result ExecutionError RunNodeResult) : Env nat := {|
  env_types := λ _ _, Some plain_type;
  env_customOperations := λ _, [];
  env_execute := λ n node _ input _ _ _, (mkCall (script n node input) [] None, S n);
  env_poll := λ n _, (mkCall (Ok (RData None)) [] None, n);
  env_trigger := λ n _, (None, n);
  env_declarative := λ n _ _ _ _ _, (mkCall (Ok (RData None)) [] None, n);
  env_telemetry := λ _ _ _, None;
  env_manual := false;
  env_mainOutputs := λ _ _, 1;
  env_pairedItem := λ _ _ _ _, Ok None;
  env_convertBinary := λ _ d, d;
  env_required := λ _ _, None;
  env_canceled := λ _, false;
|}.

(** Every node passes its input on. *)
Definition identity_env : Env nat := scripted_env (λ _ _ input, Ok (RData (Some [SVal input]))).

Definition broken : ExecutionError := mkError "Error" "broken".

(** Every other call fails softly, with an error in the data; the others throw. *)
Definition alternating_env : Env nat :=
  scripted_env (λ n _ _, if Nat.even n then Ok (RData (Some [SVal [failed_item "soft"]])) else Err broken).

Definition retried_node (tries : option Z) : INode :=
  mkNode "r" "r" "set" 1 (0, 0)%Z None [] (Some true) tries None None None None None None.

Definition first_try (node : INode) : TryState (W := nat) :=
  mkTry 0 chain_workflow (mkExecute (Some node) (only_main [SVal one_item]) None None None) empty_run
    makeEngineResponse None 0.

(** A call that throws while a soft failure is being retried does not count as a try: a node with at
    most 3 tries is called 5 times. *)
Theorem retries_exceed_maxTries :
  maxTries (retried_node (Some 3%Z)) = 3 ∧
  ∃ r st', run_tries alternating_env (retried_node (Some 3%Z)) 0 (first_try (retried_node (Some 3%Z)))
             = Some (r, st') ∧ ts_calls st' = 5.
Proof. split; [reflexivity|]. eexists _, _. split; [vm_compute; reflexivity|reflexivity]. Qed.

(** A node that goes on when it fails, run alone. *)
Definition tolerant_node : INode :=
  mkNode "r" "r" "set" 1 (0, 0)%Z None [] None None None None None (Some "continueRegularOutput") None None.

(** Every node throws. *)
Definition failing_env : Env nat := scripted_env (λ _ _ _, Err broken).

Definition tolerant_run : option StepResult :=
  exec_loop failing_env 3 (engine_init 0 (make_workflow [tolerant_node] [] None (Some "v1"))
    (new_run [mkExecute (Some tolerant_node) (only_main [SVal one_item]) None None None] None None None)).

(** The execution has failed when its last node did, although the node continues on errors. *)
Example tolerated_error_fails_execution :
  rr_status ∘ execution_result false <$> tolerant_run = Some st_error ∧
  (λ r, nodeExecutionStack (es_run (state_of r))) <$> tolerant_run = Some [].
Proof. by vm_compute. Qed.

(** * Witnesses *)

(** The start of a run of [chain_workflow] from its trigger. *)
Definition chain_start (d : option IDestinationNode) : IRunExecutionData :=
  new_run [mkExecute (getNode chain_workflow "a") (only_main [SVal [empty_item]]) None None None] None d
    ((λ d, run_filter chain_workflow d []) <$> d).

Lemma destination_run_only_ancestors_witness :
  let d := mkDestination "b" inclusive in
  run_init (env_types identity_env) chain_workflow (getNode chain_workflow "a") (Some d) None None []
    = Ok (chain_start (Some d)) ∧
  ∃ r, exec_loop identity_env 5 (engine_init 0 chain_workflow (chain_start (Some d))) = Some r ∧
    es_trace (state_of r) = ["b"; "a"] ∧
    (∀ n, n ∈ es_trace (state_of r) →
      (n = "b" ∧ inclusive = inclusive) ∨ n ∈ [] ∨
      (n ≠ "b" ∧ (rtc (edge (connectionsByDestinationNode chain_workflow) (OfType Main)) "b" n ∨
                  rtc (edge (connectionsByDestinationNode chain_workflow) ALL_NON_MAIN) "b" n))).
Proof.
  intros d. assert (run_init (env_types identity_env) chain_workflow (getNode chain_workflow "a") (Some d) None None []
    = Ok (chain_start (Some d))) as H0 by (vm_compute; reflexivity).
  split; [exact H0|].
  assert (es_trace ∘ state_of <$> exec_loop identity_env 5 (engine_init 0 chain_workflow (chain_start (Some d)))
    = Some ["b"; "a"]) as Ht by (vm_compute; reflexivity).
  destruct (exec_loop identity_env 5 (engine_init 0 chain_workflow (chain_start (Some d)))) as [r|] eqn:Hr; [|discriminate Ht].
  exists r. split; [reflexivity|]. split; [injection Ht as Ht; exact Ht|].
  exact (destination_run_only_ancestors identity_env (env_types identity_env) 0 chain_workflow
    (getNode chain_workflow "a") d None None [] (chain_start (Some d)) 5 r H0 Hr).
Defined.

Lemma every_iteration_completes_witness :
  waiting_inv (chain_start None) ∧
  ∃ r, exec_step identity_env (engine_init 0 chain_workflow (chain_start None)) = Some r.
Proof.
  destruct (every_iteration_completes identity_env (env_types identity_env) 0 chain_workflow
    (getNode chain_workflow "a") None None None [] (chain_start None)
    (engine_init 0 chain_workflow (chain_start None))) as (H & r & Hr & _).
  - vm_compute; reflexivity.
  - apply rtc_refl.
  - split; [exact H|exists r; exact Hr].
Defined.

Lemma failing_node_stops_witness :
  ∃ st' e d', exec_step failing_env (engine_init 0 chain_workflow (chain_start None)) = Some (Stop st' (Some e)) ∧
    nodeExecutionStack (es_run st') = [d'] ∧ lastNodeExecuted (es_run st') = Some "a".
Proof.
  assert (match exec_step failing_env (engine_init 0 chain_workflow (chain_start None)) with
          | Some (Stop st' (Some _)) => waitTill (es_run st') = None | _ => False end) as Hw by (vm_compute; reflexivity).
  destruct (exec_step failing_env (engine_init 0 chain_workflow (chain_start None))) as [[|st' [e|]|]|] eqn:Hs;
    [destruct Hw| |destruct Hw|destruct Hw|destruct Hw].
  destruct (failing_node_stops failing_env (engine_init 0 chain_workflow (chain_start None)) st' e Hs Hw)
    as (d & l & node & d' & H1 & H2 & _ & H3 & _ & _ & _ & H4 & _).
  cbn in H1. injection H1 as <- <-. cbn in H2. injection H2 as <-.
  exists st', e, d'. split; [reflexivity|]. split; [exact H3|exact H4].
Defined.
