(* ===== verification/EngineTermination.v ===== *)
(** EngineTermination: executions of acyclic workflows end.

    Every stack entry and every waiting entry of a node weighs [wt] of the node.
    When a node weighs more than its children together, an iteration of the loop
    in the v1 order lowers the total weight of what is scheduled.  On an acyclic
    workflow such weights exist. *)

From stdpp Require Import prelude list strings relations.
From Stdlib Require Import ZArith QArith Lia.
From S2P Require Import Prelude Types Traversal WorkflowClass ExecutionTypes ExecutionStack NodeRun RequestsResponse WorkflowExecute EngineInvariants.
Local Open Scope nat_scope.

(** * Weights *)

Section Weight.
Context (wt : string → nat) (Hwt : ∀ n, 1 ≤ wt n).

Definition waiting_weight {A} (m : jmap string (jmap nat A)) : nat :=
  sum_list ((λ p, wt p.1 * length p.2) <$> m).

Definition entry_weight (e : IExecuteData) : nat :=
  match x_node e with Some n => wt (n_name n) | None => 1 end.

Definition stack_weight (l : list IExecuteData) : nat := sum_list (entry_weight <$> l).

(** The weight of everything that is scheduled or waits. *)
Definition weight (s : IRunExecutionData) : nat :=
  stack_weight (nodeExecutionStack s) + waiting_weight (waitingExecution s).

Lemma stack_weight_app l1 l2 : stack_weight (l1 ++ l2) = stack_weight l1 + stack_weight l2.
Proof. unfold stack_weight. by rewrite fmap_app, sum_list_with_app. Qed.

Lemma stack_weight_cons e l : stack_weight (e :: l) = entry_weight e + stack_weight l.
Proof. done. Qed.

Lemma waiting_weight_app {A} (m1 m2 : jmap string (jmap nat A)) :
  waiting_weight (m1 ++ m2) = waiting_weight m1 + waiting_weight m2.
Proof. unfold waiting_weight. by rewrite fmap_app, sum_list_with_app. Qed.

Lemma waiting_weight_cons {A} name (runs : jmap nat A) m :
  waiting_weight ((name, runs) :: m) = wt name * length runs + waiting_weight m.
Proof. done. Qed.

Lemma length_jm_set {K V} `{EqDecision K} (m : jmap K V) k v :
  length (jm_set m k v) = if decide (k ∈ jm_keys m) then length m else S (length m).
Proof.
  rewrite <- (length_fmap fst). change ((jm_set m k v).*1) with (jm_keys (jm_set m k v)).
  rewrite jm_keys_set. unfold jm_keys. case_decide; rewrite ?length_app, length_fmap; simpl; lia.
Qed.

Lemma waiting_weight_set {A} (m : jmap string (jmap nat A)) name idx v :
  waiting_weight (waiting_set m name idx v) ≤
    waiting_weight m + (if decide (is_Some (waiting_get m name idx)) then 0 else wt name).
Proof.
  unfold waiting_set, waiting_get, waiting_runs.
  assert (∀ runs : jmap nat A, wt name * length (jm_set runs idx v) ≤
    wt name * length runs + (if decide (is_Some (jm_get runs idx)) then 0 else wt name)) as H.
  { intros runs. rewrite length_jm_set. destruct (decide (idx ∈ jm_keys runs)) as [Hin|Hout].
    - case_decide; lia.
    - rewrite decide_False; [lia|]. apply jm_get_None in Hout. rewrite Hout. by intros []. }
  destruct (jm_set_split m name (jm_set (default [] (jm_get m name)) idx v)) as [[Hn ->]|(m1 & runs & m2 & Hg & Hm & ->)].
  - rewrite Hn, waiting_weight_app, waiting_weight_cons. specialize (H []). cbn in *. lia.
  - rewrite Hg, waiting_weight_app, waiting_weight_cons. rewrite Hm, waiting_weight_app, waiting_weight_cons.
    specialize (H runs). cbn [default id]. lia.
Qed.

Lemma waiting_weight_jm_del {A} (m : jmap string (jmap nat A)) name :
  waiting_weight (jm_del m name) + wt name * length (waiting_runs m name) ≤ waiting_weight m.
Proof.
  assert (∀ m : jmap string (jmap nat A), waiting_weight (jm_del m name) ≤ waiting_weight m) as Hle.
  { clear m. induction m as [|[k runs] m IH]; [done|]. unfold jm_del in *. rewrite filter_cons.
    case_decide; rewrite ?waiting_weight_cons; lia. }
  unfold waiting_runs. induction m as [|[k runs] m IH]; [cbn; lia|].
  unfold jm_del in *. rewrite filter_cons, waiting_weight_cons. cbn [jm_get fst].
  destruct (decide (k = name)) as [->|Hne].
  - rewrite decide_False by tauto. cbn [default id]. specialize (Hle m). lia.
  - rewrite decide_True by done. rewrite waiting_weight_cons. lia.
Qed.

Lemma waiting_weight_del {A} (m : jmap string (jmap nat A)) name idx :
  is_Some (waiting_get m name idx) → waiting_weight (waiting_del m name idx) + wt name ≤ waiting_weight m.
Proof.
  intros [v Hv]. unfold waiting_get in Hv.
  assert (length (jm_del (waiting_runs m name) idx) < length (waiting_runs m name)) as Hlt.
  { apply length_jm_del. apply jm_get_Some_elem in Hv. apply list_elem_of_fmap. by exists (idx, v). }
  pose proof (waiting_weight_jm_del m name) as Hd. unfold waiting_del.
  destruct (jm_del (waiting_runs m name) idx) as [|p l] eqn:Hl; [simpl in Hlt; nia|].
  unfold waiting_runs in *. destruct (jm_set_split m name (p :: l)) as [[Hn _]|(m1 & runs & m2 & Hg & Hm & ->)].
  - rewrite Hn in Hv. done.
  - rewrite Hg in Hlt. rewrite Hm, !waiting_weight_app, !waiting_weight_cons. cbn [default id] in Hlt. nia.
Qed.

(** ** Scheduling one child *)

Section Scheduling.
Context (w : Workflow) (Hv1 : is_v1 w = true) (Hnames : names_match w).

(** The data of every scheduled entry has main inputs. *)
Definition has_main (s : IRunExecutionData) : Prop :=
  ∀ e, e ∈ nodeExecutionStack s → is_Some (jm_get (x_data e) Main).

Lemma node_weight name : entry_weight (mkExecute (getNode w name) [] None None None) ≤ wt name.
Proof.
  unfold entry_weight. cbn. destruct (getNode w name) eqn:Hn; [|apply Hwt]. by rewrite (Hnames _ _ Hn).
Qed.

Lemma enqueue_v1 s item : nodeExecutionStack (enqueue w s item) = item :: nodeExecutionStack s.
Proof. unfold enqueue. by rewrite Hv1. Qed.

Lemma select_weight s node index idx s1 :
  select_waiting_entry w s node index = (idx, s1) →
  nodeExecutionStack s1 = nodeExecutionStack s ∧
  waiting_weight (waitingExecution s1) ≤ waiting_weight (waitingExecution s) + wt node ∧
  is_Some (waiting_get (waitingExecution s1) node idx).
Proof.
  unfold select_waiting_entry. destruct (find_waiting_entry _ _) as [i|] eqn:Hf; intros [= <- <-].
  - split_and!; [done|lia|]. unfold find_waiting_entry in Hf.
    assert (i ∈ run_indexes (waiting_runs (waitingExecution s) node)) as Hi.
    { destruct (filter _ _) as [|x l] eqn:Hl; [done|]. injection Hf as ->.
      assert (i ∈ i :: l) as Hil by (by left). rewrite <- Hl in Hil.
      by apply list_elem_of_filter in Hil as [_ ?]. }
    unfold run_indexes in Hi. apply js_sort_elem in Hi.
    unfold waiting_get. destruct (jm_get _ i) eqn:Hg; [by eexists|]. by apply jm_get_None in Hg.
  - unfold prepareWaitingToExecution. cbn [nodeExecutionStack waitingExecution with_waiting].
    split_and!; [done| |rewrite waiting_get_set; by eexists].
    etrans; [apply waiting_weight_set|]. case_decide; lia.
Qed.

Lemma add_weight s c o p nsd r nr meta s' :
  addNodeToBeExecuted w s c o p nsd r nr meta = Ok s' →
  weight s' ≤ weight s + wt (c_node c) ∧ (has_main s → has_main s').
Proof.
  unfold addNodeToBeExecuted. destruct (1 <? length (main_inputs w (c_node c))).
  2:{ intros [= <-]. unfold add_directly, weight, has_main.
      destruct (jm_get _ _) as [n|] eqn:Hn; [|by split; [lia|]].
      rewrite enqueue_v1, stack_weight_cons. unfold entry_weight at 1. cbn [x_node x_data].
      rewrite (Hnames (c_node c) n Hn). split; [cbn [waitingExecution enqueue with_stack]; lia|].
      intros H e [->|He]%elem_of_cons; [by eexists|by apply H]. }
  destruct (select_waiting_entry w s (c_node c) (c_index c)) as [idx s1] eqn:Hsel.
  apply select_weight in Hsel as (Hst & Hw & Hsome).
  set (s2 := deliver _ _ _ _ _ _ _ _).
  assert (nodeExecutionStack s2 = nodeExecutionStack s) as Hst2 by done.
  assert (waiting_weight (waitingExecution s2) ≤ waiting_weight (waitingExecution s) + wt (c_node c)) as Hw2.
  { etrans; [apply waiting_weight_set|]. rewrite decide_True by done. lia. }
  assert (is_Some (waiting_get (waitingExecution s2) (c_node c) idx)) as Hsome2.
  { unfold s2, deliver, waiting_set_main. cbn [waitingExecution with_waiting]. rewrite waiting_get_set. by eexists. }
  assert (is_Some (jm_get (default [] (waiting_get (waitingExecution s2) (c_node c) idx)) Main)) as Hm2.
  { unfold s2, deliver, waiting_set_main. cbn [waitingExecution with_waiting]. rewrite waiting_get_set.
    cbn [default id]. rewrite set_main_get. by eexists. }
  destruct (all_data_found s2 (c_node c) idx) eqn:Hall.
  - intros [= <-]. unfold release, weight, has_main. cbn [nodeExecutionStack with_waiting waitingExecution].
    rewrite enqueue_v1, Hst2, stack_weight_cons. apply waiting_weight_del in Hsome2.
    pose proof (node_weight (c_node c)) as Hn. unfold entry_weight, getNode in *. cbn [x_node] in *.
    cbn [waitingExecution enqueue with_stack]. split; [lia|].
    intros H e [->|He]%elem_of_cons; [exact Hm2|by apply H].
  - intros (s3 & Hs3 & [= <-])%bind_Ok.
    assert (s3 = s2) as ->.
    { destruct (jm_has _ _); [by injection Hs3 as ->|].
      apply bind_Ok in Hs3 as (outs & _ & Hs3). by eapply check_inputs_v1. }
    unfold write_back, prepareWaitingToExecution, weight, has_main.
    cbn [nodeExecutionStack with_waiting waitingExecution]. rewrite Hst2. split; [|done].
    assert (∀ (m : IWaitingForExecution) v, is_Some (waiting_get m (c_node c) idx) →
      waiting_weight (waiting_set m (c_node c) idx v) ≤ waiting_weight m) as Hset.
    { intros m v Hm. etrans; [apply waiting_weight_set|]. rewrite decide_True by done. lia. }
    etrans; [apply Nat.add_le_mono_l, Hset; rewrite waiting_get_set; by eexists|].
    etrans; [apply Nat.add_le_mono_l, Hset; done|]. lia.
Qed.

(** ** Scheduling all children *)

Definition conns_weight (l : list IConnection) : nat := sum_list ((λ c, wt (c_node c)) <$> l).

Lemma conns_weight_app l1 l2 : conns_weight (l1 ++ l2) = conns_weight l1 + conns_weight l2.
Proof. unfold conns_weight. by rewrite fmap_app, sum_list_with_app. Qed.

Lemma conns_weight_perm l1 l2 : l1 ≡ₚ l2 → conns_weight l1 = conns_weight l2.
Proof. unfold conns_weight. induction 1; cbn in *; lia. Qed.

Lemma indexed_conns_snd slots : (indexed_conns slots).*2 = flat_conns slots.
Proof.
  unfold indexed_conns, flat_conns, entries.
  assert (∀ f : nat → nat,
    (imap (λ i, pair (f i)) slots ≫= λ '(i, slot), bucket slot ≫= λ c : IConnection, [(i, c)]).*2
    = mjoin (bucket <$> slots)) as H; [|apply (H id)].
  induction slots as [|slot slots IH]; intros f; [done|].
  rewrite imap_cons, bind_cons, fmap_app, fmap_cons. cbn [mjoin list_join]. f_equal; [|apply (IH (f ∘ S))].
  induction (bucket slot) as [|c l IHl]; [done|]. rewrite bind_cons, fmap_app, IHl. done.
Qed.

Lemma visit_children_weight name nsd r conns acc s acc' s' :
  foldM (visit_child w name nsd r) (acc, s) conns = Ok (acc', s') →
  s' = s ∧ conns_weight (na_connection <$> acc') ≤ conns_weight (na_connection <$> acc) + conns_weight conns.*2.
Proof.
  revert acc; induction conns as [|[i c] conns IH]; intros acc; cbn [foldM].
  - intros [= <- <-]. split; [done|]. lia.
  - intros ([acc1 s1] & H1 & H2)%bind_Ok. unfold visit_child in H1.
    destruct (negb _); [done|]. rewrite Hv1 in H1. rewrite fmap_cons.
    change (conns_weight ((i, c).2 :: conns.*2)) with (wt (c_node c) + conns_weight conns.*2).
    destruct (output_delivers _ _ _ _); injection H1 as <- <-; apply IH in H2 as [-> H2]; (split; [done|]).
    + rewrite fmap_app, conns_weight_app in H2. cbn in *. lia.
    + lia.
Qed.

Lemma add_children_weight name nsd r l s s' :
  foldM (λ s n, add_child w name nsd r s (na_connection n) (na_outputIndex n)) s l = Ok s' →
  weight s' ≤ weight s + conns_weight (na_connection <$> l) ∧ (has_main s → has_main s').
Proof.
  revert s; induction l as [|n l IH]; intros s; cbn [foldM]; [intros [= <-]; split; [lia|done]|].
  intros (s1 & H1 & H2)%bind_Ok. apply add_weight in H1 as [H1 Hm1]. apply IH in H2 as [H2 Hm2].
  rewrite fmap_cons. change (conns_weight (na_connection n :: (na_connection <$> l)))
    with (wt (c_node (na_connection n)) + conns_weight (na_connection <$> l)). split; [lia|auto].
Qed.

(** The main connections of a node. *)
Definition children_conns (name : string) : list IConnection :=
  flat_conns (default [] (main_conns (connectionsBySourceNode w) name)).

Lemma enqueue_children_weight name nsd r s s' :
  enqueue_children w name nsd r s = Ok s' →
  weight s' ≤ weight s + conns_weight (children_conns name) ∧ (has_main s → has_main s').
Proof.
  unfold enqueue_children, children_conns. destruct (main_conns _ _) as [slots|]; [|intros [= <-]; split; [lia|done]].
  intros ([l s1] & H1 & H2)%bind_Ok. apply visit_children_weight in H1 as [-> H1].
  rewrite Hv1 in H2. apply add_children_weight in H2 as [H2 Hm]. split; [|done].
  rewrite indexed_conns_snd in H1. cbn [default id].
  assert (conns_weight (na_connection <$> js_sort position_cmp l) = conns_weight (na_connection <$> l)) as Hp
    by (apply conns_weight_perm; by rewrite js_sort_perm).
  cbn in H1. lia.
Qed.

(** ** Releasing a waiting node *)

Lemma check_waiting_weight gt ev names s name step :
  check_waiting_node gt ev w names s name = Ok step →
  match step with
  | Skipped => True
  | Released s' | Removed s' => weight s' ≤ weight s ∧ (has_main s → has_main s')
  end.
Proof.
  unfold check_waiting_node. destruct (getNode w name) as [n|] eqn:Hn; [|by intros [= <-]].
  intros ([req allreq] & _ & H)%bind_Ok. destruct allreq; [by injection H as <-|].
  destruct (existsb _ _); [by injection H as <-|].
  apply bind_Ok in H as (idx & Hidx%of_option_Ok & H).
  destruct (required_missing _ _); [by injection H as <-|].
  apply bind_Ok in H as (main & Hmain & H).
  assert (is_Some (waiting_get (waitingExecution s) name idx)) as Hsome%waiting_weight_del
    by (by apply sorted_run_keys_elem).
  destruct (has_items main).
  - apply bind_Ok in H as (t & _ & H). injection H as <-.
    unfold drop_waiting, weight, has_main. cbn [nodeExecutionStack waitingExecution with_waiting with_stack].
    rewrite stack_weight_app, stack_weight_cons. unfold entry_weight. cbn [x_node x_data].
    change (jm_get (w_nodes w) name) with (getNode w name). rewrite Hn, (Hnames _ _ Hn).
    change (stack_weight []) with 0. split; [lia|].
    intros Hm e [He| ->%list_elem_of_singleton]%elem_of_app; [by apply Hm|by eexists].
  - injection H as <-. unfold drop_waiting, weight, has_main.
    cbn [nodeExecutionStack waitingExecution with_waiting]. split; [lia|done].
Qed.

Lemma scan_waiting_weight gt ev names s l step :
  scan_waiting gt ev w names s l = Ok step →
  match step with
  | Skipped => True
  | Released s' | Removed s' => weight s' ≤ weight s ∧ (has_main s → has_main s')
  end.
Proof.
  induction l as [|name l IH]; cbn [scan_waiting]; [by intros [= <-]|].
  intros (st & Hst & H)%bind_Ok. apply check_waiting_weight in Hst.
  destruct st; [by apply IH|by injection H as <-|by injection H as <-].
Qed.

Lemma release_waiting_weight gt ev s s' :
  release_waiting gt ev w s = Some (Ok s') → weight s' ≤ weight s ∧ (has_main s → has_main s').
Proof.
  unfold release_waiting. destruct (nodeExecutionStack s); [|by intros [= <-]].
  generalize (S (runs_total (waitingExecution s))) as fuel. intros fuel. revert s.
  induction fuel as [|fuel IH]; intros s; [done|]. cbn [release_loop].
  destruct (scan_waiting _ _ _ _ _ _) as [step|e] eqn:Hscan; [|done].
  apply scan_waiting_weight in Hscan.
  destruct step as [|s1|s1]; [by intros [= <-]|by intros [= <-]|].
  intros [H1 H2]%IH. destruct Hscan. split; [lia|auto].
Qed.
End Scheduling.

(** * The loop *)

Section Loop.
Context {W : Type} (env : Env W).

(** No node asks the engine to run other nodes. *)
Definition no_requests : Prop :=
  (∀ wd n d l i k resp req, nc_result (env_execute env wd n d l i k resp).1 ≠ Ok (RRequest req)) ∧
  (∀ wd n req, nc_result (env_poll env wd n).1 ≠ Ok (RRequest req)) ∧
  (∀ wd n c req, (env_trigger env wd n).1 = Some c → nc_result c ≠ Ok (RRequest req)) ∧
  (∀ wd n d l i k req, nc_result (env_declarative env wd n d l i k).1 ≠ Ok (RRequest req)).

Context (Hreq : no_requests).

Lemma call_node_data node i resp st r st' req :
  call_node env node i resp st = (r, st') → r ≠ Ok (RRequest req).
Proof.
  unfold call_node. destruct (runNode _ _ _ _ _ _ _ _ _ _ _ _ _ _ _) as [o wd] eqn:Hr. intros [= <- _].
  destruct Hreq as (He & Hp & Ht & Hd). unfold runNode in Hr.
  repeat match type of Hr with (if ?b then _ else _) = _ => destruct b; [by injection Hr as <- _|] end.
  destruct (env_types env _ _) as [t|]; [|by injection Hr as <- _].
  destruct (prepareConnectionInputData _ _ _ _) as [l|]; [|by injection Hr as <- _].
  destruct (rethrowLastNodeError _ _); [|by injection Hr as <- _].
  destruct (_ || _).
  { match type of Hr with context [env_execute env ?a ?b ?c ?d ?e ?f ?g] =>
      pose proof (He a b c d e f g req) as H1; destruct (env_execute env a b c d e f g) as [nc wd2] end.
    injection Hr as <- _. cbn in *. unfold executeNode. destruct (nc_result nc); [|done]. by destruct (closing_error _). }
  destruct (t_poll t).
  { unfold executePollNode in Hr. destruct (env_manual env); [|by injection Hr as <- _].
    match type of Hr with context [env_poll env ?a ?b] =>
      pose proof (Hp a b req) as H1; destruct (env_poll env a b) as [nc wd2] end.
    injection Hr as <- _. exact H1. }
  destruct (t_trigger t).
  { unfold executeTriggerNode in Hr. destruct (env_manual env); [|by injection Hr as <- _].
    match type of Hr with context [env_trigger env ?a ?b] =>
      pose proof (λ c, Ht a b c req) as H1; destruct (env_trigger env a b) as [[nc|] wd2] end;
      [|by injection Hr as <- _].
    specialize (H1 nc eq_refl). destruct (nc_result nc) as [[[[]|]|]|]; by injection Hr as <- _. }
  destruct (t_supplyData t); [by injection Hr as <- _|].
  destruct (_ && _); [by injection Hr as <- _|].
  match type of Hr with context [env_declarative env ?a ?b ?c ?d ?e ?f] =>
    pose proof (Hd a b c d e f req) as H1; destruct (env_declarative env a b c d e f) as [nc wd2] end.
  by injection Hr as <- _.
Qed.

Lemma soft_retry_data node i tries d st r n st' req :
  soft_retry env node i tries d st = (r, n, st') → d ≠ RRequest req → r ≠ Ok (RRequest req).
Proof.
  revert d st; induction tries as [|tries IH]; intros d st; cbn [soft_retry]; [intros [= <- _ _]; congruence|].
  destruct (checkFailure d); [|intros [= <- _ _]; congruence].
  destruct (call_node env node i None st) as [r1 st1] eqn:Hc. apply (call_node_data _ _ _ _ _ _ req) in Hc.
  destruct r1 as [d1|]; [|by intros [= <- _ _]]. intros H _. eapply IH; [done|congruence].
Qed.

Lemma attempt_data node i tries st r n st' :
  attempt env node i tries st = (r, n, st') → r ≠ Ok TryRequest.
Proof.
  unfold attempt. destruct (_ ≫= _) as [pin|].
  { destruct (complete_try _ _) as [r1 st1] eqn:Hc. intros [= <- _ _].
    by apply complete_try_keeps in Hc as [_ ?]. }
  destruct (call_node _ _ _ _ _) as [r1 st1] eqn:Hc.
  pose proof (λ req, call_node_data _ _ _ _ _ _ req Hc) as Hd.
  destruct (match r1 with Ok d => _ | Err e => _ end) as [[r2 n2] st2] eqn:Hr.
  assert (∀ req, r2 ≠ Ok (RRequest req)) as H2.
  { intros req. destruct r1 as [d|]; [|by injection Hr as <- _ _]. eapply soft_retry_data; [done|].
    specialize (Hd req). congruence. }
  destruct r2 as [[data|request]|e]; [|by destruct (H2 request)|by intros [= <- _ _]].
  destruct (take_data _ _ _ _) as [r3 st3] eqn:Ht. intros [= <- _ _].
  by apply take_data_keeps in Ht as [_ ?].
Qed.

Lemma try_loop_data node i fuel tries st r st' :
  try_loop env node i fuel tries st = Some (r, st') → r ≠ Ok TryRequest.
Proof.
  revert tries st; induction fuel as [|fuel IH]; intros tries st; [done|]. cbn [try_loop].
  destruct (attempt _ _ _ _ _) as [[r1 n1] st1] eqn:Ha. apply attempt_data in Ha.
  destruct r1 as [o|e]; [by intros [= <- _]|]. destruct n1; [by intros [= <- _]|by apply IH].
Qed.

Section Decrease.
Context (w : Workflow) (Hv1 : is_v1 w = true) (Hnames : names_match w).
Context (Hchildren : ∀ name, conns_weight (children_conns w name) < wt name).

Lemma after_record_weight st node d i outputs error st' :
  es_workflow st = w → after_record env st node d i outputs error = Some (Continue st') →
  es_workflow st' = w ∧ weight (es_run st') < weight (es_run st) + wt (n_name node) ∧
  (has_main (es_run st) → has_main (es_run st')).
Proof.
  intros Hw. unfold after_record. pose proof (Hchildren (n_name node)) as Hc. case_bool_decide; [done|].
  case_bool_decide; [intros [= <-]; split_and!; [done|lia|done]|]. rewrite Hw.
  destruct (enqueue_children _ _ _ _ _) as [s1|m] eqn:He; [|done].
  apply (enqueue_children_weight w Hv1 Hnames) in He as [He Hm1].
  destruct (release_waiting _ _ _ _) as [[s2|m]|] eqn:Hr; [|done|done].
  apply (release_waiting_weight w Hnames) in Hr as [Hr Hm2]. intros [= <-].
  split_and!; [done|cbn [es_run es_with_run]; lia|auto].
Qed.

Lemma finish_node_weight st node d i ix src nsd error st' :
  es_workflow st = w → finish_node env st node d i ix src nsd error = Some (Continue st') →
  es_workflow st' = w ∧ weight (es_run st') < weight (es_run st) + wt (n_name node) ∧
  (has_main (es_run st) → has_main (es_run st')).
Proof.
  intros Hw. unfold finish_node. set (s0 := if jm_has (runData (es_run st)) (n_name node) then _ else _).
  assert (weight s0 = weight (es_run st) ∧ (has_main (es_run st) → has_main s0)) as [H1 H2]
    by (unfold s0; by destruct (jm_has _ _)).
  destruct error as [e|]; [destruct (negb _); [done|]|]; (destruct (merge_errors _); [|done]);
    intros (? & Hlt & ?)%after_record_weight; try done; cbn [es_run es_with_run] in *;
    (split_and!; [done| |by auto]); rewrite <- H1; exact Hlt.
Qed.

Lemma ensure_v1 node d s b s' :
  is_Some (jm_get (x_data d) Main) → ensureInputData w node d s = (b, s') → b = true ∧ s' = s.
Proof.
  intros [main Hm]. unfold ensureInputData. generalize (seq 0 (length (main_inputs w (n_name node)))) as l.
  induction l as [|i l IH]; cbn [ensure_inputs]; [by intros [= <- <-]|].
  rewrite Hm. unfold isLegacyExecutionOrder. rewrite Hv1. cbn [negb andb].
  destruct (getHighestNode _ _ _); [by intros [= <- <-]|done].
Qed.

(** An iteration lowers the weight of what is scheduled. *)
Lemma step_weight st st' :
  es_workflow st = w → has_main (es_run st) → engine_step env st st' →
  es_workflow st' = w ∧ has_main (es_run st') ∧ weight (es_run st') < weight (es_run st).
Proof.
  intros Hw Hm. unfold engine_step, exec_step.
  destruct (nodeExecutionStack (es_run st)) as [|d l] eqn:Hst; [done|]. destruct (env_canceled _ _); [done|].
  set (s1 := with_stack (es_run st) l).
  assert (is_Some (jm_get (x_data d) Main)) as Hd by (apply Hm; rewrite Hst; by left).
  assert (has_main s1) as Hm1 by (intros e He; apply Hm; rewrite Hst; by right).
  assert (weight (es_run st) = entry_weight d + weight s1) as Hweight.
  { unfold weight. rewrite Hst, stack_weight_cons. cbn [s1 nodeExecutionStack waitingExecution with_stack]. lia. }
  rewrite Hweight. unfold exec_entry, entry_weight. cbn [es_run es_with_run es_workflow es_world].
  destruct (x_node d) as [node|]; [|done]. pose proof (Hwt (n_name node)) as Hpos.
  case_bool_decide; [done|]. cbn [es_run].
  destruct (match runNodeFilter s1 with Some f => _ | None => _ end); [intros [= <-]; cbn [es_run es_workflow]; split_and!; [done|done|lia]|].
  destruct (ensureInputData _ _ _ _) as [b s2] eqn:He. rewrite Hw in He.
  apply ensure_v1 in He as [-> ->].
  2:{ cbn. rewrite jm_get_map. destruct Hd as [? ->]. by eexists. }
  cbn [negb]. destruct (run_tries _ _ _ _) as [[r1 t]|] eqn:Ht; [|done].
  pose proof (try_loop_data _ _ _ _ _ _ _ Ht) as Hr1.
  apply try_loop_keeps in Ht as [[Hs _ _ Hwf] _]; [|done]. cbn in Hs, Hwf. unfold sched in Hs. injection Hs as Hs1 Hs2 _ _.
  assert (weight (ts_run t) = weight s1 ∧ has_main (ts_run t)) as [Hwt1 Hmt].
  { unfold weight, has_main. cbn [s1 nodeExecutionStack waitingExecution with_stack]. rewrite Hs1, Hs2. done. }
  destruct r1 as [[]|e].
  - intros (? & ? & ?)%finish_node_weight; [|cbn; congruence]. cbn [es_run] in *. split_and!; [done|auto|lia].
  - intros [= <-]. cbn [es_run es_workflow]. split_and!; [congruence|done|lia].
  - done.
  - intros (? & ? & ?)%finish_node_weight; [|cbn; congruence]. cbn [es_run] in *. split_and!; [done|auto|lia].
Qed.

Lemma loop_terminates fuel st :
  es_workflow st = w → has_main (es_run st) → waiting_inv (es_run st) → weight (es_run st) < fuel →
  ∃ r, exec_loop env fuel st = Some r ∧ ∀ st', r ≠ Continue st'.
Proof.
  revert st; induction fuel as [|fuel IH]; intros st Hw Hm HI Hf; [lia|]. cbn [exec_loop].
  destruct (exec_step_total env st HI) as [r Hr]. rewrite Hr.
  destruct r as [st1|st1 e|st1 e]; [|by eexists..].
  destruct (step_weight st st1 Hw Hm Hr) as (H1 & H2 & H3). apply IH; [done|done| |lia].
  by apply (exec_step_inv waiting_inv) in Hr.
Qed.
End Decrease.
End Loop.
End Weight.

(** * Weights of an acyclic workflow *)

Section Acyclic.
Context (w : Workflow).

Notation main_edge_of := (edge (connectionsBySourceNode w) (OfType Main)).

(** No path of main connections leads from a node back to itself. *)
Definition acyclic : Prop := ∀ n, ¬ tc main_edge_of n n.

(** How many main connections the workflow has. *)
Definition main_connections : nat :=
  sum_list ((λ e : string * INodeConnections, length (flat_conns (default [] (jm_get e.2 Main))))
    <$> connectionsBySourceNode w).

(** The nodes downstream of a node. *)
Definition downstream (name : string) : list string := w_getChildNodes w name (OfType Main) (-1).

(** The weight of a node, which bounds the iterations an execution started there needs. *)
Definition execution_bound (name : string) : nat := S main_connections ^ length (downstream name).

Lemma children_edge name c : c ∈ children_conns w name → main_edge_of name (c_node c).
Proof.
  unfold children_conns, main_conns, conns_of. intros H.
  destruct (jm_get (connectionsBySourceNode w) name) as [nc|] eqn:Hn; [|by apply not_elem_of_nil in H].
  cbn in H. destruct (jm_get nc Main) as [inputs|] eqn:Hi; [|by apply not_elem_of_nil in H].
  exists nc, Main, inputs, c. split_and!; [done|by left|done|done|done].
Qed.

Lemma children_count name : length (children_conns w name) ≤ main_connections.
Proof.
  unfold children_conns, main_conns, conns_of, main_connections.
  induction (connectionsBySourceNode w) as [|[k nc] l IH]; [cbn; lia|]. cbn [jm_get].
  destruct (decide (k = name)); cbn in *; lia.
Qed.

Lemma downstream_lt a b : acyclic → main_edge_of a b → length (downstream b) < length (downstream a).
Proof.
  intros Hac Hab. unfold downstream, w_getChildNodes, getChildNodes.
  set (l := getConnectedNodes _ b _ _ _). set (l' := getConnectedNodes _ a _ _ _).
  assert (NoDup (b :: l)) as Hd.
  { constructor; [|apply connected_NoDup]. intros [Hne _]%connected_elem. done. }
  assert (b :: l ⊆+ l') as Hs; [|by apply submseteq_length in Hs].
  apply NoDup_submseteq; [done|]. intros x [->|Hx]%elem_of_cons; apply connected_elem.
  - split; [|by apply rtc_once]. intros ->. apply (Hac a). by apply tc_once.
  - apply connected_elem in Hx as [Hxb Hr]. split; [|by eapply rtc_l].
    intros ->. apply (Hac a). by eapply tc_rtc_r; [apply tc_once|].
Qed.

Lemma execution_bound_pos name : 1 ≤ execution_bound name.
Proof. unfold execution_bound. apply Nat.lt_0_succ || (apply Nat.neq_0_lt_0, Nat.pow_nonzero; lia). Qed.

Lemma children_lighter name :
  acyclic → conns_weight execution_bound (children_conns w name) < execution_bound name.
Proof.
  intros Hac. pose proof (children_count name) as Hc.
  assert (∀ c, c ∈ children_conns w name → length (downstream (c_node c)) < length (downstream name)) as Hlt
    by (intros c Hin; by apply downstream_lt, children_edge).
  destruct (length (downstream name)) as [|k] eqn:Hk.
  - destruct (children_conns w name) as [|c l] eqn:Hl; [apply execution_bound_pos|].
    specialize (Hlt c ltac:(by left)). lia.
  - assert (∀ l : list IConnection, l ⊆ children_conns w name →
      conns_weight execution_bound l ≤ length l * S main_connections ^ k) as Hsum.
    { induction l as [|c l IH]; intros Hl; [done|].
      change (conns_weight execution_bound (c :: l)) with (execution_bound (c_node c) + conns_weight execution_bound l).
      specialize (IH ltac:(set_solver)). specialize (Hlt c ltac:(set_solver)).
      assert (execution_bound (c_node c) ≤ S main_connections ^ k) by (apply Nat.pow_le_mono_r; lia).
      cbn [length]. lia. }
    specialize (Hsum _ (reflexivity _)). unfold execution_bound at 2. rewrite Hk. cbn [Nat.pow].
    assert (1 ≤ S main_connections ^ k) by (apply Nat.neq_0_lt_0, Nat.pow_nonzero; lia). nia.
Qed.
End Acyclic.

(** C2: an execution of an acyclic workflow in the v1 order ends, whatever the nodes return or throw, as
    long as they do not request other nodes: after at most as many iterations as the start node
    weighs, the loop has stopped. *)
Theorem acyclic_execution_terminates {W} (env : Env W) gt wd w start d pin trigger extra s0 :
  is_v1 w = true → names_match w → acyclic w → no_requests env →
  (∀ data, trigger = Some data → is_Some (jm_get data Main)) →
  run_init gt w start d pin trigger extra = Ok s0 →
  ∃ n r, x_node <$> nodeExecutionStack s0 = [Some n] ∧
    exec_loop env (S (execution_bound w (n_name n))) (engine_init wd w s0) = Some r ∧
    ∀ st', r ≠ Continue st'.
Proof.
  intros Hv1 Hnames Hac Hreq Htr. unfold run_init.
  intros (n0 & _ & H)%bind_Ok. apply bind_Ok in H as (n & _ & [= <-]).
  destruct (loop_terminates (execution_bound w) (execution_bound_pos w) env Hreq w Hv1 Hnames
    (λ name, children_lighter w name Hac) (S (execution_bound w (n_name n)))
    (engine_init wd w (new_run [mkExecute (Some n) (default (only_main [SVal [empty_item]]) trigger) None None None]
      pin d ((λ d, run_filter w d extra) <$> d)))) as (r & Hr & Hstop).
  - done.
  - intros e ->%list_elem_of_singleton. cbn. destruct trigger as [data|]; [by apply Htr|by eexists].
  - by split.
  - cbn. unfold weight, stack_weight, entry_weight. cbn. lia.
  - by exists n, r.
Qed.

(** * Witness *)

Lemma acyclic_by_rank w (f : string → nat) :
  (∀ a b, edge (connectionsBySourceNode w) (OfType Main) a b → f a < f b) → acyclic w.
Proof.
  intros Hf n Hn. assert (∀ a b, tc (edge (connectionsBySourceNode w) (OfType Main)) a b → f a < f b) as H.
  { induction 1 as [a b Hab|a b c Hab _ IH]; [by apply Hf|]. apply Hf in Hab. lia. }
  specialize (H n n Hn). lia.
Qed.

Lemma chain_acyclic : acyclic chain_workflow.
Proof.
  apply (acyclic_by_rank _ (λ n, if decide (n = "a") then 0 else if decide (n = "b") then 1 else 2)).
  intros a b (nc & t & inputs & c & Hn & ->%list_elem_of_singleton & Hi & Hc & <-).
  cbn in Hn. repeat case_decide; simplify_eq/=; apply list_elem_of_singleton in Hc as ->; done || (vm_compute; lia).
Qed.

Lemma chain_names : names_match chain_workflow.
Proof.
  intros name n Hn. unfold getNode in Hn. apply jm_get_Some_elem in Hn. cbn in Hn.
  repeat (apply elem_of_cons in Hn as [[= -> ->]|Hn]; [done|]). by apply not_elem_of_nil in Hn.
Qed.

Lemma acyclic_execution_terminates_witness :
  acyclic chain_workflow ∧
  ∃ n r, x_node <$> nodeExecutionStack (chain_start None) = [Some n] ∧
    exec_loop identity_env (S (execution_bound chain_workflow (n_name n)))
      (engine_init 0 chain_workflow (chain_start None)) = Some r ∧
    ∀ st', r ≠ Continue st'.
Proof.
  split; [exact chain_acyclic|].
  apply (acyclic_execution_terminates identity_env (env_types identity_env) 0 chain_workflow
    (getNode chain_workflow "a") None None None [] (chain_start None)).
  - reflexivity.
  - exact chain_names.
  - exact chain_acyclic.
  - split_and!; discriminate.
  - discriminate.
  - vm_compute; reflexivity.
Defined.
