(* ===== verification/DirectedGraph.v ===== *)
(** DirectedGraph: packages/core/src/execution-engine/partial-execution-utils/directed-graph.ts.

    A graph is a [Map] of nodes by name and a [Map] of connections by the string
    [makeKey] builds.  All nodes of a graph come from the nodes of one workflow,
    where a name belongs to one object, so that the identity of a node is its name:
    the ends of a connection are names, and a set of nodes is a set of names.  A
    failed assertion of the code is an [AssertionError]. *)

From stdpp Require Import prelude list strings pretty relations.
From Stdlib Require Import ZArith QArith Lia.
From S2P Require Import Prelude Types Traversal WorkflowClass ExecutionTypes.
Local Open Scope nat_scope.

Inductive GraphError :=
| AssertionError
| GraphTypeError (msg : string)
| OutOfFuel.

Record GraphConnection := mkGC {
  gc_from : string;
  gc_to : string;
  gc_type : NodeConnectionType;
  gc_outputIndex : nat;
  gc_inputIndex : nat;
}.

#[export] Instance GraphConnection_eq_dec : EqDecision GraphConnection.
Proof. solve_decision. Defined.

Record DirectedGraph := mkGraph {
  g_nodes : jmap string INode;
  g_connections : jmap string GraphConnection;
}.

Definition empty_graph : DirectedGraph := mkGraph [] [].

(** [`${from.name}-${type}-${outputIndex}-${inputIndex}-${to.name}`] *)
Definition makeKey (c : GraphConnection) : string :=
  gc_from c +:+ "-" +:+ gc_type c +:+ "-" +:+ pretty (gc_outputIndex c) +:+ "-" +:+
  pretty (gc_inputIndex c) +:+ "-" +:+ gc_to c.

Definition hasNode (g : DirectedGraph) (nodeName : string) : bool := jm_has (g_nodes g) nodeName.

(** The connections in the order they were added. *)
Definition g_conns (g : DirectedGraph) : list GraphConnection := jm_vals (g_connections g).

Definition getNodesByNames (g : DirectedGraph) (names : list string) : list string :=
  js_of_list (filter (λ n, hasNode g n = true) names).

(** [getConnections({ to })] *)
Definition getConnectionsTo (g : DirectedGraph) (to : string) : list GraphConnection :=
  filter (λ c, gc_to c = to) (g_conns g).

Definition addNode (g : DirectedGraph) (node : INode) : DirectedGraph :=
  mkGraph (jm_set (g_nodes g) (n_name node) node) (g_connections g).

Definition addNodes (g : DirectedGraph) (nodes : list INode) : DirectedGraph := foldl addNode g nodes.

Definition set_connection (g : DirectedGraph) (c : GraphConnection) : DirectedGraph :=
  mkGraph (g_nodes g) (jm_set (g_connections g) (makeKey c) c).

Definition addConnection (g : DirectedGraph) (c : GraphConnection) : result GraphError DirectedGraph :=
  if hasNode g (gc_from c) && hasNode g (gc_to c) then Ok (set_connection g c) else Err AssertionError.

Definition addConnections (g : DirectedGraph) (cs : list GraphConnection) : result GraphError DirectedGraph :=
  foldM addConnection g cs.

Definition getDirectChildConnections (g : DirectedGraph) (node : string)
    : result GraphError (list GraphConnection) :=
  if hasNode g node then Ok (filter (λ c, gc_from c = node) (g_conns g)) else Err AssertionError.

Definition getDirectParentConnections (g : DirectedGraph) (node : string)
    : result GraphError (list GraphConnection) :=
  if hasNode g node then Ok (filter (λ c, gc_to c = node) (g_conns g)) else Err AssertionError.

(** [removeNode]; the new connections when the parents are connected to the children. *)
Definition drop_node (g : DirectedGraph) (node : string) : DirectedGraph :=
  mkGraph (g_nodes g) (filter (λ e, gc_to e.2 ≠ node ∧ gc_from e.2 ≠ node) (g_connections g)).

Definition delete_node (g : DirectedGraph) (node : string) : DirectedGraph :=
  mkGraph (jm_del (g_nodes g) node) (g_connections g).

Definition removeNode (g : DirectedGraph) (node : string) : DirectedGraph :=
  delete_node (drop_node g node) node.

(** [{ ...incoming, to: outgoing.to, inputIndex: outgoing.inputIndex }] *)
Definition bridge (incoming outgoing : GraphConnection) : GraphConnection :=
  mkGC (gc_from incoming) (gc_to outgoing) (gc_type incoming) (gc_outputIndex incoming) (gc_inputIndex outgoing).

Definition removeNode_reconnect (g : DirectedGraph) (node : string) (skipConnectionFn : GraphConnection → bool)
    : result GraphError (DirectedGraph * list GraphConnection) :=
  incomingConnections ← getDirectParentConnections g node;
  outgoingConnections ← getDirectChildConnections g node;
  let newConnections :=
    i ← filter (λ c, skipConnectionFn c = false) incomingConnections;
    o ← filter (λ c, skipConnectionFn c = false) outgoingConnections;
    [bridge i o] in
  Ok (delete_node (foldl set_connection (drop_node g node) newConnections) node, newConnections).

(** * Searches *)

Section Searches.
Context (g : DirectedGraph).

(** [getChildrenRecursive]: the set [children] is shared by all calls. *)
Fixpoint getChildrenRecursive (fuel : nat) (node : string) (children : list string)
    : result GraphError (list string) :=
  match fuel with
  | 0 => Err OutOfFuel
  | S fuel =>
    directChildren ← getDirectChildConnections g node;
    foldM (λ children directChild,
      if js_has children (gc_to directChild) then Ok children
      else getChildrenRecursive fuel (gc_to directChild) (js_add children (gc_to directChild)))
      children directChildren
  end.

(** Every call but the first adds a node to the set. *)
Definition getChildren (node : string) : result GraphError (list string) :=
  getChildrenRecursive (S (length (g_conns g))) node [].

Fixpoint getParentConnectionsRecursive (fuel : nat) (node : string) (connections : list GraphConnection)
    : result GraphError (list GraphConnection) :=
  match fuel with
  | 0 => Err OutOfFuel
  | S fuel =>
    parentConnections ← getDirectParentConnections g node;
    foldM (λ connections connection,
      if js_has connections connection then Ok connections
      else getParentConnectionsRecursive fuel (gc_from connection) (js_add connections connection))
      connections parentConnections
  end.

Definition getParentConnections (node : string) : result GraphError (list GraphConnection) :=
  getParentConnectionsRecursive (S (length (g_conns g))) node [].

(** [depthFirstSearchRecursive]: the node found and the set [seen]. *)
Fixpoint dfs_children (dfs : string → list string → result GraphError (option string * list string))
    (children : list GraphConnection) (seen : list string) : result GraphError (option string * list string) :=
  match children with
  | [] => Ok (None, seen)
  | c :: children =>
    '(found, seen) ← dfs (gc_to c) seen;
    match found with
    | Some n => Ok (Some n, seen)
    | None => dfs_children dfs children seen
    end
  end.

Fixpoint depthFirstSearchRecursive (fuel : nat) (fn : string → bool) (from : string) (seen : list string)
    : result GraphError (option string * list string) :=
  match fuel with
  | 0 => Err OutOfFuel
  | S fuel =>
    if js_has seen from then Ok (None, seen)
    else
      let seen := js_add seen from in
      if fn from then Ok (Some from, seen)
      else
        conns ← getDirectChildConnections g from;
        dfs_children (depthFirstSearchRecursive fuel fn) conns seen
  end.

Definition depthFirstSearch (from : string) (fn : string → bool) : result GraphError (option string) :=
  '(found, _) ← depthFirstSearchRecursive (S (S (length (g_conns g)))) fn from [];
  Ok found.
End Searches.

(** * Strongly connected components *)

(** [t_stack] has the top of the stack first. *)
Record TarjanState := mkTarjan {
  t_id : nat;
  t_visited : list string;
  t_ids : jmap string nat;
  t_lowLinkValues : jmap string nat;
  t_stack : list string;
  t_components : list (list string);
}.

Definition t_with_low (st : TarjanState) (low : jmap string nat) : TarjanState :=
  mkTarjan (t_id st) (t_visited st) (t_ids st) low (t_stack st) (t_components st).

(** Pops while the top has the low link value [ownId]: the component and what is left. *)
Fixpoint pop_component (low : jmap string nat) (ownId : nat) (stack : list string) : list string * list string :=
  match stack with
  | next :: stack' =>
    if decide (jm_get low next = Some ownId)
    then let '(scc, rest) := pop_component low ownId stack' in (next :: scc, rest)
    else ([], stack)
  | [] => ([], [])
  end.

(** After a child has been followed: the smaller low link value, if the child is on the stack. *)
Definition relax (node child : string) (st : TarjanState) : result GraphError TarjanState :=
  if js_has (t_stack st) child then
    childLow ← of_option AssertionError (jm_get (t_lowLinkValues st) child);
    ownLow ← of_option AssertionError (jm_get (t_lowLinkValues st) node);
    Ok (t_with_low st (jm_set (t_lowLinkValues st) node (min childLow ownLow)))
  else Ok st.

(** After all children: the component whose root the node is. *)
Definition close_component (node : string) (st : TarjanState) : result GraphError TarjanState :=
  ownId ← of_option AssertionError (jm_get (t_ids st) node);
  ownLow ← of_option AssertionError (jm_get (t_lowLinkValues st) node);
  if decide (ownId = ownLow) then
    let '(scc, rest) := pop_component (t_lowLinkValues st) ownId (t_stack st) in
    Ok (mkTarjan (t_id st) (t_visited st) (t_ids st) (t_lowLinkValues st) rest
      (if decide (scc = []) then t_components st else t_components st ++ [scc]))
  else Ok st.

Fixpoint followNode (g : DirectedGraph) (fuel : nat) (node : string) (st : TarjanState)
    : result GraphError TarjanState :=
  match fuel with
  | 0 => Err OutOfFuel
  | S fuel =>
    if js_has (t_visited st) node then Ok st
    else
      let st := mkTarjan (S (t_id st)) (js_add (t_visited st) node) (jm_set (t_ids st) node (t_id st))
        (jm_set (t_lowLinkValues st) node (t_id st)) (node :: t_stack st) (t_components st) in
      conns ← getDirectChildConnections g node;
      st ← foldM (λ st child, st ← followNode g fuel child st; relax node child st) st (gc_to <$> conns);
      close_component node st
  end.

Definition getStronglyConnectedComponents (g : DirectedGraph) : result GraphError (list (list string)) :=
  st ← foldM (λ st node, followNode g (S (S (length (g_conns g)))) node st)
    (mkTarjan 0 [] [] [] [] []) (jm_keys (g_nodes g));
  Ok (t_components st).

(** * Import and export *)

Definition clone (g : DirectedGraph) : result GraphError DirectedGraph :=
  addConnections (addNodes empty_graph (jm_vals (g_nodes g))) (g_conns g).

(** The connections of one output type, with the node they come from. *)
Definition output_conns (from : string) (outputType : string) (outputs : NodeInputConnections)
    : list (string * GraphConnection) :=
  '(outputIndex, conns) ← entries outputs;
  conn ← bucket conns;
  [(c_node conn, mkGC from (c_node conn) outputType outputIndex (c_index conn))].

Definition node_conns (from : string) (iConnection : INodeConnections) : list (string * GraphConnection) :=
  '(outputType, outputs) ← iConnection; output_conns from outputType outputs.

Section FromConnections.
(** How a name is looked up: [workflow.getNode] or the map of the given nodes. *)
Context (find : string → option INode).

Definition import_connection (g : DirectedGraph) (e : string * GraphConnection) : result GraphError DirectedGraph :=
  let '(toNodeName, c) := e in
  to ← of_option AssertionError (find toNodeName);
  addConnection g (mkGC (gc_from c) (n_name to) (gc_type c) (gc_outputIndex c) (gc_inputIndex c)).

Definition import_node (g : DirectedGraph) (e : string * INodeConnections) : result GraphError DirectedGraph :=
  let '(fromNodeName, iConnection) := e in
  from ← of_option AssertionError (find fromNodeName);
  foldM import_connection g (node_conns (n_name from) iConnection).
End FromConnections.

Definition fromWorkflow (w : Workflow) : result GraphError DirectedGraph :=
  foldM (import_node (getNode w)) (addNodes empty_graph (jm_vals (w_nodes w))) (connectionsBySourceNode w).

Definition fromNodesAndConnections (nodes : list INode) (connections : IConnections)
    : result GraphError DirectedGraph :=
  let nodeMap := foldl (λ m n, jm_set m (n_name n) n) [] nodes in
  foldM (import_node (jm_get nodeMap)) (addNodes empty_graph nodes) connections.

(** The first connection of a node creates the object with the type of that connection only. *)
Definition export_connection (cs : IConnections) (c : GraphConnection) : result GraphError IConnections :=
  let nc := default [(gc_type c, [])] (jm_get cs (gc_from c)) in
  slots ← of_option (GraphTypeError "Cannot read properties of undefined") (jm_get nc (gc_type c));
  let group := bucket (default None (slots !! gc_outputIndex c)) in
  Ok (jm_set cs (gc_from c)
    (jm_set nc (gc_type c)
       (arr_set None slots (gc_outputIndex c) (Some (group ++ [mkConn (gc_to c) (gc_type c) (gc_inputIndex c)]))))).

Definition toIConnections (g : DirectedGraph) : result GraphError IConnections :=
  foldM export_connection [] (g_conns g).

Definition toWorkflow (g : DirectedGraph) (pinData : option IPinData) (executionOrder : option string)
    : result GraphError Workflow :=
  cs ← toIConnections g;
  Ok (make_workflow (jm_vals (g_nodes g)) cs pinData executionOrder).

(** * The searches are correct *)

Section Collect.
Context {A : Type} `{EqDecision A} (out : string → result GraphError (list A)) (next : A → string).

(** The shape of the two searches that add to a shared set. *)
Fixpoint collect (fuel : nat) (n : string) (S0 : list A) : result GraphError (list A) :=
  match fuel with
  | 0 => Err OutOfFuel
  | S fuel =>
    l ← out n;
    foldM (λ S1 e, if js_has S1 e then Ok S1 else collect fuel (next e) (js_add S1 e)) S0 l
  end.

Definition successor (n : string) (e : A) : Prop := ∃ l, out n = Ok l ∧ e ∈ l.

(** [e] is found from [n]. *)
Definition found_from (n : string) (e : A) : Prop :=
  ∃ e0, successor n e0 ∧ rtc (λ a b, successor (next a) b) e0 e.

Context (V : list A) (ok : string → Prop).
Context (Hout : ∀ n, ok n → ∃ l, out n = Ok l ∧ l ⊆ V).
Context (Hnext : ∀ e, e ∈ V → ok (next e)).

(** What a search from the elements [es] adds to [S0]. *)
Record collected (S0 S1 : list A) (es : list A) : Prop := {
  co_mono : S0 ⊆ S1;
  co_nodup : NoDup S0 → NoDup S1;
  co_all : es ⊆ S1;
  co_sound : ∀ e, e ∈ S1 → e ∈ S0 ∨ ∃ e0, e0 ∈ es ∧ rtc (λ a b, successor (next a) b) e0 e;
  co_closed : ∀ e e', e ∈ S1 → e ∉ S0 → successor (next e) e' → e' ∈ S1;
}.

Lemma collected_step S0 S1 S2 e es l :
  e ∉ S0 → out (next e) = Ok l →
  collected (js_add S0 e) S1 l → collected S1 S2 es → collected S0 S2 (e :: es).
Proof.
  intros He Hl [M1 N1 A1 So1 C1] [M2 N2 A2 So2 C2].
  assert (∀ x, x ∈ js_add S0 e ↔ x = e ∨ x ∈ S0) as Hadd by (intros; apply js_add_elem).
  split.
  - intros x Hx. apply M2, M1, Hadd. by right.
  - intros Hd. apply N2, N1, js_add_NoDup, Hd.
  - intros x [->|Hx]%elem_of_cons; [apply M2, M1, Hadd; by left|by apply A2].
  - intros x [Hx|(e0 & H0 & Hr)]%So2; [|right; exists e0; split; [by right|done]].
    apply So1 in Hx as [Hx|(e0 & H0 & Hr)].
    + apply Hadd in Hx as [->|Hx]; [|by left]. right. exists e. split; [by left|apply rtc_refl].
    + right. exists e. split; [by left|]. eapply rtc_l; [|done]. by exists l.
  - intros x x' Hx Hn Hs. destruct (decide (x ∈ S1)) as [Hx1|Hx1]; [|by eapply C2].
    apply M2. destruct (decide (x = e)) as [->|Hne].
    + destruct Hs as (l' & Hl' & Hin). rewrite Hl in Hl'. injection Hl' as <-. by apply A1.
    + eapply C1; [done| |done]. rewrite Hadd. naive_solver.
Qed.

Lemma collected_skip S0 S1 e es : e ∈ S0 → collected S0 S1 es → collected S0 S1 (e :: es).
Proof.
  intros He [M N Al So C]. split; [done|done| | |done].
  - intros x [->|Hx]%elem_of_cons; [by apply M|by apply Al].
  - intros x [Hx|(e0 & H0 & Hr)]%So; [by left|]. right. exists e0. split; [by right|done].
Qed.

Lemma collect_list_spec fuel l S0 :
  (∀ n S0, ok n → unseen V S0 < fuel → ∃ l S1, out n = Ok l ∧ collect fuel n S0 = Ok S1 ∧ collected S0 S1 l) →
  l ⊆ V → unseen V S0 ≤ fuel →
  ∃ S1, foldM (λ S1 e, if js_has S1 e then Ok S1 else collect fuel (next e) (js_add S1 e)) S0 l = Ok S1 ∧
    collected S0 S1 l.
Proof.
  intros IH. revert S0; induction l as [|e l IHl]; intros S0 HlV Hf; cbn [foldM].
  - exists S0. split; [done|]. split; [done|done|by intros x ?%not_elem_of_nil|by left|done].
  - assert (e ∈ V) as HeV by (apply HlV; by left).
    assert (l ⊆ V) as HlV' by (intros x Hx; apply HlV; by right).
    destruct (js_has S0 e) eqn:He; cbn [mbind result_bind].
    + apply js_has_true in He. destruct (IHl S0 HlV' Hf) as (S1 & H1 & H2).
      exists S1. split; [done|]. by apply collected_skip.
    + apply js_has_false in He.
      destruct (IH (next e) (js_add S0 e)) as (le & S1 & Hle & HS1 & Hc); [by apply Hnext| |].
      { pose proof (unseen_add V S0 e HeV He). lia. }
      rewrite HS1. cbn [mbind result_bind].
      destruct (IHl S1) as (S2 & H1 & H2); [done| |].
      { transitivity (unseen V S0); [|done]. apply unseen_mono. intros x Hx.
        apply (co_mono _ _ _ Hc). apply js_add_elem. by right. }
      exists S2. split; [done|]. by eapply collected_step.
Qed.

Lemma collect_spec fuel n S0 :
  ok n → unseen V S0 < fuel → ∃ l S1, out n = Ok l ∧ collect fuel n S0 = Ok S1 ∧ collected S0 S1 l.
Proof.
  revert n S0; induction fuel as [|fuel IH]; intros n S0 Hok Hf; [lia|]. cbn [collect].
  destruct (Hout n Hok) as (l & Hl & HlV). rewrite Hl. cbn [mbind result_bind].
  destruct (collect_list_spec fuel l S0) as (S1 & H1 & H2); [exact IH|done|lia|].
  by exists l, S1.
Qed.

(** From the empty set the search finds exactly what is reachable, once. *)
Lemma collect_all fuel n :
  ok n → length V < fuel →
  ∃ S1, collect fuel n [] = Ok S1 ∧ NoDup S1 ∧ ∀ e, e ∈ S1 ↔ found_from n e.
Proof.
  intros Hok Hf. pose proof (unseen_le V ([] : list A)).
  destruct (collect_spec fuel n []) as (l & S1 & Hl & HS1 & [M N Al So C]); [done|lia|].
  exists S1. split; [done|]. split; [apply N, NoDup_nil_2|]. intros e. split.
  - intros [?%not_elem_of_nil|(e0 & H0 & Hr)]%So; [done|]. exists e0. split; [by exists l|done].
  - intros (e0 & (l' & Hl' & H0) & Hr). rewrite Hl in Hl'. injection Hl' as <-.
    assert (e0 ∈ S1) as Hin by (by apply Al). clear H0.
    induction Hr as [|a b c Hab _ IH]; [done|]. apply IH. eapply C; [done|apply not_elem_of_nil|done].
Qed.
End Collect.

(** The ends of the connections are nodes of the graph. *)
Definition wf_graph (g : DirectedGraph) : Prop :=
  ∀ c, c ∈ g_conns g → hasNode g (gc_from c) = true ∧ hasNode g (gc_to c) = true.

Definition g_edge (g : DirectedGraph) (a b : string) : Prop :=
  ∃ c, c ∈ g_conns g ∧ gc_from c = a ∧ gc_to c = b.

Section Reach.
Context (g : DirectedGraph) (Hwf : wf_graph g).

Definition child_names (n : string) : result GraphError (list string) :=
  l ← getDirectChildConnections g n; Ok (fmap (M := list) gc_to l).

Lemma foldM_fmap {E A B S} (f : S → B → result E S) (h : A → B) s l :
  foldM f s (h <$> l) = foldM (λ s a, f s (h a)) s l.
Proof. revert s; induction l as [|a l IH]; intros s; cbn; [done|]. destruct (f s (h a)); [apply IH|done]. Qed.

Lemma foldM_ext {E A S} (f f' : S → A → result E S) s l :
  (∀ s a, f s a = f' s a) → foldM f s l = foldM f' s l.
Proof.
  intros H. revert s; induction l as [|a l IH]; intros s; cbn; [done|]. rewrite H. destruct (f' s a); [apply IH|done].
Qed.

Lemma getChildren_collect fuel n S0 : getChildrenRecursive g fuel n S0 = collect child_names id fuel n S0.
Proof.
  revert n S0; induction fuel as [|fuel IH]; intros n S0; [done|]. cbn [getChildrenRecursive collect].
  unfold child_names at 2. destruct (getDirectChildConnections g n) as [l|]; [|done]. cbn [mbind result_bind].
  rewrite foldM_fmap. apply foldM_ext. intros s a. by rewrite IH.
Qed.

Lemma getParents_collect fuel n S0 :
  getParentConnectionsRecursive g fuel n S0 = collect (getDirectParentConnections g) gc_from fuel n S0.
Proof.
  revert n S0; induction fuel as [|fuel IH]; intros n S0; [done|]. cbn [getParentConnectionsRecursive collect].
  destruct (getDirectParentConnections g n) as [l|]; [|done]. cbn [mbind result_bind].
  apply foldM_ext. intros s a. by rewrite IH.
Qed.

Lemma child_successor n e : hasNode g n = true → successor child_names n e ↔ g_edge g n e.
Proof.
  intros Hn. unfold successor, child_names, getDirectChildConnections. rewrite Hn. cbn. split.
  - intros (l & [= <-] & (c & -> & Hc)%list_elem_of_fmap). apply list_elem_of_filter in Hc as [<- Hc]. by exists c.
  - intros (c & Hc & <- & <-). eexists. split; [done|]. apply list_elem_of_fmap. exists c.
    split; [done|]. by apply list_elem_of_filter.
Qed.

Lemma edge_nodes a b : g_edge g a b → hasNode g a = true ∧ hasNode g b = true.
Proof. intros (c & Hc & <- & <-). by apply Hwf. Qed.

Lemma children_reachable n e :
  hasNode g n = true → found_from child_names id n e ↔ tc (g_edge g) n e.
Proof.
  intros Hn. unfold found_from. split.
  - intros (e0 & H0 & Hr). apply child_successor in H0; [|done].
    assert (∀ a, rtc (λ a b, successor child_names (id a) b) a e → hasNode g a = true → rtc (g_edge g) a e) as H.
    { clear Hr. intros a Ha. induction Ha as [a|a b c Hab _ IH]; intros Hna; [apply rtc_refl|].
      apply child_successor in Hab; [|done]. eapply rtc_l; [exact Hab|]. apply IH.
      by apply edge_nodes in Hab as [_ ?]. }
    apply H in Hr; [|by apply edge_nodes in H0 as [_ ?]]. apply rtc_tc_or in Hr as [<-|Hr]; [by apply tc_once|].
    by eapply tc_l.
  - intros (e0 & H0 & Hr)%tc_rtc_inv. exists e0. split; [by apply child_successor|].
    clear H0. induction Hr as [|a b c Hab _ IH]; [done|]. eapply rtc_l; [apply child_successor; [by apply edge_nodes in Hab as [? _]|done]|].
    apply IH.
Qed.

Lemma getChildren_spec n :
  hasNode g n = true →
  ∃ l, getChildren g n = Ok l ∧ NoDup l ∧ ∀ x, x ∈ l ↔ tc (g_edge g) n x.
Proof.
  intros Hn. unfold getChildren. rewrite getChildren_collect.
  destruct (collect_all child_names id (gc_to <$> g_conns g) (λ n, hasNode g n = true))
    with (n := n) (fuel := S (length (g_conns g))) as (l & Hl & Hd & H).
  - intros m Hm. unfold child_names, getDirectChildConnections. rewrite Hm. cbn. eexists. split; [done|].
    intros x (c & -> & Hc%list_elem_of_filter)%list_elem_of_fmap. apply list_elem_of_fmap. exists c. naive_solver.
  - intros e (c & -> & Hc)%list_elem_of_fmap. by apply Hwf.
  - done.
  - rewrite length_fmap. lia.
  - exists l. split; [done|]. split; [done|]. intros x. rewrite H. by apply children_reachable.
Qed.

(** A connection on a path to [n]. *)
Definition upstream (n : string) (c : GraphConnection) : Prop := c ∈ g_conns g ∧ rtc (g_edge g) (gc_to c) n.

Lemma parent_successor n c :
  hasNode g n = true → successor (getDirectParentConnections g) n c ↔ c ∈ g_conns g ∧ gc_to c = n.
Proof.
  intros Hn. unfold successor, getDirectParentConnections. rewrite Hn. split.
  - intros (l & [= <-] & [? ?]%list_elem_of_filter). done.
  - intros [? ?]. eexists. split; [done|]. by apply list_elem_of_filter.
Qed.

Lemma getParentConnections_spec n :
  hasNode g n = true →
  ∃ l, getParentConnections g n = Ok l ∧ NoDup l ∧ ∀ c, c ∈ l ↔ upstream n c.
Proof.
  intros Hn. unfold getParentConnections. rewrite getParents_collect.
  destruct (collect_all (getDirectParentConnections g) gc_from (g_conns g) (λ n, hasNode g n = true))
    with (n := n) (fuel := S (length (g_conns g))) as (l & Hl & Hd & H).
  - intros m Hm. unfold getDirectParentConnections. rewrite Hm. eexists. split; [done|].
    by intros x [_ ?]%list_elem_of_filter.
  - intros e Hc. by apply Hwf.
  - done.
  - lia.
  - exists l. split; [done|]. split; [done|]. intros c. rewrite H. unfold found_from, upstream. split.
    + intros (c0 & [H0 <-]%parent_successor & Hr); [|done]. clear Hl H Hd Hn.
      induction Hr as [c0|c0 c1 c2 Hab _ IH]; [by split|].
      apply parent_successor in Hab as [Hb Hab]; [|by apply Hwf]. destruct (IH Hb) as [Hc Hr].
      split; [done|]. eapply rtc_r; [done|]. by exists c0.
    + intros [Hc Hr]. clear Hl H Hd.
      remember (gc_to c) as m eqn:Hm. revert c Hc Hm.
      induction Hr as [m|a b m (c1 & H1 & <- & <-) _ IH]; intros c Hc Hm.
      * exists c. split; [by apply parent_successor|apply rtc_refl].
      * destruct (IH Hn c1 H1 eq_refl) as (c0 & H0 & Hr0). exists c0. split; [done|].
        eapply rtc_r; [done|]. apply parent_successor; [by apply Hwf|]. by rewrite Hm.
Qed.
End Reach.

(** ** Depth first search *)

Section Search.
Context (g : DirectedGraph) (Hwf : wf_graph g) (fn : string → bool) (V : list string).
Context (HV : ∀ c, c ∈ g_conns g → gc_to c ∈ V).

(** The outcome of a search from the nodes [starts]: a node found on a path from one of them, or
    everything reachable has been seen and rejected. *)
Definition search_outcome (starts seen : list string) (r : option string * list string) : Prop :=
  seen ⊆ r.2 ∧
  match r.1 with
  | Some x => fn x = true ∧ ∃ s, s ∈ starts ∧ rtc (g_edge g) s x
  | None => starts ⊆ r.2 ∧
      ∀ x, x ∈ r.2 → x ∉ seen → fn x = false ∧ ∀ y, g_edge g x y → y ∈ r.2
  end.

Lemma dfs_spec fuel from seen :
  hasNode g from = true → from ∈ V → unseen V seen < fuel →
  ∃ r, depthFirstSearchRecursive g fuel fn from seen = Ok r ∧ search_outcome [from] seen r.
Proof.
  revert from seen; induction fuel as [|fuel IH]; intros from seen Hn HfV Hf; [lia|].
  cbn [depthFirstSearchRecursive]. destruct (js_has seen from) eqn:Hs.
  { apply js_has_true in Hs. eexists. split; [done|]. split; cbn; [done|]. split; [|done].
    by intros x ->%list_elem_of_singleton. }
  apply js_has_false in Hs. pose proof (unseen_add V seen from HfV Hs) as Hlt.
  assert (∀ x, x ∈ js_add seen from ↔ x = from ∨ x ∈ seen) as Hadd by (intros; apply js_add_elem).
  destruct (fn from) eqn:Hfn.
  { eexists. split; [done|]. split; cbn; [intros x Hx; apply Hadd; by right|]. split; [done|].
    exists from. split; [by left|apply rtc_refl]. }
  unfold getDirectChildConnections. rewrite Hn. cbn [mbind result_bind].
  assert (∀ l seen1, (∀ c, c ∈ l → c ∈ g_conns g) → js_add seen from ⊆ seen1 →
    ∃ r, dfs_children (depthFirstSearchRecursive g fuel fn) l seen1 = Ok r ∧ search_outcome (gc_to <$> l) seen1 r) as H.
  { induction l as [|c l IHl]; intros seen1 Hl Hsub; cbn [dfs_children].
    - eexists. split; [done|]. split; cbn; [done|]. split; [by intros x ?%not_elem_of_nil|done].
    - assert (c ∈ g_conns g) as Hc by (apply Hl; by left).
      destruct (IH (gc_to c) seen1) as ([found seen2] & Hr & Hsub2 & Ho); [by apply Hwf|by apply HV| |].
      { pose proof (unseen_mono V _ _ Hsub). lia. }
      rewrite Hr. cbn in Hsub2, Ho. cbn [mbind result_bind]. destruct found as [x|].
      + eexists. split; [done|]. split; cbn; [done|]. destruct Ho as (Hx & s & ->%list_elem_of_singleton & Hrs).
        split; [done|]. exists (gc_to c). split; [by left|done].
      + destruct (IHl seen2) as ([found3 seen3] & Hr3 & Hsub3 & Ho3); [intros; apply Hl; by right|by etrans|].
        exists (found3, seen3). split; [done|]. cbn in *. split; cbn; [by etrans|]. destruct found3 as [x|].
        * destruct Ho3 as (Hx & s & Hsin & Hrs). split; [done|]. exists s. split; [by right|done].
        * destruct Ho as [Ho1 Ho2], Ho3 as [Ho3 Ho4]. split.
          -- intros x [->|Hx]%elem_of_cons; [apply Hsub3, Ho1; by left|by apply Ho3].
          -- intros x Hx Hxn. destruct (decide (x ∈ seen2)) as [Hx2|Hx2]; [|by apply Ho4].
             destruct (Ho2 x Hx2 Hxn) as [? Hy]. split; [done|]. intros y Hxy. by apply Hsub3, Hy. }
  destruct (H (filter (λ c, gc_from c = from) (g_conns g)) (js_add seen from)) as ([found seen2] & Hr & Hsub & Ho);
    [by intros c [_ ?]%list_elem_of_filter|done|].
  exists (found, seen2). split; [done|]. cbn in *. split; cbn; [intros x Hx; apply Hsub, Hadd; by right|].
  destruct found as [x|].
  - destruct Ho as (Hx & s & (c & -> & [Hcf Hc]%list_elem_of_filter)%list_elem_of_fmap & Hrs). split; [done|].
    exists from. split; [by left|]. eapply rtc_l; [|done]. by exists c.
  - destruct Ho as [Ho1 Ho2]. split.
    + intros x ->%list_elem_of_singleton. apply Hsub, Hadd. by left.
    + intros x Hx Hxn. destruct (decide (x = from)) as [->|Hne].
      * split; [done|]. intros y (c & Hc & Hcf & <-). apply Ho1, list_elem_of_fmap. exists c.
        split; [done|]. by apply list_elem_of_filter.
      * apply Ho2; [done|]. rewrite Hadd. naive_solver.
Qed.
End Search.

Lemma depthFirstSearch_spec g from fn :
  wf_graph g → hasNode g from = true →
  ∃ r, depthFirstSearch g from fn = Ok r ∧
    match r with
    | Some x => fn x = true ∧ rtc (g_edge g) from x
    | None => ∀ x, rtc (g_edge g) from x → fn x = false
    end.
Proof.
  intros Hwf Hn.
  destruct (dfs_spec g Hwf fn (from :: (gc_to <$> g_conns g))) with (fuel := S (S (length (g_conns g)))) (from := from)
    (seen := @nil string) as ([found seen] & Hr & _ & Ho).
  - intros c Hc. right. by apply list_elem_of_fmap_2.
  - done.
  - by left.
  - pose proof (unseen_le (from :: (gc_to <$> g_conns g)) []). rewrite length_cons, length_fmap in *. lia.
  - exists found. unfold depthFirstSearch. rewrite Hr. split; [done|]. cbn in Ho. destruct found as [x|].
    + destruct Ho as (? & s & ->%list_elem_of_singleton & ?). done.
    + destruct Ho as [Ho1 Ho2]. intros x Hx.
      assert (x ∈ seen) as Hin; [|by apply Ho2; [|apply not_elem_of_nil]].
      assert (from ∈ seen) as Hs by (apply Ho1; by left). clear Ho1 Hr Hn.
      induction Hx as [|a b c Hab _ IH]; [done|]. apply IH. by eapply Ho2; [|apply not_elem_of_nil|].
Qed.

(** ** The graph operations keep the ends of connections in the graph *)

Lemma jm_vals_set {K V} `{EqDecision K} (m : jmap K V) k v x : x ∈ jm_vals (jm_set m k v) → x = v ∨ x ∈ jm_vals m.
Proof.
  unfold jm_vals. intros ([k' x'] & -> & H)%list_elem_of_fmap. apply jm_elem_set in H as [[= -> ->]|H]; [by left|].
  right. apply list_elem_of_fmap. by exists (k', x').
Qed.

Lemma hasNode_set (ns : jmap string INode) cs name node n :
  hasNode (mkGraph (jm_set ns name node) cs) n = bool_decide (n = name) || hasNode (mkGraph ns cs) n.
Proof.
  unfold hasNode, jm_has; cbn. destruct (decide (name = n)) as [->|Hne].
  - rewrite jm_get_set, bool_decide_true; done.
  - rewrite jm_get_set_ne, bool_decide_false; done.
Qed.

Lemma addNode_wf g n : wf_graph g → wf_graph (addNode g n).
Proof.
  intros H c Hc. destruct (H c Hc) as [H1 H2]. unfold addNode. rewrite !hasNode_set.
  unfold hasNode in *. cbn in *. by rewrite H1, H2, !orb_true_r.
Qed.

Lemma addNodes_wf g l : wf_graph g → wf_graph (addNodes g l).
Proof. apply foldl_inv. intros g1 n _. apply addNode_wf. Qed.

Lemma set_connection_wf g c :
  wf_graph g → hasNode g (gc_from c) = true → hasNode g (gc_to c) = true → wf_graph (set_connection g c).
Proof. intros H Hf Ht x [->|Hx]%jm_vals_set; [done|by apply H]. Qed.

Lemma addConnection_wf g c g' : wf_graph g → addConnection g c = Ok g' → wf_graph g'.
Proof.
  intros H. unfold addConnection. destruct (hasNode g (gc_from c) && _) eqn:Hc; [|done]. intros [= <-].
  apply andb_true_iff in Hc as [? ?]. by apply set_connection_wf.
Qed.

Lemma import_wf find g l g' : wf_graph g → foldM (import_node find) g l = Ok g' → wf_graph g'.
Proof.
  intros H. apply (foldM_inv _ wf_graph); [|done]. intros g1 [name nc] g2 _ H1. unfold import_node.
  intros (from & _ & H2)%bind_Ok. revert H2. apply (foldM_inv _ wf_graph); [|done].
  intros g3 [to c] g4 _ H3. unfold import_connection. intros (n & _ & H4)%bind_Ok. by eapply addConnection_wf.
Qed.

Lemma empty_wf : wf_graph empty_graph.
Proof. by intros c ?%not_elem_of_nil. Qed.

Lemma fromWorkflow_wf w g : fromWorkflow w = Ok g → wf_graph g.
Proof. apply import_wf, addNodes_wf, empty_wf. Qed.

Lemma clone_wf g g' : clone g = Ok g' → wf_graph g'.
Proof.
  unfold clone, addConnections. apply (foldM_inv _ wf_graph); [|apply addNodes_wf, empty_wf].
  intros g1 c g2 _. apply addConnection_wf.
Qed.

(** * Properties *)

(** In a graph whose connections end in its nodes, the recursive searches terminate without a failed
    assertion: [getChildren] returns each node a non-empty path leads to once (the node itself
    exactly when it lies on a cycle), [getParentConnections] each connection on a path to the node,
    and [depthFirstSearch] a reachable node with the property, if there is one. *)
Theorem graph_searches_correct g n fn :
  wf_graph g → hasNode g n = true →
  (∃ l, getChildren g n = Ok l ∧ NoDup l ∧ ∀ x, x ∈ l ↔ tc (g_edge g) n x) ∧
  (∃ l, getParentConnections g n = Ok l ∧ NoDup l ∧
     ∀ c, c ∈ l ↔ c ∈ g_conns g ∧ rtc (g_edge g) (gc_to c) n) ∧
  (∃ r, depthFirstSearch g n fn = Ok r ∧
    match r with
    | Some x => fn x = true ∧ rtc (g_edge g) n x
    | None => ∀ x, rtc (g_edge g) n x → fn x = false
    end).
Proof.
  intros Hwf Hn. split_and!; [by apply getChildren_spec|by apply getParentConnections_spec|
    by apply depthFirstSearch_spec].
Qed.

(** The cycle [a → b → c → b → a] behind a trigger. *)
Definition knot : result GraphError DirectedGraph :=
  fromNodesAndConnections (map (λ n, plain_node n "set") ["t"; "a"; "b"; "c"])
    [("t", [(Main, [Some [mkConn "a" Main 0]])]);
     ("a", [(Main, [Some [mkConn "b" Main 0]])]);
     ("b", [(Main, [Some [mkConn "c" Main 0]; Some [mkConn "a" Main 0]])]);
     ("c", [(Main, [Some [mkConn "b" Main 0]])])].

(** [getStronglyConnectedComponents] can miss a component: three nodes that reach each other appear
    in no component, and neither does the trigger before them. *)
Theorem component_missed :
  ∃ g, knot = Ok g ∧ getStronglyConnectedComponents g = Ok [] ∧
    g_edge g "a" "b" ∧ g_edge g "b" "c" ∧ g_edge g "c" "b" ∧ g_edge g "b" "a".
Proof.
  eexists. split; [vm_compute; reflexivity|]. split; [vm_compute; reflexivity|].
  split_and!; [eexists (mkGC "a" "b" Main 0 0)|eexists (mkGC "b" "c" Main 0 0)|eexists (mkGC "c" "b" Main 0 0)
    |eexists (mkGC "b" "a" Main 1 0)]; split_and!; try reflexivity; by_decide.
Qed.

(** Exporting a graph throws when a node has connections of two types: the object of the node is
    created with the type of its first connection only. *)
Theorem export_two_types_throws g c1 c2 rest :
  g_conns g = c1 :: c2 :: rest → gc_from c1 = gc_from c2 → gc_type c1 ≠ gc_type c2 →
  toIConnections g = Err (GraphTypeError "Cannot read properties of undefined").
Proof.
  intros Hg Hf Ht. unfold toIConnections. rewrite Hg. cbn [foldM].
  assert (∃ slots, export_connection [] c1 = Ok [(gc_from c1, [(gc_type c1, slots)])]) as [slots ->].
  { eexists. unfold export_connection. cbn. rewrite decide_True by done. cbn. by rewrite decide_True. }
  cbn [mbind result_bind foldM].
  assert (export_connection [(gc_from c1, [(gc_type c1, slots)])] c2 =
    Err (GraphTypeError "Cannot read properties of undefined")) as ->; [|done].
  unfold export_connection. rewrite Hf. cbn. rewrite decide_True by done. cbn. by rewrite decide_False.
Qed.

(** ** Witnesses *)

Lemma graph_searches_correct_witness :
  ∃ g, knot = Ok g ∧ ∃ l, getChildren g "t" = Ok l ∧ NoDup l ∧ ∀ x, x ∈ l ↔ tc (g_edge g) "t" x.
Proof.
  assert (∃ g, knot = Ok g ∧ hasNode g "t" = true) as (g & Hg & Hn)
    by (eexists; split; [vm_compute; reflexivity|vm_compute; reflexivity]).
  exists g. split; [exact Hg|]. apply (graph_searches_correct g "t" (λ _, true)); [|exact Hn].
  unfold knot, fromNodesAndConnections in Hg. revert Hg. apply import_wf, addNodes_wf, empty_wf.
Defined.

Definition two_types : DirectedGraph :=
  let c1 := mkGC "a" "b" Main 0 0 in
  let c2 := mkGC "a" "c" AiTool 0 0 in
  set_connection (set_connection (addNodes empty_graph (map (λ n, plain_node n "set") ["a"; "b"; "c"])) c1) c2.

Lemma export_two_types_throws_witness :
  toIConnections two_types = Err (GraphTypeError "Cannot read properties of undefined").
Proof.
  apply (export_two_types_throws two_types (mkGC "a" "b" Main 0 0) (mkGC "a" "c" AiTool 0 0) []);
    [vm_compute; reflexivity|reflexivity|discriminate].
Defined.
