(* ===== verification/PartialExecution.v ===== *)
(** PartialExecution: packages/core/src/execution-engine/partial-execution-utils
    and [runPartialWorkflow2] of workflow-execute.ts.

    A partial execution finds the trigger, cuts the workflow down to what lies
    between it and the destination, finds the nodes to start at, cleans the run data
    behind them and recreates the stack and the waiting maps of the engine.  Sets of
    nodes are lists of names without duplicates in insertion order; every set of a
    recursion that the code shares between its calls is threaded through them. *)

From stdpp Require Import prelude list strings pretty relations.
From Stdlib Require Import ZArith QArith Lia.
From S2P Require Import Prelude Types Traversal WorkflowClass ExecutionTypes ExecutionStack NodeRun RequestsResponse DirectedGraph.
Local Open Scope nat_scope.

Definition graph_throwing {A} (r : result string A) : result GraphError A :=
  match r with Ok a => Ok a | Err m => Err (GraphTypeError m) end.

(** * Run data (get-incoming-data.ts, run-data-utils.ts) *)

(** [runData[nodeName]?.at(runIndex)?.data?.[type].at(outputIndex) ?? null] *)
Definition getIncomingData (rd : IRunData) (nodeName : string) (runIndex : Z) (connectionType : NodeConnectionType)
    (outputIndex : nat) : result GraphError (option Items) :=
  match (tasks ← jm_get rd nodeName; arr_at tasks runIndex) with
  | None => Ok None
  | Some task =>
    match td_data task with
    | None => Ok None
    | Some data =>
      outputs ← of_option (GraphTypeError "at of undefined") (jm_get data connectionType);
      Ok (match slot_at outputs outputIndex with SVal l => Some l | _ => None end)
    end
  end.

Definition getRunIndexLength (rd : IRunData) (nodeName : string) : nat :=
  match jm_get rd nodeName with Some l => length l | None => 0 end.

Fixpoint incoming_from_runs (rd : IRunData) (nodeName : string) (connectionType : NodeConnectionType)
    (outputIndex : nat) (runIndexes : list nat) : result GraphError (option (Items * nat)) :=
  match runIndexes with
  | [] => Ok None
  | runIndex :: rest =>
    data ← getIncomingData rd nodeName (Z.of_nat runIndex) connectionType outputIndex;
    match data with
    | Some (x :: l) => Ok (Some (x :: l, runIndex))
    | _ => incoming_from_runs rd nodeName connectionType outputIndex rest
    end
  end.

Definition getIncomingDataFromAnyRun (rd : IRunData) (nodeName : string) (connectionType : NodeConnectionType)
    (outputIndex : nat) : result GraphError (option (Items * nat)) :=
  incoming_from_runs rd nodeName connectionType outputIndex (seq 0 (getRunIndexLength rd nodeName)).

Definition getNextExecutionIndex (rd : IRunData) : nat :=
  match (td_executionIndex <$> mjoin (jm_vals rd)) with
  | [] => 0
  | i :: l => S (foldl max i l)
  end.

(** * The trigger (find-trigger-for-partial-execution.ts) *)

Section Trigger.
Context (getByNameAndVersion : string → Q → option INodeType) (w : Workflow).

Definition type_of_node (n : INode) : result GraphError INodeType :=
  of_option (GraphTypeError "description of undefined") (getByNameAndVersion (n_type n) (n_typeVersion n)).

(** The parents that are triggers. *)
Definition findAllParentTriggers (destinationNodeName : string) : result GraphError (list INode) :=
  foldM (λ acc name,
    node ← of_option AssertionError (getNode w name);
    t ← type_of_node node;
    Ok (if isTriggerNode (t_description t) then acc ++ [node] else acc))
    [] (w_getParentNodes w destinationNodeName (OfType Main) (-1)).

Definition is_webhook (n : INode) : bool := ends_with (n_type n) "webhook".

Definition webhook_cmp (a b : INode) : Z := if is_webhook a then -1 else if is_webhook b then 1 else 0.

Definition findTriggerForPartialExecution (destinationNodeName : string) (rd : IRunData)
    : result GraphError (option INode) :=
  match getNode w destinationNodeName with
  | None => Ok None
  | Some destinationNode =>
    t ← type_of_node destinationNode;
    if isTriggerNode (t_description t) && negb (is_disabled destinationNode) then Ok (Some destinationNode)
    else
      parentTriggers ← findAllParentTriggers destinationNodeName;
      let parentTriggers := filter (λ n, is_disabled n = false) parentTriggers in
      match filter (λ n, jm_has rd (n_name n) = true) parentTriggers with
      | trigger :: _ => Ok (Some trigger)
      | [] =>
        let pinned := filter (λ n, is_Some (getPinDataOfNode w (n_name n))) parentTriggers in
        match js_sort webhook_cmp pinned with
        | trigger :: _ => Ok (Some trigger)
        | [] => Ok (head (filter (λ n, is_webhook n = true) parentTriggers ++ parentTriggers))
        end
      end
  end.
End Trigger.

(** Whether a root above the destination has run data. *)
Definition anyReachableRootHasRunData (g : DirectedGraph) (destinationNodeName : string) (rd : IRunData)
    : result GraphError bool :=
  if negb (hasNode g destinationNodeName) then Ok false
  else
    parentConnections ← getParentConnections g destinationNodeName;
    let parentNodes := js_of_list (fmap (M := list) gc_from parentConnections) in
    rootNodes ← foldM (λ roots parentNode,
      conns ← getDirectParentConnections g parentNode;
      Ok (if existsb (λ c, bool_decide (gc_type c = Main)) conns then roots else js_add roots parentNode))
      [] parentNodes;
    Ok (existsb (λ n, jm_has rd n) rootNodes).

(** * The subgraph (filter-disabled-nodes.ts, find-subgraph.ts) *)

Definition not_main (c : GraphConnection) : bool := negb (bool_decide (gc_type c = Main)).

Definition filterDisabledNodes (g : DirectedGraph) : result GraphError DirectedGraph :=
  filteredGraph ← clone g;
  foldM (λ g node,
    if is_disabled node
    then '(g, _) ← removeNode_reconnect g (n_name node) not_main; Ok g
    else Ok g) filteredGraph (jm_vals (g_nodes filteredGraph)).

(** [newGraph.addNodes(connection.from, connection.to); newGraph.addConnection(connection)] for nodes of [g]. *)
Definition node_in (g : DirectedGraph) (name : string) : result GraphError INode :=
  of_option AssertionError (jm_get (g_nodes g) name).

Definition keep_connection (g newGraph : DirectedGraph) (c : GraphConnection) : result GraphError DirectedGraph :=
  from ← node_in g (gc_from c);
  to ← node_in g (gc_to c);
  addConnection (addNodes newGraph [from; to]) c.

Definition keep_branch (g newGraph : DirectedGraph) (currentBranch : list GraphConnection)
    : result GraphError DirectedGraph := foldM (keep_connection g) newGraph currentBranch.

Section Subgraph.
Context (g : DirectedGraph) (destinationNode trigger : string).

Fixpoint findSubgraphRecursive (fuel : nat) (current : string) (newGraph : DirectedGraph)
    (currentBranch : list GraphConnection) : result GraphError DirectedGraph :=
  match fuel with
  | 0 => Err OutOfFuel
  | S fuel =>
    if decide (current = trigger) then
      t ← node_in g trigger;
      keep_branch g (addNode newGraph t) currentBranch
    else
      parentConnections ← getDirectParentConnections g current;
      if decide (parentConnections = []) then Ok newGraph
      else
        let visited n := existsb (λ c, bool_decide (gc_to c = n)) currentBranch in
        if bool_decide (current = destinationNode) && visited destinationNode then Ok newGraph
        else if visited current then keep_branch g newGraph currentBranch
        else foldM (λ newGraph parentConnection,
               if not_main parentConnection then Ok newGraph
               else findSubgraphRecursive fuel (gc_from parentConnection) newGraph
                      (currentBranch ++ [parentConnection]))
               newGraph parentConnections
  end.

(** The connections of other types, and the nodes they come from, are added again. *)
Definition add_utility_nodes (subgraph : DirectedGraph) (node : string) : result GraphError DirectedGraph :=
  parentConnections ← getParentConnections g node;
  foldM (λ sub c, if not_main c then keep_connection g sub c else Ok sub) subgraph parentConnections.

Definition findSubgraph : result GraphError DirectedGraph :=
  subgraph ← findSubgraphRecursive (S (S (length (g_conns g)))) destinationNode empty_graph [];
  foldM add_utility_nodes subgraph (jm_keys (g_nodes subgraph)).
End Subgraph.

(** * Cleaning run data (clean-run-data.ts) *)

Definition clean_node (g : DirectedGraph) (rd : IRunData) (node : string) : result GraphError IRunData :=
  subNodeConnections ← getParentConnections g node;
  Ok (foldl (λ rd c, if not_main c then jm_del rd (gc_from c) else rd) (jm_del rd node) subNodeConnections).

(** A node to clean and its children. *)
Definition clean_from (g : DirectedGraph) (rd : IRunData) (nodeToClean : string) : result GraphError IRunData :=
  children ← getChildren g nodeToClean;
  foldM (clean_node g) (jm_del rd nodeToClean) (nodeToClean :: children).

Definition cleanRunData (rd : IRunData) (g : DirectedGraph) (nodesToClean : list string)
    : result GraphError IRunData :=
  newRunData ← foldM (clean_from g) rd nodesToClean;
  Ok (filter (λ e, hasNode g e.1 = true) newRunData).

(** * Start nodes (find-start-nodes.ts, handle-cycles.ts) *)

Definition has_error_run (rd : IRunData) (name : string) : bool :=
  existsb (λ t, bool_decide (is_Some (td_error t))) (runs_of rd name).

(** A node failed, or it has neither pinned data nor run data. *)
Definition isDirty (rd : IRunData) (pinData : IPinData) (name : string) : bool :=
  has_error_run rd name || negb (jm_has pinData name || jm_has rd name).

Section StartNodes.
Context (g : DirectedGraph) (destination : string) (rd : IRunData) (pinData : IPinData).

Definition isALoop (node : string) : result GraphError bool :=
  children ← getChildren g node; Ok (js_has children node).

(** A loop node whose [done] output has no data on the last run, or whose second output has none when
    it is in no loop. *)
Definition unfinished_loop (node : string) : result GraphError bool :=
  match jm_get (g_nodes g) node with
  | Some n =>
    if bool_decide (n_type n = "n8n-nodes-base.splitInBatches") then
      loop ← isALoop node;
      data ← getIncomingData rd node (-1) Main (if (loop : bool) then 0 else 1);
      Ok (match data with None | Some [] => true | _ => false end)
    else Ok false
  | None => Ok false
  end.

(** The connection's output has data on some run, or its node has pinned data. *)
Definition has_output_data (c : GraphConnection) : result GraphError bool :=
  data ← getIncomingDataFromAnyRun rd (gc_from c) (gc_type c) (gc_outputIndex c);
  Ok (bool_decide (is_Some data) || jm_has pinData (gc_from c)).

Fixpoint findStartNodesRecursive (fuel : nat) (current : string) (startNodes seen : list string)
    : result GraphError (list string) :=
  match fuel with
  | 0 => Err OutOfFuel
  | S fuel =>
    if isDirty rd pinData current then Ok (js_add startNodes current)
    else if decide (current = destination) then Ok (js_add startNodes current)
    else
      unfinished ← unfinished_loop current;
      if (unfinished : bool) then Ok (js_add startNodes current)
      else if js_has seen current then Ok startNodes
      else
        outGoingConnections ← getDirectChildConnections g current;
        foldM (λ startNodes c,
          follow ← has_output_data c;
          if (follow : bool) then findStartNodesRecursive fuel (gc_to c) startNodes (js_add seen current)
          else Ok startNodes) startNodes outGoingConnections
  end.

Definition findStartNodes (trigger : string) : result GraphError (list string) :=
  findStartNodesRecursive (S (S (S (length (g_conns g))))) trigger [] [].
End StartNodes.

Definition handle_cycle (g : DirectedGraph) (trigger startNode : string) (newStartNodes cycle : list string)
    : result GraphError (list string) :=
  if js_has cycle startNode then
    firstNode ← depthFirstSearch g trigger (js_has cycle);
    firstNode ← of_option AssertionError firstNode;
    Ok (js_add (js_del newStartNodes startNode) firstNode)
  else Ok newStartNodes.

Definition handleCycles (g : DirectedGraph) (startNodes : list string) (trigger : string)
    : result GraphError (list string) :=
  cycles ← getStronglyConnectedComponents g;
  foldM (λ newStartNodes startNode, foldM (handle_cycle g trigger startNode) newStartNodes cycles)
    startNodes startNodes.

(** * The stack (get-source-data-groups.ts, recreate-node-execution-stack.ts) *)

Record SourceConnectionGroup := mkGroup {
  gr_complete : bool;
  gr_connections : list GraphConnection;
}.

Definition newGroup : SourceConnectionGroup := mkGroup true [].

Section Stack.
(** [String.prototype.localeCompare] of the host's locale. *)
Context (localeCompare : string → string → Z).

Definition sortByInputIndexThenByName (c1 c2 : GraphConnection) : Z :=
  if decide (gc_inputIndex c1 = gc_inputIndex c2) then localeCompare (gc_from c1) (gc_from c2)
  else (Z.of_nat (gc_inputIndex c1) - Z.of_nat (gc_inputIndex c2))%Z.

Definition at_input (index : nat) (c : GraphConnection) : bool := gc_inputIndex c =? index.

(** The smallest input index of the connections that are left. *)
Definition min_index (l : list GraphConnection) : nat :=
  match gc_inputIndex <$> l with [] => 0 | i :: l => foldl min i l end.

(** The [while] loop; [index] is the input looked at next. *)
Fixpoint group_loop (fuel : nat) (withData withoutData : list GraphConnection) (groups : list SourceConnectionGroup)
    (current : SourceConnectionGroup) (index : nat) : option (list SourceConnectionGroup) :=
  match fuel with
  | 0 => None
  | S fuel =>
    match withData, withoutData with
    | [], [] => Some (groups ++ [current])
    | _, _ =>
      match list_find (at_input index) withData with
      | Some (i, c) =>
          group_loop fuel (splice1 withData i) withoutData groups
            (mkGroup (gr_complete current) (gr_connections current ++ [c])) (S index)
      | None =>
        match list_find (at_input index) withoutData with
        | Some (i, c) =>
            group_loop fuel withData (splice1 withoutData i) groups
              (mkGroup false (gr_connections current ++ [c])) (S index)
        | None =>
            group_loop fuel withData withoutData (groups ++ [current]) newGroup (min_index (withData ++ withoutData))
        end
      end
    end
  end.

Definition has_source_data (rd : IRunData) (pinData : IPinData) (c : GraphConnection) : bool :=
  jm_has rd (gc_from c) || jm_has pinData (gc_from c).

(** Every connection takes one iteration, and one more closes the group it is in. *)
Definition getSourceDataGroups (g : DirectedGraph) (node : string) (rd : IRunData) (pinData : IPinData)
    : option (list SourceConnectionGroup) :=
  let connections := getConnectionsTo g node in
  let withData := js_sort sortByInputIndexThenByName
    (filter (λ c, has_source_data rd pinData c = true) connections) in
  let withoutData := js_sort sortByInputIndexThenByName
    (filter (λ c, has_source_data rd pinData c = false ∧ gc_type c = Main) connections) in
  match withData, withoutData with
  | [], [] => Some []
  | _, _ => group_loop (S (2 * length (withData ++ withoutData))) withData withoutData [] newGroup
              (min_index (withData ++ withoutData))
  end.

(** [waiting[nodeName][runIndex][inputType][inputIndex] = x], creating what is missing. *)
Definition addWaiting {A} (m : jmap string (jmap nat (jmap string (list (slot A))))) (nodeName : string)
    (runIndex : nat) (inputType : string) (inputIndex : nat) (x : slot A) :=
  let taskDataConnections := default [] (jm_get (waiting_runs m nodeName) runIndex) in
  waiting_set m nodeName runIndex
    (jm_set taskDataConnections inputType
       (arr_set SUndef (default [] (jm_get taskDataConnections inputType)) inputIndex x)).

Record StackState := mkStack {
  st_stack : list IExecuteData;
  st_waiting : IWaitingForExecution;
  st_waitingSource : IWaitingForExecutionSource;
}.

Section Recreate.
Context (g : DirectedGraph) (rd : IRunData) (pinData : IPinData).

(** One connection of a complete group. *)
Definition complete_input (st : list (slot Items) * list (slot ISourceData)) (c : GraphConnection)
    : result GraphError (list (slot Items) * list (slot ISourceData)) :=
  let '(incomingData, sources) := st in
  '(incomingData, runIndex) ←
    match jm_get pinData (gc_from c) with
    | Some items => Ok (incomingData ++ [SVal items], 0)
    | None =>
      if negb (jm_has rd (gc_from c)) then Err AssertionError
      else
        data ← getIncomingDataFromAnyRun rd (gc_from c) (gc_type c) (gc_outputIndex c);
        Ok (match data with
            | Some (items, runIndex) => (incomingData ++ [SVal items], runIndex)
            | None => (incomingData, 0)
            end)
    end;
  Ok (incomingData, sources ++ [SVal (mkSource (gc_from c) (Some (gc_outputIndex c)) (Some runIndex))]).

(** One connection of a group that is not complete. *)
Definition waiting_input (nodeName : string) (nextRunIndex : nat) (st : StackState) (c : GraphConnection)
    : result GraphError StackState :=
  data ← getIncomingDataFromAnyRun rd (gc_from c) (gc_type c) (gc_outputIndex c);
  Ok (match data with
      | None => st
      | Some (items, _) =>
          mkStack (st_stack st)
            (addWaiting (st_waiting st) nodeName nextRunIndex (gc_type c) (gc_inputIndex c) (SVal items))
            (addWaiting (st_waitingSource st) nodeName nextRunIndex (gc_type c) (gc_inputIndex c)
               (SVal (mkSource (gc_from c) (Some (gc_outputIndex c)) (Some nextRunIndex))))
      end).

Definition recreate_group (node : INode) (st : StackState) (group : SourceConnectionGroup)
    : result GraphError StackState :=
  if gr_complete group then
    '(incomingData, sources) ← foldM complete_input ([], []) (gr_connections group);
    Ok (mkStack (st_stack st ++ [mkExecute (Some node) (only_main incomingData) (Some (only_main sources)) None None])
          (st_waiting st) (st_waitingSource st))
  else
    foldM (waiting_input (n_name node) (length (waiting_runs (st_waiting st) (n_name node)))) st
      (gr_connections group).

Definition recreate_start (st : StackState) (startNode : string) : result GraphError StackState :=
  node ← node_in g startNode;
  incomingStartNodeConnections ← getDirectParentConnections g startNode;
  match filter (λ c, not_main c = false) incomingStartNodeConnections with
  | [] =>
    Ok (mkStack (st_stack st ++ [mkExecute (Some node) (only_main [SVal [empty_item]]) None None None])
          (st_waiting st) (st_waitingSource st))
  | _ =>
    sourceDataSets ← of_option OutOfFuel (getSourceDataGroups g startNode rd pinData);
    foldM (recreate_group node) st sourceDataSets
  end.

Definition recreateNodeExecutionStack (startNodes : list string) : result GraphError StackState :=
  if existsb is_disabled (jm_vals (g_nodes g)) then Err AssertionError
  else foldM recreate_start (mkStack [] [] []) startNodes.
End Recreate.
End Stack.

(** * Running a tool (rewire-graph.ts, [isTool] of node-helpers.ts) *)

Definition TOOL_EXECUTOR_NODE_NAME : string := "PartialExecutionToolExecutor".

(** [name.includes(sub)] *)
Fixpoint str_includes (sub s : string) : bool :=
  String.prefix sub s || match s with String.EmptyString => false | String.String _ s => str_includes sub s end.

(** The first output given by its name decides, unless one before it is configured as a tool. *)
Fixpoint tool_output (outputs : list NodeIo) : bool :=
  match outputs with
  | [] => false
  | IoName t :: _ => bool_decide (t = AiTool)
  | IoConfig t _ :: outputs => bool_decide (t = AiTool) || tool_output outputs
  end.

Definition isTool (d : INodeTypeDescription) (parameters : list (string * json)) : bool :=
  if str_includes "vectorStore" (d_name d)
  then match jm_get parameters "mode" with Some (JStr m) => bool_decide (m = "retrieve-as-tool") | _ => false end
  else match d_outputs d with IoList outputs => tool_output outputs | IoExpr _ => false end.

Record AiAgentRequest := mkAgentRequest { ar_query : json; ar_tool : option string }.

Section Rewire.
(** [JSON.stringify] *)
Context (stringify : json → string).

Definition tool_executor (rootId tool : string) (agentRequest : option AiAgentRequest) : INode :=
  mkNode rootId TOOL_EXECUTOR_NODE_NAME "@n8n/n8n-nodes-langchain.toolExecutor" 0 (0, 0)%Z (Some false)
    [("query", JStr (stringify (match agentRequest with Some r => ar_query r | None => JObj [] end)));
     ("toolName", JStr (default "" (r ← agentRequest; ar_tool r)));
     ("node", JStr tool)] None None None None None None None None.

Definition set_tool (g : DirectedGraph) (tool : string) : DirectedGraph :=
  mkGraph (jm_update (g_nodes g) tool (λ n, set_rewire n AiTool)) (g_connections g).

Definition rewireGraph (tool : string) (g : DirectedGraph) (agentRequest : option AiAgentRequest)
    : result GraphError DirectedGraph :=
  modifiedGraph ← clone g;
  children ← getChildren modifiedGraph tool;
  match last children with
  | None => Ok g
  | Some rootNode =>
    incoming ← getDirectParentConnections modifiedGraph rootNode;
    root ← node_in modifiedGraph rootNode;
    let modifiedGraph := addNode modifiedGraph (tool_executor (n_id root) tool agentRequest) in
    let modifiedGraph := set_tool modifiedGraph tool in
    modifiedGraph ← addConnection modifiedGraph (mkGC tool TOOL_EXECUTOR_NODE_NAME AiTool 0 0);
    modifiedGraph ← foldM (λ g cn, addConnection g (mkGC (gc_from cn) TOOL_EXECUTOR_NODE_NAME (gc_type cn) 0 0))
      modifiedGraph (filter (λ cn, gc_type cn = Main) incoming);
    Ok (removeNode modifiedGraph rootNode)
  end.
End Rewire.

(** * runPartialWorkflow2 *)

Section Partial.
Context (localeCompare : string → string → Z) (stringify : json → string).
Context (getByNameAndVersion : string → Q → option INodeType).

Inductive PartialError :=
| PEGraph (e : GraphError)
| PEExecutor
| PEUser.

Definition lifted {A} (r : result GraphError A) : result PartialError A :=
  match r with Ok a => Ok a | Err e => Err (PEGraph e) end.

(** The trigger, or else the closest parent with run data. *)
Definition choose_trigger (w : Workflow) (destinationNodeName : string) (rd : IRunData)
    : result PartialError INode :=
  trigger ← lifted (findTriggerForPartialExecution getByNameAndVersion w destinationNodeName rd);
  match trigger with
  | Some t => Ok t
  | None =>
    startName ← of_option PEUser (head (filter (λ n, jm_has rd n = true)
                   (w_getParentNodes w destinationNodeName (OfType Main) (-1))));
    of_option PEUser (getNode w startName)
  end.

(** Steps 2 to 7: the graph, the start nodes, the cleaned run data, the stack. *)
Definition plan_partial (w : Workflow) (g : DirectedGraph) (destination trigger : string) (rd : IRunData)
    (pinData : IPinData) (dirtyNodeNames : list string)
    : result GraphError (DirectedGraph * list string * IRunData * StackState) :=
  filtered ← filterDisabledNodes g;
  g ← findSubgraph filtered destination trigger;
  let dirtyNodes := getNodesByNames g dirtyNodeNames in
  rd ← cleanRunData rd g dirtyNodes;
  startNodes ← findStartNodes g destination rd pinData trigger;
  startNodes ← handleCycles g startNodes trigger;
  rd ← cleanRunData rd g startNodes;
  st ← recreateNodeExecutionStack localeCompare g rd pinData startNodes;
  Ok (g, startNodes, rd, st).

(** The workflow, the run execution data and the execution index the loop starts with. *)
Definition runPartialWorkflow2 (w : Workflow) (rd : IRunData) (pinData : IPinData) (dirtyNodeNames : list string)
    (destinationNode : IDestinationNode) (agentRequest : option AiAgentRequest)
    : result PartialError (Workflow * IRunExecutionData * nat) :=
  destination ← of_option (PEGraph AssertionError) (getNode w (dn_nodeName destinationNode));
  g ← lifted (fromWorkflow w);
  destinationNodeType ← lifted (type_of_node getByNameAndVersion destination);
  '(w, g, destinationNode) ←
    (if isTool (t_description destinationNodeType) (n_parameters destination) then
       g ← lifted (rewireGraph stringify (n_name destination) g agentRequest);
       w' ← lifted (toWorkflow g (w_pinData w) (w_executionOrder w));
       match getNode w' TOOL_EXECUTOR_NODE_NAME with
       | None => Err PEExecutor
       | Some _ => Ok (w', g, mkDestination TOOL_EXECUTOR_NODE_NAME inclusive)
       end
     else Ok (w, g, destinationNode));
  trigger ← choose_trigger w (dn_nodeName destinationNode) rd;
  '(g, startNodes, rd, st) ← lifted (plan_partial w g (dn_nodeName destinationNode) (n_name trigger) rd pinData dirtyNodeNames);
  let s := mkRun (st_stack st) (st_waiting st) (st_waitingSource st) rd [] (Some pinData) None None
             (Some destinationNode) (Some (n_name <$> jm_vals (g_nodes g))) None in
  Ok (w, s, getNextExecutionIndex rd).
End Partial.
