(* ===== verification/PartialProofs.v ===== *)
(** PartialProofs: properties of partial executions. *)

From stdpp Require Import prelude list strings pretty relations sorting.
From Stdlib Require Import ZArith QArith Lia Sorted.
From S2P Require Import Prelude Types Traversal WorkflowClass ExecutionTypes ExecutionStack NodeRun RequestsResponse WorkflowExecute EngineInvariants DirectedGraph PartialExecution.
Local Open Scope nat_scope.

(** * Waiting entries of a partial execution *)

(** Three branches of a trigger meet in the three inputs of [m]. *)
Definition fan_workflow : Workflow :=
  make_workflow
    [plain_node "t" "trigger"; plain_node "a" "set"; plain_node "b" "set"; plain_node "c" "set"; plain_node "m" "merge"]
    [("t", [(Main, [Some [mkConn "a" Main 0; mkConn "b" Main 0; mkConn "c" Main 0]])]);
     ("a", [(Main, [Some [mkConn "m" Main 0]])]);
     ("b", [(Main, [Some [mkConn "m" Main 1]])]);
     ("c", [(Main, [Some [mkConn "m" Main 2]])])]
    None (Some "v1").

(** [m] needs one of its three inputs to run at the end. *)
Definition fan_types (type : string) (_ : Q) : option INodeType :=
  Some (mkNodeType
    (mkDescription type (if bool_decide (type = "trigger") then ["trigger"] else ["transform"])
       (IoList (if bool_decide (type = "merge") then [IoName Main; IoName Main; IoName Main] else [IoName Main]))
       (IoList [IoName Main]) (if bool_decide (type = "merge") then Some (ReqCount 1) else None) false)
    true false false false false).

Definition fan_env : Env nat := {|
  env_types := fan_types;
  env_customOperations := env_customOperations identity_env;
  env_execute := env_execute identity_env;
  env_poll := env_poll identity_env;
  env_trigger := env_trigger identity_env;
  env_declarative := env_declarative identity_env;
  env_telemetry := env_telemetry identity_env;
  env_manual := true;
  env_mainOutputs := env_mainOutputs identity_env;
  env_pairedItem := env_pairedItem identity_env;
  env_convertBinary := env_convertBinary identity_env;
  env_required := env_required identity_env;
  env_canceled := env_canceled identity_env;
|}.

Definition done_task (name : string) : ITaskData :=
  mkTask 0 [] (Some st_success) (Some (only_main [SVal [named_item name]])) None None None.

Definition fan_run : result PartialError (Workflow * IRunExecutionData * nat) :=
  runPartialWorkflow2 str_cmp (λ _, "{}") fan_types fan_workflow
    [("t", [done_task "t"]); ("b", [done_task "b"])] [] [] (mkDestination "m" inclusive) None.

(** * Cleaning run data *)

Section Clean.
Context (g : DirectedGraph) (Hwf : wf_graph g).

(** [name] is [d], or a node some non-main connection upstream of [d] comes from. *)
Definition cleaned_with (d name : string) : Prop :=
  name = d ∨ ∃ c, upstream g d c ∧ gc_type c ≠ Main ∧ gc_from c = name.

(** The run data of the nodes in [L] is gone, that of the others is what it was. *)
Definition deleted (L : list string) (rd rd' : IRunData) : Prop :=
  ∀ name, jm_get rd' name = if decide (name ∈ L) then None else jm_get rd name.

Lemma deleted_nil rd : deleted [] rd rd.
Proof. intros name. by rewrite decide_False by apply not_elem_of_nil. Qed.

Lemma deleted_app L1 L2 rd1 rd2 rd3 : deleted L1 rd1 rd2 → deleted L2 rd2 rd3 → deleted (L1 ++ L2) rd1 rd3.
Proof.
  intros H1 H2 name. rewrite H2, H1. repeat case_decide; try done; set_solver.
Qed.

Lemma deleted_one rd name : deleted [name] rd (jm_del rd name).
Proof.
  intros name'. case_decide as H.
  - apply list_elem_of_singleton in H as ->. apply jm_get_del.
  - apply jm_get_del_ne. intros ->. apply H. by left.
Qed.

Lemma clean_node_spec rd d :
  hasNode g d = true →
  ∃ rd' L, clean_node g rd d = Ok rd' ∧ deleted L rd rd' ∧ ∀ name, name ∈ L ↔ cleaned_with d name.
Proof.
  intros Hd. unfold clean_node. destruct (getParentConnections_spec g Hwf d Hd) as (l & -> & _ & Hl).
  cbn [mbind result_bind]. eexists _, (d :: (gc_from <$> filter (λ c, gc_type c ≠ Main) l)).
  split; [done|]. split.
  - apply (deleted_app [d] _ _ (jm_del rd d)); [apply deleted_one|]. clear Hl. generalize (jm_del rd d) as rd1.
    induction l as [|c l IH]; intros rd1; [apply deleted_nil|]. rewrite filter_cons. cbn [foldl]. unfold not_main at 2.
    case_bool_decide as Hc; cbn [negb].
    + rewrite decide_False by tauto. apply IH.
    + rewrite decide_True by done. rewrite fmap_cons.
      apply (deleted_app [gc_from c] _ _ (jm_del rd1 (gc_from c))); [apply deleted_one|apply IH].
  - intros name. rewrite elem_of_cons, list_elem_of_fmap. unfold cleaned_with. split.
    + intros [->|(c & -> & [? Hc]%list_elem_of_filter)]; [by left|]. right. exists c. apply Hl in Hc. done.
    + intros [->|(c & Hc & ? & <-)]; [by left|]. right. exists c. split; [done|]. apply list_elem_of_filter.
      split; [done|]. by apply Hl.
Qed.

Lemma clean_nodes_spec ds rd :
  (∀ d, d ∈ ds → hasNode g d = true) →
  ∃ rd' L, foldM (clean_node g) rd ds = Ok rd' ∧ deleted L rd rd' ∧
    ∀ name, name ∈ L ↔ ∃ d, d ∈ ds ∧ cleaned_with d name.
Proof.
  revert rd; induction ds as [|d ds IH]; intros rd Hds; cbn [foldM].
  - exists rd, []. split; [done|]. split; [apply deleted_nil|]. intros name. set_solver.
  - destruct (clean_node_spec rd d) as (rd1 & L1 & -> & H1 & HL1); [apply Hds; by left|]. cbn [mbind result_bind].
    destruct (IH rd1) as (rd2 & L2 & -> & H2 & HL2); [intros; apply Hds; by right|].
    exists rd2, (L1 ++ L2). split; [done|]. split; [by eapply deleted_app|].
    intros name. rewrite elem_of_app, HL1, HL2. set_solver.
Qed.

(** A node, or one downstream of it. *)
Definition at_or_below (n d : string) : Prop := rtc (g_edge g) n d.

Lemma clean_all_spec nodes rd :
  (∀ n, n ∈ nodes → hasNode g n = true) →
  ∃ rd' L, foldM (clean_from g) rd nodes = Ok rd' ∧
    deleted L rd rd' ∧ ∀ name, name ∈ L ↔ ∃ n d, n ∈ nodes ∧ at_or_below n d ∧ cleaned_with d name.
Proof.
  revert rd; induction nodes as [|n nodes IH]; intros rd Hn; cbn [foldM].
  - exists rd, []. split; [done|]. split; [apply deleted_nil|]. intros name. set_solver.
  - assert (hasNode g n = true) as Hg by (apply Hn; by left).
    destruct (getChildren_spec g Hwf n Hg) as (children & Hcs & _ & Hch).
    destruct (clean_nodes_spec (n :: children) (jm_del rd n)) as (rd1 & L1 & HE & H1 & HL1).
    { intros d [->|Hd]%elem_of_cons; [done|]. apply Hch, tc_r_inv in Hd as (x & _ & Hx). by eapply edge_nodes. }
    assert (clean_from g rd n = Ok rd1) as -> by (unfold clean_from; rewrite Hcs; exact HE).
    cbn [mbind result_bind].
    destruct (IH rd1) as (rd2 & L2 & -> & H2 & HL2); [intros; apply Hn; by right|].
    exists rd2, (n :: L1 ++ L2). split; [done|]. split.
    + apply (deleted_app [n] _ _ (jm_del rd n)); [apply deleted_one|]. by eapply deleted_app.
    + assert (∀ d, d ∈ n :: children ↔ at_or_below n d) as Hb.
      { intros d. unfold at_or_below. rewrite elem_of_cons, Hch. split.
        - intros [->|Ht]; [apply rtc_refl|by apply tc_rtc].
        - intros [->|Ht]%rtc_tc_or; [by left|by right]. }
      intros name. rewrite elem_of_cons, elem_of_app, HL1, HL2. split.
      * intros [->|[(d & Hd & Hc)|(m & d & Hm & ? & ?)]].
        -- exists n, n. split_and!; [by left|apply rtc_refl|by left].
        -- exists n, d. split_and!; [by left|by apply Hb|done].
        -- exists m, d. split_and!; [by right|done|done].
      * intros (m & d & [->|Hm]%elem_of_cons & Hd & Hc).
        -- right; left. exists d. by rewrite Hb.
        -- right; right. by exists m, d.
Qed.
End Clean.

Lemma jm_get_filter_has (g : DirectedGraph) (rd : IRunData) name :
  jm_get (filter (λ e, hasNode g e.1 = true) rd) name = if hasNode g name then jm_get rd name else None.
Proof.
  induction rd as [|[k v] rd IH]; [by case_match|]. rewrite filter_cons. cbn [fst jm_get].
  destruct (decide (k = name)) as [->|Hne].
  - destruct (hasNode g name) eqn:Hg; [by rewrite decide_True by done; cbn; rewrite decide_True|].
    rewrite decide_False by done. done.
  - case_decide; cbn; [by rewrite decide_False|done].
Qed.

(** [cleanRunData] succeeds and removes exactly the run data of the nodes outside the graph,
    of the nodes to clean and all nodes downstream of them, and of the starts of non-main
    connections anywhere upstream of one of these. *)
Lemma cleanRunData_exact g rd nodes :
  wf_graph g → (∀ n, n ∈ nodes → hasNode g n = true) →
  ∃ rd', cleanRunData rd g nodes = Ok rd' ∧
    ∀ name,
      (hasNode g name = false ∨ (∃ n d, n ∈ nodes ∧ rtc (g_edge g) n d ∧ cleaned_with g d name) →
        jm_get rd' name = None) ∧
      (hasNode g name = true → (∀ n d, n ∈ nodes → rtc (g_edge g) n d → ¬ cleaned_with g d name) →
        jm_get rd' name = jm_get rd name).
Proof.
  intros Hwf Hn. destruct (clean_all_spec g Hwf nodes rd Hn) as (rd1 & L & H1 & Hd & HL).
  unfold cleanRunData. rewrite H1. eexists. split; [done|]. intros name. rewrite jm_get_filter_has, Hd. split.
  - intros [->|H]; [done|]. rewrite decide_True by (by apply HL). by case_match.
  - intros -> H. rewrite decide_False; [done|]. rewrite HL. intros (n & d & ? & ? & ?). by eapply H.
Qed.

(** A sub-node of a node, by a non-main connection. *)
Definition sub_edge (g : DirectedGraph) (a b : string) : Prop :=
  ∃ c, c ∈ g_conns g ∧ gc_type c ≠ Main ∧ gc_from c = a ∧ gc_to c = b.

Lemma sub_edge_edge g a b : sub_edge g a b → g_edge g a b.
Proof. intros (c & ? & _ & ? & ?). by exists c. Qed.

(** A sub-node of a node, or of one of its sub-nodes, is cleaned with it. *)
Lemma sub_node_cleaned g d name : rtc (sub_edge g) name d → cleaned_with g d name.
Proof.
  intros [->|(b & (c & Hc & Ht & Hf & <-) & Hr)]%rtc_inv; [by left|right]. exists c.
  split; [|done]. split; [done|]. eapply rtc_subrel; [|exact Hr]. apply sub_edge_edge.
Qed.

(** C33: [cleanRunData] succeeds.  It removes the run data of the nodes outside the graph, of
    the nodes to clean, of all nodes downstream of them, and of all sub-nodes of these, theirs
    included.  It keeps that of every other node that is no sub-node, and that of every
    sub-node from which no connections lead to a node that is cleaned. *)
Theorem cleanRunData_spec g rd nodes (cleaned := λ d, ∃ n, n ∈ nodes ∧ rtc (g_edge g) n d) :
  wf_graph g → (∀ n, n ∈ nodes → hasNode g n = true) →
  ∃ rd', cleanRunData rd g nodes = Ok rd' ∧
    ∀ name,
      (hasNode g name = false ∨ (∃ d, cleaned d ∧ rtc (sub_edge g) name d) → jm_get rd' name = None) ∧
      (hasNode g name = true → ¬ cleaned name →
        (∀ b, ¬ sub_edge g name b) ∨ (∀ d, cleaned d → ¬ rtc (g_edge g) name d) →
        jm_get rd' name = jm_get rd name).
Proof.
  intros Hwf Hn. destruct (cleanRunData_exact g rd nodes Hwf Hn) as (rd' & Hrd & Hspec).
  exists rd'. split; [done|]. intros name. destruct (Hspec name) as [Hgone Hkept]. split.
  - intros [Hout|(d & (n & Hin & Hd) & Hsub)]; apply Hgone; [by left|right]. exists n, d. by auto using sub_node_cleaned.
  - intros Hg Hnot Hsub. apply Hkept; [done|]. intros n d Hin Hd [->|(c & (Hc & Hr) & Ht & Hf)]; [apply Hnot; by exists n|].
    destruct Hsub as [Hsub|Hsub]; [apply (Hsub (gc_to c)); by exists c|]. apply (Hsub d); [by exists n|].
    eapply rtc_l; [|exact Hr]. by exists c.
Qed.

(** * Start nodes *)

(** A path that does not come back to its first node. *)
Lemma rtc_leave {A} `{EqDecision A} (R : relation A) n x :
  rtc R n x → n ≠ x → ∃ c, R n c ∧ c ≠ n ∧ rtc (λ a b, R a b ∧ b ≠ n) c x.
Proof.
  intros Hr Hne.
  assert (∀ y, rtc R y x →
    (y ≠ n ∧ rtc (λ a b, R a b ∧ b ≠ n) y x) ∨ (∃ c, R n c ∧ c ≠ n ∧ rtc (λ a b, R a b ∧ b ≠ n) c x)) as H.
  { clear Hr. intros y Hy. induction Hy as [x|y z x Hyz _ IH]; [left; split; [done|apply rtc_refl]|].
    destruct (IH Hne) as [[Hz Hzx]|H]; [|by right].
    destruct (decide (y = n)) as [->|Hy]; [right; by exists z|left].
    split; [done|]. by eapply rtc_l. }
  destruct (H n Hr) as [[? _]|?]; done.
Qed.

Section Starts.
Context (g : DirectedGraph) (Hwf : wf_graph g) (destination : string) (rd : IRunData) (pinData : IPinData).

(** The search stops at a node: it has to run again. *)
Definition stops (a : string) : Prop :=
  isDirty rd pinData a = true ∨ a = destination ∨ unfinished_loop g rd a = Ok true.

(** The run data of a node can be used, and one of its outputs leads on. *)
Definition follows (a b : string) : Prop :=
  isDirty rd pinData a = false ∧ a ≠ destination ∧ unfinished_loop g rd a = Ok false ∧
  ∃ c, c ∈ g_conns g ∧ gc_from c = a ∧ gc_to c = b ∧ has_output_data rd pinData c = Ok true.

Lemma follows_not_stop a b : follows a b → ¬ stops a.
Proof. intros (H1 & H2 & H3 & _) [H|[H|H]]; congruence. Qed.

Lemma getIncomingData_fuel name i t o : getIncomingData rd name i t o ≠ Err OutOfFuel.
Proof.
  unfold getIncomingData. repeat case_match; try done. destruct (jm_get _ t); done.
Qed.

Lemma has_output_data_fuel c : has_output_data rd pinData c ≠ Err OutOfFuel.
Proof.
  unfold has_output_data, getIncomingDataFromAnyRun. intros H.
  assert (∀ l, incoming_from_runs rd (gc_from c) (gc_type c) (gc_outputIndex c) l ≠ Err OutOfFuel) as Hn.
  { induction l as [|i l IH]; [done|]. cbn [incoming_from_runs].
    pose proof (getIncomingData_fuel (gc_from c) (Z.of_nat i) (gc_type c) (gc_outputIndex c)) as Hi.
    destruct (getIncomingData _ _ _ _ _) as [[[|x d]|]|e]; cbn; congruence. }
  specialize (Hn (seq 0 (getRunIndexLength rd (gc_from c)))).
  destruct (incoming_from_runs _ _ _ _ _); cbn in H; congruence.
Qed.

Lemma unfinished_loop_fuel a : hasNode g a = true → unfinished_loop g rd a ≠ Err OutOfFuel.
Proof.
  intros Ha. unfold unfinished_loop, isALoop. destruct (jm_get (g_nodes g) a) as [n|]; [|done].
  case_bool_decide; [|done]. destruct (getChildren_spec g Hwf a Ha) as (l & -> & _). cbn [mbind result_bind].
  match goal with |- context [getIncomingData ?r ?n ?i ?t ?o] => pose proof (getIncomingData_fuel n i t o) as Hi end.
  destruct (getIncomingData _ _ _ _ _); cbn; congruence.
Qed.

Context (V : list string) (HV : ∀ c, c ∈ g_conns g → gc_to c ∈ V).

(** What the search from the nodes [from] adds to [starts], avoiding [seen]. *)
Record start_outcome (from seen starts l : list string) : Prop := {
  so_mono : starts ⊆ l;
  so_nodup : NoDup starts → NoDup l;
  so_sound : ∀ s, s ∈ l → s ∈ starts ∨ (stops s ∧ ∃ a, a ∈ from ∧ rtc follows a s);
  so_complete : ∀ a s, a ∈ from → a ∉ seen → stops s → rtc (λ a b, follows a b ∧ b ∉ seen) a s → s ∈ l;
}.

Definition start_spec (r : result GraphError (list string)) (from seen starts : list string) : Prop :=
  r ≠ Err OutOfFuel ∧ ∀ l, r = Ok l → start_outcome from seen starts l.

Lemma stop_here a seen starts : stops a → start_spec (Ok (js_add starts a)) [a] seen starts.
Proof.
  intros Hs. split; [done|]. intros l [= <-].
  assert (∀ x, x ∈ js_add starts a ↔ x = a ∨ x ∈ starts) as Hadd by (intros; apply js_add_elem). split.
  - intros x Hx. apply Hadd. by right.
  - apply js_add_NoDup.
  - intros s [->|Hx]%Hadd; [|by left]. right. split; [done|]. exists a. split; [by left|apply rtc_refl].
  - intros x s ->%list_elem_of_singleton _ _ Hr. apply Hadd.
    apply rtc_inv in Hr as [->|(b & [Hf _] & _)]; [by left|]. by apply follows_not_stop in Hf.
Qed.

Definition leads (c : GraphConnection) : bool :=
  match has_output_data rd pinData c with Ok true => true | _ => false end.

Lemma leads_true c : leads c = true ↔ has_output_data rd pinData c = Ok true.
Proof. unfold leads. destruct (has_output_data rd pinData c) as [[|]|]; naive_solver. Qed.

Lemma find_children_spec (rec : string → list string → result GraphError (list string)) seen l starts :
  (∀ c starts, c ∈ l → start_spec (rec (gc_to c) starts) [gc_to c] seen starts) →
  start_spec (foldM (λ starts c,
      follow ← has_output_data rd pinData c;
      if (follow : bool) then rec (gc_to c) starts else Ok starts) starts l)
    (gc_to <$> filter (λ c, leads c = true) l) seen starts.
Proof.
  revert starts; induction l as [|c l IH]; intros starts Hrec; cbn [foldM].
  - split; [done|]. intros l' [= <-]. split; [done|done|by left|by intros a s ?%not_elem_of_nil].
  - pose proof (has_output_data_fuel c) as Hfuel. rewrite filter_cons.
    assert (∀ starts, start_spec (foldM (λ starts c,
      follow ← has_output_data rd pinData c;
      if (follow : bool) then rec (gc_to c) starts else Ok starts) starts l)
      (gc_to <$> filter (λ c, leads c = true) l) seen starts) as IH'
      by (intros; apply IH; intros; apply Hrec; by right).
    pose proof (leads_true c) as Hlead. destruct (has_output_data rd pinData c) as [[|]|e]; cbn [mbind result_bind].
    + rewrite decide_True by (by apply Hlead). destruct (Hrec c starts ltac:(by left)) as [Hr1 Hr2].
      destruct (rec (gc_to c) starts) as [l1|e]; [|split; [by intros [= ->]|done]].
      destruct (Hr2 l1 eq_refl) as [M1 N1 S1 C1]. destruct (IH' l1) as [Hf1 Hf2]. split; [done|].
      intros l2 [M2 N2 S2 C2]%Hf2. rewrite fmap_cons. split.
      * by etrans.
      * auto.
      * intros s [Hs|(? & a & Ha & ?)]%S2; [|right; split; [done|]; exists a; split; [by right|done]].
        apply S1 in Hs as [Hs|(? & a & ->%list_elem_of_singleton & ?)]; [by left|].
        right. split; [done|]. exists (gc_to c). split; [by left|done].
      * intros a s [->|Ha]%elem_of_cons ? ? ?; [apply M2; eapply C1; [by left|done..]|by eapply C2].
    + rewrite decide_False by (intros H; by apply Hlead in H). apply IH'.
    + split; [congruence|done].
Qed.

Lemma find_spec fuel current starts seen :
  hasNode g current = true → current ∈ V → unseen V seen < fuel →
  start_spec (findStartNodesRecursive g destination rd pinData fuel current starts seen) [current] seen starts.
Proof.
  revert current starts seen; induction fuel as [|fuel IH]; intros current starts seen Hn HcV Hf; [lia|].
  cbn [findStartNodesRecursive].
  destruct (isDirty rd pinData current) eqn:Hd; [apply stop_here; by left|].
  destruct (decide (current = destination)) as [->|Hdest]; [apply stop_here; by right; left|].
  pose proof (unfinished_loop_fuel current Hn) as Hfuel.
  destruct (unfinished_loop g rd current) as [[|]|e] eqn:Hu; cbn [mbind result_bind];
    [apply stop_here; by right; right| |split; [congruence|done]].
  destruct (js_has seen current) eqn:Hs.
  { apply js_has_true in Hs. split; [done|]. intros l [= <-]. split; [done|done|by left|].
    by intros a s ->%list_elem_of_singleton. }
  apply js_has_false in Hs. unfold getDirectChildConnections. rewrite Hn. cbn [mbind result_bind].
  pose proof (unseen_add V seen current HcV Hs) as Hlt.
  assert (∀ x, x ∈ js_add seen current ↔ x = current ∨ x ∈ seen) as Hadd by (intros; apply js_add_elem).
  destruct (find_children_spec (λ n starts, findStartNodesRecursive g destination rd pinData fuel n starts (js_add seen current))
    (js_add seen current) (filter (λ c, gc_from c = current) (g_conns g)) starts) as [H1 H2].
  { intros c starts' [_ Hc]%list_elem_of_filter. apply IH; [by apply Hwf|by apply HV|lia]. }
  split; [exact H1|]. intros l [M N So C]%H2.
  assert (∀ b, b ∈ gc_to <$> filter (λ c, leads c = true)
    (filter (λ c, gc_from c = current) (g_conns g)) ↔ follows current b) as Hfol.
  { intros b. rewrite list_elem_of_fmap. split.
    - intros (c & -> & [Ho%leads_true [Hc1 Hc2]%list_elem_of_filter]%list_elem_of_filter).
      split_and!; [done|done|done|]. by exists c.
    - intros (_ & _ & _ & c & ? & ? & <- & ?%leads_true). exists c. split; [done|]. by rewrite !list_elem_of_filter. }
  split; [done|done| |].
  - intros s [Hs'|(? & a & Ha & Hr)]%So; [by left|]. right. split; [done|]. exists current.
    split; [by left|]. eapply rtc_l; [by apply Hfol|done].
  - intros a s ->%list_elem_of_singleton _ Hstop Hr.
    assert (current ≠ s) as Hne.
    { intros <-. destruct Hstop as [?|[?|?]]; congruence. }
    destruct (rtc_leave _ _ _ Hr Hne) as (b & [Hb Hbs] & Hbn & Hrb).
    apply (C b); [by apply Hfol|rewrite Hadd; naive_solver|done|].
    eapply rtc_subrel; [|exact Hrb]. intros x y [[? ?] ?]. split; [done|]. rewrite Hadd. naive_solver.
Qed.
End Starts.

(** C32: [findStartNodes] terminates, and when no run data is malformed it returns, without duplicates,
    exactly the earliest nodes that have to run: the nodes that failed or have no data, the
    destination and the unfinished loops that a path of nodes with usable data, through outputs with
    data, leads to from the trigger. *)
Theorem findStartNodes_spec g destination rd pinData trigger :
  wf_graph g → hasNode g trigger = true →
  findStartNodes g destination rd pinData trigger ≠ Err OutOfFuel ∧
  ∀ l, findStartNodes g destination rd pinData trigger = Ok l →
    NoDup l ∧ ∀ s, s ∈ l ↔ stops g destination rd pinData s ∧ rtc (follows g destination rd pinData) trigger s.
Proof.
  intros Hwf Ht. unfold findStartNodes.
  destruct (find_spec g Hwf destination rd pinData (trigger :: (gc_to <$> g_conns g)))
    with (fuel := S (S (S (length (g_conns g))))) (current := trigger) (starts := @nil string) (seen := @nil string)
    as [H1 H2].
  - intros c Hc. right. by apply list_elem_of_fmap_2.
  - done.
  - by left.
  - pose proof (unseen_le (trigger :: (gc_to <$> g_conns g)) []). rewrite length_cons, length_fmap in *. lia.
  - split; [done|]. intros l [M N So C]%H2. split; [apply N, NoDup_nil_2|]. intros s. split.
    + intros [?%not_elem_of_nil|(? & a & ->%list_elem_of_singleton & ?)]%So; [done|done].
    + intros [Hs Hr]. apply (C trigger); [by left|apply not_elem_of_nil|done|].
      eapply rtc_subrel; [|exact Hr]. intros x y ?. split; [done|apply not_elem_of_nil].
Qed.

(** * Groups of source data *)

Section Groups.
Context (localeCompare : string → string → Z) (has_data : GraphConnection → bool).

(** The inputs of a group follow each other without a gap, and the group is complete when every
    connection has data. *)
Definition good_group (gr : SourceConnectionGroup) : Prop :=
  (∃ k, gc_inputIndex <$> gr_connections gr = seq k (length (gr_connections gr))) ∧
  gr_complete gr = forallb has_data (gr_connections gr).

(** The group under construction, whose next input is [index]. *)
Definition open_group (gr : SourceConnectionGroup) (index : nat) : Prop :=
  (∃ k, gc_inputIndex <$> gr_connections gr = seq k (length (gr_connections gr)) ∧
     index = k + length (gr_connections gr)) ∧
  gr_complete gr = forallb has_data (gr_connections gr).

Lemma open_good gr index : open_group gr index → good_group gr.
Proof. intros [(k & ? & _) ?]. split; [by exists k|done]. Qed.

Lemma open_new index : open_group newGroup index.
Proof. split; [|done]. exists index. cbn. split; [done|lia]. Qed.

Lemma open_add gr index c b :
  open_group gr index → at_input index c = true → b = gr_complete gr && has_data c →
  open_group (mkGroup b (gr_connections gr ++ [c])) (S index).
Proof.
  intros [(k & Hk & ->) Hc] Hi%Nat.eqb_eq ->. split; cbn.
  - exists k. rewrite fmap_app, length_app, Hk. cbn [length]. rewrite seq_app. cbn. rewrite Hi. split; [done|lia].
  - rewrite forallb_app. cbn. by rewrite andb_true_r, Hc.
Qed.

Lemma min_index_attained l : l ≠ [] → ∃ c, c ∈ l ∧ at_input (min_index l) c = true.
Proof.
  intros Hl. unfold min_index. destruct l as [|c l]; [done|]. rewrite fmap_cons. clear Hl.
  assert (∀ l i, foldl min i l = i ∨ foldl min i l ∈ l) as H.
  { clear. induction l as [|j l IH]; intros i; cbn [foldl]; [by left|].
    destruct (IH (min i j)) as [->|?]; [|right; by right].
    destruct (Nat.min_spec i j) as [[_ ->]|[_ ->]]; [by left|right; by left]. }
  destruct (H (gc_inputIndex <$> l) (gc_inputIndex c)) as [Heq|Hin].
  - exists c. split; [by left|]. unfold at_input. rewrite Heq. apply Nat.eqb_refl.
  - apply list_elem_of_fmap in Hin as (c' & Hc' & Hin). exists c'. split; [by right|].
    unfold at_input. rewrite Hc'. apply Nat.eqb_refl.
Qed.

Lemma group_loop_spec fuel wd wo groups cur index :
  Forall (λ c, has_data c = true) wd → Forall (λ c, has_data c = false) wo → open_group cur index →
  2 * length (wd ++ wo) + (if existsb (at_input index) (wd ++ wo) then 0 else 1) < fuel ∨
    (wd ++ wo = [] ∧ 0 < fuel) →
  ∃ new, group_loop fuel wd wo groups cur index = Some (groups ++ new) ∧
    mjoin (gr_connections <$> new) ≡ₚ gr_connections cur ++ wd ++ wo ∧ Forall good_group new.
Proof.
  revert wd wo groups cur index; induction fuel as [|fuel IH]; intros wd wo groups cur index Hd Ho Hopen Hf.
  { destruct Hf as [?|[_ ?]]; lia. }
  cbn [group_loop]. destruct (decide (wd ++ wo = [])) as [Hnil|Hne].
  { apply app_nil in Hnil as [-> ->]. exists [cur]. split; [done|]. cbn. rewrite !app_nil_r.
    split; [done|]. constructor; [by eapply open_good|constructor]. }
  destruct Hf as [Hf|[? _]]; [|done].
  assert (∀ A (x : A) y, (match wd with [] => match wo with [] => x | _ => y end | _ => y end) = y) as Hm.
  { intros A x y. destruct wd, wo; done. }
  rewrite Hm. clear Hm.
  destruct (list_find (at_input index) wd) as [[i c]|] eqn:Hfd.
  - apply list_find_Some in Hfd as (Hi & Hat & _). apply Is_true_true in Hat.
    pose proof (splice1_perm wd i c Hi) as Hp. pose proof (Permutation_length Hp) as Hlen.
    assert (has_data c = true) as Hc by (rewrite Forall_forall in Hd; apply Hd; by eapply list_elem_of_lookup_2).
    destruct (IH (splice1 wd i) wo groups (mkGroup (gr_complete cur) (gr_connections cur ++ [c])) (S index))
      as (new & H1 & H2 & H3); [|done| | |].
    + rewrite Hp in Hd. by inversion Hd.
    + eapply open_add; [done|done|]. by rewrite Hc, andb_true_r.
    + rewrite length_app in *. cbn in Hlen. destruct (decide (splice1 wd i ++ wo = [])) as [He|He]; [right; split; [done|lia]|left].
      destruct (existsb _ (splice1 wd i ++ wo)), (existsb _ (wd ++ wo)); lia.
    + exists new. split; [done|]. split; [|done]. rewrite H2. cbn [gr_connections]. rewrite Hp at 2.
      rewrite <- app_assoc. done.
  - apply list_find_None in Hfd.
    destruct (list_find (at_input index) wo) as [[i c]|] eqn:Hfo.
    + apply list_find_Some in Hfo as (Hi & Hat & _). apply Is_true_true in Hat.
      pose proof (splice1_perm wo i c Hi) as Hp. pose proof (Permutation_length Hp) as Hlen.
      assert (has_data c = false) as Hc by (rewrite Forall_forall in Ho; apply Ho; by eapply list_elem_of_lookup_2).
      destruct (IH wd (splice1 wo i) groups (mkGroup false (gr_connections cur ++ [c])) (S index))
        as (new & H1 & H2 & H3); [done| | | |].
      * rewrite Hp in Ho. by inversion Ho.
      * eapply open_add; [done|done|]. by rewrite Hc, andb_false_r.
      * rewrite length_app in *. cbn in Hlen. destruct (decide (wd ++ splice1 wo i = [])) as [He|He]; [right; split; [done|lia]|left].
        destruct (existsb _ (wd ++ splice1 wo i)), (existsb _ (wd ++ wo)); lia.
      * exists new. split; [done|]. split; [|done]. rewrite H2. cbn [gr_connections]. rewrite Hp at 2.
        rewrite <- app_assoc. cbn. by rewrite (Permutation_middle wd).
    + apply list_find_None in Hfo.
      assert (existsb (at_input index) (wd ++ wo) = false) as Hno.
      { apply not_true_iff_false. intros (c & Hc & Hat)%existsb_exists. apply list_elem_of_In, elem_of_app in Hc.
        rewrite Forall_forall in Hfd, Hfo. apply Is_true_true in Hat. destruct Hc as [Hc|Hc]; [by apply (Hfd c)|by apply (Hfo c)]. }
      rewrite Hno in Hf. destruct (min_index_attained (wd ++ wo) Hne) as (c & Hc & Hat).
      assert (existsb (at_input (min_index (wd ++ wo))) (wd ++ wo) = true) as Hyes.
      { apply existsb_exists. exists c. split; [by apply list_elem_of_In|done]. }
      destruct (IH wd wo (groups ++ [cur]) newGroup (min_index (wd ++ wo))) as (new & H1 & H2 & H3);
        [done|done|apply open_new|left; rewrite Hyes; lia|].
      exists (cur :: new). split; [by rewrite H1, <- app_assoc|]. split.
      * rewrite fmap_cons. cbn [mjoin list_join]. by rewrite H2.
      * constructor; [by eapply open_good|done].
Qed.
End Groups.

(** [getSourceDataGroups] terminates and splits the connections of the node that have data, and the
    main connections that have none, into groups: every one of them is in exactly one group, the
    connections of a group lead to consecutive inputs, one to each, and a group is complete exactly
    when all of its connections have data. *)
Theorem getSourceDataGroups_partition localeCompare g node rd pinData :
  ∃ groups, getSourceDataGroups localeCompare g node rd pinData = Some groups ∧
    mjoin (gr_connections <$> groups) ≡ₚ
      filter (λ c, has_source_data rd pinData c = true ∨ gc_type c = Main) (getConnectionsTo g node) ∧
    Forall (good_group (has_source_data rd pinData)) groups.
Proof.
  unfold getSourceDataGroups.
  set (wd := js_sort _ (filter _ _)). set (wo := js_sort _ (filter (λ c, _ ∧ _) _)).
  assert (wd ++ wo ≡ₚ filter (λ c, has_source_data rd pinData c = true ∨ gc_type c = Main) (getConnectionsTo g node)) as Hp.
  { unfold wd, wo. rewrite !js_sort_perm. induction (getConnectionsTo g node) as [|c l IH]; [done|].
    rewrite !filter_cons. destruct (has_source_data rd pinData c) eqn:Hc.
    - rewrite (decide_True (P := true = true)) by done. rewrite (decide_False (P := _ ∧ _)) by naive_solver.
      rewrite (decide_True (P := _ ∨ _)) by naive_solver. cbn. by rewrite IH.
    - rewrite (decide_False (P := false = true)) by done. destruct (decide (gc_type c = Main)) as [Ht|Ht].
      + rewrite (decide_True (P := _ ∧ _)) by done. rewrite (decide_True (P := _ ∨ _)) by naive_solver.
        rewrite <- Permutation_middle. by rewrite IH.
      + rewrite (decide_False (P := _ ∧ _)) by naive_solver. rewrite (decide_False (P := _ ∨ _)) by naive_solver. done. }
  destruct (decide (wd ++ wo = [])) as [Hnil|Hne].
  { rewrite Hnil in Hp. apply app_nil in Hnil as [Hwd Hwo]. rewrite Hwd, Hwo. exists []. split; [done|].
    cbn. split; [by symmetry|constructor]. }
  assert (∀ A (x : A) y, (match wd with [] => match wo with [] => x | _ => y end | _ => y end) = y) as Hm.
  { intros A x y. destruct wd, wo; done. }
  rewrite Hm. destruct (group_loop_spec (has_source_data rd pinData) (S (2 * length (wd ++ wo))) wd wo [] newGroup
    (min_index (wd ++ wo))) as (new & H1 & H2 & H3).
  - apply Forall_forall. intros c Hc. unfold wd in Hc. by apply js_sort_elem, list_elem_of_filter in Hc as [? _].
  - apply Forall_forall. intros c Hc. unfold wo in Hc. by apply js_sort_elem, list_elem_of_filter in Hc as [[? _] _].
  - apply open_new.
  - left. destruct (min_index_attained (wd ++ wo) Hne) as (c & Hc & Hat).
    assert (existsb (at_input (min_index (wd ++ wo))) (wd ++ wo) = true) as ->; [|lia].
    apply existsb_exists. exists c. split; [by apply list_elem_of_In|done].
  - exists new. split; [done|]. split; [|done]. by rewrite H2, <- Hp.
Qed.

(** * What goes wrong in partial executions *)

(** The names of the nodes an execution ran, in order, and for each run of [m] the nodes its inputs come from. *)
Definition ran (r : option (StepResult (W := nat))) : list string :=
  match r with Some r => rev (es_trace (state_of r)) | None => [] end.

Definition source_names (l : list (slot ISourceData)) : list string :=
  omap (λ s, match s with SVal s => Some (previousNode s) | _ => None end) l.

Definition sources_of (r : option (StepResult (W := nat))) (name : string) : list (list string) :=
  match r with
  | Some r => (λ t, source_names (td_source t)) <$> runs_of (runData (es_run (state_of r))) name
  | None => []
  end.

Definition full_fan_run : option (StepResult (W := nat)) :=
  match run_init fan_types fan_workflow (getNode fan_workflow "t") None None None [] with
  | Ok s => exec_loop fan_env 20 (engine_init 0 fan_workflow s)
  | Err _ => None
  end.

Definition partial_fan_run : option (StepResult (W := nat)) :=
  match fan_run with Ok (w, s, _) => exec_loop fan_env 20 (engine_init 0 w s) | Err _ => None end.

(** In a full run the node with three inputs runs once, with all of them.  In a partial run where the
    second input has data already and the other two have to be computed, the recreated waiting entry
    is shorter than the inputs of the node, so the node runs as soon as the first input arrives, and
    a second time with the third input alone. *)
Theorem partial_join_runs_twice :
  sources_of full_fan_run "m" = [["a"; "b"; "c"]] ∧
  ran partial_fan_run = ["a"; "m"; "c"; "m"] ∧
  sources_of partial_fan_run "m" = [["a"; "b"]; ["c"]].
Proof. split_and!; vm_compute; reflexivity. Qed.

(** Two nodes feed the second input of [m], one the first. *)
Definition pair_workflow : Workflow :=
  make_workflow
    [plain_node "t" "trigger"; plain_node "a" "set"; plain_node "b" "set"; plain_node "c" "set"; plain_node "m" "merge"]
    [("t", [(Main, [Some [mkConn "a" Main 0; mkConn "b" Main 0; mkConn "c" Main 0]])]);
     ("a", [(Main, [Some [mkConn "m" Main 0]])]);
     ("b", [(Main, [Some [mkConn "m" Main 1]])]);
     ("c", [(Main, [Some [mkConn "m" Main 1]])])]
    None (Some "v1").

(** When a second group of source data has no connection to the first input, the data for the second
    input of the node is passed to its first input. *)
Theorem second_group_shifted :
  ∃ w s i, runPartialWorkflow2 str_cmp (λ _, "{}") fan_types pair_workflow
      ((λ n, (n, [done_task n])) <$> ["t"; "a"; "b"; "c"]) [] [] (mkDestination "m" inclusive) None = Ok (w, s, i) ∧
    stack_inputs s = [[SVal [named_item "a"]; SVal [named_item "b"]]; [SVal [named_item "c"]]] ∧
    Forall (λ c, gc_inputIndex c = 1)
      (match fromWorkflow pair_workflow with
       | Ok g => filter (λ c, gc_from c = "c") (getConnectionsTo g "m") | Err _ => [] end).
Proof.
  eexists _, _, _. split; [vm_compute; reflexivity|]. split; [vm_compute; reflexivity|].
  vm_compute. repeat constructor.
Qed.

(** A tool of an agent that is attached to the second output of [i] and followed by a node. *)
Definition tool_workflow : Workflow :=
  make_workflow
    [plain_node "t" "trigger"; plain_node "i" "if"; plain_node "agent" "agent"; plain_node "tool" "tool";
     plain_node "next" "set"]
    [("t", [(Main, [Some [mkConn "i" Main 0]])]);
     ("i", [(Main, [Some []; Some [mkConn "agent" Main 0]])]);
     ("agent", [(Main, [Some [mkConn "next" Main 0]])]);
     ("tool", [(AiTool, [Some [mkConn "agent" AiTool 0]])])]
    None (Some "v1").

(** The run data of a sub-node of a node upstream, which stays clean, is removed as well: the
    filter on the type leaves the main connections out, not the sub-nodes beyond them. *)
Example upstream_tool_cleaned :
  (λ rd : IRunData, jm_keys rd) <$>
    (g ← fromWorkflow tool_workflow; cleanRunData ((λ n, (n, [done_task n])) <$> ["t"; "i"; "agent"; "tool"; "next"]) g ["next"])
  = Ok ["t"; "i"; "agent"].
Proof. vm_compute. reflexivity. Qed.

Definition rewired_tool : result GraphError DirectedGraph :=
  g ← fromWorkflow tool_workflow; rewireGraph (λ _, "{}") "tool" g None.

(** [rewireGraph] replaces the last node downstream of the tool, not the agent the tool belongs to:
    the executor is put behind the agent, which stays in the graph, and the node after it is removed. *)
Theorem rewire_replaces_last_descendant :
  ∃ g, rewired_tool = Ok g ∧ hasNode g "agent" = true ∧ hasNode g "next" = false ∧
    g_edge g "agent" TOOL_EXECUTOR_NODE_NAME ∧ g_edge g "tool" "agent".
Proof.
  eexists. split; [vm_compute; reflexivity|]. split; [reflexivity|]. split; [reflexivity|].
  split; [eexists (mkGC "agent" TOOL_EXECUTOR_NODE_NAME Main 0 0)|eexists (mkGC "tool" "agent" AiTool 0 0)];
    split_and!; try reflexivity; by_decide.
Qed.

(** * Witnesses *)

Lemma cleanRunData_spec_witness :
  ∃ g rd', fromWorkflow fan_workflow = Ok g ∧
    cleanRunData [("t", [done_task "t"]); ("a", [done_task "a"])] g ["a"] = Ok rd' ∧ jm_get rd' "a" = None.
Proof.
  destruct (fromWorkflow fan_workflow) as [g|] eqn:Hg; [|by vm_compute in Hg].
  destruct (cleanRunData_spec g [("t", [done_task "t"]); ("a", [done_task "a"])] ["a"]) as (rd' & H1 & H2).
  - by eapply fromWorkflow_wf.
  - intros n ->%list_elem_of_singleton. vm_compute in Hg. injection Hg as <-. reflexivity.
  - exists g, rd'. split; [reflexivity|]. split; [exact H1|]. apply (H2 "a"). right. exists "a".
    split; [exists "a"; split; [by left|apply rtc_refl]|apply rtc_refl].
Defined.

Lemma findStartNodes_spec_witness :
  ∃ g l, fromWorkflow fan_workflow = Ok g ∧
    findStartNodes g "m" [("t", [done_task "t"])] [] "t" = Ok l ∧ l = ["a"; "b"; "c"] ∧ NoDup l.
Proof.
  assert (∃ g, fromWorkflow fan_workflow = Ok g ∧ hasNode g "t" = true ∧
    findStartNodes g "m" [("t", [done_task "t"])] [] "t" = Ok ["a"; "b"; "c"]) as (g & Hg & Ht & Hl).
  { eexists. split; [vm_compute; reflexivity|]. split; vm_compute; reflexivity. }
  destruct (findStartNodes_spec g "m" [("t", [done_task "t"])] [] "t") as [_ H].
  - by eapply fromWorkflow_wf.
  - exact Ht.
  - exists g, ["a"; "b"; "c"]. split; [exact Hg|]. split; [exact Hl|]. split; [reflexivity|]. by apply H.
Defined.
