(* ===== verification/Concurrency.v ===== *)
(** Concurrency: cli/src/concurrency: [ConcurrencyQueue],
    [ConcurrencyControlService] and [ConcurrencyCapacityReservation], with
    cli/src/evaluation.ee/evaluation-concurrency.helper.ts.

    A queue counts free capacity and keeps the executions that wait for it.  The
    promise an execution waits on is a ticket: an operation returns the queue and
    the item whose promise it resolves.  Events and logging are left out. *)

From stdpp Require Import prelude list strings relations.
From Stdlib Require Import ZArith Lia.
From S2P Require Import Prelude.
Local Open Scope nat_scope.

(** * ConcurrencyQueue *)

Record QueueItem := mkItem {
  qi_executionId : string;
  qi_resolve : nat;
}.

Record ConcurrencyQueue := mkQueue {
  capacity : Z;
  queue : list QueueItem;
}.

(** [enqueue]: whether the returned promise is resolved already. *)
Definition enqueue (q : ConcurrencyQueue) (item : QueueItem) : ConcurrencyQueue * bool :=
  let c := (capacity q - 1)%Z in
  if bool_decide (c < 0)%Z then (mkQueue c (queue q ++ [item]), false) else (mkQueue c (queue q), true).

Definition resolveNext (q : ConcurrencyQueue) : ConcurrencyQueue * option QueueItem :=
  match queue q with
  | [] => (q, None)
  | item :: rest => (mkQueue (capacity q) rest, Some item)
  end.

Definition dequeue (q : ConcurrencyQueue) : ConcurrencyQueue * option QueueItem :=
  resolveNext (mkQueue (capacity q + 1) (queue q)).

Definition queued_index (q : ConcurrencyQueue) (executionId : string) : option nat :=
  find_index (λ item, bool_decide (qi_executionId item = executionId)) (queue q).

Definition remove (q : ConcurrencyQueue) (executionId : string) : ConcurrencyQueue * option QueueItem :=
  match queued_index q executionId with
  | Some index => resolveNext (mkQueue (capacity q + 1) (splice1 (queue q) index))
  | None => (q, None)
  end.

Definition getAll (q : ConcurrencyQueue) : list string := js_of_list (qi_executionId <$> queue q).

Definition queue_has (q : ConcurrencyQueue) (executionId : string) : bool :=
  existsb (λ item, bool_decide (qi_executionId item = executionId)) (queue q).

(** * The evaluation limit *)

(** What [resolveEvaluationConcurrencyLimit] reads: whether the environment
    variable is set, the number stored in the license, the plan name. *)
Record LimitSources := mkSources {
  ls_env_set : bool;
  ls_license_value : option Z;
  ls_planName : string;
}.

Definition EVALUATION_TIER_DEFAULTS : jmap string Z :=
  [("Community", 1%Z); ("Pro", 1%Z); ("Business", 3%Z); ("Enterprise", 5%Z)].

Definition readLicenseQuota (l : LimitSources) : option Z :=
  raw ← ls_license_value l; if bool_decide (raw = 0%Z) then None else Some raw.

Definition resolveEvaluationConcurrencyLimit (evaluationLimit : Z) (l : LimitSources) : Z :=
  if ls_env_set l then evaluationLimit else
  match readLicenseQuota l with
  | Some fromLicense => fromLicense
  | None => default 1%Z (jm_get EVALUATION_TIER_DEFAULTS (ls_planName l))
  end.

(** * ConcurrencyControlService *)

Inductive WorkflowExecuteMode :=
| MCli | MError | MIntegrated | MInternal | MManual | MRetry | MTrigger | MWebhook | MEvaluation | MChat | MAgent.
#[export] Instance WorkflowExecuteMode_eq_dec : EqDecision WorkflowExecuteMode.
Proof. solve_decision. Defined.

Inductive ConcurrencyQueueType := Production | Evaluation.
#[export] Instance ConcurrencyQueueType_eq_dec : EqDecision ConcurrencyQueueType.
Proof. solve_decision. Defined.

Inductive ConcurrencyError :=
| InvalidConcurrencyLimitError (limit : Z)
| UnknownExecutionModeError (mode : WorkflowExecuteMode).

Record CapacityTarget := mkTarget {
  ct_executionId : string;
  ct_mode : WorkflowExecuteMode;
}.

(** [globalConfig.executions]: the mode is ['queue'] or ['regular']. *)
Record ExecutionsConfig := mkConfig {
  queue_mode : bool;
  productionLimit : Z;
  evaluationLimit : Z;
}.

Record ConcurrencyControlService := mkService {
  isEnabled : bool;
  limits : jmap ConcurrencyQueueType Z;
  queues : jmap ConcurrencyQueueType ConcurrencyQueue;
  evalQueueResolved : bool;
}.

Definition with_queues (s : ConcurrencyControlService) (qs : jmap ConcurrencyQueueType ConcurrencyQueue) :
    ConcurrencyControlService := mkService (isEnabled s) (limits s) qs (evalQueueResolved s).

Definition normaliseLimit (limit : Z) : result ConcurrencyError Z :=
  if bool_decide (limit = 0)%Z then Err (InvalidConcurrencyLimitError 0)
  else Ok (if bool_decide (limit < -1)%Z then (-1)%Z else limit).

(** In queue mode the constructor returns before it creates the map of queues,
    which is not read while the service is disabled. *)
Definition new_service (config : ExecutionsConfig) : result ConcurrencyError ConcurrencyControlService :=
  p ← normaliseLimit (productionLimit config);
  e ← normaliseLimit (evaluationLimit config);
  let limits := [(Production, p); (Evaluation, e)] in
  if queue_mode config then Ok (mkService false limits [] false) else
  let qs := if bool_decide (0 < p)%Z then [(Production, mkQueue p [])] else [] in
  let qs' := if bool_decide (0 < e)%Z then jm_set qs Evaluation (mkQueue e []) else qs in
  Ok (mkService (negb (bool_decide (qs' = []))) limits qs' (bool_decide (0 < e)%Z)).

Section Control.
Context (config : ExecutionsConfig) (sources : LimitSources).

Definition ensureEvalQueueResolved (s : ConcurrencyControlService) : result ConcurrencyError ConcurrencyControlService :=
  if evalQueueResolved s then Ok s else
  if queue_mode config then Ok (mkService (isEnabled s) (limits s) (queues s) true) else
  normalised ← normaliseLimit (resolveEvaluationConcurrencyLimit (evaluationLimit config) sources);
  let limits' := jm_set (limits s) Evaluation normalised in
  if bool_decide (0 < normalised)%Z
  then Ok (mkService true limits' (jm_set (queues s) Evaluation (mkQueue normalised [])) true)
  else Ok (mkService (isEnabled s) limits' (queues s) true).

(** The queue a mode is counted in. *)
Definition queue_type (mode : WorkflowExecuteMode) : result ConcurrencyError (option ConcurrencyQueueType) :=
  match mode with
  | MError | MIntegrated | MCli | MInternal | MManual | MRetry => Ok None
  | MWebhook | MTrigger | MChat => Ok (Some Production)
  | MEvaluation => Ok (Some Evaluation)
  | MAgent => Err (UnknownExecutionModeError mode)
  end.

Definition getQueue (s : ConcurrencyControlService) (mode : WorkflowExecuteMode) :
    result ConcurrencyError (option (ConcurrencyQueueType * ConcurrencyQueue)) :=
  t ← queue_type mode; Ok (t ← t; q ← jm_get (queues s) t; Some (t, q)).

Definition service_has (s : ConcurrencyControlService) (executionId : string) : bool :=
  isEnabled s && existsb (λ q, queue_has q executionId) (jm_vals (queues s)).

(** The common part of [throttle], [release] and [remove]: resolve the evaluation
    queue, then act on the queue of the mode if there is one. *)
Definition on_queue {A} (s : ConcurrencyControlService) (mode : WorkflowExecuteMode) (skip : A)
    (act : ConcurrencyQueue → ConcurrencyQueue * A) : result ConcurrencyError (ConcurrencyControlService * A) :=
  s ← (if bool_decide (mode = MEvaluation) then ensureEvalQueueResolved s else Ok s);
  if negb (isEnabled s) then Ok (s, skip) else
  found ← getQueue s mode;
  match found with
  | None => Ok (s, skip)
  | Some (t, q) => let '(q', a) := act q in Ok (with_queues s (jm_set (queues s) t q'), a)
  end.

(** Whether the execution is let through at once; otherwise its promise is
    resolved when the item leaves the queue. *)
Definition throttle (s : ConcurrencyControlService) (target : CapacityTarget) (resolve : nat) :
    result ConcurrencyError (ConcurrencyControlService * bool) :=
  on_queue s (ct_mode target) true (λ q, enqueue q (mkItem (ct_executionId target) resolve)).

Definition release (s : ConcurrencyControlService) (mode : WorkflowExecuteMode) :
    result ConcurrencyError (ConcurrencyControlService * option QueueItem) :=
  on_queue s mode None dequeue.

Definition service_remove (s : ConcurrencyControlService) (target : CapacityTarget) :
    result ConcurrencyError (ConcurrencyControlService * option QueueItem) :=
  on_queue s (ct_mode target) None (λ q, remove q (ct_executionId target)).

End Control.

Definition remove_ids (q : ConcurrencyQueue) (ids : list string) : ConcurrencyQueue * list QueueItem :=
  foldl (λ '(q, out) id, let '(q', item) := remove q id in (q', out ++ option_list item)) (q, []) ids.

(** [removeAll]: the service, the items let through, the ids passed to
    [cancelMany] of the repository. *)
Definition removeAll (s : ConcurrencyControlService) (executionIdsToCancel : list string) :
    ConcurrencyControlService * list QueueItem * list string :=
  if negb (isEnabled s) then (s, [], []) else
  let emptied := (λ p, (p.1, remove_ids p.2 (getAll p.2))) <$> queues s in
  (with_queues s ((λ p, (p.1, p.2.1)) <$> emptied), concat ((λ p, p.2.2) <$> emptied), executionIdsToCancel).

Definition disable (s : ConcurrencyControlService) : ConcurrencyControlService :=
  mkService false (limits s) (queues s) (evalQueueResolved s).

(** * ConcurrencyCapacityReservation *)

(** [acquiredReservation]; [reserve] asserts that it is unset, and sets it once the
    promise of [throttle] is resolved. *)
Definition Reservation := option CapacityTarget.

Inductive ReserveError := AlreadyReserved | ThrottleError (e : ConcurrencyError).

Definition reserve config sources (r : Reservation) (s : ConcurrencyControlService) (target : CapacityTarget)
    (resolve : nat) : result ReserveError (ConcurrencyControlService * bool) :=
  match r with
  | Some _ => Err AlreadyReserved
  | None =>
      match throttle config sources s target resolve with
      | Ok r => Ok r
      | Err e => Err (ThrottleError e)
      end
  end.

Definition release_reservation config sources (r : Reservation) (s : ConcurrencyControlService) :
    result ConcurrencyError (ConcurrencyControlService * option QueueItem) :=
  match r with
  | None => Ok (s, None)
  | Some target => release config sources s (ct_mode target)
  end.

(** * Runs of a queue *)

(** What happens to one queue: an execution arrives, one that was let through
    ends, one that waits is removed. *)
Inductive QueueEvent :=
| Arrive (item : QueueItem)
| Depart
| Cancel (executionId : string).

Record QueueRun := mkRun {
  qr_queue : ConcurrencyQueue;
  qr_admitted : list QueueItem;
  qr_departed : nat;
}.

Definition new_run (limit : Z) : QueueRun := mkRun (mkQueue limit []) [] 0.

Definition qr_running (r : QueueRun) : nat := length (qr_admitted r) - qr_departed r.

Inductive queue_step : QueueRun → QueueEvent → QueueRun → Prop :=
| step_arrive q adm d item q' now :
    enqueue q item = (q', now) →
    queue_step (mkRun q adm d) (Arrive item) (mkRun q' (if now then adm ++ [item] else adm) d)
| step_depart q adm d q' o :
    d < length adm → dequeue q = (q', o) →
    queue_step (mkRun q adm d) Depart (mkRun q' (adm ++ option_list o) (S d))
| step_cancel q adm d id q' o :
    remove q id = (q', o) →
    queue_step (mkRun q adm d) (Cancel id) (mkRun q' (adm ++ option_list o) d).

Inductive queue_trace (r : QueueRun) : list QueueEvent → QueueRun → Prop :=
| trace_nil : queue_trace r [] r
| trace_snoc evs r' ev r'' : queue_trace r evs r' → queue_step r' ev r'' → queue_trace r (evs ++ [ev]) r''.

Lemma queue_trace_app r evs r' evs' r'' :
  queue_trace r evs r' → queue_trace r' evs' r'' → queue_trace r (evs ++ evs') r''.
Proof.
  intros H1 H2; induction H2 as [|evs' ra ev rb _ IH Hs]; [by rewrite app_nil_r|].
  rewrite (assoc (++)). by eapply trace_snoc.
Qed.

(** The steps, computed. *)
Definition queue_next (r : QueueRun) (ev : QueueEvent) : option QueueRun :=
  match ev with
  | Arrive item => let '(q', now) := enqueue (qr_queue r) item in
      Some (mkRun q' (if now then qr_admitted r ++ [item] else qr_admitted r) (qr_departed r))
  | Depart =>
      if bool_decide (qr_departed r < length (qr_admitted r)) then
        let '(q', o) := dequeue (qr_queue r) in
        Some (mkRun q' (qr_admitted r ++ option_list o) (S (qr_departed r)))
      else None
  | Cancel id => let '(q', o) := remove (qr_queue r) id in
      Some (mkRun q' (qr_admitted r ++ option_list o) (qr_departed r))
  end.

Fixpoint queue_run (r : QueueRun) (evs : list QueueEvent) : option QueueRun :=
  match evs with [] => Some r | ev :: evs => r' ← queue_next r ev; queue_run r' evs end.

Lemma queue_next_step r ev r' : queue_next r ev = Some r' ↔ queue_step r ev r'.
Proof.
  split.
  - destruct r as [q adm d]; destruct ev; cbn; intros H; repeat case_match; simplify_eq/=.
    + by apply (step_arrive _ _ _ _ _ true).
    + by apply (step_arrive _ _ _ _ _ false).
    + apply step_depart; [by eapply bool_decide_eq_true_1|done].
    + by apply step_cancel.
  - destruct 1 as [q adm d item q' now He|q adm d q' o Hd He|q adm d id q' o He]; cbn; rewrite He; [done| |done].
    by rewrite bool_decide_true.
Qed.

Lemma queue_run_trace r evs r' : queue_run r evs = Some r' → queue_trace r evs r'.
Proof.
  revert r; induction evs as [|ev evs IH]; cbn; intros r H; [simplify_eq; constructor|].
  apply bind_Some in H as (r1 & H1 & H2). change (ev :: evs) with ([ev] ++ evs).
  eapply queue_trace_app; [|by apply IH].
  eapply (trace_snoc _ []); [constructor|]. by apply queue_next_step.
Qed.

Definition arrived (ev : QueueEvent) : list QueueItem := match ev with Arrive i => [i] | _ => [] end.
Definition departed (ev : QueueEvent) : nat := match ev with Depart => 1 | _ => 0 end.
Definition canceled (ev : QueueEvent) : nat := match ev with Cancel _ => 1 | _ => 0 end.

Definition arrivals (evs : list QueueEvent) : list QueueItem := evs ≫= arrived.
Definition departures (evs : list QueueEvent) : nat := sum_list (departed <$> evs).
Definition cancels (evs : list QueueEvent) : nat := sum_list (canceled <$> evs).

Lemma arrivals_snoc evs ev : arrivals (evs ++ [ev]) = arrivals evs ++ arrived ev.
Proof. unfold arrivals. rewrite bind_app. cbn. by rewrite app_nil_r. Qed.
Lemma departures_snoc evs ev : departures (evs ++ [ev]) = departures evs + departed ev.
Proof. unfold departures. rewrite fmap_app, sum_list_with_app. cbn. lia. Qed.
Lemma cancels_snoc evs ev : cancels (evs ++ [ev]) = cancels evs + canceled ev.
Proof. unfold cancels. rewrite fmap_app, sum_list_with_app. cbn. lia. Qed.

#[local] Coercion Z.of_nat : nat >-> Z.

(** What every run of a queue keeps: capacity is conserved, nothing waits while
    there is capacity, and only removals let more run than the limit. *)
Record queue_inv (limit : Z) (n : nat) (r : QueueRun) : Prop := {
  qi_conserved : capacity (qr_queue r) = (limit + qr_departed r - length (qr_admitted r) - length (queue (qr_queue r)))%Z;
  qi_departed : qr_departed r ≤ length (qr_admitted r);
  qi_busy : queue (qr_queue r) ≠ [] → (limit ≤ qr_running r)%Z;
  qi_bound : (qr_running r ≤ limit + n)%Z;
}.

(** Splits a run, and an operation on the queue, into the cases of the code. *)
Ltac queue_cases :=
  repeat match goal with
  | H : (_, _) = (_, _) |- _ => simplify_eq/=
  | H : enqueue _ _ = _ |- _ => unfold enqueue in H; cbn in H
  | H : dequeue _ = _ |- _ => unfold dequeue in H
  | H : resolveNext _ = _ |- _ => unfold resolveNext in H; cbn in H
  | H : remove _ _ = _ |- _ => unfold remove in H; cbn in H
  | H : context [bool_decide ?P] |- _ => destruct (bool_decide_reflect P)
  | H : match ?l with [] => _ | _ => _ end = _ |- _ => destruct l eqn:?
  | H : match ?o with Some _ => _ | None => _ end = _ |- _ => destruct o eqn:?
  end.

Lemma queued_index_lookup q id i :
  queued_index q id = Some i → ∃ item, queue q !! i = Some item ∧ qi_executionId item = id.
Proof. intros (x & Hx & Hp & _)%find_index_Some. exists x. by apply bool_decide_unpack in Hp. Qed.

Lemma splice1_length {A} (l : list A) i x : l !! i = Some x → length l = S (length (splice1 l i)).
Proof. intros H. exact (Permutation_length (splice1_perm l i x H)). Qed.

Lemma queue_step_inv limit n r ev r' :
  (0 < limit)%Z → queue_inv limit n r → queue_step r ev r' → queue_inv limit (n + canceled ev) r'.
Proof.
  intros Hl [H1 H2 H3 H4] Hs; destruct Hs; queue_cases; unfold qr_running in *; cbn in *.
  all: try match goal with H : queued_index _ _ = Some _ |- _ =>
      apply queued_index_lookup in H as (? & Hi & _); pose proof (splice1_length _ _ _ Hi);
      assert (queue q ≠ []) by (by destruct (queue q)) end.
  all: try match goal with H : splice1 _ _ = _ |- _ => rewrite H in * end.
  all: try match goal with H : queue _ = _ |- _ => rewrite H in * end.
  all: cbn in *; try (specialize (H3 ltac:(done))).
  all: split; cbn; rewrite ?length_app; cbn; try lia; try done.
  all: intros; match goal with H : queue ?q ≠ [] → _ |- _ =>
    destruct (queue q); cbn in *; try done; try (specialize (H ltac:(done))); lia end.
Qed.

Lemma new_run_inv limit : (0 < limit)%Z → queue_inv limit 0 (new_run limit).
Proof. intros; split; unfold qr_running; cbn; try done; lia. Qed.

Lemma queue_trace_inv limit evs r :
  (0 < limit)%Z → queue_trace (new_run limit) evs r → queue_inv limit (cancels evs) r.
Proof.
  intros Hl Ht; induction Ht as [|evs r ev r' _ IH Hs]; [by apply new_run_inv|].
  rewrite cancels_snoc. by eapply queue_step_inv.
Qed.

Lemma queue_trace_departed r evs r' :
  queue_trace r evs r' → qr_departed r' = qr_departed r + departures evs.
Proof.
  induction 1 as [|evs ra ev rb _ IH Hs]; [cbn; lia|].
  rewrite departures_snoc. destruct Hs; cbn in *; lia.
Qed.

(** * Order of admission *)

Lemma take_snoc_le {A} (l : list A) x n : n ≤ length l → take n (l ++ [x]) = take n l.
Proof. intros. by rewrite take_app_le. Qed.

(** Without removals the executions let through are the first to have arrived. *)
Record fifo_state (limit : Z) (arr : list QueueItem) (r : QueueRun) : Prop := {
  fs_admitted : qr_admitted r = take (Z.to_nat limit + qr_departed r) arr;
  fs_waiting : queue (qr_queue r) = drop (Z.to_nat limit + qr_departed r) arr;
  fs_capacity : capacity (qr_queue r) = (limit + qr_departed r - length arr)%Z;
}.

Lemma fifo_step limit arr r ev r' :
  (0 < limit)%Z → canceled ev = 0 → fifo_state limit arr r → queue_step r ev r' → fifo_state limit (arr ++ arrived ev) r'.
Proof.
  intros Hl Hc [Ha Hw Hcap] Hs; destruct Hs as [q adm d item q' now He|q adm d q' o Hd He|]; cbn in *; [| |done].
  - unfold enqueue in He; case_bool_decide as Hfull; simplify_eq/=; split; cbn; rewrite ?length_app; cbn; try lia.
    + rewrite take_app_le by lia. done.
    + rewrite drop_app_le by lia. by rewrite Hw.
    + rewrite !take_ge; [done| |]; rewrite ?length_app; cbn; lia.
    + rewrite Hw, !drop_ge; [done| |]; rewrite ?length_app; cbn; lia.
  - rewrite app_nil_r. unfold dequeue, resolveNext in He; cbn in He.
    rewrite Hw in He. set (k := Z.to_nat limit + d) in *.
    destruct (drop k arr) as [|x rest] eqn:Hdrop; simplify_eq/=; split; cbn; try lia;
      replace (Z.to_nat limit + S d) with (S k) by lia.
    + rewrite app_nil_r. apply (f_equal length) in Hdrop. rewrite length_drop in Hdrop. cbn in Hdrop. by rewrite !take_ge by lia.
    + symmetry. apply drop_ge. apply (f_equal length) in Hdrop. rewrite length_drop in Hdrop. cbn in Hdrop. lia.
    + assert (arr !! k = Some x) as Hk by (rewrite <- (Nat.add_0_r k), <- lookup_drop, Hdrop; done).
      by rewrite (take_S_r _ _ _ Hk).
    + replace (S k) with (k + 1) by lia. by rewrite <- drop_drop, Hdrop.
Qed.

Lemma fifo_trace limit evs r :
  (0 < limit)%Z → cancels evs = 0 → queue_trace (new_run limit) evs r → fifo_state limit (arrivals evs) r.
Proof.
  intros Hl Hc Ht; induction Ht as [|evs r ev r' _ IH Hs].
  - split; cbn; [by rewrite take_nil|by rewrite drop_nil|lia].
  - rewrite cancels_snoc in Hc. rewrite arrivals_snoc. eapply fifo_step; [done|lia| |done]. apply IH. lia.
Qed.

(** C37: A queue with a positive limit implements a first-come, first-served
    semaphore: as long as nothing is removed from the queue, after any sequence of
    arrivals and departures the executions let through are exactly the first
    [limit + departures] to have arrived, in order, the others wait in their order
    of arrival, and at most [limit] of those let through have not departed. *)
Theorem queue_refines_semaphore limit evs r :
  (0 < limit)%Z → cancels evs = 0 → queue_trace (new_run limit) evs r →
  let k := Z.to_nat limit + departures evs in
  qr_admitted r = take k (arrivals evs) ∧
  queue (qr_queue r) = drop k (arrivals evs) ∧
  (qr_running r ≤ limit)%Z.
Proof.
  intros Hl Hc Ht. destruct (fifo_trace _ _ _ Hl Hc Ht) as [Ha Hw _].
  pose proof (queue_trace_departed _ _ _ Ht) as Hd; cbn in Hd. rewrite Hd in Ha, Hw.
  destruct (queue_trace_inv _ _ _ Hl Ht) as [_ _ _ Hb]. repeat split; [done..|]. lia.
Qed.

Lemma departs_possible limit n r k :
  (0 < limit)%Z → queue_inv limit n r → k ≤ length (queue (qr_queue r)) →
  ∃ r', queue_trace r (repeat Depart k) r' ∧ queue_inv limit n r'.
Proof.
  intros Hl. revert r; induction k as [|k IH]; intros r Hinv Hk; [exists r; by split; [constructor|]|].
  destruct r as [q adm d]; cbn in Hk.
  assert (queue q ≠ []) as Hne by (by destruct (queue q); cbn in Hk; [lia|]).
  pose proof (qi_busy _ _ _ Hinv Hne) as Hb. unfold qr_running in Hb; cbn in Hb.
  destruct (dequeue q) as [q' o] eqn:Hdq.
  assert (queue_step (mkRun q adm d) Depart (mkRun q' (adm ++ option_list o) (S d))) as Hs by (constructor; [lia|done]).
  pose proof (queue_step_inv _ _ _ _ _ Hl Hinv Hs) as Hinv'. cbn in Hinv'. rewrite Nat.add_0_r in Hinv'.
  destruct (IH _ Hinv') as (r' & Ht & Hr').
  { cbn. unfold dequeue, resolveNext in Hdq; cbn in Hdq. destruct (queue q) as [|x l]; [done|].
    simplify_eq/=. lia. }
  exists r'; split; [|done]. replace (repeat Depart (S k)) with ([Depart] ++ repeat Depart k) by done.
  eapply queue_trace_app; [|done]. by apply (trace_snoc _ [] _ _ _ (trace_nil _)).
Qed.

(** No execution waits forever as long as those let through end: when nothing is
    removed, an execution with [p] others before it in the queue can always be let
    through by [p + 1] departures, and every continuation with [p + 1] departures
    does so, whatever else arrives. *)
Theorem waiting_execution_admitted limit evs r p item :
  (0 < limit)%Z → cancels evs = 0 → queue_trace (new_run limit) evs r →
  queue (qr_queue r) !! p = Some item →
  (∃ r', queue_trace r (repeat Depart (S p)) r') ∧
  ∀ evs' r', cancels evs' = 0 → queue_trace r evs' r' → p < departures evs' → item ∈ qr_admitted r'.
Proof.
  intros Hl Hc Ht Hp. split.
  - destruct (departs_possible limit (cancels evs) r (S p)) as (r' & ? & _); eauto using queue_trace_inv.
    by apply lookup_lt_Some in Hp.
  - intros evs' r' Hc' Ht' Hd.
    pose proof (queue_trace_app _ _ _ _ _ Ht Ht') as Htt.
    assert (cancels (evs ++ evs') = 0) as Hcc by (unfold cancels in *; rewrite fmap_app, sum_list_with_app; lia).
    destruct (fifo_trace _ _ _ Hl Hc Ht) as [_ Hw _]. rewrite Hw, lookup_drop in Hp.
    destruct (fifo_trace _ _ _ Hl Hcc Htt) as [Ha _ _]. rewrite Ha.
    rewrite (queue_trace_departed _ _ _ Ht').
    unfold arrivals in *. rewrite bind_app.
    apply list_elem_of_lookup. exists (Z.to_nat limit + qr_departed r + p).
    rewrite lookup_take_lt by lia. rewrite lookup_app_l; [done|]. by apply lookup_lt_Some in Hp.
Qed.

(** Removals are the only way past the limit, and each is worth one execution:
    after any events the number of executions let through and not departed is at
    most the limit plus the number of removals, and nothing waits while fewer than
    the limit run.  With a limit of one, removing one of two waiting executions lets
    the other run next to the first. *)
Theorem removals_exceed_limit limit evs r :
  (0 < limit)%Z → queue_trace (new_run limit) evs r →
  (qr_running r ≤ limit + cancels evs)%Z ∧
  (queue (qr_queue r) ≠ [] → (limit ≤ qr_running r)%Z) ∧
  ∃ evs1 r1, queue_trace (new_run 1) evs1 r1 ∧ cancels evs1 = 1 ∧ qr_running r1 = 2.
Proof.
  intros Hl Ht. destruct (queue_trace_inv _ _ _ Hl Ht) as [_ _ Hb Hn]. repeat split; [done..|].
  exists [Arrive (mkItem "a" 0); Arrive (mkItem "b" 1); Arrive (mkItem "c" 2); Cancel "b"].
  eexists. split; [by apply queue_run_trace|done].
Qed.

Definition three_arrivals : list QueueEvent :=
  [Arrive (mkItem "a" 0); Arrive (mkItem "b" 1); Arrive (mkItem "c" 2)].

Definition two_waiting : QueueRun :=
  mkRun (mkQueue (-2) [mkItem "b" 1; mkItem "c" 2]) [mkItem "a" 0] 0.

Lemma three_arrivals_trace : queue_trace (new_run 1) three_arrivals two_waiting.
Proof. by apply queue_run_trace. Qed.

Lemma queue_refines_semaphore_witness :
  (0 < 1)%Z ∧ cancels three_arrivals = 0 ∧ qr_admitted two_waiting = take 1 (arrivals three_arrivals).
Proof.
  split; [lia|split; [reflexivity|]].
  apply (queue_refines_semaphore 1 three_arrivals two_waiting); [lia|reflexivity|exact three_arrivals_trace].
Defined.

Lemma waiting_execution_admitted_witness :
  queue (qr_queue two_waiting) !! 1 = Some (mkItem "c" 2) ∧
  ∃ r', queue_trace two_waiting (repeat Depart 2) r'.
Proof.
  split; [reflexivity|].
  apply (waiting_execution_admitted 1 three_arrivals two_waiting 1 (mkItem "c" 2));
    [lia|reflexivity|exact three_arrivals_trace|reflexivity].
Defined.

Lemma removals_exceed_limit_witness : (0 < 1)%Z ∧ (qr_running two_waiting ≤ 1 + 0)%Z.
Proof.
  split; [lia|].
  exact (proj1 (removals_exceed_limit 1 three_arrivals two_waiting ltac:(lia) three_arrivals_trace)).
Defined.

(** * The interface of capacity control

    What [ActiveExecutions] relies on.  [pool s t] is the number of executions of
    the queue [t] that hold capacity and the items that wait for it, or [None]
    when [t] is not limited. *)
Class CapacityControl (C : Type) := {
  cc_throttle : C → CapacityTarget → nat → result ConcurrencyError (C * bool);
  cc_release : C → WorkflowExecuteMode → result ConcurrencyError (C * option QueueItem);
  cc_has : C → string → bool;
  cc_remove : C → CapacityTarget → result ConcurrencyError (C * option QueueItem);
  cc_disable : C → C;
  cc_removeAll : C → list string → C * list QueueItem * list string;
  pool : C → ConcurrencyQueueType → option (Z * list QueueItem);
}.

(** The pool a mode draws from. *)
Definition mode_pool {C : Type} `{CapacityControl C} (s : C) (mode : WorkflowExecuteMode) :
    option (ConcurrencyQueueType * (Z * list QueueItem)) :=
  match queue_type mode with
  | Ok (Some t) => p ← pool s t; Some (t, p)
  | _ => None
  end.

(** Only the pool of [t] changes, to [p]. *)
Definition pool_set {C : Type} `{CapacityControl C} (s s' : C) (t : ConcurrencyQueueType) (p : Z * list QueueItem) : Prop :=
  pool s' t = Some p ∧ ∀ t', t' ≠ t → pool s' t' = pool s t'.

Lemma pool_set_eq {C : Type} `{CapacityControl C} (s s' : C) t p p' : pool_set s s' t p → p = p' → pool_set s s' t p'.
Proof. by intros ? <-. Qed.

Class CapacityLaws (C : Type) `{CapacityControl C} : Prop := {
  throttle_law s target k s' now :
    ct_mode target ≠ MEvaluation → cc_throttle s target k = Ok (s', now) →
    match mode_pool s (ct_mode target) with
    | Some (t, (used, waiting)) =>
        pool_set s s' t (if now then (used + 1, waiting)%Z else (used, waiting ++ [mkItem (ct_executionId target) k]))
    | None => s' = s ∧ now = true
    end;
  release_law s mode s' o :
    mode ≠ MEvaluation → cc_release s mode = Ok (s', o) →
    match mode_pool s mode with
    | Some (t, (used, waiting)) =>
        o = head waiting ∧ pool_set s s' t ((used - 1 + length (option_list o))%Z, tail waiting)
    | None => s' = s ∧ o = None
    end;
  remove_law s target s' o :
    ct_mode target ≠ MEvaluation → cc_remove s target = Ok (s', o) →
    match mode_pool s (ct_mode target) with
    | Some (t, (used, waiting)) =>
        match find_index (λ item, bool_decide (qi_executionId item = ct_executionId target)) waiting with
        | Some i => o = head (splice1 waiting i) ∧
            pool_set s s' t ((used + length (option_list o))%Z, tail (splice1 waiting i))
        | None => o = None ∧ pool_set s s' t (used, waiting)
        end
    | None => s' = s ∧ o = None
    end;
  release_total_law s mode :
    mode ≠ MEvaluation → mode_pool s mode ≠ None → ∃ r, cc_release s mode = Ok r;
  disable_law s t : pool (cc_disable s) t = None;
  removeAll_disabled_law s ids : cc_removeAll (cc_disable s) ids = (cc_disable s, [], []);
}.

Definition service_pool (s : ConcurrencyControlService) (t : ConcurrencyQueueType) : option (Z * list QueueItem) :=
  if isEnabled s then
    q ← jm_get (queues s) t;
    Some ((default 0%Z (jm_get (limits s) t) - capacity q - length (queue q))%Z, queue q)
  else None.

Lemma service_pool_disabled s t : isEnabled s = false → service_pool s t = None.
Proof. unfold service_pool. by intros ->. Qed.

Section ServiceLaws.
Context (config : ExecutionsConfig) (sources : LimitSources).

#[export] Instance service_control : CapacityControl ConcurrencyControlService := {
  cc_throttle := throttle config sources;
  cc_release := release config sources;
  cc_has := service_has;
  cc_remove := service_remove config sources;
  cc_disable := disable;
  cc_removeAll := removeAll;
  pool := service_pool;
}.

(** How an operation on the queue of a mode changes the pools. *)
Lemma on_queue_pool {A} s mode (skip : A) act s' a :
  mode ≠ MEvaluation → on_queue config sources s mode skip act = Ok (s', a) →
  match mode_pool s mode with
  | Some (t, _) => ∃ q, jm_get (queues s) t = Some q ∧ isEnabled s = true ∧ a = (act q).2 ∧
      s' = with_queues s (jm_set (queues s) t (act q).1)
  | None => s' = s ∧ a = skip
  end.
Proof.
  intros Hm H. unfold on_queue in H. rewrite bool_decide_false in H by done. cbn in H.
  unfold mode_pool, getQueue in *. cbn. destruct (isEnabled s) eqn:He; cbn in H.
  - destruct (queue_type mode) as [[t|]|] eqn:Ht; simplify_eq/=; [|done].
    unfold service_pool. rewrite He. destruct (jm_get (queues s) t) as [q|] eqn:Hq; simplify_eq/=; [|done].
    destruct (act q) as [q' a'] eqn:Hact; simplify_eq/=. exists q. by rewrite Hact.
  - simplify_eq. destruct (queue_type mode) as [[t|]|]; try done. cbn. by rewrite service_pool_disabled.
Qed.

Lemma pool_set_queue s t q' :
  isEnabled s = true →
  pool_set s (with_queues s (jm_set (queues s) t q')) t
    ((default 0%Z (jm_get (limits s) t) - capacity q' - length (queue q'))%Z, queue q').
Proof.
  intros He; split; cbn; unfold service_pool; cbn; rewrite He.
  - by rewrite jm_get_set.
  - intros t' Ht'. by rewrite jm_get_set_ne.
Qed.

Lemma mode_pool_queue s mode t p q :
  mode_pool s mode = Some (t, p) → jm_get (queues s) t = Some q → isEnabled s = true →
  p = ((default 0%Z (jm_get (limits s) t) - capacity q - length (queue q))%Z, queue q).
Proof.
  unfold mode_pool. cbn. intros H Hq He. destruct (queue_type mode) as [[t'|]|]; try done.
  destruct (service_pool s t') eqn:Hp; simplify_eq/=. unfold service_pool in Hp. rewrite He, Hq in Hp. by simplify_eq/=.
Qed.

(** The service implements the interface. *)
#[export] Instance service_laws : CapacityLaws ConcurrencyControlService.
Proof.
  split.
  - intros s target k s' now Hm H. pose proof (on_queue_pool _ _ _ _ _ _ Hm H) as Hp.
    destruct (mode_pool s (ct_mode target)) as [[t [used waiting]]|] eqn:Hmp; [|done].
    destruct Hp as (q & Hq & He & -> & ->).
    pose proof (mode_pool_queue _ _ _ _ _ Hmp Hq He) as Heq; simplify_eq.
    unfold enqueue. case_bool_decide; cbn; (eapply pool_set_eq; [by apply pool_set_queue|cbn]).
    + rewrite length_app; cbn. f_equal. lia.
    + f_equal. lia.
  - intros s mode s' o Hm H. pose proof (on_queue_pool _ _ _ _ _ _ Hm H) as Hp.
    destruct (mode_pool s mode) as [[t [used waiting]]|] eqn:Hmp; [|done].
    destruct Hp as (q & Hq & He & -> & ->).
    pose proof (mode_pool_queue _ _ _ _ _ Hmp Hq He) as Heq; simplify_eq.
    unfold dequeue, resolveNext; cbn. destruct (queue q) as [|x l]; cbn;
      (split; [done|]; eapply pool_set_eq; [by apply pool_set_queue|cbn; f_equal; lia]).
  - intros s target s' o Hm H. pose proof (on_queue_pool _ _ _ _ _ _ Hm H) as Hp.
    destruct (mode_pool s (ct_mode target)) as [[t [used waiting]]|] eqn:Hmp; [|done].
    destruct Hp as (q & Hq & He & -> & ->).
    pose proof (mode_pool_queue _ _ _ _ _ Hmp Hq He) as Heq; simplify_eq.
    unfold remove, queued_index. destruct (find_index _ (queue q)) as [i|] eqn:Hi.
    + destruct (queued_index_lookup q (ct_executionId target) i Hi) as (x & Hx & _).
      pose proof (splice1_length _ _ _ Hx).
      unfold resolveNext; cbn. destruct (splice1 (queue q) i) as [|y l]; cbn in *;
        (split; [done|]; eapply pool_set_eq; [by apply pool_set_queue|cbn; f_equal; lia]).
    + cbn. split; [done|]. by apply pool_set_queue.
  - intros s mode Hm Hp. cbn. unfold release, on_queue. rewrite bool_decide_false by done. cbn.
    destruct (isEnabled s) eqn:He; cbn; [|by eexists].
    unfold mode_pool in Hp. unfold getQueue. destruct (queue_type mode) as [[t|]|]; try done. cbn.
    destruct (jm_get (queues s) t) as [q|]; cbn; [|by eexists].
    destruct (dequeue q); by eexists.
  - intros s t. by apply service_pool_disabled.
  - done.
Qed.
End ServiceLaws.
