(* ===== verification/ActiveExecutions.v ===== *)
(** ActiveExecutions: cli/src/active-executions.ts.

    The executions of one process, against the interface of capacity control.  An
    [add] is a process that awaits the database and the capacity: its phase says
    what it waits for, and every continuation is an operation.  The call number of
    an [add] names its promise, its reservation and the execution object it
    creates.  Events and logging are left out; calls on other objects are
    effects. *)

From stdpp Require Import prelude list strings relations.
From Stdlib Require Import ZArith Lia.
From S2P Require Import Prelude ExecutionTypes Concurrency.
Local Open Scope nat_scope.

(** The part of [IWorkflowExecutionDataProcess] that is read here. *)
Record ExecutionData := mkData {
  executionMode : WorkflowExecuteMode;
  retryOf : option string;
  workflowId : string;
  httpResponse : bool;
}.

(** The post-execute promise: pending, settled with the callback of [finally] still
    to run, or done. *)
Inductive PostExecute := PostPending | PostSettled | PostDone.

Record IExecutingWorkflowData := mkExec {
  ex_executionId : string;
  ex_data : ExecutionData;
  ex_startedAt : Z;
  ex_post : PostExecute;
  ex_responsePromise : option nat;
  ex_workflowExecution : option nat;
  ex_status : ExecutionStatus;
  ex_reservation : Reservation;
}.

(** What a call of [add] awaits: the id of a new execution, the capacity, or the
    database update before the execution starts.  [fresh]: no id was passed. *)
Inductive AddPhase :=
| Creating
| Reserving (id : string) (fresh admitted : bool)
| Starting (id : string) (fresh : bool).

Record PendingAdd := mkPending {
  pa_data : ExecutionData;
  pa_status : ExecutionStatus;
  pa_phase : AddPhase;
  pa_reservation : Reservation;
}.

Inductive AddError :=
| ExecutionAlreadyResumingError (id : string)
| AddAssertionError
| CapacityError (e : ConcurrencyError)
| DatabaseError.

(** Calls on objects outside this component. *)
Inductive Effect :=
| ResolveResponse (promise : nat)
| RejectResponse (promise : nat)
| CancelWorkflow (workflowExecution : nat)
| EndHttpResponse (id : string)
| WriteChunk (id : string)
| CancelMany (ids : list string).

Record Executions {C : Type} := mkExecutions {
  concurrencyControl : C;
  pendingAdds : jmap nat PendingAdd;
  objects : jmap nat IExecutingWorkflowData;
  activeExecutions : jmap string nat;
  responseModes : jmap string string;
  results : jmap nat (result AddError string);
  effects : list Effect;
}.
Arguments Executions C : clear implicits.

Section ActiveExecutions.
Context {C : Type} `{CapacityControl C} (queueMode : bool).

Definition with_control (s : Executions C) (c : C) : Executions C :=
  mkExecutions C c (pendingAdds s) (objects s) (activeExecutions s) (responseModes s) (results s) (effects s).
Definition with_pending (s : Executions C) (p : jmap nat PendingAdd) : Executions C :=
  mkExecutions C (concurrencyControl s) p (objects s) (activeExecutions s) (responseModes s) (results s) (effects s).
Definition with_objects (s : Executions C) (o : jmap nat IExecutingWorkflowData) : Executions C :=
  mkExecutions C (concurrencyControl s) (pendingAdds s) o (activeExecutions s) (responseModes s) (results s) (effects s).
Definition with_active (s : Executions C) (a : jmap string nat) (m : jmap string string) : Executions C :=
  mkExecutions C (concurrencyControl s) (pendingAdds s) (objects s) a m (results s) (effects s).
Definition with_result (s : Executions C) (call : nat) (r : result AddError string) : Executions C :=
  mkExecutions C (concurrencyControl s) (pendingAdds s) (objects s) (activeExecutions s) (responseModes s)
    (jm_set (results s) call r) (effects s).
Definition emit (s : Executions C) (es : list Effect) : Executions C :=
  mkExecutions C (concurrencyControl s) (pendingAdds s) (objects s) (activeExecutions s) (responseModes s)
    (results s) (effects s ++ es).

(** * Objects *)

Definition has (s : Executions C) (executionId : string) : bool := jm_has (activeExecutions s) executionId.

(** The object an id refers to. *)
Definition object_of (s : Executions C) (executionId : string) : option (nat * IExecutingWorkflowData) :=
  o ← jm_get (activeExecutions s) executionId; x ← jm_get (objects s) o; Some (o, x).

Definition put_object (s : Executions C) (o : nat) (x : IExecutingWorkflowData) : Executions C :=
  with_objects s (jm_set (objects s) o x).

Definition set_ex_status (x : IExecutingWorkflowData) (st : ExecutionStatus) : IExecutingWorkflowData :=
  mkExec (ex_executionId x) (ex_data x) (ex_startedAt x) (ex_post x) (ex_responsePromise x)
    (ex_workflowExecution x) st (ex_reservation x).
Definition set_ex_response (x : IExecutingWorkflowData) (p : nat) : IExecutingWorkflowData :=
  mkExec (ex_executionId x) (ex_data x) (ex_startedAt x) (ex_post x) (Some p)
    (ex_workflowExecution x) (ex_status x) (ex_reservation x).
Definition set_ex_workflow (x : IExecutingWorkflowData) (w : option nat) : IExecutingWorkflowData :=
  mkExec (ex_executionId x) (ex_data x) (ex_startedAt x) (ex_post x) (ex_responsePromise x)
    w (ex_status x) (ex_reservation x).
Definition set_ex_post (x : IExecutingWorkflowData) (p : PostExecute) : IExecutingWorkflowData :=
  mkExec (ex_executionId x) (ex_data x) (ex_startedAt x) p (ex_responsePromise x)
    (ex_workflowExecution x) (ex_status x) (ex_reservation x).
Definition set_ex_reservation (x : IExecutingWorkflowData) (r : Reservation) : IExecutingWorkflowData :=
  mkExec (ex_executionId x) (ex_data x) (ex_startedAt x) (ex_post x) (ex_responsePromise x)
    (ex_workflowExecution x) (ex_status x) r.

(** Settling a promise has an effect only once. *)
Definition settle (x : IExecutingWorkflowData) : IExecutingWorkflowData :=
  match ex_post x with PostPending => set_ex_post x PostSettled | _ => x end.

(** * Capacity *)

(** The promise of the waiting [add] is resolved. *)
Definition let_through (s : Executions C) (o : option QueueItem) : Executions C :=
  match o with
  | None => s
  | Some item =>
      match jm_get (pendingAdds s) (qi_resolve item) with
      | Some p =>
          match pa_phase p with
          | Reserving id fresh _ => with_pending s (jm_set (pendingAdds s) (qi_resolve item)
              (mkPending (pa_data p) (pa_status p) (Reserving id fresh true) (pa_reservation p)))
          | _ => s
          end
      | None => s
      end
  end.

(** [capacityReservation.release()] *)
Definition give_back (s : Executions C) (r : Reservation) : result ConcurrencyError (Executions C) :=
  match r with
  | None => Ok s
  | Some target =>
      '(c, o) ← cc_release (concurrencyControl s) (ct_mode target);
      Ok (let_through (with_control s c) o)
  end.

(** * [add] *)

(** The [catch] block: give the capacity back and throw. *)
Definition fail_add (s : Executions C) (call : nat) (p : PendingAdd) (e : AddError) : Executions C :=
  let s := with_pending s (jm_del (pendingAdds s) call) in
  match give_back s (pa_reservation p) with
  | Ok s => with_result s call (Err e)
  | Err e' => with_result s call (Err (CapacityError e'))
  end.

(** The synchronous end of [add]: the execution becomes active.  A resumed
    execution keeps its start time and its response promise. *)
Definition register (s : Executions C) (call : nat) (p : PendingAdd) (executionId : string) (now : Z) : Executions C :=
  let resuming := snd <$> object_of s executionId in
  let execution := mkExec executionId (pa_data p) (default now (ex_startedAt <$> resuming)) PostPending
    (resuming ≫= ex_responsePromise) None (pa_status p) (pa_reservation p) in
  let s := with_pending s (jm_del (pendingAdds s) call) in
  let s := put_object s call execution in
  with_result (with_active s (jm_set (activeExecutions s) executionId call) (responseModes s)) call (Ok executionId).

Definition set_status_running (p : PendingAdd) : PendingAdd :=
  mkPending (pa_data p) st_running (pa_phase p) (pa_reservation p).

(** After the reservation: [setRunning] in regular mode, or the update of an
    existing execution, is awaited. *)
Definition add_reserved (s : Executions C) (call : nat) (p : PendingAdd) (id : string) (fresh : bool) (now : Z) : Executions C :=
  if fresh && queueMode then register s call (set_status_running p) id now
  else with_pending s (jm_set (pendingAdds s) call (mkPending (pa_data p) (pa_status p) (Starting id fresh) (pa_reservation p))).

(** [capacityReservation.reserve], skipped for evaluations. *)
Definition add_reserve (s : Executions C) (call : nat) (p : PendingAdd) (id : string) (fresh : bool) (now : Z) : Executions C :=
  let mode := executionMode (pa_data p) in
  if bool_decide (mode = MEvaluation) then add_reserved s call p id fresh now else
  match cc_throttle (concurrencyControl s) (mkTarget id mode) call with
  | Err e => fail_add s call p (CapacityError e)
  | Ok (c, admitted) =>
      with_pending (with_control s c)
        (jm_set (pendingAdds s) call (mkPending (pa_data p) (pa_status p) (Reserving id fresh admitted) None))
  end.

Definition add (s : Executions C) (call : nat) (data : ExecutionData) (maybeExecutionId : option string) (now : Z) : Executions C :=
  let status := if str_truthy maybeExecutionId then st_running else st_new in
  match maybeExecutionId with
  | None => with_pending s (jm_set (pendingAdds s) call (mkPending data status Creating None))
  | Some id => add_reserve s call (mkPending data status Creating None) id false now
  end.

(** The id is created, or the database fails. *)
Definition add_created (s : Executions C) (call : nat) (p : PendingAdd) (created : option string) (now : Z) : Executions C :=
  match created with
  | None => fail_add s call p DatabaseError
  | Some id =>
      if bool_decide (id = "") then fail_add s call p AddAssertionError else add_reserve s call p id true now
  end.

(** The promise of [throttle] is resolved. *)
Definition add_throttled (s : Executions C) (call : nat) (p : PendingAdd) (id : string) (fresh : bool) (now : Z) : Executions C :=
  add_reserved s call
    (mkPending (pa_data p) (pa_status p) (pa_phase p) (Some (mkTarget id (executionMode (pa_data p))))) id fresh now.

(** The awaited write succeeded ([Some true]), matched no waiting execution
    ([Some false], only for existing ones) or failed. *)
Definition add_started (s : Executions C) (call : nat) (p : PendingAdd) (id : string) (fresh : bool)
    (outcome : option bool) (now : Z) : Executions C :=
  match outcome with
  | None => fail_add s call p DatabaseError
  | Some updateSucceeded =>
      if fresh then register s call (set_status_running p) id now
      else if updateSucceeded then register s call p id now
      else fail_add s call p (ExecutionAlreadyResumingError id)
  end.

(** The callback of [finally] on the post-execute promise. *)
Definition post_execute (s : Executions C) (o : nat) (x : IExecutingWorkflowData) : Executions C :=
  let s := put_object s o (set_ex_reservation (set_ex_post x PostDone) None) in
  match give_back s (ex_reservation x) with
  | Err _ => put_object s o (set_ex_post x PostDone)
  | Ok s =>
      if bool_decide (ex_status x = st_waiting)
      then put_object s o (set_ex_workflow (set_ex_reservation (set_ex_post x PostDone) None) None)
      else with_active s (jm_del (activeExecutions s) (ex_executionId x)) (jm_del (responseModes s) (ex_executionId x))
  end.

(** * Operations on active executions *)

Definition ExecutionNotFoundError := string.

Definition getExecutionOrFail (s : Executions C) (executionId : string) :
    result ExecutionNotFoundError (nat * IExecutingWorkflowData) :=
  of_option executionId (object_of s executionId).

Definition attachWorkflowExecution (s : Executions C) (executionId : string) (w : nat) : result ExecutionNotFoundError (Executions C) :=
  '(o, x) ← getExecutionOrFail s executionId; Ok (put_object s o (set_ex_workflow x (Some w))).

Definition attachResponsePromise (s : Executions C) (executionId : string) (p : nat) : result ExecutionNotFoundError (Executions C) :=
  '(o, x) ← getExecutionOrFail s executionId; Ok (put_object s o (set_ex_response x p)).

Definition resolveResponsePromise (s : Executions C) (executionId : string) : Executions C :=
  emit s (match object_of s executionId with
          | Some (_, x) => ResolveResponse <$> option_list (ex_responsePromise x)
          | None => [] end).

Definition sendChunk (s : Executions C) (executionId : string) : Executions C :=
  emit s (match object_of s executionId with
          | Some (_, x) => if httpResponse (ex_data x) then [WriteChunk executionId] else []
          | None => [] end).

Definition stopExecution (s : Executions C) (executionId : string) : Executions C :=
  match object_of s executionId with
  | None => s
  | Some (o, x) =>
      let s := emit s (RejectResponse <$> option_list (ex_responsePromise x)) in
      if bool_decide (ex_status x = st_waiting)
      then with_active s (jm_del (activeExecutions s) executionId) (jm_del (responseModes s) executionId)
      else put_object (emit s (CancelWorkflow <$> option_list (ex_workflowExecution x))) o (settle x)
  end.

Definition finalizeExecution (s : Executions C) (executionId : string) : Executions C :=
  match object_of s executionId with
  | None => s
  | Some (o, x) =>
      put_object (emit s (if httpResponse (ex_data x) then [EndHttpResponse executionId] else [])) o (settle x)
  end.

Definition resolveExecutionResponsePromise (s : Executions C) (executionId : string) : Executions C :=
  match object_of s executionId with
  | None => s
  | Some (_, x) =>
      if bool_decide (ex_status x ≠ st_waiting) then emit s (ResolveResponse <$> option_list (ex_responsePromise x)) else s
  end.

Definition setStatus (s : Executions C) (executionId : string) (st : ExecutionStatus) : result ExecutionNotFoundError (Executions C) :=
  '(o, x) ← getExecutionOrFail s executionId; Ok (put_object s o (set_ex_status x st)).

Definition getStatus (s : Executions C) (executionId : string) : result ExecutionNotFoundError ExecutionStatus :=
  '(_, x) ← getExecutionOrFail s executionId; Ok (ex_status x).

Definition setResponseMode (s : Executions C) (executionId : string) (m : string) : Executions C :=
  with_active s (activeExecutions s) (jm_set (responseModes s) executionId m).

Definition getResponseMode (s : Executions C) (executionId : string) : option string := jm_get (responseModes s) executionId.

Record IExecutionsCurrentSummary := mkSummary {
  sm_id : string; sm_retryOf : option string; sm_startedAt : Z; sm_mode : WorkflowExecuteMode;
  sm_workflowId : string; sm_status : ExecutionStatus;
}.

Definition getActiveExecutions (s : Executions C) : list IExecutionsCurrentSummary :=
  omap (λ id, '(_, d) ← object_of s id;
    Some (mkSummary id (retryOf (ex_data d)) (ex_startedAt d) (executionMode (ex_data d)) (workflowId (ex_data d)) (ex_status d)))
    (jm_keys (activeExecutions s)).

(** One execution in the first loop of [shutdown]. *)
Definition shutdown_one (cancelAll : bool) (st : Executions C * list string) (executionId : string) : Executions C * list string :=
  let '(s, toCancel) := st in
  match object_of s executionId with
  | None => st
  | Some (_, x) =>
      if negb queueMode && cancelAll then (stopExecution s executionId, toCancel ++ [executionId])
      else if bool_decide (ex_status x = st_waiting ∨ ex_status x = st_new)
      then (with_active s (jm_del (activeExecutions s) executionId) (responseModes s), toCancel)
      else st
  end.

(** [shutdown] up to the wait for the remaining executions, which ends when no
    execution is active. *)
Definition shutdown (s : Executions C) (cancelAll : bool) : Executions C :=
  let s := if queueMode then s else with_control s (cc_disable (concurrencyControl s)) in
  let '(s, toCancel) := foldl (shutdown_one cancelAll) (s, []) (jm_keys (activeExecutions s)) in
  let '(c, admitted, canceled) := cc_removeAll (concurrencyControl s) toCancel in
  let s := foldl (λ s item, let_through s (Some item)) (with_control s c) admitted in
  emit s (if bool_decide (canceled = []) then [] else [CancelMany canceled]).

(** [stopInRegularMode] of cli/src/executions/execution.service.ts for an execution
    that waits for capacity: it leaves the queue. *)
Definition stop_queued (s : Executions C) (executionId : string) (mode : WorkflowExecuteMode) :
    result ConcurrencyError (Executions C) :=
  if cc_has (concurrencyControl s) executionId then
    '(c, o) ← cc_remove (concurrencyControl s) (mkTarget executionId mode);
    Ok (let_through (with_control s c) o)
  else Ok s.

(** * Events *)

Inductive Event :=
| EAdd (call : nat) (data : ExecutionData) (id : option string) (now : Z)
| ECreated (call : nat) (created : option string) (now : Z)
| EThrottled (call : nat) (now : Z)
| EStarted (call : nat) (outcome : option bool) (now : Z)
| EPostExecute (o : nat)
| ESetStatus (id : string) (st : ExecutionStatus)
| EAttachWorkflow (id : string) (w : nat)
| EAttachResponse (id : string) (p : nat)
| EStop (id : string)
| EFinalize (id : string)
| EStopQueued (id : string) (mode : WorkflowExecuteMode).

(** A call number is used once. *)
Definition unused (s : Executions C) (call : nat) : Prop :=
  jm_get (pendingAdds s) call = None ∧ jm_get (objects s) call = None ∧ jm_get (results s) call = None.

Definition ok_or (s : Executions C) {E} (r : result E (Executions C)) : Executions C :=
  match r with Ok s' => s' | Err _ => s end.

(** [None]: the event cannot happen in this state. *)
Definition handle (s : Executions C) (e : Event) : option (Executions C) :=
  match e with
  | EAdd call data id now =>
      if bool_decide (unused s call) then Some (add s call data id now) else None
  | ECreated call created now =>
      p ← jm_get (pendingAdds s) call;
      match pa_phase p with Creating => Some (add_created s call p created now) | _ => None end
  | EThrottled call now =>
      p ← jm_get (pendingAdds s) call;
      match pa_phase p with Reserving id fresh true => Some (add_throttled s call p id fresh now) | _ => None end
  | EStarted call outcome now =>
      p ← jm_get (pendingAdds s) call;
      match pa_phase p with Starting id fresh => Some (add_started s call p id fresh outcome now) | _ => None end
  | EPostExecute o =>
      x ← jm_get (objects s) o;
      match ex_post x with PostSettled => Some (post_execute s o x) | _ => None end
  | ESetStatus id st => Some (ok_or s (setStatus s id st))
  | EAttachWorkflow id w => Some (ok_or s (attachWorkflowExecution s id w))
  | EAttachResponse id p => Some (ok_or s (attachResponsePromise s id p))
  | EStop id => Some (stopExecution s id)
  | EFinalize id => Some (finalizeExecution s id)
  | EStopQueued id mode =>
      if bool_decide (mode = MEvaluation) then None else Some (ok_or s (stop_queued s id mode))
  end.

Fixpoint handle_all (s : Executions C) (es : list Event) : option (Executions C) :=
  match es with [] => Some s | e :: es => s' ← handle s e; handle_all s' es end.

End ActiveExecutions.
