(* ===== verification/CapacityProofs.v ===== *)
(** CapacityProofs: capacity is neither lost nor given back twice by
    [ActiveExecutions], for every implementation of capacity control. *)

From stdpp Require Import prelude list strings relations.
From Stdlib Require Import ZArith Lia.
From S2P Require Import Prelude ExecutionTypes Concurrency ActiveExecutions.
Local Open Scope nat_scope.
#[local] Coercion Z.of_nat : nat >-> Z.

(** * Who holds capacity *)

Definition mode_weight (t : ConcurrencyQueueType) (mode : WorkflowExecuteMode) : nat :=
  match queue_type mode with Ok (Some t') => if decide (t' = t) then 1 else 0 | _ => 0 end.

Definition reservation_weight (t : ConcurrencyQueueType) (r : Reservation) : nat :=
  match r with Some target => mode_weight t (ct_mode target) | None => 0 end.

(** An [add] holds capacity from the moment its promise is resolved. *)
Definition pending_weight (t : ConcurrencyQueueType) (p : PendingAdd) : nat :=
  match pa_phase p with
  | Creating => 0
  | Reserving _ _ admitted => if admitted then mode_weight t (executionMode (pa_data p)) else 0
  | Starting _ _ => reservation_weight t (pa_reservation p)
  end.

Definition object_weight (t : ConcurrencyQueueType) (x : IExecutingWorkflowData) : nat :=
  reservation_weight t (ex_reservation x).

(** The number of holders of capacity of the queue [t]. *)
Definition holders {C} (s : Executions C) (t : ConcurrencyQueueType) : nat :=
  jm_sum (pending_weight t) (pendingAdds s) + jm_sum (object_weight t) (objects s).

(** The call of a waiting item is an [add] that awaits the capacity of [t]. *)
Definition awaits {C} (s : Executions C) (t : ConcurrencyQueueType) (item : QueueItem) : Prop :=
  ∃ p id fresh, jm_get (pendingAdds s) (qi_resolve item) = Some p ∧ pa_phase p = Reserving id fresh false ∧
    queue_type (executionMode (pa_data p)) = Ok (Some t).

Definition no_evaluation (r : Reservation) : Prop :=
  match r with Some target => ct_mode target ≠ MEvaluation | None => True end.

Definition phase_ok (p : PendingAdd) : Prop :=
  match pa_phase p with
  | Creating => pa_reservation p = None
  | Reserving _ _ _ => pa_reservation p = None ∧ executionMode (pa_data p) ≠ MEvaluation
  | Starting _ _ => no_evaluation (pa_reservation p)
  end.

Section Accounts.
Context {C : Type} `{CapacityLaws C} (queueMode : bool).

Record structure (s : Executions C) : Prop := {
  st_wf : jm_wf (pendingAdds s);
  st_phases : ∀ call p, jm_get (pendingAdds s) call = Some p → phase_ok p ∧ jm_get (objects s) call = None;
  st_objects : ∀ o x, jm_get (objects s) o = Some x → no_evaluation (ex_reservation x);
}.

(** The pools agree with the holders and the waiting [add]s; [k] counts the
    capacity that is being handed over, [s0] is the state whose [add]s wait. *)
Definition balanced (s : Executions C) (k : ConcurrencyQueueType → Z) : Prop :=
  ∀ t used waiting, pool (concurrencyControl s) t = Some (used, waiting) →
    used = (holders s t + k t)%Z ∧ NoDup (qi_resolve <$> waiting) ∧ Forall (awaits s t) waiting.

Definition accounted (s : Executions C) : Prop := structure s ∧ balanced s (λ _, 0%Z).

(** The stored weight of a call, and that it does not wait in a queue. *)
Definition stored (s : Executions C) (t : ConcurrencyQueueType) (call : nat) : nat :=
  default 0 (pending_weight t <$> jm_get (pendingAdds s) call).

Definition stored_object (s : Executions C) (t : ConcurrencyQueueType) (o : nat) : nat :=
  default 0 (object_weight t <$> jm_get (objects s) o).

Definition at_rest (s : Executions C) (call : nat) : Prop :=
  ∀ p id fresh, jm_get (pendingAdds s) call = Some p → pa_phase p ≠ Reserving id fresh false.

Lemma awaits_keep (s s' : Executions C) t item :
  (∀ call, ¬ at_rest s call → jm_get (pendingAdds s') call = jm_get (pendingAdds s) call) →
  awaits s t item → awaits s' t item.
Proof.
  intros Hk (p & id & fresh & Hp & Hph & Hq). exists p, id, fresh. rewrite Hk; [done|].
  intros Hr. by apply (Hr p id fresh Hp).
Qed.

Lemma awaits_keep_set (s s' : Executions C) t call p item :
  at_rest s call → pendingAdds s' = jm_set (pendingAdds s) call p → awaits s t item → awaits s' t item.
Proof.
  intros Hr He. apply awaits_keep. intros c Hc. rewrite He. apply jm_get_set_ne. by intros ->.
Qed.

Lemma balanced_set (s : Executions C) call p k k' :
  balanced s k → at_rest s call → (∀ t, k t + stored s t call = k' t + pending_weight t p)%Z →
  balanced (with_pending s (jm_set (pendingAdds s) call p)) k'.
Proof.
  intros Hb Hr Hk t u w Hp. destruct (Hb t u w Hp) as (-> & Hnd & Ha). repeat split; [|done|].
  - specialize (Hk t). unfold stored in Hk. unfold holders; cbn [pendingAdds objects with_pending put_object with_objects].
    pose proof (jm_sum_set (pending_weight t) (pendingAdds s) call p). lia.
  - eapply Forall_impl; [exact Ha|]. intros item. by eapply awaits_keep_set.
Qed.

Lemma balanced_del (s : Executions C) call k k' :
  structure s → balanced s k → at_rest s call → (∀ t, k t + stored s t call = k' t)%Z →
  balanced (with_pending s (jm_del (pendingAdds s) call)) k'.
Proof.
  intros Hs Hb Hr Hk t u w Hp. destruct (Hb t u w Hp) as (-> & Hnd & Ha). repeat split; [|done|].
  - specialize (Hk t). unfold stored in Hk. unfold holders; cbn [pendingAdds objects with_pending put_object with_objects].
    pose proof (jm_sum_del (pending_weight t) (pendingAdds s) call (st_wf _ Hs)). lia.
  - eapply Forall_impl; [exact Ha|]. intros item. apply awaits_keep. intros c Hc. cbn.
    apply jm_get_del_ne. by intros ->.
Qed.

Lemma balanced_object (s : Executions C) o x k k' :
  balanced s k →
  (∀ t, k t + stored_object s t o = k' t + object_weight t x)%Z →
  balanced (put_object s o x) k'.
Proof.
  intros Hb Hk t u w Hp. destruct (Hb t u w Hp) as (-> & Hnd & Ha). repeat split; [|done|done].
  specialize (Hk t). unfold stored_object in Hk. unfold holders; cbn [pendingAdds objects with_pending put_object with_objects].
  pose proof (jm_sum_set (object_weight t) (objects s) o x). lia.
Qed.

(** [let_through] resolves the promise of an awaiting [add]. *)
Lemma admit_spec (s : Executions C) t0 item :
  awaits s t0 item →
  ∃ p id fresh, jm_get (pendingAdds s) (qi_resolve item) = Some p ∧ pa_phase p = Reserving id fresh false ∧
    mode_weight t0 (executionMode (pa_data p)) = 1 ∧ (∀ t, t ≠ t0 → mode_weight t (executionMode (pa_data p)) = 0) ∧
    let_through s (Some item) = with_pending s (jm_set (pendingAdds s) (qi_resolve item)
      (mkPending (pa_data p) (pa_status p) (Reserving id fresh true) (pa_reservation p))).
Proof.
  intros (p & id & fresh & Hp & Hph & Hq). exists p, id, fresh. unfold let_through, mode_weight. rewrite Hp, Hph, Hq.
  repeat split; [by rewrite decide_True|]. intros t Ht. by rewrite decide_False.
Qed.

Lemma structure_set (s : Executions C) call p :
  structure s → phase_ok p → jm_get (objects s) call = None →
  structure (with_pending s (jm_set (pendingAdds s) call p)).
Proof.
  intros [Hw Hp Ho] Hok Hn; split; cbn; [by apply jm_wf_set| |done].
  intros c q. destruct (decide (call = c)) as [->|Hne]; [rewrite jm_get_set; by intros [= <-]|].
  rewrite jm_get_set_ne by done. apply Hp.
Qed.

Lemma structure_del (s : Executions C) call :
  structure s → structure (with_pending s (jm_del (pendingAdds s) call)).
Proof.
  intros [Hw Hp Ho]; split; cbn; [by apply jm_wf_del| |done].
  intros c q. destruct (decide (call = c)) as [->|Hne]; [by rewrite jm_get_del|].
  rewrite jm_get_del_ne by done. apply Hp.
Qed.

Lemma structure_control (s : Executions C) c : structure s → structure (with_control s c).
Proof. by intros [? ? ?]. Qed.

Definition only_at (t0 : ConcurrencyQueueType) (d : Z) (t : ConcurrencyQueueType) : Z :=
  if decide (t0 = t) then d else 0%Z.

Lemma mode_weight_at (s : C) mode t0 p t :
  mode_pool s mode = Some (t0, p) → Z.of_nat (mode_weight t mode) = only_at t0 1 t.
Proof.
  unfold mode_pool, mode_weight, only_at. destruct (queue_type mode) as [[t1|]|]; try done.
  intros (? & _ & [= <- <-])%bind_Some. by case_decide.
Qed.

Lemma mode_pool_type (s : C) mode t0 p :
  mode_pool s mode = Some (t0, p) → queue_type mode = Ok (Some t0) ∧ pool s t0 = Some p.
Proof.
  unfold mode_pool. destruct (queue_type mode) as [[t1|]|]; try done.
  by intros (? & ? & [= <- <-])%bind_Some.
Qed.

(** A mode without a pool weighs nothing where there is one. *)
Lemma mode_weight_unpooled (s : C) mode t p :
  mode_pool s mode = None → pool s t = Some p → mode_weight t mode = 0.
Proof.
  unfold mode_pool, mode_weight. destruct (queue_type mode) as [[t1|]|]; try done.
  intros Hn Hp. case_decide as Ht; [|done]. subst t1. by rewrite Hp in Hn.
Qed.

(** Capacity handed from [d] holders to the first of [waiting]. *)
Lemma handover (s : Executions C) (c : C) t0 u w0 waiting d :
  structure s → balanced s (only_at t0 d) →
  pool (concurrencyControl s) t0 = Some (u, w0) →
  NoDup (qi_resolve <$> waiting) → Forall (awaits s t0) waiting →
  pool_set (concurrencyControl s) c t0 ((u - d + length (option_list (head waiting)))%Z, tail waiting) →
  accounted (let_through (with_control s c) (head waiting)).
Proof.
  intros Hs Hb Hp0 Hnd Ha [Hc Hco].
  destruct waiting as [|item rest]; cbn [head tail option_list length fmap list_fmap] in *.
  - split; [by apply structure_control|]. intros t used waiting Hp. cbn in Hp.
    destruct (decide (t = t0)) as [->|Hne].
    + rewrite Hc in Hp; simplify_eq. destruct (Hb t0 _ _ Hp0) as (-> & _ & _). unfold only_at.
      rewrite decide_True by done. repeat split; [|constructor..]. unfold holders; cbn -[jm_sum]. lia.
    + rewrite Hco in Hp by done. destruct (Hb t _ _ Hp) as (-> & Hnd' & Ha'). unfold only_at.
      by rewrite decide_False by done.
  - apply Forall_cons in Ha as [Hi Ha]. apply NoDup_cons in Hnd as [Hni Hnd].
    destruct (admit_spec (with_control s c) t0 item Hi) as (p & id & fresh & Hp & Hph & Hw1 & Hw0 & ->).
    cbn [pendingAdds with_control] in *. destruct (st_phases _ Hs _ _ Hp) as [Hok Hob]. unfold phase_ok in Hok. rewrite Hph in Hok.
    split; [by apply (structure_set (with_control s c)); [by apply structure_control| |]|].
    intros t used waiting Hpt. cbn in Hpt.
    assert (holders (with_pending (with_control s c) (jm_set (pendingAdds s) (qi_resolve item)
      (mkPending (pa_data p) (pa_status p) (Reserving id fresh true) (pa_reservation p)))) t =
      holders s t + mode_weight t (executionMode (pa_data p))) as Hh.
    { unfold holders; cbn [pendingAdds objects with_pending with_control].
      pose proof (jm_sum_set (pending_weight t) (pendingAdds s) (qi_resolve item)
        (mkPending (pa_data p) (pa_status p) (Reserving id fresh true) (pa_reservation p))) as Hsum.
      assert (pending_weight t p = 0) as H0w by (unfold pending_weight; by rewrite Hph).
      rewrite Hp in Hsum. cbn [fmap option_fmap option_map default] in Hsum.
      change (pending_weight t (mkPending _ _ (Reserving id fresh true) _))
        with (mode_weight t (executionMode (pa_data p))) in Hsum. cbn in Hsum. lia. }
    rewrite Hh. clear Hh.
    assert (∀ item', qi_resolve item' ≠ qi_resolve item → awaits s t item' →
      awaits (with_pending (with_control s c) (jm_set (pendingAdds s) (qi_resolve item)
        (mkPending (pa_data p) (pa_status p) (Reserving id fresh true) (pa_reservation p)))) t item') as Hk.
    { intros item' Hne (q & id' & fresh' & Hq & ? & ?). exists q, id', fresh'. cbn. by rewrite jm_get_set_ne. }
    destruct (decide (t = t0)) as [->|Hne].
    + rewrite Hc in Hpt. injection Hpt as <- <-. destruct (Hb t0 _ _ Hp0) as (-> & _ & _). unfold only_at.
      rewrite decide_True, Hw1 by done. cbn [option_list length]. repeat split; [lia|done|].
      apply Forall_forall. intros item' Hin. apply Hk; [|by eapply Forall_forall in Ha].
      intros He. apply Hni. rewrite <- He. by apply list_elem_of_fmap_2.
    + rewrite Hco in Hpt by done. destruct (Hb t _ _ Hpt) as (-> & Hnd' & Ha'). unfold only_at.
      rewrite decide_False, Hw0 by done. repeat split; [lia|done|].
      apply Forall_forall. intros item' Hin. eapply Forall_forall in Ha'; [|exact Hin]. apply Hk; [|done].
      intros He. destruct Ha' as (q & ? & ? & Hq & Hqph & Hqt). rewrite He, Hp in Hq. simplify_eq.
      unfold mode_weight in Hw1. rewrite Hqt in Hw1. by rewrite decide_False in Hw1.
Qed.

Lemma balanced_ext (s : Executions C) k k' :
  (∀ t p, pool (concurrencyControl s) t = Some p → k t = k' t) → balanced s k → balanced s k'.
Proof. intros He Hb t u w Hp. rewrite <- (He _ _ Hp). by apply Hb. Qed.

Lemma admit_objects (s : Executions C) o : objects (let_through s o) = objects s.
Proof. unfold let_through. by repeat case_match. Qed.

Lemma give_back_ok (s : Executions C) r s' :
  structure s → no_evaluation r → balanced s (λ t, reservation_weight t r) → give_back s r = Ok s' →
  accounted s' ∧ objects s' = objects s.
Proof.
  intros Hs Hne Hb H1. destruct r as [target|]; [|by simplify_eq/=].
  cbn in H1, Hne. destruct (cc_release _ _) as [[c o]|] eqn:Hr; [|done]. injection H1 as <-.
  split; [|by rewrite admit_objects].
  pose proof (release_law _ _ _ _ Hne Hr) as Hlaw.
  destruct (mode_pool _ (ct_mode target)) as [[t0 [u w]]|] eqn:Hm.
  - destruct Hlaw as [-> Hset]. destruct (mode_pool_type _ _ _ _ Hm) as [_ Hp0].
    destruct (Hb _ _ _ Hp0) as (_ & Hnd & Ha).
    apply (handover s c t0 u w w 1); [done| |done..].
    eapply balanced_ext; [|exact Hb]. intros t p _. by apply (mode_weight_at _ _ _ _ _ Hm).
  - destruct Hlaw as [-> ->]. cbn. split; [by apply structure_control|].
    eapply balanced_ext; [|exact Hb]. intros t p Hp. cbn. by rewrite (mode_weight_unpooled _ _ _ _ Hm Hp).
Qed.

(** A release that throws belongs to a mode without a pool. *)
Lemma give_back_err (s : Executions C) r e t p :
  no_evaluation r → give_back s r = Err e → pool (concurrencyControl s) t = Some p → reservation_weight t r = 0.
Proof.
  intros Hne H1 Hp. destruct r as [target|]; [|done]. cbn in *.
  destruct (mode_pool (concurrencyControl s) (ct_mode target)) eqn:Hm; [|by eapply mode_weight_unpooled].
  destruct (release_total_law (concurrencyControl s) (ct_mode target) Hne) as [[c o] Hr]; [by rewrite Hm|].
  by rewrite Hr in H1.
Qed.

Lemma balanced_result (s : Executions C) call r k : balanced s k → balanced (with_result s call r) k.
Proof. done. Qed.

Lemma fail_add_ok (s : Executions C) call p e :
  accounted s → at_rest s call → no_evaluation (pa_reservation p) →
  (∀ t, stored s t call = reservation_weight t (pa_reservation p)) →
  accounted (fail_add s call p e).
Proof.
  intros [Hs Hb] Hr Hne Hst. unfold fail_add.
  assert (balanced (with_pending s (jm_del (pendingAdds s) call)) (λ t, reservation_weight t (pa_reservation p))) as Hb'.
  { eapply balanced_del; [done..|]. intros t. rewrite Hst. lia. }
  pose proof (structure_del _ call Hs) as Hs'.
  destruct (give_back _ _) as [s'|e'] eqn:Hg.
  - destruct (give_back_ok _ _ _ Hs' Hne Hb' Hg) as [[H1 H2] _]. split; [by destruct H1|]. by apply balanced_result.
  - split; [by destruct Hs'|]. apply balanced_result. eapply balanced_ext; [|exact Hb'].
    intros t q Hq. cbn. by rewrite (give_back_err _ _ _ _ _ Hne Hg Hq).
Qed.

Lemma register_ok (s : Executions C) call p id now :
  accounted s → at_rest s call → no_evaluation (pa_reservation p) → jm_get (objects s) call = None →
  (∀ t, stored s t call = reservation_weight t (pa_reservation p)) →
  accounted (register s call p id now).
Proof.
  intros [Hs Hb] Hr Hne Hno Hst. unfold register.
  pose proof (structure_del _ call Hs) as [W P O].
  set (x := mkExec _ _ _ _ _ _ _ _). split.
  - split; cbn in *; [done| |].
    + intros c q Hq. destruct (P c q Hq) as [? Hc]. split; [done|].
      destruct (decide (call = c)) as [<-|Hne']; [by rewrite jm_get_del in Hq|]. by rewrite jm_get_set_ne.
    + intros o y. destruct (decide (call = o)) as [<-|Hne']; [rewrite jm_get_set; by intros [= <-]|].
      rewrite jm_get_set_ne by done. apply O.
  - apply (balanced_object (with_pending s (jm_del (pendingAdds s) call)) call x (λ t, reservation_weight t (pa_reservation p))).
    + eapply balanced_del; [done..|]. intros t. rewrite Hst. lia.
    + intros t. unfold stored_object. cbn [objects with_pending]. rewrite Hno. cbn. unfold object_weight; cbn. lia.
Qed.

Lemma at_rest_None (s : Executions C) call : jm_get (pendingAdds s) call = None → at_rest s call.
Proof. intros Hn ? ? ? Hp. by rewrite Hn in Hp. Qed.

Lemma at_rest_phase (s : Executions C) call p :
  jm_get (pendingAdds s) call = Some p → (∀ id fresh, pa_phase p ≠ Reserving id fresh false) → at_rest s call.
Proof. intros Hp Hph q id fresh Hq. rewrite Hp in Hq. injection Hq as <-. apply Hph. Qed.

Lemma add_reserved_ok (s : Executions C) call p id fresh now :
  accounted s → at_rest s call → no_evaluation (pa_reservation p) → jm_get (objects s) call = None →
  (∀ t, stored s t call = reservation_weight t (pa_reservation p)) →
  accounted (add_reserved queueMode s call p id fresh now).
Proof.
  intros Ha Hr Hne Hno Hst. unfold add_reserved. destruct (fresh && queueMode); [by apply register_ok|].
  destruct Ha as [Hs Hb]. split; [by apply structure_set|].
  eapply balanced_set; [done..|]. intros t. rewrite Hst. cbn. done.
Qed.

Lemma add_reserve_ok (s : Executions C) call p id fresh now :
  accounted s → at_rest s call → pa_reservation p = None → jm_get (objects s) call = None →
  (∀ t, stored s t call = 0) →
  accounted (add_reserve queueMode s call p id fresh now).
Proof.
  intros Ha Hr Hn Hno Hst. unfold add_reserve.
  assert (∀ t, stored s t call = reservation_weight t (pa_reservation p)) as Hst' by (intros t; by rewrite Hn).
  assert (no_evaluation (pa_reservation p)) as Hne by (by rewrite Hn).
  case_bool_decide as Hm; [by apply add_reserved_ok|].
  destruct (cc_throttle _ _ _) as [[c admitted]|e] eqn:Ht; [|by apply fail_add_ok].
  destruct Ha as [Hs Hb]. split.
  { apply (structure_set (with_control s c)); [by apply structure_control|by split|done]. }
  pose proof (throttle_law _ (mkTarget id (executionMode (pa_data p))) _ _ _ Hm Ht) as Hlaw. cbn in Hlaw.
  set (p' := mkPending _ _ (Reserving id fresh admitted) None).
  assert (∀ t w, Forall (awaits s t) w → Forall (awaits (with_pending (with_control s c) (jm_set (pendingAdds s) call p')) t) w) as Hk.
  { intros t w Hw. eapply Forall_impl; [exact Hw|]. intros item. by eapply awaits_keep_set. }
  assert (∀ t, holders (with_pending (with_control s c) (jm_set (pendingAdds s) call p')) t = holders s t + pending_weight t p') as Hh.
  { intros t. specialize (Hst t). unfold stored in Hst.
    unfold holders; cbn [pendingAdds objects with_pending with_control].
    pose proof (jm_sum_set (pending_weight t) (pendingAdds s) call p'). lia. }
  intros t u w Hp. cbn in Hp. rewrite Hh.
  destruct (mode_pool (concurrencyControl s) (executionMode (pa_data p))) as [[t0 [u0 w0]]|] eqn:Hmp.
  - destruct (mode_pool_type _ _ _ _ Hmp) as [Hqt Hp0].
    pose proof (mode_weight_at _ _ _ _ t Hmp) as Hw. unfold only_at in Hw.
    destruct Hlaw as [Hc Hco]. destruct (decide (t = t0)) as [->|Hne'].
    + destruct (Hb _ _ _ Hp0) as (-> & Hnd & Haw). rewrite decide_True in Hw by done.
      rewrite Hc in Hp. destruct admitted; injection Hp as <- <-; unfold pending_weight; cbn.
      * repeat split; [lia|done|by apply Hk].
      * repeat split; [lia| |].
        -- rewrite fmap_app. apply NoDup_app. split; [done|split; [|apply NoDup_singleton]].
           intros k Hin Hk'%list_elem_of_singleton. apply list_elem_of_fmap in Hin as (item & -> & Hin).
           eapply Forall_forall in Haw; [|exact Hin]. destruct Haw as (q & i' & f' & Hq & Hqp & _).
           rewrite Hk' in Hq. by apply (Hr q i' f').
        -- apply Forall_app. split; [by apply Hk|]. constructor; [|constructor].
           exists p', id, fresh. cbn. by rewrite jm_get_set.
    + rewrite Hco in Hp by done. destruct (Hb _ _ _ Hp) as (-> & Hnd & Haw).
      rewrite decide_False in Hw by done.
      repeat split; [|done|by apply Hk]. unfold pending_weight; cbn. destruct admitted; lia.
  - destruct Hlaw as [-> ->]. destruct (Hb _ _ _ Hp) as (-> & Hnd & Haw).
    repeat split; [|done|by apply Hk]. unfold pending_weight; cbn.
    rewrite (mode_weight_unpooled _ _ _ _ Hmp Hp). lia.
Qed.

Lemma structure_put (s : Executions C) o x x' :
  structure s → jm_get (objects s) o = Some x → no_evaluation (ex_reservation x') → structure (put_object s o x').
Proof.
  intros [W P O] Hx Hne. split; cbn; [done| |].
  - intros c q Hq. destruct (P c q Hq) as [? Hc]. split; [done|].
    destruct (decide (o = c)) as [<-|Hne']; [by rewrite Hx in Hc|]. by rewrite jm_get_set_ne.
  - intros o' y. destruct (decide (o = o')) as [<-|Hne']; [rewrite jm_get_set; by intros [= <-]|].
    rewrite jm_get_set_ne by done. apply O.
Qed.

(** Changes of an object that keep its reservation. *)
Lemma update_object_ok (s : Executions C) o x x' :
  accounted s → jm_get (objects s) o = Some x → ex_reservation x' = ex_reservation x → accounted (put_object s o x').
Proof.
  intros [Hs Hb] Hx Hr. split.
  - eapply structure_put; [done..|]. rewrite Hr. by eapply st_objects.
  - eapply balanced_object; [done|]. intros t. unfold stored_object. rewrite Hx. cbn. unfold object_weight.
    by rewrite Hr.
Qed.

Lemma emit_ok (s : Executions C) es : accounted s → accounted (emit s es).
Proof. by intros [[? ? ?] ?]. Qed.

Lemma with_active_ok (s : Executions C) a m : accounted s → accounted (with_active s a m).
Proof. by intros [[? ? ?] ?]. Qed.

Lemma object_of_Some (s : Executions C) id o x : object_of s id = Some (o, x) → jm_get (objects s) o = Some x.
Proof. intros (o' & _ & (x' & Hx & [= <- <-])%bind_Some)%bind_Some. done. Qed.

Lemma post_execute_ok (s : Executions C) o x :
  accounted s → jm_get (objects s) o = Some x → accounted (post_execute s o x).
Proof.
  intros Ha Hx. pose proof Ha as [Hs Hb]. unfold post_execute.
  pose proof (st_objects _ Hs _ _ Hx) as Hne.
  set (x0 := set_ex_reservation (set_ex_post x PostDone) None).
  assert (structure (put_object s o x0)) as Hs0 by (by eapply structure_put).
  assert (balanced (put_object s o x0) (λ t, reservation_weight t (ex_reservation x))) as Hb0.
  { eapply balanced_object; [done|]. intros t. unfold stored_object. rewrite Hx. cbn. unfold object_weight; cbn. lia. }
  destruct (give_back _ _) as [s'|e] eqn:Hg.
  - destruct (give_back_ok _ _ _ Hs0 Hne Hb0 Hg) as [Ha' Ho'].
    case_bool_decide; [|by apply with_active_ok].
    eapply update_object_ok; [done|rewrite Ho'; cbn; by rewrite jm_get_set|done].
  - split; [eapply structure_put; [done|cbn; by rewrite jm_get_set|done]|].
    eapply balanced_object; [exact Hb0|]. intros t. unfold stored_object. cbn. rewrite jm_get_set.
    cbn. unfold object_weight; cbn. lia.
Qed.

Lemma stop_queued_ok (s : Executions C) id mode s' :
  accounted s → mode ≠ MEvaluation → stop_queued s id mode = Ok s' → accounted s'.
Proof.
  intros Ha0 Hm H1. unfold stop_queued in H1. destruct (cc_has _ _); [|by injection H1 as <-].
  destruct Ha0 as [Hs Hb].
  destruct (cc_remove _ _) as [[c o]|] eqn:Hr; [|done]. injection H1 as <-.
  pose proof (remove_law _ (mkTarget id mode) _ _ Hm Hr) as Hlaw. cbn [ct_mode] in Hlaw.
  destruct (mode_pool _ mode) as [[t0 [u w]]|] eqn:Hmp.
  - destruct (mode_pool_type _ _ _ _ Hmp) as [_ Hp0]. destruct (Hb _ _ _ Hp0) as (_ & Hnd & Ha).
    destruct (find_index _ w) as [i|].
    + destruct Hlaw as [-> Hset]. apply (handover s c t0 u w _ 0); [done| |done| | |by rewrite Z.sub_0_r].
      * eapply balanced_ext; [|exact Hb]. intros t p _. unfold only_at. by case_decide.
      * eapply sublist_NoDup; [exact Hnd|]. apply fmap_sublist, splice1_sublist.
      * apply Forall_forall. intros x Hx. eapply Forall_forall in Ha; [exact Ha|].
        eapply elem_of_submseteq; [exact Hx|]. apply sublist_submseteq, splice1_sublist.
    + destruct Hlaw as [-> [Hc Hco]]. split; [by apply structure_control|].
      intros t u' w' Hp. cbn in Hp. apply (Hb t). destruct (decide (t = t0)) as [->|Hne]; [|by rewrite <- Hco].
      by rewrite Hp0, <- Hp.
  - destruct Hlaw as [-> ->]. by split; [apply structure_control|].
Qed.

Lemma pending_cases (s : Executions C) call p :
  accounted s → jm_get (pendingAdds s) call = Some p →
  phase_ok p ∧ jm_get (objects s) call = None ∧ ∀ t, stored s t call = pending_weight t p.
Proof.
  intros [Hs _] Hp. destruct (st_phases _ Hs _ _ Hp). repeat split; [done..|].
  intros t. unfold stored. by rewrite Hp.
Qed.

Lemma handle_ok (s : Executions C) e s' : accounted s → handle queueMode s e = Some s' → accounted s'.
Proof.
  intros Ha. destruct e as [call data id now|call created now|call now|call outcome now|o|id st|id w|id p|id|id|id mode]; cbn.
  - case_bool_decide as Hu; [|done]. intros [= <-]. destruct Hu as (Hp & Ho & _). unfold add.
    assert (∀ t, stored s t call = 0) as Hst by (intros t; unfold stored; by rewrite Hp).
    destruct id as [id|]; [apply add_reserve_ok; try done; by apply at_rest_None|].
    destruct Ha as [Hs Hb]. split; [by apply structure_set|].
    eapply balanced_set; [done|by apply at_rest_None|]. intros t. by rewrite Hst.
  - intros (p & Hp & H1)%bind_Some. destruct (pa_phase p) eqn:Hph; try done. injection H1 as <-.
    destruct (pending_cases _ _ _ Ha Hp) as (Hok & Ho & Hst). unfold phase_ok in Hok. unfold pending_weight in Hst. rewrite Hph in *.
    assert (at_rest s call) as Hr by (eapply at_rest_phase; [done|by rewrite Hph]).
    unfold add_created. destruct created as [id|]; [case_bool_decide|].
    2: by apply add_reserve_ok.
    all: apply fail_add_ok; try done; by rewrite Hok.
  - intros (p & Hp & H1)%bind_Some. destruct (pa_phase p) as [|id fresh []|] eqn:Hph; try done. injection H1 as <-.
    destruct (pending_cases _ _ _ Ha Hp) as (Hok & Ho & Hst). unfold phase_ok in Hok. unfold pending_weight in Hst. rewrite Hph in *.
    destruct Hok as [_ Hne]. apply add_reserved_ok; try done.
    eapply at_rest_phase; [done|by rewrite Hph].
  - intros (p & Hp & H1)%bind_Some. destruct (pa_phase p) as [| |id fresh] eqn:Hph; try done. injection H1 as <-.
    destruct (pending_cases _ _ _ Ha Hp) as (Hok & Ho & Hst). unfold phase_ok in Hok. unfold pending_weight in Hst. rewrite Hph in *.
    assert (at_rest s call) as Hr by (eapply at_rest_phase; [done|by rewrite Hph]).
    unfold add_started. destruct outcome as [ok|]; [|by apply fail_add_ok].
    destruct fresh; [by apply register_ok|]. destruct ok; [by apply register_ok|by apply fail_add_ok].
  - intros (x & Hx & H1)%bind_Some. destruct (ex_post x); try done. injection H1 as <-. by apply post_execute_ok.
  - intros [= <-]. unfold setStatus, getExecutionOrFail. destruct (object_of s id) as [[o x]|] eqn:Hx; [|done].
    cbn. eapply update_object_ok; [done|by eapply object_of_Some|done].
  - intros [= <-]. unfold attachWorkflowExecution, getExecutionOrFail. destruct (object_of s id) as [[o x]|] eqn:Hx; [|done].
    cbn. eapply update_object_ok; [done|by eapply object_of_Some|done].
  - intros [= <-]. unfold attachResponsePromise, getExecutionOrFail. destruct (object_of s id) as [[o x]|] eqn:Hx; [|done].
    cbn. eapply update_object_ok; [done|by eapply object_of_Some|done].
  - intros [= <-]. unfold stopExecution. destruct (object_of s id) as [[o x]|] eqn:Hx; [|done].
    case_bool_decide; [by apply with_active_ok, emit_ok|].
    eapply update_object_ok; [by apply emit_ok, emit_ok|by eapply object_of_Some|]. unfold settle. by destruct (ex_post x).
  - intros [= <-]. unfold finalizeExecution. destruct (object_of s id) as [[o x]|] eqn:Hx; [|done].
    eapply update_object_ok; [by apply emit_ok|by eapply object_of_Some|]. unfold settle. by destruct (ex_post x).
  - case_bool_decide as Hm; [done|]. intros [= <-]. destruct (stop_queued s id mode) eqn:Hq; [|done].
    by eapply stop_queued_ok.
Qed.

Lemma handle_all_ok (s : Executions C) es s' : accounted s → handle_all queueMode s es = Some s' → accounted s'.
Proof.
  revert s; induction es as [|e es IH]; cbn; intros s Ha H1; [by simplify_eq|].
  apply bind_Some in H1 as (s1 & H1 & H2). by eapply IH; [eapply handle_ok|].
Qed.

End Accounts.

(** No executions yet. *)
Definition no_executions {C} (c : C) : Executions C := mkExecutions C c [] [] [] [] [] [].

Lemma no_executions_ok {C} `{CapacityLaws C} (c : C) :
  (∀ t p, pool c t = Some p → p = (0%Z, [])) → accounted (no_executions c).
Proof.
  intros Hc. split; [split; try done; constructor|]. intros t u w Hp. cbn in Hp.
  apply Hc in Hp. simplify_eq. repeat split; constructor.
Qed.

(** C4: Capacity is neither lost nor given back twice: after any interleaving of
    calls of [add] and their continuations with stops, status changes and ends of
    executions, the capacity in use of every queue is exactly that of the [add]s let
    through and the executions that have not released their reservation, and what
    waits in the queue are distinct [add]s that await it.  It holds for every
    implementation of capacity control. *)
Theorem capacity_conserved {C} `{CapacityLaws C} (queueMode : bool) (c : C) es s t used waiting :
  (∀ t p, pool c t = Some p → p = (0%Z, [])) →
  handle_all queueMode (no_executions c) es = Some s →
  pool (concurrencyControl s) t = Some (used, waiting) →
  used = holders s t ∧ NoDup (qi_resolve <$> waiting) ∧ Forall (awaits s t) waiting.
Proof.
  intros Hc H1 Hp. apply (no_executions_ok c) in Hc.
  destruct (handle_all_ok queueMode _ _ _ Hc H1) as [_ Hb].
  destruct (Hb _ _ _ Hp) as (-> & ? & ?). by rewrite Z.add_0_r.
Qed.

(** * Executions that are no longer tracked *)

Section Orphans.
Context {C : Type} `{CapacityLaws C} (queueMode : bool).

(** The execution [o] is not active, its promise is pending and it holds capacity. *)
Definition orphan (s : Executions C) (o : nat) (target : CapacityTarget) : Prop :=
  (∃ x, jm_get (objects s) o = Some x ∧ ex_post x = PostPending ∧ ex_reservation x = Some target) ∧
  ∀ id, jm_get (activeExecutions s) id ≠ Some o.

Lemma orphan_ext (s s' : Executions C) o tg :
  objects s' = objects s → activeExecutions s' = activeExecutions s → orphan s o tg → orphan s' o tg.
Proof. unfold orphan. by intros -> ->. Qed.

Lemma orphan_put (s : Executions C) o tg o' x : o' ≠ o → orphan s o tg → orphan (put_object s o' x) o tg.
Proof. intros Hne [(y & Hy & ?) Ha]. split; [exists y; cbn; by rewrite jm_get_set_ne|done]. Qed.

Lemma orphan_del (s : Executions C) o tg id m : orphan s o tg → orphan (with_active s (jm_del (activeExecutions s) id) m) o tg.
Proof.
  intros [Ho Ha]. split; [done|]. intros id'. cbn. destruct (decide (id = id')) as [->|Hne]; [by rewrite jm_get_del|].
  by rewrite jm_get_del_ne.
Qed.

Lemma object_of_active (s : Executions C) id o x : object_of s id = Some (o, x) → jm_get (activeExecutions s) id = Some o.
Proof. intros (o' & Ho & (x' & Hx & [= <- <-])%bind_Some)%bind_Some. done. Qed.

Lemma give_back_same (s : Executions C) r s' :
  give_back s r = Ok s' → objects s' = objects s ∧ activeExecutions s' = activeExecutions s.
Proof.
  destruct r as [target|]; cbn; [|by intros [= <-]].
  destruct (cc_release _ _) as [[c o]|]; [|done]. cbn. intros [= <-].
  unfold let_through. by repeat case_match.
Qed.

Lemma fail_add_same (s : Executions C) call p e :
  objects (fail_add s call p e) = objects s ∧ activeExecutions (fail_add s call p e) = activeExecutions s.
Proof.
  unfold fail_add. destruct (give_back _ _) as [s'|] eqn:Hg; [|done].
  by destruct (give_back_same _ _ _ Hg) as [? ?].
Qed.

Lemma orphan_register (s : Executions C) call p id now o tg :
  call ≠ o → orphan s o tg → orphan (register s call p id now) o tg.
Proof.
  intros Hne [(y & Hy & ?) Ha]. split; [exists y; cbn; by rewrite jm_get_set_ne|].
  intros id'. cbn. destruct (decide (id = id')) as [->|Hid]; [rewrite jm_get_set; congruence|].
  by rewrite jm_get_set_ne.
Qed.

Lemma orphan_reserved (s : Executions C) call p id fresh now o tg :
  call ≠ o → orphan s o tg → orphan (add_reserved queueMode s call p id fresh now) o tg.
Proof. intros. unfold add_reserved. case_match; [by apply orphan_register|done]. Qed.

Lemma orphan_fail (s : Executions C) call p e o tg : orphan s o tg → orphan (fail_add s call p e) o tg.
Proof. apply orphan_ext; apply fail_add_same. Qed.

Lemma orphan_reserve (s : Executions C) call p id fresh now o tg :
  call ≠ o → orphan s o tg → orphan (add_reserve queueMode s call p id fresh now) o tg.
Proof.
  intros. unfold add_reserve. case_bool_decide; [by apply orphan_reserved|].
  destruct (cc_throttle _ _ _) as [[]|]; [done|by apply orphan_fail].
Qed.

Lemma orphan_step (s : Executions C) e s' o tg :
  structure s → orphan s o tg → handle queueMode s e = Some s' → orphan s' o tg.
Proof.
  intros Hs Hor. pose proof Hor as [(x0 & Hx0 & Hp0 & _) Hact].
  assert (∀ call p, jm_get (pendingAdds s) call = Some p → call ≠ o) as Hcall.
  { intros call p Hp ->. destruct (st_phases _ Hs _ _ Hp). congruence. }
  assert (∀ id o' x, object_of s id = Some (o', x) → o' ≠ o) as Hobj.
  { intros id o' x Ho ->. by apply (Hact id), (object_of_active _ _ _ x). }
  destruct e as [call data id now|call created now|call now|call outcome now|o'|id st|id w|id p|id|id|id mode]; cbn.
  - case_bool_decide as Hu; [|done]. intros [= <-]. unfold add.
    assert (call ≠ o) by (intros ->; destruct Hu as (_ & Hn & _); congruence).
    destruct id; [by apply orphan_reserve|done].
  - intros (p & Hp & H1)%bind_Some. destruct (pa_phase p); try done. injection H1 as <-. unfold add_created.
    destruct created; [case_bool_decide|]; [by apply orphan_fail|by eapply orphan_reserve, Hor; eauto|by apply orphan_fail].
  - intros (p & Hp & H1)%bind_Some. destruct (pa_phase p) as [|? ? []|]; try done. injection H1 as <-.
    eapply orphan_reserved, Hor; eauto.
  - intros (p & Hp & H1)%bind_Some. destruct (pa_phase p) as [| |? fresh]; try done. injection H1 as <-. unfold add_started.
    destruct outcome as [[]|], fresh; try (by apply orphan_fail); eapply orphan_register, Hor; eauto.
  - intros (x & Hx & H1)%bind_Some. destruct (ex_post x) eqn:Hpx; try done. injection H1 as <-.
    assert (o' ≠ o) by (intros ->; congruence).
    unfold post_execute. destruct (give_back _ _) as [s1|] eqn:Hg; [|apply orphan_put; [done|by apply orphan_put]].
    apply give_back_same in Hg as [Ho Ha].
    assert (orphan s1 o tg) by (eapply orphan_ext; [done..|by apply orphan_put]).
    case_bool_decide; [by apply orphan_put|by apply orphan_del].
  - intros [= <-]. unfold setStatus, getExecutionOrFail. destruct (object_of s id) as [[]|] eqn:?; [|done].
    eapply orphan_put, Hor; eauto.
  - intros [= <-]. unfold attachWorkflowExecution, getExecutionOrFail. destruct (object_of s id) as [[]|] eqn:?; [|done].
    eapply orphan_put, Hor; eauto.
  - intros [= <-]. unfold attachResponsePromise, getExecutionOrFail. destruct (object_of s id) as [[]|] eqn:?; [|done].
    eapply orphan_put, Hor; eauto.
  - intros [= <-]. unfold stopExecution. destruct (object_of s id) as [[]|] eqn:?; [|done].
    case_bool_decide; [by apply (orphan_del (emit s _))|]. by eapply orphan_put, Hor; eauto.
  - intros [= <-]. unfold finalizeExecution. destruct (object_of s id) as [[]|] eqn:?; [|done].
    by eapply orphan_put, Hor; eauto.
  - case_bool_decide; [done|]. intros [= <-]. unfold stop_queued. destruct (cc_has _ _); [|done].
    destruct (cc_remove _ _) as [[c oi]|]; [|done]. cbn. eapply orphan_ext, Hor; unfold let_through; by repeat case_match.
Qed.

Lemma orphan_forever (s : Executions C) es s' o tg :
  accounted s → orphan s o tg → handle_all queueMode s es = Some s' → orphan s' o tg.
Proof.
  revert s; induction es as [|e es IH]; cbn; intros s Ha Ho H1; [by simplify_eq|].
  apply bind_Some in H1 as (s1 & H1 & H2).
  eapply IH; [by eapply handle_ok|by eapply orphan_step; [apply Ha|..]|done].
Qed.

Lemma orphan_holds (s : Executions C) o tg t :
  orphan s o tg → mode_weight t (ct_mode tg) = 1 → 1 ≤ holders s t.
Proof.
  intros [(x & Hx & _ & Hr) _] Hw. unfold holders.
  pose proof (jm_sum_set (object_weight t) (objects s) o (set_ex_reservation x None)) as Hsum.
  rewrite Hx in Hsum. cbn -[jm_sum object_weight jm_set] in Hsum.
  change (object_weight t (set_ex_reservation x None)) with 0 in Hsum.
  assert (object_weight t x = 1) by (unfold object_weight; by rewrite Hr). lia.
Qed.

(** An execution that is stopped while its status is waiting but before it has
    ended keeps its capacity for good: it is no longer active, and no event makes
    it release its reservation. *)
Theorem stop_while_waiting_leaks (s : Executions C) id o x target es s' :
  accounted s → object_of s id = Some (o, x) →
  ex_status x = st_waiting → ex_post x = PostPending → ex_reservation x = Some target →
  (∀ id', jm_get (activeExecutions s) id' = Some o → id' = id) →
  handle_all queueMode s (EStop id :: es) = Some s' →
  orphan s' o target ∧
  ∀ t used waiting, mode_weight t (ct_mode target) = 1 →
    pool (concurrencyControl s') t = Some (used, waiting) → (1 ≤ used)%Z.
Proof.
  intros Ha Ho Hst Hp Hr Hu H1. cbn [handle_all] in H1. apply bind_Some in H1 as (s1 & H1 & H2).
  pose proof (handle_ok queueMode _ _ _ Ha H1) as Ha1.
  assert (orphan s1 o target) as Hor.
  { cbn in H1. injection H1 as <-. unfold stopExecution. rewrite Ho, bool_decide_true by done.
    split; [exists x; cbn; by rewrite (object_of_Some _ _ _ _ Ho)|].
    intros id' Hid. change (jm_get (jm_del (activeExecutions s) id) id' = Some o) in Hid.
    destruct (decide (id = id')) as [->|Hne]; [by rewrite jm_get_del in Hid|].
    rewrite jm_get_del_ne in Hid by done. by apply Hu in Hid. }
  pose proof (orphan_forever _ _ _ _ _ Ha1 Hor H2) as Hor'. split; [done|].
  intros t u w Hw Hpool. destruct (handle_all_ok queueMode _ _ _ Ha1 H2) as [_ Hb].
  destruct (Hb _ _ _ Hpool) as (-> & _). pose proof (orphan_holds _ _ _ _ Hor' Hw). lia.
Qed.
End Orphans.

(** * Shutdown *)

Section Shutdown.
Context {C : Type} `{CapacityLaws C}.

Lemma shutdown_one_quiet queueMode cancelAll (st : Executions C * list string) id :
  concurrencyControl (shutdown_one queueMode cancelAll st id).1 = concurrencyControl st.1 ∧
  pendingAdds (shutdown_one queueMode cancelAll st id).1 = pendingAdds st.1 ∧
  ∀ ids, CancelMany ids ∈ effects (shutdown_one queueMode cancelAll st id).1 → CancelMany ids ∈ effects st.1.
Proof.
  destruct st as [s tc]. unfold shutdown_one, stopExecution.
  destruct (object_of s id) as [[o x]|]; [|done].
  destruct (negb queueMode && cancelAll); case_bool_decide; cbn; try done; (split; [done|split; [done|]]); intros ids;
    rewrite ?elem_of_app, ?list_elem_of_fmap; naive_solver.
Qed.

Lemma shutdown_all_quiet cancelAll l (st : Executions C * list string) :
  concurrencyControl (foldl (shutdown_one false cancelAll) st l).1 = concurrencyControl st.1 ∧
  pendingAdds (foldl (shutdown_one false cancelAll) st l).1 = pendingAdds st.1 ∧
  ∀ ids, CancelMany ids ∈ effects (foldl (shutdown_one false cancelAll) st l).1 → CancelMany ids ∈ effects st.1.
Proof.
  revert st; induction l as [|id l IH]; intros st; [done|]. cbn.
  destruct (shutdown_one_quiet false cancelAll st id) as (H1 & H2 & H3).
  destruct (IH (shutdown_one false cancelAll st id)) as (H4 & H5 & H6).
  rewrite H4, H5. repeat split; [done..|]. auto.
Qed.

(** In regular mode [shutdown] disables capacity control before it empties the
    queues, so that it empties none: no waiting execution is let through or removed,
    and [cancelMany] is never called, whether or not all executions are to be
    canceled. *)
Theorem shutdown_cancels_nothing (s : Executions C) cancelAll :
  let s' := shutdown false s cancelAll in
  concurrencyControl s' = cc_disable (concurrencyControl s) ∧
  pendingAdds s' = pendingAdds s ∧
  ∀ ids, CancelMany ids ∈ effects s' → CancelMany ids ∈ effects s.
Proof.
  cbn zeta. unfold shutdown.
  set (st0 := (with_control s (cc_disable (concurrencyControl s)), [])).
  set (l := jm_keys _).
  pose proof (shutdown_all_quiet cancelAll l st0) as Hf.
  destruct (foldl _ st0 l) as [s1 tc]. cbn [fst st0] in Hf.
  destruct Hf as (H1 & H2 & H3). rewrite H1. cbn [concurrencyControl with_control].
  rewrite removeAll_disabled_law. cbn. repeat split; [done|].
  intros ids. rewrite app_nil_r. apply H3.
Qed.
End Shutdown.

(** * One production slot *)

Definition one_slot : ExecutionsConfig := mkConfig false 1 (-1).
Definition no_license : LimitSources := mkSources true None "Community".

Definition one_slot_service : ConcurrencyControlService :=
  mkService true [(Production, 1%Z); (Evaluation, (-1)%Z)] [(Production, mkQueue 1 [])] false.

Lemma one_slot_service_new : new_service one_slot = Ok one_slot_service.
Proof. reflexivity. Qed.

#[local] Instance one_slot_control : CapacityControl ConcurrencyControlService := service_control one_slot no_license.
#[local] Instance one_slot_laws : CapacityLaws ConcurrencyControlService := service_laws one_slot no_license.

Lemma one_slot_empty t p : pool one_slot_service t = Some p → p = (0%Z, []).
Proof. destruct t; vm_compute; congruence. Qed.

Definition webhook : ExecutionData := mkData MWebhook None "w" false.

(** The execution [7] is started, a second one waits for capacity, and [7] asks to
    be put to wait. *)
Definition started_and_waiting : list Event :=
  [EAdd 0 webhook None 0; ECreated 0 (Some "7") 0; EThrottled 0 0; EStarted 0 (Some true) 0;
   EAdd 1 webhook None 1; ECreated 1 (Some "8") 1; ESetStatus "7" st_waiting].

Definition after_start : Executions ConcurrencyControlService :=
  mkExecutions _
    (mkService true [(Production, 1%Z); (Evaluation, (-1)%Z)] [(Production, mkQueue (-1) [mkItem "8" 1])] false)
    [(1, mkPending webhook st_new (Reserving "8" true false) None)]
    [(0, mkExec "7" webhook 0 PostPending None None st_waiting (Some (mkTarget "7" MWebhook)))]
    [("7", 0)] [] [(0, Ok "7")] [].

Lemma after_start_reached : handle_all false (no_executions one_slot_service) started_and_waiting = Some after_start.
Proof. reflexivity. Qed.

Lemma capacity_conserved_witness :
  pool (concurrencyControl after_start) Production = Some (1%Z, [mkItem "8" 1]) ∧
  (1 = holders after_start Production)%Z.
Proof.
  split; [reflexivity|].
  apply (capacity_conserved false one_slot_service started_and_waiting after_start Production 1 [mkItem "8" 1]);
    [exact one_slot_empty|exact after_start_reached|reflexivity].
Defined.

(** The end of [7], in whatever order, does not let [8] through. *)
Lemma stop_while_waiting_leaks_witness :
  ∃ s', handle_all false after_start [EStop "7"; EFinalize "7"] = Some s' ∧
    has s' "7" = false ∧ orphan s' 0 (mkTarget "7" MWebhook).
Proof.
  eexists; split; [reflexivity|split; [reflexivity|]].
  apply (stop_while_waiting_leaks false after_start "7" 0
    (mkExec "7" webhook 0 PostPending None None st_waiting (Some (mkTarget "7" MWebhook)))
    (mkTarget "7" MWebhook) [EFinalize "7"]); try reflexivity.
  - exact (handle_all_ok false _ _ _ (no_executions_ok one_slot_service one_slot_empty) after_start_reached).
  - intros id'. cbn. destruct (decide ("7" = id')) as [<-|]; done.
Defined.
