(* ===== verification/CircuitBreaker.v ===== *)
(** CircuitBreaker: cli/src/utils/sliding-window.ts and circuit-breaker.ts.

    [Date.now()] is an argument of every operation that reads the clock.  A request
    is [execute] called on some function: it starts, and finishes later with a
    success or a failure; requests overlap freely.  Logging is left out. *)

From stdpp Require Import prelude list strings relations sorting.
From Stdlib Require Import ZArith Lia Sorted.
From S2P Require Import Prelude.
Local Open Scope nat_scope.

(** * SlidingWindow *)

Record SlidingWindow := mkWindow {
  maxEvents : nat;
  durationMs : Z;
  eventTimestamps : list Z;
}.

(** [l.slice(-n)]: [slice(-0)] is the whole array. *)
Definition slice_last {A} (l : list A) (n : nat) : list A := if decide (n = 0) then l else drop (length l - n) l.

Definition new_window (maxEvents : nat) (durationMs : Z) : SlidingWindow := mkWindow maxEvents durationMs [].

Definition addEvent (w : SlidingWindow) (timestamp : Z) : SlidingWindow :=
  let l := eventTimestamps w ++ [timestamp] in
  mkWindow (maxEvents w) (durationMs w)
    (if bool_decide (maxEvents w * 2 < length l) then slice_last l (maxEvents w * 2) else l).

Definition in_window (windowStart : Z) (timestamp : Z) : Prop := (windowStart ≤ timestamp)%Z.

Definition getCount (w : SlidingWindow) (now : Z) : SlidingWindow * nat :=
  let l := filter (in_window (now - durationMs w)) (eventTimestamps w) in
  (mkWindow (maxEvents w) (durationMs w) l, length l).

Definition clear (w : SlidingWindow) : SlidingWindow := mkWindow (maxEvents w) (durationMs w) [].

(** * CircuitBreaker *)

Inductive CircuitBreakerState := CLOSED | OPEN | HALF_OPEN.
#[export] Instance CircuitBreakerState_eq_dec : EqDecision CircuitBreakerState.
Proof. solve_decision. Defined.

Record CircuitBreakerOptions := mkOptions {
  timeout : Z;
  maxFailures : nat;
  halfOpenRequests : nat;
  failureWindow : Z;
  maxConcurrentHalfOpenRequests : option nat;
}.

Record CircuitBreaker := mkBreaker {
  state : CircuitBreakerState;
  halfOpenCount : nat;
  lastFailureTime : Z;
  pendingHalfOpenRequests : nat;
  inflightRequests : nat;
  slidingWindow : SlidingWindow;
}.

Definition new_breaker (o : CircuitBreakerOptions) : CircuitBreaker :=
  mkBreaker CLOSED 0 0 0 0 (new_window (maxFailures o) (failureWindow o)).

Definition maxConcurrent (o : CircuitBreakerOptions) : nat := default 1 (maxConcurrentHalfOpenRequests o).

Definition changeToState (b : CircuitBreaker) (newState : CircuitBreakerState) : CircuitBreaker :=
  mkBreaker newState (halfOpenCount b) (lastFailureTime b) (pendingHalfOpenRequests b) (inflightRequests b) (slidingWindow b).

Definition with_window (b : CircuitBreaker) (w : SlidingWindow) : CircuitBreaker :=
  mkBreaker (state b) (halfOpenCount b) (lastFailureTime b) (pendingHalfOpenRequests b) (inflightRequests b) w.

Definition with_requests (b : CircuitBreaker) (pending inflight : nat) : CircuitBreaker :=
  mkBreaker (state b) (halfOpenCount b) (lastFailureTime b) pending inflight (slidingWindow b).

Definition with_halfOpenCount (b : CircuitBreaker) (n : nat) : CircuitBreaker :=
  mkBreaker (state b) n (lastFailureTime b) (pendingHalfOpenRequests b) (inflightRequests b) (slidingWindow b).

Definition recordFailure (b : CircuitBreaker) (now : Z) : CircuitBreaker :=
  mkBreaker (state b) (halfOpenCount b) now (pendingHalfOpenRequests b) (inflightRequests b)
    (addEvent (slidingWindow b) now).

(** The handler whose continuation a running request is in. *)
Inductive Handler := Closed | HalfOpen.

Section Breaker.
Context (o : CircuitBreakerOptions).

(** [handleHalfOpenState] up to the call of the function; [None] is the rejection
    with [CircuitBreakerOpen]. *)
Definition handleHalfOpenState (b : CircuitBreaker) : CircuitBreaker * option Handler :=
  if bool_decide (maxConcurrent o ≤ pendingHalfOpenRequests b) then (b, None)
  else (with_requests b (S (pendingHalfOpenRequests b)) (S (inflightRequests b)), Some HalfOpen).

Definition handleOpenState (b : CircuitBreaker) (now : Z) : CircuitBreaker * option Handler :=
  if bool_decide (timeout o ≤ now - lastFailureTime b)%Z
  then handleHalfOpenState (changeToState (with_halfOpenCount b 0) HALF_OPEN)
  else (b, None).

Definition handleClosedState (b : CircuitBreaker) : CircuitBreaker * option Handler :=
  (with_requests b (pendingHalfOpenRequests b) (S (inflightRequests b)), Some Closed).

Definition execute (b : CircuitBreaker) (now : Z) : CircuitBreaker * option Handler :=
  match state b with
  | OPEN => handleOpenState b now
  | HALF_OPEN => handleHalfOpenState b
  | CLOSED => handleClosedState b
  end.

(** The function of a request in [handleHalfOpenState] succeeds or fails. *)
Definition half_open_finish (b : CircuitBreaker) (success : bool) (now : Z) : CircuitBreaker :=
  let b := if success then
      let b := with_halfOpenCount b (S (halfOpenCount b)) in
      if bool_decide (halfOpenRequests o ≤ halfOpenCount b)
      then with_window (changeToState b CLOSED) (clear (slidingWindow b)) else b
    else changeToState (recordFailure b now) OPEN in
  with_requests b (pred (pendingHalfOpenRequests b)) (inflightRequests b).

(** The same in [handleClosedState]. *)
Definition closed_finish (b : CircuitBreaker) (success : bool) (now : Z) : CircuitBreaker :=
  if success then b else
  let b := recordFailure b now in
  let '(w, count) := getCount (slidingWindow b) now in
  let b := with_window b w in
  if bool_decide (maxFailures o ≤ count) then changeToState b OPEN else b.

Definition finish (b : CircuitBreaker) (h : Handler) (success : bool) (now : Z) : CircuitBreaker :=
  let b := with_requests b (pendingHalfOpenRequests b) (pred (inflightRequests b)) in
  match h with
  | Closed => closed_finish b success now
  | HalfOpen => half_open_finish b success now
  end.

End Breaker.

(** * Requests that overlap *)

(** A breaker with its running requests, named by numbers, and the times of the
    failures since its window was last cleared. *)
Record BreakerRun := mkBreakerRun {
  br_breaker : CircuitBreaker;
  br_requests : jmap nat Handler;
  br_failures : list Z;
}.

Definition new_breaker_run (o : CircuitBreakerOptions) : BreakerRun := mkBreakerRun (new_breaker o) [] [].

(** Whether a success of a half-open request closes the breaker. *)
Definition closes (o : CircuitBreakerOptions) (b : CircuitBreaker) : bool :=
  bool_decide (halfOpenRequests o ≤ S (halfOpenCount b)).

Definition failures_after (o : CircuitBreakerOptions) (r : BreakerRun) (h : Handler) (success : bool) (now : Z) : list Z :=
  if success then match h with HalfOpen => if closes o (br_breaker r) then [] else br_failures r | Closed => br_failures r end
  else br_failures r ++ [now].

Inductive BreakerEvent :=
| Execute (request : nat) (now : Z)
| Finish (request : nat) (success : bool) (now : Z).

Definition event_time (e : BreakerEvent) : Z := match e with Execute _ t | Finish _ _ t => t end.

Definition breaker_next (o : CircuitBreakerOptions) (r : BreakerRun) (e : BreakerEvent) : option BreakerRun :=
  match e with
  | Execute k now =>
      match jm_get (br_requests r) k with
      | Some _ => None
      | None =>
          let '(b, h) := execute o (br_breaker r) now in
          Some (mkBreakerRun b (match h with Some h => jm_set (br_requests r) k h | None => br_requests r end) (br_failures r))
      end
  | Finish k success now =>
      h ← jm_get (br_requests r) k;
      Some (mkBreakerRun (finish o (br_breaker r) h success now) (jm_del (br_requests r) k) (failures_after o r h success now))
  end.

Fixpoint breaker_run (o : CircuitBreakerOptions) (r : BreakerRun) (es : list BreakerEvent) : option BreakerRun :=
  match es with [] => Some r | e :: es => r' ← breaker_next o r e; breaker_run o r' es end.

(** * What the window counts *)

Section Window.
Context (m : nat) (dur : Z).

(** [all]: every event since the last [clear], in order. *)
Record window_of (all : list Z) (clock : Z) (w : SlidingWindow) : Prop := {
  wo_max : maxEvents w = m;
  wo_duration : durationMs w = dur;
  wo_sorted : Sorted Z.le all;
  wo_clock : Forall (λ t, t ≤ clock)%Z all;
  wo_kept : ∃ k, eventTimestamps w = drop k all ∧ k ≤ length all ∧
    ∀ i x, i < k → all !! i = Some x → ¬ in_window (clock - dur) x ∨ (0 < m ∧ i + m * 2 < length all);
  wo_short : 0 < m → length (eventTimestamps w) ≤ m * 2;
}.

Lemma window_new clock : window_of [] clock (new_window m dur).
Proof. split; try done; [exists 0; by split; [|split; [|lia]]|cbn; lia]. Qed.

Lemma window_clear all clock w : window_of all clock w → window_of [] clock (clear w).
Proof. intros [? ? _ _ _ _]. split; try done; [exists 0; by split; [|split; [|lia]]|cbn; lia]. Qed.

Lemma window_later all clock clock' w : (clock ≤ clock')%Z → window_of all clock w → window_of all clock' w.
Proof.
  intros Hle [? ? ? Hc (k & Hk & Hl & Hd) ?]. split; try done.
  - eapply Forall_impl; [exact Hc|]. cbn. lia.
  - exists k. split; [done|split; [done|]]. intros i x Hi Hx. destruct (Hd i x Hi Hx) as [H|H]; [left|by right].
    unfold in_window in *. lia.
Qed.
Lemma slice_last_drop {A} (n : nat) (l : list A) : n < length l → 0 < n → slice_last l n = drop (length l - n) l.
Proof. intros. unfold slice_last. by rewrite decide_False by lia. Qed.

Lemma window_add all clock now w :
  (clock ≤ now)%Z → window_of all clock w → window_of (all ++ [now]) now (addEvent w now).
Proof.
  intros Hle Hw. apply (window_later _ _ now) in Hw; [|done]. destruct Hw as [Hm Hd Hs Hc (k & Hk & Hl & Hx) Hsh].
  assert (∀ i x, i < k → (all ++ [now]) !! i = Some x → all !! i = Some x) as Hi.
  { intros i x Hik. by rewrite lookup_app_l by lia. }
  assert (eventTimestamps w ++ [now] = drop k (all ++ [now])) as Happ by (by rewrite drop_app_le, Hk by lia).
  unfold addEvent. rewrite Happ, Hm. split; cbn [maxEvents durationMs eventTimestamps]; [done|done| | | |].
  - apply Sorted_StronglySorted in Hs; [|intros ?????; lia]. apply StronglySorted_Sorted, StronglySorted_app.
    repeat split; [|done|by repeat constructor].
    intros x y Hx' ->%list_elem_of_singleton. by eapply Forall_forall in Hc.
  - apply Forall_app. split; [done|]. constructor; [lia|constructor].
  - case_bool_decide as Hlen.
    + rewrite length_drop, length_app in Hlen; cbn in Hlen. unfold slice_last.
      destruct (decide (m * 2 = 0)) as [Hz|Hz].
      * exists k. split; [done|split; [rewrite length_app; lia|]]. intros i x Hik Hix.
        destruct (Hx i x Hik (Hi _ _ Hik Hix)) as [|[? ?]]; [by left|lia].
      * rewrite drop_drop, !length_drop, length_app. cbn [length].
        exists (k + (length all + 1 - k - m * 2)). split; [done|split; [lia|]].
        intros i x Hik _. right. lia.
    + exists k. split; [done|split; [rewrite length_app; lia|]]. intros i x Hik Hix.
      destruct (Hx i x Hik (Hi _ _ Hik Hix)) as [|[? ?]]; [by left|right]. rewrite length_app; lia.
  - intros Hm0. case_bool_decide as Hlen.
    + rewrite slice_last_drop by lia. rewrite !length_drop in *. lia.
    + lia.
Qed.

(** The number of events of the window, all kept. *)
Definition events_in (all : list Z) (now : Z) : nat := length (filter (in_window (now - dur)) all).

(** The events of a sorted list that have left the window are its first ones. *)
Lemma window_start now l :
  Sorted Z.le l → ∃ j, j ≤ length l ∧ ∀ i x, l !! i = Some x → (i < j ↔ ¬ in_window (now - dur) x).
Proof.
  intros Hs. apply Sorted_StronglySorted in Hs; [|intros ?????; lia].
  induction Hs as [|y l Hs (j & Hj & IH) Hy]; [by exists 0|].
  destruct (decide (in_window (now - dur) y)) as [Hin|Hout].
  - exists 0. split; [lia|]. intros i x Hx. split; [lia|]. intros Hn. exfalso; apply Hn.
    destruct i; cbn in Hx; [by simplify_eq|]. eapply Forall_lookup in Hy; [|exact Hx]. unfold in_window in *. lia.
  - exists (S j). split; [cbn; lia|]. intros [|i] x Hx; cbn in Hx; [simplify_eq; split; [done|lia]|].
    rewrite <- (IH i x Hx). lia.
Qed.

Lemma filter_drop now l j k :
  (∀ i x, l !! i = Some x → (i < j ↔ ¬ in_window (now - dur) x)) →
  filter (in_window (now - dur)) (drop k l) = drop (max j k) l.
Proof.
  revert j k; induction l as [|y l IH]; intros j k Hl; [by rewrite !drop_nil|].
  pose proof (Hl 0 y eq_refl) as H0.
  assert (∀ i x, l !! i = Some x → (i < pred j ↔ ¬ in_window (now - dur) x)) as Hl'.
  { intros i x Hx. rewrite <- (Hl (S i) x Hx). lia. }
  destruct k as [|k]; cbn [drop].
  - specialize (IH (pred j) 0 Hl'). rewrite drop_0 in IH. destruct j as [|j]; cbn [Nat.pred Nat.max drop] in *.
    + rewrite filter_cons_True by (apply dec_stable; intros Hn; apply H0 in Hn; lia). by rewrite IH.
    + rewrite filter_cons_False by (apply H0; lia). rewrite IH. f_equal. lia.
  - rewrite (IH (pred j) k Hl'). destruct j as [|j]; cbn; [done|]. done.
Qed.

Lemma window_count all clock now w :
  (clock ≤ now)%Z → window_of all clock w →
  window_of all now (getCount w now).1 ∧
  (getCount w now).2 = if decide (m = 0) then events_in all now else min (m * 2) (events_in all now).
Proof.
  intros Hle Hw. apply (window_later _ _ now) in Hw; [|done].
  destruct Hw as [Hm Hd Hs Hc (k & Hk & Hl & Hx) Hsh].
  unfold getCount. rewrite Hd, Hk. cbn [fst snd].
  destruct (window_start now all Hs) as (j & Hj & Hjx).
  pose proof (filter_drop now all j 0 Hjx) as Hfj. rewrite drop_0, Nat.max_0_r in Hfj.
  pose proof (filter_drop now all j k Hjx) as Hfk.
  split.
  - split; cbn [maxEvents durationMs eventTimestamps]; [done|done|done|done| |].
    + exists (max j k). split; [done|split; [lia|]]. intros i x Hi Hix.
      destruct (decide (i < j)) as [Hij|Hij]; [left; by apply (Hjx i x)|]. apply (Hx i x); [lia|done].
    + intros Hm0. rewrite Hfk, length_drop. specialize (Hsh Hm0). rewrite Hk, length_drop in Hsh. lia.
  - unfold events_in. rewrite Hfk, Hfj, !length_drop.
    case_decide as Hm0; [|].
    + destruct (decide (k ≤ j)); [lia|]. exfalso.
      destruct (lookup_lt_is_Some_2 all (k - 1)) as [x Hix]; [lia|].
      destruct (Hx (k - 1) x) as [Hn|[? _]]; [lia|done| |lia].
      apply (Hjx _ _ Hix) in Hn. lia.
    + specialize (Hsh ltac:(lia)). rewrite Hk, length_drop in Hsh.
      destruct (decide (k ≤ j)); [lia|].
      destruct (lookup_lt_is_Some_2 all (k - 1)) as [x Hix]; [lia|].
      destruct (Hx (k - 1) x) as [Hn|[_ Hn]]; [lia|done|apply (Hjx _ _ Hix) in Hn; lia|]. lia.
Qed.
End Window.

(** A window with its operations. *)
Inductive WindowOp := AddEvent (t : Z) | GetCount (t : Z) | Clear (t : Z).
Definition op_time (p : WindowOp) : Z := match p with AddEvent t | GetCount t | Clear t => t end.

Definition window_op (w : SlidingWindow) (p : WindowOp) : SlidingWindow :=
  match p with AddEvent t => addEvent w t | GetCount t => (getCount w t).1 | Clear _ => clear w end.

(** Every event since the last [clear]. *)
Definition record_op (all : list Z) (p : WindowOp) : list Z :=
  match p with AddEvent t => all ++ [t] | GetCount _ => all | Clear _ => [] end.

Lemma window_op_of m dur all clock w p :
  (clock ≤ op_time p)%Z → window_of m dur all clock w → window_of m dur (record_op all p) (op_time p) (window_op w p).
Proof.
  intros Hle Hw. destruct p as [t|t|t]; cbn in *.
  - by eapply window_add.
  - by eapply window_count.
  - eapply window_later, window_clear; [done|exact Hw].
Qed.

Lemma window_ops_of m dur ops all clock w :
  Sorted Z.le (clock :: (op_time <$> ops)) → window_of m dur all clock w →
  ∃ clock', window_of m dur (foldl record_op all ops) clock' (foldl window_op w ops) ∧
    clock' = default clock (last (op_time <$> ops)).
Proof.
  revert all clock w; induction ops as [|p ops IH]; intros all clock w Hs Hw; [by exists clock|].
  cbn [fmap list_fmap] in Hs. apply Sorted_inv in Hs as [Hs Hp]. apply HdRel_inv in Hp.
  destruct (IH (record_op all p) (op_time p) (window_op w p) Hs) as (c & Hc & ->); [by eapply window_op_of|].
  eexists. split; [exact Hc|]. cbn [fmap list_fmap]. rewrite last_cons. by destruct (last _).
Qed.

(** C40: Dropping old events does not change what the window is used for: after any
    operations at increasing times, comparing [getCount] with a threshold of at most
    twice [maxEvents] gives the same answer as counting, among all events since the
    last [clear], those of the last [durationMs] milliseconds. *)
Theorem sliding_window_exact m dur ops now n :
  0 < m → n ≤ m * 2 → Sorted Z.le (op_time <$> (ops ++ [GetCount now])) →
  n ≤ (getCount (foldl window_op (new_window m dur) ops) now).2 ↔ n ≤ events_in dur (foldl record_op [] ops) now.
Proof.
  intros Hm Hn Hs. rewrite fmap_app in Hs. cbn in Hs.
  set (first := default now (head (op_time <$> ops))).
  assert (Sorted Z.le (first :: (op_time <$> ops)) ∧ (default first (last (op_time <$> ops)) ≤ now)%Z) as [Hs1 Hlast].
  { subst first. destruct (op_time <$> ops) as [|t l]; cbn; [split; [by repeat constructor|lia]|].
    cbn in Hs. apply Sorted_StronglySorted in Hs; [|intros ?????; lia].
    change (t :: l ++ [now]) with ((t :: l) ++ [now]) in Hs.
    apply StronglySorted_app in Hs as (Hle & Hs & _). split.
    - constructor; [by apply StronglySorted_Sorted|]. constructor. lia.
    - destruct (last (t :: l)) eqn:Hl; cbn; [|by apply last_None in Hl].
      apply Hle; [by apply last_Some_elem_of in Hl|by left]. }
  destruct (window_ops_of m dur ops [] first (new_window m dur) Hs1 (window_new _ _ _)) as (c & Hw & ->).
  destruct (window_count _ _ _ _ _ _ Hlast Hw) as [_ ->]. rewrite decide_False by lia. lia.
Qed.

Definition burst : list WindowOp := AddEvent <$> [1; 2; 3; 4; 5; 6; 7]%Z.

Lemma sliding_window_exact_witness :
  (2 ≤ (getCount (foldl window_op (new_window 2 4) burst) 9).2 ↔ 2 ≤ events_in 4 (foldl record_op [] burst) 9).
Proof.
  apply (sliding_window_exact 2 4 burst 9 2); [lia|lia|].
  change (Sorted Z.le [1; 2; 3; 4; 5; 6; 7; 9]%Z). repeat constructor; lia.
Defined.

(** * The breaker *)

Section BreakerProofs.
Context (o : CircuitBreakerOptions).

Definition is_half_open (h : Handler) : nat := match h with HalfOpen => 1 | Closed => 0 end.

(** The counters agree with the running requests, and the window with the
    failures. *)
Record breaker_inv (clock : Z) (r : BreakerRun) : Prop := {
  bi_wf : jm_wf (br_requests r);
  bi_pending : pendingHalfOpenRequests (br_breaker r) = jm_sum is_half_open (br_requests r);
  bi_inflight : inflightRequests (br_breaker r) = length (br_requests r);
  bi_bound : pendingHalfOpenRequests (br_breaker r) ≤ maxConcurrent o;
  bi_window : window_of (maxFailures o) (failureWindow o) (br_failures r) clock (slidingWindow (br_breaker r));
}.

Lemma breaker_inv_new clock : breaker_inv clock (new_breaker_run o).
Proof. split; try done; [constructor|cbn; lia|apply window_new]. Qed.

Lemma execute_inv clock now r k :
  (clock ≤ now)%Z → breaker_inv clock r → jm_get (br_requests r) k = None →
  ∀ b h, execute o (br_breaker r) now = (b, h) →
  breaker_inv now (mkBreakerRun b (match h with Some h => jm_set (br_requests r) k h | None => br_requests r end) (br_failures r)).
Proof.
  intros Hle [Hwf Hp Hi Hb Hw] Hk b h He. apply (window_later _ _ _ _ now) in Hw; [|done].
  pose proof (jm_sum_set is_half_open (br_requests r) k HalfOpen) as H1.
  pose proof (jm_sum_set is_half_open (br_requests r) k Closed) as H2.
  rewrite Hk in H1, H2. cbn -[jm_sum jm_set] in H1, H2.
  pose proof (jm_set_fresh_length (br_requests r) k HalfOpen Hk).
  pose proof (jm_set_fresh_length (br_requests r) k Closed Hk).
  unfold execute, handleOpenState, handleHalfOpenState, handleClosedState in He.
  destruct (state (br_breaker r)); repeat case_bool_decide; simplify_eq; cbn in * |-;
    split; cbn -[jm_sum jm_set]; try done; try (by apply jm_wf_set); lia.
Qed.

Lemma finish_inv clock now r k h success :
  (clock ≤ now)%Z → breaker_inv clock r → jm_get (br_requests r) k = Some h →
  breaker_inv now (mkBreakerRun (finish o (br_breaker r) h success now) (jm_del (br_requests r) k) (failures_after o r h success now)).
Proof.
  intros Hle [Hwf Hp Hi Hb Hw] Hk.
  pose proof (jm_sum_del is_half_open (br_requests r) k Hwf) as Hs. rewrite Hk in Hs. cbn -[jm_sum jm_del] in Hs.
  pose proof (jm_del_length _ _ _ Hwf Hk).
  pose proof (window_add _ _ _ _ now _ Hle Hw) as Hadd.
  pose proof (window_later _ _ _ _ now _ Hle Hw) as Hlater.
  pose proof (window_clear _ _ _ now _ Hlater) as Hclear.
  assert (jm_wf (jm_del (br_requests r) k)) by (by apply jm_wf_del).
  unfold finish, half_open_finish, closed_finish, failures_after, closes.
  destruct h, success; cbn [is_half_open] in Hs.
  - split; cbn -[jm_sum jm_del]; try done; lia.
  - pose proof (window_count _ _ _ now now _ ltac:(lia) Hadd) as [Hcount _].
    destruct (getCount _ now) as [w n] eqn:Hg.
    change (getCount (addEvent (slidingWindow (br_breaker r)) now) now = (w, n)) in Hg.
    cbn [fst] in Hcount.
    case_bool_decide; split; cbn -[jm_sum jm_del]; try done; lia.
  - cbn. case_bool_decide; split; cbn -[jm_sum jm_del]; try done; lia.
  - split; cbn -[jm_sum jm_del]; try done; lia.
Qed.

Lemma breaker_next_inv clock r e r' :
  (clock ≤ event_time e)%Z → breaker_inv clock r → breaker_next o r e = Some r' → breaker_inv (event_time e) r'.
Proof.
  intros Hle Hinv H. destruct e as [k now|k success now]; cbn in *.
  - destruct (jm_get (br_requests r) k) eqn:Hk; [done|].
    destruct (execute o (br_breaker r) now) as [b h] eqn:He. injection H as <-. by eapply execute_inv.
  - apply bind_Some in H as (h & Hk & [= <-]). by eapply finish_inv.
Qed.

Lemma breaker_run_inv clock r es r' :
  Sorted Z.le (clock :: (event_time <$> es)) → breaker_inv clock r → breaker_run o r es = Some r' →
  breaker_inv (default clock (last (event_time <$> es))) r'.
Proof.
  revert clock r; induction es as [|e es IH]; intros clock r Hs Hinv H; [by simplify_eq/=|].
  cbn in H. apply bind_Some in H as (r1 & H1 & H2).
  cbn [fmap list_fmap] in *. apply Sorted_inv in Hs as [Hs Hh]. apply HdRel_inv in Hh.
  pose proof (IH _ _ Hs (breaker_next_inv _ _ _ _ Hh Hinv H1) H2) as Hr.
  rewrite last_cons. by destruct (last _).
Qed.
End BreakerProofs.

Section BreakerClaims.
Context (o : CircuitBreakerOptions).

(** The events happen in the order of time, from [0] on. *)
Definition in_time (es : list BreakerEvent) : Prop := Sorted Z.le (0%Z :: (event_time <$> es)).

(** However requests overlap, the breaker counts them correctly, and at most
    [maxConcurrentHalfOpenRequests] of them test the service at the same time. *)
Theorem half_open_bounded es r :
  in_time es → breaker_run o (new_breaker_run o) es = Some r →
  pendingHalfOpenRequests (br_breaker r) = jm_sum is_half_open (br_requests r) ∧
  jm_sum is_half_open (br_requests r) ≤ maxConcurrent o ∧
  inflightRequests (br_breaker r) = length (br_requests r).
Proof.
  intros Hs H. destruct (breaker_run_inv o 0 _ _ _ Hs (breaker_inv_new o 0) H) as [_ Hp Hi Hb _].
  rewrite <- Hp. done.
Qed.

Lemma closed_failure_state b now :
  state (closed_finish o b false now) =
    if bool_decide (maxFailures o ≤ (getCount (addEvent (slidingWindow b) now) now).2) then OPEN else state b.
Proof. unfold closed_finish, getCount. cbn [snd slidingWindow recordFailure]. by case_bool_decide. Qed.

(** A failing request that started in the closed state opens the breaker exactly
    when, with it, the failures of the last [failureWindow] milliseconds since the
    last recovery are at least [maxFailures]; otherwise it leaves the state alone. *)
Theorem breaker_opens_exactly es r k now r' :
  in_time (es ++ [Finish k false now]) → breaker_run o (new_breaker_run o) es = Some r →
  jm_get (br_requests r) k = Some Closed → breaker_next o r (Finish k false now) = Some r' →
  state (br_breaker r') =
    if decide (maxFailures o ≤ events_in (failureWindow o) (br_failures r ++ [now]) now) then OPEN else state (br_breaker r).
Proof.
  intros Hs H Hk Hn. unfold in_time in Hs. rewrite fmap_app in Hs.
  assert (in_time es ∧ (default 0 (last (event_time <$> es)) ≤ now)%Z) as [Hs1 Hlast].
  { change (Sorted Z.le ((0%Z :: (event_time <$> es)) ++ [now])) in Hs.
    apply Sorted_StronglySorted in Hs; [|intros ?????; lia]. apply StronglySorted_app in Hs as (Hle & Hs & _).
    split; [by apply StronglySorted_Sorted|].
    destruct (last (event_time <$> es)) as [t|] eqn:Hl; cbn; apply Hle; try (by left); right.
    by apply last_Some_elem_of in Hl. }
  pose proof (bi_window _ _ _ (breaker_run_inv o 0 _ _ _ Hs1 (breaker_inv_new o 0) H)) as Hw.
  pose proof (window_add _ _ _ _ now _ Hlast Hw) as Hadd.
  pose proof (window_count _ _ _ now now _ ltac:(lia) Hadd) as [_ Hcount].
  unfold breaker_next in Hn. rewrite Hk in Hn. cbn [mbind option_bind] in Hn.
  assert (br_breaker r' = finish o (br_breaker r) Closed false now) as -> by (by injection Hn as <-).
  unfold finish. cbv beta iota zeta. rewrite closed_failure_state. cbn [slidingWindow with_requests state].
  rewrite Hcount. set (e := events_in _ _ _) in *. clearbody e.
  destruct (decide (maxFailures o = 0)); case_bool_decide; case_decide; try done; lia.
Qed.

(** The requests [k], [k + 1], ... succeed one after the other at time [now]. *)
Fixpoint successes (k n : nat) (now : Z) : list BreakerEvent :=
  match n with 0 => [] | S n => Execute k now :: Finish k true now :: successes (S k) n now end.

Lemma half_open_successes n k now r :
  state (br_breaker r) = HALF_OPEN → pendingHalfOpenRequests (br_breaker r) = 0 → 0 < maxConcurrent o →
  (∀ j, k ≤ j → jm_get (br_requests r) j = None) → n + halfOpenCount (br_breaker r) = halfOpenRequests o → 0 < n →
  ∃ r', breaker_run o r (successes k n now) = Some r' ∧ state (br_breaker r') = CLOSED ∧
    eventTimestamps (slidingWindow (br_breaker r')) = [].
Proof.
  revert k r; induction n as [|n IH]; intros k r Hst Hp Hm Hk Hn Hpos; [lia|].
  cbn [successes breaker_run breaker_next]. rewrite (Hk k) by lia.
  unfold execute. rewrite Hst. unfold handleHalfOpenState. rewrite Hp, bool_decide_false by lia.
  cbn [mbind option_bind br_requests br_breaker]. rewrite jm_get_set. cbn [mbind option_bind br_requests br_breaker].
  unfold finish, half_open_finish. cbn [halfOpenCount with_requests with_halfOpenCount pendingHalfOpenRequests].
  case_bool_decide as Hc.
  - assert (n = 0) as -> by lia. cbn. eexists. by split.
  - apply IH; cbn; try done; [|lia|lia]. intros j Hj.
    destruct (decide (k = j)) as [->|]; [lia|]. rewrite jm_get_del_ne, jm_get_set_ne by done. apply Hk. lia.
Qed.
End BreakerClaims.

Section Recovery.
Context (o : CircuitBreakerOptions).

(** An open breaker recovers: it rejects every request for [timeout]
    milliseconds after the last failure, and from then on, when no request tests the
    service, [halfOpenRequests] successful requests one after the other close it and
    clear the failures. *)
Theorem open_breaker_recovers r k now :
  state (br_breaker r) = OPEN → pendingHalfOpenRequests (br_breaker r) = 0 → 0 < maxConcurrent o → 0 < halfOpenRequests o →
  (∀ j, k ≤ j → jm_get (br_requests r) j = None) →
  ((now - lastFailureTime (br_breaker r) < timeout o)%Z → execute o (br_breaker r) now = (br_breaker r, None)) ∧
  ((timeout o ≤ now - lastFailureTime (br_breaker r))%Z →
    ∃ r', breaker_run o r (successes k (halfOpenRequests o) now) = Some r' ∧ state (br_breaker r') = CLOSED ∧
      eventTimestamps (slidingWindow (br_breaker r')) = []).
Proof.
  intros Hst Hp Hm Hh Hk. split; intros Ht.
  - unfold execute, handleOpenState. rewrite Hst. by rewrite bool_decide_false by lia.
  - set (r1 := mkBreakerRun (changeToState (with_halfOpenCount (br_breaker r) 0) HALF_OPEN) (br_requests r) (br_failures r)).
    assert (breaker_run o r (successes k (halfOpenRequests o) now) = breaker_run o r1 (successes k (halfOpenRequests o) now)) as ->.
    { destruct (halfOpenRequests o) as [|n] eqn:Hn; [lia|]. cbn [successes breaker_run breaker_next].
      cbn [br_requests r1]. rewrite (Hk k) by lia. unfold execute at 1. rewrite Hst.
      unfold handleOpenState. by rewrite bool_decide_true. }
    apply half_open_successes; cbn; try done; lia.
Qed.
End Recovery.

(** One failure opens the breaker; one success closes it. *)
Definition touchy : CircuitBreakerOptions := mkOptions 10 1 1 100 None.

Definition opened : BreakerRun :=
  mkBreakerRun (mkBreaker OPEN 0 1 0 1 (mkWindow 1 100 [1%Z])) [(0, Closed)] [1%Z].

Lemma opened_reached :
  breaker_run touchy (new_breaker_run touchy) [Execute 0 0; Execute 1 0; Finish 1 false 1] = Some opened.
Proof. reflexivity. Qed.

Lemma open_breaker_recovers_witness :
  ∃ r', breaker_run touchy opened (successes 1 1 11) = Some r' ∧ state (br_breaker r') = CLOSED ∧
    eventTimestamps (slidingWindow (br_breaker r')) = [].
Proof.
  apply (open_breaker_recovers touchy opened 1 11); try reflexivity; try (cbn; lia).
  intros [|j] Hj; [lia|reflexivity].
Defined.

Lemma half_open_bounded_witness :
  in_time [Execute 0 0; Execute 1 0; Finish 1 false 1] ∧ inflightRequests (br_breaker opened) = length (br_requests opened).
Proof.
  assert (in_time [Execute 0 0; Execute 1 0; Finish 1 false 1]) as Hs.
  { change (Sorted Z.le [0; 0; 0; 1]%Z). repeat constructor; lia. }
  split; [exact Hs|]. apply (half_open_bounded touchy _ _ Hs opened_reached).
Defined.

Lemma breaker_opens_exactly_witness :
  ∃ r', breaker_next touchy opened (Finish 0 false 5) = Some r' ∧ state (br_breaker r') = OPEN.
Proof.
  eexists; split; [reflexivity|].
  rewrite (breaker_opens_exactly touchy [Execute 0 0; Execute 1 0; Finish 1 false 1] opened 0 5);
    [reflexivity| |exact opened_reached|reflexivity|reflexivity].
  change (Sorted Z.le [0; 0; 0; 1; 5]%Z). repeat constructor; lia.
Defined.

(** With the default of one test request at a time, a request from before the
    breaker opened fails at 12 while the test request 2 runs, which reopens it; the
    success of request 2 at 13 closes it again and forgets the failure. *)
Lemma late_success_closes :
  ∃ r1 r2, breaker_run touchy opened [Execute 2 11; Finish 0 false 12] = Some r1 ∧
    state (br_breaker r1) = OPEN ∧ lastFailureTime (br_breaker r1) = 12%Z ∧
    breaker_run touchy r1 [Finish 2 true 13] = Some r2 ∧
    state (br_breaker r2) = CLOSED ∧ eventTimestamps (slidingWindow (br_breaker r2)) = [].
Proof. eexists _, _. split; [reflexivity|]. do 2 (split; [reflexivity|]). split; [reflexivity|]. by split. Qed.
