(* ===== verification/TaskBroker.v ===== *)
(** TaskBroker: cli/src/task-runners/task-broker/task-broker.service.ts.

    The broker matches offers of runners with requests of requesters and carries
    messages between them.  A request is an object the pending list and the running
    [acceptOffer] share, so it lives in a store and is named by its number.  Each
    [acceptOffer] is a process: it awaits the runner's answer, then the requester's
    settings.  Messages are effects; sending one does not fail, and waiting for its delivery is not a step of
    its own.  Times are in nanoseconds ([process.hrtime]). *)

From stdpp Require Import prelude list strings relations.
From Stdlib Require Import ZArith Lia.
From S2P Require Import Prelude.
Local Open Scope nat_scope.

(** * Data *)

Record Task := mkTask {
  t_runnerId : string;
  t_requesterId : string;
  t_taskType : string;
  t_timeout : bool;
}.

Record TaskOffer := mkOffer {
  o_offerId : string;
  o_runnerId : string;
  o_taskType : string;
  o_validFor : Z;
  o_validUntil : Z;
}.

(** [rq_timeout]: the timer that expires the request runs. *)
Record TaskRequest := mkTaskRequest {
  rq_requestId : string;
  rq_requesterId : string;
  rq_taskType : string;
  rq_timeout : bool;
  rq_acceptInProgress : bool;
}.

(** Messages, by their [type] and the fields that name something. *)
Inductive ToRunner :=
| RunnerRegistered
| TaskOfferAccept (offerId taskId : string)
| RunnerTaskCancel (taskId reason : string)
| RunnerTaskSettings (taskId : string)
| RunnerTaskDataResponse (taskId requestId : string)
| RunnerNodeTypes (taskId requestId : string)
| RunnerRpcResponse (taskId callId : string) (success : bool).

Inductive ToRequester :=
| RequestExpired (requestId reason : string)
| TaskReady (requestId taskId : string)
| TaskDone (taskId : string)
| TaskErrored (taskId : string)
| RequesterTaskDataRequest (taskId requestId : string)
| RequesterNodeTypesRequest (taskId requestId : string)
| RequesterRpc (taskId callId : string).

Inductive Message :=
| MsgRunner (runnerId : string) (m : ToRunner)
| MsgRequester (requesterId : string) (m : ToRequester).

(** How the promise a process awaits was settled. *)
Inductive RunnerAnswer := RunnerAccepted | RunnerRejected | RunnerDeferred | RunnerTimedOut.
Inductive RequesterAnswer := SettingsReceived | RequesterRejected (reason : string) | RequesterTimedOut.

(** A running [acceptOffer]. *)
Inductive AcceptPhase :=
| AwaitRunner (answer : option RunnerAnswer)
| AwaitRequester (answer : option RequesterAnswer).

Record Accept := mkAccept {
  ac_offer : TaskOffer;
  ac_request : nat;
  ac_phase : AcceptPhase;
}.

Record TaskBroker := mkBroker {
  knownRunners : list string;
  requesters : list string;
  tasks : jmap string Task;
  isDraining : bool;
  runnerAcceptRejects : list string;
  requesterAcceptRejects : list string;
  pendingTaskOffers : list TaskOffer;
  pendingTaskRequests : list nat;
  mismatchWarned : list string;
  requests : jmap nat TaskRequest;
  accepts : jmap string Accept;
  sent : list Message;
}.

Definition new_broker : TaskBroker := mkBroker [] [] [] false [] [] [] [] [] [] [] [].

Definition with_tasks (b : TaskBroker) (t : jmap string Task) : TaskBroker :=
  mkBroker (knownRunners b) (requesters b) t (isDraining b) (runnerAcceptRejects b) (requesterAcceptRejects b)
    (pendingTaskOffers b) (pendingTaskRequests b) (mismatchWarned b) (requests b) (accepts b) (sent b).
Definition with_peers (b : TaskBroker) (rs qs : list string) : TaskBroker :=
  mkBroker rs qs (tasks b) (isDraining b) (runnerAcceptRejects b) (requesterAcceptRejects b)
    (pendingTaskOffers b) (pendingTaskRequests b) (mismatchWarned b) (requests b) (accepts b) (sent b).
Definition with_draining (b : TaskBroker) (d : bool) : TaskBroker :=
  mkBroker (knownRunners b) (requesters b) (tasks b) d (runnerAcceptRejects b) (requesterAcceptRejects b)
    (pendingTaskOffers b) (pendingTaskRequests b) (mismatchWarned b) (requests b) (accepts b) (sent b).
Definition with_callbacks (b : TaskBroker) (ra qa : list string) : TaskBroker :=
  mkBroker (knownRunners b) (requesters b) (tasks b) (isDraining b) ra qa
    (pendingTaskOffers b) (pendingTaskRequests b) (mismatchWarned b) (requests b) (accepts b) (sent b).
Definition with_offers (b : TaskBroker) (l : list TaskOffer) : TaskBroker :=
  mkBroker (knownRunners b) (requesters b) (tasks b) (isDraining b) (runnerAcceptRejects b) (requesterAcceptRejects b)
    l (pendingTaskRequests b) (mismatchWarned b) (requests b) (accepts b) (sent b).
Definition with_pending (b : TaskBroker) (l : list nat) (warned : list string) : TaskBroker :=
  mkBroker (knownRunners b) (requesters b) (tasks b) (isDraining b) (runnerAcceptRejects b) (requesterAcceptRejects b)
    (pendingTaskOffers b) l warned (requests b) (accepts b) (sent b).
Definition with_requests (b : TaskBroker) (m : jmap nat TaskRequest) : TaskBroker :=
  mkBroker (knownRunners b) (requesters b) (tasks b) (isDraining b) (runnerAcceptRejects b) (requesterAcceptRejects b)
    (pendingTaskOffers b) (pendingTaskRequests b) (mismatchWarned b) m (accepts b) (sent b).
Definition with_accepts (b : TaskBroker) (m : jmap string Accept) : TaskBroker :=
  mkBroker (knownRunners b) (requesters b) (tasks b) (isDraining b) (runnerAcceptRejects b) (requesterAcceptRejects b)
    (pendingTaskOffers b) (pendingTaskRequests b) (mismatchWarned b) (requests b) m (sent b).
Definition send (b : TaskBroker) (m : list Message) : TaskBroker :=
  mkBroker (knownRunners b) (requesters b) (tasks b) (isDraining b) (runnerAcceptRejects b) (requesterAcceptRejects b)
    (pendingTaskOffers b) (pendingTaskRequests b) (mismatchWarned b) (requests b) (accepts b) (sent b ++ m).

(** * Messages *)

Definition messageRunner (b : TaskBroker) (runnerId : string) (m : ToRunner) : TaskBroker :=
  if js_has (knownRunners b) runnerId then send b [MsgRunner runnerId m] else b.

Definition messageRequester (b : TaskBroker) (requesterId : string) (m : ToRequester) : TaskBroker :=
  if js_has (requesters b) requesterId then send b [MsgRequester requesterId m] else b.

(** * Requests in the store *)

Definition update_request (b : TaskBroker) (r : nat) (f : TaskRequest → TaskRequest) : TaskBroker :=
  with_requests b (jm_update (requests b) r f).

Definition set_timeout (on : bool) (q : TaskRequest) : TaskRequest :=
  mkTaskRequest (rq_requestId q) (rq_requesterId q) (rq_taskType q) on (rq_acceptInProgress q).
Definition set_in_progress (p : bool) (q : TaskRequest) : TaskRequest :=
  mkTaskRequest (rq_requestId q) (rq_requesterId q) (rq_taskType q) (rq_timeout q) p.

(** The index of a pending request by its id. *)
Definition request_index (b : TaskBroker) (requestId : string) : option nat :=
  find_index (λ r, match jm_get (requests b) r with
                   | Some q => bool_decide (rq_requestId q = requestId) | None => false end) (pendingTaskRequests b).

Definition handleRequestTimeout (b : TaskBroker) (requestId : string) : TaskBroker :=
  match request_index b requestId with
  | None => b
  | Some i =>
      match (r ← pendingTaskRequests b !! i; q ← jm_get (requests b) r; Some (r, q)) with
      | None => b
      | Some (r, q) =>
          let b := with_pending b (splice1 (pendingTaskRequests b) i) (js_del (mismatchWarned b) requestId) in
          let b := update_request b r (set_timeout false) in
          messageRequester b (rq_requesterId q) (RequestExpired (rq_requestId q) "timeout")
      end
  end.

(** * Offers *)

Definition offer_expired (now : Z) (o : TaskOffer) : bool :=
  negb (bool_decide (o_validFor o = -1)%Z) && bool_decide (o_validUntil o < now)%Z.

Definition expireTasks (b : TaskBroker) (now : Z) : TaskBroker :=
  with_offers b (filter (λ o, offer_expired now o = false) (pendingTaskOffers b)).

(** [void this.acceptOffer(offer, request)] up to its first await; [taskId] is the
    new [nanoid(8)]. *)
Definition start_accept (b : TaskBroker) (taskId : string) (o : TaskOffer) (r : nat) : TaskBroker :=
  let b := with_callbacks b (js_add (runnerAcceptRejects b) taskId) (requesterAcceptRejects b) in
  let b := messageRunner b (o_runnerId o) (TaskOfferAccept (o_offerId o) taskId) in
  with_accepts b (jm_set (accepts b) taskId (mkAccept o r (AwaitRunner None))).

Definition warnOnTaskTypeMismatch (b : TaskBroker) (q : TaskRequest) : TaskBroker :=
  if bool_decide (pendingTaskOffers b = []) then b else
  with_pending b (pendingTaskRequests b) (js_add (mismatchWarned b) (rq_requestId q)).

(** One request in the loop of [settleTasks]; [ids] are the task ids still to be
    drawn. *)
Definition settle_one (st : TaskBroker * list string) (r : nat) : TaskBroker * list string :=
  let '(b, ids) := st in
  match jm_get (requests b) r with
  | None => st
  | Some q =>
      if rq_acceptInProgress q then st else
      match find_index (λ o, bool_decide (o_taskType o = rq_taskType q)) (pendingTaskOffers b) with
      | None => (warnOnTaskTypeMismatch b q, ids)
      | Some i =>
          match pendingTaskOffers b !! i, ids with
          | Some o, taskId :: ids =>
              let b := update_request b r (set_in_progress true) in
              let b := with_offers b (splice1 (pendingTaskOffers b) i) in
              let b := with_pending b (pendingTaskRequests b) (js_del (mismatchWarned b) (rq_requestId q)) in
              (start_accept b taskId o r, ids)
          | _, _ => st
          end
      end
  end.

Definition settleTasks (b : TaskBroker) (now : Z) (ids : list string) : TaskBroker :=
  let b := expireTasks b now in (foldl settle_one (b, ids) (pendingTaskRequests b)).1.

Definition taskRequested (b : TaskBroker) (r : nat) (q : TaskRequest) (now : Z) (ids : list string) : TaskBroker :=
  if isDraining b then
    let b := with_requests b (jm_set (requests b) r (set_timeout false q)) in
    messageRequester b (rq_requesterId q) (RequestExpired (rq_requestId q) "draining")
  else
    let b := with_requests b (jm_set (requests b) r q) in
    settleTasks (with_pending b (pendingTaskRequests b ++ [r]) (mismatchWarned b)) now ids.

Definition taskOffered (b : TaskBroker) (o : TaskOffer) (now : Z) (ids : list string) : TaskBroker :=
  settleTasks (with_offers b (pendingTaskOffers b ++ [o])) now ids.

(** * Promises of the processes *)

(** Settling the promise of a process that awaits the runner, if it is pending. *)
Definition settle_runner (b : TaskBroker) (taskId : string) (a : RunnerAnswer) : TaskBroker :=
  match jm_get (accepts b) taskId with
  | Some p =>
      match ac_phase p with
      | AwaitRunner None => with_accepts b (jm_set (accepts b) taskId (mkAccept (ac_offer p) (ac_request p) (AwaitRunner (Some a))))
      | _ => b
      end
  | None => b
  end.

Definition settle_requester (b : TaskBroker) (taskId : string) (a : RequesterAnswer) : TaskBroker :=
  match jm_get (accepts b) taskId with
  | Some p =>
      match ac_phase p with
      | AwaitRequester None => with_accepts b (jm_set (accepts b) taskId (mkAccept (ac_offer p) (ac_request p) (AwaitRequester (Some a))))
      | _ => b
      end
  | None => b
  end.

Definition answer_runner (b : TaskBroker) (taskId : string) (a : RunnerAnswer) : TaskBroker :=
  if js_has (runnerAcceptRejects b) taskId then
    let b := settle_runner b taskId a in
    with_callbacks b (js_del (runnerAcceptRejects b) taskId) (requesterAcceptRejects b)
  else b.

Definition handleRunnerAccept (b : TaskBroker) (taskId : string) : TaskBroker := answer_runner b taskId RunnerAccepted.
Definition handleRunnerReject (b : TaskBroker) (taskId : string) : TaskBroker := answer_runner b taskId RunnerRejected.
Definition handleRunnerDeferred (b : TaskBroker) (taskId : string) : TaskBroker := answer_runner b taskId RunnerDeferred.

Definition answer_requester (b : TaskBroker) (taskId : string) (a : RequesterAnswer) : TaskBroker :=
  if js_has (requesterAcceptRejects b) taskId then
    let b := settle_requester b taskId a in
    with_callbacks b (runnerAcceptRejects b) (js_del (requesterAcceptRejects b) taskId)
  else b.

Definition handleRequesterAccept (b : TaskBroker) (taskId : string) : TaskBroker := answer_requester b taskId SettingsReceived.
Definition handleRequesterReject (b : TaskBroker) (taskId reason : string) : TaskBroker :=
  answer_requester b taskId (RequesterRejected reason).

(** The timers of two seconds reject the promise; they leave the maps alone. *)
Definition runner_accept_timeout (b : TaskBroker) (taskId : string) : TaskBroker := settle_runner b taskId RunnerTimedOut.
Definition requester_accept_timeout (b : TaskBroker) (taskId : string) : TaskBroker := settle_requester b taskId RequesterTimedOut.

(** * Tasks *)

Definition cancelTask (b : TaskBroker) (taskId reason : string) : TaskBroker :=
  match jm_get (tasks b) taskId with
  | None => b
  | Some t => messageRunner (with_tasks b (jm_del (tasks b) taskId)) (t_runnerId t) (RunnerTaskCancel taskId reason)
  end.

Definition failTask (b : TaskBroker) (taskId : string) : TaskBroker :=
  match jm_get (tasks b) taskId with
  | None => b
  | Some t => messageRequester (with_tasks b (jm_del (tasks b) taskId)) (t_requesterId t) (TaskErrored taskId)
  end.

(** [taskErrorHandler] and [taskDoneHandler]: the requester is told, then the task
    is deleted. *)
Definition end_task (b : TaskBroker) (taskId : string) (m : ToRequester) : TaskBroker :=
  match jm_get (tasks b) taskId with
  | None => b
  | Some t => let b := messageRequester b (t_requesterId t) m in with_tasks b (jm_del (tasks b) taskId)
  end.
Definition taskErrorHandler (b : TaskBroker) (taskId : string) : TaskBroker := end_task b taskId (TaskErrored taskId).
Definition taskDoneHandler (b : TaskBroker) (taskId : string) : TaskBroker := end_task b taskId (TaskDone taskId).

Inductive BrokerError := CannotFindTask | CannotFindRunner.

(** The runner of a task; when the runner is gone the task fails. *)
Definition getRunnerOrFailTask (b : TaskBroker) (taskId : string) : TaskBroker * result BrokerError string :=
  match jm_get (tasks b) taskId with
  | None => (b, Err CannotFindTask)
  | Some t => if js_has (knownRunners b) (t_runnerId t) then (b, Ok (t_runnerId t)) else (failTask b taskId, Err CannotFindRunner)
  end.

Definition start_timer (t : Task) : Task := mkTask (t_runnerId t) (t_requesterId t) (t_taskType t) true.

Definition sendTaskSettings (b : TaskBroker) (taskId : string) : TaskBroker * result BrokerError unit :=
  if negb (jm_has (tasks b) taskId) then (b, Ok ()) else
  match getRunnerOrFailTask b taskId with
  | (b, Err e) => (b, Err e)
  | (b, Ok runner) =>
      let b := with_tasks b (jm_update (tasks b) taskId start_timer) in
      (messageRunner b runner (RunnerTaskSettings taskId), Ok ())
  end.

(** [handleRequesterRpcResponse], [handleRequesterDataResponse] and
    [handleRequesterNodeTypesResponse]: to the runner of the task. *)
Definition respond_to_runner (b : TaskBroker) (taskId : string) (m : ToRunner) : TaskBroker * result BrokerError unit :=
  if negb (jm_has (tasks b) taskId) then (b, Ok ()) else
  match getRunnerOrFailTask b taskId with
  | (b, Err e) => (b, Err e)
  | (b, Ok runner) => (messageRunner b runner m, Ok ())
  end.

(** [handleRpcRequest], [handleDataRequest] and [handleNodeTypesRequest]: to the
    requester of the task. *)
Definition ask_requester (b : TaskBroker) (taskId : string) (m : ToRequester) : TaskBroker :=
  match jm_get (tasks b) taskId with
  | None => b
  | Some t => messageRequester b (t_requesterId t) m
  end.

(** [handleResponse] sends to a runner named by the id of the requester. *)
Definition handleResponse (b : TaskBroker) (taskId requestId : string) : TaskBroker :=
  match jm_get (tasks b) taskId with
  | None => b
  | Some t => messageRunner b (t_requesterId t) (RunnerTaskDataResponse taskId requestId)
  end.

(** Whether the runners are processes of this instance (mode ['internal']): the
    process is killed by an event, otherwise the runner is told to cancel. *)
Definition handleTaskTimeout (internal : bool) (b : TaskBroker) (taskId : string) : TaskBroker :=
  match jm_get (tasks b) taskId with
  | None => b
  | Some t =>
      let b := if internal then b else messageRunner b (t_runnerId t) (RunnerTaskCancel taskId "Task execution timed out") in
      taskErrorHandler b taskId
  end.

(** * The rest of [acceptOffer] *)

Definition drop_accept (b : TaskBroker) (taskId : string) : TaskBroker := with_accepts b (jm_del (accepts b) taskId).

(** The runner has answered. *)
Definition after_runner (b : TaskBroker) (taskId : string) (p : Accept) (a : RunnerAnswer) : TaskBroker :=
  let r := ac_request p in
  match a with
  | RunnerRejected | RunnerTimedOut => drop_accept (update_request b r (set_in_progress false)) taskId
  | RunnerDeferred => drop_accept (update_request (update_request b r (set_in_progress false)) r (set_timeout true)) taskId
  | RunnerAccepted =>
      match jm_get (requests b) r with
      | None => b
      | Some q =>
          let b := update_request b r (set_timeout false) in
          let b := with_tasks b (jm_set (tasks b) taskId
            (mkTask (o_runnerId (ac_offer p)) (rq_requesterId q) (o_taskType (ac_offer p)) false)) in
          match request_index b (rq_requestId q) with
          | None => drop_accept b taskId
          | Some i =>
              let b := with_pending b (splice1 (pendingTaskRequests b) i) (mismatchWarned b) in
              let b := with_callbacks b (runnerAcceptRejects b) (js_add (requesterAcceptRejects b) taskId) in
              let b := messageRequester b (rq_requesterId q) (TaskReady (rq_requestId q) taskId) in
              with_accepts b (jm_set (accepts b) taskId (mkAccept (ac_offer p) r (AwaitRequester None)))
          end
      end
  end.

(** The requester has sent the settings, or has not. *)
Definition after_requester (b : TaskBroker) (taskId : string) (a : RequesterAnswer) : TaskBroker :=
  let b := drop_accept b taskId in
  match a with
  | SettingsReceived =>
      match sendTaskSettings b taskId with
      | (b, Ok _) => b
      | (b, Err _) => cancelTask b taskId "Unknown reason"
      end
  | RequesterRejected reason => cancelTask b taskId reason
  | RequesterTimedOut => cancelTask b taskId "Unknown reason"
  end.

(** * Peers *)

Definition registerRunner (b : TaskBroker) (runnerId : string) : TaskBroker :=
  messageRunner (with_peers b (js_add (knownRunners b) runnerId) (requesters b)) runnerId RunnerRegistered.

Definition fail_tasks_of (runnerId : string) (b : TaskBroker) (p : string * Task) : TaskBroker :=
  if bool_decide (t_runnerId p.2 = runnerId) then handleRunnerReject (failTask b p.1) p.1 else b.

Definition deregisterRunner (b : TaskBroker) (runnerId : string) : TaskBroker :=
  let b := with_peers b (js_del (knownRunners b) runnerId) (requesters b) in
  let b := with_offers b (filter (λ o, o_runnerId o ≠ runnerId) (pendingTaskOffers b)) in
  foldl (fail_tasks_of runnerId) b (tasks b).

Definition registerRequester (b : TaskBroker) (requesterId : string) : TaskBroker :=
  with_peers b (knownRunners b) (js_add (requesters b) requesterId).
Definition deregisterRequester (b : TaskBroker) (requesterId : string) : TaskBroker :=
  with_peers b (knownRunners b) (js_del (requesters b) requesterId).

Definition startDraining (b : TaskBroker) : TaskBroker := with_draining b true.
Definition hasActiveTasks (b : TaskBroker) : bool := negb (bool_decide (tasks b = [])).

(** * Messages received *)

Inductive RunnerMessage :=
| RmTaskAccepted (taskId : string)
| RmTaskRejected (taskId : string)
| RmTaskDeferred (taskId : string)
| RmTaskOffer (offerId taskType : string) (validFor : Z)
| RmTaskDone (taskId : string)
| RmTaskError (taskId : string)
| RmTaskDataRequest (taskId requestId : string)
| RmNodeTypesRequest (taskId requestId : string)
| RmRpc (taskId callId : string)
| RmInfo.

Definition onRunnerMessage (b : TaskBroker) (runnerId : string) (m : RunnerMessage) (now : Z) (ids : list string) : TaskBroker :=
  if negb (js_has (knownRunners b) runnerId) then b else
  match m with
  | RmTaskAccepted taskId => handleRunnerAccept b taskId
  | RmTaskRejected taskId => handleRunnerReject b taskId
  | RmTaskDeferred taskId => handleRunnerDeferred b taskId
  | RmTaskOffer offerId taskType validFor =>
      taskOffered b (mkOffer offerId runnerId taskType validFor
        (if bool_decide (validFor = -1)%Z then 0 else now + validFor * 1000000)) now ids
  | RmTaskDone taskId => taskDoneHandler b taskId
  | RmTaskError taskId => taskErrorHandler b taskId
  | RmTaskDataRequest taskId requestId => ask_requester b taskId (RequesterTaskDataRequest taskId requestId)
  | RmNodeTypesRequest taskId requestId => ask_requester b taskId (RequesterNodeTypesRequest taskId requestId)
  | RmRpc taskId callId => ask_requester b taskId (RequesterRpc taskId callId)
  | RmInfo => b
  end.

Inductive RequesterMessage :=
| QmTaskSettings (taskId : string)
| QmTaskCancel (taskId reason : string)
| QmTaskRequest (requestId taskType : string)
| QmTaskDataResponse (taskId requestId : string)
| QmNodeTypesResponse (taskId requestId : string)
| QmRpcResponse (taskId callId : string) (success : bool).

(** [r] names the object of a new request. *)
Definition onRequesterMessage (b : TaskBroker) (requesterId : string) (m : RequesterMessage) (r : nat) (now : Z)
    (ids : list string) : TaskBroker :=
  match m with
  | QmTaskSettings taskId => handleRequesterAccept b taskId
  | QmTaskCancel taskId reason => cancelTask b taskId reason
  | QmTaskRequest requestId taskType =>
      taskRequested b r (mkTaskRequest requestId requesterId taskType true false) now ids
  | QmTaskDataResponse taskId requestId => (respond_to_runner b taskId (RunnerTaskDataResponse taskId requestId)).1
  | QmNodeTypesResponse taskId requestId => (respond_to_runner b taskId (RunnerNodeTypes taskId requestId)).1
  | QmRpcResponse taskId callId success => (respond_to_runner b taskId (RunnerRpcResponse taskId callId success)).1
  end.

(** * Events *)

Inductive BrokerEvent :=
| ERunnerMessage (runnerId : string) (m : RunnerMessage) (now : Z) (ids : list string)
| ERequesterMessage (requesterId : string) (m : RequesterMessage) (r : nat) (now : Z) (ids : list string)
| ERegisterRunner (runnerId : string)
| EDeregisterRunner (runnerId : string)
| ERegisterRequester (requesterId : string)
| EDeregisterRequester (requesterId : string)
| EContinue (taskId : string)
| ERunnerAcceptTimeout (taskId : string)
| ERequesterAcceptTimeout (taskId : string)
| ERequestTimeout (r : nat)
| ETaskTimeout (taskId : string)
| EStartDraining.

(** A task id is new when no part of the broker uses it. *)
Definition fresh_id (b : TaskBroker) (taskId : string) : Prop :=
  jm_get (tasks b) taskId = None ∧ jm_get (accepts b) taskId = None ∧
  taskId ∉ runnerAcceptRejects b ∧ taskId ∉ requesterAcceptRejects b.
#[export] Instance fresh_id_dec b taskId : Decision (fresh_id b taskId).
Proof. apply _. Defined.

(** The ids drawn are new, distinct and enough. *)
Definition fresh_ids (b : TaskBroker) (ids : list string) : Prop :=
  NoDup ids ∧ Forall (fresh_id b) ids ∧ S (length (pendingTaskRequests b)) ≤ length ids.
#[export] Instance fresh_ids_dec b ids : Decision (fresh_ids b ids).
Proof. apply _. Defined.

(** Requesters draw the ids of their requests, which are new. *)
Definition new_request (b : TaskBroker) (r : nat) (m : RequesterMessage) : Prop :=
  jm_get (requests b) r = None ∧
  match m with
  | QmTaskRequest requestId _ => Forall (λ p, rq_requestId p.2 ≠ requestId) (requests b)
  | _ => True
  end.
#[export] Instance new_request_dec b r m : Decision (new_request b r m).
Proof. unfold new_request. destruct m; apply _. Defined.

(** [None]: the event cannot happen in this state. *)
Definition broker_next (internal : bool) (b : TaskBroker) (e : BrokerEvent) : option TaskBroker :=
  match e with
  | ERunnerMessage runnerId m now ids =>
      if bool_decide (fresh_ids b ids) then Some (onRunnerMessage b runnerId m now ids) else None
  | ERequesterMessage requesterId m r now ids =>
      if bool_decide (fresh_ids b ids ∧ new_request b r m) then Some (onRequesterMessage b requesterId m r now ids) else None
  | ERegisterRunner runnerId => Some (registerRunner b runnerId)
  | EDeregisterRunner runnerId => Some (deregisterRunner b runnerId)
  | ERegisterRequester requesterId => Some (registerRequester b requesterId)
  | EDeregisterRequester requesterId => Some (deregisterRequester b requesterId)
  | EContinue taskId =>
      p ← jm_get (accepts b) taskId;
      match ac_phase p with
      | AwaitRunner (Some a) => Some (after_runner b taskId p a)
      | AwaitRequester (Some a) => Some (after_requester b taskId a)
      | _ => None
      end
  | ERunnerAcceptTimeout taskId => Some (runner_accept_timeout b taskId)
  | ERequesterAcceptTimeout taskId => Some (requester_accept_timeout b taskId)
  | ERequestTimeout r =>
      q ← jm_get (requests b) r;
      if rq_timeout q then Some (handleRequestTimeout (update_request b r (set_timeout false)) (rq_requestId q)) else None
  | ETaskTimeout taskId =>
      t ← jm_get (tasks b) taskId; if t_timeout t then Some (handleTaskTimeout internal b taskId) else None
  | EStartDraining => Some (startDraining b)
  end.

Fixpoint broker_run (internal : bool) (b : TaskBroker) (es : list BrokerEvent) : option TaskBroker :=
  match es with [] => Some b | e :: es => b' ← broker_next internal b e; broker_run internal b' es end.
