(* ===== verification/TaskBrokerProofs.v ===== *)
(** TaskBrokerProofs: requests and offers are matched correctly, and no request is
    left behind by an [acceptOffer]. *)

From stdpp Require Import prelude list strings relations.
From Stdlib Require Import ZArith Lia.
From S2P Require Import Prelude TaskBroker.
Local Open Scope nat_scope.

(** * Bookkeeping of requests and processes *)

(** The process [t] waits for the answer of a runner about the request [r]. *)
Definition asks_for (b : TaskBroker) (t : string) (r : nat) : Prop :=
  ∃ p a, jm_get (accepts b) t = Some p ∧ ac_phase p = AwaitRunner a ∧ ac_request p = r.

Definition in_progress (b : TaskBroker) (r : nat) : Prop :=
  ∃ q, jm_get (requests b) r = Some q ∧ rq_acceptInProgress q = true.

Record broker_inv (b : TaskBroker) : Prop := {
  tb_progress : ∀ t r, asks_for b t r → in_progress b r;
  tb_unique : ∀ t t' r, asks_for b t r → asks_for b t' r → t = t';
  tb_pending : ∀ r, r ∈ pendingTaskRequests b → is_Some (jm_get (requests b) r);
  tb_asked : ∀ r, r ∈ pendingTaskRequests b → in_progress b r → ∃ t, asks_for b t r;
  tb_nodup : NoDup (pendingTaskRequests b);
  tb_ids : ∀ r r' q q', jm_get (requests b) r = Some q → jm_get (requests b) r' = Some q' →
    rq_requestId q = rq_requestId q' → r = r';
}.

Lemma broker_inv_new : broker_inv new_broker.
Proof.
  split; try (intros; set_solver).
  - intros t r (p & a & Hp & _). done.
  - intros t t' r (p & a & Hp & _). done.
  - constructor.
Qed.

(** The invariant reads the processes, the store and the pending list only. *)
Lemma broker_inv_ext b b' :
  accepts b' = accepts b → requests b' = requests b → pendingTaskRequests b' = pendingTaskRequests b →
  broker_inv b → broker_inv b'.
Proof.
  intros Ha Hr Hp [H1 H2 H3 H4 H5 H6]. unfold asks_for, in_progress in *.
  split; unfold asks_for, in_progress; rewrite ?Ha, ?Hr, ?Hp; done.
Qed.

(** Updates of a request that keep its id and its progress. *)
Lemma requests_update b r f r' :
  jm_get (requests (update_request b r f)) r' = if decide (r = r') then f <$> jm_get (requests b) r' else jm_get (requests b) r'.
Proof. apply jm_get_update. Qed.

Lemma update_id b r f r' q' :
  (∀ q, rq_requestId (f q) = rq_requestId q) → jm_get (requests (update_request b r f)) r' = Some q' →
  ∃ q, jm_get (requests b) r' = Some q ∧ rq_requestId q' = rq_requestId q.
Proof.
  intros Hf. rewrite requests_update. case_decide; [|by eauto].
  destruct (jm_get (requests b) r') as [q|]; [|done]. intros [= <-]. eauto.
Qed.

Lemma update_same_progress b r on r' : in_progress (update_request b r (set_timeout on)) r' ↔ in_progress b r'.
Proof.
  unfold in_progress. setoid_rewrite requests_update. case_decide; [|done].
  destruct (jm_get (requests b) r') as [q|]; cbn; naive_solver.
Qed.

Lemma update_timeout_inv b r on : broker_inv b → broker_inv (update_request b r (set_timeout on)).
Proof.
  intros [H1 H2 H3 H4 H5 H6]. split.
  - intros t r' Ha. apply update_same_progress. by eapply H1.
  - exact H2.
  - intros r' Hr. rewrite requests_update. apply H3 in Hr. case_decide; [by apply fmap_is_Some|done].
  - intros r' Hr Hin%update_same_progress. by apply H4.
  - exact H5.
  - intros r1 r2 q1 q2 Hq1 Hq2 He.
    apply update_id in Hq1 as (q1' & Hq1 & He1); [|done]. apply update_id in Hq2 as (q2' & Hq2 & He2); [|done].
    eapply H6; [done..|congruence].
Qed.

(** Fewer pending requests. *)
Lemma pending_shrink_inv b l w :
  l `sublist_of` pendingTaskRequests b → broker_inv b → broker_inv (with_pending b l w).
Proof.
  intros Hl [H1 H2 H3 H4 H5 H6].
  assert (∀ r, r ∈ l → r ∈ pendingTaskRequests b) as Hs by (intros r Hr; by eapply elem_of_submseteq, sublist_submseteq).
  split; try done.
  - intros r Hr. by apply H3, Hs.
  - intros r Hr. by apply H4, Hs.
  - by eapply sublist_NoDup.
Qed.

(** A process that does not ask any more. *)
Lemma asks_del b t t' r : asks_for (drop_accept b t) t' r ↔ t' ≠ t ∧ asks_for b t' r.
Proof.
  unfold asks_for, drop_accept. cbn. destruct (decide (t = t')) as [->|Hne].
  - rewrite jm_get_del. naive_solver.
  - rewrite jm_get_del_ne by done. naive_solver.
Qed.

Lemma asks_set b t p t' r :
  asks_for (with_accepts b (jm_set (accepts b) t p)) t' r ↔
    (t' = t ∧ (∃ a, ac_phase p = AwaitRunner a) ∧ ac_request p = r) ∨ (t' ≠ t ∧ asks_for b t' r).
Proof.
  unfold asks_for. cbn. destruct (decide (t = t')) as [->|Hne].
  - rewrite jm_get_set. naive_solver.
  - rewrite jm_get_set_ne by done. naive_solver.
Qed.

(** A process changes its answer only. *)
Lemma settle_runner_inv b t a : broker_inv b → broker_inv (settle_runner b t a).
Proof.
  intros Hb. unfold settle_runner. destruct (jm_get (accepts b) t) as [p|] eqn:Hp; [|done].
  destruct (ac_phase p) as [[]|] eqn:Hph; try done.
  assert (asks_for b t (ac_request p)) as Ht by (exists p, None; done).
  assert (∀ t' r, asks_for (with_accepts b (jm_set (accepts b) t (mkAccept (ac_offer p) (ac_request p) (AwaitRunner (Some a))))) t' r ↔ asks_for b t' r) as He.
  { intros t' r. rewrite asks_set. cbn. split; [intros [(-> & _ & <-)|[_ ?]]; done|].
    intros Hr. destruct (decide (t' = t)) as [->|]; [left|by right]. split; [done|split; [eauto|]].
    destruct Hr as (p' & a' & Hp' & _ & <-). congruence. }
  destruct Hb as [H1 H2 H3 H4 H5 H6]. split; try done.
  - intros t' r Hr%He. by eapply H1.
  - intros t1 t2 r Hr1%He Hr2%He. by eapply H2.
  - intros r Hr Hin. destruct (H4 r Hr Hin) as [t' Ht']. exists t'. by apply He.
Qed.

Lemma settle_requester_inv b t a : broker_inv b → broker_inv (settle_requester b t a).
Proof.
  intros Hb. unfold settle_requester. destruct (jm_get (accepts b) t) as [p|] eqn:Hp; [|done].
  destruct (ac_phase p) as [|[]] eqn:Hph; try done.
  assert (∀ t' r, asks_for (with_accepts b (jm_set (accepts b) t (mkAccept (ac_offer p) (ac_request p) (AwaitRequester (Some a))))) t' r ↔ asks_for b t' r) as He.
  { intros t' r. rewrite asks_set. cbn. split; [intros [(_ & [? ?] & _)|[_ ?]]; done|].
    intros Hr. right. split; [|done]. intros ->. destruct Hr as (p' & a' & Hp' & Hph' & _). congruence. }
  destruct Hb as [H1 H2 H3 H4 H5 H6]. split; try done.
  - intros t' r Hr%He. by eapply H1.
  - intros t1 t2 r Hr1%He Hr2%He. by eapply H2.
  - intros r Hr Hin. destruct (H4 r Hr Hin) as [t' Ht']. exists t'. by apply He.
Qed.

(** * Operations that do not touch requests and processes *)

Record same_books (b b' : TaskBroker) : Prop := {
  sb_accepts : accepts b' = accepts b;
  sb_requests : requests b' = requests b;
  sb_pending : pendingTaskRequests b' = pendingTaskRequests b;
}.

#[export] Instance same_books_preorder : PreOrder same_books.
Proof. split; [by split|]. intros b1 b2 b3 [? ? ?] [? ? ?]. split; by etransitivity. Qed.

Lemma same_books_inv b b' : same_books b b' → broker_inv b → broker_inv b'.
Proof. intros [? ? ?]. by apply broker_inv_ext. Qed.

Lemma messageRunner_books b r m : same_books b (messageRunner b r m).
Proof. unfold messageRunner. by case_match. Qed.
Lemma messageRequester_books b r m : same_books b (messageRequester b r m).
Proof. unfold messageRequester. by case_match. Qed.

Lemma failTask_books b t : same_books b (failTask b t).
Proof.
  unfold failTask. case_match; [|done]. etransitivity; [|apply messageRequester_books]. done.
Qed.
Lemma cancelTask_books b t r : same_books b (cancelTask b t r).
Proof.
  unfold cancelTask. case_match; [|done]. etransitivity; [|apply messageRunner_books]. done.
Qed.
Lemma end_task_books b t m : same_books b (end_task b t m).
Proof.
  unfold end_task. case_match; [|done].
  etransitivity; [apply messageRequester_books|]. done.
Qed.
Lemma getRunnerOrFailTask_books b t : same_books b (getRunnerOrFailTask b t).1.
Proof. unfold getRunnerOrFailTask. repeat case_match; cbn; [done|apply failTask_books|done]. Qed.

Lemma sendTaskSettings_books b t : same_books b (sendTaskSettings b t).1.
Proof.
  unfold sendTaskSettings. case_match; [done|]. pose proof (getRunnerOrFailTask_books b t) as Hg.
  destruct (getRunnerOrFailTask b t) as [b' [r|e]]; [|done]. cbn in *.
  etransitivity; [exact Hg|]. etransitivity; [|apply messageRunner_books]. done.
Qed.
Lemma respond_to_runner_books b t m : same_books b (respond_to_runner b t m).1.
Proof.
  unfold respond_to_runner. case_match; [done|]. pose proof (getRunnerOrFailTask_books b t) as Hg.
  destruct (getRunnerOrFailTask b t) as [b' [r|e]]; [|done]. cbn in *.
  etransitivity; [exact Hg|]. apply messageRunner_books.
Qed.
Lemma ask_requester_books b t m : same_books b (ask_requester b t m).
Proof. unfold ask_requester. case_match; [apply messageRequester_books|done]. Qed.

Lemma handleTaskTimeout_books internal b t : same_books b (handleTaskTimeout internal b t).
Proof.
  unfold handleTaskTimeout. case_match; [|done]. destruct internal; [apply end_task_books|].
  etransitivity; [apply messageRunner_books|apply end_task_books].
Qed.

Lemma answer_runner_inv b t a : broker_inv b → broker_inv (answer_runner b t a).
Proof.
  intros Hb. unfold answer_runner. case_match; [|done].
  eapply same_books_inv; [|by apply (settle_runner_inv b t a)]. done.
Qed.
Lemma answer_requester_inv b t a : broker_inv b → broker_inv (answer_requester b t a).
Proof.
  intros Hb. unfold answer_requester. case_match; [|done].
  eapply same_books_inv; [|by apply (settle_requester_inv b t a)]. done.
Qed.

Lemma fail_tasks_inv runnerId l b : broker_inv b → broker_inv (foldl (fail_tasks_of runnerId) b l).
Proof.
  revert b; induction l as [|p l IH]; intros b Hb; [done|]. cbn. apply IH. unfold fail_tasks_of.
  case_bool_decide; [|done]. apply answer_runner_inv. by eapply same_books_inv, Hb; apply failTask_books.
Qed.

(** * Matching *)

Lemma in_progress_set b r p r' :
  in_progress (update_request b r (set_in_progress p)) r' ↔
    if decide (r = r') then p = true ∧ is_Some (jm_get (requests b) r') else in_progress b r'.
Proof.
  unfold in_progress. setoid_rewrite requests_update. case_decide; [|done].
  destruct (jm_get (requests b) r') as [q|]; cbn; split; naive_solver.
Qed.

(** A request gets a new process. *)
Lemma start_accept_inv b r q t o :
  broker_inv b → jm_get (requests b) r = Some q → rq_acceptInProgress q = false → jm_get (accepts b) t = None →
  broker_inv (with_accepts (update_request b r (set_in_progress true)) (jm_set (accepts b) t (mkAccept o r (AwaitRunner None)))).
Proof.
  intros [H1 H2 H3 H4 H5 H6] Hq Hf Hn.
  set (b1 := update_request b r (set_in_progress true)).
  assert (∀ t' r', asks_for (with_accepts b1 (jm_set (accepts b) t (mkAccept o r (AwaitRunner None)))) t' r' ↔
    (t' = t ∧ r' = r) ∨ (t' ≠ t ∧ asks_for b t' r')) as He.
  { intros t' r'. change (accepts b) with (accepts b1). rewrite asks_set. cbn. naive_solver. }
  assert (∀ t', ¬ asks_for b t' r) as Hno by (intros t' (q' & Hq' & ?)%H1; congruence).
  split.
  - intros t' r' [[-> ->]|[_ Ha]]%He; unfold in_progress; cbn; rewrite jm_get_update.
    + rewrite decide_True, Hq by done. cbn. eauto.
    + rewrite decide_False by (intros ->; by apply (Hno t')). by apply H1 in Ha.
  - intros t1 t2 r' [[-> ->]|[? Ha1]]%He [[-> Hr]|[? Ha2]]%He; try done; subst; [by exfalso; eapply Hno|by exfalso; eapply Hno|].
    by eapply H2.
  - intros r' Hr'. cbn. rewrite jm_get_update. apply H3 in Hr'. case_decide; [by apply fmap_is_Some|done].
  - intros r' Hr' Hin. destruct (decide (r' = r)) as [->|Hne]; [exists t; apply He; by left|].
    apply in_progress_set in Hin. rewrite decide_False in Hin by done.
    destruct (H4 r' Hr' Hin) as [t' Ht']. exists t'. apply He. right. split; [|done].
    intros ->. destruct Ht' as (p & a & Hp & _). congruence.
  - exact H5.
  - intros r1 r2 q1 q2 Hq1 Hq2 Hid. cbn in Hq1, Hq2.
    apply update_id in Hq1 as (? & ? & ?); [|done]. apply update_id in Hq2 as (? & ? & ?); [|done].
    eapply H6; [done..|congruence].
Qed.

Definition new_ids (b : TaskBroker) (ids : list string) : Prop := NoDup ids ∧ Forall (λ t, jm_get (accepts b) t = None) ids.

Lemma start_accept_books b t o r :
  accepts (start_accept b t o r) = jm_set (accepts b) t (mkAccept o r (AwaitRunner None)) ∧
  requests (start_accept b t o r) = requests b ∧ pendingTaskRequests (start_accept b t o r) = pendingTaskRequests b.
Proof. unfold start_accept, messageRunner. by case_match. Qed.

Lemma settle_one_inv b ids r :
  broker_inv b → new_ids b ids →
  let '(b', ids') := settle_one (b, ids) r in
  broker_inv b' ∧ new_ids b' ids' ∧ pendingTaskRequests b' = pendingTaskRequests b.
Proof.
  intros Hb Hids. unfold settle_one. destruct (jm_get (requests b) r) as [q|] eqn:Hq; [|done].
  destruct (rq_acceptInProgress q) eqn:Hf; [done|].
  destruct (find_index _ _) as [i|].
  - destruct (pendingTaskOffers b !! i) as [o|]; [|done]. destruct ids as [|t ids]; [done|].
    destruct Hids as [[Ht Hnd]%NoDup_cons [Hn Hids]%Forall_cons].
    pose proof (start_accept_inv b r q t o Hb Hq Hf Hn) as Hb'.
    set (b2 := with_pending _ _ _).
    destruct (start_accept_books b2 t o r) as (Ha & Hr & Hp).
    split; [|split].
    + eapply broker_inv_ext; [| | |exact Hb']; [by rewrite Ha|by rewrite Hr|by rewrite Hp].
    + split; [done|]. rewrite Ha. apply Forall_forall. intros t' Ht'.
      rewrite jm_get_set_ne by (intros ->; done). by eapply Forall_forall in Hids.
    + by rewrite Hp.
  - unfold warnOnTaskTypeMismatch. case_bool_decide; [done|]. split; [|done].
    by eapply broker_inv_ext, Hb.
Qed.

Lemma settle_all_inv l b ids :
  broker_inv b → new_ids b ids → broker_inv (foldl settle_one (b, ids) l).1.
Proof.
  revert b ids; induction l as [|r l IH]; intros b ids Hb Hids; [done|]. cbn [foldl].
  pose proof (settle_one_inv b ids r Hb Hids) as Hs. destruct (settle_one (b, ids) r) as [b' ids'].
  destruct Hs as (? & ? & _). by apply IH.
Qed.

Lemma settleTasks_inv b now ids : broker_inv b → new_ids b ids → broker_inv (settleTasks b now ids).
Proof. intros Hb Hids. unfold settleTasks. apply settle_all_inv; [|done]. by eapply same_books_inv, Hb. Qed.

(** * Continuations of [acceptOffer] *)

Lemma request_index_spec b r q :
  broker_inv b → jm_get (requests b) r = Some q →
  match request_index b (rq_requestId q) with
  | Some i => pendingTaskRequests b !! i = Some r
  | None => r ∉ pendingTaskRequests b
  end.
Proof.
  intros Hb Hq. unfold request_index.
  destruct (find_index _ _) as [i|] eqn:Hi.
  - apply find_index_Some in Hi as (r' & Hr' & Hp & _). rewrite Hr'. f_equal.
    destruct (jm_get (requests b) r') as [q'|] eqn:Hq'; [|done]. apply bool_decide_unpack in Hp.
    by eapply tb_ids.
  - intros Hr. apply find_index_None in Hi. eapply Forall_forall in Hi; [|exact Hr]. apply Hi.
    rewrite Hq. by apply bool_decide_pack.
Qed.

(** A process ends and its request, if still pending, is free again. *)
Lemma drop_free_inv b t r :
  broker_inv b → asks_for b t r → broker_inv (drop_accept (update_request b r (set_in_progress false)) t).
Proof.
  intros [H1 H2 H3 H4 H5 H6] Ht.
  assert (∀ t' r', asks_for (drop_accept (update_request b r (set_in_progress false)) t) t' r' → t' ≠ t ∧ asks_for b t' r') as He.
  { intros t' r'. by rewrite asks_del. }
  split.
  - intros t' r' [Hne Ha]%He. apply in_progress_set. case_decide; [|by apply H1 in Ha].
    subst. by specialize (H2 _ _ _ Ha Ht).
  - intros t1 t2 r' [? Ha1]%He [? Ha2]%He. by eapply H2.
  - intros r' Hr'. cbn. rewrite jm_get_update. apply H3 in Hr'. case_decide; [by apply fmap_is_Some|done].
  - intros r' Hr' Hin. apply in_progress_set in Hin. case_decide; [by destruct Hin|].
    destruct (H4 r' Hr' Hin) as [t' Ht']. exists t'. apply asks_del. split; [|done].
    intros ->. destruct Ht as (p & ? & Hp & ? & <-), Ht' as (p' & ? & Hp' & ? & <-). congruence.
  - exact H5.
  - intros r1 r2 q1 q2 Hq1 Hq2 Hid. cbn in Hq1, Hq2.
    apply update_id in Hq1 as (? & ? & ?); [|done]. apply update_id in Hq2 as (? & ? & ?); [|done].
    eapply H6; [done..|congruence].
Qed.

(** A process whose request has left the pending list stops asking. *)
Lemma gone_inv b t r (acc : jmap string Accept) b' :
  broker_inv b → asks_for b t r → r ∉ pendingTaskRequests b →
  requests b' = requests b → pendingTaskRequests b' = pendingTaskRequests b →
  (∀ t' r', asks_for b' t' r' ↔ t' ≠ t ∧ asks_for b t' r') → broker_inv b'.
Proof.
  intros [H1 H2 H3 H4 H5 H6] Ht Hr Er Ep He. split; unfold in_progress; rewrite ?Er, ?Ep; try done.
  - intros t' r' [? Ha]%He. by eapply H1.
  - intros t1 t2 r' [? Ha1]%He [? Ha2]%He. by eapply H2.
  - intros r' Hr' Hin. destruct (H4 r' Hr' Hin) as [t' Ht']. exists t'. apply He. split; [|done].
    intros ->. destruct Ht as (p & ? & Hp & ? & <-), Ht' as (p' & ? & Hp' & ? & <-). congruence.
Qed.

Lemma messageRequester_fields b r m :
  accepts (messageRequester b r m) = accepts b ∧ requests (messageRequester b r m) = requests b ∧
  pendingTaskRequests (messageRequester b r m) = pendingTaskRequests b.
Proof. by destruct (messageRequester_books b r m). Qed.

(** When the runner accepts, the request leaves the pending list; otherwise it is
    free again. *)
Lemma after_runner_inv b t p a :
  broker_inv b → jm_get (accepts b) t = Some p → ac_phase p = AwaitRunner (Some a) →
  broker_inv (after_runner b t p a) ∧
  (ac_request p ∈ pendingTaskRequests (after_runner b t p a) → ¬ in_progress (after_runner b t p a) (ac_request p)).
Proof.
  intros Hb Hp Hph. set (r := ac_request p).
  assert (asks_for b t r) as Ht by (exists p, (Some a); done).
  assert (broker_inv (drop_accept (update_request b r (set_in_progress false)) t)) as Hfree by (by apply drop_free_inv).
  assert (¬ in_progress (drop_accept (update_request b r (set_in_progress false)) t) r) as Hnot.
  { intros Hin. apply in_progress_set in Hin. rewrite decide_True in Hin by done. by destruct Hin. }
  unfold after_runner. fold r. cbv zeta. destruct a; [|by split| |by split].
  2: { set (b0 := drop_accept (update_request b r (set_in_progress false)) t) in *.
    change (drop_accept _ t) with (update_request b0 r (set_timeout true)).
    split; [by apply update_timeout_inv|]. intros _ Hin. by apply Hnot, (update_same_progress b0 r true). }
  destruct (tb_progress _ Hb _ _ Ht) as (q & Hq & _). rewrite Hq.
  set (b1 := with_tasks _ _).
  assert (broker_inv b1) as Hb1 by (by eapply same_books_inv, (update_timeout_inv b r false)).
  assert (jm_get (requests b1) r = Some (set_timeout false q)) as Hq1.
  { cbn. rewrite jm_get_update, decide_True, Hq by done. done. }
  assert (asks_for b1 t r) as Ht1 by done.
  pose proof (request_index_spec b1 r _ Hb1 Hq1) as Hi. cbn [rq_requestId set_timeout] in Hi.
  destruct (request_index b1 (rq_requestId q)) as [i|].
  - pose proof (splice1_not_in _ _ _ (tb_nodup _ Hb1) Hi) as Hni.
    pose proof (pending_shrink_inv b1 _ (mismatchWarned b1) (splice1_sublist (pendingTaskRequests b1) i) Hb1) as Hb2.
    set (b2 := with_pending b1 _ _) in *.
    set (b3 := messageRequester _ _ _).
    destruct (messageRequester_fields (with_callbacks b2 (runnerAcceptRejects b2) (js_add (requesterAcceptRejects b2) t))
      (rq_requesterId q) (TaskReady (rq_requestId q) t)) as (Ea & Er & Ep). fold b3 in Ea, Er, Ep.
    split; [|intros Hin; exfalso; apply Hni; change (r ∈ pendingTaskRequests b3) in Hin; by rewrite Ep in Hin].
    eapply (gone_inv b2 t r (accepts b3)); [done|done|done|done|done|].
    intros t' r'. unfold asks_for. cbn. rewrite Ea. cbn. destruct (decide (t = t')) as [->|Hne].
    + rewrite jm_get_set. naive_solver.
    + rewrite jm_get_set_ne by done. naive_solver.
  - split; [|done]. eapply (gone_inv b1 t r (accepts b1)); [done|done|done|done|done|]. intros t' r'. by rewrite asks_del.
Qed.

Lemma after_requester_inv b t a :
  broker_inv b → (∃ p a', jm_get (accepts b) t = Some p ∧ ac_phase p = AwaitRequester a') → broker_inv (after_requester b t a).
Proof.
  intros Hb (p & a' & Hp & Hph). unfold after_requester.
  assert (broker_inv (drop_accept b t)) as Hd.
  { assert (∀ t' r', asks_for (drop_accept b t) t' r' ↔ asks_for b t' r') as He.
    { intros t' r'. rewrite asks_del. split; [naive_solver|]. intros Ha. split; [|done].
      intros ->. destruct Ha as (p' & ? & Hp' & ? & _). congruence. }
    destruct Hb as [H1 H2 H3 H4 H5 H6]. split; try done.
    - intros t' r Hr%He. by eapply H1.
    - intros t1 t2 r Hr1%He Hr2%He. by eapply H2.
    - intros r Hr Hin. destruct (H4 r Hr Hin) as [t' Ht']. exists t'. by apply He. }
  destruct a; [|by eapply same_books_inv, Hd; apply cancelTask_books..].
  pose proof (sendTaskSettings_books (drop_accept b t) t) as Hs.
  destruct (sendTaskSettings (drop_accept b t) t) as [b' [u|e]]; cbn in Hs; [by eapply same_books_inv|].
  eapply same_books_inv; [apply cancelTask_books|]. by eapply same_books_inv.
Qed.

Lemma fresh_new b ids : fresh_ids b ids → new_ids b ids.
Proof. intros (Hn & Hf & _). split; [done|]. eapply Forall_impl; [exact Hf|]. by intros t (_ & ? & _). Qed.

Lemma new_request_inv b r q :
  broker_inv b → jm_get (requests b) r = None → Forall (λ p, rq_requestId p.2 ≠ rq_requestId q) (requests b) →
  broker_inv (with_requests b (jm_set (requests b) r q)).
Proof.
  intros [H1 H2 H3 H4 H5 H6] Hr Hid.
  assert (∀ r', r' ≠ r → jm_get (jm_set (requests b) r q) r' = jm_get (requests b) r') as Hne.
  { intros r' ?. by rewrite jm_get_set_ne. }
  assert (∀ r', in_progress b r' → r' ≠ r) as Hpr by (intros r' (? & ? & _) ->; congruence).
  assert (∀ r', is_Some (jm_get (requests b) r') → r' ≠ r) as Hsr by (intros r' [? ?] ->; congruence).
  split; try done.
  - intros t r' Ha. pose proof (H1 _ _ Ha) as Hp. unfold in_progress; cbn. rewrite Hne by (by apply Hpr). done.
  - intros r' Hr'. cbn. rewrite Hne by (by apply Hsr, H3). by apply H3.
  - intros r' Hr' Hin. unfold in_progress in Hin; cbn in Hin. rewrite Hne in Hin by (by apply Hsr, H3). by apply H4.
  - intros r1 r2 q1 q2 Hq1 Hq2 He. cbn in Hq1, Hq2.
    assert (∀ r' q', jm_get (requests b) r' = Some q' → rq_requestId q' ≠ rq_requestId q) as Hd.
    { intros r' q' Hq'. apply (proj1 (Forall_forall _ _) Hid (r', q')). by apply jm_get_Some_elem. }
    destruct (decide (r1 = r)) as [->|Hr1], (decide (r2 = r)) as [->|Hr2]; [done| | |].
    + rewrite jm_get_set in Hq1. rewrite Hne in Hq2 by done. simplify_eq. by destruct (Hd _ _ Hq2).
    + rewrite jm_get_set in Hq2. rewrite Hne in Hq1 by done. simplify_eq. by destruct (Hd _ _ Hq1).
    + rewrite !Hne in * by done. by eapply H6.
Qed.

Lemma handleRequestTimeout_inv b id : broker_inv b → broker_inv (handleRequestTimeout b id).
Proof.
  intros Hb. unfold handleRequestTimeout. destruct (request_index b id) as [i|]; [|done].
  destruct (_ ≫= _) as [[r q]|]; [|done].
  eapply same_books_inv; [apply messageRequester_books|].
  apply (update_timeout_inv (with_pending _ _ _)). apply pending_shrink_inv, Hb. apply splice1_sublist.
Qed.

(** * Every event keeps the books *)

Lemma taskRequested_inv b r q now ids :
  broker_inv b → new_ids b ids → jm_get (requests b) r = None →
  Forall (λ p, rq_requestId p.2 ≠ rq_requestId q) (requests b) → rq_acceptInProgress q = false →
  broker_inv (taskRequested b r q now ids).
Proof.
  intros Hb Hids Hr Hid Hf. unfold taskRequested. destruct (isDraining b).
  - eapply same_books_inv; [apply messageRequester_books|]. by apply new_request_inv.
  - apply settleTasks_inv; [|done].
    pose proof (new_request_inv b r q Hb Hr Hid) as [H1 H2 H3 H4 H5 H6].
    assert (r ∉ pendingTaskRequests b) as Hn by (intros Hin%(tb_pending _ Hb); destruct Hin; congruence).
    split; try done; cbn.
    + intros r' [Hr'|Hr']%elem_of_app; [by apply H3|]. apply list_elem_of_singleton in Hr' as ->. by rewrite jm_get_set.
    + intros r' [Hr'|Hr']%elem_of_app Hin; [by apply H4|]. apply list_elem_of_singleton in Hr' as ->.
      destruct Hin as (q' & Hq' & ?). cbn in Hq'. rewrite jm_get_set in Hq'. congruence.
    + apply NoDup_app. split; [done|split; [|apply NoDup_singleton]]. set_solver.
Qed.

Lemma onRunnerMessage_inv b runnerId m now ids :
  broker_inv b → new_ids b ids → broker_inv (onRunnerMessage b runnerId m now ids).
Proof.
  intros Hb Hids. unfold onRunnerMessage. case_match; [done|].
  destruct m; try (by apply answer_runner_inv); try done.
  - apply settleTasks_inv; [|done]. by eapply same_books_inv, Hb.
  - eapply same_books_inv, Hb; apply end_task_books.
  - eapply same_books_inv, Hb; apply end_task_books.
  - eapply same_books_inv, Hb; apply ask_requester_books.
  - eapply same_books_inv, Hb; apply ask_requester_books.
  - eapply same_books_inv, Hb; apply ask_requester_books.
Qed.

Lemma onRequesterMessage_inv b requesterId m r now ids :
  broker_inv b → new_ids b ids → new_request b r m → broker_inv (onRequesterMessage b requesterId m r now ids).
Proof.
  intros Hb Hids [Hr Hid]. destruct m; cbn [onRequesterMessage].
  - by apply answer_requester_inv.
  - eapply same_books_inv, Hb; apply cancelTask_books.
  - by apply taskRequested_inv.
  - eapply same_books_inv, Hb; apply respond_to_runner_books.
  - eapply same_books_inv, Hb; apply respond_to_runner_books.
  - eapply same_books_inv, Hb; apply respond_to_runner_books.
Qed.

Lemma broker_next_inv internal b e b' : broker_inv b → broker_next internal b e = Some b' → broker_inv b'.
Proof.
  intros Hb. destruct e; cbn [broker_next].
  - case_bool_decide as Hf; [|done]. intros [= <-]. by apply onRunnerMessage_inv, fresh_new.
  - case_bool_decide as Hf; [|done]. intros [= <-]. destruct Hf. by apply onRequesterMessage_inv; [|apply fresh_new|].
  - intros [= <-]. eapply same_books_inv, Hb. unfold registerRunner. etransitivity; [|apply messageRunner_books]. done.
  - intros [= <-]. apply fail_tasks_inv. by eapply same_books_inv, Hb.
  - intros [= <-]. by eapply same_books_inv, Hb.
  - intros [= <-]. by eapply same_books_inv, Hb.
  - destruct (jm_get (accepts b) taskId) as [p|] eqn:Hp; [|done]. cbn.
    destruct (ac_phase p) as [[a|]|[a|]] eqn:Hph; try done; intros [= <-].
    + by apply after_runner_inv.
    + apply after_requester_inv; eauto.
  - intros [= <-]. by apply settle_runner_inv.
  - intros [= <-]. by apply settle_requester_inv.
  - destruct (jm_get (requests b) r) as [q|]; [|done]. cbn. case_match; [|done]. intros [= <-].
    by apply handleRequestTimeout_inv, update_timeout_inv.
  - destruct (jm_get (tasks b) taskId); [|done]. cbn. case_match; [|done]. intros [= <-].
    eapply same_books_inv, Hb; apply handleTaskTimeout_books.
  - intros [= <-]. by eapply same_books_inv, Hb.
Qed.

Lemma broker_run_inv internal es b b' : broker_inv b → broker_run internal b es = Some b' → broker_inv b'.
Proof.
  revert b; induction es as [|e es IH]; intros b Hb; cbn; [by intros [= <-]|].
  destruct (broker_next internal b e) as [b1|] eqn:He; [|done]. cbn. intros Hr.
  by eapply IH, Hr; eapply broker_next_inv.
Qed.

(** The process of a request that is being offered can always be driven to its end. *)
Lemma asked_released internal b t r :
  broker_inv b → asks_for b t r →
  ∃ es b', es ⊆ [ERunnerAcceptTimeout t; EContinue t] ∧ broker_run internal b es = Some b' ∧
    (r ∈ pendingTaskRequests b' → ¬ in_progress b' r).
Proof.
  intros Hb (p & a & Hp & Hph & <-). destruct a as [a|].
  - exists [EContinue t], (after_runner b t p a). split; [set_solver|split].
    + cbn. by rewrite Hp; cbn; rewrite Hph.
    + by apply after_runner_inv.
  - set (p' := mkAccept (ac_offer p) (ac_request p) (AwaitRunner (Some RunnerTimedOut))).
    set (b1 := with_accepts b (jm_set (accepts b) t p')).
    assert (settle_runner b t RunnerTimedOut = b1) as Hs by (unfold settle_runner; by rewrite Hp, Hph).
    exists [ERunnerAcceptTimeout t; EContinue t], (after_runner b1 t p' RunnerTimedOut). split; [done|split].
    + cbn. unfold runner_accept_timeout. rewrite Hs. cbn. by rewrite jm_get_set.
    + apply (after_runner_inv b1 t p' RunnerTimedOut); [|by cbn; rewrite jm_get_set|done].
      rewrite <- Hs. by apply settle_runner_inv.
Qed.

(** * Matching is complete and correct *)

(** A request the loop has nothing to do for: it is being offered, or no offer of its
    type is left. *)
Definition settled (b : TaskBroker) (r : nat) : Prop :=
  ∀ q, jm_get (requests b) r = Some q →
    rq_acceptInProgress q = true ∨ Forall (λ o, o_taskType o ≠ rq_taskType q) (pendingTaskOffers b).

(** A process [p] was started for a pending request with an offer that fits. *)
Definition fits (b : TaskBroker) (p : string * Accept) : Prop :=
  ac_phase p.2 = AwaitRunner None ∧ ac_request p.2 ∈ pendingTaskRequests b ∧
  ∃ q, jm_get (requests b) (ac_request p.2) = Some q ∧ rq_acceptInProgress q = true ∧ o_taskType (ac_offer p.2) = rq_taskType q.

(** From [b0] to [b] the loop moved offers from the list to new processes. *)
Record settling (b0 b : TaskBroker) (l : list nat) : Prop := {
  sl_started : ∃ started, accepts b = accepts b0 ++ started ∧ Forall (fits b) started ∧
    pendingTaskOffers b0 ≡ₚ pendingTaskOffers b ++ (ac_offer ∘ snd <$> started);
  sl_settled : Forall (settled b) l;
  sl_pending : pendingTaskRequests b = pendingTaskRequests b0;
}.

Lemma settled_mono b b' r :
  settled b r → pendingTaskOffers b' ⊆ pendingTaskOffers b →
  (∀ q', jm_get (requests b') r = Some q' → rq_acceptInProgress q' = true ∨ jm_get (requests b) r = Some q') → settled b' r.
Proof.
  intros Hs Ho Hr q Hq. destruct (Hr q Hq) as [?|Hq']; [by left|]. destruct (Hs q Hq') as [?|Hf]; [by left|right].
  apply Forall_forall. intros o Hin. eapply Forall_forall in Hf; [exact Hf|]. by apply Ho.
Qed.

Lemma fits_mono b b' p :
  fits b p → pendingTaskRequests b' = pendingTaskRequests b →
  (∀ r q, jm_get (requests b) r = Some q → rq_acceptInProgress q = true → jm_get (requests b') r = Some q) → fits b' p.
Proof. intros (Hp & Hin & q & Hq & Hpr & He) El Hr. split; [done|split; [by rewrite El|]]. eauto. Qed.

Lemma settle_one_settling b0 b ids l r b' ids' :
  settling b0 b l → new_ids b ids → ids ≠ [] → r ∈ pendingTaskRequests b0 → settle_one (b, ids) r = (b', ids') →
  settling b0 b' (l ++ [r]) ∧ length ids ≤ S (length ids').
Proof.
  intros [(started & Ha & Hf & Hperm) Hs Hp] Hids Hne Hr. unfold settle_one.
  destruct (jm_get (requests b) r) as [q|] eqn:Hq; last first.
  { intros [= <- <-]. split; [|lia]. split; [by exists started| |done].
    apply Forall_app. split; [done|]. apply Forall_singleton. intros q. congruence. }
  destruct (rq_acceptInProgress q) eqn:Hpr.
  { intros [= <- <-]. split; [|lia]. split; [by exists started| |done].
    apply Forall_app. split; [done|]. apply Forall_singleton. intros q' ?. left. congruence. }
  destruct (find_index _ _) as [i|] eqn:Hi; last first.
  { apply find_index_None in Hi.
    assert (settled b r) as Hsr.
    { intros q' Hq'. right. replace q' with q by congruence. eapply Forall_impl; [exact Hi|].
      cbn. intros o Hn He. apply Hn. by apply bool_decide_pack. }
    unfold warnOnTaskTypeMismatch. case_bool_decide; intros [= <- <-]; (split; [|lia]);
      (split; [by exists started|by apply Forall_app; split; [|apply Forall_singleton]|done]). }
  apply find_index_Some in Hi as (o & Ho & Ht & _). rewrite Ho. apply bool_decide_unpack in Ht.
  destruct ids as [|t ids]; [done|]. intros [= <- <-]. split; [|cbn; lia].
  destruct Hids as [_ [Hn _]%Forall_cons].
  set (b2 := with_pending _ _ _). destruct (start_accept_books b2 t o r) as (Ea & Er & Ep).
  assert (pendingTaskOffers (start_accept b2 t o r) = splice1 (pendingTaskOffers b) i) as Eo.
  { unfold start_accept, messageRunner. by case_match. }
  assert (requests b2 = jm_update (requests b) r (set_in_progress true)) as Er2 by done.
  pose proof (splice1_perm _ _ _ Ho) as Hpo.
  split.
  - exists (started ++ [(t, mkAccept o r (AwaitRunner None))]). split; [|split].
    + rewrite Ea. change (accepts b2) with (accepts b). rewrite jm_set_new by done. by rewrite Ha, (assoc_L (++)).
    + apply Forall_app. split.
      * eapply Forall_impl; [exact Hf|]. intros p Hfp. eapply (fits_mono b); [done|by rewrite Ep|].
        intros r' q' Hq' Hpr'. rewrite Er, Er2, jm_get_update. case_decide; [|done]. congruence.
      * apply Forall_singleton. split; [done|split]; cbn [snd ac_request ac_offer].
        -- rewrite Ep. cbn. by rewrite Hp.
        -- rewrite Er, Er2, jm_get_update, decide_True, Hq by done. exists (set_in_progress true q). done.
    + rewrite Hperm, fmap_app, Eo.
      etransitivity; [apply Permutation_app_tail, Hpo|]. rewrite (assoc_L (++)). apply Permutation_cons_append.
  - assert (∀ r', settled b r' → settled (start_accept b2 t o r) r') as Hm.
    { intros r' Hr'. eapply settled_mono; [exact Hr'| |].
      - rewrite Eo. intros x Hx. rewrite Hpo. by right.
      - intros q'. rewrite Er, Er2, jm_get_update. case_decide; [|by right]. subst. rewrite Hq. intros [= <-]. by left. }
    apply Forall_app. split; [by eapply Forall_impl|]. apply Forall_singleton.
    intros q'. rewrite Er, Er2, jm_get_update, decide_True, Hq by done. intros [= <-]. by left.
  - by rewrite Ep, <- Hp.
Qed.

Lemma settle_all_settling l b0 done b ids :
  broker_inv b → settling b0 b done → new_ids b ids → length l ≤ length ids → l ⊆ pendingTaskRequests b0 →
  settling b0 (foldl settle_one (b, ids) l).1 (done ++ l).
Proof.
  revert done b ids; induction l as [|r l IH]; intros done b ids Hb Hs Hids Hlen Hl; cbn [foldl].
  - by rewrite app_nil_r.
  - pose proof (settle_one_inv b ids r Hb Hids) as Hi. destruct (settle_one (b, ids) r) as [b' ids'] eqn:He.
    destruct Hi as (Hb' & Hids' & _). cbn in Hlen.
    assert (ids ≠ []) as Hne by (intros ->; cbn in Hlen; lia).
    apply settle_one_settling with (b0 := b0) (l := done) in He as [Hs' Hlen']; [|done..|set_solver].
    rewrite cons_middle, (assoc_L (++)). apply IH; [done|done|done|lia|set_solver].
Qed.

Lemma settling_start b : settling b b [].
Proof. split; [|done|done]. exists []. rewrite !app_nil_r. done. Qed.

(** In every state the broker can reach, one pass of matching leaves no idle pending request for which a pending offer of its type exists, starts processes for idle pending requests with offers of their own type only, and every unexpired offer is either still pending or with exactly one of those processes. *)
Theorem settleTasks_matches internal es b now ids :
  broker_run internal new_broker es = Some b → fresh_ids b ids →
  let b' := settleTasks b now ids in
  Forall (settled b') (pendingTaskRequests b') ∧
  ∃ started, accepts b' = accepts b ++ started ∧ Forall (fits b') started ∧
    filter (λ o, offer_expired now o = false) (pendingTaskOffers b) ≡ₚ pendingTaskOffers b' ++ (ac_offer ∘ snd <$> started).
Proof.
  intros Hrun Hids b'. pose proof (broker_run_inv _ _ _ _ broker_inv_new Hrun) as Hb.
  assert (broker_inv (expireTasks b now)) as He by (by eapply same_books_inv, Hb).
  pose proof (settle_all_settling (pendingTaskRequests b) _ [] _ ids He (settling_start (expireTasks b now))) as Hs.
  destruct Hs as [Hst Hall Hp]; [by apply (fresh_new b)|destruct Hids as (_ & _ & ?); lia|done|].
  split; [|exact Hst]. assert (pendingTaskRequests b' = pendingTaskRequests b) as -> by exact Hp. exact Hall.
Qed.

(** C5: In every state the broker can reach, a pending request that is being offered is waited for by exactly one [acceptOffer], and that process's own timer and continuation, with no message from the runner or the requester, lead to a state where the request is idle again or no longer pending. *)
Theorem no_request_stuck internal es b r :
  broker_run internal new_broker es = Some b → r ∈ pendingTaskRequests b → in_progress b r →
  ∃ t, (∀ t', asks_for b t' r ↔ t' = t) ∧
    ∃ es' b', es' ⊆ [ERunnerAcceptTimeout t; EContinue t] ∧ broker_run internal b es' = Some b' ∧
      (r ∈ pendingTaskRequests b' → ¬ in_progress b' r).
Proof.
  intros Hrun Hr Hin. pose proof (broker_run_inv _ _ _ _ broker_inv_new Hrun) as Hb.
  destruct (tb_asked _ Hb _ Hr Hin) as [t Ht]. exists t. split; [|by apply asked_released].
  intros t'. split; [intros Ht'; by eapply tb_unique|by intros ->].
Qed.

(** When the request of an [acceptOffer] has expired before its runner accepts, the continuation stores a task for it without a timer, sends no message to anyone and ends: no process and no timer is left that would delete the task, and the broker keeps reporting active tasks. *)
Theorem late_accept_orphans_task internal es b t p :
  broker_run internal new_broker es = Some b →
  jm_get (accepts b) t = Some p → ac_phase p = AwaitRunner (Some RunnerAccepted) →
  ac_request p ∉ pendingTaskRequests b →
  ∃ b' task, broker_next internal b (EContinue t) = Some b' ∧ jm_get (tasks b') t = Some task ∧ t_timeout task = false ∧
    jm_get (accepts b') t = None ∧ sent b' = sent b ∧ hasActiveTasks b' = true.
Proof.
  intros Hrun Hp Hph Hr. pose proof (broker_run_inv _ _ _ _ broker_inv_new Hrun) as Hb.
  assert (asks_for b t (ac_request p)) as Ht by (by exists p, (Some RunnerAccepted)).
  destruct (tb_progress _ Hb _ _ Ht) as (q & Hq & _).
  set (task := mkTask (o_runnerId (ac_offer p)) (rq_requesterId q) (o_taskType (ac_offer p)) false).
  set (b1 := with_tasks (update_request b (ac_request p) (set_timeout false)) (jm_set (tasks b) t task)).
  assert (request_index b1 (rq_requestId q) = None) as Hi.
  { assert (broker_inv b1) as Hb1 by (by eapply same_books_inv, (update_timeout_inv b (ac_request p) false)).
    assert (jm_get (requests b1) (ac_request p) = Some (set_timeout false q)) as Hq1.
    { cbn. by rewrite jm_get_update, decide_True, Hq. }
    pose proof (request_index_spec b1 _ _ Hb1 Hq1) as Hs. cbn [rq_requestId set_timeout] in Hs.
    destruct (request_index b1 (rq_requestId q)); [|done]. by apply list_elem_of_lookup_2 in Hs. }
  assert (after_runner b t p RunnerAccepted = drop_accept b1 t) as Ha.
  { unfold after_runner. rewrite Hq. cbv zeta. change (request_index _ (rq_requestId q)) with (request_index b1 (rq_requestId q)). by rewrite Hi. }
  exists (drop_accept b1 t), task. split; [|split; [|split; [|split; [|split]]]]; try done.
  - cbn [broker_next]. rewrite Hp. cbn. by rewrite Hph, Ha.
  - apply jm_get_set.
  - apply jm_get_del.
  - unfold hasActiveTasks. cbn. rewrite bool_decide_false; [done|]. by destruct (tasks b) as [|[? ?] ?]; cbn; [|case_decide].
Qed.

(** A requester and a runner, a request and an offer that fits. *)
Definition demo_ids : list string := ["t1"; "t2"; "t3"; "t4"].
Definition demo_started : list BrokerEvent :=
  [ERegisterRunner "run"; ERegisterRequester "main";
   ERequesterMessage "main" (QmTaskRequest "q1" "javascript") 0 0 demo_ids;
   ERunnerMessage "run" (RmTaskOffer "o1" "javascript" 5000) 0 demo_ids].

(** The request expires while the runner still thinks about it. *)
Definition demo_late : list BrokerEvent :=
  demo_started ++ [ERequestTimeout 0; ERunnerMessage "run" (RmTaskAccepted "t1") 10 ["t2"; "t3"]].

Definition demo_after (es : list BrokerEvent) : TaskBroker := default new_broker (broker_run true new_broker es).
Definition requested : TaskBroker := Eval vm_compute in demo_after (take 3 demo_started).
Definition offering : TaskBroker := Eval vm_compute in demo_after demo_started.
Definition late : TaskBroker := Eval vm_compute in demo_after demo_late.
Definition orphaned : TaskBroker := Eval vm_compute in demo_after (demo_late ++ [EContinue "t1"]).

Lemma requested_reached : broker_run true new_broker (take 3 demo_started) = Some requested.
Proof. by vm_compute. Qed.
Lemma offering_reached : broker_run true new_broker demo_started = Some offering.
Proof. by vm_compute. Qed.
Lemma late_reached : broker_run true new_broker demo_late = Some late.
Proof. by vm_compute. Qed.
Lemma orphaned_next : broker_next true late (EContinue "t1") = Some orphaned.
Proof. by vm_compute. Qed.
Lemma requested_fresh : fresh_ids requested demo_ids.
Proof. apply (bool_decide_unpack _). by vm_compute. Qed.

Lemma settleTasks_matches_witness :
  pendingTaskRequests requested = [0] ∧ Forall (settled (settleTasks requested 0 demo_ids)) (pendingTaskRequests (settleTasks requested 0 demo_ids)).
Proof.
  split; [reflexivity|].
  exact (proj1 (settleTasks_matches _ _ _ 0 _ requested_reached requested_fresh)).
Defined.

Lemma no_request_stuck_witness :
  pendingTaskRequests offering = [0] ∧ ∃ t, ∀ t', asks_for offering t' 0 ↔ t' = t.
Proof.
  split; [reflexivity|].
  destruct (no_request_stuck true demo_started offering 0 offering_reached) as (t & Ht & _).
  - apply list_elem_of_here.
  - exists (mkTaskRequest "q1" "main" "javascript" true true). split; reflexivity.
  - exists t. exact Ht.
Defined.

Lemma late_accept_orphans_task_witness :
  broker_next true late (EContinue "t1") = Some orphaned ∧ hasActiveTasks orphaned = true ∧ accepts orphaned = [].
Proof.
  split; [exact orphaned_next|split; [|reflexivity]].
  destruct (late_accept_orphans_task true demo_late late "t1"
    (mkAccept (mkOffer "o1" "run" "javascript" 5000 5000000000) 0 (AwaitRunner (Some RunnerAccepted))) late_reached)
    as (b' & task & Hb' & _ & _ & _ & _ & Ha); [reflexivity..|apply not_elem_of_nil|].
  rewrite orphaned_next in Hb'. replace orphaned with b' by congruence. exact Ha.
Defined.
