(* ===== verification/TaskRunner.v ===== *)
(** TaskRunner: @n8n/task-runner/src/task-runner.ts and task-state.ts.

    The runner offers its free slots to the broker, takes tasks for them and executes
    each once its settings have arrived.  [executeTask] is not part of the class; its
    end is an event.  Timers and settled promises are events too.  Times are in
    nanoseconds; one call of [sendOffers] reads the clock once. *)

From stdpp Require Import prelude list strings relations.
From Stdlib Require Import ZArith Lia.
From S2P Require Import Prelude.
Local Open Scope nat_scope.

(** * Data *)

Inductive TaskStatus := waitingForSettings | running | aborting_cancelled | aborting_timeout.
#[export] Instance TaskStatus_eq_dec : EqDecision TaskStatus.
Proof. solve_decision. Defined.

(** [ts_timer]: the timeout timer runs; [ts_aborted]: the reason the abort signal was
    fired with; [ts_executing]: the promise of [executeTask] is pending. *)
Record TaskState := mkTaskState {
  ts_status : TaskStatus;
  ts_timer : bool;
  ts_aborted : option string;
  ts_executing : bool;
}.
#[export] Instance TaskState_eq_dec : EqDecision TaskState.
Proof. solve_decision. Defined.

Record TaskOffer := mkTaskOffer {
  of_offerId : string;
  of_validUntil : Z;
}.

(** How the promise of a data, node type or RPC request was settled. *)
Inductive Settled := Resolved | Rejected (reason : string).

(** A pending request of a task; RPC calls do not record theirs. *)
Record Request := mkRequest {
  rq_taskId : string;
  rq_settled : option Settled;
}.

(** Messages to the broker, and the event [runner:reached-idle-timeout]. *)
Inductive FromRunner :=
| RunnerInfo
| RunnerTaskOffer (offerId : string) (validFor : Z)
| RunnerTaskAccepted (taskId : string)
| RunnerTaskRejected (taskId reason : string)
| RunnerTaskDone (taskId : string)
| RunnerTaskError (taskId : string)
| RunnerDataRequest (taskId requestId : string)
| RunnerNodeTypesRequest (taskId requestId : string)
| RunnerRpc (taskId callId : string)
| ReachedIdleTimeout.
#[export] Instance FromRunner_eq_dec : EqDecision FromRunner.
Proof. solve_decision. Defined.

Record TaskRunner := mkRunner {
  maxConcurrency : nat;
  canSendOffers : bool;
  offerInterval : bool;
  runningTasks : jmap string TaskState;
  openOffers : jmap string TaskOffer;
  dataRequests : jmap string Request;
  nodeTypesRequests : jmap string Request;
  rpcCalls : jmap string (option Settled);
  isShuttingDown : bool;
  idleTimeout : Z;
  idleTimer : bool;
  sent : list FromRunner;
}.

Definition with_offering (s : TaskRunner) (can interval : bool) : TaskRunner :=
  mkRunner (maxConcurrency s) can interval (runningTasks s) (openOffers s) (dataRequests s) (nodeTypesRequests s) (rpcCalls s)
    (isShuttingDown s) (idleTimeout s) (idleTimer s) (sent s).
Definition with_tasks (s : TaskRunner) (m : jmap string TaskState) : TaskRunner :=
  mkRunner (maxConcurrency s) (canSendOffers s) (offerInterval s) m (openOffers s) (dataRequests s) (nodeTypesRequests s) (rpcCalls s)
    (isShuttingDown s) (idleTimeout s) (idleTimer s) (sent s).
Definition with_offers (s : TaskRunner) (m : jmap string TaskOffer) : TaskRunner :=
  mkRunner (maxConcurrency s) (canSendOffers s) (offerInterval s) (runningTasks s) m (dataRequests s) (nodeTypesRequests s) (rpcCalls s)
    (isShuttingDown s) (idleTimeout s) (idleTimer s) (sent s).
Definition with_calls (s : TaskRunner) (d n : jmap string Request) (r : jmap string (option Settled)) : TaskRunner :=
  mkRunner (maxConcurrency s) (canSendOffers s) (offerInterval s) (runningTasks s) (openOffers s) d n r
    (isShuttingDown s) (idleTimeout s) (idleTimer s) (sent s).
Definition with_life (s : TaskRunner) (down idle : bool) : TaskRunner :=
  mkRunner (maxConcurrency s) (canSendOffers s) (offerInterval s) (runningTasks s) (openOffers s) (dataRequests s) (nodeTypesRequests s) (rpcCalls s)
    down (idleTimeout s) idle (sent s).
Definition send (s : TaskRunner) (m : FromRunner) : TaskRunner :=
  mkRunner (maxConcurrency s) (canSendOffers s) (offerInterval s) (runningTasks s) (openOffers s) (dataRequests s) (nodeTypesRequests s) (rpcCalls s)
    (isShuttingDown s) (idleTimeout s) (idleTimer s) (sent s ++ [m]).

(** * Idle timer *)

Definition clearIdleTimer (s : TaskRunner) : TaskRunner := with_life s (isShuttingDown s) false.
Definition resetIdleTimer (s : TaskRunner) : TaskRunner :=
  if bool_decide (idleTimeout s = 0)%Z then s else with_life s (isShuttingDown s) true.

(** The constructor, up to the connection. *)
Definition new_runner (maxConcurrency : nat) (idleTimeout : Z) : TaskRunner :=
  resetIdleTimer (mkRunner maxConcurrency false false [] [] [] [] [] false idleTimeout false []).

(** * Offers *)

Definition OFFER_VALID_TIME_MS : Z := 5000.
Definition OFFER_VALID_EXTRA_MS : Z := 100.
Definition msToNs (ms : Z) : Z := ms * 1000000.

Definition stopTaskOffers (s : TaskRunner) : TaskRunner := with_offering s false false.
Definition startTaskOffers (s : TaskRunner) : TaskRunner := with_offering s true true.

Definition deleteStaleOffers (s : TaskRunner) (now : Z) : TaskRunner :=
  with_offers s (filter (λ p, ¬ (of_validUntil p.2 < now)%Z) (openOffers s)).

(** One iteration of [sendOffers] with its new [nanoid()] and [randomInt(500)]. *)
Definition send_offer (now : Z) (s : TaskRunner) (drawn : string * Z) : TaskRunner :=
  let '(offerId, random) := drawn in
  let validForInMs := (OFFER_VALID_TIME_MS + random)%Z in
  let s := with_offers s (jm_set (openOffers s) offerId (mkTaskOffer offerId (now + msToNs (validForInMs + OFFER_VALID_EXTRA_MS)))) in
  send s (RunnerTaskOffer offerId validForInMs).

Definition offersToSend (s : TaskRunner) : nat := maxConcurrency s - (length (openOffers s) + length (runningTasks s)).

(** [draws] are the ids and random numbers to come. *)
Definition sendOffers (s : TaskRunner) (now : Z) (draws : list (string * Z)) : TaskRunner :=
  let s := deleteStaleOffers s now in
  if negb (canSendOffers s) then s else foldl (send_offer now) s (take (offersToSend s) draws).

Definition hasOpenTaskSlots (s : TaskRunner) : bool := bool_decide (length (runningTasks s) < maxConcurrency s).

Definition new_task : TaskState := mkTaskState waitingForSettings true None false.

Definition offerAccepted (s : TaskRunner) (offerId taskId : string) : TaskRunner :=
  if isShuttingDown s then send s (RunnerTaskRejected taskId "Runner is shutting down") else
  if negb (hasOpenTaskSlots s) then
    send (with_offers s (jm_del (openOffers s) offerId)) (RunnerTaskRejected taskId "No open task slots - runner already at capacity")
  else
  match jm_get (openOffers s) offerId with
  | None => send s (RunnerTaskRejected taskId "Offer expired - not accepted within validity window")
  | Some _ =>
      let s := with_offers s (jm_del (openOffers s) offerId) in
      let s := resetIdleTimer s in
      let s := with_tasks s (jm_set (runningTasks s) taskId new_task) in
      send s (RunnerTaskAccepted taskId)
  end.

(** * The end of a task *)

Definition finishTask (s : TaskRunner) (taskId : string) (now : Z) (draws : list (string * Z)) : TaskRunner :=
  let s := with_tasks s (jm_del (runningTasks s) taskId) in
  resetIdleTimer (sendOffers s now draws).

(** The pending requests of a task are rejected and deleted; calls are left alone. *)
Definition of_task (taskId : string) (m : jmap string Request) : jmap string Request := filter (λ p, rq_taskId p.2 ≠ taskId) m.
Definition cancelTaskRequests (s : TaskRunner) (taskId : string) : TaskRunner :=
  with_calls s (of_task taskId (dataRequests s)) (of_task taskId (nodeTypesRequests s)) (rpcCalls s).

(** [status = ...; abortController.abort(reason)] *)
Definition abort (s : TaskRunner) (taskId : string) (st : TaskState) (status : TaskStatus) (reason : string) : TaskRunner :=
  with_tasks s (jm_set (runningTasks s) taskId
    (mkTaskState status (ts_timer st) (Some (default reason (ts_aborted st))) (ts_executing st))).

Definition taskCancelled (s : TaskRunner) (taskId : string) (now : Z) (draws : list (string * Z)) : TaskRunner :=
  match jm_get (runningTasks s) taskId with
  | None => s
  | Some st =>
      match ts_status st with
      | waitingForSettings => finishTask s taskId now draws
      | aborting_timeout | aborting_cancelled => s
      | running => cancelTaskRequests (abort s taskId st aborting_cancelled "cancelled") taskId
      end
  end.

(** [Err]: [throwUnexpectedTaskStatus]. *)
Inductive RunnerError := UnexpectedTaskStatus.

Definition taskTimedOut (s : TaskRunner) (taskId : string) (now : Z) (draws : list (string * Z)) : result RunnerError TaskRunner :=
  match jm_get (runningTasks s) taskId with
  | None => Ok s
  | Some st =>
      match ts_status st with
      | waitingForSettings => Ok (finishTask (send s (RunnerTaskError taskId)) taskId now draws)
      | aborting_timeout => Err UnexpectedTaskStatus
      | running => Ok (cancelTaskRequests (abort s taskId st aborting_timeout "timeout") taskId)
      | aborting_cancelled => Ok s
      end
  end.

(** Up to the call of [executeTask]. *)
Definition receivedSettings (s : TaskRunner) (taskId : string) : result RunnerError TaskRunner :=
  match jm_get (runningTasks s) taskId with
  | None => Ok s
  | Some st =>
      match ts_status st with
      | waitingForSettings =>
          Ok (with_tasks s (jm_set (runningTasks s) taskId (mkTaskState running (ts_timer st) (ts_aborted st) true)))
      | _ => Err UnexpectedTaskStatus
      end
  end.

(** [executeTask] has returned data, which may fail to be serialized, or has thrown. *)
Inductive Outcome := Succeeded (serializable : bool) | Failed.

Definition taskExecutionFailed (s : TaskRunner) (taskId : string) (status : TaskStatus) (now : Z) (draws : list (string * Z)) : TaskRunner :=
  let s := match status with aborting_timeout | running => send s (RunnerTaskError taskId) | _ => s end in
  finishTask s taskId now draws.

(** What [finishTask] leaves of the draws. *)
Definition draws_left (s : TaskRunner) (taskId : string) (now : Z) (draws : list (string * Z)) : list (string * Z) :=
  drop (offersToSend (deleteStaleOffers (with_tasks s (jm_del (runningTasks s) taskId)) now)) draws.

(** When sending the data throws, the task is finished, and the [catch] of
    [receivedSettings] goes on with [taskExecutionFailed]. *)
Definition taskExecutionSucceeded (s : TaskRunner) (taskId : string) (status : TaskStatus) (serializable : bool) (now : Z)
    (draws : list (string * Z)) : TaskRunner :=
  match status with
  | aborting_cancelled => finishTask s taskId now draws
  | aborting_timeout | running =>
      if serializable then finishTask (send s (RunnerTaskDone taskId)) taskId now draws
      else taskExecutionFailed (finishTask s taskId now draws) taskId status now (draws_left s taskId now draws)
  | waitingForSettings => taskExecutionFailed (finishTask s taskId now draws) taskId status now (draws_left s taskId now draws)
  end.

Definition executed (s : TaskRunner) (taskId : string) (st : TaskState) (o : Outcome) (now : Z) (draws : list (string * Z)) : TaskRunner :=
  match o with
  | Succeeded serializable => taskExecutionSucceeded s taskId (ts_status st) serializable now draws
  | Failed => taskExecutionFailed s taskId (ts_status st) now draws
  end.

(** * Requests of tasks *)

Definition requestData (s : TaskRunner) (taskId requestId : string) : TaskRunner :=
  send (with_calls s (jm_set (dataRequests s) requestId (mkRequest taskId None)) (nodeTypesRequests s) (rpcCalls s)) (RunnerDataRequest taskId requestId).
Definition requestNodeTypes (s : TaskRunner) (taskId requestId : string) : TaskRunner :=
  send (with_calls s (dataRequests s) (jm_set (nodeTypesRequests s) requestId (mkRequest taskId None)) (rpcCalls s)) (RunnerNodeTypesRequest taskId requestId).
Definition makeRpcCall (s : TaskRunner) (taskId callId : string) : TaskRunner :=
  send (with_calls s (dataRequests s) (nodeTypesRequests s) (jm_set (rpcCalls s) callId None)) (RunnerRpc taskId callId).

(** The first settlement counts. *)
Definition resolve_request (m : jmap string Request) (requestId : string) : jmap string Request :=
  jm_update m requestId (λ r, mkRequest (rq_taskId r) (Some (default Resolved (rq_settled r)))).
Definition processDataResponse (s : TaskRunner) (requestId : string) : TaskRunner :=
  with_calls s (resolve_request (dataRequests s) requestId) (nodeTypesRequests s) (rpcCalls s).
Definition processNodeTypesResponse (s : TaskRunner) (requestId : string) : TaskRunner :=
  with_calls s (dataRequests s) (resolve_request (nodeTypesRequests s) requestId) (rpcCalls s).
Definition handleRpcResponse (s : TaskRunner) (callId : string) (success : bool) : TaskRunner :=
  with_calls s (dataRequests s) (nodeTypesRequests s)
    (jm_update (rpcCalls s) callId (λ r, Some (default (if success then Resolved else Rejected "error") r))).

(** The [finally] of the request functions. *)
Definition end_data_request (s : TaskRunner) (requestId : string) : TaskRunner :=
  with_calls s (jm_del (dataRequests s) requestId) (nodeTypesRequests s) (rpcCalls s).
Definition end_node_types_request (s : TaskRunner) (requestId : string) : TaskRunner :=
  with_calls s (dataRequests s) (jm_del (nodeTypesRequests s) requestId) (rpcCalls s).
Definition end_rpc_call (s : TaskRunner) (callId : string) : TaskRunner :=
  with_calls s (dataRequests s) (nodeTypesRequests s) (jm_del (rpcCalls s) callId).

(** * Stopping *)

Definition stop (s : TaskRunner) : TaskRunner :=
  let s := clearIdleTimer (with_life s true (idleTimer s)) in
  with_offers (stopTaskOffers s) [].

(** One turn of [waitUntilAllTasksAreDone]. *)
Inductive WaitResult := AllDone | KeepWaiting | WaitTimeout.
Definition wait_turn (s : TaskRunner) (waited maxWaitTimeInMs : Z) : WaitResult :=
  if bool_decide (runningTasks s = []) then AllDone else if bool_decide (maxWaitTimeInMs < waited)%Z then WaitTimeout else KeepWaiting.

(** * Messages of the broker *)

Inductive BrokerMessage :=
| BrokerInfoRequest
| BrokerRunnerRegistered
| BrokerTaskOfferAccept (offerId taskId : string)
| BrokerTaskCancel (taskId reason : string)
| BrokerTaskSettings (taskId : string)
| BrokerTaskDataResponse (requestId : string)
| BrokerRpcResponse (callId : string) (success : bool)
| BrokerNodeTypes (requestId : string)
| BrokerDrain.

Definition onMessage (s : TaskRunner) (m : BrokerMessage) (now : Z) (draws : list (string * Z)) : result RunnerError TaskRunner :=
  match m with
  | BrokerInfoRequest => Ok (send s RunnerInfo)
  | BrokerRunnerRegistered => Ok (startTaskOffers s)
  | BrokerTaskOfferAccept offerId taskId => Ok (offerAccepted s offerId taskId)
  | BrokerTaskCancel taskId _ => Ok (taskCancelled s taskId now draws)
  | BrokerTaskSettings taskId => receivedSettings s taskId
  | BrokerTaskDataResponse requestId => Ok (processDataResponse s requestId)
  | BrokerRpcResponse callId success => Ok (handleRpcResponse s callId success)
  | BrokerNodeTypes requestId => Ok (processNodeTypesResponse s requestId)
  | BrokerDrain => Ok (stopTaskOffers s)
  end.

(** * Events *)

Inductive RunnerEvent :=
| EMessage (m : BrokerMessage)
| EOfferInterval
| ETaskTimer (taskId : string)
| EExecuted (taskId : string) (o : Outcome)
| ERequestData (taskId requestId : string)
| ERequestNodeTypes (taskId requestId : string)
| ERpcCall (taskId callId : string)
| EDataSettled (requestId : string)
| ENodeTypesSettled (requestId : string)
| ERpcSettled (callId : string)
| EIdleTimer
| EStop.

(** The ids drawn are new, distinct and enough, the random numbers below 500. *)
Definition fresh_draws (s : TaskRunner) (draws : list (string * Z)) : Prop :=
  NoDup draws.*1 ∧ Forall (λ d, jm_get (openOffers s) d.1 = None ∧ (0 ≤ d.2 < 500)%Z) draws ∧ maxConcurrency s ≤ length draws.
#[export] Instance fresh_draws_dec s draws : Decision (fresh_draws s draws).
Proof. apply _. Defined.

(** The broker draws new task ids. *)
Definition new_task_id (s : TaskRunner) (m : BrokerMessage) : Prop :=
  match m with
  | BrokerTaskOfferAccept _ taskId =>
      Forall (λ m, match m with RunnerTaskAccepted t => t ≠ taskId | _ => True end) (sent s)
  | _ => True
  end.
#[export] Instance new_task_id_dec s m : Decision (new_task_id s m).
Proof.
  unfold new_task_id. destruct m; try apply _.
  apply Forall_dec. intros x. destruct x; apply _.
Defined.

Definition is_settled (r : option (option Settled)) : bool := match r with Some (Some _) => true | _ => false end.

(** [None]: the event cannot happen. *)
Definition runner_next (s : TaskRunner) (e : RunnerEvent) (now : Z) (draws : list (string * Z)) : option (result RunnerError TaskRunner) :=
  match e with
  | EMessage m => if bool_decide (new_task_id s m) then Some (onMessage s m now draws) else None
  | EOfferInterval => if offerInterval s then Some (Ok (sendOffers s now draws)) else None
  | ETaskTimer taskId =>
      match jm_get (runningTasks s) taskId with
      | Some st => if ts_timer st
          then Some (taskTimedOut (with_tasks s (jm_set (runningTasks s) taskId
            (mkTaskState (ts_status st) false (ts_aborted st) (ts_executing st)))) taskId now draws) else None
      | None => None
      end
  | EExecuted taskId o =>
      match jm_get (runningTasks s) taskId with
      | Some st => if ts_executing st then Some (Ok (executed s taskId st o now draws)) else None
      | None => None
      end
  | ERequestData taskId requestId => if jm_has (dataRequests s) requestId then None else Some (Ok (requestData s taskId requestId))
  | ERequestNodeTypes taskId requestId =>
      if jm_has (nodeTypesRequests s) requestId then None else Some (Ok (requestNodeTypes s taskId requestId))
  | ERpcCall taskId callId => if jm_has (rpcCalls s) callId then None else Some (Ok (makeRpcCall s taskId callId))
  | EDataSettled requestId =>
      if is_settled (rq_settled <$> jm_get (dataRequests s) requestId) then Some (Ok (end_data_request s requestId)) else None
  | ENodeTypesSettled requestId =>
      if is_settled (rq_settled <$> jm_get (nodeTypesRequests s) requestId) then Some (Ok (end_node_types_request s requestId)) else None
  | ERpcSettled callId => if is_settled (jm_get (rpcCalls s) callId) then Some (Ok (end_rpc_call s callId)) else None
  | EIdleTimer =>
      if idleTimer s then
        let s := clearIdleTimer s in
        Some (Ok (if bool_decide (runningTasks s = []) then send s ReachedIdleTimeout else s))
      else None
  | EStop => Some (Ok (stop s))
  end.

(** An event with what it reads. *)
Record Occurrence := mkOccurrence { oc_event : RunnerEvent; oc_now : Z; oc_draws : list (string * Z) }.

(** A handler that throws leaves the state as it is. *)
Definition runner_step (s : TaskRunner) (c : Occurrence) : option TaskRunner :=
  if bool_decide (fresh_draws s (oc_draws c)) then
    match runner_next s (oc_event c) (oc_now c) (oc_draws c) with
    | Some (Ok s') => Some s'
    | Some (Err _) => Some s
    | None => None
    end
  else None.

Fixpoint runner_run (s : TaskRunner) (cs : list Occurrence) : option TaskRunner :=
  match cs with [] => Some s | c :: cs => match runner_step s c with Some s' => runner_run s' cs | None => None end end.
