(* ===== verification/TaskRunnerProofs.v ===== *)
(** TaskRunnerProofs: a runner never takes more than it may, follows the life cycle of
    a task, and answers for every task it accepted. *)

From stdpp Require Import prelude list strings relations.
From Stdlib Require Import ZArith Lia.
From S2P Require Import Prelude TaskRunner.
Local Open Scope nat_scope.

(** * What the runner has said *)

(** How often [t] was reported done or failed, and accepted. *)
Definition answers (l : list FromRunner) (t : string) : nat := length (filter (λ m, m = RunnerTaskDone t ∨ m = RunnerTaskError t) l).
Definition accepted (l : list FromRunner) (t : string) : nat := length (filter (λ m, m = RunnerTaskAccepted t) l).

Lemma answers_app l k t : answers (l ++ k) t = answers l t + answers k t.
Proof. unfold answers. by rewrite filter_app, length_app. Qed.
Lemma accepted_app l k t : accepted (l ++ k) t = accepted l t + accepted k t.
Proof. unfold accepted. by rewrite filter_app, length_app. Qed.

(** Messages that are about no task's start or end. *)
Definition neutral (m : FromRunner) : Prop :=
  match m with RunnerTaskAccepted _ | RunnerTaskDone _ | RunnerTaskError _ => False | _ => True end.

Lemma neutral_answers m t : neutral m → answers [m] t = 0 ∧ accepted [m] t = 0.
Proof.
  intros Hm. unfold answers, accepted. rewrite !filter_cons, !filter_nil.
  rewrite !decide_False by (intros H; naive_solver). done.
Qed.

(** * Operations that leave the tasks alone *)

Record same_tasks (s s' : TaskRunner) : Prop := {
  st_tasks : runningTasks s' = runningTasks s;
  st_max : maxConcurrency s' = maxConcurrency s;
  st_answers t : answers (sent s') t = answers (sent s) t;
  st_accepted t : accepted (sent s') t = accepted (sent s) t;
}.

#[export] Instance same_tasks_preorder : PreOrder same_tasks.
Proof. split; [by split|]. intros s1 s2 s3 [? ? Ha ?] [? ? Hb ?]. split; intros; etransitivity; eauto. Qed.

Lemma send_same s m : neutral m → same_tasks s (send s m).
Proof.
  intros Hm. split; try done; intros t; destruct (neutral_answers m t Hm) as [Ha Hc]; cbn [sent send];
    [rewrite answers_app, Ha|rewrite accepted_app, Hc]; lia.
Qed.

Lemma resetIdleTimer_same s : same_tasks s (resetIdleTimer s).
Proof. unfold resetIdleTimer. by case_bool_decide. Qed.

Lemma deleteStaleOffers_same s now : same_tasks s (deleteStaleOffers s now).
Proof. done. Qed.

Lemma send_offers_same now s draws : same_tasks s (foldl (send_offer now) s draws).
Proof.
  revert s; induction draws as [|[id r] draws IH]; intros s; [done|]. cbn [foldl]. etransitivity; [|apply IH].
  unfold send_offer. etransitivity; [|by apply send_same]. done.
Qed.

Lemma sendOffers_same s now draws : same_tasks s (sendOffers s now draws).
Proof.
  unfold sendOffers. destruct (negb _); [apply deleteStaleOffers_same|].
  etransitivity; [apply deleteStaleOffers_same|apply send_offers_same].
Qed.

Lemma finishTask_same s t now draws : same_tasks (with_tasks s (jm_del (runningTasks s) t)) (finishTask s t now draws).
Proof. unfold finishTask. etransitivity; [apply sendOffers_same|apply resetIdleTimer_same]. Qed.

(** * Capacity *)

Section Capacity.
Context (n : nat).

(** Slots are offered once each and never more than there are. *)
Record slots_ok (s : TaskRunner) : Prop := {
  so_offers : jm_wf (openOffers s);
  so_tasks : jm_wf (runningTasks s);
  so_sum : length (openOffers s) + length (runningTasks s) ≤ maxConcurrency s;
  so_max : maxConcurrency s = n;
}.

Lemma send_offers_ok now s draws :
  slots_ok s → length (openOffers s) + length (runningTasks s) + length draws ≤ maxConcurrency s → slots_ok (foldl (send_offer now) s draws).
Proof.
  revert s; induction draws as [|[id r] draws IH]; intros s [H1 H2 H3] Hl; [done|]. cbn [foldl]. cbn in Hl.
  pose proof (jm_set_length (openOffers s) id (mkTaskOffer id (now + msToNs (OFFER_VALID_TIME_MS + r + OFFER_VALID_EXTRA_MS)))) as Hlen.
  apply IH; [split|]; cbn -[jm_set]; [by apply jm_wf_set|done|lia|done|lia].
Qed.

Lemma sendOffers_ok s now draws : slots_ok s → slots_ok (sendOffers s now draws).
Proof.
  intros [H1 H2 H3 H4]. unfold sendOffers.
  assert (slots_ok (deleteStaleOffers s now)) as Hd.
  { split; cbn; [by apply jm_wf_filter|done| |done]. etransitivity; [|exact H3]. apply Nat.add_le_mono_r, length_filter. }
  destruct (negb _); [done|]. apply send_offers_ok; [done|]. rewrite length_take. unfold offersToSend. pose proof (so_sum _ Hd). lia.
Qed.

Lemma resetIdleTimer_ok s : slots_ok s → slots_ok (resetIdleTimer s).
Proof. intros [? ? ? ?]. unfold resetIdleTimer. by case_bool_decide. Qed.

Lemma finishTask_ok s t now draws : slots_ok s → slots_ok (finishTask s t now draws).
Proof.
  intros [H1 H2 H3 H4]. unfold finishTask. apply resetIdleTimer_ok, sendOffers_ok.
  pose proof (jm_del_length_le (runningTasks s) t). split; cbn -[jm_del]; [done|by apply jm_wf_del|lia|done].
Qed.

Lemma set_task_ok s t st st' : slots_ok s → jm_get (runningTasks s) t = Some st → slots_ok (with_tasks s (jm_set (runningTasks s) t st')).
Proof. intros [H1 H2 H3 H4] Ht. split; cbn -[jm_set]; [done|by apply jm_wf_set|by rewrite (jm_set_present _ _ _ st)|done]. Qed.

Lemma slots_ext s s' :
  openOffers s' = openOffers s → runningTasks s' = runningTasks s → maxConcurrency s' = maxConcurrency s → slots_ok s → slots_ok s'.
Proof. intros Ho Ht Hm [? ? ? ?]. split; by rewrite ?Ho, ?Ht, ?Hm. Qed.

Lemma offerAccepted_ok s o t : slots_ok s → slots_ok (offerAccepted s o t).
Proof.
  intros Hs. unfold offerAccepted. destruct (isShuttingDown s); [by eapply slots_ext, Hs|].
  destruct (negb _).
  { destruct Hs as [H1 H2 H3 H4]. pose proof (jm_del_length_le (openOffers s) o). split; cbn -[jm_del]; [by apply jm_wf_del|done|lia|done]. }
  destruct (jm_get (openOffers s) o) as [ofr|] eqn:Ho; [|by eapply slots_ext, Hs].
  destruct Hs as [H1 H2 H3 H4]. pose proof (jm_del_length _ _ _ H1 Ho) as Hd.
  set (s1 := with_offers s (jm_del (openOffers s) o)).
  assert (slots_ok (resetIdleTimer s1)) as [R1 R2 R3 R4].
  { apply resetIdleTimer_ok. split; cbn -[jm_del]; [by apply jm_wf_del|done|lia|done]. }
  assert (openOffers (resetIdleTimer s1) = jm_del (openOffers s) o ∧ runningTasks (resetIdleTimer s1) = runningTasks s ∧
    maxConcurrency (resetIdleTimer s1) = maxConcurrency s) as (E1 & E2 & E3) by (unfold resetIdleTimer; by case_bool_decide).
  pose proof (jm_set_length (runningTasks s) t new_task).
  split; cbn -[jm_set resetIdleTimer]; [done|by apply jm_wf_set| |done]. rewrite E1, E2, E3. lia.
Qed.

Lemma taskCancelled_ok s t now draws : slots_ok s → slots_ok (taskCancelled s t now draws).
Proof.
  intros Hs. unfold taskCancelled. destruct (jm_get (runningTasks s) t) as [st|] eqn:Ht; [|done].
  destruct (ts_status st); [by apply finishTask_ok| |done|done].
  apply (slots_ext (abort s t st aborting_cancelled "cancelled")); [done..|]. by apply (set_task_ok s t st).
Qed.

Lemma taskTimedOut_ok s t now draws s' : slots_ok s → taskTimedOut s t now draws = Ok s' → slots_ok s'.
Proof.
  intros Hs. unfold taskTimedOut. destruct (jm_get (runningTasks s) t) as [st|] eqn:Ht; [|by intros [= <-]].
  destruct (ts_status st); try done; intros [= <-]; [|apply (slots_ext (abort s t st aborting_timeout "timeout")); [done..|]; by apply (set_task_ok s t st)|done].
  apply finishTask_ok. by eapply slots_ext, Hs.
Qed.

Lemma executed_ok s t st o now draws : slots_ok s → slots_ok (executed s t st o now draws).
Proof.
  intros Hs. assert (∀ s status draws, slots_ok s → slots_ok (taskExecutionFailed s t status now draws)) as Hf.
  { intros s0 status d H0. unfold taskExecutionFailed. apply finishTask_ok. destruct status; try done; by eapply slots_ext, H0. }
  destruct o as [b|]; cbn [executed]; [|by apply Hf]. unfold taskExecutionSucceeded.
  destruct (ts_status st), b; try (by apply Hf, finishTask_ok); apply finishTask_ok; try done; by eapply slots_ext, Hs.
Qed.

Lemma runner_step_ok s c s' : slots_ok s → runner_step s c = Some s' → slots_ok s'.
Proof.
  intros Hs. unfold runner_step. case_bool_decide; [|done].
  destruct (runner_next s (oc_event c) (oc_now c) (oc_draws c)) as [[s1|e]|] eqn:Hn; [|by intros [= <-]|done].
  intros [= <-]. destruct (oc_event c) as [m| |t|t o| | | | | | | |]; cbn [runner_next] in Hn.
  - case_bool_decide; [|done]. injection Hn as Hn. destruct m; cbn [onMessage] in Hn; try (injection Hn as <-; by eapply slots_ext, Hs).
    + injection Hn as <-. by apply offerAccepted_ok.
    + injection Hn as <-. by apply taskCancelled_ok.
    + unfold receivedSettings in Hn. destruct (jm_get (runningTasks s) taskId) as [st|] eqn:Ht; [|by injection Hn as <-].
      destruct (ts_status st); try done. injection Hn as <-. by apply (set_task_ok s taskId st).
  - destruct (offerInterval s); [|done]. injection Hn as <-. by apply sendOffers_ok.
  - destruct (jm_get (runningTasks s) t) as [st|] eqn:Ht; [|done]. destruct (ts_timer st); [|done]. injection Hn as Hn.
    eapply taskTimedOut_ok; [|exact Hn]. by apply (set_task_ok s t st).
  - destruct (jm_get (runningTasks s) t) as [st|]; [|done]. destruct (ts_executing st); [|done]. injection Hn as <-. by apply executed_ok.
  - destruct (jm_has _ _); [done|]. injection Hn as <-. by eapply slots_ext, Hs.
  - destruct (jm_has _ _); [done|]. injection Hn as <-. by eapply slots_ext, Hs.
  - destruct (jm_has _ _); [done|]. injection Hn as <-. by eapply slots_ext, Hs.
  - destruct (is_settled _); [|done]. injection Hn as <-. by eapply slots_ext, Hs.
  - destruct (is_settled _); [|done]. injection Hn as <-. by eapply slots_ext, Hs.
  - destruct (is_settled _); [|done]. injection Hn as <-. by eapply slots_ext, Hs.
  - destruct (idleTimer s); [|done]. cbv zeta in Hn. case_bool_decide; injection Hn as <-; by eapply slots_ext, Hs.
  - injection Hn as <-. destruct Hs as [H1 H2 H3 H4]. split; cbn; [constructor|done|lia|done].
Qed.

Lemma runner_run_ok s cs s' : slots_ok s → runner_run s cs = Some s' → slots_ok s'.
Proof.
  revert s; induction cs as [|c cs IH]; intros s Hs; cbn; [by intros [= <-]|].
  destruct (runner_step s c) as [s1|] eqn:Hc; [|done]. by eapply IH, runner_step_ok.
Qed.

Lemma new_runner_ok idle : slots_ok (new_runner n idle).
Proof. apply resetIdleTimer_ok. split; cbn; [constructor|constructor|lia|done]. Qed.
End Capacity.

(** Whatever messages, timers and ends of executions come in whatever order, the open offers and the running tasks of a runner together never exceed its maximal concurrency. *)
Theorem runner_capacity n idle cs s :
  runner_run (new_runner n idle) cs = Some s → length (openOffers s) + length (runningTasks s) ≤ n.
Proof. intros Hr. destruct (runner_run_ok n _ _ _ (new_runner_ok n idle) Hr) as [_ _ ? <-]. done. Qed.

(** * What an event does to the tasks *)

(** The event is a cancellation of [t]. *)
Definition cancels (e : RunnerEvent) (t : string) : Prop := ∃ reason, e = EMessage (BrokerTaskCancel t reason).

(** The diagram of task-state.ts: the edges an event may take the task [t] along.
    [None] is before the offer is accepted and after the end. *)
Inductive lifecycle (e : RunnerEvent) (t : string) : option TaskStatus → option TaskStatus → Prop :=
| lc_stay x : lifecycle e t x x
| lc_accept o : e = EMessage (BrokerTaskOfferAccept o t) → lifecycle e t None (Some waitingForSettings)
| lc_drop : cancels e t ∨ e = ETaskTimer t → lifecycle e t (Some waitingForSettings) None
| lc_settings : e = EMessage (BrokerTaskSettings t) → lifecycle e t (Some waitingForSettings) (Some running)
| lc_timeout : e = ETaskTimer t → lifecycle e t (Some running) (Some aborting_timeout)
| lc_cancel : cancels e t → lifecycle e t (Some running) (Some aborting_cancelled)
| lc_end st o : st ≠ waitingForSettings → e = EExecuted t o → lifecycle e t (Some st) None.

Definition status_of (s : TaskRunner) (t : string) : option TaskStatus := ts_status <$> jm_get (runningTasks s) t.

Definition at_most (t t' : string) (n : nat) : nat := if decide (t' = t) then n else 0.

(** A task whose execution is pending has its settings; one that timed out has no timer. *)
Definition task_ok (st : TaskState) : Prop :=
  (ts_executing st = true ↔ ts_status st ≠ waitingForSettings) ∧ (ts_status st = aborting_timeout → ts_timer st = false).

Inductive effect (e : RunnerEvent) (s s' : TaskRunner) : Prop :=
| ef_none : same_tasks s s' → effect e s s'
| ef_accept t o :
    e = EMessage (BrokerTaskOfferAccept o t) → accepted (sent s) t = 0 → runningTasks s' = jm_set (runningTasks s) t new_task →
    (∀ t', answers (sent s') t' = answers (sent s) t') →
    (∀ t', accepted (sent s') t' = accepted (sent s) t' + at_most t t' 1) → effect e s s'
| ef_change t st st' :
    jm_get (runningTasks s) t = Some st → runningTasks s' = jm_set (runningTasks s) t st' →
    lifecycle e t (Some (ts_status st)) (Some (ts_status st')) → (task_ok st → task_ok st') →
    (∀ t', answers (sent s') t' = answers (sent s) t') → (∀ t', accepted (sent s') t' = accepted (sent s) t') → effect e s s'
| ef_finish t st n :
    jm_get (runningTasks s) t = Some st → runningTasks s' = jm_del (runningTasks s) t →
    lifecycle e t (Some (ts_status st)) None →
    (n = 1 ∨ n = 0 ∧ (cancels e t ∨ ts_status st = aborting_cancelled)) →
    (∀ t', answers (sent s') t' = answers (sent s) t' + at_most t t' n) → (∀ t', accepted (sent s') t' = accepted (sent s) t') →
    effect e s s'.

(** One message about [t]. *)
Lemma send_accepted s t t' : answers (sent (send s (RunnerTaskAccepted t))) t' = answers (sent s) t' ∧
  accepted (sent (send s (RunnerTaskAccepted t))) t' = accepted (sent s) t' + at_most t t' 1.
Proof.
  cbn [sent send]. rewrite answers_app, accepted_app. unfold answers at 2, accepted at 2, at_most.
  rewrite !filter_cons, !filter_nil. split; repeat case_decide; cbn; try lia; naive_solver.
Qed.

Lemma send_answer s m t t' : m = RunnerTaskDone t ∨ m = RunnerTaskError t →
  answers (sent (send s m)) t' = answers (sent s) t' + at_most t t' 1 ∧ accepted (sent (send s m)) t' = accepted (sent s) t'.
Proof.
  intros Hm. cbn [sent send]. rewrite answers_app, accepted_app. unfold answers at 2, accepted at 2, at_most.
  rewrite !filter_cons, !filter_nil. split; repeat case_decide; cbn; try lia; naive_solver.
Qed.

(** The end of a task without a message, and after one. *)
Lemma finish_effect e s s0 t st now draws n :
  jm_get (runningTasks s) t = Some st → jm_del (runningTasks s0) t = jm_del (runningTasks s) t →
  (∀ t', answers (sent s0) t' = answers (sent s) t' + at_most t t' n) → (∀ t', accepted (sent s0) t' = accepted (sent s) t') →
  lifecycle e t (Some (ts_status st)) None → (n = 1 ∨ n = 0 ∧ (cancels e t ∨ ts_status st = aborting_cancelled)) →
  effect e s (finishTask s0 t now draws).
Proof.
  intros Ht Hd Ha Hc Hl Hn. destruct (finishTask_same s0 t now draws) as [Hf _ Hfa Hfc].
  eapply (ef_finish _ _ _ t st n); [done|by rewrite Hf|done|done| |]; intros t'; [by rewrite Hfa|by rewrite Hfc].
Qed.

Lemma at_most_0 t t' : at_most t t' 0 = 0.
Proof. unfold at_most. by case_decide. Qed.

Lemma executed_effect s t st o now draws :
  jm_get (runningTasks s) t = Some st → ts_status st ≠ waitingForSettings → effect (EExecuted t o) s (executed s t st o now draws).
Proof.
  intros Ht Hst. set (e := EExecuted t o).
  assert (lifecycle e t (Some (ts_status st)) None) as Hl by by eapply lc_end.
  assert (∀ s0 m, runningTasks s0 = runningTasks s → same_tasks s s0 → m = RunnerTaskDone t ∨ m = RunnerTaskError t →
    effect e s (finishTask (send s0 m) t now draws)) as Hsend.
  { intros s0 m Hr [_ _ Ha Hc] Hm. apply (finish_effect e s (send s0 m) t st now draws 1); [done|by cbn; rewrite Hr| | |done|by left];
      intros t'; destruct (send_answer s0 m t t' Hm) as [Ea Ec]; [by rewrite Ea, Ha|by rewrite Ec, Hc]. }
  assert (ts_status st = aborting_cancelled → effect e s (finishTask s t now draws)) as Hquiet.
  { intros Hq. apply (finish_effect e s s t st now draws 0); [done|done| |done|done|right; by split; [|right]]. intros t'. by rewrite at_most_0, Nat.add_0_r. }
  assert (∀ m d, m = RunnerTaskDone t ∨ m = RunnerTaskError t → effect e s (finishTask (send (finishTask s t now draws) m) t now d)) as Htwice.
  { intros m d Hm. destruct (finishTask_same s t now draws) as [Hf _ Hfa Hfc].
    apply (finish_effect e s _ t st now d 1); [done| | | |done|by left].
    - cbn. rewrite Hf. cbn. apply jm_del_id. unfold jm_keys. intros (p & Hp & Hin)%list_elem_of_fmap. destruct p as [k v]. cbn in Hp. subst k.
      by apply jm_elem_del in Hin as [? _].
    - intros t'. destruct (send_answer (finishTask s t now draws) m t t' Hm) as [-> _]. by rewrite Hfa.
    - intros t'. destruct (send_answer (finishTask s t now draws) m t t' Hm) as [_ ->]. by rewrite Hfc. }
  unfold executed. clearbody e. destruct o as [b|]; unfold taskExecutionSucceeded, taskExecutionFailed; destruct (ts_status st) eqn:Hs; try done.
  - destruct b; [apply Hsend; [done|done|auto]|apply Htwice; auto].
  - by apply Hquiet.
  - destruct b; [apply Hsend; [done|done|auto]|apply Htwice; auto].
  - apply Hsend; [done|done|auto].
  - by apply Hquiet.
  - apply Hsend; [done|done|auto].
Qed.

Lemma taskCancelled_effect s t now draws reason :
  effect (EMessage (BrokerTaskCancel t reason)) s (taskCancelled s t now draws).
Proof.
  assert (cancels (EMessage (BrokerTaskCancel t reason)) t) as Hc by (by eexists).
  unfold taskCancelled. destruct (jm_get (runningTasks s) t) as [st|] eqn:Ht; [|by apply ef_none].
  destruct (ts_status st) eqn:Hst; [|apply (ef_change _ _ _ t st (mkTaskState aborting_cancelled (ts_timer st) (Some (default "cancelled" (ts_aborted st))) (ts_executing st)))|by apply ef_none..].
  - apply (finish_effect _ s s t st now draws 0); [done..| |done| |right; by split; [|left]].
    + intros t'. by rewrite at_most_0, Nat.add_0_r.
    + rewrite Hst. apply lc_drop. by left.
  - done.
  - done.
  - rewrite Hst. by apply lc_cancel.
  - unfold task_ok. cbn. rewrite Hst. naive_solver.
  - done.
  - done.
Qed.

Lemma taskTimedOut_effect s t st now draws s' :
  jm_get (runningTasks s) t = Some st →
  taskTimedOut (with_tasks s (jm_set (runningTasks s) t (mkTaskState (ts_status st) false (ts_aborted st) (ts_executing st)))) t now draws = Ok s' →
  effect (ETaskTimer t) s s'.
Proof.
  intros Ht. unfold taskTimedOut. cbn [runningTasks with_tasks]. rewrite jm_get_set. cbn [ts_status].
  destruct (ts_status st) eqn:Hst; [| | |done]; intros [= <-].
  - match goal with |- effect _ _ (finishTask (send ?s1 _) _ _ _) => set (s0 := s1) end.
    apply (finish_effect _ s _ t st now draws 1); [done| | | | |by left].
    + cbn [runningTasks send s0 with_tasks]. by rewrite jm_del_set.
    + intros t'. by apply (send_answer s0 _ t t'), or_intror.
    + intros t'. by apply (send_answer s0 (RunnerTaskError t) t t'); right.
    + rewrite Hst. apply lc_drop. by right.
  - apply (ef_change _ _ _ t st (mkTaskState aborting_timeout false (Some (default "timeout" (ts_aborted st))) (ts_executing st))); try done.
    + cbn [runningTasks with_tasks cancelTaskRequests with_calls abort]. by rewrite jm_set_set.
    + rewrite Hst. by apply lc_timeout.
    + unfold task_ok. cbn. rewrite Hst. naive_solver.
  - apply (ef_change _ _ _ t st (mkTaskState aborting_cancelled false (ts_aborted st) (ts_executing st))); try done.
    + cbn [ts_status]. rewrite Hst. apply lc_stay.
    + unfold task_ok. cbn. rewrite Hst. naive_solver.
Qed.

Lemma new_task_id_accepted s o t : new_task_id s (BrokerTaskOfferAccept o t) → accepted (sent s) t = 0.
Proof.
  unfold new_task_id, accepted. induction 1 as [|m l Hm _ IH]; [done|]. rewrite filter_cons, decide_False; [done|].
  intros ->. done.
Qed.

Lemma offerAccepted_effect s o t :
  new_task_id s (BrokerTaskOfferAccept o t) → effect (EMessage (BrokerTaskOfferAccept o t)) s (offerAccepted s o t).
Proof.
  intros Hnew. unfold offerAccepted. destruct (isShuttingDown s); [by apply ef_none, send_same|].
  destruct (negb _); [apply ef_none; etransitivity; [|by apply send_same]; done|].
  destruct (jm_get (openOffers s) o); [|by apply ef_none, send_same].
  set (s1 := with_offers s (jm_del (openOffers s) o)).
  destruct (resetIdleTimer_same s1) as [Ht _ Ha Hc].
  set (s2 := with_tasks (resetIdleTimer s1) (jm_set (runningTasks (resetIdleTimer s1)) t new_task)).
  apply (ef_accept _ _ _ t o); [done|by apply new_task_id_accepted in Hnew| | |].
  - cbn [runningTasks send s2 with_tasks]. by rewrite Ht.
  - intros t'. destruct (send_accepted s2 t t') as [-> _]. apply Ha.
  - intros t'. destruct (send_accepted s2 t t') as [_ ->]. f_equal. apply Hc.
Qed.

Lemma receivedSettings_effect s t s' : receivedSettings s t = Ok s' → effect (EMessage (BrokerTaskSettings t)) s s'.
Proof.
  unfold receivedSettings. destruct (jm_get (runningTasks s) t) as [st|] eqn:Ht; [|by intros [= <-]; apply ef_none].
  destruct (ts_status st) eqn:Hst; try done. intros [= <-].
  apply (ef_change _ _ _ t st (mkTaskState running (ts_timer st) (ts_aborted st) true)); try done. rewrite Hst. by apply lc_settings.
Qed.

Lemma step_effect s c s' :
  (∀ t st, jm_get (runningTasks s) t = Some st → task_ok st) → runner_step s c = Some s' → effect (oc_event c) s s'.
Proof.
  intros Hok. unfold runner_step. case_bool_decide; [|done].
  destruct (runner_next s (oc_event c) (oc_now c) (oc_draws c)) as [[s1|e]|] eqn:Hn; [|by intros [= <-]; apply ef_none|done].
  intros [= <-]. destruct (oc_event c) as [m| |t|t o| | | | | | | |]; cbn [runner_next] in Hn.
  - case_bool_decide; [|done]. injection Hn as Hn. destruct m; cbn [onMessage] in Hn; try (injection Hn as <-; apply ef_none; by try apply send_same).
    + injection Hn as <-. by apply offerAccepted_effect.
    + injection Hn as <-. apply taskCancelled_effect.
    + by apply receivedSettings_effect.
  - destruct (offerInterval s); [|done]. injection Hn as <-. apply ef_none, sendOffers_same.
  - destruct (jm_get (runningTasks s) t) as [st|] eqn:Ht; [|done]. destruct (ts_timer st); [|done]. injection Hn as Hn.
    by eapply taskTimedOut_effect.
  - destruct (jm_get (runningTasks s) t) as [st|] eqn:Ht; [|done]. destruct (ts_executing st) eqn:Hx; [|done]. injection Hn as <-.
    apply executed_effect; [done|]. by apply (Hok t st Ht).
  - destruct (jm_has _ _); [done|]. injection Hn as <-. apply ef_none. unfold requestData. etransitivity; [|by apply send_same]. done.
  - destruct (jm_has _ _); [done|]. injection Hn as <-. apply ef_none. unfold requestNodeTypes. etransitivity; [|by apply send_same]. done.
  - destruct (jm_has _ _); [done|]. injection Hn as <-. apply ef_none. unfold makeRpcCall. etransitivity; [|by apply send_same]. done.
  - destruct (is_settled _); [|done]. injection Hn as <-. by apply ef_none.
  - destruct (is_settled _); [|done]. injection Hn as <-. by apply ef_none.
  - destruct (is_settled _); [|done]. injection Hn as <-. by apply ef_none.
  - destruct (idleTimer s); [|done]. cbv zeta in Hn. case_bool_decide; injection Hn as <-; apply ef_none; [|done].
    etransitivity; [|by apply send_same]. done.
  - injection Hn as <-. by apply ef_none.
Qed.

(** * Every accepted task is answered *)

(** What holds of each task [t] after the events [h]. *)
Record task_account (h : list RunnerEvent) (s : TaskRunner) (t : string) : Prop := {
  ta_ok st : jm_get (runningTasks s) t = Some st → task_ok st;
  ta_running st : jm_get (runningTasks s) t = Some st → accepted (sent s) t = 1 ∧ answers (sent s) t = 0;
  ta_cancelled st : jm_get (runningTasks s) t = Some st → ts_status st = aborting_cancelled → Exists (λ e, cancels e t) h;
  ta_once : answers (sent s) t ≤ accepted (sent s) t ≤ 1;
  ta_ended : jm_get (runningTasks s) t = None → accepted (sent s) t = 1 → answers (sent s) t = 1 ∨ Exists (λ e, cancels e t) h;
}.

Lemma at_most_ne t t' n : t' ≠ t → at_most t t' n = 0.
Proof. intros. unfold at_most. by rewrite decide_False. Qed.
Lemma at_most_eq t n : at_most t t n = n.
Proof. unfold at_most. by rewrite decide_True. Qed.

(** A task an event does not touch. *)
Lemma account_same h e s s' t :
  jm_get (runningTasks s') t = jm_get (runningTasks s) t → answers (sent s') t = answers (sent s) t →
  accepted (sent s') t = accepted (sent s) t → task_account h s t → task_account (e :: h) s' t.
Proof.
  intros Ht Ha Hc [H1 H2 H3 H4 H5]. split; rewrite ?Ht, ?Ha, ?Hc; try done.
  - intros st Hst Hs. right. by eapply H3.
  - intros Hn Hac. destruct (H5 Hn Hac) as [|]; [by left|right; by right].
Qed.

Lemma effect_account h e s s' t :
  jm_wf (runningTasks s) → effect e s s' → task_account h s t → task_account (e :: h) s' t.
Proof.
  intros Hwf He Hacc. destruct He as [[Ht _ Ha Hc]|t0 o -> Hnew Ht Ha Hc|t0 st st' Hst Ht Hl Hok Ha Hc|t0 st n Hst Ht Hl Hn Ha Hc].
  - apply (account_same h e s); try done; by rewrite Ht.
  - specialize (Ha t). specialize (Hc t). destruct (decide (t = t0)) as [->|Hne].
    + rewrite at_most_eq in Hc. pose proof (ta_once _ _ _ Hacc).
      assert (jm_get (runningTasks s') t0 = Some new_task) as Hg by (by rewrite Ht, jm_get_set).
      split; try (intros ? Hg'; rewrite Hg in Hg'; injection Hg' as <-); try done; [lia|lia|congruence].
    + rewrite at_most_ne, Nat.add_0_r in Hc by done. apply (account_same h _ s); try done. rewrite Ht. by apply jm_get_set_ne.
  - specialize (Ha t). specialize (Hc t). destruct (decide (t = t0)) as [->|Hne].
    + assert (jm_get (runningTasks s') t0 = Some st') as Hg by (by rewrite Ht, jm_get_set). destruct Hacc as [H1 H2 H3 H4 H5].
      split; try (intros ? Hg'; rewrite Hg in Hg'; injection Hg' as <-).
      * by eapply Hok, H1.
      * rewrite Ha, Hc. by eapply H2.
      * intros Hs. rewrite Hs in Hl. inversion Hl; subst; [right; by eapply H3|by left].
      * by rewrite Ha, Hc.
      * congruence.
    + apply (account_same h e s); try done. rewrite Ht. by apply jm_get_set_ne.
  - specialize (Ha t). specialize (Hc t). destruct (decide (t = t0)) as [->|Hne].
    + assert (jm_get (runningTasks s') t0 = None) as Hg by (by rewrite Ht, jm_get_del). destruct Hacc as [H1 H2 H3 H4 H5].
      rewrite at_most_eq in Ha. destruct (H2 _ Hst) as [Hac Han].
      split; try (intros ? Hg'; by rewrite Hg in Hg').
      * destruct Hn as [->|[-> _]]; lia.
      * intros _ _. destruct Hn as [->|[-> [Hcan|Hs]]]; [left; lia|right; by left|right; right; by eapply H3].
    + rewrite at_most_ne, Nat.add_0_r in Ha by done. apply (account_same h e s); try done. rewrite Ht. by apply jm_get_del_ne.
Qed.

(** The states reached after the events [h], the last one first. *)
Definition accounts (n : nat) (h : list RunnerEvent) (s : TaskRunner) : Prop := slots_ok n s ∧ ∀ t, task_account h s t.

Lemma new_runner_account n idle : accounts n [] (new_runner n idle).
Proof.
  split; [apply new_runner_ok|]. intros t.
  assert (runningTasks (new_runner n idle) = [] ∧ sent (new_runner n idle) = []) as [Hr Hs]
    by (unfold new_runner, resetIdleTimer; by case_bool_decide).
  split; rewrite ?Hr, ?Hs; try done. cbn. lia.
Qed.

Lemma step_account n h s c s' : accounts n h s → runner_step s c = Some s' → accounts n (oc_event c :: h) s'.
Proof.
  intros [Hs Ha] Hc. split; [by eapply runner_step_ok|]. intros t. eapply effect_account, Ha; [apply Hs|].
  apply step_effect; [|done]. intros t0 st. apply (Ha t0).
Qed.

Lemma run_account n h s cs s' : accounts n h s → runner_run s cs = Some s' → accounts n (rev (oc_event <$> cs) ++ h) s'.
Proof.
  revert h s; induction cs as [|c cs IH]; intros h s Hs; cbn; [by intros [= <-]|].
  destruct (runner_step s c) as [s1|] eqn:Hc; [|done]. intros Hr. rewrite <-(assoc_L (++)). by eapply IH; [eapply step_account|].
Qed.

(** A task the runner accepted is answered exactly once, with its data or an error, unless the broker cancelled it; while it runs it has not been answered; and no task is answered without having been accepted, or twice. *)
Theorem accepted_answered_once n idle cs s t :
  runner_run (new_runner n idle) cs = Some s →
  answers (sent s) t ≤ accepted (sent s) t ≤ 1 ∧
  (jm_get (runningTasks s) t ≠ None → accepted (sent s) t = 1 ∧ answers (sent s) t = 0) ∧
  (jm_get (runningTasks s) t = None → accepted (sent s) t = 1 →
    answers (sent s) t = 1 ∨ Exists (λ c, cancels (oc_event c) t) cs).
Proof.
  intros Hr. destruct (run_account n _ _ _ _ (new_runner_account n idle) Hr) as [_ Ha]. destruct (Ha t) as [_ H2 _ H4 H5].
  split_and!; [apply H4|apply H4| |].
  - destruct (jm_get (runningTasks s) t); [by intros _; eapply H2|done].
  - intros Hn Hc. destruct (H5 Hn Hc) as [|Hx]; [by left|right]. rewrite app_nil_r in Hx.
    apply Exists_exists in Hx as (e & He & Hcan). apply list_elem_of_In, in_rev, list_elem_of_In, list_elem_of_fmap in He as (c & -> & Hin).
    apply Exists_exists. eauto.
Qed.

(** C35: The life cycle drawn in task-state.ts is what the handlers implement: in every reachable state, whatever happens next takes each task along an edge of the diagram that carries that event, or leaves it where it is. *)
Theorem runner_refines_lifecycle n idle cs s c s' t :
  runner_run (new_runner n idle) cs = Some s → runner_step s c = Some s' →
  lifecycle (oc_event c) t (status_of s t) (status_of s' t).
Proof.
  intros Hr Hc. destruct (run_account n _ _ _ _ (new_runner_account n idle) Hr) as [_ Ha].
  assert (effect (oc_event c) s s') as He by (apply step_effect; [intros t0 st; apply (Ha t0)|done]). unfold status_of.
  destruct He as [[Ht _ _ _]|t0 o He Hnew Ht _ _|t0 st st' Hst Ht Hl _ _ _|t0 st k Hst Ht Hl _ _ _]; rewrite Ht; [constructor|..];
    (destruct (decide (t0 = t)) as [<-|Hne]; [|rewrite ?jm_get_set_ne, ?jm_get_del_ne by done; constructor]).
  - rewrite jm_get_set. destruct (jm_get (runningTasks s) t0) as [st|] eqn:Hst; [|by eapply lc_accept].
    destruct (Ha t0) as [_ H2 _ _ _]. destruct (H2 st Hst). lia.
  - by rewrite jm_get_set, Hst.
  - by rewrite jm_get_del, Hst.
Qed.

(** * Witnesses *)

(** Two tasks: the first is executed, the second cancelled before its settings come. *)
Definition occ (e : RunnerEvent) (now : Z) (d1 d2 : string) : Occurrence := mkOccurrence e now [(d1, 10%Z); (d2, 20%Z)].
Definition day : list Occurrence := [
  occ (EMessage BrokerInfoRequest) 0 "a" "b"; occ (EMessage BrokerRunnerRegistered) 0 "a" "b";
  occ EOfferInterval 250 "o1" "o2"; occ (EMessage (BrokerTaskOfferAccept "o1" "t1")) 300 "o3" "o4";
  occ (EMessage (BrokerTaskOfferAccept "o2" "t2")) 300 "o3" "o4"; occ (EMessage (BrokerTaskSettings "t1")) 310 "o3" "o4";
  occ (ERequestData "t1" "r1") 315 "o3" "o4"; occ (EMessage (BrokerTaskCancel "t2" "x")) 320 "o3" "o4";
  occ (EMessage (BrokerTaskDataResponse "r1")) 330 "o5" "o6"; occ (EDataSettled "r1") 331 "o5" "o6" ].
Definition day_runner : TaskRunner := Eval vm_compute in default (new_runner 2 15) (runner_run (new_runner 2 15) day).
Lemma day_reached : runner_run (new_runner 2 15) day = Some day_runner.
Proof. by vm_compute. Qed.

Definition day_end : Occurrence := occ (EExecuted "t1" (Succeeded true)) 400 "o5" "o6".
Definition day_over : TaskRunner := Eval vm_compute in default day_runner (runner_step day_runner day_end).
Lemma day_ends : runner_step day_runner day_end = Some day_over.
Proof. by vm_compute. Qed.
Lemma day_over_reached : runner_run (new_runner 2 15) (day ++ [day_end]) = Some day_over.
Proof. by vm_compute. Qed.

Lemma runner_capacity_witness :
  (length (openOffers day_runner), length (runningTasks day_runner)) = (1, 1) ∧ length (openOffers day_runner) + length (runningTasks day_runner) ≤ 2.
Proof. split; [reflexivity|exact (runner_capacity 2 15 day day_runner day_reached)]. Defined.

Lemma accepted_answered_once_witness :
  jm_get (runningTasks day_over) "t1" = None ∧
  (accepted (sent day_over) "t1" = 1 →
    answers (sent day_over) "t1" = 1 ∨ Exists (λ c, cancels (oc_event c) "t1") (day ++ [day_end])).
Proof. split; [reflexivity|exact (proj2 (proj2 (accepted_answered_once 2 15 (day ++ [day_end]) day_over "t1" day_over_reached)) eq_refl)]. Defined.

Lemma runner_refines_lifecycle_witness :
  status_of day_runner "t1" = Some running ∧ status_of day_over "t1" = None ∧
  lifecycle (oc_event day_end) "t1" (status_of day_runner "t1") (status_of day_over "t1").
Proof. split; [reflexivity|]. split; [reflexivity|]. exact (runner_refines_lifecycle 2 15 day day_runner day_end day_over "t1" day_reached day_ends). Defined.
