(* ===== verification/RunnerSystem.v ===== *)
(** RunnerSystem: the broker and its runners together.

    cli/src/task-runners/task-broker/task-broker-ws-server.ts connects them: every
    runner has a WebSocket, which delivers the messages of each direction in order.
    What the broker starts for one event runs before the next one (the continuations
    of settled promises are microtasks).  Runners are those of [TaskRunner]; ids of
    runners and tasks are drawn once. *)

From stdpp Require Import prelude list strings relations.
From Stdlib Require Import ZArith Lia.
From S2P Require Import Prelude TaskBroker TaskRunner.
Local Open Scope nat_scope.

(** * Messages on the wire *)

(** [ReachedIdleTimeout] is an event of the process of the runner, not a message. *)
Definition wire_up (taskType : string) (m : FromRunner) : option RunnerMessage :=
  match m with
  | RunnerInfo => Some RmInfo
  | RunnerTaskOffer offerId validFor => Some (RmTaskOffer offerId taskType validFor)
  | RunnerTaskAccepted taskId => Some (RmTaskAccepted taskId)
  | RunnerTaskRejected taskId _ => Some (RmTaskRejected taskId)
  | RunnerTaskDone taskId => Some (RmTaskDone taskId)
  | RunnerTaskError taskId => Some (RmTaskError taskId)
  | RunnerDataRequest taskId requestId => Some (RmTaskDataRequest taskId requestId)
  | RunnerNodeTypesRequest taskId requestId => Some (RmNodeTypesRequest taskId requestId)
  | RunnerRpc taskId callId => Some (RmRpc taskId callId)
  | ReachedIdleTimeout => None
  end.

Definition wire_down (m : ToRunner) : BrokerMessage :=
  match m with
  | RunnerRegistered => BrokerRunnerRegistered
  | TaskOfferAccept offerId taskId => BrokerTaskOfferAccept offerId taskId
  | RunnerTaskCancel taskId reason => BrokerTaskCancel taskId reason
  | RunnerTaskSettings taskId => BrokerTaskSettings taskId
  | RunnerTaskDataResponse _ requestId => BrokerTaskDataResponse requestId
  | RunnerNodeTypes _ requestId => BrokerNodeTypes requestId
  | RunnerRpcResponse _ callId success => BrokerRpcResponse callId success
  end.

(** A connection: the runner at its other end, whether it has introduced itself, and
    the messages under way. *)
Record Connection := mkConnection {
  cn_runner : TaskRunner.TaskRunner;
  cn_taskType : string;
  cn_isConnected : bool;
  cn_up : list RunnerMessage;
  cn_down : list BrokerMessage;
}.

Record System := mkSystem {
  sy_broker : TaskBroker.TaskBroker;
  connections : jmap string Connection;
  sy_runners : list string;
  sy_tasks : list string;
}.

Definition new_system : System := mkSystem new_broker [] [] [].

Definition with_connections (s : System) (m : jmap string Connection) : System := mkSystem (sy_broker s) m (sy_runners s) (sy_tasks s).
Definition set_up (c : Connection) (l : list RunnerMessage) : Connection :=
  mkConnection (cn_runner c) (cn_taskType c) (cn_isConnected c) l (cn_down c).
Definition set_isConnected (c : Connection) : Connection :=
  mkConnection (cn_runner c) (cn_taskType c) true (cn_up c) (cn_down c).
Definition push_down (c : Connection) (l : list BrokerMessage) : Connection :=
  mkConnection (cn_runner c) (cn_taskType c) (cn_isConnected c) (cn_up c) (cn_down c ++ l).

(** What the broker said to the runner [id]. *)
Definition to_runner (id : string) (m : Message) : option BrokerMessage :=
  match m with MsgRunner id' m => if decide (id' = id) then Some (wire_down m) else None | MsgRequester _ _ => None end.

(** [sendMessage]: to the registered connection with the id. *)
Definition sendMessage (ms : list Message) (p : string * Connection) : string * Connection :=
  (p.1, if cn_isConnected p.2 then push_down p.2 (omap (to_runner p.1) ms) else p.2).

(** * The broker *)

(** No promise an [acceptOffer] awaits is settled: there is nothing left to run. *)
Definition answered (b : TaskBroker.TaskBroker) (t : string) : bool :=
  match ac_phase <$> jm_get (accepts b) t with Some (AwaitRunner (Some _)) | Some (AwaitRequester (Some _)) => true | _ => false end.
Definition quiet (b : TaskBroker.TaskBroker) : bool := forallb (λ t, negb (answered b t)) (jm_keys (accepts b)).

(** The ids an event draws. *)
Definition drawn_ids (e : BrokerEvent) : list string :=
  match e with ERunnerMessage _ _ _ ids | ERequesterMessage _ _ _ _ ids => ids | _ => [] end.

(** One event with the continuations it starts, in the order [ts]; its messages go
    out. *)
Definition broker_turn (internal : bool) (s : System) (e : BrokerEvent) (ts : list string) : option System :=
  if bool_decide (Forall (λ t, t ∉ sy_tasks s) (drawn_ids e)) then
    b ← broker_run internal (sy_broker s) (e :: (EContinue <$> ts));
    if quiet b then
      Some (mkSystem b (sendMessage (drop (length (TaskBroker.sent (sy_broker s))) (TaskBroker.sent b)) <$> connections s)
        (sy_runners s) (drawn_ids e ++ sy_tasks s))
    else None
  else None.

(** The events that are no messages of runners and no registrations. *)
Definition own_event (e : BrokerEvent) : bool :=
  match e with
  | ERunnerMessage _ _ _ _ | ERegisterRunner _ | EDeregisterRunner _ | EContinue _ | EStartDraining => false
  | _ => true
  end.

(** * The connections *)

(** [add], up to the first message of the runner. *)
Definition add (s : System) (id taskType : string) (maxConcurrency : nat) (idleTimeout : Z) : System :=
  let c := mkConnection (new_runner maxConcurrency idleTimeout) taskType false [] [BrokerInfoRequest] in
  mkSystem (sy_broker s) (jm_set (connections s) id c) (id :: sy_runners s) (sy_tasks s).

(** [onMessage] of a connection. *)
Definition onConnectionMessage (internal : bool) (s : System) (id : string) (c : Connection) (m : RunnerMessage) (now : Z)
    (ids ts : list string) : option System :=
  if cn_isConnected c then broker_turn internal s (ERunnerMessage id m now ids) ts
  else match m with
  | RmInfo => broker_turn internal (with_connections s (jm_set (connections s) id (set_isConnected c))) (ERegisterRunner id) ts
  | _ => Some s
  end.

(** The connection is closed: what is under way is lost, and the runner exits. *)
Definition removeConnection (internal : bool) (s : System) (id : string) (c : Connection) (ts : list string) : option System :=
  let s := with_connections s (jm_del (connections s) id) in
  if cn_isConnected c then broker_turn internal s (EDeregisterRunner id) ts else Some s.

(** The beginning of [drainActiveTasks]. *)
Definition drain (internal : bool) (s : System) : option System :=
  s ← broker_turn internal s EStartDraining [];
  Some (with_connections s (jm_map (λ c, if cn_isConnected c then push_down c [BrokerDrain] else c) (connections s))).

(** * The runners *)

Definition runner_turn (s : System) (id : string) (c : Connection) (o : Occurrence) : option System :=
  r ← runner_step (cn_runner c) o;
  let said := omap (wire_up (cn_taskType c)) (drop (length (TaskRunner.sent (cn_runner c))) (TaskRunner.sent r)) in
  Some (with_connections s (jm_set (connections s) id
    (mkConnection r (cn_taskType c) (cn_isConnected c) (cn_up c ++ said) (cn_down c)))).

Definition is_message (e : RunnerEvent) : bool := match e with EMessage _ => true | _ => false end.

(** * Events *)

Inductive SystemEvent :=
| SAdd (id taskType : string) (maxConcurrency : nat) (idleTimeout : Z)
| SClose (id : string) (ts : list string)
| SDrain
| SBroker (e : BrokerEvent) (ts : list string)
| SToBroker (id : string) (now : Z) (ids ts : list string)
| SToRunner (id : string) (now : Z) (draws : list (string * Z))
| SRunner (id : string) (o : Occurrence).

(** [None]: the event cannot happen. *)
Definition system_next (internal : bool) (s : System) (e : SystemEvent) : option System :=
  match e with
  | SAdd id taskType n idle => if bool_decide (id ∈ sy_runners s) then None else Some (add s id taskType n idle)
  | SClose id ts => c ← jm_get (connections s) id; removeConnection internal s id c ts
  | SDrain => drain internal s
  | SBroker e ts => if own_event e then broker_turn internal s e ts else None
  | SToBroker id now ids ts =>
      c ← jm_get (connections s) id;
      match cn_up c with
      | [] => None
      | m :: up =>
          let c := set_up c up in
          onConnectionMessage internal (with_connections s (jm_set (connections s) id c)) id c m now ids ts
      end
  | SToRunner id now draws =>
      c ← jm_get (connections s) id;
      match cn_down c with
      | [] => None
      | m :: down =>
          runner_turn s id (mkConnection (cn_runner c) (cn_taskType c) (cn_isConnected c) (cn_up c) down)
            (mkOccurrence (EMessage m) now draws)
      end
  | SRunner id o => c ← jm_get (connections s) id; if is_message (oc_event o) then None else runner_turn s id c o
  end.

Fixpoint system_run (internal : bool) (s : System) (es : list SystemEvent) : option System :=
  match es with [] => Some s | e :: es => s' ← system_next internal s e; system_run internal s' es end.
