(* ===== verification/BrokerViews.v ===== *)
(** BrokerViews: the broker, seen from one task.  Every event changes what the broker
    holds of a task, and says about it, by a sequence of a few moves. *)

From stdpp Require Import prelude list strings relations.
From Stdlib Require Import ZArith Lia.
From S2P Require Import Prelude TaskBroker TaskBrokerProofs TaskRunner TaskRunnerProofs RunnerSystem.
Local Open Scope nat_scope.

(** * Views and moves *)

Inductive Said := SaidOffer | SaidCancel | SaidSettings.
#[export] Instance Said_eq_dec : EqDecision Said.
Proof. solve_decision. Defined.

(** What a message tells which runner about the task [t]. *)
Definition said_of (t : string) (m : Message) : option (string * Said) :=
  match m with
  | MsgRunner r (TaskOfferAccept _ t') => if decide (t' = t) then Some (r, SaidOffer) else None
  | MsgRunner r (RunnerTaskCancel t' _) => if decide (t' = t) then Some (r, SaidCancel) else None
  | MsgRunner r (RunnerTaskSettings t') => if decide (t' = t) then Some (r, SaidSettings) else None
  | _ => None
  end.

(** The runner of the task, the process that offers it with its runner, what was said
    to runners, and the runners known. *)
Record View := mkView {
  vw_task : option string;
  vw_proc : option (string * AcceptPhase);
  vw_said : list (string * Said);
  vw_known : list string;
}.

Definition runner_of (p : Accept) : string := o_runnerId (ac_offer p).
Definition view (b : TaskBroker.TaskBroker) (t : string) : View :=
  mkView (t_runnerId <$> jm_get (tasks b) t) ((λ p, (runner_of p, ac_phase p)) <$> jm_get (accepts b) t)
    (omap (said_of t) (TaskBroker.sent b)) (knownRunners b).

(** [A]: a runner's acceptance of the task is being handled.  [F]: the task id is among
    the new ones.  [K]: the runners whose offers may be taken. *)
Inductive move (K : string → Prop) (A F : Prop) : View → View → Prop :=
| mv_start r s k :
    F → K r → s = [] ∨ s = [(r, SaidOffer)] → move K A F (mkView None None [] k) (mkView None (Some (r, AwaitRunner None)) s k)
| mv_answer v r a s k :
    (a = RunnerAccepted → A) → move K A F (mkView v (Some (r, AwaitRunner None)) s k) (mkView v (Some (r, AwaitRunner (Some a))) s k)
| mv_store v r p s k :
    p = None ∨ p = Some (r, AwaitRequester None) →
    move K A F (mkView v (Some (r, AwaitRunner (Some RunnerAccepted))) s k) (mkView (Some r) p s k)
| mv_give_up v r a s k : a ≠ RunnerAccepted → move K A F (mkView v (Some (r, AwaitRunner (Some a))) s k) (mkView v None s k)
| mv_settings v r a s k : move K A F (mkView v (Some (r, AwaitRequester None)) s k) (mkView v (Some (r, AwaitRequester (Some a))) s k)
| mv_hand_over v r a s s' k :
    s' = s ∨ (∃ r', v = Some r' ∧ s' = s ++ [(r', SaidSettings)]) →
    move K A F (mkView v (Some (r, AwaitRequester (Some a))) s k) (mkView v None s' k)
| mv_end r p s s' k : s' = s ∨ s' = s ++ [(r, SaidCancel)] → move K A F (mkView (Some r) p s k) (mkView None p s' k).

Definition moves (K : string → Prop) (A F : Prop) : relation View := rtc (move K A F).

#[export] Instance moves_preorder K A F : PreOrder (moves K A F).
Proof. apply _. Qed.

Lemma moves_weaken K (A A' F F' : Prop) v w : (A → A') → (F → F') → moves K A F v w → moves K A' F' v w.
Proof.
  intros HA HF H. induction H as [|v1 v2 v3 Hm _ IH]; [apply rtc_refl|]. eapply rtc_l; [|exact IH].
  destruct Hm; [apply mv_start|apply mv_answer|apply mv_store|apply mv_give_up|apply mv_settings|eapply mv_hand_over|apply mv_end]; auto.
Qed.

Lemma view_ext b b' t :
  jm_get (tasks b') t = jm_get (tasks b) t → jm_get (accepts b') t = jm_get (accepts b) t →
  omap (said_of t) (TaskBroker.sent b') = omap (said_of t) (TaskBroker.sent b) → knownRunners b' = knownRunners b → view b' t = view b t.
Proof. intros Ht Ha Hs Hk. unfold view. by rewrite Ht, Ha, Hs, Hk. Qed.

(** ** Messages *)

Lemma messageRequester_view b q m t : view (messageRequester b q m) t = view b t.
Proof.
  unfold messageRequester. case_match; [|done]. apply view_ext; try done. cbn. rewrite omap_app. cbn. by rewrite app_nil_r.
Qed.

Lemma messageRunner_view b r m t :
  view (messageRunner b r m) t =
    mkView (vw_task (view b t)) (vw_proc (view b t))
      (vw_said (view b t) ++ (if js_has (knownRunners b) r then option_list (said_of t (MsgRunner r m)) else [])) (knownRunners b).
Proof.
  unfold messageRunner. destruct (js_has _ _); unfold view; cbn [vw_task vw_proc vw_said vw_known]; [|by rewrite app_nil_r].
  cbn [tasks accepts TaskBroker.sent knownRunners TaskBroker.send]. rewrite omap_app. cbn [omap list_omap].
  by destruct (said_of t (MsgRunner r m)).
Qed.

Lemma messageRunner_quiet b r m t : said_of t (MsgRunner r m) = None → view (messageRunner b r m) t = view b t.
Proof. intros Hm. rewrite messageRunner_view, Hm. cbn. destruct (js_has _ _); unfold view; cbn; by rewrite app_nil_r. Qed.

Lemma messageRunner_known b r m : knownRunners (messageRunner b r m) = knownRunners b.
Proof. unfold messageRunner. by destruct (js_has _ _). Qed.
Lemma messageRequester_known b q m : knownRunners (messageRequester b q m) = knownRunners b.
Proof. unfold messageRequester. by destruct (js_has _ _). Qed.

(** ** Tasks *)

Section Moves.
Context (K : string → Prop) (A F : Prop).
#[local] Notation go b t b' := (moves K A F (view b t) (view b' t)).

Lemma del_task_view b t t' :
  view (TaskBroker.with_tasks b (jm_del (tasks b) t')) t = mkView (if decide (t' = t) then None else vw_task (view b t)) (vw_proc (view b t)) (vw_said (view b t)) (vw_known (view b t)).
Proof. unfold view. cbn. destruct (decide (t' = t)) as [->|Hne]; [by rewrite jm_get_del|by rewrite jm_get_del_ne]. Qed.

Lemma view_eta b t : view b t = mkView (vw_task (view b t)) (vw_proc (view b t)) (vw_said (view b t)) (knownRunners b).
Proof. done. Qed.

Lemma del_task_move b t t' : go b t (TaskBroker.with_tasks b (jm_del (tasks b) t')).
Proof.
  rewrite del_task_view. destruct (decide (t' = t)) as [->|]; [|reflexivity].
  destruct (vw_task (view b t)) as [r|] eqn:Ht; [|rewrite <-Ht; reflexivity].
  rewrite (view_eta b t), Ht. cbn. apply rtc_once, mv_end. by left.
Qed.

Lemma failTask_move b t t' : go b t (failTask b t').
Proof. unfold failTask. case_match; [|reflexivity]. rewrite messageRequester_view. apply del_task_move. Qed.

Lemma end_task_move b t t' m : go b t (end_task b t' m).
Proof.
  unfold end_task. case_match; [|reflexivity]. etransitivity; [|apply del_task_move]. by rewrite messageRequester_view.
Qed.

(** A cancellation is sent to the runner of the task as the task is deleted. *)
Lemma cancel_move b t t' task reason v :
  jm_get (tasks b) t' = Some task →
  v = mkView (if decide (t' = t) then None else vw_task (view b t)) (vw_proc (view b t))
        (vw_said (view b t) ++ (if js_has (knownRunners b) (t_runnerId task) then option_list (said_of t (MsgRunner (t_runnerId task) (RunnerTaskCancel t' reason))) else []))
        (knownRunners b) →
  moves K A F (view b t) v.
Proof.
  intros Ht ->. cbn [said_of]. destruct (decide (t' = t)) as [->|]; [|by destruct (js_has _ _); cbn; rewrite app_nil_r].
  rewrite (view_eta b t) at 1. assert (vw_task (view b t) = Some (t_runnerId task)) as -> by (unfold view; cbn; by rewrite Ht).
  apply rtc_once, mv_end. destruct (js_has _ _); cbn; [by right|left; by rewrite app_nil_r].
Qed.

Lemma cancelTask_move b t t' reason : go b t (cancelTask b t' reason).
Proof.
  unfold cancelTask. destruct (jm_get (tasks b) t') as [task|] eqn:Ht; [|reflexivity].
  apply (cancel_move b t t' task reason); [done|]. by rewrite messageRunner_view, del_task_view.
Qed.

Lemma handleTaskTimeout_move internal b t t' : go b t (handleTaskTimeout internal b t').
Proof.
  unfold handleTaskTimeout. destruct (jm_get (tasks b) t') as [task|] eqn:Ht; [|reflexivity]. cbv zeta.
  destruct internal; [apply end_task_move|]. unfold taskErrorHandler, end_task.
  assert (tasks (messageRunner b (t_runnerId task) (RunnerTaskCancel t' "Task execution timed out")) = tasks b) as Hb
    by (unfold messageRunner; by case_match).
  rewrite Hb, Ht. apply (cancel_move b t t' task "Task execution timed out"); [done|].
  rewrite del_task_view, messageRequester_view, messageRunner_view. done.
Qed.

Lemma getRunnerOrFailTask_move b t t' : go b t (getRunnerOrFailTask b t').1.
Proof. unfold getRunnerOrFailTask. repeat case_match; cbn; [reflexivity|apply failTask_move|reflexivity]. Qed.

Lemma respond_to_runner_move b t t' m : (∀ r, said_of t (MsgRunner r m) = None) → go b t (respond_to_runner b t' m).1.
Proof.
  intros Hm. unfold respond_to_runner. case_match; [reflexivity|]. pose proof (getRunnerOrFailTask_move b t t') as Hg.
  destruct (getRunnerOrFailTask b t') as [b' [r|e]]; [|exact Hg]. cbn [fst] in *. by rewrite messageRunner_quiet.
Qed.

Lemma ask_requester_view b t t' m : view (ask_requester b t' m) t = view b t.
Proof. unfold ask_requester. case_match; [apply messageRequester_view|done]. Qed.

(** ** Processes *)

Lemma set_proc_view b t t' p :
  view (with_accepts b (jm_set (accepts b) t' p)) t =
    mkView (vw_task (view b t)) (if decide (t' = t) then Some (runner_of p, ac_phase p) else vw_proc (view b t)) (vw_said (view b t)) (knownRunners b).
Proof. unfold view. cbn. destruct (decide (t' = t)) as [->|Hne]; [by rewrite jm_get_set|by rewrite jm_get_set_ne]. Qed.

Lemma drop_proc_view b t t' :
  view (drop_accept b t') t =
    mkView (vw_task (view b t)) (if decide (t' = t) then None else vw_proc (view b t)) (vw_said (view b t)) (knownRunners b).
Proof. unfold view. cbn. destruct (decide (t' = t)) as [->|Hne]; [by rewrite jm_get_del|by rewrite jm_get_del_ne]. Qed.

Lemma proc_view b t p : jm_get (accepts b) t = Some p → view b t = mkView (vw_task (view b t)) (Some (runner_of p, ac_phase p)) (vw_said (view b t)) (knownRunners b).
Proof. intros Hp. unfold view. cbn. by rewrite Hp. Qed.

Lemma settle_runner_move b t t' a : (t' = t → a = RunnerAccepted → A) → go b t (settle_runner b t' a).
Proof.
  intros Ha. unfold settle_runner. destruct (jm_get (accepts b) t') as [p|] eqn:Hp; [|reflexivity].
  destruct (ac_phase p) as [[]|] eqn:Hph; try reflexivity. rewrite set_proc_view.
  destruct (decide (t' = t)) as [->|]; [|reflexivity]. rewrite (proc_view b t p Hp), Hph. apply rtc_once, mv_answer. auto.
Qed.

Lemma settle_requester_move b t t' a : go b t (settle_requester b t' a).
Proof.
  unfold settle_requester. destruct (jm_get (accepts b) t') as [p|] eqn:Hp; [|reflexivity].
  destruct (ac_phase p) as [|[]] eqn:Hph; try reflexivity. rewrite set_proc_view.
  destruct (decide (t' = t)) as [->|]; [|reflexivity]. rewrite (proc_view b t p Hp), Hph. apply rtc_once, mv_settings.
Qed.

Lemma answer_runner_move b t t' a : (t' = t → a = RunnerAccepted → A) → go b t (answer_runner b t' a).
Proof. intros Ha. unfold answer_runner. case_match; [|reflexivity]. by apply settle_runner_move. Qed.
Lemma answer_requester_move b t t' a : go b t (answer_requester b t' a).
Proof. unfold answer_requester. case_match; [|reflexivity]. apply settle_requester_move. Qed.

Lemma update_request_view b r f t : view (update_request b r f) t = view b t.
Proof. done. Qed.

Lemma after_runner_move b t t' p a :
  jm_get (accepts b) t' = Some p → ac_phase p = AwaitRunner (Some a) → go b t (after_runner b t' p a).
Proof.
  intros Hp Hph.
  assert (a ≠ RunnerAccepted → go b t (drop_accept b t')) as Hdrop.
  { intros Ha. rewrite drop_proc_view. destruct (decide (t' = t)) as [->|]; [|reflexivity].
    rewrite (proc_view b t p Hp), Hph. by apply rtc_once, mv_give_up. }
  unfold after_runner. destruct a; [|by apply Hdrop..].
  destruct (jm_get (requests b) (ac_request p)) as [q|]; [|reflexivity]. cbv zeta.
  set (b1 := TaskBroker.with_tasks _ _).
  assert (∀ v', vw_task (view b1 t) = (if decide (t' = t) then Some (runner_of p) else vw_task (view b t)) → v' = None ∨ v' = Some (runner_of p, AwaitRequester None) →
    moves K A F (view b t) (mkView (vw_task (view b1 t)) (if decide (t' = t) then v' else vw_proc (view b t)) (vw_said (view b t)) (knownRunners b))) as Hmv.
  { intros v' -> Hv'. destruct (decide (t' = t)) as [->|]; [|reflexivity].
    rewrite (proc_view b t p Hp) at 1. rewrite Hph. by apply rtc_once, mv_store. }
  assert (vw_task (view b1 t) = if decide (t' = t) then Some (runner_of p) else vw_task (view b t)) as Ht1.
  { unfold view. cbn. destruct (decide (t' = t)) as [->|]; [by rewrite jm_get_set|by rewrite jm_get_set_ne]. }
  assert (∀ b2, view b2 t = view b1 t → vw_proc (view b1 t) = vw_proc (view b t)) as Hp1 by done.
  destruct (request_index b1 (rq_requestId q)) as [i|].
  - rewrite set_proc_view. rewrite messageRequester_view. cbn [runner_of ac_phase ac_offer].
    change (vw_proc (view _ t)) with (vw_proc (view b t)) at 1.
    rewrite messageRequester_known. apply (Hmv (Some (runner_of p, AwaitRequester None))); [done|by right].
  - rewrite drop_proc_view. apply (Hmv None); [done|by left].
Qed.

Lemma after_requester_move b t t' p a :
  jm_get (accepts b) t' = Some p → ac_phase p = AwaitRequester (Some a) → go b t (after_requester b t' a).
Proof.
  intros Hp Hph.
  assert (go b t (drop_accept b t')) as Hdrop.
  { rewrite drop_proc_view. destruct (decide (t' = t)) as [->|]; [|reflexivity].
    rewrite (proc_view b t p Hp), Hph. apply rtc_once. eapply mv_hand_over. by left. }
  unfold after_requester. destruct a; [|etransitivity; [exact Hdrop|apply cancelTask_move]..].
  unfold sendTaskSettings. destruct (negb _); [exact Hdrop|]. unfold getRunnerOrFailTask.
  destruct (jm_get (tasks (drop_accept b t')) t') as [task|] eqn:Htask; [|etransitivity; [exact Hdrop|apply cancelTask_move]].
  destruct (js_has (knownRunners (drop_accept b t')) (t_runnerId task)) eqn:Hk;
    [|etransitivity; [exact Hdrop|etransitivity; [apply failTask_move|apply cancelTask_move]]].
  set (b1 := TaskBroker.with_tasks _ _).
  assert (view b1 t = view (drop_accept b t') t) as Hb1.
  { unfold view. f_equal. cbn. rewrite jm_get_update. case_decide; [|done].
    by destruct (jm_get (tasks b) t). }
  destruct (decide (t' = t)) as [->|Hne]; last first.
  { rewrite messageRunner_quiet by (cbn; by rewrite decide_False). by rewrite Hb1. }
  rewrite messageRunner_view, Hb1. change (knownRunners b1) with (knownRunners (drop_accept b t)). rewrite Hk.
  rewrite drop_proc_view, decide_True by done. cbn [vw_task vw_proc vw_said said_of option_list]. rewrite decide_True by done.
  rewrite (proc_view b t p Hp) at 1. rewrite Hph. apply rtc_once. eapply mv_hand_over. right.
  exists (t_runnerId task). split; [|done]. unfold view. cbn in Htask |- *. by rewrite Htask.
Qed.

(** ** Matching *)

Lemma start_accept_move b t t' o r :
  (t' = t → F) → K (o_runnerId o) → view b t' = mkView None None [] (knownRunners b) → go b t (start_accept b t' o r).
Proof.
  intros Hf Hk Hv. unfold start_accept. set (b1 := with_callbacks b _ _). cbv zeta. rewrite set_proc_view.
  destruct (decide (t' = t)) as [->|Hne].
  - rewrite messageRunner_view, messageRunner_known. change (view b1 t) with (view b t). change (knownRunners b1) with (knownRunners b).
    rewrite Hv. cbn [vw_task vw_said runner_of ac_phase ac_offer app said_of option_list]. rewrite decide_True by done.
    apply rtc_once, mv_start; [auto|done|]. destruct (js_has _ _); [by right|by left].
  - rewrite messageRunner_quiet by (cbn; by rewrite decide_False). rewrite messageRunner_known. reflexivity.
Qed.

(** Ids nothing has been done with. *)
Definition unused (b : TaskBroker.TaskBroker) (ids : list string) : Prop :=
  NoDup ids ∧ Forall (λ t, view b t = mkView None None [] (knownRunners b)) ids.

(** All pending offers are of such runners. *)
Definition offers_of (b : TaskBroker.TaskBroker) : Prop := Forall (λ o, K (o_runnerId o)) (pendingTaskOffers b).

Lemma fresh_unused b ids : fresh_ids b ids → Forall (λ t, vw_said (view b t) = []) ids → unused b ids.
Proof.
  intros (Hn & Hf & _) Hs. split; [done|]. apply Forall_forall. intros t Ht.
  eapply Forall_forall in Hf as (Hnt & Hna & _); [|exact Ht]. eapply Forall_forall in Hs; [|exact Ht]. cbn in Hs.
  unfold view. by rewrite Hnt, Hna, Hs.
Qed.

Lemma settle_one_move b ids r t :
  unused b ids → (t ∈ ids → F) → offers_of b →
  let st := settle_one (b, ids) r in go b t st.1 ∧ unused st.1 st.2 ∧ st.2 ⊆ ids ∧ offers_of st.1.
Proof.
  intros Hids Hf Ho. unfold settle_one. destruct (jm_get (requests b) r) as [q|]; [|done]. destruct (rq_acceptInProgress q); [done|].
  destruct (find_index _ _) as [i|]; [|unfold warnOnTaskTypeMismatch; by case_bool_decide].
  destruct (pendingTaskOffers b !! i) as [o|] eqn:Hi; [|done]. destruct ids as [|t' ids]; [done|]. cbn [fst snd].
  destruct Hids as [[Ht' Hn]%NoDup_cons [Hnt Hall]%Forall_cons]. set (b2 := TaskBroker.with_pending _ _ _).
  assert (∀ x, t' ≠ x → view (start_accept b2 t' o r) x = view b x) as Hv.
  { intros x Hx. unfold start_accept. cbv zeta. rewrite set_proc_view, decide_False by done.
    rewrite messageRunner_quiet by (cbn; by rewrite decide_False). by rewrite messageRunner_known. }
  assert (knownRunners (start_accept b2 t' o r) = knownRunners b) as Ek by (unfold start_accept; cbn; by rewrite messageRunner_known).
  split; [|split; [|split; [set_solver|]]].
  - change (view b t) with (view b2 t). apply start_accept_move; [intros ->; apply Hf; left| |done].
    by eapply (proj1 (Forall_lookup _ _) Ho).
  - split; [done|]. apply Forall_forall. intros x Hx. eapply Forall_forall in Hall; [|exact Hx]. rewrite Ek, Hv by (intros ->; done). done.
  - unfold offers_of. assert (pendingTaskOffers (start_accept b2 t' o r) = splice1 (pendingTaskOffers b) i) as ->
      by (unfold start_accept, messageRunner; by destruct (js_has _ _)).
    apply Forall_forall. intros x Hx. eapply Forall_forall in Ho; [exact Ho|]. by eapply elem_of_submseteq, sublist_submseteq, splice1_sublist.
Qed.

Lemma settle_all_move l b ids t : unused b ids → (t ∈ ids → F) → offers_of b → go b t (foldl settle_one (b, ids) l).1.
Proof.
  revert b ids; induction l as [|r l IH]; intros b ids Hids Hf Ho; [reflexivity|]. cbn [foldl].
  destruct (settle_one_move b ids r t Hids Hf Ho) as (Hm & Hu & Hs & Ho'). destruct (settle_one (b, ids) r) as [b1 ids1]. cbn [fst snd] in *.
  etransitivity; [exact Hm|]. apply IH; [done| |done]. intros Ht. by apply Hf, Hs.
Qed.

Lemma settleTasks_move b now ids t : unused b ids → (t ∈ ids → F) → offers_of b → go b t (settleTasks b now ids).
Proof.
  intros Hids Hf Ho. unfold settleTasks. apply (settle_all_move _ (expireTasks b now)); [done|done|]. unfold offers_of. cbn.
  apply Forall_forall. intros o [_ Hin]%list_elem_of_filter. by eapply Forall_forall in Ho.
Qed.

Lemma handleRequestTimeout_view b id t : view (handleRequestTimeout b id) t = view b t.
Proof.
  unfold handleRequestTimeout. destruct (request_index b id); [|done]. destruct (_ ≫= _) as [[r q]|]; [|done].
  by rewrite messageRequester_view.
Qed.

Lemma fail_tasks_move r l b t : go b t (foldl (fail_tasks_of r) b l).
Proof.
  revert b; induction l as [|p l IH]; intros b; [reflexivity|]. cbn [foldl]. etransitivity; [|apply IH].
  unfold fail_tasks_of. case_bool_decide; [|reflexivity]. etransitivity; [apply failTask_move|by apply answer_runner_move].
Qed.

Lemma onRunnerMessage_move b r m now ids t :
  unused b ids → (t ∈ ids → F) → offers_of b → K r → (m = RmTaskAccepted t → A) → go b t (onRunnerMessage b r m now ids).
Proof.
  intros Hids Hf Ho Hr Ha. unfold onRunnerMessage. destruct (negb _); [reflexivity|].
  destruct m; try (by apply answer_runner_move); try (apply end_task_move); try (rewrite ask_requester_view; reflexivity); [| |reflexivity].
  - apply answer_runner_move. intros ->. auto.
  - apply (settleTasks_move (TaskBroker.with_offers b _)); [done|done|]. apply Forall_app. split; [done|]. by apply Forall_singleton.
Qed.

Lemma onRequesterMessage_move b q m r now ids t :
  unused b ids → (t ∈ ids → F) → offers_of b → go b t (onRequesterMessage b q m r now ids).
Proof.
  intros Hids Hf Ho. destruct m; cbn [onRequesterMessage]; try (by apply respond_to_runner_move).
  - apply answer_requester_move.
  - apply cancelTask_move.
  - unfold taskRequested. destruct (isDraining b); [by rewrite messageRequester_view|].
    by apply (settleTasks_move (TaskBroker.with_pending (TaskBroker.with_requests b _) _ _)).
Qed.
End Moves.

(** The acceptance of [t] is being handled. *)
Definition accepting (e : BrokerEvent) (t : string) : Prop := ∃ r now ids, e = ERunnerMessage r (RmTaskAccepted t) now ids.

(** The runners known, as a registration changes them first. *)
Definition with_known (e : BrokerEvent) (v : View) : View :=
  mkView (vw_task v) (vw_proc v) (vw_said v)
    (match e with ERegisterRunner r => js_add (vw_known v) r | EDeregisterRunner r => js_del (vw_known v) r | _ => vw_known v end).

(** The runner an event comes from. *)
Definition speaker (e : BrokerEvent) : option string := match e with ERunnerMessage r _ _ _ => Some r | _ => None end.

Lemma event_moves K internal b e b' t :
  offers_of K b → (∀ r, speaker e = Some r → K r) → Forall (λ x, vw_said (view b x) = []) (drawn_ids e) →
  broker_next internal b e = Some b' → moves K (accepting e t) (t ∈ drawn_ids e) (with_known e (view b t)) (view b' t).
Proof.
  intros Ho Hsp Hs. destruct e; cbn [broker_next drawn_ids] in *.
  - case_bool_decide as Hf; [|done]. intros [= <-]. apply (onRunnerMessage_move _ _ _ b); [by apply fresh_unused|done|done|by apply Hsp|].
    intros ->. by repeat eexists.
  - case_bool_decide as Hf; [|done]. intros [= <-]. destruct Hf as [Hf _]. apply onRequesterMessage_move; [by apply fresh_unused|done|done].
  - intros [= <-]. unfold registerRunner. by rewrite messageRunner_quiet.
  - intros [= <-]. unfold deregisterRunner. set (b1 := TaskBroker.with_offers _ _). apply (fail_tasks_move _ _ _ _ _ b1).
  - by intros [= <-].
  - by intros [= <-].
  - destruct (jm_get (accepts b) taskId) as [p|] eqn:Hp; [|done]. cbn.
    destruct (ac_phase p) as [[a|]|[a|]] eqn:Hph; try done; intros [= <-]; [by apply after_runner_move|by eapply after_requester_move].
  - intros [= <-]. by apply settle_runner_move.
  - intros [= <-]. apply settle_requester_move.
  - destruct (jm_get (requests b) r) as [q|]; [|done]. cbn. case_match; [|done]. intros [= <-].
    by rewrite handleRequestTimeout_view.
  - destruct (jm_get (tasks b) taskId); [|done]. cbn. case_match; [|done]. intros [= <-]. apply handleTaskTimeout_move.
  - by intros [= <-].
Qed.


(** ** What grows *)

Record grows (b b' : TaskBroker.TaskBroker) : Prop := {
  gr_sent : TaskBroker.sent b `prefix_of` TaskBroker.sent b';
  gr_offers : pendingTaskOffers b' ⊆ pendingTaskOffers b;
  gr_wf : jm_wf (tasks b) → jm_wf (tasks b');
}.
#[export] Instance grows_preorder : PreOrder grows.
Proof. split; [by split|]. intros b1 b2 b3 [? ? ?] [? ? ?]. split; [by etransitivity|by etransitivity|auto]. Qed.

Create HintDb grows.
Ltac grow := solve [eauto with grows].

Lemma grows_ext b b' :
  TaskBroker.sent b' = TaskBroker.sent b → pendingTaskOffers b' = pendingTaskOffers b → tasks b' = tasks b → grows b b'.
Proof. intros Hs Ho Ht. split; by rewrite ?Hs, ?Ho, ?Ht. Qed.
Lemma messageRunner_grows b0 b r m : grows b0 b → grows b0 (messageRunner b r m).
Proof. intros H. etransitivity; [exact H|]. unfold messageRunner. destruct (js_has _ _); [|done]. split; [by eexists|done|done]. Qed.
Lemma messageRequester_grows b0 b r m : grows b0 b → grows b0 (messageRequester b r m).
Proof. intros H. etransitivity; [exact H|]. unfold messageRequester. destruct (js_has _ _); [|done]. split; [by eexists|done|done]. Qed.
Lemma del_task_grows b0 b t : grows b0 b → grows b0 (TaskBroker.with_tasks b (jm_del (tasks b) t)).
Proof. intros H. etransitivity; [exact H|]. split; [done|done|]. cbn. apply jm_wf_del. Qed.
Lemma set_task_grows b0 b t v : grows b0 b → grows b0 (TaskBroker.with_tasks b (jm_set (tasks b) t v)).
Proof. intros H. etransitivity; [exact H|]. split; [done|done|]. cbn. apply jm_wf_set. Qed.
Lemma update_task_grows b0 b t f : grows b0 b → grows b0 (TaskBroker.with_tasks b (jm_update (tasks b) t f)).
Proof. intros H. etransitivity; [exact H|]. split; [done|done|]. cbn. unfold jm_update. destruct (jm_get _ _); [apply jm_wf_set|done]. Qed.
Lemma with_accepts_grows b0 b m : grows b0 b → grows b0 (with_accepts b m).
Proof. intros H. etransitivity; [exact H|]. by apply grows_ext. Qed.
Lemma with_requests_grows b0 b m : grows b0 b → grows b0 (with_requests b m).
Proof. intros H. etransitivity; [exact H|]. by apply grows_ext. Qed.
Lemma with_callbacks_grows b0 b m n : grows b0 b → grows b0 (with_callbacks b m n).
Proof. intros H. etransitivity; [exact H|]. by apply grows_ext. Qed.
Lemma with_pending_grows b0 b l w : grows b0 b → grows b0 (TaskBroker.with_pending b l w).
Proof. intros H. etransitivity; [exact H|]. by apply grows_ext. Qed.
Lemma fewer_offers_grows b0 b l : l ⊆ pendingTaskOffers b → grows b0 b → grows b0 (TaskBroker.with_offers b l).
Proof. intros Hl H. etransitivity; [exact H|]. by split. Qed.
#[export] Hint Resolve messageRunner_grows messageRequester_grows del_task_grows set_task_grows update_task_grows with_accepts_grows
  with_requests_grows with_callbacks_grows with_pending_grows : grows.
#[export] Hint Extern 0 (grows ?b ?b) => reflexivity : grows.

Lemma failTask_grows b0 b t : grows b0 b → grows b0 (failTask b t).
Proof. unfold failTask. destruct (jm_get _ _); grow. Qed.
Lemma end_task_grows b0 b t m : grows b0 b → grows b0 (end_task b t m).
Proof. unfold end_task. destruct (jm_get _ _); [|done]. intros. apply del_task_grows. grow. Qed.
Lemma cancelTask_grows b0 b t m : grows b0 b → grows b0 (cancelTask b t m).
Proof. unfold cancelTask. destruct (jm_get _ _); grow. Qed.
#[export] Hint Resolve failTask_grows end_task_grows cancelTask_grows : grows.

Lemma getRunnerOrFailTask_grows b0 b t : grows b0 b → grows b0 (getRunnerOrFailTask b t).1.
Proof. unfold getRunnerOrFailTask. destruct (jm_get _ _); [destruct (js_has _ _)|]; cbn; grow. Qed.

Lemma after_runner_grows b t p a : grows b (after_runner b t p a).
Proof.
  unfold after_runner. destruct a; unfold drop_accept, update_request; [|grow..]. destruct (jm_get _ _); [|done]. cbv zeta.
  destruct (request_index _ _); [|grow]. apply with_accepts_grows, messageRequester_grows. grow.
Qed.

Lemma after_requester_grows b t a : grows b (after_requester b t a).
Proof.
  unfold after_requester, drop_accept. cbv zeta. destruct a; [|grow..]. set (b1 := with_accepts b _).
  assert (grows b b1) as H1 by (unfold b1; grow). unfold sendTaskSettings. destruct (negb _); [done|].
  pose proof (getRunnerOrFailTask_grows b b1 t H1) as Hg. destruct (getRunnerOrFailTask b1 t) as [b2 [r|e]]; cbn in *; grow.
Qed.

Lemma respond_to_runner_grows b t m : grows b (respond_to_runner b t m).1.
Proof.
  unfold respond_to_runner. destruct (negb _); [done|]. pose proof (getRunnerOrFailTask_grows b b t) as Hg.
  destruct (getRunnerOrFailTask b t) as [b2 [r|e]]; cbn in *; grow.
Qed.

Lemma settle_runner_grows b0 b t a : grows b0 b → grows b0 (settle_runner b t a).
Proof. unfold settle_runner. destruct (jm_get _ _) as [p|]; [destruct (ac_phase p) as [[]|]|]; grow. Qed.
Lemma settle_requester_grows b0 b t a : grows b0 b → grows b0 (settle_requester b t a).
Proof. unfold settle_requester. destruct (jm_get _ _) as [p|]; [destruct (ac_phase p) as [|[]]|]; grow. Qed.
Lemma answer_runner_grows b0 b t a : grows b0 b → grows b0 (answer_runner b t a).
Proof. unfold answer_runner. destruct (js_has _ _); [|done]. intros. apply with_callbacks_grows. by apply settle_runner_grows. Qed.
Lemma answer_requester_grows b t a : grows b (answer_requester b t a).
Proof. unfold answer_requester. destruct (js_has _ _); [|done]. apply with_callbacks_grows. by apply settle_requester_grows. Qed.

Lemma settle_one_grows b ids r : grows b (settle_one (b, ids) r).1.
Proof.
  unfold settle_one. destruct (jm_get _ _) as [q|]; [|done]. destruct (rq_acceptInProgress q); [done|].
  destruct (find_index _ _) as [i|]; [|unfold warnOnTaskTypeMismatch; case_bool_decide; cbn; grow].
  destruct (pendingTaskOffers b !! i), ids; try done. cbn [fst]. unfold start_accept, update_request.
  apply with_accepts_grows, messageRunner_grows, with_callbacks_grows, with_pending_grows, fewer_offers_grows; [|grow].
  intros x Hx. by eapply elem_of_submseteq, sublist_submseteq, splice1_sublist.
Qed.

Lemma settleTasks_grows b now ids : grows b (settleTasks b now ids).
Proof.
  unfold settleTasks. assert (∀ l b0 b ids, grows b0 b → grows b0 (foldl settle_one (b, ids) l).1) as Hl.
  { induction l as [|r l IH]; intros b0 b1 i H; [done|]. cbn [foldl]. pose proof (settle_one_grows b1 i r) as Hs.
    destruct (settle_one (b1, i) r). apply IH. by etransitivity. }
  apply Hl, fewer_offers_grows; [|done]. intros o [_ Ho]%list_elem_of_filter. done.
Qed.

Lemma fail_tasks_grows r l b0 b : grows b0 b → grows b0 (foldl (fail_tasks_of r) b l).
Proof.
  revert b; induction l as [|p l IH]; intros b H; [done|]. cbn [foldl]. apply IH. unfold fail_tasks_of.
  case_bool_decide; [|done]. apply answer_runner_grows. grow.
Qed.

Lemma event_grows internal b e b' :
  broker_next internal b e = Some b' →
  ∃ l, grows (TaskBroker.with_offers b (pendingTaskOffers b ++ l)) b' ∧ Forall (λ o, speaker e = Some (o_runnerId o)) l.
Proof.
  intros He. assert (∀ l, Forall (λ o, speaker e = Some (o_runnerId o)) l → grows (TaskBroker.with_offers b (pendingTaskOffers b ++ l)) b' →
    ∃ l, grows (TaskBroker.with_offers b (pendingTaskOffers b ++ l)) b' ∧ Forall (λ o, speaker e = Some (o_runnerId o)) l) as Hl by eauto.
  assert (grows b b' → ∃ l, grows (TaskBroker.with_offers b (pendingTaskOffers b ++ l)) b' ∧ Forall (λ o, speaker e = Some (o_runnerId o)) l) as H0.
  { intros Hg. apply (Hl []); [constructor|]. rewrite app_nil_r. etransitivity; [|exact Hg]. by apply grows_ext. }
  destruct e; cbn [broker_next] in He.
  - case_bool_decide; [|done]. injection He as <-. revert H0 Hl. unfold onRunnerMessage. destruct (negb _); [intros H0 _; apply H0; grow|].
    destruct m; intros H0 Hl;
      try (apply H0; first [by apply answer_runner_grows|by apply end_task_grows|unfold ask_requester; destruct (jm_get _ _); grow|grow]).
    unfold taskOffered in *. set (o := mkOffer _ _ _ _ _) in *. apply (Hl [o]); [by apply Forall_singleton|]. apply settleTasks_grows.
  - case_bool_decide; [|done]. injection He as <-. apply H0. destruct m; cbn [onRequesterMessage]; try apply respond_to_runner_grows.
    + apply answer_requester_grows.
    + grow.
    + unfold taskRequested. destruct (isDraining b); [grow|]. etransitivity; [|apply settleTasks_grows]. grow.
  - injection He as <-. apply H0. unfold registerRunner. apply messageRunner_grows. by apply grows_ext.
  - injection He as <-. apply H0. unfold deregisterRunner. cbv zeta. apply fail_tasks_grows, fewer_offers_grows; [|by apply grows_ext].
    intros o [_ Ho]%list_elem_of_filter. done.
  - injection He as <-. apply H0. by apply grows_ext.
  - injection He as <-. apply H0. by apply grows_ext.
  - apply H0. destruct (jm_get (accepts b) taskId) as [p|]; [|done]. cbn in He.
    destruct (ac_phase p) as [[a|]|[a|]]; try done; injection He as <-; [apply after_runner_grows|apply after_requester_grows].
  - injection He as <-. apply H0. by apply settle_runner_grows.
  - injection He as <-. apply H0. by apply settle_requester_grows.
  - apply H0. destruct (jm_get (requests b) r) as [q|]; [|done]. cbn in He. destruct (rq_timeout q); [|done]. injection He as <-.
    unfold handleRequestTimeout. destruct (request_index _ _); [|grow]. destruct (_ ≫= _) as [[? ?]|]; [|grow].
    apply messageRequester_grows. grow.
  - apply H0. destruct (jm_get (tasks b) taskId) as [k|]; [|done]. cbn in He. destruct (t_timeout k); [|done]. injection He as <-.
    unfold handleTaskTimeout. destruct (jm_get _ _); [|done]. unfold taskErrorHandler. destruct internal; grow.
  - injection He as <-. apply H0. by apply grows_ext.
Qed.

(** ** What every sequence of moves keeps *)

(** [D]: the task id was drawn.  A task has one runner, which is offered the task once
    and gets its settings once; what was cancelled is never stored again. *)
Definition at_runner (v : View) (r : string) : Prop := vw_task v = Some r ∨ ∃ ph, vw_proc v = Some (r, ph).
Definition awaiting (v : View) : Prop := ∃ r a, vw_proc v = Some (r, AwaitRunner a).

Record hist_ok (K : string → Prop) (D : Prop) (v : View) : Prop := {
  hi_unused : ¬ D → vw_task v = None ∧ vw_proc v = None ∧ vw_said v = [];
  hi_names r : at_runner v r → K r;
  hi_offer r : times (r, SaidOffer) (vw_said v) ≤ 1;
  hi_runner r r' : (r, SaidOffer) ∈ vw_said v → at_runner v r' → r' = r;
  hi_cancel r : (r, SaidCancel) ∈ vw_said v → vw_task v = None ∧ ¬ awaiting v;
  hi_task : awaiting v → vw_task v = None;
  hi_settings r : times (r, SaidSettings) (vw_said v) ≤ 1;
  hi_proc r : vw_proc v ≠ None → times (r, SaidSettings) (vw_said v) = 0;
}.

(** A move that says nothing, to a runner the task is with already. *)
Lemma quiet_hist K D v w :
  vw_said w = vw_said v → (vw_task v ≠ None ∨ vw_proc v ≠ None) → (∀ r, at_runner w r → at_runner v r) → (awaiting w → awaiting v) →
  (vw_task w = None ∨ vw_task w = vw_task v ∨ awaiting v) → (awaiting w → vw_task w = vw_task v) → (vw_proc w ≠ None → vw_proc v ≠ None) →
  hist_ok K D v → hist_ok K D w.
Proof.
  intros Es HD Hr Hw Ht Ha Hp [H1 H2 H3 H4 H5 H6 H7 H8]. split; rewrite ?Es; [|by auto|by auto| | | |by auto|by auto].
  - intros Hn. destruct (H1 Hn) as (? & ? & _). by destruct HD.
  - intros r r' ? ?. eapply H4; eauto.
  - intros r Hc. destruct (H5 r Hc) as [Hv Hna]. split; [|auto]. destruct Ht as [?|[?|?]]; [done|congruence|done].
  - intros Haw. rewrite Ha by done. auto.
Qed.

Ltac views :=
  unfold at_runner, awaiting; cbn -[times]; intros;
  repeat match goal with H : ∃ _, _ |- _ => destruct H | H : _ ∨ _ |- _ => destruct H | H : _ ∧ _ |- _ => destruct H end;
  simplify_eq; eauto 10.

Lemma start_hist K D r s k : D → K r → s = [] ∨ s = [(r, SaidOffer)] → hist_ok K D (mkView None (Some (r, AwaitRunner None)) s k).
Proof.
  intros HD Hk Hs. assert (∀ x, times x s ≤ 1 ∧ (x.2 ≠ SaidOffer → times x s = 0)) as Ht.
  { intros x. destruct Hs as [->| ->]; [cbn; lia|]. rewrite times_one. case_decide; subst; cbn; [|lia]. split; [lia|done]. }
  assert (∀ x, x ∈ s → x = (r, SaidOffer)) as Hin by (destruct Hs as [->| ->]; set_solver).
  split; [done|by views|intros; apply Ht| | |done|intros; apply Ht|intros; by apply Ht].
  - intros r1 r2 H1%Hin H2. revert H2. views.
  - by intros r1 ?%Hin.
Qed.

Lemma end_hist K D r p s k x :
  hist_ok K D (mkView (Some r) p s k) → x = [] ∨ x = [(r, SaidCancel)] → hist_ok K D (mkView None p (s ++ x) k).
Proof.
  intros [H1 H2 H3 H4 H5 H6 H7 H8] Hx.
  assert (¬ awaiting (mkView None p (s ++ x) k)) as Hna by (intros Ha; by specialize (H6 Ha)).
  assert (∀ y, y ∈ x → y = (r, SaidCancel)) as Hin by (destruct Hx as [->| ->]; set_solver).
  assert (∀ r' y, y ≠ SaidCancel → times (r', y) (s ++ x) = times (r', y) s) as Ht.
  { intros r' y Hy. rewrite times_app. destruct Hx as [->| ->]; [cbn; lia|]. rewrite times_one, decide_False by congruence. lia. }
  split; cbn -[times] in *; try done.
  - intros Hn. destruct (H1 Hn) as (? & _). done.
  - intros r' Hr. apply H2. revert Hr. views.
  - intros r'. rewrite Ht by done. apply H3.
  - intros r1 r2 [Hi|Hi%Hin]%elem_of_app Hr; [|done]. apply (H4 r1 r2 Hi). revert Hr. views.
  - intros r'. rewrite Ht by done. apply H7.
  - intros r' Hp. rewrite Ht by done. by apply H8.
Qed.

Lemma hand_over_hist K D v r a s k x :
  hist_ok K D (mkView v (Some (r, AwaitRequester (Some a))) s k) → x = [] ∨ (∃ r', x = [(r', SaidSettings)]) → hist_ok K D (mkView v None (s ++ x) k).
Proof.
  intros [H1 H2 H3 H4 H5 H6 H7 H8] Hx. cbn -[times] in *.
  assert (∀ y, y ∈ x → y.2 = SaidSettings) as Hin by (destruct Hx as [->|[? ->]]; set_solver).
  assert (∀ r' y, y ≠ SaidSettings → times (r', y) (s ++ x) = times (r', y) s) as Ht.
  { intros r' y Hy. rewrite times_app. destruct Hx as [->|[? ->]]; [cbn; lia|]. rewrite times_one, decide_False by congruence. lia. }
  split; cbn -[times] in *; try done.
  - intros Hn. by destruct (H1 Hn) as (_ & ? & _).
  - intros r' [Hv|[ph Hph]]; [|done]. apply H2. by left.
  - intros r'. rewrite Ht by done. apply H3.
  - intros r1 r2 [Hi|Hi%Hin]%elem_of_app [Hr|[? ?]]; try done. apply (H4 r1 r2 Hi). by left.
  - intros r' [Hi|Hi%Hin]%elem_of_app; [|done]. destruct (H5 r' Hi) as [-> _]. split; [done|]. by intros (? & ? & ?).
  - by intros (? & ? & ?).
  - intros r'. rewrite times_app, H8 by done. destruct Hx as [->|[r'' ->]]; [cbn; lia|]. rewrite times_one. case_decide; lia.
Qed.

Lemma move_hist K A (F D : Prop) v w : (F → D) → hist_ok K D v → move K A F v w → hist_ok K D w.
Proof.
  intros HF Hv Hm.
  destruct Hm as [r s k Hf Hk Hs|v r a s k Ha|v r p s k Hp|v r a s k Ha|v r a s k|v r a s s' k Hs|r p s s' k Hs].
  - apply start_hist; auto.
  - revert Hv. apply quiet_hist; views.
  - revert Hv. apply quiet_hist; [done|by right| | | |by destruct Hp as [->| ->]; views|done]; destruct Hp as [->| ->]; views.
  - revert Hv. apply quiet_hist; views.
  - revert Hv. apply quiet_hist; views.
  - destruct Hs as [->|(r' & _ & ->)]; [rewrite <-(app_nil_r s)|]; (eapply hand_over_hist; [exact Hv|]); eauto.
  - destruct Hs as [->| ->]; [rewrite <-(app_nil_r s)|]; (eapply end_hist; [exact Hv|]); eauto.
Qed.

Lemma moves_hist K A (F D : Prop) v w : (F → D) → hist_ok K D v → moves K A F v w → hist_ok K D w.
Proof. intros HF Hv Hm. revert Hv. induction Hm as [|v1 v2 v3 Hm _ IH]; [done|]. intros Hv. by eapply IH, move_hist. Qed.

(** A task is stored for a runner whose acceptance is being handled. *)
Definition unsettled (v : View) : Prop := ∀ r a, vw_proc v ≠ Some (r, AwaitRunner (Some a)).

Lemma moves_origin K (A F : Prop) v w r :
  moves K A F v w → unsettled v → (A → ¬ F) → vw_task w = Some r →
  vw_task v = Some r ∨ A ∧ vw_proc v = Some (r, AwaitRunner None).
Proof.
  intros Hm Hq HAF. revert r.
  set (P := λ w, (∀ r, vw_task w = Some r → vw_task v = Some r ∨ A ∧ vw_proc v = Some (r, AwaitRunner None)) ∧
    (∀ r, A → vw_proc w = Some (r, AwaitRunner None) → vw_proc v = Some (r, AwaitRunner None)) ∧
    (∀ r, vw_proc w = Some (r, AwaitRunner (Some RunnerAccepted)) → A ∧ vw_proc v = Some (r, AwaitRunner None))).
  enough (P w) as H by apply H. revert Hm. apply (rtc_ind_r P v).
  - split; [by left|split; [done|]]. intros r Hr. by apply Hq in Hr.
  - intros w1 w2 _ Hm (I1 & I2 & I3). unfold P, unsettled in *. clear P.
    destruct Hm as [r s k Hf Hk Hs|u r a s k Ha|u r p s k Hp|u r a s k Ha|u r a s k|u r a s s' k Hs|r p s s' k Hs]; cbn in *.
    + split; [done|split; [|done]]. intros r' HA. by destruct (HAF HA).
    + split; [done|split; [done|]]. intros r' [= <- ->]. split; [auto|]. apply I2; [auto|done].
    + destruct (I3 r eq_refl) as [HA Hv]. split; [|by destruct Hp as [->| ->]]. intros r' [= <-]. by right.
    + done.
    + done.
    + done.
    + split; [done|]. split; [intros r' HA Hr'|intros r' Hr']; [by apply I2|by apply I3].
Qed.

Lemma moves_known K A F v w : moves K A F v w → vw_known w = vw_known v.
Proof. induction 1 as [|v1 v2 v3 Hm _ IH]; [done|]. rewrite IH. by destruct Hm. Qed.

(** ** A turn *)

Lemma event_offers K internal b e b' :
  offers_of K b → (∀ r, speaker e = Some r → K r) → broker_next internal b e = Some b' → offers_of K b'.
Proof.
  intros Ho Hsp He. destruct (event_grows _ _ _ _ He) as (l & [_ Hg _] & Hl). unfold offers_of in *. cbn in Hg.
  apply Forall_forall. intros o [Hin|Hin]%Hg%elem_of_app; [by eapply Forall_forall in Ho|].
  eapply Forall_forall in Hl; [|exact Hin]. auto.
Qed.

Lemma event_sent internal b e b' :
  broker_next internal b e = Some b' → TaskBroker.sent b `prefix_of` TaskBroker.sent b' ∧ (jm_wf (tasks b) → jm_wf (tasks b')).
Proof. intros He. destruct (event_grows _ _ _ _ He) as (l & [Hs _ Hw] & _). done. Qed.

(** [b'] is reached from [b] by continuations. *)
Record continued (K : string → Prop) (b b' : TaskBroker.TaskBroker) : Prop := {
  ct_moves t : moves K False False (view b t) (view b' t);
  ct_offers : offers_of K b';
  ct_sent : TaskBroker.sent b `prefix_of` TaskBroker.sent b';
  ct_wf : jm_wf (tasks b) → jm_wf (tasks b');
}.

Lemma continues_continued K internal ts b b' :
  offers_of K b → broker_run internal b (EContinue <$> ts) = Some b' → continued K b b'.
Proof.
  revert b; induction ts as [|t0 ts IH]; intros b Ho; cbn [broker_run fmap list_fmap].
  - intros [= <-]. by split.
  - destruct (broker_next internal b (EContinue t0)) as [b1|] eqn:Hb; [|done]. cbn. intros Hr.
    apply IH in Hr as [H1 H2 H3 H4]; [|eapply (event_offers K internal b (EContinue t0)); [exact Ho|done|exact Hb]]. destruct (event_sent _ _ _ _ Hb) as [Hs Hw].
    split; [|done|by etransitivity|auto]. intros t. etransitivity; [|apply H1].
    apply (event_moves K _ _ _ _ t) in Hb; [|done|done|constructor].
    eapply moves_weaken; [| |exact Hb]; [by intros (? & ? & ? & ?)|cbn; set_solver].
Qed.

(** The event ends the task [t]. *)
Definition ending (e : BrokerEvent) (r t : string) : Prop :=
  ∃ now ids, e = ERunnerMessage r (RmTaskDone t) now ids ∨ e = ERunnerMessage r (RmTaskError t) now ids.

Lemma end_task_ends b t m : jm_get (tasks (end_task b t m)) t = None ∧ accepts (end_task b t m) = accepts b.
Proof.
  unfold end_task. destruct (jm_get (tasks b) t) eqn:Ht; [|done]. split; [apply jm_get_del|]. cbn. by destruct (messageRequester_books b (t_requesterId t0) m).
Qed.

Lemma ending_ends internal b e r t b' :
  ending e r t → r ∈ knownRunners b → broker_next internal b e = Some b' → vw_task (view b' t) = None ∧ vw_proc (view b' t) = vw_proc (view b t).
Proof.
  intros (now & ids & He) Hr. assert (js_has (knownRunners b) r = true) as Hk by (by apply js_has_true).
  assert (∀ m, broker_next internal b e = Some b' → b' = end_task b t m → vw_task (view b' t) = None ∧ vw_proc (view b' t) = vw_proc (view b t)) as Hm.
  { intros m _ ->. destruct (end_task_ends b t m) as [Ht Ha]. unfold view. cbn. by rewrite Ht, Ha. }
  intros Hn. destruct He as [->| ->]; cbn [broker_next] in Hn; (case_bool_decide; [|done]); injection Hn as Hn; unfold onRunnerMessage in Hn;
    rewrite Hk in Hn; cbn [negb] in Hn; [apply (Hm (TaskDone t))|apply (Hm (TaskErrored t))]; try done; cbn [broker_next]; rewrite bool_decide_true by done;
    unfold onRunnerMessage; rewrite Hk; cbn [negb]; by rewrite Hn.
Qed.

(** A turn of the broker: an event and its continuations. *)
Record turned (K : string → Prop) (e : BrokerEvent) (b b' : TaskBroker.TaskBroker) : Prop := {
  tu_moves t : moves K (accepting e t) (t ∈ drawn_ids e) (with_known e (view b t)) (view b' t);
  tu_offers : offers_of K b';
  tu_sent : TaskBroker.sent b `prefix_of` TaskBroker.sent b';
  tu_wf : jm_wf (tasks b) → jm_wf (tasks b');
  tu_ends r t : ending e r t → r ∈ knownRunners b → unsettled (view b t) → vw_task (view b' t) = None;
}.

Lemma turn_turned K internal b e ts b' :
  offers_of K b → (∀ r, speaker e = Some r → K r) → Forall (λ x, vw_said (view b x) = []) (drawn_ids e) →
  broker_run internal b (e :: (EContinue <$> ts)) = Some b' → turned K e b b'.
Proof.
  intros Ho Hsp Hd. cbn [broker_run]. destruct (broker_next internal b e) as [b1|] eqn:He; [|done]. cbn. intros Hr.
  pose proof (event_offers _ _ _ _ _ Ho Hsp He) as Ho1. destruct (continues_continued _ _ _ _ _ Ho1 Hr) as [C1 C2 C3 C4].
  destruct (event_sent _ _ _ _ He) as [Hs Hw]. split; [|done|by etransitivity|auto|].
  - intros t. etransitivity; [by eapply event_moves|]. eapply moves_weaken; [| |apply C1]; done.
  - intros r t Hend Hk Hq. destruct (ending_ends _ _ _ _ _ _ Hend Hk He) as [Ht Hp].
    destruct (vw_task (view b' t)) as [r'|] eqn:Hv; [|done].
    apply (moves_origin K False False _ _ r' (C1 t)) in Hv as [?|[[] _]]; [congruence| |done].
    intros r1 a. rewrite Hp. apply Hq.
Qed.
