(* ===== verification/RunnerSystemProofs.v ===== *)
(** RunnerSystemProofs: what the broker believes of the tasks of a runner is what the
    runner does with them. *)

From stdpp Require Import prelude list strings relations.
From Stdlib Require Import ZArith Lia.
From S2P Require Import Prelude TaskBroker TaskBrokerProofs TaskRunner TaskRunnerProofs RunnerSystem BrokerViews.
Local Open Scope nat_scope.

(** * The messages of a runner *)

Definition says (s s' : TaskRunner.TaskRunner) : Prop := TaskRunner.sent s `prefix_of` TaskRunner.sent s'.
#[export] Instance says_preorder : PreOrder says.
Proof. unfold says. split; [intros s; reflexivity|]. intros s1 s2 s3 ? ?. by etransitivity. Qed.

Lemma says_same s s' : TaskRunner.sent s' = TaskRunner.sent s → says s s'.
Proof. unfold says. by intros ->. Qed.
Lemma send_says s0 s m : says s0 s → says s0 (TaskRunner.send s m).
Proof. intros H. etransitivity; [exact H|]. by exists [m]. Qed.
Lemma resetIdleTimer_says s0 s : says s0 s → says s0 (resetIdleTimer s).
Proof. unfold resetIdleTimer. by case_bool_decide. Qed.
Lemma sendOffers_says s0 s now draws : says s0 s → says s0 (sendOffers s now draws).
Proof.
  intros H. unfold sendOffers. destruct (negb _); [done|]. generalize (take (offersToSend (deleteStaleOffers s now)) draws) as l.
  assert (says s0 (deleteStaleOffers s now)) as H1 by done. revert H1. generalize (deleteStaleOffers s now). intros s1 H1 l. revert s1 H1.
  induction l as [|[id r] l IH]; intros s1 H1; [done|]. cbn [foldl]. apply IH. by apply send_says.
Qed.
Lemma finishTask_says s0 s t now draws : says s0 s → says s0 (finishTask s t now draws).
Proof. intros H. by apply resetIdleTimer_says, sendOffers_says. Qed.
Lemma taskExecutionFailed_says s0 s t st now draws : says s0 s → says s0 (taskExecutionFailed s t st now draws).
Proof. intros H. apply finishTask_says. destruct st; try done; by apply send_says. Qed.

Lemma step_says s c s' : runner_step s c = Some s' → says s s'.
Proof.
  unfold runner_step. case_bool_decide; [|done].
  destruct (runner_next s (oc_event c) (oc_now c) (oc_draws c)) as [[s1|e]|] eqn:Hn; [|by intros [= <-]|done].
  intros [= <-]. destruct (oc_event c) as [m| |t|t o| | | | | | | |]; cbn [runner_next] in Hn.
  - case_bool_decide; [|done]. injection Hn as Hn.
    destruct m; cbn [onMessage] in Hn; try (injection Hn as <-; first [by apply says_same|by apply send_says]).
    + injection Hn as <-. unfold offerAccepted. destruct (isShuttingDown s); [by apply send_says|]. destruct (negb _); [by apply send_says, says_same|].
      destruct (jm_get _ _); [|by apply send_says]. apply send_says.
      etransitivity; [apply (resetIdleTimer_says _ (TaskRunner.with_offers s (jm_del (openOffers s) offerId))); by apply says_same|by apply says_same].
    + injection Hn as <-. unfold taskCancelled. destruct (jm_get _ _) as [st|]; [|done].
      destruct (ts_status st); [by apply finishTask_says|by apply says_same|done|done].
    + unfold receivedSettings in Hn. destruct (jm_get _ _) as [st|]; [|by injection Hn as <-].
      destruct (ts_status st); try done. injection Hn as <-. by apply says_same.
  - destruct (offerInterval s); [|done]. injection Hn as <-. by apply sendOffers_says.
  - destruct (jm_get _ _) as [st|]; [|done]. destruct (ts_timer st); [|done]. injection Hn as Hn. unfold taskTimedOut in Hn.
    cbn [runningTasks TaskRunner.with_tasks] in Hn. rewrite jm_get_set in Hn. cbn [ts_status] in Hn.
    destruct (ts_status st); try done; injection Hn as <-; try by apply says_same. by apply finishTask_says, send_says, says_same.
  - destruct (jm_get _ _) as [st|]; [|done]. destruct (ts_executing st); [|done]. injection Hn as <-.
    destruct o as [b|]; cbn [executed]; [|by apply taskExecutionFailed_says]. unfold taskExecutionSucceeded.
    destruct (ts_status st), b; try (by apply taskExecutionFailed_says, finishTask_says); by apply finishTask_says; try apply send_says.
  - destruct (jm_has _ _); [done|]. injection Hn as <-. by apply send_says, says_same.
  - destruct (jm_has _ _); [done|]. injection Hn as <-. by apply send_says, says_same.
  - destruct (jm_has _ _); [done|]. injection Hn as <-. by apply send_says, says_same.
  - destruct (is_settled _); [|done]. injection Hn as <-. by apply says_same.
  - destruct (is_settled _); [|done]. injection Hn as <-. by apply says_same.
  - destruct (is_settled _); [|done]. injection Hn as <-. by apply says_same.
  - destruct (idleTimer s); [|done]. cbv zeta in Hn. case_bool_decide; injection Hn as <-; [by apply send_says, says_same|by apply says_same].
  - injection Hn as <-. by apply says_same.
Qed.

(** ** Every prefix of what a runner said *)

(** Tasks accepted and not answered when the last message of [Q] was said were running,
    or have been cancelled. *)
Definition ledger (n : nat) (h : list RunnerEvent) (l : list FromRunner) : Prop :=
  ∀ Q, Q `prefix_of` l →
    (∀ t, answers Q t ≤ accepted Q t ≤ 1) ∧
    ∃ R, length R ≤ n ∧ ∀ t, accepted Q t = 1 → t ∈ R ∨ answers Q t = 1 ∨ Exists (λ e, cancels e t) h.

Lemma answers_prefix Q l t : Q `prefix_of` l → answers Q t ≤ answers l t ∧ accepted Q t ≤ accepted l t.
Proof. intros [k ->]. rewrite answers_app, accepted_app. lia. Qed.

Lemma effect_accepts e s s' :
  effect e s s' → (∀ t, accepted (TaskRunner.sent s') t = accepted (TaskRunner.sent s) t) ∨ (∀ t, answers (TaskRunner.sent s') t = answers (TaskRunner.sent s) t).
Proof. intros [[_ _ _ Hc]|t o _ _ _ Ha _|t st st' _ _ _ _ _ Hc|t st n _ _ _ _ _ Hc]; auto. Qed.

Lemma account_listed n h s t : accounts n h s → accepted (TaskRunner.sent s) t = 1 →
  t ∈ jm_keys (runningTasks s) ∨ answers (TaskRunner.sent s) t = 1 ∨ Exists (λ e, cancels e t) h.
Proof.
  intros [_ Ha] Hc. destruct (Ha t) as [_ _ _ _ H5]. destruct (jm_get (runningTasks s) t) as [st|] eqn:Hst; [left; by eapply jm_get_key|].
  right. by apply H5.
Qed.

Lemma ledger_step n h s c s' :
  accounts n h s → ledger n h (TaskRunner.sent s) → runner_step s c = Some s' → ledger n (oc_event c :: h) (TaskRunner.sent s').
Proof.
  intros Hacc Hl Hc Q HQ. pose proof (step_says _ _ _ Hc) as Hsays. pose proof (step_account _ _ _ _ _ Hacc Hc) as Hacc'.
  assert (effect (oc_event c) s s') as He by (apply step_effect; [intros t0 st; apply (proj2 Hacc t0)|done]).
  destruct (prefix_either _ _ _ Hsays HQ) as [Hp|Hp].
  { destruct (Hl Q Hp) as [H1 (R & HR & H2)]. split; [done|]. exists R. split; [done|]. intros t Ht.
    destruct (H2 t Ht) as [?|[?|?]]; [by left|right; by left|right; right; by right]. }
  assert (∀ s n h, accounts n h s → length (jm_keys (runningTasks s)) ≤ n) as Hlen.
  { intros s0 n0 h0 [[_ _ Hsum <-] _]. unfold jm_keys. rewrite length_fmap. lia. }
  assert (∀ t, answers (TaskRunner.sent s') t ≤ accepted (TaskRunner.sent s') t ≤ 1 ∧ answers (TaskRunner.sent s) t ≤ accepted (TaskRunner.sent s) t) as Hon.
  { intros t. split; [apply (proj2 Hacc' t)|apply (proj2 Hacc t)]. }
  assert (∀ t, answers (TaskRunner.sent s) t ≤ answers Q t ≤ answers (TaskRunner.sent s') t ∧ accepted (TaskRunner.sent s) t ≤ accepted Q t ≤ accepted (TaskRunner.sent s') t) as Hmid.
  { intros t. pose proof (answers_prefix _ _ t Hp). pose proof (answers_prefix _ _ t HQ). lia. }
  destruct (effect_accepts _ _ _ He) as [Hs|Hs].
  - split; [intros t; specialize (Hon t); specialize (Hmid t); specialize (Hs t); lia|].
    exists (jm_keys (runningTasks s)). split; [by eapply Hlen|]. intros t Ht. specialize (Hmid t). specialize (Hs t). specialize (Hon t).
    destruct (account_listed _ _ _ t Hacc) as [?|[?|?]]; [lia|by left|right; left; lia|right; right; by right].
  - split; [intros t; specialize (Hon t); specialize (Hmid t); specialize (Hs t); lia|].
    exists (jm_keys (runningTasks s')). split; [by eapply Hlen|]. intros t Ht. specialize (Hmid t). specialize (Hs t). specialize (Hon t).
    destruct (account_listed _ _ _ t Hacc') as [?|[?|?]]; [lia|by left|right; left; lia|right; right; done].
Qed.

Lemma ledger_new n : ledger n [] [].
Proof. intros Q ->%prefix_nil_inv. split; [intros t; cbn; lia|]. exists []. split; [cbn; lia|]. intros t Ht. done. Qed.

(** * A connection and the broker *)

(** What a message is about. *)
Definition told (t : string) (m : BrokerMessage) : option Said :=
  match m with
  | BrokerTaskOfferAccept _ t' => if decide (t' = t) then Some SaidOffer else None
  | BrokerTaskCancel t' _ => if decide (t' = t) then Some SaidCancel else None
  | BrokerTaskSettings t' => if decide (t' = t) then Some SaidSettings else None
  | _ => None
  end.

(** How often a list of messages says [x] about [t]. *)
Definition tells (t : string) (x : Said) (l : list BrokerMessage) : nat := times x (omap (told t) l).

(** The messages among events. *)
Definition received (h : list RunnerEvent) : list BrokerMessage := omap (λ e, match e with EMessage m => Some m | _ => None end) h.

Lemma tells_app t x l k : tells t x (l ++ k) = tells t x l + tells t x k.
Proof. unfold tells. by rewrite omap_app, times_app. Qed.

Lemma tells_cons t x m l : tells t x (m :: l) = tells t x [m] + tells t x l.
Proof. apply (tells_app t x [m] l). Qed.

(** What is sent to a runner is what the broker says to it. *)
Lemma tells_sent t x id ms : tells t x (omap (to_runner id) ms) = times (id, x) (omap (said_of t) ms).
Proof.
  induction ms as [|m ms IH]; [done|]. destruct m as [r m|q m]; [|exact IH].
  change (MsgRunner r m :: ms) with ([MsgRunner r m] ++ ms). rewrite !omap_app, tells_app, times_app, IH. f_equal. clear IH.
  unfold tells. cbn -[times]. destruct (decide (r = id)) as [->|Hne].
  - destruct m; cbn -[times]; try done; (destruct (decide (taskId = t)); [|done]); cbn -[times]; rewrite !times_one; repeat case_decide; congruence.
  - destruct m; cbn -[times]; try done; (destruct (decide (taskId = t)); [|done]); cbn -[times]; by rewrite times_one, decide_False by congruence.
Qed.

(** The runner [id] and what is under way to it. *)
Record conn_ok (b : TaskBroker.TaskBroker) (id : string) (c : Connection) (h : list RunnerEvent) (Q rest : list FromRunner) : Prop := {
  co_account : accounts (maxConcurrency (cn_runner c)) h (cn_runner c);
  co_ledger : ledger (maxConcurrency (cn_runner c)) h (TaskRunner.sent (cn_runner c));
  co_sent : TaskRunner.sent (cn_runner c) = Q ++ rest;
  co_up : cn_up c = omap (wire_up (cn_taskType c)) rest;
  co_told t x : tells t x (received h ++ cn_down c) ≤ times (id, x) (vw_said (view b t));
  co_accepted t : 1 ≤ accepted (TaskRunner.sent (cn_runner c)) t → 1 ≤ tells t SaidOffer (received h);
  co_settings t st : jm_get (runningTasks (cn_runner c)) t = Some st → ts_status st ≠ waitingForSettings → 1 ≤ tells t SaidSettings (received h);
  co_apart : cn_isConnected c = false → (∀ t x, tells t x (received h ++ cn_down c) = 0);
  co_tasks t : vw_task (view b t) = Some id → accepted Q t = 1 ∧ answers Q t = 0;
}.

(** What holds of the broker of a system, and of the whole. *)
Record core_ok (s : System) : Prop := {
  cr_wf : jm_wf (tasks (sy_broker s));
  cr_quiet t : unsettled (view (sy_broker s) t);
  cr_offers : offers_of (λ r, r ∈ sy_runners s) (sy_broker s);
  cr_hist t : hist_ok (λ r, r ∈ sy_runners s) (t ∈ sy_tasks s) (view (sy_broker s) t);
  cr_inv : broker_inv (sy_broker s);
}.

Record system_ok (s : System) : Prop := {
  ss_core : core_ok s;
  ss_conns id c : jm_get (connections s) id = Some c → id ∈ sy_runners s ∧ (cn_isConnected c = true → id ∈ knownRunners (sy_broker s)) ∧ ∃ h Q rest, conn_ok (sy_broker s) id c h Q rest;
}.

(** ** Steps of a runner *)

Lemma received_cons e h t x : tells t x (received (e :: h)) = tells t x (received [e]) + tells t x (received h).
Proof. unfold received. rewrite (omap_app _ [e] h). apply tells_app. Qed.

Lemma step_accepted n h s c s' t :
  accounts n h s → runner_step s c = Some s' → 1 ≤ accepted (TaskRunner.sent s') t →
  1 ≤ accepted (TaskRunner.sent s) t ∨ 1 ≤ tells t SaidOffer (received [oc_event c]).
Proof.
  intros Hacc Hc. assert (effect (oc_event c) s s') as He by (apply step_effect; [intros t0 st; apply (proj2 Hacc t0)|done]).
  destruct He as [[_ _ _ Ha]|t0 o -> _ _ _ Ha|t0 st st' _ _ _ _ _ Ha|t0 st k _ _ _ _ _ Ha]; rewrite Ha; auto.
  unfold at_most. case_decide as Ht; [|rewrite Nat.add_0_r; auto]. subst. intros _. right. unfold tells. cbn -[times].
  rewrite decide_True by done. by rewrite times_one.
Qed.

Lemma step_settings n h s c s' t st :
  accounts n h s → runner_step s c = Some s' → jm_get (runningTasks s') t = Some st → ts_status st ≠ waitingForSettings →
  (∃ st0, jm_get (runningTasks s) t = Some st0 ∧ ts_status st0 ≠ waitingForSettings) ∨ 1 ≤ tells t SaidSettings (received [oc_event c]).
Proof.
  intros Hacc Hc Hst Hne. assert (effect (oc_event c) s s') as He by (apply step_effect; [intros t0 st0; apply (proj2 Hacc t0)|done]).
  destruct He as [[Ht _ _ _]|t0 o _ _ Ht _ _|t0 st0 st' Hst0 Ht Hl _ _ _|t0 st0 k _ Ht _ _ _ _]; rewrite Ht in Hst.
  - eauto.
  - destruct (decide (t0 = t)) as [->|]; [|rewrite jm_get_set_ne in Hst by done; eauto]. rewrite jm_get_set in Hst. by injection Hst as <-.
  - destruct (decide (t0 = t)) as [->|]; [|rewrite jm_get_set_ne in Hst by done; eauto]. rewrite jm_get_set in Hst. injection Hst as ->.
    inversion Hl as [| | |He| | |]; subst.
    + left. exists st0. split; [done|]. congruence.
    + right. rewrite He. unfold tells. cbn -[times]. rewrite decide_True by done. by rewrite times_one.
    + left. exists st0. split; [done|]. congruence.
    + left. exists st0. split; [done|]. congruence.
  - destruct (decide (t0 = t)) as [->|]; [by rewrite jm_get_del in Hst|]. rewrite jm_get_del_ne in Hst by done. eauto.
Qed.

(** The event is the next message, or none. *)
Definition takes (c c0 : Connection) (e : RunnerEvent) : Prop :=
  cn_runner c0 = cn_runner c ∧ cn_taskType c0 = cn_taskType c ∧ cn_isConnected c0 = cn_isConnected c ∧ cn_up c0 = cn_up c ∧
  ∀ t x, tells t x (received [e] ++ cn_down c0) = tells t x (cn_down c).

Lemma runner_conn b id c c0 o r h Q rest :
  conn_ok b id c h Q rest → takes c c0 (oc_event o) → runner_step (cn_runner c0) o = Some r →
  let said := drop (length (TaskRunner.sent (cn_runner c0))) (TaskRunner.sent r) in
  conn_ok b id (mkConnection r (cn_taskType c0) (cn_isConnected c0) (cn_up c0 ++ omap (wire_up (cn_taskType c0)) said) (cn_down c0))
    (oc_event o :: h) Q (rest ++ said).
Proof.
  intros [H1 H2 H3 H4 H5 H6 H7 H8 H9] (-> & -> & -> & -> & Hd) Hr said.
  pose proof (step_account _ _ _ _ _ H1 Hr) as H1'. assert (maxConcurrency r = maxConcurrency (cn_runner c)) as Hmax by apply H1'.
  assert (∀ t x, tells t x (received (oc_event o :: h) ++ cn_down c0) = tells t x (received h ++ cn_down c)) as Ht.
  { intros t x. specialize (Hd t x). rewrite !tells_app in *. rewrite received_cons. lia. }
  split; cbn [cn_runner cn_taskType cn_isConnected cn_up cn_down]; rewrite ?Hmax; try done.
  - by eapply ledger_step.
  - unfold said. destruct (step_says _ _ _ Hr) as [k Hk]. rewrite Hk, drop_app_length, H3. by rewrite (assoc_L (++)).
  - by rewrite omap_app, H4.
  - intros t x. rewrite Ht. apply H5.
  - intros t Ha. rewrite received_cons. destruct (step_accepted _ _ _ _ _ t H1 Hr Ha) as [Ha0|]; [|lia]. specialize (H6 t Ha0). lia.
  - intros t st Hst Hne. rewrite received_cons. destruct (step_settings _ _ _ _ _ t st H1 Hr Hst Hne) as [(st0 & Hst0 & Hne0)|]; [|lia].
    specialize (H7 t st0 Hst0 Hne0). lia.
  - intros Hc t x. rewrite Ht. by apply H8.
Qed.

#[export] Instance RunnerMessage_eq_dec : EqDecision RunnerMessage.
Proof. solve_decision. Defined.

(** ** Turns of the broker *)

Lemma quiet_unsettled b t : quiet b = true → unsettled (view b t).
Proof.
  unfold quiet. rewrite forallb_forall. intros Hq r a. unfold view. cbn. destruct (jm_get (accepts b) t) as [p|] eqn:Hp; [|done]. cbn.
  pose proof (jm_get_key _ _ _ Hp) as Hk. apply list_elem_of_In, Hq in Hk. unfold answered in Hk. rewrite Hp in Hk. cbn in Hk.
  intros [= <- Hph]. by rewrite Hph in Hk.
Qed.

Lemma sendMessage_get ms m id : jm_get (sendMessage ms <$> m) id = (λ c, (sendMessage ms (id, c)).2) <$> jm_get m id.
Proof.
  induction m as [|[k c] m IH]; [done|]. cbn [fmap list_fmap]. unfold sendMessage at 1. cbn [fst snd jm_get].
  destruct (decide (k = id)) as [->|]; [done|exact IH].
Qed.

Lemma hist_weaken K (D D' : Prop) v : (D → D') → hist_ok K D v → hist_ok K D' v.
Proof. intros HD [H1 H2 H3 H4 H5 H6 H7 H8]. split; auto. Qed.
Lemma hist_known K D e v : hist_ok K D v → hist_ok K D (with_known e v).
Proof. intros [H1 H2 H3 H4 H5 H6 H7 H8]. by split. Qed.

Record turn_ok (s : System) (e : BrokerEvent) (s' : System) (ms : list Message) : Prop := {
  to_core : core_ok s';
  to_turned : turned (λ r, r ∈ sy_runners s) e (sy_broker s) (sy_broker s');
  to_runners : sy_runners s' = sy_runners s;
  to_sent : TaskBroker.sent (sy_broker s') = TaskBroker.sent (sy_broker s) ++ ms;
  to_connections : connections s' = sendMessage ms <$> connections s;
  to_drawn : Forall (λ t, t ∉ sy_tasks s) (drawn_ids e);
}.

Lemma broker_turn_ok internal s e ts s' :
  core_ok s → (∀ r, speaker e = Some r → r ∈ sy_runners s) → broker_turn internal s e ts = Some s' → ∃ ms, turn_ok s e s' ms.
Proof.
  intros [H1 H2 H3 H4 Hinv] Hsp. unfold broker_turn. case_bool_decide as Hd; [|done].
  destruct (broker_run internal (sy_broker s) (e :: (EContinue <$> ts))) as [b|] eqn:Hb; [|done]. cbn. destruct (quiet b) eqn:Hq; [|done]. intros [= <-].
  assert (turned (λ r, r ∈ sy_runners s) e (sy_broker s) b) as Ht.
  { eapply turn_turned; [done|done| |exact Hb]. eapply Forall_impl; [exact Hd|]. intros t Ht. by apply (hi_unused _ _ _ (H4 t)). }
  destruct (tu_sent _ _ _ _ Ht) as [ms Hms]. exists ms. split; cbn; try done.
  - split; cbn; [by apply Ht|intros t; by apply quiet_unsettled|apply Ht| |by eapply broker_run_inv]. intros t.
    eapply (moves_hist _ _ (t ∈ drawn_ids e)); [|eapply hist_weaken, hist_known, H4|apply Ht]; set_solver.
  - by rewrite Hms, drop_app_length.
Qed.

(** Acceptances come from the runner that was offered the task. *)
Definition honest (b : TaskBroker.TaskBroker) (e : BrokerEvent) : Prop :=
  ∀ t r now ids, e = ERunnerMessage r (RmTaskAccepted t) now ids → (r, SaidOffer) ∈ vw_said (view b t).

Lemma turn_origin s e s' ms t r :
  core_ok s → turn_ok s e s' ms → honest (sy_broker s) e → vw_task (view (sy_broker s') t) = Some r →
  vw_task (view (sy_broker s) t) = Some r ∨ ∃ now ids, e = ERunnerMessage r (RmTaskAccepted t) now ids.
Proof.
  intros [_ Hq _ Hh _] [_ Ht _ _ _ Hd] Hhon Hv.
  apply (moves_origin _ _ _ _ _ r (tu_moves _ _ _ _ Ht t)) in Hv as [Hv|[(r0 & now & ids & He) Hp]]; [by left| |apply Hq|].
  - right. cbn in Hp. specialize (Hhon _ _ _ _ He). apply (hi_runner _ _ _ (Hh t) _ r) in Hhon; [subst r0; eauto|right; eauto].
  - intros (r0 & now & ids & He) Hin. specialize (Hhon _ _ _ _ He). eapply Forall_forall in Hd; [|exact Hin].
    destruct (hi_unused _ _ _ (Hh t) Hd) as (_ & _ & Hs). rewrite Hs in Hhon. by apply not_elem_of_nil in Hhon.
Qed.

Lemma conn_turn b b' id c h Q rest Q' rest' ms :
  conn_ok b id c h Q rest → TaskBroker.sent b' = TaskBroker.sent b ++ ms →
  Q ++ rest = Q' ++ rest' → (∀ t, vw_task (view b' t) = Some id → accepted Q' t = 1 ∧ answers Q' t = 0) →
  conn_ok b' id (sendMessage ms (id, set_up c (omap (wire_up (cn_taskType c)) rest'))).2 h Q' rest'.
Proof.
  intros [H1 H2 H3 H4 H5 H6 H7 H8 H9] Hms HQ Ht.
  assert (∀ t x, times (id, x) (vw_said (view b' t)) = times (id, x) (vw_said (view b t)) + tells t x (omap (to_runner id) ms)) as Hs.
  { intros t x. unfold view. cbn [vw_said]. by rewrite Hms, omap_app, times_app, tells_sent. }
  unfold sendMessage. cbn [fst snd]. destruct (cn_isConnected (set_up c _)) eqn:Hc; cbn in Hc;
    split; cbn [cn_runner cn_taskType cn_isConnected cn_up cn_down push_down set_up]; rewrite ?Hc; try done; try (by rewrite H3).
  - intros t x. rewrite (assoc_L (++)), tells_app, Hs. specialize (H5 t x). lia.
  - intros t x. rewrite Hs. specialize (H5 t x). lia.
  - intros _. by apply H8.
Qed.

Lemma turn_known s e s' ms :
  turn_ok s e s' ms →
  knownRunners (sy_broker s') = match e with
    | ERegisterRunner r => js_add (knownRunners (sy_broker s)) r
    | EDeregisterRunner r => js_del (knownRunners (sy_broker s)) r
    | _ => knownRunners (sy_broker s) end.
Proof. intros Ht. apply (moves_known _ _ _ _ _ (tu_moves _ _ _ _ (to_turned _ _ _ _ Ht) "")). Qed.

Lemma conn_bystander s e s' ms id c h Q rest :
  core_ok s → turn_ok s e s' ms → honest (sy_broker s) e → speaker e ≠ Some id →
  conn_ok (sy_broker s) id c h Q rest → conn_ok (sy_broker s') id (sendMessage ms (id, c)).2 h Q rest.
Proof.
  intros Hcore Ht Hhon Hsp Hc. assert (c = set_up c (omap (wire_up (cn_taskType c)) rest)) as ->
    by (rewrite <-(co_up _ _ _ _ _ _ Hc); by destruct c).
  eapply conn_turn; [exact Hc|apply Ht|done|]. intros t Hv.
  apply (turn_origin _ _ _ _ _ _ Hcore Ht Hhon) in Hv as [Hv|(now & ids & ->)]; [|done]. by apply (co_tasks _ _ _ _ _ _ Hc).
Qed.

(** The next message of a runner. *)
Lemma wire_next ty rest m up :
  omap (wire_up ty) rest = m :: up →
  ∃ r1 x r2, rest = r1 ++ x :: r2 ∧ wire_up ty x = Some m ∧ omap (wire_up ty) r2 = up ∧ ∀ t, answers r1 t = 0 ∧ accepted r1 t = 0.
Proof.
  induction rest as [|x rest IH]; cbn; [done|]. destruct (wire_up ty x) as [m'|] eqn:Hx.
  - intros [= <- <-]. by exists [], x, rest.
  - intros (r1 & x' & r2 & -> & ? & ? & Hz)%IH. exists (x :: r1), x', r2. split; [done|split; [done|split; [done|]]].
    intros t. destruct x; try done. apply Hz.
Qed.

(** The position of a connection after its next message was delivered. *)
Record delivered (c : Connection) (Q rest : list FromRunner) (m : RunnerMessage) (up : list RunnerMessage) (Q' rest' : list FromRunner) : Prop := {
  dl_app : Q ++ rest = Q' ++ rest';
  dl_up : up = omap (wire_up (cn_taskType c)) rest';
  dl_answers t : answers Q' t = answers Q t + (if decide (m = RmTaskDone t ∨ m = RmTaskError t) then 1 else 0);
  dl_accepted t : accepted Q' t = accepted Q t + (if decide (m = RmTaskAccepted t) then 1 else 0);
  dl_prefix : Q' `prefix_of` Q ++ rest;
}.

Lemma next_delivered b id c h Q rest m up :
  conn_ok b id c h Q rest → cn_up c = m :: up → ∃ Q' rest', delivered c Q rest m up Q' rest'.
Proof.
  intros Hc Hup. rewrite (co_up _ _ _ _ _ _ Hc) in Hup. destruct (wire_next _ _ _ _ Hup) as (r1 & x & r2 & -> & Hx & Hr2 & Hz).
  exists (Q ++ r1 ++ [x]), r2. split; [by rewrite <-!(assoc_L (++))|done| | |by exists r2; rewrite <-!(assoc_L (++))].
  - intros t. rewrite !answers_app. destruct (Hz t) as [-> _]. cbn [Nat.add]. f_equal. unfold answers. rewrite filter_cons, filter_nil.
    destruct x; cbn in Hx; simplify_eq; repeat case_decide; naive_solver.
  - intros t. rewrite !accepted_app. destruct (Hz t) as [_ ->]. cbn [Nat.add]. f_equal. unfold accepted. rewrite filter_cons, filter_nil.
    destruct x; cbn in Hx; simplify_eq; repeat case_decide; naive_solver.
Qed.

Lemma said_offer b id c h Q rest t : conn_ok b id c h Q rest → 1 ≤ accepted (TaskRunner.sent (cn_runner c)) t → (id, SaidOffer) ∈ vw_said (view b t).
Proof.
  intros Hc Ha. apply times_elem. pose proof (co_accepted _ _ _ _ _ _ Hc t Ha) as H1. pose proof (co_told _ _ _ _ _ _ Hc t SaidOffer) as H2.
  rewrite tells_app in H2. lia.
Qed.

Lemma delivered_within b id c h Q rest m up Q' rest' t :
  conn_ok b id c h Q rest → delivered c Q rest m up Q' rest' →
  answers Q' t ≤ accepted Q' t ≤ 1 ∧ answers Q t ≤ accepted Q t ∧ accepted Q' t ≤ accepted (TaskRunner.sent (cn_runner c)) t.
Proof.
  intros Hc [_ _ _ _ Hp]. rewrite <-(co_sent _ _ _ _ _ _ Hc) in Hp.
  split; [apply (proj1 (co_ledger _ _ _ _ _ _ Hc Q' Hp) t)|]. split; [|by apply answers_prefix].
  apply (co_ledger _ _ _ _ _ _ Hc Q). rewrite (co_sent _ _ _ _ _ _ Hc). by exists rest.
Qed.

(** The runner that speaks. *)
Lemma conn_speaker s s' ms id c h Q rest m up now ids Q' rest' :
  core_ok s → turn_ok s (ERunnerMessage id m now ids) s' ms → honest (sy_broker s) (ERunnerMessage id m now ids) →
  id ∈ knownRunners (sy_broker s) → conn_ok (sy_broker s) id c h Q rest → delivered c Q rest m up Q' rest' →
  conn_ok (sy_broker s') id (sendMessage ms (id, set_up c up)).2 h Q' rest'.
Proof.
  intros Hcore Ht Hhon Hk Hc Hd. rewrite (dl_up _ _ _ _ _ _ _ Hd).
  eapply conn_turn; [exact Hc|apply Ht|apply Hd|]. intros t Hv.
  destruct (delivered_within _ _ _ _ _ _ _ _ _ _ t Hc Hd) as (W1 & W2 & _).
  pose proof (dl_answers _ _ _ _ _ _ _ Hd t) as Da. pose proof (dl_accepted _ _ _ _ _ _ _ Hd t) as Dc.
  assert (¬ (m = RmTaskDone t ∨ m = RmTaskError t)) as Hne.
  { intros Hm. enough (vw_task (view (sy_broker s') t) = None) by congruence.
    apply (tu_ends _ _ _ _ (to_turned _ _ _ _ Ht) id); [|done|apply Hcore]. exists now, ids. by destruct Hm as [->| ->]; [left|right]. }
  rewrite decide_False in Da by done.
  apply (turn_origin _ _ _ _ _ _ Hcore Ht Hhon) in Hv as [Hv|(now' & ids' & [= ->])].
  - apply (co_tasks _ _ _ _ _ _ Hc) in Hv as [? ?]. lia.
  - rewrite decide_True in Dc by done. lia.
Qed.

(** ** Every event keeps the books *)

Lemma core_with s m : core_ok s → core_ok (with_connections s m).
Proof. intros [H1 H2 H3 H4 H5]. by split. Qed.

Lemma hist_names (K K' : string → Prop) D v : (∀ r, K r → K' r) → hist_ok K D v → hist_ok K' D v.
Proof. intros HK [H1 H2 H3 H4 H5 H6 H7 H8]. split; auto. Qed.

Lemma tells_none t x l : Forall (λ m, told t m = None) l → tells t x l = 0.
Proof. induction 1 as [|m l Hm _ IH]; [done|]. rewrite tells_cons, IH. unfold tells. cbn -[times]. by rewrite Hm. Qed.

Lemma add_ok s id ty n idle : id ∉ sy_runners s → system_ok s → system_ok (add s id ty n idle).
Proof.
  intros Hid [[H1 H2 H3 H4 Hinv] H5]. unfold add. split.
  - split; cbn [sy_broker sy_runners sy_tasks]; [done|done| | |done].
    + eapply Forall_impl; [exact H3|]. cbn. intros o Ho. by right.
    + intros t. eapply hist_names, H4. intros r Hr. by right.
  - intros id' c Hc. cbn [connections sy_runners sy_broker] in *. destruct (decide (id = id')) as [<-|Hne]; last first.
    { rewrite jm_get_set_ne in Hc by done. destruct (H5 id' c Hc) as (? & ? & ?). split; [by right|done]. }
    rewrite jm_get_set in Hc. injection Hc as <-. split; [by left|split; [done|]]. exists [], [], [].
    assert (maxConcurrency (new_runner n idle) = n ∧ TaskRunner.sent (new_runner n idle) = [] ∧ runningTasks (new_runner n idle) = []) as (Em & Es & Er)
      by (unfold new_runner, resetIdleTimer; by case_bool_decide).
    assert (∀ t x, tells t x (received [] ++ [BrokerInfoRequest]) = 0) as Ht by (intros; by apply tells_none, Forall_singleton).
    split; cbn [cn_runner cn_taskType cn_isConnected cn_up cn_down]; rewrite ?Em, ?Es, ?Er; try done.
    + apply new_runner_account.
    + apply ledger_new.
    + intros t x. rewrite Ht. lia.
    + intros t Hv. exfalso. apply Hid. apply (hi_names _ _ _ (H4 t)). by left.
Qed.

(** A turn that no runner asked for. *)
Lemma quiet_turn_ok internal s e ts s' :
  core_ok s → speaker e = None → broker_turn internal s e ts = Some s' →
  (∀ id c, jm_get (connections s) id = Some c → id ∈ sy_runners s ∧
    (cn_isConnected c = true → id ∈ match e with ERegisterRunner r => js_add (knownRunners (sy_broker s)) r
      | EDeregisterRunner r => js_del (knownRunners (sy_broker s)) r | _ => knownRunners (sy_broker s) end) ∧
    ∃ h Q rest, conn_ok (sy_broker s) id c h Q rest) → system_ok s'.
Proof.
  intros Hcore Hsp Hturn Hconns. apply broker_turn_ok in Hturn as [ms Ht]; [|done|by rewrite Hsp]. split; [apply Ht|].
  assert (honest (sy_broker s) e) as Hhon by (by intros t r now ids ->).
  intros id c Hc. rewrite (to_connections _ _ _ _ Ht), sendMessage_get in Hc.
  destruct (jm_get (connections s) id) as [c0|] eqn:Hc0; [|done]. injection Hc as <-.
  destruct (Hconns id c0 Hc0) as (Hr & Hk & h & Q & rest & Hok). split; [by rewrite (to_runners _ _ _ _ Ht)|]. split.
  - rewrite (turn_known _ _ _ _ Ht). intros Hcon. apply Hk. unfold sendMessage in Hcon. cbn [fst snd] in Hcon. destruct (cn_isConnected c0) eqn:E; [done|congruence].
  - exists h, Q, rest. eapply conn_bystander; [done|exact Ht|done| |done]. by rewrite Hsp.
Qed.

Lemma drain_ok internal s s' : system_ok s → drain internal s = Some s' → system_ok s'.
Proof.
  intros [H1 H2]. unfold drain. destruct (broker_turn internal s EStartDraining []) as [s1|] eqn:Ht; [|done]. cbn. intros [= <-].
  apply quiet_turn_ok in Ht as [C1 C2]; [|done|done|exact H2]. split; [by apply core_with|]. intros id c Hc. cbn [connections with_connections] in Hc.
  rewrite jm_get_map in Hc. destruct (jm_get (connections s1) id) as [c0|] eqn:Hc0; [|done]. injection Hc as <-.
  destruct (C2 id c0 Hc0) as (Hr & Hk & h & Q & rest & Hok). split; [done|]. destruct (cn_isConnected c0) eqn:Hcon; [|by split; [rewrite Hcon|eauto]].
  split; [auto|]. exists h, Q, rest. destruct Hok as [O1 O2 O3 O4 O5 O6 O7 O8 O9].
  split; cbn [cn_runner cn_taskType cn_isConnected cn_up cn_down push_down sy_broker with_connections]; try done; [|by rewrite Hcon].
  intros t x. rewrite (assoc_L (++)), tells_app. specialize (O5 t x). rewrite (tells_none t x [BrokerDrain]) by (by apply Forall_singleton). lia.
Qed.

Lemma close_ok internal s id c ts s' :
  system_ok s → removeConnection internal s id c ts = Some s' → system_ok s'.
Proof.
  intros [H1 H2]. unfold removeConnection.
  assert (∀ id' c', jm_get (jm_del (connections s) id) id' = Some c' → id ≠ id' ∧ jm_get (connections s) id' = Some c') as Hget.
  { intros id' c'. destruct (decide (id = id')) as [->|]; [by rewrite jm_get_del|by rewrite jm_get_del_ne]. }
  destruct (cn_isConnected c).
  - intros Ht. eapply quiet_turn_ok; [by apply core_with| |exact Ht|]; [done|]. intros id' c' [Hne Hc']%Hget.
    destruct (H2 _ _ Hc') as (Hr & Hk & Hok). split; [done|split; [|done]]. intros Hcon. apply js_del_elem. split; [done|auto].
  - intros [= <-]. split; [by apply core_with|]. intros id' c' [_ Hc']%Hget. by apply H2.
Qed.

Lemma runner_turn_ok s id c c0 o s' :
  system_ok s → jm_get (connections s) id = Some c → takes c c0 (oc_event o) → runner_turn s id c0 o = Some s' → system_ok s'.
Proof.
  intros [H1 H2] Hc Htk. unfold runner_turn. destruct (runner_step (cn_runner c0) o) as [r|] eqn:Hr; [|done]. cbn. intros [= <-].
  split; [by apply core_with|]. intros id' c' Hc'. cbn [connections with_connections] in Hc'. destruct (decide (id = id')) as [<-|Hne].
  - rewrite jm_get_set in Hc'. injection Hc' as <-. destruct (H2 id c Hc) as (Hrun & Hk & h & Q & rest & Hok). split; [done|]. split.
    + cbn. destruct Htk as (_ & _ & -> & _). done.
    + do 3 eexists. by eapply (runner_conn _ _ c c0).
  - rewrite jm_get_set_ne in Hc' by done. by apply H2.
Qed.

(** A message that is dropped: the runner has not introduced itself. *)
Lemma conn_apart b id c h Q rest m up Q' rest' :
  conn_ok b id c h Q rest → delivered c Q rest m up Q' rest' → cn_isConnected c = false → conn_ok b id (set_up c up) h Q' rest'.
Proof.
  intros Hok Hd Hcon. pose proof Hok as [O1 O2 O3 O4 O5 O6 O7 O8 O9].
  split; cbn [cn_runner cn_taskType cn_isConnected cn_up cn_down set_up]; try done; [by rewrite O3; apply Hd|apply Hd|].
  intros t Hv. exfalso. destruct (O9 t Hv) as [Ha _]. pose proof (answers_prefix Q (Q ++ rest) t) as [_ Hle]; [by exists rest|].
  rewrite <-O3 in Hle. specialize (O6 t ltac:(lia)). specialize (O8 Hcon t SaidOffer). rewrite tells_app in O8. lia.
Qed.

Lemma conn_introduced b id c h Q rest : conn_ok b id c h Q rest → conn_ok b id (set_isConnected c) h Q rest.
Proof. intros [O1 O2 O3 O4 O5 O6 O7 O8 O9]. by split. Qed.

Lemma to_broker_ok internal s id c m up now ids ts s' :
  system_ok s → jm_get (connections s) id = Some c → cn_up c = m :: up →
  onConnectionMessage internal (with_connections s (jm_set (connections s) id (set_up c up))) id (set_up c up) m now ids ts = Some s' →
  system_ok s'.
Proof.
  intros [H1 H2] Hc Hup. set (s1 := with_connections s _). assert (core_ok s1) as H1' by (by apply core_with).
  destruct (H2 id c Hc) as (Hrun & Hk & h & Q & rest & Hok). destruct (next_delivered _ _ _ _ _ _ _ _ Hok Hup) as (Q' & rest' & Hd).
  assert (∀ id' c', id' ≠ id → jm_get (connections s1) id' = Some c' → jm_get (connections s) id' = Some c') as Hget.
  { intros id' c' Hne. cbn [s1 connections with_connections]. by rewrite jm_get_set_ne. }
  unfold onConnectionMessage. change (cn_isConnected (set_up c up)) with (cn_isConnected c). destruct (cn_isConnected c) eqn:Hcon.
  - intros Ht. assert (∀ r, speaker (ERunnerMessage id m now ids) = Some r → r ∈ sy_runners s1) as Hsp by (by intros r [= <-]).
    apply broker_turn_ok in Ht as [ms Ht]; [|done|done]. split; [apply Ht|].
    assert (honest (sy_broker s1) (ERunnerMessage id m now ids)) as Hhon.
    { intros t r now' ids' [= <- ->]. eapply said_offer; [exact Hok|].
      destruct (delivered_within _ _ _ _ _ _ _ _ _ _ t Hok Hd) as (_ & _ & Hle). pose proof (dl_accepted _ _ _ _ _ _ _ Hd t) as Ha.
      rewrite decide_True in Ha by done. lia. }
    intros id' c' Hc'. rewrite (to_connections _ _ _ _ Ht), sendMessage_get in Hc'.
    destruct (jm_get (connections s1) id') as [c0|] eqn:Hc0; [|done]. injection Hc' as <-.
    rewrite (to_runners _ _ _ _ Ht), (turn_known _ _ _ _ Ht).
    assert (cn_isConnected (sendMessage ms (id', c0)).2 = true → cn_isConnected c0 = true) as Hsame
      by (unfold sendMessage; cbn [fst snd]; destruct (cn_isConnected c0) eqn:E; [done|congruence]).
    destruct (decide (id' = id)) as [->|Hne].
    + cbn [s1 connections with_connections] in Hc0. rewrite jm_get_set in Hc0. injection Hc0 as <-. split; [done|split; [auto|]].
      exists h, Q', rest'. eapply (conn_speaker s1); [exact H1'|exact Ht|exact Hhon|by apply Hk|exact Hok|exact Hd].
    + destruct (H2 id' c0 (Hget _ _ Hne Hc0)) as (Hr & Hk' & h' & P & rst & Hok'). split; [done|split; [auto|]].
      exists h', P, rst. eapply (conn_bystander s1); [done|exact Ht|done| |done]. cbn. congruence.
  - assert (system_ok s1) as Hdrop.
    { split; [done|]. intros id' c' Hc'. destruct (decide (id' = id)) as [->|Hne]; [|by apply H2, Hget].
      cbn [s1 connections with_connections] in Hc'. rewrite jm_get_set in Hc'. injection Hc' as <-. split; [done|split; [cbn; congruence|]].
      exists h, Q', rest'. by eapply conn_apart. }
    destruct m; try (by intros [= <-]). intros Ht. eapply quiet_turn_ok; [by apply core_with| |exact Ht|]; [done|].
    intros id' c' Hc'. cbn [connections with_connections] in Hc'. destruct (decide (id' = id)) as [->|Hne].
    + rewrite jm_get_set in Hc'. injection Hc' as <-. split; [done|split; [intros _; apply js_add_elem; by left|]].
      exists h, Q', rest'. by eapply conn_introduced, conn_apart.
    + rewrite jm_get_set_ne in Hc' by done. destruct (ss_conns _ Hdrop id' c' Hc') as (? & Hk' & ?). split; [done|split; [|done]].
      intros Hcon'. apply js_add_elem. right. by apply Hk'.
Qed.

Lemma system_next_ok internal s e s' : system_ok s → system_next internal s e = Some s' → system_ok s'.
Proof.
  intros Hs. destruct e; cbn [system_next].
  - case_bool_decide; [done|]. intros [= <-]. by apply add_ok.
  - destruct (jm_get (connections s) id) as [c|]; [|done]. cbn. by apply close_ok.
  - by apply drain_ok.
  - destruct (own_event e) eqn:He; [|done]. destruct Hs as [H1 H2]. intros Ht. eapply quiet_turn_ok; [done| |exact Ht|]; [by destruct e|].
    intros id c Hc. destruct (H2 id c Hc) as (? & ? & ?). split; [done|split; [|done]]. by destruct e.
  - destruct (jm_get (connections s) id) as [c|] eqn:Hc; [|done]. cbn. destruct (cn_up c) as [|m up] eqn:Hup; [done|].
    by eapply to_broker_ok.
  - destruct (jm_get (connections s) id) as [c|] eqn:Hc; [|done]. cbn. destruct (cn_down c) as [|m down] eqn:Hd; [done|].
    eapply runner_turn_ok; [done|exact Hc|]. split; [done|split; [done|split; [done|split; [done|]]]].
    intros t x. cbn [cn_down oc_event]. by rewrite Hd.
  - destruct (jm_get (connections s) id) as [c|] eqn:Hc; [|done]. cbn. destruct (is_message (oc_event o)) eqn:Hm; [done|].
    eapply runner_turn_ok; [done|exact Hc|]. split; [done|split; [done|split; [done|split; [done|]]]].
    intros t x. by destruct (oc_event o).
Qed.

Lemma system_run_ok internal s es s' : system_ok s → system_run internal s es = Some s' → system_ok s'.
Proof.
  revert s; induction es as [|e es IH]; intros s Hs; cbn; [by intros [= <-]|].
  destruct (system_next internal s e) as [s1|] eqn:He; [|done]. cbn. intros Hr. by eapply IH, Hr; eapply system_next_ok.
Qed.

Lemma new_system_ok : system_ok new_system.
Proof.
  split; [|done]. split; cbn; [constructor|done|constructor| |apply broker_inv_new]. intros t. split; unfold at_runner, awaiting; cbn; try done; try (intros; lia).
  - by intros r [?|[? ?]].
  - intros r r' H. by apply not_elem_of_nil in H.
  - intros r H. by apply not_elem_of_nil in H.
Qed.

(** * What the broker and its runners agree on *)

Lemma answered_up b id c h Q rest t : conn_ok b id c h Q rest → 1 ≤ answers rest t → RmTaskDone t ∈ cn_up c ∨ RmTaskError t ∈ cn_up c.
Proof.
  intros Hok Ha. rewrite (co_up _ _ _ _ _ _ Hok). unfold answers in Ha.
  destruct (filter (λ m, m = RunnerTaskDone t ∨ m = RunnerTaskError t) rest) as [|m k] eqn:Hf; cbn in Ha; [lia|].
  assert (m ∈ filter (λ m, m = RunnerTaskDone t ∨ m = RunnerTaskError t) rest) as [Hm Hin]%list_elem_of_filter by (rewrite Hf; left).
  destruct Hm as [->| ->]; [left|right]; apply list_elem_of_omap; by eexists.
Qed.

Lemma not_cancelled s id c h Q rest t :
  core_ok s → conn_ok (sy_broker s) id c h Q rest → vw_task (view (sy_broker s) t) = Some id → ¬ Exists (λ e, cancels e t) h.
Proof.
  intros Hcore Hok Hv Hx. apply Exists_exists in Hx as (e & He & reason & ->).
  assert (1 ≤ tells t SaidCancel (received h)) as Ht.
  { apply list_elem_of_split in He as (h1 & h2 & ->). unfold received. rewrite omap_app, tells_app. change (EMessage (BrokerTaskCancel t reason) :: h2) with ([EMessage (BrokerTaskCancel t reason)] ++ h2).
    rewrite omap_app, tells_app. unfold tells at 2. cbn -[times]. rewrite decide_True by done. cbn -[times]. rewrite times_one, decide_True by done. lia. }
  pose proof (co_told _ _ _ _ _ _ Hok t SaidCancel) as Hs. rewrite tells_app in Hs.
  assert ((id, SaidCancel) ∈ vw_said (view (sy_broker s) t)) as Hin by (apply times_elem; lia).
  apply (hi_cancel _ _ _ (cr_hist _ Hcore t)) in Hin as [Hn _]. congruence.
Qed.

Lemma task_view b t task : jm_get (tasks b) t = Some task → vw_task (view b t) = Some (t_runnerId task).
Proof. intros Ht. unfold view. cbn. by rewrite Ht. Qed.

(** C6: No task is lost between the broker and a runner: in every state the broker and its runners can reach, a task the broker holds for a connected runner is being worked on by that runner, which has not cancelled it, or its result or error is on the way to the broker. *)
Theorem tasks_not_lost internal es s id c t task :
  system_run internal new_system es = Some s → jm_get (connections s) id = Some c →
  jm_get (tasks (sy_broker s)) t = Some task → t_runnerId task = id →
  (∃ st, jm_get (runningTasks (cn_runner c)) t = Some st ∧ ts_status st ≠ aborting_cancelled) ∨ RmTaskDone t ∈ cn_up c ∨ RmTaskError t ∈ cn_up c.
Proof.
  intros Hrun Hc Ht Hid. destruct (system_run_ok _ _ _ _ new_system_ok Hrun) as [Hcore Hconns].
  destruct (Hconns id c Hc) as (_ & _ & h & Q & rest & Hok). pose proof (task_view _ _ _ Ht) as Hv. rewrite Hid in Hv.
  pose proof (not_cancelled _ _ _ _ _ _ _ Hcore Hok Hv) as Hnc. destruct (co_tasks _ _ _ _ _ _ Hok t Hv) as [Hac Han].
  destruct (proj2 (co_account _ _ _ _ _ _ Hok) t) as [_ _ H3 H4 H5]. rewrite (co_sent _ _ _ _ _ _ Hok), answers_app, accepted_app in *.
  destruct (jm_get (runningTasks (cn_runner c)) t) as [st|] eqn:Hst.
  - left. exists st. split; [done|]. intros Hs. by apply Hnc, (H3 st).
  - right. eapply answered_up; [exact Hok|]. destruct (H5 eq_refl) as [|]; [lia|lia|done].
Qed.

(** C7: The broker never gives a runner more tasks than the runner has slots: in every reachable state it holds at most as many tasks for a connected runner as the maximal concurrency of that runner, whatever is under way between them. *)
Theorem runner_not_overcommitted internal es s id c :
  system_run internal new_system es = Some s → jm_get (connections s) id = Some c →
  length (filter (λ p, t_runnerId p.2 = id) (tasks (sy_broker s))) ≤ maxConcurrency (cn_runner c).
Proof.
  intros Hrun Hc. destruct (system_run_ok _ _ _ _ new_system_ok Hrun) as [Hcore Hconns].
  destruct (Hconns id c Hc) as (_ & _ & h & Q & rest & Hok).
  destruct (co_ledger _ _ _ _ _ _ Hok Q) as [_ (R & HR & Hin)]; [rewrite (co_sent _ _ _ _ _ _ Hok); by exists rest|].
  set (l := filter (λ p, t_runnerId p.2 = id) (tasks (sy_broker s))). rewrite <-(length_fmap fst l). transitivity (length R); [|done].
  apply submseteq_length, NoDup_submseteq; [apply (jm_wf_filter (λ p, t_runnerId p.2 = id)), Hcore|].
  intros t Ht. apply list_elem_of_fmap in Ht as ([t' task] & -> & [Hid Hel]%list_elem_of_filter). cbn [fst snd] in *.
  apply jm_elem_get, task_view in Hel; [|apply Hcore]. rewrite Hid in Hel.
  destruct (co_tasks _ _ _ _ _ _ Hok _ Hel) as [Hac Han]. destruct (Hin _ Hac) as [|[|Hx]]; [done|lia|].
  by apply (not_cancelled _ _ _ _ _ _ _ Hcore Hok Hel) in Hx.
Qed.

Lemma accepted_new s o t : accepted (TaskRunner.sent s) t = 0 → new_task_id s (BrokerTaskOfferAccept o t).
Proof.
  intros Ha. apply Forall_forall. intros m Hm. destruct m; try done. intros ->.
  assert (1 ≤ accepted (TaskRunner.sent s) t) as H1 by (by apply (times_elem (RunnerTaskAccepted t))). lia.
Qed.

(** What is next is said for the first time. *)
Lemma first_told s id c h Q rest t m down x :
  core_ok s → conn_ok (sy_broker s) id c h Q rest → cn_down c = m :: down → told t m = Some x → x ≠ SaidCancel → tells t x (received h) = 0.
Proof.
  intros Hcore Hok Hd Hm Hx. pose proof (co_told _ _ _ _ _ _ Hok t x) as Ht. rewrite Hd, tells_app, tells_cons in Ht.
  assert (tells t x [m] = 1) as H1 by (unfold tells; cbn -[times]; rewrite Hm; cbn -[times]; by rewrite times_one, decide_True).
  assert (times (id, x) (vw_said (view (sy_broker s) t)) ≤ 1) by (destruct x; [apply (cr_hist _ Hcore t)|done|apply (cr_hist _ Hcore t)]). lia.
Qed.

(** The situations task-runner.ts calls impossible are impossible: with the broker at the other end of its connection a runner handles the next message without throwing, whichever it is, no other event makes it throw, and it is never offered a task twice. *)
Theorem runner_never_surprised internal es s id c :
  system_run internal new_system es = Some s → jm_get (connections s) id = Some c →
  (∀ m down now draws, cn_down c = m :: down → ∃ r, runner_next (cn_runner c) (EMessage m) now draws = Some (Ok r)) ∧
  (∀ e now draws err, is_message e = false → runner_next (cn_runner c) e now draws ≠ Some (Err err)).
Proof.
  intros Hrun Hc. destruct (system_run_ok _ _ _ _ new_system_ok Hrun) as [Hcore Hconns].
  destruct (Hconns id c Hc) as (_ & _ & h & Q & rest & Hok). split.
  - intros m down now draws Hd. cbn [runner_next].
    assert (∀ t x, told t m = Some x → x ≠ SaidCancel → tells t x (received h) = 0) as Hfirst by (intros; by eapply first_told).
    assert (new_task_id (cn_runner c) m) as Hnew.
    { destruct m as [| |o t| | | | | |]; try done. apply accepted_new.
      specialize (Hfirst t SaidOffer). cbn in Hfirst. rewrite decide_True in Hfirst by done. specialize (Hfirst eq_refl ltac:(done)).
      pose proof (co_accepted _ _ _ _ _ _ Hok t). lia. }
    rewrite bool_decide_true by exact Hnew. destruct m; cbn [onMessage]; try by eexists.
    unfold receivedSettings. destruct (jm_get (runningTasks (cn_runner c)) taskId) as [st|] eqn:Hst; [|by eexists].
    specialize (Hfirst taskId SaidSettings). cbn in Hfirst. rewrite decide_True in Hfirst by done. specialize (Hfirst eq_refl ltac:(done)).
    pose proof (co_settings _ _ _ _ _ _ Hok taskId st Hst) as Hset.
    destruct (ts_status st); [by eexists|..]; exfalso; specialize (Hset ltac:(done)); lia.
  - intros e now draws err Hm He. destruct e; try done; cbn [runner_next] in He.
    + by destruct (offerInterval _).
    + destruct (jm_get (runningTasks (cn_runner c)) taskId) as [st|] eqn:Hst; [|done]. destruct (ts_timer st) eqn:Htm; [|done].
      injection He as He. unfold taskTimedOut in He. cbn [runningTasks TaskRunner.with_tasks] in He. rewrite jm_get_set in He. cbn [ts_status] in He.
      pose proof (ta_ok _ _ _ (proj2 (co_account _ _ _ _ _ _ Hok) taskId) st Hst) as [_ Hto]. destruct (ts_status st) eqn:Hss; try done. by rewrite Hto in Htm.
    + destruct (jm_get (runningTasks _) _) as [st|]; [|done]. by destruct (ts_executing st).
    + by destruct (jm_has _ _).
    + by destruct (jm_has _ _).
    + by destruct (jm_has _ _).
    + by destruct (is_settled _).
    + by destruct (is_settled _).
    + by destruct (is_settled _).
    + by destruct (idleTimer _).
Qed.

(** * Turns complete *)

Definition phase_weight (p : Accept) : nat := match ac_phase p with AwaitRunner (Some _) | AwaitRequester (Some _) => 1 | _ => 0 end.
Definition pending_answers (b : TaskBroker.TaskBroker) : nat := jm_sum phase_weight (accepts b).

Lemma continue_progress internal b t :
  broker_inv b → answered b t = true → ∃ b', broker_next internal b (EContinue t) = Some b' ∧ pending_answers b' < pending_answers b.
Proof.
  intros Hb. unfold answered. destruct (jm_get (accepts b) t) as [p|] eqn:Hp; [|done]. cbn [fmap option_fmap option_map].
  assert (phase_weight p = 1 → jm_sum phase_weight (jm_del (accepts b) t) < pending_answers b) as Hdel.
  { intros Hw. pose proof (jm_sum_del_lt phase_weight _ _ _ Hp). unfold pending_answers. lia. }
  cbn [broker_next]. rewrite Hp. cbn [mbind option_bind]. unfold phase_weight in Hdel at 1.
  destruct (ac_phase p) as [[a|]|[a|]] eqn:Hph; intros; try done; specialize (Hdel eq_refl); (eexists; split; [done|]).
  - assert (asks_for b t (ac_request p)) as Ht by (by exists p, (Some a)).
    destruct (tb_progress _ Hb _ _ Ht) as (q & Hq & _). unfold after_runner. destruct a; try done. rewrite Hq. cbv zeta.
    destruct (request_index _ _); [|done]. unfold pending_answers at 1. cbn [accepts with_accepts].
    match goal with |- context [messageRequester ?x ?y ?z] => destruct (messageRequester_fields x y z) as (-> & _) end. cbn [accepts with_callbacks TaskBroker.with_pending TaskBroker.with_tasks].
    pose proof (jm_sum_set phase_weight (accepts b) t (mkAccept (ac_offer p) (ac_request p) (AwaitRequester None))) as Hs.
    rewrite Hp in Hs. cbn [fmap option_fmap option_map default] in Hs. unfold phase_weight in Hs at 2 4. rewrite Hph in Hs. cbn [ac_phase] in Hs.
    unfold pending_answers. change (accepts (update_request b _ _)) with (accepts b). cbn [id] in Hs. lia.
  - assert (same_books (drop_accept b t) (after_requester b t a)) as [Ha _ _]; [|unfold pending_answers at 1; by rewrite Ha].
    unfold after_requester. destruct a; [|apply cancelTask_books..]. pose proof (sendTaskSettings_books (drop_accept b t) t) as Hs.
    destruct (sendTaskSettings (drop_accept b t) t) as [b' [u|e]]; [done|]. etransitivity; [exact Hs|apply cancelTask_books].
Qed.

Lemma continues_complete internal b : broker_inv b → ∃ ts b', broker_run internal b (EContinue <$> ts) = Some b' ∧ quiet b' = true.
Proof.
  remember (pending_answers b) as k eqn:Hk. revert b Hk. induction (lt_wf k) as [k _ IH]. intros b -> Hb.
  destruct (quiet b) eqn:Hq; [by exists [], b|].
  assert (∃ t, answered b t = true) as [t Ht].
  { unfold quiet in Hq. apply not_true_iff_false in Hq. rewrite forallb_forall in Hq.
    destruct (existsb (answered b) (jm_keys (accepts b))) eqn:Hx; [apply existsb_exists in Hx as (t & _ & Ht); eauto|].
    exfalso. apply Hq. intros t Hin. apply negb_true_iff. destruct (answered b t) eqn:Ht; [|done].
    apply not_true_iff_false in Hx. exfalso. apply Hx, existsb_exists. eauto. }
  destruct (continue_progress internal b t Hb Ht) as (b1 & Hb1 & Hlt).
  destruct (IH _ Hlt b1 eq_refl) as (ts & b' & Hr & Hq'); [by eapply broker_next_inv|].
  exists (t :: ts), b'. split; [|done]. cbn [fmap list_fmap broker_run]. by rewrite Hb1.
Qed.

(** Whatever event the broker handles next, the continuations it starts come to an end: in every reachable state a turn of the broker can be completed, so that the next message finds no settled promise waiting. *)
Theorem broker_turn_completes internal es s e b :
  system_run internal new_system es = Some s → broker_next internal (sy_broker s) e = Some b →
  Forall (λ t, t ∉ sy_tasks s) (drawn_ids e) → ∃ ts s', broker_turn internal s e ts = Some s'.
Proof.
  intros Hrun He Hd. destruct (system_run_ok _ _ _ _ new_system_ok Hrun) as [Hcore _].
  destruct (continues_complete internal b) as (ts & b' & Hr & Hq); [by eapply broker_next_inv, He; apply Hcore|].
  exists ts. unfold broker_turn. rewrite bool_decide_true by done. cbn [broker_run]. rewrite He. cbn. rewrite Hr. cbn. rewrite Hq. eauto.
Qed.

(** * Witnesses *)

(** A runner with one slot connects, offers it, and is given a task and its settings. *)
Definition one_task : list SystemEvent := [
  SAdd "r" "javascript" 1 15; SToRunner "r" 0 [("x", 0%Z)]; SToBroker "r" 0 ["a"] []; SToRunner "r" 0 [("x", 0%Z)];
  SBroker (ERegisterRequester "main") []; SRunner "r" (mkOccurrence EOfferInterval 250 [("o1", 10%Z)]);
  SBroker (ERequesterMessage "main" (QmTaskRequest "q1" "javascript") 0 0 ["b"; "c"]) [];
  SToBroker "r" 0 ["t1"; "d"] []; SToRunner "r" 300 [("o2", 0%Z)]; SToBroker "r" 0 ["e"; "f"] ["t1"];
  SBroker (ERequesterMessage "main" (QmTaskSettings "t1") 1 0 ["g"; "h"]) ["t1"] ].
Definition at_work : System := Eval vm_compute in default new_system (system_run false new_system one_task).
Lemma at_work_reached : system_run false new_system one_task = Some at_work.
Proof. by vm_compute. Qed.

Definition conn_at (s : System) (id : string) : Connection :=
  default (mkConnection (new_runner 0 0) "" false [] []) (jm_get (connections s) id).
Definition the_conn : Connection := Eval vm_compute in conn_at at_work "r".
Lemma the_conn_get : jm_get (connections at_work) "r" = Some the_conn.
Proof. by vm_compute. Qed.
Definition the_task : Task := mkTask "r" "main" "javascript" true.
Lemma the_task_get : jm_get (tasks (sy_broker at_work)) "t1" = Some the_task.
Proof. by vm_compute. Qed.

Lemma tasks_not_lost_witness :
  t_runnerId the_task = "r" ∧
  ((∃ st, jm_get (runningTasks (cn_runner the_conn)) "t1" = Some st ∧ ts_status st ≠ aborting_cancelled) ∨
    RmTaskDone "t1" ∈ cn_up the_conn ∨ RmTaskError "t1" ∈ cn_up the_conn).
Proof. split; [reflexivity|]. exact (tasks_not_lost false one_task at_work "r" the_conn "t1" the_task at_work_reached the_conn_get the_task_get eq_refl). Defined.

Lemma runner_not_overcommitted_witness :
  length (tasks (sy_broker at_work)) = 1 ∧ length (filter (λ p, t_runnerId p.2 = "r") (tasks (sy_broker at_work))) ≤ maxConcurrency (cn_runner the_conn).
Proof. split; [reflexivity|]. exact (runner_not_overcommitted false one_task at_work "r" the_conn at_work_reached the_conn_get). Defined.

Lemma runner_never_surprised_witness :
  cn_down the_conn = [BrokerTaskSettings "t1"] ∧
  ∃ r, runner_next (cn_runner the_conn) (EMessage (BrokerTaskSettings "t1")) 400 [("o3", 0%Z)] = Some (Ok r).
Proof.
  split; [reflexivity|].
  exact (proj1 (runner_never_surprised false one_task at_work "r" the_conn at_work_reached the_conn_get) (BrokerTaskSettings "t1") [] 400%Z [("o3", 0%Z)] eq_refl).
Defined.

(** The runner accepts, and the process that offered the task has to go on. *)
Definition offered : System := Eval vm_compute in default new_system (system_run false new_system (take 9 one_task)).
Lemma offered_reached : system_run false new_system (take 9 one_task) = Some offered.
Proof. by vm_compute. Qed.
Definition acceptance : BrokerEvent := ERunnerMessage "r" (RmTaskAccepted "t1") 0 ["e"; "f"].
Definition accepted_there : TaskBroker.TaskBroker := Eval vm_compute in default new_broker (broker_next false (sy_broker offered) acceptance).
Lemma acceptance_next : broker_next false (sy_broker offered) acceptance = Some accepted_there.
Proof. by vm_compute. Qed.
Lemma acceptance_new : Forall (λ t, t ∉ sy_tasks offered) (drawn_ids acceptance).
Proof. apply (bool_decide_unpack _). by vm_compute. Qed.

Lemma broker_turn_completes_witness : quiet accepted_there = false ∧ ∃ ts s', broker_turn false offered acceptance ts = Some s'.
Proof.
  split; [reflexivity|].
  exact (broker_turn_completes false (take 9 one_task) offered acceptance accepted_there offered_reached acceptance_next acceptance_new).
Defined.
