(* ===== verification/Expressions.v ===== *)
(** Expressions: workflow/src/extensions/expression-parser.ts and
    @n8n/tournament/src/ExpressionSplitter.ts.

    The value of a parameter is text with code between double braces.  Both files
    split it into chunks, and join chunks again after the code has been rewritten.
    A string is the list of its characters; the code looks at backslashes and braces
    only. *)

From stdpp Require Import prelude list strings.
From Stdlib Require Import Ascii Lia.
From S2P Require Import Prelude.
Local Open Scope nat_scope.

Abbreviation chars := (list ascii).
Definition js (s : string) : chars := String.list_ascii_of_string s.

Definition backslash : ascii := "\".
Definition lbrace : ascii := "{".
Definition rbrace : ascii := "}".

(** * Chunks *)

Inductive ExpressionChunk :=
| ExpressionText (text : chars)
| ExpressionCode (text : chars) (hasClosingBrackets : bool).
#[export] Instance ExpressionChunk_eq_dec : EqDecision ExpressionChunk.
Proof. solve_decision. Defined.

(** * Strings *)

(** [l] begins with [p]. *)
Fixpoint starts (p l : chars) : bool :=
  match p, l with
  | [], _ => true
  | x :: p, y :: l => bool_decide (x = y) && starts p l
  | _ :: _, [] => false
  end.

(** [text.replace(pat, rep)] with a string [pat]: the first occurrence. *)
Fixpoint replace_first (pat rep l : chars) : chars :=
  if starts pat l then rep ++ drop (length pat) l else
  match l with [] => [] | x :: l => x :: replace_first pat rep l end.

(** A double brace. *)
Definition twice (b : ascii) : chars := [b; b].
(** The same with a backslash. *)
Definition escaped (b : ascii) : chars := [backslash; b; b].

(** [OPEN_BRACKET] is for [lbrace], [CLOSE_BRACKET] for [rbrace]. *)
Inductive SearchingFor := Open | Close.
Definition bracket (m : SearchingFor) : ascii := match m with Open => lbrace | Close => rbrace end.

Definition escapeCode (text : chars) : chars := replace_first (escaped rbrace) (twice rbrace) text.
Definition escapeTmplExpression (part : chars) : chars := replace_first (twice rbrace) (escaped rbrace) part.

(** * expression-parser.ts *)

(** [/(?<escape>\\|)(?<brackets>bb)/.exec(l)]: where the first match begins and whether
    its group [escape] is not empty. *)
Fixpoint exec_escape (b : ascii) (l : chars) : option (nat * bool) :=
  if starts (escaped b) l then Some (0, true) else
  if starts (twice b) l then Some (0, false) else
  match l with [] => None | _ :: l => prod_map S id <$> exec_escape b l end.

(** The chunk of a buffer. *)
Definition chunk_of (m : SearchingFor) (buffer : chars) (closed : bool) : ExpressionChunk :=
  match m with Open => ExpressionText buffer | Close => ExpressionCode (escapeCode buffer) closed end.
Definition other (m : SearchingFor) : SearchingFor := match m with Open => Close | Close => Open end.

(** The loop; [expr] is what is left of the expression.  Every iteration shortens it. *)
Fixpoint split_loop (fuel : nat) (m : SearchingFor) (buffer expr : chars) (chunks : list ExpressionChunk) : option (list ExpressionChunk) :=
  match fuel with
  | 0 => None
  | S fuel =>
      if bool_decide (expr = []) then Some chunks else
      match exec_escape (bracket m) expr with
      | None => Some (chunks ++ [chunk_of m (buffer ++ expr) false])
      | Some (i, true) => split_loop fuel m (buffer ++ take (i + 3) expr) (drop (i + 3) expr) chunks
      | Some (i, false) => split_loop fuel (other m) [] (drop (i + 2) expr) (chunks ++ [chunk_of m (buffer ++ take i expr) true])
      end
  end.

Definition split_fuel (expression : chars) : nat := S (length expression).

Definition splitExpression (expression : chars) : option (list ExpressionChunk) :=
  if bool_decide (expression = []) then Some [ExpressionText []]
  else split_loop (split_fuel expression) Open [] expression [].

Definition join_chunk (c : ExpressionChunk) : chars :=
  match c with
  | ExpressionCode text closed => twice lbrace ++ escapeTmplExpression text ++ (if closed then twice rbrace else [])
  | ExpressionText text => text
  end.

Definition joinExpression (parts : list ExpressionChunk) : chars := concat (join_chunk <$> parts).

(** * ExpressionSplitter.ts *)

Module Splitter.

(** [/(?<brackets>bb)/.exec(l)] *)
Fixpoint exec_bracket (b : ascii) (l : chars) : option nat :=
  if starts (twice b) l then Some 0 else
  match l with [] => None | _ :: l => S <$> exec_bracket b l end.

(** [text.replace(/\\\\/g, '\\')]: every pair of backslashes becomes one. *)
Fixpoint normalizeBackslashes (text : chars) : chars :=
  match text with
  | [] => []
  | x :: (y :: l') as l =>
      if bool_decide (x = backslash) && bool_decide (y = backslash) then backslash :: normalizeBackslashes l'
      else x :: normalizeBackslashes l
  | [x] => [x]
  end.

(** The length of [/\\*$/]: the backslashes at the end. *)
Fixpoint leading_backslashes (l : chars) : nat :=
  match l with x :: l => if bool_decide (x = backslash) then S (leading_backslashes l) else 0 | [] => 0 end.
Definition backslashCount (beforeMatch : chars) : nat := leading_backslashes (reverse beforeMatch).

Definition closed_chunk (m : SearchingFor) (buffer : chars) : ExpressionChunk :=
  match m with Open => ExpressionText (normalizeBackslashes buffer) | Close => ExpressionCode (escapeCode buffer) true end.
Definition last_chunk (m : SearchingFor) (buffer : chars) : ExpressionChunk :=
  match m with Open => ExpressionText buffer | Close => ExpressionCode (escapeCode buffer) false end.

Fixpoint splitter_loop (fuel : nat) (m : SearchingFor) (buffer expr : chars) (chunks : list ExpressionChunk) : option (list ExpressionChunk) :=
  match fuel with
  | 0 => None
  | S fuel =>
      if bool_decide (expr = []) then Some chunks else
      match exec_bracket (bracket m) expr with
      | None => Some (chunks ++ [last_chunk m (buffer ++ expr)])
      | Some i =>
          if Nat.odd (backslashCount (take i expr))
          then splitter_loop fuel m (buffer ++ take (i + 2) expr) (drop (i + 2) expr) chunks
          else splitter_loop fuel (other m) [] (drop (i + 2) expr) (chunks ++ [closed_chunk m (buffer ++ take i expr)])
      end
  end.

Definition splitter_splitExpression (expression : chars) : option (list ExpressionChunk) :=
  if bool_decide (expression = []) then Some [ExpressionText []]
  else splitter_loop (split_fuel expression) Open [] expression [].

End Splitter.

(** * Occurrences *)

Fixpoint occurs (pat l : chars) : bool :=
  starts pat l || match l with [] => false | _ :: l => occurs pat l end.

Lemma starts_spec pat l : starts pat l = true ↔ ∃ q, l = pat ++ q.
Proof.
  revert l; induction pat as [|x pat IH]; intros l; cbn; [naive_solver|].
  destruct l as [|y l]; [naive_solver|]. rewrite andb_true_iff, IH, bool_decide_eq_true. naive_solver.
Qed.

Lemma occurs_spec pat l : occurs pat l = true ↔ ∃ p q, l = p ++ pat ++ q.
Proof.
  induction l as [|x l IH]; cbn [occurs]; rewrite orb_true_iff, starts_spec.
  - split; [|intros (p & q & Hl)].
    + intros [[q Hq]|?]; [by exists [], q|done].
    + left. destruct p as [|? ?]; [by exists q|done].
  - rewrite IH. split.
    + intros [[q Hq]|(p & q & ->)]; [by exists [], q|by exists (x :: p), q].
    + intros (p & q & Hl). destruct p as [|y p]; [left; by exists q|right]. cbn in Hl. simplify_eq. eauto.
Qed.

(** The characters of [l] hold no [pat]. *)
Abbreviation free pat l := (occurs pat l = false).

Lemma free_infix pat p l q : free pat (p ++ l ++ q) → free pat l.
Proof.
  intros Hf. apply not_true_iff_false. intros (p' & q' & ->)%occurs_spec. apply not_true_iff_false in Hf.
  apply Hf, occurs_spec. exists (p ++ p'), (q' ++ q). by rewrite <- !(assoc_L (++)).
Qed.
Lemma free_prefix pat l q : free pat (l ++ q) → free pat l.
Proof. apply (free_infix pat []). Qed.
Lemma free_suffix pat p l : free pat (p ++ l) → free pat l.
Proof. intros H. apply (free_infix pat p l []). by rewrite app_nil_r. Qed.

Lemma free_not_starts pat x l : free pat (x :: l) → starts pat (x :: l) = false ∧ free pat l.
Proof. cbn. by intros [? ?]%orb_false_iff. Qed.

(** A text either holds no double brace, or splits at the first one. *)
Lemma first_brace b l :
  free (twice b) l ∨ ∃ p q, l = p ++ twice b ++ q ∧ free (twice b) (p ++ [b]).
Proof.
  induction l as [|x l IH]; [by left|].
  destruct (starts (twice b) (x :: l)) eqn:Hs.
  - right. apply starts_spec in Hs as [q Hq]. exists [], q. split; [done|]. cbn. by rewrite andb_false_r.
  - destruct IH as [Hf|(p & q & -> & Hf)]; [left; cbn [occurs]; by rewrite Hs, Hf|right].
    exists (x :: p), q. split; [done|]. cbn [occurs app]. rewrite Hf, orb_false_r. by destruct p.
Qed.

(** The double brace [starts] finds in front of others. *)
Lemma starts_before b p q : p ≠ [] → starts (twice b) (p ++ twice b ++ q) = starts (twice b) (p ++ [b]).
Proof. destruct p as [|x [|y p]]; [done|done|done]. Qed.

Lemma exec_free b l : free (twice b) l → Splitter.exec_bracket b l = None.
Proof.
  induction l as [|x l IH]; [done|]. intros [Hs Hf]%free_not_starts. cbn [Splitter.exec_bracket]. by rewrite Hs, IH.
Qed.
Lemma exec_at b p q : free (twice b) (p ++ [b]) → Splitter.exec_bracket b (p ++ twice b ++ q) = Some (length p).
Proof.
  induction p as [|x p IH].
  - intros _. cbn. by rewrite bool_decide_true.
  - intros [Hs Hf]%(free_not_starts _ x (p ++ [b])). cbn [Splitter.exec_bracket app].
    change (x :: p ++ twice b ++ q) with ((x :: p) ++ twice b ++ q). rewrite starts_before by done.
    change ((x :: p) ++ [b]) with (x :: p ++ [b]). rewrite Hs, IH by done. done.
Qed.

Lemma starts_escaped b x l : starts (escaped b) (x :: l) = true → x = backslash ∧ starts (twice b) l = true.
Proof. cbn [starts escaped]. rewrite andb_true_iff, bool_decide_eq_true. naive_solver. Qed.

Lemma exec_escape_free b l : free (twice b) l → exec_escape b l = None.
Proof.
  induction l as [|x l IH]; [done|]. intros [Hs Hf]%free_not_starts. cbn [exec_escape].
  assert (starts (escaped b) (x :: l) = false) as ->; [|by rewrite Hs, IH].
  apply not_true_iff_false. intros [-> Hst]%starts_escaped. destruct l; [done|].
  by apply free_not_starts in Hf as [? _]; congruence.
Qed.

(** The first double brace is escaped exactly when a backslash precedes it. *)
Lemma exec_escape_at b p q : b ≠ backslash → free (twice b) (p ++ [b]) → last p ≠ Some backslash →
  exec_escape b (p ++ twice b ++ q) = Some (length p, false).
Proof.
  intros Hb. induction p as [|x p IH].
  - intros _ _. cbn. rewrite bool_decide_false by done. cbn. by rewrite bool_decide_true.
  - intros [Hs Hf]%(free_not_starts _ x (p ++ [b])) Hl. cbn [exec_escape app].
    change (x :: p ++ twice b ++ q) with ((x :: p) ++ twice b ++ q). rewrite starts_before by done.
    change ((x :: p) ++ [b]) with (x :: p ++ [b]). rewrite Hs.
    assert (starts (escaped b) ((x :: p) ++ twice b ++ q) = false) as ->.
    { apply not_true_iff_false. intros [-> Hst]%(starts_escaped _ x (p ++ twice b ++ q)).
      destruct p as [|y p]; [done|]. rewrite starts_before in Hst by done.
      assert (starts (twice b) ((y :: p) ++ [b]) = false) by (by apply (free_not_starts _ y (p ++ [b]))). congruence. }
    rewrite IH; [done|done|]. destruct p; [done|]. by rewrite last_cons_cons in Hl.
Qed.
Lemma exec_escape_escaped b p q : b ≠ backslash → free (twice b) p →
  exec_escape b (p ++ escaped b ++ q) = Some (length p, true).
Proof.
  intros Hb. induction p as [|x p IH].
  - intros _. assert (starts (escaped b) (escaped b ++ q) = true) as Hs by (apply starts_spec; by exists q).
    cbn [app escaped exec_escape] in *. by rewrite Hs.
  - intros [Hs Hf]%free_not_starts. cbn [exec_escape app].
    assert (starts (twice b) (x :: p ++ escaped b ++ q) = false) as Hs'.
    { apply not_true_iff_false. intros Ht. apply not_true_iff_false in Hs. apply Hs. revert Ht.
      destruct p as [|y p]; [|done]. cbn. rewrite !andb_true_iff, !bool_decide_eq_true. naive_solver. }
    assert (starts (escaped b) (x :: p ++ escaped b ++ q) = false) as ->.
    { apply not_true_iff_false. intros [-> Hst]%(starts_escaped _ x (p ++ escaped b ++ q)).
      destruct p as [|y p]; [cbn in Hst; by rewrite bool_decide_false in Hst|].
      apply free_not_starts in Hf as [Hn _]. apply not_true_iff_false in Hn. apply Hn. revert Hst.
      destruct p as [|z p]; [|done]. cbn. rewrite !andb_true_iff, !bool_decide_eq_true. naive_solver. }
    rewrite Hs', IH by done. done.
Qed.

(** * Escapes *)

Lemma drop_prefix {A} (p q : list A) : drop (length p) (p ++ q) = q.
Proof. by rewrite drop_app_length. Qed.

Lemma replace_free pat rep l : free pat l → replace_first pat rep l = l.
Proof.
  induction l as [|x l IH]; intros Hf.
  - destruct pat; [|done]. by cbn in Hf.
  - apply free_not_starts in Hf as [Hs Hf]. cbn [replace_first]. by rewrite Hs, IH.
Qed.

Lemma replace_here pat rep q : replace_first pat rep (pat ++ q) = rep ++ q.
Proof.
  assert (starts pat (pat ++ q) = true) as Hs by (apply starts_spec; by exists q).
  destruct (pat ++ q) as [|x l] eqn:Hl; cbn [replace_first]; rewrite Hs, <- Hl; by rewrite drop_prefix.
Qed.

Lemma replace_twice b rep p q : free (twice b) (p ++ [b]) → replace_first (twice b) rep (p ++ twice b ++ q) = p ++ rep ++ q.
Proof.
  induction p as [|x p IH]; intros Hf; [exact (replace_here (twice b) rep q)|].
  apply (free_not_starts _ x (p ++ [b])) in Hf as [Hs Hf]. cbn [replace_first app].
  change (x :: p ++ twice b ++ q) with ((x :: p) ++ twice b ++ q). rewrite starts_before by done.
  change ((x :: p) ++ [b]) with (x :: p ++ [b]). by rewrite Hs, IH.
Qed.

Lemma replace_escaped b rep p q : b ≠ backslash → free (twice b) p → replace_first (escaped b) rep (p ++ escaped b ++ q) = p ++ rep ++ q.
Proof.
  intros Hb. induction p as [|x p IH]; intros Hf; [exact (replace_here (escaped b) rep q)|].
  apply free_not_starts in Hf as [Hs Hf]. cbn [replace_first app].
  assert (starts (escaped b) (x :: p ++ escaped b ++ q) = false) as ->; [|by rewrite IH].
  apply not_true_iff_false. intros [-> Hst]%(starts_escaped _ x (p ++ escaped b ++ q)).
  destruct p as [|y p]; [cbn in Hst; by rewrite bool_decide_false in Hst|].
  apply free_not_starts in Hf as [Hn _]. apply not_true_iff_false in Hn. apply Hn. revert Hst.
  destruct p as [|z p]; [|done]. cbn. rewrite !andb_true_iff, !bool_decide_eq_true. naive_solver.
Qed.

Lemma escaped_free b l : free (twice b) l → free (escaped b) l.
Proof.
  intros Hf. apply not_true_iff_false. intros (p & q & ->)%occurs_spec.
  apply free_suffix, (free_suffix _ [backslash]) in Hf. cbn in Hf. by rewrite bool_decide_true in Hf.
Qed.

Lemma free_snoc b p : free (twice b) p → last p ≠ Some b → free (twice b) (p ++ [b]).
Proof.
  intros Hf Hl. destruct (first_brace b (p ++ [b])) as [?|(p' & q & He & _)]; [done|exfalso].
  destruct (decide (q = [])) as [->|Hq].
  - rewrite app_nil_r in He. unfold twice in He. change [b; b] with ([b] ++ [b]) in He. rewrite (assoc_L (++)) in He.
    apply app_inj_tail in He as [-> _]. by rewrite last_snoc in Hl.
  - destruct q as [|x q _] using rev_ind; [done|]. rewrite !(assoc_L (++)) in He. apply app_inj_tail in He as [-> _].
    rewrite <- (assoc_L (++)) in Hf. apply free_suffix in Hf. cbn in Hf. by rewrite bool_decide_true in Hf.
Qed.

Lemma free_snoc_inv b p : free (twice b) (p ++ [b]) → free (twice b) p ∧ last p ≠ Some b.
Proof.
  intros Hf. split; [by eapply free_prefix|]. destruct p as [|x p _] using rev_ind; [done|].
  rewrite last_snoc. intros [= ->]. rewrite <- (assoc_L (++)) in Hf. apply free_suffix in Hf. cbn in Hf. by rewrite bool_decide_true in Hf.
Qed.

(** A code whose first closing bracket, if any, is escaped and not glued to another. *)
Definition escapes_first (c : chars) : Prop :=
  ∃ p q, c = p ++ escaped rbrace ++ q ∧ free (twice rbrace) (p ++ [rbrace]).

Lemma escape_roundtrip c : free (twice rbrace) c ∨ escapes_first c → escapeTmplExpression (escapeCode c) = c.
Proof.
  unfold escapeTmplExpression, escapeCode. intros [Hf|(p & q & -> & Hf)].
  - rewrite (replace_free (escaped rbrace)) by (by apply escaped_free). by apply replace_free.
  - rewrite replace_escaped by (done || by eapply free_prefix). by rewrite replace_twice.
Qed.

(** * Splitting and joining *)

Definition glued : chars := [rbrace; backslash; rbrace; rbrace].

(** What the loop has read of the current chunk, with its opening bracket. *)
Definition opening (m : SearchingFor) : chars := match m with Open => [] | Close => twice lbrace end.
Definition closing (m : SearchingFor) : chars := match m with Open => twice lbrace | Close => twice rbrace end.

Lemma joinExpression_cons c cs : joinExpression (c :: cs) = join_chunk c ++ joinExpression cs.
Proof. done. Qed.

(** The first double brace of [expr], as the loop sees it. *)
Inductive first_match (b : ascii) (expr : chars) : option (nat * bool) → Prop :=
| match_none : free (twice b) expr → first_match b expr None
| match_escaped p q : expr = p ++ escaped b ++ q → free (twice b) p → first_match b expr (Some (length p, true))
| match_bracket p q : expr = p ++ twice b ++ q → free (twice b) (p ++ [b]) → last p ≠ Some backslash →
    first_match b expr (Some (length p, false)).

Lemma exec_escape_spec b expr : b ≠ backslash → first_match b expr (exec_escape b expr).
Proof.
  intros Hb. destruct (first_brace b expr) as [Hf|(p & q & -> & Hf)].
  - rewrite exec_escape_free by done. by constructor.
  - destruct (decide (last p = Some backslash)) as [Hl|Hl].
    + destruct p as [|x p _] using rev_ind; [done|]. rewrite last_snoc in Hl. injection Hl as ->.
      rewrite <- !(assoc_L (++)) in *. change ([backslash] ++ twice b ++ q) with (escaped b ++ q).
      assert (free (twice b) p) by (by eapply free_prefix).
      rewrite exec_escape_escaped by done. by econstructor.
    + rewrite exec_escape_at by done. by econstructor.
Qed.

Lemma bracket_ne m : bracket m ≠ backslash.
Proof. by destruct m. Qed.

Lemma take_app_3 {A} (p r q : list A) n : n = length p + length r → take n (p ++ r ++ q) = p ++ r ∧ drop n (p ++ r ++ q) = q.
Proof.
  intros ->. rewrite <- length_app, (assoc_L (++)). split; [by rewrite take_app_length|by rewrite drop_app_length].
Qed.

Lemma not_suffix_tail {A} (pat p q : list A) : ¬ pat `suffix_of` p ++ q → ¬ pat `suffix_of` q.
Proof. intros H Hq. by apply H, suffix_app_r. Qed.

Lemma split_loop_join fuel m buf expr chunks :
  length expr < fuel →
  ¬ twice lbrace `suffix_of` expr → ¬ escaped rbrace `suffix_of` expr → free glued (buf ++ expr) →
  (expr = [] → m = Open ∧ buf = []) → (m = Close → buf = [] ∨ escapes_first buf) →
  ∃ cs, split_loop fuel m buf expr chunks = Some (chunks ++ cs) ∧ joinExpression cs = opening m ++ buf ++ expr.
Proof.
  revert m buf expr chunks; induction fuel as [|fuel IH]; intros m buf expr chunks Hfuel Hn1 Hn2 Hg Hend Hbuf; [lia|].
  cbn [split_loop]. case_bool_decide as He.
  { destruct (Hend He) as [-> ->]. subst. exists []. by rewrite app_nil_r. }
  pose proof (exec_escape_spec (bracket m) expr (bracket_ne m)) as Hm. destruct Hm as [Hf|p q -> Hf|p q -> Hf Hl].
  - eexists; split; [done|]. unfold joinExpression. cbn [fmap list_fmap concat]. rewrite app_nil_r. destruct m; [done|].
    cbn [chunk_of join_chunk opening]. rewrite app_nil_r, escape_roundtrip; [done|].
    destruct (Hbuf eq_refl) as [->|(p & q & -> & Hp)]; [by left|right].
    exists p, (q ++ expr). by rewrite <- !(assoc_L (++)).
  - destruct (take_app_3 p (escaped (bracket m)) q (length p + 3) eq_refl) as [-> ->].
    destruct (IH m (buf ++ p ++ escaped (bracket m)) q chunks) as (cs & Hcs & Hj).
    + rewrite !length_app in Hfuel. cbn in Hfuel. lia.
    + by apply not_suffix_tail, not_suffix_tail in Hn1.
    + by apply not_suffix_tail, not_suffix_tail in Hn2.
    + by rewrite <- !(assoc_L (++)).
    + intros ->. exfalso. rewrite app_nil_r in Hn1, Hn2. destruct m.
      * apply Hn1. exists (p ++ [backslash]). by rewrite <- (assoc_L (++)).
      * apply Hn2. by exists p.
    + intros ->. right. destruct (Hbuf eq_refl) as [->|(p' & q' & -> & Hp')].
      * exists p, []. rewrite app_nil_r. split; [done|]. apply free_snoc; [done|]. intros Hl.
        destruct p as [|x p _] using rev_ind; [done|]. rewrite last_snoc in Hl. injection Hl as ->.
        cbn [app] in Hg. rewrite <- (assoc_L (++)) in Hg. apply free_suffix in Hg. change (free glued (glued ++ q)) in Hg.
        assert (occurs glued (glued ++ q) = true) by (apply occurs_spec; by exists [], q). congruence.
      * exists p', (q' ++ p ++ escaped rbrace). by rewrite <- !(assoc_L (++)).
    + exists cs. split; [done|]. rewrite Hj. by rewrite <- !(assoc_L (++)).
  - destruct (take_app_3 p (twice (bracket m)) q (length p + 2) eq_refl) as [_ ->].
    rewrite take_app_length.
    destruct (IH (other m) [] q (chunks ++ [chunk_of m (buf ++ p) true])) as (cs & Hcs & Hj).
    + rewrite !length_app in Hfuel. cbn in Hfuel. lia.
    + by apply not_suffix_tail, not_suffix_tail in Hn1.
    + by apply not_suffix_tail, not_suffix_tail in Hn2.
    + by apply free_suffix, free_suffix, free_suffix in Hg.
    + intros ->. split; [|done]. destruct m; [exfalso|done]. apply Hn1. rewrite app_nil_r. by exists p.
    + by left.
    + eexists; split; [by rewrite Hcs, <- (assoc_L (++))|]. cbn [app]. rewrite joinExpression_cons, Hj.
      destruct m; cbn [chunk_of join_chunk opening other app]; [by rewrite <- !(assoc_L (++))|].
      rewrite escape_roundtrip; [by rewrite <- !(assoc_L (++))|].
      destruct (Hbuf eq_refl) as [->|(p' & q' & -> & Hp')]; [left; by eapply free_prefix|right].
      exists p', (q' ++ p). by rewrite <- !(assoc_L (++)).
Qed.

(** The loop ends in any case. *)
Lemma split_loop_total fuel m buf expr chunks : length expr < fuel → is_Some (split_loop fuel m buf expr chunks).
Proof.
  revert m buf expr chunks; induction fuel as [|fuel IH]; intros m buf expr chunks Hfuel; [lia|]. cbn [split_loop].
  case_bool_decide as He; [done|].
  assert (expr ≠ [] → ∀ k, length (drop (k + 2) expr) < fuel) as Hd by (intros ? k; rewrite length_drop; destruct expr; cbn in *; [done|lia]).
  destruct (exec_escape (bracket m) expr) as [[i []]|]; [| |done]; apply IH.
  - replace (i + 3) with (S i + 2) by lia. by apply Hd.
  - by apply Hd.
Qed.

(** C38: Splitting terminates on every expression, and joining the chunks gives the expression back, provided it does not end with an opening or an escaped closing bracket and no escaped closing bracket is glued to a brace on its left. *)
Theorem join_splitExpression s :
  ∃ chunks, splitExpression s = Some chunks ∧
    (¬ twice lbrace `suffix_of` s → ¬ escaped rbrace `suffix_of` s → free glued s → joinExpression chunks = s).
Proof.
  unfold splitExpression. case_bool_decide as He; [by subst; exists [ExpressionText []]|].
  destruct (split_loop_total (split_fuel s) Open [] s []) as [cs Hcs]; [unfold split_fuel; lia|].
  exists cs. split; [done|]. intros H1 H2 H3.
  destruct (split_loop_join (split_fuel s) Open [] s []) as (cs' & Hcs' & Hj); [unfold split_fuel; lia|done..|].
  rewrite Hcs in Hcs'. cbn in Hcs'. replace cs with cs' by congruence. done.
Qed.

(** * Joining and splitting *)

(** What may stand before a bracket [b] that is not escaped: no other bracket [b] but
    escaped ones. *)
Inductive part (b : ascii) : chars → Prop :=
| part_end p : free (twice b) (p ++ [b]) → last p ≠ Some backslash → part b p
| part_escaped p q : free (twice b) p → part b q → part b (p ++ escaped b ++ q).

(** What may stand at the end of an expression. *)
Inductive tail (b : ascii) : chars → Prop :=
| tail_end p : p ≠ [] → free (twice b) p → tail b p
| tail_escaped p q : free (twice b) p → tail b q → tail b (p ++ escaped b ++ q).

(** The text of a code chunk: only its first closing bracket is escaped by [joinExpression]. *)
Definition code_text (P : chars → Prop) (c : chars) : Prop :=
  (P c ∧ free (twice rbrace) c) ∨
  ∃ p q, c = p ++ twice rbrace ++ q ∧ free (twice rbrace) (p ++ [rbrace]) ∧ P q.

(** Chunks alternate, beginning with a text. *)
Inductive canonical : list ExpressionChunk → Prop :=
| canonical_text t : tail lbrace t → canonical [ExpressionText t]
| canonical_open t c : part lbrace t → code_text (tail rbrace) c → canonical [ExpressionText t; ExpressionCode c false]
| canonical_closed t c : part lbrace t → code_text (part rbrace) c → canonical [ExpressionText t; ExpressionCode c true]
| canonical_more t c cs : part lbrace t → code_text (part rbrace) c → canonical cs →
    canonical (ExpressionText t :: ExpressionCode c true :: cs).

Lemma loop_escaped fuel m buf p q chunks :
  free (twice (bracket m)) p →
  split_loop (S fuel) m buf (p ++ escaped (bracket m) ++ q) chunks = split_loop fuel m (buf ++ p ++ escaped (bracket m)) q chunks.
Proof.
  intros Hf. cbn [split_loop]. rewrite bool_decide_false by (by destruct p). rewrite exec_escape_escaped by (done || apply bracket_ne).
  by destruct (take_app_3 p (escaped (bracket m)) q (length p + 3) eq_refl) as [-> ->].
Qed.

Lemma loop_bracket fuel m buf p q chunks :
  free (twice (bracket m)) (p ++ [bracket m]) → last p ≠ Some backslash →
  split_loop (S fuel) m buf (p ++ twice (bracket m) ++ q) chunks =
    split_loop fuel (other m) [] q (chunks ++ [chunk_of m (buf ++ p) true]).
Proof.
  intros Hf Hl. cbn [split_loop]. rewrite bool_decide_false by (by destruct p). rewrite exec_escape_at by (done || apply bracket_ne).
  destruct (take_app_3 p (twice (bracket m)) q (length p + 2) eq_refl) as [_ ->]. by rewrite take_app_length.
Qed.

Lemma loop_part fuel m buf t q chunks :
  part (bracket m) t → length t + 2 + length q < fuel →
  ∃ fuel', length q < fuel' ∧
    split_loop fuel m buf (t ++ twice (bracket m) ++ q) chunks = split_loop fuel' (other m) [] q (chunks ++ [chunk_of m (buf ++ t) true]).
Proof.
  intros Hp. revert fuel buf. induction Hp as [p Hf Hl|p t Hf Ht IH]; intros fuel buf Hfuel; (destruct fuel as [|fuel]; [lia|]).
  - exists fuel. split; [lia|]. by apply loop_bracket.
  - rewrite !length_app in Hfuel. cbn in Hfuel.
    destruct (IH fuel (buf ++ p ++ escaped (bracket m))) as (fuel' & ? & He); [lia|]. exists fuel'. split; [done|].
    rewrite <- !(assoc_L (++)), loop_escaped by done. rewrite He. by rewrite <- !(assoc_L (++)).
Qed.

Lemma loop_tail fuel m buf t chunks :
  tail (bracket m) t → length t < fuel → split_loop fuel m buf t chunks = Some (chunks ++ [chunk_of m (buf ++ t) false]).
Proof.
  intros Hp. revert fuel buf. induction Hp as [p Hn Hf|p t Hf Ht IH]; intros fuel buf Hfuel; (destruct fuel as [|fuel]; [lia|]).
  - cbn [split_loop]. rewrite bool_decide_false by done. by rewrite exec_escape_free.
  - rewrite !length_app in Hfuel. cbn in Hfuel. rewrite loop_escaped by done. rewrite IH by lia. by rewrite <- !(assoc_L (++)).
Qed.

Lemma part_code c : code_text (part rbrace) c → part rbrace (escapeTmplExpression c) ∧ escapeCode (escapeTmplExpression c) = c.
Proof.
  intros [[Hp Hf]|(p & q & -> & Hf & Hq)]; unfold escapeTmplExpression, escapeCode.
  - rewrite replace_free by done. split; [done|]. by apply replace_free, escaped_free.
  - rewrite replace_twice by done. destruct (free_snoc_inv _ _ Hf) as [Hf' _].
    split; [by constructor|]. by rewrite replace_escaped.
Qed.

Lemma tail_code c : code_text (tail rbrace) c → tail rbrace (escapeTmplExpression c) ∧ escapeCode (escapeTmplExpression c) = c.
Proof.
  intros [[Hp Hf]|(p & q & -> & Hf & Hq)]; unfold escapeTmplExpression, escapeCode.
  - rewrite replace_free by done. split; [done|]. by apply replace_free, escaped_free.
  - rewrite replace_twice by done. destruct (free_snoc_inv _ _ Hf) as [Hf' _].
    split; [by constructor|]. by rewrite replace_escaped.
Qed.

Lemma loop_code fuel c rest chunks :
  code_text (part rbrace) c → length (escapeTmplExpression c) + 2 + length rest < fuel →
  ∃ fuel', length rest < fuel' ∧
    split_loop fuel Close [] (escapeTmplExpression c ++ twice rbrace ++ rest) chunks = split_loop fuel' Open [] rest (chunks ++ [ExpressionCode c true]).
Proof.
  intros [Hp He]%part_code Hfuel. destruct (loop_part fuel Close [] _ rest chunks Hp Hfuel) as (fuel' & ? & Hl).
  exists fuel'. split; [done|]. cbn [app bracket chunk_of other] in Hl. by rewrite He in Hl.
Qed.

Lemma split_loop_canonical cs fuel chunks :
  canonical cs → length (joinExpression cs) < fuel → split_loop fuel Open [] (joinExpression cs) chunks = Some (chunks ++ cs).
Proof.
  intros Hc. revert fuel chunks. induction Hc as [t Ht|t c Ht Hc|t c Ht Hc|t c cs Ht Hc Hcs IH]; intros fuel chunks Hfuel;
    rewrite ?joinExpression_cons in *; cbn [join_chunk] in *; rewrite <- ?(assoc_L (++)) in *.
  - change (joinExpression []) with (@nil ascii) in *. rewrite app_nil_r in *. by apply (loop_tail fuel Open []).
  - change (joinExpression []) with (@nil ascii) in *. cbn [app] in *. rewrite app_nil_r in *. rewrite !length_app in Hfuel. cbn in Hfuel.
    destruct (loop_part fuel Open [] t (escapeTmplExpression c) chunks Ht) as (fuel' & ? & Hl); [lia|]. cbn [bracket other] in Hl. rewrite Hl.
    apply tail_code in Hc as [Hc He]. rewrite (loop_tail fuel' Close []) by done. cbn [chunk_of app]. rewrite He. by rewrite <- (assoc_L (++)).
  - rewrite !length_app in Hfuel. cbn in Hfuel.
    destruct (loop_part fuel Open [] t (escapeTmplExpression c ++ twice rbrace ++ joinExpression []) chunks Ht) as (fuel' & ? & Hl).
    { rewrite !length_app. cbn. lia. }
    cbn [bracket other] in Hl. rewrite Hl.
    destruct (loop_code fuel' c (joinExpression []) (chunks ++ [chunk_of Open ([] ++ t) true]) Hc) as (fuel'' & ? & ->).
    { rewrite !length_app in *. cbn in *. lia. }
    destruct fuel''; [lia|]. cbn. by rewrite <- (assoc_L (++)).
  - rewrite !length_app in Hfuel. cbn in Hfuel.
    destruct (loop_part fuel Open [] t (escapeTmplExpression c ++ twice rbrace ++ joinExpression cs) chunks Ht) as (fuel' & ? & Hl).
    { rewrite !length_app. cbn. lia. }
    cbn [bracket other] in Hl. rewrite Hl.
    destruct (loop_code fuel' c (joinExpression cs) (chunks ++ [chunk_of Open ([] ++ t) true]) Hc) as (fuel'' & ? & ->).
    { rewrite !length_app in *. cbn in *. lia. }
    rewrite IH by done. cbn. by rewrite <- !(assoc_L (++)).
Qed.

Lemma tail_nonempty b t : tail b t → t ≠ [].
Proof. intros [p Hp _|p q _ _]; [done|by destruct p]. Qed.

Lemma canonical_nonempty cs : canonical cs → joinExpression cs ≠ [].
Proof.
  intros [t Ht|t c _ _|t c _ _|t c cs' _ _ _]; rewrite joinExpression_cons; cbn [join_chunk]; [|by destruct t..].
  apply tail_nonempty in Ht. by destruct t.
Qed.

(** Joining chunks that alternate between text and code, whose texts hold opening brackets only escaped and whose codes hold at most one closing bracket that is not escaped, and splitting the result gives the same chunks. *)
Theorem split_joinExpression cs : canonical cs → splitExpression (joinExpression cs) = Some cs.
Proof.
  intros Hc. unfold splitExpression. rewrite bool_decide_false by (by apply canonical_nonempty).
  rewrite split_loop_canonical; [done|done|]. unfold split_fuel. lia.
Qed.

(** * The shape of the chunks *)

(** A buffer: every bracket in it is escaped, and it ends with one. *)
Inductive escapes (b : ascii) : chars → Prop :=
| escapes_nil : escapes b []
| escapes_more buf p : escapes b buf → free (twice b) p → escapes b (buf ++ p ++ escaped b).

Lemma escapes_part b buf q : escapes b buf → part b q → part b (buf ++ q).
Proof.
  intros Hb. revert q; induction Hb as [|buf p _ IH Hp]; intros q Hq; [done|].
  rewrite <- !(assoc_L (++)). apply IH. by constructor.
Qed.
Lemma escapes_tail b buf q : escapes b buf → tail b q → tail b (buf ++ q).
Proof.
  intros Hb. revert q; induction Hb as [|buf p _ IH Hp]; intros q Hq; [done|].
  rewrite <- !(assoc_L (++)). apply IH. by constructor.
Qed.

(** Texts and codes alternate; every bracket a chunk could have ended at is escaped,
    and only the last code may be without its closing bracket. *)
Inductive well_formed : SearchingFor → list ExpressionChunk → Prop :=
| wf_nil m : well_formed m []
| wf_text t cs : part lbrace t → well_formed Close cs → well_formed Open (ExpressionText t :: cs)
| wf_last_text t : tail lbrace t → well_formed Open [ExpressionText t]
| wf_code c cs : part rbrace c → well_formed Open cs → well_formed Close (ExpressionCode (escapeCode c) true :: cs)
| wf_last_code c : tail rbrace c → well_formed Close [ExpressionCode (escapeCode c) false].

Lemma split_loop_well_formed fuel m buf expr chunks res :
  escapes (bracket m) buf → split_loop fuel m buf expr chunks = Some res →
  ∃ cs, res = chunks ++ cs ∧ well_formed m cs.
Proof.
  revert m buf expr chunks; induction fuel as [|fuel IH]; intros m buf expr chunks Hbuf; [done|]. cbn [split_loop].
  case_bool_decide as He; [intros [= <-]; exists []; rewrite app_nil_r; by split; [|constructor]|].
  destruct (exec_escape_spec (bracket m) expr (bracket_ne m)) as [Hf|p q -> Hf|p q -> Hf Hl].
  - intros [= <-]. eexists; split; [done|].
    assert (tail (bracket m) (buf ++ expr)) by (apply escapes_tail; [done|by constructor]).
    destruct m; by constructor.
  - destruct (take_app_3 p (escaped (bracket m)) q (length p + 3) eq_refl) as [-> ->].
    apply IH. by constructor.
  - destruct (take_app_3 p (twice (bracket m)) q (length p + 2) eq_refl) as [_ ->]. rewrite take_app_length.
    intros (cs & -> & Hcs)%IH; [|by constructor].
    assert (part (bracket m) (buf ++ p)) by (apply escapes_part; [done|by constructor]).
    exists (chunk_of m (buf ++ p) true :: cs). split; [by rewrite <- (assoc_L (++))|]. destruct m; by constructor.
Qed.

(** C39: The chunks of every expression alternate between text and code, beginning with a text; a bracket at which a chunk could have ended is escaped in it, and only the last code may lack its closing bracket. *)
Theorem splitExpression_well_formed s chunks :
  splitExpression s = Some chunks → s ≠ [] → well_formed Open chunks.
Proof.
  unfold splitExpression. case_bool_decide; [done|]. intros Hs _.
  by apply split_loop_well_formed in Hs as (cs & -> & Hcs); [|constructor].
Qed.

(** * The two splitters *)

Lemma normalize_free l : free (twice backslash) l → Splitter.normalizeBackslashes l = l.
Proof.
  induction l as [|x [|y l] IH]; [done|done|]. intros [Hs Hf]%free_not_starts.
  cbn in Hs. rewrite andb_true_r in Hs.
  assert (bool_decide (x = backslash) && bool_decide (y = backslash) = false) as Hn.
  { by rewrite (bool_decide_ext (x = backslash) (backslash = x)), (bool_decide_ext (y = backslash) (backslash = y)). }
  change (Splitter.normalizeBackslashes (x :: y :: l)) with
    (if bool_decide (x = backslash) && bool_decide (y = backslash)
     then backslash :: Splitter.normalizeBackslashes l else x :: Splitter.normalizeBackslashes (y :: l)).
  rewrite Hn. f_equal. exact (IH Hf).
Qed.

Lemma backslashCount_snoc p : free (twice backslash) (p ++ [backslash]) → Splitter.backslashCount (p ++ [backslash]) = 1.
Proof.
  intros [_ Hl]%free_snoc_inv. unfold Splitter.backslashCount. rewrite reverse_snoc. cbn [Splitter.leading_backslashes].
  rewrite bool_decide_true by done. f_equal. destruct p as [|x p _] using rev_ind; [done|].
  rewrite reverse_snoc. cbn. rewrite last_snoc in Hl. by rewrite bool_decide_false by congruence.
Qed.

Lemma backslashCount_none p : last p ≠ Some backslash → Splitter.backslashCount p = 0.
Proof.
  intros Hl. unfold Splitter.backslashCount. destruct p as [|x p _] using rev_ind; [done|].
  rewrite reverse_snoc. cbn. rewrite last_snoc in Hl. by rewrite bool_decide_false by congruence.
Qed.

Lemma split_loops_agree fuel m buf expr chunks :
  free (twice backslash) (buf ++ expr) →
  split_loop fuel m buf expr chunks = Splitter.splitter_loop fuel m buf expr chunks.
Proof.
  revert m buf expr chunks; induction fuel as [|fuel IH]; intros m buf expr chunks Hb; [done|].
  cbn [split_loop Splitter.splitter_loop]. case_bool_decide; [done|].
  destruct (exec_escape_spec (bracket m) expr (bracket_ne m)) as [Hf|p q -> Hf|p q -> Hf Hl].
  - rewrite exec_free by done. by destruct m.
  - change (p ++ escaped (bracket m) ++ q) with (p ++ [backslash] ++ twice (bracket m) ++ q) in *.
    rewrite (assoc_L (++) p) in *.
    assert (free (twice (bracket m)) ((p ++ [backslash]) ++ [bracket m])) as Hf'.
    { apply free_snoc; [|rewrite last_snoc; intros [= ?]; by eapply bracket_ne].
      destruct (first_brace (bracket m) (p ++ [backslash])) as [?|(p' & q' & He & _)]; [done|exfalso].
      destruct q' as [|x q' _] using rev_ind.
      - rewrite app_nil_r in He. unfold twice in He. change [bracket m; bracket m] with ([bracket m] ++ [bracket m]) in He.
        rewrite (assoc_L (++)) in He. apply app_inj_tail in He as [_ He]. by eapply bracket_ne.
      - rewrite !(assoc_L (++)) in He. apply app_inj_tail in He as [-> _]. rewrite <- (assoc_L (++)) in Hf.
        apply free_suffix in Hf. cbn in Hf. by rewrite bool_decide_true in Hf. }
    rewrite exec_at by done. rewrite take_app_length.
    rewrite backslashCount_snoc.
    + cbn [Nat.odd Nat.even negb].
      destruct (take_app_3 (p ++ [backslash]) (twice (bracket m)) q (length (p ++ [backslash]) + 2) eq_refl) as [Ht Hd].
      replace (length p + 3) with (length (p ++ [backslash]) + 2) by (rewrite length_app; cbn; lia).
      rewrite Ht, Hd. apply IH. by rewrite <- !(assoc_L (++)) in *.
    + by apply free_suffix, free_prefix in Hb.
  - rewrite exec_at by done. rewrite take_app_length, backslashCount_none by done.
    destruct (take_app_3 p (twice (bracket m)) q (length p + 2) eq_refl) as [_ ->]. cbn [Nat.odd Nat.even negb].
    assert (chunk_of m (buf ++ p) true = Splitter.closed_chunk m (buf ++ p)) as ->.
    { destruct m; [|done]. cbn. rewrite normalize_free; [done|]. rewrite (assoc_L (++)) in Hb. by eapply free_prefix. }
    apply IH. cbn. by apply free_suffix, free_suffix, free_suffix in Hb.
Qed.

(** The splitter of the workflow package gives the same chunks as the one of tournament for every expression without two backslashes in a row. *)
Theorem splitters_agree s : free (twice backslash) s → splitExpression s = Splitter.splitter_splitExpression s.
Proof. intros Hs. unfold splitExpression, Splitter.splitter_splitExpression. case_bool_decide; [done|]. by apply split_loops_agree. Qed.

(** An expression that is a text ending with an escaped opening bracket is split into no chunk at all by both splitters, although both promise an initial text chunk. *)
Theorem trailing_escape_dropped t :
  free (twice lbrace) t → free (twice backslash) (t ++ escaped lbrace) →
  splitExpression (t ++ escaped lbrace) = Some [] ∧ Splitter.splitter_splitExpression (t ++ escaped lbrace) = Some [].
Proof.
  intros Hf Hb.
  assert (split_loop (split_fuel (t ++ escaped lbrace)) Open [] (t ++ escaped lbrace) [] = Some []) as Hl.
  { unfold split_fuel. rewrite <- (app_nil_r (escaped lbrace)) at 2. rewrite (loop_escaped _ Open) by done.
    rewrite length_app. cbn [length escaped]. rewrite Nat.add_comm. done. }
  unfold splitExpression, Splitter.splitter_splitExpression. rewrite bool_decide_false by (by destruct t).
  split; [exact Hl|]. by rewrite <- split_loops_agree.
Qed.

(** * Examples *)

Definition demo : chars := js "a {{ f({x:1\}}) }} \{{ b {{ c".
Definition demo_chunks : list ExpressionChunk :=
  [ExpressionText (js "a "); ExpressionCode (js " f({x:1}}) ") true; ExpressionText (js " \{{ b "); ExpressionCode (js " c") false].

Lemma join_splitExpression_witness : splitExpression demo = Some demo_chunks ∧ joinExpression demo_chunks = demo.
Proof.
  split; [reflexivity|]. destruct (join_splitExpression demo) as (cs & Hcs & Hj).
  assert (Some cs = Some demo_chunks) as He by (rewrite <- Hcs; reflexivity).
  replace demo_chunks with cs by congruence. apply Hj.
  - apply (bool_decide_unpack _). reflexivity.
  - apply (bool_decide_unpack _). reflexivity.
  - reflexivity.
Defined.

Lemma demo_canonical : canonical demo_chunks.
Proof.
  apply canonical_more.
  - apply part_end; [done|by vm_compute].
  - right. exists (js " f({x:1"), (js ") "). split; [done|split; [done|]]. apply part_end; [done|by vm_compute].
  - apply canonical_open.
    + apply (part_escaped _ (js " ") (js " b ")); [done|]. apply part_end; [done|by vm_compute].
    + left. split; [|done]. by apply tail_end.
Qed.

Lemma split_joinExpression_witness : splitExpression (joinExpression demo_chunks) = Some demo_chunks.
Proof. exact (split_joinExpression demo_chunks demo_canonical). Defined.

Lemma splitters_agree_witness : splitExpression demo = Splitter.splitter_splitExpression demo.
Proof. apply (splitters_agree demo). reflexivity. Defined.

Lemma trailing_escape_dropped_witness : splitExpression (js "use \{{") = Some [] ∧ Splitter.splitter_splitExpression (js "use \{{") = Some [].
Proof. apply (trailing_escape_dropped (js "use ")); reflexivity. Defined.

Lemma splitExpression_well_formed_witness : well_formed Open demo_chunks.
Proof. apply (splitExpression_well_formed demo demo_chunks); [reflexivity|intros Hn; discriminate Hn]. Defined.

(** With two backslashes the splitters differ. *)
Lemma splitters_differ :
  splitExpression (js "C:\\{{x}}") = Some [ExpressionText (js "C:\\{{x}}")] ∧
  Splitter.splitter_splitExpression (js "C:\\{{x}}") = Some [ExpressionText (js "C:\"); ExpressionCode (js "x") true].
Proof. split; reflexivity. Qed.

(** The second closing bracket of a code is not escaped, and ends the chunk when the
    joined expression is split again. *)
Lemma second_bracket_not_escaped :
  splitExpression (joinExpression [ExpressionText []; ExpressionCode (js "[{a:{}},{b:{}}]") true]) =
    Some [ExpressionText []; ExpressionCode (js "[{a:{}},{b:{") true; ExpressionText (js "]}}")].
Proof. reflexivity. Qed.
