(* ===== verification/ConnectionsDiff.v ===== *)
(** ConnectionsDiff: workflow/src/connections-diff.ts.

    The connections two versions of a workflow do not share.  Two connections are the
    same when they print to the same JSON text; they are modelled by records, so the
    order of the properties of a connection is not. *)

From stdpp Require Import prelude list strings.
From Stdlib Require Import Lia.
From S2P Require Import Prelude Types.
Local Open Scope nat_scope.

(** * Data *)

(** An element of [INodeConnectionsDiff[input]]: [{ sourceIndex, value: { index, connection } }]. *)
Record ConnectionEntry := mkEntry {
  e_sourceIndex : nat;
  e_index : nat;
  e_connection : IConnection;
}.
#[export] Instance ConnectionEntry_eq_dec : EqDecision ConnectionEntry.
Proof. solve_decision. Defined.

Abbreviation INodeConnectionsDiff := (jmap string (list ConnectionEntry)) (only parsing).
Abbreviation NodesDiff := (jmap string (jmap string (list ConnectionEntry))) (only parsing).

Record ConnectionsDiff := mkDiff {
  added : NodesDiff;
  removed : NodesDiff;
}.

(** * compareConnections *)

(** [connections[node] ?? {}] and [node[input] ?? []] *)
Definition node_connections (c : IConnections) (nodeName : string) : INodeConnections := default [] (jm_get c nodeName).
Definition input_connections (nc : INodeConnections) (inputName : string) : NodeInputConnections := default [] (jm_get nc inputName).
Definition index_connections (inputs : NodeInputConnections) (sourceIndex : nat) : list IConnection :=
  bucket (default None (inputs !! sourceIndex)).

(** [new Map(connections.map((conn, idx) => [JSON.stringify(conn), { index: idx, connection: conn }]))] *)
Definition index_map (l : list IConnection) : jmap IConnection nat := foldl (λ m '(idx, conn), jm_set m conn idx) [] (entries l).

(** [if (!d[node]) d[node] = {}; if (!d[node][input]) d[node][input] = []; d[node][input].push(e)] *)
Definition push_entry (d : NodesDiff) (nodeName inputName : string) (e : ConnectionEntry) : NodesDiff :=
  let nd := default [] (jm_get d nodeName) in
  jm_set d nodeName (jm_set nd inputName (default [] (jm_get nd inputName) ++ [e])).

(** The entries of [these] that are not in [others]. *)
Definition push_missing (nodeName inputName : string) (sourceIndex : nat) (these others : jmap IConnection nat) (d : NodesDiff) : NodesDiff :=
  foldl (λ d '(conn, idx), if jm_has others conn then d else push_entry d nodeName inputName (mkEntry sourceIndex idx conn)) d these.

Definition compare_index (nodeName inputName : string) (prevInput nextInput : NodeInputConnections) (d : ConnectionsDiff) (sourceIndex : nat) : ConnectionsDiff :=
  let prevMap := index_map (index_connections prevInput sourceIndex) in
  let nextMap := index_map (index_connections nextInput sourceIndex) in
  mkDiff (push_missing nodeName inputName sourceIndex nextMap prevMap (added d))
         (push_missing nodeName inputName sourceIndex prevMap nextMap (removed d)).

Definition compare_input (nodeName : string) (prevNode nextNode : INodeConnections) (d : ConnectionsDiff) (inputName : string) : ConnectionsDiff :=
  let prevInput := input_connections prevNode inputName in
  let nextInput := input_connections nextNode inputName in
  foldl (compare_index nodeName inputName prevInput nextInput) d (seq 0 (max (length prevInput) (length nextInput))).

Definition compare_node (prev next : IConnections) (d : ConnectionsDiff) (nodeName : string) : ConnectionsDiff :=
  let prevNode := node_connections prev nodeName in
  let nextNode := node_connections next nodeName in
  foldl (compare_input nodeName prevNode nextNode) d (js_of_list (jm_keys prevNode ++ jm_keys nextNode)).

Definition compareConnections (prev next : IConnections) : ConnectionsDiff :=
  foldl (compare_node prev next) (mkDiff [] []) (js_of_list (jm_keys prev ++ jm_keys next)).

(** * What a diff records *)

(** The connections at an output of a node. *)
Definition conns_at (c : IConnections) (nodeName inputName : string) (sourceIndex : nat) : list IConnection :=
  index_connections (input_connections (node_connections c nodeName) inputName) sourceIndex.

Definition entries_at (d : NodesDiff) (nodeName inputName : string) : list ConnectionEntry :=
  default [] (nd ← jm_get d nodeName; jm_get nd inputName).

(** [d] records [e] for the node and input. *)
Definition recorded (d : NodesDiff) (k : string * string * ConnectionEntry) : Prop := k.2 ∈ entries_at d k.1.1 k.1.2.

(** No empty object or array is stored. *)
Definition nonempty (d : NodesDiff) : Prop := ∀ n nd, (n, nd) ∈ d → ∃ i e, e ∈ default [] (jm_get nd i).

Lemma entries_push d n i e n' i' :
  entries_at (push_entry d n i e) n' i' = if decide (n = n' ∧ i = i') then entries_at d n i ++ [e] else entries_at d n' i'.
Proof.
  unfold entries_at, push_entry. destruct (decide (n = n')) as [<-|Hn].
  - rewrite jm_get_set. cbn. destruct (decide (i = i')) as [<-|Hi].
    + rewrite jm_get_set, decide_True by done. cbn. f_equal. destruct (jm_get d n); done.
    + rewrite jm_get_set_ne, decide_False by naive_solver. destruct (jm_get d n); done.
  - rewrite jm_get_set_ne, decide_False by naive_solver. done.
Qed.

Lemma recorded_push d n i e k : recorded (push_entry d n i e) k ↔ recorded d k ∨ k = (n, i, e).
Proof.
  destruct k as [[n' i'] e']. unfold recorded. cbn [fst snd]. rewrite entries_push.
  case_decide as Hk; [destruct Hk as [<- <-]; rewrite elem_of_app, list_elem_of_singleton|]; naive_solver.
Qed.

Lemma nonempty_push d n i e : nonempty d → nonempty (push_entry d n i e).
Proof.
  intros Hd n' nd [[= -> ->]|Hin]%jm_elem_set; [|by eapply Hd].
  exists i, e. rewrite jm_get_set. cbn. rewrite elem_of_app. right. by left.
Qed.

(** A loop records what its iterations record. *)
Lemma foldl_records {A S} (f : S → A → S) (rec : S → string * string * ConnectionEntry → Prop)
    (R : A → string * string * ConnectionEntry → Prop) l s k :
  (∀ s x, x ∈ l → rec (f s x) k ↔ rec s k ∨ R x k) → rec (foldl f s l) k ↔ rec s k ∨ ∃ x, x ∈ l ∧ R x k.
Proof.
  revert s; induction l as [|x l IH]; intros s Hf; cbn [foldl].
  - split; [by left|]. intros [?|(x & Hx & _)]; [done|by apply elem_of_nil in Hx].
  - rewrite IH by (intros; apply Hf; by right). rewrite Hf by left.
    split; [intros [[?|?]|(y & ? & ?)]|intros [?|(y & [->|?]%elem_of_cons & ?)]]; eauto 6 using list_elem_of_here, list_elem_of_further.
Qed.

Lemma push_missing_records n i ix these others d k :
  recorded (push_missing n i ix these others d) k ↔
    recorded d k ∨ ∃ p, p ∈ these ∧ jm_has others p.1 = false ∧ k = (n, i, mkEntry ix p.2 p.1).
Proof.
  unfold push_missing.
  apply (foldl_records _ recorded (λ p k, jm_has others p.1 = false ∧ k = (n, i, mkEntry ix p.2 p.1))).
  intros d' [conn idx] _. cbn.
  destruct (jm_has others conn); [naive_solver|]. rewrite recorded_push. naive_solver.
Qed.

Lemma push_missing_nonempty n i ix these others d : nonempty d → nonempty (push_missing n i ix these others d).
Proof.
  intros Hd. unfold push_missing. apply (foldl_inv _ nonempty); [|done]. intros d' [conn idx] _ Hd'.
  destruct (jm_has others conn); [done|by apply nonempty_push].
Qed.

(** The index a connection is recorded with is that of its last occurrence. *)
Definition last_index (l : list IConnection) (conn : IConnection) (idx : nat) : Prop :=
  l !! idx = Some conn ∧ ∀ j, idx < j → l !! j ≠ Some conn.

Lemma index_map_snoc l conn : index_map (l ++ [conn]) = jm_set (index_map l) conn (length l).
Proof. unfold index_map, entries. rewrite imap_app, foldl_app. cbn. by rewrite Nat.add_0_r. Qed.

Lemma index_map_get l conn idx : jm_get (index_map l) conn = Some idx ↔ last_index l conn idx.
Proof.
  unfold last_index. revert idx; induction l as [|x l IH] using rev_ind; intros idx.
  - split; [done|by intros [? _]].
  - rewrite index_map_snoc. destruct (decide (x = conn)) as [->|Hne].
    + rewrite jm_get_set. split.
      * intros [= <-]. split; [by rewrite lookup_app_r, Nat.sub_diag by lia|].
        intros j Hj Hl. apply lookup_lt_Some in Hl. rewrite length_app in Hl. cbn in Hl. lia.
      * intros [Hl Hj]. f_equal. destruct (decide (length l < idx)) as [Hlt|Hge].
        -- apply lookup_lt_Some in Hl. rewrite length_app in Hl. cbn in Hl. lia.
        -- destruct (decide (idx = length l)) as [->|]; [done|]. exfalso. apply (Hj (length l)); [lia|].
           by rewrite lookup_app_r, Nat.sub_diag by lia.
    + rewrite jm_get_set_ne, IH by done. split; intros [Hl Hj]; split.
      * by apply lookup_app_l_Some.
      * intros j Hlt [Hl'|[_ Hl']]%lookup_app_Some; [by eapply Hj|].
        apply list_lookup_singleton_Some in Hl' as [_ ?]. done.
      * apply lookup_app_Some in Hl as [?|[_ Hl]]; [done|]. by apply list_lookup_singleton_Some in Hl as [_ ?].
      * intros j Hlt Hl'. apply (Hj j Hlt). by apply lookup_app_l_Some.
Qed.

Lemma index_map_wf l : jm_wf (index_map l).
Proof.
  unfold index_map. apply (foldl_inv _ jm_wf); [|constructor]. intros m [idx conn] _ Hm. by apply jm_wf_set.
Qed.

Lemma index_map_elem l conn idx : (conn, idx) ∈ index_map l ↔ last_index l conn idx.
Proof.
  rewrite <- index_map_get. split; [apply jm_elem_get, index_map_wf|apply jm_get_Some_elem].
Qed.

Lemma index_map_has l conn : jm_has (index_map l) conn = false ↔ conn ∉ l.
Proof.
  assert (is_Some (jm_get (index_map l) conn) ↔ conn ∈ l) as H.
  { induction l as [|x l IH] using rev_ind; [split; [by intros [? ?]|by intros ?%elem_of_nil]|].
    rewrite index_map_snoc, elem_of_app, list_elem_of_singleton. destruct (decide (x = conn)) as [->|Hne].
    - rewrite jm_get_set. naive_solver.
    - rewrite jm_get_set_ne, IH by done. naive_solver. }
  unfold jm_has. rewrite <- H. destruct (jm_get (index_map l) conn); split; try done. intros Hn. by destruct Hn.
Qed.

(** * What compareConnections finds *)

(** [k] is a connection of [these] and not one of [others]. *)
Definition only_in (these others : IConnections) (k : string * string * ConnectionEntry) : Prop :=
  let '(n, i, e) := k in
  last_index (conns_at these n i (e_sourceIndex e)) (e_connection e) (e_index e) ∧
  e_connection e ∉ conns_at others n i (e_sourceIndex e).

(** Both sides of a diff at once: [true] for what is added. *)
Definition side (b : bool) (d : ConnectionsDiff) : NodesDiff := if b then added d else removed d.
Definition pick_side {A} (b : bool) (prev next : A) : A := if b then next else prev.

Lemma compare_index_records b n i pI nI d ix k :
  recorded (side b (compare_index n i pI nI d ix)) k ↔
    recorded (side b d) k ∨ (k.1 = (n, i) ∧ e_sourceIndex k.2 = ix ∧
      last_index (index_connections (pick_side b pI nI) ix) (e_connection k.2) (e_index k.2) ∧
      e_connection k.2 ∉ index_connections (pick_side (negb b) pI nI) ix).
Proof.
  assert (∀ these others (d : NodesDiff), recorded (push_missing n i ix (index_map these) (index_map others) d) k ↔
    recorded d k ∨ (k.1 = (n, i) ∧ e_sourceIndex k.2 = ix ∧ last_index these (e_connection k.2) (e_index k.2) ∧ e_connection k.2 ∉ others)) as H.
  { intros these others d'. rewrite push_missing_records. f_equiv. destruct k as [[n' i'] [ix' idx' conn']]. cbn. split.
    - intros ([conn idx] & Hin & Hno & He). cbn in *. simplify_eq.
      by apply index_map_elem in Hin; apply index_map_has in Hno.
    - intros ([= -> ->] & -> & Hl & Hno). exists (conn', idx'). rewrite index_map_elem, index_map_has. done. }
  destruct b; apply H.
Qed.

Lemma compare_input_records b n pN nN d i k :
  recorded (side b (compare_input n pN nN d i)) k ↔
    recorded (side b d) k ∨ (k.1 = (n, i) ∧
      last_index (index_connections (input_connections (pick_side b pN nN) i) (e_sourceIndex k.2)) (e_connection k.2) (e_index k.2) ∧
      e_connection k.2 ∉ index_connections (input_connections (pick_side (negb b) pN nN) i) (e_sourceIndex k.2)).
Proof.
  unfold compare_input.
  rewrite (foldl_records _ (λ d, recorded (side b d)) (λ ix k, k.1 = (n, i) ∧ e_sourceIndex k.2 = ix ∧
      last_index (index_connections (pick_side b (input_connections pN i) (input_connections nN i)) ix) (e_connection k.2) (e_index k.2) ∧
      e_connection k.2 ∉ index_connections (pick_side (negb b) (input_connections pN i) (input_connections nN i)) ix)
    _ d k (λ d' ix _, compare_index_records b n i _ _ d' ix k)).
  f_equiv. split.
  - intros (ix & _ & ? & <- & ? & ?). by destruct b.
  - intros (Hk & Hl & Hno). exists (e_sourceIndex k.2). split; [|by destruct b].
    destruct Hl as [Hl _]. apply elem_of_seq. split; [lia|].
    assert (e_sourceIndex k.2 < length (input_connections (pick_side b pN nN) i)); [|destruct b; cbn [pick_side] in *; lia].
    unfold index_connections in Hl. apply not_ge. intros Hge. rewrite (lookup_ge_None_2 (input_connections _ _)) in Hl by lia. done.
Qed.

Lemma compare_node_records b prev next d n k :
  recorded (side b (compare_node prev next d n)) k ↔
    recorded (side b d) k ∨ (k.1.1 = n ∧ only_in (pick_side b prev next) (pick_side (negb b) prev next) k).
Proof.
  unfold compare_node.
  rewrite (foldl_records _ (λ d, recorded (side b d)) (λ i k, k.1 = (n, i) ∧
      last_index (index_connections (input_connections (pick_side b (node_connections prev n) (node_connections next n)) i) (e_sourceIndex k.2)) (e_connection k.2) (e_index k.2) ∧
      e_connection k.2 ∉ index_connections (input_connections (pick_side (negb b) (node_connections prev n) (node_connections next n)) i) (e_sourceIndex k.2))
    _ d k (λ d' i _, compare_input_records b n _ _ d' i k)).
  f_equiv. destruct k as [[n' i'] e]. cbn [fst snd]. unfold only_in, conns_at. split.
  - intros (i & _ & [= -> ->] & Hl & Hno). by destruct b.
  - intros (-> & Hl & Hno). exists i'. split; [|by destruct b].
    destruct Hl as [Hl _]. apply js_of_list_elem, elem_of_app.
    assert (i' ∈ jm_keys (node_connections (pick_side b prev next) n)); [|destruct b; tauto].
    apply dec_stable. intros Hn. apply jm_get_None in Hn. unfold input_connections in Hl. by rewrite Hn in Hl.
Qed.

Lemma compare_records b prev next k :
  recorded (side b (compareConnections prev next)) k ↔ only_in (pick_side b prev next) (pick_side (negb b) prev next) k.
Proof.
  unfold compareConnections.
  rewrite (foldl_records _ (λ d, recorded (side b d)) (λ n k, k.1.1 = n ∧ only_in (pick_side b prev next) (pick_side (negb b) prev next) k)
    _ _ k (λ d' n _, compare_node_records b prev next d' n k)).
  split.
  - intros [Hn|(n & _ & _ & ?)]; [|done]. destruct b; by apply elem_of_nil in Hn.
  - intros Ho. right. exists k.1.1. split; [|done]. destruct k as [[n i] e], Ho as [[Hl _] _]. cbn [fst].
    apply js_of_list_elem, elem_of_app.
    assert (n ∈ jm_keys (pick_side b prev next)); [|destruct b; tauto].
    apply dec_stable. intros Hn. apply jm_get_None in Hn. unfold conns_at, node_connections in Hl. by rewrite Hn in Hl.
Qed.

Lemma compare_nonempty b prev next : nonempty (side b (compareConnections prev next)).
Proof.
  unfold compareConnections. apply (foldl_inv _ (λ d, nonempty (side b d))); [|by destruct b; intros ?? ?%elem_of_nil].
  intros d n _ Hd. unfold compare_node. apply (foldl_inv _ (λ d, nonempty (side b d))); [|done].
  intros d' i _ Hd'. unfold compare_input. apply (foldl_inv _ (λ d, nonempty (side b d))); [|done].
  intros d'' ix _ Hd''. destruct b; by apply push_missing_nonempty.
Qed.

Lemma nonempty_nil (d : NodesDiff) : nonempty d → d = [] ↔ ∀ k, ¬ recorded d k.
Proof.
  intros Hd. split; [by intros -> k ?%elem_of_nil|]. intros Hk. destruct d as [|[n nd] d]; [done|exfalso].
  destruct (Hd n nd) as (i & e & He); [by left|]. apply (Hk (n, i, e)). unfold recorded, entries_at. cbn.
  by rewrite decide_True.
Qed.

(** Nothing is removed when every connection is still there. *)
Lemma removed_nil prev next :
  removed (compareConnections prev next) = [] ↔ ∀ n i ix, conns_at prev n i ix ⊆ conns_at next n i ix.
Proof.
  change (removed _) with (side false (compareConnections prev next)).
  rewrite nonempty_nil by apply compare_nonempty. setoid_rewrite compare_records. cbn. split.
  - intros H n i ix conn Hin. apply dec_stable. intros Hno.
    assert (∃ idx, last_index (conns_at prev n i ix) conn idx) as [idx Hl].
    { destruct (jm_get (index_map (conns_at prev n i ix)) conn) as [idx|] eqn:Hg; [exists idx; by apply index_map_get|].
      assert (jm_has (index_map (conns_at prev n i ix)) conn = false) as Hf by (unfold jm_has; by rewrite Hg).
      by apply index_map_has in Hf. }
    by apply (H (n, i, mkEntry ix idx conn)).
  - intros H [[n i] e] [[Hl _] Hno]. apply Hno, H. by apply list_elem_of_lookup_2 in Hl.
Qed.

(** compareConnections records as added exactly the connections, per node, input name and source index, that the next version has and the previous one has not, each once and with the index of its last occurrence, as removed the converse, and its result is empty exactly when both versions have the same connections everywhere. *)
Theorem compareConnections_exact prev next :
  let d := compareConnections prev next in
  (∀ k, recorded (added d) k ↔ only_in next prev k) ∧
  (∀ k, recorded (removed d) k ↔ only_in prev next k) ∧
  (d = mkDiff [] [] ↔ ∀ n i ix conn, conn ∈ conns_at prev n i ix ↔ conn ∈ conns_at next n i ix).
Proof.
  split; [|split]; [exact (compare_records true prev next)|exact (compare_records false prev next)|].
  assert (∀ these others, (∀ k, ¬ only_in these others k) ↔ ∀ n i ix, conns_at these n i ix ⊆ conns_at others n i ix) as H.
  { intros these others. rewrite <- removed_nil. change (removed _) with (side false (compareConnections these others)).
    rewrite nonempty_nil by apply compare_nonempty. by setoid_rewrite compare_records. }
  assert (compareConnections prev next = mkDiff [] [] ↔
    side true (compareConnections prev next) = [] ∧ side false (compareConnections prev next) = []) as ->.
  { destruct (compareConnections prev next). cbn. split; [by intros [= -> ->]|by intros [-> ->]]. }
  rewrite !nonempty_nil by apply compare_nonempty. setoid_rewrite compare_records. cbn [pick_side negb].
  rewrite !H. split; [intros [H1 H2] n i ix conn; split; [apply H2|apply H1]|]. intros He. split; intros n i ix conn; apply He.
Qed.
