(* ===== verification/WorkflowDiff.v ===== *)
(** WorkflowDiff: workflow/src/workflow-diff.ts and the compaction of the history of a
    workflow, @n8n/db/src/repositories/workflow-history.repository.ts and
    cli/src/services/pruning/workflow-history-compaction.service.ts.

    The difference of two versions of a workflow, the rules that say when the older
    one may be dropped, and the loop that applies them.  [isEqual] and [pick] of lodash
    are parameters; the versions in the time range are an argument, since they come
    from the database. *)

From stdpp Require Import prelude list strings pretty.
From Stdlib Require Import ZArith Lia.
From S2P Require Import Prelude Types ConnectionsDiff.
Local Open Scope nat_scope.

(** * Data *)

Abbreviation object := (jmap string json) (only parsing).

(** A node: [dn_props] are its properties other than [id] and [parameters]. *)
Record DiffableNode := mkDiffable {
  dn_id : string;
  dn_parameters : json;
  dn_props : object;
}.

(** [{ parameters, ...node }], and the node with other parameters. *)
Definition node_object (n : DiffableNode) (parameters : json) : object :=
  ("id", JStr (dn_id n)) :: ("parameters", parameters) :: dn_props n.

(** A version; [wh_ref] names the object, for [from === to]. *)
Record WorkflowHistory := mkHistory {
  wh_ref : nat;
  wh_versionId : string;
  wh_nodes : list DiffableNode;
  wh_connections : IConnections;
  wh_createdAt : Z;
  wh_authors : string;
  wh_name : option string;
  wh_description : option string;
}.

Inductive NodeDiffStatus := Eq | Modified | Added | Deleted.
#[export] Instance NodeDiffStatus_eq_dec : EqDecision NodeDiffStatus.
Proof. solve_decision. Defined.

Record NodeDiff := mkNodeDiff {
  nd_status : NodeDiffStatus;
  nd_node : DiffableNode;
}.
Abbreviation WorkflowDiff := (jmap string NodeDiff) (only parsing).

Record WorkflowChangeSet := mkChangeSet {
  cs_nodes : WorkflowDiff;
  cs_connections : ConnectionsDiff;
}.

(** [Partial<{ workflowSizeScore: number }>] *)
Record DiffMetaData := mkMetaData { workflowSizeScore : option Z }.

(** * Strings and parameters *)

(** The loop of [stringContainsParts]; [i] counts the characters read. *)
Fixpoint contains_loop (diffSize i marker : nat) (rest s : list Ascii.ascii) : option nat :=
  match s with
  | [] => Some marker
  | c :: s =>
      let '(marker, rest) := match rest with
        | c' :: rest' => if bool_decide (c' = c) then (S marker, rest') else (marker, rest)
        | [] => (marker, rest) end in
      if bool_decide (diffSize < i - marker) then None else contains_loop diffSize (S i) marker rest s
  end.

Definition stringContainsParts (s substr : string) : bool :=
  let s := String.list_ascii_of_string s in
  let substr := String.list_ascii_of_string substr in
  if bool_decide (length s < length substr) then false else
  match contains_loop (length s - length substr) 0 0 substr s with
  | Some marker => bool_decide (length substr ≤ marker)
  | None => false
  end.

(** The own properties of an object or array; [None] for a primitive. *)
Definition fields (v : json) : option object :=
  match v with
  | JObj o => Some o
  | JArr l => Some (imap (λ i x, (pretty i, x)) l)
  | _ => None
  end.

Fixpoint parametersAreSuperset (prev next : json) {struct prev} : bool :=
  match prev with
  | JStr p => match next with JStr n => stringContainsParts n p | _ => false end
  | JNull => match next with JNull => true | _ => false end
  | JBool b => match next with JBool b' => bool_decide (b = b') | _ => false end
  | JNum z => match next with JNum z' => bool_decide (z = z') | _ => false end
  | JArr p =>
      match next with
      | JArr n =>
          bool_decide (length p = length n) &&
          (fix every p n := match p, n with
             | [], _ => true
             | v :: p, w :: n => parametersAreSuperset v w && every p n
             | _ :: _, [] => false end) p n
      | _ => false
      end
  | JObj p =>
      match fields next with
      | Some n =>
          bool_decide (length p = length n) && forallb (jm_has n) (jm_keys p) &&
          (fix every p := match p with
             | [] => true
             | (k, v) :: p => match jm_get n k with Some w => parametersAreSuperset v w | None => false end && every p end) p
      | None => false
      end
  end.

(** * Nodes *)

Definition propsToCompare : list string := ["name"; "type"; "typeVersion"; "webhookId"; "credentials"; "parameters"].

Section Diff.
Context (isEqual : json → json → bool) (pick : option object → list string → object).

Definition compareNodes (base target : option object) : bool :=
  isEqual (JObj (pick base propsToCompare)) (JObj (pick target propsToCompare)).

Definition same_node (base target : option DiffableNode) : bool :=
  compareNodes ((λ n, node_object n (dn_parameters n)) <$> base) ((λ n, node_object n (dn_parameters n)) <$> target).

(** [nodes.reduce((acc, node) => acc.set(node.id, node), new Map())] *)
Definition by_id (nodes : list DiffableNode) : jmap string DiffableNode :=
  foldl (λ acc node, jm_set acc (dn_id node) node) [] nodes.

Definition compareWorkflowsNodes (base target : list DiffableNode) : WorkflowDiff :=
  let baseNodes := by_id base in
  let targetNodes := by_id target in
  let diff := foldl (λ diff '(id, node),
      let status :=
        if negb (jm_has targetNodes id) then Deleted
        else if negb (same_node (jm_get baseNodes id) (jm_get targetNodes id)) then Modified else Eq in
      jm_set diff id (mkNodeDiff status node)) [] baseNodes in
  foldl (λ diff '(id, node), if negb (jm_has baseNodes id) then jm_set diff id (mkNodeDiff Added node) else diff) diff targetNodes.

Definition new_change_set (from to : WorkflowHistory) : WorkflowChangeSet :=
  if bool_decide (wh_ref from = wh_ref to) then
    mkChangeSet (foldl (λ acc node, jm_set acc (dn_id node) (mkNodeDiff Eq node)) [] (wh_nodes from)) (mkDiff [] [])
  else mkChangeSet (compareWorkflowsNodes (wh_nodes from) (wh_nodes to)) (compareConnections (wh_connections from) (wh_connections to)).

Definition nodeIsSuperset (prevNode nextNode : DiffableNode) : bool :=
  if negb (compareNodes (Some (node_object prevNode (JObj []))) (Some (node_object nextNode (JObj [])))) then false
  else parametersAreSuperset (dn_parameters prevNode) (dn_parameters nextNode).

(** * Rules *)

(** [new Error('invariant broken - no next node')] *)
Inductive DiffError := NoNextNode.

Definition DiffRule := WorkflowHistory → WorkflowHistory → WorkflowChangeSet → DiffMetaData → result DiffError bool.

(** One iteration of [mergeAdditiveChanges]; [Ok false] is its [return false]. *)
Definition additive_node (next : WorkflowHistory) (d : NodeDiff) : result DiffError bool :=
  match nd_status d with
  | Deleted => Ok false
  | Added => Ok true
  | st =>
      match list_find (λ x, dn_id x = dn_id (nd_node d)) (wh_nodes next) with
      | None => Err NoNextNode
      | Some (_, nextNode) => Ok (negb (bool_decide (st = Modified) && negb (nodeIsSuperset (nd_node d) nextNode)))
      end
  end.

Fixpoint all_additive (next : WorkflowHistory) (ds : list NodeDiff) : result DiffError bool :=
  match ds with
  | [] => Ok true
  | d :: ds => b ← additive_node next d; if (b : bool) then all_additive next ds else Ok false
  end.

Definition mergeAdditiveChanges : DiffRule := λ _ next diff _,
  b ← all_additive next (jm_vals (cs_nodes diff));
  Ok ((b : bool) && bool_decide (removed (cs_connections diff) = [])).

Definition makeSkipTimeDifference (timeDiffMs : Z) : DiffRule := λ prev next _ _,
  Ok (bool_decide (timeDiffMs < Z.abs (wh_createdAt next - wh_createdAt prev))%Z).

Definition makeMergeShortTimeSpan (timeDiffMs : Z) (prev next : WorkflowHistory) : bool :=
  bool_decide (Z.abs (wh_createdAt next - wh_createdAt prev) < timeDiffMs)%Z.

(** The first entry whose size the score exceeds decides, largest size first. *)
Definition makeMergeDependingOnSizeRule (mapping : jmap Z Z) : DiffRule := λ prev next _ metaData,
  match workflowSizeScore metaData with
  | None => Ok false
  | Some score =>
      let pairs := js_sort (λ a b : Z * Z, (b.1 - a.1)%Z) mapping in
      Ok (match list_find (λ p : Z * Z, (p.1 < score)%Z) pairs with Some (_, (_, time)) => makeMergeShortTimeSpan time prev next | None => false end)
  end.

Definition skipDifferentUsers : DiffRule := λ prev next _ _, Ok (negb (bool_decide (wh_authors next = wh_authors prev))).

Definition makeSkipActiveAndNamedVersionsRule (activeVersions : list string) : DiffRule := λ prev _ _ _,
  Ok (negb (bool_decide (wh_name prev = None)) || negb (bool_decide (wh_description prev = None)) || js_has activeVersions (wh_versionId prev)).

(** * Grouping *)

Fixpoint determineNodeSize (parameters : json) : nat :=
  match parameters with
  | JStr s => if bool_decide (s = "") then 1 else String.length s
  | JNull | JBool _ | JNum _ => 1
  | JArr l => foldl (λ acc v, acc + determineNodeSize v) 1 l
  | JObj o => foldl (λ acc '(_, v), acc + determineNodeSize v) 1 o
  end.

Definition determineNodeParametersSize (w : WorkflowHistory) : nat :=
  foldl (λ acc x, acc + determineNodeSize (dn_parameters x)) 0 (wh_nodes w).

(** The rules in order, until one accepts. *)
Fixpoint some_rule (rules : list DiffRule) (prev next : WorkflowHistory) (wcs : WorkflowChangeSet) (m : DiffMetaData) : result DiffError bool :=
  match rules with
  | [] => Ok false
  | rule :: rules => b ← rule prev next wcs m; if (b : bool) then Ok true else some_rule rules prev next wcs m
  end.

(** Whether an iteration of [diffLoop] drops [prev]. *)
Definition should_merge (rules skipRules : list DiffRule) (m : DiffMetaData) (prev next : WorkflowHistory) : result DiffError bool :=
  let wcs := new_change_set prev next in
  skip ← some_rule skipRules prev next wcs m;
  if (skip : bool) then Ok false else some_rule rules prev next wcs m.

(** [diffLoop] with [i] still to come; [None] cannot happen. *)
Fixpoint diff_loop (rules skipRules : list DiffRule) (m : DiffMetaData) (i : nat) (remaining gone : list WorkflowHistory) :
    option (result DiffError (list WorkflowHistory * list WorkflowHistory)) :=
  match i with
  | 0 => Some (Ok (gone, remaining))
  | S j =>
      prev ← remaining !! j; next ← remaining !! i;
      match should_merge rules skipRules m prev next with
      | Err e => Some (Err e)
      | Ok true => diff_loop rules skipRules m j (splice1 remaining j) (gone ++ [prev])
      | Ok false => diff_loop rules skipRules m j remaining gone
      end
  end.

(** [wanted] is [metaDataFields?.workflowSizeScore]. *)
Definition size_meta (wanted : bool) (workflows : list WorkflowHistory) : DiffMetaData :=
  mkMetaData (if wanted then
    Some (Z.of_nat (max (default 0 (determineNodeParametersSize <$> workflows !! (length workflows / 2)))
                        (default 0 (determineNodeParametersSize <$> last workflows))))
  else None).

Definition groupWorkflows (workflows : list WorkflowHistory) (rules skipRules : list DiffRule) (wanted : bool) :
    option (result DiffError (list WorkflowHistory * list WorkflowHistory)) :=
  match workflows with
  | [] => Some (Ok ([], []))
  | [w] => Some (Ok ([], workflows))
  | _ => diff_loop rules skipRules (size_meta wanted workflows) (length workflows - 1) workflows []
  end.

(** The versions [pruneHistory] deletes; [workflows] are those of the time range by
    creation time. *)
Definition pruneHistory (workflows : list WorkflowHistory) (published : list string) (rules skipRules : list DiffRule) (wanted : bool) :
    option (result DiffError (list string)) :=
  match groupWorkflows workflows rules (makeSkipActiveAndNamedVersionsRule published :: skipDifferentUsers :: skipRules) wanted with
  | Some (Ok (gone, _)) => Some (Ok (wh_versionId <$> gone))
  | Some (Err e) => Some (Err e)
  | None => None
  end.

(** [optimizeHistories] and [trimLongRunningHistories] for one workflow. *)
Definition optimize_history (workflows : list WorkflowHistory) (published : list string) : option (result DiffError (list string)) :=
  pruneHistory workflows published [mergeAdditiveChanges] [makeSkipTimeDifference (20 * 60 * 1000)] false.
Definition trim_mapping : jmap Z Z :=
  [(0, 60 * 1000); (100, 10 * 60 * 1000); (1000, 2 * 60 * 60 * 1000); (5000, 5 * 60 * 60 * 1000); (10000, 10 * 60 * 60 * 1000)]%Z.
Definition trim_history (workflows : list WorkflowHistory) (published : list string) : option (result DiffError (list string)) :=
  pruneHistory workflows published [makeMergeDependingOnSizeRule trim_mapping] [] true.

(** * Changes *)

(** [connectionsEqual] is [isEqual] on the connections. *)
Definition hasNonPositionalChanges (connectionsEqual : IConnections → IConnections → bool)
    (oldNodes newNodes : list DiffableNode) (oldConnections newConnections : IConnections) : bool :=
  existsb (λ d, negb (bool_decide (nd_status d = Eq))) (jm_vals (compareWorkflowsNodes oldNodes newNodes)) ||
  negb (connectionsEqual oldConnections newConnections).
End Diff.

(** [node.credentials ?? {}] *)
Definition credentials_of (n : DiffableNode) : object :=
  match jm_get (dn_props n) "credentials" with Some (JObj o) => o | _ => [] end.

(** [creds[type]?.id], a string, [null] or missing. *)
Definition credential_id (creds : object) (credType : string) : option (option string) :=
  match jm_get creds credType with
  | Some (JObj c) => match jm_get c "id" with Some (JStr s) => Some (Some s) | Some _ => Some None | None => None end
  | _ => None
  end.

Definition credentials_changed (oldNode newNode : DiffableNode) : bool :=
  let oldCreds := credentials_of oldNode in
  let newCreds := credentials_of newNode in
  existsb (λ credType, negb (jm_has newCreds credType) ||
    negb (bool_decide (credential_id oldCreds credType = credential_id newCreds credType))) (jm_keys oldCreds) ||
  existsb (λ credType, negb (jm_has oldCreds credType)) (jm_keys newCreds).

Definition hasCredentialChanges (oldNodes newNodes : list DiffableNode) : bool :=
  let newNodesMap := by_id newNodes in
  existsb (λ oldNode, match jm_get newNodesMap (dn_id oldNode) with
    | None => false | Some newNode => credentials_changed oldNode newNode end) oldNodes.
