(* ===== verification/WorkflowDiffProofs.v ===== *)
(** WorkflowDiffProofs: what the difference of two versions records, and that the
    compaction of a history drops a version only for a later one that contains it. *)

From stdpp Require Import prelude list strings pretty.
From Stdlib Require Import ZArith Lia.
From S2P Require Import Prelude Types ConnectionsDiff WorkflowDiff.
Local Open Scope nat_scope.

(** * stringContainsParts *)

Lemma sublist_same {A} (x : A) l k : x :: l `sublist_of` x :: k ↔ l `sublist_of` k.
Proof.
  split; [|by apply sublist_skip]. inversion 1; subst; [done|]. etransitivity; [|done]. by apply sublist_cons.
Qed.
Lemma sublist_other {A} (x y : A) l k : x ≠ y → x :: l `sublist_of` y :: k ↔ x :: l `sublist_of` k.
Proof. intros Hne. split; [|by apply sublist_cons]. by inversion 1. Qed.

(** The loop with [rest] still to be found in [s]. *)
Lemma contains_loop_spec n m i marker rest s :
  n ≤ m → marker + length rest = n → i + length s = m →
  match contains_loop (m - n) i marker rest s with Some k => bool_decide (n ≤ k) | None => false end = true ↔ rest `sublist_of` s.
Proof.
  intros Hnm. revert i marker rest; induction s as [|c s IH]; intros i marker rest Hm Hi.
  - cbn. rewrite bool_decide_eq_true. destruct rest as [|c' rest]; cbn in Hm.
    + split; [done|lia].
    + split; [lia|]. intros Hs. by apply sublist_nil_r in Hs.
  - cbn [contains_loop]. cbn in Hi. destruct rest as [|c' rest]; cbn in Hm.
    + case_bool_decide; [exfalso; lia|]. rewrite IH by (cbn; lia). split; intros _; apply sublist_nil_l.
    + case_bool_decide as Hc; [subst c'; rewrite sublist_same|rewrite sublist_other by done].
      * case_bool_decide; [|by rewrite IH by lia]. split; [done|]. intros Hs%sublist_length. lia.
      * case_bool_decide; [|by rewrite IH by (cbn; lia)]. split; [done|]. intros Hs%sublist_length. cbn in Hs. lia.
Qed.

Lemma stringContainsParts_sublist s substr :
  stringContainsParts s substr = true ↔ String.list_ascii_of_string substr `sublist_of` String.list_ascii_of_string s.
Proof.
  unfold stringContainsParts. case_bool_decide as Hl.
  - split; [done|]. intros Hs%sublist_length. lia.
  - apply contains_loop_spec; lia.
Qed.

(** stringContainsParts, with its early exit, decides whether the characters of the second string occur in the first in the same order. *)
Theorem stringContainsParts_spec s substr :
  stringContainsParts s substr = true ↔ String.list_ascii_of_string substr `sublist_of` String.list_ascii_of_string s.
Proof. apply stringContainsParts_sublist. Qed.

(** * parametersAreSuperset *)

Definition at_key (v : json) (k : string) : option json := o ← fields v; jm_get o k.

(** The value at a path of keys and indices. *)
Fixpoint at_path (v : json) (path : list string) : option json :=
  match path with [] => Some v | k :: path => w ← at_key v k; at_path w path end.

(** [w] keeps what [v] says at its top. *)
Definition keeps_value (v w : json) : Prop :=
  match v with
  | JStr s => ∃ s', w = JStr s' ∧ String.list_ascii_of_string s `sublist_of` String.list_ascii_of_string s'
  | JArr l => ∃ l', w = JArr l' ∧ length l = length l'
  | JObj o => ∃ o', fields w = Some o' ∧ length o = length o'
  | _ => w = v
  end.

Lemma index_fields_get (l : list json) k v :
  jm_get (imap (λ i x, (pretty i, x)) l) k = Some v ↔ ∃ i, k = pretty i ∧ l !! i = Some v.
Proof.
  assert (∀ off, jm_get (imap (λ i x, (pretty (off + i), x)) l) k = Some v ↔ ∃ i, k = pretty (off + i) ∧ l !! i = Some v) as H; [|exact (H 0)].
  induction l as [|x l IH]; intros off; cbn; [naive_solver|].
  rewrite Nat.add_0_r. case_decide as Hk.
  - split; [intros [= ->]; exists 0; by rewrite Nat.add_0_r|]. intros (i & -> & Hi).
    assert (off = off + i) as Ho by (by apply (inj pretty)). replace i with 0 in Hi by lia. cbn in Hi. congruence.
  - assert (imap ((λ i x, (pretty (off + i), x)) ∘ S) l = imap (λ i x, (pretty (S off + i), x)) l) as ->.
    { apply imap_ext. intros i y _. cbn. by rewrite Nat.add_succ_r. }
    rewrite IH. split.
    + intros (i & -> & Hi). exists (S i). by rewrite Nat.add_succ_r.
    + intros ([|i] & -> & Hi); [by rewrite Nat.add_0_r in Hk|]. exists i. by rewrite Nat.add_succ_r.
Qed.

(** One level of the comparison. *)
Lemma superset_step v w :
  parametersAreSuperset v w = true →
  keeps_value v w ∧ ∀ k x, at_key v k = Some x → ∃ y, at_key w k = Some y ∧ parametersAreSuperset x y = true.
Proof.
  destruct v as [|b|z|s|l|o]; cbn [parametersAreSuperset]; intros H.
  - destruct w; try done.
  - destruct w; try done. apply bool_decide_eq_true in H as ->. done.
  - destruct w; try done. apply bool_decide_eq_true in H as ->. done.
  - destruct w as [| | |s'| |]; try done. apply stringContainsParts_sublist in H. split; [by exists s'|done].
  - destruct w as [| | | |l'|]; try done. apply andb_true_iff in H as [Hl H]. apply bool_decide_eq_true in Hl.
    split; [by exists l'|]. intros k x. unfold at_key. cbn. rewrite index_fields_get. intros (i & -> & Hi).
    assert (∃ y, l' !! i = Some y ∧ parametersAreSuperset x y = true) as (y & Hy & Hs).
    { clear Hl. revert i l' Hi H; induction l as [|v l IH]; intros i l' Hi H; [done|]. destruct l' as [|w l']; [done|].
      apply andb_true_iff in H as [Hv H]. destruct i as [|i]; [cbn in Hi; simplify_eq; by exists w|]. by apply (IH i l'). }
    exists y. split; [|done]. apply index_fields_get. by exists i.
  - destruct (fields w) as [o'|] eqn:Hf; [|done]. apply andb_true_iff in H as [H Hall]. apply andb_true_iff in H as [Hl _].
    apply bool_decide_eq_true in Hl. split; [by exists o'|]. intros k x. unfold at_key. rewrite Hf. cbn.
    clear Hl. induction o as [|[k' v] o IH]; [done|]. apply andb_true_iff in Hall as [Hv Hall]. cbn. case_decide as Hk.
    + subst k'. intros [= ->]. destruct (jm_get o' k) as [y|]; [by exists y|done].
    + by apply IH.
Qed.

(** When parametersAreSuperset accepts, every value of the first parameters is kept at its path in the second: a string as a subsequence, other primitives unchanged, arrays and objects with as many elements. *)
Theorem parametersAreSuperset_keeps prev next path v :
  parametersAreSuperset prev next = true → at_path prev path = Some v → ∃ w, at_path next path = Some w ∧ keeps_value v w.
Proof.
  revert prev next; induction path as [|k path IH]; intros prev next Hs; cbn.
  - intros [= <-]. exists next. split; [done|]. by apply superset_step.
  - destruct (at_key prev k) as [x|] eqn:Hx; [|done]. cbn. apply superset_step in Hs as [_ Hs].
    destruct (Hs k x Hx) as (y & -> & Hxy). cbn. by apply IH.
Qed.

(** * What it means that a version contains another *)

(** The same value at the top: the same primitive, or an array or object of the same size. *)
Definition same_top (v w : json) : Prop :=
  match v, w with
  | JArr l, JArr l' => length l = length l'
  | JObj o, JObj o' => length o = length o'
  | JArr _, _ | JObj _, _ => False
  | _, _ => v = w
  end.

(** What holds of the values at two places, if both are there, or of neither. *)
Definition both {A} (R : A → A → Prop) (x y : option A) : Prop :=
  match x, y with Some x, Some y => R x y | None, None => True | _, _ => False end.

(** Equal as data: the same at every path, whatever the order of the keys. *)
Definition json_same (v w : json) : Prop := ∀ path, both same_top (at_path v path) (at_path w path).

(** Every string of [v] is part of the string of [w] at the same path, and every other value
    of [v] is there in [w]. *)
Definition contained (v w : json) : Prop :=
  ∀ path x, at_path v path = Some x → ∃ y, at_path w path = Some y ∧ keeps_value x y.

(** The properties of a node, besides its parameters, that a version is compared by. *)
Definition compared_props : list string := ["name"; "type"; "typeVersion"; "webhookId"; "credentials"].

(** [n'] contains [n]: the same id, name, type, type version, webhook id and credentials,
    and the parameters of [n]. *)
Definition node_kept (n n' : DiffableNode) : Prop :=
  dn_id n = dn_id n' ∧
  (∀ k, k ∈ compared_props → both json_same (jm_get (dn_props n) k) (jm_get (dn_props n') k)) ∧
  contained (dn_parameters n) (dn_parameters n').

(** [w'] contains [w]: each of its nodes, and all its connections. *)
Definition covers (w w' : WorkflowHistory) : Prop :=
  (∀ n, n ∈ wh_nodes w → ∃ n', n' ∈ wh_nodes w' ∧ node_kept n n') ∧
  ∀ name input ix, conns_at (wh_connections w) name input ix ⊆ conns_at (wh_connections w') name input ix.

Lemma same_top_keeps v w : same_top v w → keeps_value v w.
Proof. destruct v, w; cbn; try done; try naive_solver. Qed.

Lemma json_same_contained v w : json_same v w → contained v w.
Proof.
  intros H path x Hx. specialize (H path). rewrite Hx in H. destruct (at_path w path) as [y|]; [|done].
  exists y. split; [done|by apply same_top_keeps].
Qed.

Lemma superset_contained v w : parametersAreSuperset v w = true → contained v w.
Proof.
  intros Hs path x. revert v w Hs; induction path as [|k path IH]; intros v w Hs; cbn.
  - intros [= <-]. exists w. split; [done|]. by apply superset_step.
  - destruct (at_key v k) as [v'|] eqn:Hv; [|done]. cbn. apply superset_step in Hs as [_ Hs].
    destruct (Hs k v' Hv) as (w' & -> & Hw). cbn. by apply IH.
Qed.

Lemma json_same_field a b k : json_same (JObj a) (JObj b) → both json_same (jm_get a k) (jm_get b k).
Proof.
  intros H. assert (∀ path, both same_top (x ← jm_get a k; at_path x path) (x ← jm_get b k; at_path x path)) as Hk
    by (intros path; exact (H (k :: path))).
  destruct (jm_get a k), (jm_get b k); [exact Hk|exact (Hk [])..|done].
Qed.

(** What the code relies on of lodash: [isEqual] is reflexive and holds only of equal data,
    and [pick] gives the picked properties only. *)
Class Lodash (isEqual : json → json → bool) (pick : option (jmap string json) → list string → jmap string json) : Prop := {
  isEqual_refl v : isEqual v v = true;
  isEqual_same v w : isEqual v w = true → json_same v w;
  pick_ext a b keys : (∀ k, k ∈ keys → jm_get a k = jm_get b k) → pick (Some a) keys = pick (Some b) keys;
  pick_get a keys k : k ∈ keys → jm_get (pick (Some a) keys) k = jm_get a k;
}.

(** * groupWorkflows *)

(** The reference: the versions are taken from the newest on; each is compared with
    the oldest one kept so far. *)
Section Greedy.
Context (merges : WorkflowHistory → WorkflowHistory → result DiffError bool).

Definition greedy_step (w : WorkflowHistory) (acc : list WorkflowHistory * list WorkflowHistory) :
    result DiffError (list WorkflowHistory * list WorkflowHistory) :=
  match acc.2 with
  | [] => Ok (acc.1, [w])
  | k :: _ => b ← merges w k; Ok (if b : bool then (acc.1 ++ [w], acc.2) else (acc.1, w :: acc.2))
  end.

Fixpoint greedy_from (ws : list WorkflowHistory) (acc : list WorkflowHistory * list WorkflowHistory) :
    result DiffError (list WorkflowHistory * list WorkflowHistory) :=
  match ws with [] => Ok acc | w :: ws => acc ← greedy_from ws acc; greedy_step w acc end.

Lemma greedy_snoc ws w acc : greedy_from (ws ++ [w]) acc = acc' ← greedy_step w acc; greedy_from ws acc'.
Proof.
  induction ws as [|w' ws IH]; cbn.
  - by destruct (greedy_step w acc).
  - rewrite IH. by destruct (greedy_step w acc).
Qed.

(** [kept] are the versions of [ws] that stay, [gone] the others. *)
Record grouped (ws gone kept : list WorkflowHistory) : Prop := {
  gr_perm : gone ++ kept ≡ₚ ws;
  gr_order : kept `sublist_of` ws;
  gr_last : last kept = last ws;
  gr_justified : ∀ w, w ∈ gone → ∃ k, k ∈ kept ∧ merges w k = Ok true;
  gr_done : ∀ i w k, kept !! i = Some w → kept !! S i = Some k → merges w k = Ok false;
}.

Lemma greedy_grouped ws gone kept : greedy_from ws ([], []) = Ok (gone, kept) → grouped ws gone kept.
Proof.
  revert gone kept; induction ws as [|w ws IH]; intros gone kept; cbn.
  - intros [= <- <-]. split; try done. intros w Hw. by apply elem_of_nil in Hw.
  - intros ([g ks] & Hg & Hs)%bind_Ok. apply IH in Hg as [Hp Ho Hl Hj Hd]. unfold greedy_step in Hs. cbn in Hs.
    destruct ks as [|k ks].
    + injection Hs as <- <-. rewrite app_nil_r in Hp.
      assert (ws = []) as -> by (destruct ws; [done|]; cbn in Hl; by destruct ws; [|rewrite last_cons_cons in Hl; symmetry in Hl; apply last_None in Hl]).
      apply Permutation_nil_r in Hp as ->. split; try done. by intros w' ?%elem_of_nil.
    + apply bind_Ok in Hs as (b & Hb & [= Hs]). destruct b; simplify_eq.
      * split.
        -- rewrite <- (assoc_L (++)), <- Hp. symmetry. apply Permutation_middle.
        -- by apply sublist_cons.
        -- rewrite Hl. destruct ws; [by apply sublist_nil_r in Ho|]. by rewrite last_cons_cons.
        -- intros w' [?|Hw]%elem_of_app; [by apply Hj|]. apply list_elem_of_singleton in Hw as ->. exists k. split; [by left|done].
        -- done.
      * split.
        -- rewrite <- Hp. symmetry. apply Permutation_middle.
        -- by apply sublist_skip.
        -- rewrite last_cons_cons, Hl. destruct ws; [by apply sublist_nil_r in Ho|]. by rewrite last_cons_cons.
        -- intros w' Hw. destruct (Hj w' Hw) as (k' & ? & ?). exists k'. split; [by right|done].
        -- intros [|i] w' k' Hw Hk; [cbn in *; congruence|by eapply Hd].
Qed.
End Greedy.

Lemma splice1_middle {A} (l : list A) x k : splice1 (l ++ x :: k) (length l) = l ++ k.
Proof. unfold splice1. rewrite take_app_length. f_equal. by rewrite cons_middle, (assoc_L (++)), drop_app_length' by (rewrite length_app; cbn; lia). Qed.

Section Proofs.
Context (isEqual : json → json → bool) (pick : option (jmap string json) → list string → jmap string json).

Lemma diff_loop_greedy rules skipRules m pre k kept gone :
  diff_loop isEqual pick rules skipRules m (length pre) (pre ++ k :: kept) gone =
    Some (greedy_from (should_merge isEqual pick rules skipRules m) pre (gone, k :: kept)).
Proof.
  revert k kept gone; induction pre as [|p pre IH] using rev_ind; intros k kept gone; [done|].
  rewrite length_app, Nat.add_1_r. cbn [diff_loop]. rewrite <- (assoc_L (++)). cbn [app].
  assert ((pre ++ p :: k :: kept) !! S (length pre) = Some k) as Hk.
  { rewrite lookup_app_r by lia. by replace (S (length pre) - length pre) with 1 by lia. }
  rewrite (list_lookup_middle pre (k :: kept) p (length pre)) by done. cbn [mbind option_bind]. rewrite Hk. cbn [mbind option_bind].
  rewrite greedy_snoc. unfold greedy_step. cbn [fst snd].
  destruct (should_merge isEqual pick rules skipRules m p k) as [[]|e]; cbn [mbind result_bind].
  - rewrite splice1_middle. apply IH.
  - apply IH.
  - done.
Qed.

Lemma groupWorkflows_greedy ws rules skipRules wanted :
  groupWorkflows isEqual pick ws rules skipRules wanted =
    Some (greedy_from (should_merge isEqual pick rules skipRules (size_meta wanted ws)) ws ([], [])).
Proof.
  destruct ws as [|k ws _] using rev_ind; [done|].
  transitivity (diff_loop isEqual pick rules skipRules (size_meta wanted (ws ++ [k])) (length ws) (ws ++ [k]) []).
  - destruct ws as [|w ws]; [done|]. unfold groupWorkflows. destruct ((w :: ws) ++ [k]) as [|a [|a' l]] eqn:Hl.
    + done.
    + by destruct ws.
    + rewrite <- Hl, length_app. cbn [length]. f_equal. lia.
  - rewrite diff_loop_greedy. by rewrite greedy_snoc.
Qed.
End Proofs.

(** groupWorkflows terminates, and when no rule throws it splits the versions into those that go and those that stay: the newest stays, the others keep their order, every version that goes is dropped for a version that stays and that the rules accept for it, and no two neighbours are left of which the rules would drop the older. *)
Theorem groupWorkflows_spec isEqual pick ws rules skipRules wanted :
  ∃ r, groupWorkflows isEqual pick ws rules skipRules wanted = Some r ∧
    ∀ gone kept, r = Ok (gone, kept) → grouped (should_merge isEqual pick rules skipRules (size_meta wanted ws)) ws gone kept.
Proof.
  eexists; split; [apply groupWorkflows_greedy|]. intros gone kept. apply greedy_grouped.
Qed.

(** * compareWorkflowsNodes *)

Lemma by_id_snoc ns n : by_id (ns ++ [n]) = jm_set (by_id ns) (dn_id n) n.
Proof. unfold by_id. by rewrite foldl_app. Qed.

Lemma by_id_wf ns : jm_wf (by_id ns).
Proof. unfold by_id. apply (foldl_inv _ jm_wf); [|constructor]. intros m n _ Hm. by apply jm_wf_set. Qed.

Lemma by_id_Some ns id n : jm_get (by_id ns) id = Some n → n ∈ ns ∧ dn_id n = id.
Proof.
  induction ns as [|n' ns IH] using rev_ind; [done|]. rewrite by_id_snoc, elem_of_app, list_elem_of_singleton.
  destruct (decide (dn_id n' = id)) as [<-|Hne]; [rewrite jm_get_set; intros [= ->]; eauto|].
  rewrite jm_get_set_ne by done. intros [? ?]%IH. eauto.
Qed.

Lemma by_id_has ns n : n ∈ ns → ∃ n', jm_get (by_id ns) (dn_id n) = Some n'.
Proof.
  induction ns as [|n' ns IH] using rev_ind; [by intros ?%elem_of_nil|]. rewrite by_id_snoc, elem_of_app, list_elem_of_singleton.
  destruct (decide (dn_id n' = dn_id n)) as [<-|Hne]; [rewrite jm_get_set; eauto|].
  rewrite jm_get_set_ne by done. naive_solver.
Qed.

Lemma by_id_unique ns n : NoDup (dn_id <$> ns) → n ∈ ns → jm_get (by_id ns) (dn_id n) = Some n.
Proof.
  intros Hn Hin. destruct (by_id_has ns n Hin) as [n' Hn']. rewrite Hn'. f_equal.
  apply by_id_Some in Hn' as [Hin' He]. apply list_elem_of_lookup in Hin as [i Hi], Hin' as [j Hj].
  assert (i = j) as <-; [|congruence]. eapply NoDup_lookup; [exact Hn|rewrite list_lookup_fmap, Hi; done|].
  rewrite list_lookup_fmap, Hj. cbn. by rewrite He.
Qed.

(** A loop that sets some of the keys of a map. *)
Lemma foldl_set_get {V U} (c : string → bool) (f : string → V → U) (m : jmap string V) (d : jmap string U) k :
  jm_wf m →
  jm_get (foldl (λ d '(id, v), if c id then jm_set d id (f id v) else d) d m) k =
    match jm_get m k with Some v => if c k then Some (f k v) else jm_get d k | None => jm_get d k end.
Proof.
  revert d; induction m as [|[id v] m IH]; intros d; [done|]. intros [Hk Hm]%NoDup_cons. cbn [foldl jm_get].
  rewrite IH by done. case_decide as He; [subst id|].
  - apply jm_get_None in Hk. cbn [fst] in Hk. rewrite Hk. destruct (c k); [by rewrite jm_get_set|done].
  - destruct (jm_get m k) as [v'|]; destruct (c id); rewrite ?jm_get_set_ne by done; done.
Qed.

Section Nodes.
Context (isEqual : json → json → bool) (pick : option (jmap string json) → list string → jmap string json).
Abbreviation same_node := (same_node isEqual pick).
Abbreviation compareWorkflowsNodes := (compareWorkflowsNodes isEqual pick).
Abbreviation nodeIsSuperset := (nodeIsSuperset isEqual pick).

(** The entry of an id in the diff. *)
Definition node_diff (base target : list DiffableNode) (id : string) : option NodeDiff :=
  match jm_get (by_id base) id, jm_get (by_id target) id with
  | Some n, None => Some (mkNodeDiff Deleted n)
  | Some n, Some n' => Some (mkNodeDiff (if same_node (Some n) (Some n') then Eq else Modified) n)
  | None, Some n' => Some (mkNodeDiff Added n')
  | None, None => None
  end.

Lemma compareWorkflowsNodes_get base target id :
  jm_get (compareWorkflowsNodes base target) id = node_diff base target id.
Proof.
  unfold WorkflowDiff.compareWorkflowsNodes, node_diff.
  rewrite (foldl_set_get (λ id, negb (jm_has (by_id base) id)) (λ _ n, mkNodeDiff Added n)) by apply by_id_wf.
  rewrite (foldl_set_get (λ _, true) (λ id n, mkNodeDiff (if negb (jm_has (by_id target) id) then Deleted
    else if negb (same_node (jm_get (by_id base) id) (jm_get (by_id target) id)) then Modified else Eq) n)) by apply by_id_wf.
  unfold jm_has. destruct (jm_get (by_id base) id) as [n|], (jm_get (by_id target) id) as [n'|]; cbn; try done.
  by destruct (same_node (Some n) (Some n')).
Qed.

(** compareWorkflowsNodes has one entry for each node id of either version: deleted, added, modified or equal, as the versions hold the id and compareNodes finds the nodes with it equal. *)
Theorem compareWorkflowsNodes_spec base target id :
  jm_get (compareWorkflowsNodes base target) id = node_diff base target id ∧ 
  (is_Some (jm_get (compareWorkflowsNodes base target) id) ↔ id ∈ dn_id <$> (base ++ target)).
Proof.
  split; [apply compareWorkflowsNodes_get|]. rewrite compareWorkflowsNodes_get, fmap_app, elem_of_app. unfold node_diff.
  assert (∀ ns, id ∈ dn_id <$> ns ↔ is_Some (jm_get (by_id ns) id)) as H.
  { intros ns. split; [intros (n & -> & Hn)%list_elem_of_fmap; by apply by_id_has|].
    intros [n Hn]. apply by_id_Some in Hn as [Hn <-]. by apply list_elem_of_fmap_2. }
  rewrite !H. destruct (jm_get (by_id base) id), (jm_get (by_id target) id);
    split; intros Hx; first [by eauto|by left; eauto|by right; eauto|by destruct Hx|by destruct Hx as [[? ?]|[? ?]]].
Qed.

(** * Nothing is lost *)

Section Kept.
Context `{!Lodash isEqual pick}.

(** Nodes that [compareNodes] finds equal have the same properties, of those it reads. *)
Lemma compared_field n n' p p' k : k ∈ propsToCompare →
  compareNodes isEqual pick (Some (node_object n p)) (Some (node_object n' p')) = true →
  both json_same (jm_get (node_object n p) k) (jm_get (node_object n' p') k).
Proof.
  intros Hk H. pose proof (isEqual_same _ _ H) as Hs. apply (json_same_field _ _ k) in Hs.
  by rewrite !pick_get in Hs.
Qed.

Lemma compared_prop n n' p p' k : k ∈ compared_props →
  compareNodes isEqual pick (Some (node_object n p)) (Some (node_object n' p')) = true →
  both json_same (jm_get (dn_props n) k) (jm_get (dn_props n') k).
Proof.
  intros Hk H. apply (compared_field _ _ _ _ k) in H; [|unfold propsToCompare, compared_props in *; set_solver].
  unfold compared_props in Hk. repeat (apply elem_of_cons in Hk as [->|Hk]; [exact H|]). by apply not_elem_of_nil in Hk.
Qed.

Lemma same_node_kept n n' : dn_id n = dn_id n' → same_node (Some n) (Some n') = true → node_kept n n'.
Proof.
  intros Hid H. split; [done|split; [intros k Hk; exact (compared_prop n n' _ _ k Hk H)|]].
  apply json_same_contained. assert ("parameters" ∈ propsToCompare) as Hk by (unfold propsToCompare; set_solver).
  exact (compared_field n n' _ _ "parameters" Hk H).
Qed.

Lemma nodeIsSuperset_kept n n' : dn_id n = dn_id n' → nodeIsSuperset n n' = true → node_kept n n'.
Proof.
  intros Hid. unfold WorkflowDiff.nodeIsSuperset. destruct (compareNodes _ _ _ _) eqn:Hc; [cbn [negb]|done].
  intros Hs. split; [done|split; [intros k Hk; by eapply compared_prop|by apply superset_contained]].
Qed.

End Kept.

Lemma all_additive_true next ds : all_additive isEqual pick next ds = Ok true → Forall (λ d, additive_node isEqual pick next d = Ok true) ds.
Proof.
  induction ds as [|d ds IH]; [by constructor|]. cbn. intros (b & Hb & H)%bind_Ok. destruct b; [|done].
  constructor; [done|by apply IH].
Qed.

Lemma all_additive_ok next ds :
  Forall (λ d, ∃ b, additive_node isEqual pick next d = Ok b) ds → ∃ b, all_additive isEqual pick next ds = Ok b.
Proof.
  induction 1 as [|d ds [b Hb] _ IH]; [by exists true|]. cbn. rewrite Hb. cbn. destruct b; [done|by exists false].
Qed.

Lemma find_id (ns : list DiffableNode) id : 
  match list_find (λ x, dn_id x = id) ns with
  | Some (_, n) => n ∈ ns ∧ dn_id n = id
  | None => jm_get (by_id ns) id = None
  end.
Proof.
  destruct (list_find _ ns) as [[i n]|] eqn:Hf.
  - apply list_find_Some in Hf as (Hi & He & _). split; [by eapply list_elem_of_lookup_2|done].
  - apply list_find_None in Hf. destruct (jm_get (by_id ns) id) as [n|] eqn:Hn; [exfalso|done].
    apply by_id_Some in Hn as [Hn He]. eapply Forall_forall in Hf; [by apply Hf|done].
Qed.

Lemma additive_never_throws prev next id d :
  jm_get (compareWorkflowsNodes prev (wh_nodes next)) id = Some d → dn_id (nd_node d) = id →
  ∃ b, additive_node isEqual pick next d = Ok b.
Proof.
  rewrite compareWorkflowsNodes_get. unfold node_diff. intros Hd He. unfold additive_node. rewrite He.
  pose proof (find_id (wh_nodes next) id) as Hf.
  destruct (list_find _ _) as [[i n]|]; [destruct (nd_status d); eauto|]. rewrite Hf in Hd.
  destruct (jm_get (by_id prev) id); [|done]. injection Hd as <-. eauto.
Qed.

Lemma mergeAdditiveChanges_spec `{!Lodash isEqual pick} prev next m :
  wh_ref prev ≠ wh_ref next → NoDup (dn_id <$> wh_nodes prev) →
  ∃ b, mergeAdditiveChanges isEqual pick prev next (new_change_set isEqual pick prev next) m = Ok b ∧ (b = true → covers prev next).
Proof.
  intros Hr Hn. unfold mergeAdditiveChanges, new_change_set. rewrite (bool_decide_false (wh_ref prev = wh_ref next)) by done. cbn [cs_nodes cs_connections].
  set (diff := WorkflowDiff.compareWorkflowsNodes isEqual pick (wh_nodes prev) (wh_nodes next)).
  assert (jm_wf diff) as Hwf.
  { unfold diff, WorkflowDiff.compareWorkflowsNodes. apply (foldl_inv _ jm_wf).
    - intros d [id n] _ Hd. destruct (negb _); [by apply jm_wf_set|done].
    - apply (foldl_inv _ jm_wf); [|constructor]. intros d [id n] _ Hd. by apply jm_wf_set. }
  destruct (all_additive_ok next (jm_vals diff)) as [b Hb].
  { apply Forall_forall. intros d ([id d'] & -> & Hd)%list_elem_of_fmap. apply jm_elem_get in Hd; [|done]. cbn [snd].
    eapply additive_never_throws; [exact Hd|]. unfold diff in Hd. rewrite compareWorkflowsNodes_get in Hd. unfold node_diff in Hd.
    destruct (jm_get (by_id (wh_nodes prev)) id) as [n|] eqn:Hp, (jm_get (by_id (wh_nodes next)) id) as [n'|] eqn:Hq;
      simplify_eq; cbn; by first [apply by_id_Some in Hp as [_ ?]|apply by_id_Some in Hq as [_ ?]]. }
  rewrite Hb. cbn [mbind result_bind]. eexists; split; [done|]. intros [-> Hrem]%andb_true_iff.
  apply all_additive_true in Hb. split; [|by apply removed_nil; apply bool_decide_eq_true in Hrem].
  intros n Hin. pose proof (by_id_unique _ _ Hn Hin) as Hg.
  assert (∃ d, jm_get diff (dn_id n) = Some d ∧ node_diff (wh_nodes prev) (wh_nodes next) (dn_id n) = Some d) as (d & Hd & Hnd).
  { unfold diff. rewrite compareWorkflowsNodes_get. unfold node_diff. rewrite Hg. destruct (jm_get (by_id (wh_nodes next)) (dn_id n)); eauto. }
  assert (additive_node isEqual pick next d = Ok true) as Ha.
  { eapply Forall_forall in Hb; [exact Hb|]. apply list_elem_of_fmap. exists (dn_id n, d). split; [done|]. by apply jm_get_Some_elem. }
  unfold node_diff in Hnd. rewrite Hg in Hnd. destruct (jm_get (by_id (wh_nodes next)) (dn_id n)) as [n'|] eqn:Hg'; simplify_eq.
  apply by_id_Some in Hg' as [Hn' He']. destruct (same_node (Some n) (Some n')) eqn:Hs.
  - exists n'. split; [done|by apply same_node_kept].
  - unfold additive_node in Ha. cbn in Ha. pose proof (find_id (wh_nodes next) (dn_id n)) as Hf.
    destruct (list_find _ _) as [[i n2]|]; [|done]. destruct Hf as [Hn2 He2]. injection Ha as Ha.
    exists n2. split; [done|apply nodeIsSuperset_kept; [done|]]. by destruct (nodeIsSuperset n n2).
Qed.
End Nodes.

(** * Compaction *)

Lemma some_rule_true rules prev next wcs m :
  some_rule rules prev next wcs m = Ok true → ∃ rule, rule ∈ rules ∧ rule prev next wcs m = Ok true.
Proof.
  induction rules as [|rule rules IH]; [done|]. cbn. intros (b & Hb & H)%bind_Ok. destruct b.
  - exists rule. split; [by left|done].
  - destruct (IH H) as (rule' & ? & ?). exists rule'. split; [by right|done].
Qed.

Lemma some_rule_false rules prev next wcs m :
  some_rule rules prev next wcs m = Ok false → Forall (λ rule, rule prev next wcs m = Ok false) rules.
Proof.
  induction rules as [|rule rules IH]; [by constructor|]. cbn. intros (b & Hb & H)%bind_Ok. destruct b; [done|].
  constructor; [done|by apply IH].
Qed.

Section Compaction.
Context (isEqual : json → json → bool) (pick : option (jmap string json) → list string → jmap string json).

Definition optimize_skips (published : list string) : list DiffRule :=
  [makeSkipActiveAndNamedVersionsRule published; skipDifferentUsers; makeSkipTimeDifference (20 * 60 * 1000)].

(** [w] may be deleted for [w']. *)
Record replaceable (published : list string) (w w' : WorkflowHistory) : Prop := {
  rp_name : wh_name w = None;
  rp_description : wh_description w = None;
  rp_published : wh_versionId w ∉ published;
  rp_authors : wh_authors w = wh_authors w';
  rp_time : (Z.abs (wh_createdAt w' - wh_createdAt w) ≤ 20 * 60 * 1000)%Z;
  rp_covers : covers w w';
}.

Lemma optimize_merge `{!Lodash isEqual pick} published m w w' :
  wh_ref w ≠ wh_ref w' → NoDup (dn_id <$> wh_nodes w) →
  ∃ b, should_merge isEqual pick [mergeAdditiveChanges isEqual pick] (optimize_skips published) m w w' = Ok b ∧
    (b = true → replaceable published w w').
Proof.
  intros Hr Hn. unfold should_merge, optimize_skips. cbn [some_rule].
  unfold makeSkipActiveAndNamedVersionsRule at 1, skipDifferentUsers at 1, makeSkipTimeDifference at 1. cbn [mbind result_bind].
  destruct (bool_decide (wh_name w = None)) eqn:H1; cbn [negb orb mbind result_bind]; [|by exists false].
  destruct (bool_decide (wh_description w = None)) eqn:H2; cbn [negb orb mbind result_bind]; [|by exists false].
  destruct (js_has published (wh_versionId w)) eqn:H3; cbn [mbind result_bind]; [by exists false|].
  destruct (bool_decide (wh_authors w' = wh_authors w)) eqn:H4; cbn [negb mbind result_bind]; [|by exists false].
  destruct (bool_decide (20 * 60 * 1000 < Z.abs (wh_createdAt w' - wh_createdAt w))%Z) eqn:H5; cbn [mbind result_bind]; [by exists false|].
  destruct (mergeAdditiveChanges_spec isEqual pick w w' m Hr Hn) as (b & Hb & Hc). rewrite Hb. cbn [mbind result_bind].
  destruct b; (eexists; split; [done|]); [|done]. intros _.
  apply bool_decide_eq_true in H1, H2, H4. apply bool_decide_eq_false in H5. apply js_has_false in H3. split; try done; [lia|by apply Hc].
Qed.

Lemma greedy_total (merges : WorkflowHistory → WorkflowHistory → result DiffError bool) ws :
  (∀ i j w w', i < j → ws !! i = Some w → ws !! j = Some w' → ∃ b, merges w w' = Ok b) →
  ∃ gone kept, greedy_from merges ws ([], []) = Ok (gone, kept).
Proof.
  induction ws as [|w ws IH]; intros Hm; [by exists [], []|]. cbn.
  destruct IH as (gone & kept & Hg). { intros i j x y Hij Hx Hy. apply (Hm (S i) (S j) x y); [lia|done|done]. }
  rewrite Hg. cbn. unfold greedy_step. cbn. destruct kept as [|k kept]; [eauto|].
  pose proof (gr_order _ _ _ _ (greedy_grouped _ _ _ _ Hg)) as Ho.
  assert (k ∈ ws) as [j Hj]%list_elem_of_lookup by (eapply elem_of_submseteq; [left|by apply sublist_submseteq]).
  destruct (Hm 0 (S j) w k) as [b ->]; [lia|done|done|]. cbn. destruct b; eauto.
Qed.

(** C31: The optimization of a history of versions, each with distinct ids of nodes, never
    throws; it keeps the newest version, deletes no named, described or published version,
    and deletes a version only if a remaining one by the same authors, at most twenty minutes
    away, contains it as far as versions are compared: it has all its connections and, for
    each of its nodes, a node with the same id, name, type, type version, webhook id and
    credentials, whose parameters hold those of the node, a text as part of the text. *)
Theorem optimize_history_safe `{!Lodash isEqual pick} ws published :
  NoDup (wh_ref <$> ws) → Forall (λ w, NoDup (dn_id <$> wh_nodes w)) ws →
  ∃ gone kept, optimize_history isEqual pick ws published = Some (Ok (wh_versionId <$> gone)) ∧
    gone ++ kept ≡ₚ ws ∧ last kept = last ws ∧
    ∀ w, w ∈ gone → ∃ w', w' ∈ kept ∧ replaceable published w w'.
Proof.
  intros Hr Hn. unfold optimize_history, pruneHistory. rewrite groupWorkflows_greedy.
  set (merges := should_merge isEqual pick _ _ _).
  assert (∀ w w', w ∈ ws → wh_ref w ≠ wh_ref w' → ∃ b, merges w w' = Ok b ∧ (b = true → replaceable published w w')) as Hm.
  { intros w w' Hw Hne. apply optimize_merge; [done|]. by eapply Forall_forall in Hn. }
  assert (∀ i j w w', i ≠ j → ws !! i = Some w → ws !! j = Some w' → wh_ref w ≠ wh_ref w') as Href.
  { intros i j w w' Hij Hw Hw' He. apply Hij. eapply NoDup_lookup; [exact Hr|by rewrite list_lookup_fmap, Hw|].
    rewrite list_lookup_fmap, Hw'. cbn. by rewrite He. }
  destruct (greedy_total merges ws) as (gone & kept & Hg).
  { intros i j w w' Hij Hw Hw'. destruct (Hm w w') as (b & Hb & _); [by eapply list_elem_of_lookup_2|eapply (Href i j); [lia|done|done]|eauto]. }
  rewrite Hg. exists gone, kept. destruct (greedy_grouped _ _ _ _ Hg) as [Hp Ho Hl Hj _].
  split; [done|split; [done|split; [done|]]]. intros w Hw. destruct (Hj w Hw) as (k & Hk & Hmk).
  exists k. split; [done|].
  assert (w ∈ ws) as Hwin by (rewrite <- Hp; apply elem_of_app; by left).
  assert (wh_ref w ≠ wh_ref k) as Hne.
  { pose proof Hr as Hr'. rewrite <- Hp, fmap_app in Hr'. apply NoDup_app in Hr' as (_ & Hd & _). intros He.
    apply (Hd (wh_ref w)); [by apply list_elem_of_fmap_2|]. rewrite He. by apply list_elem_of_fmap_2. }
  destruct (Hm w k Hwin Hne) as (b & Hb & Hc). apply Hc. congruence.
Qed.

(** A change of a node in properties compareNodes does not read, such as disabled, is no change for the diff, for hasNonPositionalChanges and for the optimization, which drops the version with the old value although mergeAdditiveChanges promises that no data is lost. *)
Theorem other_properties_ignored `{!Lodash isEqual pick} connectionsEqual n n' w w' m :
  dn_id n = dn_id n' → dn_parameters n = dn_parameters n' →
  (∀ k, k ∈ propsToCompare → jm_get (dn_props n) k = jm_get (dn_props n') k) →
  wh_nodes w = [n] → wh_nodes w' = [n'] → wh_connections w = wh_connections w' →
  connectionsEqual (wh_connections w) (wh_connections w) = true →
  hasNonPositionalChanges isEqual pick connectionsEqual (wh_nodes w) (wh_nodes w') (wh_connections w) (wh_connections w') = false ∧
  mergeAdditiveChanges isEqual pick w w' (new_change_set isEqual pick w w') m = Ok true.
Proof.
  intros Hid Hpar Hprops Hw Hw' Hc Hce.
  assert (same_node isEqual pick (Some n) (Some n') = true) as Hs.
  { unfold same_node, compareNodes. cbn [fmap option_fmap option_map].
    rewrite (pick_ext (node_object n (dn_parameters n)) (node_object n' (dn_parameters n'))); [apply isEqual_refl|].
    intros k Hk. unfold node_object. cbn. rewrite Hid, Hpar. repeat case_decide; try done. by apply Hprops. }
  assert (compareWorkflowsNodes isEqual pick [n] [n'] = [(dn_id n, mkNodeDiff Eq n)]) as Hd.
  { unfold compareWorkflowsNodes, by_id. cbn. rewrite Hid. unfold jm_has. cbn. rewrite !decide_True by done. cbn. by rewrite Hs. }
  split.
  - unfold hasNonPositionalChanges. rewrite Hw, Hw', Hd, <- Hc. cbn. by rewrite Hce.
  - assert (removed (compareConnections (wh_connections w) (wh_connections w')) = []) as Hr by (by apply removed_nil; rewrite Hc).
    unfold mergeAdditiveChanges, new_change_set. destruct (bool_decide (wh_ref w = wh_ref w')).
    + rewrite Hw. cbn. unfold additive_node. cbn. rewrite Hw'. cbn. rewrite decide_True by done. done.
    + rewrite Hw, Hw', Hd. cbn [cs_nodes cs_connections jm_vals fmap list_fmap all_additive snd]. unfold additive_node. cbn [nd_status nd_node].
      rewrite Hw'. cbn. rewrite decide_True by done. cbn. by rewrite Hr.
Qed.
End Compaction.

(** * Examples *)

(** Functions with the documented behaviour on JSON values. *)
Fixpoint json_eqb (a b : json) {struct a} : bool :=
  match a, b with
  | JNull, JNull => true
  | JBool x, JBool y => bool_decide (x = y)
  | JNum x, JNum y => bool_decide (x = y)
  | JStr x, JStr y => bool_decide (x = y)
  | JArr l, JArr k =>
      (fix go l k := match l, k with [], [] => true | x :: l, y :: k => json_eqb x y && go l k | _, _ => false end) l k
  | JObj l, JObj k =>
      (fix go l k := match l, k with
         | [], [] => true | (i, x) :: l, (j, y) :: k => bool_decide (i = j) && json_eqb x y && go l k | _, _ => false end) l k
  | _, _ => false
  end.

Fixpoint json_eqb_refl (v : json) : json_eqb v v = true.
Proof.
  destruct v as [|b|z|s|l|o]; cbn; try (by apply bool_decide_eq_true); [done| |].
  - induction l as [|x l IH]; [done|]. by rewrite json_eqb_refl, IH.
  - induction o as [|[i x] o IH]; [done|]. by rewrite bool_decide_true, json_eqb_refl, IH.
Qed.

Definition pick_props (o : option (jmap string json)) (keys : list string) : jmap string json :=
  omap (λ k, (k,.) <$> (m ← o; jm_get m k)) keys.

Lemma json_same_refl v : json_same v v.
Proof. intros path. destruct (at_path v path) as [[]|]; by cbn. Qed.

Fixpoint json_eqb_eq (v w : json) {struct v} : json_eqb v w = true → v = w.
Proof.
  destruct v as [|b|z|s|l|o], w as [|b'|z'|s'|l'|o']; cbn; try done; try (intros ->%bool_decide_eq_true; done).
  - intros H. f_equal. revert l' H; induction l as [|x l IH]; intros [|y l']; try done.
    intros [->%json_eqb_eq ->%IH]%andb_true_iff. done.
  - intros H. f_equal. revert o' H; induction o as [|[i x] o IH]; intros [|[j y] o']; try done.
    intros [[->%bool_decide_eq_true ->%json_eqb_eq]%andb_true_iff ->%IH]%andb_true_iff. done.
Qed.

#[export] Instance demo_lodash : Lodash json_eqb pick_props.
Proof.
  split; [apply json_eqb_refl|intros v w ->%json_eqb_eq; apply json_same_refl| |].
  - intros a b keys Hk. unfold pick_props. induction keys as [|k keys IH]; [done|]. cbn. rewrite Hk by left.
    assert (∀ k, k ∈ keys → jm_get a k = jm_get b k) as Hk' by (intros; apply Hk; by right).
    destruct (jm_get b k); cbn; [f_equal|]; exact (IH Hk').
  - intros a keys k. unfold pick_props. induction keys as [|k' keys IH]; [by intros ?%not_elem_of_nil|]. cbn.
    destruct (decide (k' = k)) as [->|Hne].
    + intros _. destruct (jm_get a k) as [v|] eqn:Ha; cbn; [by rewrite decide_True by done|].
      clear IH. induction keys as [|k' keys IH]; [done|]. cbn. destruct (jm_get a k') as [v|] eqn:Hv; cbn; [|done].
      rewrite decide_False by congruence. done.
    + intros [?|Hk]%elem_of_cons; [congruence|]. destruct (jm_get a k'); cbn; [rewrite decide_False by done|]; by apply IH.
Qed.

Definition demo_node (text : string) (disabled : bool) : DiffableNode :=
  mkDiffable "n1" (JObj [("text", JStr text)]) [("name", JStr "Set"); ("disabled", JBool disabled)].
Definition demo_version (i : nat) (time : Z) (text : string) (disabled : bool) : WorkflowHistory :=
  mkHistory i (pretty i) [demo_node text disabled] [] time "ann" None None.
Definition demo_history : list WorkflowHistory :=
  [demo_version 0 0 "he" false; demo_version 1 1000 "hello" false; demo_version 2 2000 "good" false; demo_version 3 3000 "goods" true].

(** The first version goes for the second and the third for the last. *)
Lemma demo_optimized : optimize_history json_eqb pick_props demo_history [] = Some (Ok ["2"; "0"]).
Proof. vm_compute. reflexivity. Qed.

Lemma optimize_history_safe_witness :
  ∃ gone kept, Some (Ok ["2"; "0"]) = Some (Ok (E := DiffError) (wh_versionId <$> gone)) ∧ last kept = last demo_history ∧
    ∀ w, w ∈ gone → ∃ w', w' ∈ kept ∧ replaceable [] w w'.
Proof.
  destruct (optimize_history_safe json_eqb pick_props demo_history []) as (gone & kept & Ho & _ & Hl & Hj).
  - apply (bool_decide_unpack _). vm_compute. reflexivity.
  - repeat apply Forall_cons_2; try apply Forall_nil_2; apply NoDup_singleton.
  - exists gone, kept. split; [|split; [exact Hl|exact Hj]]. rewrite <- Ho. symmetry. exact demo_optimized.
Defined.

Lemma groupWorkflows_spec_witness :
  ∃ r, groupWorkflows json_eqb pick_props demo_history [mergeAdditiveChanges json_eqb pick_props] [] false = Some r.
Proof.
  destruct (groupWorkflows_spec json_eqb pick_props demo_history [mergeAdditiveChanges json_eqb pick_props] [] false) as (r & Hr & _).
  exists r. exact Hr.
Defined.

Lemma other_properties_ignored_witness :
  mergeAdditiveChanges json_eqb pick_props (demo_version 0 0 "a" false) (demo_version 1 9 "a" true)
    (new_change_set json_eqb pick_props (demo_version 0 0 "a" false) (demo_version 1 9 "a" true)) (mkMetaData None) = Ok true.
Proof.
  apply (other_properties_ignored json_eqb pick_props (λ _ _, true) (demo_node "a" false) (demo_node "a" true)
    (demo_version 0 0 "a" false) (demo_version 1 9 "a" true) (mkMetaData None)); try reflexivity.
  intros k Hk. unfold propsToCompare in Hk. repeat (apply elem_of_cons in Hk as [->|Hk]; [reflexivity|]). by apply elem_of_nil in Hk.
Defined.

Lemma parametersAreSuperset_keeps_witness :
  ∃ w, at_path (JObj [("b", JArr [JStr "abc"]); ("a", JNull)]) ["b"; "0"] = Some w ∧ keeps_value (JStr "ac") w.
Proof.
  apply (parametersAreSuperset_keeps (JObj [("a", JNull); ("b", JArr [JStr "ac"])]) _ ["b"; "0"] (JStr "ac")); reflexivity.
Defined.

(** An empty array counts as holding an empty object. *)
Lemma empty_array_superset : parametersAreSuperset (JObj []) (JArr []) = true.
Proof. reflexivity. Qed.
