(* ===== verification/NodeParameters.v ===== *)
(** NodeParameters: which parameters of a node are shown, and their values.

    The part of packages/workflow/src/node-helpers.ts that decides the parameters
    of a node: features, display conditions, the dependencies between parameters,
    the order in which they are resolved and [getNodeParameters], which strips the
    default values of stored parameters or adds them.  lodash's [get] and
    [isEqual], regular expressions and the conversions of JavaScript between
    strings, objects and numbers are parameters. *)

From stdpp Require Import numbers prelude list gmap strings pretty.
From Stdlib Require Import ZArith QArith Qcanon Ascii.
From S2P Require Import Prelude.

#[local] Open Scope nat_scope.

(** * Parameter values *)

(** A parameter value as JavaScript has it, [undefined] included.  Numbers are the
    rationals a double denotes; [NaN] and the infinities are excluded. *)
Inductive value : Type :=
| VUndef
| VNull
| VBool (b : bool)
| VNum (q : Qc)
| VStr (s : string)
| VArr (l : list value)
| VObj (o : jmap string value).

Abbreviation INodeParameters := (jmap string value) (only parsing).

Inductive NodeHelpersError :=
| UserError (message : string)
| TypeError (message : string)
| SyntaxError (pattern : string)
| OutOfFuel.

Definition vtruthy (v : value) : bool :=
  match v with
  | VUndef | VNull => false
  | VBool b => b
  | VNum q => negb (bool_decide (q = 0%Qc))
  | VStr s => negb (bool_decide (s = ""))
  | VArr _ | VObj _ => true
  end.

Definition is_undef (v : value) : bool := match v with VUndef => true | _ => false end.

(** [typeof v === 'object'] *)
Definition typeof_object (v : value) : bool :=
  match v with VNull | VArr _ | VObj _ => true | _ => false end.

(** [===] (and the test of [includes]) between a primitive and any value: two
    different objects are never the same. *)
Definition same_value (v w : value) : bool :=
  match v, w with
  | VUndef, VUndef | VNull, VNull => true
  | VBool a, VBool b => Bool.eqb a b
  | VNum p, VNum q => bool_decide (p = q)
  | VStr s, VStr t => bool_decide (s = t)
  | _, _ => false
  end.

(** [v ?? d] *)
Definition nullish_or (v d : value) : value := match v with VUndef | VNull => d | _ => v end.

(** [v.charAt(0) === '='] of a string. *)
Definition isExpression (v : value) : bool :=
  match v with VStr s => starts_with "=" s | _ => false end.

(** The own property [k] of [v]; reading a property of [null] or [undefined] throws. *)
Definition index_of (n : nat) (k : string) : option nat :=
  fst <$> list_find (λ i, pretty i = k) (seq 0 n).

Definition char_at (s : string) (i : nat) : value :=
  match String.get i s with Some c => VStr (String c "") | None => VUndef end.

Definition prop_of (v : value) (k : string) : value :=
  match v with
  | VObj o => default VUndef (jm_get o k)
  | VArr l =>
      if decide (k = "length") then VNum (Q2Qc (inject_Z (Z.of_nat (length l))))
      else default VUndef (i ← index_of (length l) k; l !! i)
  | VStr s =>
      if decide (k = "length") then VNum (Q2Qc (inject_Z (Z.of_nat (String.length s))))
      else default VUndef (char_at s <$> index_of (String.length s) k)
  | _ => VUndef
  end.

Definition member (v : value) (k : string) : result NodeHelpersError value :=
  match v with
  | VUndef | VNull => Err (TypeError "Cannot read properties")
  | _ => Ok (prop_of v k)
  end.

(** [Object.keys(v)] *)
Definition object_keys (v : value) : result NodeHelpersError (list string) :=
  match v with
  | VUndef | VNull => Err (TypeError "Cannot convert undefined or null to object")
  | VObj o => Ok (jm_keys o)
  | VArr l => Ok (pretty <$> seq 0 (length l))
  | VStr s => Ok (pretty <$> seq 0 (String.length s))
  | _ => Ok []
  end.

(** [{ ...o, ...v }] *)
Definition spread (o : jmap string value) (v : value) : jmap string value :=
  match object_keys v with
  | Ok ks => foldl (λ o k, jm_set o k (prop_of v k)) o ks
  | Err _ => o
  end.

(** The values [for (const x of v)] goes through. *)
Definition iterate (v : value) : result NodeHelpersError (list value) :=
  match v with
  | VArr l => Ok l
  | VStr s => Ok (char_at s <$> seq 0 (String.length s))
  | _ => Err (TypeError "is not iterable")
  end.

(** * Node properties *)

Inductive DisplayCondition :=
| CEq (v : value)
| CNot (v : value)
| CGte (v : value)
| CLte (v : value)
| CGt (v : value)
| CLt (v : value)
| CBetween (from to : value)
| CStartsWith (s : string)
| CEndsWith (s : string)
| CIncludes (s : string)
| CRegex (s : string)
| CExists.

(** [NodeParameterValue | DisplayCondition]; the value is a primitive. *)
Inductive Condition :=
| CondValue (v : value)
| Cnd (c : DisplayCondition).

Record IDisplayOptions := mkDisplayOptions {
  show : option (jmap string (list Condition));
  hide : option (jmap string (list Condition));
}.

(** What [displayParameter] reads of a property, a credential or an option. *)
Record Displayable := mkDisplayable {
  displayOptions : option IDisplayOptions;
  disabledOptions : option IDisplayOptions;
}.

Inductive DisplayKey := KeyDisplayOptions | KeyDisabledOptions.

Definition display_of (d : Displayable) (key : DisplayKey) : option IDisplayOptions :=
  match key with KeyDisplayOptions => displayOptions d | KeyDisabledOptions => disabledOptions d end.

(** A property of a node type.  The entries of [options] are properties (of a
    collection), collections (of a fixedCollection, with [values]) or plain options
    (with [value] and [action]); as in JavaScript one record serves for all three. *)
Inductive INodeProperties := mkProperty {
  p_displayName : string;
  p_name : string;
  p_type : string;
  p_default : value;
  p_display : Displayable;
  p_noDataExpression : bool;
  p_multipleValues : option bool;
  p_options : option (list INodeProperties);
  p_values : option (list INodeProperties);
}.

(** What is read of a node type description. *)
Record DescriptionInfo := mkDescriptionInfo {
  desc_name : string;
  desc_features : option (jmap string (list Condition));
}.

(** * Conditions *)

(** [l.some(f)] and [l.every(f)] for a callback that may throw. *)
Fixpoint some_res {A E} (f : A → result E bool) (l : list A) : result E bool :=
  match l with
  | [] => Ok false
  | x :: l' => b ← f x; if b : bool then Ok true else some_res f l'
  end.

Fixpoint every_res {A E} (f : A → result E bool) (l : list A) : result E bool :=
  match l with
  | [] => Ok true
  | x :: l' => b ← f x; if b : bool then every_res f l' else Ok false
  end.

(** [s.includes(t)] of strings. *)
Fixpoint str_includes (t s : string) : bool :=
  String.prefix t s || match s with EmptyString => false | String _ s' => str_includes t s' end.

Section NodeParameters.
(** lodash [get] and [isEqual]; [new RegExp(pattern).test(s)], [None] when the
    pattern is not valid; [String(o)] of an object
    or array; the number a string denotes, [None] for [NaN]. *)
Context (get : value → string → value) (isEqual : value → value → bool).
Context (regex_test : string → string → option bool).
Context (object_to_string : value → string) (string_to_number : string → option Qc).

(** The operands of a relational operator, and its result. *)
Definition to_primitive (v : value) : value :=
  match v with VArr _ | VObj _ => VStr (object_to_string v) | _ => v end.

Definition to_number (v : value) : option Qc :=
  match v with
  | VUndef => None
  | VNull => Some 0%Qc
  | VBool b => Some (if b then 1%Qc else 0%Qc)
  | VNum q => Some q
  | VStr s => string_to_number s
  | VArr _ | VObj _ => string_to_number (object_to_string v)
  end.

Definition compare_values (v w : value) : option comparison :=
  match to_primitive v, to_primitive w with
  | VStr s, VStr t => Some (String.compare s t)
  | v', w' => p ← to_number v'; q ← to_number w'; Some (p ?= q)%Qc
  end.

Definition js_ge (v w : value) : bool :=
  match compare_values v w with Some Lt | None => false | _ => true end.
Definition js_le (v w : value) : bool :=
  match compare_values v w with Some Gt | None => false | _ => true end.
Definition js_gt (v w : value) : bool :=
  match compare_values v w with Some Gt => true | _ => false end.
Definition js_lt (v w : value) : bool :=
  match compare_values v w with Some Lt => true | _ => false end.

(** The test of one value against the condition [_cnd]. *)
Definition condition_holds (c : DisplayCondition) (propertyValue : value)
    : result NodeHelpersError bool :=
  let with_string (f : string → result NodeHelpersError bool) :=
    match propertyValue with VStr s => f s | _ => Ok false end in
  match c with
  | CEq t => Ok (isEqual propertyValue t)
  | CNot t => Ok (negb (isEqual propertyValue t))
  | CGte t => Ok (js_ge propertyValue t)
  | CLte t => Ok (js_le propertyValue t)
  | CGt t => Ok (js_gt propertyValue t)
  | CLt t => Ok (js_lt propertyValue t)
  | CBetween from to => Ok (js_ge propertyValue from && js_le propertyValue to)
  | CIncludes t => with_string (λ s, Ok (str_includes t s))
  | CStartsWith t => with_string (λ s, Ok (starts_with t s))
  | CEndsWith t => with_string (λ s, Ok (ends_with t s))
  | CRegex t => with_string (λ s, of_option (SyntaxError t) (regex_test t s))
  | CExists =>
      Ok (negb (same_value propertyValue VNull) && negb (is_undef propertyValue)
          && negb (same_value propertyValue (VStr "")))
  end.

Definition checkConditions (conditions : list Condition) (actualValues : list value)
    : result NodeHelpersError bool :=
  some_res (λ condition,
    match condition with
    | Cnd c =>
        if decide (actualValues = []) then
          Ok (match c with CNot _ => true | _ => false end)
        else every_res (condition_holds c) actualValues
    | CondValue v => Ok (existsb (λ a, same_value v a) actualValues)
    end) conditions.

(** * Features and property values *)

Definition evaluateFeature (featureDef : list Condition) (nodeVersion : Q) : result NodeHelpersError bool :=
  checkConditions featureDef [VNum (Q2Qc nodeVersion)].

Definition getNodeFeatures (featuresDef : option (jmap string (list Condition))) (nodeVersion : Q)
    : result NodeHelpersError (jmap string bool) :=
  match featuresDef with
  | None => Ok []
  | Some defs =>
      foldM (λ features '(featureName, condition),
        b ← evaluateFeature condition nodeVersion; Ok (jm_set features featureName b)) [] defs
  end.

(** The node is given by its [typeVersion], and may be [null]. *)
Context (node : option Q) (nodeTypeDescription : option DescriptionInfo).

(** [node?.typeVersion || 0] and its truthiness. *)
Definition type_version : Q := default 0%Q node.
Definition has_version : bool :=
  match node with Some q => negb (Qeq_bool q 0%Q) | None => false end.

(** The value of a resource locator is what it holds; a single value is a list of one. *)
Definition property_values (v : value) : result NodeHelpersError (list value) :=
  let v := match v with
           | VObj o => if vtruthy (prop_of v "__rl") then prop_of v "value" else v
           | _ => v
           end in
  Ok (match v with VArr l => l | _ => [v] end).

Definition enabled_features (features : jmap string bool) : list value :=
  (λ f, VStr f.1) <$> filter (λ f, f.2 = true) features.

Definition getPropertyValues (nodeValues : value) (propertyName : string) (nodeValuesRoot : value)
    : result NodeHelpersError (list value) :=
  if starts_with "/" propertyName then
    property_values (get nodeValuesRoot (String.substring 1 (String.length propertyName - 1) propertyName))
  else if decide (propertyName = "@version") then property_values (VNum (Q2Qc type_version))
  else if decide (propertyName = "@tool") then
    property_values (VBool (match nodeTypeDescription with
                   | Some d => ends_with "Tool" (desc_name d)
                   | None => false
                   end))
  else if decide (propertyName = "@feature") then
    match nodeTypeDescription ≫= desc_features with
    | Some defs =>
        if has_version then
          features ← getNodeFeatures (Some defs) type_version;
          Ok (enabled_features features)
        else Ok []
    | None => Ok []
    end
  else property_values (get nodeValues propertyName).

(** * Display *)

Definition is_expression_list (values : list value) : bool := existsb isExpression values.

(** The rules of [show] in order: [Some b] when the loop returns [b]. *)
Fixpoint show_rules (nodeValues nodeValuesRoot : value) (rules : jmap string (list Condition))
    : result NodeHelpersError (option bool) :=
  match rules with
  | [] => Ok None
  | (propertyName, conditions) :: rules' =>
      values ← getPropertyValues nodeValues propertyName nodeValuesRoot;
      if is_expression_list values then Ok (Some true)
      else
        b ← checkConditions conditions values;
        if b : bool then show_rules nodeValues nodeValuesRoot rules' else Ok (Some false)
  end.

(** Whether a rule of [hide] applies. *)
Fixpoint hide_rules (nodeValues nodeValuesRoot : value) (rules : jmap string (list Condition))
    : result NodeHelpersError bool :=
  match rules with
  | [] => Ok false
  | (propertyName, conditions) :: rules' =>
      values ← getPropertyValues nodeValues propertyName nodeValuesRoot;
      b ← (if decide (values = []) then Ok false else checkConditions conditions values);
      if b : bool then Ok true else hide_rules nodeValues nodeValuesRoot rules'
  end.

Definition displayParameter (nodeValues : value) (parameter : Displayable) (nodeValuesRoot : value)
    (displayKey : DisplayKey) : result NodeHelpersError bool :=
  match display_of parameter displayKey with
  | None => Ok true
  | Some options =>
      let nodeValuesRoot := if vtruthy nodeValuesRoot then nodeValuesRoot else nodeValues in
      shown ← show_rules nodeValues nodeValuesRoot (default [] (show options));
      match shown with
      | Some b => Ok b
      | None =>
          hidden ← hide_rules nodeValues nodeValuesRoot (default [] (hide options));
          Ok (negb hidden)
      end
  end.

(** [path.split('.')[0] === 'parameters'] *)
Fixpoint first_segment (path : string) : string :=
  match path with
  | EmptyString => ""
  | String c path' => if decide (c = "."%char) then "" else String c (first_segment path')
  end.

Definition displayParameterPath (nodeValues : value) (parameter : Displayable) (path : string)
    (displayKey : DisplayKey) : result NodeHelpersError bool :=
  let resolvedNodeValues := if decide (path = "") then nodeValues else get nodeValues path in
  let nodeValuesRoot :=
    if decide (first_segment path = "parameters") then get nodeValues "parameters" else nodeValues in
  displayParameter resolvedNodeValues parameter nodeValuesRoot displayKey.

(** * Dependencies between parameters *)

Abbreviation IParameterDependencies := (jmap string (list string)) (only parsing).

(** The names the rules of [displayOptions] mention; those of [show] come first here, and
    their order does not matter, since only membership is asked for. *)
Definition rule_names (d : IDisplayOptions) : list string :=
  jm_keys (default [] (show d)) ++ jm_keys (default [] (hide d)).

Definition add_dependency (names : list string) (parameterName : string) : list string :=
  if decide (parameterName ∈ names) then names
  else if starts_with "@" parameterName then names
  else names ++ [parameterName].

Definition getParameterDependencies (nodePropertiesArray : list INodeProperties) : IParameterDependencies :=
  foldl (λ dependencies nodeProperties,
    let name := p_name nodeProperties in
    let names := default [] (jm_get dependencies name) in
    jm_set dependencies name
      (match displayOptions (p_display nodeProperties) with
       | None => names
       | Some d => foldl add_dependency names (rule_names d)
       end)) [] nodePropertiesArray.

(** * The order of resolution *)

Record ResolveState := mkResolve {
  executionOrder : list nat;
  indexToResolve : list nat;
  resolvedParameters : list string;
  lastIndexLength : nat;
  lastIndexReduction : Z;
  iterations : Z;
}.

Definition resolve_error : NodeHelpersError :=
  UserError "Could not resolve parameter dependencies. Max iterations reached!".

(** The loop over the dependencies: every missing one puts the index at the end of
    the queue again, since [continue] goes on with the next dependency. *)
Definition requeue (resolved : list string) (index : nat) (queue : list nat) (dependencies : list string)
    : list nat :=
  foldl (λ queue dependency,
    if decide (dependency ∈ resolved) then queue
    else if starts_with "/" dependency then queue
    else queue ++ [index]) queue dependencies.

(** One iteration, on the queue [index :: queue]. *)
Definition resolve_step (nodePropertiesArray : list INodeProperties) (parameterDependencies : IParameterDependencies)
    (s : ResolveState) (index : nat) (queue : list nat) : result NodeHelpersError ResolveState :=
  let iterations := (iterations s + 1)%Z in
  property ← of_option (TypeError "Cannot read properties") (nodePropertiesArray !! index);
  dependencies ← of_option (TypeError "Cannot read properties") (jm_get parameterDependencies (p_name property));
  let executionOrder := executionOrder s ++ [index] in
  let resolvedParameters' := resolvedParameters s ++ [p_name property] in
  if decide (dependencies = []) then
    Ok (mkResolve executionOrder queue resolvedParameters' (lastIndexLength s) (lastIndexReduction s) iterations)
  else
    let queue := requeue (resolvedParameters s) index queue dependencies in
    let lastIndexReduction :=
      if decide (length queue < lastIndexLength s) then iterations else lastIndexReduction s in
    if decide (lastIndexReduction + Z.of_nat (length nodePropertiesArray) < iterations)%Z then Err resolve_error
    else Ok (mkResolve executionOrder queue resolvedParameters' (length queue) lastIndexReduction iterations).

Fixpoint resolve_loop (fuel : nat) (nodePropertiesArray : list INodeProperties)
    (parameterDependencies : IParameterDependencies) (s : ResolveState) : result NodeHelpersError (list nat) :=
  match indexToResolve s with
  | [] => Ok (executionOrder s)
  | index :: queue =>
      match fuel with
      | O => Err OutOfFuel
      | S fuel =>
          s ← resolve_step nodePropertiesArray parameterDependencies s index queue;
          resolve_loop fuel nodePropertiesArray parameterDependencies s
      end
  end.

(** Enough iterations: a first pass, one more over what it queued, and the limit. *)
Definition resolve_fuel (nodePropertiesArray : list INodeProperties) (parameterDependencies : IParameterDependencies) : nat :=
  2 * length nodePropertiesArray + jm_sum length parameterDependencies * length nodePropertiesArray + 4.

Definition resolve_init (n : nat) : ResolveState := mkResolve [] (seq 0 n) [] n (-1) 0.

Definition getParameterResolveOrder (nodePropertiesArray : list INodeProperties)
    (parameterDependencies : IParameterDependencies) : result NodeHelpersError (list nat) :=
  resolve_loop (resolve_fuel nodePropertiesArray parameterDependencies) nodePropertiesArray
    parameterDependencies (resolve_init (length nodePropertiesArray)).

(** * The parameters of a node *)

Record GetNodeParametersOptions := mkOptions {
  onlySimpleTypes : bool;
  dataIsResolved : bool;
  o_nodeValuesRoot : value;
  parentType : option string;
  o_parameterDependencies : option IParameterDependencies;
}.

(** [options ?? {}] *)
Definition no_options : GetNodeParametersOptions := mkOptions false false VUndef None None.

(** The names that more than one property has. *)
Definition duplicate_names (nodePropertiesArray : list INodeProperties) : list string :=
  (foldl (λ '(names, duplicates) nodeProperties,
    let name := p_name nodeProperties in
    if decide (name ∈ names) then (names, js_add duplicates name) else (names ++ [name], duplicates))
    ([], []) nodePropertiesArray).2.

(** [nodeParameters] and [nodeParametersFull], or the value an early [return] gives. *)
Record Collected := mkCollected {
  nodeParameters : INodeParameters;
  nodeParametersFull : INodeParameters;
}.

Inductive Flow :=
| Continue (c : Collected)
| Return (v : value).

(** [nodeParameters[name] = v], and [nodeParametersFull[name] = nodeParameters[name]]. *)
Definition set_only (c : Collected) (name : string) (v : value) : Collected :=
  mkCollected (jm_set (nodeParameters c) name v) (nodeParametersFull c).

Definition copy_full (c : Collected) (name : string) : Collected :=
  mkCollected (nodeParameters c)
    (jm_set (nodeParametersFull c) name (default VUndef (jm_get (nodeParameters c) name))).

Definition set_both (c : Collected) (name : string) (v : value) : Collected :=
  copy_full (set_only c name v) name.

(** The value of a filter: a missing combinator and missing options are filled in.
    A filter is an object; a property set on an array is not represented. *)
Definition default_filter_options : INodeParameters :=
  [("caseSensitive", VBool true); ("leftValue", VStr ""); ("typeValidation", VStr "strict");
   ("version", VNum 1%Qc)].

Definition patch_filter (v : value) : value :=
  match v with
  | VObj filter =>
      let filter :=
        match prop_of v "combinator" with
        | VUndef | VNull => jm_set filter "combinator" (VStr "and")
        | _ => filter
        end in
      VObj (jm_set filter "options" (VObj (spread default_filter_options (prop_of v "options"))))
  | _ => v
  end.

(** The value of a simple property when defaults are returned. *)
Definition value_or_default (nodeProperties : INodeProperties) (stored : value) : value :=
  if decide (p_type nodeProperties ∈ ["boolean"; "number"; "options"]) then
    if is_undef stored then p_default nodeProperties else stored
  else if bool_decide (p_type nodeProperties = "resourceLocator") && typeof_object (p_default nodeProperties) then
    if is_undef stored then VObj (spread [("__rl", VBool true)] (p_default nodeProperties)) else stored
  else if bool_decide (p_type nodeProperties = "filter") && typeof_object stored && negb (same_value stored VNull) then
    patch_filter stored
  else nullish_or stored (p_default nodeProperties).

(** Whether a stored value is kept when only values other than the default are returned. *)
Definition is_kept (parent : option string) (nodeProperties : INodeProperties) (stored : value) : bool :=
  (negb (same_value stored (p_default nodeProperties)) && negb (typeof_object stored)) ||
  (typeof_object stored && negb (isEqual stored (p_default nodeProperties))) ||
  (negb (is_undef stored) && bool_decide (parent = Some "collection")).

Definition strip_expression (nodeProperties : INodeProperties) (c : Collected) : Collected :=
  let name := p_name nodeProperties in
  match jm_get (nodeParameters c) name with
  | Some (VStr (String _ s) as v) =>
      if p_noDataExpression nodeProperties && isExpression v then set_both c name (VStr s) else c
  | _ => c
  end.

(** The simple part of an iteration: [None] when it ends with [continue]. *)
Definition simple_property (returnDefaults : bool) (parent : option string)
    (nodeProperties : INodeProperties) (stored : value) (c : Collected) : Collected * bool :=
  let name := p_name nodeProperties in
  if returnDefaults then
    (strip_expression nodeProperties (set_both c name (value_or_default nodeProperties stored)), true)
  else if is_kept parent nodeProperties stored then (set_both c name stored, false)
  else (strip_expression nodeProperties c, true).

Section Nested.
(** The recursive call, on the properties of a lower level. *)
Context (self : list INodeProperties → value → bool → bool → GetNodeParametersOptions → result NodeHelpersError value).
Context (returnDefaults returnNoneDisplayed : bool).

Definition nested_options (root : value) (type : string) : GetNodeParametersOptions :=
  mkOptions false false root (Some type) None.

Definition collection_property (nodeProperties : INodeProperties) (stored root : value) (c : Collected)
    : result NodeHelpersError Collected :=
  let name := p_name nodeProperties in
  if decide (p_multipleValues nodeProperties = Some true) then
    let c :=
      if negb (is_undef stored) then set_only c name stored
      else if returnDefaults then
        set_only c name (match p_default nodeProperties with VArr l => VArr l | _ => VArr [] end)
      else c in
    Ok (copy_full c name)
  else if negb (is_undef stored) then
    options ← of_option (TypeError "is not iterable") (p_options nodeProperties);
    tempNodeParameters ← self options stored returnDefaults returnNoneDisplayed
                           (nested_options root (p_type nodeProperties));
    Ok (match tempNodeParameters with VNull => c | v => set_both c name v end)
  else if returnDefaults then Ok (set_both c name (p_default nodeProperties))
  else Ok c.

(** [nodeProperties.options!.find((option) => option.name === itemName)] *)
Definition find_option (nodeProperties : INodeProperties) (itemName : string)
    : result NodeHelpersError (option INodeProperties) :=
  options ← of_option (TypeError "Cannot read properties") (p_options nodeProperties);
  Ok (snd <$> list_find (λ o, p_name o = itemName) options).

(** The recursive call on the values of an item. *)
Definition item_parameters (nodeProperties nodePropertyOptions : INodeProperties) (root nodeValue : value)
    : result NodeHelpersError value :=
  values ← of_option (TypeError "is not iterable") (p_values nodePropertyOptions);
  self values nodeValue returnDefaults returnNoneDisplayed (nested_options root (p_type nodeProperties)).

(** The items of one collection of a fixedCollection that allows several. *)
Definition fixed_items (nodeProperties nodePropertyOptions : INodeProperties) (root : value)
    (items : list value) : result NodeHelpersError (list value) :=
  foldM (λ tempArrayValue nodeValue,
    tempValue ← item_parameters nodeProperties nodePropertyOptions root nodeValue;
    Ok (match tempValue with VNull => tempArrayValue | v => tempArrayValue ++ [v] end)) [] items.

(** [collectionValues] and [hadAnyVisibleFields]. *)
Abbreviation FixedState := (INodeParameters * bool)%type (only parsing).

Definition fixed_multiple (nodeProperties : INodeProperties) (root propertyValues : value)
    (s : FixedState) (itemName : string) : result NodeHelpersError FixedState :=
  match propertyValues with
  | VObj o =>
      found ← find_option nodeProperties itemName;
      match found with
      | None => Ok s
      | Some nodePropertyOptions =>
          items ← iterate (prop_of propertyValues itemName);
          tempArrayValue ← fixed_items nodeProperties nodePropertyOptions root items;
          Ok (jm_set s.1 itemName (VArr tempArrayValue), s.2)
      end
  | _ => Ok s
  end.

(** Whether the stored values of an item differ from the defaults of its fields. *)
Definition has_non_default (fields : list INodeProperties) (itemNodeValues : value) : result NodeHelpersError bool :=
  if vtruthy itemNodeValues then
    keys ← object_keys itemNodeValues;
    Ok (existsb (λ key,
      match list_find (λ f, p_name f = key) fields with
      | Some (_, field) => negb (isEqual (prop_of itemNodeValues key) (p_default field))
      | None => false
      end) keys)
  else Ok false.

(** The single item: the collected values and [hadVisibleFields]. *)
Definition fixed_item (nodeProperties : INodeProperties) (root stored : value)
    (itemName : string) (nodePropertyOptions : INodeProperties) : result NodeHelpersError (INodeParameters * bool) :=
  itemNodeValues ← member stored itemName;
  tempValue ← item_parameters nodeProperties nodePropertyOptions root itemNodeValues;
  match tempValue with
  | VNull => Ok ([], false)
  | _ =>
      keys ← object_keys tempValue;
      if decide (keys = []) then
        hasNonDefaultValues ← has_non_default (default [] (p_values nodePropertyOptions)) itemNodeValues;
        Ok (spread [] tempValue, negb hasNonDefaultValues)
      else Ok (spread [] tempValue, true)
  end.

Definition fixed_single (nodeProperties : INodeProperties) (root stored propertyValues : value)
    (s : FixedState) (itemName : string) : result NodeHelpersError FixedState :=
  found ← find_option nodeProperties itemName;
  '(tempNodeParameters, hadVisibleFields) ←
    match found with
    | None => Ok ([], false)
    | Some nodePropertyOptions => fixed_item nodeProperties root stored itemName nodePropertyOptions
    end;
  Ok (if negb (bool_decide (jm_keys tempNodeParameters = [])) ||
         (negb returnDefaults && hadVisibleFields && vtruthy propertyValues
          && negb (is_undef (prop_of propertyValues itemName)))
      then (jm_set s.1 itemName (VObj tempNodeParameters), s.2 || hadVisibleFields)
      else (s.1, s.2 || hadVisibleFields)).

Definition fixedCollection_property (nodeProperties : INodeProperties) (nodeValues stored root : value)
    (c : Collected) : result NodeHelpersError Flow :=
  let name := p_name nodeProperties in
  let propertyValues := if returnDefaults && is_undef stored then p_default nodeProperties else stored in
  itemNames ← (if vtruthy propertyValues then object_keys propertyValues else Ok []);
  if negb returnDefaults && bool_decide (p_multipleValues nodeProperties = Some false)
     && vtruthy propertyValues && bool_decide (itemNames = [])
  then Ok (Return nodeValues)
  else
    '(collectionValues, hadAnyVisibleFields) ←
      foldM (if decide (p_multipleValues nodeProperties = Some true)
             then fixed_multiple nodeProperties root propertyValues
             else fixed_single nodeProperties root stored propertyValues) ([], false) itemNames;
    let c :=
      if negb returnDefaults && hadAnyVisibleFields && bool_decide (p_multipleValues nodeProperties = Some false)
         && bool_decide (jm_keys collectionValues = [])
         && match propertyValues with VObj _ => true | _ => false end
         && negb (bool_decide (itemNames = []))
      then set_only c name (VObj (foldl (λ o key, jm_set o key (VObj [])) [] itemNames))
      else c in
    Ok (Continue (if negb (bool_decide (jm_keys collectionValues = [])) || returnDefaults
                  then set_both c name (VObj collectionValues) else c)).

End Nested.

(** One iteration over the properties.  [displayCheck] and [root] are [None] when they
    are the object [nodeParametersFull] itself, which the loop goes on filling. *)
Definition parameter_step
    (self : list INodeProperties → value → bool → bool → GetNodeParametersOptions → result NodeHelpersError value)
    (nodeValues : value) (returnDefaults returnNoneDisplayed : bool) (options : GetNodeParametersOptions)
    (displayCheck root : option value) (duplicateParameterNames : list string)
    (c : Collected) (nodeProperties : INodeProperties) : result NodeHelpersError Flow :=
  let name := p_name nodeProperties in
  let stored := prop_of nodeValues name in
  let displayed (c : Collected) :=
    let full := VObj (nodeParametersFull c) in
    displayParameter (default full displayCheck) (p_display nodeProperties) (default full root) KeyDisplayOptions in
  if negb (vtruthy nodeValues) ||
     (is_undef stored && (negb returnDefaults || bool_decide (parentType options = Some "collection")))
  then Ok (Continue c)
  else
    shown ← (if returnNoneDisplayed then Ok true else displayed c);
    if negb shown then Ok (Continue c)
    else
      '(c, go_on) ←
        (if decide (p_type nodeProperties ∈ ["collection"; "fixedCollection"]) then Ok (c, true)
         else
           visible ← (if decide (name ∈ duplicateParameterNames) then displayed c else Ok true);
           Ok (if visible : bool then simple_property returnDefaults (parentType options) nodeProperties stored c
               else (c, false)));
      if negb go_on || onlySimpleTypes options then Ok (Continue c)
      else
        let root := default (VObj (nodeParametersFull c)) root in
        if decide (p_type nodeProperties = "collection") then
          c ← collection_property self returnDefaults returnNoneDisplayed nodeProperties stored root c;
          Ok (Continue c)
        else if decide (p_type nodeProperties = "fixedCollection") then
          fixedCollection_property self returnDefaults returnNoneDisplayed nodeProperties nodeValues stored root c
        else Ok (Continue c).

Fixpoint parameter_loop (step : Collected → INodeProperties → result NodeHelpersError Flow)
    (nodePropertiesArray : list INodeProperties) (c : Collected) (order : list nat) : result NodeHelpersError value :=
  match order with
  | [] => Ok (VObj (nodeParameters c))
  | parameterIndex :: order =>
      nodeProperties ← of_option (TypeError "Cannot read properties") (nodePropertiesArray !! parameterIndex);
      flow ← step c nodeProperties;
      match flow with
      | Continue c => parameter_loop step nodePropertiesArray c order
      | Return v => Ok v
      end
  end.

(** The fuel bounds the depth of the recursive calls. *)
Fixpoint getNodeParameters (fuel : nat) (nodePropertiesArray : list INodeProperties) (nodeValues : value)
    (returnDefaults returnNoneDisplayed : bool) (options : GetNodeParametersOptions)
    : result NodeHelpersError value :=
  match fuel with
  | O => Err OutOfFuel
  | S fuel =>
      let parameterDependencies :=
        default (getParameterDependencies nodePropertiesArray) (o_parameterDependencies options) in
      displayCheck ←
        (if negb (dataIsResolved options) && negb returnNoneDisplayed then
           v ← getNodeParameters fuel nodePropertiesArray nodeValues true true
                 (mkOptions true true (o_nodeValuesRoot options) (parentType options) (Some parameterDependencies));
           Ok (Some v)
         else Ok None);
      let root := if vtruthy (o_nodeValuesRoot options) then Some (o_nodeValuesRoot options) else displayCheck in
      order ← getParameterResolveOrder nodePropertiesArray parameterDependencies;
      parameter_loop
        (parameter_step (getNodeParameters fuel) nodeValues returnDefaults returnNoneDisplayed options
           displayCheck root (duplicate_names nodePropertiesArray))
        nodePropertiesArray (mkCollected [] []) order
  end.

End NodeParameters.
