(* ===== verification/NodeParametersProofs.v ===== *)
(** NodeParametersProofs: the resolution order and the values of node parameters. *)

From Stdlib Require Import ZArith QArith Qcanon Ascii Lia.
From stdpp Require Import numbers prelude list gmap strings pretty.
From S2P Require Import Prelude NodeParameters.

#[local] Open Scope nat_scope.

(** * The order of resolution *)

Section Order.
Context (props : list INodeProperties) (deps : jmap string (list string)).
Implicit Types (s : ResolveState) (i : nat) (q : list nat).

Definition names_of : list string := p_name <$> props.

(** A dependency of the property at [i] that is not at the root. *)
Definition local_dep (i : nat) (d : string) : Prop :=
  ∃ p ds, props !! i = Some p ∧ jm_get deps (p_name p) = Some ds ∧ d ∈ ds ∧ starts_with "/" d = false.

Definition missing (resolved ds : list string) : list string :=
  filter (λ d, d ∉ resolved ∧ starts_with "/" d = false) ds.

Lemma requeue_eq resolved i q ds :
  requeue resolved i q ds = q ++ replicate (length (missing resolved ds)) i.
Proof.
  unfold requeue. revert q. induction ds as [|d ds IH]; intros q; [by rewrite app_nil_r|].
  cbn [foldl]. rewrite IH. unfold missing. rewrite filter_cons. destruct (decide (d ∈ resolved)).
  - by rewrite decide_False by naive_solver.
  - destruct (starts_with "/" d).
    + by rewrite decide_False by naive_solver.
    + rewrite decide_True by done. cbn. by rewrite <-app_assoc.
Qed.

Lemma requeue_length resolved i q ds : length (requeue resolved i q ds) ≤ length q + length ds.
Proof.
  rewrite requeue_eq, length_app, length_replicate. unfold missing.
  pose proof (length_filter (λ d, d ∉ resolved ∧ starts_with "/" d = false) ds). lia.
Qed.

(** One iteration, whichever branch it takes. *)
Lemma resolve_step_Ok s i q s' :
  resolve_step props deps s i q = Ok s' →
  ∃ p ds, props !! i = Some p ∧ jm_get deps (p_name p) = Some ds ∧
    executionOrder s' = executionOrder s ++ [i] ∧
    resolvedParameters s' = resolvedParameters s ++ [p_name p] ∧
    indexToResolve s' = requeue (resolvedParameters s) i q ds ∧
    iterations s' = (iterations s + 1)%Z ∧
    (lastIndexReduction s' = lastIndexReduction s ∨ lastIndexReduction s' = iterations s') ∧
    (ds ≠ [] → lastIndexLength s' = length (indexToResolve s') ∧
       (iterations s' <= lastIndexReduction s' + Z.of_nat (length props))%Z ∧
       (lastIndexLength s ≤ length (indexToResolve s') → lastIndexReduction s' = lastIndexReduction s)).
Proof.
  unfold resolve_step. intros (p & Hp%of_option_Ok & (ds & Hds'%of_option_Ok & H)%bind_Ok)%bind_Ok.
  exists p, ds. do 2 (split; [done|]). destruct (decide (ds = [])) as [->|Hds].
  - injection H as <-. cbn. repeat split; auto; done.
  - cbn zeta in H. destruct (decide (_ < iterations s + 1)%Z) as [|Hlt]; [done|]. injection H as <-. cbn.
    repeat split; auto.
    + case_decide; auto.
    + lia.
    + intros ?. by rewrite decide_False by lia.
Qed.

Lemma resolve_step_fuel s i q : resolve_step props deps s i q ≠ Err OutOfFuel.
Proof.
  unfold resolve_step. destruct (props !! i) as [p|]; cbn; [|done].
  destruct (jm_get deps (p_name p)) as [ds|]; cbn; [|done].
  destruct (decide (ds = [])); [done|]. by case_decide.
Qed.

(** The last phase: every index left has a dependency nothing resolves. *)
Definition stuck (resolved : list string) (i : nat) : Prop :=
  ∃ p ds, props !! i = Some p ∧ jm_get deps (p_name p) = Some ds ∧ missing resolved ds ≠ [].

Definition all_resolved (resolved : list string) : Prop := ∀ d, d ∈ resolved ↔ d ∈ names_of.

Lemma all_resolved_snoc resolved i p :
  props !! i = Some p → all_resolved resolved → all_resolved (resolved ++ [p_name p]).
Proof.
  intros Hp H d. rewrite elem_of_app, list_elem_of_singleton, (H d). split; [|auto].
  intros [?| ->]; [done|]. apply list_elem_of_fmap. exists p. split; [done|]. by eapply list_elem_of_lookup_2.
Qed.

Lemma missing_ext r r' ds : (∀ d, d ∈ r ↔ d ∈ r') → missing r ds = missing r' ds.
Proof. intros H. apply list_filter_iff. intros d. specialize (H d). tauto. Qed.

Lemma stuck_ext r r' i : all_resolved r → all_resolved r' → stuck r i → stuck r' i.
Proof.
  intros Hr Hr' (p & ds & Hp & Hds & Hm). exists p, ds. do 2 (split; [done|]).
  rewrite (missing_ext r' r); [done|]. intros d. by rewrite (Hr d), (Hr' d).
Qed.

Lemma stuck_Forall r r' l : all_resolved r → all_resolved r' → Forall (stuck r) l → Forall (stuck r') l.
Proof. intros Hr Hr' H. rewrite Forall_forall in *. intros i Hi. by eapply stuck_ext; [exact Hr|..|apply H]. Qed.

Lemma phase_stuck fuel s :
  all_resolved (resolvedParameters s) → Forall (stuck (resolvedParameters s)) (indexToResolve s) →
  lastIndexLength s ≤ length (indexToResolve s) →
  (lastIndexReduction s + Z.of_nat (length props) + 1 - iterations s < Z.of_nat fuel)%Z → 1 ≤ fuel →
  resolve_loop fuel props deps s ≠ Err OutOfFuel.
Proof.
  revert s. induction fuel as [|fuel IH]; intros s Hall Hst Hlen Hf1 Hf2; [lia|].
  cbn. destruct (indexToResolve s) as [|i q] eqn:Hq; [done|].
  destruct (resolve_step props deps s i q) as [s'|e] eqn:Hs; cbn; [|intros [= ->]; by apply resolve_step_fuel in Hs].
  destruct (resolve_step_Ok _ _ _ _ Hs) as (p & ds & Hp & Hds & _ & Hr & Hq' & Hit & _ & Hnd).
  apply Forall_cons in Hst as [(p' & ds' & Hp' & Hds' & Hm) Hst].
  rewrite Hp in Hp'. injection Hp' as <-. rewrite Hds in Hds'. injection Hds' as <-.
  assert (ds ≠ []) as Hne by (intros ->; done). destruct (Hnd Hne) as (Hl & Hmax & Hsame).
  assert (Hall' : all_resolved (resolvedParameters s')) by (rewrite Hr; by eapply all_resolved_snoc).
  rewrite requeue_eq in Hq'.
  assert (1 ≤ length (missing (resolvedParameters s) ds)) by (destruct (missing _ _); [done|cbn; lia]).
  assert (length (indexToResolve s) ≤ length (indexToResolve s')).
  { rewrite Hq, Hq', length_app, length_replicate. cbn. lia. }
  assert (lastIndexReduction s' = lastIndexReduction s) as Hlr by (apply Hsame; rewrite Hq in *; cbn in *; lia).
  apply IH; [done| |lia|lia|lia].
  rewrite Hq'. apply Forall_app; split.
  - by eapply (stuck_Forall (resolvedParameters s)).
  - apply Forall_replicate. eapply (stuck_ext (resolvedParameters s)); [done..|].
    exists p, ds. done.
Qed.

(** The first step of that phase may still count as a reduction of the queue. *)
Lemma phase_stuck_entry fuel s :
  all_resolved (resolvedParameters s) → Forall (stuck (resolvedParameters s)) (indexToResolve s) →
  (lastIndexReduction s <= iterations s)%Z → length props + 3 ≤ fuel →
  resolve_loop fuel props deps s ≠ Err OutOfFuel.
Proof.
  intros Hall Hst Hlr Hf. destruct fuel as [|fuel]; [lia|].
  cbn. destruct (indexToResolve s) as [|i q] eqn:Hq; [done|].
  destruct (resolve_step props deps s i q) as [s'|e] eqn:Hs; cbn; [|intros [= ->]; by apply resolve_step_fuel in Hs].
  destruct (resolve_step_Ok _ _ _ _ Hs) as (p & ds & Hp & Hds & _ & Hr & Hq' & Hit & Hlr' & Hnd).
  apply Forall_cons in Hst as [(p' & ds' & Hp' & Hds' & Hm) Hst].
  rewrite Hp in Hp'. injection Hp' as <-. rewrite Hds in Hds'. injection Hds' as <-.
  assert (ds ≠ []) as Hne by (intros ->; done). destruct (Hnd Hne) as (Hl & Hmax & _).
  assert (Hall' : all_resolved (resolvedParameters s')) by (rewrite Hr; by eapply all_resolved_snoc).
  apply phase_stuck; [done| |lia|lia|lia].
  rewrite Hq', requeue_eq. apply Forall_app; split.
  - by eapply (stuck_Forall (resolvedParameters s)).
  - apply Forall_replicate. eapply (stuck_ext (resolvedParameters s)); [done..|]. exists p, ds. done.
Qed.

(** The second pass: whatever [A] holds is removed or proves to be stuck. *)
Lemma phase_second A B fuel s :
  all_resolved (resolvedParameters s) → indexToResolve s = A ++ B → Forall (stuck (resolvedParameters s)) B →
  (lastIndexReduction s <= iterations s)%Z → length A + length props + 3 ≤ fuel →
  resolve_loop fuel props deps s ≠ Err OutOfFuel.
Proof.
  revert B fuel s. induction A as [|i A IH]; intros B fuel s Hall Hq HB Hlr Hf.
  - apply phase_stuck_entry; [done|by rewrite Hq|done|cbn in Hf; lia].
  - destruct fuel as [|fuel]; [cbn in Hf; lia|]. cbn. rewrite Hq. cbn [app].
    destruct (resolve_step props deps s i (A ++ B)) as [s'|e] eqn:Hs; cbn; [|intros [= ->]; by apply resolve_step_fuel in Hs].
    destruct (resolve_step_Ok _ _ _ _ Hs) as (p & ds & Hp & Hds & _ & Hr & Hq' & Hit & Hlr' & _).
    assert (Hall' : all_resolved (resolvedParameters s')) by (rewrite Hr; by eapply all_resolved_snoc).
    rewrite requeue_eq, <-app_assoc in Hq'.
    eapply IH; [done|exact Hq'| |lia|cbn in Hf; lia].
    apply Forall_app; split.
    + by eapply (stuck_Forall (resolvedParameters s)).
    + destruct (missing (resolvedParameters s) ds) eqn:Hm; [done|]. apply Forall_replicate.
      eapply (stuck_ext (resolvedParameters s)); [done..|]. exists p, ds. rewrite Hm. done.
Qed.

Definition deps_at (i : nat) : nat := default 0 (p ← props !! i; ds ← jm_get deps (p_name p); Some (length ds)).

Lemma deps_at_le i : deps_at i ≤ jm_sum length deps.
Proof.
  unfold deps_at. destruct (props !! i) as [p|]; cbn; [|lia].
  destruct (jm_get deps (p_name p)) as [ds|] eqn:Hd; cbn; [|lia].
  pose proof (jm_sum_del_lt length deps _ _ Hd). lia.
Qed.

(** The first pass, over the indexes from [k] on. *)
Lemma phase_first m k B fuel s :
  k + m = length props → resolvedParameters s = take k names_of → indexToResolve s = seq k m ++ B →
  length B ≤ k * jm_sum length deps →
  (lastIndexReduction s <= iterations s)%Z →
  m + length props * jm_sum length deps + length props + 3 ≤ fuel →
  resolve_loop fuel props deps s ≠ Err OutOfFuel.
Proof.
  revert k B fuel s. induction m as [|m IH]; intros k B fuel s Hk Hr Hq HB Hlr Hf.
  - apply (phase_second B []); [|by rewrite app_nil_r|done|done|].
    + rewrite Hr, take_ge; [done|]. unfold names_of. rewrite length_fmap. lia.
    + replace k with (length props) in HB by lia. lia.
  - destruct fuel as [|fuel]; [lia|]. cbn. rewrite Hq. cbn [seq app].
    destruct (resolve_step props deps s k (seq (S k) m ++ B)) as [s'|e] eqn:Hs; cbn; [|intros [= ->]; by apply resolve_step_fuel in Hs].
    destruct (resolve_step_Ok _ _ _ _ Hs) as (p & ds & Hp & Hds & _ & Hr' & Hq' & Hit & Hlr' & _).
    rewrite requeue_eq, <-app_assoc in Hq'.
    eapply (IH (S k)); [lia| |exact Hq'| |lia|lia].
    + rewrite Hr', Hr. unfold names_of. symmetry. apply take_S_r. by rewrite list_lookup_fmap, Hp.
    + rewrite length_app, length_replicate. pose proof (deps_at_le k) as Hle.
      unfold deps_at in Hle. rewrite Hp in Hle. cbn in Hle. rewrite Hds in Hle. cbn in Hle.
      assert (length (missing (resolvedParameters s) ds) ≤ length ds) by apply length_filter. lia.
Qed.

Lemma resolve_order_no_fuel : getParameterResolveOrder props deps ≠ Err OutOfFuel.
Proof.
  unfold getParameterResolveOrder, resolve_fuel.
  eapply (phase_first (length props) 0 []); [done|done|by rewrite app_nil_r|done|done|lia].
Qed.

(** A name that one of the indexes of [l] has. *)
Definition named (l : list nat) (d : string) : Prop := ∃ j p, j ∈ l ∧ props !! j = Some p ∧ p_name p = d.

(** The last time [i] is resolved, its dependencies were resolved before. *)
Definition settled (order : list nat) (i : nat) : Prop :=
  ∃ l1 l2, order = l1 ++ i :: l2 ∧ i ∉ l2 ∧ ∀ d, local_dep i d → named l1 d.

Lemma named_mono l l' d : l ⊆ l' → named l d → named l' d.
Proof. intros Hl (j & p & ? & ? & ?). exists j, p. split; [by apply Hl|done]. Qed.

Record resolve_inv s : Prop := {
  inv_settled i : i < length props → i ∈ indexToResolve s ∨ settled (executionOrder s) i;
  inv_resolved d : d ∈ resolvedParameters s → named (executionOrder s) d;
  inv_order i : i ∈ executionOrder s → i < length props;
}.

Lemma resolve_step_inv s i q s' :
  resolve_inv s → indexToResolve s = i :: q → resolve_step props deps s i q = Ok s' → resolve_inv s'.
Proof.
  intros [Hset Hres Hord] Hq (p & ds & Hp & Hds & Ho & Hr & Hq' & _)%resolve_step_Ok. split.
  - intros j Hj. rewrite Hq', Ho, requeue_eq. destruct (decide (j = i)) as [->|Hne].
    + destruct (missing (resolvedParameters s) ds) as [|d l] eqn:Hm.
      * right. exists (executionOrder s), []. split; [done|]. split; [by apply not_elem_of_nil|].
        intros d (p' & ds' & Hp' & Hds' & Hd & Hroot). simplify_eq.
        apply Hres. destruct (decide (d ∈ resolvedParameters s)) as [|Hnot]; [done|].
        assert (d ∈ missing (resolvedParameters s) ds) as Hin by by apply list_elem_of_filter.
        rewrite Hm in Hin. by apply not_elem_of_nil in Hin.
      * left. apply elem_of_app. right. cbn. by left.
    + destruct (Hset j Hj) as [Hin|(l1 & l2 & -> & Hl2 & Hd)].
      * left. rewrite Hq in Hin. apply elem_of_cons in Hin as [->|Hin]; [done|]. apply elem_of_app. by left.
      * right. exists l1, (l2 ++ [i]). split; [by rewrite <-app_assoc|]. split; [|done].
        rewrite elem_of_app, list_elem_of_singleton. naive_solver.
  - intros d. rewrite Hr, Ho, elem_of_app, list_elem_of_singleton. intros [Hd| ->].
    + eapply named_mono; [|by apply Hres]. intros j Hj. apply elem_of_app. by left.
    + exists i, p. split; [|done]. apply elem_of_app. right. by left.
  - intros j. rewrite Ho, elem_of_app, list_elem_of_singleton. intros [?| ->]; [by apply Hord|].
    by eapply lookup_lt_Some.
Qed.

Lemma resolve_loop_inv fuel s order :
  resolve_inv s → resolve_loop fuel props deps s = Ok order →
  (∀ i, i < length props → settled order i) ∧ (∀ i, i ∈ order → i < length props).
Proof.
  revert s. induction fuel as [|fuel IH]; intros s Hinv; cbn; destruct (indexToResolve s) as [|i q] eqn:Hq.
  1,3: intros [= <-]; split; [|apply (inv_order _ Hinv)];
    intros j Hj; destruct (inv_settled _ Hinv j Hj) as [H|?]; [|done]; rewrite Hq in H; by apply not_elem_of_nil in H.
  { done. }
  intros (s' & Hs & Hloop)%bind_Ok. eapply IH; [by eapply resolve_step_inv|done].
Qed.

Lemma resolve_init_inv : resolve_inv (resolve_init (length props)).
Proof.
  split; cbn.
  - intros i Hi. left. apply elem_of_seq. lia.
  - intros d Hd. by apply not_elem_of_nil in Hd.
  - intros i Hi. by apply not_elem_of_nil in Hi.
Qed.

Lemma resolve_order_settled order :
  getParameterResolveOrder props deps = Ok order →
  (∀ i, i < length props → settled order i) ∧ (∀ i, i ∈ order → i < length props).
Proof. intros H. eapply resolve_loop_inv; [apply resolve_init_inv|exact H]. Qed.

Lemma settled_elem order i : settled order i → i ∈ order.
Proof. intros (l1 & l2 & -> & _). apply elem_of_app. right. by left. Qed.

(** Properties listed after what they depend on are resolved in the order listed. *)
Lemma resolve_loop_listed m k fuel s :
  k + m = length props → executionOrder s = seq 0 k → indexToResolve s = seq k m →
  resolvedParameters s = take k names_of → m ≤ lastIndexLength s → (iterations s <= Z.of_nat k)%Z →
  (∀ i p, props !! i = Some p → is_Some (jm_get deps (p_name p))) →
  (∀ i d, local_dep i d → d ∈ take i names_of) → m ≤ fuel →
  resolve_loop fuel props deps s = Ok (seq 0 (length props)).
Proof.
  revert k fuel s. induction m as [|m IH]; intros k fuel s Hk Ho Hq Hr Hl Hit Hkeys Hd Hf.
  - destruct fuel; cbn; rewrite Hq; cbn; f_equal; rewrite Ho; f_equal; lia.
  - destruct fuel as [|fuel]; [lia|]. cbn [resolve_loop]. rewrite Hq. cbn [seq].
    destruct (lookup_lt_is_Some_2 props k) as [p Hp]; [lia|]. destruct (Hkeys k p Hp) as [ds Hds].
    assert (missing (resolvedParameters s) ds = []) as Hm.
    { rewrite Hr. apply elem_of_nil_inv. intros d [(Hnot & Hroot) Hin]%list_elem_of_filter.
      apply Hnot, Hd. by exists p, ds. }
    assert (∀ s', executionOrder s' = seq 0 k ++ [k] → indexToResolve s' = seq (S k) m →
      resolvedParameters s' = take k names_of ++ [p_name p] → m ≤ lastIndexLength s' → (iterations s' <= Z.of_nat (S k))%Z →
      resolve_loop fuel props deps s' = Ok (seq 0 (length props))) as Hnext.
    { intros s' H1 H2 H3 H4 H5. apply (IH (S k)); [lia| |done| |done|done|done|done|lia].
      - rewrite H1. by rewrite seq_S.
      - rewrite H3. symmetry. apply take_S_r. unfold names_of. by rewrite list_lookup_fmap, Hp. }
    unfold resolve_step. rewrite Hp. cbn [of_option mbind result_bind]. rewrite Hds. cbn [of_option mbind result_bind].
    destruct (decide (ds = [])).
    + cbn [mbind result_bind]. apply Hnext; cbn; [by rewrite Ho|done|by rewrite Hr|lia|lia].
    + cbn zeta. rewrite requeue_eq, Hm. cbn [length replicate]. rewrite app_nil_r, length_seq.
      destruct (decide (m < lastIndexLength s)) as [_|]; [|lia]. rewrite decide_False by lia. cbn [mbind result_bind].
      apply Hnext; cbn; [by rewrite Ho|done|by rewrite Hr|lia|lia].
Qed.

End Order.

(** * Dependencies *)

(** The rules of [p] read the parameter [d]; names with [@] are not parameters. *)
Definition mentions (p : INodeProperties) (d : string) : Prop :=
  ∃ options, displayOptions (p_display p) = Some options ∧ d ∈ rule_names options.

Lemma add_dependency_elem names d x :
  x ∈ add_dependency names d ↔ x ∈ names ∨ (x = d ∧ starts_with "@" d = false).
Proof.
  unfold add_dependency. destruct (decide (d ∈ names)) as [Hd|Hd].
  - split; [auto|]. by intros [?|[-> _]].
  - destruct (starts_with "@" d) eqn:Hat.
    + split; [auto|]. by intros [?|[-> ?]].
    + rewrite elem_of_app, list_elem_of_singleton. naive_solver.
Qed.

Lemma foldl_add_dependency_elem names ds x :
  x ∈ foldl add_dependency names ds ↔ x ∈ names ∨ (x ∈ ds ∧ starts_with "@" x = false).
Proof.
  revert names. induction ds as [|d ds IH]; intros names; cbn.
  - split; [auto|]. intros [?|[H%not_elem_of_nil _]]; done.
  - rewrite IH, add_dependency_elem, elem_of_cons. naive_solver.
Qed.

Definition dependencies_of (props : list INodeProperties) (name d : string) : Prop :=
  ∃ p, p ∈ props ∧ p_name p = name ∧ mentions p d ∧ starts_with "@" d = false.

Lemma dependencies_spec props name :
  match jm_get (getParameterDependencies props) name with
  | None => name ∉ names_of props
  | Some ds => name ∈ names_of props ∧ ∀ d, d ∈ ds ↔ dependencies_of props name d
  end.
Proof.
  unfold getParameterDependencies. induction props as [|p props IH] using rev_ind.
  { cbn. by apply not_elem_of_nil. }
  rewrite foldl_app. cbn [foldl]. set (deps := foldl _ [] props) in *.
  assert (Hnames : names_of (props ++ [p]) = names_of props ++ [p_name p]) by (unfold names_of; by rewrite fmap_app).
  assert (Hsnoc : ∀ d, dependencies_of (props ++ [p]) name d ↔
    dependencies_of props name d ∨ (p_name p = name ∧ mentions p d ∧ starts_with "@" d = false)).
  { intros d. unfold dependencies_of. split.
    - intros (q & [Hq|Hq%list_elem_of_singleton]%elem_of_app & Hqd); [left; by exists q|subst q; by right].
    - intros [(q & Hq & Hqd)|Hqd]; [exists q|exists p]; (split; [apply elem_of_app|done]); [by left|right; by left]. }
  rewrite Hnames. destruct (decide (p_name p = name)) as [Hn|Hn].
  - subst name. rewrite jm_get_set. split; [apply elem_of_app; right; by left|]. intros d. rewrite Hsnoc.
    assert (Hold : d ∈ default [] (jm_get deps (p_name p)) ↔ dependencies_of props (p_name p) d).
    { destruct (jm_get deps (p_name p)) as [ds|]; cbn; [apply IH|]. split; [by intros ?%not_elem_of_nil|].
      intros (q & Hq & Hqn & _). destruct IH. apply list_elem_of_fmap. eauto. }
    unfold mentions at 1. destruct (displayOptions (p_display p)) as [options|].
    + rewrite foldl_add_dependency_elem, Hold. naive_solver.
    + rewrite Hold. naive_solver.
  - rewrite jm_get_set_ne by done. destruct (jm_get deps name) as [ds|].
    + destruct IH as [Hin Hd]. split; [apply elem_of_app; by left|]. intros d. rewrite Hd, Hsnoc. naive_solver.
    + rewrite elem_of_app, list_elem_of_singleton. naive_solver.
Qed.

Lemma dependencies_keys props p :
  p ∈ props → is_Some (jm_get (getParameterDependencies props) (p_name p)).
Proof.
  intros Hp. pose proof (dependencies_spec props (p_name p)) as H.
  destruct (jm_get _ _) as [ds|]; [by eexists|]. destruct H. apply list_elem_of_fmap. eauto.
Qed.

Lemma local_dep_mentions props i d :
  local_dep props (getParameterDependencies props) i d →
  ∃ p, props !! i = Some p ∧ dependencies_of props (p_name p) d ∧ starts_with "/" d = false.
Proof.
  intros (p & ds & Hp & Hds & Hd & Hroot). exists p. split; [done|]. split; [|done].
  pose proof (dependencies_spec props (p_name p)) as H. rewrite Hds in H. by apply H.
Qed.

Lemma mentions_local_dep props i p d :
  props !! i = Some p → mentions p d → starts_with "@" d = false → starts_with "/" d = false →
  local_dep props (getParameterDependencies props) i d.
Proof.
  intros Hp Hm Hat Hroot. assert (p ∈ props) as Hin by by eapply list_elem_of_lookup_2.
  destruct (dependencies_keys props p Hin) as [ds Hds]. exists p, ds. do 2 (split; [done|]). split; [|done].
  pose proof (dependencies_spec props (p_name p)) as H. rewrite Hds in H. apply H. by exists p.
Qed.

(** With the dependencies of the properties themselves, the only error is the limit. *)
Lemma resolve_loop_error props fuel s e :
  Forall (λ i, i < length props) (indexToResolve s) →
  resolve_loop fuel props (getParameterDependencies props) s = Err e → e = OutOfFuel ∨ e = resolve_error.
Proof.
  revert s. induction fuel as [|fuel IH]; intros s Hq; cbn; destruct (indexToResolve s) as [|i q]; [done| |done|].
  { intros [= <-]. by left. }
  apply Forall_cons in Hq as [Hi Hq].
  destruct (lookup_lt_is_Some_2 props i Hi) as [p Hp].
  destruct (dependencies_keys props p) as [ds Hds]; [by eapply list_elem_of_lookup_2|].
  unfold resolve_step. rewrite Hp. cbn [of_option mbind result_bind]. rewrite Hds. cbn [of_option mbind result_bind].
  destruct (decide (ds = [])); [by apply IH|]. cbn zeta.
  case_decide; cbn [mbind result_bind]; [intros [= <-]; by right|]. apply IH. cbn. rewrite requeue_eq.
  apply Forall_app. split; [done|by apply Forall_replicate].
Qed.

(** * Display *)

(** What the code relies on of lodash: [get] reads the property named by the whole
    path and the one named by its first segment, and nothing else of the object. *)
Fixpoint path_head (path : string) : string :=
  match path with
  | EmptyString => ""
  | String c path' =>
      if decide (c = "."%char ∨ c = "["%char) then "" else String c (path_head path')
  end.

Definition path_keys (path : string) : list string := [path; path_head path].

Class LodashGet (get : value → string → value) : Prop :=
  get_ext o o' path :
    (∀ k, k ∈ path_keys path → prop_of (VObj o) k = prop_of (VObj o') k) → get (VObj o) path = get (VObj o') path.

Definition agree_on (o o' : INodeParameters) (path : string) : Prop :=
  ∀ k, k ∈ path_keys path → prop_of (VObj o) k = prop_of (VObj o') k.

(** The names with [@] that are computed from the node. *)
Definition special_name (name : string) : Prop := name = "@version" ∨ name = "@tool" ∨ name = "@feature".

Definition root_path (name : string) : string := String.substring 1 (String.length name - 1) name.

(** The values the rule [name] reads are the same. *)
Definition same_reads (o o' root root' : INodeParameters) (name : string) : Prop :=
  if starts_with "/" name then agree_on root root' (root_path name) else special_name name ∨ agree_on o o' name.

Section Display.
Context (get : value → string → value) (isEqual : value → value → bool).
Context (regex_test : string → string → option bool).
Context (object_to_string : value → string) (string_to_number : string → option Qc).
Context (node : option Q) (nodeTypeDescription : option DescriptionInfo).
Context `{!LodashGet get}.

Abbreviation propertyValues :=
  (getPropertyValues get isEqual regex_test object_to_string string_to_number node nodeTypeDescription).
Abbreviation display :=
  (displayParameter get isEqual regex_test object_to_string string_to_number node nodeTypeDescription).
Abbreviation conditions := (checkConditions isEqual regex_test object_to_string string_to_number).

Lemma getPropertyValues_ext o o' root root' name :
  same_reads o o' root root' name →
  propertyValues (VObj o) name (VObj root) = propertyValues (VObj o') name (VObj root').
Proof.
  unfold same_reads, getPropertyValues. destruct (starts_with "/" name).
  - intros H. by rewrite (get_ext root root').
  - intros [[->|[->| ->]]|H]; [done..|].
    destruct (decide (name = "@version")); [done|]. destruct (decide (name = "@tool")); [done|].
    destruct (decide (name = "@feature")); [done|]. by rewrite (get_ext o o').
Qed.

Lemma show_rules_ext o o' root root' rules :
  (∀ name, name ∈ jm_keys rules → same_reads o o' root root' name) →
  show_rules get isEqual regex_test object_to_string string_to_number node nodeTypeDescription (VObj o) (VObj root) rules =
  show_rules get isEqual regex_test object_to_string string_to_number node nodeTypeDescription (VObj o') (VObj root') rules.
Proof.
  induction rules as [|[name cs] rules IH]; intros H; cbn [show_rules]; [done|].
  rewrite (getPropertyValues_ext o o' root root'); [|apply H; by left].
  rewrite IH; [done|]. intros k Hk. apply H. by right.
Qed.

Lemma hide_rules_ext o o' root root' rules :
  (∀ name, name ∈ jm_keys rules → same_reads o o' root root' name) →
  hide_rules get isEqual regex_test object_to_string string_to_number node nodeTypeDescription (VObj o) (VObj root) rules =
  hide_rules get isEqual regex_test object_to_string string_to_number node nodeTypeDescription (VObj o') (VObj root') rules.
Proof.
  induction rules as [|[name cs] rules IH]; intros H; cbn [hide_rules]; [done|].
  rewrite (getPropertyValues_ext o o' root root'); [|apply H; by left].
  rewrite IH; [done|]. intros k Hk. apply H. by right.
Qed.

Lemma displayParameter_ext o o' root root' p :
  (∀ name, mentions p name → same_reads o o' root root' name) →
  display (VObj o) (p_display p) (VObj root) KeyDisplayOptions =
  display (VObj o') (p_display p) (VObj root') KeyDisplayOptions.
Proof.
  intros H. unfold displayParameter. cbn [display_of]. unfold mentions in H.
  destruct (displayOptions (p_display p)) as [options|]; [|done]. cbn [vtruthy].
  rewrite (show_rules_ext o o' root root').
  - rewrite (hide_rules_ext o o' root root'); [done|]. intros name Hn. apply H. exists options. split; [done|].
    apply elem_of_app. by right.
  - intros name Hn. apply H. exists options. split; [done|]. apply elem_of_app. by left.
Qed.

(** Without expressions among the values they read: every rule of [show] holds. *)
Lemma show_rules_spec v root rules r :
  show_rules get isEqual regex_test object_to_string string_to_number node nodeTypeDescription v root rules = Ok r →
  (∀ name cs values, (name, cs) ∈ rules → propertyValues v name root = Ok values → is_expression_list values = false) →
  (r = None ∧ ∀ name cs, (name, cs) ∈ rules → ∃ values, propertyValues v name root = Ok values ∧ conditions cs values = Ok true) ∨
  (r = Some false ∧ ∃ name cs values, (name, cs) ∈ rules ∧ propertyValues v name root = Ok values ∧ conditions cs values = Ok false).
Proof.
  induction rules as [|[name cs] rules IH]; cbn [show_rules].
  { intros [= <-] _. left. split; [done|]. by intros ?? ?%not_elem_of_nil. }
  intros (values & Hv & H)%bind_Ok Hex. rewrite (Hex name cs values) in H; [|by left|done].
  apply bind_Ok in H as (b & Hb & H). destruct b.
  - destruct (IH H) as [[-> Hall]|(-> & n & c & vs & Hin & ?)].
    + intros n c vs Hin. apply (Hex n c). by right.
    + left. split; [done|]. intros n c [[= -> ->]|Hin]%elem_of_cons; [by exists values|by apply Hall].
    + right. split; [done|]. exists n, c, vs. split; [by right|done].
  - injection H as <-. right. split; [done|]. exists name, cs, values. split; [by left|done].
Qed.

(** Some rule of [hide] holds, for a value that is there. *)
Lemma hide_rules_spec v root rules b :
  hide_rules get isEqual regex_test object_to_string string_to_number node nodeTypeDescription v root rules = Ok b →
  (b = true ∧ ∃ name cs values, (name, cs) ∈ rules ∧ propertyValues v name root = Ok values ∧ values ≠ [] ∧ conditions cs values = Ok true) ∨
  (b = false ∧ ∀ name cs, (name, cs) ∈ rules → ∃ values, propertyValues v name root = Ok values ∧ (values = [] ∨ conditions cs values = Ok false)).
Proof.
  induction rules as [|[name cs] rules IH]; cbn [hide_rules].
  { intros [= <-]. right. split; [done|]. by intros ?? ?%not_elem_of_nil. }
  intros (values & Hv & (h & Hh & H)%bind_Ok)%bind_Ok. destruct h.
  - injection H as <-. left. split; [done|]. exists name, cs, values. split; [by left|]. split; [done|].
    case_decide; done.
  - destruct (IH H) as [(-> & n & c & vs & Hin & ?)|[-> Hall]].
    + left. split; [done|]. exists n, c, vs. split; [by right|done].
    + right. split; [done|]. intros n c [[= -> ->]|Hin]%elem_of_cons; [|by apply Hall].
      exists values. split; [done|]. case_decide; auto.
Qed.

End Display.

(** * Loops that write one property at a time *)

Section WriteLoop.
Context (props : list INodeProperties).
Implicit Types (f : INodeProperties → result NodeHelpersError (option value)) (o : INodeParameters).

Definition write o (p : INodeProperties) (r : option value) : INodeParameters :=
  match r with Some v => jm_set o (p_name p) v | None => o end.

Definition write_step f o (i : nat) : result NodeHelpersError INodeParameters :=
  p ← of_option (TypeError "Cannot read properties") (props !! i);
  r ← f p;
  Ok (write o p r).

Definition write_loop f o (order : list nat) : result NodeHelpersError INodeParameters :=
  foldM (write_step f) o order.

Lemma write_loop_ext f g o order :
  (∀ p, p ∈ props → f p = g p) → write_loop f o order = write_loop g o order.
Proof.
  intros H. unfold write_loop. revert o. induction order as [|i order IH]; intros o; [done|]. cbn [foldM].
  assert (write_step f o i = write_step g o i) as ->.
  { unfold write_step. destruct (props !! i) as [p|] eqn:Hp; [|done]. cbn.
    by rewrite (H p) by by eapply list_elem_of_lookup_2. }
  destruct (write_step g o i) as [o'|]; [apply IH|done].
Qed.

(** A key that no property has keeps its value. *)
Lemma write_loop_other f o order o' k :
  write_loop f o order = Ok o' → k ∉ names_of props → jm_get o' k = jm_get o k.
Proof.
  intros H Hk. apply (foldM_inv (write_step f) (λ o', jm_get o' k = jm_get o k) order o); [|done|done].
  intros o1 i o2 _ H1 (p & Hp%of_option_Ok & (r & _ & [= <-])%bind_Ok)%bind_Ok. destruct r as [v|]; [|done]. cbn.
  rewrite jm_get_set_ne; [done|]. intros <-. apply Hk, list_elem_of_fmap. exists p. split; [done|].
  by eapply list_elem_of_lookup_2.
Qed.

(** With distinct names every property of the order has what [f] gives for it. *)
Lemma write_loop_get f o order o' i p :
  NoDup (names_of props) → write_loop f o order = Ok o' → props !! i = Some p →
  (i ∈ order → ∃ r, f p = Ok r) ∧
  (∀ r, f p = Ok r → jm_get o' (p_name p) = match r with
                                             | Some v => if decide (i ∈ order) then Some v else jm_get o (p_name p)
                                             | None => jm_get o (p_name p)
                                             end).
Proof.
  intros Hnd H Hp. revert o H. induction order as [|j order IH]; intros o H; cbn in H.
  - injection H as <-. split; [by intros ?%not_elem_of_nil|]. intros [v|] _; [|done].
    rewrite decide_False by apply not_elem_of_nil. done.
  - apply bind_Ok in H as (o1 & Hs & H). apply bind_Ok in Hs as (q & Hq%of_option_Ok & Hs).
    apply bind_Ok in Hs as (r1 & Hr1 & [= <-]). destruct (IH _ H) as [Hf Hg]. clear IH H.
    destruct (decide (j = i)) as [->|Hne].
    + rewrite Hp in Hq. injection Hq as <-. split; [intros _; by exists r1|].
      intros r Hr. rewrite Hr1 in Hr. injection Hr as <-. rewrite (Hg r1 Hr1). destruct r1 as [v|]; [|done].
      rewrite (decide_True (P := i ∈ i :: order)) by by left. case_decide; [done|]. cbn. by rewrite jm_get_set.
    + assert (p_name q ≠ p_name p) as Hqp.
      { intros Heq. apply Hne. eapply (NoDup_lookup _ _ _ _ Hnd).
        - unfold names_of. rewrite list_lookup_fmap, Hq. done.
        - unfold names_of. rewrite list_lookup_fmap, Hp. cbn. by rewrite Heq. }
      assert (jm_get (write o q r1) (p_name p) = jm_get o (p_name p)) as Hw.
      { destruct r1; [|done]. cbn. by rewrite jm_get_set_ne. }
      split.
      * intros [<-|Hin]%elem_of_cons; [done|by apply Hf].
      * intros r Hr. rewrite (Hg r Hr). destruct r as [v|]; rewrite Hw; [|done].
        destruct (decide (i ∈ order)) as [Hin|Hin].
        -- by rewrite (decide_True (P := i ∈ j :: order)) by by right.
        -- rewrite decide_False; [done|]. rewrite elem_of_cons. naive_solver.
Qed.

(** A loop of [getNodeParameters] whose steps are such writes. *)
Lemma parameter_loop_writes step f (I : Collected → Prop) c order :
  (∀ c p, p ∈ props → I c → match f p with
                 | Ok r => ∃ c', step c p = Ok (Continue c') ∧ nodeParameters c' = write (nodeParameters c) p r ∧ I c'
                 | Err e => step c p = Err e
                 end) →
  I c →
  parameter_loop step props c order = (o ← write_loop f (nodeParameters c) order; Ok (VObj o)).
Proof.
  intros Hstep. revert c. induction order as [|i order IH]; intros c Hc; [done|].
  cbn [parameter_loop]. unfold write_loop. cbn [foldM].
  assert (write_step f (nodeParameters c) i =
    (p ← of_option (TypeError "Cannot read properties") (props !! i); r ← f p; Ok (write (nodeParameters c) p r))) as -> by done.
  destruct (props !! i) as [p|] eqn:Hp; cbn [of_option mbind result_bind]; [|done].
  pose proof (Hstep c p ltac:(by eapply list_elem_of_lookup_2) Hc) as H. destruct (f p) as [r|e].
  - destruct H as (c' & -> & Hw & Hc'). cbn [mbind result_bind]. rewrite IH by done. by rewrite Hw.
  - by rewrite H.
Qed.

Lemma write_loop_total f o order :
  (∀ p, p ∈ props → is_Ok (f p) = true) → (∀ i, i ∈ order → i < length props) → ∃ o', write_loop f o order = Ok o'.
Proof.
  intros Hf. unfold write_loop. revert o. induction order as [|i order IH]; intros o Ho; [by exists o|].
  destruct (lookup_lt_is_Some_2 props i) as [p Hp]; [apply Ho; by left|]. cbn [foldM].
  assert (p ∈ props) as Hin by by eapply list_elem_of_lookup_2. pose proof (Hf p Hin) as Hfp.
  assert (write_step f o i = (r ← f p; Ok (write o p r))) as -> by (unfold write_step; by rewrite Hp).
  destruct (f p) as [r|]; [|done]. cbn [mbind result_bind]. apply IH. intros j Hj. apply Ho. by right.
Qed.

End WriteLoop.

Lemma names_inj props p q :
  NoDup (names_of props) → p ∈ props → q ∈ props → p_name p = p_name q → p = q.
Proof.
  intros Hnd [i Hp]%list_elem_of_lookup [j Hq]%list_elem_of_lookup Heq.
  assert (i = j) as <-; [|congruence]. eapply (NoDup_lookup _ _ _ (p_name p) Hnd); unfold names_of; rewrite list_lookup_fmap.
  - by rewrite Hp.
  - rewrite Hq. cbn. by rewrite Heq.
Qed.

Lemma duplicate_names_nil props : NoDup (names_of props) → duplicate_names props = [].
Proof.
  intros Hnd. unfold duplicate_names.
  assert (∀ names, NoDup (names ++ names_of props) → (foldl (λ '(names, duplicates) nodeProperties,
    if decide (p_name nodeProperties ∈ names) then (names, js_add duplicates (p_name nodeProperties))
    else (names ++ [p_name nodeProperties], duplicates)) (names, []) props).2 = []) as H; [|by apply H].
  clear Hnd. induction props as [|p props IH]; intros names Hnd; [done|]. cbn [foldl].
  rewrite decide_False.
  - apply IH. rewrite <-app_assoc. done.
  - apply NoDup_app in Hnd as (_ & Hd & _). intros Hin. apply (Hd _ Hin). by left.
Qed.

Section Values.
Context (get : value → string → value) (isEqual : value → value → bool).
Context (regex_test : string → string → option bool).
Context (object_to_string : value → string) (string_to_number : string → option Qc).
Context (node : option Q) (nodeTypeDescription : option DescriptionInfo).

Abbreviation display :=
  (displayParameter get isEqual regex_test object_to_string string_to_number node nodeTypeDescription).
Abbreviation node_parameters :=
  (getNodeParameters get isEqual regex_test object_to_string string_to_number node nodeTypeDescription).
Abbreviation step :=
  (parameter_step get isEqual regex_test object_to_string string_to_number node nodeTypeDescription).

(** The value of a simple property when defaults are filled in. *)
Definition fill_value (p : INodeProperties) (stored : value) : value :=
  match value_or_default p stored with
  | VStr (String c s) as v => if p_noDataExpression p && isExpression v then VStr s else v
  | v => v
  end.

Definition stored_value (V : INodeParameters) (p : INodeProperties) : value := prop_of (VObj V) (p_name p).

Definition shown_in (D : INodeParameters) (p : INodeProperties) : result NodeHelpersError bool :=
  display (VObj D) (p_display p) (VObj D) KeyDisplayOptions.

(** What the three kinds of run write for a property. *)
Definition full_write (V : INodeParameters) (p : INodeProperties) : result NodeHelpersError (option value) :=
  Ok (Some (fill_value p (stored_value V p))).

Definition fill_write (D V : INodeParameters) (p : INodeProperties) : result NodeHelpersError (option value) :=
  shown ← shown_in D p; Ok (if shown : bool then Some (fill_value p (stored_value V p)) else None).

Definition strip_write (D V : INodeParameters) (p : INodeProperties) : result NodeHelpersError (option value) :=
  if is_undef (stored_value V p) then Ok None
  else
    shown ← shown_in D p;
    Ok (if shown && is_kept isEqual None p (stored_value V p) then Some (stored_value V p) else None).

Definition simple (p : INodeProperties) : Prop := p_type p ∉ ["collection"; "fixedCollection"].

(** On a simple property an iteration only does the simple part. *)
Lemma step_simple self V rd rnd options dc root dups c p :
  simple p → p_name p ∉ dups →
  step self (VObj V) rd rnd options dc root dups c p =
  if is_undef (stored_value V p) && (negb rd || bool_decide (parentType options = Some "collection")) then Ok (Continue c)
  else
    shown ← (if rnd then Ok true
             else display (default (VObj (nodeParametersFull c)) dc) (p_display p) (default (VObj (nodeParametersFull c)) root) KeyDisplayOptions);
    Ok (Continue (if shown : bool then (simple_property isEqual rd (parentType options) p (stored_value V p) c).1 else c)).
Proof.
  intros Hs Hd. unfold parameter_step. cbn [vtruthy negb orb]. fold (stored_value V p).
  destruct (is_undef _ && _); [done|].
  destruct (if rnd then Ok true else _) as [shown|e]; cbn [mbind result_bind]; [|done].
  destruct shown; cbn [negb]; [|done]. rewrite decide_False by exact Hs. rewrite decide_False by done. cbn [mbind result_bind].
  destruct (simple_property _ _ _ _ _ _) as [c' go_on]. cbn [fst].
  assert (p_type p ≠ "collection") by (intros H; apply Hs; rewrite H; by left).
  assert (p_type p ≠ "fixedCollection") by (intros H'; apply Hs; rewrite H'; right; by left).
  destruct (negb go_on || _); [done|]. rewrite decide_False by done. by rewrite decide_False.
Qed.

Lemma simple_property_fill parent p stored c :
  nodeParameters (simple_property isEqual true parent p stored c).1 = jm_set (nodeParameters c) (p_name p) (fill_value p stored).
Proof.
  unfold simple_property, strip_expression, fill_value. cbn [fst nodeParameters set_both copy_full set_only].
  rewrite jm_get_set. destruct (value_or_default p stored) as [| | | |[|x s]| |]; try done.
  destruct (p_noDataExpression p && _); [|done]. cbn. by rewrite jm_set_set.
Qed.

Lemma simple_property_strip parent p stored c :
  (is_kept isEqual parent p stored = false → jm_get (nodeParameters c) (p_name p) = None) →
  nodeParameters (simple_property isEqual false parent p stored c).1 =
  if is_kept isEqual parent p stored then jm_set (nodeParameters c) (p_name p) stored else nodeParameters c.
Proof.
  intros H. unfold simple_property. destruct (is_kept _ _ _ _); [done|]. cbn [fst]. unfold strip_expression. by rewrite H.
Qed.

Context (props : list INodeProperties).
Hypothesis (Hsimple : Forall simple props) (Hnodup : NoDup (names_of props)).

Lemma full_loop self V options c order :
  parentType options = None → nodeParameters c = [] →
  parameter_loop (step self (VObj V) true true options None None (duplicate_names props)) props c order =
  (o ← write_loop props (full_write V) [] order; Ok (VObj o)).
Proof.
  intros Hp Hc. rewrite duplicate_names_nil by done. rewrite <-Hc.
  apply parameter_loop_writes with (I := λ _, True); [|done]. intros c' p Hin _. cbn [full_write].
  rewrite step_simple; [|by eapply Forall_forall in Hsimple|by apply not_elem_of_nil].
  rewrite Hp, bool_decide_false by done. rewrite andb_false_r. cbn [mbind result_bind].
  eexists. split; [done|]. split; [|done]. apply simple_property_fill.
Qed.

Lemma fill_loop self D V options c order :
  parentType options = None → nodeParameters c = [] →
  parameter_loop (step self (VObj V) true false options (Some (VObj D)) (Some (VObj D)) (duplicate_names props)) props c order =
  (o ← write_loop props (fill_write D V) [] order; Ok (VObj o)).
Proof.
  intros Hp Hc. rewrite duplicate_names_nil by done. rewrite <-Hc.
  apply parameter_loop_writes with (I := λ _, True); [|done]. intros c' p Hin _. unfold fill_write.
  rewrite step_simple; [|by eapply Forall_forall in Hsimple|by apply not_elem_of_nil].
  rewrite Hp, bool_decide_false by done. rewrite andb_false_r. cbn [default from_option id]. fold (shown_in D p).
  destruct (shown_in D p) as [shown|e]; cbn [mbind result_bind]; [|done].
  eexists. split; [done|]. split; [|done]. destruct shown; [|done]. apply simple_property_fill.
Qed.

Lemma strip_loop self D V options c order :
  parentType options = None → nodeParameters c = [] →
  parameter_loop (step self (VObj V) false false options (Some (VObj D)) (Some (VObj D)) (duplicate_names props)) props c order =
  (o ← write_loop props (strip_write D V) [] order; Ok (VObj o)).
Proof.
  intros Hp Hc. rewrite duplicate_names_nil by done. rewrite <-Hc.
  apply parameter_loop_writes with
    (I := λ c, ∀ p, p ∈ props → is_kept isEqual None p (stored_value V p) = false → jm_get (nodeParameters c) (p_name p) = None);
    [|by rewrite Hc].
  intros c' p Hin HI. unfold strip_write.
  rewrite step_simple; [|by eapply Forall_forall in Hsimple|by apply not_elem_of_nil].
  rewrite Hp. cbn [negb orb default from_option id]. rewrite andb_true_r. fold (shown_in D p).
  destruct (is_undef _); [by exists c'|].
  destruct (shown_in D p) as [shown|e]; cbn [mbind result_bind]; [|done].
  eexists. split; [done|].
  assert (nodeParameters (if shown then (simple_property isEqual false None p (stored_value V p) c').1 else c') =
    write (nodeParameters c') p (if shown && is_kept isEqual None p (stored_value V p) then Some (stored_value V p) else None)) as Hw.
  { destruct shown; [|done]. rewrite simple_property_strip by by apply HI. cbn [andb]. by destruct (is_kept _ _ _ _). }
  split; [exact Hw|]. rewrite Hw. intros q Hq Hk.
  destruct shown; cbn [andb]; [|by apply HI]. destruct (is_kept isEqual None p (stored_value V p)) eqn:Hkp; [|by apply HI].
  cbn. destruct (decide (p_name p = p_name q)) as [Heq|Hne]; [|rewrite jm_get_set_ne by done; by apply HI].
  assert (p = q) as -> by by eapply names_inj. congruence.
Qed.

Definition full_options : GetNodeParametersOptions :=
  mkOptions true true VUndef None (Some (getParameterDependencies props)).

Abbreviation resolve_order := (getParameterResolveOrder props (getParameterDependencies props)).

Lemma full_run fuel V :
  node_parameters (S fuel) props (VObj V) true true full_options =
  (order ← resolve_order; o ← write_loop props (full_write V) [] order; Ok (VObj o)).
Proof.
  cbn -[parameter_loop getParameterResolveOrder step].
  destruct resolve_order as [order|e]; cbn [mbind result_bind]; [|done]. by apply full_loop.
Qed.

Lemma outer_run fuel V rd :
  node_parameters (S (S fuel)) props (VObj V) rd false no_options =
  (order ← resolve_order; D ← write_loop props (full_write V) [] order;
   o ← write_loop props (if rd then fill_write D V else strip_write D V) [] order; Ok (VObj o)).
Proof.
  set (f := S fuel). cbn -[parameter_loop getParameterResolveOrder getNodeParameters step].
  change (mkOptions true true VUndef None (Some (getParameterDependencies props))) with full_options.
  cbn [getNodeParameters]. change (vtruthy (o_nodeValuesRoot no_options)) with false. cbn iota.
  change (negb (dataIsResolved no_options) && negb false) with true. cbn iota.
  unfold f. change (default (getParameterDependencies props) (o_parameterDependencies no_options)) with (getParameterDependencies props).
  change (o_nodeValuesRoot no_options) with VUndef. change (parentType no_options) with (@None string).
  fold full_options. rewrite full_run.
  destruct resolve_order as [order|e]; cbn [mbind result_bind]; [|done].
  destruct (write_loop props (full_write V) [] order) as [D|e]; cbn [mbind result_bind]; [|done].
  destruct rd; [by apply fill_loop|by apply strip_loop].
Qed.

(** * Stripping the defaults and filling them in *)

(** A missing value is filled in like the default itself. *)
Definition stable_default (p : INodeProperties) : Prop :=
  value_or_default p (p_default p) = value_or_default p VUndef.

(** [isEqual] finds a stored value equal to the default only if it is the same,
    the order of the keys of objects included. *)
Definition exact_default (V : INodeParameters) (p : INodeProperties) : Prop :=
  isEqual (stored_value V p) (p_default p) = true → stored_value V p = p_default p.

(** The display of [p] reads the value of [q]. *)
Definition reads (p q : INodeProperties) : Prop :=
  ∃ name, mentions p name ∧
    p_name q ∈ path_keys (if starts_with "/" name then root_path name else name).

(** A property is shown when every property is filled in from [V]. *)
Definition displayed (V : INodeParameters) (q : INodeProperties) : Prop :=
  ∀ D, node_parameters 1 props (VObj V) true true full_options = Ok (VObj D) → shown_in D q = Ok true.

Lemma same_value_eq v w : same_value v w = true → v = w.
Proof.
  destruct v, w; cbn; try done.
  - by intros ->%eqb_prop.
  - by intros ->%bool_decide_eq_true.
  - by intros ->%bool_decide_eq_true.
Qed.

Lemma stripped_is_default V p :
  exact_default V p → is_undef (stored_value V p) = false → is_kept isEqual None p (stored_value V p) = false →
  stored_value V p = p_default p.
Proof.
  unfold is_kept, exact_default. intros Hex Hdef. rewrite Hdef, andb_false_r, orb_false_r.
  intros [H1 H2]%orb_false_iff. destruct (typeof_object (stored_value V p)).
  - apply Hex. by destruct (isEqual _ _).
  - apply same_value_eq. by destruct (same_value _ _).
Qed.

Context `{!LodashGet get}.

Lemma undef_is_undef v : is_undef v = true → v = VUndef.
Proof. by destruct v. Qed.

Section RoundTrip.
Context (V S : INodeParameters) (order : list nat) (D D' : INodeParameters).
Hypothesis (Horder : resolve_order = Ok order).
Hypothesis (HD : write_loop props (full_write V) [] order = Ok D).
Hypothesis (HD' : write_loop props (full_write S) [] order = Ok D').
Hypothesis (HS : write_loop props (strip_write D V) [] order = Ok S).
Hypothesis (Hstable : ∀ p, p ∈ props → stable_default p) (Hexact : ∀ p, p ∈ props → exact_default V p).
Hypothesis (Hreads : ∀ p q, p ∈ props → q ∈ props → reads p q → is_undef (stored_value V q) = true ∨ displayed V q).

Lemma order_covers i p : props !! i = Some p → i ∈ order.
Proof.
  intros Hp. eapply settled_elem, resolve_order_settled; [exact Horder|]. by eapply lookup_lt_Some.
Qed.

Lemma stored_after_strip p : p ∈ props →
  is_undef (stored_value V p) = true ∨ shown_in D p = Ok true →
  fill_value p (stored_value S p) = fill_value p (stored_value V p).
Proof.
  intros Hp Hshown. pose proof Hp as [i Hi]%list_elem_of_lookup.
  destruct (write_loop_get props _ _ _ _ i p Hnodup HS Hi) as [_ Hg].
  unfold stored_value at 1. unfold strip_write in Hg. cbn [prop_of].
  destruct (is_undef (stored_value V p)) eqn:Hu.
  - rewrite (Hg None) by done. cbn [default from_option id jm_get]. by rewrite (undef_is_undef _ Hu).
  - destruct Hshown as [?|Hshown]; [done|]. rewrite Hshown in Hg. cbn [mbind result_bind andb] in Hg.
    destruct (is_kept isEqual None p (stored_value V p)) eqn:Hk.
    + rewrite (Hg (Some (stored_value V p))) by done. rewrite decide_True by by eapply order_covers. done.
    + rewrite (Hg None) by done. cbn [default from_option id jm_get].
      rewrite (stripped_is_default V p) by auto. unfold fill_value. by rewrite (Hstable p Hp).
Qed.

Lemma full_values_get V' F p i :
  write_loop props (full_write V') [] order = Ok F → props !! i = Some p →
  jm_get F (p_name p) = Some (fill_value p (stored_value V' p)).
Proof.
  intros HF Hi. destruct (write_loop_get props _ _ _ _ i p Hnodup HF Hi) as [_ Hg].
  rewrite (Hg _ eq_refl). by rewrite decide_True by by eapply order_covers.
Qed.

Lemma displayed_shown q : displayed V q → shown_in D q = Ok true.
Proof. intros H. apply H. rewrite full_run, Horder. cbn [mbind result_bind]. by rewrite HD. Qed.

Lemma reads_agree p name : p ∈ props → mentions p name →
  agree_on D D' (if starts_with "/" name then root_path name else name).
Proof.
  intros Hp Hm k Hk. cbn [prop_of]. destruct (decide (k ∈ names_of props)) as [Hin|Hout].
  - unfold names_of in Hin. apply list_elem_of_fmap in Hin as (q & -> & Hq).
    pose proof Hq as [i Hi]%list_elem_of_lookup.
    rewrite (full_values_get V D q i HD Hi), (full_values_get S D' q i HD' Hi). cbn.
    symmetry. apply stored_after_strip; [done|].
    destruct (Hreads p q Hp Hq) as [?|?]; [by exists name|by left|]. right. by apply displayed_shown.
  - rewrite (write_loop_other props _ _ _ _ k HD Hout). by rewrite (write_loop_other props _ _ _ _ k HD' Hout).
Qed.

Lemma shown_after_strip p : p ∈ props → shown_in D p = shown_in D' p.
Proof.
  intros Hp. apply displayParameter_ext; [done|]. intros name Hm. unfold same_reads.
  pose proof (reads_agree p name Hp Hm) as H. destruct (starts_with "/" name); [done|]. by right.
Qed.

Lemma fill_after_strip p : p ∈ props → fill_write D' S p = fill_write D V p.
Proof.
  intros Hp. unfold fill_write. rewrite <-shown_after_strip by done.
  destruct (shown_in D p) as [[]|e] eqn:Hs; cbn [mbind result_bind]; [|done|done].
  do 2 f_equal. by apply stored_after_strip; [|right].
Qed.

End RoundTrip.

(** C8: Saving a node keeps only the parameters that differ from their defaults and
    are shown; opening it again gives what was shown before.  For simple properties
    with distinct names whose defaults are stable, this holds as long as every stored
    parameter that the display of another one reads is shown itself. *)
Theorem strip_then_fill fuel V S :
  (∀ p, p ∈ props → stable_default p) → (∀ p, p ∈ props → exact_default V p) →
  (∀ p q, p ∈ props → q ∈ props → reads p q → is_undef (stored_value V q) = true ∨ displayed V q) →
  node_parameters (2 + fuel) props (VObj V) false false no_options = Ok (VObj S) →
  node_parameters (2 + fuel) props (VObj S) true false no_options =
  node_parameters (2 + fuel) props (VObj V) true false no_options.
Proof.
  intros Hstable Hexact Hreads. cbn [plus]. rewrite !outer_run.
  destruct resolve_order as [order|e] eqn:Horder; cbn [mbind result_bind]; [|done].
  destruct (write_loop props (full_write V) [] order) as [D|e] eqn:HD; cbn [mbind result_bind]; [|done].
  intros (S' & HS & [= <-])%bind_Ok.
  destruct (write_loop_total props (full_write S') [] order) as [D' HD'].
  { done. }
  { apply (resolve_order_settled _ _ _ Horder). }
  rewrite HD'. cbn [mbind result_bind]. rewrite (write_loop_ext props _ (fill_write D V)); [done|].
  intros p Hp. by apply (fill_after_strip V S' order D D').
Qed.

End Values.

(** * The order and the display of the parameters of a node *)

(** The resolution of parameters always ends.  It gives an order or reports that
    the dependencies cannot be resolved, and it reports that when a parameter
    depends on one that does not exist. *)
Theorem resolve_order_decides props :
  (∃ order, getParameterResolveOrder props (getParameterDependencies props) = Ok order ∧
     (∀ p d, p ∈ props → mentions p d → starts_with "@" d = false → starts_with "/" d = false → d ∈ names_of props)) ∨
  getParameterResolveOrder props (getParameterDependencies props) = Err resolve_error.
Proof.
  destruct (getParameterResolveOrder props _) as [order|e] eqn:H.
  - left. exists order. split; [done|]. intros p d [i Hi]%list_elem_of_lookup Hm Hat Hroot.
    destruct (proj1 (resolve_order_settled _ _ _ H) i) as (l1 & l2 & _ & _ & Hd); [by eapply lookup_lt_Some|].
    destruct (Hd d) as (j & q & _ & Hq & <-); [by eapply mentions_local_dep|].
    apply list_elem_of_fmap. exists q. split; [done|]. by eapply list_elem_of_lookup_2.
  - right. f_equal. assert (Forall (λ i, i < length props) (seq 0 (length props))) as Hq by (apply Forall_seq; lia).
    destruct (resolve_loop_error props _ (resolve_init (length props)) _ Hq H) as [->|?]; [|done].
    by apply resolve_order_no_fuel in H.
Qed.

(** Every parameter is resolved, and the last time it is, every parameter its
    display depends on was resolved before. *)
Theorem resolve_order_sound props order i p :
  getParameterResolveOrder props (getParameterDependencies props) = Ok order → props !! i = Some p →
  ∃ l1 l2, order = l1 ++ i :: l2 ∧ i ∉ l2 ∧
    ∀ d, mentions p d → starts_with "@" d = false → starts_with "/" d = false →
      ∃ j q, j ∈ l1 ∧ props !! j = Some q ∧ p_name q = d.
Proof.
  intros H Hp. destruct (proj1 (resolve_order_settled _ _ _ H) i) as (l1 & l2 & Ho & Hl2 & Hd); [by eapply lookup_lt_Some|].
  exists l1, l2. do 2 (split; [done|]). intros d Hm Hat Hroot. by apply Hd, (mentions_local_dep _ i p).
Qed.

(** Parameters listed after those they depend on are resolved once each, in the
    order in which they are listed. *)
Theorem resolve_order_listed props :
  (∀ i p d, props !! i = Some p → dependencies_of props (p_name p) d → starts_with "/" d = false →
     d ∈ take i (names_of props)) →
  getParameterResolveOrder props (getParameterDependencies props) = Ok (seq 0 (length props)).
Proof.
  intros H. unfold getParameterResolveOrder, resolve_fuel.
  apply (resolve_loop_listed props _ (length props) 0); cbn; try done; try lia.
  - intros i p Hp. apply dependencies_keys. by eapply list_elem_of_lookup_2.
  - intros i d (p & Hp & Hd & Hroot)%local_dep_mentions. by eapply H.
Qed.

(** What a parameter's display reads of the other values is named by its
    dependencies: values that agree there show it alike. *)
Theorem display_depends_on_dependencies get isEqual regex_test to_string to_num node desc `{!LodashGet get} props p ds o o' root root' :
  p ∈ props → jm_get (getParameterDependencies props) (p_name p) = Some ds →
  (∀ d, mentions p d → starts_with "@" d = true → special_name d) →
  (∀ d, d ∈ ds → if starts_with "/" d then agree_on root root' (root_path d) else agree_on o o' d) →
  displayParameter get isEqual regex_test to_string to_num node desc (VObj o) (p_display p) (VObj root) KeyDisplayOptions =
  displayParameter get isEqual regex_test to_string to_num node desc (VObj o') (p_display p) (VObj root') KeyDisplayOptions.
Proof.
  intros Hp Hds Hat Hag. apply displayParameter_ext; [done|]. intros d Hm. unfold same_reads.
  destruct (starts_with "@" d) eqn:Hd.
  - destruct (starts_with "/" d) eqn:Hroot; [|left; by apply Hat].
    destruct d as [|c d]; [done|]. cbn in Hd, Hroot. by repeat (case_match; simplify_eq).
  - assert (d ∈ ds) as Hin.
    { pose proof (dependencies_spec props (p_name p)) as H. rewrite Hds in H. apply H. by exists p. }
    specialize (Hag d Hin). destruct (starts_with "/" d); [done|by right].
Qed.

(** Unless a value it reads is an expression, a parameter is shown exactly when
    all rules of [show] hold and no rule of [hide] holds for a value that is there. *)
Theorem display_rules get isEqual regex_test to_string to_num node desc v shows hides root b :
  let values name := getPropertyValues get isEqual regex_test to_string to_num node desc v name root in
  let holds cs vs := checkConditions isEqual regex_test to_string to_num cs vs in
  vtruthy root = true →
  (∀ name cs vs, (name, cs) ∈ shows → values name = Ok vs → is_expression_list vs = false) →
  displayParameter get isEqual regex_test to_string to_num node desc v
    (mkDisplayable (Some (mkDisplayOptions (Some shows) (Some hides))) None) root KeyDisplayOptions = Ok b →
  b = true ↔
    (∀ name cs, (name, cs) ∈ shows → ∃ vs, values name = Ok vs ∧ holds cs vs = Ok true) ∧
    (∀ name cs, (name, cs) ∈ hides → ∃ vs, values name = Ok vs ∧ (vs = [] ∨ holds cs vs = Ok false)).
Proof.
  cbn zeta. intros Hroot Hexpr. unfold displayParameter. cbn [display_of displayOptions show hide default from_option id].
  rewrite Hroot. intros (r & Hr & H)%bind_Ok.
  destruct (show_rules_spec _ _ _ _ _ _ _ _ _ _ _ Hr Hexpr) as [[-> Hall]|(-> & n & cs & vs & Hin & Hvs & Hf)].
  - apply bind_Ok in H as (h & Hh & [= <-]).
    destruct (hide_rules_spec _ _ _ _ _ _ _ _ _ _ _ Hh) as [(-> & n & cs & vs & Hin & Hvs & Hne & Ht)|[-> Hhide]]; cbn.
    + split; [done|]. intros [_ Hhides]. destruct (Hhides n cs Hin) as (vs' & Hvs' & Hor).
      rewrite Hvs in Hvs'. injection Hvs' as <-. destruct Hor as [?|?]; [done|]. congruence.
    + by split.
  - injection H as <-. split; [done|]. intros [Hshow _]. destruct (Hshow n cs Hin) as (vs' & Hvs' & Ht).
    rewrite Hvs in Hvs'. injection Hvs' as <-. congruence.
Qed.

(** * Concrete parameters *)

(** A [get] for names without dots, and the equality of values. *)
Definition own_get (v : value) (path : string) : value := prop_of v path.

#[export] Instance own_get_lodash : LodashGet own_get.
Proof. intros o o' path H. apply H. by left. Qed.

Fixpoint value_eqb (v w : value) : bool :=
  match v, w with
  | VArr l, VArr k =>
      (fix list_eqb l k :=
         match l, k with
         | [], [] => true
         | a :: l, b :: k => value_eqb a b && list_eqb l k
         | _, _ => false
         end) l k
  | VObj l, VObj k =>
      (fix obj_eqb (l k : list (string * value)) :=
         match l, k with
         | [], [] => true
         | (x, a) :: l, (y, b) :: k => bool_decide (x = y) && value_eqb a b && obj_eqb l k
         | _, _ => false
         end) l k
  | _, _ => same_value v w
  end.

Definition always : Displayable := mkDisplayable None None.
Definition when (name : string) (v : value) : Displayable :=
  mkDisplayable (Some (mkDisplayOptions (Some [(name, [CondValue v])]) None)) None.

Definition simple_prop (name type : string) (d : value) (disp : Displayable) : INodeProperties :=
  mkProperty name name type d disp false None None None.

Definition ex_send : INodeProperties := simple_prop "send" "boolean" (VBool false) always.
Definition ex_message : INodeProperties := simple_prop "message" "string" (VStr "hi") (when "send" (VBool true)).
Definition ex_props : list INodeProperties := [ex_message; ex_send].
Definition ex_values : INodeParameters := [("send", VBool true); ("message", VStr "hello")].

Lemma ex_elem p : p ∈ ex_props → p = ex_message ∨ p = ex_send.
Proof. unfold ex_props. rewrite elem_of_cons, list_elem_of_singleton. tauto. Qed.

Lemma ex_mentions p d : p ∈ ex_props → mentions p d → p = ex_message ∧ d = "send".
Proof.
  intros Hp (options & Ho & Hd). destruct (ex_elem p Hp) as [->| ->]; [|done].
  injection Ho as <-. by apply list_elem_of_singleton in Hd.
Qed.

Lemma ex_simple : Forall simple ex_props.
Proof. repeat constructor; unfold simple; cbn; rewrite !elem_of_cons; intros [?|[?|?%not_elem_of_nil]]; done. Qed.

Lemma ex_nodup : NoDup (names_of ex_props).
Proof. by apply (bool_decide_unpack _). Qed.

Lemma strip_then_fill_witness :
  let run V rd := getNodeParameters own_get value_eqb (λ _ _, None) (λ _, "") (λ _, None) None None 2 ex_props (VObj V) rd false no_options in
  run ex_values false = Ok (VObj [("message", VStr "hello"); ("send", VBool true)]) ∧
  run [("message", VStr "hello"); ("send", VBool true)] true = run ex_values true.
Proof.
  split; [by vm_compute|].
  apply (strip_then_fill own_get value_eqb (λ _ _, None) (λ _, "") (λ _, None) None None ex_props ex_simple ex_nodup 0).
  - intros p Hp. by destruct (ex_elem p Hp) as [->| ->].
  - intros p Hp H. destruct (ex_elem p Hp) as [->| ->]; by vm_compute in H.
  - intros p q Hp Hq (name & Hm & Hk). destruct (ex_mentions p name Hp Hm) as [-> ->]. right. intros D _.
    destruct (ex_elem q Hq) as [->| ->]; [|done]. exfalso. revert Hk. apply (bool_decide_unpack (¬ _)). by vm_compute.
  - by vm_compute.
Defined.

Lemma resolve_order_sound_witness :
  getParameterResolveOrder ex_props (getParameterDependencies ex_props) = Ok [0; 1; 0] ∧
  ∃ l1 l2, [0; 1; 0] = l1 ++ 0 :: l2 ∧ 0 ∉ l2 ∧
    ∀ d, mentions ex_message d → starts_with "@" d = false → starts_with "/" d = false →
      ∃ j q, j ∈ l1 ∧ ex_props !! j = Some q ∧ p_name q = d.
Proof. split; [by vm_compute|]. by apply (resolve_order_sound ex_props [0; 1; 0] 0 ex_message). Defined.

Lemma resolve_order_listed_witness :
  getParameterResolveOrder [ex_send; ex_message] (getParameterDependencies [ex_send; ex_message]) = Ok (seq 0 2).
Proof.
  apply (resolve_order_listed [ex_send; ex_message]). intros i p d Hi (q & Hq & Hn & Hm & _) _.
  assert (q ∈ ex_props) as Hq' by (unfold ex_props; revert Hq; rewrite !elem_of_cons; tauto).
  destruct (ex_mentions q d Hq' Hm) as [-> ->]. destruct i as [|[|i]]; cbn in Hi; [|by left|done].
  injection Hi as <-. by vm_compute in Hn.
Defined.

Lemma display_depends_on_dependencies_witness :
  displayParameter own_get value_eqb (λ _ _, None) (λ _, "") (λ _, None) None None (VObj ex_values) (p_display ex_message) (VObj ex_values) KeyDisplayOptions =
  displayParameter own_get value_eqb (λ _ _, None) (λ _, "") (λ _, None) None None (VObj [("send", VBool true)]) (p_display ex_message) (VObj ex_values) KeyDisplayOptions.
Proof.
  apply (display_depends_on_dependencies own_get value_eqb _ _ _ _ _ ex_props ex_message ["send"]).
  - by left.
  - by vm_compute.
  - intros d Hm Hat. destruct (ex_mentions ex_message d ltac:(by left) Hm) as [_ ->]. done.
  - intros d Hd%list_elem_of_singleton. subst d. intros k Hk. cbn in Hk.
    apply elem_of_cons in Hk as [->|Hk%list_elem_of_singleton]; [done|by subst k].
Defined.

Lemma display_rules_witness :
  displayParameter own_get value_eqb (λ _ _, None) (λ _, "") (λ _, None) None None (VObj ex_values)
    (mkDisplayable (Some (mkDisplayOptions (Some [("send", [CondValue (VBool true)])]) (Some [("message", [CondValue (VStr "")])]))) None)
    (VObj ex_values) KeyDisplayOptions = Ok true ∧
  ∀ name cs, (name, cs) ∈ [("send", [CondValue (VBool true)])] →
    ∃ vs, getPropertyValues own_get value_eqb (λ _ _, None) (λ _, "") (λ _, None) None None (VObj ex_values) name (VObj ex_values) = Ok vs ∧
      checkConditions value_eqb (λ _ _, None) (λ _, "") (λ _, None) cs vs = Ok true.
Proof.
  split; [by vm_compute|].
  apply (display_rules own_get value_eqb (λ _ _, None) (λ _, "") (λ _, None) None None (VObj ex_values)
    [("send", [CondValue (VBool true)])] [("message", [CondValue (VStr "")])] (VObj ex_values) true); [done| |by vm_compute|done].
  intros name cs vs H%list_elem_of_singleton Hv. injection H as -> ->. vm_compute in Hv. by injection Hv as <-.
Defined.
