(* ===== verification/NodeParametersSafety.v ===== *)
(** NodeParametersSafety: [getNodeParameters] ends, and returns no parameter that is
    hidden, for properties nested to any depth. *)

From Stdlib Require Import ZArith QArith Qcanon Lia.
From stdpp Require Import numbers prelude list gmap strings pretty.
From S2P Require Import Prelude NodeParameters NodeParametersProofs.

#[local] Open Scope nat_scope.

(** * Running out of fuel *)

Definition no_fuel {A} (r : result NodeHelpersError A) : Prop := r ≠ Err OutOfFuel.

(** Two runs with enough fuel: the same result, which is not the lack of fuel. *)
Definition same_run {A} (r r' : result NodeHelpersError A) : Prop := r = r' ∧ no_fuel r.

Lemma no_fuel_Ok {A} (a : A) : no_fuel (Ok a).
Proof. done. Qed.

Lemma no_fuel_bind {A B} (c : result NodeHelpersError A) (f : A → result NodeHelpersError B) :
  no_fuel c → (∀ a, no_fuel (f a)) → no_fuel (c ≫= f).
Proof. intros Hc Hf. destruct c as [a|e]; cbn; [apply Hf|intros [= ->]; by apply Hc]. Qed.

Lemma no_fuel_of_option {A} m (o : option A) : no_fuel (of_option (TypeError m) o).
Proof. by destruct o. Qed.

Lemma same_run_refl {A} (r : result NodeHelpersError A) : no_fuel r → same_run r r.
Proof. by split. Qed.

Lemma same_run_bind {A B} (c c' : result NodeHelpersError A) (f f' : A → result NodeHelpersError B) :
  same_run c c' → (∀ a, c = Ok a → same_run (f a) (f' a)) → same_run (c ≫= f) (c' ≫= f').
Proof.
  intros [<- Hc] Hf. destruct c as [a|e]; cbn; [by apply Hf|]. split; [done|]. intros [= ->]. by apply Hc.
Qed.

Lemma same_run_foldM {A S} (f f' : S → A → result NodeHelpersError S) l s :
  (∀ s x, x ∈ l → same_run (f s x) (f' s x)) → same_run (foldM f s l) (foldM f' s l).
Proof.
  revert s. induction l as [|x l IH]; intros s H; cbn; [by split|].
  apply same_run_bind; [apply H; by left|]. intros s' _. apply IH. intros s2 y Hy. apply H. by right.
Qed.

Create HintDb fuel.
#[export] Hint Resolve no_fuel_Ok no_fuel_of_option : fuel.

(** Follows the binds, branches and loops of a computation. *)
Ltac no_fuel :=
  repeat first
    [ solve [eauto with fuel] | done
    | apply no_fuel_bind; [|intros ?]
    | match goal with
      | |- no_fuel (match ?x with _ => _ end) => destruct x
      | |- no_fuel (let _ := _ in _) => cbn zeta
      end ].

Section NoFuel.
Context (get : value → string → value) (isEqual : value → value → bool).
Context (regex_test : string → string → option bool).
Context (object_to_string : value → string) (string_to_number : string → option Qc).
Context (node : option Q) (nodeTypeDescription : option DescriptionInfo).

Abbreviation display :=
  (displayParameter get isEqual regex_test object_to_string string_to_number node nodeTypeDescription).
Abbreviation conditions := (checkConditions isEqual regex_test object_to_string string_to_number).

Lemma some_res_no_fuel {A} (f : A → result NodeHelpersError bool) l : (∀ x, no_fuel (f x)) → no_fuel (some_res f l).
Proof. intros H. induction l as [|x l IH]; cbn; no_fuel. Qed.

Lemma every_res_no_fuel {A} (f : A → result NodeHelpersError bool) l : (∀ x, no_fuel (f x)) → no_fuel (every_res f l).
Proof. intros H. induction l as [|x l IH]; cbn; no_fuel. Qed.

Lemma condition_no_fuel c v : no_fuel (condition_holds isEqual regex_test object_to_string string_to_number c v).
Proof. unfold condition_holds. destruct c, v; try done. by destruct (regex_test _ _). Qed.

Lemma checkConditions_no_fuel cs vs : no_fuel (conditions cs vs).
Proof.
  apply some_res_no_fuel. intros [v|c]; [done|]. case_decide; [done|].
  apply every_res_no_fuel. intros v. apply condition_no_fuel.
Qed.

Lemma foldM_no_fuel {A S} (f : S → A → result NodeHelpersError S) s l : (∀ s x, no_fuel (f s x)) → no_fuel (foldM f s l).
Proof. intros H. revert s. induction l as [|x l IH]; intros s; cbn; no_fuel. Qed.

Hint Resolve checkConditions_no_fuel : fuel.

Lemma getPropertyValues_no_fuel v name root :
  no_fuel (getPropertyValues get isEqual regex_test object_to_string string_to_number node nodeTypeDescription v name root).
Proof.
  unfold getPropertyValues, property_values. no_fuel. unfold getNodeFeatures, evaluateFeature.
  apply foldM_no_fuel. intros s [k c]. no_fuel.
Qed.

Hint Resolve getPropertyValues_no_fuel : fuel.

Lemma displayParameter_no_fuel v p root key : no_fuel (display v p root key).
Proof.
  unfold displayParameter. destruct (display_of p key) as [options|]; [|done]. cbn zeta.
  apply no_fuel_bind; [|intros [b|]; [done|]; apply no_fuel_bind; [|by intros ?]].
  - induction (default [] (show options)) as [|[n cs] rules IH]; cbn [show_rules]; no_fuel.
  - induction (default [] (hide options)) as [|[n cs] rules IH]; cbn [hide_rules]; no_fuel.
Qed.

(** * The depth of the properties *)

Fixpoint property_depth (p : INodeProperties) : nat :=
  S (max (match p_options p with Some l => max_list_with property_depth l | None => 0 end)
         (match p_values p with Some l => max_list_with property_depth l | None => 0 end)).

Definition props_depth (props : list INodeProperties) : nat := max_list_with property_depth props.

Lemma props_depth_elem props p : p ∈ props → property_depth p ≤ props_depth props.
Proof.
  unfold props_depth. induction props as [|q props IH]; [by intros ?%not_elem_of_nil|].
  intros [->|Hp]%elem_of_cons; cbn; [lia|]. specialize (IH Hp). lia.
Qed.

Lemma options_depth p options : p_options p = Some options → props_depth options < property_depth p.
Proof. destruct p; cbn. intros ->. unfold props_depth. lia. Qed.

Lemma values_depth p values : p_values p = Some values → props_depth values < property_depth p.
Proof. destruct p; cbn. intros ->. unfold props_depth. lia. Qed.

(** * Enough fuel *)

Abbreviation Run := (list INodeProperties → value → bool → bool → GetNodeParametersOptions → result NodeHelpersError value).

Section SameRun.
Context (self self' : Run) (rd rnd : bool) (n : nat).
Hypothesis Hself : ∀ ps v a b options, props_depth ps < n → same_run (self ps v a b options) (self' ps v a b options).

Lemma item_same_run p o root v : property_depth o ≤ n →
  same_run (item_parameters self rd rnd p o root v) (item_parameters self' rd rnd p o root v).
Proof.
  intros Ho. unfold item_parameters. destruct (p_values o) as [values|] eqn:Hv; cbn [of_option mbind result_bind]; [|by split].
  apply Hself. pose proof (values_depth _ _ Hv). lia.
Qed.

Lemma find_option_elem p itemName o :
  find_option p itemName = Ok (Some o) → property_depth p ≤ n → property_depth o ≤ n.
Proof.
  unfold find_option. destruct (p_options p) as [options|] eqn:Ho; cbn; [|done]. intros [= Hf] Hp.
  destruct (list_find _ options) as [[i o']|] eqn:Hl; [|done]. injection Hf as ->.
  apply list_find_Some in Hl as (Hl & _). apply list_elem_of_lookup_2, props_depth_elem in Hl.
  pose proof (options_depth _ _ Ho). lia.
Qed.

Lemma collection_same_run p stored root c : property_depth p ≤ n →
  same_run (collection_property self rd rnd p stored root c) (collection_property self' rd rnd p stored root c).
Proof.
  intros Hp. unfold collection_property. cbn zeta. case_decide; [by split|].
  destruct (negb (is_undef stored)); [|by destruct rd].
  destruct (p_options p) as [options|] eqn:Ho; cbn [of_option mbind result_bind]; [|by split].
  apply same_run_bind; [|by intros]. apply Hself. pose proof (options_depth _ _ Ho). lia.
Qed.

Lemma find_option_no_fuel p itemName : no_fuel (find_option p itemName).
Proof. unfold find_option. by destruct (p_options p). Qed.

Lemma fixed_multiple_same_run p root pv s itemName : property_depth p ≤ n →
  same_run (fixed_multiple self rd rnd p root pv s itemName) (fixed_multiple self' rd rnd p root pv s itemName).
Proof.
  intros Hp. unfold fixed_multiple. destruct pv; try by split.
  apply same_run_bind; [apply same_run_refl, find_option_no_fuel|]. intros [po|] Hpo; [|by split].
  apply same_run_bind; [apply same_run_refl; by destruct (prop_of _ _)|]. intros items _.
  apply same_run_bind; [|by intros]. apply same_run_foldM. intros acc v _.
  apply same_run_bind; [|by intros]. apply item_same_run. by eapply find_option_elem.
Qed.

Lemma object_keys_no_fuel v : no_fuel (object_keys v).
Proof. by destruct v. Qed.

Lemma fixed_item_same_run p root stored itemName po : property_depth po ≤ n →
  same_run (fixed_item isEqual self rd rnd p root stored itemName po) (fixed_item isEqual self' rd rnd p root stored itemName po).
Proof.
  intros Hp. unfold fixed_item.
  apply same_run_bind; [apply same_run_refl; by destruct stored|]. intros v _.
  apply same_run_bind; [by apply item_same_run|]. intros t _. apply same_run_refl.
  destruct t; try done; (apply no_fuel_bind; [apply object_keys_no_fuel|intros keys]);
    (case_decide; [|done]); (apply no_fuel_bind; [|done]); unfold has_non_default;
    (destruct (vtruthy v); [|done]); (apply no_fuel_bind; [apply object_keys_no_fuel|done]).
Qed.

Lemma fixed_single_same_run p root stored pv s itemName : property_depth p ≤ n →
  same_run (fixed_single isEqual self rd rnd p root stored pv s itemName) (fixed_single isEqual self' rd rnd p root stored pv s itemName).
Proof.
  intros Hp. unfold fixed_single.
  apply same_run_bind; [apply same_run_refl, find_option_no_fuel|]. intros [po|] Hpo.
  - apply same_run_bind; [|by intros [??]]. apply fixed_item_same_run. by eapply find_option_elem.
  - by split.
Qed.

Lemma fixedCollection_same_run p nv stored root c : property_depth p ≤ n →
  same_run (fixedCollection_property isEqual self rd rnd p nv stored root c)
    (fixedCollection_property isEqual self' rd rnd p nv stored root c).
Proof.
  intros Hp. unfold fixedCollection_property. cbn zeta.
  apply same_run_bind; [apply same_run_refl; destruct (vtruthy _); [apply object_keys_no_fuel|done]|]. intros names _.
  destruct (_ && _ && _ && _); [by split|].
  apply same_run_bind; [|by intros [??]]. apply same_run_foldM. intros s name _.
  case_decide; [by apply fixed_multiple_same_run|by apply fixed_single_same_run].
Qed.

Lemma step_same_run nv options dc root dups c p : property_depth p ≤ n →
  same_run
    (parameter_step get isEqual regex_test object_to_string string_to_number node nodeTypeDescription self nv rd rnd options dc root dups c p)
    (parameter_step get isEqual regex_test object_to_string string_to_number node nodeTypeDescription self' nv rd rnd options dc root dups c p).
Proof.
  intros Hp. unfold parameter_step. cbn zeta. destruct (_ || _); [by split|].
  apply same_run_bind; [apply same_run_refl; destruct rnd; [done|apply displayParameter_no_fuel]|]. intros [] _; cbn [negb]; [|by split].
  apply same_run_bind.
  { apply same_run_refl. case_decide; [done|]. apply no_fuel_bind; [|done]. case_decide; [apply displayParameter_no_fuel|done]. }
  intros [c' go_on] _. destruct (_ || _); [by split|].
  case_decide; [apply same_run_bind; [by apply collection_same_run|by intros]|].
  case_decide; [by apply fixedCollection_same_run|by split].
Qed.

End SameRun.

Lemma loop_same_run (f f' : Collected → INodeProperties → result NodeHelpersError Flow) props c order :
  (∀ c p, p ∈ props → same_run (f c p) (f' c p)) → same_run (parameter_loop f props c order) (parameter_loop f' props c order).
Proof.
  intros H. revert c. induction order as [|i order IH]; intros c; cbn [parameter_loop]; [by split|].
  destruct (props !! i) as [p|] eqn:Hp; cbn [of_option mbind result_bind]; [|by split].
  apply same_run_bind; [apply H; by eapply list_elem_of_lookup_2|]. intros [c'|v] _; [apply IH|by split].
Qed.

Abbreviation node_parameters :=
  (getNodeParameters get isEqual regex_test object_to_string string_to_number node nodeTypeDescription).
Abbreviation step :=
  (parameter_step get isEqual regex_test object_to_string string_to_number node nodeTypeDescription).

(** A run over the simple types makes no recursive call on lower levels. *)
Lemma step_only_simple self self' nv rd rnd options dc root dups c p :
  onlySimpleTypes options = true →
  step self nv rd rnd options dc root dups c p = step self' nv rd rnd options dc root dups c p ∧
  no_fuel (step self nv rd rnd options dc root dups c p).
Proof.
  intros Ho. unfold parameter_step. cbn zeta. destruct (_ || _); [by split|].
  apply same_run_bind; [apply same_run_refl; destruct rnd; [done|apply displayParameter_no_fuel]|].
  intros [] _; cbn [negb]; [|by split]. apply same_run_bind.
  { apply same_run_refl. case_decide; [done|]. apply no_fuel_bind; [|done]. case_decide; [apply displayParameter_no_fuel|done]. }
  intros [c' go_on] _. rewrite Ho, orb_true_r. by split.
Qed.

Lemma simple_run fuel fuel' props v rd options :
  1 ≤ fuel → 1 ≤ fuel' → onlySimpleTypes options = true →
  same_run (node_parameters fuel props v rd true options) (node_parameters fuel' props v rd true options).
Proof.
  intros Hf Hf' Ho. destruct fuel as [|fuel]; [lia|]. destruct fuel' as [|fuel']; [lia|]. cbn [getNodeParameters]. cbn zeta.
  rewrite andb_false_r. cbn [mbind result_bind].
  apply same_run_bind; [apply same_run_refl, resolve_order_no_fuel|]. intros order _.
  apply loop_same_run. intros c p _. by apply step_only_simple.
Qed.

Lemma enough_fuel n fuel fuel' props v rd rnd options :
  props_depth props < n → n < fuel → n < fuel' →
  same_run (node_parameters fuel props v rd rnd options) (node_parameters fuel' props v rd rnd options).
Proof.
  revert fuel fuel' props v rd rnd options. induction n as [|n IH]; intros fuel fuel' props v rd rnd options Hd Hf Hf'; [lia|].
  destruct fuel as [|fuel]; [lia|]. destruct fuel' as [|fuel']; [lia|]. cbn [getNodeParameters]. cbn zeta.
  apply same_run_bind.
  { destruct (_ && _); [|by split]. apply same_run_bind; [|by intros]. apply simple_run; [lia|lia|done]. }
  intros dc _. apply same_run_bind; [apply same_run_refl, resolve_order_no_fuel|]. intros order _.
  apply loop_same_run. intros c p Hp. apply (step_same_run _ _ _ _ n).
  - intros ps w a b opts Hps. apply IH; lia.
  - pose proof (props_depth_elem _ _ Hp). lia.
Qed.

(** [getNodeParameters] ends on properties nested to any depth: with two more
    units of fuel than that depth it always comes to the same result, a value or an
    error the code throws. *)
Theorem getNodeParameters_total props v rd rnd options :
  ∃ r, r ≠ Err OutOfFuel ∧ ∀ fuel, props_depth props + 2 ≤ fuel → node_parameters fuel props v rd rnd options = r.
Proof.
  exists (node_parameters (props_depth props + 2) props v rd rnd options).
  destruct (enough_fuel (S (props_depth props)) (props_depth props + 2) (props_depth props + 2) props v rd rnd options) as [_ H]; [lia..|].
  split; [exact H|]. intros fuel Hf. symmetry. apply (enough_fuel (S (props_depth props))); lia.
Qed.

(** * Only what is shown is returned *)

Section Shown.
Context (props : list INodeProperties) (nv : value) (rd : bool) (options : GetNodeParametersOptions).
Context (self : Run) (dc root : value) (dups : list string).

(** Some property of the name [k] is shown. *)
Definition shown_name (k : string) : Prop :=
  ∃ p, p ∈ props ∧ p_name p = k ∧ display dc (p_display p) root KeyDisplayOptions = Ok true.

Definition only_shown (c : Collected) : Prop :=
  jm_wf (nodeParameters c) ∧ ∀ k, k ∈ jm_keys (nodeParameters c) → shown_name k.

Lemma set_only_shown c name v : shown_name name → only_shown c → only_shown (set_only c name v).
Proof.
  intros Hn [Hwf Hk]. unfold set_only. split; cbn [nodeParameters]; [by apply jm_wf_set|]. intros k. rewrite jm_keys_set.
  case_decide; [apply Hk|]. rewrite elem_of_app, list_elem_of_singleton. intros [?| ->]; [by apply Hk|done].
Qed.

Lemma copy_full_shown c name : only_shown c → only_shown (copy_full c name).
Proof. done. Qed.

Lemma set_both_shown c name v : shown_name name → only_shown c → only_shown (set_both c name v).
Proof. apply set_only_shown. Qed.

Lemma strip_expression_shown p c : shown_name (p_name p) → only_shown c → only_shown (strip_expression p c).
Proof.
  intros Hn Hc. unfold strip_expression. destruct (jm_get _ _) as [[| | | |[|x s]| |]|]; try done.
  destruct (_ && _); [by apply set_both_shown|done].
Qed.

Lemma simple_property_shown parent p stored c :
  shown_name (p_name p) → only_shown c → only_shown (simple_property isEqual rd parent p stored c).1.
Proof.
  intros Hn Hc. unfold simple_property. destruct rd; [by apply strip_expression_shown, set_both_shown|].
  destruct (is_kept _ _ _ _); [by apply set_both_shown|by apply strip_expression_shown].
Qed.

Lemma collection_shown p stored r c c' :
  shown_name (p_name p) → only_shown c → collection_property self rd false p stored r c = Ok c' → only_shown c'.
Proof.
  intros Hn Hc. unfold collection_property. cbn zeta. case_decide.
  - intros [= <-]. apply copy_full_shown. destruct (negb _); [by apply set_only_shown|]. destruct rd; [by apply set_only_shown|done].
  - destruct (negb _).
    + intros (os & _ & (t & _ & [= <-])%bind_Ok)%bind_Ok. destruct t; try done; by apply set_both_shown.
    + destruct rd; intros [= <-]; [by apply set_both_shown|done].
Qed.

(** The empty object of a fixedCollection that allows one value. *)
Definition empty_single (p : INodeProperties) : Prop :=
  p_type p = "fixedCollection" ∧ p_multipleValues p = Some false ∧ shown_name (p_name p) ∧
  vtruthy (prop_of nv (p_name p)) = true ∧ object_keys (prop_of nv (p_name p)) = Ok [].

Definition step_result (p : INodeProperties) (f : Flow) : Prop :=
  match f with Continue c => only_shown c | Return v => v = nv ∧ rd = false ∧ empty_single p end.

Lemma fixedCollection_shown p r c f :
  p_type p = "fixedCollection" → shown_name (p_name p) → only_shown c →
  fixedCollection_property isEqual self rd false p nv (prop_of nv (p_name p)) r c = Ok f → step_result p f.
Proof.
  intros Ht Hn Hc. unfold fixedCollection_property. cbn zeta. intros (names & Hnames & H)%bind_Ok.
  destruct (_ && bool_decide (names = [])) eqn:Hempty.
  - injection H as <-. rewrite !andb_true_iff in Hempty. destruct Hempty as [[[Hrd Hm] Htr] ->%bool_decide_eq_true].
    apply bool_decide_eq_true in Hm. apply negb_true_iff in Hrd. rewrite Hrd in Htr, Hnames. cbn [andb] in *.
    rewrite Htr in Hnames. by split_and!.
  - apply bind_Ok in H as ([cv vis] & _ & [= <-]). cbn.
    destruct (_ || _); [apply set_both_shown; [done|]|]; (destruct (_ && negb (bool_decide (names = []))); [by apply set_only_shown|done]).
Qed.

Lemma step_shown c p f : p ∈ props →
  only_shown c → step self nv rd false options (Some dc) (Some root) dups c p = Ok f → step_result p f.
Proof.
  intros Hp Hc. unfold parameter_step. cbn zeta. destruct (_ || _); [by intros [= <-]|].
  cbn [default from_option id]. intros (b & Hb & H)%bind_Ok. destruct b; cbn [negb] in H; [|by injection H as <-].
  assert (Hn : shown_name (p_name p)) by by exists p.
  apply bind_Ok in H as ([c' go_on] & Hs & H).
  assert (Hc' : only_shown c').
  { destruct (decide (p_type p ∈ _)); [by injection Hs as <- _|]. apply bind_Ok in Hs as ([] & _ & Hs); [|by injection Hs as <- _].
    injection Hs as Hs. replace c' with (simple_property isEqual rd (parentType options) p (prop_of nv (p_name p)) c).1 by (by rewrite Hs).
    by apply simple_property_shown. }
  destruct (_ || _); [by injection H as <-|]. destruct (decide (p_type p = "collection")).
  - apply bind_Ok in H as (c2 & Hcol & [= <-]). by eapply collection_shown.
  - destruct (decide (p_type p = "fixedCollection")); [by eapply fixedCollection_shown|by injection H as <-].
Qed.

Lemma loop_shown c order v : only_shown c →
  parameter_loop (step self nv rd false options (Some dc) (Some root) dups) props c order = Ok v →
  (∃ o, v = VObj o ∧ jm_wf o ∧ ∀ k, k ∈ jm_keys o → shown_name k) ∨
  (v = nv ∧ rd = false ∧ ∃ p, p ∈ props ∧ empty_single p).
Proof.
  revert c. induction order as [|i order IH]; intros c Hc; cbn [parameter_loop].
  - intros [= <-]. left. exists (nodeParameters c). split; [done|]. exact Hc.
  - intros (p & Hp%of_option_Ok & (f & Hf & H)%bind_Ok)%bind_Ok.
    assert (p ∈ props) as Hin by by eapply list_elem_of_lookup_2.
    pose proof (step_shown c p f Hin Hc Hf) as Hr. destruct f as [c'|w]; [by eapply IH|].
    injection H as <-. destruct Hr as (-> & -> & He). right. eauto.
Qed.

End Shown.

(** C34: When hidden parameters are left out, every parameter that is returned has a
    property of its name that the rules of its display show, given the values filled
    in for all of them.  The exception is a stored fixedCollection that is an empty
    object: the run then gives back all stored values as they are. *)
Theorem returns_only_shown fuel props nv rd v :
  node_parameters (S fuel) props nv rd false no_options = Ok v →
  ∃ D, node_parameters fuel props nv true true (full_options props) = Ok D ∧
    ((∃ o, v = VObj o ∧ jm_wf o ∧ ∀ k, k ∈ jm_keys o → shown_name props D D k) ∨
     (v = nv ∧ rd = false ∧ ∃ p, p ∈ props ∧ empty_single props nv D D p)).
Proof.
  cbn [getNodeParameters]. cbn zeta. change (negb (dataIsResolved no_options) && negb false) with true. cbn iota.
  intros (dc & (D & HD & [= <-])%bind_Ok & (order & _ & H)%bind_Ok)%bind_Ok.
  exists D. split; [exact HD|]. cbn in H. eapply loop_shown; [|exact H].
  split; [by apply NoDup_nil|]. by intros k ?%not_elem_of_nil.
Qed.

End NoFuel.

(** * Concrete runs *)

Definition ex_run (props : list INodeProperties) (V : INodeParameters) (rd : bool) : result NodeHelpersError value :=
  getNodeParameters own_get value_eqb (λ _ _, None) (λ _, "") (λ _, None) None None 4 props (VObj V) rd false no_options.

Lemma returns_only_shown_witness :
  ∃ D, getNodeParameters own_get value_eqb (λ _ _, None) (λ _, "") (λ _, None) None None 3 ex_props (VObj [("message", VStr "x")])
         true true (full_options ex_props) = Ok D ∧
    ((∃ o, VObj [("send", VBool false)] = VObj o ∧ jm_wf o ∧ ∀ k, k ∈ jm_keys o →
        shown_name own_get value_eqb (λ _ _, None) (λ _, "") (λ _, None) None None ex_props D D k) ∨
     (VObj [("send", VBool false)] = VObj [("message", VStr "x")] ∧ true = false ∧
      ∃ p, p ∈ ex_props ∧ empty_single own_get value_eqb (λ _ _, None) (λ _, "") (λ _, None) None None ex_props (VObj [("message", VStr "x")]) D D p)).
Proof.
  apply (returns_only_shown own_get value_eqb (λ _ _, None) (λ _, "") (λ _, None) None None 3 ex_props (VObj [("message", VStr "x")]) true).
  by vm_compute.
Defined.

(** A fixedCollection with one item, whose field [field] has the default ["d"]. *)
Definition ex_fixed (d : value) : INodeProperties :=
  mkProperty "rules" "rules" "fixedCollection" d always false (Some false)
    (Some [mkProperty "item" "item" "" VUndef always false None None (Some [simple_prop "field" "string" (VStr "d") always])]) None.

(** Filling in a default that names an item reads the item of the value that is not there. *)
Theorem fixedCollection_default_throws :
  ex_run [ex_fixed (VObj [("item", VObj [("field", VStr "e")])])] [] true = Err (TypeError "Cannot read properties").
Proof. by vm_compute. Qed.

(** An empty fixedCollection makes the run return every stored value, also those that
    are hidden, equal to their default or not declared at all. *)
Theorem empty_fixedCollection_returns_all :
  let V := [("message", VStr "secret"); ("send", VBool false); ("unknown", VNull); ("rules", VObj [])] in
  ex_run (ex_props ++ [ex_fixed (VObj [])]) V false = Ok (VObj V).
Proof. by vm_compute. Qed.

(** [kind] is shown for advanced users, [extra] when the kind is [custom]. *)
Definition ex_hidden : list INodeProperties :=
  [simple_prop "advanced" "boolean" (VBool false) always;
   simple_prop "kind" "options" (VStr "basic") (when "advanced" (VBool true));
   simple_prop "extra" "string" (VStr "") (when "kind" (VStr "custom"))].

(** A hidden parameter that shows another one is not saved, and the other one is
    lost when the node is opened again. *)
Theorem hidden_control_is_lost :
  let V := [("advanced", VBool false); ("kind", VStr "custom"); ("extra", VStr "text")] in
  ex_run ex_hidden V true = Ok (VObj [("advanced", VBool false); ("extra", VStr "text")]) ∧
  ex_run ex_hidden V false = Ok (VObj [("extra", VStr "text")]) ∧
  ex_run ex_hidden [("extra", VStr "text")] true = Ok (VObj [("advanced", VBool false)]).
Proof. by vm_compute. Qed.
