(* ===== verification/CrdtProtocol.v ===== *)
(** CrdtProtocol: the messages of collaborative documents.

    packages/@n8n/crdt/src/protocol.ts: a message is a type byte and a payload; on
    the way to and from a worker the identifier of its document stands between
    them.  Strings are sequences of UTF-16 code units, bytes are numbers below 256;
    [TextEncoder] and [TextDecoder] are modelled after the encoding standard. *)

From Stdlib Require Import ZArith Lia.
From stdpp Require Import prelude list.
From S2P Require Import Prelude.

#[local] Open Scope Z_scope.

Abbreviation bytes := (list Z) (only parsing).
Abbreviation js_string := (list Z) (only parsing).

(** * Text *)

Definition is_high (u : Z) : bool := (0xD800 <=? u) && (u <? 0xDC00).
Definition is_low (u : Z) : bool := (0xDC00 <=? u) && (u <? 0xE000).
Definition replacement : Z := 0xFFFD.
Definition byte_order_mark : Z := 0xFEFF.

(** The scalar values of a string; a lone surrogate becomes the replacement character. *)
Fixpoint scalars (s : js_string) : list Z :=
  match s with
  | [] => []
  | u :: rest =>
      if is_high u then
        match rest with
        | v :: rest' =>
            if is_low v then (0x10000 + (u - 0xD800) * 1024 + (v - 0xDC00)) :: scalars rest'
            else replacement :: scalars rest
        | [] => [replacement]
        end
      else (if is_low u then replacement else u) :: scalars rest
  end.

(** The code units of a scalar value. *)
Definition units (c : Z) : js_string :=
  if c <? 0x10000 then [c]
  else [0xD800 + (c - 0x10000) / 1024; 0xDC00 + (c - 0x10000) mod 1024].

(** The UTF-8 bytes of a scalar value. *)
Definition utf8 (c : Z) : bytes :=
  if c <? 0x80 then [c]
  else if c <? 0x800 then [0xC0 + c / 64; 0x80 + c mod 64]
  else if c <? 0x10000 then [0xE0 + c / 4096; 0x80 + c / 64 mod 64; 0x80 + c mod 64]
  else [0xF0 + c / 262144; 0x80 + c / 4096 mod 64; 0x80 + c / 64 mod 64; 0x80 + c mod 64].

(** [TextEncoder.encode] *)
Definition encode_text (s : js_string) : bytes := scalars s ≫= utf8.

(** The decoder: the scalar value read so far, the number of bytes it still needs and
    the range of the next one. *)
Record Decoder := mkDecoder {
  code_point : Z;
  needed : nat;
  lower : Z;
  upper : Z;
}.

Definition decoder_start : Decoder := mkDecoder 0 0 0x80 0xBF.

(** A byte that begins a character: the new state and what is emitted. *)
Definition lead_byte (b : Z) : Decoder * list Z :=
  if b <? 0x80 then (decoder_start, [b])
  else if (0xC2 <=? b) && (b <=? 0xDF) then (mkDecoder (b mod 32) 1 0x80 0xBF, [])
  else if (0xE0 <=? b) && (b <=? 0xEF) then
    (mkDecoder (b mod 16) 2 (if b =? 0xE0 then 0xA0 else 0x80) (if b =? 0xED then 0x9F else 0xBF), [])
  else if (0xF0 <=? b) && (b <=? 0xF4) then
    (mkDecoder (b mod 8) 3 (if b =? 0xF0 then 0x90 else 0x80) (if b =? 0xF4 then 0x8F else 0xBF), [])
  else (decoder_start, [replacement]).

Definition decode_byte (d : Decoder) (b : Z) : Decoder * list Z :=
  match needed d with
  | O => lead_byte b
  | S n =>
      if (lower d <=? b) && (b <=? upper d) then
        let c := code_point d * 64 + b mod 64 in
        match n with
        | O => (decoder_start, [c])
        | S _ => (mkDecoder c n 0x80 0xBF, [])
        end
      else let '(d, out) := lead_byte b in (d, replacement :: out)
  end.

Fixpoint decode_loop (d : Decoder) (bs : bytes) : list Z :=
  match bs with
  | [] => match needed d with O => [] | S _ => [replacement] end
  | b :: bs => let '(d, out) := decode_byte d b in out ++ decode_loop d bs
  end.

(** [TextDecoder.decode], which leaves out a byte order mark at the start. *)
Definition decode_text (bs : bytes) : js_string :=
  let cs := decode_loop decoder_start bs in
  (match cs with c :: cs' => if c =? byte_order_mark then cs' else cs | [] => [] end) ≫= units.

(** * Messages *)

Definition MESSAGE_SYNC : Z := 0.
Definition MESSAGE_AWARENESS : Z := 1.
Definition MESSAGE_SUBSCRIBE : Z := 2.
Definition MESSAGE_UNSUBSCRIBE : Z := 3.
Definition MESSAGE_CONNECTED : Z := 4.
Definition MESSAGE_DISCONNECTED : Z := 5.
Definition MESSAGE_INITIAL_SYNC : Z := 6.

Inductive ProtocolError :=
| EmptyMessage
| NoDocId
| TruncatedDocId.

(** What a cell of a [Uint8Array] keeps of a number. *)
Definition to_uint8 (z : Z) : Z := z mod 256.

Definition encodeMessage (messageType : Z) (payload : bytes) : bytes := to_uint8 messageType :: payload.

Definition decodeMessage (data : bytes) : result ProtocolError (Z * bytes) :=
  match data with
  | [] => Err EmptyMessage
  | messageType :: payload => Ok (messageType, payload)
  end.

Definition encodeWithDocId (messageType : Z) (docId : js_string) (payload : bytes) : bytes :=
  let docIdBytes := encode_text docId in
  let docIdLen := Z.of_nat (length docIdBytes) in
  to_uint8 messageType :: to_uint8 (Z.land (Z.shiftr docIdLen 8) 0xff) :: to_uint8 (Z.land docIdLen 0xff)
    :: docIdBytes ++ payload.

Record WorkerMessage := mkWorkerMessage {
  messageType : Z;
  docId : js_string;
  payload : bytes;
}.

Definition decodeWithDocId (data : bytes) : result ProtocolError WorkerMessage :=
  match data with
  | messageType :: high :: low :: rest =>
      let docIdLen := Z.to_nat (Z.lor (Z.shiftl high 8) low) in
      if decide (length data < 3 + docIdLen)%nat then Err TruncatedDocId
      else Ok (mkWorkerMessage messageType (decode_text (take docIdLen rest)) (drop docIdLen rest))
  | _ => Err NoDocId
  end.

Definition stripDocId (data : bytes) : result ProtocolError bytes :=
  m ← decodeWithDocId data; Ok (encodeMessage (messageType m) (payload m)).

Definition addDocId (docId : js_string) (data : bytes) : result ProtocolError bytes :=
  '(messageType, payload) ← decodeMessage data; Ok (encodeWithDocId messageType docId payload).

Definition encodeString (str : js_string) : bytes := encode_text str.
Definition decodeString (data : bytes) : js_string := decode_text data.

(** * Text round trip *)

Definition is_scalar (c : Z) : bool :=
  (0 <=? c) && (c <? 0x110000) && negb ((0xD800 <=? c) && (c <? 0xE000)).

(** A string of code units without lone surrogates. *)
Fixpoint well_formed (s : js_string) : bool :=
  match s with
  | [] => true
  | u :: rest =>
      if is_high u then match rest with v :: rest' => is_low v && well_formed rest' | [] => false end
      else negb (is_low u) && (0 <=? u) && (u <? 0x10000) && well_formed rest
  end.

Lemma scalars_well_formed s :
  well_formed s = true → Forall (λ c, is_scalar c = true) (scalars s) ∧ scalars s ≫= units = s.
Proof.
  induction s as [s IH] using (well_founded_induction (well_founded_ltof _ (@length Z))).
  destruct s as [|u rest]; [by split|]. cbn [well_formed scalars]. destruct (is_high u) eqn:Hh.
  - destruct rest as [|v rest']; [done|]. intros [Hl Hw]%andb_true_iff. rewrite Hl.
    destruct (IH rest') as [Hs Hu]; [unfold ltof; cbn; lia|done|].
    unfold is_high, is_low in *. rewrite andb_true_iff in *. split.
    + constructor; [|done]. unfold is_scalar. lia.
    + cbn [mbind list_bind]. rewrite Hu. unfold units.
      destruct (Z.ltb_spec (0x10000 + (u - 0xD800) * 1024 + (v - 0xDC00)) 0x10000); [lia|].
      cbn [app]. f_equal; [|f_equal]; Z.to_euclidean_division_equations; lia.
  - rewrite !andb_true_iff. intros [[[Hl H0] Hlt] Hw]. apply negb_true_iff in Hl. rewrite Hl.
    destruct (IH rest) as [Hs Hu]; [unfold ltof; cbn; lia|done|]. split.
    + constructor; [|done]. unfold is_scalar, is_high, is_low in *. lia.
    + cbn [mbind list_bind]. rewrite Hu. unfold units. by rewrite Hlt.
Qed.

(** Decides the tests of the decoder from the bounds in the context. *)
Ltac decide_bytes :=
  repeat match goal with
  | |- context [?a <? ?b] => first [rewrite (proj2 (Z.ltb_lt a b)) by lia | rewrite (proj2 (Z.ltb_ge a b)) by lia]
  | |- context [?a <=? ?b] => first [rewrite (proj2 (Z.leb_le a b)) by lia | rewrite (proj2 (Z.leb_gt a b)) by lia]
  | |- context [?a =? ?b] => first [rewrite (proj2 (Z.eqb_eq a b)) by lia | rewrite (proj2 (Z.eqb_neq a b)) by lia]
  end; cbn [andb orb negb].

Lemma lead_two b : 0xC2 <= b <= 0xDF → lead_byte b = (mkDecoder (b mod 32) 1 0x80 0xBF, []).
Proof. intros H. unfold lead_byte. decide_bytes. done. Qed.

Lemma lead_three b : 0xE0 <= b <= 0xEF →
  lead_byte b = (mkDecoder (b mod 16) 2 (if b =? 0xE0 then 0xA0 else 0x80) (if b =? 0xED then 0x9F else 0xBF), []).
Proof. intros H. unfold lead_byte. decide_bytes. done. Qed.

Lemma lead_four b : 0xF0 <= b <= 0xF4 →
  lead_byte b = (mkDecoder (b mod 8) 3 (if b =? 0xF0 then 0x90 else 0x80) (if b =? 0xF4 then 0x8F else 0xBF), []).
Proof. intros H. unfold lead_byte. decide_bytes. done. Qed.

(** A byte in the range the decoder expects. *)
Lemma next_byte c n lo hi b bs :
  lo <= b <= hi →
  decode_loop (mkDecoder c (S n) lo hi) (b :: bs) =
  match n with
  | O => (c * 64 + b mod 64) :: decode_loop decoder_start bs
  | S _ => decode_loop (mkDecoder (c * 64 + b mod 64) n 0x80 0xBF) bs
  end.
Proof.
  intros [H1 H2]. cbn [decode_loop decode_byte needed lower upper code_point].
  rewrite (proj2 (Z.leb_le lo b)) by done. rewrite (proj2 (Z.leb_le b hi)) by done. cbn [andb]. by destruct n.
Qed.

Lemma first_byte b bs d : lead_byte b = (d, []) → decode_loop decoder_start (b :: bs) = decode_loop d bs.
Proof. intros H. cbn [decode_loop decode_byte needed decoder_start]. by rewrite H. Qed.

Lemma decode_utf8 c bs :
  is_scalar c = true → decode_loop decoder_start (utf8 c ++ bs) = c :: decode_loop decoder_start bs.
Proof.
  unfold is_scalar. rewrite !andb_true_iff, Z.leb_le, Z.ltb_lt, negb_true_iff, andb_false_iff, Z.leb_gt, Z.ltb_ge.
  intros [[H0 Hmax] Hsur]. unfold utf8.
  destruct (Z.ltb_spec c 0x80); [|destruct (Z.ltb_spec c 0x800); [|destruct (Z.ltb_spec c 0x10000)]]; cbn [app].
  - cbn [decode_loop decode_byte needed decoder_start]. unfold lead_byte. by decide_bytes.
  - rewrite (first_byte _ _ _ (lead_two (0xC0 + c / 64) ltac:(Z.to_euclidean_division_equations; lia))).
    rewrite next_byte by (Z.to_euclidean_division_equations; lia).
    f_equal. Z.to_euclidean_division_equations; lia.
  - rewrite (first_byte _ _ _ (lead_three (0xE0 + c / 4096) ltac:(Z.to_euclidean_division_equations; lia))).
    rewrite next_byte.
    2: { destruct (Z.eqb_spec (0xE0 + c / 4096) 0xE0), (Z.eqb_spec (0xE0 + c / 4096) 0xED);
         Z.to_euclidean_division_equations; lia. }
    rewrite next_byte by (Z.to_euclidean_division_equations; lia).
    f_equal. Z.to_euclidean_division_equations; lia.
  - rewrite (first_byte _ _ _ (lead_four (0xF0 + c / 262144) ltac:(Z.to_euclidean_division_equations; lia))).
    rewrite next_byte.
    2: { destruct (Z.eqb_spec (0xF0 + c / 262144) 0xF0), (Z.eqb_spec (0xF0 + c / 262144) 0xF4);
         Z.to_euclidean_division_equations; lia. }
    rewrite next_byte by (Z.to_euclidean_division_equations; lia).
    rewrite next_byte by (Z.to_euclidean_division_equations; lia).
    f_equal. Z.to_euclidean_division_equations; lia.
Qed.

Lemma decode_utf8s cs : Forall (λ c, is_scalar c = true) cs → decode_loop decoder_start (cs ≫= utf8) = cs.
Proof.
  induction 1 as [|c cs Hc Hcs IH]; [done|]. cbn [mbind list_bind]. rewrite decode_utf8 by done. by f_equal.
Qed.

Definition starts_with_mark (s : js_string) : bool :=
  match s with u :: _ => u =? byte_order_mark | [] => false end.

Lemma scalars_mark s : starts_with_mark s = false → ∀ cs, scalars s ≠ byte_order_mark :: cs.
Proof.
  destruct s as [|u rest]; [done|]. cbn [starts_with_mark scalars]. intros Hu cs.
  destruct (is_high u) eqn:Hh.
  - destruct rest as [|v rest']; [done|]. unfold is_high in Hh. rewrite andb_true_iff in Hh.
    destruct (is_low v) eqn:Hl; [|done]. unfold is_low in Hl. rewrite andb_true_iff in Hl.
    unfold byte_order_mark in *. intros [= H]. lia.
  - destruct (is_low u); [done|]. intros [= ->]. by rewrite Z.eqb_refl in Hu.
Qed.

Lemma decode_encode_text s : well_formed s = true → starts_with_mark s = false → decode_text (encode_text s) = s.
Proof.
  intros [Hs Hu]%scalars_well_formed Hm. unfold decode_text, encode_text. rewrite decode_utf8s by done.
  destruct (scalars s) as [|c cs] eqn:Hc; [done|].
  destruct (Z.eqb_spec c byte_order_mark) as [->|_]; [|done]. by apply (scalars_mark s Hm) in Hc.
Qed.

(** * Message round trips *)

Lemma u16_bytes n :
  0 <= n → Z.lor (Z.shiftl (to_uint8 (Z.land (Z.shiftr n 8) 0xff)) 8) (to_uint8 (Z.land n 0xff)) = n mod 65536.
Proof.
  intros Hn. unfold to_uint8. change 0xff with (Z.ones 8). rewrite !Z.land_ones by done.
  change 256 with (2 ^ 8). rewrite !Z.mod_mod by done. change 65536 with (2 ^ 16).
  apply Z.bits_inj'. intros i Hi. rewrite Z.lor_spec, Z.shiftl_spec by done.
  destruct (Z.lt_ge_cases i 8).
  - rewrite (Z.testbit_neg_r _ (i - 8)) by lia. rewrite !Z.mod_pow2_bits_low by lia. done.
  - rewrite (Z.mod_pow2_bits_high n 8) by lia. rewrite orb_false_r. destruct (Z.lt_ge_cases i 16).
    + rewrite !Z.mod_pow2_bits_low, Z.shiftr_spec by lia. f_equal. lia.
    + by rewrite !Z.mod_pow2_bits_high by lia.
Qed.

(** How a worker message is split again, whatever the identifier is. *)
Lemma decode_encoded t d p :
  let n := Z.to_nat (Z.of_nat (length (encode_text d)) mod 65536) in
  decodeWithDocId (encodeWithDocId t d p) =
  Ok (mkWorkerMessage (to_uint8 t) (decode_text (take n (encode_text d))) (drop n (encode_text d) ++ p)).
Proof.
  cbn zeta. unfold encodeWithDocId, decodeWithDocId. cbn iota. rewrite u16_bytes by lia.
  set (bs := encode_text d). set (n := Z.to_nat (Z.of_nat (length bs) mod 65536)).
  assert (n ≤ length bs)%nat.
  { unfold n. pose proof (Z.mod_le (Z.of_nat (length bs)) 65536 ltac:(lia) ltac:(lia)). lia. }
  destruct (decide _) as [Hlt|_].
  - cbn [length] in Hlt. rewrite length_app in Hlt. lia.
  - by rewrite take_app_le, drop_app_le by done.
Qed.

Lemma short_docId d : Z.of_nat (length (encode_text d)) < 65536 →
  Z.to_nat (Z.of_nat (length (encode_text d)) mod 65536) = length (encode_text d).
Proof. intros H. rewrite Z.mod_small by lia. lia. Qed.

(** A message for a worker is decoded to what was encoded, when the identifier of
    the document is well-formed text of less than 65536 bytes that does not begin
    with a byte order mark. *)
Theorem worker_message_roundtrip t d p :
  0 <= t < 256 → well_formed d = true → starts_with_mark d = false → Z.of_nat (length (encode_text d)) < 65536 →
  decodeWithDocId (encodeWithDocId t d p) = Ok (mkWorkerMessage t d p).
Proof.
  intros Ht Hw Hm Hlen. rewrite decode_encoded, short_docId by done.
  rewrite take_ge, drop_ge, decode_encode_text by done. unfold to_uint8. by rewrite Z.mod_small by lia.
Qed.

(** Adding the identifier of a document to a message of the server and removing
    it gives the message back, whatever text the identifier is, up to the length
    that two bytes can say. *)
Theorem server_message_roundtrip d data :
  data ≠ [] → Forall (λ b, 0 <= b < 256) data → Z.of_nat (length (encode_text d)) < 65536 →
  (addDocId d data ≫= stripDocId) = Ok data.
Proof.
  intros Hne Hb Hlen. destruct data as [|t p]; [done|]. apply Forall_cons in Hb as [Ht _].
  unfold addDocId, stripDocId, decodeMessage. cbn [mbind result_bind].
  rewrite decode_encoded, short_docId by done. rewrite drop_ge by done. cbn.
  unfold encodeMessage, to_uint8. by rewrite Z.mod_mod, Z.mod_small by lia.
Qed.

(** An identifier of 65536 bytes or more is not rejected: the message is decoded
    with the bytes its length leaves modulo 65536, the rest goes to the payload. *)
Theorem long_docId_spills t d p m :
  65536 <= Z.of_nat (length (encode_text d)) →
  decodeWithDocId (encodeWithDocId t d p) = Ok m →
  (length p < length (payload m))%nat.
Proof.
  intros Hlen. rewrite decode_encoded. intros [= <-]. cbn [payload]. rewrite length_app, length_drop.
  pose proof (Z.mod_pos_bound (Z.of_nat (length (encode_text d))) 65536 ltac:(lia)). lia.
Qed.

(** ["wörk"], a character outside the basic plane, and a payload. *)
Definition demo_docId : js_string := [119; 246; 114; 107; 0xD83D; 0xDE00].

Lemma worker_message_roundtrip_witness :
  decodeWithDocId (encodeWithDocId MESSAGE_SYNC demo_docId [7; 255]) = Ok (mkWorkerMessage 0 demo_docId [7; 255]).
Proof. by apply worker_message_roundtrip; [|vm_compute..]. Defined.

Lemma server_message_roundtrip_witness :
  (addDocId [0xD800; 65] [1; 2; 3] ≫= stripDocId) = Ok [1; 2; 3].
Proof. apply server_message_roundtrip; [done|repeat constructor; lia|by vm_compute]. Defined.

Definition long_docId : js_string := replicate (Z.to_nat 65537) 97.

Lemma encode_replicate n : encode_text (replicate n 97) = replicate n 97.
Proof.
  unfold encode_text. induction n as [|n IH]; [done|]. cbn [replicate].
  assert (scalars (97 :: replicate n 97) = 97 :: scalars (replicate n 97)) as -> by done.
  cbn [mbind list_bind]. by rewrite IH.
Qed.

Lemma long_docId_spills_witness :
  ∃ m, decodeWithDocId (encodeWithDocId MESSAGE_SYNC long_docId [5]) = Ok m ∧ (1 < length (payload m))%nat.
Proof.
  eexists. split; [apply decode_encoded|].
  apply (long_docId_spills MESSAGE_SYNC long_docId [5]); [|apply decode_encoded].
  unfold long_docId. rewrite encode_replicate, length_replicate. lia.
Defined.
