(* ===== verification/WorkerTransport.v ===== *)
(** WorkerTransport: the transport of a collaborative document through a worker.

    packages/@n8n/crdt/src/transports/worker.ts.  Events are the calls of the client
    and the messages of the port; the state keeps the promises that [connect] has
    returned.  Receive handlers run to completion and are the log [received]. *)

From Stdlib Require Import ZArith Lia.
From stdpp Require Import prelude list.
From S2P Require Import Prelude CrdtProtocol.

#[local] Open Scope Z_scope.

Record WorkerTransportConfig := mkConfig {
  config_docId : js_string;
  serverUrl : js_string;
}.

(** [listening] says that [messageHandler] is set and added to the port. *)
Record WorkerTransport := mkTransport {
  connected : bool;
  listening : bool;
  connectPromise : option nat;
  connectResolve : option nat;
  resolved : list bool;
  posted : list bytes;
  received : list bytes;
}.

Definition new_transport : WorkerTransport := mkTransport false false None None [] [] [].

Definition post (t : WorkerTransport) (message : bytes) : WorkerTransport :=
  mkTransport (connected t) (listening t) (connectPromise t) (connectResolve t) (resolved t)
    (posted t ++ [message]) (received t).

Section Transport.
Context (config : WorkerTransportConfig).

Inductive SendError := NotConnected.

(** [data[0]] of an empty array is [undefined], stored as 0. *)
Definition send (t : WorkerTransport) (data : bytes) : result SendError WorkerTransport :=
  if connected t then
    let messageType := match data with [] => 0 | b :: _ => b end in
    let payload := match data with [] => [] | _ :: p => p end in
    Ok (post t (encodeWithDocId messageType (config_docId config) payload))
  else Err NotConnected.

(** The promise that is returned: [None] is one that is resolved already. *)
Definition connect (t : WorkerTransport) : WorkerTransport * option nat :=
  if connected t then (t, None)
  else
    match connectPromise t with
    | Some p => (t, Some p)
    | None =>
        let p := length (resolved t) in
        let subscribeMessage :=
          encodeWithDocId MESSAGE_SUBSCRIBE (config_docId config) (encodeString (serverUrl config)) in
        (post (mkTransport (connected t) true (Some p) (Some p) (resolved t ++ [false]) (posted t) (received t))
           subscribeMessage, Some p)
    end.

Definition disconnect (t : WorkerTransport) : WorkerTransport :=
  if negb (connected t) && bool_decide (connectPromise t = None) then t
  else
    let t := post t (encodeWithDocId MESSAGE_UNSUBSCRIBE (config_docId config) []) in
    mkTransport false false None None (resolved t) (posted t) (received t).

(** [handleBinaryMessage]: malformed messages and those of other documents are ignored. *)
Definition handleBinaryMessage (t : WorkerTransport) (data : bytes) : WorkerTransport :=
  match decodeWithDocId data with
  | Err _ => t
  | Ok m =>
      if negb (bool_decide (docId m = config_docId config)) then t
      else
        let connected' :=
          if messageType m =? MESSAGE_CONNECTED then true
          else if messageType m =? MESSAGE_DISCONNECTED then false
          else connected t in
        let serverFormat := to_uint8 (messageType m) :: payload m in
        match connectResolve t with
        | Some p =>
            if messageType m =? MESSAGE_INITIAL_SYNC then
              mkTransport true (listening t) (connectPromise t) None (<[p := true]> (resolved t))
                (posted t) (received t ++ [serverFormat])
            else
              mkTransport connected' (listening t) (connectPromise t) (connectResolve t) (resolved t)
                (posted t) (received t ++ [serverFormat])
        | None =>
            mkTransport connected' (listening t) (connectPromise t) (connectResolve t) (resolved t)
              (posted t) (received t ++ [serverFormat])
        end
  end.

Inductive TransportEvent :=
| CallConnect
| CallDisconnect
| CallSend (data : bytes)
| PortMessage (data : bytes).

(** A failing [send] leaves the state as it is. *)
Definition transport_next (t : WorkerTransport) (e : TransportEvent) : WorkerTransport :=
  match e with
  | CallConnect => (connect t).1
  | CallDisconnect => disconnect t
  | CallSend data => match send t data with Ok t => t | Err _ => t end
  | PortMessage data => if listening t then handleBinaryMessage t data else t
  end.

Definition transport_run (t : WorkerTransport) (es : list TransportEvent) : WorkerTransport :=
  foldl transport_next t es.

(** * Messages *)

(** The messages of the document among what the port delivers while listening. *)
Definition own_message (data : bytes) : option bytes :=
  match decodeWithDocId data with
  | Ok m => if decide (docId m = config_docId config) then Some (encodeMessage (messageType m) (payload m)) else None
  | Err _ => None
  end.

Lemma handle_received t data :
  received (handleBinaryMessage t data) = received t ++ match own_message data with Some m => [m] | None => [] end.
Proof.
  unfold handleBinaryMessage, own_message. destruct (decodeWithDocId data) as [m|e]; [|by rewrite app_nil_r].
  destruct (decide (docId m = config_docId config)) as [Hd|Hd].
  - rewrite bool_decide_true by done. cbn [negb]. destruct (connectResolve t); [|done].
    by destruct (messageType m =? MESSAGE_INITIAL_SYNC).
  - rewrite bool_decide_false by done. cbn. by rewrite app_nil_r.
Qed.

(** While it listens, the transport hands on exactly the messages of its own
    document, in order and without the identifier, whatever else the port delivers
    and the client sends. *)
Theorem receives_own_messages t datas :
  listening t = true →
  received (transport_run t (PortMessage <$> datas)) = received t ++ omap own_message datas.
Proof.
  revert t. induction datas as [|data datas IH]; intros t Hl; [by rewrite app_nil_r|]. cbn.
  rewrite Hl. fold (transport_run (handleBinaryMessage t data) (PortMessage <$> datas)). rewrite IH.
  - rewrite handle_received, <-app_assoc. f_equal. by destruct (own_message data).
  - unfold handleBinaryMessage. destruct (decodeWithDocId data) as [m|e]; [|done].
    destruct (negb _); [done|]. destruct (connectResolve t); [|done]. by destruct (_ =? MESSAGE_INITIAL_SYNC).
Qed.

(** What is sent through a worker arrives at the server as it was handed in: the
    message posted is the one the worker turns back into the data. *)
Theorem send_reaches_server t data t' :
  data ≠ [] → Forall (λ b, 0 <= b < 256) data → Z.of_nat (length (encode_text (config_docId config))) < 65536 →
  send t data = Ok t' →
  ∃ message, posted t' = posted t ++ [message] ∧ stripDocId message = Ok data.
Proof.
  intros Hne Hb Hlen. unfold send. destruct (connected t); [|done]. destruct data as [|b p]; [done|]. intros [= <-].
  exists (encodeWithDocId b (config_docId config) p). split; [done|].
  apply Forall_cons in Hb as [Hb _]. unfold stripDocId. rewrite decode_encoded, short_docId by done.
  rewrite drop_ge by done. cbn. unfold encodeMessage, to_uint8. by rewrite Z.mod_mod, Z.mod_small by lia.
Qed.

(** * The promise of [connect] *)

(** A promise nobody can resolve any more. *)
Definition abandoned (p : nat) (t : WorkerTransport) : Prop :=
  resolved t !! p = Some false ∧ connectPromise t ≠ Some p ∧ connectResolve t ≠ Some p.

Lemma abandoned_next p t e : abandoned p t → abandoned p (transport_next t e).
Proof.
  intros (Hr & Hp & Hc). pose proof (lookup_lt_Some _ _ _ Hr) as Hlt. destruct e as [| |data|data]; cbn.
  - unfold connect. destruct (connected t); [done|]. destruct (connectPromise t) as [q|] eqn:Hq; cbn.
    + by rewrite <-Hq in Hp.
    + unfold abandoned. cbn [resolved connectPromise connectResolve post].
      split; [by rewrite lookup_app_l|]. split; intros [= Heq]; lia.
  - unfold disconnect. by destruct (negb (connected t) && _).
  - unfold send. by destruct (connected t).
  - destruct (listening t); [|done]. unfold handleBinaryMessage.
    destruct (decodeWithDocId data) as [m|]; [|done]. destruct (negb _); [done|].
    destruct (connectResolve t) as [q|] eqn:Hq; [|done]. destruct (_ =? MESSAGE_INITIAL_SYNC); [|done].
    assert (q ≠ p) by congruence. split; [|done]. cbn. by rewrite list_lookup_insert_ne.
Qed.

(** A call of [connect] that is still waiting for the first sync when [disconnect]
    is called is never answered: its promise stays pending whatever happens later. *)
Theorem disconnect_abandons_connect t p es :
  connectPromise t = Some p → resolved t !! p = Some false →
  resolved (transport_run (disconnect t) es) !! p = Some false.
Proof.
  intros Hp Hr.
  assert (abandoned p (transport_run (disconnect t) es)) as [H _]; [|exact H].
  unfold transport_run. apply (foldl_inv transport_next (abandoned p)).
  - intros s e _. apply abandoned_next.
  - unfold disconnect. rewrite Hp, bool_decide_false by done. rewrite andb_false_r. by split_and!.
Qed.

End Transport.

(** * Concrete runs *)

Definition demo_config : WorkerTransportConfig := mkConfig demo_docId [].

Definition demo_sync : bytes := encodeWithDocId MESSAGE_INITIAL_SYNC demo_docId [].

Definition demo_connected : WorkerTransport := transport_run demo_config new_transport [CallConnect; PortMessage demo_sync].

Lemma receives_own_messages_witness :
  received (transport_run demo_config demo_connected
    (PortMessage <$> [encodeWithDocId MESSAGE_SYNC demo_docId [7]; [0; 0]; encodeWithDocId MESSAGE_SYNC [97] [8]])) = [[6]; [0; 7]].
Proof. by rewrite (receives_own_messages demo_config demo_connected). Defined.

Lemma send_reaches_server_witness :
  ∃ t message, send demo_config demo_connected [0; 1; 2] = Ok t ∧
    posted t = posted demo_connected ++ [message] ∧ stripDocId message = Ok [0; 1; 2].
Proof.
  eexists.
  destruct (send_reaches_server demo_config demo_connected [0; 1; 2] _ ltac:(done) ltac:(repeat constructor; lia) ltac:(by vm_compute) eq_refl)
    as (message & H1 & H2).
  exists message. split; [reflexivity|]. by split.
Defined.

Lemma disconnect_abandons_connect_witness :
  resolved (transport_run demo_config (disconnect demo_config (connect demo_config new_transport).1) [CallConnect; PortMessage demo_sync]) !! 0%nat = Some false.
Proof. by apply (disconnect_abandons_connect demo_config (connect demo_config new_transport).1 0). Defined.

(** After the server is lost, [connect] gives back the promise of the first
    connection, which is resolved although the transport is not connected. *)
Theorem reconnect_resolves_early :
  let t := transport_run demo_config demo_connected [PortMessage (encodeWithDocId MESSAGE_DISCONNECTED demo_docId [])] in
  connected t = false ∧ connect demo_config t = (t, Some 0%nat) ∧ resolved t !! 0%nat = Some true.
Proof. by vm_compute. Qed.
