(* ===== verification/WebSocketTransport.v ===== *)
(** WebSocketTransport: the transport of a collaborative document over a web socket.

    packages/@n8n/crdt/src/transports/websocket.ts.  Every call of [doConnect] has a
    number: that of its socket, its timeout and its promise.  Events are the calls of
    the client, what the browser reports for a socket, and the firing of timers;
    what the transport tells its subscribers is a log.  Delays are whole
    milliseconds. *)

From Stdlib Require Import ZArith Lia.
From stdpp Require Import prelude list.
From S2P Require Import Prelude CrdtProtocol.

Record WebSocketTransportConfig := mkConfig {
  url_valid : bool;
  reconnect : bool;
  maxReconnectAttempts : option nat;
  reconnectDelay : Z;
  maxReconnectDelay : Z;
  reconnectBackoff : Z;
}.

(** A socket of the browser; [attached] says that its handlers are set. *)
Inductive SocketPhase := Connecting | Open | Closing | Closed.

Record Socket := mkSocket {
  phase : SocketPhase;
  attached : bool;
}.

Inductive PromiseState := Pending | Resolved | Rejected.

Inductive Notice :=
| Received (socket : nat) (data : bytes)
| ConnectionChange (connected : bool)
| TransportError
| MaxAttemptsReached
| ReconnectIn (delay : Z)
| Sent (socket : nat) (data : bytes).

Record WebSocketTransport := mkTransport {
  ws : option nat;
  sockets : list Socket;
  timeouts : list nat;
  promises : list PromiseState;
  background : list nat;
  isConnected : bool;
  reconnectAttempts : nat;
  reconnectTimeout : option nat;
  reconnectTimers : list nat;
  nextTimer : nat;
  shouldReconnect : bool;
  isConnecting : bool;
  connectionPromise : option nat;
  log : list Notice;
}.

Definition new_transport : WebSocketTransport :=
  mkTransport None [] [] [] [] false 0 None [] 0 false false None [].

(** * Updates of single fields *)

Definition notify (t : WebSocketTransport) (n : Notice) : WebSocketTransport :=
  mkTransport (ws t) (sockets t) (timeouts t) (promises t) (background t) (isConnected t) (reconnectAttempts t)
    (reconnectTimeout t) (reconnectTimers t) (nextTimer t) (shouldReconnect t) (isConnecting t)
    (connectionPromise t) (log t ++ [n]).

Definition with_socket (t : WebSocketTransport) (i : nat) (f : Socket → Socket) : WebSocketTransport :=
  mkTransport (ws t) (alter f i (sockets t)) (timeouts t) (promises t) (background t) (isConnected t)
    (reconnectAttempts t) (reconnectTimeout t) (reconnectTimers t) (nextTimer t) (shouldReconnect t)
    (isConnecting t) (connectionPromise t) (log t).

Definition with_flags (t : WebSocketTransport) (connected connecting : bool) : WebSocketTransport :=
  mkTransport (ws t) (sockets t) (timeouts t) (promises t) (background t) connected (reconnectAttempts t)
    (reconnectTimeout t) (reconnectTimers t) (nextTimer t) (shouldReconnect t) connecting (connectionPromise t) (log t).

Definition clearTimeout (t : WebSocketTransport) (i : nat) : WebSocketTransport :=
  mkTransport (ws t) (sockets t) (js_del (timeouts t) i) (promises t) (background t) (isConnected t)
    (reconnectAttempts t) (reconnectTimeout t) (reconnectTimers t) (nextTimer t) (shouldReconnect t)
    (isConnecting t) (connectionPromise t) (log t).

Definition with_attempts (t : WebSocketTransport) (n : nat) : WebSocketTransport :=
  mkTransport (ws t) (sockets t) (timeouts t) (promises t) (background t) (isConnected t) n
    (reconnectTimeout t) (reconnectTimers t) (nextTimer t) (shouldReconnect t) (isConnecting t) (connectionPromise t) (log t).

(** A promise settles once; the rejection of a reconnection is reported. *)
Definition settle (t : WebSocketTransport) (i : nat) (p : PromiseState) : WebSocketTransport :=
  match promises t !! i with
  | Some Pending =>
      let t := mkTransport (ws t) (sockets t) (timeouts t) (<[i := p]> (promises t)) (background t) (isConnected t)
        (reconnectAttempts t) (reconnectTimeout t) (reconnectTimers t) (nextTimer t) (shouldReconnect t)
        (isConnecting t) (connectionPromise t) (log t) in
      if js_has (background t) i && match p with Rejected => true | _ => false end then notify t TransportError else t
  | _ => t
  end.

(** [ws.close()]: the browser reports the close later. *)
Definition closing (s : Socket) : Socket :=
  mkSocket (match phase s with Closed => Closed | _ => Closing end) (attached s).
Definition set_phase (p : SocketPhase) (s : Socket) : Socket := mkSocket p (attached s).
Definition detach (s : Socket) : Socket := mkSocket (phase s) false.

Section Transport.
Context (config : WebSocketTransportConfig).

(** * Operations *)

Definition clearReconnectTimeout (t : WebSocketTransport) : WebSocketTransport :=
  match reconnectTimeout t with
  | None => t
  | Some timer =>
      mkTransport (ws t) (sockets t) (timeouts t) (promises t) (background t) (isConnected t) (reconnectAttempts t)
        None (js_del (reconnectTimers t) timer) (nextTimer t) (shouldReconnect t) (isConnecting t) (connectionPromise t) (log t)
  end.

(** [doConnect]; [bg] when its rejection is caught and reported. *)
Definition doConnect (t : WebSocketTransport) (bg : bool) : WebSocketTransport :=
  let i := length (promises t) in
  if url_valid config then
    mkTransport (Some i) (sockets t ++ [mkSocket Connecting true]) (timeouts t ++ [i]) (promises t ++ [Pending])
      (if bg then background t ++ [i] else background t) (isConnected t)
      (reconnectAttempts t) (reconnectTimeout t) (reconnectTimers t) (nextTimer t) (shouldReconnect t) true
      (connectionPromise t) (log t)
  else
    let t := mkTransport (ws t) (sockets t ++ [mkSocket Closed false]) (timeouts t) (promises t ++ [Rejected])
      (background t) (isConnected t) (reconnectAttempts t) (reconnectTimeout t) (reconnectTimers t)
      (nextTimer t) (shouldReconnect t) false (connectionPromise t) (log t) in
    if bg then notify t TransportError else t.

(** [connect]: the promise the client waits for, [None] when it is resolved already. *)
Definition connect (t : WebSocketTransport) : WebSocketTransport * option nat :=
  let t := clearReconnectTimeout t in
  if isConnected t then (t, None)
  else
    match isConnecting t, connectionPromise t with
    | true, Some p => (t, Some p)
    | _, _ =>
        let i := length (promises t) in
        let t := doConnect t false in
        (mkTransport (ws t) (sockets t) (timeouts t) (promises t) (background t) (isConnected t)
           (reconnectAttempts t) (reconnectTimeout t) (reconnectTimers t) (nextTimer t) (reconnect config)
           (isConnecting t) (Some i) (log t), Some i)
    end.

Definition disconnect (t : WebSocketTransport) : WebSocketTransport :=
  let t := clearReconnectTimeout t in
  let t := match ws t with
           | Some i => with_socket t i (λ s, closing (detach s))
           | None => t
           end in
  let t := if isConnected t then notify (with_flags t false (isConnecting t)) (ConnectionChange false) else t in
  mkTransport None (sockets t) (timeouts t) (promises t) (background t) (isConnected t) (reconnectAttempts t)
    (reconnectTimeout t) (reconnectTimers t) (nextTimer t) false false None (log t).

Definition reconnect_delay (attempts : nat) : Z :=
  Z.min (reconnectDelay config * reconnectBackoff config ^ Z.of_nat attempts) (maxReconnectDelay config).

Definition attempts_left (attempts : nat) : bool :=
  match maxReconnectAttempts config with Some m => bool_decide (attempts < m) | None => true end.

Definition scheduleReconnect (t : WebSocketTransport) : WebSocketTransport :=
  if negb (shouldReconnect t) then t
  else if negb (attempts_left (reconnectAttempts t)) then notify t MaxAttemptsReached
  else
    let t := notify t (ReconnectIn (reconnect_delay (reconnectAttempts t))) in
    mkTransport (ws t) (sockets t) (timeouts t) (promises t) (background t) (isConnected t)
      (S (reconnectAttempts t)) (Some (nextTimer t)) (reconnectTimers t ++ [nextTimer t]) (S (nextTimer t))
      (shouldReconnect t) (isConnecting t) (connectionPromise t) (log t).

(** The handlers of the socket [i]. *)
Definition onopen (t : WebSocketTransport) (i : nat) : WebSocketTransport :=
  settle (notify (with_attempts (with_flags (clearTimeout t i) true false) 0) (ConnectionChange true)) i Resolved.

Definition onclose (t : WebSocketTransport) (i : nat) : WebSocketTransport :=
  let t := clearTimeout t i in
  let wasConnected := isConnected t in
  let t := with_flags t false false in
  let t := if wasConnected then notify t (ConnectionChange false) else t in
  if shouldReconnect t then scheduleReconnect t else t.

Definition onerror (t : WebSocketTransport) (i : nat) : WebSocketTransport :=
  let t := notify (clearTimeout t i) TransportError in
  if isConnecting t then settle (with_flags t (isConnected t) false) i Rejected else t.

Definition onmessage (t : WebSocketTransport) (i : nat) (data : bytes) : WebSocketTransport :=
  notify t (Received i data).

(** The connection timeout closes the socket the transport has now. *)
Definition connection_timeout (t : WebSocketTransport) (i : nat) : WebSocketTransport :=
  let t := clearTimeout t i in
  let t := match ws t with Some j => with_socket t j closing | None => t end in
  settle t i Rejected.

Definition reconnect_fires (t : WebSocketTransport) (timer : nat) : WebSocketTransport :=
  doConnect
    (mkTransport (ws t) (sockets t) (timeouts t) (promises t) (background t) (isConnected t) (reconnectAttempts t)
       None (js_del (reconnectTimers t) timer) (nextTimer t) (shouldReconnect t) (isConnecting t) (connectionPromise t) (log t))
    true.

Inductive SendError := NotConnected | InvalidState.

(** [ws.send] drops the data of a socket that is closing. *)
Definition send (t : WebSocketTransport) (data : bytes) : result SendError WebSocketTransport :=
  if isConnected t then
    match ws t with
    | None => Err NotConnected
    | Some i =>
        match phase <$> sockets t !! i with
        | Some Connecting => Err InvalidState
        | Some Open => Ok (notify t (Sent i data))
        | _ => Ok t
        end
    end
  else Err NotConnected.

(** * Events *)

Inductive TransportEvent :=
| CallConnect
| CallDisconnect
| CallSend (data : bytes)
| SocketOpens (i : nat)
| SocketCloses (i : nat)
| SocketFails (i : nat)
| SocketMessage (i : nat) (data : bytes)
| TimeoutFires (i : nat)
| ReconnectFires (timer : nat).

#[export] Instance TransportEvent_eq_dec : EqDecision TransportEvent.
Proof. solve_decision. Defined.

Definition is_attached (t : WebSocketTransport) (i : nat) : bool :=
  match sockets t !! i with Some s => attached s | None => false end.

(** [None] for an event the browser does not produce. *)
Definition transport_next (t : WebSocketTransport) (e : TransportEvent) : option WebSocketTransport :=
  match e with
  | CallConnect => Some (connect t).1
  | CallDisconnect => Some (disconnect t)
  | CallSend data => Some (match send t data with Ok t => t | Err _ => t end)
  | SocketOpens i =>
      match phase <$> sockets t !! i with
      | Some Connecting =>
          let t' := with_socket t i (set_phase Open) in
          Some (if is_attached t i then onopen t' i else t')
      | _ => None
      end
  | SocketCloses i =>
      match phase <$> sockets t !! i with
      | Some Closed | None => None
      | Some _ =>
          let t' := with_socket t i (set_phase Closed) in
          Some (if is_attached t i then onclose t' i else t')
      end
  | SocketFails i =>
      match phase <$> sockets t !! i with
      | Some Closed | None => None
      | Some _ =>
          let t' := with_socket t i (set_phase Closing) in
          Some (if is_attached t i then onerror t' i else t')
      end
  | SocketMessage i data =>
      match phase <$> sockets t !! i with
      | Some Open => Some (if is_attached t i then onmessage t i data else t)
      | _ => None
      end
  | TimeoutFires i => if js_has (timeouts t) i then Some (connection_timeout t i) else None
  | ReconnectFires timer => if js_has (reconnectTimers t) timer then Some (reconnect_fires t timer) else None
  end.

Fixpoint transport_run (t : WebSocketTransport) (es : list TransportEvent) : option WebSocketTransport :=
  match es with
  | [] => Some t
  | e :: es => t ← transport_next t e; transport_run t es
  end.

End Transport.

(** * One live connection *)

Section Proofs.
Context (config : WebSocketTransportConfig).
Implicit Types (t : WebSocketTransport) (i j : nat).

Abbreviation next := (transport_next config).
Abbreviation run := (transport_run config).

(** A socket that can still call its handlers. *)
Definition alive t i : Prop := ∃ s, sockets t !! i = Some s ∧ attached s = true ∧ phase s ≠ Closed.

(** The client does not call [connect] between the failure of a socket and its close. *)
Definition polite t (e : TransportEvent) : Prop :=
  match e with
  | CallConnect => isConnected t = true ∨ isConnecting t = true ∨ ∀ i, ¬ alive t i
  | _ => True
  end.

Inductive reachable : WebSocketTransport → Prop :=
| reachable_new : reachable new_transport
| reachable_next t e t' : reachable t → polite t e → next t e = Some t' → reachable t'.

Record transport_inv t : Prop := {
  inv_length : length (sockets t) = length (promises t);
  inv_current i : alive t i → ws t = Some i;
  inv_connected : isConnected t = true → ∃ i, ws t = Some i ∧ alive t i;
  inv_connecting : isConnecting t = true → (∃ i, ws t = Some i ∧ alive t i) ∧ connectionPromise t ≠ None;
  inv_timers : reconnectTimers t = match reconnectTimeout t with Some k => [k] | None => [] end;
  inv_waiting : reconnectTimeout t ≠ None → (∀ i, ¬ alive t i) ∧ shouldReconnect t = true;
  inv_promise : shouldReconnect t = true → connectionPromise t ≠ None;
}.

(** States that differ in the log, the timeouts and the promises only. *)
Definition same_core t t' : Prop :=
  ws t' = ws t ∧ (∀ i, alive t' i ↔ alive t i) ∧ length (sockets t') = length (sockets t) ∧
  length (promises t') = length (promises t) ∧ isConnected t' = isConnected t ∧ isConnecting t' = isConnecting t ∧
  reconnectTimers t' = reconnectTimers t ∧ reconnectTimeout t' = reconnectTimeout t ∧
  shouldReconnect t' = shouldReconnect t ∧ connectionPromise t' = connectionPromise t.

Lemma same_core_inv t t' : same_core t t' → transport_inv t → transport_inv t'.
Proof.
  intros (Hw & Ha & Hs & Hp & Hc & Hg & Ht & Hr & Hsh & Hcp) [H0 H1 H2 H3 H4 H5 H6].
  split; rewrite ?Hw, ?Hs, ?Hp, ?Hc, ?Hg, ?Ht, ?Hr, ?Hsh, ?Hcp; try done.
  - intros i Hi. apply H1. by apply Ha.
  - intros Hcon. destruct (H2 Hcon) as (i & ? & ?). exists i. split; [done|by apply Ha].
  - intros Hcon. destruct (H3 Hcon) as ((i & ? & ?) & ?). split; [|done]. exists i. split; [done|by apply Ha].
  - intros Hk. destruct (H5 Hk) as [Hn ?]. split; [|done]. intros i Hi. apply (Hn i). by apply Ha.
Qed.

Lemma same_core_trans t1 t2 t3 : same_core t1 t2 → same_core t2 t3 → same_core t1 t3.
Proof.
  intros (?&?&?&?&?&?&?&?&?&?) (?&Ha&?&?&?&?&?&?&?&?). split_and!; try congruence.
  intros i. by rewrite Ha.
Qed.

Lemma settle_core t i p : same_core t (settle t i p).
Proof.
  unfold settle. destruct (promises t !! i) as [[]|]; try by split_and!.
  destruct (js_has _ _ && _); split_and!; try done; apply length_insert.
Qed.

Lemma settle_log t i p :
  log (settle t i p) = log t ∨ log (settle t i p) = log t ++ [TransportError].
Proof.
  unfold settle. destruct (promises t !! i) as [[]|]; auto. destruct (js_has _ _ && _); [by right|by left].
Qed.

Lemma settle_fields t i p : same_core t (settle t i p) ∧ reconnectAttempts (settle t i p) = reconnectAttempts t.
Proof.
  split; [apply settle_core|]. unfold settle. destruct (promises t !! i) as [[]|]; try done.
  by destruct (js_has _ _ && _).
Qed.

(** A change of a socket that leaves it as alive as it was. *)
Lemma with_socket_core t i f :
  (∀ s, sockets t !! i = Some s → attached (f s) = attached s ∧ (phase (f s) = Closed ↔ phase s = Closed)) →
  same_core t (with_socket t i f).
Proof.
  intros Hf. split_and!; try done; [|apply length_alter]. intros j. unfold alive. cbn [with_socket sockets].
  destruct (decide (i = j)) as [<-|Hne]; [|by rewrite list_lookup_alter_ne].
  rewrite list_lookup_alter_eq. destruct (sockets t !! i) as [s|]; cbn; [|by split; intros (? & ? & _)].
  destruct (Hf s eq_refl) as [Ha Hp]. split; intros (s' & [= <-] & ? & ?); eexists; (split; [done|]).
  - rewrite <-Ha. tauto.
  - rewrite Ha. tauto.
Qed.

Lemma with_socket_dead t i f : is_attached t i = false →
  (∀ s, attached (f s) = attached s) → same_core t (with_socket t i f).
Proof.
  intros Hi Hf. split_and!; try done; [|apply length_alter]. intros j. unfold alive. cbn [with_socket sockets].
  destruct (decide (i = j)) as [<-|Hne]; [|by rewrite list_lookup_alter_ne].
  rewrite list_lookup_alter_eq. unfold is_attached in Hi. destruct (sockets t !! i) as [s|]; cbn; [|by split; intros (? & ? & _)].
  split; intros (s' & [= <-] & ? & ?); [rewrite Hf in *|]; congruence.
Qed.

Lemma phase_alive t i p : is_attached t i = true → phase <$> sockets t !! i = Some p → p ≠ Closed → alive t i.
Proof.
  unfold is_attached, alive. destruct (sockets t !! i) as [s|]; [|done]. cbn. intros Ha [= <-] Hp. by exists s.
Qed.

Lemma clear_reconnect t : transport_inv t →
  transport_inv (clearReconnectTimeout t) ∧ reconnectTimeout (clearReconnectTimeout t) = None ∧
  (∀ i, alive (clearReconnectTimeout t) i ↔ alive t i) ∧
  isConnected (clearReconnectTimeout t) = isConnected t ∧ isConnecting (clearReconnectTimeout t) = isConnecting t ∧
  log (clearReconnectTimeout t) = log t ∧ ws (clearReconnectTimeout t) = ws t.
Proof.
  intros [H0 H1 H2 H3 H4 H5 H6]. unfold clearReconnectTimeout. destruct (reconnectTimeout t) as [k|] eqn:Hk.
  - split; [|done]. split; cbn; try done. rewrite H4. unfold js_del. rewrite filter_cons, decide_False by auto. done.
  - split; [|done]. split; rewrite ?Hk; done.
Qed.

Lemma doConnect_inv t bg :
  transport_inv t → (∀ i, ¬ alive t i) → reconnectTimeout t = None → isConnected t = false → isConnecting t = false →
  length (sockets (doConnect config t bg)) = length (promises (doConnect config t bg)) ∧
  (∀ i, alive (doConnect config t bg) i → ws (doConnect config t bg) = Some i) ∧
  (isConnecting (doConnect config t bg) = true → ∃ i, ws (doConnect config t bg) = Some i ∧ alive (doConnect config t bg) i).
Proof.
  intros Hinv Hno Hk Hc Hg. pose proof (inv_length _ Hinv) as Hlen. unfold doConnect. destruct (url_valid config).
  - assert (Halive : ∀ i s, (sockets t ++ [mkSocket Connecting true]) !! i = Some s → attached s = true → phase s ≠ Closed → i = length (promises t)).
    { intros i s Hs Ha Hp. apply lookup_app_Some in Hs as [Hs|[Hle Hs]]; [exfalso; apply (Hno i); by exists s|].
      apply list_lookup_singleton_Some in Hs as [Hs _]. lia. }
    split; [cbn [sockets promises]; by rewrite !length_app, Hlen|]. split.
    + intros i (s & Hs & Ha & Hp). cbn in *. f_equal. symmetry. by eapply Halive.
    + intros _. exists (length (promises t)). split; [done|]. exists (mkSocket Connecting true). split; [|done].
      cbn. rewrite lookup_app_r by lia. by rewrite Hlen, Nat.sub_diag.
  - assert (Hdead : ∀ i s, (sockets t ++ [mkSocket Closed false]) !! i = Some s → attached s = true → phase s ≠ Closed → False).
    { intros i s Hs Ha Hp. apply lookup_app_Some in Hs as [Hs|[Hle Hs]]; [apply (Hno i); by exists s|].
      apply list_lookup_singleton_Some in Hs as [_ <-]. done. }
    destruct bg; (split; [cbn [sockets promises notify]; by rewrite !length_app, Hlen|]); (split; [|done]);
      intros i (s & Hs & Ha & Hp); exfalso; by eapply Hdead.
Qed.

Lemma connect_inv t : transport_inv t → polite t CallConnect → transport_inv (connect config t).1.
Proof.
  intros Hinv Hpol. unfold connect. destruct (clear_reconnect t Hinv) as (Hinv' & Hk & Ha & Hc & Hg & _ & _).
  set (u := clearReconnectTimeout t) in *. destruct (isConnected u) eqn:Hcu; [done|].
  destruct (isConnecting u) eqn:Hgu.
  { destruct (inv_connecting _ Hinv' Hgu) as [_ Hp]. by destruct (connectionPromise u). }
  assert (Hno : ∀ i, ¬ alive u i).
  { destruct Hpol as [Hp|[Hp|Hp]]; [congruence|congruence|]. intros i Hi. apply (Hp i). by apply Ha. }
  cbn [fst]. destruct (doConnect_inv u false Hinv' Hno Hk Hcu Hgu) as (H0 & H1 & H2).
  assert (Hsame : isConnected (doConnect config u false) = isConnected u ∧
    reconnectTimers (doConnect config u false) = reconnectTimers u ∧
    reconnectTimeout (doConnect config u false) = reconnectTimeout u) by (unfold doConnect; by destruct (url_valid config)).
  destruct Hsame as (Hs1 & Hs2 & Hs3).
  split; cbn; rewrite ?Hs1, ?Hs2, ?Hs3, ?Hk; try done; try congruence.
  - intros Hcon. split; [by apply H2|done].
  - rewrite (inv_timers _ Hinv'). by rewrite Hk.
Qed.

Lemma disconnect_inv t : transport_inv t →
  transport_inv (disconnect t) ∧ (∀ i, ¬ alive (disconnect t) i) ∧ reconnectTimers (disconnect t) = [].
Proof.
  intros Hinv. unfold disconnect. destruct (clear_reconnect t Hinv) as (Hinv' & Hk & Ha & Hc & Hg & _ & Hw).
  set (u := clearReconnectTimeout t) in *. set (v := match ws u with Some i => _ | None => u end).
  assert (Hv : (∀ i, ¬ alive v i) ∧ length (sockets v) = length (promises v) ∧
    reconnectTimers v = [] ∧ reconnectTimeout v = None).
  { assert (Ht : reconnectTimers u = []) by (rewrite (inv_timers _ Hinv'); by rewrite Hk).
    unfold v. destruct (ws u) as [j|] eqn:Hj.
    - split_and!; try done; [|cbn; rewrite length_alter; apply (inv_length _ Hinv')].
      intros i (s & Hs & Hatt & Hp). cbn in Hs. destruct (decide (j = i)) as [<-|Hne].
      + rewrite list_lookup_alter_eq in Hs. destruct (sockets u !! j); [|done]. injection Hs as <-. done.
      + rewrite list_lookup_alter_ne in Hs by done. assert (alive u i) as Hi by by exists s.
        apply (inv_current _ Hinv') in Hi. congruence.
    - split_and!; try done; [|apply (inv_length _ Hinv')]. intros i Hi. apply (inv_current _ Hinv') in Hi. congruence. }
  destruct Hv as (Hno & Hlen & Ht & Hto). clearbody v.
  destruct (isConnected v) eqn:Hcv; (split; [split; cbn; try done|split; [by apply Hno|done]]);
    try (intros i Hi; exfalso; by apply (Hno i)); rewrite ?Hto, ?Ht; try done; rewrite ?Hcv; done.
Qed.

Lemma opens_inv t i t' : transport_inv t → next t (SocketOpens i) = Some t' → transport_inv t'.
Proof.
  intros Hinv. cbn. destruct (phase <$> sockets t !! i) as [[]|] eqn:Hp; [|done..]. intros [= <-].
  destruct (is_attached t i) eqn:Ha.
  - assert (Hi : alive t i) by (eapply phase_alive; [done|exact Hp|done]).
    assert (Hcore : same_core t (with_socket t i (set_phase Open))).
    { apply with_socket_core. intros s Hs. rewrite Hs in Hp. cbn in Hp. injection Hp as Hp. cbn. rewrite Hp. done. }
    pose proof (same_core_inv _ _ Hcore Hinv) as Hu. pose proof (proj2 (proj1 (proj2 Hcore) i) Hi) as Hi'.
    set (u := with_socket t i (set_phase Open)) in *. clearbody u. unfold onopen.
    eapply same_core_inv; [apply settle_core|]. destruct Hu as [H0 H1 H2 H3 H4 H5 H6].
    split; cbn; try done.
    intros _. exists i. split; [by apply H1|done].
  - eapply same_core_inv; [|exact Hinv]. by apply with_socket_dead.
Qed.

Lemma notify_core t n : same_core t (notify t n).
Proof. by split_and!. Qed.

Lemma scheduleReconnect_inv t : transport_inv t → (∀ i, ¬ alive t i) → reconnectTimeout t = None →
  isConnected t = false → isConnecting t = false → transport_inv (scheduleReconnect config t).
Proof.
  intros Hinv Hno Hk Hc Hg. unfold scheduleReconnect. destruct (shouldReconnect t) eqn:Hsr; cbn [negb]; [|done].
  destruct (attempts_left _ _); cbn [negb]; [|by eapply same_core_inv, Hinv; apply notify_core].
  destruct Hinv as [H0 H1 H2 H3 H4 H5 H6]. rewrite Hk in H4.
  split; cbn; rewrite ?H4, ?Hc, ?Hg; done.
Qed.

Lemma closes_inv t i t' : transport_inv t → next t (SocketCloses i) = Some t' → transport_inv t'.
Proof.
  intros Hinv. cbn. destruct (phase <$> sockets t !! i) as [p|] eqn:Hp; [|done].
  intros H. assert (p ≠ Closed) as Hne by (by intros ->).
  assert (t' = if is_attached t i then onclose config (with_socket t i (set_phase Closed)) i else with_socket t i (set_phase Closed)) as ->
    by (by destruct p; simplify_eq).
  clear H. destruct (is_attached t i) eqn:Ha.
  - assert (Hi : alive t i) by by eapply phase_alive. pose proof (inv_current _ Hinv i Hi) as Hw.
    assert (Hk : reconnectTimeout t = None).
    { destruct (reconnectTimeout t) as [k|] eqn:Hk; [|done]. destruct (inv_waiting _ Hinv) as [Hno _]; [by rewrite Hk|].
      by destruct (Hno i). }
    assert (Hno : ∀ j, ¬ alive (with_socket t i (set_phase Closed)) j).
    { intros j (s & Hs & Hatt & Hph). cbn in Hs. destruct (decide (i = j)) as [<-|Hij].
      - rewrite list_lookup_alter_eq in Hs. destruct (sockets t !! i); [|done]. injection Hs as <-. done.
      - rewrite list_lookup_alter_ne in Hs by done. apply Hij. assert (ws t = Some j) by (apply (inv_current _ Hinv); by exists s).
        congruence. }
    unfold onclose. cbn zeta. set (u := with_flags _ false false).
    set (v := if isConnected _ then notify u (ConnectionChange false) else u).
    assert (Hv : transport_inv v ∧ (∀ j, ¬ alive v j) ∧ reconnectTimeout v = None ∧ isConnected v = false ∧ isConnecting v = false).
    { destruct Hinv as [H0 H1 H2 H3 H4 H5 H6]. unfold v. destruct (isConnected _); (split; [|by split_and!]);
        (split; cbn; rewrite ?length_alter; try done); try (intros j Hj; exfalso; by apply (Hno j)); by rewrite Hk. }
    destruct Hv as (H1 & H2 & H3 & H4 & H5). clearbody v. destruct (shouldReconnect v); [|done].
    by apply scheduleReconnect_inv.
  - eapply same_core_inv; [|exact Hinv]. by apply with_socket_dead.
Qed.

Lemma closing_core t j : same_core t (with_socket t j closing).
Proof. apply with_socket_core. intros s _. split; [done|]. destruct s as [[] ?]; cbn; done. Qed.

Lemma fails_inv t i t' : transport_inv t → next t (SocketFails i) = Some t' → transport_inv t'.
Proof.
  intros Hinv. cbn. destruct (phase <$> sockets t !! i) as [p|] eqn:Hp; [|done].
  intros H. assert (p ≠ Closed) as Hne by (by intros ->).
  assert (t' = if is_attached t i then onerror (with_socket t i (set_phase Closing)) i else with_socket t i (set_phase Closing)) as ->
    by (by destruct p; simplify_eq).
  clear H. destruct (is_attached t i) eqn:Ha; [|eapply same_core_inv; [|exact Hinv]; by apply with_socket_dead].
  assert (Hcore : same_core t (with_socket t i (set_phase Closing))).
  { apply with_socket_core. intros s Hs. rewrite Hs in Hp. cbn in *. injection Hp as Hp. rewrite Hp. by split. }
  pose proof (same_core_inv _ _ Hcore Hinv) as Hu. set (u := with_socket t i (set_phase Closing)) in *. clearbody u.
  unfold onerror. cbn zeta. set (v := notify _ TransportError).
  assert (Hv : transport_inv v) by (eapply same_core_inv; [|exact Hu]; by split_and!). clearbody v.
  destruct (isConnecting v); [|done]. eapply same_core_inv; [apply settle_core|].
  destruct Hv as [H0 H1 H2 H3 H4 H5 H6]. by split.
Qed.

Lemma timeout_inv t i : transport_inv t → transport_inv (connection_timeout t i).
Proof.
  intros Hinv. unfold connection_timeout. eapply same_core_inv; [apply settle_core|].
  assert (Hc : transport_inv (clearTimeout t i)) by (eapply same_core_inv; [|exact Hinv]; by split_and!).
  destruct (ws (clearTimeout t i)) as [j|]; [|done]. eapply same_core_inv; [apply closing_core|done].
Qed.

Lemma reconnect_inv t k : transport_inv t → js_has (reconnectTimers t) k = true → transport_inv (reconnect_fires config t k).
Proof.
  intros Hinv Hk%js_has_true. unfold reconnect_fires.
  pose proof (inv_timers _ Hinv) as Ht. destruct (reconnectTimeout t) as [k'|] eqn:Hto; [|rewrite Ht in Hk; by apply not_elem_of_nil in Hk].
  rewrite Ht in Hk. apply list_elem_of_singleton in Hk. subst k'.
  destruct (inv_waiting _ Hinv) as [Hno Hsr]; [by rewrite Hto|]. pose proof (inv_promise _ Hinv Hsr) as Hcp.
  assert (Hc : isConnected t = false).
  { destruct (isConnected t) eqn:Hc; [|done]. destruct (inv_connected _ Hinv Hc) as (i & _ & Hi). by destruct (Hno i). }
  assert (Hg : isConnecting t = false).
  { destruct (isConnecting t) eqn:Hg; [|done]. destruct (inv_connecting _ Hinv Hg) as [(i & _ & Hi) _]. by destruct (Hno i). }
  rewrite Ht. assert (js_del [k] k = []) as ->.
  { unfold js_del. by rewrite filter_cons, decide_False by auto. }
  set (u := mkTransport _ _ _ _ _ _ _ None [] _ _ _ _ _).
  assert (Hu : transport_inv u) by (destruct Hinv; by split).
  destruct (doConnect_inv u true Hu Hno eq_refl Hc Hg) as (H0 & H1 & H2).
  assert (Hsame : isConnected (doConnect config u true) = false ∧ reconnectTimers (doConnect config u true) = [] ∧
    reconnectTimeout (doConnect config u true) = None ∧ shouldReconnect (doConnect config u true) = true ∧
    connectionPromise (doConnect config u true) = connectionPromise t).
  { unfold doConnect. destruct (url_valid config); by split_and!. }
  destruct Hsame as (Hs1 & Hs2 & Hs3 & Hs4 & Hs5). split; rewrite ?Hs1, ?Hs2, ?Hs3, ?Hs4, ?Hs5; try done.
  intros Hcon. split; [by apply H2|done].
Qed.

Lemma next_inv t e t' : transport_inv t → polite t e → next t e = Some t' → transport_inv t'.
Proof.
  intros Hinv Hpol Hn. destruct e as [| |data|i|i|i|i data|i|k].
  - injection Hn as <-. by apply connect_inv.
  - injection Hn as <-. by apply disconnect_inv.
  - cbn in Hn. injection Hn as <-. unfold send. destruct (isConnected t); [|done]. destruct (ws t) as [j|]; [|done].
    destruct (phase <$> sockets t !! j) as [[]|]; try done. eapply same_core_inv; [apply notify_core|done].
  - by eapply opens_inv.
  - by eapply closes_inv.
  - by eapply fails_inv.
  - cbn in Hn. destruct (phase <$> sockets t !! i) as [[]|]; [done| |done..]. injection Hn as <-.
    destruct (is_attached t i); [|done]. eapply same_core_inv; [apply notify_core|done].
  - cbn in Hn. destruct (js_has (timeouts t) i); [|done]. injection Hn as <-. by apply timeout_inv.
  - cbn in Hn. destruct (js_has (reconnectTimers t) k) eqn:Hk; [|done]. injection Hn as <-. by apply reconnect_inv.
Qed.

Lemma reachable_core t : reachable t → transport_inv t.
Proof.
  induction 1 as [|t e t' _ IH Hpol Hn]; [|by eapply next_inv]. split; try done.
  by intros i (s & Hs & _).
Qed.

(** As long as the client does not call [connect] between the failure of a socket
    and its close, the transport has at most one socket that can still call it, the
    one it keeps; it counts as connected only with such a socket, and it waits for a
    reconnection only without one. *)
Theorem one_live_connection t :
  reachable t →
  (∀ i, alive t i → ws t = Some i) ∧
  (isConnected t = true → ∃ i, ws t = Some i ∧ alive t i) ∧
  (∀ k, k ∈ reconnectTimers t → reconnectTimers t = [k] ∧ ∀ i, ¬ alive t i).
Proof.
  intros Hr%reachable_core. split_and!; [apply (inv_current _ Hr)|apply (inv_connected _ Hr)|].
  intros k. rewrite (inv_timers _ Hr). destruct (reconnectTimeout t) as [k'|] eqn:Hk; [|by intros ?%not_elem_of_nil].
  intros ->%list_elem_of_singleton. split; [done|]. apply (inv_waiting _ Hr). by rewrite Hk.
Qed.

(** * After [disconnect] *)

Definition quiet t : Prop :=
  (∀ i, ¬ alive t i) ∧ reconnectTimers t = [] ∧ shouldReconnect t = false ∧ isConnected t = false ∧ ws t = None.

Lemma quiet_core t t' : same_core t t' → quiet t → quiet t'.
Proof.
  intros (Hw & Ha & _ & _ & Hc & _ & Ht & _ & Hsh & _) (Hno & H1 & H2 & H3 & H4).
  split_and!; try congruence. intros i Hi. by apply (Hno i), Ha.
Qed.

Definition only_errors t t' : Prop :=
  length (sockets t') = length (sockets t) ∧ ∃ l, log t' = log t ++ l ∧ Forall (λ n, n = TransportError) l.

Lemma only_errors_refl t : only_errors t t.
Proof. split; [done|]. exists []. by rewrite app_nil_r. Qed.

Lemma not_attached t i p : quiet t → phase <$> sockets t !! i = Some p → p ≠ Closed → is_attached t i = false.
Proof.
  intros (Hno & _) Hp Hne. destruct (is_attached t i) eqn:Ha; [|done]. destruct (Hno i). by eapply phase_alive.
Qed.

Lemma with_socket_quiet t i f : quiet t → is_attached t i = false → (∀ s, attached (f s) = attached s) →
  quiet (with_socket t i f) ∧ only_errors t (with_socket t i f).
Proof.
  intros Hq Ha Hf. split; [eapply quiet_core; [by apply with_socket_dead|done]|].
  split; [apply length_alter|]. exists []. by rewrite app_nil_r.
Qed.

Lemma quiet_next t e t' : quiet t → e ≠ CallConnect → e ≠ CallDisconnect → next t e = Some t' → quiet t' ∧ only_errors t t'.
Proof.
  intros Hq Hne1 Hne2 Hn. pose proof Hq as (Hno & Hti & Hsr & Hc & Hw). destruct e as [| |data|i|i|i|i data|i|k]; try done.
  - cbn in Hn. injection Hn as <-. unfold send. rewrite Hc. split; [done|apply only_errors_refl].
  - cbn in Hn. destruct (phase <$> sockets t !! i) as [[]|] eqn:Hp; [|done..]. rewrite (not_attached t i Connecting) in Hn by done.
    injection Hn as <-. apply with_socket_quiet; [done|by eapply not_attached|done].
  - cbn in Hn. destruct (phase <$> sockets t !! i) as [p|] eqn:Hp; [|done].
    assert (p ≠ Closed) by (by intros ->). rewrite (not_attached t i p) in Hn by done.
    assert (t' = with_socket t i (set_phase Closed)) as -> by (by destruct p; simplify_eq).
    apply with_socket_quiet; [done|by eapply not_attached|done].
  - cbn in Hn. destruct (phase <$> sockets t !! i) as [p|] eqn:Hp; [|done].
    assert (p ≠ Closed) by (by intros ->). rewrite (not_attached t i p) in Hn by done.
    assert (t' = with_socket t i (set_phase Closing)) as -> by (by destruct p; simplify_eq).
    apply with_socket_quiet; [done|by eapply not_attached|done].
  - cbn in Hn. destruct (phase <$> sockets t !! i) as [[]|] eqn:Hp; [done| |done..]. rewrite (not_attached t i Open) in Hn by done.
    injection Hn as <-. split; [done|apply only_errors_refl].
  - cbn in Hn. destruct (js_has (timeouts t) i); [|done]. injection Hn as <-. unfold connection_timeout. cbn [ws clearTimeout]. rewrite Hw.
    split; [eapply quiet_core; [apply settle_core|done]|]. split.
    + destruct (settle_core (clearTimeout t i) i Rejected) as (_ & _ & -> & _). done.
    + destruct (settle_log (clearTimeout t i) i Rejected) as [-> | ->]; [exists []; by rewrite app_nil_r|].
      exists [TransportError]. split; [done|by constructor].
  - cbn in Hn. rewrite Hti in Hn. done.
Qed.

Lemma quiet_run es t t' : quiet t → CallConnect ∉ es → CallDisconnect ∉ es → run t es = Some t' → only_errors t t'.
Proof.
  revert t. induction es as [|e es IH]; intros t Hq H1 H2; cbn.
  - intros [= <-]. apply only_errors_refl.
  - intros (u & Hu & Hrun)%bind_Some. rewrite not_elem_of_cons in H1, H2. destruct H1 as [H1 H1'], H2 as [H2 H2'].
    destruct (quiet_next t e u Hq) as [Hq' (Hs & l & Hl & Hf)]; [naive_solver|naive_solver|done|].
    destruct (IH u Hq' H1' H2' Hrun) as (Hs' & l' & Hl' & Hf'). split; [congruence|].
    exists (l ++ l'). split; [by rewrite Hl', Hl, app_assoc|by apply Forall_app].
Qed.

Lemma disconnect_fields t :
  isConnected (disconnect t) = false ∧ shouldReconnect (disconnect t) = false ∧ ws (disconnect t) = None ∧
  length (sockets (disconnect t)) = length (sockets t).
Proof.
  unfold disconnect. set (v := match ws _ with Some i => _ | None => _ end).
  assert (length (sockets v) = length (sockets t)) as Hv.
  { unfold v, clearReconnectTimeout. destruct (reconnectTimeout t); cbn; destruct (ws t); cbn; by rewrite ?length_alter. }
  clearbody v. by destruct (isConnected v) eqn:Hc; split_and!.
Qed.

(** Under the same condition [disconnect] is final: until the client connects again
    nothing is received or sent, no state change is reported and no socket is made,
    whatever the browser and the timers still do; only late errors are reported. *)
Theorem disconnect_is_final t es t' :
  reachable t → CallConnect ∉ es → CallDisconnect ∉ es → run (disconnect t) es = Some t' →
  length (sockets t') = length (sockets t) ∧
  ∃ l, log t' = log (disconnect t) ++ l ∧ Forall (λ n, n = TransportError) l.
Proof.
  intros Hr%reachable_core H1 H2 Hrun. destruct (disconnect_inv t Hr) as (_ & Hno & Ht).
  destruct (disconnect_fields t) as (Hc & Hsr & Hw & Hlen).
  destruct (quiet_run es (disconnect t) t') as [Hs Hl]; [by split_and!|done..|].
  split; [congruence|done].
Qed.

End Proofs.

(** * Concrete runs *)

Definition demo_config : WebSocketTransportConfig := mkConfig true true (Some 3) 1000%Z 30000%Z 2%Z.

(** A connection that is lost and made again. *)
Definition demo_events : list TransportEvent := [CallConnect; SocketOpens 0; SocketCloses 0; ReconnectFires 0; SocketOpens 1].

Definition demo_transport : WebSocketTransport :=
  Eval vm_compute in default new_transport (transport_run demo_config new_transport demo_events).

Lemma run_reachable config es t t' :
  reachable config t → CallConnect ∉ es → transport_run config t es = Some t' → reachable config t'.
Proof.
  revert t. induction es as [|e es IH]; intros t Ht Hn; cbn; [by intros [= <-]|].
  intros (u & Hu & Hrun)%bind_Some. apply not_elem_of_cons in Hn as [Hne Hn].
  eapply IH; [|done|done]. eapply reachable_next; [exact Ht| |exact Hu]. by destruct e.
Qed.

Lemma demo_reachable : reachable demo_config demo_transport.
Proof.
  apply (run_reachable _ (tail demo_events) (connect demo_config new_transport).1).
  - eapply (reachable_next _ _ CallConnect); [apply reachable_new| |done]. right. right. by intros i (s & Hs & _).
  - by_decide.
  - by vm_compute.
Qed.

Lemma one_live_connection_witness :
  ws demo_transport = Some 1 ∧
  (∀ i, alive demo_transport i → ws demo_transport = Some i) ∧
  (isConnected demo_transport = true → ∃ i, ws demo_transport = Some i ∧ alive demo_transport i) ∧
  (∀ k, k ∈ reconnectTimers demo_transport → reconnectTimers demo_transport = [k] ∧ ∀ i, ¬ alive demo_transport i).
Proof. split; [done|]. apply (one_live_connection demo_config demo_transport demo_reachable). Defined.

Lemma disconnect_is_final_witness :
  ∃ t', transport_run demo_config (disconnect demo_transport) [SocketCloses 1; CallSend [1%Z]] = Some t' ∧
    length (sockets t') = length (sockets demo_transport) ∧
    ∃ l, log t' = log (disconnect demo_transport) ++ l ∧ Forall (λ n, n = TransportError) l.
Proof.
  eexists. split; [by vm_compute|].
  apply (disconnect_is_final demo_config demo_transport [SocketCloses 1; CallSend [1%Z]]);
    [exact demo_reachable|by_decide|by_decide|by vm_compute].
Defined.

(** The timeout of a connection that was given up closes the connection made since. *)
Theorem stale_timeout_closes_connection :
  ∃ t t', transport_run demo_config new_transport [CallConnect; CallDisconnect; CallConnect; SocketOpens 1] = Some t ∧
    isConnected t = true ∧ phase <$> sockets t !! 1 = Some Open ∧
    transport_next demo_config t (TimeoutFires 0) = Some t' ∧ phase <$> sockets t' !! 1 = Some Closing.
Proof. do 2 eexists. split_and!; by vm_compute. Qed.

(** A client that connects again when [connect] is rejected, before the failed socket
    has closed, ends up with two sockets; one of them delivers data after
    [disconnect]. *)
Theorem hasty_connect_leaks_socket :
  ∃ t, transport_run demo_config new_transport
         [CallConnect; SocketFails 0; CallConnect; SocketCloses 0; ReconnectFires 0; SocketOpens 1; SocketOpens 2;
          CallDisconnect; SocketMessage 1 [7%Z]] = Some t ∧
    isConnected t = false ∧ last (log t) = Some (Received 1 [7%Z]).
Proof. eexists. split_and!; by vm_compute. Qed.

(** While a lost connection is being made again, [connect] returns a promise that was
    resolved by the first one. *)
Theorem connect_resolves_before_connected :
  ∃ t p, transport_run demo_config new_transport [CallConnect; SocketOpens 0; SocketCloses 0; ReconnectFires 0] = Some t ∧
    isConnected t = false ∧ (connect demo_config t).2 = Some p ∧ promises t !! p = Some Resolved.
Proof. do 2 eexists. split_and!; by vm_compute. Qed.
