(* ===== verification/CrdtSync.v ===== *)
(** CrdtSync: the synchronisation of two copies of a collaborative document.

    packages/@n8n/crdt/src: sync/base-sync-provider.ts over the transports
    message-port.ts and broadcast-channel.ts.  The document (a Yjs document) is a
    parameter; [SyncTransport] is the interface of transports/types.ts and
    [ReliableTransport] what the convergence of the copies needs of one.

    [start] is split at its [await]: the rest of it runs as a microtask, before any
    message of the port is delivered. *)

From stdpp Require Import prelude list gmap.
From S2P Require Import Prelude.

(** * Transports *)

(** One end of a transport: its state and what the other end has posted to it. *)
Class SyncTransport (T U : Type) := {
  t_new : T;
  t_connected : T → bool;
  t_connect : T → T;
  t_disconnect : T → T;
  t_post : T → U → T;
  t_take : T → option (T * option U);
}.

(** Messages wait for a first [connect] and are delivered in order after it. *)
Class ReliableTransport (T U : Type) `{SyncTransport T U} (incoming : T → list U) (never_closed : T → Prop) : Prop := {
  rt_new : never_closed t_new ∧ incoming t_new = [] ∧ t_connected t_new = false;
  rt_connect t : never_closed t → never_closed (t_connect t) ∧ t_connected (t_connect t) = true ∧ incoming (t_connect t) = incoming t;
  rt_post t u : never_closed t → never_closed (t_post t u) ∧ t_connected (t_post t u) = t_connected t ∧ incoming (t_post t u) = incoming t ++ [u];
  rt_early t : never_closed t → t_connected t = false → t_take t = None;
  rt_take t : never_closed t → t_connected t = true →
    match incoming t with
    | [] => t_take t = None
    | u :: q => ∃ t', t_take t = Some (t', Some u) ∧ never_closed t' ∧ t_connected t' = true ∧ incoming t' = q
    end;
}.

(** A port queues messages until it is started; later a message that nobody listens
    for is lost. *)
Record MessagePortTransport (U : Type) := mkPort {
  mp_connected : bool;
  mp_started : bool;
  mp_queue : list U;
}.
Arguments mkPort {U}. Arguments mp_connected {U}. Arguments mp_started {U}. Arguments mp_queue {U}.

#[export] Instance message_port U : SyncTransport (MessagePortTransport U) U := {|
  t_new := mkPort false false [];
  t_connected := mp_connected;
  t_connect t := if mp_connected t then t else mkPort true true (mp_queue t);
  t_disconnect t := if mp_connected t then mkPort false (mp_started t) (mp_queue t) else t;
  t_post t u := mkPort (mp_connected t) (mp_started t) (mp_queue t ++ [u]);
  t_take t :=
    if mp_started t then
      match mp_queue t with
      | [] => None
      | u :: q => Some (mkPort (mp_connected t) true q, if mp_connected t then Some u else None)
      end
    else None;
|}.

(** A broadcast channel only reaches those that have it open. *)
Record BroadcastChannelTransport (U : Type) := mkChannel {
  bc_connected : bool;
  bc_queue : list U;
}.
Arguments mkChannel {U}. Arguments bc_connected {U}. Arguments bc_queue {U}.

#[export] Instance broadcast_channel U : SyncTransport (BroadcastChannelTransport U) U := {|
  t_new := mkChannel false [];
  t_connected := bc_connected;
  t_connect t := if bc_connected t then t else mkChannel true [];
  t_disconnect t := if bc_connected t then mkChannel false [] else t;
  t_post t u := if bc_connected t then mkChannel true (bc_queue t ++ [u]) else t;
  t_take t := match bc_queue t with [] => None | u :: q => Some (mkChannel (bc_connected t) q, Some u) end;
|}.

#[export] Instance message_port_reliable U :
  ReliableTransport (MessagePortTransport U) U mp_queue (λ t, mp_connected t = mp_started t).
Proof.
  split.
  - done.
  - intros [[] [] q]; cbn; done.
  - intros [[] [] q] u; cbn; done.
  - intros [[] [] q]; cbn; done.
  - intros [[] [] [|u q]]; cbn; try done. intros _ _. by eexists.
Qed.

(** * The document *)

(** The calls of a document the provider makes.  [applyUpdate] may throw; like a local
    edit it hands the update event of the document to its subscribers, if there is one. *)
Class CRDTDoc (Doc Update Edit : Type) := {
  encodeState : Doc → Update;
  applyUpdate : Doc → Update → option (Doc * option Update);
  local_edit : Doc → Edit → Doc * option Update;
}.

(** What a Yjs document promises.  It holds operations, and has integrated those of them
    whose dependencies it holds too; the others are pending, and part of its encoded state.
    Applying is total on the updates of documents and adds what the update carries to what
    is held; an event is raised only when something is integrated, and carries operations
    that are.  Which of the held operations are integrated and what is seen of them does not
    depend on the order in which they came. *)
Class CRDTLaws (Doc Update Edit View Op : Type) `{CRDTDoc Doc Update Edit} `{Countable Op}
    (holds integrated : Doc → gset Op) (carries : Update → gset Op) (valid : Update → Prop) (view : Doc → View) : Prop := {
  integrated_held d : integrated d ⊆ holds d;
  encode_carries d : carries (encodeState d) = holds d ∧ valid (encodeState d);
  apply_total d u : valid u → is_Some (applyUpdate d u);
  apply_holds d u d' o : applyUpdate d u = Some (d', o) → holds d' = holds d ∪ carries u;
  apply_integrated d u d' o : applyUpdate d u = Some (d', o) →
    match o with
    | Some v => valid v ∧ carries v ⊆ integrated d' ∧ integrated d ⊂ integrated d'
    | None => integrated d' = integrated d
    end;
  edit_event d e d' o : local_edit d e = (d', o) →
    match o with Some v => valid v ∧ holds d' = holds d ∪ carries v | None => holds d' = holds d end;
  view_holds d d' : holds d = holds d' → view d = view d';
}.

(** * The provider *)

Section Provider.
Context {Doc Update Edit T : Type} `{CRDTDoc Doc Update Edit} `{SyncTransport T Update}.

(** [BaseSyncProvider] with its document and transport.  Subscriptions are numbers;
    [starting] counts the calls of [start] that wait at their [await]. *)
Record BaseSyncProvider := mkProvider {
  doc : Doc;
  transport : T;
  syncing : bool;
  starting : nat;
  receiveHandlers : list nat;
  docHandlers : list nat;
  unsubscribeTransport : option nat;
  unsubscribeDoc : option nat;
  nextHandler : nat;
}.

Definition new_provider (d : Doc) : BaseSyncProvider := mkProvider d t_new false 0 [] [] None None 0.

Definition with_transport (p : BaseSyncProvider) (t : T) : BaseSyncProvider :=
  mkProvider (doc p) t (syncing p) (starting p) (receiveHandlers p) (docHandlers p) (unsubscribeTransport p)
    (unsubscribeDoc p) (nextHandler p).

Definition with_doc (p : BaseSyncProvider) (d : Doc) : BaseSyncProvider :=
  mkProvider d (transport p) (syncing p) (starting p) (receiveHandlers p) (docHandlers p) (unsubscribeTransport p)
    (unsubscribeDoc p) (nextHandler p).

(** What the operations post to the other end. *)
Definition start_call (p : BaseSyncProvider) : BaseSyncProvider :=
  if syncing p then p
  else
    mkProvider (doc p) (t_connect (transport p)) (syncing p) (S (starting p)) (receiveHandlers p) (docHandlers p)
      (unsubscribeTransport p) (unsubscribeDoc p) (nextHandler p).

(** After the [await]: both subscriptions and the initial state.  [send] throws when
    the transport is not connected. *)
Definition start_resume (p : BaseSyncProvider) : BaseSyncProvider * list Update :=
  let h := nextHandler p in
  let connected := t_connected (transport p) in
  (mkProvider (doc p) (transport p) (syncing p || connected) (pred (starting p)) (receiveHandlers p ++ [h])
     (docHandlers p ++ [h]) (Some h) (Some h) (S h),
   if connected then [encodeState (doc p)] else []).

Definition unsubscribe (handlers : list nat) (h : option nat) : list nat :=
  match h with Some h => js_del handlers h | None => handlers end.

Definition stop (p : BaseSyncProvider) : BaseSyncProvider :=
  if syncing p then
    mkProvider (doc p) (t_disconnect (transport p)) false (starting p)
      (unsubscribe (receiveHandlers p) (unsubscribeTransport p)) (unsubscribe (docHandlers p) (unsubscribeDoc p))
      None None (nextHandler p)
  else p.

(** The update event of the document: every subscription sends it. *)
Definition on_update (p : BaseSyncProvider) (o : option Update) : list Update :=
  match o with
  | Some u => if t_connected (transport p) then replicate (length (docHandlers p)) u else []
  | None => []
  end.

Definition edit (p : BaseSyncProvider) (e : Edit) : BaseSyncProvider * list Update :=
  let '(d, o) := local_edit (doc p) e in (with_doc p d, on_update p o).

(** One receive handler: an update that cannot be applied is reported. *)
Definition receive_one (u : Update) (s : BaseSyncProvider * list Update) : BaseSyncProvider * list Update :=
  let '(p, out) := s in
  match applyUpdate (doc p) u with
  | Some (d, o) => (with_doc p d, out ++ on_update p o)
  | None => (p, out)
  end.

Definition receive (p : BaseSyncProvider) (u : Update) : BaseSyncProvider * list Update :=
  foldl (λ r _, receive_one u r) (p, []) (receiveHandlers p).

(** * Two peers *)

Inductive Side := Left | Right.
Definition other (s : Side) : Side := match s with Left => Right | Right => Left end.

Record Peers := mkPeers { left_peer : BaseSyncProvider; right_peer : BaseSyncProvider }.

Definition peer (ps : Peers) (s : Side) : BaseSyncProvider :=
  match s with Left => left_peer ps | Right => right_peer ps end.

Definition set_peer (ps : Peers) (s : Side) (p : BaseSyncProvider) : Peers :=
  match s with Left => mkPeers p (right_peer ps) | Right => mkPeers (left_peer ps) p end.

Inductive SyncEvent :=
| CallStart (s : Side)
| ResumeStart (s : Side)
| CallStop (s : Side)
| LocalEdit (s : Side) (e : Edit)
| Deliver (s : Side).

(** The peer [s] changes to [p] and posts [out] to the other one. *)
Definition act (ps : Peers) (s : Side) (r : BaseSyncProvider * list Update) : Peers :=
  let ps := set_peer ps s r.1 in
  let q := peer ps (other s) in
  set_peer ps (other s) (with_transport q (foldl t_post (transport q) r.2)).

Definition sync_next (ps : Peers) (ev : SyncEvent) : option Peers :=
  match ev with
  | CallStart s => Some (set_peer ps s (start_call (peer ps s)))
  | ResumeStart s =>
      match starting (peer ps s) with
      | O => None
      | S _ => Some (act ps s (start_resume (peer ps s)))
      end
  | CallStop s => Some (set_peer ps s (stop (peer ps s)))
  | LocalEdit s e => Some (act ps s (edit (peer ps s) e))
  | Deliver s =>
      match starting (peer ps s) with
      | S _ => None
      | O =>
          match t_take (transport (peer ps s)) with
          | None => None
          | Some (t, o) =>
              let p := with_transport (peer ps s) t in
              Some (act ps s (match o with Some u => receive p u | None => (p, []) end))
          end
      end
  end.

Fixpoint sync_run (ps : Peers) (evs : list SyncEvent) : option Peers :=
  match evs with
  | [] => Some ps
  | ev :: evs => ps ← sync_next ps ev; sync_run ps evs
  end.

Definition new_peers (a b : Doc) : Peers := mkPeers (new_provider a) (new_provider b).

End Provider.

Arguments BaseSyncProvider : clear implicits.
Arguments Peers : clear implicits.
Arguments SyncEvent : clear implicits.

(** * Convergence *)

Section Convergence.
Context {Doc Update Edit View Op T : Type} `{CRDTDoc Doc Update Edit} `{Countable Op} `{SyncTransport T Update}.
Context (holds integrated : Doc → gset Op) (carries : Update → gset Op) (valid : Update → Prop) (view : Doc → View).
Context (incoming : T → list Update) (never_closed : T → Prop).
Context `{!CRDTLaws Doc Update Edit View Op holds integrated carries valid view}.
Context `{!ReliableTransport T Update incoming never_closed}.

Abbreviation Provider := (BaseSyncProvider Doc T).
Abbreviation System := (Peers Doc T).
Abbreviation next := (sync_next (Doc := Doc) (Update := Update) (Edit := Edit) (T := T)).
Abbreviation run := (sync_run (Doc := Doc) (Update := Update) (Edit := Edit) (T := T)).
Implicit Types (ps : System) (p q : Provider) (s : Side).

(** The operations a peer holds, those it has integrated, and those on their way to it. *)
Definition carried (us : list Update) : gset Op := ⋃ (carries <$> us).
Definition known p : gset Op := holds (doc p).
Definition seen p : gset Op := integrated (doc p).
Definition coming p : gset Op := carried (incoming (transport p)).

Lemma carried_app us vs : carried (us ++ vs) = carried us ∪ carried vs.
Proof. unfold carried. by rewrite fmap_app, union_list_app_L. Qed.

Lemma carried_nil (X : gset Op) : carried [] ⊆ X.
Proof. change (∅ ⊆ X). apply empty_subseteq. Qed.

Lemma carried_elem us u : u ∈ us → carries u ⊆ carried us.
Proof. intros Hu x Hx. apply elem_of_union_list. exists (carries u). split; [|done]. apply list_elem_of_fmap. eauto. Qed.

Lemma carried_replicate n u : carried (replicate n u) ⊆ carries u ∧ (n ≠ 0 → carries u ⊆ carried (replicate n u)).
Proof.
  split.
  - intros x Hx. apply elem_of_union_list in Hx as (X & HX & Hx). apply list_elem_of_fmap in HX as (v & -> & Hv).
    by apply elem_of_replicate in Hv as [-> _].
  - intros Hn. apply carried_elem. by apply elem_of_replicate.
Qed.

Lemma post_all us t : never_closed t →
  never_closed (foldl t_post t us) ∧ t_connected (foldl t_post t us) = t_connected t ∧
  incoming (foldl t_post t us) = incoming t ++ us.
Proof.
  revert t. induction us as [|u us IH]; intros t Ht; cbn; [by rewrite app_nil_r|].
  destruct (rt_post t u Ht) as (H3 & H4 & H5). destruct (IH _ H3) as (H6 & H7 & H8).
  split; [done|]. split; [congruence|]. rewrite H8, H5. by rewrite <-app_assoc.
Qed.

(** The document of [p] has grown by operations of [u], and what is sent is less than what
    the document has integrated since can account for. *)
Definition grown (u : Update) p (r : Provider * list Update) : Prop :=
  (∃ d, r.1 = with_doc p d) ∧ Forall valid r.2 ∧ known p ⊆ known r.1 ∧ carried r.2 ⊆ known r.1 ∧
  known r.1 ⊆ known p ∪ carries u ∧
  (∀ V, known r.1 ⊆ V → length r.2 + length (docHandlers p) * size (V ∖ seen r.1) ≤ length (docHandlers p) * size (V ∖ seen p)).

Lemma with_doc_id p : with_doc p (doc p) = p.
Proof. by destruct p. Qed.

Lemma grown_refl u p : grown u p (p, []).
Proof.
  unfold grown. cbn [fst snd]. split; [exists (doc p); by rewrite with_doc_id|]. split; [constructor|].
  split; [done|]. split; [apply carried_nil|]. split; [apply union_subseteq_l|]. intros V _. cbn. lia.
Qed.

Lemma diff_smaller (V X Y : gset Op) : Y ⊆ V → X ⊂ Y → size (V ∖ Y) < size (V ∖ X).
Proof.
  intros HV [Hsub Hne]. apply subset_size. split; [set_solver|]. intros Hs. apply Hne. intros x Hx.
  destruct (decide (x ∈ X)) as [|Hn]; [done|]. assert (x ∈ V ∖ Y) by (apply Hs; set_solver). set_solver.
Qed.

(** An update is applied; every subscription sends its event. *)
Lemma grown_apply u p d o : valid u → applyUpdate (doc p) u = Some (d, o) → grown u p (with_doc p d, on_update p o).
Proof.
  intros Hu Ha. pose proof (apply_holds _ _ _ _ Ha) as Hd. pose proof (apply_integrated _ _ _ _ Ha) as Hi.
  pose proof (integrated_held d) as Hh. set (h := length (docHandlers p)).
  assert (Hout : Forall valid (on_update p o) ∧ carried (on_update p o) ⊆ holds d).
  { destruct o as [v|]; cbn [on_update]; [|split; [constructor|apply carried_nil]].
    destruct Hi as (Hv & Hc & _), (t_connected _); [|split; [constructor|apply carried_nil]].
    split; [by apply Forall_replicate|]. transitivity (carries v); [apply carried_replicate|by transitivity (integrated d)]. }
  destruct Hout as [Hval Hcar]. split_and!; cbn [fst snd]; [by exists d|done| |done| |].
  - change (holds (doc p) ⊆ holds d). rewrite Hd. apply union_subseteq_l.
  - change (holds d ⊆ holds (doc p) ∪ carries u). by rewrite Hd.
  - intros V HV. change (holds d ⊆ V) in HV. change (seen (with_doc p d)) with (integrated d). fold h.
    destruct o as [v|]; cbn [on_update length]; [|unfold seen; rewrite Hi; lia].
    assert (Hlen : length (if t_connected (transport p) then replicate h v else []) ≤ h).
    { destruct (t_connected _); [by rewrite length_replicate|cbn; lia]. }
    destruct Hi as (_ & _ & Hi). assert (integrated d ⊆ V) as HiV by (by transitivity (holds d)).
    pose proof (Nat.mul_le_mono_l _ _ h (diff_smaller V (integrated (doc p)) (integrated d) HiV Hi)) as Hm.
    rewrite Nat.mul_succ_r in Hm. unfold seen. fold h. lia.
Qed.

(** Growth in two steps. *)
Lemma grown_trans u p d0 out0 d out :
  grown u p (with_doc p d0, out0) → grown u (with_doc p d0) (with_doc (with_doc p d0) d, out) →
  grown u p (with_doc p d, out0 ++ out).
Proof.
  intros (_ & Hval & Hmono & Hout & Hle & Hsize) (_ & Hval' & Hmono' & Hout' & Hle' & Hsize').
  cbn [fst snd] in *. change (known (with_doc (with_doc p d0) d)) with (known (with_doc p d)) in *.
  change (seen (with_doc (with_doc p d0) d)) with (seen (with_doc p d)) in *.
  change (docHandlers (with_doc p d0)) with (docHandlers p) in *.
  set (K := known p) in *. set (K0 := known (with_doc p d0)) in *. set (K1 := known (with_doc p d)) in *.
  split_and!; cbn [fst snd]; fold K K0 K1.
  - by exists d.
  - by apply Forall_app.
  - by transitivity K0.
  - rewrite carried_app. apply union_least; [by transitivity K0|done].
  - transitivity (K0 ∪ carries u); [done|]. apply union_least; [done|apply union_subseteq_r].
  - intros V HV. rewrite length_app. specialize (Hsize' V HV).
    assert (K0 ⊆ V) as HV0 by (by transitivity K1). specialize (Hsize V HV0). lia.
Qed.

Lemma receive_one_grown u p r :
  valid u → grown u p r → grown u p (receive_one u r) ∧ carries u ⊆ known (receive_one u r).1.
Proof.
  intros Hu Hg. pose proof Hg as ((d0 & Hr) & _). destruct r as [p' out]. cbn [fst] in Hr. subst p'.
  unfold receive_one. cbn [doc with_doc]. destruct (apply_total d0 u Hu) as [[d o] Ha]. rewrite Ha. cbn [fst].
  split; [|pose proof (apply_holds _ _ _ _ Ha) as Hd; change (carries u ⊆ holds d); rewrite Hd; apply union_subseteq_r].
  by apply (grown_trans u p d0 out d (on_update (with_doc p d0) o) Hg), (grown_apply u (with_doc p d0)).
Qed.

Lemma receive_grown u p :
  valid u → grown u p (receive p u) ∧ (receiveHandlers p ≠ [] → carries u ⊆ known (receive p u).1).
Proof.
  intros Hu. unfold receive. destruct (receiveHandlers p) as [|h hs]; cbn [foldl]; [by split; [apply grown_refl|]|].
  destruct (receive_one_grown u p (p, []) Hu (grown_refl _ _)) as [Hg Hc].
  assert (grown u p (foldl (λ r _, receive_one u r) (receive_one u (p, [])) hs) ∧
    carries u ⊆ known (foldl (λ r _, receive_one u r) (receive_one u (p, [])) hs).1) as [? ?]; [|done].
  apply (foldl_inv (λ r _, receive_one u r) (λ r, grown u p r ∧ carries u ⊆ known r.1)); [|done].
  intros r _ _ [Hr _]. by apply receive_one_grown.
Qed.

Lemma edit_grown p e :
  (∃ d, (edit p e).1 = with_doc p d) ∧ Forall valid (edit p e).2 ∧ known p ⊆ known (edit p e).1 ∧
  carried (edit p e).2 ⊆ known (edit p e).1 ∧
  (t_connected (transport p) = true → docHandlers p ≠ [] → known (edit p e).1 ⊆ known p ∪ carried (edit p e).2).
Proof.
  unfold edit. destruct (local_edit (doc p) e) as [d o] eqn:He. pose proof (edit_event _ _ _ _ He) as Ho. cbn [fst snd].
  split; [by exists d|]. change (known (with_doc p d)) with (holds d). change (known p) with (holds (doc p)).
  destruct o as [v|]; cbn [on_update].
  - destruct Ho as [Hv Hd]. rewrite Hd. split_and!; [|apply union_subseteq_l| |].
    + destruct (t_connected _); [by apply Forall_replicate|constructor].
    + destruct (t_connected _); [|apply carried_nil]. transitivity (carries v); [apply carried_replicate|apply union_subseteq_r].
    + intros -> Hh. apply union_mono_l, carried_replicate. by destruct (docHandlers p).
  - rewrite Ho. split; [constructor|split; [done|split; [apply carried_nil|]]]. intros _ _. apply union_subseteq_l.
Qed.

(** * The invariant *)

(** A peer on its own: what it needs never to lose a message. *)
Record peer_ok p : Prop := {
  ok_open : never_closed (transport p);
  ok_valid : Forall valid (incoming (transport p));
  ok_syncing : syncing p = true → t_connected (transport p) = true ∧ receiveHandlers p ≠ [] ∧ docHandlers p ≠ [];
  ok_starting : starting p ≠ 0 → t_connected (transport p) = true;
  ok_connected : t_connected (transport p) = true → starting p ≠ 0 ∨ syncing p = true;
}.

(** What [p] has told [q]: only what it holds, and all of it once it is syncing. *)
Definition told p q : Prop := coming q ⊆ known p ∧ (syncing p = true → known p ⊆ known q ∪ coming q).

Definition peers_ok ps : Prop :=
  peer_ok (left_peer ps) ∧ peer_ok (right_peer ps) ∧ told (left_peer ps) (right_peer ps) ∧ told (right_peer ps) (left_peer ps).

Lemma peers_ok_side ps s : peers_ok ps ↔
  peer_ok (peer ps s) ∧ peer_ok (peer ps (other s)) ∧ told (peer ps s) (peer ps (other s)) ∧ told (peer ps (other s)) (peer ps s).
Proof. destruct s; cbn; unfold peers_ok; tauto. Qed.

Lemma post_ok q out : peer_ok q → Forall valid out →
  peer_ok (with_transport q (foldl t_post (transport q) out)) ∧
  coming (with_transport q (foldl t_post (transport q) out)) = coming q ∪ carried out.
Proof.
  intros [H3 H4 H5 H6 H7] Ho. destruct (post_all out _ H3) as (Hc & Hcon & Hin). split.
  - split; cbn [transport with_transport syncing starting receiveHandlers docHandlers]; rewrite ?Hcon, ?Hin; try done.
    by apply Forall_app.
  - unfold coming. cbn [transport with_transport]. by rewrite Hin, carried_app.
Qed.

(** A step of the peer [s] that changes it to [p'] and posts [out]. *)
Lemma act_ok ps s p' out :
  peers_ok ps → peer_ok p' → Forall valid out → known (peer ps s) ⊆ known p' → carried out ⊆ known p' →
  (syncing p' = true → known p' ⊆ known (peer ps (other s)) ∪ (coming (peer ps (other s)) ∪ carried out)) →
  told (peer ps (other s)) p' → peers_ok (act ps s (p', out)).
Proof.
  intros (_ & Hq & [Hc0 _] & _)%(peers_ok_side ps s) Hp' Hout Hmono Hcar Htell Hback.
  destruct (post_ok _ out Hq Hout) as [Hq' Hc].
  assert (told p' (with_transport (peer ps (other s)) (foldl t_post (transport (peer ps (other s))) out))) as Ht.
  { split; rewrite Hc; [apply union_least; [by transitivity (known (peer ps s))|done]|exact Htell]. }
  apply (peers_ok_side _ s). by destruct s.
Qed.

Lemma set_peer_ok ps s p' :
  peers_ok ps → peer_ok p' → told p' (peer ps (other s)) → told (peer ps (other s)) p' → peers_ok (set_peer ps s p').
Proof.
  intros (_ & Hq & _ & _)%(peers_ok_side ps s) Hp' Ht1 Ht2. apply (peers_ok_side _ s). destruct s; cbn in *; by split_and?.
Qed.

Definition no_stop (ev : SyncEvent Edit) : Prop := match ev with CallStop _ => False | _ => True end.

Lemma start_call_ok ps s : peers_ok ps → peers_ok (set_peer ps s (start_call (peer ps s))).
Proof.
  intros Hps. pose proof Hps as (Hp & _ & Ht & Hb)%(peers_ok_side ps s). unfold start_call.
  destruct (syncing (peer ps s)) eqn:Hs; [by apply set_peer_ok|].
  destruct (rt_connect _ (ok_open _ Hp)) as (Hc & Hcon & Hin).
  apply set_peer_ok; [done| | |].
  - destruct Hp as [H3 H4 H5 H6 H7]. split; cbn [transport syncing starting receiveHandlers docHandlers]; rewrite ?Hin; try done.
    intros _. by left.
  - split; [exact (proj1 Ht)|done].
  - unfold told, known, coming in *. cbn [doc transport]. by rewrite Hin.
Qed.

Lemma resume_ok ps s : peers_ok ps → starting (peer ps s) ≠ 0 → peers_ok (act ps s (start_resume (peer ps s))).
Proof.
  intros Hps Hst. pose proof Hps as (Hp & _ & Ht & Hb)%(peers_ok_side ps s). unfold start_resume.
  pose proof (ok_starting _ Hp Hst) as Hcon. rewrite Hcon.
  destruct (encode_carries (doc (peer ps s))) as [Hcar Hval].
  assert (Hinit : carried [encodeState (doc (peer ps s))] = known (peer ps s)).
  { unfold carried. cbn [fmap list_fmap union_list foldr]. rewrite Hcar. apply (right_id_L ∅ (∪)). }
  apply act_ok; [done| |by constructor|done|by rewrite Hinit| |exact Hb].
  - destruct Hp as [H3 H4 H5 H6 H7]. split; cbn [transport syncing receiveHandlers docHandlers starting]; try done.
    + intros _. split; [done|]. split; by destruct (receiveHandlers _), (docHandlers _).
    + intros _. right. by rewrite orb_true_r.
  - intros _. rewrite Hinit. clear. change (known (mkProvider _ _ _ _ _ _ _ _ _)) with (known (peer ps s)). set_solver.
Qed.

Lemma deliver_ok ps s ps' : peers_ok ps → next ps (Deliver s) = Some ps' →
  peers_ok ps' ∧ ∃ u rest, incoming (transport (peer ps s)) = u :: rest ∧ valid u ∧ starting (peer ps s) = 0 ∧
    ∃ t, incoming t = rest ∧ receiveHandlers (peer ps s) ≠ [] ∧ t_connected t = true ∧ docHandlers (peer ps s) ≠ [] ∧
      ps' = act ps s (receive (with_transport (peer ps s) t) u).
Proof.
  intros Hps. pose proof Hps as (Hp & _ & Ht & Hb)%(peers_ok_side ps s). cbn [sync_next].
  destruct (starting (peer ps s)) eqn:Hst; [|done].
  destruct (t_connected (transport (peer ps s))) eqn:Hcon; [|by rewrite (rt_early _ (ok_open _ Hp) Hcon)].
  pose proof (rt_take _ (ok_open _ Hp) Hcon) as Htake. pose proof (ok_valid _ Hp) as Hval.
  destruct (incoming (transport (peer ps s))) as [|u rest] eqn:Hin; [by rewrite Htake|].
  apply Forall_cons in Hval as [Hu Hq]. destruct Htake as (t & -> & Hopen & Hcont & Hint). intros [= <-].
  destruct (ok_connected _ Hp Hcon) as [?|Hs]; [congruence|]. destruct (ok_syncing _ Hp Hs) as (_ & Hrh & Hdh).
  set (p := with_transport (peer ps s) t). destruct (receive_grown u p Hu) as [Hg Hin']. specialize (Hin' Hrh).
  split; [|exists u, rest; do 3 (split; [done|]); by exists t].
  destruct Hg as ((d & Hd) & Hval' & Hmono & Hcar & Hle & _). destruct (receive p u) as [p1 out]. cbn [fst snd] in *. subst p1.
  destruct Ht as [_ Ht], Hb as [Hcome Hb].
  assert (Hco : coming (peer ps s) = carries u ∪ coming (with_doc p d)).
  { unfold coming. change (transport (with_doc p d)) with t. by rewrite Hin, Hint. }
  change (known p) with (known (peer ps s)) in *. rewrite Hco in Hcome, Hb.
  apply act_ok; [done| |done|done|done| |].
  - destruct Hp as [H3 H4 H5 H6 H7]. split; cbn [transport with_transport with_doc p syncing starting receiveHandlers docHandlers]; try done.
    + by rewrite Hint.
    + intros _. by right.
  - intros _. specialize (Ht Hs). clear -Ht Hle Hcome. set_solver.
  - split; [clear -Hcome; set_solver|]. intros Hq'. specialize (Hb Hq'). clear -Hb Hmono Hin'. set_solver.
Qed.

Lemma next_ok ps ev ps' : peers_ok ps → no_stop ev → next ps ev = Some ps' → peers_ok ps'.
Proof.
  intros Hps Hns Hn. destruct ev as [s|s|s|s e|s]; [| |done| |].
  - injection Hn as <-. by apply start_call_ok.
  - cbn in Hn. destruct (starting (peer ps s)) eqn:Hst; [done|]. injection Hn as <-. apply resume_ok; [done|lia].
  - cbn [sync_next] in Hn. injection Hn as <-. pose proof Hps as (Hp & _ & [_ Ht] & [Hc Hb])%(peers_ok_side ps s).
    destruct (edit_grown (peer ps s) e) as ((d & Hd) & Hval & Hmono & Hcar & Htell).
    destruct (edit (peer ps s) e) as [p1 out]. cbn [fst snd] in *. subst p1. apply act_ok; [done|by destruct Hp|done..| |].
    + intros Hs. destruct (ok_syncing _ Hp Hs) as (Hcon & _ & Hdh). specialize (Htell Hcon Hdh). specialize (Ht Hs).
      clear -Htell Ht. set_solver.
    + split; [exact Hc|]. intros Hq. specialize (Hb Hq). change (coming (with_doc (peer ps s) d)) with (coming (peer ps s)).
      clear -Hb Hmono. set_solver.
  - by eapply deliver_ok.
Qed.

Lemma run_ok evs ps ps' : peers_ok ps → Forall no_stop evs → run ps evs = Some ps' → peers_ok ps'.
Proof.
  revert ps. induction evs as [|ev evs IH]; intros ps Hps Hns; cbn; [by intros [= <-]|].
  apply Forall_cons in Hns as [Hn Hns]. intros (ps1 & Hp & Hr)%bind_Some. eapply IH; [|done|exact Hr]. by eapply next_ok.
Qed.

Lemma new_peer_ok d : peer_ok (new_provider d).
Proof.
  destruct rt_new as (Hopen & Hin & Hcon). split; cbn [transport syncing starting new_provider]; rewrite ?Hin, ?Hcon; done.
Qed.

Lemma new_peers_ok a b : peers_ok (new_peers a b).
Proof.
  destruct rt_new as (_ & Hin & _). split_and!; [apply new_peer_ok|apply new_peer_ok|split; [|done]..];
    unfold coming; cbn [transport new_provider right_peer left_peer new_peers]; rewrite Hin; apply carried_nil.
Qed.

Definition both_syncing ps : Prop := ∀ s, syncing (peer ps s) = true ∧ starting (peer ps s) = 0.

Lemma told_all p q : told p q → syncing p = true → incoming (transport q) = [] → known p ⊆ known q.
Proof.
  intros [_ Ht] Hs Hin. specialize (Ht Hs). unfold coming in Ht. rewrite Hin in Ht. clear -Ht. unfold carried in Ht. cbn in Ht. set_solver.
Qed.

Lemma empty_queues_agree ps :
  peers_ok ps → (∀ s, syncing (peer ps s) = true) → (∀ s, incoming (transport (peer ps s)) = []) →
  view (doc (left_peer ps)) = view (doc (right_peer ps)).
Proof.
  intros (_ & _ & Hl & Hr) Hs Hq. apply view_holds. apply (anti_symm (⊆)).
  - apply (told_all _ _ Hl (Hs Left) (Hq Right)).
  - apply (told_all _ _ Hr (Hs Right) (Hq Left)).
Qed.

(** Over a reliable transport, as long as neither side stops: whenever both sides
    are syncing and nothing is under way, the two copies of the document are the same,
    whatever edits, repeated starts and deliveries happened in which order. *)
Theorem quiet_peers_agree a b evs ps :
  run (new_peers a b) evs = Some ps → Forall no_stop evs →
  (∀ s, syncing (peer ps s) = true) → (∀ s, incoming (transport (peer ps s)) = []) →
  view (doc (left_peer ps)) = view (doc (right_peer ps)).
Proof. intros Hrun Hns. apply empty_queues_agree. by eapply run_ok; [apply new_peers_ok|..]. Qed.

(** * Progress *)

(** The messages under way and those that growing documents may still cause. *)
Definition load (V : gset Op) p : nat :=
  length (incoming (transport p)) + length (docHandlers p) * size (V ∖ seen p).

Definition within (V : gset Op) ps : Prop := ∀ s, known (peer ps s) ⊆ V ∧ coming (peer ps s) ⊆ V.

Lemma peer_act ps s r :
  peer (act ps s r) s = r.1 ∧
  peer (act ps s r) (other s) = with_transport (peer ps (other s)) (foldl t_post (transport (peer ps (other s))) r.2).
Proof. by destruct s. Qed.

Lemma side_cases s s' : s' = s ∨ s' = other s.
Proof. destruct s, s'; auto. Qed.

Lemma deliver_progress V ps s ps' :
  peers_ok ps → both_syncing ps → within V ps → next ps (Deliver s) = Some ps' →
  both_syncing ps' ∧ within V ps' ∧ load V (left_peer ps') + load V (right_peer ps') < load V (left_peer ps) + load V (right_peer ps).
Proof.
  intros Hps Hboth Hw Hn.
  destruct (deliver_ok ps s ps' Hps Hn) as (_ & u & rest & Hin & Hu & _ & t & Hint & _ & Hcont & _ & ->).
  set (p := with_transport (peer ps s) t). destruct (receive_grown u p Hu) as [Hg _].
  destruct Hg as ((d & Hd) & Hval & Hmono & Hout & Hle & Hsize).
  destruct (receive p u) as [p1 out]. cbn [fst snd] in *. subst p1.
  destruct (peer_act ps s (with_doc p d, out)) as [Hs Ho]. cbn [fst snd] in Hs, Ho.
  pose proof Hps as (_ & Hq & _ & _)%(peers_ok_side ps s).
  destruct (post_all out _ (ok_open _ Hq)) as (_ & _ & Hino). destruct (post_ok _ out Hq Hval) as [_ Hco].
  destruct (Hw s) as [Hk1 Hc1], (Hw (other s)) as [Hk2 Hc2].
  assert (Hcar : carries u ⊆ V ∧ carried rest ⊆ V).
  { unfold coming in Hc1. rewrite Hin in Hc1. unfold carried in Hc1. cbn in Hc1. by apply union_subseteq in Hc1. }
  assert (HkV : known (with_doc p d) ⊆ V).
  { transitivity (known p ∪ carries u); [done|]. apply union_least; [exact Hk1|apply Hcar]. }
  split; [|split].
  - intros s'. destruct (side_cases s s') as [->| ->]; rewrite ?Hs, ?Ho; [apply (Hboth s)|apply (Hboth (other s))].
  - intros s'. destruct (side_cases s s') as [->| ->]; rewrite ?Hs, ?Ho; split; try done.
    + change (carried (incoming t) ⊆ V). rewrite Hint. apply Hcar.
    + rewrite Hco. apply union_least; [done|]. by transitivity (known (with_doc p d)).
  - assert (Hsum : ∀ qs : System, load V (left_peer qs) + load V (right_peer qs) = load V (peer qs s) + load V (peer qs (other s)))
      by (intros qs; destruct s; cbn; lia).
    rewrite !Hsum, Hs, Ho. unfold load.
    change (docHandlers (with_doc p d)) with (docHandlers p). change (transport (with_doc p d)) with t.
    cbn [transport docHandlers with_transport]. change (seen (with_transport (peer ps (other s)) _)) with (seen (peer ps (other s))).
    rewrite Hino, length_app, Hint, Hin. cbn [length]. specialize (Hsize V HkV).
    change (docHandlers p) with (docHandlers (peer ps s)) in *. change (seen p) with (seen (peer ps s)) in *. lia.
Qed.

Lemma deliveries_bounded V ds ps ps' :
  peers_ok ps → both_syncing ps → within V ps → run ps (Deliver <$> ds) = Some ps' →
  both_syncing ps' ∧ peers_ok ps' ∧ length ds ≤ load V (left_peer ps) + load V (right_peer ps).
Proof.
  revert ps. induction ds as [|s ds IH]; intros ps Hps Hboth Hw; cbn -[sync_next].
  - intros [= <-]. split_and!; try done. lia.
  - intros (ps1 & Hn & Hr)%bind_Some. destruct (deliver_progress V ps s ps1 Hps Hboth Hw Hn) as (Hb1 & Hw1 & Hlt).
    destruct (deliver_ok ps s ps1 Hps Hn) as [Hps1 _]. destruct (IH ps1 Hps1 Hb1 Hw1 Hr) as (H2 & H3 & H4). split_and!; try done. lia.
Qed.

Lemma stuck_queue ps s : peers_ok ps → both_syncing ps → next ps (Deliver s) = None → incoming (transport (peer ps s)) = [].
Proof.
  intros Hps Hboth. pose proof Hps as (Hp & _)%(peers_ok_side ps s). destruct (Hboth s) as [Hs Hst].
  cbn [sync_next]. rewrite Hst. destruct (ok_syncing _ Hp Hs) as [Hcon _].
  pose proof (rt_take _ (ok_open _ Hp) Hcon) as Ht. destruct (incoming _) as [|u rest]; [done|].
  destruct Ht as (t & -> & _). done.
Qed.

(** C9: Over a reliable transport the copies become the same by themselves: when both sides
    are syncing, neither was ever stopped and no new edits are made, only a bounded number of messages is delivered,
    echoes included, and when none is left both copies are equal. *)
Theorem deliveries_converge a b evs ps :
  run (new_peers a b) evs = Some ps → Forall no_stop evs → both_syncing ps →
  ∃ bound, ∀ ds ps', run ps (Deliver <$> ds) = Some ps' →
    length ds ≤ bound ∧
    ((∀ s, next ps' (Deliver s) = None) → view (doc (left_peer ps')) = view (doc (right_peer ps'))).
Proof.
  intros Hrun Hns Hboth. assert (Hps : peers_ok ps) by (by eapply run_ok; [apply new_peers_ok|..]).
  set (V := (known (left_peer ps) ∪ coming (left_peer ps)) ∪ (known (right_peer ps) ∪ coming (right_peer ps))).
  assert (Hw : within V ps).
  { intros s. unfold V. destruct s; cbn [peer]; clear; split; set_solver. }
  exists (load V (left_peer ps) + load V (right_peer ps)). intros ds ps' Hr.
  destruct (deliveries_bounded V ds ps ps' Hps Hboth Hw Hr) as (Hb' & Hps' & Hlen). split; [done|].
  intros Hnone. apply empty_queues_agree; [done|apply Hb'|]. intros s. by apply stuck_queue.
Qed.

End Convergence.

(** * A concrete document *)

(** A set that only grows; its updates are sets of elements. *)
#[export] Instance grow_set : CRDTDoc (gset nat) (gset nat) nat := {|
  encodeState d := d;
  applyUpdate d u := Some (d ∪ u, if decide (u ⊆ d) then None else Some u);
  local_edit d n := ({[n]} ∪ d, if decide (n ∈ d) then None else Some {[n]});
|}.

#[export] Instance grow_set_laws : CRDTLaws (gset nat) (gset nat) nat (gset nat) nat id id id (λ _, True) id.
Proof.
  split; cbn.
  - done.
  - done.
  - intros d u _. by eexists.
  - by intros d u d' o [= <- _].
  - intros d u d' o [= <- <-]. unfold id. case_decide as Hu; [set_solver|]. split_and!; [done|set_solver|].
    split; [set_solver|]. intros Hs. apply Hu. set_solver.
  - intros d e d' o [= <- <-]. unfold id. case_decide; [|split; [done|]]; set_solver.
  - done.
Qed.

(** A log of numbered entries: an entry is integrated once all before it are held; until
    then it is pending. *)
Record Log := mkLog { entries_held : gset nat }.

Definition in_order (h : gset nat) : gset nat := filter (λ n, Forall (λ m, m ∈ h) (seq 0 n)) h.

#[export] Instance log_doc : CRDTDoc Log (gset nat) () := {|
  encodeState d := entries_held d;
  applyUpdate d u :=
    let h := entries_held d ∪ u in
    Some (mkLog h, if decide (in_order h ⊆ in_order (entries_held d)) then None
                   else Some (in_order h ∖ in_order (entries_held d)));
  local_edit d _ :=
    let n := size (in_order (entries_held d)) in
    (mkLog ({[n]} ∪ entries_held d), Some {[n]});
|}.

Lemma in_order_mono h h' : h ⊆ h' → in_order h ⊆ in_order h'.
Proof.
  unfold in_order. intros Hh n. rewrite !elem_of_filter. intros [Hn ?]. split; [|set_solver].
  eapply Forall_impl; [exact Hn|]. set_solver.
Qed.

#[export] Instance log_laws : CRDTLaws Log (gset nat) () (gset nat) nat entries_held (λ d, in_order (entries_held d)) id
  (λ _, True) (λ d, in_order (entries_held d)).
Proof.
  split; cbn.
  - intros d n. unfold in_order. by rewrite elem_of_filter; intros [_ ?].
  - done.
  - intros d u _. by eexists.
  - by intros d u d' o [= <- _].
  - intros d u d' o [= <- <-]. cbn. set (h := entries_held d).
    pose proof (in_order_mono h (h ∪ u) (union_subseteq_l _ _)) as Hm. case_decide as Hd.
    + by apply (anti_symm (⊆)).
    + split_and!; [done|unfold id; set_solver|by split].
  - intros d e d' o [= <- <-]. split; [done|]. cbn. unfold id. apply (comm_L (∪)).
  - intros d d' Hd. by rewrite Hd.
Qed.

(** The second entry waits for the first. *)
Example entry_waits : let d := mkLog ∅ in
  applyUpdate d ({[1]} : gset nat) = Some (mkLog {[1]}, None) ∧
  applyUpdate (mkLog {[1]}) ({[0]} : gset nat) = Some (mkLog {[0; 1]}, Some {[0; 1]}).
Proof. by vm_compute. Qed.

Abbreviation port_peers := (Peers (gset nat) (MessagePortTransport (gset nat))).
Abbreviation channel_peers := (Peers (gset nat) (BroadcastChannelTransport (gset nat))).

(** Both sides start, on the left twice; both edit; the first message arrives. *)
Definition demo_events : list (SyncEvent nat) :=
  [CallStart Left; LocalEdit Left 1; CallStart Left; ResumeStart Left; ResumeStart Left; CallStart Right;
   ResumeStart Right; LocalEdit Right 2; LocalEdit Left 3; Deliver Left].

Definition demo_start : port_peers := new_peers {[7]} ∅.

Definition syncing_all (ps : port_peers) : bool :=
  syncing (left_peer ps) && syncing (right_peer ps) &&
  bool_decide (starting (left_peer ps) = 0) && bool_decide (starting (right_peer ps) = 0).

Lemma syncing_all_spec ps : syncing_all ps = true → both_syncing ps.
Proof.
  unfold syncing_all. rewrite !andb_true_iff, !bool_decide_eq_true. intros [[[? ?] ?] ?] []; by split.
Qed.

Lemma some_of {A} (o : option A) (P : A → bool) :
  match o with Some a => P a | None => false end = true → ∃ a, o = Some a ∧ P a = true.
Proof. destruct o as [a|]; [|done]. intros H. by exists a. Qed.

Lemma demo_run : ∃ ps, sync_run demo_start demo_events = Some ps ∧ both_syncing ps.
Proof.
  destruct (some_of (sync_run demo_start demo_events) syncing_all) as (ps & Hps & Hs); [by vm_compute|].
  exists ps. split; [exact Hps|by apply syncing_all_spec].
Qed.

Lemma deliveries_converge_witness :
  ∃ ps, sync_run demo_start demo_events = Some ps ∧ ∃ bound, ∀ ds ps', sync_run ps (Deliver (Edit := nat) <$> ds) = Some ps' →
    length ds ≤ bound ∧
    ((∀ s, sync_next ps' (Deliver (Edit := nat) s) = None) → doc (left_peer ps') = doc (right_peer ps')).
Proof.
  destruct demo_run as (ps & Hps & Hs). exists ps. split; [exact Hps|].
  exact (deliveries_converge id id id (λ _, True) id mp_queue (λ t, mp_connected t = mp_started t) {[7]} ∅ demo_events ps
    Hps ltac:(by repeat constructor) Hs).
Defined.

Definition demo_quiet : list (SyncEvent nat) := demo_events ++ (Deliver <$> [Right; Right; Right; Right; Left; Left; Left; Right; Right]).

Definition queues_empty (ps : port_peers) : bool :=
  syncing_all ps && bool_decide (mp_queue (transport (left_peer ps)) = []) && bool_decide (mp_queue (transport (right_peer ps)) = []).

Lemma demo_quiet_run :
  ∃ ps, sync_run demo_start demo_quiet = Some ps ∧ both_syncing ps ∧ ∀ s, mp_queue (transport (peer ps s)) = [].
Proof.
  destruct (some_of (sync_run demo_start demo_quiet) queues_empty) as (ps & Hps & Hs); [by vm_compute|].
  unfold queues_empty in Hs. rewrite !andb_true_iff, !bool_decide_eq_true in Hs. destruct Hs as [[Hs H1] H2].
  exists ps. split; [exact Hps|]. split; [by apply syncing_all_spec|]. by intros [].
Qed.

Lemma demo_quiet_no_stop : Forall no_stop demo_quiet.
Proof. unfold demo_quiet. apply Forall_app. split; [by repeat constructor|]. apply Forall_fmap. by repeat constructor. Qed.

Lemma quiet_peers_agree_witness :
  ∃ ps, sync_run demo_start demo_quiet = Some ps ∧ doc (left_peer ps) = doc (right_peer ps).
Proof.
  destruct demo_quiet_run as (ps & Hps & Hs & Hq). exists ps. split; [exact Hps|].
  exact (quiet_peers_agree id id id (λ _, True) id mp_queue (λ t, mp_connected t = mp_started t) {[7]} ∅ demo_quiet ps
    Hps demo_quiet_no_stop (λ s, proj1 (Hs s)) Hq).
Defined.

(** Nothing is under way between two sides that are both syncing, but one misses what
    the other has. *)
Definition differ (q : port_peers → bool) (ps : port_peers) : bool :=
  q ps && negb (bool_decide (doc (left_peer ps) = doc (right_peer ps))).

(** A side that stops and starts again never learns what was edited meanwhile: the
    other one does not send its state again. *)
Theorem restart_misses_edits :
  ∃ ps, sync_run demo_start (demo_quiet ++ [CallStop Left; LocalEdit Right 9; Deliver Left; CallStart Left; ResumeStart Left; Deliver Right]) = Some ps ∧
    differ queues_empty ps = true.
Proof. apply some_of. by vm_compute. Qed.

(** Over a broadcast channel the side that starts later never gets the state of the
    other one. *)
Theorem late_tab_misses_state :
  ∃ ps : channel_peers, sync_run (new_peers {[1]} ∅)
      [CallStart Left; ResumeStart Left; CallStart Right; ResumeStart Right; Deliver (Edit := nat) Left] = Some ps ∧
    syncing (left_peer ps) && syncing (right_peer ps) && bool_decide (bc_queue (transport (left_peer ps)) = []) &&
    bool_decide (bc_queue (transport (right_peer ps)) = []) && negb (bool_decide (doc (left_peer ps) = doc (right_peer ps))) = true.
Proof. apply some_of. by vm_compute. Qed.
