(* ===== verification/PairedItems.v ===== *)
(** PairedItems: the item of an earlier node that an item came from.

    packages/workflow/src/workflow-data-proxy.ts: [getPairedItem] and what [$('node')]
    offers ([item], [first], [last], [all], [isExecuted]).  Items are compared by
    identity: [objectOf] gives the object at a place of the run data or the pinned
    data.  Of an error only the kind and the node that it names are kept. *)

From Stdlib Require Import ZArith QArith Lia.
From stdpp Require Import prelude list strings.
From S2P Require Import Prelude Types Traversal WorkflowClass ExecutionTypes.
#[local] Open Scope nat_scope.

Inductive ProxyError :=
| PairedItemNotFound (destNode : string)
| MissingPairedItem (nodeCause : string)
| NoConnection (nodeCause : string)
| BranchNotFound (node : string)
| MultipleItemsFound (destNode : string)
| MissingOutput (node : string)
| NodeNotFound
| NotExecuted (node : string)
| RunNotFound
| NoMainData
| NotConnected
| NoBranch
| ItemOutOfRange
| IntermediateNodes
| MissingIndex
| MissingSource
| NoRunData
| TypeError.

(** A place of an item. *)
Inductive ItemPlace :=
| InRun (node : string) (run output item : nat)
| InPinData (node : string) (item : nat).

(** What the proxy is made for: an expression of [activeNodeName]. *)
Record DataProxy := mkProxy {
  p_workflow : Workflow;
  p_run : option IRunExecutionData;
  p_manual : bool;
  activeNodeName : string;
  contextNodeName : string;
  p_itemIndex : nat;
  (** [-1] for the last run. *)
  defaultReturnRunIndex : Z;
  connectionInputData : Items;
  executeSource : option ITaskDataConnectionsSource;
}.

Section Proxy.
Context (that : DataProxy) (objectOf : ItemPlace → nat).

Definition getPinDataIfManualExecution (nodeName : string) : option Items :=
  if p_manual that then getPinDataOfNode (p_workflow that) nodeName else None.

Definition run_data : jmap string (list ITaskData) :=
  match p_run that with Some s => runData s | None => [] end.

Definition pinDataToTask (pinData : option Items) : option ITaskData :=
  pinData ← pinData; Some (mkTask 0 [] None (Some (only_main [SVal pinData])) None None None).

Definition recorded (source : ISourceData) : option ITaskData :=
  tasks ← jm_get run_data (previousNode source); tasks !! default 0 (previousNodeRun source).

Definition getTaskData (source : ISourceData) : option ITaskData :=
  match recorded source with
  | Some t => Some t
  | None => pinDataToTask (getPinDataIfManualExecution (previousNode source))
  end.

Definition getNodeOutput (taskData : option ITaskData) (source : ISourceData) : result ProxyError Items :=
  let outputIndex := default 0 (previousNodeOutput source) in
  match (t ← taskData; d ← td_data t; main ← jm_get d Main;
         match slot_at main outputIndex with SVal items => Some items | _ => None end) with
  | Some outputs => Ok outputs
  | None => Err (MissingOutput (previousNode source))
  end.

(** The place of an item of that output. *)
Definition place_of (source : ISourceData) (item : nat) : ItemPlace :=
  match recorded source with
  | Some _ => InRun (previousNode source) (default 0 (previousNodeRun source)) (default 0 (previousNodeOutput source)) item
  | None => InPinData (previousNode source) item
  end.

Definition normalizePairedItem (paired : option PairedItem) : list IPairedItemData :=
  match paired with
  | None => []
  | Some (PNum n) => [mkPaired n None None]
  | Some (POne d) => [d]
  | Some (PMany l) => l
  end.

Definition normalizeInputs (pairedItem : IPairedItemData) (sourceData : option ISourceData) : option ISourceData :=
  match pi_sourceOverwrite pairedItem with Some s => Some s | None => sourceData end.

Definition slot_value {A} (s : slot A) : option A := match s with SVal a => Some a | _ => None end.

(** The branch of a paired item: [None] when its input is not among the sources. *)
Definition branch (sourceArray : list (slot ISourceData)) (nextPairedItem : IPairedItemData)
    : option (option ISourceData * IPairedItemData) :=
  let inputIndex := default 0 (pi_input nextPairedItem) in
  if length sourceArray <=? inputIndex then None
  else
    Some (match pi_sourceOverwrite nextPairedItem with
          | Some s => Some s
          | None => slot_value (slot_at sourceArray inputIndex)
          end,
          mkPaired (pi_item nextPairedItem) (Some inputIndex) (pi_sourceOverwrite nextPairedItem)).

(** What the results of the branches make; without any, [results[0].error] is a type
    error. *)
Definition combine_results (destinationNodeName node : string) (sourceArray : list (slot ISourceData))
    (results : list (result ProxyError ItemPlace)) : result ProxyError ItemPlace :=
  if forallb (λ r, match r with Ok _ => false | Err _ => true end) results then
    match results with Err e :: _ => Err e | _ => Err TypeError end
  else
    let matchedItems := omap (λ r, match r with Ok l => Some l | Err _ => None end) results in
    match matchedItems with
    | [] => if bool_decide (sourceArray = []) then Err (NoConnection destinationNodeName) else Err (BranchNotFound node)
    | first :: rest =>
        if existsb (λ r, negb (objectOf r =? objectOf first)) rest then Err (MultipleItemsFound destinationNodeName)
        else Ok first
    end.

(** [None]: out of fuel.  Reading the paired item of an item that is not there is a type
    error. *)
Fixpoint getPairedItem (fuel : nat) (destinationNodeName : string) (incomingSourceData : option ISourceData)
    (pairedItem : IPairedItemData) : option (result ProxyError ItemPlace) :=
  match fuel with
  | 0 => None
  | S fuel =>
      match normalizeInputs pairedItem incomingSourceData with
      | None => Some (Err (PairedItemNotFound destinationNodeName))
      | Some sourceData =>
          let taskData := getTaskData sourceData in
          match getNodeOutput taskData sourceData with
          | Err e => Some (Err e)
          | Ok outputData =>
              let sourceArray := match taskData with Some t => td_source t | None => [] end in
              if bool_decide (previousNode sourceData = destinationNodeName) then
                if length outputData <=? pi_item pairedItem then Some (Err (MissingPairedItem (previousNode sourceData)))
                else Some (Ok (place_of sourceData (pi_item pairedItem)))
              else
                match outputData !! pi_item pairedItem with
                | None => Some (Err TypeError)
                | Some item =>
                    match normalizePairedItem (i_pairedItem item) with
                    | [] => Some (Err (MissingPairedItem (previousNode sourceData)))
                    | nextPairedItems =>
                        results ← mapM (λ '(s, p), getPairedItem fuel destinationNodeName s p)
                                    (omap (branch sourceArray) nextPairedItems);
                        Some (combine_results destinationNodeName (previousNode sourceData) sourceArray results)
                    end
                end
          end
      end
  end.

(** * Where an item came from *)

(** What a step goes through: the task, the outputs and the item of a source. *)
Definition item_of (source : ISourceData) (i : nat) (item : INodeExecutionData) : Prop :=
  ∃ outputs, getNodeOutput (getTaskData source) source = Ok outputs ∧ outputs !! i = Some item.

Definition sources_of (source : ISourceData) : list (slot ISourceData) :=
  match getTaskData source with Some t => td_source t | None => [] end.

(** An item of [dest] is reached by following paired items back, up to the first time the
    node is met. *)
Inductive traces (dest : string) : option ISourceData → IPairedItemData → ItemPlace → Prop :=
| traces_here source incoming p item :
    normalizeInputs p incoming = Some source → previousNode source = dest →
    item_of source (pi_item p) item → traces dest incoming p (place_of source (pi_item p))
| traces_back source incoming p item q s' q' l :
    normalizeInputs p incoming = Some source → previousNode source ≠ dest →
    item_of source (pi_item p) item → q ∈ normalizePairedItem (i_pairedItem item) →
    branch (sources_of source) q = Some (s', q') → traces dest s' q' l → traces dest incoming p l.

(** Every step goes back to a source of a lower rank; the order in which the nodes ran
    gives such ranks. *)
Definition ranked (rank : ISourceData → nat) : Prop :=
  ∀ source i item q s' q' source', item_of source i item → q ∈ normalizePairedItem (i_pairedItem item) →
    branch (sources_of source) q = Some (s', q') → normalizeInputs q' s' = Some source' → rank source' < rank source.

Definition answers (dest : string) (incoming : option ISourceData) (p : IPairedItemData)
    (r : result ProxyError ItemPlace) : Prop :=
  match r with
  | Ok l => traces dest incoming p l
  | Err _ => (∀ l, ¬ traces dest incoming p l) ∨
      ∃ l1 l2, traces dest incoming p l1 ∧ traces dest incoming p l2 ∧ objectOf l1 ≠ objectOf l2
  end.

Lemma traces_here_inv dest source incoming p l :
  normalizeInputs p incoming = Some source → previousNode source = dest → traces dest incoming p l →
  ∃ item, item_of source (pi_item p) item ∧ l = place_of source (pi_item p).
Proof. intros Hn Hd Ht. destruct Ht; simplify_eq; by eexists. Qed.

Lemma traces_back_inv dest source incoming p l item :
  normalizeInputs p incoming = Some source → previousNode source ≠ dest → item_of source (pi_item p) item →
  traces dest incoming p l →
  ∃ s' q', (s', q') ∈ omap (branch (sources_of source)) (normalizePairedItem (i_pairedItem item)) ∧ traces dest s' q' l.
Proof.
  intros Hn Hd Hi Ht. destruct Ht as [|source0 ? ? item0 q s' q' l Hn0 _ Hi0 Hq Hb Ht]; simplify_eq.
  assert (item0 = item) as ->.
  { destruct Hi as (o & Ho & Hi), Hi0 as (o0 & Ho0 & Hi0). rewrite Ho in Ho0. injection Ho0 as ->. congruence. }
  exists s', q'. split; [|done]. apply list_elem_of_omap. by exists q.
Qed.
(** The results of the branches are put together right. *)
Lemma combine_answers dest incoming p node sourceArray (bs : list (option ISourceData * IPairedItemData)) results :
  (∀ l, traces dest incoming p l ↔ ∃ b, b ∈ bs ∧ traces dest b.1 b.2 l) →
  Forall2 (λ b r, answers dest b.1 b.2 r) bs results →
  answers dest incoming p (combine_results dest node sourceArray results).
Proof.
  intros Ht Hall. unfold combine_results.
  assert (Hok : ∀ l, Ok l ∈ results → traces dest incoming p l).
  { intros l (i & Hi)%list_elem_of_lookup. destruct (Forall2_lookup_r _ _ _ _ _ Hall Hi) as (b & Hb & Ha).
    apply Ht. exists b. split; [by eapply list_elem_of_lookup_2|done]. }
  destruct (forallb _ results) eqn:Herr.
  - assert (Hnone : (∀ l, ¬ traces dest incoming p l) ∨
      ∃ l1 l2, traces dest incoming p l1 ∧ traces dest incoming p l2 ∧ objectOf l1 ≠ objectOf l2).
    { assert (Hbs : (∀ b l, b ∈ bs → ¬ traces dest b.1 b.2 l) ∨
        ∃ b l1 l2, b ∈ bs ∧ traces dest b.1 b.2 l1 ∧ traces dest b.1 b.2 l2 ∧ objectOf l1 ≠ objectOf l2).
      { clear Ht Hok. induction Hall as [|b r bs results Ha Hall IH]; [left; by intros ? ? ?%not_elem_of_nil|].
        cbn in Herr. apply andb_true_iff in Herr as [Hr Herr]. destruct r as [l|e]; [done|]. cbn in Ha.
        destruct Ha as [Ha|(l1 & l2 & H1 & H2 & H3)]; [|right; exists b, l1, l2; split_and!; [apply elem_of_cons; by left|done..]].
        destruct (IH Herr) as [Hno|(b' & l1 & l2 & Hb & H1)].
        - left. intros b' l [->|Hb]%elem_of_cons; [by apply Ha|by apply Hno].
        - right. exists b', l1, l2. split; [apply elem_of_cons; by right|done]. }
      destruct Hbs as [Hno|(b & l1 & l2 & Hb & H1 & H2 & H3)].
      - left. intros l (b & Hb & Hl)%Ht. by apply (Hno b l).
      - right. exists l1, l2. split_and!; [apply Ht; by exists b..|done]. }
    destruct results as [|[l|e] results]; [done|done|exact Hnone].
  - set (matched := omap _ results).
    assert (Hm : ∀ l, l ∈ matched → traces dest incoming p l).
    { intros l ([l'|e] & Hr & He)%list_elem_of_omap; [|done]. injection He as ->. by apply Hok. }
    destruct matched as [|first rest] eqn:Hmatched.
    + exfalso. apply not_true_iff_false in Herr. apply Herr. apply forallb_forall. intros [l|e] Hr; [|done].
      assert (l ∈ matched) as Hin; [|rewrite Hmatched in Hin; by apply not_elem_of_nil in Hin].
      apply list_elem_of_omap. exists (Ok l). split; [by apply list_elem_of_In|done].
    + destruct (existsb _ rest) eqn:Hex; cbn; [|apply Hm, elem_of_cons; by left].
      apply existsb_exists in Hex as (r & Hr & Hne). right. exists r, first. split_and!.
      * apply Hm, elem_of_cons. right. by apply list_elem_of_In.
      * apply Hm, elem_of_cons. by left.
      * intros He. rewrite He, Nat.eqb_refl in Hne. done.
Qed.

Lemma getNodeOutput_item source outputs i :
  getNodeOutput (getTaskData source) source = Ok outputs →
  match outputs !! i with Some item => item_of source i item | None => ∀ item, ¬ item_of source i item end.
Proof.
  intros Ho. destruct (outputs !! i) as [item|] eqn:Hi; [by exists outputs|].
  intros item (o & Ho' & Hi'). rewrite Ho in Ho'. injection Ho' as ->. congruence.
Qed.

Lemma no_traces dest source incoming p :
  normalizeInputs p incoming = Some source → (∀ item, ¬ item_of source (pi_item p) item) → ∀ l, ¬ traces dest incoming p l.
Proof.
  intros Hn Hno l Ht. destruct Ht as [? ? ? item Hn' _ Hi|? ? ? item ? ? ? ? Hn' _ Hi]; simplify_eq; by apply (Hno item).
Qed.

Definition rank_of (rank : ISourceData → nat) (incoming : option ISourceData) (p : IPairedItemData) : nat :=
  match normalizeInputs p incoming with Some s => S (rank s) | None => 0 end.

Lemma mapM_total {A B} (f : A → option B) (Q : A → B → Prop) l :
  (∀ x, x ∈ l → ∃ y, f x = Some y ∧ Q x y) → ∃ ys, mapM f l = Some ys ∧ Forall2 Q l ys.
Proof.
  intros H. induction l as [|x l IH]; [by exists []|].
  destruct (H x) as (y & Hy & Hq); [apply elem_of_cons; by left|].
  destruct IH as (ys & Hys & Hall); [intros z Hz; apply H, elem_of_cons; by right|].
  exists (y :: ys). cbn. rewrite Hy. cbn. rewrite Hys. cbn. split; [done|by constructor].
Qed.

(** C13: Where sources go back in some order of ranks, the search for the item of an
    earlier node ends, within as many steps as the rank of the source.  A place it
    gives is one the item came from; when it fails, the item came from nowhere at that
    node, or from two different items.  So when the item came from exactly one, that
    one is given. *)
Theorem getPairedItem_spec (rank : ISourceData → nat) (dest : string) (incoming : option ISourceData) (p : IPairedItemData)
    (fuel : nat) :
  ranked rank → rank_of rank incoming p < fuel →
  ∃ r, getPairedItem fuel dest incoming p = Some r ∧ answers dest incoming p r ∧
    ∀ l, traces dest incoming p l → (∀ l', traces dest incoming p l' → objectOf l' = objectOf l) →
      ∃ l', r = Ok l' ∧ objectOf l' = objectOf l.
Proof.
  intros Hrank Hf.
  assert (∃ r, getPairedItem fuel dest incoming p = Some r ∧ answers dest incoming p r) as (r & Hr & Ha).
  { revert incoming p Hf. induction fuel as [|fuel IH]; intros incoming p Hf; [lia|]. cbn [getPairedItem].
    unfold rank_of in Hf. destruct (normalizeInputs p incoming) as [source|] eqn:Hn.
    2: { eexists. split; [done|]. left. intros l Ht. destruct Ht; congruence. }
    cbn in Hf.
    destruct (getNodeOutput _ source) as [outputs|e] eqn:Ho.
    2: { eexists. split; [done|]. left. apply (no_traces _ source); [done|]. intros item (o & Ho' & _). congruence. }
    pose proof (getNodeOutput_item source outputs (pi_item p) Ho) as Hitem.
    case_bool_decide as Hd.
    - destruct (Nat.leb_spec (length outputs) (pi_item p)) as [Hle|Hlt].
      + apply lookup_ge_None in Hle. rewrite Hle in Hitem. eexists. split; [done|]. left. by eapply no_traces.
      + apply lookup_lt_is_Some_2 in Hlt as [item Hi]. rewrite Hi in Hitem. eexists. split; [done|]. by eapply traces_here.
    - destruct (outputs !! pi_item p) as [item|] eqn:Hi.
      2: { eexists. split; [done|]. left. by eapply no_traces. }
      destruct (mapM_total (λ '(s, p), getPairedItem fuel dest s p) (λ b r, answers dest b.1 b.2 r)
        (omap (branch (sources_of source)) (normalizePairedItem (i_pairedItem item)))) as (results & Hres & Hall).
      { intros [s' q'] (q & Hq & Hb)%list_elem_of_omap. apply IH. unfold rank_of. cbn [fst snd].
        destruct (normalizeInputs q' s') as [source'|] eqn:Hn'; [|lia].
        pose proof (Hrank source _ item q s' q' source' Hitem Hq Hb Hn'). lia. }
      assert (Hb : ∀ l, traces dest incoming p l ↔
        ∃ b, b ∈ omap (branch (sources_of source)) (normalizePairedItem (i_pairedItem item)) ∧ traces dest b.1 b.2 l).
      { intros l. split.
        - intros (s' & q' & Hin & Ht)%(traces_back_inv _ source _ _ _ item); [|done..]. by exists (s', q').
        - intros ([s' q'] & (q & Hq & Hb)%list_elem_of_omap & Ht). by eapply traces_back. }
      fold (sources_of source).
      pose proof (combine_answers dest incoming p (previousNode source) (sources_of source) _ results Hb Hall) as Hc.
      destruct (normalizePairedItem (i_pairedItem item)) as [|q qs].
      + eexists. split; [done|]. left. intros l (b & Hin & _)%Hb. by apply not_elem_of_nil in Hin.
      + rewrite Hres. by eexists. }
  exists r. split_and!; [done|done|]. intros l Hl Hu. destruct r as [l'|e]; cbn in Ha.
  - exists l'. split; [done|by apply Hu].
  - exfalso. destruct Ha as [Hno|(l1 & l2 & H1 & H2 & H3)]; [by apply (Hno l)|]. apply H3. by rewrite (Hu l1), (Hu l2).
Qed.

(** The errors for an item without a path back are never thrown: without a branch the
    code fails when it reads the error of the first result. *)
Lemma getPairedItem_errors fuel dest incoming p r :
  getPairedItem fuel dest incoming p = Some r → ∀ n, r ≠ Err (NoConnection n) ∧ r ≠ Err (BranchNotFound n).
Proof.
  revert incoming p r. induction fuel as [|fuel IH]; intros incoming p r; [done|]. cbn [getPairedItem].
  destruct (normalizeInputs p incoming) as [source|]; [|by intros [= <-]].
  destruct (getNodeOutput _ source) as [outputs|e] eqn:Ho.
  2: { intros [= <-]. unfold getNodeOutput in Ho. case_match; simplify_eq. done. }
  case_bool_decide; [by destruct (_ <=? _); intros [= <-]|].
  destruct (outputs !! pi_item p) as [item|]; [|by intros [= <-]].
  destruct (normalizePairedItem _) as [|q qs]; [by intros [= <-]|].
  destruct (mapM _ _) as [results|] eqn:Hm; [|done]. cbn [mbind option_bind]. intros [= <-].
  assert (Hall : ∀ r n, r ∈ results → r ≠ Err (NoConnection n) ∧ r ≠ Err (BranchNotFound n)).
  { intros r n Hr. apply mapM_Some in Hm. apply list_elem_of_lookup in Hr as [i Hi].
    destruct (Forall2_lookup_r _ _ _ _ _ Hm Hi) as ([s' q'] & _ & Hb). by eapply IH. }
  intros n. unfold combine_results. destruct (forallb _ results) eqn:Herr.
  - destruct results as [|[l|e] results]; [done|done|]. apply Hall, elem_of_cons. by left.
  - destruct (omap _ results) as [|first rest] eqn:Hom; [|by destruct (existsb _ rest)].
    exfalso. apply not_true_iff_false in Herr. apply Herr. apply forallb_forall. intros [l|e] Hr; [|done].
    assert (l ∈ omap (λ r, match r with Ok l => Some l | Err _ => None end) results) as Hin.
    { apply list_elem_of_omap. exists (Ok l). split; [by apply list_elem_of_In|done]. }
    rewrite Hom in Hin. by apply not_elem_of_nil in Hin.
Qed.
(** The order in which the nodes ran gives ranks, when sources, also those that an item
    names itself, are earlier runs. *)
Definition run_before (t : ITaskData) (s : ISourceData) : bool :=
  match recorded s with Some t' => td_executionIndex t' <? td_executionIndex t | None => true end.

Definition overwrites (t : ITaskData) : list ISourceData :=
  items ← main_of (default [] (td_data t)); item ← default [] (slot_value items);
  p ← normalizePairedItem (i_pairedItem item); option_list (pi_sourceOverwrite p).

Definition earlier_runs : bool :=
  forallb (λ '(_, tasks), forallb (λ t, forallb (run_before t) (omap slot_value (td_source t) ++ overwrites t)) tasks)
    run_data.

Definition rank_by_execution (s : ISourceData) : nat :=
  match recorded s with Some t => S (td_executionIndex t) | None => 0 end.

Lemma recorded_before source t s :
  earlier_runs = true → recorded source = Some t → s ∈ omap slot_value (td_source t) ++ overwrites t → run_before t s = true.
Proof.
  intros He Hr Hs. unfold recorded in Hr. destruct (jm_get run_data (previousNode source)) as [tasks|] eqn:Hg; [|done].
  cbn in Hr. apply jm_get_Some_elem, list_elem_of_In in Hg. apply list_elem_of_lookup_2, list_elem_of_In in Hr.
  apply list_elem_of_In in Hs. unfold earlier_runs in He. rewrite forallb_forall in He. specialize (He _ Hg). cbn in He.
  rewrite forallb_forall in He. specialize (He _ Hr). cbn in He. rewrite forallb_forall in He. by apply He.
Qed.

Lemma ranked_by_execution : earlier_runs = true → ranked rank_by_execution.
Proof.
  intros He source i item q s' q' source' (outputs & Ho & Hi) Hq Hb Hn.
  assert (Hlt : ∀ t s, recorded source = Some t → s ∈ omap slot_value (td_source t) ++ overwrites t →
    rank_by_execution s < rank_by_execution source).
  { intros t s Hr Hs. pose proof (recorded_before source t s He Hr Hs) as Hb'. unfold rank_by_execution. rewrite Hr.
    unfold run_before in Hb'. destruct (recorded s) as [t'|]; [apply Nat.ltb_lt in Hb'; lia|lia]. }
  unfold branch, sources_of, getTaskData in *. destruct (recorded source) as [t|] eqn:Hr.
  2: { destruct (getPinDataIfManualExecution _); cbn in Hb; done. }
  destruct (_ <=? _); [done|]. injection Hb as <- <-. apply (Hlt t); [done|]. apply elem_of_app.
  unfold normalizeInputs in Hn. cbn in Hn. destruct (pi_sourceOverwrite q) as [o|] eqn:Hov.
  - injection Hn as ->. right. unfold getNodeOutput in Ho. cbn in Ho. unfold overwrites.
    destruct (td_data t) as [d|]; cbn in Ho |- *; [|done]. unfold main_of. destruct (jm_get d Main) as [main|]; cbn in Ho |- *; [|done].
    destruct (slot_at main _) as [| |items] eqn:Hm; [done..|]. injection Ho as ->.
    apply list_elem_of_bind. exists (SVal outputs). split.
    + apply list_elem_of_bind. exists item. split; [|cbn; by eapply list_elem_of_lookup_2].
      apply list_elem_of_bind. exists q. split; [|done]. rewrite Hov. apply list_elem_of_singleton. done.
    + unfold slot_at in Hm. destruct (main !! _) eqn:Hl; [|done]. cbn in Hm. subst. by eapply list_elem_of_lookup_2.
  - left. destruct (slot_at (td_source t) _) as [| |s] eqn:Hs; [done..|]. cbn in Hn. injection Hn as ->.
    apply list_elem_of_omap. exists (SVal source'). split; [|done].
    unfold slot_at in Hs. destruct (td_source t !! _) eqn:Hl; [|done]. cbn in Hs. subst. by eapply list_elem_of_lookup_2.
Qed.

(** * What [$('node')] offers *)

Section Accessors.
Context (getByNameAndVersion : string → Q → option INodeType)
  (getNodeOutputs : Workflow → INode → INodeTypeDescription → list NodeIo).

(** [None]: out of fuel. *)
Definition outcome (A : Type) : Type := option (result ProxyError A).

Definition fails {A} (e : ProxyError) : outcome A := Some (Err e).

Definition or_fails {A} (o : option A) (e : ProxyError) : outcome A :=
  match o with Some a => Some (Ok a) | None => fails e end.

Definition thenDo {A B} (c : outcome A) (f : A → outcome B) : outcome B :=
  match c with None => None | Some (Err e) => Some (Err e) | Some (Ok a) => f a end.

Definition isExecuted (nodeName : string) : bool := jm_has run_data nodeName.

Definition ensureNodeExecutionData (nodeName : string) : outcome () :=
  if isExecuted nodeName || bool_decide (is_Some (getPinDataIfManualExecution nodeName)) then Some (Ok ())
  else fails (NotExecuted nodeName).

(** The run that is read: the given one, or the default, where [-1] is the last. *)
Definition pick_run (tasks : list ITaskData) (runIndex : option Z) : Z :=
  let runIndex := default (defaultReturnRunIndex that) runIndex in
  if (runIndex =? -1)%Z then (Z.of_nat (length tasks) - 1)%Z else runIndex.

Definition getNodeExecutionData (nodeName : string) (outputIndex : option nat) (runIndex : option Z)
    : outcome (slot Items) :=
  thenDo (or_fails (p_run that) NoRunData) (λ s,
  thenDo (or_fails (getNode (p_workflow that) nodeName) NodeNotFound) (λ _,
  thenDo (ensureNodeExecutionData nodeName) (λ _,
  thenDo (or_fails (jm_get (runData s) nodeName) TypeError) (λ tasks,
  let runIndex := pick_run tasks runIndex in
  if (Z.of_nat (length tasks) <=? runIndex)%Z then fails RunNotFound
  else if (runIndex <? 0)%Z then fails TypeError
  else
    thenDo (or_fails (t ← tasks !! Z.to_nat runIndex; td_data t) TypeError) (λ taskData,
    match main_of taskData with
    | [] | SNull :: _ => fails NoMainData
    | main =>
        thenDo (match outputIndex with
                | Some i => Some (Ok i)
                | None =>
                    match getNodeConnectionIndexes (p_workflow that) (contextNodeName that) nodeName Main with
                    | None => None
                    | Some None => fails NotConnected
                    | Some (Some nodeConnection) => Some (Ok (sourceIndex nodeConnection))
                    end
                end) (λ outputIndex,
        if length main <=? outputIndex then fails NoBranch else Some (Ok (slot_at main outputIndex)))
    end))))).

Definition getNodeExecutionOrPinnedData (nodeName : string) (branchIndex : option nat) (runIndex : option Z)
    : outcome (slot Items) :=
  match getNodeExecutionData nodeName branchIndex runIndex with
  | Some (Err e) =>
      match getPinDataIfManualExecution nodeName with
      | Some pinData => Some (Ok (SVal pinData))
      | None => fails e
      end
  | r => r
  end.

(** Reading a property of an array that is [null] or missing. *)
Definition array_of (s : slot Items) : outcome Items := or_fails (slot_value s) TypeError.

(** The output that the active node is connected to. *)
Definition default_branch (nodeName : string) (branchIndex : option nat) : outcome nat :=
  match branchIndex with
  | Some i => Some (Ok i)
  | None =>
      match getNodeConnectionIndexes (p_workflow that) (activeNodeName that) nodeName Main with
      | None => None
      | Some c => Some (Ok (default 0 (sourceIndex <$> c)))
      end
  end.

Definition dollar_all (nodeName : string) (branchIndex : option nat) (runIndex : option Z) : outcome (slot Items) :=
  thenDo (ensureNodeExecutionData nodeName) (λ _,
  thenDo (default_branch nodeName branchIndex) (λ branchIndex,
  getNodeExecutionOrPinnedData nodeName (Some branchIndex) runIndex)).

Definition dollar_first (nodeName : string) (branchIndex : option nat) (runIndex : option Z)
    : outcome (option INodeExecutionData) :=
  thenDo (dollar_all nodeName branchIndex runIndex) (λ executionData,
  thenDo (array_of executionData) (λ executionData, Some (Ok (executionData !! 0)))).

Definition dollar_last (nodeName : string) (branchIndex : option nat) (runIndex : option Z)
    : outcome (option INodeExecutionData) :=
  thenDo (dollar_all nodeName branchIndex runIndex) (λ executionData,
  thenDo (array_of executionData) (λ executionData, Some (Ok (last executionData)))).

(** An item at a place, or as it was read. *)
Inductive Found := AtPlace (l : ItemPlace) | TheItem (item : option INodeExecutionData).

(** The node has to come before the active one, or before a node that uses it. *)
Definition checkPath (fuel : nat) (nodeName : string) : outcome () :=
  let w := p_workflow that in
  thenDo (match getNode w (activeNodeName that) with
          | None => Some (Ok (contextNodeName that))
          | Some activeNode =>
              match getParentMainInputNode getByNameAndVersion getNodeOutputs fuel w activeNode with
              | None => None
              | Some (Err _) => fails NodeNotFound
              | Some (Ok parentMainInputNode) => Some (Ok (n_name parentMainInputNode))
              end
          end) (λ contextNode,
  let parents :=
    match w_getChildNodes w (activeNodeName that) ALL_NON_MAIN (-1) with
    | [] => w_getParentNodes w contextNode (OfType Main) (-1)
    | children => child ← children; w_getParentNodes w child ALL (-1)
    end in
  if bool_decide (nodeName ∈ parents) then Some (Ok ()) else fails (NoConnection nodeName)).

(** A list as the paired item of the input has no item index. *)
Definition paired_array (nodeName : string) (sourceData : option ISourceData) : outcome Found :=
  thenDo (or_fails sourceData (PairedItemNotFound nodeName)) (λ source,
  match getNodeOutput (getTaskData source) source with
  | Err e => fails e
  | Ok _ => if bool_decide (previousNode source = nodeName) then Some (Ok (TheItem None)) else fails TypeError
  end).

(** The item of the active node is traced back. *)
Definition trace_input (fuel : nat) (nodeName : string) (itemIndex : nat) : outcome Found :=
  thenDo (or_fails (connectionInputData that !! itemIndex) IntermediateNodes) (λ input,
  thenDo (or_fails (i_pairedItem input) (MissingPairedItem (activeNodeName that))) (λ pairedItem,
  thenDo (or_fails (executeSource that) MissingSource) (λ source,
  thenDo (or_fails (jm_get source Main) TypeError) (λ main,
  let inputIndex := match pairedItem with POne d => default 0 (pi_input d) | _ => 0 end in
  let sourceData :=
    match slot_value (slot_at main inputIndex) with Some s => Some s | None => slot_value (slot_at main 0) end in
  match pairedItem with
  | PMany _ => paired_array nodeName sourceData
  | PNum n => thenDo (getPairedItem fuel nodeName sourceData (mkPaired n None None)) (λ l, Some (Ok (AtPlace l)))
  | POne d => thenDo (getPairedItem fuel nodeName sourceData d) (λ l, Some (Ok (AtPlace l)))
  end)))).

Definition pairedItemMethod (fuel : nat) (nodeName : string) (itemIndex : nat) : outcome Found :=
  match connectionInputData that with
  | [] =>
      match getPinDataIfManualExecution nodeName with
      | Some pinnedData => Some (Ok (TheItem (pinnedData !! itemIndex)))
      | None =>
          thenDo (getNodeExecutionOrPinnedData nodeName None None) (λ nodeRunData,
          thenDo (array_of nodeRunData) (λ nodeRunData,
          match nodeRunData with
          | [] => trace_input fuel nodeName itemIndex
          | _ =>
              if length nodeRunData <=? itemIndex then fails ItemOutOfRange
              else Some (Ok (TheItem (nodeRunData !! itemIndex)))
          end))
      end
  | _ => trace_input fuel nodeName itemIndex
  end.

(** [$('node').item], [.itemMatching(i)] and [.pairedItem(i)]. *)
Definition dollar_item (fuel : nat) (nodeName : string) (matching : bool) (itemIndex : option nat) : outcome Found :=
  thenDo (or_fails (getNode (p_workflow that) nodeName) NodeNotFound) (λ _,
  thenDo (checkPath fuel nodeName) (λ _,
  thenDo (ensureNodeExecutionData nodeName) (λ _,
  match itemIndex with
  | Some i => pairedItemMethod fuel nodeName i
  | None => if matching then fails MissingIndex else pairedItemMethod fuel nodeName (p_itemIndex that)
  end))).

(** The reads of run data end: no fuel runs out. *)
Lemma getNodeExecutionOrPinnedData_total nodeName branchIndex runIndex :
  is_Some (getNodeExecutionOrPinnedData nodeName branchIndex runIndex).
Proof.
  assert (H : is_Some (getNodeExecutionData nodeName branchIndex runIndex)).
  { unfold getNodeExecutionData, ensureNodeExecutionData, thenDo, or_fails, fails.
    destruct (getNodeConnectionIndexes_spec (p_workflow that) (contextNodeName that) nodeName Main) as (c & Hc & _).
    repeat (case_match || simplify_eq/=); eauto. }
  unfold getNodeExecutionOrPinnedData, fails. destruct H as [[r|e] ->]; [eauto|]. case_match; eauto.
Qed.
End Accessors.
End Proxy.

(** * Examples

    Node B makes one item of two items of A; C gets the first item of A and that of B. *)

Definition paired_node (name : string) : INode :=
  mkNode name name "set" (1#1) (0, 0)%Z None [] None None None None None None None None.

Definition from (name : string) : slot ISourceData := SVal (mkSource name None None).

Definition output_of (index : nat) (sources : list (slot ISourceData)) (paired : list PairedItem) : list ITaskData :=
  [mkTask index sources (Some st_success) (Some (only_main [SVal ((λ p, mkItem [] (Some p) None) <$> paired)])) None None None].

Definition demo_runs : jmap string (list ITaskData) :=
  [("A", output_of 0 [] [PNum 0; PNum 0]);
   ("B", output_of 1 [from "A"] [PMany [mkPaired 0 None None; mkPaired 1 None None]]);
   ("C", output_of 2 [from "A"; from "B"] [PMany [mkPaired 0 (Some 0) None; mkPaired 0 (Some 1) None]; PNum 1;
                                           POne (mkPaired 0 (Some 2) None)])].

Definition demo_proxy : DataProxy :=
  mkProxy (mkWorkflow ((λ n, (n, paired_node n)) <$> ["A"; "B"; "C"; "D"]) [] [] None None [] None)
    (Some (mkRun [] [] [] demo_runs [] None None None None None None)) false "D" "D" 0 (-1)
    [mkItem [] (Some (POne (mkPaired 1 None None))) None] (Some (only_main [from "C"])).

Definition demo_object (l : ItemPlace) : nat := match l with InRun _ _ _ i | InPinData _ i => i end.

Definition demo_source : option ISourceData := Some (mkSource "C" None None).

(** The second item of C came from the only item of B, and so from two items of A. *)
Lemma getPairedItem_spec_witness :
  ∃ r, getPairedItem demo_proxy demo_object 5 "A" demo_source (mkPaired 1 None None) = Some r ∧
    answers demo_proxy demo_object "A" demo_source (mkPaired 1 None None) r ∧
    ∀ l, traces demo_proxy "A" demo_source (mkPaired 1 None None) l →
      (∀ l', traces demo_proxy "A" demo_source (mkPaired 1 None None) l' → demo_object l' = demo_object l) →
      ∃ l', r = Ok l' ∧ demo_object l' = demo_object l.
Proof.
  apply (getPairedItem_spec demo_proxy demo_object (rank_by_execution demo_proxy)).
  - apply ranked_by_execution. by vm_compute.
  - vm_compute. lia.
Defined.

(** One way back ends at two items of A; the error is dropped, because the other way ends
    at one. *)
Example ambiguous_branch_ignored :
  getPairedItem demo_proxy demo_object 5 "A" (Some (mkSource "B" None None)) (mkPaired 0 None None) =
    Some (Err (MultipleItemsFound "A")) ∧
  getPairedItem demo_proxy demo_object 5 "A" demo_source (mkPaired 0 None None) = Some (Ok (InRun "A" 0 0 0)) ∧
  traces demo_proxy "A" demo_source (mkPaired 0 None None) (InRun "A" 0 0 1).
Proof.
  split; [done|split; [done|]].
  eapply (traces_back _ "A" (mkSource "C" None None) _ _ _ (mkPaired 0 (Some 1) None)); [done|done| | |done|].
  - eexists. by split.
  - apply elem_of_cons. right. apply elem_of_cons. by left.
  - eapply (traces_back _ "A" (mkSource "B" None None) _ _ _ (mkPaired 1 None None)); [done|done| | |done|].
    + eexists. by split.
    + apply elem_of_cons. right. apply elem_of_cons. by left.
    + change (InRun "A" 0 0 1) with (place_of demo_proxy (mkSource "A" None None) 1).
      eapply (traces_here demo_proxy "A" (mkSource "A" None None) _ (mkPaired 1 (Some 0) None)); [done|done|].
      eexists. by split.
Qed.

(** A paired item with an input that the run does not have: not the error for a branch
    that does not exist, but a type error. *)
Example missing_branch_type_error :
  getPairedItem demo_proxy demo_object 5 "A" demo_source (mkPaired 2 None None) = Some (Err TypeError).
Proof. done. Qed.
