(* ===== verification/LeaderElection.v ===== *)
(** LeaderElection: which of several main processes leads.

    packages/cli/src/scaling/multi-main-setup.ee.ts and leader-election-client.ts.  The
    processes share one key of Redis, which holds the identifier of the leader and
    expires.  A process sends one command per await; Redis executes it some time later,
    and the process resumes with the answer, so the events of all processes interleave
    freely.  A command that times out may still be executed.  Redis commands behave as
    documented: [SET EX NX], [GET], [DEL], and the script runs as one command. *)

From Stdlib Require Import ZArith Lia.
From stdpp Require Import prelude list gmap strings.
From S2P Require Import Prelude.

#[local] Open Scope Z_scope.

(** * The leader key *)

(** The value of the key and the time at which it expires. *)
Definition leader_key : Type := option (string * Z).

Definition redis_get (now : Z) (key : leader_key) : option string :=
  match key with Some (v, expiry) => if now <? expiry then Some v else None | None => None end.

Inductive TtlRenewalResult :=
| KeyMissing
| OtherHostIsLeader (currentLeaderId : string)
| Success.

Inductive CommandError := CommandFailed | UnexpectedResult.

(** What the script returns: a number or the value of the key. *)
Inductive script_reply := Reply_number (n : Z) | Reply_value (v : string).

Section Client.
Context (leaderKeyTtlInS : Z) (now : Z) (hostId : string).

Definition getLeader (key : leader_key) : leader_key * option string := (key, redis_get now key).

Definition setLeaderIfNotExists (key : leader_key) : leader_key * bool :=
  match redis_get now key with
  | Some _ => (key, false)
  | None => (Some (hostId, now + leaderKeyTtlInS), true)
  end.

Definition INCREASE_TTL_IF_LEADER (key : leader_key) : leader_key * script_reply :=
  match redis_get now key with
  | None => (key, Reply_number (-1))
  | Some currentValue =>
      if negb (bool_decide (currentValue = hostId)) then (key, Reply_value currentValue)
      else (Some (currentValue, now + leaderKeyTtlInS), Reply_number 1)
  end.

Definition tryRenewLeaderTtl (key : leader_key) : leader_key * result CommandError TtlRenewalResult :=
  let '(key, reply) := INCREASE_TTL_IF_LEADER key in
  (key,
   match reply with
   | Reply_number n =>
       if (n =? -1) || (n =? 0) then Ok KeyMissing
       else if n =? 1 then Ok Success
       else Err UnexpectedResult
   | Reply_value v => Ok (OtherHostIsLeader v)
   end).

Definition clearLeader (key : leader_key) : leader_key * unit := (None, ()).
End Client.

(** * One process *)

Inductive InstanceRole := Unset | Leader | Follower.
Inductive MultiMainEvent := LeaderTakeover | LeaderStepdown.

(** A command that was sent, or its answer, which the process has not seen yet. *)
Inductive request (A : Type) :=
| Sent
| Answered (r : result CommandError A).
Arguments Sent {A}.
Arguments Answered {A} r.

(** Where [init] or [checkLeader] awaits. *)
Inductive awaiting :=
| InInit (r : request bool)
| Renewing (r : request TtlRenewalResult)
| Reclaiming (r : request bool)
| LookingUp (r : request (option string))
| Claiming (r : request bool).

(** [clearing] is the await of [shutdown]; [down] says that it was called, [destroyed]
    that the client was disconnected.  [emitted] and [failed] log the events and a
    failed assertion. *)
Record MultiMainSetup := mkMain {
  instanceRole : InstanceRole;
  leaderCheckInterval : bool;
  leaderCheckInProgress : bool;
  pending : option awaiting;
  clearing : option (request ());
  down : bool;
  destroyed : bool;
  emitted : list MultiMainEvent;
  failed : bool;
}.

Definition isLeader (m : MultiMainSetup) : bool := match instanceRole m with Leader => true | _ => false end.

Definition with_role (m : MultiMainSetup) (role : InstanceRole) (es : list MultiMainEvent) : MultiMainSetup :=
  mkMain role (leaderCheckInterval m) (leaderCheckInProgress m) (pending m) (clearing m) (down m) (destroyed m)
    (emitted m ++ es) (failed m).

Definition markAsFollower (m : MultiMainSetup) : MultiMainSetup := with_role m Follower [].

Inductive AssertionError := AssertionFailed.

Definition takeOverAsLeader (m : MultiMainSetup) : result AssertionError MultiMainSetup :=
  if isLeader m then Err AssertionFailed else Ok (with_role m Leader [LeaderTakeover]).

Definition stepDownToFollower (m : MultiMainSetup) : result AssertionError MultiMainSetup :=
  if isLeader m then Ok (with_role m Follower [LeaderStepdown]) else Err AssertionFailed.

(** A disconnected client rejects every command. *)
Definition send {A} (m : MultiMainSetup) : request A :=
  if destroyed m then Answered (Err CommandFailed) else Sent.

Definition awaits (m : MultiMainSetup) (w : awaiting) : MultiMainSetup :=
  mkMain (instanceRole m) (leaderCheckInterval m) (leaderCheckInProgress m) (Some w) (clearing m) (down m)
    (destroyed m) (emitted m) (failed m).

Definition new_main : MultiMainSetup := mkMain Unset false false None None false false [] false.

Definition init (m : MultiMainSetup) : MultiMainSetup := awaits m (InInit (send m)).

(** [init] after its await; only a completed [init] sets the interval. *)
Definition init_resume (m : MultiMainSetup) (r : result CommandError bool) : result AssertionError MultiMainSetup :=
  m ← match r with
      | Err _ => Ok (markAsFollower m)
      | Ok true => takeOverAsLeader m
      | Ok false => Ok (markAsFollower m)
      end;
  Ok (mkMain (instanceRole m) true (leaderCheckInProgress m) None (clearing m) (down m) (destroyed m) (emitted m) (failed m)).

Definition checkLeader (m : MultiMainSetup) : MultiMainSetup :=
  if leaderCheckInProgress m then m
  else
    let m := mkMain (instanceRole m) (leaderCheckInterval m) true (pending m) (clearing m) (down m) (destroyed m)
               (emitted m) (failed m) in
    if isLeader m then awaits m (Renewing (send m)) else awaits m (LookingUp (send m)).

(** What a check does after an answer: it is done, or awaits the next one. *)
Inductive progress := Done (m : MultiMainSetup) | Awaits (m : MultiMainSetup) (w : awaiting).

Definition done_after (r : result AssertionError MultiMainSetup) : result AssertionError progress := Done <$> r.

Definition checkAreWeStillLeader (m : MultiMainSetup) (r : result CommandError TtlRenewalResult)
    : result AssertionError progress :=
  match r with
  | Err _ => Ok (Done m)
  | Ok Success => Ok (Done m)
  | Ok (OtherHostIsLeader _) => done_after (stepDownToFollower m)
  | Ok KeyMissing => Ok (Awaits m (Reclaiming (send m)))
  end.

Definition reclaim (m : MultiMainSetup) (r : result CommandError bool) : result AssertionError progress :=
  match r with
  | Err _ => done_after (stepDownToFollower m)
  | Ok false => done_after (stepDownToFollower m)
  | Ok true => Ok (Done m)
  end.

(** [leaderId &&]: neither [null] nor empty. *)
Definition checkCanBecomeLeader (hostId : string) (m : MultiMainSetup) (r : result CommandError (option string))
    : result AssertionError progress :=
  match r with
  | Err _ => Ok (Done m)
  | Ok leaderId =>
      let leaderId := match leaderId with Some l => if bool_decide (l = "") then None else Some l | None => None end in
      match leaderId with
      | Some l => if bool_decide (l = hostId) then done_after (takeOverAsLeader m) else Ok (Done m)
      | None => Ok (Awaits m (Claiming (send m)))
      end
  end.

Definition claim (m : MultiMainSetup) (r : result CommandError bool) : result AssertionError progress :=
  match r with
  | Err _ => Ok (Done m)
  | Ok true => done_after (takeOverAsLeader m)
  | Ok false => Ok (Done m)
  end.

(** The [finally] of [checkLeader]. *)
Definition end_check (m : MultiMainSetup) (throws : bool) : MultiMainSetup :=
  mkMain (instanceRole m) (leaderCheckInterval m) false None (clearing m) (down m) (destroyed m) (emitted m)
    (failed m || throws).

Definition after_check (m : MultiMainSetup) (p : result AssertionError progress) : MultiMainSetup :=
  match p with
  | Err _ => end_check m true
  | Ok (Done m) => end_check m false
  | Ok (Awaits m w) => awaits m w
  end.

(** A process whose [init] throws has a rejected promise and no interval. *)
Definition after_init (m : MultiMainSetup) (p : result AssertionError MultiMainSetup) : MultiMainSetup :=
  match p with
  | Ok m => m
  | Err _ => mkMain (instanceRole m) (leaderCheckInterval m) (leaderCheckInProgress m) None (clearing m) (down m)
               (destroyed m) (emitted m) true
  end.

(** Continue after the await, when its answer has come. *)
Definition resume (hostId : string) (m : MultiMainSetup) : option MultiMainSetup :=
  match pending m with
  | Some (InInit (Answered r)) => Some (after_init m (init_resume m r))
  | Some (Renewing (Answered r)) => Some (after_check m (checkAreWeStillLeader m r))
  | Some (Reclaiming (Answered r)) => Some (after_check m (reclaim m r))
  | Some (LookingUp (Answered r)) => Some (after_check m (checkCanBecomeLeader hostId m r))
  | Some (Claiming (Answered r)) => Some (after_check m (claim m r))
  | _ => None
  end.

(** Every command still under way on a client that is disconnected fails. *)
Definition reject {A} (r : request A) : request A := match r with Sent => Answered (Err CommandFailed) | _ => r end.

Definition break (w : awaiting) : awaiting :=
  match w with
  | InInit _ => InInit (Answered (Err CommandFailed))
  | Renewing _ => Renewing (Answered (Err CommandFailed))
  | Reclaiming _ => Reclaiming (Answered (Err CommandFailed))
  | LookingUp _ => LookingUp (Answered (Err CommandFailed))
  | Claiming _ => Claiming (Answered (Err CommandFailed))
  end.

Definition reject_awaiting (w : awaiting) : awaiting :=
  match w with
  | InInit r => InInit (reject r)
  | Renewing r => Renewing (reject r)
  | Reclaiming r => Reclaiming (reject r)
  | LookingUp r => LookingUp (reject r)
  | Claiming r => Claiming (reject r)
  end.

Definition destroy (m : MultiMainSetup) : MultiMainSetup :=
  mkMain (instanceRole m) (leaderCheckInterval m) (leaderCheckInProgress m) (reject_awaiting <$> pending m) None
    (down m) true (emitted m) (failed m).

Definition shutdown (m : MultiMainSetup) : MultiMainSetup :=
  let m' := mkMain (instanceRole m) false (leaderCheckInProgress m) (pending m) (Some (send m)) true (destroyed m)
              (emitted m) (failed m) in
  if isLeader m then m'
  else destroy (mkMain (instanceRole m) false (leaderCheckInProgress m) (pending m) None true (destroyed m)
                  (emitted m) (failed m)).

Definition shutdown_resume (m : MultiMainSetup) : option MultiMainSetup :=
  match clearing m with Some (Answered _) => Some (destroy m) | _ => None end.

(** * All processes *)

Inductive Command := CmdGet | CmdSet | CmdRenew | CmdClear.

(** [late] are commands whose sender no longer waits but which may still be executed. *)
Record Cluster := mkCluster {
  now : Z;
  key : leader_key;
  late : list (string * Command);
  mains : gmap string MultiMainSetup;
}.

Inductive ClusterEvent :=
| Start (h : string)
| Interval (h : string)
| Execute (h : string)
| ExecuteClear (h : string)
| ExecuteLate (n : nat)
| Resume (h : string)
| ResumeShutdown (h : string)
| Break (h : string)
| BreakClear (h : string)
| CallShutdown (h : string)
| Crash (h : string)
| Tick (d : Z).

Definition awaited_command (w : awaiting) : option Command :=
  match w with
  | InInit Sent | Reclaiming Sent | Claiming Sent => Some CmdSet
  | Renewing Sent => Some CmdRenew
  | LookingUp Sent => Some CmdGet
  | _ => None
  end.

Definition sent_commands (h : string) (m : MultiMainSetup) : list (string * Command) :=
  match pending m ≫= awaited_command with Some c => [(h, c)] | None => [] end ++
  match clearing m with Some Sent => [(h, CmdClear)] | _ => [] end.

Section System.
Context (ttl : Z).

(** Redis executes a command and answers it. *)
Definition execute (now : Z) (h : string) (key : leader_key) (w : awaiting) : option (leader_key * awaiting) :=
  match w with
  | InInit Sent => let '(k, b) := setLeaderIfNotExists ttl now h key in Some (k, InInit (Answered (Ok b)))
  | Renewing Sent => let '(k, r) := tryRenewLeaderTtl ttl now h key in Some (k, Renewing (Answered r))
  | Reclaiming Sent => let '(k, b) := setLeaderIfNotExists ttl now h key in Some (k, Reclaiming (Answered (Ok b)))
  | LookingUp Sent => let '(k, l) := getLeader now key in Some (k, LookingUp (Answered (Ok l)))
  | Claiming Sent => let '(k, b) := setLeaderIfNotExists ttl now h key in Some (k, Claiming (Answered (Ok b)))
  | _ => None
  end.

Definition execute_late (now : Z) (h : string) (key : leader_key) (c : Command) : leader_key :=
  match c with
  | CmdGet => (getLeader now key).1
  | CmdSet => (setLeaderIfNotExists ttl now h key).1
  | CmdRenew => (tryRenewLeaderTtl ttl now h key).1
  | CmdClear => (clearLeader key).1
  end.

Definition with_main (cl : Cluster) (h : string) (f : MultiMainSetup → option MultiMainSetup) : option Cluster :=
  m ← mains cl !! h; m ← f m; Some (mkCluster (now cl) (key cl) (late cl) (<[h := m]> (mains cl))).

(** A step that may disconnect the client, whose command may still be executed. *)
Definition with_client (cl : Cluster) (h : string) (f : MultiMainSetup → option MultiMainSetup) : option Cluster :=
  m ← mains cl !! h; m' ← f m;
  Some (mkCluster (now cl) (key cl)
          (late cl ++ if destroyed m' && negb (destroyed m)
                      then match pending m ≫= awaited_command with Some c => [(h, c)] | None => [] end
                      else [])
          (<[h := m']> (mains cl))).

Definition with_pending (m : MultiMainSetup) (w : awaiting) : MultiMainSetup := awaits m w.

Definition with_clearing (m : MultiMainSetup) (r : request ()) : MultiMainSetup :=
  mkMain (instanceRole m) (leaderCheckInterval m) (leaderCheckInProgress m) (pending m) (Some r) (down m)
    (destroyed m) (emitted m) (failed m).

(** [None]: the event cannot happen.  An identifier begins with the type of the
    process and is never empty. *)
Definition cluster_next (cl : Cluster) (e : ClusterEvent) : option Cluster :=
  match e with
  | Start h =>
      if bool_decide (h = "") || bool_decide (is_Some (mains cl !! h)) then None
      else Some (mkCluster (now cl) (key cl) (late cl) (<[h := init new_main]> (mains cl)))
  | Interval h => with_main cl h (λ m, if leaderCheckInterval m then Some (checkLeader m) else None)
  | Execute h =>
      m ← mains cl !! h; w ← pending m; '(k, w) ← execute (now cl) h (key cl) w;
      Some (mkCluster (now cl) k (late cl) (<[h := with_pending m w]> (mains cl)))
  | ExecuteClear h =>
      m ← mains cl !! h;
      match clearing m with
      | Some Sent =>
          Some (mkCluster (now cl) (clearLeader (key cl)).1 (late cl)
                  (<[h := with_clearing m (Answered (Ok ()))]> (mains cl)))
      | _ => None
      end
  | ExecuteLate n =>
      '(h, c) ← late cl !! n;
      Some (mkCluster (now cl) (execute_late (now cl) h (key cl) c) (delete n (late cl)) (mains cl))
  | Resume h => with_main cl h (resume h)
  | ResumeShutdown h => with_client cl h shutdown_resume
  | Break h =>
      m ← mains cl !! h; w ← pending m;
      Some (mkCluster (now cl) (key cl) (late cl ++ match awaited_command w with Some c => [(h, c)] | None => [] end)
              (<[h := with_pending m (break w)]> (mains cl)))
  | BreakClear h =>
      m ← mains cl !! h; r ← clearing m;
      Some (mkCluster (now cl) (key cl) (late cl ++ match r with Sent => [(h, CmdClear)] | _ => [] end)
              (<[h := with_clearing m (Answered (Err CommandFailed))]> (mains cl)))
  | CallShutdown h => with_client cl h (λ m, if down m then None else Some (shutdown m))
  | Crash h =>
      m ← mains cl !! h;
      Some (mkCluster (now cl) (key cl) (late cl ++ sent_commands h m) (delete h (mains cl)))
  | Tick d => if 0 <? d then Some (mkCluster (now cl + d) (key cl) (late cl) (mains cl)) else None
  end.

Definition empty_cluster : Cluster := mkCluster 0 None [] ∅.

Fixpoint cluster_run (cl : Cluster) (es : list ClusterEvent) : option Cluster :=
  match es with
  | [] => Some cl
  | e :: es => cl ← cluster_next cl e; cluster_run cl es
  end.
End System.

(** * Every process *)

(** Whether a process leads after its events, which alternate, a takeover first. *)
Fixpoint alternates (leading : bool) (es : list MultiMainEvent) : bool :=
  match es with
  | [] => true
  | LeaderTakeover :: es => negb leading && alternates true es
  | LeaderStepdown :: es => leading && alternates false es
  end.

Fixpoint leads_after (leading : bool) (es : list MultiMainEvent) : bool :=
  match es with
  | [] => leading
  | LeaderTakeover :: es => leads_after true es
  | LeaderStepdown :: es => leads_after false es
  end.

Lemma alternates_snoc b es e :
  alternates b es = true → alternates (leads_after b es) [e] = true → alternates b (es ++ [e]) = true.
Proof.
  revert b. induction es as [|[] es IH]; intros b; cbn; [done|..]; rewrite !andb_true_iff;
    intros [-> ?] ?; split; try done; by apply IH.
Qed.

Lemma leads_after_snoc b es e : leads_after b (es ++ [e]) = leads_after (leads_after b es) [e].
Proof. revert b. induction es as [|[] es IH]; intros b; cbn; [done|..]; apply IH. Qed.

(** Which await a process may be in. *)
Definition await_fits (m : MultiMainSetup) : Prop :=
  match pending m with
  | None => leaderCheckInProgress m = false
  | Some (InInit _) => leaderCheckInProgress m = false ∧ leaderCheckInterval m = false ∧ isLeader m = false
  | Some (Renewing _) | Some (Reclaiming _) => leaderCheckInProgress m = true ∧ isLeader m = true
  | Some (LookingUp _) | Some (Claiming _) => leaderCheckInProgress m = true ∧ isLeader m = false
  end.

Record main_inv (m : MultiMainSetup) : Prop := {
  main_failed : failed m = false;
  main_alternates : alternates false (emitted m) = true;
  main_leads : leads_after false (emitted m) = isLeader m;
  main_fits : await_fits m;
}.

(** The steps of one process, whatever the answers. *)
Inductive main_step (h : string) (m : MultiMainSetup) : MultiMainSetup → Prop :=
| step_interval : leaderCheckInterval m = true → main_step h m (checkLeader m)
| step_answer w w' : pending m = Some w →
    match w, w' with
    | InInit _, InInit _ | Renewing _, Renewing _ | Reclaiming _, Reclaiming _
    | LookingUp _, LookingUp _ | Claiming _, Claiming _ => True
    | _, _ => False
    end → main_step h m (with_pending m w')
| step_resume m' : resume h m = Some m' → main_step h m m'
| step_clearing r : clearing m ≠ None → main_step h m (with_clearing m r)
| step_shutdown : main_step h m (shutdown m)
| step_destroy : clearing m ≠ None → main_step h m (destroy m).

Lemma takeover_inv m :
  main_inv m → isLeader m = false →
  takeOverAsLeader m = Ok (with_role m Leader [LeaderTakeover]) ∧
  alternates false (emitted m ++ [LeaderTakeover]) = true ∧
  leads_after false (emitted m ++ [LeaderTakeover]) = true.
Proof.
  intros [_ Ha Hl _] Hm. split_and!; [by unfold takeOverAsLeader; rewrite Hm| |by rewrite leads_after_snoc].
  apply alternates_snoc; [done|]. by rewrite Hl, Hm.
Qed.

Lemma stepdown_inv m :
  main_inv m → isLeader m = true →
  stepDownToFollower m = Ok (with_role m Follower [LeaderStepdown]) ∧
  alternates false (emitted m ++ [LeaderStepdown]) = true ∧
  leads_after false (emitted m ++ [LeaderStepdown]) = false.
Proof.
  intros [_ Ha Hl _] Hm. split_and!; [by unfold stepDownToFollower; rewrite Hm| |by rewrite leads_after_snoc].
  apply alternates_snoc; [done|]. by rewrite Hl, Hm.
Qed.

Lemma ended_inv m :
  failed m = false → alternates false (emitted m) = true → leads_after false (emitted m) = isLeader m →
  main_inv (end_check m false).
Proof. intros Hf Ha Hl. constructor; cbn; [by rewrite Hf|done..]. Qed.

Lemma awaits_inv m w : main_inv m → await_fits (awaits m w) → main_inv (awaits m w).
Proof. intros [Hf Ha Hl _] H. by constructor. Qed.

Lemma same_main_inv m m' :
  failed m' = failed m → emitted m' = emitted m → instanceRole m' = instanceRole m →
  (await_fits m → await_fits m') → main_inv m → main_inv m'.
Proof.
  intros Hf He Hr Hw [Hx Ha Hl Hfit]. constructor; [congruence|by rewrite He|rewrite He; unfold isLeader|by apply Hw].
  by rewrite Hr.
Qed.

Lemma done_inv m : main_inv m → main_inv (end_check m false).
Proof. intros []. by apply ended_inv. Qed.

Lemma stepped_down_inv m :
  main_inv m → isLeader m = true → main_inv (after_check m (done_after (stepDownToFollower m))).
Proof.
  intros Hm Hl. destruct (stepdown_inv m Hm Hl) as (-> & Ha & Hd). apply ended_inv; [apply (main_failed m Hm)|done..].
Qed.

Lemma took_over_inv m :
  main_inv m → isLeader m = false → main_inv (after_check m (done_after (takeOverAsLeader m))).
Proof.
  intros Hm Hl. destruct (takeover_inv m Hm Hl) as (-> & Ha & Hd). apply ended_inv; [apply (main_failed m Hm)|done..].
Qed.

Lemma inited_inv m r :
  main_inv m → leaderCheckInProgress m = false → isLeader m = false → main_inv (after_init m (init_resume m r)).
Proof.
  intros Hm Hp Hl. destruct (takeover_inv m Hm Hl) as (Ht & Ha & Hd). destruct Hm as [Hf Ha' Hl' _].
  unfold init_resume. destruct r as [[]|]; cbn [mbind result_bind]; [rewrite Ht|..];
    constructor; cbn; rewrite ?app_nil_r; try done; by rewrite Hl'.
Qed.

Lemma resume_inv h m m' : main_inv m → resume h m = Some m' → main_inv m'.
Proof.
  intros Hm. pose proof (main_fits m Hm) as Hf. unfold await_fits in Hf. unfold resume.
  destruct (pending m) as [[[|r]|[|r]|[|r]|[|r]|[|r]]|]; intros [= <-]; destruct_and? Hf.
  - by apply inited_inv.
  - destruct r as [[]|]; cbn; [by apply awaits_inv|by apply stepped_down_inv|by apply done_inv..].
  - destruct r as [[]|]; cbn; [by apply done_inv|by apply stepped_down_inv..].
  - destruct r as [l|]; cbn; [|by apply done_inv].
    destruct (match l with Some l => _ | None => _ end) as [l'|]; [|by apply awaits_inv].
    case_bool_decide; [by apply took_over_inv|by apply done_inv].
  - destruct r as [[]|]; cbn; [by apply took_over_inv|by apply done_inv..].
Qed.

Lemma checkLeader_inv m : main_inv m → leaderCheckInterval m = true → main_inv (checkLeader m).
Proof.
  intros Hm Hi. unfold checkLeader. destruct (leaderCheckInProgress m) eqn:Hp; [done|].
  destruct Hm as [Hf Ha Hl Hfit]. destruct (isLeader m) eqn:Hlead;
    cbn [isLeader instanceRole]; unfold isLeader in Hlead |- *; cbn [instanceRole]; rewrite Hlead;
    constructor; try done; unfold await_fits, isLeader; cbn; by rewrite ?Hlead.
Qed.

Lemma main_step_inv h m m' : main_inv m → main_step h m m' → main_inv m'.
Proof.
  intros Hm Hs. destruct Hs as [Hi|w w' Hw Hs|m' Hr|r Hc| |].
  - by apply checkLeader_inv.
  - apply awaits_inv; [done|]. pose proof (main_fits m Hm) as Hf. unfold await_fits in *. rewrite Hw in Hf.
    cbn. by destruct w, w'.
  - by eapply resume_inv.
  - by apply (same_main_inv m).
  - unfold shutdown. destruct (isLeader m); apply (same_main_inv m); try done; unfold await_fits; cbn;
      intros H; destruct (pending m) as [[]|]; naive_solver.
  - apply (same_main_inv m); try done. unfold await_fits; cbn. by destruct (pending m) as [[]|].
Qed.

Lemma new_main_inv : main_inv (init new_main).
Proof. by constructor. Qed.

Lemma execute_same ttl n h k w k' w' m :
  pending m = Some w → execute ttl n h k w = Some (k', w') → main_step h m (with_pending m w').
Proof.
  intros Hw He. apply step_answer with w; [done|].
  destruct w as [[]|[]|[]|[]|[]]; cbn in He; try done; [..|by injection He as <- <-|];
    destruct (_ ttl n h k) as [k1 r]; by injection He as <- <-.
Qed.

(** The commands of a client that is disconnected. *)
Definition left_behind (h : string) (m m' : MultiMainSetup) : list (string * Command) :=
  if destroyed m' && negb (destroyed m)
  then match pending m ≫= awaited_command with Some c => [(h, c)] | None => [] end
  else [].

(** The shape of a step. *)
Inductive moved (ttl : Z) (cl : Cluster) : ClusterEvent → Cluster → Prop :=
| moved_start h : h ≠ "" → mains cl !! h = None →
    moved ttl cl (Start h) (mkCluster (now cl) (key cl) (late cl) (<[h := init new_main]> (mains cl)))
| moved_interval h m : mains cl !! h = Some m → leaderCheckInterval m = true →
    moved ttl cl (Interval h) (mkCluster (now cl) (key cl) (late cl) (<[h := checkLeader m]> (mains cl)))
| moved_execute h m w k w' : mains cl !! h = Some m → pending m = Some w →
    execute ttl (now cl) h (key cl) w = Some (k, w') →
    moved ttl cl (Execute h) (mkCluster (now cl) k (late cl) (<[h := with_pending m w']> (mains cl)))
| moved_clear h m : mains cl !! h = Some m → clearing m = Some Sent →
    moved ttl cl (ExecuteClear h)
      (mkCluster (now cl) None (late cl) (<[h := with_clearing m (Answered (Ok ()))]> (mains cl)))
| moved_late n h c : late cl !! n = Some (h, c) →
    moved ttl cl (ExecuteLate n)
      (mkCluster (now cl) (execute_late ttl (now cl) h (key cl) c) (delete n (late cl)) (mains cl))
| moved_resume h m m' : mains cl !! h = Some m → resume h m = Some m' →
    moved ttl cl (Resume h) (mkCluster (now cl) (key cl) (late cl) (<[h := m']> (mains cl)))
| moved_ended h m r : mains cl !! h = Some m → clearing m = Some (Answered r) →
    moved ttl cl (ResumeShutdown h)
      (mkCluster (now cl) (key cl) (late cl ++ left_behind h m (destroy m)) (<[h := destroy m]> (mains cl)))
| moved_break h m w : mains cl !! h = Some m → pending m = Some w →
    moved ttl cl (Break h)
      (mkCluster (now cl) (key cl)
         (late cl ++ match awaited_command w with Some c => [(h, c)] | None => [] end)
         (<[h := with_pending m (break w)]> (mains cl)))
| moved_break_clear h m r : mains cl !! h = Some m → clearing m = Some r →
    moved ttl cl (BreakClear h)
      (mkCluster (now cl) (key cl) (late cl ++ match r with Sent => [(h, CmdClear)] | _ => [] end)
         (<[h := with_clearing m (Answered (Err CommandFailed))]> (mains cl)))
| moved_shutdown h m : mains cl !! h = Some m → down m = false →
    moved ttl cl (CallShutdown h)
      (mkCluster (now cl) (key cl) (late cl ++ left_behind h m (shutdown m)) (<[h := shutdown m]> (mains cl)))
| moved_crash h m : mains cl !! h = Some m →
    moved ttl cl (Crash h)
      (mkCluster (now cl) (key cl) (late cl ++ sent_commands h m) (delete h (mains cl)))
| moved_tick d : 0 < d → moved ttl cl (Tick d) (mkCluster (now cl + d) (key cl) (late cl) (mains cl)).

Lemma next_moved ttl cl e cl' : cluster_next ttl cl e = Some cl' → moved ttl cl e cl'.
Proof.
  destruct e as [h|h|h|h|n|h|h|h|h|h|h|d]; cbn; unfold with_main, with_client.
  - case_bool_decide; [done|]. case_bool_decide as Hn; [done|]. intros [= <-].
    apply moved_start; [done|]. by apply eq_None_not_Some.
  - destruct (mains cl !! h) as [m|] eqn:Hm; [|done]; cbn. destruct (leaderCheckInterval m) eqn:Hi; [|done]; cbn.
    intros [= <-]. by apply moved_interval.
  - destruct (mains cl !! h) as [m|] eqn:Hm; [|done]; cbn. destruct (pending m) as [w|] eqn:Hw; [|done]; cbn.
    destruct (execute _ _ _ _ _) as [[k w']|] eqn:He; [|done]; cbn. intros [= <-]. by eapply moved_execute.
  - destruct (mains cl !! h) as [m|] eqn:Hm; [|done]; cbn. destruct (clearing m) as [[]|] eqn:Hc; [|done..].
    intros [= <-]. by apply moved_clear.
  - destruct (late cl !! n) as [[h c]|] eqn:Hl; [|done]; cbn. intros [= <-]. by apply moved_late.
  - destruct (mains cl !! h) as [m|] eqn:Hm; [|done]; cbn. destruct (resume h m) as [m'|] eqn:Hr; [|done]; cbn.
    intros [= <-]. by eapply moved_resume.
  - destruct (mains cl !! h) as [m|] eqn:Hm; [|done]; cbn. unfold shutdown_resume.
    destruct (clearing m) as [[|r]|] eqn:Hc; [done| |done]. intros [= <-]. by eapply moved_ended.
  - destruct (mains cl !! h) as [m|] eqn:Hm; [|done]; cbn. destruct (pending m) as [w|] eqn:Hw; [|done]; cbn.
    intros [= <-]. by apply moved_break.
  - destruct (mains cl !! h) as [m|] eqn:Hm; [|done]; cbn. destruct (clearing m) as [r|] eqn:Hc; [|done]; cbn.
    intros [= <-]. by eapply moved_break_clear.
  - destruct (mains cl !! h) as [m|] eqn:Hm; [|done]; cbn. destruct (down m) eqn:Hd; [done|]. intros [= <-].
    by apply moved_shutdown.
  - destruct (mains cl !! h) as [m|] eqn:Hm; [|done]; cbn. intros [= <-]. by apply moved_crash.
  - destruct (Z.ltb_spec 0 d); [|done]. intros [= <-]. by apply moved_tick.
Qed.

#[global] Arguments cluster_next : simpl never.

(** Every process of the next state took a step, is new, or did nothing. *)
Lemma next_mains ttl cl e cl' h m' :
  moved ttl cl e cl' → mains cl' !! h = Some m' →
  mains cl !! h = Some m' ∨ m' = init new_main ∨ ∃ m, mains cl !! h = Some m ∧ main_step h m m'.
Proof.
  assert (Hins : ∀ h0 m0 m1, mains cl !! h0 = Some m0 → main_step h0 m0 m1 →
    <[h0 := m1]> (mains cl) !! h = Some m' →
    mains cl !! h = Some m' ∨ m' = init new_main ∨ ∃ m, mains cl !! h = Some m ∧ main_step h m m').
  { intros h0 m0 m1 Hl Hs [[-> ->]|[Hne Hlk]]%lookup_insert_Some; eauto. }
  destruct 1; cbn; eauto; try (eapply Hins; [done|]).
  - intros [[_ <-]|[]]%lookup_insert_Some; eauto.
  - by apply step_interval.
  - by eapply execute_same.
  - apply step_clearing. congruence.
  - by apply step_resume.
  - apply step_destroy. congruence.
  - apply step_answer with w; [done|]. by destruct w.
  - apply step_clearing. congruence.
  - apply step_shutdown.
  - intros [_ ?]%lookup_delete_Some; eauto.
Qed.

Lemma run_app ttl cl es1 es2 :
  cluster_run ttl cl (es1 ++ es2) = cluster_run ttl cl es1 ≫= λ cl', cluster_run ttl cl' es2.
Proof.
  revert cl. induction es1 as [|e es1 IH]; intros cl; cbn; [done|]. destruct (cluster_next ttl cl e); cbn; [apply IH|done].
Qed.

(** What every step of a process keeps, every run keeps of all processes. *)
Lemma run_mains (P : MultiMainSetup → Prop) ttl cl es cl' :
  P (init new_main) → (∀ h m m', P m → main_step h m m' → P m') →
  (∀ h m, mains cl !! h = Some m → P m) → cluster_run ttl cl es = Some cl' →
  ∀ h m, mains cl' !! h = Some m → P m.
Proof.
  intros Hnew Hstep. revert cl. induction es as [|e es IH]; intros cl Hcl; cbn; [by intros [= <-]|].
  destruct (cluster_next ttl cl e) as [cl1|] eqn:Hn; [|done]; cbn. intros Hrun. apply (IH cl1); [|done].
  intros h m Hm. destruct (next_mains _ _ _ _ _ _ (next_moved _ _ _ _ Hn) Hm) as [?|[->|(m0 & ? & ?)]]; eauto.
Qed.

(** Whatever is lost, delayed or interrupted, no assertion of a process ever fails, and
    a process announces a takeover and a stepdown in turns, a takeover first: the
    last announcement says what its role is. *)
Theorem leadership_events_alternate (ttl : Z) (es : list ClusterEvent) (cl : Cluster) (h : string) (m : MultiMainSetup) :
  cluster_run ttl empty_cluster es = Some cl → mains cl !! h = Some m →
  failed m = false ∧ alternates false (emitted m) = true ∧ leads_after false (emitted m) = isLeader m.
Proof.
  intros Hrun Hm. destruct (run_mains main_inv ttl empty_cluster es cl) with h m as [Hf Ha Hl _]; [| | | |done|done].
  - apply new_main_inv.
  - intros h' m1 m2. apply main_step_inv.
  - intros h' m'. cbn. by rewrite lookup_empty.
  - done.
Qed.

(** * At most one leader *)

Definition holder (cl : Cluster) : option string := redis_get (now cl) (key cl).

(** A process relies on the key: it leads, has been told so, or is about to delete it. *)
Definition claims (h : string) (m : MultiMainSetup) : bool :=
  negb (down m) &&
    (isLeader m ||
     match pending m with
     | Some (InInit (Answered (Ok true))) | Some (Claiming (Answered (Ok true))) => true
     | Some (LookingUp (Answered (Ok (Some l)))) => bool_decide (l = h)
     | _ => false
     end) ||
  match clearing m with Some Sent => true | _ => false end.

(** The key of a process outlives its reliance on it: it is renewed in time, and the
    process is not cut off while it deletes the key. *)
Definition prompt (cl : Cluster) (e : ClusterEvent) : Prop :=
  match e with
  | Tick d => map_Forall (λ h m, claims h m = true → redis_get (now cl + d) (key cl) = Some h) (mains cl)
  | BreakClear h | Crash h => (mains cl !! h ≫= clearing) ≠ Some Sent
  | _ => True
  end.

(** Every event of a run happens in a state that allows it. *)
Fixpoint run_within (P : Cluster → ClusterEvent → Prop) (ttl : Z) (cl : Cluster) (es : list ClusterEvent) : Prop :=
  match es with
  | [] => True
  | e :: es => P cl e ∧ match cluster_next ttl cl e with Some cl' => run_within P ttl cl' es | None => True end
  end.

Lemma set_keeps ttl n h k v : redis_get n k = Some v → redis_get n (setLeaderIfNotExists ttl n h k).1 = Some v.
Proof. intros H. unfold setLeaderIfNotExists. by rewrite H. Qed.

Lemma set_wins ttl n h k :
  0 < ttl → (setLeaderIfNotExists ttl n h k).2 = true → redis_get n (setLeaderIfNotExists ttl n h k).1 = Some h.
Proof.
  intros Ht. unfold setLeaderIfNotExists. destruct (redis_get n k); cbn; [done|]. intros _.
  by rewrite (proj2 (Z.ltb_lt _ _)) by lia.
Qed.

Lemma renew_spec ttl n h k :
  0 < ttl →
  redis_get n (tryRenewLeaderTtl ttl n h k).1 = redis_get n k ∧
  (tryRenewLeaderTtl ttl n h k).2 =
    Ok match redis_get n k with
       | None => KeyMissing
       | Some v => if decide (v = h) then Success else OtherHostIsLeader v
       end.
Proof.
  intros Ht. unfold tryRenewLeaderTtl, INCREASE_TTL_IF_LEADER. destruct (redis_get n k) as [v|] eqn:Hk; cbn; [|done].
  destruct (decide (v = h)) as [->|Hne].
  - rewrite bool_decide_true by done. cbn. by rewrite (proj2 (Z.ltb_lt _ _)) by lia.
  - by rewrite bool_decide_false.
Qed.

(** No command but the deletion takes the key from its holder. *)
Lemma execute_keeps ttl n h k w k' w' v :
  0 < ttl → execute ttl n h k w = Some (k', w') → redis_get n k = Some v → redis_get n k' = Some v.
Proof.
  intros Ht He Hk. destruct w as [[]|[]|[]|[]|[]]; cbn in He; try done.
  - destruct (setLeaderIfNotExists ttl n h k) eqn:Hs; injection He as <- <-. by erewrite <- (set_keeps ttl n h k v), Hs.
  - destruct (tryRenewLeaderTtl ttl n h k) eqn:Hs; injection He as <- <-.
    destruct (renew_spec ttl n h k Ht) as [Hg _]. by rewrite Hs in Hg; cbn in Hg; rewrite Hg.
  - destruct (setLeaderIfNotExists ttl n h k) eqn:Hs; injection He as <- <-. by erewrite <- (set_keeps ttl n h k v), Hs.
  - by injection He as <- <-.
  - destruct (setLeaderIfNotExists ttl n h k) eqn:Hs; injection He as <- <-. by erewrite <- (set_keeps ttl n h k v), Hs.
Qed.

Lemma late_keeps ttl n h k c v :
  0 < ttl → c ≠ CmdClear → redis_get n k = Some v → redis_get n (execute_late ttl n h k c) = Some v.
Proof.
  intros Ht Hc Hk. destruct c; cbn; [done|by apply set_keeps| |done].
  by rewrite (proj1 (renew_spec ttl n h k Ht)).
Qed.

(** A process that did not rely on the key and does so after an answer holds it. *)
Lemma execute_claims ttl n h k w k' w' m :
  0 < ttl → pending m = Some w → execute ttl n h k w = Some (k', w') →
  claims h (with_pending m w') = true → claims h m = true ∨ redis_get n k' = Some h.
Proof.
  intros Ht Hw He. unfold claims. rewrite Hw. cbn.
  destruct w as [[]|[]|[]|[]|[]]; cbn in He; try done.
  - destruct (setLeaderIfNotExists ttl n h k) as [k1 []] eqn:Hs; injection He as <- <-; [|tauto].
    intros _. right. pose proof (set_wins ttl n h k Ht) as H. rewrite Hs in H. by apply H.
  - destruct (tryRenewLeaderTtl ttl n h k); injection He as <- <-. tauto.
  - destruct (setLeaderIfNotExists ttl n h k); injection He as <- <-. tauto.
  - injection He as <- <-. destruct (redis_get n k) as [l|]; [|tauto].
    case_bool_decide as Hl; [subst; tauto|tauto].
  - destruct (setLeaderIfNotExists ttl n h k) as [k1 []] eqn:Hs; injection He as <- <-; [|tauto].
    intros _. right. pose proof (set_wins ttl n h k Ht) as H. rewrite Hs in H. by apply H.
Qed.

Lemma down_claims_less h m m' :
  down m' = down m → clearing m' = clearing m →
  (down m = false → isLeader m' = true → claims h m = true) →
  match pending m' with
  | Some (InInit (Answered (Ok true))) | Some (Claiming (Answered (Ok true)))
  | Some (LookingUp (Answered (Ok (Some _)))) => False
  | _ => True
  end → claims h m' = true → claims h m = true.
Proof.
  intros Hd Hc Hl Hp Hm. unfold claims in Hm. rewrite Hd, Hc in Hm.
  destruct (clearing m) as [[]|] eqn:Hcl; [unfold claims; rewrite Hcl; by rewrite orb_true_r|..];
    rewrite orb_false_r in Hm; apply andb_true_iff in Hm as [Hdn Hm]; apply negb_true_iff in Hdn;
    (apply orb_true_iff in Hm as [Hm|Hm]; [by apply Hl|]);
    destruct (pending m') as [[[|[[]|]]|[]|[]|[|[[]|]]|[|[[]|]]]|]; done.
Qed.

Lemma leader_claims h m : down m = false → isLeader m = true → claims h m = true.
Proof. intros Hd Hl. unfold claims. by rewrite Hd, Hl. Qed.

(** Continuing after an answer never makes a process rely on the key anew. *)
Lemma resume_claims h m m' : resume h m = Some m' → claims h m' = true → claims h m = true.
Proof.
  intros Hr. unfold resume in Hr.
  destruct (pending m) as [[[|r]|[|r]|[|r]|[|r]|[|r]]|] eqn:Hp; try done; injection Hr as <-;
    apply down_claims_less; unfold after_init, init_resume, after_check, checkAreWeStillLeader, reclaim,
      checkCanBecomeLeader, claim, done_after, takeOverAsLeader, stepDownToFollower;
    repeat (case_match; simplify_eq/=; try done); try (intros; by apply leader_claims);
    try (by unfold send in *; repeat case_match);
    intros Hd _; unfold claims; rewrite Hd, Hp; cbn; by repeat case_bool_decide; rewrite ?orb_true_r.
Qed.

Lemma checkLeader_claims h m : claims h (checkLeader m) = true → claims h m = true.
Proof.
  unfold checkLeader. destruct (leaderCheckInProgress m); [done|]. case_match; apply down_claims_less; try done;
    first [intros Hd Hl; apply leader_claims; [done|exact Hl]|cbn; unfold send; by repeat case_match].
Qed.

Lemma break_claims h m w : pending m = Some w → claims h (with_pending m (break w)) = true → claims h m = true.
Proof.
  intros Hw. apply down_claims_less; try done; [intros Hd Hl; apply leader_claims; [done|exact Hl]|by destruct w].
Qed.

Lemma shutdown_claims h m : down m = false → claims h (shutdown m) = true → claims h m = true.
Proof.
  intros Hd. unfold shutdown. destruct (isLeader m) eqn:Hl; [intros _; by apply leader_claims|].
  unfold claims, destroy. cbn. done.
Qed.

(** A process deletes the key only after [shutdown]. *)
Definition clearing_down (m : MultiMainSetup) : Prop := clearing m ≠ None → down m = true.

Lemma clearing_down_step h m m' : clearing_down m → main_step h m m' → clearing_down m'.
Proof.
  intros Hm Hs. unfold clearing_down in *. destruct Hs as [Hi|w w' Hw Hs|m' Hr|r Hc| |]; cbn; try done.
  - unfold checkLeader. by repeat case_match.
  - assert (clearing m' = clearing m ∧ down m' = down m) as [-> ->]; [|done].
    unfold resume in Hr. destruct (pending m) as [[[|r]|[|r]|[|r]|[|r]|[|r]]|]; try done; injection Hr as <-;
    unfold after_init, init_resume, after_check, checkAreWeStillLeader, reclaim,
      checkCanBecomeLeader, claim, done_after, takeOverAsLeader, stepDownToFollower;
    by repeat (case_match; simplify_eq/=).
  - by intros _; apply Hm.
  - unfold shutdown. by case_match.
Qed.

Definition no_late_clear (cl : Cluster) : Prop := ∀ h, (h, CmdClear) ∉ late cl.

(** Whoever relies on the key has it. *)
Record lease_inv (cl : Cluster) : Prop := {
  lease_held h m : mains cl !! h = Some m → claims h m = true → holder cl = Some h;
  lease_down h m : mains cl !! h = Some m → clearing_down m;
  lease_late : no_late_clear cl;
}.

Lemma lease_update cl h m m' k l :
  lease_inv cl → mains cl !! h = Some m → main_step h m m' →
  (∀ h' m'', h' ≠ h → mains cl !! h' = Some m'' → claims h' m'' = true → redis_get (now cl) k = Some h') →
  (claims h m' = true → redis_get (now cl) k = Some h) →
  (∀ h', (h', CmdClear) ∉ l) → lease_inv (mkCluster (now cl) k l (<[h := m']> (mains cl))).
Proof.
  intros [Hh Hd Hl] Hm Hs Hother Hself Hlate. constructor; [| |done].
  - intros h' m''. unfold holder; cbn. intros [[<- <-]|[Hne Hlk]]%lookup_insert_Some Hc; [by apply Hself|].
    by apply (Hother h' m'').
  - intros h' m''; cbn. intros [[<- <-]|[Hne Hlk]]%lookup_insert_Some; [|by apply (Hd h')].
    eapply clearing_down_step; [by apply (Hd h)|done].
Qed.

(** A step of one process that leaves the key alone. *)
Lemma lease_update_same cl h m m' l :
  lease_inv cl → mains cl !! h = Some m → main_step h m m' →
  (claims h m' = true → claims h m = true) →
  (∀ h', (h', CmdClear) ∉ l) → lease_inv (mkCluster (now cl) (key cl) l (<[h := m']> (mains cl))).
Proof.
  intros Hi Hm Hs Hc Hl. eapply lease_update; try done.
  - intros h' m'' _. apply (lease_held cl Hi).
  - intros Hm'. by apply (lease_held cl Hi) with m; [|apply Hc].
Qed.

Lemma no_clear_app cl l : no_late_clear cl → (∀ h, (h, CmdClear) ∉ l) → ∀ h, (h, CmdClear) ∉ late cl ++ l.
Proof. intros H1 H2 h [?|?]%elem_of_app; [by apply (H1 h)|by apply (H2 h)]. Qed.

Lemma awaited_not_clear w (h h' : string) : (h', CmdClear) ∉ match awaited_command w with Some c => [(h, c)] | None => [] end.
Proof.
  intros H. destruct w as [[]|[]|[]|[]|[]]; cbn in H; set_solver.
Qed.

Lemma left_behind_not_clear h m m' h' : (h', CmdClear) ∉ left_behind h m m'.
Proof.
  unfold left_behind. destruct (_ && _); [|set_solver]. destruct (pending m) as [w|]; cbn; [|set_solver].
  apply awaited_not_clear.
Qed.

Lemma moved_lease ttl cl e cl' :
  0 < ttl → lease_inv cl → prompt cl e → moved ttl cl e cl' → lease_inv cl'.
Proof.
  intros Ht Hi Hp Hmv. pose proof (lease_held cl Hi) as Hheld. pose proof (lease_late cl Hi) as Hlate.
  destruct Hmv as [h Hne Hno|h m Hm Hint|h m w k w' Hm Hw He|h m Hm Hc|n h c Hc|h m m' Hm Hr|h m r Hm Hc|h m w Hm Hw
    |h m r Hm Hc|h m Hm Hdn|h m Hm|d Hd].
  - constructor; cbn; [| |done]; intros h' m' [[<- <-]|[_ Hlk]]%lookup_insert_Some; try done.
    + by apply Hheld.
    + by intros [].
    + by apply (lease_down cl Hi h').
  - eapply lease_update_same; [done..|by apply step_interval|apply checkLeader_claims|done].
  - eapply lease_update; [done..|by eapply execute_same| | |done].
    + intros h' m' _ Hm' Hc'. eapply execute_keeps; [done..|]. by apply Hheld with m'.
    + intros Hcl. destruct (execute_claims ttl (now cl) h (key cl) w k w' m Ht Hw He Hcl) as [Hc|]; [|done].
      eapply execute_keeps; [done..|]. by apply Hheld with m.
  - assert (claims h m = true) as Hcm by (unfold claims; rewrite Hc; by rewrite orb_true_r).
    assert (down m = true) as Hdm by (by apply (lease_down cl Hi h m Hm); rewrite Hc).
    eapply lease_update; [done..|apply step_clearing; congruence| | |done].
    + intros h' m' Hne Hm' Hc'. pose proof (Hheld h' m' Hm' Hc') as H1. rewrite (Hheld h m Hm Hcm) in H1. congruence.
    + unfold claims; cbn. by rewrite Hdm.
  - constructor; cbn; [|apply Hi|].
    + intros h' m' Hm' Hc'. unfold holder; cbn. apply late_keeps; [done| |by apply Hheld with m'].
      intros ->. by apply list_elem_of_lookup_2, Hlate in Hc.
    + intros h' H. apply (Hlate h'). rewrite delete_take_drop in H.
      rewrite <- (take_drop_middle (late cl) n (h, c)) by done. set_solver.
  - eapply lease_update_same; [done..|by apply step_resume|by eapply resume_claims|done].
  - eapply lease_update_same; [done..|apply step_destroy; congruence| |apply no_clear_app; [done|apply left_behind_not_clear]].
    unfold claims; cbn. assert (down m = true) as -> by (by apply (lease_down cl Hi h m Hm); rewrite Hc). done.
  - eapply lease_update_same; [done..|apply step_answer with w; [done|by destruct w]|by eapply break_claims|].
    apply no_clear_app; [done|apply awaited_not_clear].
  - cbn in Hp. rewrite Hm in Hp; cbn in Hp. rewrite Hc in Hp.
    eapply lease_update_same; [done..|apply step_clearing; congruence| |].
    + unfold claims; cbn. assert (down m = true) as -> by (by apply (lease_down cl Hi h m Hm); rewrite Hc). done.
    + apply no_clear_app; [done|]. destruct r; [done|set_solver].
  - eapply lease_update_same; [done..|apply step_shutdown|by apply shutdown_claims|].
    apply no_clear_app; [done|apply left_behind_not_clear].
  - cbn in Hp. rewrite Hm in Hp; cbn in Hp. constructor; cbn.
    + intros h' m' [_ Hm']%lookup_delete_Some. by apply Hheld.
    + intros h' m' [_ Hm']%lookup_delete_Some. by apply (lease_down cl Hi h').
    + unfold no_late_clear; cbn. apply no_clear_app; [done|]. intros h'. unfold sent_commands. rewrite elem_of_app. intros [H|H].
      * destruct (pending m) as [w|]; cbn in H; [by eapply awaited_not_clear|set_solver].
      * destruct (clearing m) as [[]|]; [done|set_solver..].
  - constructor; cbn; [|apply Hi|done]. intros h m Hm Hc. apply (Hp h m Hm Hc).
Qed.

(** C10: As long as every process that relies on the leader key renews it before it expires,
    and no process is cut off while it deletes the key, at most one running process
    leads, however the commands of the processes interleave, fail or are delayed. *)
Theorem at_most_one_leader (ttl : Z) (es : list ClusterEvent) (cl : Cluster) (h1 h2 : string) (m1 m2 : MultiMainSetup) :
  0 < ttl → cluster_run ttl empty_cluster es = Some cl → run_within prompt ttl empty_cluster es →
  mains cl !! h1 = Some m1 → mains cl !! h2 = Some m2 →
  isLeader m1 = true → isLeader m2 = true → down m1 = false → down m2 = false → h1 = h2.
Proof.
  intros Ht Hrun Hp Hm1 Hm2 Hl1 Hl2 Hd1 Hd2. assert (lease_inv empty_cluster) as H0.
  { constructor; cbn; [intros h m; by rewrite lookup_empty..|]. intros h. set_solver. }
  revert H0 Hrun Hp. generalize empty_cluster. induction es as [|e es IH]; intros cl0 Hi; cbn.
  - intros [= ->] _. pose proof (lease_held cl Hi h1 m1 Hm1 (leader_claims h1 m1 Hd1 Hl1)) as H1.
    rewrite (lease_held cl Hi h2 m2 Hm2 (leader_claims h2 m2 Hd2 Hl2)) in H1. by injection H1.
  - destruct (cluster_next ttl cl0 e) as [cl1|] eqn:Hn; [|done]; cbn. intros Hrun [Hp Hps].
    apply (IH cl1); [|done..]. by eapply moved_lease; [..|apply next_moved].
Qed.

(** * A round of checks elects a leader *)

(** No command fails, no process starts or ends, and the key does not expire. *)
Definition calm (cl : Cluster) (e : ClusterEvent) : Prop :=
  match e with
  | Interval _ | Execute _ | Resume _ => True
  | Tick d => redis_get (now cl + d) (key cl) = holder cl
  | _ => False
  end.

(** The process [h] begins a check during the run. *)
Definition checked (ttl : Z) (cl : Cluster) (es : list ClusterEvent) (h : string) : Prop :=
  ∃ es1 es2 cl1 m, es = es1 ++ Interval h :: es2 ∧ cluster_run ttl cl es1 = Some cl1 ∧
    mains cl1 !! h = Some m ∧ leaderCheckInProgress m = false.

(** What a process that has begun its check knows of the holder of the key. *)
Definition fresh (h : string) (key_holder : option string) (m : MultiMainSetup) : Prop :=
  match pending m with
  | None => ∃ k, key_holder = Some k ∧ (isLeader m = true ↔ k = h)
  | Some (Renewing Sent) | Some (LookingUp Sent) => True
  | Some (Renewing (Answered (Ok Success))) => key_holder = Some h
  | Some (Renewing (Answered (Ok (OtherHostIsLeader _)))) => ∃ k, key_holder = Some k ∧ k ≠ h
  | Some (Renewing (Answered (Ok KeyMissing))) | Some (Reclaiming Sent)
  | Some (LookingUp (Answered (Ok None))) | Some (Claiming Sent) => key_holder ≠ Some h
  | Some (Reclaiming (Answered (Ok b))) | Some (Claiming (Answered (Ok b))) =>
      ∃ k, key_holder = Some k ∧ (b = true ↔ k = h)
  | Some (LookingUp (Answered (Ok (Some l)))) => key_holder = Some l
  | _ => False
  end.

(** Another process takes a vacant key, or leaves it as it is. *)
Lemma fresh_other h h' o o' m :
  h' ≠ h → o' = o ∨ (o = None ∧ o' = Some h') → fresh h o m → fresh h o' m.
Proof.
  intros Hne [->|[-> ->]]; [done|]. unfold fresh.
  destruct (pending m) as [[[|[]]|[|[[]|]]|[|[[]|]]|[|[[]|]]|[|[[]|]]]|]; try done; naive_solver.
Qed.

Lemma set_holder ttl n h k :
  0 < ttl →
  redis_get n (setLeaderIfNotExists ttl n h k).1 = Some (default h (redis_get n k)) ∧
  (setLeaderIfNotExists ttl n h k).2 = bool_decide (redis_get n k = None).
Proof.
  intros Ht. unfold setLeaderIfNotExists. destruct (redis_get n k) eqn:Hk; cbn; [done|].
  by rewrite (proj2 (Z.ltb_lt _ _)) by lia.
Qed.

Lemma execute_holder ttl n h k w k' w' :
  0 < ttl → execute ttl n h k w = Some (k', w') →
  redis_get n k' = redis_get n k ∨ (redis_get n k = None ∧ redis_get n k' = Some h).
Proof.
  intros Ht He. destruct (redis_get n k) as [v|] eqn:Hk.
  { left. by eapply execute_keeps. }
  pose proof (set_holder ttl n h k Ht) as [Hs _]. pose proof (renew_spec ttl n h k Ht) as [Hr _].
  rewrite Hk in Hs, Hr. destruct w as [[]|[]|[]|[]|[]]; cbn in He; try done.
  - destruct (setLeaderIfNotExists ttl n h k); injection He as <- <-. by right.
  - destruct (tryRenewLeaderTtl ttl n h k); injection He as <- <-. by left.
  - destruct (setLeaderIfNotExists ttl n h k); injection He as <- <-. by right.
  - injection He as <- <-. by left.
  - destruct (setLeaderIfNotExists ttl n h k); injection He as <- <-. by right.
Qed.

Lemma set_answer (h : string) (o : option string) :
  o ≠ Some h → ∃ k, Some (default h o) = Some k ∧ (bool_decide (o = None) = true ↔ k = h).
Proof.
  intros Ho. exists (default h o). split; [done|]. rewrite bool_decide_eq_true.
  destruct o as [v|]; cbn; [|done]. split; [done|]. intros ->. done.
Qed.

Lemma fresh_execute ttl n h k w k' w' m :
  0 < ttl → pending m = Some w → fresh h (redis_get n k) m → execute ttl n h k w = Some (k', w') →
  fresh h (redis_get n k') (with_pending m w').
Proof.
  intros Ht Hw Hf He. pose proof (set_holder ttl n h k Ht) as [Hs Hb].
  pose proof (renew_spec ttl n h k Ht) as [Hg Hr]. unfold fresh in *. rewrite Hw in Hf. cbn.
  destruct w as [[]|[]|[]|[]|[]]; cbn in He; try done.
  - destruct (tryRenewLeaderTtl ttl n h k); injection He as <- <-. cbn in *. subst. rewrite Hg.
    destruct (redis_get n k) as [v|]; [|done]. destruct (decide (v = h)); naive_solver.
  - destruct (setLeaderIfNotExists ttl n h k); injection He as <- <-. cbn in *. subst. rewrite Hs.
    by apply set_answer.
  - injection He as <- <-. by destruct (redis_get n k).
  - destruct (setLeaderIfNotExists ttl n h k); injection He as <- <-. cbn in *. subst. rewrite Hs.
    by apply set_answer.
Qed.

Lemma fresh_done h o m b k :
  o = Some k → (isLeader m = true ↔ k = h) → fresh h o (end_check m b).
Proof. intros -> Hk. by exists k. Qed.

Lemma fresh_resume h o m m' :
  h ≠ "" → main_inv m → destroyed m = false → fresh h o m → resume h m = Some m' → fresh h o m'.
Proof.
  intros Hne Hm Hd Hf Hr. pose proof (main_fits m Hm) as Hfit. unfold await_fits in Hfit.
  unfold resume in Hr. unfold fresh in Hf.
  destruct (pending m) as [[[|r]|[|r]|[|r]|[|r]|[|r]]|] eqn:Hp; try done; injection Hr as <-; destruct Hfit as [_ Hl];
    unfold after_check, checkAreWeStillLeader, reclaim, checkCanBecomeLeader, claim, done_after,
      takeOverAsLeader, stepDownToFollower, send; rewrite ?Hd, ?Hl.
  - destruct r as [[|v|]|]; [done|destruct Hf as (k & -> & Hk)| |done].
    + by apply fresh_done with k.
    + by apply fresh_done with h.
  - destruct r as [[]|]; [..|done]; destruct Hf as (k & -> & Hk); apply fresh_done with k; naive_solver.
  - destruct r as [[l|]|]; [|done..].
    destruct (decide (l = "")) as [->|Hl']; [rewrite bool_decide_true by done|rewrite bool_decide_false by done].
    + unfold fresh; cbn. congruence.
    + destruct (decide (l = h)) as [->|Hlh]; [rewrite bool_decide_true by done|rewrite bool_decide_false by done].
      * by apply fresh_done with h.
      * apply fresh_done with l; [done|]. cbn. by rewrite Hl.
  - destruct r as [[]|]; [..|done]; destruct Hf as (k & -> & Hk); apply fresh_done with k; naive_solver.
Qed.

(** A process that begins a check knows nothing yet. *)
Lemma begin_fresh h o m : destroyed m = false → leaderCheckInProgress m = false → fresh h o (checkLeader m).
Proof.
  intros Hd Hi. unfold checkLeader. rewrite Hi. case_match; unfold fresh, send; cbn; by rewrite Hd.
Qed.

Record calm_inv (cl : Cluster) : Prop := {
  calm_main h m : mains cl !! h = Some m → main_inv m ∧ destroyed m = false ∧ h ≠ "";
  calm_holder k : holder cl = Some k → is_Some (mains cl !! k);
}.

(** What a calm step does to the processes and the key. *)
Lemma calm_moved ttl cl e cl' :
  0 < ttl → calm_inv cl → calm cl e → moved ttl cl e cl' →
  (mains cl' = mains cl ∧ holder cl' = holder cl) ∨
  ∃ h m m', mains cl !! h = Some m ∧ mains cl' = <[h := m']> (mains cl) ∧ main_step h m m' ∧
    destroyed m' = destroyed m ∧ down m' = down m ∧
    (holder cl' = holder cl ∨ (holder cl = None ∧ holder cl' = Some h)) ∧
    (fresh h (holder cl) m → fresh h (holder cl') m').
Proof.
  intros Ht Hi Hc Hmv.
  destruct Hmv as [|h m Hm Hint|h m w k w' Hm Hw He| | |h m m' Hm Hr| | | | | |d Hd]; try done; cbn in *;
    destruct_and? Hc; [right; exists h, m; eexists; split; [done|]; split; [done|]..|by left].
  - split_and!; [by apply step_interval|by unfold checkLeader; repeat case_match..|by left|].
    destruct (calm_main cl Hi h m Hm) as (Hinv & Hd & _). unfold holder; cbn.
    destruct (leaderCheckInProgress m) eqn:Hip; [unfold checkLeader; by rewrite Hip|].
    intros _. by apply begin_fresh.
  - split_and!; [by eapply execute_same|done..|by eapply execute_holder|]. intros Hf.
    by eapply fresh_execute.
  - destruct (calm_main cl Hi h m Hm) as (Hinv & Hd & Hne).
    split_and!; [by apply step_resume| | |by left|intros Hf; by eapply fresh_resume];
    unfold resume in Hr; destruct (pending m) as [[[|r]|[|r]|[|r]|[|r]|[|r]]|]; try done; injection Hr as <-;
    unfold after_init, init_resume, after_check, checkAreWeStillLeader, reclaim,
      checkCanBecomeLeader, claim, done_after, takeOverAsLeader, stepDownToFollower;
    by repeat (case_match; simplify_eq/=).
Qed.

Lemma calm_step ttl cl e cl' :
  0 < ttl → calm_inv cl → calm cl e → cluster_next ttl cl e = Some cl' →
  calm_inv cl' ∧ dom (mains cl') = dom (mains cl) ∧
  ∀ h m, mains cl !! h = Some m → fresh h (holder cl) m →
    ∃ m', mains cl' !! h = Some m' ∧ fresh h (holder cl') m'.
Proof.
  intros Ht Hi Hc Hn%next_moved. destruct (calm_moved _ _ _ _ Ht Hi Hc Hn)
    as [[Hms Hh]|(h & m & m' & Hm & Hms & Hs & Hd & _ & Hh & Hf)].
  - rewrite Hms, Hh. split_and!; [|done|eauto]. constructor; rewrite ?Hms, ?Hh; apply Hi.
  - rewrite Hms. split_and!.
    + destruct (calm_main cl Hi h m Hm) as (Hinv & Hdm & Hne). constructor; rewrite Hms.
      * intros h' m'' [[<- <-]|[_ Hlk]]%lookup_insert_Some; [|by apply (calm_main cl Hi)].
        split_and!; [by eapply main_step_inv|by rewrite Hd|done].
      * intros k Hk. apply lookup_insert_is_Some. destruct (decide (h = k)) as [->|Hkh]; [by left|right].
        split; [done|]. apply (calm_holder cl Hi). destruct Hh as [Hh|[_ Hh]]; congruence.
    + apply dom_insert_lookup_L. by exists m.
    + intros h' m'' Hm'' Hfr. destruct (decide (h = h')) as [->|Hne].
      * rewrite Hm in Hm''. injection Hm'' as <-. rewrite lookup_insert_eq. eauto.
      * rewrite lookup_insert_ne by done. exists m''. split; [done|]. by eapply fresh_other.
Qed.

Lemma calm_run_inv ttl cl es cl' :
  0 < ttl → calm_inv cl → run_within calm ttl cl es → cluster_run ttl cl es = Some cl' →
  calm_inv cl' ∧ dom (mains cl') = dom (mains cl) ∧
  ∀ h m, mains cl !! h = Some m → fresh h (holder cl) m →
    ∃ m', mains cl' !! h = Some m' ∧ fresh h (holder cl') m'.
Proof.
  intros Ht. revert cl. induction es as [|e es IH]; intros cl Hi; cbn; [intros _ [= <-]; eauto|].
  destruct (cluster_next ttl cl e) as [cl1|] eqn:Hn; [|done]; cbn. intros [Hc Hcs] Hrun.
  destruct (calm_step _ _ _ _ Ht Hi Hc Hn) as (Hi1 & Hd1 & Hf1).
  destruct (IH cl1 Hi1 Hcs Hrun) as (Hi2 & Hd2 & Hf2). split_and!; [done|congruence|].
  intros h m Hm Hf. destruct (Hf1 h m Hm Hf) as (m1 & Hm1 & Hfr1). eauto.
Qed.

Lemma within_app P ttl cl es1 es2 cl1 :
  run_within P ttl cl (es1 ++ es2) → cluster_run ttl cl es1 = Some cl1 →
  run_within P ttl cl es1 ∧ run_within P ttl cl1 es2.
Proof.
  revert cl. induction es1 as [|e es1 IH]; intros cl; cbn; [by intros ? [= <-]|].
  destruct (cluster_next ttl cl e) as [cl2|]; [|done]; cbn. intros [? ?] Hrun.
  destruct (IH cl2) as [? ?]; done.
Qed.

Lemma begun_fresh ttl cl es cl' h :
  0 < ttl → calm_inv cl → run_within calm ttl cl es → cluster_run ttl cl es = Some cl' →
  checked ttl cl es h → ∃ m, mains cl' !! h = Some m ∧ fresh h (holder cl') m.
Proof.
  intros Ht Hi Hc Hrun (es1 & es2 & cl1 & m & -> & Hrun1 & Hm & Hidle).
  destruct (within_app _ _ _ _ _ _ Hc Hrun1) as [Hc1 Hc2]. rewrite run_app, Hrun1 in Hrun. cbn in Hrun.
  destruct (calm_run_inv _ _ _ _ Ht Hi Hc1 Hrun1) as (Hi1 & _ & _).
  cbn in Hc2, Hrun. destruct (cluster_next ttl cl1 (Interval h)) as [cl2|] eqn:Hn; [|done]. cbn in Hrun.
  destruct Hc2 as [_ Hc2].
  destruct (calm_step _ _ (Interval h) _ Ht Hi1 I Hn) as (Hi2 & _ & _).
  destruct (calm_run_inv _ _ _ _ Ht Hi2 Hc2 Hrun) as (_ & _ & Hf). apply (Hf h (checkLeader m)).
  - unfold cluster_next, with_main in Hn. rewrite Hm in Hn; cbn in Hn. destruct (leaderCheckInterval m); [|done].
    injection Hn as <-. cbn. by rewrite lookup_insert_eq.
  - destruct (calm_main _ Hi1 h m Hm) as (_ & Hd & _). by apply begin_fresh.
Qed.

(** A client is disconnected by [shutdown] only. *)
Definition ended_down (m : MultiMainSetup) : Prop := clearing_down m ∧ (destroyed m = true → down m = true).

Lemma ended_down_step h m m' : ended_down m → main_step h m m' → ended_down m'.
Proof.
  intros [Hc Hd] Hs. split; [by eapply clearing_down_step|].
  destruct Hs as [Hi|w w' Hw Hs|m' Hr|r Hcl| |Hcl]; cbn; try done.
  - unfold checkLeader. by repeat case_match.
  - assert (destroyed m' = destroyed m ∧ down m' = down m) as [-> ->]; [|done].
    unfold resume in Hr. destruct (pending m) as [[[|r]|[|r]|[|r]|[|r]|[|r]]|]; try done; injection Hr as <-;
    unfold after_init, init_resume, after_check, checkAreWeStillLeader, reclaim,
      checkCanBecomeLeader, claim, done_after, takeOverAsLeader, stepDownToFollower;
    by repeat (case_match; simplify_eq/=).
  - unfold shutdown. by case_match.
  - by intros _; apply Hc.
Qed.

Lemma run_named ttl cl es cl' h :
  (∀ h, is_Some (mains cl !! h) → h ≠ "") → cluster_run ttl cl es = Some cl' → is_Some (mains cl' !! h) → h ≠ "".
Proof.
  revert cl. induction es as [|e es IH]; intros cl Hcl; cbn; [intros [= <-]; apply Hcl|].
  destruct (cluster_next ttl cl e) as [cl1|] eqn:Hn; [|done]; cbn. apply next_moved in Hn.
  intros Hrun. apply (IH cl1); [|done].
  intros h' Hh'. destruct Hn; cbn in Hh';
    try (apply lookup_insert_is_Some in Hh' as [<-|[_ ?]]; [|by apply Hcl]); try done; try (by apply Hcl);
    try (apply Hcl; by eexists).
  destruct Hh' as [? [_ ?]%lookup_delete_Some]. apply Hcl. by eexists.
Qed.

Lemma reached_calm ttl es cl :
  cluster_run ttl empty_cluster es = Some cl → (∀ h m, mains cl !! h = Some m → down m = false) →
  (∀ k, holder cl = Some k → is_Some (mains cl !! k)) → calm_inv cl.
Proof.
  intros Hrun Hdown Hk. constructor; [|done]. intros h m Hm.
  assert (∀ h m, mains empty_cluster !! h = Some m → False) as Hno.
  { intros h' m'. cbn. by rewrite lookup_empty. }
  split_and!.
  - refine (run_mains main_inv ttl empty_cluster es cl new_main_inv main_step_inv _ Hrun h m Hm).
    intros h' m' []%Hno.
  - assert (ended_down (init new_main)) as Hnew by (split; [by intros []|done]).
    assert (ended_down m) as [_ Hd].
    + refine (run_mains ended_down ttl empty_cluster es cl Hnew ended_down_step _ Hrun h m Hm). intros h' m' []%Hno.
    + specialize (Hdown h m Hm). destruct (destroyed m); [|done]. by rewrite Hd in Hdown.
  - apply (run_named ttl empty_cluster es cl); [|done|by exists m]. intros h' [m' []%Hno].
Qed.

(** Whatever happened before, even with several leaders or none: once no process starts
    or ends, commands succeed, and the key does not expire and is not that of a process
    that is gone, then as soon as every process has made a whole check, exactly one
    leads, the one that holds the key. *)
Theorem round_elects_leader (ttl : Z) (es0 es : list ClusterEvent) (cl0 cl : Cluster) :
  0 < ttl → cluster_run ttl empty_cluster es0 = Some cl0 → mains cl0 ≠ ∅ →
  (∀ h m, mains cl0 !! h = Some m → down m = false) →
  (∀ k, holder cl0 = Some k → is_Some (mains cl0 !! k)) →
  run_within calm ttl cl0 es → cluster_run ttl cl0 es = Some cl →
  (∀ h, is_Some (mains cl0 !! h) → checked ttl cl0 es h) →
  (∀ h m, mains cl !! h = Some m → pending m = None) →
  ∃ k, holder cl = Some k ∧ is_Some (mains cl !! k) ∧
    ∀ h m, mains cl !! h = Some m → (isLeader m = true ↔ k = h).
Proof.
  intros Ht Hrun0 Hne Hdown Hk Hc Hrun Hch Hidle.
  pose proof (reached_calm _ _ _ Hrun0 Hdown Hk) as Hi.
  destruct (calm_run_inv _ _ _ _ Ht Hi Hc Hrun) as (Hi' & Hdom & _).
  assert (Hall : ∀ h m, mains cl !! h = Some m → ∃ k, holder cl = Some k ∧ (isLeader m = true ↔ k = h)).
  { intros h m Hm. destruct (begun_fresh _ _ _ _ h Ht Hi Hc Hrun) as (m' & Hm' & Hf).
    - apply Hch. apply elem_of_dom. rewrite <- Hdom. apply elem_of_dom. by exists m.
    - rewrite Hm in Hm'. injection Hm' as <-. unfold fresh in Hf. by rewrite (Hidle h m Hm) in Hf. }
  destruct (map_choose (mains cl)) as (h & m & Hm).
  { intros He. apply Hne. apply dom_empty_iff_L. rewrite <- Hdom, He. apply dom_empty_L. }
  destruct (Hall h m Hm) as (k & Hhold & _). exists k. split_and!; [done|by apply (calm_holder cl Hi')|].
  intros h' m' Hm'. destruct (Hall h' m' Hm') as (k' & Hk' & Hiff). rewrite Hhold in Hk'. by injection Hk' as <-.
Qed.

(** * Concrete runs *)

(** Two processes start; the leader renews, then crashes; its key expires and the other leads. *)
Definition demo_succession : list ClusterEvent :=
  [Start "main-a"; Execute "main-a"; Resume "main-a"; Start "main-b"; Execute "main-b"; Resume "main-b"; Tick 4;
   Interval "main-a"; Execute "main-a"; Resume "main-a"; Tick 7; Crash "main-a"; Tick 5;
   Interval "main-b"; Execute "main-b"; Resume "main-b"; Execute "main-b"; Resume "main-b"].

Definition demo_leads (es : list ClusterEvent) (h : string) : option bool :=
  cl ← cluster_run 10 empty_cluster es; m ← mains cl !! h; Some (isLeader m && negb (down m)).

Lemma demo_leads_spec es h :
  demo_leads es h = Some true →
  ∃ cl m, cluster_run 10 empty_cluster es = Some cl ∧ mains cl !! h = Some m ∧ isLeader m = true ∧ down m = false.
Proof.
  unfold demo_leads. destruct (cluster_run 10 empty_cluster es) as [cl|]; [|done]; cbn.
  destruct (mains cl !! h) as [m|] eqn:Hm; [|done]; cbn. intros [= [Hl Hd%negb_true_iff]%andb_true_iff]. eauto 6.
Qed.

Definition prompt_ok (cl : Cluster) (e : ClusterEvent) : bool :=
  match e with
  | Tick d =>
      bool_decide (map_Forall (λ h m, claims h m = true → redis_get (now cl + d) (key cl) = Some h) (mains cl))
  | BreakClear h | Crash h => match mains cl !! h ≫= clearing with Some Sent => false | _ => true end
  | _ => true
  end.

Lemma prompt_ok_spec cl e : prompt_ok cl e = true → prompt cl e.
Proof.
  destruct e as [h|h|h|h|n|h|h|h|h|h|h|d]; cbn; try done.
  - destruct (_ ≫= _) as [[]|]; done.
  - destruct (_ ≫= _) as [[]|]; done.
  - by intros H%bool_decide_eq_true.
Qed.

Fixpoint all_within (P : Cluster → ClusterEvent → bool) (ttl : Z) (cl : Cluster) (es : list ClusterEvent) : bool :=
  match es with
  | [] => true
  | e :: es => P cl e && match cluster_next ttl cl e with Some cl' => all_within P ttl cl' es | None => true end
  end.

Lemma all_within_spec (P : Cluster → ClusterEvent → bool) (Q : Cluster → ClusterEvent → Prop) ttl cl es :
  (∀ cl e, P cl e = true → Q cl e) → all_within P ttl cl es = true → run_within Q ttl cl es.
Proof.
  intros HPQ. revert cl. induction es as [|e es IH]; intros cl; cbn; [done|].
  intros [H1 H2]%andb_true_iff. split; [by apply HPQ|]. destruct (cluster_next ttl cl e); [by apply IH|done].
Qed.

Lemma at_most_one_leader_witness :
  ∃ cl m, cluster_run 10 empty_cluster demo_succession = Some cl ∧ mains cl !! "main-b" = Some m ∧
    isLeader m = true ∧ down m = false ∧ ∀ h m', mains cl !! h = Some m' → isLeader m' = true → down m' = false → h = "main-b".
Proof.
  destruct (demo_leads_spec demo_succession "main-b") as (cl & m & Hrun & Hm & Hl & Hd); [by vm_compute|].
  assert (run_within prompt 10 empty_cluster demo_succession) as Hp
    by (apply (all_within_spec prompt_ok); [apply prompt_ok_spec|by vm_compute]).
  refine (ex_intro _ cl (ex_intro _ m (conj Hrun (conj Hm (conj Hl (conj Hd _)))))). intros h m' Hm' Hl' Hd'.
  exact (at_most_one_leader 10 demo_succession cl h "main-b" m' m eq_refl Hrun Hp Hm' Hm Hl' Hl Hd' Hd).
Defined.

Lemma leadership_events_alternate_witness :
  ∃ cl m, cluster_run 10 empty_cluster demo_succession = Some cl ∧ mains cl !! "main-b" = Some m ∧ failed m = false.
Proof.
  destruct (demo_leads_spec demo_succession "main-b") as (cl & m & Hrun & Hm & _ & _); [by vm_compute|].
  exact (ex_intro _ cl (ex_intro _ m (conj Hrun (conj Hm
    (proj1 (leadership_events_alternate 10 demo_succession cl "main-b" m Hrun Hm)))))).
Defined.

(** The key of a leader that is cut off expires, another process leads, and both believe
    they lead, until the first completes a check. *)
Definition demo_cut_off : list ClusterEvent :=
  [Start "main-a"; Execute "main-a"; Resume "main-a"; Start "main-b"; Execute "main-b"; Resume "main-b"; Tick 4;
   Interval "main-a"; Break "main-a"; Resume "main-a"; Tick 7;
   Interval "main-b"; Execute "main-b"; Resume "main-b"; Execute "main-b"; Resume "main-b"].

(** A process that shuts down after its key expired deletes the key of the process that
    leads by then, and a third one takes over: two running processes lead although no
    key expired meanwhile and no command failed. *)
Theorem shutdown_deletes_successor :
  let es := demo_cut_off ++ [Start "main-c"; Execute "main-c"; Resume "main-c"; CallShutdown "main-a"; ExecuteClear "main-a";
              ResumeShutdown "main-a"; Interval "main-c"; Execute "main-c"; Resume "main-c"; Execute "main-c"; Resume "main-c"] in
  demo_leads es "main-a" = Some false ∧ demo_leads es "main-b" = Some true ∧ demo_leads es "main-c" = Some true.
Proof. by vm_compute. Qed.

Fixpoint checked_ok (ttl : Z) (cl : Cluster) (es : list ClusterEvent) (h : string) : bool :=
  match es with
  | [] => false
  | e :: es =>
      (match e with Interval h' => bool_decide (h' = h) | _ => false end &&
       match mains cl !! h with Some m => negb (leaderCheckInProgress m) | None => false end) ||
      match cluster_next ttl cl e with Some cl' => checked_ok ttl cl' es h | None => false end
  end.

Lemma checked_ok_spec ttl cl es h : checked_ok ttl cl es h = true → checked ttl cl es h.
Proof.
  revert cl. induction es as [|e es IH]; intros cl; cbn; [done|]. intros [H|H]%orb_true_iff.
  - apply andb_true_iff in H as [He Hm]. destruct e as [|h'| | | | | | | | | |]; try done.
    apply bool_decide_eq_true in He. subst h'.
    destruct (mains cl !! h) as [m|] eqn:Hlk; [|done]. apply negb_true_iff in Hm. by exists [], es, cl, m.
  - destruct (cluster_next ttl cl e) as [cl'|] eqn:Hn; [|done].
    destruct (IH cl' H) as (es1 & es2 & cl1 & m & -> & Hrun & Hm & Hi).
    exists (e :: es1), es2, cl1, m. split_and!; try done. cbn. by rewrite Hn.
Qed.

Definition calm_ok (cl : Cluster) (e : ClusterEvent) : bool :=
  match e with
  | Interval _ | Execute _ | Resume _ => true
  | Tick d => bool_decide (redis_get (now cl + d) (key cl) = holder cl)
  | _ => false
  end.

Lemma calm_ok_spec cl e : calm_ok cl e = true → calm cl e.
Proof. by destruct e; cbn; try done; intros H%bool_decide_eq_true. Qed.

(** What a concrete run needs, tested. *)
Definition round_ok (ttl : Z) (cl0 : Cluster) (es : list ClusterEvent) : bool :=
  bool_decide (mains cl0 ≠ ∅) &&
  bool_decide (map_Forall (λ _ m, down m = false) (mains cl0)) &&
  match holder cl0 with Some k => bool_decide (is_Some (mains cl0 !! k)) | None => true end &&
  all_within calm_ok ttl cl0 es &&
  bool_decide (map_Forall (λ h _, checked_ok ttl cl0 es h = true) (mains cl0)) &&
  match cluster_run ttl cl0 es with
  | Some cl => forallb (λ p, match pending p.2 with None => true | _ => false end) (map_to_list (mains cl))
  | None => false
  end.

Definition demo_round : list ClusterEvent :=
  [Interval "main-a"; Interval "main-b"; Execute "main-b"; Execute "main-a"; Tick 1; Resume "main-a"; Resume "main-b"].

Lemma demo_round_ok :
  ∃ cl0 cl, cluster_run 10 empty_cluster demo_cut_off = Some cl0 ∧ cluster_run 10 cl0 demo_round = Some cl ∧
    round_ok 10 cl0 demo_round = true.
Proof.
  assert (match cluster_run 10 empty_cluster demo_cut_off with
          | Some cl0 => round_ok 10 cl0 demo_round | None => false end = true) as H by (by vm_compute).
  destruct (cluster_run 10 empty_cluster demo_cut_off) as [cl0|] eqn:H0; [|done].
  pose proof H as H1. unfold round_ok in H1. apply andb_true_iff in H1 as [_ H1].
  destruct (cluster_run 10 cl0 demo_round) as [cl|] eqn:H2; [|done]. exact (ex_intro _ cl0 (ex_intro _ cl (conj eq_refl (conj H2 H)))).
Qed.

Lemma round_elects_leader_witness :
  ∃ cl0 cl k, cluster_run 10 empty_cluster demo_cut_off = Some cl0 ∧ cluster_run 10 cl0 demo_round = Some cl ∧
    ∀ h m, mains cl !! h = Some m → (isLeader m = true ↔ k = h).
Proof.
  destruct demo_round_ok as (cl0 & cl & H0 & H1 & Hok). unfold round_ok in Hok. rewrite H1 in Hok.
  rewrite !andb_true_iff, !bool_decide_eq_true in Hok. destruct Hok as [[[[[Hne Hd] Hh] Hc] Hch] Hp].
  destruct (round_elects_leader 10 demo_cut_off demo_round cl0 cl) as (k & _ & _ & Hk).
  - lia.
  - exact H0.
  - exact Hne.
  - exact Hd.
  - intros k Hk. rewrite Hk in Hh. by apply bool_decide_eq_true in Hh.
  - exact (all_within_spec calm_ok calm 10 cl0 demo_round calm_ok_spec Hc).
  - exact H1.
  - intros h [m Hm]. exact (checked_ok_spec _ _ _ _ (Hch h m Hm)).
  - intros h m Hm. rewrite forallb_forall in Hp. specialize (Hp (h, m)). cbn in Hp.
    destruct (pending m); [|done]. discriminate Hp. apply list_elem_of_In, elem_of_map_to_list, Hm.
  - exact (ex_intro _ cl0 (ex_intro _ cl (ex_intro _ k (conj H0 (conj H1 Hk))))).
Defined.
