(* ===== verification/WaitTracker.v ===== *)
(** WaitTracker: executions that wait until a time are resumed.

    packages/cli/src/wait-tracker.ts.  The tracker asks the database every minute for the
    executions that are due within 70 seconds and sets a timer for each.  The state has
    the armed timers, the queries under way, the waiting executions of the database and
    the clock; calls, timers and the two halves of a query are events.  What a resumption
    does is the second part, over a world of the caller's.  The tracker of the first part is
    driven by its own timers and by [startTracking] and [stopExecution]; a resumption that
    another execution asks for is in the second part only. *)

From Stdlib Require Import ZArith Lia.
From stdpp Require Import prelude list strings.
From S2P Require Import Prelude.

#[local] Open Scope Z_scope.

Inductive Callback := PollTimer | StartTimer (executionId : string).

Record Timer := mkTimer {
  deadline : Z;
  callback : Callback;
}.

(** A query of the database, and its answer once it was executed. *)
Record Query := mkQuery {
  issued : Z;
  answer : option (list (string * Z));
}.

(** [db] are the executions with status [waiting] and a time to wait for, in the order of
    that time; [starts] logs the calls of [startExecution] by timers. *)
Record WaitTracker := mkTracker {
  now : Z;
  waitingExecutions : jmap string nat;
  mainTimer : option nat;
  timers : jmap nat Timer;
  nextTimer : nat;
  queries : list Query;
  db : jmap string Z;
  starts : list (string * Z);
}.

(** A delay below one, or above what fits in 31 bits, is one millisecond. *)
Definition timeout_delay (delay : Z) : Z := if (1 <=? delay) && (delay <=? 2147483647) then delay else 1.

Definition setTimer (t : WaitTracker) (delay : Z) (c : Callback) : WaitTracker :=
  mkTracker (now t) (waitingExecutions t) (mainTimer t)
    (jm_set (timers t) (nextTimer t) (mkTimer (now t + timeout_delay delay) c)) (S (nextTimer t)) (queries t) (db t)
    (starts t).

Definition clearTimer (t : WaitTracker) (timer : nat) : WaitTracker :=
  mkTracker (now t) (waitingExecutions t) (mainTimer t) (jm_del (timers t) timer) (nextTimer t) (queries t) (db t)
    (starts t).

Definition with_waiting (t : WaitTracker) (w : jmap string nat) : WaitTracker :=
  mkTracker (now t) w (mainTimer t) (timers t) (nextTimer t) (queries t) (db t) (starts t).

Definition has (t : WaitTracker) (executionId : string) : bool := jm_has (waitingExecutions t) executionId.

(** [getWaitingExecutions] up to its await: the query asks for the next 70 seconds. *)
Definition getWaitingExecutions_call (t : WaitTracker) : WaitTracker :=
  mkTracker (now t) (waitingExecutions t) (mainTimer t) (timers t) (nextTimer t) (queries t ++ [mkQuery (now t) None])
    (db t) (starts t).

Definition getWaitingExecutions_query (t : WaitTracker) (q : Query) : list (string * Z) :=
  filter (λ p, p.2 ≤ issued q + 70000) (db t).

(** A timer for an execution that has none. *)
Definition track (t : WaitTracker) (execution : string * Z) : WaitTracker :=
  let '(executionId, waitTill) := execution in
  match jm_get (waitingExecutions t) executionId with
  | Some _ => t
  | None =>
      let triggerTime := waitTill - now t in
      with_waiting (setTimer t triggerTime (StartTimer executionId))
        (jm_set (waitingExecutions t) executionId (nextTimer t))
  end.

Definition getWaitingExecutions_resume (t : WaitTracker) (executions : list (string * Z)) : WaitTracker :=
  foldl track t executions.

Definition startTracking (t : WaitTracker) : WaitTracker :=
  let t' := setTimer t 60000 PollTimer in
  getWaitingExecutions_call
    (mkTracker (now t') (waitingExecutions t') (Some (nextTimer t)) (timers t') (nextTimer t') (queries t') (db t')
       (starts t')).

Definition init (t : WaitTracker) (isLeader : bool) : WaitTracker := if isLeader then startTracking t else t.

Definition stopExecution (t : WaitTracker) (executionId : string) : WaitTracker :=
  match jm_get (waitingExecutions t) executionId with
  | None => t
  | Some timer => with_waiting (clearTimer t timer) (jm_del (waitingExecutions t) executionId)
  end.

(** The timers are cleared; the executions stay in [waitingExecutions]. *)
Definition stopTracking (t : WaitTracker) : WaitTracker :=
  match mainTimer t with
  | None => t
  | Some timer => foldl (λ t p, clearTimer t p.2) (clearTimer t timer) (waitingExecutions t)
  end.

(** [startExecution] up to its first await. *)
Definition startExecution_call (t : WaitTracker) (executionId : string) : WaitTracker :=
  mkTracker (now t) (jm_del (waitingExecutions t) executionId) (mainTimer t) (timers t) (nextTimer t) (queries t) (db t)
    (starts t ++ [(executionId, now t)]).

Definition fire (t : WaitTracker) (timer : nat) (c : Callback) : WaitTracker :=
  match c with
  | PollTimer =>
      getWaitingExecutions_call
        (mkTracker (now t) (waitingExecutions t) (mainTimer t) (jm_set (timers t) timer (mkTimer (now t + 60000) PollTimer))
           (nextTimer t) (queries t) (db t) (starts t))
  | StartTimer executionId => startExecution_call (clearTimer t timer) executionId
  end.

Inductive TrackerEvent :=
| Init (isLeader : bool)
| LeaderTakeover
| LeaderStepdown
| Stop (executionId : string)
| Store (executionId : string) (waitTill : Z)
| Remove (executionId : string)
| QueryExecutes (n : nat)
| QueryAnswers (n : nat)
| TimerFires (timer : nat)
| Tick (d : Z).

Definition with_queries (t : WaitTracker) (qs : list Query) : WaitTracker :=
  mkTracker (now t) (waitingExecutions t) (mainTimer t) (timers t) (nextTimer t) qs (db t) (starts t).

Definition with_db (t : WaitTracker) (d : jmap string Z) : WaitTracker :=
  mkTracker (now t) (waitingExecutions t) (mainTimer t) (timers t) (nextTimer t) (queries t) d (starts t).

(** The database sorts what it answers by the time to wait for, which only decides the
    order of timers; [None]: the event cannot happen. *)
Definition tracker_next (t : WaitTracker) (e : TrackerEvent) : option WaitTracker :=
  match e with
  | Init isLeader => Some (init t isLeader)
  | LeaderTakeover => Some (startTracking t)
  | LeaderStepdown => Some (stopTracking t)
  | Stop executionId => Some (stopExecution t executionId)
  | Store executionId waitTill => Some (with_db t (jm_set (db t) executionId waitTill))
  | Remove executionId => Some (with_db t (jm_del (db t) executionId))
  | QueryExecutes n =>
      q ← queries t !! n;
      match answer q with
      | Some _ => None
      | None => Some (with_queries t (<[n := mkQuery (issued q) (Some (getWaitingExecutions_query t q))]> (queries t)))
      end
  | QueryAnswers n =>
      q ← queries t !! n; executions ← answer q;
      Some (getWaitingExecutions_resume (with_queries t (delete n (queries t))) executions)
  | TimerFires timer =>
      x ← jm_get (timers t) timer;
      if deadline x <=? now t then Some (fire t timer (callback x)) else None
  | Tick d =>
      if 0 <? d then
        Some (mkTracker (now t + d) (waitingExecutions t) (mainTimer t) (timers t) (nextTimer t) (queries t) (db t) (starts t))
      else None
  end.

Definition new_tracker : WaitTracker := mkTracker 0 [] None [] 0 [] [] [].

Fixpoint tracker_run (t : WaitTracker) (es : list TrackerEvent) : option WaitTracker :=
  match es with
  | [] => Some t
  | e :: es => t ← tracker_next t e; tracker_run t es
  end.

(** * Resuming an execution *)

Record RelatedExecution := mkRelated {
  relatedId : string;
  shouldResume : option bool;
}.

(** What [startExecution] reads of a stored execution; an empty identifier of the
    workflow is [None]. *)
Record FullExecution := mkFull {
  finished : bool;
  workflowId : option string;
  parentExecution : option RelatedExecution;
}.

Inductive ResumeError := UnexpectedError | UserError | ExecutionAlreadyResuming | OtherError.

Inductive RunStatus := StatusWaiting | StatusOther.

Definition isRetryableResumeError (e : ResumeError) : bool :=
  match e with UserError | UnexpectedError => false | _ => true end.

Definition shouldRestartParentExecution (p : option RelatedExecution) : option RelatedExecution :=
  p ← p; match shouldResume p with None | Some true => Some p | Some false => None end.

Section Resume.
Context {W : Type}.

(** A call that changes the world and may fail. *)
Definition action (A : Type) : Type := W → W * result ResumeError A.

Definition ret {A} (a : A) : action A := λ w, (w, Ok a).
Definition throw {A} (e : ResumeError) : action A := λ w, (w, Err e).
Definition andThen {A B} (c : action A) (f : A → action B) : action B :=
  λ w, let '(w, r) := c w in match r with Ok a => f a w | Err e => (w, Err e) end.

(** The database, the project of a workflow, the runner, and the update of a parent by
    the results of its child. *)
Context (findSingleExecution : string → action (option FullExecution))
  (getWorkflowProject : string → action ())
  (workflowRunner_run : FullExecution → string → action ())
  (updateParentExecutionWithChildResults : string → RunStatus → action ()).

(** The result is the parent that is to be resumed when the execution has completed. *)
Definition startExecution (executionId : string) : action (option RelatedExecution) :=
  andThen (findSingleExecution executionId) (λ fullExecutionData,
    match fullExecutionData with
    | None => throw UnexpectedError
    | Some d =>
        if finished d then throw UnexpectedError
        else
          match workflowId d with
          | None => throw UnexpectedError
          | Some workflow =>
              andThen (getWorkflowProject workflow) (λ _ w,
                let '(w, r) := workflowRunner_run d executionId w in
                match r with
                | Err ExecutionAlreadyResuming => (w, Ok None)
                | Err e => (w, Err e)
                | Ok _ => (w, Ok (shouldRestartParentExecution (parentExecution d)))
                end)
          end
    end).

(** The loop of [withRetry], with the delays it sleeps; [None]: out of fuel. *)
Fixpoint retry_loop {A} (fuel : nat) (operation : action A) (maxAttempts attempt : Z) (slept : list Z) (w : W)
    : option (W * result ResumeError A * list Z) :=
  match fuel with
  | O => None
  | S fuel =>
      match operation w with
      | (w, Ok a) => Some (w, Ok a, slept)
      | (w, Err e) =>
          if (maxAttempts <=? attempt) || negb (isRetryableResumeError e) then Some (w, Err e, slept)
          else retry_loop fuel operation maxAttempts (attempt + 1) (slept ++ [100 * 2 ^ (attempt - 1)]) w
      end
  end.

Definition withRetry {A} (operation : action A) (maxAttempts : Z) (w : W) : option (W * result ResumeError A * list Z) :=
  retry_loop (Z.to_nat maxAttempts + 1) operation maxAttempts 1 [] w.

Definition MAX_PARENT_RESUME_ATTEMPTS : Z := 3.

(** Resume the parent with the results of its child: the outcome is whether it was, or
    that an error was logged, and the next parent.  [None]: out of fuel. *)
Inductive ParentOutcome := NotDue | Resumed (next : option RelatedExecution) | Logged (e : ResumeError).

Definition resumeParentExecution (parent : RelatedExecution) (child : result ResumeError (option RunStatus)) (w : W)
    : option (W * ParentOutcome) :=
  match child with
  | Err e => Some (w, Logged e)
  | Ok None | Ok (Some StatusWaiting) => Some (w, NotDue)
  | Ok (Some status) =>
      '(w, r, _) ← withRetry (updateParentExecutionWithChildResults (relatedId parent) status) MAX_PARENT_RESUME_ATTEMPTS w;
      match r with
      | Err e => Some (w, Logged e)
      | Ok _ =>
          '(w, r, _) ← withRetry (startExecution (relatedId parent)) MAX_PARENT_RESUME_ATTEMPTS w;
          Some (w, match r with Ok next => Resumed next | Err e => Logged e end)
      end
  end.

(** The world after [n] calls, whatever they return. *)
Fixpoint after_calls {A} (operation : action A) (n : nat) (w : W) : W :=
  match n with O => w | S n => after_calls operation n (operation w).1 end.

Lemma retry_loop_spec {A} (fuel : nat) (operation : action A) (maxAttempts attempt : Z) (slept : list Z) (w : W) :
  (Z.to_nat (maxAttempts - attempt) < fuel)%nat →
  ∃ n w' r, retry_loop fuel operation maxAttempts attempt slept w =
      Some (w', r, slept ++ ((λ k, 100 * 2 ^ (attempt + Z.of_nat k - 1)) <$> seq 0 n)) ∧
    operation (after_calls operation n w) = (w', r) ∧
    (∀ k, (k < n)%nat → ∃ e, (operation (after_calls operation k w)).2 = Err e ∧ isRetryableResumeError e = true) ∧
    (Z.of_nat n ≤ Z.max 0 (maxAttempts - attempt)) ∧
    match r with Ok _ => True | Err e => isRetryableResumeError e = false ∨ maxAttempts ≤ attempt + Z.of_nat n end.
Proof.
  revert attempt slept w. induction fuel as [|fuel IH]; intros attempt slept w Hf; [lia|]. cbn [retry_loop].
  destruct (operation w) as [w1 [a|e]] eqn:Hop.
  { exists 0%nat, w1, (Ok a). split_and!; [by rewrite app_nil_r|done|lia|lia|done]. }
  destruct (Z.leb_spec maxAttempts attempt) as [Hle|Hlt]; cbn [orb].
  { exists 0%nat, w1, (Err e). split_and!; [by rewrite app_nil_r|done|lia|lia|right; lia]. }
  destruct (isRetryableResumeError e) eqn:Hr; cbn [negb].
  2: { exists 0%nat, w1, (Err e). split_and!; [by rewrite app_nil_r|done|lia|lia|by left]. }
  destruct (IH (attempt + 1) (slept ++ [100 * 2 ^ (attempt - 1)]) w1) as (n & w' & r & Hl & Ho & Hall & Hn & Hend); [lia|].
  exists (S n), w', r. split_and!; [| | |lia|].
  - rewrite Hl, <- app_assoc. do 3 f_equal. cbn. f_equal; [do 2 f_equal; lia|].
    rewrite <- seq_shift, <- list_fmap_compose. apply list_fmap_ext. intros j k _. cbn. do 2 f_equal. lia.
  - cbn. by rewrite Hop.
  - intros [|k] Hk; cbn; rewrite Hop; [by exists e|]. apply Hall. lia.
  - destruct r; [done|]. destruct Hend; [by left|right; lia].
Qed.

(** [withRetry] ends after at most [maxAttempts] calls of the operation, and one at
    least: every call but the last failed with an error that may be retried, the last
    succeeded, or failed for good, or was the last allowed; its result is that of the
    whole, and before the calls it slept 100, 200, 400 and so on milliseconds. *)
Theorem withRetry_attempts {A} (operation : action A) (maxAttempts : Z) (w : W) :
  ∃ n w' r, withRetry operation maxAttempts w =
      Some (w', r, (λ k, 100 * 2 ^ (Z.of_nat k)) <$> seq 0 n) ∧
    operation (after_calls operation n w) = (w', r) ∧
    (∀ k, (k < n)%nat → ∃ e, (operation (after_calls operation k w)).2 = Err e ∧ isRetryableResumeError e = true) ∧
    Z.of_nat n + 1 ≤ Z.max 1 maxAttempts ∧
    match r with Ok _ => True | Err e => isRetryableResumeError e = false ∨ maxAttempts ≤ Z.of_nat n + 1 end.
Proof.
  destruct (retry_loop_spec (Z.to_nat maxAttempts + 1) operation maxAttempts 1 [] w) as (n & w' & r & Hl & Ho & Hall & Hn & He);
    [lia|]. exists n, w', r. split_and!; [|done|done|lia|].
  - unfold withRetry. rewrite Hl. cbn. do 2 f_equal. apply list_fmap_ext. intros j k _. do 2 f_equal. lia.
  - destruct r; [done|]. destruct He; [by left|right; lia].
Qed.

Lemma withRetry_some {A} (operation : action A) (maxAttempts : Z) (w : W) :
  ∃ w' r slept, withRetry operation maxAttempts w = Some (w', r, slept).
Proof.
  destruct (retry_loop_spec (Z.to_nat maxAttempts + 1) operation maxAttempts 1 [] w) as (n & w' & r & Hl & _); [lia|].
  by eexists w', r, _.
Qed.

(** The parent is resumed, or the error is logged: the call itself never fails, and
    nothing is done for a child that waits. *)
Lemma resumeParentExecution_total parent child w :
  ∃ w' o, resumeParentExecution parent child w = Some (w', o) ∧ (child = Ok (Some StatusWaiting) → w' = w ∧ o = NotDue).
Proof.
  unfold resumeParentExecution. destruct child as [[[]|]|e]; [by eexists _, _| |by eexists _, _..].
  destruct (withRetry_some (updateParentExecutionWithChildResults (relatedId parent) StatusOther)
    MAX_PARENT_RESUME_ATTEMPTS w) as (w1 & r1 & s1 & ->). cbn.
  destruct r1 as [a|e]; [|by eexists _, _].
  destruct (withRetry_some (startExecution (relatedId parent)) MAX_PARENT_RESUME_ATTEMPTS w1)
    as (w2 & r2 & s2 & ->). cbn. by eexists _, _.
Qed.
End Resume.

(** * Timers and entries *)

(** A timer that starts an execution is that of its entry, and the timer of an entry, if
    it is armed, starts that execution. *)
Record tracker_inv (t : WaitTracker) : Prop := {
  inv_fresh k x : jm_get (timers t) k = Some x → (k < nextTimer t)%nat;
  inv_entry_fresh i k : jm_get (waitingExecutions t) i = Some k → (k < nextTimer t)%nat;
  inv_start i k x : jm_get (timers t) k = Some x → callback x = StartTimer i → jm_get (waitingExecutions t) i = Some k;
  inv_entry i k x : jm_get (waitingExecutions t) i = Some k → jm_get (timers t) k = Some x → callback x = StartTimer i;
  inv_poll k x : jm_get (timers t) k = Some x → callback x = PollTimer → deadline x ≤ now t + 60000;
  inv_issued q : q ∈ queries t → issued q ≤ now t;
  inv_db : jm_wf (db t);
}.

Lemma timeout_bounds d : 1 ≤ timeout_delay d ∧ (d ≤ timeout_delay d ∨ 2147483647 < d) ∧ timeout_delay d ≤ Z.max d 1.
Proof.
  unfold timeout_delay. destruct (Z.leb_spec 1 d), (Z.leb_spec d 2147483647); cbn; lia.
Qed.

Lemma jm_get_del_Some {K V} `{EqDecision K} (m : jmap K V) k k' v :
  jm_get (jm_del m k) k' = Some v ↔ k' ≠ k ∧ jm_get m k' = Some v.
Proof.
  destruct (decide (k = k')) as [->|Hne].
  - rewrite jm_get_del. split; [done|]. by intros [].
  - rewrite jm_get_del_ne by done. split; [|by intros []]. intros H. split; [congruence|done].
Qed.

Lemma jm_get_set_Some {K V} `{EqDecision K} (m : jmap K V) k k' v v' :
  jm_get (jm_set m k v) k' = Some v' ↔ (k' = k ∧ v' = v) ∨ (k' ≠ k ∧ jm_get m k' = Some v').
Proof.
  destruct (decide (k = k')) as [->|Hne].
  - rewrite jm_get_set. naive_solver.
  - rewrite jm_get_set_ne by done. naive_solver.
Qed.

Lemma clearTimer_inv t k : tracker_inv t → tracker_inv (clearTimer t k).
Proof.
  intros [H1 H2 H3 H4 H5 H6 H7]. constructor; cbn; try done.
  - intros k' x [_ ?]%jm_get_del_Some. by eapply H1.
  - intros i k' x [_ ?]%jm_get_del_Some. by apply H3.
  - intros i k' x Hi [_ ?]%jm_get_del_Some. by eapply H4.
  - intros k' x [_ ?]%jm_get_del_Some. by eapply H5.
Qed.

(** Removing an entry whose timer is not armed. *)
Lemma forget_inv t i :
  tracker_inv t → (∀ k x, jm_get (timers t) k = Some x → callback x ≠ StartTimer i) →
  tracker_inv (with_waiting t (jm_del (waitingExecutions t) i)).
Proof.
  intros [H1 H2 H3 H4 H5 H6 H7] Hno. constructor; cbn; try done.
  - intros i' k [_ ?]%jm_get_del_Some. by eapply H2.
  - intros i' k x Hx Hc. apply jm_get_del_Some. split; [|by eapply H3]. intros ->. by apply (Hno k x Hx).
  - intros i' k x [_ ?]%jm_get_del_Some. by eapply H4.
Qed.

(** Clearing the timer of an entry leaves no timer that starts its execution. *)
Lemma cleared_entry t i k :
  tracker_inv t → jm_get (waitingExecutions t) i = Some k →
  ∀ k' x, jm_get (timers (clearTimer t k)) k' = Some x → callback x ≠ StartTimer i.
Proof.
  intros Ht Hi k' x [Hne Hx]%jm_get_del_Some Hc. pose proof (inv_start t Ht i k' x Hx Hc) as H. congruence.
Qed.

Lemma track_inv t p : tracker_inv t → tracker_inv (track t p).
Proof.
  destruct p as [i w]. intros [H1 H2 H3 H4 H5 H6 H7]. unfold track.
  destruct (jm_get (waitingExecutions t) i) as [k|] eqn:Hi; [done|]. constructor; cbn; try done.
  - intros k x [[-> _]|[_ ?%H1]]%jm_get_set_Some; lia.
  - intros i' k [[-> ->]|[_ ?%H2]]%jm_get_set_Some; lia.
  - intros i' k x [[-> ->]|[Hne Hx]]%jm_get_set_Some Hc; cbn in Hc.
    + injection Hc as ->. by rewrite jm_get_set.
    + pose proof (H3 i' k x Hx Hc) as Hk. rewrite jm_get_set_ne; [done|]. congruence.
  - intros i' k x [[-> ->]|[Hne Hk]]%jm_get_set_Some [[He ->]|[Hne' Hx]]%jm_get_set_Some; cbn; try done.
    + pose proof (H2 i' k Hk). lia.
    + by eapply H4.
  - intros k x [[_ ->]|[_ Hx]]%jm_get_set_Some; [done|]. by eapply H5.
Qed.

Lemma call_inv t : tracker_inv t → tracker_inv (getWaitingExecutions_call t).
Proof.
  intros [H1 H2 H3 H4 H5 H6 H7]. constructor; cbn; try done.
  intros q [?|[->|[]%not_elem_of_nil]%elem_of_cons]%elem_of_app; [by apply H6|cbn; lia].
Qed.

Lemma startTracking_inv t : tracker_inv t → tracker_inv (startTracking t).
Proof.
  intros [H1 H2 H3 H4 H5 H6 H7]. unfold startTracking. apply call_inv. constructor; cbn; try done.
  - intros k x [[-> _]|[_ ?%H1]]%jm_get_set_Some; lia.
  - intros i k ?%H2. lia.
  - intros i k x [[_ ->]|[_ Hx]]%jm_get_set_Some; [done|]. by apply H3.
  - intros i k x Hk [[-> ->]|[_ Hx]]%jm_get_set_Some; [|by eapply H4]. pose proof (H2 i _ Hk). lia.
  - intros k x [[_ ->]|[_ Hx]]%jm_get_set_Some; [cbn; lia|by eapply H5].
Qed.

Lemma fire_inv t k x :
  tracker_inv t → jm_get (timers t) k = Some x → tracker_inv (fire t k (callback x)).
Proof.
  intros Ht Hx. destruct (callback x) as [|i] eqn:Hc; cbn.
  - destruct Ht as [H1 H2 H3 H4 H5 H6 H7]. apply call_inv. constructor; cbn; try done.
    + intros k' x' [[-> _]|[_ ?%H1]]%jm_get_set_Some; [by eapply H1|lia].
    + intros i k' x' [[_ ->]|[_ Hx']]%jm_get_set_Some; [done|]. by apply H3.
    + intros i k' x' Hk [[-> ->]|[_ Hx']]%jm_get_set_Some; [|by eapply H4].
      pose proof (H4 i k x Hk Hx). congruence.
    + intros k' x' [[_ ->]|[_ Hx']]%jm_get_set_Some; [cbn; lia|by eapply H5].
  - pose proof (inv_start t Ht i k x Hx Hc) as Hi.
    destruct (forget_inv (clearTimer t k) i (clearTimer_inv t k Ht) (cleared_entry t i k Ht Hi)).
    by constructor.
Qed.

Lemma foldl_clear_inv t (l : list (string * nat)) : tracker_inv t → tracker_inv (foldl (λ t p, clearTimer t p.2) t l).
Proof. revert t. induction l as [|p l IH]; intros t Ht; [done|]. cbn. by apply IH, clearTimer_inv. Qed.

Lemma next_tracker_inv t e t' : tracker_inv t → tracker_next t e = Some t' → tracker_inv t'.
Proof.
  intros Ht. destruct e as [[]| | |i|i w|i|n|n|k|d]; cbn.
  - intros [= <-]. by apply startTracking_inv.
  - by intros [= <-].
  - intros [= <-]. by apply startTracking_inv.
  - intros [= <-]. unfold stopTracking. destruct (mainTimer t); [|done]. by apply foldl_clear_inv, clearTimer_inv.
  - intros [= <-]. unfold stopExecution. destruct (jm_get (waitingExecutions t) i) as [k|] eqn:Hi; [|done].
    apply (forget_inv (clearTimer t k) i); [by apply clearTimer_inv|by apply cleared_entry].
  - intros [= <-]. destruct Ht. constructor; try done. cbn. by apply jm_wf_set.
  - intros [= <-]. destruct Ht. constructor; try done. cbn. by apply jm_wf_del.
  - destruct (queries t !! n) as [q|] eqn:Hq; [|done]; cbn. destruct (answer q); [done|]. intros [= <-].
    destruct Ht as [? ? ? ? ? H6 ?]. constructor; try done. cbn.
    intros q' (j & Hj)%list_elem_of_lookup. apply list_lookup_insert_Some in Hj as [(_ & <- & _)|[_ Hj]].
    + apply (H6 q). by eapply list_elem_of_lookup_2.
    + apply H6. by eapply list_elem_of_lookup_2.
  - destruct (queries t !! n) as [q|] eqn:Hq; [|done]; cbn. destruct (answer q) as [l|]; [|done]; cbn. intros [= <-].
    apply (foldl_inv track tracker_inv); [intros; by apply track_inv|].
    destruct Ht as [? ? ? ? ? H6 ?]. constructor; try done. cbn. intros q' Hq'. apply H6.
    rewrite delete_take_drop in Hq'. rewrite <- (take_drop_middle (queries t) n q) by done. set_solver.
  - destruct (jm_get (timers t) k) as [x|] eqn:Hx; [|done]; cbn. destruct (deadline x <=? now t); [|done].
    intros [= <-]. by apply fire_inv.
  - destruct (Z.ltb_spec 0 d); [|done]. intros [= <-]. destruct Ht as [? ? ? ? H5 H6 ?]. constructor; try done; cbn.
    + intros k x Hx Hc. specialize (H5 k x Hx Hc). lia.
    + intros q Hq. specialize (H6 q Hq). lia.
Qed.

Lemma new_tracker_inv : tracker_inv new_tracker.
Proof. constructor; cbn; try done; [intros q []%not_elem_of_nil|by constructor]. Qed.

(** * Executions that are forgotten *)

(** An execution has an entry but no timer. *)
Definition forgotten (i : string) (t : WaitTracker) : Prop :=
  jm_get (waitingExecutions t) i ≠ None ∧ ∀ k x, jm_get (timers t) k = Some x → callback x ≠ StartTimer i.

Definition starts_of (i : string) (t : WaitTracker) : list (string * Z) := filter (λ p, p.1 = i) (starts t).

Lemma foldl_clear_timers (l : list (string * nat)) t k x :
  jm_get (timers (foldl (λ t p, clearTimer t p.2) t l)) k = Some x →
  jm_get (timers t) k = Some x ∧ k ∉ l.*2.
Proof.
  revert t. induction l as [|p l IH]; intros t; cbn; [intros H; split; [done|apply not_elem_of_nil]|].
  intros H. destruct (IH _ H) as [[Hne Hx]%jm_get_del_Some Hk]. split; [done|]. by rewrite not_elem_of_cons.
Qed.

Lemma foldl_clear_same (l : list (string * nat)) t :
  let t' := foldl (λ t p, clearTimer t p.2) t l in
  waitingExecutions t' = waitingExecutions t ∧ starts t' = starts t.
Proof. revert t. induction l as [|p l IH]; intros t; cbn; [done|]. destruct (IH (clearTimer t p.2)) as [-> ->]. done. Qed.

Lemma stopTracking_forgets i t :
  tracker_inv t → mainTimer t ≠ None → jm_get (waitingExecutions t) i ≠ None →
  forgotten i (stopTracking t) ∧ starts (stopTracking t) = starts t.
Proof.
  intros Ht Hm Hi. unfold stopTracking. destruct (mainTimer t) as [m|]; [|done].
  destruct (foldl_clear_same (waitingExecutions t) (clearTimer t m)) as [Hw Hs]. split; [|by rewrite Hs].
  split; [by rewrite Hw|]. intros k x [[_ Hx]%jm_get_del_Some Hk]%foldl_clear_timers Hc. apply Hk.
  pose proof (inv_start t Ht i k x Hx Hc) as Hik%jm_get_Some_elem. apply list_elem_of_fmap. by exists (i, k).
Qed.

Lemma track_forgotten i t p : forgotten i t → forgotten i (track t p) ∧ starts (track t p) = starts t.
Proof.
  intros [Hi Hno]. destruct p as [j w]. unfold track. destruct (jm_get (waitingExecutions t) j) eqn:Hj; [done|].
  split; [|done]. split; cbn.
  - rewrite jm_get_set_ne by congruence. done.
  - intros k x [[_ ->]|[_ Hx]]%jm_get_set_Some; cbn; [congruence|by apply (Hno k)].
Qed.

Lemma foldl_track_forgotten i l t : forgotten i t → forgotten i (foldl track t l) ∧ starts (foldl track t l) = starts t.
Proof.
  revert t. induction l as [|p l IH]; intros t Ht; cbn; [done|].
  destruct (track_forgotten i t p Ht) as [H1 <-]. by apply IH.
Qed.

Lemma next_forgotten i t e t' :
  tracker_inv t → forgotten i t → e ≠ Stop i → tracker_next t e = Some t' →
  forgotten i t' ∧ starts_of i t' = starts_of i t.
Proof.
  intros Ht [Hi Hno] Hne. unfold starts_of. destruct e as [[]| | |j|j w|j|n|n|k|d]; cbn.
  - intros [= <-]. split; [|done]. split; [done|]. cbn. intros k x [[_ ->]|[_ Hx]]%jm_get_set_Some; [done|by eapply Hno].
  - by intros [= <-].
  - intros [= <-]. split; [|done]. split; [done|]. cbn. intros k x [[_ ->]|[_ Hx]]%jm_get_set_Some; [done|by eapply Hno].
  - intros [= <-]. destruct (mainTimer t) eqn:Hm; [|unfold stopTracking; by rewrite Hm].
    destruct (stopTracking_forgets i t Ht) as [H ->]; [congruence|done..].
  - intros [= <-]. unfold stopExecution. destruct (jm_get (waitingExecutions t) j) eqn:Hj; [|done]. split; [|done].
    split; cbn; [rewrite jm_get_del_ne by congruence; done|]. intros k x [_ Hx]%jm_get_del_Some. by eapply Hno.
  - by intros [= <-].
  - by intros [= <-].
  - destruct (queries t !! n) as [q|]; [|done]; cbn. destruct (answer q); [done|]. by intros [= <-].
  - destruct (queries t !! n) as [q|]; [|done]; cbn. destruct (answer q) as [l|]; [|done]; cbn. intros [= <-].
    destruct (foldl_track_forgotten i l (with_queries t (delete n (queries t)))) as [H Hs]; [by split|].
    unfold getWaitingExecutions_resume. by rewrite Hs.
  - destruct (jm_get (timers t) k) as [x|] eqn:Hx; [|done]; cbn. destruct (deadline x <=? now t); [|done].
    intros [= <-]. destruct (callback x) as [|j] eqn:Hc; cbn.
    + split; [|done]. split; [done|]. cbn. intros k' x' [[_ ->]|[_ Hx']]%jm_get_set_Some; [done|by eapply Hno].
    + assert (j ≠ i) as Hji by (intros ->; by apply (Hno k x)). split.
      * split; [|cbn; intros k' x' [_ Hx']%jm_get_del_Some; by eapply Hno].
        change (jm_get (jm_del (waitingExecutions t) j) i ≠ None). by rewrite jm_get_del_ne.
      * rewrite filter_app, filter_cons_False by done. by rewrite app_nil_r.
  - destruct (0 <? d); [|done]. by intros [= <-].
Qed.

(** An execution whose timer was set before this process stopped tracking is not resumed
    by it any more, however long it leads again: its entry stays, so that no
    further timer is set. *)
Theorem stepdown_forgets_executions (es0 es : list TrackerEvent) (t t' : WaitTracker) (i : string) :
  tracker_run new_tracker es0 = Some t → mainTimer t ≠ None → has t i = true → Stop i ∉ es →
  tracker_run (stopTracking t) es = Some t' → has t' i = true ∧ starts_of i t' = starts_of i t.
Proof.
  intros Hrun0 Hm Hh Hno Hrun. assert (Hi : tracker_inv t).
  { clear -Hrun0. revert Hrun0. generalize new_tracker_inv. generalize new_tracker.
    induction es0 as [|e es0 IH]; intros t0 H0; cbn; [by intros [= <-]|].
    destruct (tracker_next t0 e) as [t1|] eqn:Hn; [|done]; cbn. apply IH. by eapply next_tracker_inv. }
  assert (jm_get (waitingExecutions t) i ≠ None) as Hi0.
  { unfold has, jm_has in Hh. by destruct (jm_get _ i). }
  destruct (stopTracking_forgets i t Hi Hm Hi0) as [Hf Hs].
  assert (tracker_inv (stopTracking t)) as Hi' by (by apply (next_tracker_inv t LeaderStepdown)).
  assert (forgotten i t' ∧ starts_of i t' = starts_of i (stopTracking t)) as [[Hk _] Hst].
  { clear -Hf Hi' Hno Hrun. revert Hi' Hf Hrun. generalize (stopTracking t).
    induction es as [|e es IH]; intros t0 Hi0 Hf0; cbn; [by intros [= <-]|].
    apply not_elem_of_cons in Hno as [Hne Hno].
    destruct (tracker_next t0 e) as [t1|] eqn:Hn; [|done]; cbn. intros Hrun.
    destruct (next_forgotten i t0 e t1) as [Hf1 <-]; [done..|by apply not_eq_sym in Hne|done|].
    apply IH; [done|by eapply next_tracker_inv|done|done]. }
  split; [|by rewrite Hst; unfold starts_of; rewrite Hs]. unfold has, jm_has. by destruct (jm_get (waitingExecutions t') i).
Qed.

(** * No execution is missed *)

(** Timers fire in time and queries are answered within [latency]. *)
Definition punctual (latency : Z) (t : WaitTracker) (e : TrackerEvent) : Prop :=
  match e with
  | Tick d => Forall (λ p, now t + d ≤ deadline p.2) (timers t) ∧ Forall (λ q, now t + d ≤ issued q + latency) (queries t)
  | _ => True
  end.

Fixpoint run_punctual (latency : Z) (t : WaitTracker) (es : list TrackerEvent) : Prop :=
  match es with
  | [] => True
  | e :: es => punctual latency t e ∧ match tracker_next t e with Some t' => run_punctual latency t' es | None => True end
  end.

(** The process goes on tracking, and the execution [i] goes on waiting. *)
Definition undisturbed (i : string) (e : TrackerEvent) : Prop :=
  match e with
  | LeaderStepdown => False
  | Stop j | Remove j | Store j _ => j ≠ i
  | _ => True
  end.

Definition tracking (t : WaitTracker) : Prop := ∃ k x, jm_get (timers t) k = Some x ∧ callback x = PollTimer.

(** The tracker has no trace of an earlier wait of the execution. *)
Definition unknown (i : string) (t : WaitTracker) : Prop :=
  jm_get (db t) i = None ∧ jm_get (waitingExecutions t) i = None ∧
  Forall (λ q, match answer q with Some l => i ∉ l.*1 | None => True end) (queries t).

Record on_time (latency : Z) (t : WaitTracker) : Prop := {
  on_time_timer k x : jm_get (timers t) k = Some x → now t ≤ deadline x;
  on_time_query q : q ∈ queries t → now t ≤ issued q + latency;
}.

Lemma track_other t p :
  let t' := track t p in
  now t' = now t ∧ queries t' = queries t ∧ db t' = db t ∧ starts t' = starts t.
Proof. destruct p as [j w]. unfold track. by destruct (jm_get (waitingExecutions t) j). Qed.

Lemma foldl_track_other l t :
  let t' := foldl track t l in
  now t' = now t ∧ queries t' = queries t ∧ db t' = db t ∧ starts t' = starts t.
Proof.
  revert t. induction l as [|p l IH]; intros t; cbn; [done|]. destruct (IH (track t p)) as (-> & -> & -> & ->).
  apply track_other.
Qed.

Lemma track_keeps t p :
  tracker_inv t →
  (∀ k x, jm_get (timers t) k = Some x → jm_get (timers (track t p)) k = Some x) ∧
  (∀ j k, jm_get (waitingExecutions t) j = Some k → jm_get (waitingExecutions (track t p)) j = Some k).
Proof.
  intros Ht. destruct p as [j w]. unfold track. destruct (jm_get (waitingExecutions t) j) eqn:Hj; [done|]. cbn. split.
  - intros k x Hx. apply jm_get_set_Some. right. split; [|done]. pose proof (inv_fresh t Ht k x Hx). lia.
  - intros j' k Hk. apply jm_get_set_Some. right. split; [congruence|done].
Qed.

Lemma foldl_track_keeps l t :
  tracker_inv t →
  (∀ k x, jm_get (timers t) k = Some x → jm_get (timers (foldl track t l)) k = Some x) ∧
  (∀ j k, jm_get (waitingExecutions t) j = Some k → jm_get (waitingExecutions (foldl track t l)) j = Some k).
Proof.
  revert t. induction l as [|p l IH]; intros t Ht; cbn; [done|].
  destruct (track_keeps t p Ht) as [H1 H2]. destruct (IH (track t p) (track_inv t p Ht)) as [H3 H4].
  split; intros; [by apply H3, H1|by apply H4, H2].
Qed.

(** An answer sets the timer of an execution that has none, if it names it. *)
Lemma foldl_track_new i w l t :
  tracker_inv t → jm_get (waitingExecutions t) i = None → (∀ w', (i, w') ∈ l → w' = w) →
  (i ∉ l.*1 ∧ jm_get (waitingExecutions (foldl track t l)) i = None) ∨
  (i ∈ l.*1 ∧ ∃ k, jm_get (waitingExecutions (foldl track t l)) i = Some k ∧
        jm_get (timers (foldl track t l)) k = Some (mkTimer (now t + timeout_delay (w - now t)) (StartTimer i))).
Proof.
  revert t. induction l as [|[j v] l IH]; intros t Ht Hi Hw; cbn [foldl].
  { left. split; [apply not_elem_of_nil|done]. }
  destruct (decide (j = i)) as [->|Hne].
  - right. split; [apply elem_of_cons; by left|]. exists (nextTimer t). destruct (foldl_track_keeps l (track t (i, v)) (track_inv t _ Ht)) as [H1 H2].
    assert (v = w) as -> by (by apply Hw, elem_of_cons; left).
    split; [apply H2|apply H1]; unfold track; rewrite Hi; cbn; by rewrite jm_get_set.
  - destruct (IH (track t (j, v)) (track_inv t _ Ht)) as [[Hn Hg]|H].
    + unfold track. destruct (jm_get (waitingExecutions t) j); [done|]. cbn. by rewrite jm_get_set_ne.
    + intros w' Hw'. apply Hw, elem_of_cons. by right.
    + left. split; [|done]. cbn. by rewrite not_elem_of_cons.
    + right. rewrite (proj1 (track_other t (j, v))) in H. destruct H as [Hin H]. split; [|done].
      apply elem_of_cons. by right.
Qed.

Lemma next_starts t e t' : tracker_next t e = Some t' → ∃ l, starts t' = starts t ++ l.
Proof.
  assert (∀ t, starts t = starts t ++ []) as Hnil by (intros; by rewrite app_nil_r).
  destruct e as [[]| | |j|j w|j|n|n|k|d]; cbn.
  - intros [= <-]. exists []; exact (Hnil t).
  - intros [= <-]. exists []; exact (Hnil t).
  - intros [= <-]. exists []; exact (Hnil t).
  - intros [= <-]. exists []. unfold stopTracking. destruct (mainTimer t); [|done].
    by rewrite (proj2 (foldl_clear_same _ _)), app_nil_r.
  - intros [= <-]. exists []. unfold stopExecution. destruct (jm_get _ j); by rewrite app_nil_r.
  - intros [= <-]. exists []; exact (Hnil t).
  - intros [= <-]. exists []; exact (Hnil t).
  - destruct (queries t !! n) as [q|]; [|done]; cbn. destruct (answer q); [done|]. intros [= <-]. exists []; exact (Hnil t).
  - destruct (queries t !! n) as [q|]; [|done]; cbn. destruct (answer q) as [l|]; [|done]; cbn. intros [= <-].
    exists []. unfold getWaitingExecutions_resume.
    destruct (foldl_track_other l (with_queries t (delete n (queries t)))) as (_ & _ & _ & ->). by rewrite app_nil_r.
  - destruct (jm_get (timers t) k) as [x|]; [|done]; cbn. destruct (deadline x <=? now t); [|done].
    intros [= <-]. destruct (callback x) as [|j]; cbn; [exists []; exact (Hnil t)|by eexists].
  - destruct (0 <? d); [|done]. intros [= <-]. exists []; exact (Hnil t).
Qed.

Section Missed.
Context (i : string) (w stored latency : Z) (before : list (string * Z)).
Context (latency_pos : 0 ≤ latency).

(** The first poll that can list the execution comes at most a minute after this time. *)
Definition poll_from : Z := Z.max stored (w - 70000).
Definition latest : Z := Z.max w (poll_from + 60000 + latency + 1).

Definition resumed (t : WaitTracker) : Prop :=
  ∃ l τ, starts t = before ++ l ∧ (i, τ) ∈ l ∧ w ≤ τ ≤ latest.

Definition has_timer (t : WaitTracker) : Prop :=
  ∃ k x, jm_get (waitingExecutions t) i = Some k ∧ jm_get (timers t) k = Some x ∧ w ≤ deadline x ≤ latest.

(** A query is under way that lists it, or will. *)
Definition has_query (t : WaitTracker) : Prop :=
  ∃ q, q ∈ queries t ∧ issued q ≤ poll_from + 60000 ∧ w ≤ issued q + 70000 ∧
    match answer q with Some l => i ∈ l.*1 | None => True end.

Definition has_poll (t : WaitTracker) : Prop :=
  ∃ k x, jm_get (timers t) k = Some x ∧ callback x = PollTimer ∧ deadline x ≤ poll_from + 60000.

(** Every answer that names the execution has its present time. *)
Definition answers_right (t : WaitTracker) : Prop :=
  ∀ q l w', q ∈ queries t → answer q = Some l → (i, w') ∈ l → w' = w ∧ w ≤ issued q + 70000.

Record awaited (t : WaitTracker) : Prop := {
  awaited_db : jm_get (db t) i = Some w;
  awaited_answers : answers_right t;
  awaited_starts : ∃ l, starts t = before ++ l;
  awaited_coming : has_timer t ∨ (jm_get (waitingExecutions t) i = None ∧ (has_query t ∨ has_poll t));
}.

Lemma awaited_bound t : on_time latency t → awaited t → now t ≤ latest.
Proof.
  intros [Ht Hq] [_ _ _ [(k & x & _ & Hx & _ & Hl)|[_ [(q & Hqe & Hl & _)|(k & x & Hx & _ & Hl)]]]].
  - specialize (Ht k x Hx). lia.
  - specialize (Hq q Hqe). unfold latest. lia.
  - specialize (Ht k x Hx). unfold latest. lia.
Qed.

(** A state whose timers and queries include those of another is awaited as well. *)
Lemma awaited_grows t t' :
  awaited t → jm_get (db t') i = Some w → answers_right t' → (∃ l, starts t' = before ++ l) →
  jm_get (waitingExecutions t') i = jm_get (waitingExecutions t) i →
  (∀ k x, jm_get (timers t) k = Some x → jm_get (waitingExecutions t) i = Some k ∨ callback x = PollTimer →
     jm_get (timers t') k = Some x) →
  (∀ q, q ∈ queries t → q ∈ queries t') → awaited t'.
Proof.
  intros [_ _ _ Hc] Hdb Ha Hs Hw Ht Hq. constructor; [done..|].
  destruct Hc as [(k & x & Hk & Hx & Hl)|[Hn [(q & Hqe & Hl)|(k & x & Hx & Hp & Hl)]]].
  - left. exists k, x. rewrite Hw. split_and!; [done|apply Ht; [done|by left]|apply Hl..].
  - right. rewrite Hw. split; [done|left]. exists q. split; [by apply Hq|done].
  - right. rewrite Hw. split; [done|right]. exists k, x. split; [apply Ht; [done|by right]|done].
Qed.

Lemma waiting_bound t :
  on_time latency t → has_query t ∨ has_poll t → now t ≤ poll_from + 60000 + latency.
Proof.
  intros [Ht Hq] [(q & Hqe & Hl & _)|(k & x & Hx & _ & Hl)]; [specialize (Hq q Hqe)|specialize (Ht k x Hx)]; lia.
Qed.

Lemma answers_call t q : answers_right t → answer q = None → answers_right (with_queries t (queries t ++ [q])).
Proof.
  intros Ha Hq q' l w' [Hq'|Hq'%list_elem_of_singleton]%elem_of_app Hl; [by eapply Ha|congruence].
Qed.

Lemma takeover_awaited t : tracker_inv t → awaited t → awaited (startTracking t).
Proof.
  intros Ht Ha. apply (awaited_grows t); try done; [apply Ha| |apply Ha|..].
  - apply (answers_call t (mkQuery (now t) None)); [apply Ha|done].
  - intros k x Hx _. cbn. rewrite jm_get_set_ne; [done|]. pose proof (inv_fresh t Ht k x Hx). lia.
  - intros q Hq. cbn. apply elem_of_app. by left.
Qed.

(** Removing the entry and the timer of another execution. *)
Lemma other_awaited t j k t' :
  tracker_inv t → awaited t → j ≠ i → jm_get (waitingExecutions t) j = Some k →
  timers t' = jm_del (timers t) k → waitingExecutions t' = jm_del (waitingExecutions t) j →
  queries t' = queries t → db t' = db t → (∃ l, starts t' = starts t ++ l) → awaited t'.
Proof.
  intros Ht Ha Hne Hj Htm Hw Hq Hdb [l Hs]. apply (awaited_grows t); rewrite ?Hdb, ?Hw, ?Htm, ?Hq, ?Hs; try done;
    [apply Ha|intros q l' w'; rewrite Hq; apply Ha|destruct (awaited_starts t Ha) as [l' ->]; rewrite <- app_assoc; by eexists
    |by apply jm_get_del_ne|].
  intros k' x Hx Hor. apply jm_get_del_Some. split; [|done]. intros ->.
  pose proof (inv_entry t Ht j k x Hj Hx) as Hc. destruct Hor as [Hi|Hp]; [|congruence].
  pose proof (inv_entry t Ht i k x Hi Hx). congruence.
Qed.

Lemma executes_awaited t n q :
  tracker_inv t → awaited t → queries t !! n = Some q → answer q = None →
  awaited (with_queries t (<[n := mkQuery (issued q) (Some (getWaitingExecutions_query t q))]> (queries t))).
Proof.
  intros Ht Ha Hn Hno. pose proof (awaited_db t Ha) as Hdb. constructor; cbn; [done| |apply Ha|].
  - intros q' l w' (m & Hm)%list_elem_of_lookup Hl Hw'. cbn in Hm.
    apply list_lookup_insert_Some in Hm as [(_ & <- & _)|[_ Hm]].
    + cbn in *. injection Hl as <-. apply list_elem_of_filter in Hw' as [Hle Hin]. cbn in Hle.
      apply jm_elem_get in Hin; [|apply Ht]. rewrite Hdb in Hin. injection Hin as <-. done.
    + eapply (awaited_answers t Ha); [by eapply list_elem_of_lookup_2|done..].
  - destruct (awaited_coming t Ha) as [H|[Hi [(q' & Hq' & H1 & H2 & H3)|H]]]; [by left|right; split; [done|]..].
    + left. apply list_elem_of_lookup in Hq' as [m Hm]. destruct (decide (n = m)) as [->|Hne].
      * rewrite Hn in Hm. injection Hm as <-. eexists. split.
        { apply list_elem_of_lookup_2 with m. cbn. apply list_lookup_insert_eq. by apply lookup_lt_Some in Hn. }
        cbn. split_and!; [done..|]. apply list_elem_of_fmap. exists (i, w). split; [done|].
        apply list_elem_of_filter. split; [done|]. by apply jm_get_Some_elem.
      * exists q'. split; [|done]. apply list_elem_of_lookup_2 with m. cbn. by rewrite list_lookup_insert_ne.
    + by right.
Qed.

Lemma answers_awaited t n q l :
  tracker_inv t → on_time latency t → awaited t → queries t !! n = Some q → answer q = Some l →
  awaited (getWaitingExecutions_resume (with_queries t (delete n (queries t))) l).
Proof.
  intros Ht Ho Ha Hn Hl. assert (Hin : ∀ q', q' ∈ delete n (queries t) → q' ∈ queries t).
  { intros q'. rewrite delete_take_drop. rewrite <- (take_drop_middle (queries t) n q) at 3 by done. set_solver. }
  set (t1 := with_queries t (delete n (queries t))). unfold getWaitingExecutions_resume.
  assert (tracker_inv t1) as Ht1.
  { destruct Ht as [? ? ? ? ? H6 ?]. constructor; try done. cbn. intros q' Hq'. by apply H6, Hin. }
  destruct (foldl_track_keeps l t1 Ht1) as [Hkt Hkw].
  destruct (foldl_track_other l t1) as (Hnow & Hqs & Hdb & Hst).
  assert (Hq : q ∈ queries t) by (by eapply list_elem_of_lookup_2).
  constructor.
  - rewrite Hdb. apply Ha.
  - intros q' l' w' Hq'. rewrite Hqs in Hq'. apply (awaited_answers t Ha), Hin, Hq'.
  - rewrite Hst. apply Ha.
  - destruct (awaited_coming t Ha) as [(k & x & Hk & Hx & Hle)|[Hi Hor]].
    { left. exists k, x. split_and!; [by apply Hkw|by apply Hkt|apply Hle..]. }
    destruct (foldl_track_new i w l t1 Ht1 Hi) as [[Hno Hi']|(Hyes & k & Hk & Hx)].
    + intros w' Hw'. by apply (awaited_answers t Ha q l w').
    + right. split; [done|]. destruct Hor as [(q' & Hq' & H1 & H2 & H3)|(k & x & Hx & Hp & Hle)].
      * left. exists q'. split; [|done]. rewrite Hqs. cbn. apply list_elem_of_lookup in Hq' as [m Hm].
        destruct (decide (m = n)) as [->|Hne].
        { rewrite Hn in Hm. injection Hm as <-. by rewrite Hl in H3. }
        destruct (decide (m < n)%nat).
        { apply list_elem_of_lookup_2 with m. by rewrite list_lookup_delete_lt. }
        { apply list_elem_of_lookup_2 with (m - 1)%nat. rewrite list_lookup_delete_ge by lia. by replace (S (m - 1)) with m by lia. }
      * right. exists k, x. split; [by apply Hkt|done].
    + left. eexists k, _. split; [done|]. split; [done|]. cbn.
      apply list_elem_of_fmap in Hyes as ([i' w'] & Hii & Hw'). cbn in Hii. subst i'.
      destruct (awaited_answers t Ha q l w' Hq Hl Hw') as [-> Hle].
      pose proof (inv_issued t Ht q Hq). pose proof (waiting_bound t Ho Hor).
      pose proof (timeout_bounds (w - now t)). unfold latest. lia.
Qed.

Lemma polls_awaited t k x :
  tracker_inv t → on_time latency t → awaited t → jm_get (timers t) k = Some x → callback x = PollTimer →
  deadline x ≤ now t → awaited (fire t k PollTimer).
Proof.
  intros Ht Ho Ha Hx Hp Hd. pose proof (on_time_timer _ t Ho k x Hx) as Hd'. constructor; cbn; [apply Ha| |apply Ha|].
  - apply (answers_call t (mkQuery (now t) None)); [apply Ha|done].
  - assert (Hother : ∀ k' x', k' ≠ k → jm_get (timers t) k' = Some x' →
      jm_get (jm_set (timers t) k (mkTimer (now t + 60000) PollTimer)) k' = Some x').
    { intros k' x' Hne Hx'. by rewrite jm_get_set_ne. }
    destruct (awaited_coming t Ha) as [(k' & x' & Hk' & Hx' & Hle)|[Hi [(q & Hq & Hle)|(k' & x' & Hx' & Hp' & Hle)]]].
    + left. exists k', x'. split_and!; [done| |apply Hle..]. apply Hother; [|done]. intros ->.
      pose proof (inv_entry t Ht i k x' Hk' Hx'). congruence.
    + right. split; [done|left]. exists q. split; [|done]. cbn. apply elem_of_app. by left.
    + right. split; [done|]. destruct (decide (k' = k)) as [->|Hne].
      * rewrite Hx in Hx'. injection Hx' as <-. destruct (decide (w ≤ now t + 70000)).
        { left. eexists. split; [cbn; apply elem_of_app; right; by apply list_elem_of_singleton|]. cbn. split_and!; [lia|done..]. }
        { right. exists k. eexists. split; [cbn; apply jm_get_set|]. cbn. split; [done|]. unfold poll_from. lia. }
      * right. exists k', x'. split; [cbn; by apply Hother|done].
Qed.

Lemma starts_awaited t k x j :
  tracker_inv t → on_time latency t → awaited t → jm_get (timers t) k = Some x → callback x = StartTimer j →
  deadline x ≤ now t → resumed (fire t k (StartTimer j)) ∨ awaited (fire t k (StartTimer j)).
Proof.
  intros Ht Ho Ha Hx Hp Hd. pose proof (on_time_timer _ t Ho k x Hx) as Hd'.
  pose proof (inv_start t Ht j k x Hx Hp) as Hj. destruct (decide (j = i)) as [->|Hne].
  - left. destruct (awaited_coming t Ha) as [(k' & x' & Hk' & Hx' & Hle)|[Hi _]]; [|congruence].
    rewrite Hj in Hk'. injection Hk' as <-. rewrite Hx in Hx'. injection Hx' as <-.
    destruct (awaited_starts t Ha) as [l Hl]. exists (l ++ [(i, now t)]), (now t). cbn. rewrite Hl, <- app_assoc.
    split; [done|]. split; [apply elem_of_app; right; by apply list_elem_of_singleton|lia].
  - right. apply (other_awaited t j k); try done. by eexists.
Qed.

Lemma next_awaited t e t' :
  tracker_inv t → on_time latency t → awaited t → undisturbed i e → tracker_next t e = Some t' →
  resumed t' ∨ awaited t'.
Proof.
  intros Ht Ho Ha Hu. destruct e as [[]| | |j|j v|j|n|n|k|d]; cbn in *; try done.
  - intros [= <-]. right. by apply takeover_awaited.
  - intros [= <-]. by right.
  - intros [= <-]. right. by apply takeover_awaited.
  - intros [= <-]. right. unfold stopExecution. destruct (jm_get (waitingExecutions t) j) as [k|] eqn:Hj; [|done].
    apply (other_awaited t j k); try done. exists []. cbn. by rewrite app_nil_r.
  - intros [= <-]. right. apply (awaited_grows t); try done; try apply Ha. cbn. rewrite jm_get_set_ne by done. apply Ha.
  - intros [= <-]. right. apply (awaited_grows t); try done; try apply Ha. cbn -[jm_del]. rewrite jm_get_del_ne by done. apply Ha.
  - destruct (queries t !! n) as [q|] eqn:Hq; [|done]; cbn. destruct (answer q) eqn:Hno; [done|]. intros [= <-].
    right. by apply executes_awaited.
  - destruct (queries t !! n) as [q|] eqn:Hq; [|done]; cbn. destruct (answer q) as [l|] eqn:Hl; [|done]; cbn.
    intros [= <-]. right. by eapply answers_awaited.
  - destruct (jm_get (timers t) k) as [x|] eqn:Hx; [|done]; cbn. destruct (Z.leb_spec (deadline x) (now t)); [|done].
    intros [= <-]. destruct (callback x) as [|j] eqn:Hc; [right; by eapply polls_awaited|by eapply starts_awaited].
  - destruct (0 <? d); [|done]. intros [= <-]. right. destruct Ha. by constructor.
Qed.
End Missed.

Lemma set_on_time latency t delay c : on_time latency t → on_time latency (setTimer t delay c).
Proof.
  intros [Ht Hq]. constructor; cbn; [|done]. pose proof (timeout_bounds delay).
  intros k x [[_ ->]|[_ Hx]]%jm_get_set_Some; cbn; [lia|by eapply Ht].
Qed.

Lemma fewer_on_time latency t t' :
  on_time latency t → now t' = now t →
  (∀ k x, jm_get (timers t') k = Some x → jm_get (timers t) k = Some x) →
  (∀ q, q ∈ queries t' → q ∈ queries t) → on_time latency t'.
Proof. intros [Ht Hq] Hn Ht' Hq'. constructor; rewrite Hn; [intros k x Hx; eapply Ht, Ht', Hx|intros q H; by apply Hq, Hq']. Qed.

Lemma call_on_time latency t : 0 ≤ latency → on_time latency t → on_time latency (getWaitingExecutions_call t).
Proof.
  intros Hl [Ht Hq]. constructor; cbn; [done|].
  intros q [H|H%list_elem_of_singleton]%elem_of_app; [by apply Hq|subst q; cbn; lia].
Qed.

Lemma foldl_track_on_time latency l t : on_time latency t → on_time latency (foldl track t l).
Proof.
  revert t. induction l as [|[j v] l IH]; intros t Ht; cbn [foldl]; [done|]. apply IH. unfold track.
  destruct (jm_get (waitingExecutions t) j); [done|].
  apply (fewer_on_time latency (setTimer t (v - now t) (StartTimer j))); try done. by apply set_on_time.
Qed.

Lemma foldl_clear_on_time latency (l : list (string * nat)) t :
  on_time latency t → on_time latency (foldl (λ t p, clearTimer t p.2) t l).
Proof.
  revert t. induction l as [|p l IH]; intros t Ht; cbn [foldl]; [done|]. apply IH.
  apply (fewer_on_time latency t); try done. by intros k x [_ Hx]%jm_get_del_Some.
Qed.

Lemma next_on_time latency t e t' :
  0 ≤ latency → on_time latency t → punctual latency t e → tracker_next t e = Some t' → on_time latency t'.
Proof.
  intros Hl Ht Hp. destruct e as [[]| | |j|j v|j|n|n|k|d]; cbn in *.
  - intros [= <-]. unfold init, startTracking. apply call_on_time; [done|].
    by apply (fewer_on_time latency (setTimer t 60000 PollTimer)); [apply set_on_time|..].
  - by intros [= <-].
  - intros [= <-]. unfold startTracking. apply call_on_time; [done|].
    by apply (fewer_on_time latency (setTimer t 60000 PollTimer)); [apply set_on_time|..].
  - intros [= <-]. unfold stopTracking. destruct (mainTimer t); [|done]. apply foldl_clear_on_time.
    apply (fewer_on_time latency t); try done. by intros k x [_ Hx]%jm_get_del_Some.
  - intros [= <-]. unfold stopExecution. destruct (jm_get (waitingExecutions t) j); [|done].
    apply (fewer_on_time latency t); try done. by intros k x [_ Hx]%jm_get_del_Some.
  - intros [= <-]. by apply (fewer_on_time latency t).
  - intros [= <-]. by apply (fewer_on_time latency t).
  - destruct (queries t !! n) as [q|] eqn:Hq; [|done]; cbn. destruct (answer q); [done|]. intros [= <-].
    destruct Ht as [Ht Hqs]. constructor; cbn; [done|]. intros q' (m & Hm)%list_elem_of_lookup. cbn in Hm.
    apply list_lookup_insert_Some in Hm as [(_ & <- & _)|[_ Hm]]; cbn.
    + apply (Hqs q). by eapply list_elem_of_lookup_2.
    + apply Hqs. by eapply list_elem_of_lookup_2.
  - destruct (queries t !! n) as [q|] eqn:Hq; [|done]; cbn. destruct (answer q) as [l|]; [|done]; cbn. intros [= <-].
    apply foldl_track_on_time. apply (fewer_on_time latency t); try done. cbn. intros q'.
    rewrite delete_take_drop. rewrite <- (take_drop_middle (queries t) n q) at 3 by done. set_solver.
  - destruct (jm_get (timers t) k) as [x|] eqn:Hx; [|done]; cbn. destruct (deadline x <=? now t); [|done].
    intros [= <-]. destruct (callback x) as [|j]; cbn.
    + apply call_on_time; [done|]. destruct Ht as [Ht Hqs]. constructor; cbn; [|done].
      intros k' x' [[_ ->]|[_ Hx']]%jm_get_set_Some; cbn; [lia|by eapply Ht].
    + apply (fewer_on_time latency t); try done. by intros k' x' [_ Hx']%jm_get_del_Some.
  - destruct (0 <? d); [|done]. intros [= <-]. destruct Hp as [H1 H2]. rewrite Forall_forall in H1. rewrite Forall_forall in H2.
    constructor; cbn; [|apply H2]. intros k' x' Hx'%jm_get_Some_elem. by apply (H1 (k', x')).
Qed.

Lemma run_on_time latency t es t' :
  0 ≤ latency → tracker_inv t → on_time latency t → run_punctual latency t es → tracker_run t es = Some t' →
  tracker_inv t' ∧ on_time latency t'.
Proof.
  intros Hl. revert t. induction es as [|e es IH]; intros t Hi Ht; cbn; [by intros _ [= <-]|].
  destruct (tracker_next t e) as [t1|] eqn:Hn; [|done]; cbn. intros [Hp Hps]. apply IH; [..|done].
  - by eapply next_tracker_inv.
  - by eapply next_on_time.
Qed.

Lemma run_starts t es t' : tracker_run t es = Some t' → ∃ l, starts t' = starts t ++ l.
Proof.
  revert t. induction es as [|e es IH]; intros t; cbn; [intros [= <-]; exists []; by rewrite app_nil_r|].
  destruct (tracker_next t e) as [t1|] eqn:Hn; [|done]; cbn. intros [l ->]%IH.
  destruct (next_starts _ _ _ Hn) as [l' ->]. rewrite <- app_assoc. by eexists.
Qed.

Lemma run_awaited i w stored latency before t es t' :
  0 ≤ latency → tracker_inv t → on_time latency t → awaited i w stored latency before t →
  run_punctual latency t es → Forall (undisturbed i) es → tracker_run t es = Some t' →
  resumed i w stored latency before t' ∨ awaited i w stored latency before t'.
Proof.
  intros Hl. revert t. induction es as [|e es IH]; intros t Hi Ht Ha; cbn; [intros _ _ [= <-]; by right|].
  destruct (tracker_next t e) as [t1|] eqn:Hn; [|done]; cbn. intros [Hp Hps] [Hu Hus]%Forall_cons Hrun.
  destruct (next_awaited i w stored latency before Hl t e t1 Hi Ht Ha Hu Hn) as [(l & τ & Hs & Hin & Hb)|Ha'].
  - left. destruct (run_starts _ _ _ Hrun) as [l' Hl']. exists (l ++ l'), τ. rewrite Hl', Hs, <- app_assoc.
    split_and!; [done| |apply Hb..]. apply elem_of_app. by left.
  - apply (IH t1); [by eapply next_tracker_inv|by eapply next_on_time|done..].
Qed.

(** C12: A process that tracks misses no execution: if timers fire in time and queries are
    answered within [latency], an execution stored with a time to wait for is resumed
    once that time has come and at most a minute and [latency] after it was stored,
    and not before its time. *)
Theorem no_execution_missed (latency w : Z) (i : string) (es0 es : list TrackerEvent) (t0 t : WaitTracker) :
  0 ≤ latency → tracker_run new_tracker es0 = Some t0 → run_punctual latency new_tracker es0 →
  tracking t0 → unknown i t0 →
  tracker_run t0 (Store i w :: es) = Some t → run_punctual latency t0 (Store i w :: es) → Forall (undisturbed i) es →
  Z.max w (Z.max (now t0) (w - 70000) + 60000 + latency + 1) < now t →
  ∃ l τ, starts t = starts t0 ++ l ∧ (i, τ) ∈ l ∧
    w ≤ τ ≤ Z.max w (Z.max (now t0) (w - 70000) + 60000 + latency + 1).
Proof.
  intros Hl Hrun0 Hp0 (k & x & Hx & Hc) (Hno1 & Hno2 & Hno3) Hrun [_ Hp] Hu Hnow. cbn in Hrun, Hp.
  destruct (run_on_time latency new_tracker es0 t0) as [Hi0 Ht0]; try done.
  { apply new_tracker_inv. } { constructor; cbn; [done|by intros q []%not_elem_of_nil]. }
  assert (tracker_inv (with_db t0 (jm_set (db t0) i w))) as Hi1 by (by eapply (next_tracker_inv t0 (Store i w))).
  assert (on_time latency (with_db t0 (jm_set (db t0) i w))) as Ht1 by (by apply (fewer_on_time latency t0)).
  assert (awaited i w (now t0) latency (starts t0) (with_db t0 (jm_set (db t0) i w))) as Ha.
  { constructor; cbn.
    - apply jm_get_set.
    - intros q l w' Hq Hans Hw'. rewrite Forall_forall in Hno3. specialize (Hno3 q Hq). rewrite Hans in Hno3.
      exfalso. apply Hno3, list_elem_of_fmap. by exists (i, w').
    - exists []. by rewrite app_nil_r.
    - right. split; [done|right]. exists k, x. split_and!; [done..|]. unfold poll_from.
      pose proof (inv_poll t0 Hi0 k x Hx Hc). lia. }
  destruct (run_awaited i w (now t0) latency (starts t0) _ es t Hl Hi1 Ht1 Ha Hp Hu Hrun) as [Hr|Ha']; [exact Hr|].
  destruct (run_on_time latency _ es t Hl Hi1 Ht1 Hp Hrun) as [_ Ht].
  pose proof (awaited_bound i w (now t0) latency (starts t0) Hl t Ht Ha') as Hb. unfold latest, poll_from in Hb. lia.
Qed.

(** * Concrete runs *)

Definition demo_tracking : list TrackerEvent := [LeaderTakeover; QueryExecutes 0; QueryAnswers 0; Tick 1000].

Definition demo_wait : list TrackerEvent :=
  [Tick 59000; TimerFires 0; QueryExecutes 0; Tick 10; QueryAnswers 0; Tick 39990; TimerFires 1; Tick 10].

Definition demo_tracked : WaitTracker := default new_tracker (tracker_run new_tracker demo_tracking).
Definition demo_resumed : WaitTracker := default new_tracker (tracker_run demo_tracked (Store "7" 100000 :: demo_wait)).

Lemma no_execution_missed_witness :
  ∃ l τ, starts demo_resumed = starts demo_tracked ++ l ∧ ("7", τ) ∈ l ∧ 100000 ≤ τ ≤ 100000.
Proof.
  destruct (no_execution_missed 5000 100000 "7" demo_tracking demo_wait demo_tracked demo_resumed) as (l & τ & Hs & Hin & Hb).
  - lia.
  - by vm_compute.
  - vm_compute. repeat (split || constructor || discriminate).
  - exists 0%nat. eexists. split; reflexivity.
  - split; [by vm_compute|split; [by vm_compute|constructor]].
  - by vm_compute.
  - vm_compute. repeat (split || constructor || discriminate).
  - by repeat constructor.
  - by vm_compute.
  - exists l, τ. split; [exact Hs|split; [exact Hin|]]. change (now demo_tracked) with 1000 in Hb. lia.
Defined.

(** The execution is due; this process steps down, leads again and polls twice. *)
Definition demo_stepdown : list TrackerEvent :=
  [Store "7" 5000; LeaderTakeover; QueryExecutes 0; QueryAnswers 0].

Definition demo_again : list TrackerEvent :=
  [Tick 1000; LeaderTakeover; QueryExecutes 0; QueryAnswers 0; Tick 60000; TimerFires 2; QueryExecutes 0; QueryAnswers 0; Tick 60000].

Definition demo_stepped : WaitTracker := default new_tracker (tracker_run new_tracker demo_stepdown).
Definition demo_forgot : WaitTracker := default new_tracker (tracker_run (stopTracking demo_stepped) demo_again).

Lemma stepdown_forgets_executions_witness :
  jm_get (db demo_forgot) "7" = Some 5000 ∧ now demo_forgot = 121000 ∧
  has demo_forgot "7" = true ∧ starts_of "7" demo_forgot = starts_of "7" demo_stepped.
Proof.
  split; [by vm_compute|]. split; [by vm_compute|].
  apply (stepdown_forgets_executions demo_stepdown demo_again); [by vm_compute|discriminate|by vm_compute| |by vm_compute].
  unfold demo_again. rewrite !not_elem_of_cons. repeat split; try discriminate. apply not_elem_of_nil.
Defined.

(** The timer of a wait that was ended by a webhook stays armed.  If the execution waits
    again before it fires, the execution is resumed at the old time, long before the
    new one. *)
Theorem stale_timer_resumes_early :
  let es := [Store "7" 30000; LeaderTakeover; QueryExecutes 0; QueryAnswers 0; Tick 10000; Remove "7"; Store "7" 3600000;
             Tick 20000; TimerFires 1] in
  (λ t, (starts t, jm_get (db t) "7")) <$> tracker_run new_tracker es = Some ([("7", 30000)], Some 3600000).
Proof. by vm_compute. Qed.
