(* ===== verification/UndoHistory.v ===== *)
(** UndoHistory: the undo and redo stacks of the editor.

    packages/frontend/editor-ui/src/app: models/history.ts, stores/history.store.ts and
    composables/useHistoryHelper.ts.  A command tells the document, through an event, to
    revert one change; what the document does is the class [Document] with its laws,
    which CanvasOperations implements.  Timestamps are not modelled: nothing reads
    them.  [undo] and [redo] run without interruption by the user. *)

From Stdlib Require Import ZArith Lia.
From stdpp Require Import prelude list strings.
From S2P Require Import Prelude Types.

(** * Commands

    A node is a reference to its object; parameters are compared by identity and are
    numbers here. *)

Inductive Command :=
| MoveNodeCommand (nodeName : string) (oldPosition newPosition : Z * Z)
| AddNodeCommand (node : nat)
| RemoveNodeCommand (node : nat)
| AddConnectionCommand (source target : IConnection)
| RemoveConnectionCommand (source target : IConnection)
| EnableNodeToggleCommand (nodeName : string) (oldState newState : bool)
| RenameNodeCommand (currentName newName : string)
| ReplaceNodeParametersCommand (nodeId : string) (currentParameters newParameters : nat).

Definition getReverseCommand (c : Command) : Command :=
  match c with
  | MoveNodeCommand n old new => MoveNodeCommand n new old
  | AddNodeCommand n => RemoveNodeCommand n
  | RemoveNodeCommand n => AddNodeCommand n
  | AddConnectionCommand s t => RemoveConnectionCommand s t
  | RemoveConnectionCommand s t => AddConnectionCommand s t
  | EnableNodeToggleCommand n old new => EnableNodeToggleCommand n new old
  | RenameNodeCommand cur new => RenameNodeCommand new cur
  | ReplaceNodeParametersCommand id cur new => ReplaceNodeParametersCommand id new cur
  end.

Lemma getReverseCommand_involutive c : getReverseCommand (getReverseCommand c) = c.
Proof. by destruct c. Qed.

(** [c.isEqualTo(anotherCommand)], where the nodes have the given names. *)
Definition isEqualTo (nameOf : nat → string) (c anotherCommand : Command) : bool :=
  match c, anotherCommand with
  | MoveNodeCommand n old new, MoveNodeCommand n' old' new' =>
      bool_decide (n' = n) && bool_decide (old' = old) && bool_decide (new' = new)
  | AddNodeCommand n, AddNodeCommand n' => bool_decide (nameOf n' = nameOf n)
  | RemoveNodeCommand n, AddNodeCommand n' => bool_decide (nameOf n' = nameOf n)
  | AddConnectionCommand s t, AddConnectionCommand s' t' | RemoveConnectionCommand s t, RemoveConnectionCommand s' t' =>
      bool_decide (c_node s' = c_node s) && bool_decide (c_node t' = c_node t) &&
      bool_decide (c_index s' = c_index s) && bool_decide (c_index t' = c_index t)
  | EnableNodeToggleCommand n _ _, EnableNodeToggleCommand n' _ _ => bool_decide (n' = n)
  | RenameNodeCommand cur new, RenameNodeCommand cur' new' => bool_decide (cur' = cur) && bool_decide (new' = new)
  | ReplaceNodeParametersCommand id cur new, ReplaceNodeParametersCommand id' cur' new' =>
      bool_decide (id' = id) && bool_decide (cur' = cur) && bool_decide (new' = new)
  | _, _ => false
  end.

Inductive Undoable := OneCommand (c : Command) | BulkCommand (commands : list Command).

(** * The history store *)

Record HistoryState := mkHistory {
  undoStack : list Undoable;
  redoStack : list Undoable;
  currentBulkAction : option (list Command);
  bulkInProgress : bool;
}.

Definition STACK_LIMIT : nat := 100.

Definition new_history : HistoryState := mkHistory [] [] None false.

Definition with_undo (h : HistoryState) (us : list Undoable) : HistoryState :=
  mkHistory us (redoStack h) (currentBulkAction h) (bulkInProgress h).
Definition with_redo (h : HistoryState) (rs : list Undoable) : HistoryState :=
  mkHistory (undoStack h) rs (currentBulkAction h) (bulkInProgress h).
Definition with_bulk (h : HistoryState) (b : option (list Command)) : HistoryState :=
  mkHistory (undoStack h) (redoStack h) b (bulkInProgress h).
Definition with_progress (h : HistoryState) (b : bool) : HistoryState :=
  mkHistory (undoStack h) (redoStack h) (currentBulkAction h) b.

(** [shift] when there are more than the limit. *)
Definition check_limit (l : list Undoable) : list Undoable := if STACK_LIMIT <? length l then drop 1 l else l.

Definition checkUndoStackLimit (h : HistoryState) : HistoryState := with_undo h (check_limit (undoStack h)).
Definition checkRedoStackLimit (h : HistoryState) : HistoryState := with_redo h (check_limit (redoStack h)).

Definition clearUndoStack (h : HistoryState) : HistoryState := with_undo h [].
Definition clearRedoStack (h : HistoryState) : HistoryState := with_redo h [].
Definition reset (h : HistoryState) : HistoryState := clearUndoStack (clearRedoStack h).

Definition pushCommandToUndo (nameOf : nat → string) (clearRedo : bool) (h : HistoryState) (undoable : Command)
    : HistoryState :=
  if bulkInProgress h then h
  else
    let h :=
      match currentBulkAction h with
      | Some commands =>
          let alreadyIn := existsb (λ c, isEqualTo nameOf c undoable) commands in
          if alreadyIn then h else with_bulk h (Some (commands ++ [undoable]))
      | None => with_undo h (undoStack h ++ [OneCommand undoable])
      end in
    let h := checkUndoStackLimit h in
    if clearRedo then clearRedoStack h else h.

Definition pushBulkCommandToUndo (clearRedo : bool) (h : HistoryState) (commands : list Command) : HistoryState :=
  let h := checkUndoStackLimit (with_undo h (undoStack h ++ [BulkCommand commands])) in
  if clearRedo then clearRedoStack h else h.

Definition pushUndoableToRedo (h : HistoryState) (undoable : Undoable) : HistoryState :=
  checkRedoStackLimit (with_redo h (redoStack h ++ [undoable])).

Definition startRecordingUndo (h : HistoryState) : HistoryState := with_bulk h (Some []).

Definition stopRecordingUndo (h : HistoryState) : HistoryState :=
  let h :=
    match currentBulkAction h with
    | Some ((_ :: _) as commands) => checkUndoStackLimit (with_undo h (undoStack h ++ [BulkCommand commands]))
    | _ => h
    end in
  with_bulk h None.

(** [pop]: the last element and the rest. *)
Fixpoint pop {A} (l : list A) : option (list A * A) :=
  match l with
  | [] => None
  | x :: l => match pop l with Some (l', y) => Some (x :: l', y) | None => Some ([], x) end
  end.

Lemma pop_snoc {A} (l : list A) x : pop (l ++ [x]) = Some (l, x).
Proof. induction l as [|y l IH]; cbn; [done|]. by rewrite IH. Qed.

Lemma pop_None {A} (l : list A) : pop l = None ↔ l = [].
Proof. destruct l as [|x l]; cbn; [done|]. by destruct (pop l) as [[]|]. Qed.

Definition popUndoableToUndo (h : HistoryState) : option (HistoryState * Undoable) :=
  '(us, u) ← pop (undoStack h); Some (with_undo h us, u).

Definition popUndoableToRedo (h : HistoryState) : option (HistoryState * Undoable) :=
  '(rs, r) ← pop (redoStack h); Some (with_redo h rs, r).

(** * Undo and redo *)

(** A document reacts to the event of a command; [effect c s s'] says that [c] records
    the change from [s] to [s'].  Documents are compared by [same], which may be
    coarser than equality. *)
Class Document (S : Type) := {
  revert : (nat → string) → Command → S → S;
  name_of : S → nat → string;
  same : relation S;
  effect : Command → S → S → Prop;
}.

Class DocumentLaws (S : Type) `{Document S} := {
  same_equivalence :: Equivalence (same (S := S));
  effect_proper c :: Proper (same ==> same ==> iff) (effect (S := S) c);
  effect_reverse c s s' : effect c s s' → effect (getReverseCommand c) s' s;
  revert_effect c (s s' : S) : effect c s s' → same (revert (name_of s') c s') s;
}.

Section Helper.
Context {S : Type} `{Document S}.

(** The loop over the commands of a bulk, from the last to the first. *)
Definition revert_bulk (commands : list Command) (s : S) : S :=
  foldl (λ s c, revert (name_of s) c s) s (rev commands).

Definition reverse_bulk (commands : list Command) : list Command := getReverseCommand <$> rev commands.

Definition undo (h : HistoryState) (s : S) : HistoryState * S :=
  match popUndoableToUndo h with
  | None => (h, s)
  | Some (h, BulkCommand commands) =>
      let h := with_progress h true in
      let s := revert_bulk commands s in
      let h := pushUndoableToRedo h (BulkCommand (reverse_bulk commands)) in
      (with_progress h false, s)
  | Some (h, OneCommand command) =>
      let s := revert (name_of s) command s in
      (pushUndoableToRedo h (OneCommand (getReverseCommand command)), s)
  end.

Definition redo (h : HistoryState) (s : S) : HistoryState * S :=
  match popUndoableToRedo h with
  | None => (h, s)
  | Some (h, BulkCommand commands) =>
      let h := with_progress h true in
      let s := revert_bulk commands s in
      let h := pushBulkCommandToUndo false h (reverse_bulk commands) in
      (with_progress h false, s)
  | Some (h, OneCommand command) =>
      let s := revert (name_of s) command s in
      (pushCommandToUndo (name_of s) false h (getReverseCommand command), s)
  end.

Context `{!DocumentLaws S}.

(** A sequence of recorded changes. *)
Fixpoint effects (cs : list Command) (s s' : S) : Prop :=
  match cs with
  | [] => same s s'
  | c :: cs => ∃ s1, effect c s s1 ∧ effects cs s1 s'
  end.

Definition undoable_effect (u : Undoable) (s s' : S) : Prop :=
  match u with OneCommand c => effect c s s' | BulkCommand cs => effects cs s s' end.

Definition reverse_undoable (u : Undoable) : Undoable :=
  match u with OneCommand c => OneCommand (getReverseCommand c) | BulkCommand cs => BulkCommand (reverse_bulk cs) end.

#[export] Instance effects_proper cs : Proper (same ==> same ==> iff) (effects cs).
Proof.
  induction cs as [|c cs IH]; intros s t Hst s' t' Hst'; cbn.
  - by rewrite Hst, Hst'.
  - split; intros (s1 & He & Hes); exists s1; split.
    + by rewrite <- Hst.
    + by rewrite <- Hst'.
    + by rewrite Hst.
    + by rewrite Hst'.
Qed.

#[export] Instance undoable_effect_proper u : Proper (same ==> same ==> iff) (undoable_effect u).
Proof. destruct u as [c|cs]; [apply (effect_proper c)|apply (effects_proper cs)]. Qed.

Lemma effects_app cs1 cs2 s s' : effects (cs1 ++ cs2) s s' ↔ ∃ s1, effects cs1 s s1 ∧ effects cs2 s1 s'.
Proof.
  revert s. induction cs1 as [|c cs1 IH]; intros s; cbn.
  - split; [intros Hes; by exists s|]. intros (s1 & Hs & Hes). by rewrite Hs.
  - split.
    + intros (s1 & He & (s2 & H1 & H2)%IH). exists s2. split; [by exists s1|done].
    + intros (s2 & (s1 & He & H1) & H2). exists s1. split; [done|]. apply IH. by exists s2.
Qed.

Lemma effects_reverse cs s s' : effects cs s s' → effects (reverse_bulk cs) s' s.
Proof.
  unfold reverse_bulk. revert s. induction cs as [|c cs IH]; intros s.
  { cbn. intros Hs. by rewrite Hs. }
  cbn [effects rev]. intros (s1 & He & Hes%IH). rewrite fmap_app. apply effects_app. exists s1. split; [done|].
  exists s. split; [by apply effect_reverse|]. cbn. reflexivity.
Qed.

Lemma revert_bulk_effects cs s s' : effects cs s s' → same (revert_bulk cs s') s.
Proof.
  revert s s'. induction cs as [|c cs IH] using rev_ind; intros s s'; cbn; [by intros ->|].
  intros (s1 & Hes & (s2 & He & Hs))%effects_app. cbn in Hs.
  unfold revert_bulk. rewrite rev_app_distr. cbn [rev app foldl].
  rewrite Hs in He. apply revert_effect in He. apply IH. by rewrite He.
Qed.

Lemma reverse_bulk_app cs1 cs2 : reverse_bulk (cs1 ++ cs2) = reverse_bulk cs2 ++ reverse_bulk cs1.
Proof. unfold reverse_bulk. by rewrite rev_app_distr, fmap_app. Qed.

Lemma reverse_bulk_involutive cs : reverse_bulk (reverse_bulk cs) = cs.
Proof.
  induction cs as [|c cs IH]; [done|]. change (c :: cs) with ([c] ++ cs).
  rewrite !reverse_bulk_app, IH. cbn. by rewrite getReverseCommand_involutive.
Qed.

Lemma undoable_reverse u s s' : undoable_effect u s s' → undoable_effect (reverse_undoable u) s' s.
Proof. destruct u; cbn; [apply effect_reverse|apply effects_reverse]. Qed.

Lemma reverse_undoable_involutive u : reverse_undoable (reverse_undoable u) = u.
Proof. destruct u; cbn; by rewrite ?getReverseCommand_involutive, ?reverse_bulk_involutive. Qed.

(** * A timeline of documents

    What the stacks promise: the user moves along a line of documents, which a change
    cuts off after the present.  At most [STACK_LIMIT] are kept on either side. *)

Record Timeline := mkTimeline {
  past : list S;
  present : S;
  future : list S;
}.

Definition keep (l : list S) : list S := if STACK_LIMIT <? length l then drop 1 l else l.

Definition t_change (s : S) (t : Timeline) : Timeline := mkTimeline (keep (past t ++ [present t])) s [].

Definition t_undo (t : Timeline) : Timeline :=
  match pop (past t) with
  | Some (ps, p) => mkTimeline ps p (keep (future t ++ [present t]))
  | None => t
  end.

Definition t_redo (t : Timeline) : Timeline :=
  match pop (future t) with
  | Some (fs, f) => mkTimeline (keep (past t ++ [present t])) f fs
  | None => t
  end.

(** The entries of a stack lead from each document to the next one, the last to [s]. *)
Inductive chain : list Undoable → list S → S → Prop :=
| chain_nil s : chain [] [] s
| chain_snoc us ps u p s : chain us ps p → undoable_effect u p s → chain (us ++ [u]) (ps ++ [p]) s.

Lemma chain_snoc_inv us u ps s :
  chain (us ++ [u]) ps s → ∃ ps' p, ps = ps' ++ [p] ∧ chain us ps' p ∧ undoable_effect u p s.
Proof.
  intros Hc. inversion Hc as [? Hn|us' ps' u' p s' Hc' He Heq]; subst; [by destruct us|].
  apply app_inj_tail in Heq as [-> ->]. by exists ps', p.
Qed.

Lemma chain_nil_inv ps s : chain [] ps s → ps = [].
Proof. intros Hc. inversion Hc as [|us' ? ? ? ? ? ? Heq]; [done|]. by destruct us'. Qed.

Lemma chain_length us ps s : chain us ps s → length us = length ps.
Proof. induction 1; [done|]. rewrite !length_app. cbn. lia. Qed.

Lemma chain_same us ps s s' : same s s' → chain us ps s → chain us ps s'.
Proof. intros Hs Hc. destruct Hc; constructor; [done|]. by rewrite <- Hs. Qed.

Lemma chain_drop us ps s : chain us ps s → chain (drop 1 us) (drop 1 ps) s.
Proof.
  induction 1 as [s|us ps u p s Hc IH He]; [constructor|]. pose proof (chain_length _ _ _ Hc).
  destruct us as [|u0 us], ps as [|p0 ps]; try done; cbn in *; [constructor|]. rewrite drop_0 in *. by constructor.
Qed.

Lemma chain_keep us ps s : chain us ps s → chain (check_limit us) (keep ps) s.
Proof.
  intros Hc. unfold check_limit, keep. rewrite (chain_length _ _ _ Hc).
  destruct (STACK_LIMIT <? length ps); [by apply chain_drop|done].
Qed.

(** The stacks of the editor implement a timeline. *)
Record represents (e : HistoryState * S) (t : Timeline) : Prop := {
  rep_recording : currentBulkAction e.1 = None;
  rep_progress : bulkInProgress e.1 = false;
  rep_undo : chain (undoStack e.1) (past t) (present t);
  rep_redo : chain (redoStack e.1) (future t) (present t);
  rep_present : same e.2 (present t);
}.

(** No command of a bulk is taken for an earlier one. *)
Definition all_distinct (names : nat → string) (cs : list Command) : Prop :=
  ∀ i j c d, (i < j)%nat → cs !! i = Some c → cs !! j = Some d → isEqualTo names c d = false.

Definition record_bulk (names : nat → string) (h : HistoryState) (cs : list Command) : HistoryState :=
  stopRecordingUndo (foldl (pushCommandToUndo names true) (startRecordingUndo h) cs).

(** What the user does: one recorded change, several recorded together, undo, redo. *)
Inductive user_step : HistoryState * S → (Timeline → Timeline) → HistoryState * S → Prop :=
| step_change names h s c s' : effect c s s' →
    user_step (h, s) (t_change s') (pushCommandToUndo names true h c, s')
| step_bulk names h s cs s' : cs ≠ [] → effects cs s s' → all_distinct names cs →
    user_step (h, s) (t_change s') (record_bulk names h cs, s')
| step_undo h s : user_step (h, s) t_undo (undo h s)
| step_redo h s : user_step (h, s) t_redo (redo h s).

Inductive user_run : HistoryState * S → list (Timeline → Timeline) → HistoryState * S → Prop :=
| run_nil e : user_run e [] e
| run_cons e f e' fs e'' : user_step e f e' → user_run e' fs e'' → user_run e (f :: fs) e''.

Lemma existsb_false_app names cs d :
  (∀ i c, cs !! i = Some c → isEqualTo names c d = false) → existsb (λ c, isEqualTo names c d) cs = false.
Proof.
  intros Hall. apply not_true_iff_false. intros (c & Hc & He)%existsb_exists.
  apply list_elem_of_In, list_elem_of_lookup in Hc as [i Hi]. by rewrite (Hall i c Hi) in He.
Qed.

Lemma check_limit_id l : (length l ≤ STACK_LIMIT)%nat → check_limit l = l.
Proof. intros Hl. unfold check_limit. by rewrite (proj2 (Nat.ltb_ge _ _)). Qed.

Lemma record_commands names h cs cs0 :
  bulkInProgress h = false → currentBulkAction h = Some cs0 → all_distinct names (cs0 ++ cs) →
  (length (undoStack h) ≤ STACK_LIMIT)%nat → cs ≠ [] →
  foldl (pushCommandToUndo names true) h cs = mkHistory (undoStack h) [] (Some (cs0 ++ cs)) false.
Proof.
  revert h cs0. induction cs as [|c cs IH]; intros h cs0 Hp Hb Hd Hl Hne; [done|]. cbn.
  assert (Hpush : pushCommandToUndo names true h c = mkHistory (undoStack h) [] (Some (cs0 ++ [c])) false).
  { unfold pushCommandToUndo. rewrite Hp, Hb. rewrite existsb_false_app.
    - unfold checkUndoStackLimit, with_undo, clearRedoStack, with_redo, with_bulk. cbn. by rewrite check_limit_id, Hp.
    - intros i c' Hi. apply (Hd i (length cs0)); [by eapply lookup_lt_Some| |].
      + by apply lookup_app_l_Some.
      + rewrite lookup_app_r, Nat.sub_diag by done. done. }
  rewrite Hpush. destruct (decide (cs = [])) as [->|Hcs]; [done|].
  rewrite (IH _ (cs0 ++ [c])); cbn; [by rewrite <- app_assoc|done|done| |done|done]. by rewrite <- app_assoc.
Qed.

Lemma step_refines e f e' t :
  (length (undoStack e.1) ≤ STACK_LIMIT)%nat → represents e t → user_step e f e' →
  represents e' (f t) ∧ (length (undoStack e'.1) ≤ STACK_LIMIT)%nat.
Proof.
  assert (Hlen : ∀ l u, (length l ≤ STACK_LIMIT)%nat → (length (check_limit (l ++ [u])) ≤ STACK_LIMIT)%nat).
  { intros l u Hl. unfold check_limit. rewrite length_app. destruct (Nat.ltb_spec STACK_LIMIT (length l + length [u])) as [H1|H1].
    - rewrite length_drop, length_app. cbn [length] in *. lia.
    - by rewrite length_app. }
  intros Hl Hrep Hstep. pose proof Hrep as [Hb Hp Hu Hr Hs]. destruct Hstep as [names h s c s' He|names h s cs s' Hne He Hd|h s|h s]; cbn in *.
  - unfold pushCommandToUndo. rewrite Hp, Hb. split; [|by apply Hlen].
    constructor; cbn; try done; [|constructor].
    apply chain_keep. constructor; [done|]. cbn. by rewrite <- Hs.
  - unfold record_bulk. rewrite (record_commands names (startRecordingUndo h) cs []); try done. cbn.
    unfold stopRecordingUndo. cbn. destruct cs as [|c cs]; [done|]. cbn. split; [|by apply Hlen].
    constructor; cbn; try done; [|constructor].
    apply chain_keep. constructor; [done|]. by rewrite <- Hs.
  - unfold undo, popUndoableToUndo, t_undo. destruct (pop (undoStack h)) as [[us u]|] eqn:Hpop.
    2: { apply pop_None in Hpop. rewrite Hpop in Hu. apply chain_nil_inv in Hu. by rewrite Hu. }
    assert (undoStack h = us ++ [u]) as Hus.
    { destruct (undoStack h) as [|x l] using rev_ind; [done|]. rewrite pop_snoc in Hpop. by injection Hpop as -> ->. }
    rewrite Hus in Hu, Hl. apply chain_snoc_inv in Hu as (ps & p & Hps & Hu & He). rewrite Hps, pop_snoc. cbn.
    rewrite length_app in Hl. cbn in Hl.
    assert (Hrev : undoable_effect (reverse_undoable u) (present t) p) by (by apply undoable_reverse).
    destruct u as [c|cs]; cbn; (split; [|cbn; lia]); constructor; cbn; try done;
      try (apply chain_keep; constructor; [done|exact Hrev]).
    + apply revert_effect. cbn in He. by rewrite Hs.
    + apply revert_bulk_effects. cbn in He. by rewrite Hs.
  - unfold redo, popUndoableToRedo, t_redo. destruct (pop (redoStack h)) as [[rs r]|] eqn:Hpop.
    2: { apply pop_None in Hpop. rewrite Hpop in Hr. apply chain_nil_inv in Hr. by rewrite Hr. }
    assert (redoStack h = rs ++ [r]) as Hrs.
    { destruct (redoStack h) as [|x l] using rev_ind; [done|]. rewrite pop_snoc in Hpop. by injection Hpop as -> ->. }
    rewrite Hrs in Hr. apply chain_snoc_inv in Hr as (fs & f & Hfs & Hr & He). rewrite Hfs, pop_snoc. cbn.
    assert (Hrev : undoable_effect (reverse_undoable r) (present t) f) by (by apply undoable_reverse).
    destruct r as [c|cs]; cbn.
    + unfold pushCommandToUndo. cbn. rewrite Hp, Hb. split; [|by apply Hlen]. constructor; cbn; try done.
      * apply chain_keep; constructor; [done|exact Hrev].
      * apply revert_effect. cbn in He. by rewrite Hs.
    + split; [|by apply Hlen]. constructor; cbn; try done.
      * apply chain_keep; constructor; [done|exact Hrev].
      * apply revert_bulk_effects. cbn in He. by rewrite Hs.
Qed.

Lemma pop_check_limit l u : ∃ l', pop (check_limit (l ++ [u])) = Some (l', u).
Proof.
  unfold check_limit. destruct (_ <? _) eqn:Hl; [|eexists; apply pop_snoc].
  destruct l as [|x l]; [done|]. cbn. rewrite drop_0. eexists. apply pop_snoc.
Qed.

(** An action that is recorded as one bulk is undone and redone as one. *)
Lemma bulk_undone names h cs s s' :
  bulkInProgress h = false → (length (undoStack h) ≤ STACK_LIMIT)%nat → cs ≠ [] → all_distinct names cs → effects cs s s' →
  let '(h1, s1) := undo (record_bulk names h cs) s' in
  same s1 s ∧ same (redo h1 s1).2 s'.
Proof.
  intros Hp Hl Hne Hd He. unfold record_bulk. rewrite (record_commands names (startRecordingUndo h) cs []); try done. cbn [app].
  destruct cs as [|c cs]; [done|]. unfold undo, popUndoableToUndo, stopRecordingUndo. cbn.
  destruct (pop_check_limit (undoStack h) (BulkCommand (c :: cs))) as [us ->]. cbn.
  pose proof (revert_bulk_effects _ _ _ He) as Hs. split; [done|].
  apply effects_reverse in He. rewrite <- Hs in He at 1. by apply revert_bulk_effects in He.
Qed.

(** C11: Whatever the user changes, undoes and redoes, the document is the present one of the
    timeline, up to [same]: the two stacks implement moving back and forth on a
    line of at most a hundred documents on either side. *)
Theorem history_refines_timeline (s0 : S) (fs : list (Timeline → Timeline)) (h : HistoryState) (s : S) :
  user_run (new_history, s0) fs (h, s) →
  represents (h, s) (foldl (λ t f, f t) (mkTimeline [] s0 []) fs) ∧ (length (undoStack h) ≤ STACK_LIMIT)%nat.
Proof.
  assert (Hgen : ∀ e e' t, user_run e fs e' → represents e t → (length (undoStack e.1) ≤ STACK_LIMIT)%nat →
    represents e' (foldl (λ t f, f t) t fs) ∧ (length (undoStack e'.1) ≤ STACK_LIMIT)%nat).
  { intros e e' t Hrun. revert t. induction Hrun as [e|e f e' fs' e'' Hs Hrun IH]; intros t Hr Hl; [done|].
    destruct (step_refines e f e' t Hl Hr Hs) as [Hr' Hl']. by apply IH. }
  intros Hrun. apply (Hgen _ _ _ Hrun); [|cbn; lia]. constructor; cbn; try done; constructor.
Qed.
End Helper.
