(* ===== verification/CanvasOperations.v ===== *)
(** CanvasOperations: changes of the workflow in the editor, recorded and undone.

    packages/frontend/editor-ui/src/app: composables/useCanvasOperations.ts with the
    stores workflowDocument/useWorkflowDocumentConnections.ts and
    useWorkflowDocumentNodes.ts, and the handlers of history events in
    views/NodeView.vue.  Whether node types and node groups allow a connection, and
    unique names, are parameters.  A node is a reference to an object of the store;
    [objects] holds every object, also of nodes that are not on the canvas. *)

From Stdlib Require Import ZArith Lia.
From stdpp Require Import prelude list strings.
From S2P Require Import Prelude Types Traversal WorkflowClass UndoHistory.

(** * Connections *)

Definition bucket_of (cs : IConnections) (s : string) (t : NodeConnectionType) (i : nat) : list IConnection :=
  default [] (inputs ← conns_of cs s t; b ← inputs !! i; b).

(** Replace the bucket of an output, which exists or is created. *)
Definition set_bucket (cs : IConnections) (s : string) (t : NodeConnectionType) (i : nat) (b : list IConnection)
    : IConnections :=
  let nc := default [] (jm_get cs s) in
  let inputs := pad_slots (default [] (jm_get nc t)) i in
  jm_set cs s (jm_set nc t (<[i := Some b]> inputs)).

Definition applyAddConnection (cs : IConnections) (sourceData destinationData : IConnection) : IConnections :=
  let s := c_node sourceData in
  let t := c_type sourceData in
  let i := c_index sourceData in
  let nc := default [] (jm_get cs s) in
  let nodeConnections := pad_slots (default [] (jm_get nc t)) i in
  let connectionsToCheck := default [] (b ← nodeConnections !! i; b) in
  let connectionExists := existsb (λ c, bool_decide (c = destinationData)) connectionsToCheck in
  if connectionExists then jm_set cs s (jm_set nc t nodeConnections)
  else jm_set cs s (jm_set nc t (<[i := Some (connectionsToCheck ++ [destinationData])]> nodeConnections)).

(** The loop [for (const index in matchedConnections)], which splices the array it runs
    over: an index that is past the end by then is skipped. *)
Definition remove_loop (d : IConnection) (matched : list IConnection) : list IConnection :=
  foldl (λ b i, match b !! i with Some c => if bool_decide (c = d) then splice1 b i else b | None => b end)
    matched (seq 0 (length matched)).

Definition applyRemoveConnection (cs : IConnections) (sourceData destinationData : IConnection) : IConnections :=
  match jm_get cs (c_node sourceData) with
  | None => cs
  | Some nc =>
      match jm_get nc (c_type sourceData) with
      | None => cs
      | Some inputs =>
          match inputs !! c_index sourceData with
          | Some (Some matched) =>
              jm_set cs (c_node sourceData) (jm_set nc (c_type sourceData)
                (<[c_index sourceData := Some (remove_loop destinationData matched)]> inputs))
          | _ => cs
          end
      end
  end.

(** The positions are collected first and then spliced one after the other. *)
Definition remove_positions (name : string) (b : list IConnection) : list IConnection :=
  let indexesToRemove := (λ p, p.1) <$> filter (λ p, c_node p.2 = name) (entries b) in
  foldl splice1 b indexesToRemove.

Definition applyRemoveAllNodeConnection (cs : IConnections) (name : string)
    (preserveInput preserveOutput : bool) : IConnections :=
  let cs := if preserveOutput then cs else jm_del cs name in
  if preserveInput then cs
  else jm_map (jm_map (λ inputs, fmap (M := option) (remove_positions name) <$> inputs)) cs.

(** No key occurs twice. *)
Definition conns_wf (cs : IConnections) : Prop := jm_wf cs ∧ ∀ s nc, jm_get cs s = Some nc → jm_wf nc.

Lemma elem_all_conns cs s t i d : conns_wf cs → (s, t, i, d) ∈ all_conns cs ↔ d ∈ bucket_of cs s t i.
Proof.
  intros [Hwf Hin]. unfold all_conns, bucket_of, conns_of. rewrite list_elem_of_bind. split.
  - intros ((s' & nc) & H & Hs). apply list_elem_of_bind in H as ((t' & inputs) & H & Ht).
    apply list_elem_of_bind in H as ((i' & b) & H & Hi). apply list_elem_of_bind in H as (d' & H & Hd).
    apply list_elem_of_singleton in H. injection H as -> -> -> ->.
    apply (jm_elem_get cs s' nc Hwf) in Hs. rewrite Hs. cbn.
    apply (jm_elem_get nc t' inputs (Hin _ _ Hs)) in Ht. rewrite Ht. cbn.
    apply elem_of_entries in Hi. rewrite Hi. by destruct b.
  - destruct (jm_get cs s) as [nc|] eqn:Hs; cbn; [|by intros []%not_elem_of_nil].
    destruct (jm_get nc t) as [inputs|] eqn:Ht; cbn; [|by intros []%not_elem_of_nil].
    destruct (inputs !! i) as [b|] eqn:Hi; cbn; [|by intros []%not_elem_of_nil]. intros Hd.
    exists (s, nc). split; [|by apply jm_get_Some_elem]. apply list_elem_of_bind. exists (t, inputs).
    split; [|by apply jm_get_Some_elem]. apply list_elem_of_bind. exists (i, b). split; [|by apply elem_of_entries].
    apply list_elem_of_bind. exists d. split; [by apply list_elem_of_singleton|by destruct b].
Qed.

(** What changes in one bucket changes in all connections. *)
Lemma node_bucket s nc t inputs A B :
  conns_of_inputs s t inputs ++ A ≡ₚ B ++ conns_of_inputs s t (default [] (jm_get nc t)) →
  conns_of_node s (jm_set nc t inputs) ++ A ≡ₚ B ++ conns_of_node s nc.
Proof.
  intros H. destruct (jm_set_split nc t inputs) as [[Hn ->]|(m1 & v0 & m2 & Hg & -> & ->)].
  - rewrite Hn in H. change (conns_of_inputs s t (default [] None)) with (@nil (string * NodeConnectionType * nat * IConnection)) in H.
    rewrite app_nil_r in H. rewrite conns_of_node_app, conns_of_node_cons.
    change (conns_of_node s []) with (@nil (string * NodeConnectionType * nat * IConnection)).
    rewrite app_nil_r, <- app_assoc, H. apply Permutation_app_comm.
  - rewrite Hg in H. cbn [default] in H. rewrite !conns_of_node_app, !conns_of_node_cons.
    rewrite <- !app_assoc. rewrite (Permutation_app_comm (conns_of_node s m2) A), (app_assoc (conns_of_inputs s t inputs)), H.
    rewrite <- !app_assoc. rewrite (app_assoc _ B), (Permutation_app_comm _ B), <- !app_assoc. done.
Qed.

Lemma conns_bucket cs s nc A B :
  conns_of_node s nc ++ A ≡ₚ B ++ conns_of_node s (default [] (jm_get cs s)) →
  all_conns (jm_set cs s nc) ++ A ≡ₚ B ++ all_conns cs.
Proof.
  intros H. destruct (jm_set_split cs s nc) as [[Hn ->]|(m1 & v0 & m2 & Hg & -> & ->)].
  - rewrite Hn in H. change (conns_of_node s (default [] None)) with (@nil (string * NodeConnectionType * nat * IConnection)) in H.
    rewrite app_nil_r in H. rewrite all_conns_app, all_conns_cons.
    change (all_conns []) with (@nil (string * NodeConnectionType * nat * IConnection)).
    rewrite app_nil_r, <- app_assoc, H. apply Permutation_app_comm.
  - rewrite Hg in H. cbn [default] in H. rewrite !all_conns_app, !all_conns_cons.
    rewrite <- !app_assoc. rewrite (Permutation_app_comm (all_conns m2) A), (app_assoc (conns_of_node s nc)), H.
    rewrite <- !app_assoc. rewrite (app_assoc _ B), (Permutation_app_comm _ B), <- !app_assoc. done.
Qed.

Lemma inputs_bucket s t inputs i b :
  (i < length inputs)%nat →
  conns_of_inputs s t (<[i := Some b]> inputs) ++ tag_slot s t i (default None (inputs !! i)) ≡ₚ
    tag_slot s t i (Some b) ++ conns_of_inputs s t inputs.
Proof.
  intros Hi. destruct (lookup_lt_is_Some_2 inputs i Hi) as [b0 Hb0]. rewrite Hb0. cbn [default].
  rewrite !conns_of_inputs_alt. rewrite insert_take_drop by done.
  rewrite <- (take_drop_middle inputs i b0 Hb0) at 3. rewrite !imap_app. cbn [imap]. rewrite !join_app. cbn [mjoin list_join].
  rewrite length_take, (Nat.min_l i) by lia. rewrite Nat.add_0_r.
  rewrite <- !app_assoc. etrans; [apply Permutation_app_swap_app|].
  apply Permutation_app_head, Permutation_app_head, Permutation_app_comm.
Qed.

Abbreviation conn := (string * NodeConnectionType * nat * IConnection)%type (only parsing).

Definition tag (s : string) (t : NodeConnectionType) (i : nat) (b : list IConnection) : list conn :=
  (λ c, (s, t, i, c)) <$> b.

Lemma pad_slots_at inputs i : default None (pad_slots inputs i !! i) = default (Some []) (inputs !! i).
Proof.
  unfold pad_slots. destruct (inputs !! i) as [b|] eqn:Hi.
  - by rewrite (lookup_app_l_Some _ _ _ _ Hi).
  - apply lookup_ge_None in Hi. rewrite lookup_app_r by done. rewrite lookup_replicate_2 by lia. done.
Qed.

Lemma pad_slots_length inputs i : (i < length (pad_slots inputs i))%nat.
Proof. unfold pad_slots. rewrite length_app, length_replicate. lia. Qed.

Lemma bucket_of_alt cs s t i :
  bucket_of cs s t i = bucket (default (Some []) (default [] (jm_get (default [] (jm_get cs s)) t) !! i)).
Proof.
  unfold bucket_of, conns_of. destruct (jm_get cs s) as [nc|]; cbn; [|done].
  destruct (jm_get nc t) as [inputs|]; cbn; [|done]. by destruct (inputs !! i) as [[b|]|].
Qed.

Lemma set_bucket_conns cs s t i b :
  all_conns (set_bucket cs s t i b) ++ tag s t i (bucket_of cs s t i) ≡ₚ tag s t i b ++ all_conns cs.
Proof.
  apply conns_bucket, node_bucket. rewrite <- (conns_of_inputs_pad s t (default [] (jm_get (default [] (jm_get cs s)) t)) i).
  rewrite bucket_of_alt, <- pad_slots_at. apply (inputs_bucket s t _ i b), pad_slots_length.
Qed.

Lemma set_bucket_wf cs s t i b : conns_wf cs → conns_wf (set_bucket cs s t i b).
Proof.
  intros [Hwf Hin]. unfold set_bucket. split; [by apply jm_wf_set|].
  intros s' nc. destruct (decide (s = s')) as [->|Hne].
  - rewrite jm_get_set. intros [= <-]. apply jm_wf_set. destruct (jm_get cs s') as [nc|] eqn:Hs; [by eapply Hin|constructor].
  - rewrite jm_get_set_ne by done. apply Hin.
Qed.

Lemma add_alt cs s d :
  applyAddConnection cs s d =
    set_bucket cs (c_node s) (c_type s) (c_index s)
      (let b := bucket_of cs (c_node s) (c_type s) (c_index s) in if decide (d ∈ b) then b else b ++ [d]).
Proof.
  unfold applyAddConnection, set_bucket. set (inputs := default [] (jm_get (default [] (jm_get cs (c_node s))) (c_type s))).
  assert (Hb : default [] (b ← pad_slots inputs (c_index s) !! c_index s; b) =
    bucket_of cs (c_node s) (c_type s) (c_index s)).
  { rewrite bucket_of_alt. fold inputs. rewrite <- pad_slots_at. by destruct (pad_slots _ _ !! _) as [[]|]. }
  rewrite Hb. destruct (existsb _ _) eqn:He.
  - apply existsb_exists in He as (c & Hc%list_elem_of_In & ->%bool_decide_eq_true).
    rewrite decide_True by done. do 2 f_equal. symmetry. apply list_insert_id.
    destruct (pad_slots inputs (c_index s) !! c_index s) as [[b|]|] eqn:Hl; cbn in Hb; [by rewrite <- Hb|..];
      rewrite <- Hb in Hc; by apply not_elem_of_nil in Hc.
  - rewrite decide_False; [done|]. intros Hd. apply not_true_iff_false in He. apply He. apply existsb_exists.
    exists d. split; [by apply list_elem_of_In|by apply bool_decide_eq_true].
Qed.

Definition conn_of (s d : IConnection) : conn := (c_node s, c_type s, c_index s, d).

Lemma add_conns cs s d :
  conns_wf cs →
  all_conns (applyAddConnection cs s d) ≡ₚ
    (if decide (conn_of s d ∈ all_conns cs) then all_conns cs else conn_of s d :: all_conns cs).
Proof.
  intros Hwf. rewrite add_alt. set (b := bucket_of cs (c_node s) (c_type s) (c_index s)).
  pose proof (set_bucket_conns cs (c_node s) (c_type s) (c_index s) (if decide (d ∈ b) then b else b ++ [d])) as H.
  fold b in H. unfold conn_of. cbn zeta. destruct (decide (d ∈ b)) as [Hd|Hd].
  - rewrite decide_True by (by apply elem_all_conns). rewrite Permutation_app_comm in H. by apply Permutation_app_inv_l in H.
  - rewrite decide_False by (by rewrite elem_all_conns).
    unfold tag in H at 2. rewrite fmap_app in H. rewrite <- app_assoc, Permutation_app_comm in H.
    by apply Permutation_app_inv_l in H.
Qed.

Lemma remove_loop_none (d : IConnection) b l :
  d ∉ b → foldl (λ b i, match b !! i with Some c => if bool_decide (c = d) then splice1 b i else b | None => b end) b l = b.
Proof.
  intros Hd. induction l as [|i l IH]; [done|]. cbn. destruct (b !! i) as [c|] eqn:Hi; [|done].
  rewrite bool_decide_false; [done|]. intros ->. by apply Hd, list_elem_of_lookup_2 with i.
Qed.

Lemma remove_loop_prefix (d : IConnection) b1 b2 n :
  d ∉ b1 → (n ≤ length b1)%nat →
  foldl (λ b i, match b !! i with Some c => if bool_decide (c = d) then splice1 b i else b | None => b end) (b1 ++ b2) (seq 0 n) = b1 ++ b2.
Proof.
  intros Hd Hn. induction n as [|n IH]; [done|]. rewrite seq_S, foldl_app, IH by lia. cbn.
  destruct (lookup_lt_is_Some_2 b1 n) as [c Hc]; [lia|]. rewrite (lookup_app_l_Some _ _ _ _ Hc).
  rewrite bool_decide_false; [done|]. intros ->. by apply Hd, list_elem_of_lookup_2 with n.
Qed.

Lemma remove_loop_perm d b : NoDup b → d ∈ b → b ≡ₚ d :: remove_loop d b.
Proof.
  intros Hnd (b1 & b2 & ->)%list_elem_of_split. apply NoDup_app in Hnd as (_ & H1 & [H2 _]%NoDup_cons).
  assert (d ∉ b1) as Hd1. { intros Hd. apply (H1 d Hd), elem_of_cons. by left. }
  unfold remove_loop. rewrite length_app. cbn [length]. rewrite seq_app, foldl_app, remove_loop_prefix by done.
  cbn [seq foldl]. rewrite lookup_app_r, Nat.sub_diag by done. cbn [lookup list_lookup]. rewrite bool_decide_true by done.
  assert (splice1 (b1 ++ d :: b2) (0 + length b1) = b1 ++ b2) as ->.
  { unfold splice1. cbn. rewrite take_app_length, drop_app_ge by lia. by replace (S (length b1) - length b1)%nat with 1%nat by lia. }
  rewrite remove_loop_none; [|by rewrite elem_of_app; intros [?|?]]. by rewrite Permutation_middle.
Qed.

Lemma bucket_NoDup cs s t i : NoDup (all_conns cs) → NoDup (bucket_of cs s t i).
Proof.
  intros Hnd. pose proof (set_bucket_conns cs s t i []) as H. cbn in H. rewrite <- H in Hnd.
  apply NoDup_app in Hnd as (_ & _ & Hnd). by apply NoDup_fmap_1 in Hnd.
Qed.

Lemma remove_alt cs s d :
  conn_of s d ∈ all_conns cs → conns_wf cs →
  applyRemoveConnection cs s d =
    set_bucket cs (c_node s) (c_type s) (c_index s) (remove_loop d (bucket_of cs (c_node s) (c_type s) (c_index s))).
Proof.
  intros Hin Hwf. apply elem_all_conns in Hin; [|done]. unfold applyRemoveConnection, set_bucket.
  unfold bucket_of, conns_of in *. destruct (jm_get cs (c_node s)) as [nc|]; cbn in *; [|by apply not_elem_of_nil in Hin].
  destruct (jm_get nc (c_type s)) as [inputs|]; cbn in *; [|by apply not_elem_of_nil in Hin].
  destruct (inputs !! c_index s) as [[b|]|] eqn:Hi; cbn in *; [|by apply not_elem_of_nil in Hin..].
  do 3 f_equal. unfold pad_slots. apply lookup_lt_Some in Hi.
  replace (S (c_index s) - length inputs)%nat with 0%nat by lia. cbn. by rewrite app_nil_r.
Qed.

Lemma remove_conns cs s d :
  conns_wf cs → NoDup (all_conns cs) → conn_of s d ∈ all_conns cs →
  conn_of s d :: all_conns (applyRemoveConnection cs s d) ≡ₚ all_conns cs.
Proof.
  intros Hwf Hnd Hin. rewrite remove_alt by done. apply elem_all_conns in Hin; [|done].
  set (b := bucket_of cs (c_node s) (c_type s) (c_index s)) in *.
  pose proof (set_bucket_conns cs (c_node s) (c_type s) (c_index s) (remove_loop d b)) as H. fold b in H.
  pose proof (remove_loop_perm d b (bucket_NoDup _ _ _ _ Hnd) Hin) as Hp.
  unfold tag in H. rewrite Hp in H at 2. rewrite fmap_cons in H. rewrite Permutation_app_comm in H. cbn in H.
  rewrite Permutation_middle in H. by apply Permutation_app_inv_l in H.
Qed.

(** * The document *)

(** [parameterObjects] are the parameters that commands refer to. *)
Record Canvas := mkCanvas {
  objects : list INode;
  parameterObjects : list (list (string * json));
  nodes : list nat;
  connections : IConnections;
}.

Definition with_objects (s : Canvas) (os : list INode) : Canvas := mkCanvas os (parameterObjects s) (nodes s) (connections s).
Definition with_refs (s : Canvas) (ns : list nat) : Canvas := mkCanvas (objects s) (parameterObjects s) ns (connections s).
Definition with_connections (s : Canvas) (cs : IConnections) : Canvas := mkCanvas (objects s) (parameterObjects s) (nodes s) cs.

Definition node_name (s : Canvas) (r : nat) : string := default "" (n_name <$> objects s !! r).

(** The first node of the canvas with a property. *)
Fixpoint find_node (os : list INode) (P : INode → bool) (ns : list nat) : option (nat * INode) :=
  match ns with
  | [] => None
  | r :: ns =>
      match os !! r with
      | Some n => if P n then Some (r, n) else find_node os P ns
      | None => find_node os P ns
      end
  end.

Definition getNodeById (s : Canvas) (id : string) : option (nat * INode) :=
  find_node (objects s) (λ n, bool_decide (n_id n = id)) (nodes s).
Definition getNodeByName (s : Canvas) (name : string) : option (nat * INode) :=
  find_node (objects s) (λ n, bool_decide (n_name n = name)) (nodes s).

Definition with_position (n : INode) (p : Z * Z) : INode :=
  mkNode (n_id n) (n_name n) (n_type n) (n_typeVersion n) p (n_disabled n) (n_parameters n)
    (n_retryOnFail n) (n_maxTries n) (n_waitBetweenTries n) (n_alwaysOutputData n)
    (n_executeOnce n) (n_onError n) (n_continueOnFail n) (n_rewireOutputLogTo n).
Definition with_disabled (n : INode) (d : option bool) : INode :=
  mkNode (n_id n) (n_name n) (n_type n) (n_typeVersion n) (n_position n) d (n_parameters n)
    (n_retryOnFail n) (n_maxTries n) (n_waitBetweenTries n) (n_alwaysOutputData n)
    (n_executeOnce n) (n_onError n) (n_continueOnFail n) (n_rewireOutputLogTo n).

(** Change the first node of the given name; the stores look it up by name. *)
Definition update_by_name (s : Canvas) (name : string) (f : INode → INode) : Canvas :=
  match getNodeByName s name with
  | Some (r, _) => with_objects s (alter f r (objects s))
  | None => s
  end.

Definition setNodePositionById (s : Canvas) (id : string) (position : Z * Z) : Canvas :=
  match getNodeById s id with
  | Some (_, n) => update_by_name s (n_name n) (λ n, with_position n position)
  | None => s
  end.

Definition setNodeParameters (s : Canvas) (name : string) (value : nat) : Canvas :=
  update_by_name s name (λ n, with_parameters n (default [] (parameterObjects s !! value))).

Definition addNode (s : Canvas) (r : nat) : Canvas := with_refs s (nodes s ++ [r]).

Definition removeNodeById (s : Canvas) (id : string) : Canvas :=
  match list_find (λ r, n_id <$> objects s !! r = Some id) (nodes s) with
  | Some (idx, _) => with_refs s (splice1 (nodes s) idx)
  | None => s
  end.

(** * Operations

    An operation gives the changed document and, when it tracks history, the commands
    it pushes, in order. *)

Definition change : Type := Canvas * list Command.

Definition pushes (trackHistory : bool) (c : Command) : list Command := if trackHistory then [c] else [].

Definition andThen (c : change) (f : Canvas → change) : change := let '(s, cs) := c in let '(s, cs') := f s in (s, cs ++ cs').

(** A connection of the canvas, between nodes given by their identifiers. *)
Record Connection := mkConnection {
  source : string;
  sourceType : NodeConnectionType;
  sourceIndex : nat;
  target : string;
  targetType : NodeConnectionType;
  targetIndex : nat;
}.

Inductive GroupAction := AddToGroup | RemoveFromGroup.

Section Operations.
Context (isConnectionAllowed : Canvas → INode → INode → IConnection → IConnection → bool)
  (isConnectionChangeAllowedForNodeGroups : Canvas → GroupAction → IConnection → IConnection → bool)
  (uniqueNodeName : list string → string → string)
  (applyAccessPatterns : string → string → string → string).

Definition updateNodePosition (trackHistory : bool) (id : string) (position : Z * Z) (s : Canvas) : change :=
  match getNodeById s id with
  | None => (s, [])
  | Some (r, n) =>
      (setNodePositionById s id position, pushes trackHistory (MoveNodeCommand (n_name n) (n_position n) position))
  end.

Definition updateNodesPosition (trackHistory : bool) (events : list (string * (Z * Z))) (s : Canvas) : change :=
  foldl (λ c ev, andThen c (updateNodePosition trackHistory ev.1 ev.2)) (s, []) events.

Definition replaceNodeParameters (trackHistory : bool) (nodeId : string) (currentParameters newParameters : nat)
    (s : Canvas) : change :=
  match getNodeById s nodeId with
  | None => (s, [])
  | Some (_, n) =>
      (setNodeParameters s (n_name n) newParameters,
       pushes trackHistory (ReplaceNodeParametersCommand nodeId currentParameters newParameters))
  end.

(** The command reads [node.disabled] after the node was changed. *)
Definition disableNode (trackHistory newDisabledState : bool) (r : nat) (s : Canvas) : change :=
  match objects s !! r with
  | None => (s, [])
  | Some n =>
      if bool_decide (n_disabled n = Some newDisabledState) then (s, [])
      else
        let s := update_by_name s (n_name n) (λ n, with_disabled n (Some newDisabledState)) in
        let after := default n (objects s !! r) in
        (s, pushes trackHistory (EnableNodeToggleCommand (n_name n) (is_disabled after) newDisabledState))
  end.

Definition disableNodes (trackHistory : bool) (ns : list nat) (s : Canvas) : change :=
  let newDisabledState := existsb (λ r, match objects s !! r with Some n => negb (is_disabled n) | None => true end) ns in
  foldl (λ c r, andThen c (disableNode trackHistory newDisabledState r)) (s, []) ns.

Definition toggleNodesDisabled (trackHistory : bool) (ids : list string) (s : Canvas) : change :=
  disableNodes trackHistory (omap (λ id, (λ p, p.1) <$> getNodeById s id) ids) s.

Definition mapCanvasConnectionToLegacyConnection (sourceNode targetNode : INode) (c : Connection)
    : IConnection * IConnection :=
  (mkConn (n_name sourceNode) (sourceType c) (sourceIndex c), mkConn (n_name targetNode) (targetType c) (targetIndex c)).

Definition mapLegacyConnectionToCanvasConnection (sourceNode targetNode : INode) (c1 c2 : IConnection) : Connection :=
  mkConnection (n_id sourceNode) (c_type c1) (c_index c1) (n_id targetNode) (c_type c2) (c_index c2).

Definition createConnection (trackHistory validateNodeGroups : bool) (c : Connection) (s : Canvas) : change :=
  match getNodeById s (source c), getNodeById s (target c) with
  | Some (_, sourceNode), Some (_, targetNode) =>
      let '(c1, c2) := mapCanvasConnectionToLegacyConnection sourceNode targetNode c in
      if negb (isConnectionAllowed s sourceNode targetNode c1 c2) then (s, [])
      else if validateNodeGroups && negb (isConnectionChangeAllowedForNodeGroups s AddToGroup c1 c2) then (s, [])
      else (with_connections s (applyAddConnection (connections s) c1 c2), pushes trackHistory (AddConnectionCommand c1 c2))
  | _, _ => (s, [])
  end.

Definition deleteConnection (trackHistory validateNodeGroups : bool) (c : Connection) (s : Canvas) : change :=
  match getNodeById s (source c), getNodeById s (target c) with
  | Some (_, sourceNode), Some (_, targetNode) =>
      let '(c1, c2) := mapCanvasConnectionToLegacyConnection sourceNode targetNode c in
      if validateNodeGroups && negb (isConnectionChangeAllowedForNodeGroups s RemoveFromGroup c1 c2) then (s, [])
      else (with_connections s (applyRemoveConnection (connections s) c1 c2), pushes trackHistory (RemoveConnectionCommand c1 c2))
  | _, _ => (s, [])
  end.

(** [connections[type]?.at(0) ?? []] of the connections of one node. *)
Definition first_of (nc : INodeConnections) (type : NodeConnectionType) : list IConnection :=
  default [] (inputs ← jm_get nc type; b ← inputs !! 0%nat; b).

(** The ends that [connectAdjacentNodes] joins: of each type, what leads to the first
    input of the node, and where its first output leads.  The loop reads the store while
    it makes connections, which leaves these buckets alone unless the node is connected
    to itself. *)
Definition adjacent (cs : IConnections) (name : string) : list (IConnection * IConnection) :=
  let outputConnectionsByType := default [] (jm_get cs name) in
  let incomingConnectionsByType := default [] (jm_get (mapConnectionsByDestination cs) name) in
  '(type, _) ← incomingConnectionsByType;
  incomingConnection ← first_of incomingConnectionsByType type;
  outgoingConnection ← first_of outputConnectionsByType type;
  [(mkConn (c_node incomingConnection) type (c_index incomingConnection),
    mkConn (c_node outgoingConnection) type (c_index outgoingConnection))].

(** The command is pushed whether or not the connection is made. *)
Definition connectAdjacent (trackHistory validateNodeGroups : bool) (p : IConnection * IConnection) (s : Canvas) : change :=
  match getNodeByName s (c_node p.1), getNodeByName s (c_node p.2) with
  | Some (_, incomingNode), Some (_, outgoingNode) =>
      let '(s, _) := createConnection false validateNodeGroups
                       (mapLegacyConnectionToCanvasConnection incomingNode outgoingNode p.1 p.2) s in
      (s, pushes trackHistory (AddConnectionCommand p.1 p.2))
  | _, _ => (s, [])
  end.

Definition connectAdjacentNodes (trackHistory validateNodeGroups : bool) (id : string) (s : Canvas) : change :=
  match getNodeById s id with
  | None => (s, [])
  | Some (_, node) =>
      foldl (λ c p, andThen c (connectAdjacent trackHistory validateNodeGroups p)) (s, [])
        (adjacent (connections s) (n_name node))
  end.

(** One connection of the loop of [deleteConnectionsByNodeId]. *)
Definition deleteTouching (trackHistory : bool) (targetNode : INode) (x : string * NodeConnectionType * nat * IConnection)
    (s : Canvas) : change :=
  let '(nodeName, type, index, connectionData) := x in
  match getNodeByName s nodeName, getNodeByName s (c_node connectionData) with
  | Some (_, node), Some (_, connectionDataNode) =>
      if bool_decide (n_id connectionDataNode = n_id targetNode) || bool_decide (n_name node = n_name targetNode)
      then deleteConnection trackHistory false
             (mapLegacyConnectionToCanvasConnection node connectionDataNode (mkConn nodeName type index) connectionData) s
      else (s, [])
  | _, _ => (s, [])
  end.

Definition deleteConnectionsByNodeId (trackHistory : bool) (targetNodeId : string) (s : Canvas) : change :=
  match getNodeById s targetNodeId with
  | None => (s, [])
  | Some (_, targetNode) =>
      let '(s, cs) :=
        foldl (λ c x, andThen c (deleteTouching trackHistory targetNode x)) (s, []) (all_conns (connections s)) in
      (with_connections s (applyRemoveAllNodeConnection (connections s) (n_name targetNode) false false), cs)
  end.

Definition deleteNode (trackHistory : bool) (id : string) (s : Canvas) : change :=
  match getNodeById s id with
  | None => (s, [])
  | Some (r, node) =>
      andThen (andThen (connectAdjacentNodes trackHistory false id s) (deleteConnectionsByNodeId trackHistory id))
        (λ s, (removeNodeById s id, pushes trackHistory (RemoveNodeCommand r)))
  end.

Definition deleteNodes (trackHistory : bool) (ids : list string) (s : Canvas) : change :=
  foldl (λ c id, andThen c (deleteNode trackHistory id)) (s, []) ids.

(** The workflow object of the document, for [renameNode]. *)
Definition cloneWorkflowObject (s : Canvas) : Workflow :=
  mkWorkflow (foldl (λ m r, match objects s !! r with Some n => jm_set m (n_name n) n | None => m end) [] (nodes s))
    (connections s) (getConnectionsByDestination (connections s)) None None [] None.

(** [None]: [renameNode] of the workflow throws, or the name does not change.  The nodes
    of the renamed workflow are new objects. *)
Definition renameNode (currentName newName : string) (s : Canvas) : option (Canvas * string) :=
  if bool_decide (currentName = newName) then None
  else
    let newName := uniqueNodeName (node_name s <$> nodes s) newName in
    match WorkflowClass.renameNode applyAccessPatterns (cloneWorkflowObject s) currentName newName with
    | Err _ => None
    | Ok w =>
        let ns := jm_vals (w_nodes w) in
        Some (mkCanvas (objects s ++ ns) (parameterObjects s) (seq (length (objects s)) (length ns)) (connectionsBySourceNode w),
              newName)
    end.

(** * History events *)

Definition revertUpdateNodePosition (nodeName : string) (position : Z * Z) (s : Canvas) : Canvas :=
  match getNodeByName s nodeName with
  | None => s
  | Some (_, n) => (updateNodePosition false (n_id n) position s).1
  end.

Definition revertAddNode (nodeName : string) (s : Canvas) : Canvas :=
  match getNodeByName s nodeName with
  | None => s
  | Some (_, n) => (deleteNode false (n_id n) s).1
  end.

Definition revertDeleteNode (r : nat) (s : Canvas) : Canvas := addNode s r.

Definition revertCreateConnection (c1 c2 : IConnection) (s : Canvas) : Canvas :=
  match getNodeByName s (c_node c1), getNodeByName s (c_node c2) with
  | Some (_, sourceNode), Some (_, targetNode) =>
      (deleteConnection false false (mapLegacyConnectionToCanvasConnection sourceNode targetNode c1 c2) s).1
  | _, _ => s
  end.

Definition revertDeleteConnection (c1 c2 : IConnection) (s : Canvas) : Canvas :=
  match getNodeByName s (c_node c1), getNodeByName s (c_node c2) with
  | Some (_, sourceNode), Some (_, targetNode) =>
      (createConnection false true (mapLegacyConnectionToCanvasConnection sourceNode targetNode c1 c2) s).1
  | _, _ => s
  end.

Definition revertToggleNodeDisabled (nodeName : string) (s : Canvas) : Canvas :=
  match getNodeByName s nodeName with
  | None => s
  | Some (r, _) => (disableNodes false [r] s).1
  end.

Definition revertReplaceNodeParameters (nodeId : string) (currentParameters newParameters : nat) (s : Canvas) : Canvas :=
  (replaceNodeParameters false nodeId newParameters currentParameters s).1.

Definition revertRenameNode (currentName previousName : string) (s : Canvas) : Canvas :=
  match renameNode currentName previousName s with Some (s, _) => s | None => s end.

(** The event of a command and its handler. *)
Definition canvas_revert (names : nat → string) (c : Command) (s : Canvas) : Canvas :=
  match c with
  | MoveNodeCommand nodeName oldPosition _ => revertUpdateNodePosition nodeName oldPosition s
  | AddNodeCommand node => revertAddNode (names node) s
  | RemoveNodeCommand node => revertDeleteNode node s
  | AddConnectionCommand c1 c2 => revertCreateConnection c1 c2 s
  | RemoveConnectionCommand c1 c2 => revertDeleteConnection c1 c2 s
  | EnableNodeToggleCommand nodeName _ _ => revertToggleNodeDisabled nodeName s
  | RenameNodeCommand currentName newName => revertRenameNode currentName newName s
  | ReplaceNodeParametersCommand nodeId currentParameters newParameters =>
      revertReplaceNodeParameters nodeId currentParameters newParameters s
  end.

(** A recorded action of the user: all its commands are one bulk. *)
Definition act (h : HistoryState) (c : change) : HistoryState * Canvas :=
  let '(s, cs) := c in (record_bulk (node_name s) h cs, s).

(** The rename of the user: a rename that fails leaves the recording open. *)
Definition act_rename (h : HistoryState) (currentName newName : string) (s : Canvas) : HistoryState * Canvas :=
  if bool_decide (currentName = newName) then (h, s)
  else
    match renameNode currentName newName s with
    | Some (s', name) => (record_bulk (node_name s') h [RenameNodeCommand currentName name], s')
    | None => (startRecordingUndo h, s)
    end.
End Operations.

(** * Equal documents *)

Definition view (n : INode) : INode := with_disabled n (Some (is_disabled n)).
Definition views (s : Canvas) : list INode := view <$> objects s.

(** The order of nodes and connections does not matter, and a node that says it is not
    disabled is like one that says nothing. *)
Record same_canvas (s1 s2 : Canvas) : Prop := {
  same_objects : views s1 = views s2;
  same_parameters : parameterObjects s1 = parameterObjects s2;
  same_nodes : nodes s1 ≡ₚ nodes s2;
  same_conns : all_conns (connections s1) ≡ₚ all_conns (connections s2);
  same_wf : conns_wf (connections s1) ↔ conns_wf (connections s2);
}.

#[export] Instance same_canvas_equivalence : Equivalence same_canvas.
Proof.
  split.
  - intros s. by constructor.
  - intros s1 s2 []. constructor; by symmetry.
  - intros s1 s2 s3 [] []. constructor; by etrans.
Qed.

Definition on_canvas (s : Canvas) (r : nat) (n : INode) : Prop := r ∈ nodes s ∧ views s !! r = Some n.

Definition named (s : Canvas) (name : string) : Prop := ∃ r n, on_canvas s r n ∧ n_name n = name.

Record canvas_wf (s : Canvas) : Prop := {
  wf_refs : NoDup (nodes s);
  wf_allocated r : r ∈ nodes s → is_Some (views s !! r);
  wf_ids r r' n n' : on_canvas s r n → on_canvas s r' n' → n_id n = n_id n' → r = r';
  wf_names r r' n n' : on_canvas s r n → on_canvas s r' n' → n_name n = n_name n' → r = r';
  wf_keys : conns_wf (connections s);
  wf_once : NoDup (all_conns (connections s));
  wf_closed a t i c : (a, t, i, c) ∈ all_conns (connections s) → named s a ∧ named s (c_node c);
}.

Lemma on_canvas_same s1 s2 r n : same_canvas s1 s2 → on_canvas s1 r n → on_canvas s2 r n.
Proof. intros [Ho _ Hn _ _] [Hr Hv]. split; [by rewrite <- Hn|by rewrite <- Ho]. Qed.

Lemma canvas_wf_same s1 s2 : same_canvas s1 s2 → canvas_wf s1 → canvas_wf s2.
Proof.
  intros Hs [H1 H2 H3 H4 H5 H6 H7]. assert (same_canvas s2 s1) as Hs' by by symmetry.
  pose proof Hs as [Ho Hp Hn Hc Hw]. constructor.
  - by rewrite <- Hn.
  - intros r Hr. rewrite <- Ho. apply H2. by rewrite Hn.
  - intros r r' n n' Hr Hr'. by apply H3; apply (on_canvas_same s2).
  - intros r r' n n' Hr Hr'. by apply H4; apply (on_canvas_same s2).
  - by apply Hw.
  - by rewrite <- Hc.
  - intros a t i c Hin. rewrite <- Hc in Hin. destruct (H7 a t i c Hin) as [(r & n & Hr & Hn1) (r' & n' & Hr' & Hn2)].
    split; [exists r, n|exists r', n']; split; try done; by apply (on_canvas_same s1).
Qed.

Lemma view_id n : n_id (view n) = n_id n. Proof. done. Qed.
Lemma view_name n : n_name (view n) = n_name n. Proof. done. Qed.

Lemma find_node_first os P ns r n :
  r ∈ ns → os !! r = Some n → P n = true →
  (∀ r' n', r' ∈ ns → os !! r' = Some n' → P n' = true → r' = r) → find_node os P ns = Some (r, n).
Proof.
  intros Hr Hn HP Hu. induction ns as [|r0 ns IH]; [by apply not_elem_of_nil in Hr|]. cbn.
  destruct (os !! r0) as [n0|] eqn:H0.
  - destruct (P n0) eqn:HP0.
    + assert (r0 = r) as -> by (apply (Hu r0 n0); try done; apply elem_of_cons; by left). by rewrite Hn in H0; injection H0 as ->.
    + apply elem_of_cons in Hr as [->|Hr]; [rewrite Hn in H0; injection H0 as ->; congruence|].
      apply IH; [done|]. intros r' n' Hr'. apply Hu, elem_of_cons. by right.
  - apply elem_of_cons in Hr as [->|Hr]; [congruence|]. apply IH; [done|]. intros r' n' Hr'. apply Hu, elem_of_cons. by right.
Qed.

Lemma on_canvas_object s r n : on_canvas s r n → ∃ n0, objects s !! r = Some n0 ∧ view n0 = n.
Proof. intros [_ Hv]. unfold views in Hv. rewrite list_lookup_fmap in Hv. destruct (objects s !! r) as [n0|]; [|done]. exists n0. by injection Hv. Qed.

Lemma object_on_canvas s r n : r ∈ nodes s → objects s !! r = Some n → on_canvas s r (view n).
Proof. intros Hr Hn. split; [done|]. unfold views. by rewrite list_lookup_fmap, Hn. Qed.

(** A node of the canvas is found by its identifier and by its name. *)
Lemma find_on_canvas s r n :
  canvas_wf s → on_canvas s r n →
  ∃ n0, view n0 = n ∧ objects s !! r = Some n0 ∧ getNodeById s (n_id n) = Some (r, n0) ∧ getNodeByName s (n_name n) = Some (r, n0).
Proof.
  intros Hwf Hr. destruct (on_canvas_object _ _ _ Hr) as (n0 & Hn0 & Hv). exists n0. pose proof Hr as [Hin _].
  split_and!; [done|done|apply find_node_first..]; try done; rewrite <- ?Hv; rewrite ?view_id, ?view_name, ?bool_decide_true by done; try done.
  - intros r' n' Hr' Hn' H%bool_decide_eq_true. apply (wf_ids s Hwf r' r (view n') n); [by apply object_on_canvas|done|].
    by rewrite <- Hv.
  - intros r' n' Hr' Hn' H%bool_decide_eq_true. apply (wf_names s Hwf r' r (view n') n); [by apply object_on_canvas|done|].
    by rewrite <- Hv.
Qed.

Lemma find_named s name :
  canvas_wf s → named s name →
  ∃ r n, on_canvas s r (view n) ∧ n_name n = name ∧ getNodeByName s name = Some (r, n) ∧ getNodeById s (n_id n) = Some (r, n).
Proof.
  intros Hwf (r & n & Hr & <-). destruct (find_on_canvas s r n Hwf Hr) as (n0 & Hv & _ & Hi & Hn). exists r, n0.
  subst n. split_and!; done.
Qed.

Lemma update_views s name r n0 f g :
  getNodeByName s name = Some (r, n0) → objects s !! r = Some n0 → (∀ n, view (f n) = g (view n)) →
  views (update_by_name s name f) = <[r := g (view n0)]> (views s).
Proof.
  intros Hn Hr Hfg. unfold update_by_name, views. rewrite Hn. cbn. apply list_eq. intros j.
  rewrite list_lookup_fmap. destruct (decide (r = j)) as [<-|Hne].
  - rewrite list_lookup_alter_eq, Hr. cbn. rewrite list_lookup_insert_eq; [by rewrite Hfg|].
    rewrite length_fmap. by eapply lookup_lt_Some.
  - rewrite list_lookup_alter_ne, list_lookup_insert_ne by done. by rewrite list_lookup_fmap.
Qed.

(** * What commands record *)

Section Laws.
Context (isConnectionAllowed : Canvas → INode → INode → IConnection → IConnection → bool)
  (isConnectionChangeAllowedForNodeGroups : Canvas → GroupAction → IConnection → IConnection → bool)
  (uniqueNodeName : list string → string → string)
  (applyAccessPatterns : string → string → string → string).

Abbreviation createConnection := (createConnection isConnectionAllowed isConnectionChangeAllowedForNodeGroups).
Abbreviation deleteConnection := (deleteConnection isConnectionChangeAllowedForNodeGroups).
Abbreviation connectAdjacent := (connectAdjacent isConnectionAllowed isConnectionChangeAllowedForNodeGroups).
Abbreviation deleteTouching := (deleteTouching isConnectionChangeAllowedForNodeGroups).
Abbreviation connectAdjacentNodes := (connectAdjacentNodes isConnectionAllowed isConnectionChangeAllowedForNodeGroups).
Abbreviation deleteConnectionsByNodeId := (deleteConnectionsByNodeId isConnectionChangeAllowedForNodeGroups).
Abbreviation deleteNode := (deleteNode isConnectionAllowed isConnectionChangeAllowedForNodeGroups).
Abbreviation canvas_revert :=
  (canvas_revert isConnectionAllowed isConnectionChangeAllowedForNodeGroups uniqueNodeName applyAccessPatterns).

(** Node types and groups always let the connection be made. *)
Definition allowed (c1 c2 : IConnection) : Prop :=
  (∀ s n1 n2, isConnectionAllowed s n1 n2 c1 c2 = true) ∧
  ∀ s, isConnectionChangeAllowedForNodeGroups s AddToGroup c1 c2 = true.

(** The node [r] changes from [n] to [n']. *)
Definition node_changed (s s' : Canvas) (r : nat) (n n' : INode) : Prop :=
  on_canvas s r n ∧ views s' = <[r := n']> (views s) ∧ nodes s ≡ₚ nodes s' ∧
  all_conns (connections s) ≡ₚ all_conns (connections s').

Definition node_added (s s' : Canvas) (r : nat) : Prop :=
  views s = views s' ∧ nodes s' ≡ₚ r :: nodes s ∧ all_conns (connections s) ≡ₚ all_conns (connections s').

Definition conn_added (s s' : Canvas) (c1 c2 : IConnection) : Prop :=
  views s = views s' ∧ nodes s ≡ₚ nodes s' ∧
  all_conns (connections s') ≡ₚ conn_of c1 c2 :: all_conns (connections s) ∧ allowed c1 c2.

(** A rename records nothing that its command would revert: see [undo_rename_does_nothing]. *)
Definition records (c : Command) (s s' : Canvas) : Prop :=
  match c with
  | MoveNodeCommand name oldPosition newPosition => ∃ r n, n_name n = name ∧ n_position n = oldPosition ∧
      node_changed s s' r n (with_position n newPosition)
  | AddNodeCommand r => node_added s s' r
  | RemoveNodeCommand r => node_added s' s r
  | AddConnectionCommand c1 c2 => conn_added s s' c1 c2
  | RemoveConnectionCommand c1 c2 => conn_added s' s c1 c2
  | EnableNodeToggleCommand name _ _ => ∃ r n, n_name n = name ∧
      node_changed s s' r n (with_disabled n (Some (negb (is_disabled n))))
  | RenameNodeCommand _ _ => False
  | ReplaceNodeParametersCommand id cur new => ∃ r n, n_id n = id ∧ n_parameters n = default [] (parameterObjects s !! cur) ∧
      node_changed s s' r n (with_parameters n (default [] (parameterObjects s !! new)))
  end.

Definition canvas_effect (c : Command) (s s' : Canvas) : Prop :=
  canvas_wf s ∧ canvas_wf s' ∧ parameterObjects s = parameterObjects s' ∧ records c s s'.

#[export] Instance canvas_document : Document Canvas := {
  revert := canvas_revert;
  name_of := node_name;
  same := same_canvas;
  effect := canvas_effect;
}.

Lemma node_changed_same s s' t t' r n n' :
  same_canvas s t → same_canvas s' t' → node_changed s s' r n n' → node_changed t t' r n n'.
Proof.
  intros Hs Hs' (Hr & Hv & Hn & Hc). pose proof Hs as [Ho _ Hns Hcs _]. pose proof Hs' as [Ho' _ Hns' Hcs' _].
  split_and!; [by eapply on_canvas_same|by rewrite <- Ho', <- Ho|by rewrite <- Hns, <- Hns'|by rewrite <- Hcs, <- Hcs'].
Qed.

Lemma node_added_same s s' t t' r :
  same_canvas s t → same_canvas s' t' → node_added s s' r → node_added t t' r.
Proof.
  intros [Ho _ Hns Hcs _] [Ho' _ Hns' Hcs' _] (Hv & Hn & Hc).
  split_and!; [by rewrite <- Ho', <- Ho|by rewrite <- Hns, <- Hns'|by rewrite <- Hcs, <- Hcs'].
Qed.

Lemma conn_added_same s s' t t' c1 c2 :
  same_canvas s t → same_canvas s' t' → conn_added s s' c1 c2 → conn_added t t' c1 c2.
Proof.
  intros [Ho _ Hns Hcs _] [Ho' _ Hns' Hcs' _] (Hv & Hn & Hc & Ha).
  split_and!; [by rewrite <- Ho', <- Ho|by rewrite <- Hns, <- Hns'|by rewrite <- Hcs, <- Hcs'|done].
Qed.

Lemma records_same c s s' t t' :
  same_canvas s t → same_canvas s' t' → canvas_effect c s s' → canvas_effect c t t'.
Proof.
  intros Hs Hs' (Hwf & Hwf' & Hp & Hr). split_and!; [by eapply canvas_wf_same..| |].
  { pose proof (same_parameters _ _ Hs). pose proof (same_parameters _ _ Hs'). congruence. }
  destruct c; cbn in *.
  - destruct Hr as (r & n & H1 & H2 & H3). exists r, n. split_and!; [done..|by eapply node_changed_same].
  - by eapply node_added_same.
  - by eapply node_added_same.
  - by eapply conn_added_same.
  - by eapply conn_added_same.
  - destruct Hr as (r & n & H1 & H3). exists r, n. split_and!; [done..|by eapply node_changed_same].
  - done.
  - rewrite <- (same_parameters _ _ Hs). destruct Hr as (r & n & H1 & H2 & H3). exists r, n.
    split_and!; [done..|by eapply node_changed_same].
Qed.

Lemma node_changed_back s s' r n n' : node_changed s s' r n n' → node_changed s' s r n' n.
Proof.
  intros ([Hr Hn] & Hv & Hns & Hc). split_and!; [split| |done..].
  - by rewrite <- Hns.
  - rewrite Hv. apply list_lookup_insert_eq. by eapply lookup_lt_Some.
  - rewrite Hv, list_insert_insert. symmetry. rewrite decide_True by done. by apply list_insert_id.
Qed.

(** A node as it is seen has its [disabled] set. *)
Lemma on_canvas_view s r n : on_canvas s r n → n_disabled n = Some (is_disabled n).
Proof. intros (n0 & _ & <-)%on_canvas_object. unfold view, is_disabled. cbn. by case_bool_decide. Qed.

Lemma records_reverse c s s' : canvas_effect c s s' → canvas_effect (getReverseCommand c) s' s.
Proof.
  intros (Hwf & Hwf' & Hp & Hr). split_and!; [done..|]. destruct c; cbn in *; try done.
  - destruct Hr as (r & n & <- & <- & Hc). exists r, (with_position n newPosition). split_and!; [done..|].
    apply node_changed_back in Hc. by destruct n.
  - destruct Hr as (r & n & <- & Hc). exists r, (with_disabled n (Some (negb (is_disabled n)))). split; [done|].
    pose proof (on_canvas_view s r n (proj1 Hc)) as Hd. apply node_changed_back in Hc.
    assert (with_disabled (with_disabled n (Some (negb (is_disabled n))))
      (Some (negb (is_disabled (with_disabled n (Some (negb (is_disabled n))))))) = n) as ->; [|done].
    destruct n as [? ? ? ? ? d]; cbn in *. by destruct d as [[]|].
  - destruct Hr as (r & n & <- & Hcur & Hc). exists r, (with_parameters n (default [] (parameterObjects s !! newParameters))).
    rewrite <- Hp. split_and!; [done..|]. apply node_changed_back in Hc. rewrite <- Hcur. by destruct n.
Qed.

(** * One connection *)

Lemma create_spec (b v : bool) s r1 r2 n1 n2 c1 c2 :
  getNodeById s (n_id n1) = Some (r1, n1) → getNodeById s (n_id n2) = Some (r2, n2) →
  n_name n1 = c_node c1 → n_name n2 = c_node c2 → allowed c1 c2 →
  createConnection b v (mapLegacyConnectionToCanvasConnection n1 n2 c1 c2) s =
    (with_connections s (applyAddConnection (connections s) c1 c2), pushes b (AddConnectionCommand c1 c2)).
Proof.
  intros H1 H2 Hn1 Hn2 [Ha Hg]. destruct c1 as [a1 t1 i1], c2 as [a2 t2 i2]. cbn in Hn1, Hn2. subst a1 a2.
  unfold CanvasOperations.createConnection, mapLegacyConnectionToCanvasConnection. cbn. rewrite H1, H2. cbn.
  rewrite Ha, Hg. cbn. by rewrite andb_false_r.
Qed.

Lemma delete_spec (b : bool) s r1 r2 n1 n2 c1 c2 :
  getNodeById s (n_id n1) = Some (r1, n1) → getNodeById s (n_id n2) = Some (r2, n2) →
  n_name n1 = c_node c1 → n_name n2 = c_node c2 →
  deleteConnection b false (mapLegacyConnectionToCanvasConnection n1 n2 c1 c2) s =
    (with_connections s (applyRemoveConnection (connections s) c1 c2), pushes b (RemoveConnectionCommand c1 c2)).
Proof.
  intros H1 H2 Hn1 Hn2. destruct c1 as [a1 t1 i1], c2 as [a2 t2 i2]. cbn in Hn1, Hn2. subst a1 a2.
  unfold CanvasOperations.deleteConnection, mapLegacyConnectionToCanvasConnection. cbn. by rewrite H1, H2.
Qed.

Lemma with_connections_wf s cs :
  canvas_wf s → conns_wf cs → NoDup (all_conns cs) →
  (∀ a t i c, (a, t, i, c) ∈ all_conns cs → named s a ∧ named s (c_node c)) → canvas_wf (with_connections s cs).
Proof. intros [H1 H2 H3 H4 H5 H6 H7] Hw Hn Hc. by constructor. Qed.

Lemma applyAddConnection_wf cs c1 c2 : conns_wf cs → conns_wf (applyAddConnection cs c1 c2).
Proof. intros H. rewrite add_alt. by apply set_bucket_wf. Qed.

Lemma applyRemoveConnection_wf cs c1 c2 : conns_wf cs → conn_of c1 c2 ∈ all_conns cs → conns_wf (applyRemoveConnection cs c1 c2).
Proof. intros H Hin. rewrite remove_alt by done. by apply set_bucket_wf. Qed.

Lemma added_canvas s c1 c2 :
  canvas_wf s → named s (c_node c1) → named s (c_node c2) → conn_of c1 c2 ∉ all_conns (connections s) →
  let s' := with_connections s (applyAddConnection (connections s) c1 c2) in
  canvas_wf s' ∧ all_conns (connections s') ≡ₚ conn_of c1 c2 :: all_conns (connections s).
Proof.
  intros Hwf H1 H2 Hno s'. pose proof (add_conns (connections s) c1 c2 (wf_keys s Hwf)) as Hp.
  rewrite decide_False in Hp by done. split; [|done]. apply with_connections_wf; [done| | |].
  - by apply applyAddConnection_wf, wf_keys.
  - rewrite Hp. constructor; [done|by apply wf_once].
  - intros a t i c Hin. rewrite Hp in Hin. apply elem_of_cons in Hin as [Heq|Hin]; [|by apply (wf_closed s Hwf) in Hin].
    unfold conn_of in Heq. by injection Heq as -> -> -> ->.
Qed.

Lemma removed_canvas s c1 c2 :
  canvas_wf s → conn_of c1 c2 ∈ all_conns (connections s) →
  let s' := with_connections s (applyRemoveConnection (connections s) c1 c2) in
  canvas_wf s' ∧ conn_of c1 c2 :: all_conns (connections s') ≡ₚ all_conns (connections s).
Proof.
  intros Hwf Hin s'. pose proof (remove_conns (connections s) c1 c2 (wf_keys s Hwf) (wf_once s Hwf) Hin) as Hp.
  split; [|done]. apply with_connections_wf; [done| | |].
  - by apply applyRemoveConnection_wf; [apply wf_keys|].
  - pose proof (wf_once s Hwf) as Hnd. rewrite <- Hp in Hnd. by apply NoDup_cons in Hnd as [_ ?].
  - intros a t i c Hin'. apply (wf_closed s Hwf a t i c). rewrite <- Hp. apply elem_of_cons. by right.
Qed.

(** A single connection that is made or deleted is recorded. *)
Lemma create_records s c1 c2 :
  canvas_wf s → named s (c_node c1) → named s (c_node c2) → conn_of c1 c2 ∉ all_conns (connections s) → allowed c1 c2 →
  canvas_effect (AddConnectionCommand c1 c2) s (with_connections s (applyAddConnection (connections s) c1 c2)).
Proof.
  intros Hwf H1 H2 Hno Ha. destruct (added_canvas s c1 c2 Hwf H1 H2 Hno) as [Hwf' Hp]. by split_and!.
Qed.

Lemma delete_records s c1 c2 :
  canvas_wf s → conn_of c1 c2 ∈ all_conns (connections s) → allowed c1 c2 →
  canvas_effect (RemoveConnectionCommand c1 c2) s (with_connections s (applyRemoveConnection (connections s) c1 c2)).
Proof.
  intros Hwf Hin Ha. destruct (removed_canvas s c1 c2 Hwf Hin) as [Hwf' Hp]. by split_and!.
Qed.

(** * Reverting one command *)

Lemma update_changed s r n0 f g :
  canvas_wf s → on_canvas s r (view n0) → objects s !! r = Some n0 → (∀ n, view (f n) = g (view n)) →
  let s' := update_by_name s (n_name n0) f in
  views s' = <[r := g (view n0)]> (views s) ∧ nodes s' = nodes s ∧ connections s' = connections s ∧
  parameterObjects s' = parameterObjects s.
Proof.
  intros Hwf Hr Ho Hfg s'. destruct (find_on_canvas s r (view n0) Hwf Hr) as (n1 & _ & Ho1 & _ & Hn).
  rewrite Ho in Ho1. injection Ho1 as <-. cbn in Hn. split; [by apply update_views|].
  unfold s', update_by_name. by rewrite Hn.
Qed.

(** The node that a change record names is found, and its change taken back. *)
Lemma node_reverted s s' r n n' s1 :
  canvas_wf s → canvas_wf s' → parameterObjects s = parameterObjects s' → node_changed s s' r n n' →
  views s1 = <[r := n]> (views s') → nodes s1 = nodes s' → connections s1 = connections s' →
  parameterObjects s1 = parameterObjects s' → same_canvas s1 s.
Proof.
  intros Hwf Hwf' Hp ([Hr Hn] & Hv & Hns & Hc) H1 H2 H3 H4. constructor.
  - rewrite H1, Hv, list_insert_insert, decide_True by done. by apply list_insert_id.
  - congruence.
  - by rewrite H2, Hns.
  - by rewrite H3, Hc.
  - rewrite H3. split; intros _; by apply wf_keys.
Qed.

Lemma view_position n p : view (with_position n p) = with_position (view n) p.
Proof. by destruct n. Qed.
Lemma view_parameters n p : view (with_parameters n p) = with_parameters (view n) p.
Proof. by destruct n. Qed.

Lemma revert_move s s' r n p :
  canvas_wf s → canvas_wf s' → parameterObjects s = parameterObjects s' →
  node_changed s s' r n (with_position n p) →
  same_canvas (revertUpdateNodePosition (n_name n) (n_position n) s') s.
Proof.
  intros Hwf Hwf' Hp Hc. pose proof (node_changed_back _ _ _ _ _ Hc) as (Hr' & _ & _ & _).
  destruct (find_on_canvas s' r _ Hwf' Hr') as (n0 & Hv & Ho & Hi & Hn). cbn in Hi, Hn.
  assert (Hid : n_id n0 = n_id n) by (by rewrite <- (view_id n0), Hv).
  assert (Hname : n_name n0 = n_name n) by (by rewrite <- (view_name n0), Hv).
  unfold revertUpdateNodePosition, updateNodePosition. rewrite Hn, Hid, Hi. cbn.
  unfold setNodePositionById. rewrite Hi. cbn.
  destruct (update_changed s' r n0 (λ n1, with_position n1 (n_position n)) (λ n1, with_position n1 (n_position n)) Hwf')
    as (H1 & H2 & H3 & H4); [by rewrite Hv|done|intros; apply view_position|].
  eapply node_reverted; [exact Hwf|exact Hwf'|done|exact Hc|rewrite H1, Hv|done..]. f_equal. by destruct n.
Qed.

Lemma revert_parameters s s' r n cur new :
  canvas_wf s → canvas_wf s' → parameterObjects s = parameterObjects s' →
  n_parameters n = default [] (parameterObjects s !! cur) →
  node_changed s s' r n (with_parameters n (default [] (parameterObjects s !! new))) →
  same_canvas (revertReplaceNodeParameters (n_id n) cur new s') s.
Proof.
  intros Hwf Hwf' Hp Hcur Hc. pose proof (node_changed_back _ _ _ _ _ Hc) as (Hr' & _ & _ & _).
  destruct (find_on_canvas s' r _ Hwf' Hr') as (n0 & Hv & Ho & Hi & Hn). cbn in Hi, Hn.
  unfold revertReplaceNodeParameters, replaceNodeParameters. rewrite Hi. cbn. unfold setNodeParameters. rewrite <- Hp.
  set (ps := default [] (parameterObjects s !! cur)) in *.
  destruct (update_changed s' r n0 (λ n1, with_parameters n1 ps) (λ n1, with_parameters n1 ps) Hwf')
    as (H1 & H2 & H3 & H4); [by rewrite Hv|done|intros; apply view_parameters|].
  eapply node_reverted; [exact Hwf|exact Hwf'|done|exact Hc|rewrite H1, Hv|done..]. f_equal.
  rewrite <- Hcur. by destruct n.
Qed.

Lemma view_disabled n d : view (with_disabled n (Some d)) = with_disabled (view n) (Some d).
Proof. destruct n; unfold view, with_disabled, is_disabled; cbn. by destruct d. Qed.

Lemma revert_toggle s s' r n :
  canvas_wf s → canvas_wf s' → parameterObjects s = parameterObjects s' →
  node_changed s s' r n (with_disabled n (Some (negb (is_disabled n)))) →
  same_canvas (revertToggleNodeDisabled (n_name n) s') s.
Proof.
  intros Hwf Hwf' Hp Hc. pose proof (node_changed_back _ _ _ _ _ Hc) as (Hr' & _ & _ & _).
  pose proof (on_canvas_view s r n (proj1 Hc)) as Hd.
  destruct (find_on_canvas s' r _ Hwf' Hr') as (n0 & Hv & Ho & Hi & Hn). cbn in Hi, Hn.
  assert (Hname : n_name n0 = n_name n) by (by rewrite <- (view_name n0), Hv).
  assert (Hd0 : is_disabled n0 = negb (is_disabled n)).
  { assert (n_disabled (view n0) = Some (negb (is_disabled n))) as H by (by rewrite Hv). cbn in H. by injection H. }
  unfold revertToggleNodeDisabled, disableNodes. rewrite Hn. cbn [existsb foldl]. rewrite Ho, Hd0, orb_false_r, negb_involutive.
  unfold CanvasOperations.andThen, disableNode. rewrite Ho. rewrite bool_decide_false.
  2: { intros H. unfold is_disabled in Hd0 at 1. rewrite H in Hd0. destruct (is_disabled n); cbn in Hd0; by case_bool_decide. }
  cbn [fst app].
  destruct (update_changed s' r n0 (λ n1, with_disabled n1 (Some (is_disabled n))) (λ n1, with_disabled n1 (Some (is_disabled n))) Hwf')
    as (H1 & H2 & H3 & H4); [by rewrite Hv|done|intros; apply view_disabled|].
  eapply node_reverted; [exact Hwf|exact Hwf'|done|exact Hc|rewrite H1, Hv|done..]. f_equal.
  rewrite <- Hd. by destruct n.
Qed.

Lemma revert_added_connection s s' c1 c2 :
  canvas_wf s → canvas_wf s' → parameterObjects s = parameterObjects s' → conn_added s s' c1 c2 →
  same_canvas (revertCreateConnection isConnectionChangeAllowedForNodeGroups c1 c2 s') s.
Proof.
  intros Hwf Hwf' Hp (Hv & Hn & Hc & Ha).
  assert (Hin : conn_of c1 c2 ∈ all_conns (connections s')) by (rewrite Hc; apply elem_of_cons; by left).
  destruct (wf_closed s' Hwf' _ _ _ _ Hin) as [Hn1 Hn2].
  destruct (find_named s' _ Hwf' Hn1) as (r1 & n1 & _ & He1 & Hb1 & Hi1).
  destruct (find_named s' _ Hwf' Hn2) as (r2 & n2 & _ & He2 & Hb2 & Hi2).
  unfold revertCreateConnection. rewrite Hb1, Hb2. rewrite (delete_spec false s' r1 r2) by done. cbn [fst].
  destruct (removed_canvas s' c1 c2 Hwf' Hin) as [Hwf1 Hc1]. constructor; try done.
  - rewrite Hc in Hc1. by apply Permutation_cons_inv in Hc1.
  - split; intros _; by apply wf_keys.
Qed.

Lemma revert_removed_connection s s' c1 c2 :
  canvas_wf s → canvas_wf s' → parameterObjects s = parameterObjects s' → conn_added s' s c1 c2 →
  same_canvas (revertDeleteConnection isConnectionAllowed isConnectionChangeAllowedForNodeGroups c1 c2 s') s.
Proof.
  intros Hwf Hwf' Hp (Hv & Hn & Hc & Ha).
  assert (Hin : conn_of c1 c2 ∈ all_conns (connections s)) by (rewrite Hc; apply elem_of_cons; by left).
  assert (Hno : conn_of c1 c2 ∉ all_conns (connections s')).
  { pose proof (wf_once s Hwf) as Hnd. rewrite Hc in Hnd. by apply NoDup_cons in Hnd as [? _]. }
  destruct (wf_closed s Hwf _ _ _ _ Hin) as [Hn1 Hn2].
  assert (Hnamed : ∀ name, named s name → named s' name).
  { intros name (r & n & [Hr Hrv] & He). exists r, n. split; [|done]. split; [by rewrite Hn|by rewrite Hv]. }
  apply Hnamed in Hn1, Hn2.
  destruct (find_named s' _ Hwf' Hn1) as (r1 & n1 & _ & He1 & Hb1 & Hi1).
  destruct (find_named s' _ Hwf' Hn2) as (r2 & n2 & _ & He2 & Hb2 & Hi2).
  unfold revertDeleteConnection. rewrite Hb1, Hb2. rewrite (create_spec false true s' r1 r2) by done. cbn [fst].
  destruct (added_canvas s' c1 c2 Hwf' Hn1 Hn2 Hno) as [Hwf1 Hc1]. constructor; try done.
  - by rewrite Hc1, Hc.
  - split; intros _; by apply wf_keys.
Qed.

Lemma revert_removed_node s s' r :
  canvas_wf s → canvas_wf s' → parameterObjects s = parameterObjects s' → node_added s' s r →
  same_canvas (revertDeleteNode r s') s.
Proof.
  intros Hwf Hwf' Hp (Hv & Hn & Hc). constructor; try done.
  - cbn. rewrite Hn. symmetry. apply Permutation_cons_append.
  - cbn. split; intros _; by apply wf_keys.
Qed.

(** * Deleting a node *)

(** The loop of an operation over a list. *)
Definition run_all {X} (f : X → Canvas → change) (l : list X) (s : Canvas) : change :=
  foldl (λ c x, CanvasOperations.andThen c (f x)) (s, []) l.

Lemma run_all_acc {X} (f : X → Canvas → change) l s cs :
  foldl (λ c x, CanvasOperations.andThen c (f x)) (s, cs) l = ((run_all f l s).1, cs ++ (run_all f l s).2).
Proof.
  unfold run_all. revert s cs. induction l as [|x l IH]; intros s cs; cbn; [by rewrite app_nil_r|].
  destruct (f x s) as [s1 cs1]. rewrite (IH s1 (cs ++ cs1)), (IH s1 cs1). cbn. by rewrite app_assoc.
Qed.

Lemma run_all_cons {X} (f : X → Canvas → change) x l s :
  run_all f (x :: l) s = ((run_all f l (f x s).1).1, (f x s).2 ++ (run_all f l (f x s).1).2).
Proof. unfold run_all at 1. cbn. destruct (f x s) as [s1 cs1]. by rewrite run_all_acc. Qed.

Lemma bucket_elem cs s t i d : d ∈ bucket_of cs s t i → (s, t, i, d) ∈ all_conns cs.
Proof.
  intros Hd. pose proof (set_bucket_conns cs s t i []) as H. cbn in H. rewrite <- H. apply elem_of_app. right.
  apply list_elem_of_fmap. by exists d.
Qed.

Lemma first_of_bucket cs name type : first_of (default [] (jm_get cs name)) type = bucket_of cs name type 0.
Proof. unfold first_of, bucket_of, conns_of. by destruct (jm_get cs name). Qed.

Definition touches (name : string) (x : string * NodeConnectionType * nat * IConnection) : Prop :=
  x.1.1.1 = name ∨ c_node x.2 = name.
#[local] Instance touches_dec name x : Decision (touches name x).
Proof. unfold touches. apply _. Defined.

(** What is joined leads to the node and from it. *)
Lemma adjacent_elem cs name p :
  p ∈ adjacent cs name →
  ∃ t1 t2 i1 x, (c_node p.1, t1, i1, mkConn name t2 0) ∈ all_conns cs ∧ (name, c_type p.2, 0%nat, x) ∈ all_conns cs ∧
    c_node x = c_node p.2.
Proof.
  unfold adjacent. intros ((type & nc) & H & Hin)%list_elem_of_bind.
  apply list_elem_of_bind in H as (inc & H & Hinc). apply list_elem_of_bind in H as (out & H & Hout).
  apply list_elem_of_singleton in H. subst p. rewrite first_of_bucket in Hinc, Hout.
  apply bucket_elem in Hinc, Hout. unfold mapConnectionsByDestination in Hinc.
  destruct (mapConnections_perm_acc (all_conns cs) []) as [Hp _]; [by intros ? ? ? ? ?%not_elem_of_nil|].
  rewrite Hp, app_nil_r in Hinc. apply list_elem_of_fmap in Hinc as ([[[a t] i] c] & Heq & Hc).
  cbn in Heq. injection Heq as -> -> Hi ->. cbn. exists t, (c_type c), i, out. split_and!; [|done..].
  destruct c as [cn ct ci]. cbn in *. by subst ci.
Qed.

Lemma connect_loop (track v : bool) ps s :
  canvas_wf s → Forall (λ p, named s (c_node p.1) ∧ named s (c_node p.2) ∧ allowed p.1 p.2) ps →
  NoDup ((λ p, conn_of p.1 p.2) <$> ps) → Forall (λ p, conn_of p.1 p.2 ∉ all_conns (connections s)) ps →
  let '(s', cs) := run_all (connectAdjacent track v) ps s in
  cs = (if track then (λ p, AddConnectionCommand p.1 p.2) <$> ps else []) ∧ canvas_wf s' ∧
  objects s' = objects s ∧ nodes s' = nodes s ∧ parameterObjects s' = parameterObjects s ∧
  all_conns (connections s') ≡ₚ ((λ p, conn_of p.1 p.2) <$> ps) ++ all_conns (connections s) ∧
  effects ((λ p, AddConnectionCommand p.1 p.2) <$> ps) s s'.
Proof.
  revert s. induction ps as [|[c1 c2] ps IH]; intros s Hwf Hn Hnd Hno.
  { cbn. split_and!; try done; by destruct track. }
  rewrite fmap_cons in Hnd.
  apply Forall_cons in Hn as [(H1 & H2 & Ha) Hn], Hno as [Hno1 Hno]. apply NoDup_cons in Hnd as [Hnd1 Hnd].
  cbn [fst snd] in H1, H2, Ha, Hno1, Hnd1.
  destruct (find_named s _ Hwf H1) as (r1 & n1 & _ & He1 & Hb1 & Hi1).
  destruct (find_named s _ Hwf H2) as (r2 & n2 & _ & He2 & Hb2 & Hi2).
  set (s1 := with_connections s (applyAddConnection (connections s) c1 c2)).
  assert (Hc : connectAdjacent track v (c1, c2) s = (s1, pushes track (AddConnectionCommand c1 c2))).
  { unfold CanvasOperations.connectAdjacent. cbn. rewrite Hb1, Hb2. by rewrite (create_spec false v s r1 r2). }
  destruct (added_canvas s c1 c2 Hwf H1 H2 Hno1) as [Hwf1 Hp1].
  rewrite run_all_cons, Hc. cbn [fst snd]. specialize (IH s1 Hwf1).
  destruct (run_all (connectAdjacent track v) ps s1) as [s' cs]. cbn.
  destruct IH as (Hcs & Hwf' & Ho & Hns & Hpar & Hall & He); [|done| |].
  - eapply Forall_impl; [exact Hn|]. by intros p (? & ? & ?).
  - rewrite Forall_forall in Hno |- *. intros p Hp. unfold s1; cbn. rewrite Hp1. rewrite not_elem_of_cons.
    split; [|by apply Hno]. intros Heq. apply Hnd1. apply list_elem_of_fmap. exists p. by rewrite Heq.
  - split_and!; try done.
    + rewrite Hcs. by destruct track.
    + rewrite Hall. unfold s1; cbn. rewrite Hp1. by rewrite Permutation_middle.
    + exists s1. split; [by apply create_records|done].
Qed.

(** [applyRemoveAllNodeConnection] where no connection touches the node. *)
Lemma elem_of_all_conns cs a nc t inputs i b c :
  (a, nc) ∈ cs → (t, inputs) ∈ nc → inputs !! i = Some (Some b) → c ∈ b → (a, t, i, c) ∈ all_conns cs.
Proof.
  intros Ha Ht Hi Hc. unfold all_conns. apply list_elem_of_bind. exists (a, nc). split; [|done].
  apply list_elem_of_bind. exists (t, inputs). split; [|done]. apply list_elem_of_bind. exists (i, Some b).
  split; [|by apply elem_of_entries]. apply list_elem_of_bind. exists c. split; [by apply list_elem_of_singleton|done].
Qed.

Lemma remove_positions_id name b : (∀ c, c ∈ b → c_node c ≠ name) → remove_positions name b = b.
Proof.
  intros Hb. unfold remove_positions. assert (filter (λ p, c_node p.2 = name) (entries b) = []) as ->; [|done].
  destruct (filter _ _) as [|[i c] l] eqn:Hf; [done|].
  assert ((i, c) ∈ filter (λ p, c_node p.2 = name) (entries b)) as H by (rewrite Hf; apply elem_of_cons; by left).
  apply list_elem_of_filter in H as [He H]. apply elem_of_entries in H. by destruct (Hb c); [eapply list_elem_of_lookup_2|].
Qed.

Lemma jm_map_id {K V} (f : V → V) (m : jmap K V) : (∀ k v, (k, v) ∈ m → f v = v) → jm_map f m = m.
Proof.
  intros Hf. unfold jm_map. induction m as [|[k v] m IH]; [done|]. rewrite fmap_cons. cbn. f_equal.
  - f_equal. apply (Hf k). apply elem_of_cons. by left.
  - apply IH. intros k' v' H. apply (Hf k'). apply elem_of_cons. by right.
Qed.

Lemma all_conns_del cs name :
  (∀ x, x ∈ all_conns cs → x.1.1.1 ≠ name) → all_conns (jm_del cs name) = all_conns cs.
Proof.
  intros Hno. induction cs as [|[a nc] cs IH]; [done|]. rewrite jm_del_cons. rewrite all_conns_cons in Hno |- *.
  rewrite <- IH; [|intros x Hx; apply Hno, elem_of_app; by right]. case_decide as Ha; [|by rewrite all_conns_cons].
  subst a. destruct (conns_of_node name nc) as [|x l] eqn:Hc; [done|]. exfalso.
  assert (x ∈ conns_of_node name nc) as Hx by (rewrite Hc; apply elem_of_cons; by left).
  apply (Hno x); [apply elem_of_app; left; apply elem_of_cons; by left|].
  unfold conns_of_node in Hx. apply list_elem_of_bind in Hx as ((t & inputs) & Hx & _).
  unfold conns_of_inputs in Hx. apply list_elem_of_bind in Hx as ((i & b) & Hx & _).
  apply list_elem_of_bind in Hx as (c & Hx & _). by apply list_elem_of_singleton in Hx as ->.
Qed.

Lemma remove_untouched cs name :
  (∀ x, x ∈ all_conns cs → ¬ touches name x) → applyRemoveAllNodeConnection cs name false false = jm_del cs name.
Proof.
  intros Hno. unfold applyRemoveAllNodeConnection. apply jm_map_id. intros a nc [_ Ha]%jm_elem_del.
  apply jm_map_id. intros t inputs Ht. apply list_eq. intros i. rewrite list_lookup_fmap.
  destruct (inputs !! i) as [[b|]|] eqn:Hi; cbn; try done. do 2 f_equal. apply remove_positions_id.
  intros c Hc He. apply (Hno (a, t, i, c)); [by eapply elem_of_all_conns|by right].
Qed.

Lemma conns_wf_del cs name : conns_wf cs → conns_wf (jm_del cs name).
Proof.
  intros [Hwf Hin]. split; [by apply jm_wf_del|]. intros s nc. destruct (decide (name = s)) as [->|Hne].
  - by rewrite jm_get_del.
  - rewrite jm_get_del_ne by done. apply Hin.
Qed.

Lemma removed_all_untouched s name :
  canvas_wf s → (∀ x, x ∈ all_conns (connections s) → ¬ touches name x) →
  let s' := with_connections s (applyRemoveAllNodeConnection (connections s) name false false) in
  canvas_wf s' ∧ same_canvas s' s.
Proof.
  intros Hwf Hno s'. subst s'. rewrite remove_untouched by done.
  assert (Hc : all_conns (jm_del (connections s) name) = all_conns (connections s)).
  { apply all_conns_del. intros x Hx He. by apply (Hno x Hx); left. }
  pose proof (conns_wf_del _ name (wf_keys s Hwf)) as Hw. split.
  - apply with_connections_wf; [done|done|rewrite Hc; by apply wf_once|]. rewrite Hc. by apply wf_closed.
  - constructor; cbn [with_connections connections]; try done; [by rewrite Hc|]. split; intros _; [by apply wf_keys|done].
Qed.

(** On a canvas, nodes of one name have one identifier. *)
Lemma same_node s r n r' n' :
  canvas_wf s → on_canvas s r n → on_canvas s r' n' → n_id n = n_id n' ↔ n_name n = n_name n'.
Proof.
  intros Hwf Hr Hr'. split; intros H.
  - pose proof (wf_ids s Hwf _ _ _ _ Hr Hr' H) as ->. destruct Hr as [_ Hr], Hr' as [_ Hr']. congruence.
  - pose proof (wf_names s Hwf _ _ _ _ Hr Hr' H) as ->. destruct Hr as [_ Hr], Hr' as [_ Hr']. congruence.
Qed.

Definition ends (x : conn) : IConnection * IConnection := (mkConn x.1.1.1 x.1.1.2 x.1.2, x.2).

(** One connection of the loop: it is deleted when it touches the node. *)
Lemma deleteTouching_spec track s r target x :
  canvas_wf s → on_canvas s r (view target) → x ∈ all_conns (connections s) →
  deleteTouching track target x s =
    if decide (touches (n_name target) x)
    then (with_connections s (applyRemoveConnection (connections s) (ends x).1 (ends x).2),
          pushes track (RemoveConnectionCommand (ends x).1 (ends x).2))
    else (s, []).
Proof.
  intros Hwf Ht Hx. destruct x as [[[a t] i] c]. destruct (wf_closed s Hwf _ _ _ _ Hx) as [H1 H2].
  destruct (find_named s _ Hwf H1) as (r1 & n1 & Ho1 & He1 & Hb1 & Hi1).
  destruct (find_named s _ Hwf H2) as (r2 & n2 & Ho2 & He2 & Hb2 & Hi2).
  unfold CanvasOperations.deleteTouching. rewrite Hb1, Hb2.
  rewrite (delete_spec track s r1 r2) by (by rewrite ?He1, ?He2). cbn [ends fst snd].
  pose proof (same_node s r2 _ r _ Hwf Ho2 Ht) as Hid. rewrite !view_id, !view_name, He2 in Hid.
  rewrite He1. rewrite <- bool_decide_or. case_bool_decide as Hb; case_decide as Hd; try done; exfalso.
  - apply Hd. unfold touches. cbn. tauto.
  - apply Hb. unfold touches in Hd. cbn in Hd. tauto.
Qed.

Definition remove_command (x : conn) : Command := RemoveConnectionCommand (ends x).1 (ends x).2.

Lemma conn_of_ends x : conn_of (ends x).1 (ends x).2 = x.
Proof. by destruct x as [[[a t] i] c]. Qed.

Lemma delete_loop track s r target xs :
  canvas_wf s → on_canvas s r (view target) → NoDup xs → (∀ x, x ∈ xs → x ∈ all_conns (connections s)) →
  (∀ x, x ∈ xs → touches (n_name target) x → allowed (ends x).1 (ends x).2) →
  let '(s', cs) := run_all (deleteTouching track target) xs s in
  let gone := filter (touches (n_name target)) xs in
  cs = (if track then remove_command <$> gone else []) ∧ canvas_wf s' ∧
  objects s' = objects s ∧ nodes s' = nodes s ∧ parameterObjects s' = parameterObjects s ∧
  gone ++ all_conns (connections s') ≡ₚ all_conns (connections s) ∧ effects (remove_command <$> gone) s s'.
Proof.
  revert s. induction xs as [|x xs IH]; intros s Hwf Ht Hnd Hin Ha.
  { cbn. split_and!; try done; by destruct track. }
  apply NoDup_cons in Hnd as [Hx Hnd]. rewrite run_all_cons.
  assert (Hxin : x ∈ all_conns (connections s)) by (apply Hin, elem_of_cons; by left).
  rewrite (deleteTouching_spec track s r target x Hwf Ht Hxin), filter_cons.
  destruct (decide (touches (n_name target) x)) as [Hd|Hd]; cbn [fst snd].
  - set (s1 := with_connections s (applyRemoveConnection (connections s) (ends x).1 (ends x).2)).
    rewrite <- (conn_of_ends x) in Hxin. destruct (removed_canvas s _ _ Hwf Hxin) as [Hwf1 Hp1]. fold s1 in Hwf1, Hp1.
    rewrite conn_of_ends in Hp1. assert (Hax : allowed (ends x).1 (ends x).2) by (apply Ha; [apply elem_of_cons; by left|done]).
    specialize (IH s1 Hwf1 Ht Hnd). destruct (run_all (deleteTouching track target) xs s1) as [s' cs]. cbn [fst snd].
    destruct IH as (Hcs & Hwf' & Ho & Hns & Hpar & Hall & He).
    + intros y Hy. assert (y ∈ x :: all_conns (connections s1)) as Hy'.
      { rewrite Hp1. apply Hin, elem_of_cons. by right. }
      apply elem_of_cons in Hy' as [->|Hy']; [done|exact Hy'].
    + intros y Hy. apply Ha, elem_of_cons. by right.
    + split_and!; try done.
      * rewrite Hcs. by destruct track.
      * rewrite <- Hp1, <- Hall. done.
      * rewrite fmap_cons. exists s1. split; [by apply delete_records|done].
  - specialize (IH s Hwf Ht Hnd). destruct (run_all (deleteTouching track target) xs s) as [s' cs]. cbn [fst snd app].
    apply IH; intros y Hy; [apply Hin|apply Ha]; apply elem_of_cons; by right.
Qed.

Lemma list_find_ref s r n :
  canvas_wf s → on_canvas s r n →
  ∃ i, list_find (λ r, n_id <$> objects s !! r = Some (n_id n)) (nodes s) = Some (i, r) ∧ nodes s !! i = Some r.
Proof.
  intros Hwf Hr. pose proof Hr as [Hin _]. destruct (on_canvas_object _ _ _ Hr) as (n0 & Hn0 & Hv).
  destruct (list_find (λ r, n_id <$> objects s !! r = Some (n_id n)) (nodes s)) as [[i r']|] eqn:Hf.
  - apply list_find_Some in Hf as (Hi & He & _). destruct (objects s !! r') as [n'|] eqn:Hn'; [|done]. cbn in He.
    injection He as He. exists i. assert (r' = r) as ->; [|done].
    apply (wf_ids s Hwf r' r (view n') n); [|done|done]. apply object_on_canvas; [by eapply list_elem_of_lookup_2|done].
  - apply list_find_None in Hf. rewrite Forall_forall in Hf. exfalso. apply (Hf r Hin). rewrite Hn0. cbn. by rewrite <- Hv.
Qed.

(** A node that no connection touches is taken off the canvas. *)
Lemma removed_node s r n :
  canvas_wf s → on_canvas s r n → (∀ x, x ∈ all_conns (connections s) → ¬ touches (n_name n) x) →
  let s' := removeNodeById s (n_id n) in
  canvas_wf s' ∧ node_added s' s r ∧ parameterObjects s' = parameterObjects s ∧ connections s' = connections s.
Proof.
  intros Hwf Hr Hno s'. destruct (list_find_ref s r n Hwf Hr) as (i & Hf & Hi).
  unfold s', removeNodeById. rewrite Hf. pose proof (splice1_perm _ _ _ Hi) as Hp.
  assert (Hold : ∀ q m, on_canvas (with_refs s (splice1 (nodes s) i)) q m → on_canvas s q m).
  { intros q m [Hq Hm]. split; [|done]. rewrite Hp. apply elem_of_cons. by right. }
  split; [|by split_and!]. constructor.
  - pose proof (wf_refs s Hwf) as Hnd. rewrite Hp in Hnd. by apply NoDup_cons in Hnd as [_ ?].
  - intros q Hq. apply (wf_allocated s Hwf). rewrite Hp. apply elem_of_cons. by right.
  - intros q q' m m' Hq%Hold Hq'%Hold. exact (wf_ids s Hwf q q' m m' Hq Hq').
  - intros q q' m m' Hq%Hold Hq'%Hold. exact (wf_names s Hwf q q' m m' Hq Hq').
  - exact (wf_keys s Hwf).
  - exact (wf_once s Hwf).
  - intros a t j c Hin. pose proof (wf_closed s Hwf _ _ _ _ Hin) as [Ha Hc]. specialize (Hno _ Hin).
    assert (Hkeep : ∀ name, named s name → name ≠ n_name n → named (with_refs s (splice1 (nodes s) i)) name).
    { intros name (q & m & [Hq Hm] & <-) Hne. exists q, m. split; [|done]. split; [|done]. cbn.
      rewrite Hp in Hq. apply elem_of_cons in Hq as [->|Hq]; [|done]. destruct Hr as [_ Hr]. congruence. }
    split; (apply Hkeep; [done|]); intros He; apply Hno; [by left|by right].
Qed.

(** What the deletion of a node does, in three phases. *)
Lemma delete_phases track s r node :
  canvas_wf s → on_canvas s r (view node) → objects s !! r = Some node →
  let adj := adjacent (connections s) (n_name node) in
  Forall (λ p, allowed p.1 p.2 ∧ conn_of p.1 p.2 ∉ all_conns (connections s)) adj →
  NoDup ((λ p, conn_of p.1 p.2) <$> adj) →
  (∀ x, x ∈ all_conns (connections s) → touches (n_name node) x → allowed (ends x).1 (ends x).2) →
  ∃ s1 s2 gone,
    effects ((λ p, AddConnectionCommand p.1 p.2) <$> adj) s s1 ∧ effects (remove_command <$> gone) s1 s2 ∧
    canvas_effect (RemoveNodeCommand r) s2 (deleteNode track (n_id node) s).1 ∧
    (deleteNode track (n_id node) s).2 =
      (if track then ((λ p, AddConnectionCommand p.1 p.2) <$> adj) ++ (remove_command <$> gone) ++ [RemoveNodeCommand r] else []) ∧
    ∀ x, x ∈ gone → touches (n_name node) x ∧ x ∈ ((λ p, conn_of p.1 p.2) <$> adj) ++ all_conns (connections s).
Proof.
  intros Hwf Hr Ho adj Hadj Hnd Hall. rewrite Forall_forall in Hadj.
  destruct (find_on_canvas s r _ Hwf Hr) as (n0 & _ & Ho0 & Hi & _). rewrite Ho in Ho0. injection Ho0 as <-.
  rewrite view_id in Hi. unfold CanvasOperations.deleteNode. rewrite Hi.
  assert (Hends : ∀ p, p ∈ adj → named s (c_node p.1) ∧ named s (c_node p.2)).
  { intros p (t1 & t2 & i1 & x & H1 & H2 & <-)%adjacent_elem. split.
    - by apply (wf_closed s Hwf) in H1 as [? _].
    - by apply (wf_closed s Hwf) in H2 as [_ ?]. }
  pose proof (connect_loop track false adj s Hwf) as H1. unfold CanvasOperations.connectAdjacentNodes. rewrite Hi.
  fold adj.
  change (foldl _ _ adj) with (run_all (connectAdjacent track false) adj s).
  destruct (run_all (connectAdjacent track false) adj s) as [s1 cs1] eqn:Hs1.
  destruct H1 as (Hcs1 & Hwf1 & Ho1 & Hn1 & Hp1 & Hc1 & He1); [|done| |].
  { apply Forall_forall. intros p Hp. destruct (Hends p Hp), (Hadj p Hp). by split_and!. }
  { apply Forall_forall. intros p Hp. by destruct (Hadj p Hp). }
  assert (Hr1 : on_canvas s1 r (view node)) by (unfold on_canvas, views in *; by rewrite Hn1, Ho1).
  destruct (find_on_canvas s1 r _ Hwf1 Hr1) as (n0 & _ & Ho0 & Hi1 & _). rewrite Ho1, Ho in Ho0. injection Ho0 as <-.
  rewrite view_id in Hi1. cbn [CanvasOperations.andThen]. unfold CanvasOperations.deleteConnectionsByNodeId. rewrite Hi1.
  pose proof (delete_loop track s1 r node (all_conns (connections s1)) Hwf1 Hr1 (wf_once s1 Hwf1)) as H2.
  change (foldl _ _ (all_conns (connections s1))) with (run_all (deleteTouching track node) (all_conns (connections s1)) s1).
  destruct (run_all (deleteTouching track node) (all_conns (connections s1)) s1) as [s2 cs2] eqn:Hs2.
  destruct H2 as (Hcs2 & Hwf2 & Ho2 & Hn2 & Hp2 & Hc2 & He2); [done| |].
  { intros x Hx Hd. rewrite Hc1 in Hx. apply elem_of_app in Hx as [Hx|Hx]; [|by apply Hall].
    apply list_elem_of_fmap in Hx as ([[] c2] & -> & Hp). exact (proj1 (Hadj _ Hp)). }
  set (gone := filter (touches (n_name node)) (all_conns (connections s1))) in *.
  assert (Hno : ∀ x, x ∈ all_conns (connections s2) → ¬ touches (n_name node) x).
  { intros x Hx Hd. pose proof (wf_once s1 Hwf1) as Hnd1. rewrite <- Hc2 in Hnd1. apply NoDup_app in Hnd1 as (_ & Hdis & _).
    apply (Hdis x); [|done]. apply list_elem_of_filter. split; [done|]. rewrite <- Hc2. apply elem_of_app. by right. }
  destruct (removed_all_untouched s2 (n_name node) Hwf2 Hno) as [Hwf3 Hsame].
  set (s3 := with_connections s2 (applyRemoveAllNodeConnection (connections s2) (n_name node) false false)) in *.
  assert (Hr3 : on_canvas s3 r (view node)).
  { apply (on_canvas_same s2 s3); [by symmetry|]. unfold on_canvas, views in *. by rewrite Hn2, Ho2. }
  assert (Hno3 : ∀ x, x ∈ all_conns (connections s3) → ¬ touches (n_name (view node)) x).
  { intros x Hx. apply Hno. by rewrite <- (same_conns _ _ Hsame). }
  destruct (removed_node s3 r _ Hwf3 Hr3 Hno3) as (Hwf4 & Hadd & Hp4 & _). rewrite view_id in *.
  exists s1, s2, gone. split_and!; [done|done| | |].
  - refine (records_same _ s3 (removeNodeById s3 (n_id node)) s2 _ Hsame _ _); [reflexivity|]. by split_and!.
  - cbn. rewrite Hcs1, Hcs2. destruct track; [|done]. by rewrite <- app_assoc.
  - intros x [Hd Hx]%list_elem_of_filter. split; [done|]. by rewrite Hc1 in Hx.
Qed.
Lemma adjacent_untouched cs name : (∀ x, x ∈ all_conns cs → ¬ touches name x) → adjacent cs name = [].
Proof.
  intros Hno. destruct (adjacent cs name) as [|p l] eqn:Ha; [done|]. exfalso.
  destruct (adjacent_elem cs name p) as (t1 & t2 & i1 & x & H1 & _).
  { rewrite Ha. apply elem_of_cons. by left. }
  apply (Hno _ H1). by right.
Qed.

Lemma node_added_untouched s s' r n :
  canvas_wf s → canvas_wf s' → node_added s s' r → on_canvas s' r n →
  ∀ x, x ∈ all_conns (connections s') → ¬ touches (n_name n) x.
Proof.
  intros Hwf Hwf' (Hv & Hn & Hc) Hr [[[a t] i] c] Hx. rewrite <- Hc in Hx. apply (wf_closed s Hwf) in Hx as [H1 H2].
  assert (Hfresh : ∀ name, named s name → name ≠ n_name n).
  { intros name (q & m & [Hq Hm] & <-) He. pose proof (wf_refs s' Hwf') as Hnd. rewrite Hn in Hnd.
    apply NoDup_cons in Hnd as [Hr' _]. apply Hr'. assert (q = r) as ->; [|done].
    apply (wf_names s' Hwf' q r m n); [|done|done]. split; [rewrite Hn; apply elem_of_cons; by right|by rewrite <- Hv]. }
  intros [He|He]; cbn in He; [by apply (Hfresh _ H1)|by apply (Hfresh _ H2)].
Qed.

Lemma revert_added_node s s' r :
  canvas_wf s → canvas_wf s' → parameterObjects s = parameterObjects s' → node_added s s' r →
  same_canvas (revertAddNode isConnectionAllowed isConnectionChangeAllowedForNodeGroups (node_name s' r) s') s.
Proof.
  intros Hwf Hwf' Hp Hadd. pose proof Hadd as (Hv & Hn & Hc).
  assert (Hin : r ∈ nodes s') by (rewrite Hn; apply elem_of_cons; by left).
  destruct (wf_allocated s' Hwf' r Hin) as [n Hr]. assert (Hon : on_canvas s' r n) by done.
  destruct (find_on_canvas s' r n Hwf' Hon) as (n0 & <- & Ho & Hi & Hb). rewrite view_id, view_name in *.
  pose proof (node_added_untouched s s' r _ Hwf Hwf' Hadd Hon) as Hno. rewrite view_name in Hno.
  assert (node_name s' r = n_name n0) as -> by (unfold node_name; by rewrite Ho). unfold revertAddNode. rewrite Hb.
  pose proof (adjacent_untouched _ _ Hno) as Hadj.
  destruct (delete_phases false s' r n0 Hwf' Hon Ho) as (s1 & s2 & gone & He1 & He2 & He3 & _ & Hgone).
  - rewrite Hadj. constructor.
  - rewrite Hadj. constructor.
  - intros x Hx Hd. by destruct (Hno x Hx).
  - rewrite Hadj in He1, Hgone. cbn in He1, Hgone. destruct He3 as (Hwf2 & Hwf3 & Hp3 & Hv3 & Hn3 & Hc3).
    destruct gone as [|x gone]; [|destruct (Hgone x) as [Hd Hx]; [apply elem_of_cons; by left|by destruct (Hno x Hx)]].
    cbn in He2. assert (Hsame : same_canvas s' s2) by (by etrans). destruct Hsame as [Ho2 Hp2 Hn2 Hc2 _].
    constructor.
    + by rewrite Hv3, <- Ho2, Hv.
    + congruence.
    + rewrite <- Hn2, Hn in Hn3. by apply Permutation_cons_inv in Hn3.
    + by rewrite Hc3, <- Hc2, Hc.
    + split; intros _; by apply wf_keys.
Qed.

#[export] Instance canvas_laws : DocumentLaws Canvas.
Proof.
  split.
  - exact same_canvas_equivalence.
  - intros c s t Hs s' t' Hs'. cbn in *. split; intros He; (eapply records_same; [| |exact He]); by try symmetry.
  - exact records_reverse.
  - intros c s s' (Hwf & Hwf' & Hp & Hr). cbn in *. destruct c; cbn in *.
    + destruct Hr as (r & n & <- & <- & Hc). by eapply revert_move.
    + by apply revert_added_node.
    + by apply revert_removed_node.
    + by apply revert_added_connection.
    + by apply revert_removed_connection.
    + destruct Hr as (r & n & <- & Hc). by eapply revert_toggle.
    + done.
    + destruct Hr as (r & n & <- & Hcur & Hc). by eapply revert_parameters.
Qed.
(** The deletion of a node records what it did. *)
Lemma deleteNode_records s r node :
  canvas_wf s → on_canvas s r (view node) → objects s !! r = Some node →
  let adj := adjacent (connections s) (n_name node) in
  Forall (λ p, allowed p.1 p.2 ∧ conn_of p.1 p.2 ∉ all_conns (connections s)) adj →
  NoDup ((λ p, conn_of p.1 p.2) <$> adj) →
  (∀ x, x ∈ all_conns (connections s) → touches (n_name node) x → allowed (ends x).1 (ends x).2) →
  effects (deleteNode true (n_id node) s).2 s (deleteNode true (n_id node) s).1 ∧ (deleteNode true (n_id node) s).2 ≠ [].
Proof.
  intros Hwf Hr Ho adj Hadj Hnd Hall.
  destruct (delete_phases true s r node Hwf Hr Ho Hadj Hnd Hall) as (s1 & s2 & gone & He1 & He2 & He3 & -> & _). split.
  - apply effects_app. exists s1. split; [done|]. apply effects_app. exists s2. split; [done|].
    exists (deleteNode true (n_id node) s).1. split; [exact He3|]. reflexivity.
  - intros [_ [_ H]%app_eq_nil]%app_eq_nil. done.
Qed.

Lemma getNodeById_on_canvas s id r n :
  getNodeById s id = Some (r, n) → on_canvas s r (view n) ∧ objects s !! r = Some n ∧ n_id n = id.
Proof.
  unfold getNodeById. intros Hf. assert (r ∈ nodes s ∧ objects s !! r = Some n ∧ n_id n = id) as (Hr & Ho & He).
  { induction (nodes s) as [|q ns IH]; [done|]. cbn in Hf. rewrite elem_of_cons.
    destruct (objects s !! q) as [m|] eqn:Hq; [case_bool_decide as Hm|]; [|naive_solver..].
    injection Hf as -> ->. naive_solver. }
  split_and!; [by apply object_on_canvas|done|done].
Qed.

(** Undoing the deletion of a node brings back the node and its connections and takes
    away the connections between its neighbours, and redoing it deletes the node
    again: up to the order of nodes and connections the document is the one before
    and the one after.  The connections between neighbours must be new (see
    [undo_takes_earlier_connection]), every connection concerned allowed, and no two
    of the recorded commands equal but for the type of their connections. *)
Theorem undo_restores_deleted_node (h : HistoryState) (s : Canvas) (id : string) (r : nat) (node : INode) :
  canvas_wf s → getNodeById s id = Some (r, node) →
  let adj := adjacent (connections s) (n_name node) in
  Forall (λ p, allowed p.1 p.2 ∧ conn_of p.1 p.2 ∉ all_conns (connections s)) adj →
  NoDup ((λ p, conn_of p.1 p.2) <$> adj) →
  (∀ x, x ∈ all_conns (connections s) → touches (n_name node) x → allowed (ends x).1 (ends x).2) →
  bulkInProgress h = false → (length (undoStack h) ≤ STACK_LIMIT)%nat →
  all_distinct (node_name (deleteNode true id s).1) (deleteNode true id s).2 →
  let '(h', s') := act h (deleteNode true id s) in
  let '(h1, s1) := undo h' s' in
  same_canvas s1 s ∧ same_canvas (redo h1 s1).2 s'.
Proof.
  intros Hwf Hid adj Hadj Hnd Hall Hp Hl Hd. apply getNodeById_on_canvas in Hid as (Hr & Ho & <-).
  destruct (deleteNode_records s r node Hwf Hr Ho Hadj Hnd Hall) as [He Hne].
  unfold act. destruct (deleteNode true (n_id node) s) as [s' cs]. exact (bulk_undone (node_name s') h cs s s' Hp Hl Hne Hd He).
Qed.
End Laws.

(** * Examples

    A chain of three nodes, where node types and groups allow everything. *)

Definition any_connection (s : Canvas) (n1 n2 : INode) (c1 c2 : IConnection) : bool := true.
Definition any_group (s : Canvas) (a : GroupAction) (c1 c2 : IConnection) : bool := true.
Definition suffixed (names : list string) (name : string) : string :=
  if bool_decide (name ∈ names) then name +:+ "1" else name.
Definition same_text (expression currentName newName : string) : string := expression.

Definition chain_node (name : string) : INode :=
  mkNode name name "n8n-nodes-base.noOp" (QArith_base.Qmake 1 1) (0, 0)%Z None [] None None None None None None None None.
Definition chain_canvas (cs : IConnections) : Canvas :=
  mkCanvas [chain_node "a"; chain_node "b"; chain_node "c"] [] [0; 1; 2]%nat cs.
Definition to_node (name : string) : IConnection := mkConn name Main 0.

Definition chain_of_three : Canvas :=
  chain_canvas [("a", [(Main, [Some [to_node "b"]])]); ("b", [(Main, [Some [to_node "c"]])])].
Definition chain_and_shortcut : Canvas :=
  chain_canvas [("a", [(Main, [Some [to_node "b"; to_node "c"]])]); ("b", [(Main, [Some [to_node "c"]])])].

Definition delete_b (s : Canvas) : change := deleteNode any_connection any_group true "b" s.

Ltac decided := refine (bool_decide_unpack _ _); vm_compute; exact I.

#[local] Instance chain_document : Document Canvas := canvas_document any_connection any_group suffixed same_text.
#[local] Instance chain_laws : DocumentLaws Canvas := canvas_laws any_connection any_group suffixed same_text.

(** The connection from a to c was there before: undoing the deletion takes it away. *)
Example undo_takes_earlier_connection :
  let '(h, s) := act new_history (delete_b chain_and_shortcut) in
  ("a", Main, 0%nat, to_node "c") ∈ all_conns (connections chain_and_shortcut) ∧
  ("a", Main, 0%nat, to_node "c") ∉ all_conns (connections (undo h s).2).
Proof. split; decided. Qed.

(** The handler renames the old name, which no node has any more, to the new one. *)
Example undo_rename_does_nothing :
  let '(h, s) := act_rename suffixed same_text new_history "a" "d" chain_of_three in
  (node_name s <$> nodes s) = ["b"; "c"; "d"] ∧ (node_name (undo h s).2 <$> nodes (undo h s).2) = ["b"; "c"; "d"].
Proof. vm_compute. done. Qed.

(** The second position is one too far once the first was spliced: the connection to the
    other node goes, and one to the removed node stays. *)
Example stale_positions_remove_other_connection :
  let s := chain_canvas [("a", [(Main, [Some [to_node "b"; mkConn "b" Main 1; to_node "c"]])]) ] in
  all_conns (applyRemoveAllNodeConnection (connections s) "b" false false) = [("a", Main, 0%nat, mkConn "b" Main 1)].
Proof. by vm_compute. Qed.

(** After a rename that failed, the next move is not on the undo stack, and the next
    recorded action drops it. *)
Example failed_rename_swallows_command :
  let '(h, s) := act_rename suffixed same_text new_history "a" "constructor" chain_of_three in
  let h := pushCommandToUndo (node_name s) true h (MoveNodeCommand "a" (0, 0)%Z (1, 1)%Z) in
  undoStack h = [] ∧ currentBulkAction (startRecordingUndo h) = Some [].
Proof. vm_compute. done. Qed.

Lemma chain_three_wf : canvas_wf chain_of_three.
Proof.
  assert (Hon : ∀ r n, on_canvas chain_of_three r n → ∃ name, views chain_of_three !! r = Some n ∧
    n_id n = name ∧ n_name n = name ∧ (r, name) ∈ [(0, "a"); (1, "b"); (2, "c")]%nat).
  { intros r n [Hr Hv]. unfold chain_of_three, chain_canvas in Hr. cbn [nodes] in Hr. rewrite !elem_of_cons in Hr.
    destruct Hr as [->|[->|[->|[]%not_elem_of_nil]]]; vm_compute in Hv; injection Hv as <-; eexists; (split; [done|]);
      cbn; split_and!; try done; set_solver. }
  assert (Hone : ∀ r r' x, (r, x) ∈ [(0, "a"); (1, "b"); (2, "c")]%nat → (r', x) ∈ [(0, "a"); (1, "b"); (2, "c")]%nat → r = r').
  { intros r r' x Hr Hr'. rewrite !elem_of_cons, elem_of_nil in Hr. rewrite !elem_of_cons, elem_of_nil in Hr'.
    destruct_or!; by simplify_eq. }
  assert (Hall : all_conns (connections chain_of_three) = [("a", Main, 0%nat, to_node "b"); ("b", Main, 0%nat, to_node "c")])
    by done.
  constructor.
  - decided.
  - intros r Hr. unfold chain_of_three, chain_canvas in Hr. cbn [nodes] in Hr. rewrite !elem_of_cons in Hr.
    destruct Hr as [->|[->|[->|[]%not_elem_of_nil]]]; by eexists.
  - intros r r' n n' (x & _ & Hx & _ & Hr)%Hon (y & _ & Hy & _ & Hr')%Hon He. rewrite Hx, Hy in He. rewrite <- He in Hr'. exact (Hone _ _ _ Hr Hr').
  - intros r r' n n' (x & _ & _ & Hx & Hr)%Hon (y & _ & _ & Hy & Hr')%Hon He. rewrite Hx, Hy in He. rewrite <- He in Hr'. exact (Hone _ _ _ Hr Hr').
  - split; [decided|]. intros s nc Hs. apply jm_get_Some_elem in Hs.
    unfold chain_of_three, chain_canvas in Hs. cbn [connections] in Hs. rewrite !elem_of_cons in Hs.
    destruct Hs as [Hs|[Hs|[]%not_elem_of_nil]]; injection Hs as -> ->; decided.
  - decided.
  - assert (Hn : ∀ r n, views chain_of_three !! r = Some (view (chain_node n)) → r ∈ nodes chain_of_three → named chain_of_three n).
    { intros r n Hv Hr. by exists r, (view (chain_node n)). }
    intros a t i c Hin. rewrite Hall, !elem_of_cons in Hin.
    destruct Hin as [H|[H|[]%not_elem_of_nil]]; injection H as -> -> -> ->; split;
      [apply (Hn 0)|apply (Hn 1)|apply (Hn 1)|apply (Hn 2)]; first [done|decided].
Qed.

Lemma allowed_any c1 c2 : allowed any_connection any_group c1 c2.
Proof. done. Qed.

Lemma delete_b_distinct : all_distinct (node_name (delete_b chain_of_three).1) (delete_b chain_of_three).2.
Proof.
  assert ((delete_b chain_of_three).2 = [AddConnectionCommand (to_node "a") (to_node "c");
    RemoveConnectionCommand (to_node "a") (to_node "b"); RemoveConnectionCommand (to_node "b") (to_node "c");
    RemoveNodeCommand 1]) as -> by by vm_compute.
  intros i j c d Hij Hi Hj.
  destruct i as [|[|[|[|i]]]], j as [|[|[|[|j]]]]; try lia; try done; injection Hi as <-; injection Hj as <-; by vm_compute.
Qed.

Definition chain_events : list (Timeline → Timeline) := [t_change (delete_b chain_of_three).1; t_undo; t_redo].
Definition chain_history : HistoryState * Canvas :=
  let '(h, s) := act new_history (delete_b chain_of_three) in let '(h, s) := undo h s in redo h s.

Lemma undo_restores_deleted_node_witness :
  let '(h', s') := act new_history (delete_b chain_of_three) in
  let '(h1, s1) := undo h' s' in
  same_canvas s1 chain_of_three ∧ same_canvas (redo h1 s1).2 s'.
Proof.
  refine (undo_restores_deleted_node any_connection any_group suffixed same_text new_history chain_of_three "b" 1 (chain_node "b")
    chain_three_wf eq_refl _ _ _ eq_refl _ delete_b_distinct).
  - assert (adjacent (connections chain_of_three) "b" = [(to_node "a", to_node "c")]) as Hadj by by vm_compute.
    change (n_name (chain_node "b")) with "b". rewrite Hadj. repeat constructor. decided.
  - decided.
  - intros x _ _. apply allowed_any.
  - cbn. lia.
Defined.

Lemma history_refines_timeline_witness :
  represents chain_history (foldl (λ t f, f t) (mkTimeline [] chain_of_three []) chain_events) ∧
  (length (undoStack chain_history.1) ≤ STACK_LIMIT)%nat.
Proof.
  refine (history_refines_timeline chain_of_three chain_events chain_history.1 chain_history.2 _).
  destruct (deleteNode_records any_connection any_group suffixed same_text chain_of_three 1 (chain_node "b")) as [He Hne].
  - exact chain_three_wf.
  - split; [decided|done].
  - done.
  - assert (adjacent (connections chain_of_three) "b" = [(to_node "a", to_node "c")]) as Hadj by by vm_compute.
    change (n_name (chain_node "b")) with "b". rewrite Hadj. repeat constructor. decided.
  - decided.
  - intros x _ _. apply allowed_any.
  - eapply run_cons; [exact (step_bulk _ new_history chain_of_three _ _ Hne He delete_b_distinct)|].
    eapply run_cons; [apply step_undo|]. eapply run_cons; [apply step_redo|].
    unfold chain_history, act, delete_b. apply run_nil.
Defined.
