(* ===== verification/TriggerActivation.v ===== *)
(** TriggerActivation: the triggers and crons of active workflows.

    packages/core/src/execution-engine: scheduled-task-manager.ts,
    workflow-active-triggers-state.ts and active-workflow-triggers.ts.  A call of [add],
    [remove] or [removeAllNonWebhookTriggerWorkflows] is a process that waits for
    trigger functions, first polls and close functions, which end in any order; an
    await that does not wait is not a step.  The world is what runs: triggers that
    have a close function.  A cron is its key; when it fires is not modelled, nor is what
    its function does. *)

From Stdlib Require Import ZArith Lia.
From stdpp Require Import prelude list strings relations.
From S2P Require Import Prelude.

(** [toCronKey] up to the workflow: the node and the expression. *)
Abbreviation CronKey := (string * string)%type (only parsing).

(** By node, what the trigger can be closed with. *)
Abbreviation WorkflowActiveTriggersState := (jmap string (option nat)) (only parsing).

Definition handles (triggers : WorkflowActiveTriggersState) : list nat := omap id (jm_vals triggers).

(** [running] gives the workflow of every trigger that runs. *)
Record Core := mkCore {
  cronsByWorkflow : jmap string (list CronKey);
  activeTriggersByWorkflowId : jmap string WorkflowActiveTriggersState;
  running : jmap nat string;
  nextHandle : nat;
}.

Definition with_crons (c : Core) (m : jmap string (list CronKey)) : Core :=
  mkCore m (activeTriggersByWorkflowId c) (running c) (nextHandle c).
Definition with_active (c : Core) (m : jmap string WorkflowActiveTriggersState) : Core :=
  mkCore (cronsByWorkflow c) m (running c) (nextHandle c).
Definition with_running (c : Core) (m : jmap nat string) : Core :=
  mkCore (cronsByWorkflow c) (activeTriggersByWorkflowId c) m (nextHandle c).

(** * Crons *)

(** A cron that is registered already is skipped. *)
Definition registerCron (c : Core) (workflowId : string) (key : CronKey) : Core :=
  let workflowCrons := default [] (jm_get (cronsByWorkflow c) workflowId) in
  if bool_decide (key ∈ workflowCrons) then c
  else with_crons c (jm_set (cronsByWorkflow c) workflowId (workflowCrons ++ [key])).

Definition deregisterCrons (c : Core) (workflowId : string) : Core * bool :=
  match jm_get (cronsByWorkflow c) workflowId with
  | None | Some [] => (c, false)
  | Some _ => (with_crons c (jm_del (cronsByWorkflow c) workflowId), true)
  end.

Definition getWorkflowIdsWithCrons (c : Core) : list string := jm_keys (cronsByWorkflow c).

Definition deregisterAllCrons (c : Core) : Core :=
  foldl (λ c workflowId, (deregisterCrons c workflowId).1) c (getWorkflowIdsWithCrons c).

(** * Activation *)

(** The crons of a poll node; [true]: the interval is below a minute. *)
Record PollNode := mkPoll {
  poll_id : string;
  cronExpressions : list (string * bool);
}.

Inductive Outcome := Added | AddFailed | Removed (wasActive : bool) | RemoveFailed | AllRemoved.

(** What follows when the triggers of a workflow are closed. *)
Inductive Continuation :=
| KRemove
| KAdd (triggerNodes : list string) (pollNodes : list PollNode)
| KAll (workflowIds : list string)
| KFail.

(** What a process waits for: the first of [rest] to close, a trigger function, a first
    poll. *)
Inductive Stage :=
| Closing (workflowId : string) (rest : list nat) (k : Continuation)
| Starting (workflowId node : string) (triggerNodes : list string) (pollNodes : list PollNode)
    (triggers : WorkflowActiveTriggersState)
| Testing (workflowId : string) (poll : PollNode) (pollNodes : list PollNode) (triggers : WorkflowActiveTriggersState)
| Done (o : Outcome).

Definition isActive (c : Core) (workflowId : string) : bool := jm_has (activeTriggersByWorkflowId c) workflowId.

Definition forget (c : Core) (workflowId : string) : Core :=
  with_active c (jm_del (activeTriggersByWorkflowId c) workflowId).

Definition test_polls (c : Core) (workflowId : string) (pollNodes : list PollNode)
    (triggers : WorkflowActiveTriggersState) : Core * Stage :=
  match pollNodes with
  | [] => (c, Done Added)
  | poll :: pollNodes => (c, Testing workflowId poll pollNodes triggers)
  end.

Definition start_triggers (c : Core) (workflowId : string) (triggerNodes : list string) (pollNodes : list PollNode)
    (triggers : WorkflowActiveTriggersState) : Core * Stage :=
  match triggerNodes with
  | [] => test_polls (with_active c (jm_set (activeTriggersByWorkflowId c) workflowId triggers)) workflowId pollNodes triggers
  | node :: triggerNodes => (c, Starting workflowId node triggerNodes pollNodes triggers)
  end.

(** The loop of [removeAllNonWebhookTriggerWorkflows]. *)
Fixpoint remove_all (c : Core) (workflowIds : list string) : Core * Stage :=
  match workflowIds with
  | [] => (c, Done AllRemoved)
  | workflowId :: workflowIds =>
      let c := (deregisterCrons c workflowId).1 in
      match jm_get (activeTriggersByWorkflowId c) workflowId with
      | None => remove_all c workflowIds
      | Some triggers =>
          match handles triggers with
          | [] => remove_all (forget c workflowId) workflowIds
          | rest => (c, Closing workflowId rest (KAll workflowIds))
          end
      end
  end.

Definition after_close (c : Core) (workflowId : string) (k : Continuation) : Core * Stage :=
  match k with
  | KRemove => (forget c workflowId, Done (Removed true))
  | KAdd triggerNodes pollNodes => start_triggers (forget c workflowId) workflowId triggerNodes pollNodes []
  | KAll workflowIds => remove_all (forget c workflowId) workflowIds
  | KFail => (c, Done AddFailed)
  end.

Definition close_next (c : Core) (workflowId : string) (rest : list nat) (k : Continuation) : Core * Stage :=
  match rest with [] => after_close c workflowId k | _ => (c, Closing workflowId rest k) end.

(** [remove], alone or at the start of [add]. *)
Definition remove_then (c : Core) (workflowId : string) (k : Continuation) : Core * Stage :=
  let c := (deregisterCrons c workflowId).1 in
  match jm_get (activeTriggersByWorkflowId c) workflowId with
  | None =>
      match k with
      | KAdd triggerNodes pollNodes => start_triggers c workflowId triggerNodes pollNodes []
      | _ => (c, Done (Removed false))
      end
  | Some triggers => close_next c workflowId (handles triggers) k
  end.

Definition remove (c : Core) (workflowId : string) : Core * Stage := remove_then c workflowId KRemove.

Definition add (c : Core) (workflowId : string) (triggerNodes : list string) (pollNodes : list PollNode) : Core * Stage :=
  remove_then c workflowId (KAdd triggerNodes pollNodes).

Definition removeAllNonWebhookTriggerWorkflows (c : Core) : Core * Stage :=
  remove_all c (js_of_list (jm_keys (activeTriggersByWorkflowId c) ++ getWorkflowIdsWithCrons c)).

(** [rollbackPartialActivation], then the error. *)
Definition rollbackPartialActivation (c : Core) (workflowId : string) (triggers : WorkflowActiveTriggersState)
    : Core * Stage :=
  close_next (deregisterCrons c workflowId).1 workflowId (handles triggers) KFail.

(** The crons of a poll node, up to one whose interval is too short. *)
Fixpoint register_polls (c : Core) (workflowId node : string) (expressions : list (string * bool)) : Core * bool :=
  match expressions with
  | [] => (c, true)
  | (expression, too_short) :: expressions =>
      if too_short then (c, false) else register_polls (registerCron c workflowId (node, expression)) workflowId node expressions
  end.

(** What a process is told.  A trigger function may register crons while it runs; its
    response may be missing, or without a close function.  A [TriggerCloseError] of a
    close function is only reported. *)
Inductive Reply :=
| TriggerRegisters (expression : string)
| TriggerStarted (response : option bool)
| TriggerFailed
| PollSucceeded
| PollFailed
| Closed
| CloseReported
| CloseFailed.

(** The response of a trigger function that runs the trigger with a close function, or
    none. *)
Definition record_trigger (c : Core) (workflowId node : string) (triggers : WorkflowActiveTriggersState)
    (response : option bool) : Core * WorkflowActiveTriggersState :=
  match response with
  | None => (c, triggers)
  | Some false => (c, jm_set triggers node None)
  | Some true =>
      (mkCore (cronsByWorkflow c) (activeTriggersByWorkflowId c) (jm_set (running c) (nextHandle c) workflowId)
         (S (nextHandle c)), jm_set triggers node (Some (nextHandle c)))
  end.

(** [None]: the process does not wait for this. *)
Definition resume (c : Core) (st : Stage) (r : Reply) : option (Core * Stage) :=
  match st, r with
  | Starting w node ns ps tr, TriggerRegisters expression => Some (registerCron c w (node, expression), st)
  | Starting w node ns ps tr, TriggerStarted response =>
      let '(c, tr) := record_trigger c w node tr response in Some (start_triggers c w ns ps tr)
  | Starting w _ _ _ tr, TriggerFailed => Some (rollbackPartialActivation c w tr)
  | Testing w poll ps tr, PollSucceeded =>
      let '(c, ok) := register_polls c w (poll_id poll) (cronExpressions poll) in
      Some (if ok then test_polls c w ps tr else rollbackPartialActivation (forget c w) w tr)
  | Testing w _ _ tr, PollFailed => Some (rollbackPartialActivation (forget c w) w tr)
  | Closing w (h :: rest) k, Closed => Some (close_next (with_running c (jm_del (running c) h)) w rest k)
  | Closing w (h :: rest) k, CloseReported => Some (close_next c w rest k)
  | Closing w (h :: rest) k, CloseFailed =>
      Some (match k with
            | KFail => close_next c w rest k
            | KAdd _ _ => (c, Done AddFailed)
            | _ => (c, Done RemoveFailed)
            end)
  | _, _ => None
  end.

(** * All processes *)

Record Activation := mkActivation {
  core : Core;
  processes : jmap nat Stage;
  nextProcess : nat;
}.

Inductive ActivationEvent :=
| CallAdd (workflowId : string) (triggerNodes : list string) (pollNodes : list PollNode)
| CallRemove (workflowId : string)
| CallRemoveAll
| Replies (process : nat) (r : Reply).

Definition spawn (s : Activation) (r : Core * Stage) : Activation :=
  mkActivation r.1 (jm_set (processes s) (nextProcess s) r.2) (S (nextProcess s)).

Definition activation_next (s : Activation) (e : ActivationEvent) : option Activation :=
  match e with
  | CallAdd w ns ps => Some (spawn s (add (core s) w ns ps))
  | CallRemove w => Some (spawn s (remove (core s) w))
  | CallRemoveAll => Some (spawn s (removeAllNonWebhookTriggerWorkflows (core s)))
  | Replies p r =>
      st ← jm_get (processes s) p; '(c, st) ← resume (core s) st r;
      Some (mkActivation c (jm_set (processes s) p st) (nextProcess s))
  end.

Definition no_core : Core := mkCore [] [] [] 0.
Definition no_activation : Activation := mkActivation no_core [] 0.

Fixpoint activation_run (s : Activation) (es : list ActivationEvent) : option Activation :=
  match es with
  | [] => Some s
  | e :: es => s ← activation_next s e; activation_run s es
  end.

(** * What runs belongs to something *)

Definition runs (c : Core) (w : string) (h : nat) : Prop := jm_get (running c) h = Some w.
Definition tracked (c : Core) (w : string) : option WorkflowActiveTriggersState := jm_get (activeTriggersByWorkflowId c) w.
Definition crons (c : Core) (w : string) : list CronKey := default [] (jm_get (cronsByWorkflow c) w).

(** The handles are old, and no other workflow runs one of them. *)
Definition own (c : Core) (w : string) (l : list nat) : Prop :=
  ∀ h, h ∈ l → h < nextHandle c ∧ ∀ w', runs c w' h → w' = w.

Definition holds (c : Core) (w : string) (l : list nat) : Prop := own c w l ∧ ∀ h, runs c w h → h ∈ l.

(** A workflow that no process works on. *)
Definition idle_ok (c : Core) (w : string) : Prop :=
  match tracked c w with
  | Some tr => holds c w (handles tr)
  | None => crons c w = [] ∧ ∀ h, ¬ runs c w h
  end.

Definition stage_ok (c : Core) (st : Stage) : Prop :=
  match st with
  | Closing w rest KFail => tracked c w = None ∧ crons c w = [] ∧ holds c w rest
  | Closing w rest _ => crons c w = [] ∧ ∃ tr, tracked c w = Some tr ∧ own c w (handles tr) ∧ rest ⊆ handles tr ∧ holds c w rest
  | Starting w node ns _ tr => tracked c w = None ∧ holds c w (handles tr) ∧ NoDup (jm_keys tr ++ node :: ns)
  | Testing w _ _ tr => tracked c w = Some tr ∧ holds c w (handles tr)
  | Done _ => True
  end.

Definition later (k : Continuation) : list string := match k with KAll ws => ws | _ => [] end.

Definition works (st : Stage) : list string :=
  match st with
  | Closing w _ k => w :: later k
  | Starting w _ _ _ _ | Testing w _ _ _ => [w]
  | Done _ => []
  end.

Definition current (st : Stage) : option string := head (works st).

Record frame (c c' : Core) (w : string) : Prop := {
  frame_crons : crons c' w = crons c w;
  frame_tracked : tracked c' w = tracked c w;
  frame_runs h : runs c' w h ↔ runs c w h;
}.

Record core_le (c c' : Core) : Prop := {
  le_next : nextHandle c ≤ nextHandle c';
  le_runs h w : runs c' w h → runs c w h ∨ nextHandle c ≤ h;
}.

Definition bounded (c : Core) : Prop := ∀ h w, runs c w h → h < nextHandle c.

Record good (ws : list string) (c c' : Core) (st : Stage) : Prop := {
  good_bounded : bounded c';
  good_le : core_le c c';
  good_frame w : w ∉ ws → frame c c' w;
  good_works : works st ⊆ ws;
  good_once : NoDup (works st);
  good_stage : stage_ok c' st;
  good_idle w : w ∈ ws → current st ≠ Some w → idle_ok c' w;
}.

#[export] Instance core_le_preorder : PreOrder core_le.
Proof.
  split; [intros c; constructor; [done|by left]|]. intros c1 c2 c3 [H1 H2] [H3 H4]. constructor; [lia|].
  intros h w [H|H]%H4; [by apply H2|right; lia].
Qed.

Lemma frame_refl c w : frame c c w. Proof. by constructor. Qed.

Lemma frame_trans c1 c2 c3 w : frame c1 c2 w → frame c2 c3 w → frame c1 c3 w.
Proof. intros [H1 H2 H3] [H4 H5 H6]. constructor; [congruence..|]. intros h. by rewrite H6, H3. Qed.

Lemma own_le c c' w l : core_le c c' → own c w l → own c' w l.
Proof.
  intros [Hn Hr] Ho h Hh. destruct (Ho h Hh) as [H1 H2]. split; [lia|].
  intros w' [H|H]%Hr; [by apply H2|lia].
Qed.

Lemma holds_frame c c' w l : core_le c c' → frame c c' w → holds c w l → holds c' w l.
Proof. intros Hle Hf [Ho Hr]. split; [by eapply own_le|]. intros h Hh%(frame_runs c c' w Hf). by apply Hr. Qed.

Lemma idle_frame c c' w : core_le c c' → frame c c' w → idle_ok c w → idle_ok c' w.
Proof.
  intros Hle Hf. pose proof Hf as [Hc Ht Hr]. unfold idle_ok. rewrite Ht, Hc. destruct (tracked c w) as [tr|].
  - by apply holds_frame.
  - intros [H1 H2]. split; [done|]. intros h Hh%Hr. by apply (H2 h).
Qed.

Lemma stage_frame c c' st : core_le c c' → (∀ w, current st = Some w → frame c c' w) → stage_ok c st → stage_ok c' st.
Proof.
  intros Hle Hf. destruct st as [w rest k|w node ns ps tr|w p ps tr|o]; cbn in *; [..|done];
    specialize (Hf w eq_refl); pose proof Hf as [Hc Ht Hr]; rewrite ?Hc, ?Ht.
  - assert (Hopen : (crons c w = [] ∧ ∃ tr, tracked c w = Some tr ∧ own c w (handles tr) ∧ rest ⊆ handles tr ∧ holds c w rest) →
      crons c w = [] ∧ ∃ tr, tracked c w = Some tr ∧ own c' w (handles tr) ∧ rest ⊆ handles tr ∧ holds c' w rest).
    { intros (H1 & tr & H2 & H3 & H4 & H5). split; [done|]. exists tr. split_and!; [done|by eapply own_le|done|by eapply holds_frame]. }
    destruct k; try exact Hopen. intros (H1 & H2 & H3). split_and!; [done..|by eapply holds_frame].
  - intros (H1 & H2 & H3). split_and!; [done|by eapply holds_frame|done].
  - intros (H1 & H2). split_and!; [done|by eapply holds_frame].
Qed.

(** ** The operations on the core *)

Lemma deregister_ok c w :
  let c' := (deregisterCrons c w).1 in
  crons c' w = [] ∧ tracked c' w = tracked c w ∧ (∀ h w', runs c' w' h ↔ runs c w' h) ∧ nextHandle c' = nextHandle c ∧
  ∀ w', w' ≠ w → frame c c' w'.
Proof.
  unfold deregisterCrons, crons. destruct (jm_get (cronsByWorkflow c) w) as [[|k l]|] eqn:Hg; cbn; rewrite ?Hg.
  - by split_and!.
  - rewrite jm_get_del. split_and!; try done. intros w' Hne. constructor; try done. unfold crons. cbn.
    by rewrite jm_get_del_ne.
  - by split_and!.
Qed.

Lemma same_runs_le c c' : nextHandle c' = nextHandle c → (∀ h w, runs c' w h → runs c w h) → core_le c c'.
Proof. intros Hn Hr. constructor; [lia|]. intros h w Hh. left. by apply Hr. Qed.

Lemma forget_ok c w :
  tracked (forget c w) w = None ∧ core_le c (forget c w) ∧ ∀ w', w' ≠ w → frame c (forget c w) w'.
Proof.
  split_and!.
  - unfold tracked, forget. cbn. apply jm_get_del.
  - by apply same_runs_le.
  - intros w' Hne. constructor; try done. unfold tracked, forget. cbn. by rewrite jm_get_del_ne.
Qed.

Lemma bounded_le c c' : bounded c → core_le c c' → (∀ h w, runs c' w h → runs c w h) → bounded c'.
Proof. intros Hb [Hn _] Hr h w Hh%Hr%Hb. lia. Qed.

(** A process that works on a part of the workflows of another, after a step. *)
Lemma good_step ws ws' c c1 c' st :
  bounded c1 → core_le c c1 → (∀ w, w ∉ ws → frame c c1 w) → ws' ⊆ ws → NoDup ws →
  (∀ w, w ∈ ws → w ∉ ws' → idle_ok c1 w) → good ws' c1 c' st → good ws c c' st.
Proof.
  intros Hb Hle Hf Hws Hnd Hi [H1 H2 H3 H4 H5 H6 H7]. constructor; [done|by etrans| | |done|done|].
  - intros w Hw. eapply frame_trans; [by apply Hf|]. apply H3. by intros ?%Hws.
  - by etrans.
  - intros w Hw Hcur. destruct (decide (w ∈ ws')) as [Hin|Hin]; [by apply H7|].
    eapply idle_frame; [done|by apply H3|by apply Hi].
Qed.

Lemma good_done c w o : bounded c → idle_ok c w → good [w] c c (Done o).
Proof.
  intros Hb Hi. constructor; try done.
  - cbn. set_solver.
  - constructor.
  - by intros w' ->%list_elem_of_singleton _.
Qed.

Lemma good_current ws c st w :
  bounded c → current st = Some w → works st ⊆ ws → NoDup (works st) → stage_ok c st →
  (∀ w', w' ∈ ws → w' ≠ w → idle_ok c w') → good ws c c st.
Proof.
  intros Hb Hc Hw Hnd Hs Hi. constructor; try done.
  - intros w' Hin Hne. apply Hi; [done|]. rewrite Hc in Hne. congruence.
Qed.

Lemma remove_all_good c ws :
  bounded c → NoDup ws → (∀ w, w ∈ ws → idle_ok c w) → let '(c', st) := remove_all c ws in good ws c c' st.
Proof.
  revert c. induction ws as [|w ws IH]; intros c Hb Hnd Hi; cbn [remove_all].
  { constructor; try done; first [by intros ? ?%not_elem_of_nil|constructor]. }
  apply NoDup_cons in Hnd as Hnd'. destruct Hnd' as [Hw Hnd'].
  destruct (deregister_ok c w) as (Hc1 & Ht1 & Hr1 & Hn1 & Hf1). set (c1 := (deregisterCrons c w).1) in *.
  assert (Hle1 : core_le c c1) by (apply same_runs_le; [done|]; intros h w' Hh; by apply Hr1).
  assert (Hb1 : bounded c1) by (eapply bounded_le; [done..|]; intros h w' Hh; by apply Hr1).
  assert (Hi1 : ∀ w', w' ∈ ws → idle_ok c1 w').
  { intros w' Hin. assert (w' ≠ w) by (intros ->; done). eapply idle_frame; [done|by apply Hf1|]. apply Hi, elem_of_cons. by right. }
  pose proof (Hi w (proj2 (elem_of_cons _ _ _) (or_introl eq_refl))) as Hiw. unfold idle_ok in Hiw.
  assert (Hframe : ∀ w', w' ∉ w :: ws → frame c c1 w').
  { intros w' [Hne _]%not_elem_of_cons. by apply Hf1. }
  change (jm_get (activeTriggersByWorkflowId c1) w) with (tracked c1 w). rewrite Ht1.
  destruct (tracked c w) as [tr|] eqn:Htr.
  - assert (Hh1 : holds c1 w (handles tr)).
    { destruct Hiw as [Ho Hr]. split; [by eapply own_le|]. intros h Hh. apply Hr. by apply Hr1. }
    destruct (handles tr) as [|h hs] eqn:Hh.
    + destruct (forget_ok c1 w) as (Ht2 & Hle2 & Hf2). specialize (IH (forget c1 w)).
      destruct (remove_all (forget c1 w) ws) as [c' st]. eapply (good_step _ ws _ (forget c1 w)); [..|apply IH]; try done.
      * by etrans.
      * intros w' Hin. eapply frame_trans; [by apply Hframe|]. apply Hf2. by apply not_elem_of_cons in Hin as [? _].
      * set_solver.
      * intros w' Hin Hno. assert (w' = w) as -> by set_solver. unfold idle_ok. rewrite Ht2. split; [done|].
        intros h Hrun. destruct Hh1 as [_ Hr]. by apply (not_elem_of_nil h), Hr.
      * intros w' Hin. eapply idle_frame; [done|apply Hf2; by intros ->|by apply Hi1].
    + eapply (good_step _ (w :: ws) _ c1); try done. 
      eapply good_current; try done. cbn. split; [done|]. exists tr. rewrite Ht1, Hh. split_and!; try done. by destruct Hh1.
      intros w' Hin Hne. apply Hi1. by apply elem_of_cons in Hin as [->|?].
  - specialize (IH c1). destruct (remove_all c1 ws) as [c' st]. eapply (good_step _ ws _ c1); [..|by apply IH]; try done.
    + set_solver.
    + intros w' Hin Hno. assert (w' = w) as -> by set_solver. unfold idle_ok. rewrite Ht1. split; [done|].
      intros h Hh%Hr1. destruct Hiw as [_ Hno']. by apply (Hno' h).
Qed.

Lemma test_polls_good c w ps tr :
  bounded c → tracked c w = Some tr → holds c w (handles tr) → let '(c', st) := test_polls c w ps tr in good [w] c c' st.
Proof.
  intros Hb Ht Hh. destruct ps as [|p ps]; cbn.
  - apply good_done; [done|]. unfold idle_ok. by rewrite Ht.
  - apply (good_current _ _ _ w); [done|done|done|by apply NoDup_singleton|done|].
    by intros w' ->%list_elem_of_singleton.
Qed.

Lemma start_triggers_good c w ns ps tr :
  bounded c → tracked c w = None → holds c w (handles tr) → NoDup (jm_keys tr ++ ns) →
  let '(c', st) := start_triggers c w ns ps tr in good [w] c c' st.
Proof.
  intros Hb Ht Hh Hnd. destruct ns as [|n ns]; cbn.
  - set (c1 := with_active c _).
    assert (Hle : core_le c c1) by by apply same_runs_le.
    assert (Ht1 : tracked c1 w = Some tr) by (unfold tracked, c1; cbn; by rewrite jm_get_set).
    assert (Hh1 : holds c1 w (handles tr)) by (destruct Hh as [Ho Hr]; split; [by eapply own_le|done]).
    pose proof (test_polls_good c1 w ps tr Hb Ht1 Hh1) as Hg. destruct (test_polls c1 w ps tr) as [c' st].
    eapply (good_step [w] [w] c c1); try done.
    + intros w' Hw. constructor; try done. unfold tracked, c1. cbn. rewrite jm_get_set_ne; [done|]. set_solver.
    + by apply NoDup_singleton.
  - apply (good_current _ _ _ w); [done|done|done|by apply NoDup_singleton|done|].
    by intros w' ->%list_elem_of_singleton.
Qed.

(** What [Closing] needs, and the workflows that the process comes to later. *)
Lemma close_next_good c w rest k :
  bounded c → stage_ok c (Closing w rest k) → NoDup (w :: later k) → (∀ w', w' ∈ later k → idle_ok c w') →
  match k with KAdd ns _ => NoDup ns | _ => True end →
  let '(c', st) := close_next c w rest k in good (w :: later k) c c' st.
Proof.
  intros Hb Hs Hnd Hi Hk. destruct rest as [|h rest]; cbn [close_next].
  2: { apply (good_current _ _ _ w); try done. intros w' [->|Hin]%elem_of_cons Hne; [done|by apply Hi]. }
  destruct (forget_ok c w) as (Ht1 & Hle1 & Hf1). set (c1 := forget c w) in *.
  assert (Hnone : ∀ h, holds c w [] → ¬ runs c w h) by (intros h [_ Hr] ?%Hr; by apply not_elem_of_nil in H).
  assert (Hidle : crons c w = [] ∧ holds c w [] → idle_ok c1 w).
  { intros [Hc Hh]. unfold idle_ok. rewrite Ht1. split; [done|]. intros h. by apply Hnone. }
  destruct k as [|ns ps|ws|]; cbn [after_close later] in *; change (forget c w) with c1.
  - destruct Hs as (Hc & tr & _ & _ & _ & Hh). eapply (good_step [w] [w] c c1); try done.
    + intros w' Hw. apply Hf1. set_solver.
    + apply good_done; [done|by apply Hidle].
  - destruct Hs as (Hc & tr & _ & _ & _ & Hh).
    pose proof (start_triggers_good c1 w ns ps [] Hb Ht1) as Hg. destruct (start_triggers c1 w ns ps []) as [c' st].
    eapply (good_step [w] [w] c c1); try done.
    + intros w' Hw. apply Hf1. set_solver.
    + apply Hg; [|done]. destruct Hh as [Ho Hr]. split; [by eapply own_le|done].
  - destruct Hs as (Hc & tr & _ & _ & _ & Hh). apply NoDup_cons in Hnd as Hnd'. destruct Hnd' as [Hw Hnd'].
    assert (Hi1 : ∀ w', w' ∈ ws → idle_ok c1 w').
    { intros w' Hin. eapply idle_frame; [done|apply Hf1; by intros ->|by apply Hi]. }
    pose proof (remove_all_good c1 ws Hb Hnd' Hi1) as Hg. destruct (remove_all c1 ws) as [c' st].
    eapply (good_step (w :: ws) ws c c1); try done.
    + intros w' Hin. apply Hf1. set_solver.
    + set_solver.
    + intros w' Hin Hno. assert (w' = w) as -> by set_solver. by apply Hidle.
  - destruct Hs as (Ht & Hc & Hh). apply good_done; [done|]. unfold idle_ok. rewrite Ht. split; [done|].
    intros h. by apply Hnone.
Qed.

(** A core after the crons of a workflow were deregistered. *)
Lemma deregistered c w :
  bounded c → let c1 := (deregisterCrons c w).1 in
  bounded c1 ∧ core_le c c1 ∧ crons c1 w = [] ∧ tracked c1 w = tracked c w ∧ (∀ w', w' ∉ [w] → frame c c1 w') ∧
  ∀ l, holds c w l → holds c1 w l.
Proof.
  intros Hb c1. destruct (deregister_ok c w) as (Hc1 & Ht1 & Hr1 & Hn1 & Hf1).
  assert (Hle1 : core_le c c1) by (apply same_runs_le; [done|]; intros h w' Hh; by apply Hr1).
  split_and!; try done.
  - eapply bounded_le; [done..|]. intros h w' Hh. by apply Hr1.
  - intros w' Hw. apply Hf1. set_solver.
  - intros l [Ho Hr]. split; [by eapply own_le|]. intros h Hh%Hr1. by apply Hr.
Qed.

Lemma remove_then_good c w k :
  bounded c → idle_ok c w → later k = [] → match k with KAdd ns _ => NoDup ns | KFail => False | _ => True end →
  let '(c', st) := remove_then c w k in good [w] c c' st.
Proof.
  intros Hb Hi Hl Hk. destruct (deregistered c w Hb) as (Hb1 & Hle1 & Hc1 & Ht1 & Hf1 & Hh1). unfold remove_then.
  set (c1 := (deregisterCrons c w).1) in *. change (jm_get (activeTriggersByWorkflowId c1) w) with (tracked c1 w).
  unfold idle_ok in Hi. rewrite <- Ht1 in Hi. destruct (tracked c1 w) as [tr|] eqn:Htr.
  - pose proof (close_next_good c1 w (handles tr) k Hb1) as Hg. rewrite Hl in Hg.
    destruct (close_next c1 w (handles tr) k) as [c' st]. eapply (good_step [w] [w] c c1); try done; [by apply NoDup_singleton|].
    specialize (Hh1 _ Hi). apply Hg; [|by apply NoDup_singleton|by intros ? ?%not_elem_of_nil|by destruct k].
    destruct k; [| | |done]; (split; [done|]; exists tr; split_and!; try done; by destruct Hh1).
  - destruct Hi as [_ Hno]. assert (Hh : holds c1 w []).
    { apply Hh1. split; [by intros ? ?%not_elem_of_nil|]. intros h Hh. by destruct (Hno h). }
    assert (Hidle : idle_ok c1 w).
    { unfold idle_ok. rewrite Htr. split; [done|]. intros h Hr. destruct Hh as [_ Hr']. by apply Hr', not_elem_of_nil in Hr. }
    destruct k as [|ns ps|ws|]; cbn in *; [..|done].
    + eapply (good_step [w] [w] c c1); try done; [by apply NoDup_singleton|by apply good_done].
    + pose proof (start_triggers_good c1 w ns ps [] Hb1 Htr Hh Hk) as Hg. destruct (start_triggers c1 w ns ps []) as [c' st].
      eapply (good_step [w] [w] c c1); try done. by apply NoDup_singleton.
    + eapply (good_step [w] [w] c c1); try done; [by apply NoDup_singleton|by apply good_done].
Qed.

Lemma rollback_good c w tr :
  bounded c → tracked c w = None → holds c w (handles tr) →
  let '(c', st) := rollbackPartialActivation c w tr in good [w] c c' st.
Proof.
  intros Hb Ht Hh. destruct (deregistered c w Hb) as (Hb1 & Hle1 & Hc1 & Ht1 & Hf1 & Hh1). unfold rollbackPartialActivation.
  set (c1 := (deregisterCrons c w).1) in *.
  pose proof (close_next_good c1 w (handles tr) KFail Hb1) as Hg. destruct (close_next c1 w (handles tr) KFail) as [c' st].
  eapply (good_step [w] [w] c c1); try done; [by apply NoDup_singleton|].
  apply Hg; [|by apply NoDup_singleton|by intros ? ?%not_elem_of_nil|done].
  split_and!; [by rewrite Ht1|done|by apply Hh1].
Qed.

(** ** A reply *)

Lemma registerCron_ok c w key :
  let c' := registerCron c w key in
  tracked c' w = tracked c w ∧ running c' = running c ∧ nextHandle c' = nextHandle c ∧ ∀ w', w' ∉ [w] → frame c c' w'.
Proof.
  unfold registerCron. case_bool_decide; [by split_and!|]. split_and!; try done.
  intros w' Hw. constructor; try done. unfold crons. cbn. rewrite jm_get_set_ne; [done|set_solver].
Qed.

(** What leaves the triggers alone, but for the crons of a workflow. *)
Record crons_only (c c' : Core) (w : string) : Prop := {
  co_tracked : tracked c' w = tracked c w;
  co_running : running c' = running c;
  co_next : nextHandle c' = nextHandle c;
  co_frame w' : w' ∉ [w] → frame c c' w';
}.

Lemma crons_only_le c c' w : crons_only c c' w → core_le c c'.
Proof. intros [_ Hr Hn _]. apply same_runs_le; [done|]. intros h w'. unfold runs. by rewrite Hr. Qed.

Lemma crons_only_bounded c c' w : crons_only c c' w → bounded c → bounded c'.
Proof. intros [_ Hr Hn _] Hb h w'. unfold runs. rewrite Hr, Hn. apply Hb. Qed.

Lemma crons_only_holds c c' w l : crons_only c c' w → holds c w l → holds c' w l.
Proof.
  intros Hco [Ho Hr]. split; [eapply own_le; [by eapply crons_only_le|done]|]. intros h. unfold runs. rewrite (co_running _ _ _ Hco).
  apply Hr.
Qed.

Lemma register_polls_ok c w node l : crons_only c (register_polls c w node l).1 w.
Proof.
  revert c. induction l as [|[e short] l IH]; intros c; cbn [register_polls]; [by constructor|].
  destruct short; [by constructor|]. destruct (registerCron_ok c w (node, e)) as (H1 & H2 & H3 & H4).
  destruct (IH (registerCron c w (node, e))) as [H5 H6 H7 H8]. constructor; [congruence..|].
  intros w' Hw. eapply frame_trans; [by apply H4|by apply H8].
Qed.

Lemma handles_set tr node h :
  node ∉ jm_keys tr → handles (jm_set tr node h) = handles tr ++ option_list h.
Proof.
  intros Hn. rewrite jm_set_new by (by apply jm_get_None). unfold handles, jm_vals. rewrite fmap_app, omap_app. cbn.
  by destruct h.
Qed.

Lemma record_trigger_ok c w node tr r :
  bounded c → holds c w (handles tr) → node ∉ jm_keys tr →
  let '(c', tr') := record_trigger c w node tr r in
  bounded c' ∧ core_le c c' ∧ tracked c' w = tracked c w ∧ (∀ w', w' ∉ [w] → frame c c' w') ∧ holds c' w (handles tr') ∧
  (∀ n, n ∈ jm_keys tr' → n ∈ jm_keys tr ∨ n = node) ∧ (NoDup (jm_keys tr) → NoDup (jm_keys tr')).
Proof.
  intros Hb Hh Hn. destruct r as [[]|]; cbn.
  - set (h := nextHandle c). set (c' := mkCore _ _ _ _).
    assert (Hr : ∀ h' w', runs c' w' h' ↔ (h' = h ∧ w' = w) ∨ runs c w' h').
    { intros h' w'. unfold runs, c'. cbn. destruct (decide (h = h')) as [<-|Hne].
      - rewrite jm_get_set. split; [intros [= <-]; by left|]. intros [[_ ->]|Hold]; [done|]. apply Hb in Hold. unfold h in *. lia.
      - rewrite jm_get_set_ne by done. split; [by right|]. intros [[-> _]|?]; done. }
    assert (Hle : core_le c c').
    { constructor; [cbn; lia|]. intros h' w' [[-> _]|Hold]%Hr; [right; unfold h; lia|by left]. }
    split_and!; try done.
    + intros h' w' [[-> _]|Hold%Hb]%Hr; cbn; unfold h in *; lia.
    + intros w' Hw. constructor; try done. intros h'. rewrite Hr. split; [|by right]. intros [[_ ->]|?]; [set_solver|done].
    + rewrite handles_set by done. destruct Hh as [Ho Hrun]. split.
      * intros h' [Hin| ->%list_elem_of_singleton]%elem_of_app.
        -- destruct (Ho h' Hin) as [H1 H2]. split; [cbn; unfold h in *; lia|]. intros w' [[_ ->]|Hold]%Hr; [done|by apply H2].
        -- split; [cbn; unfold h; lia|]. intros w' [[_ ->]|Hold%Hb]%Hr; [done|unfold h in *; lia].
      * intros h' [[-> _]|Hold]%Hr; apply elem_of_app; [right; by apply list_elem_of_singleton|left; by apply Hrun].
    + intros n. rewrite jm_set_new by (by apply jm_get_None). unfold jm_keys. rewrite fmap_app, elem_of_app. cbn.
      intros [?|?%list_elem_of_singleton]; [by left|by right].
    + intros Hnd. by apply jm_wf_set.
  - split_and!; try done.
    + rewrite handles_set by done. cbn. by rewrite app_nil_r.
    + intros n. rewrite jm_set_new by (by apply jm_get_None). unfold jm_keys. rewrite fmap_app, elem_of_app. cbn.
      intros [?|?%list_elem_of_singleton]; [by left|by right].
    + intros Hnd. by apply jm_wf_set.
  - split_and!; try done. by left.
Qed.

(** Close functions succeed, or fail where that is known: not during the rollback of an
    activation, where a failure is only reported. *)
Definition clean (st : Stage) (r : Reply) : Prop :=
  match r with
  | CloseReported => False
  | CloseFailed => ∀ w rest, st ≠ Closing w rest KFail
  | _ => True
  end.

Definition nodes_ok (st : Stage) : Prop := match st with Closing _ _ (KAdd ns _) => NoDup ns | _ => True end.

Lemma closed_ok c w h rest k :
  bounded c → stage_ok c (Closing w (h :: rest) k) →
  let c' := with_running c (jm_del (running c) h) in
  bounded c' ∧ core_le c c' ∧ (∀ w', w' ≠ w → frame c c' w') ∧ stage_ok c' (Closing w rest k).
Proof.
  intros Hb Hs c'.
  assert (Hr : ∀ h' w', runs c' w' h' ↔ h' ≠ h ∧ runs c w' h').
  { intros h' w'. unfold runs, c'. cbn. destruct (decide (h = h')) as [<-|Hne]; [rewrite jm_get_del; naive_solver|].
    rewrite jm_get_del_ne by done. naive_solver. }
  assert (Hle : core_le c c') by (apply same_runs_le; [done|]; intros h' w' [_ ?]%Hr; done).
  assert (Hown : own c w (h :: rest)) by (destruct k; [by destruct Hs as (_ & tr & _ & _ & _ & [? _])..|by destruct Hs as (_ & _ & [? _])]).
  assert (Hh : holds c w (h :: rest) → holds c' w rest).
  { intros [Ho Hrun]. split.
    - intros h' Hin. apply (own_le c c' w (h :: rest)); [done|done|]. apply elem_of_cons. by right.
    - intros h' [Hne Hold]%Hr. apply Hrun, elem_of_cons in Hold as [->|?]; done. }
  split_and!; [|done| |].
  - intros h' w' [_ ?]%Hr. by apply (Hb h' w').
  - intros w' Hne. constructor; try done. intros h'. rewrite Hr. split; [by intros [_ ?]|]. intros Hold. split; [|done].
    intros ->. destruct (Hown h) as [_ Ho]; [apply elem_of_cons; by left|]. by apply Hne, Ho.
  - destruct k; cbn in Hs |- *;
      [destruct Hs as (Hc & tr & Ht & Ho & Hsub & Hold); split; [done|]; exists tr; split_and!;
        [done|by eapply own_le|set_solver|by apply Hh]..|].
    destruct Hs as (Ht & Hc & Hold). split_and!; [done|done|by apply Hh].
Qed.

Lemma good_stop ws c o : bounded c → (∀ w, w ∈ ws → idle_ok c w) → good ws c c (Done o).
Proof.
  intros Hb Hi. constructor; [done|done|intros w _; apply frame_refl|intros w Hw; by apply not_elem_of_nil in Hw|constructor|done|].
  intros w Hw _. by apply Hi.
Qed.

(** A close function fails while a workflow is removed: it is still tracked. *)
Lemma closing_idle c w rest k : k ≠ KFail → stage_ok c (Closing w rest k) → idle_ok c w.
Proof.
  intros Hk Hs. assert (Hopen : ∃ tr, tracked c w = Some tr ∧ own c w (handles tr) ∧ rest ⊆ handles tr ∧ holds c w rest)
    by (destruct k; [by destruct Hs..|done]).
  destruct Hopen as (tr & Ht & Ho & Hsub & [_ Hh]). unfold idle_ok. rewrite Ht. split; [done|].
  intros h Hr. by apply Hsub, Hh.
Qed.

Lemma resume_good c st r c' st' :
  bounded c → stage_ok c st → nodes_ok st → NoDup (works st) → (∀ w, w ∈ works st → current st ≠ Some w → idle_ok c w) →
  clean st r → resume c st r = Some (c', st') → good (works st) c c' st'.
Proof.
  intros Hb Hs Hk Hnd Hi Hcl Hr. destruct st as [w [|h rest] k|w node ns ps tr|w poll ps tr|o], r as [e|resp| | | | | |]; try done; cbn in Hr.
  - destruct (closed_ok c w h rest k Hb Hs) as (Hb1 & Hle1 & Hf1 & Hs1). set (c1 := with_running c _) in *.
    pose proof (close_next_good c1 w rest k Hb1 Hs1 Hnd) as Hg. injection Hr as Hr.
    assert (Hl : ∀ w', w' ∈ later k → idle_ok c w').
    { intros w' Hin. apply Hi; [apply elem_of_cons; by right|]. intros [= ->]. by apply NoDup_cons in Hnd as [? _]. }
    rewrite Hr in Hg. eapply (good_step _ (w :: later k) c c1); try done.
    + intros w' Hin. apply Hf1. intros ->. apply Hin, elem_of_cons. by left.
    + apply Hg; [|by destruct k]. intros w' Hin. eapply idle_frame; [done| |by apply Hl].
      apply Hf1. intros ->. by apply NoDup_cons in Hnd as [? _].
  - assert (Hkf : k ≠ KFail) by (intros ->; by destruct (Hcl w (h :: rest))).
    assert (Hd : c' = c ∧ ∃ o, st' = Done o) by (destruct k; [injection Hr as <- <-; by eauto..|done]).
    destruct Hd as [-> [o ->]]. apply good_stop; [done|]. intros w' Hin.
    destruct (decide (w' = w)) as [->|Hne]; [by eapply closing_idle|]. apply Hi; [done|]. intros [= ->]. done.
  - injection Hr as <- <-. destruct (registerCron_ok c w (node, e)) as (H1 & H2 & H3 & H4). set (c1 := registerCron _ _ _) in *.
    assert (Hco : crons_only c c1 w) by by constructor. destruct Hs as (Ht & Hh & Hn).
    eapply (good_step _ [w] c c1); [by eapply crons_only_bounded|by eapply crons_only_le|done|done|done|done|].
    apply (good_current _ _ _ w); [by eapply crons_only_bounded|done|done|done| |by intros w' ->%list_elem_of_singleton].
    cbn. rewrite H1. split_and!; [done|by eapply crons_only_holds|done].
  - destruct Hs as (Ht & Hh & Hn). apply NoDup_app in Hn as (Hn1 & Hn2 & Hn3). apply NoDup_cons in Hn3 as [Hn3 Hn4].
    assert (Hnew : node ∉ jm_keys tr) by (intros Hin; apply (Hn2 node Hin), elem_of_cons; by left).
    pose proof (record_trigger_ok c w node tr resp Hb Hh Hnew) as Hrec. destruct (record_trigger c w node tr resp) as [c1 tr1].
    destruct Hrec as (Hb1 & Hle1 & Ht1 & Hf1 & Hh1 & Hk1 & Hk2). injection Hr as Hr.
    pose proof (start_triggers_good c1 w ns ps tr1 Hb1) as Hg. rewrite Hr in Hg.
    eapply (good_step _ [w] c c1); try done. apply Hg; [by rewrite Ht1|done|]. apply NoDup_app. split_and!; [by apply Hk2| |done].
    intros n [Hin| ->]%Hk1; [|done]. intros Hin'. apply (Hn2 n Hin), elem_of_cons. by right.
  - destruct Hs as (Ht & Hh & Hn). pose proof (rollback_good c w tr Hb Ht Hh) as Hg. injection Hr as Hr. by rewrite Hr in Hg.
  - pose proof (register_polls_ok c w (poll_id poll) (cronExpressions poll)) as Hco.
    destruct (register_polls c w (poll_id poll) (cronExpressions poll)) as [c1 ok]. cbn in Hco. destruct Hs as [Ht Hh].
    pose proof (crons_only_bounded _ _ _ Hco Hb) as Hb1. pose proof (crons_only_le _ _ _ Hco) as Hle1.
    pose proof (crons_only_holds _ _ _ _ Hco Hh) as Hh1. injection Hr as Hr. destruct ok.
    + pose proof (test_polls_good c1 w ps tr Hb1) as Hg. rewrite Hr in Hg.
      eapply (good_step _ [w] c c1); try done; [by apply Hco|]. apply Hg; [by rewrite (co_tracked _ _ _ Hco)|done].
    + destruct (forget_ok c1 w) as (Ht2 & Hle2 & Hf2).
      pose proof (rollback_good (forget c1 w) w tr Hb1 Ht2) as Hg. rewrite Hr in Hg.
      eapply (good_step _ [w] c (forget c1 w)); try done; [by etrans| |].
      * intros w' Hw. eapply frame_trans; [by apply Hco|]. apply Hf2. set_solver.
      * apply Hg. destruct Hh1 as [Ho Hrun]. split; [by eapply own_le|done].
  - destruct Hs as [Ht Hh]. destruct (forget_ok c w) as (Ht2 & Hle2 & Hf2).
    pose proof (rollback_good (forget c w) w tr Hb Ht2) as Hg. injection Hr as Hr. rewrite Hr in Hg.
    eapply (good_step _ [w] c (forget c w)); try done; [intros w' Hw; apply Hf2; set_solver|].
    apply Hg. destruct Hh as [Ho Hrun]. split; [by eapply own_le|done].
Qed.

Lemma start_triggers_nodes c w ns ps tr : nodes_ok (start_triggers c w ns ps tr).2.
Proof. destruct ns as [|n ns]; [by destruct ps|done]. Qed.

Lemma remove_all_nodes c ws : nodes_ok (remove_all c ws).2.
Proof.
  revert c. induction ws as [|w ws IH]; intros c; [done|]. cbn [remove_all].
  destruct (jm_get _ w) as [tr|]; [|apply IH]. by destruct (handles tr).
Qed.

Lemma close_next_nodes c w rest k : nodes_ok (Closing w rest k) → nodes_ok (close_next c w rest k).2.
Proof.
  intros Hk. destruct rest; [|done]. destruct k; cbn [close_next after_close]; [done|apply start_triggers_nodes|apply remove_all_nodes|done].
Qed.

Lemma remove_then_nodes c w k : nodes_ok (Closing w [] k) → nodes_ok (remove_then c w k).2.
Proof.
  intros Hk. unfold remove_then. destruct (jm_get _ w) as [tr|]; [by apply close_next_nodes|].
  destruct k; [done|apply start_triggers_nodes|done..].
Qed.

Lemma rollback_nodes c w tr : nodes_ok (rollbackPartialActivation c w tr).2.
Proof. by apply close_next_nodes. Qed.

Lemma resume_nodes c st r c' st' : nodes_ok st → resume c st r = Some (c', st') → nodes_ok st'.
Proof.
  intros Hk Hr. destruct st as [w [|h rest] k|w node ns ps tr|w poll ps tr|o], r as [e|resp| | | | | |]; try done; cbn in Hr.
  - injection Hr as Hr. change st' with (c', st').2. rewrite <- Hr. by apply close_next_nodes.
  - injection Hr as Hr. change st' with (c', st').2. rewrite <- Hr. by apply close_next_nodes.
  - destruct k; [by injection Hr as <- <-..|]. injection Hr as Hr. change st' with (c', st').2. rewrite <- Hr.
    by apply close_next_nodes.
  - by injection Hr as <- <-.
  - destruct (record_trigger c w node tr resp) as [c1 tr1]. injection Hr as Hr. change st' with (c', st').2. rewrite <- Hr.
    apply start_triggers_nodes.
  - injection Hr as Hr. change st' with (c', st').2. rewrite <- Hr. apply rollback_nodes.
  - destruct (register_polls _ _ _ _) as [c1 []]; injection Hr as Hr; change st' with (c', st').2; rewrite <- Hr;
      [by destruct ps|apply rollback_nodes].
  - injection Hr as Hr. change st' with (c', st').2. rewrite <- Hr. apply rollback_nodes.
Qed.

(** * Processes that do not meet *)

(** No process works on a workflow now. *)
Definition unattended (s : Activation) (w : string) : Prop :=
  ∀ p st, jm_get (processes s) p = Some st → w ∉ works st.

(** A workflow is added or removed while no other process works on it; the trigger nodes
    of a workflow have different ids. *)
Definition quiet (s : Activation) (e : ActivationEvent) : Prop :=
  match e with
  | CallAdd w ns _ => NoDup ns ∧ unattended s w
  | CallRemove w => unattended s w
  | CallRemoveAll => ∀ w, unattended s w
  | Replies p r => ∀ st, jm_get (processes s) p = Some st → clean st r
  end.

Inductive quietly : Activation → Prop :=
| quietly_init : quietly no_activation
| quietly_step s e s' : quietly s → quiet s e → activation_next s e = Some s' → quietly s'.

Record act_inv (s : Activation) : Prop := {
  inv_bounded : bounded (core s);
  inv_stage p st : jm_get (processes s) p = Some st → stage_ok (core s) st ∧ nodes_ok st ∧ NoDup (works st);
  inv_apart p p' st st' w : p ≠ p' → jm_get (processes s) p = Some st → jm_get (processes s) p' = Some st' →
    w ∈ works st → w ∉ works st';
  inv_idle w : (∀ p st, jm_get (processes s) p = Some st → current st ≠ Some w) → idle_ok (core s) w;
  inv_fresh p : nextProcess s ≤ p → jm_get (processes s) p = None;
}.

Lemma current_works st w : current st = Some w → w ∈ works st.
Proof. unfold current. destruct (works st) as [|w' l]; [done|]. cbn. intros [= ->]. apply elem_of_cons. by left. Qed.

(** A step of one process; [ws] is what it works on. *)
Lemma inv_set s p ws c st n :
  act_inv s → nextProcess s ≤ n → (p < n) → good ws (core s) c st → nodes_ok st →
  (∀ p' st' w, p' ≠ p → jm_get (processes s) p' = Some st' → w ∈ ws → w ∉ works st') →
  (∀ st' w, jm_get (processes s) p = Some st' → w ∈ works st' → w ∈ ws) →
  act_inv (mkActivation c (jm_set (processes s) p st) n).
Proof.
  intros [I1 I2 I3 I4 I5] Hn Hp [G1 G2 G3 G4 G5 G6 G7] Hnodes Hap Hself. constructor; cbn [core processes nextProcess].
  - done.
  - intros p' st'. destruct (decide (p = p')) as [<-|Hne].
    + rewrite jm_get_set. intros [= <-]. done.
    + rewrite jm_get_set_ne by done. intros Hg. destruct (I2 _ _ Hg) as (H1 & H2 & H3). split_and!; try done.
      apply (stage_frame (core s)); [done| |done]. intros w Hw. apply G3. intros Hin. apply current_works in Hw. by eapply Hap.
  - intros p1 p2 st1 st2 w Hne. destruct (decide (p = p1)) as [<-|H1].
    + rewrite jm_get_set, jm_get_set_ne by done. intros [= <-] Hg Hw. apply (Hap p2 st2); [done|done|by apply G4].
    + rewrite (jm_get_set_ne _ _ p1) by done. destruct (decide (p = p2)) as [<-|H2].
      * rewrite jm_get_set. intros Hg [= <-] Hw Hw'%G4. by apply (Hap p1 st1 w).
      * rewrite jm_get_set_ne by done. by apply I3.
  - intros w Hc. destruct (decide (w ∈ ws)) as [Hin|Hin].
    + apply G7; [done|]. apply (Hc p). apply jm_get_set.
    + eapply idle_frame; [done|by apply G3|]. apply I4. intros p' st' Hg. destruct (decide (p = p')) as [<-|Hne].
      * intros Hw%current_works. by apply Hin, (Hself st').
      * apply (Hc p'). by rewrite jm_get_set_ne.
  - intros p' Hp'. rewrite jm_get_set_ne by lia. apply I5. lia.
Qed.

Lemma inv_unattended s w : act_inv s → unattended s w → idle_ok (core s) w.
Proof. intros I Hu. apply (inv_idle s I). intros p st Hg Hw%current_works. by apply (Hu p st). Qed.

Lemma inv_spawn s ws c st :
  act_inv s → (∀ w, w ∈ ws → unattended s w) → good ws (core s) c st → nodes_ok st → act_inv (spawn s (c, st)).
Proof.
  intros I Hu Hg Hk. apply (inv_set s (nextProcess s) ws); try done; [lia|lia| |].
  - intros p' st' w _ Hget Hw. by apply (Hu w Hw p').
  - intros st' w Hget. by rewrite (inv_fresh s I) in Hget.
Qed.

Lemma inv_reply s p r st c st' :
  act_inv s → jm_get (processes s) p = Some st → clean st r → resume (core s) st r = Some (c, st') →
  act_inv (mkActivation c (jm_set (processes s) p st') (nextProcess s)).
Proof.
  intros I Hg Hcl Hr. destruct (inv_stage s I p st Hg) as (Hs & Hk & Hnd).
  apply (inv_set s p (works st)); try done.
  - assert (p < nextProcess s); [|done]. destruct (decide (p < nextProcess s)) as [|Hge]; [done|].
    rewrite (inv_fresh s I) in Hg; [done|lia].
  - apply (resume_good (core s) st r); try done; [apply I|]. intros w Hw Hc. apply (inv_idle s I). intros p' st2 Hg2.
    destruct (decide (p' = p)) as [->|Hne]; [by rewrite Hg in Hg2; injection Hg2 as <-|].
    intros Hw2%current_works. by apply (inv_apart s I p p' st st2 w).
  - by eapply resume_nodes.
  - intros p' st2 w Hne Hg2 Hw. by eapply (inv_apart s I p p').
  - intros st2 w Hg2. rewrite Hg in Hg2. by injection Hg2 as <-.
Qed.

Lemma quietly_inv s : quietly s → act_inv s.
Proof.
  induction 1 as [|s e s' _ I Hq Hn].
  { constructor; try done; intros w ?; unfold idle_ok; cbn; done. }
  destruct e as [w ns ps|w| |p r]; cbn [activation_next quiet] in *.
  - injection Hn as <-. destruct Hq as [Hnd Hu].
    pose proof (remove_then_good (core s) w (KAdd ns ps) (inv_bounded s I) (inv_unattended s w I Hu) eq_refl Hnd) as Hg.
    pose proof (remove_then_nodes (core s) w (KAdd ns ps) Hnd) as Hk. unfold add.
    destruct (remove_then (core s) w (KAdd ns ps)) as [c st]. eapply (inv_spawn s [w]); try done.
    by intros w' ->%list_elem_of_singleton.
  - injection Hn as <-.
    pose proof (remove_then_good (core s) w KRemove (inv_bounded s I) (inv_unattended s w I Hq) eq_refl Logic.I) as Hg.
    pose proof (remove_then_nodes (core s) w KRemove Logic.I) as Hk. unfold remove.
    destruct (remove_then (core s) w KRemove) as [c st]. eapply (inv_spawn s [w]); try done.
    by intros w' ->%list_elem_of_singleton.
  - injection Hn as <-. unfold removeAllNonWebhookTriggerWorkflows. set (ws := js_of_list _).
    assert (Hi : ∀ w, w ∈ ws → idle_ok (core s) w) by (intros w _; by apply inv_unattended).
    assert (Hnd : NoDup ws) by apply js_of_list_NoDup.
    pose proof (remove_all_good (core s) ws (inv_bounded s I) Hnd Hi) as Hg. pose proof (remove_all_nodes (core s) ws) as Hk.
    destruct (remove_all (core s) ws) as [c st]. by eapply (inv_spawn s ws).
  - destruct (jm_get (processes s) p) as [st|] eqn:Hg; [|done]. cbn in Hn.
    destruct (resume (core s) st r) as [[c st']|] eqn:Hr; [|done]. cbn in Hn. injection Hn as <-.
    apply (inv_reply s p r st); try done. by apply Hq.
Qed.

(** C14: while calls on a workflow do not overlap and close functions do not fail silently,
    what runs of a workflow that no call works on is what is recorded: if it is active in
    memory, every trigger of it that runs can be closed by a recorded response; if it is
    not, it has no cron and no trigger of it runs. *)
Theorem inactive_nothing_runs s w :
  quietly s → unattended s w →
  match jm_get (activeTriggersByWorkflowId (core s)) w with
  | Some triggers => isActive (core s) w = true ∧ ∀ h, jm_get (running (core s)) h = Some w → h ∈ handles triggers
  | None => isActive (core s) w = false ∧ crons (core s) w = [] ∧ ∀ h, jm_get (running (core s)) h ≠ Some w
  end.
Proof.
  intros Hs Hu. pose proof (inv_unattended s w (quietly_inv s Hs) Hu) as Hi. unfold idle_ok, tracked in Hi.
  unfold isActive, jm_has. destruct (jm_get _ w) as [tr|]; [by destruct Hi|]. done.
Qed.

(** The reply makes the activation fail: a trigger function or a first poll fails, or an
    interval is too short. *)
Inductive fails (w : string) (tr : WorkflowActiveTriggersState) : Stage → Reply → Prop :=
| fails_trigger node ns ps : fails w tr (Starting w node ns ps tr) TriggerFailed
| fails_poll poll ps : fails w tr (Testing w poll ps tr) PollFailed
| fails_interval poll ps : existsb snd (cronExpressions poll) = true → fails w tr (Testing w poll ps tr) PollSucceeded.

Lemma register_polls_short c w node l : existsb snd l = true → (register_polls c w node l).2 = false.
Proof. revert c. induction l as [|[e []] l IH]; intros c; cbn; [done..|]. apply IH. Qed.

Lemma fails_rollback c st r w tr :
  bounded c → stage_ok c st → fails w tr st r →
  ∃ c1, resume c st r = Some (rollbackPartialActivation c1 w tr) ∧ bounded c1 ∧ tracked c1 w = None ∧ holds c1 w (handles tr).
Proof.
  intros Hb Hs Hf. destruct Hf as [node ns ps|poll ps|poll ps Hshort]; cbn [resume stage_ok] in *.
  - exists c. by destruct Hs as (Ht & Hh & _).
  - exists (forget c w). destruct Hs as [_ [Ho Hr]]. destruct (forget_ok c w) as (Ht & Hle & _). by split_and!.
  - pose proof (register_polls_short c w (poll_id poll) _ Hshort) as Hok.
    pose proof (register_polls_ok c w (poll_id poll) (cronExpressions poll)) as Hco.
    destruct (register_polls c w (poll_id poll) (cronExpressions poll)) as [c1 ok]. cbn in Hok, Hco. subst ok.
    exists (forget c1 w). destruct (forget_ok c1 w) as (Ht & Hle & _). split_and!; [done|by apply (crons_only_bounded c c1 w)|done|].
    destruct Hs as [_ Hh]. apply (crons_only_holds c c1) in Hh as [Ho Hr]; [|done]. split; [by eapply own_le|done].
Qed.

(** What a failed activation leaves of the workflow. *)
Definition nothing_left (c : Core) (w : string) : Prop :=
  isActive c w = false ∧ crons c w = [] ∧ ∀ h, jm_get (running c) h ≠ Some w.

Lemma rollback_closes p w rest s :
  bounded (core s) → stage_ok (core s) (Closing w rest KFail) →
  jm_get (processes s) p = Some (close_next (core s) w rest KFail).2 →
  ∃ s', activation_run s (repeat (Replies p Closed) (length rest)) = Some s' ∧
    jm_get (processes s') p = Some (Done AddFailed) ∧ nothing_left (core s') w.
Proof.
  revert s. induction rest as [|h rest IH]; intros s Hb Hs Hg; cbn [length repeat activation_run].
  - exists s. split_and!; [done|done|]. destruct Hs as (Ht & Hc & _ & Hr). split_and!; [|done|].
    + unfold isActive, jm_has. unfold tracked in Ht. by rewrite Ht.
    + intros h Hh. by apply (not_elem_of_nil h), Hr.
  - destruct (closed_ok (core s) w h rest KFail Hb Hs) as (Hb1 & _ & _ & Hs1). cbn [activation_next]. rewrite Hg. cbn [close_next snd mbind option_bind resume].
    destruct (close_next _ w rest KFail) as [c1 st1] eqn:Hn.
    assert (Hc1 : c1 = with_running (core s) (jm_del (running (core s)) h)) by (destruct rest; by injection Hn as <- _).
    subst c1. apply IH; cbn [core processes]; [done|done|]. rewrite jm_get_set. by rewrite Hn.
Qed.

(** C15: an activation that fails, in a trigger function, in a first poll or because an
    interval is too short, ends once the triggers that were started are closed, and then the
    workflow is not active in memory, has no cron and no trigger of it runs. *)
Theorem failed_activation_cleans_up s p st r w tr :
  quietly s → jm_get (processes s) p = Some st → fails w tr st r →
  ∃ s', activation_run s (Replies p r :: repeat (Replies p Closed) (length (handles tr))) = Some s' ∧
    jm_get (processes s') p = Some (Done AddFailed) ∧ nothing_left (core s') w.
Proof.
  intros Hq Hg Hf. pose proof (quietly_inv s Hq) as I. destruct (inv_stage s I p st Hg) as (Hs & _).
  destruct (fails_rollback (core s) st r w tr (inv_bounded s I) Hs Hf) as (c1 & Hr & Hb & Ht & Hh).
  destruct (deregistered c1 w Hb) as (Hb2 & _ & Hc2 & Ht2 & _ & Hh2). unfold rollbackPartialActivation in Hr.
  set (c2 := (deregisterCrons c1 w).1) in *. cbn [activation_run activation_next]. rewrite Hg. cbn [mbind option_bind]. rewrite Hr.
  cbn [mbind option_bind]. destruct (close_next c2 w (handles tr) KFail) as [c3 st3] eqn:Hn.
  assert (c3 = c2) as -> by (destruct (handles tr); by injection Hn as <- _).
  apply rollback_closes; cbn [core processes]; [done| |].
  - split_and!; [by rewrite Ht2|done|by apply Hh2].
  - by rewrite jm_get_set, Hn.
Qed.

(** * Concrete runs *)

Definition unattendedb (s : Activation) (w : string) : bool :=
  forallb (λ '(_, st), negb (bool_decide (w ∈ works st))) (processes s).

Definition cleanb (st : Stage) (r : Reply) : bool :=
  match r, st with CloseReported, _ => false | CloseFailed, Closing _ _ KFail => false | _, _ => true end.

Definition quietb (s : Activation) (e : ActivationEvent) : bool :=
  match e with
  | CallAdd w ns _ => bool_decide (NoDup ns) && unattendedb s w
  | CallRemove w => unattendedb s w
  | CallRemoveAll => forallb (λ '(_, st), bool_decide (works st = [])) (processes s)
  | Replies p r => match jm_get (processes s) p with Some st => cleanb st r | None => true end
  end.

Lemma unattendedb_sound s w : unattendedb s w = true → unattended s w.
Proof.
  intros H p st Hg. unfold unattendedb in H. rewrite forallb_forall in H. specialize (H (p, st) (proj1 (list_elem_of_In _ _) (jm_get_Some_elem _ _ _ Hg))). cbn in H.
  by apply negb_true_iff, bool_decide_eq_false in H.
Qed.

Lemma quietb_sound s e : quietb s e = true → quiet s e.
Proof.
  destruct e as [w ns ps|w| |p r]; cbn [quietb quiet].
  - intros [H1%bool_decide_eq_true H2]%andb_true_iff. split; [done|by apply unattendedb_sound].
  - by apply unattendedb_sound.
  - rewrite forallb_forall. intros H w p st Hg. specialize (H _ (proj1 (list_elem_of_In _ _) (jm_get_Some_elem _ _ _ Hg))). cbn in H.
    apply bool_decide_eq_true in H. rewrite H. apply not_elem_of_nil.
  - intros H st Hg. rewrite Hg in H. destruct r; try done. intros w rest ->. done.
Qed.

Fixpoint quiet_run (s : Activation) (es : list ActivationEvent) : option Activation :=
  match es with
  | [] => Some s
  | e :: es => if quietb s e then s ← activation_next s e; quiet_run s es else None
  end.

Lemma quiet_run_sound s es s' : quietly s → quiet_run s es = Some s' → quietly s'.
Proof.
  revert s. induction es as [|e es IH]; intros s Hq; cbn [quiet_run]; [by intros [= <-]|].
  destruct (quietb s e) eqn:Hb; [|done]. destruct (activation_next s e) as [s1|] eqn:Hn; [|done]. cbn.
  apply IH. eapply quietly_step; [done|by apply quietb_sound|done].
Qed.

(** A workflow with two triggers and one poll node starts one trigger. *)
Definition sample_poll : PollNode := mkPoll "p" [("0 * * * *", false); ("* * * * * *", true)]%string.
Definition sample_started : list ActivationEvent :=
  [CallAdd "w" ["a"; "b"] [sample_poll]; Replies 0 (TriggerRegisters "0 0 * * *"); Replies 0 (TriggerStarted (Some true))]%string.
Definition sample_polling : list ActivationEvent := sample_started ++ [Replies 0 (TriggerStarted (Some true))].
Definition sample_failed : list ActivationEvent := sample_started ++ [Replies 0 TriggerFailed; Replies 0 Closed].
Definition sample_state (es : list ActivationEvent) : Activation := default no_activation (quiet_run no_activation es).

Lemma sample_quietly es : is_Some (quiet_run no_activation es) → quietly (sample_state es).
Proof.
  intros [s Hs]. unfold sample_state. rewrite Hs. eapply quiet_run_sound; [constructor|done].
Qed.

Lemma inactive_nothing_runs_witness :
  match jm_get (activeTriggersByWorkflowId (core (sample_state sample_failed))) "w"%string with
  | Some triggers => isActive (core (sample_state sample_failed)) "w" = true ∧
      ∀ h, jm_get (running (core (sample_state sample_failed))) h = Some "w"%string → h ∈ handles triggers
  | None => isActive (core (sample_state sample_failed)) "w" = false ∧ crons (core (sample_state sample_failed)) "w" = [] ∧
      ∀ h, jm_get (running (core (sample_state sample_failed))) h ≠ Some "w"%string
  end.
Proof.
  apply (inactive_nothing_runs (sample_state sample_failed) "w").
  - apply sample_quietly. vm_compute. eauto.
  - apply unattendedb_sound. vm_compute. reflexivity.
Defined.

(** The interval of the second cron is too short: the first is removed, both triggers are
    closed. *)
Lemma failed_activation_cleans_up_witness :
  ∃ s', activation_run (sample_state sample_polling) [Replies 0 PollSucceeded; Replies 0 Closed; Replies 0 Closed] = Some s' ∧
    jm_get (processes s') 0 = Some (Done AddFailed) ∧ nothing_left (core s') "w".
Proof.
  apply (failed_activation_cleans_up (sample_state sample_polling) 0
    (Testing "w" sample_poll [] [("a", Some 0); ("b", Some 1)]) PollSucceeded "w" [("a", Some 0); ("b", Some 1)])%string.
  - apply sample_quietly. vm_compute. eauto.
  - vm_compute. reflexivity.
  - apply fails_interval. vm_compute. reflexivity.
Defined.

(** Two calls of [add] overlap: one trigger runs on after the workflow was removed. *)
Example overlapping_adds_leak :
  (λ s, (isActive (core s) "w", running (core s))) <$> activation_run no_activation
    [CallAdd "w" ["a"] []; CallAdd "w" ["a"] []; Replies 0 (TriggerStarted (Some true)); Replies 1 (TriggerStarted (Some true));
     CallRemove "w"; Replies 2 Closed]%string
  = Some (false, [(0, "w"%string)]).
Proof. reflexivity. Qed.

(** Every workflow is removed while one is being added: it is active afterwards. *)
Example sweep_misses_activation :
  (λ s, (jm_get (processes s) 1, isActive (core s) "w", running (core s))) <$> activation_run no_activation
    [CallAdd "w" ["a"] []; CallRemoveAll; Replies 0 (TriggerStarted (Some true))]%string
  = Some (Some (Done AllRemoved), true, [(0, "w"%string)]).
Proof. reflexivity. Qed.

(** One close function fails: the workflows after it stay active. *)
Example failing_close_stops_sweep :
  (λ s, (jm_get (processes s) 2, isActive (core s) "v", running (core s))) <$> activation_run no_activation
    [CallAdd "w" ["a"] []; Replies 0 (TriggerStarted (Some true)); CallAdd "v" ["a"] []; Replies 1 (TriggerStarted (Some true));
     CallRemoveAll; Replies 2 CloseFailed]%string
  = Some (Some (Done RemoveFailed), true, [(0, "w"%string); (1, "v"%string)]).
Proof. reflexivity. Qed.

(** A [TriggerCloseError] is only reported: the trigger may run on, and the workflow is
    not active. *)
Example reported_close_leaves_trigger :
  (λ s, (jm_get (processes s) 1, isActive (core s) "w", running (core s))) <$> activation_run no_activation
    [CallAdd "w" ["a"] []; Replies 0 (TriggerStarted (Some true)); CallRemove "w"; Replies 1 CloseReported]%string
  = Some (Some (Done (Removed true)), false, [(0, "w"%string)]).
Proof. reflexivity. Qed.
