(* ===== verification/WorkflowActivation.v ===== *)
(** WorkflowActivation: which workflows are active in the memory of a main process.

    packages/cli/src/active-workflow-manager.ts: the activation of every active workflow at
    the start and when the process becomes the leader, the queue of activations that
    failed and are tried again, and the calls that deactivate.  A call that waits is a
    process; what it waits for (a query, the triggers of a workflow) ends as an event, in
    any order.  The triggers of one workflow are [TriggerActivation]'s: here a workflow is
    in memory or not, with the version whose triggers run.  Webhooks are not part of the
    state, and the calls that remove a workflow are one event each: their awaits on webhooks
    and triggers are not split. *)

From Stdlib Require Import ZArith Lia.
From stdpp Require Import prelude list strings.
From S2P Require Import Prelude.

Inductive WorkflowActivateMode := Mode_init | Mode_create | Mode_update | Mode_activate | Mode_manual | Mode_leadershipChange.

(** A workflow as it was read: its id, the version that is active, and whether that version
    has trigger or poll nodes. *)
Record WorkflowEntity := mkEntity {
  entity_id : string;
  isArchived : bool;
  activeVersion : option nat;
  has_triggers : bool;
}.

Definition WORKFLOW_REACTIVATE_INITIAL_TIMEOUT : Z := 1000.
Definition WORKFLOW_REACTIVATE_MAX_TIMEOUT : Z := 86400000.

Record QueuedActivation := mkQueued {
  activationMode : WorkflowActivateMode;
  lastTimeout : Z;
  timeout : nat;
  workflowData : WorkflowEntity;
}.

(** Who called [add]: the retry of a queued activation, [activateWorkflow], the handler of
    the command of another main process, or the code that activates a workflow here. *)
Inductive Origin := FromRetry | FromStartup | FromCommand | FromCaller.

#[export] Instance origin_eq_dec : EqDecision Origin.
Proof. solve_decision. Defined.

(** [Adding]: the triggers start, if the process was the leader when [add] looked.
    [Finishing]: the queued activation was removed, the last queries run. *)
Inductive AddStage :=
| Finding
| Adding (entity : WorkflowEntity) (shouldAddNonWebhookTriggers : bool)
| Finishing (entity : WorkflowEntity).

Record AddProcess := mkAdd {
  add_workflow : string;
  add_mode : WorkflowActivateMode;
  add_origin : Origin;
  add_stage : AddStage;
}.

(** [addActiveWorkflows]: it waits for the ids of the active workflows, or for the
    processes of a batch. *)
Inductive Startup :=
| Listing (mode : WorkflowActivateMode)
| Batch (mode : WorkflowActivateMode) (awaited : list nat) (batches : list (list string)).

(** [timers]: what a pending timeout runs.  [inMemory]: the version of each workflow whose
    triggers are active.  [crashed]: the workflows whose retry threw. *)
Record Manager := mkManager {
  isLeader : bool;
  isMultiMain : bool;
  queuedActivations : jmap string QueuedActivation;
  timers : jmap nat (WorkflowActivateMode * WorkflowEntity);
  processes : jmap nat AddProcess;
  isActivationInProgress : option Startup;
  inMemory : jmap string nat;
  crashed : list string;
  nextId : nat;
}.

Definition with_queue (s : Manager) q t : Manager :=
  mkManager (isLeader s) (isMultiMain s) q t (processes s) (isActivationInProgress s) (inMemory s) (crashed s) (nextId s).
Definition with_processes (s : Manager) p : Manager :=
  mkManager (isLeader s) (isMultiMain s) (queuedActivations s) (timers s) p (isActivationInProgress s) (inMemory s) (crashed s)
    (nextId s).
Definition with_startup (s : Manager) a : Manager :=
  mkManager (isLeader s) (isMultiMain s) (queuedActivations s) (timers s) (processes s) a (inMemory s) (crashed s) (nextId s).
Definition with_memory (s : Manager) m : Manager :=
  mkManager (isLeader s) (isMultiMain s) (queuedActivations s) (timers s) (processes s) (isActivationInProgress s) m (crashed s)
    (nextId s).
Definition with_leader (s : Manager) b : Manager :=
  mkManager b (isMultiMain s) (queuedActivations s) (timers s) (processes s) (isActivationInProgress s) (inMemory s) (crashed s)
    (nextId s).
Definition with_crash (s : Manager) w : Manager :=
  mkManager (isLeader s) (isMultiMain s) (queuedActivations s) (timers s) (processes s) (isActivationInProgress s) (inMemory s)
    (w :: crashed s) (nextId s).
Definition take_id (s : Manager) : Manager :=
  mkManager (isLeader s) (isMultiMain s) (queuedActivations s) (timers s) (processes s) (isActivationInProgress s) (inMemory s)
    (crashed s) (S (nextId s)).

(** * The queue *)

Definition removeQueuedWorkflowActivation (s : Manager) (workflowId : string) : Manager :=
  match jm_get (queuedActivations s) workflowId with
  | None => s
  | Some q => with_queue s (jm_del (queuedActivations s) workflowId) (jm_del (timers s) (timeout q))
  end.

Definition removeAllQueuedWorkflowActivations (s : Manager) : Manager :=
  foldl removeQueuedWorkflowActivation s (jm_keys (queuedActivations s)).

(** [setTimeout(retryFunction, ...)] and the entry of the queue. *)
Definition set_queued (s : Manager) (workflowId : string) (last : Z) mode entity mode' entity' : Manager :=
  take_id (with_queue s (jm_set (queuedActivations s) workflowId (mkQueued mode last (nextId s) entity))
    (jm_set (timers s) (nextId s) (mode', entity'))).

Definition addQueuedWorkflowActivation (s : Manager) (mode : WorkflowActivateMode) (entity : WorkflowEntity) : Manager :=
  set_queued (removeQueuedWorkflowActivation s (entity_id entity)) (entity_id entity) WORKFLOW_REACTIVATE_INITIAL_TIMEOUT
    mode entity mode entity.

Record Failure := mkFailure { isolate_error : bool; authorization_error : bool }.

Definition next_timeout (f : Failure) (last : Z) : Z :=
  if negb (isolate_error f) && (last <? WORKFLOW_REACTIVATE_MAX_TIMEOUT)%Z
  then Z.min (last * 2) WORKFLOW_REACTIVATE_MAX_TIMEOUT else last.

(** The [catch] of [retryFunction]: without an entry, reading [lastTimeout] throws. *)
Definition retry_failed (s : Manager) (mode : WorkflowActivateMode) (entity : WorkflowEntity) (f : Failure) : Manager :=
  match jm_get (queuedActivations s) (entity_id entity) with
  | None => with_crash s (entity_id entity)
  | Some q =>
      set_queued s (entity_id entity) (next_timeout f (lastTimeout q)) (activationMode q) (workflowData q) mode entity
  end.

(** * [addActiveWorkflows] *)

Fixpoint start_adds (s : Manager) (mode : WorkflowActivateMode) (batch : list string) : Manager * list nat :=
  match batch with
  | [] => (s, [])
  | w :: batch =>
      let '(s', ids) := start_adds (take_id (with_processes s (jm_set (processes s) (nextId s) (mkAdd w mode FromStartup Finding)))) mode batch in
      (s', nextId s :: ids)
  end.

Definition next_batch (s : Manager) (mode : WorkflowActivateMode) (batches : list (list string)) : Manager :=
  match batches with
  | [] => with_startup s None
  | batch :: batches => let '(s, ids) := start_adds s mode batch in with_startup s (Some (Batch mode ids batches))
  end.

(** A process of a batch is done. *)
Definition settle (s : Manager) (p : nat) : Manager :=
  match isActivationInProgress s with
  | Some (Batch mode awaited batches) =>
      match filter (λ p', p' ≠ p) awaited with
      | [] => if bool_decide (p ∈ awaited) then next_batch s mode batches else s
      | awaited => with_startup s (Some (Batch mode awaited batches))
      end
  | _ => s
  end.

(** * [add] *)

Definition starting_mode (mode : WorkflowActivateMode) : bool :=
  match mode with Mode_init | Mode_leadershipChange => true | _ => false end.

(** [add] on a workflow that was read, up to its first await. *)
Inductive AddStart := Returns | Throws | Waits (st : AddStage).

Definition begin_add (s : Manager) (mode : WorkflowActivateMode) (entity : WorkflowEntity) : AddStart :=
  if isArchived entity then Returns
  else match activeVersion entity with
       | None => if starting_mode mode then Returns else Throws
       | Some _ => Waits (Adding entity (isLeader s))
       end.

Definition finish (s : Manager) (p : nat) : Manager := settle (with_processes s (jm_del (processes s) p)) p.

(** [add] throws; what its caller does. *)
Definition add_throws (s : Manager) (p : nat) (a : AddProcess) (entity : WorkflowEntity) (f : Failure) : Manager :=
  match add_origin a with
  | FromRetry => retry_failed (with_processes s (jm_del (processes s) p)) (add_mode a) entity f
  | FromStartup => finish (if authorization_error f then s else addQueuedWorkflowActivation s Mode_init entity) p
  | FromCommand => finish (if isolate_error f then addQueuedWorkflowActivation s (add_mode a) entity else s) p
  | FromCaller => finish s p
  end.

Definition no_failure : Failure := mkFailure false false.

(** The workflow is known. *)
Definition resume_add (s : Manager) (p : nat) (a : AddProcess) (entity : WorkflowEntity) : Manager :=
  match begin_add s (add_mode a) entity with
  | Returns => finish s p
  | Throws => add_throws s p a entity no_failure
  | Waits st => with_processes s (jm_set (processes s) p (mkAdd (add_workflow a) (add_mode a) (add_origin a) st))
  end.

(** * Events *)

Inductive ManagerEvent :=
| Call_addActiveWorkflows (mode : WorkflowActivateMode)
| Listed (batches : list (list string))
| ListFails
| Call_add (o : Origin) (w : string) (mode : WorkflowActivateMode)
| Found (p : nat) (entity : option WorkflowEntity)
| FindFails (p : nat)
| Added (p : nat)
| AddFails (p : nat) (cleared : bool) (f : Failure)
| Finished (p : nat)
| FinishFails (p : nat) (f : Failure)
| TimerFires (timer : nat)
| EmitError (mode : WorkflowActivateMode) (entity : WorkflowEntity)
| Call_remove (w : string)
| HandleRemove (w : string)
| LeaderTakeover
| LeaderStepdown.

Definition call_addActiveWorkflows (s : Manager) (mode : WorkflowActivateMode) : Manager :=
  match isActivationInProgress s with None => with_startup s (Some (Listing mode)) | Some _ => s end.

(** The triggers of the workflow are active, and nothing is left in the queue. *)
Definition added (s : Manager) (entity : WorkflowEntity) (should : bool) : Manager :=
  let s := match activeVersion entity with
           | Some v => if should && has_triggers entity then with_memory s (jm_set (inMemory s) (entity_id entity) v) else s
           | None => s
           end in
  removeQueuedWorkflowActivation s (entity_id entity).

Definition forget_workflow (s : Manager) (w : string) : Manager := with_memory s (jm_del (inMemory s) w).

Definition remove (s : Manager) (w : string) : Manager :=
  if isMultiMain s then s else forget_workflow (removeQueuedWorkflowActivation s w) w.

Definition handleRemoveNonWebhookTriggers (s : Manager) (w : string) : Manager := forget_workflow s w.

Definition addAllNonWebhookTriggerWorkflows (s : Manager) : Manager := call_addActiveWorkflows s Mode_leadershipChange.

Definition removeAllNonWebhookTriggerWorkflows (s : Manager) : Manager := with_memory (removeAllQueuedWorkflowActivations s) [].

Definition emitError (s : Manager) (mode : WorkflowActivateMode) (entity : WorkflowEntity) : Manager :=
  addQueuedWorkflowActivation (forget_workflow s (entity_id entity)) mode entity.

(** The timeout of a queued activation. *)
Definition retryFunction (s : Manager) (timer : nat) (mode : WorkflowActivateMode) (entity : WorkflowEntity) : Manager :=
  resume_add (take_id (with_queue s (queuedActivations s) (jm_del (timers s) timer))) (nextId s)
    (mkAdd (entity_id entity) mode FromRetry Finding) entity.

(** Not the retry: it has its workflow. *)
Definition caller_origin (o : Origin) : bool := match o with FromCommand | FromCaller => true | _ => false end.

(** [None]: nothing waits for this. *)
Definition manager_next (s : Manager) (e : ManagerEvent) : option Manager :=
  match e with
  | Call_addActiveWorkflows mode => Some (call_addActiveWorkflows s mode)
  | Listed batches =>
      match isActivationInProgress s with Some (Listing mode) => Some (next_batch s mode batches) | _ => None end
  | ListFails => match isActivationInProgress s with Some (Listing _) => Some (with_startup s None) | _ => None end
  | Call_add o w mode =>
      if caller_origin o then Some (take_id (with_processes s (jm_set (processes s) (nextId s) (mkAdd w mode o Finding)))) else None
  | Found p entity =>
      a ← jm_get (processes s) p;
      match add_stage a, entity with
      | Finding, Some entity => if bool_decide (entity_id entity = add_workflow a) then Some (resume_add s p a entity) else None
      | Finding, None => Some (finish s p)
      | _, _ => None
      end
  | FindFails p =>
      a ← jm_get (processes s) p;
      match add_stage a with
      | Finding =>
          let s := with_processes s (jm_del (processes s) p) in
          Some (match isActivationInProgress s with
                | Some (Batch _ awaited _) => if bool_decide (p ∈ awaited) then with_startup s None else s
                | _ => s
                end)
      | _ => None
      end
  | Added p =>
      a ← jm_get (processes s) p;
      match add_stage a with
      | Adding entity should =>
          let s := added s entity should in
          Some (with_processes s (jm_set (processes s) p (mkAdd (add_workflow a) (add_mode a) (add_origin a) (Finishing entity))))
      | _ => None
      end
  | AddFails p cleared f =>
      a ← jm_get (processes s) p;
      match add_stage a with
      | Adding entity should => Some (add_throws (if should && cleared then forget_workflow s (entity_id entity) else s) p a entity f)
      | _ => None
      end
  | Finished p => a ← jm_get (processes s) p; match add_stage a with Finishing _ => Some (finish s p) | _ => None end
  | FinishFails p f => a ← jm_get (processes s) p; match add_stage a with Finishing entity => Some (add_throws s p a entity f) | _ => None end
  | TimerFires timer => '(mode, entity) ← jm_get (timers s) timer; Some (retryFunction s timer mode entity)
  | EmitError mode entity => Some (emitError s mode entity)
  | Call_remove w => Some (remove s w)
  | HandleRemove w => Some (handleRemoveNonWebhookTriggers s w)
  | LeaderTakeover => Some (addAllNonWebhookTriggerWorkflows (with_leader s true))
  | LeaderStepdown => Some (removeAllNonWebhookTriggerWorkflows (with_leader s false))
  end.

Definition new_manager (leader multi : bool) : Manager := mkManager leader multi [] [] [] None [] [] 0.

Fixpoint manager_run (s : Manager) (es : list ManagerEvent) : option Manager :=
  match es with
  | [] => Some s
  | e :: es => s ← manager_next s e; manager_run s es
  end.

(** * The queue is in order *)

(** The retry that is under way as a process. *)
Definition retry_at (s : Manager) (p : nat) : option AddProcess :=
  a ← jm_get (processes s) p; if bool_decide (add_origin a = FromRetry) then Some a else None.

Definition retrying (s : Manager) (w : string) : Prop := ∃ p a, retry_at s p = Some a ∧ add_workflow a = w.

(** The retry of such an entry ends at once, and the entry stays. *)
Definition stale (mode : WorkflowActivateMode) (entity : WorkflowEntity) : Prop :=
  isArchived entity = true ∨ (activeVersion entity = None ∧ starting_mode mode = true).

Definition process_ok (a : AddProcess) : Prop :=
  match add_stage a with
  | Finding => add_origin a ≠ FromRetry
  | Adding entity _ | Finishing entity => entity_id entity = add_workflow a
  end.

Record table_ok (s : Manager) : Prop := {
  table_fresh p a : jm_get (processes s) p = Some a → p < nextId s;
  table_process p a : jm_get (processes s) p = Some a → process_ok a;
}.

(** The queue [q], the timeouts [t] and the retries [r]. *)
Record queue_ok (q : jmap string QueuedActivation) (t : jmap nat (WorkflowActivateMode * WorkflowEntity))
    (r : nat → option AddProcess) (n : nat) : Prop := {
  ok_fresh_timer i x : jm_get t i = Some x → i < n;
  ok_fresh_entry w e : jm_get q w = Some e → timeout e < n;
  ok_different w w' e e' : jm_get q w = Some e → jm_get q w' = Some e' → timeout e = timeout e' → w = w';
  ok_timer i mode entity : jm_get t i = Some (mode, entity) →
    ∃ e, jm_get q (entity_id entity) = Some e ∧ timeout e = i ∧ activationMode e = mode ∧ workflowData e = entity;
  ok_apart p a i mode entity : r p = Some a → jm_get t i = Some (mode, entity) → entity_id entity ≠ add_workflow a;
  ok_one p p' a a' : r p = Some a → r p' = Some a' → add_workflow a = add_workflow a' → p = p';
  ok_retry p a e : r p = Some a → jm_get q (add_workflow a) = Some e →
    activationMode e = add_mode a ∧ ∃ b, add_stage a = Adding (workflowData e) b;
  ok_entry w e : jm_get q w = Some e → entity_id (workflowData e) = w ∧
    (jm_get t (timeout e) = Some (activationMode e, workflowData e) ∨ (∃ p a, r p = Some a ∧ add_workflow a = w) ∨
     stale (activationMode e) (workflowData e));
}.

Definition manager_ok (s : Manager) : Prop :=
  table_ok s ∧ queue_ok (queuedActivations s) (timers s) (retry_at s) (nextId s).

Lemma queue_ok_same q t r r' n n' : (∀ p, r' p = r p) → n ≤ n' → queue_ok q t r n → queue_ok q t r' n'.
Proof.
  intros Hr Hn [H1 H2 H3 H4 H5 H6 H7 H8]. constructor; try done.
  - intros i x Hx%H1. lia.
  - intros w e He%H2. lia.
  - intros p a i m d. rewrite Hr. apply H5.
  - intros p p' a a'. rewrite !Hr. apply H6.
  - intros p a e. rewrite Hr. apply H7.
  - intros w e He. destruct (H8 w e He) as [Hw Hd]. split; [done|].
    destruct Hd as [Hd|[(p & a & Hp & Ha)|Hd]]; [by left|right; left|by right; right]. exists p, a. by rewrite Hr.
Qed.

(** A timeout of the entry of [w] runs the retry of [w]. *)
Lemma ok_timer_of q t r n w e mode entity :
  queue_ok q t r n → jm_get q w = Some e → jm_get t (timeout e) = Some (mode, entity) → entity_id entity = w.
Proof.
  intros Hok He Ht. destruct (ok_timer _ _ _ _ Hok _ _ _ Ht) as (e' & He' & Ht' & _).
  by eapply (ok_different _ _ _ _ Hok).
Qed.

Lemma queue_ok_remove q t r n w e :
  queue_ok q t r n → jm_get q w = Some e → queue_ok (jm_del q w) (jm_del t (timeout e)) r n.
Proof.
  intros Hok He. pose proof Hok as [H1 H2 H3 H4 H5 H6 H7 H8].
  assert (Hdel : ∀ w' e', jm_get (jm_del q w) w' = Some e' → w' ≠ w ∧ jm_get q w' = Some e').
  { intros w' e'. destruct (decide (w = w')) as [<-|Hne]; [by rewrite jm_get_del|]. rewrite jm_get_del_ne by done. auto. }
  assert (Htdel : ∀ i x, jm_get (jm_del t (timeout e)) i = Some x → i ≠ timeout e ∧ jm_get t i = Some x).
  { intros i x. destruct (decide (timeout e = i)) as [<-|Hne]; [by rewrite jm_get_del|]. rewrite jm_get_del_ne by done. auto. }
  constructor.
  - intros i x [_ Hx]%Htdel. by apply (H1 i x).
  - intros w' e' [_ He']%Hdel. by apply (H2 w').
  - intros w1 w2 e1 e2 [_ Hw1]%Hdel [_ Hw2]%Hdel. by apply H3.
  - intros i m d [Hi Hx]%Htdel. destruct (H4 i m d Hx) as (e' & He' & Ht' & Hrest). exists e'. split; [|done].
    rewrite jm_get_del_ne; [done|]. intros Heq. apply Hi. rewrite <- Heq, He in He'. by injection He' as <-.
  - intros p a i m d Hp [_ Hx]%Htdel. by eapply H5.
  - done.
  - intros p a e' Hp [_ He']%Hdel. by eapply H7.
  - intros w' e' [Hne He']%Hdel. destruct (H8 w' e' He') as [Hw Hd]. split; [done|].
    destruct Hd as [Hd|Hd]; [left|by right]. rewrite jm_get_del_ne; [done|]. intros Heq. apply Hne. by apply (H3 w' w e' e).
Qed.

(** A new timeout for a workflow that has none and that is not tried now. *)
Lemma queue_ok_set q t r n last mode entity :
  queue_ok q t r n → (∀ i m d, jm_get t i = Some (m, d) → entity_id d ≠ entity_id entity) →
  (∀ p a, r p = Some a → add_workflow a ≠ entity_id entity) →
  queue_ok (jm_set q (entity_id entity) (mkQueued mode last n entity)) (jm_set t n (mode, entity)) r (S n).
Proof.
  intros Hok Hnt Hnr. pose proof Hok as [H1 H2 H3 H4 H5 H6 H7 H8]. set (w := entity_id entity).
  assert (Hset : ∀ w' e', jm_get (jm_set q w (mkQueued mode last n entity)) w' = Some e' →
    (w' = w ∧ e' = mkQueued mode last n entity) ∨ (w' ≠ w ∧ jm_get q w' = Some e')).
  { intros w' e'. destruct (decide (w = w')) as [<-|Hne]; [rewrite jm_get_set; intros [= <-]; by left|].
    rewrite jm_get_set_ne by done. auto. }
  assert (Htset : ∀ i x, jm_get (jm_set t n (mode, entity)) i = Some x → (i = n ∧ x = (mode, entity)) ∨ (i ≠ n ∧ jm_get t i = Some x)).
  { intros i x. destruct (decide (n = i)) as [<-|Hne]; [rewrite jm_get_set; intros [= <-]; by left|].
    rewrite jm_get_set_ne by done. auto. }
  constructor.
  - intros i x [[-> _]|[_ Hx%H1]]%Htset; lia.
  - intros w' e' [[_ ->]|[_ He'%H2]]%Hset; cbn; lia.
  - intros w1 w2 e1 e2 [[-> ->]|[_ Hw1]]%Hset [[-> ->]|[_ Hw2]]%Hset; cbn; [done| | |by apply H3].
    + intros Heq. apply H2 in Hw2. lia.
    + intros Heq. apply H2 in Hw1. lia.
  - intros i m d [[-> [= -> ->]]|[Hi Hx]]%Htset; [eexists; by rewrite jm_get_set|].
    destruct (H4 i m d Hx) as (e' & He' & Hrest). exists e'. rewrite jm_get_set_ne; [done|]. intros Heq. by apply (Hnt i m d).
  - intros p a i m d Hp [[-> [= -> ->]]|[_ Hx]]%Htset; [intros Heq; by apply (Hnr p a)|by eapply H5].
  - done.
  - intros p a e' Hp [[Hw _]|[_ He']]%Hset; [by destruct (Hnr p a Hp)|by eapply H7].
  - intros w' e' [[-> ->]|[Hne He']]%Hset; [split; [done|left; by rewrite jm_get_set]|].
    destruct (H8 w' e' He') as [Hw Hd]. split; [done|]. destruct Hd as [Hd|Hd]; [left|by right].
    rewrite jm_get_set_ne; [done|]. apply H2 in He'. lia.
Qed.

(** A retry ends whose entry is gone. *)
Lemma queue_ok_end q t r r' n p a :
  queue_ok q t r n → r p = Some a → (∀ p', r' p' = if decide (p' = p) then None else r p') →
  (∀ e, jm_get q (add_workflow a) = Some e → stale (activationMode e) (workflowData e)) → queue_ok q t r' n.
Proof.
  intros [H1 H2 H3 H4 H5 H6 H7 H8] Hp Hr Hq.
  assert (Hold : ∀ p' a', r' p' = Some a' → p' ≠ p ∧ r p' = Some a').
  { intros p' a'. rewrite Hr. by destruct (decide (p' = p)). }
  constructor; try done.
  - intros p' a' i m d [_ Hp']%Hold. by apply (H5 p').
  - intros p1 p2 a1 a2 [_ Hp1]%Hold [_ Hp2]%Hold. by apply H6.
  - intros p' a' e [_ Hp']%Hold. by apply (H7 p').
  - intros w e He. destruct (H8 w e He) as [Hw Hd]. split; [done|].
    destruct Hd as [Hd|[(p' & a' & Hp' & Ha')|Hd]]; [by left| |by right; right].
    destruct (decide (p' = p)) as [->|Hne].
    + right; right. apply Hq. rewrite Hp in Hp'. injection Hp' as <-. by rewrite Ha'.
    + right; left. exists p', a'. rewrite Hr. by rewrite decide_False.
Qed.

Lemma queue_ok_ext q q' t t' r n :
  (∀ w, jm_get q' w = jm_get q w) → (∀ i, jm_get t' i = jm_get t i) → queue_ok q t r n → queue_ok q' t' r n.
Proof.
  intros Hq Ht [H1 H2 H3 H4 H5 H6 H7 H8]. constructor.
  - intros i x. rewrite Ht. apply H1.
  - intros w e. rewrite Hq. apply H2.
  - intros w w' e e'. rewrite !Hq. apply H3.
  - intros i m d. rewrite Ht. intros (e & He)%H4. exists e. by rewrite Hq.
  - intros p a i m d. rewrite Ht. apply H5.
  - done.
  - intros p a e. rewrite Hq. apply H7.
  - intros w e. rewrite Hq, Ht. apply H8.
Qed.

(** A retry fails: the entry gets a new timeout. *)
Lemma queue_ok_retried q t r r' n p a e last :
  queue_ok q t r n → r p = Some a → (∀ p', r' p' = if decide (p' = p) then None else r p') →
  jm_get q (add_workflow a) = Some e →
  queue_ok (jm_set q (entity_id (workflowData e)) (mkQueued (add_mode a) last n (workflowData e)))
    (jm_set t n (add_mode a, workflowData e)) r' (S n).
Proof.
  intros Hok Hp Hr He. destruct (ok_entry _ _ _ _ Hok _ _ He) as [Hd _]. pose proof (queue_ok_remove _ _ _ _ _ _ Hok He) as Hok1.
  assert (Hok2 : queue_ok (jm_del q (add_workflow a)) (jm_del t (timeout e)) r' n).
  { eapply queue_ok_end; [exact Hok1|done|done|]. intros e'. by rewrite jm_get_del. }
  assert (Hnt : ∀ i m d, jm_get t i = Some (m, d) → entity_id d ≠ entity_id (workflowData e)).
  { intros i m d Ht. rewrite Hd. by apply (ok_apart _ _ _ _ Hok p a i m). }
  assert (Hdel : ∀ i, jm_get (jm_del t (timeout e)) i = jm_get t i).
  { intros i. destruct (decide (timeout e = i)) as [<-|Hne]; [|by rewrite jm_get_del_ne]. rewrite jm_get_del.
    destruct (jm_get t (timeout e)) as [[m d]|] eqn:Ht; [|done].
    destruct (Hnt _ _ _ Ht). rewrite Hd. exact (ok_timer_of _ _ _ _ _ _ _ _ Hok He Ht). }
  eapply queue_ok_ext; [| |eapply (queue_ok_set _ _ r' n last (add_mode a) (workflowData e) Hok2)].
  - intros w. rewrite Hd. destruct (decide (add_workflow a = w)) as [<-|Hne]; [by rewrite !jm_get_set|].
    rewrite !(jm_get_set_ne _ _ w), jm_get_del_ne by done. done.
  - intros i. destruct (decide (n = i)) as [<-|Hne]; [by rewrite !jm_get_set|]. rewrite !(jm_get_set_ne _ _ i), Hdel by done. done.
  - intros i m d. rewrite Hdel. apply Hnt.
  - intros p' a'. rewrite Hr. destruct (decide (p' = p)) as [->|Hne]; [done|]. intros Hp' Heq. apply Hne.
    apply (ok_one _ _ _ _ Hok p' p a' a); [done..|]. by rewrite Heq.
Qed.

(** ** The operations keep the order *)

Lemma manager_ok_same s s' :
  processes s' = processes s → queuedActivations s' = queuedActivations s → timers s' = timers s → nextId s ≤ nextId s' →
  manager_ok s → manager_ok s'.
Proof.
  intros Hp Hq Ht Hn [[T1 T2] Q]. split.
  - constructor; intros p a; rewrite Hp; [intros H%T1; lia|apply T2].
  - rewrite Hq, Ht. eapply queue_ok_same; [|done|done]. intros p. unfold retry_at. by rewrite Hp.
Qed.

Lemma retry_at_del s p p' : retry_at (with_processes s (jm_del (processes s) p)) p' = if decide (p' = p) then None else retry_at s p'.
Proof.
  unfold retry_at, with_processes. cbn [processes]. destruct (decide (p' = p)) as [->|Hne]; [by rewrite jm_get_del|].
  rewrite jm_get_del_ne; [done|]. by intros ->.
Qed.

Lemma retry_at_process s p a : retry_at s p = Some a ↔ jm_get (processes s) p = Some a ∧ add_origin a = FromRetry.
Proof.
  unfold retry_at. destruct (jm_get (processes s) p) as [a'|]; cbn; [|naive_solver].
  case_bool_decide; [naive_solver|]. split; [done|]. intros [[= ->] ?]. done.
Qed.

(** A process of [add] comes to another stage, or is new. *)
Lemma set_process_ok s p a n :
  manager_ok s → process_ok a → p < n → nextId s ≤ n →
  match retry_at s p with
  | Some a' => add_origin a = FromRetry ∧ add_workflow a = add_workflow a' ∧ jm_get (queuedActivations s) (add_workflow a) = None
  | None => add_origin a ≠ FromRetry
  end →
  manager_ok (mkManager (isLeader s) (isMultiMain s) (queuedActivations s) (timers s) (jm_set (processes s) p a)
    (isActivationInProgress s) (inMemory s) (crashed s) n).
Proof.
  intros [[T1 T2] Q] Ha Hp Hn Hr. set (s' := mkManager _ _ _ _ _ _ _ _ _). split.
  { constructor; cbn; intros p' a'; (destruct (decide (p = p')) as [<-|Hne]; [rewrite jm_get_set; intros [= <-]; done|]);
      rewrite jm_get_set_ne by done; [intros H%T1; lia|apply T2]. }
  assert (Hother : ∀ p', p' ≠ p → retry_at s' p' = retry_at s p').
  { intros p' Hne. unfold retry_at, s'. cbn. by rewrite jm_get_set_ne. }
  assert (Hself : retry_at s' p = if bool_decide (add_origin a = FromRetry) then Some a else None).
  { unfold retry_at, s'. cbn. by rewrite jm_get_set. }
  destruct (retry_at s p) as [a0|] eqn:Hp0.
  - destruct Hr as (Ho & Hw & Hnone). rewrite bool_decide_eq_true_2 in Hself by done.
    apply (queue_ok_same _ _ _ _ _ n (λ p, eq_refl) Hn) in Q. destruct Q as [H1 H2 H3 H4 H5 H6 H7 H8].
    assert (Hold : ∀ p1 a1, retry_at s' p1 = Some a1 → ∃ a2, retry_at s p1 = Some a2 ∧ add_workflow a2 = add_workflow a1 ∧
      (p1 = p ∨ a2 = a1)).
    { intros p1 a1. destruct (decide (p1 = p)) as [->|Hne].
      - rewrite Hself. intros [= <-]. exists a0. split_and!; [done|done|by left].
      - rewrite Hother by done. intros H. exists a1. split_and!; [done|done|by right]. }
    constructor; try done.
    + intros p1 a1 i m d (a2 & Hp2 & Hw2 & _)%Hold Ht. rewrite <- Hw2. by eapply H5.
    + intros p1 p2 a1 a2 (a1' & Hp1 & Hw1 & _)%Hold (a2' & Hp2 & Hw2 & _)%Hold Heq. apply (H6 _ _ a1' a2'); [done..|congruence].
    + intros p1 a1 e Hp1 He. destruct (Hold p1 a1 Hp1) as (a2 & Hp2 & Hw2 & [->| ->]); [|by apply (H7 p1)].
      rewrite Hself in Hp1. injection Hp1 as <-. change (jm_get (queuedActivations s) (add_workflow a) = Some e) in He. by rewrite Hnone in He.
    + intros w e He. destruct (H8 w e He) as [Hwe Hd]. split; [done|].
      destruct Hd as [Hd|[(p' & a' & Hp' & Ha')|Hd]]; [by left|right; left|by right; right].
      destruct (decide (p' = p)) as [->|Hne]; [|exists p', a'; by rewrite Hother].
      exists p, a. split; [done|]. rewrite Hp0 in Hp'. injection Hp' as <-. by rewrite Hw.
  - rewrite bool_decide_eq_false_2 in Hself by done. eapply queue_ok_same; [|done|done].
    intros p'. destruct (decide (p' = p)) as [->|Hne]; [by rewrite Hself|by apply Hother].
Qed.

Lemma retry_fresh s : table_ok s → retry_at s (nextId s) = None.
Proof.
  intros [T1 _]. unfold retry_at. destruct (jm_get (processes s) (nextId s)) eqn:H; [|done]. apply T1 in H. lia.
Qed.

Lemma removeQueued_ok s w : manager_ok s → manager_ok (removeQueuedWorkflowActivation s w).
Proof.
  intros [T Q]. unfold removeQueuedWorkflowActivation. destruct (jm_get (queuedActivations s) w) as [e|] eqn:He; [|done].
  split; [by destruct T; constructor|]. by apply (queue_ok_remove _ _ _ _ _ _ Q).
Qed.

Lemma removeQueued_same s w :
  let s' := removeQueuedWorkflowActivation s w in
  processes s' = processes s ∧ nextId s' = nextId s ∧ isActivationInProgress s' = isActivationInProgress s ∧
  jm_get (queuedActivations s') w = None ∧ (∀ w', w' ≠ w → jm_get (queuedActivations s') w' = jm_get (queuedActivations s) w').
Proof.
  unfold removeQueuedWorkflowActivation. destruct (jm_get (queuedActivations s) w) as [e|] eqn:He; cbn; [|done].
  split_and!; [done..|by rewrite jm_get_del|]. intros w' Hne. by rewrite jm_get_del_ne.
Qed.

Lemma no_timer s w : manager_ok s → jm_get (queuedActivations s) w = None →
  ∀ i m d, jm_get (timers s) i = Some (m, d) → entity_id d ≠ w.
Proof. intros [_ Q] Hw i m d Ht <-. destruct (ok_timer _ _ _ _ Q _ _ _ Ht) as (e & He & _). by rewrite Hw in He. Qed.

Lemma set_queued_ok s last m d :
  manager_ok s → (∀ i m' d', jm_get (timers s) i = Some (m', d') → entity_id d' ≠ entity_id d) → ¬ retrying s (entity_id d) →
  manager_ok (set_queued s (entity_id d) last m d m d).
Proof.
  intros [T Q] Hnt Hnr. split.
  - destruct T as [T1 T2]. constructor; [|done]. intros p a H%T1. cbn. lia.
  - apply (queue_ok_set _ _ _ _ _ _ _ Q Hnt). intros p a Hp Hw. apply Hnr. by exists p, a.
Qed.

Lemma addQueued_ok s m d : manager_ok s → ¬ retrying s (entity_id d) → manager_ok (addQueuedWorkflowActivation s m d).
Proof.
  intros Hs Hr. destruct (removeQueued_same s (entity_id d)) as (Hp & Hn & _ & Hq & _).
  pose proof (removeQueued_ok s (entity_id d) Hs) as Hs1. apply set_queued_ok; [done|by apply no_timer|].
  intros (p & a & Ha & Hw). apply Hr. exists p, a. split; [|done]. unfold retry_at in *. by rewrite Hp in Ha.
Qed.

Lemma start_adds_ok s mode batch : manager_ok s → manager_ok (start_adds s mode batch).1.
Proof.
  revert s. induction batch as [|w batch IH]; intros s Hs; [done|]. cbn [start_adds].
  set (s1 := take_id _). assert (Hs1 : manager_ok s1).
  { apply (set_process_ok s (nextId s) _ (S (nextId s))); [done|done|lia|lia|]. rewrite retry_fresh by apply Hs. done. }
  specialize (IH s1 Hs1). by destruct (start_adds s1 mode batch).
Qed.

Lemma with_startup_ok s a : manager_ok s → manager_ok (with_startup s a).
Proof. by apply manager_ok_same. Qed.

Lemma with_memory_ok s m : manager_ok s → manager_ok (with_memory s m).
Proof. by apply manager_ok_same. Qed.

Lemma next_batch_ok s mode batches : manager_ok s → manager_ok (next_batch s mode batches).
Proof.
  intros Hs. destruct batches as [|b bs]; cbn [next_batch]; [by apply with_startup_ok|].
  pose proof (start_adds_ok s mode b Hs) as H. destruct (start_adds s mode b). by apply with_startup_ok.
Qed.

Lemma settle_ok s p : manager_ok s → manager_ok (settle s p).
Proof.
  intros Hs. unfold settle. destruct (isActivationInProgress s) as [[mode|mode l bs]|]; [done| |done].
  destruct (filter _ l); [|by apply with_startup_ok]. case_bool_decide; [by apply next_batch_ok|done].
Qed.

(** A process ends that is no retry, or whose entry is gone. *)
Lemma delete_process_ok s p :
  manager_ok s →
  (∀ a e, retry_at s p = Some a → jm_get (queuedActivations s) (add_workflow a) = Some e → stale (activationMode e) (workflowData e)) →
  manager_ok (with_processes s (jm_del (processes s) p)).
Proof.
  intros [[T1 T2] Q] He. split.
  - constructor; cbn; intros p' a'; (destruct (decide (p = p')) as [<-|Hne]; [by rewrite jm_get_del|]);
      rewrite jm_get_del_ne by done; [apply T1|apply T2].
  - destruct (retry_at s p) as [a|] eqn:Hp.
    + eapply (queue_ok_end _ _ (retry_at s)); [done|done|intros p'; apply retry_at_del|]. intros e. by apply He.
    + eapply queue_ok_same; [|done|done]. intros p'. rewrite retry_at_del. by destruct (decide (p' = p)) as [->|].
Qed.

Lemma finish_ok s p :
  manager_ok s →
  (∀ a e, retry_at s p = Some a → jm_get (queuedActivations s) (add_workflow a) = Some e → stale (activationMode e) (workflowData e)) →
  manager_ok (finish s p).
Proof. intros Hs He. by apply settle_ok, delete_process_ok. Qed.

Lemma finish_other_ok s p : manager_ok s → retry_at s p = None → manager_ok (finish s p).
Proof. intros Hs Hp. apply finish_ok; [done|]. intros a e. by rewrite Hp. Qed.

Lemma retry_failed_ok s p a d f :
  manager_ok s → retry_at s p = Some a → entity_id d = add_workflow a →
  (∀ e, jm_get (queuedActivations s) (add_workflow a) = Some e → workflowData e = d) →
  manager_ok (retry_failed (with_processes s (jm_del (processes s) p)) (add_mode a) d f).
Proof.
  intros Hs Hp Hd Hdata. unfold retry_failed. cbn [with_processes queuedActivations]. rewrite Hd.
  destruct (jm_get (queuedActivations s) (add_workflow a)) as [e|] eqn:He.
  - pose proof Hs as [[T1 T2] Q]. destruct (ok_retry _ _ _ _ Q p a e Hp He) as [Hm _]. pose proof (Hdata e eq_refl) as <-. rewrite Hm, <- Hd. split.
    + constructor; cbn; intros p' a'; (destruct (decide (p = p')) as [<-|Hne]; [by rewrite jm_get_del|]);
        rewrite jm_get_del_ne by done; [intros H%T1; lia|apply T2].
    + refine (queue_ok_retried _ _ (retry_at s) _ (nextId s) p a e _ Q Hp _ He). intros p'. apply (retry_at_del s).
  - apply (manager_ok_same (with_processes s (jm_del (processes s) p))); [done..|].
    apply delete_process_ok; [done|]. intros a' e. rewrite Hp. intros [= <-]. by rewrite He.
Qed.

(** The timeout of an entry runs its retry. *)
Lemma queue_ok_fire q t r r' n i m d a b :
  queue_ok q t r n → jm_get t i = Some (m, d) → r n = None → (∀ p', r' p' = if decide (p' = n) then Some a else r p') →
  add_workflow a = entity_id d → add_mode a = m → add_stage a = Adding d b → queue_ok q (jm_del t i) r' (S n).
Proof.
  intros Hok Ht Hn Hr Hw Hm Hst. pose proof Hok as [H1 H2 H3 H4 H5 H6 H7 H8].
  destruct (H4 i m d Ht) as (e & He & Hte & Hme & Hde).
  assert (Hdel : ∀ j x, jm_get (jm_del t i) j = Some x → j ≠ i ∧ jm_get t j = Some x).
  { intros j x. destruct (decide (i = j)) as [<-|Hne]; [by rewrite jm_get_del|]. rewrite jm_get_del_ne by done. auto. }
  assert (Hold : ∀ p' a', r' p' = Some a' → (p' = n ∧ a' = a) ∨ (p' ≠ n ∧ r p' = Some a')).
  { intros p' a'. rewrite Hr. destruct (decide (p' = n)) as [->|]; [intros [= <-]; by left|by right]. }
  constructor.
  - intros j x [_ Hx%H1]%Hdel. lia.
  - intros w e' He'%H2. lia.
  - done.
  - intros j m' d' [_ Hx]%Hdel. by apply H4.
  - intros p' a' j m' d' [[-> ->]|[_ Hp']]%Hold [Hj Hx]%Hdel; [|by eapply H5].
    rewrite Hw. intros Heq. destruct (H4 j m' d' Hx) as (e' & He' & Hte' & _). apply Hj. rewrite <- Hte, <- Hte'.
    rewrite Heq, He in He'. by injection He' as <-.
  - intros p1 p2 a1 a2 [[-> ->]|[_ Hp1]]%Hold [[-> ->]|[_ Hp2]]%Hold Heq; [done| | |by apply (H6 _ _ a1 a2)].
    + destruct (H5 p2 a2 i m d Hp2 Ht). by rewrite <- Heq.
    + destruct (H5 p1 a1 i m d Hp1 Ht). by rewrite Heq.
  - intros p' a' e' [[-> ->]|[_ Hp']]%Hold He'; [|by eapply H7]. rewrite Hw, He in He'. injection He' as <-.
    split; [congruence|]. exists b. by rewrite Hde.
  - intros w e' He'. destruct (H8 w e' He') as [Hwe Hd]. split; [done|].
    destruct Hd as [Hd|[(p' & a' & Hp' & Ha')|Hd]]; [|right; left|by right; right].
    + destruct (decide (timeout e' = i)) as [<-|Hne]; [|left; by rewrite jm_get_del_ne].
      right; left. exists n, a. rewrite Hr, decide_True by done. split; [done|]. rewrite Hw. rewrite Hd in Ht. injection Ht as <- <-. done.
    + exists p', a'. rewrite Hr. destruct (decide (p' = n)) as [->|]; [by rewrite Hn in Hp'|done].
Qed.

Definition fired (s : Manager) (i : nat) (m : WorkflowActivateMode) (d : WorkflowEntity) (b : bool) : Manager :=
  let s1 := take_id (with_queue s (queuedActivations s) (jm_del (timers s) i)) in
  with_processes s1 (jm_set (processes s1) (nextId s) (mkAdd (entity_id d) m FromRetry (Adding d b))).

Lemma fired_ok s i m d b : manager_ok s → jm_get (timers s) i = Some (m, d) → manager_ok (fired s i m d b).
Proof.
  intros [[T1 T2] Q] Ht. split.
  - constructor; cbn; intros p a; (destruct (decide (nextId s = p)) as [<-|Hne]; [rewrite jm_get_set; intros [= <-]|rewrite jm_get_set_ne by done]).
    + lia.
    + intros H%T1. lia.
    + done.
    + apply T2.
  - refine (queue_ok_fire _ _ (retry_at s) _ _ i m d (mkAdd (entity_id d) m FromRetry (Adding d b)) b Q Ht _ _ eq_refl eq_refl eq_refl); [by apply retry_fresh|].
    intros p. unfold retry_at, fired. cbn. destruct (decide (p = nextId s)) as [->|Hne]; [by rewrite jm_get_set|].
    by rewrite jm_get_set_ne.
Qed.

Lemma retry_at_fired s i m d b : retry_at (fired s i m d b) (nextId s) = Some (mkAdd (entity_id d) m FromRetry (Adding d b)).
Proof. unfold retry_at, fired. cbn. by rewrite jm_get_set. Qed.

Lemma del_set_new {K V} `{EqDecision K} (m : jmap K V) k v : jm_get m k = None → jm_del (jm_set m k v) k = jm_del m k.
Proof.
  intros Hk. rewrite jm_set_new by done. unfold jm_del. rewrite filter_app, filter_cons_False; [by rewrite app_nil_r|]. cbn. by intros ?.
Qed.

Lemma retryFunction_ok s i m d : manager_ok s → jm_get (timers s) i = Some (m, d) → manager_ok (retryFunction s i m d).
Proof.
  intros Hs Ht. set (s1 := take_id (with_queue s (queuedActivations s) (jm_del (timers s) i))). unfold retryFunction. fold s1.
  assert (Hfresh : jm_get (processes s1) (nextId s) = None).
  { destruct Hs as [[T1 _] _]. destruct (jm_get (processes s1) (nextId s)) eqn:H; [|done]. apply T1 in H. lia. }
  assert (Hdel : ∀ b, with_processes (fired s i m d b) (jm_del (processes (fired s i m d b)) (nextId s)) =
    with_processes s1 (jm_del (processes s1) (nextId s))).
  { intros b. rewrite <- (del_set_new (processes s1) (nextId s) (mkAdd (entity_id d) m FromRetry (Adding d b))) by done.
    reflexivity. }
  pose proof (fired_ok s i m d false Hs Ht) as Hf. pose proof (retry_at_fired s i m d false) as Hr.
  destruct (ok_timer _ _ _ _ (proj2 Hs) i m d Ht) as (e & He & _ & Hme & Hde).
  unfold resume_add, begin_add. cbn [add_mode add_workflow add_origin].
  destruct (isArchived d) eqn:Ha.
  { unfold finish. rewrite <- (Hdel false). apply settle_ok, delete_process_ok; [done|]. intros a e'. rewrite Hr. intros [= <-].
    change (jm_get (queuedActivations s) (entity_id d) = Some e' → stale (activationMode e') (workflowData e')).
    rewrite He. intros [= <-]. left. by rewrite Hde. }
  destruct (activeVersion d) as [v|] eqn:Hv; [by apply (fired_ok s i m d (isLeader s1))|].
  destruct (starting_mode m) eqn:Hm.
  - unfold finish. rewrite <- (Hdel false). apply settle_ok, delete_process_ok; [done|]. intros a e'. rewrite Hr. intros [= <-].
    change (jm_get (queuedActivations s) (entity_id d) = Some e' → stale (activationMode e') (workflowData e')).
    rewrite He. intros [= <-]. right. by rewrite Hde, Hme.
  - unfold add_throws. cbn [add_origin add_mode]. rewrite <- (Hdel false).
    apply (retry_failed_ok (fired s i m d false) (nextId s) (mkAdd (entity_id d) m FromRetry (Adding d false))); try done.
    intros e'. change (jm_get (queuedActivations s) (entity_id d) = Some e' → workflowData e' = d). rewrite He. by intros [= <-].
Qed.

(** Nothing is queued for a workflow while a retry of it is under way. *)
Definition calm (s : Manager) (e : ManagerEvent) : Prop :=
  match e with
  | EmitError _ entity => ¬ retrying s (entity_id entity)
  | Found p _ | AddFails p _ _ | FinishFails p _ =>
      ∀ a, jm_get (processes s) p = Some a → add_origin a ≠ FromRetry → ¬ retrying s (add_workflow a)
  | _ => True
  end.

Lemma retry_at_other s p a : jm_get (processes s) p = Some a → add_origin a ≠ FromRetry → retry_at s p = None.
Proof. intros Hp Ho. unfold retry_at. rewrite Hp. cbn. by rewrite bool_decide_eq_false_2. Qed.

Lemma add_throws_ok s p a d f :
  manager_ok s → jm_get (processes s) p = Some a → entity_id d = add_workflow a →
  (add_origin a ≠ FromRetry → ¬ retrying s (add_workflow a)) →
  (∀ e, add_origin a = FromRetry → jm_get (queuedActivations s) (add_workflow a) = Some e → workflowData e = d) →
  manager_ok (add_throws s p a d f).
Proof.
  intros Hs Hp Hd Hcalm Hdata. unfold add_throws. destruct (decide (add_origin a = FromRetry)) as [Ho|Ho].
  { rewrite Ho. apply retry_failed_ok; [done|by apply retry_at_process|done|]. intros e. by apply Hdata. }
  assert (Hq : ∀ m, manager_ok (finish (addQueuedWorkflowActivation s m d) p)).
  { intros m. apply finish_other_ok; [apply addQueued_ok; [done|rewrite Hd; by apply Hcalm]|].
    destruct (removeQueued_same s (entity_id d)) as (Hps & _). apply (retry_at_other _ _ a); [|done]. cbn. by rewrite Hps. }
  assert (Hn : manager_ok (finish s p)) by (apply finish_other_ok; [done|by apply (retry_at_other _ _ a)]).
  destruct (add_origin a); [done|by destruct (authorization_error f)|by destruct (isolate_error f)|done].
Qed.

Lemma resume_add_ok s p a d :
  manager_ok s → jm_get (processes s) p = Some a → add_stage a = Finding → entity_id d = add_workflow a →
  ¬ retrying s (add_workflow a) → manager_ok (resume_add s p a d).
Proof.
  intros Hs Hp Hst Hd Hcalm. assert (Ho : add_origin a ≠ FromRetry).
  { destruct Hs as [[_ T2] _]. specialize (T2 p a Hp). unfold process_ok in T2. by rewrite Hst in T2. }
  pose proof (retry_at_other s p a Hp Ho) as Hr. unfold resume_add.
  destruct (begin_add s (add_mode a) d) as [| |st] eqn:Hb.
  - by apply finish_other_ok.
  - by apply add_throws_ok.
  - assert (Hst' : st = Adding d (isLeader s)).
    { unfold begin_add in Hb. destruct (isArchived d); [done|]. destruct (activeVersion d); [by injection Hb as <-|].
      by destruct (starting_mode _). }
    subst st. apply (set_process_ok s p _ (nextId s)); [done|done| |lia|by rewrite Hr].
    destruct Hs as [[T1 _] _]. by apply T1 in Hp.
Qed.

Lemma removeAll_ok s : manager_ok s → manager_ok (removeAllQueuedWorkflowActivations s).
Proof.
  unfold removeAllQueuedWorkflowActivations. generalize (jm_keys (queuedActivations s)). intros l. revert s.
  induction l as [|w l IH]; intros s Hs; [done|]. by apply IH, removeQueued_ok.
Qed.

Lemma added_ok s p a d should :
  manager_ok s → jm_get (processes s) p = Some a → add_stage a = Adding d should →
  let s1 := added s d should in
  manager_ok (with_processes s1 (jm_set (processes s1) p (mkAdd (add_workflow a) (add_mode a) (add_origin a) (Finishing d)))).
Proof.
  intros Hs Hp Hst. unfold added. set (s0 := match activeVersion d with Some _ => _ | None => _ end).
  assert (Hs0 : manager_ok s0 ∧ processes s0 = processes s).
  { unfold s0. destruct (activeVersion d) as [v|]; [|done]. destruct (should && has_triggers d); [|done].
    split; [by apply with_memory_ok|done]. }
  destruct Hs0 as [Hs0 Hp0]. destruct (removeQueued_same s0 (entity_id d)) as (Hps & Hn & _ & Hq & _).
  pose proof (removeQueued_ok s0 (entity_id d) Hs0) as Hs1. set (s1 := removeQueuedWorkflowActivation s0 (entity_id d)) in *.
  assert (Hd : entity_id d = add_workflow a).
  { destruct Hs as [[_ T2] _]. specialize (T2 p a Hp). unfold process_ok in T2. by rewrite Hst in T2. }
  assert (Hp1 : jm_get (processes s1) p = Some a) by by rewrite Hps, Hp0.
  apply (set_process_ok s1 p _ (nextId s1)); [done|done| |lia|].
  - destruct Hs1 as [[T1 _] _]. by apply T1 in Hp1.
  - unfold retry_at. rewrite Hp1. cbn. case_bool_decide; [|done]. split_and!; [done|done|]. by rewrite <- Hd.
Qed.

Lemma step_ok s e s' : manager_ok s → calm s e → manager_next s e = Some s' → manager_ok s'.
Proof.
  intros Hs Hc Hn. destruct e as [mode|batches| |o w mode|p entity|p|p|p cleared f|p|p f|i|mode d|w|w| |]; cbn [manager_next calm] in *.
  - injection Hn as <-. unfold call_addActiveWorkflows. destruct (isActivationInProgress s); [done|by apply with_startup_ok].
  - destruct (isActivationInProgress s) as [[m|m l bs]|]; [|done..]. injection Hn as <-. by apply next_batch_ok.
  - destruct (isActivationInProgress s) as [[m|m l bs]|]; [|done..]. injection Hn as <-. by apply with_startup_ok.
  - destruct (caller_origin o) eqn:Ho; [|done]. injection Hn as <-.
    apply (set_process_ok s (nextId s) _ (S (nextId s))); [done| |lia|lia|]; [by destruct o|].
    rewrite retry_fresh by apply Hs. by destruct o.
  - destruct (jm_get (processes s) p) as [a|] eqn:Hp; [|done]. cbn in Hn. destruct (add_stage a) eqn:Hst; [|done..].
    assert (Ho : add_origin a ≠ FromRetry).
    { destruct Hs as [[_ T2] _]. specialize (T2 p a Hp). unfold process_ok in T2. by rewrite Hst in T2. }
    destruct entity as [d|]; [case_bool_decide as Hd; [|done]|]; injection Hn as <-.
    + apply resume_add_ok; try done. by apply Hc.
    + apply finish_other_ok; [done|]. by apply (retry_at_other _ _ a).
  - destruct (jm_get (processes s) p) as [a|] eqn:Hp; [|done]. cbn in Hn. destruct (add_stage a) eqn:Hst; [|done..].
    assert (Ho : add_origin a ≠ FromRetry).
    { destruct Hs as [[_ T2] _]. specialize (T2 p a Hp). unfold process_ok in T2. by rewrite Hst in T2. }
    assert (Hd : manager_ok (with_processes s (jm_del (processes s) p))).
    { apply delete_process_ok; [done|]. intros a' e. by rewrite (retry_at_other s p a Hp Ho). }
    injection Hn as <-. destruct (isActivationInProgress _) as [[m|m l bs]|]; [done| |done].
    case_bool_decide; [by apply with_startup_ok|done].
  - destruct (jm_get (processes s) p) as [a|] eqn:Hp; [|done]. cbn in Hn. destruct (add_stage a) as [|d should|d] eqn:Hst; [done| |done].
    injection Hn as <-. by apply added_ok.
  - destruct (jm_get (processes s) p) as [a|] eqn:Hp; [|done]. cbn in Hn. destruct (add_stage a) as [|d should|d] eqn:Hst; [done| |done].
    injection Hn as <-. set (s0 := if should && cleared then _ else s).
    assert (Hs0 : manager_ok s0) by (unfold s0; destruct (should && cleared); [by apply with_memory_ok|done]).
    assert (Hsame : processes s0 = processes s ∧ queuedActivations s0 = queuedActivations s) by (unfold s0; by destruct (should && cleared)).
    destruct Hsame as [Hps Hqs]. apply add_throws_ok; [done|by rewrite Hps| | |].
    + destruct Hs as [[_ T2] _]. specialize (T2 p a Hp). unfold process_ok in T2. by rewrite Hst in T2.
    + intros Ho (p' & a' & Hp' & Ha'). apply (Hc a eq_refl Ho). exists p', a'. unfold retry_at in *. by rewrite Hps in Hp'.
    + intros e Ho He. rewrite Hqs in He. destruct (ok_retry _ _ _ _ (proj2 Hs) p a e) as [_ [b Hb]]; [by apply retry_at_process|done|].
      rewrite Hst in Hb. by injection Hb as -> _.
  - destruct (jm_get (processes s) p) as [a|] eqn:Hp; [|done]. cbn in Hn. destruct (add_stage a) as [|d should|d] eqn:Hst; [done..|].
    injection Hn as <-. apply finish_ok; [done|]. intros a' e Hr He. destruct (ok_retry _ _ _ _ (proj2 Hs) p a' e Hr He) as [_ [b Hb]].
    apply retry_at_process in Hr as [Hp' _]. rewrite Hp in Hp'. injection Hp' as <-. by rewrite Hst in Hb.
  - destruct (jm_get (processes s) p) as [a|] eqn:Hp; [|done]. cbn in Hn. destruct (add_stage a) as [|d should|d] eqn:Hst; [done..|].
    injection Hn as <-. apply add_throws_ok; [done|done| |by apply Hc|].
    + destruct Hs as [[_ T2] _]. specialize (T2 p a Hp). unfold process_ok in T2. by rewrite Hst in T2.
    + intros e Ho He. destruct (ok_retry _ _ _ _ (proj2 Hs) p a e) as [_ [b Hb]]; [by apply retry_at_process|done|]. by rewrite Hst in Hb.
  - destruct (jm_get (timers s) i) as [[m d]|] eqn:Ht; [|done]. cbn in Hn. injection Hn as <-. by apply retryFunction_ok.
  - injection Hn as <-. apply addQueued_ok; [by apply with_memory_ok|done].
  - injection Hn as <-. unfold remove. destruct (isMultiMain s); [done|]. by apply with_memory_ok, removeQueued_ok.
  - injection Hn as <-. by apply with_memory_ok.
  - injection Hn as <-. unfold addAllNonWebhookTriggerWorkflows, call_addActiveWorkflows. cbn.
    destruct (isActivationInProgress s); by apply (manager_ok_same s).
  - injection Hn as <-. apply with_memory_ok, removeAll_ok. by apply (manager_ok_same s).
Qed.

Inductive calmly : Manager → Prop :=
| calmly_init leader multi : calmly (new_manager leader multi)
| calmly_step s e s' : calmly s → calm s e → manager_next s e = Some s' → calmly s'.

Lemma calmly_ok s : calmly s → manager_ok s.
Proof.
  induction 1 as [leader multi|s e s' _ Hs Hc Hn]; [|by eapply step_ok].
  split; [by constructor|]. by constructor.
Qed.

(** A queued activation is tried again, and once at a time.  If nothing is queued for a
    workflow while a retry of it is under way, then at most one timeout or retry of it
    exists, the timeout is the one of its entry, so that removing the entry cancels it, and
    every entry has a timeout or a retry, unless its workflow was archived or not active
    when it was read. *)
Theorem queued_activation_retried s w e :
  calmly s → jm_get (queuedActivations s) w = Some e →
  (∀ i mode entity, jm_get (timers s) i = Some (mode, entity) → entity_id entity = w → i = timeout e ∧ ¬ retrying s w) ∧
  (∀ p p' a a', retry_at s p = Some a → retry_at s p' = Some a' → add_workflow a = w → add_workflow a' = w → p = p') ∧
  (stale (activationMode e) (workflowData e) ∨ retrying s w ∨
   jm_get (timers s) (timeout e) = Some (activationMode e, workflowData e) ∧
   is_Some (manager_next s (TimerFires (timeout e)))).
Proof.
  intros Hs He. destruct (calmly_ok s Hs) as [_ Q]. split_and!.
  - intros i m d Ht Hw. destruct (ok_timer _ _ _ _ Q i m d Ht) as (e' & He' & Hte & _). split.
    + rewrite Hw, He in He'. by injection He' as ->.
    + intros (p & a & Ha & Haw). apply (ok_apart _ _ _ _ Q p a i m d Ha Ht). by rewrite Hw.
  - intros p p' a a' Hp Hp' Ha Ha'. apply (ok_one _ _ _ _ Q p p' a a'); [done..|]. by rewrite Ha.
  - destruct (ok_entry _ _ _ _ Q w e He) as [_ [Ht|[Hr|Hst]]]; [|by right; left|by left].
    right; right. split; [done|]. cbn [manager_next]. rewrite Ht. by eexists.
Qed.

(** * A removed workflow *)




Section Clear.
Context (w : string).
Implicit Types s : Manager.


















End Clear.




(** * Delays *)

(** After [n] failures. *)
Lemma next_timeout_iter n :
  Nat.iter n (next_timeout no_failure) WORKFLOW_REACTIVATE_INITIAL_TIMEOUT =
  Z.min (1000 * 2 ^ Z.of_nat n) WORKFLOW_REACTIVATE_MAX_TIMEOUT.
Proof.
  induction n as [|n IH]; [reflexivity|]. rewrite Nat.iter_succ, IH, Nat2Z.inj_succ, Z.pow_succ_r by lia.
  unfold next_timeout. cbn [isolate_error no_failure negb andb].
  destruct (Z.ltb_spec (Z.min (1000 * 2 ^ Z.of_nat n) WORKFLOW_REACTIVATE_MAX_TIMEOUT) WORKFLOW_REACTIVATE_MAX_TIMEOUT); lia.
Qed.

Example seventeen_failures_until_a_day :
  Nat.iter 16 (next_timeout no_failure) 1000%Z = 65536000%Z ∧ Nat.iter 17 (next_timeout no_failure) 1000%Z = 86400000%Z.
Proof. by vm_compute. Qed.

(** * Concrete runs *)

Definition sample_workflow : WorkflowEntity := mkEntity "w" false (Some 7) true.

Definition manager_view (s : Manager) := (inMemory s, jm_keys (queuedActivations s), jm_keys (timers s), crashed s).

(** A trigger of "w" reports an error; the second try succeeds. *)
Definition sample_retry : list ManagerEvent :=
  [EmitError Mode_activate sample_workflow; TimerFires 0; AddFails 1 true no_failure; TimerFires 2].

Example sample_retry_runs :
  (λ s, (manager_view s, lastTimeout <$> jm_get (queuedActivations s) "w")) <$>
    manager_run (new_manager true false) sample_retry = Some (([], ["w"%string], [], []), Some 2000%Z).
Proof. reflexivity. Qed.

(** Calmness of a concrete run. *)
Definition retryingb (s : Manager) (w : string) : bool :=
  existsb (λ '(_, a), bool_decide (add_origin a = FromRetry) && bool_decide (add_workflow a = w)) (processes s).

Lemma retryingb_sound s w : retryingb s w = false → ¬ retrying s w.
Proof.
  intros Hb (p & a & Hp & Hw). apply retry_at_process in Hp as [Hp Ho]. apply not_true_iff_false in Hb. apply Hb.
  apply existsb_exists. exists (p, a). split; [by apply list_elem_of_In, jm_get_Some_elem|]. cbn.
  by rewrite !bool_decide_eq_true_2.
Qed.

Definition calmb (s : Manager) (e : ManagerEvent) : bool :=
  match e with
  | EmitError _ entity => negb (retryingb s (entity_id entity))
  | Found p _ | AddFails p _ _ | FinishFails p _ =>
      match jm_get (processes s) p with
      | Some a => bool_decide (add_origin a = FromRetry) || negb (retryingb s (add_workflow a))
      | None => true
      end
  | _ => true
  end.

Lemma calmb_sound s e : calmb s e = true → calm s e.
Proof.
  destruct e as [| | | |p entity|p|p|p cleared f|p|p f|i|mode d|w|w| |]; cbn [calmb calm]; try done;
    try (intros H a Hp Ho; rewrite Hp, bool_decide_eq_false_2 in H by done; by apply retryingb_sound, negb_true_iff).
  intros H. by apply retryingb_sound, negb_true_iff.
Qed.

Fixpoint calm_run (s : Manager) (es : list ManagerEvent) : option Manager :=
  match es with
  | [] => Some s
  | e :: es => if calmb s e then s ← manager_next s e; calm_run s es else None
  end.

Lemma calm_run_sound s es s' : calmly s → calm_run s es = Some s' → calmly s'.
Proof.
  revert s. induction es as [|e es IH]; intros s Hq; cbn [calm_run]; [by intros [= <-]|].
  destruct (calmb s e) eqn:Hb; [|done]. destruct (manager_next s e) as [s1|] eqn:Hn; [|done]. cbn.
  apply IH. eapply calmly_step; [done|by apply calmb_sound|done].
Qed.

Definition sample_manager (es : list ManagerEvent) : Manager :=
  default (new_manager true false) (calm_run (new_manager true false) es).

Lemma sample_calmly es : is_Some (calm_run (new_manager true false) es) → calmly (sample_manager es).
Proof. intros [s Hs]. unfold sample_manager. rewrite Hs. eapply calm_run_sound; [constructor|done]. Qed.

Lemma queued_activation_retried_witness :
  let s := sample_manager (take 3 sample_retry) in
  let e := mkQueued Mode_activate 2000 2 sample_workflow in
  (∀ i mode entity, jm_get (timers s) i = Some (mode, entity) → entity_id entity = "w"%string → i = timeout e ∧ ¬ retrying s "w") ∧
  (∀ p p' a a', retry_at s p = Some a → retry_at s p' = Some a' → add_workflow a = "w"%string → add_workflow a' = "w"%string → p = p') ∧
  (stale (activationMode e) (workflowData e) ∨ retrying s "w" ∨
   jm_get (timers s) (timeout e) = Some (activationMode e, workflowData e) ∧ is_Some (manager_next s (TimerFires (timeout e)))).
Proof.
  intros s e. apply (queued_activation_retried s "w" e).
  - apply sample_calmly. vm_compute. eauto.
  - vm_compute. reflexivity.
Defined.



(** A process of several: the leader removes a workflow, and the retry that is still queued
    activates it again. *)
Example removed_workflow_reactivated :
  manager_view <$> manager_run (new_manager true true)
    [EmitError Mode_activate sample_workflow; Call_remove "w"; HandleRemove "w"; TimerFires 0; Added 1; Finished 1]%string
  = Some ([("w"%string, 7)], [], [], []).
Proof. reflexivity. Qed.

(** A trigger reports an error while the workflow is tried again, and that try fails: two
    timeouts are pending. *)
Example two_timeouts :
  manager_view <$> manager_run (new_manager true false)
    [EmitError Mode_activate sample_workflow; TimerFires 0; EmitError Mode_activate sample_workflow; AddFails 1 true no_failure]
  = Some ([], ["w"%string], [2; 3], []).
Proof. reflexivity. Qed.

(** A query fails after the triggers are active: the entry is gone and the retry throws. *)
Example late_failure_crashes :
  manager_view <$> manager_run (new_manager true false)
    [EmitError Mode_activate sample_workflow; TimerFires 0; Added 1; FinishFails 1 no_failure]
  = Some ([("w"%string, 7)], [], [], ["w"%string]).
Proof. reflexivity. Qed.

(** The workflow is removed while a retry is under way. *)
Example removed_during_retry :
  manager_view <$> manager_run (new_manager true false)
    [EmitError Mode_activate sample_workflow; TimerFires 0; Call_remove "w"; Added 1; Finished 1]%string
  = Some ([("w"%string, 7)], [], [], []).
Proof. reflexivity. Qed.

(** A process becomes the leader while it activates the workflows at the start: the takeover
    activates nothing, and the triggers of "w" are active nowhere. *)
Example takeover_during_startup :
  (λ s, (isLeader s, isActivationInProgress s, manager_view s)) <$> manager_run (new_manager false true)
    [Call_addActiveWorkflows Mode_init; Listed [["w"]]; Found 0 (Some sample_workflow); LeaderTakeover; Added 0; Finished 0]%string
  = Some (true, None, ([], [], [], [])).
Proof. reflexivity. Qed.
