(* ===== verification/Webhooks.v ===== *)
(** Webhooks: finding the webhook that a request is for.

    packages/@n8n/db/src/entities/webhook-entity.ts, the lookups of
    packages/cli/src/webhooks/webhook.service.ts with their cache, and the parameters that
    live-webhooks.ts takes from a path.  The table is a list of rows with the key (method,
    path), in the order in which queries return them.  The cache maps keys to rows; its
    calls may fail, and setting a key takes a while. *)

From Stdlib Require Import ZArith Lia Ascii.
From stdpp Require Import prelude list strings.
From S2P Require Import Prelude.

(** * Paths *)

(** [split('/')]. *)
Fixpoint split_path (s : string) : list string :=
  match s with
  | EmptyString => [EmptyString]
  | String c s =>
      if Ascii.eqb c "/" then EmptyString :: split_path s
      else match split_path s with
           | [] => [String c EmptyString]
           | seg :: segs => String c seg :: segs
           end
  end.

(** [join('/')]. *)
Fixpoint join_path (segs : list string) : string :=
  match segs with
  | [] => EmptyString
  | [seg] => seg
  | seg :: segs => (seg ++ String "/" (join_path segs))%string
  end.

Fixpoint includes (c : ascii) (s : string) : bool :=
  match s with EmptyString => false | String c' s => Ascii.eqb c' c || includes c s end.

(** [startsWith(':')] and [slice(1)]. *)
Definition dynamic_name (seg : string) : option string :=
  match seg with String c name => if Ascii.eqb c ":" then Some name else None | EmptyString => None end.

Definition starts_colon (seg : string) : bool := match dynamic_name seg with None => false | Some _ => true end.

(** * Rows *)

Record WebhookEntity := mkWebhook {
  workflowId : string;
  webhookPath : string;
  method : string;
  node : string;
  webhookId : option string;
  pathLength : option nat;
}.

#[export] Instance webhook_eq_dec : EqDecision WebhookEntity.
Proof. solve_decision. Defined.

Definition uniquePath (e : WebhookEntity) : string :=
  if includes ":" (webhookPath e) then join_path [default EmptyString (webhookId e); webhookPath e] else webhookPath e.

(** A method has no dash: the text of the key can be told from the pair. *)
Definition cacheKey (e : WebhookEntity) : string * string := (method e, uniquePath e).

Definition staticSegments (e : WebhookEntity) : list string := filter (λ s, starts_colon s = false) (split_path (webhookPath e)).

Definition isDynamic (e : WebhookEntity) : bool := existsb starts_colon (split_path (webhookPath e)).

(** * Lookups in the table *)

Definition primary (e : WebhookEntity) : string * string := (method e, webhookPath e).

Definition findStaticWebhook (db : list WebhookEntity) (m path : string) : option WebhookEntity :=
  snd <$> list_find (λ e, primary e = (m, path)) db.

(** A criterion that is undefined is left out. *)
Definition dynamic_candidate (m : option string) (uuid : string) (len : nat) (e : WebhookEntity) : bool :=
  bool_decide (webhookId e = Some uuid) && bool_decide (pathLength e = Some len) &&
  match m with Some m => bool_decide (method e = m) | None => true end.

Definition all_static_in (request : list string) (e : WebhookEntity) : bool :=
  forallb (λ s, bool_decide (s ∈ request)) (staticSegments e).

Definition better_match (request : list string) (acc : option WebhookEntity * nat) (dw : WebhookEntity) : option WebhookEntity * nat :=
  let n := length (staticSegments dw) in
  if all_static_in request dw && (acc.2 <? n) then (Some dw, n)
  else if (n =? 0) && negb (bool_decide (is_Some acc.1)) then (Some dw, acc.2)
  else acc.

Definition findDynamicWebhook (db : list WebhookEntity) (path : string) (m : option string) : option WebhookEntity :=
  match split_path path with
  | [] => None
  | uuid :: segments =>
      (foldl (better_match segments) (None, 0) (filter (λ e, dynamic_candidate m uuid (length segments) e) db)).1
  end.

Definition find_in_db (db : list WebhookEntity) (m path : string) : option WebhookEntity :=
  match findStaticWebhook db m path with Some e => Some e | None => findDynamicWebhook db path (Some m) end.

Definition getWebhookMethods (db : list WebhookEntity) (path : string) : list string :=
  match method <$> filter (λ e, webhookPath e = path) db with
  | [] => match findDynamicWebhook db path None with Some e => [method e] | None => [] end
  | methods => methods
  end.

(** * Paths of a node *)

(** What follows the first slash. *)
Fixpoint after_slash (s : string) : option string :=
  match s with EmptyString => None | String c s => if Ascii.eqb c "/" then Some s else after_slash s end.

(** [includes('/:')]. *)
Fixpoint includes_slash_colon (s : string) : bool :=
  match s with
  | EmptyString => false
  | String c s => (Ascii.eqb c "/" && starts_colon s) || includes_slash_colon s
  end.

Definition has_dynamic_segment (path : string) : bool := starts_colon path || includes_slash_colon path.

Definition isDynamicPath (rawPath : string) : bool :=
  let path := default rawPath (after_slash rawPath) in
  if bool_decide (path ∈ [""; ":"; "/:"]%string) then false else has_dynamic_segment path.

Definition getWebhookPath (path : string) (id : option string) : string :=
  join_path (filter (λ s, s ≠ EmptyString) [(if includes ":" path then default EmptyString id else EmptyString); path]).

Section NodePath.
(** [encodeURIComponent(name.toLowerCase())]. *)
Context (encode_name : string → string).

Definition getNodeWebhookPath (workflow name : string) (id : option string) (path : string) (isFullPath restartWebhook : bool) : string :=
  if restartWebhook then path
  else match id with
       | None => join_path [workflow; encode_name name; path]
       | Some id => if isFullPath then (if bool_decide (path = EmptyString) then id else path) else join_path [id; path]
       end.
End NodePath.

(** The row of [addWebhooks] for a path without slashes at its ends; [id] is the
    [webhookId] of the node. *)
Definition new_webhook (workflow path m n : string) (id : option string) : WebhookEntity :=
  if has_dynamic_segment path && str_truthy id
  then mkWebhook workflow path m n id (Some (length (split_path path)))
  else mkWebhook workflow path m n None None.

(** ** Conflicts *)

(** A webhook of a node of the workflow. *)
Record WebhookData := mkData {
  data_method : string;
  data_path : string;
  data_node : string;
  data_webhookId : option string;
}.

(** [webhookToKey]: a method has no blank. *)
Definition webhookToKey (d : WebhookData) : string * string := (data_method d, getWebhookPath (data_path d) (data_webhookId d)).

(** The loops of [_findWebhookConflicts], over the webhooks of all nodes; [lookup] is
    [findWebhook]. *)
Fixpoint conflicts_loop (lookup : string → string → option WebhookEntity) (workflow : string)
    (processed : jmap (string * string) WebhookData) (webhooks : list WebhookData) : list (string * WebhookEntity) :=
  match webhooks with
  | [] => []
  | d :: webhooks =>
      match jm_get processed (webhookToKey d) with
      | Some c =>
          (data_node d, mkWebhook workflow (data_path c) (data_method c) (data_node c) (data_webhookId c) None) ::
          conflicts_loop lookup workflow processed webhooks
      | None =>
          match lookup (data_method d) (getWebhookPath (data_path d) (data_webhookId d)) with
          | Some e =>
              if bool_decide (workflowId e = workflow) then conflicts_loop lookup workflow (jm_set processed (webhookToKey d) d) webhooks
              else (data_node d, e) :: conflicts_loop lookup workflow processed webhooks
          | None => conflicts_loop lookup workflow (jm_set processed (webhookToKey d) d) webhooks
          end
      end
  end.

Definition findWebhookConflicts lookup workflow webhooks := conflicts_loop lookup workflow [] webhooks.

(** The parameters of a request for a dynamic webhook. *)
Definition request_params (e : WebhookEntity) (path : string) : jmap string (option string) :=
  let pathElements := tail (split_path path) in
  foldl (λ params '(i, ele), match dynamic_name ele with Some name => jm_set params name (pathElements !! i) | None => params end)
    [] (entries (split_path (webhookPath e))).

(** * The cache *)

Record Service := mkService {
  table : list WebhookEntity;
  cache : jmap (string * string) WebhookEntity;
  setting : list (string * string * WebhookEntity);
}.

Definition upsert (db : list WebhookEntity) (e : WebhookEntity) : list WebhookEntity :=
  if bool_decide (primary e ∈ primary <$> db) then (λ e', if bool_decide (primary e' = primary e) then e else e') <$> db else db ++ [e].

(** [storeWebhook]; [ok]: setting the cache does not fail. *)
Definition storeWebhook (s : Service) (e : WebhookEntity) (ok : bool) : Service :=
  mkService (upsert (table s) e) (if ok then jm_set (cache s) (cacheKey e) e else cache s) (setting s).

Definition deleteWebhooks (s : Service) (rows : list WebhookEntity) (ok : bool) : Service :=
  mkService (filter (λ e, primary e ∉ primary <$> rows) (table s))
    (if ok then foldl (λ c e, jm_del c (cacheKey e)) (cache s) rows else cache s) (setting s).

Definition deleteWorkflowWebhooks (s : Service) (workflow : string) (ok : bool) : Service :=
  deleteWebhooks s (filter (λ e, workflowId e = workflow) (table s)) ok.

Definition populateCache (s : Service) : Service :=
  mkService (table s) (cache s) (setting s ++ ((λ e, (cacheKey e, e)) <$> filter (λ e, webhookId e = None) (table s))).

(** [findCached]; [ok]: reading the cache does not fail. *)
Definition findCached (s : Service) (m path : string) (ok : bool) : Service * option WebhookEntity :=
  match (if ok then jm_get (cache s) (m, path) else None) with
  | Some e => (s, Some e)
  | None =>
      match findStaticWebhook (table s) m path with
      | Some e => (mkService (table s) (cache s) (setting s ++ [((m, path), e)]), Some e)
      | None => (s, findDynamicWebhook (table s) path (Some m))
      end
  end.

Inductive ServiceEvent :=
| Store (e : WebhookEntity) (ok : bool)
| DeleteWorkflow (workflow : string) (ok : bool)
| Populate
| Find (m path : string) (ok : bool)
| SetDone (i : nat) (ok : bool)
| Expires (key : string * string).

Definition service_next (s : Service) (ev : ServiceEvent) : Service :=
  match ev with
  | Store e ok => storeWebhook s e ok
  | DeleteWorkflow w ok => deleteWorkflowWebhooks s w ok
  | Populate => populateCache s
  | Find m path ok => (findCached s m path ok).1
  | SetDone i ok =>
      match setting s !! i with
      | None => s
      | Some (key, e) => mkService (table s) (if ok then jm_set (cache s) key e else cache s) (splice1 (setting s) i)
      end
  | Expires key => mkService (table s) (jm_del (cache s) key) (setting s)
  end.

(** * Paths split and join *)

Definition no_slash (s : string) : Prop := includes "/" s = false.

Lemma string_app_cons c s t : (String c s ++ t)%string = String c (s ++ t)%string.
Proof. done. Qed.

Lemma split_path_nonempty s : split_path s ≠ [].
Proof. induction s as [|c s IH]; cbn [split_path includes String.append]; [done|]. destruct (Ascii.eqb c "/"); [done|]. by destruct (split_path s). Qed.

Lemma split_no_slash s : no_slash s → split_path s = [s].
Proof.
  unfold no_slash. induction s as [|c s IH]; cbn [split_path includes String.append]; [done|]. intros [Hc Hs]%orb_false_iff. rewrite Hc, IH by done. done.
Qed.

Lemma split_app_slash s t : no_slash s → split_path (s ++ String "/" t)%string = s :: split_path t.
Proof.
  unfold no_slash. induction s as [|c s IH]; [done|]. rewrite string_app_cons. cbn [split_path includes].
  intros [Hc Hs]%orb_false_iff. by rewrite Hc, IH.
Qed.

Lemma split_join segs : segs ≠ [] → Forall no_slash segs → split_path (join_path segs) = segs.
Proof.
  intros Hne Hs. induction Hs as [|seg segs Hseg Hs IH]; [done|]. destruct segs as [|seg' segs]; [by apply split_no_slash|].
  change (join_path (seg :: seg' :: segs)) with (seg ++ String "/" (join_path (seg' :: segs)))%string.
  by rewrite split_app_slash, IH.
Qed.

Lemma split_segments s : Forall no_slash (split_path s).
Proof.
  unfold no_slash. induction s as [|c s IH]; cbn [split_path includes String.append]; [by constructor|]. destruct (Ascii.eqb c "/") eqn:Hc; [by constructor|].
  destruct (split_path s) as [|seg segs]; [constructor; [cbn [includes]; by rewrite Hc|done]|].
  apply Forall_cons in IH as [H1 H2]. constructor; [cbn [includes]; by rewrite Hc|done].
Qed.

Lemma join_split s : join_path (split_path s) = s.
Proof.
  induction s as [|c s IH]; [done|]. cbn [split_path]. pose proof (split_path_nonempty s) as Hne.
  destruct (Ascii.eqb c "/") eqn:Hc.
  - apply Ascii.eqb_eq in Hc as ->. destruct (split_path s) as [|seg segs] eqn:Hs; [done|]. cbn [join_path] in IH |- *.
    rewrite IH. done.
  - destruct (split_path s) as [|seg segs] eqn:Hs; [done|]. rewrite <- IH. by destruct segs.
Qed.

Lemma includes_app c s t : includes c (s ++ t)%string = includes c s || includes c t.
Proof. induction s as [|c' s IH]; [done|]. rewrite string_app_cons. cbn [includes]. by rewrite IH, orb_assoc. Qed.


Lemma join_cons seg segs : segs ≠ [] → join_path (seg :: segs) = (seg ++ String "/" (join_path segs))%string.
Proof. by destruct segs. Qed.

(** * The best match *)

Section BestMatch.
Context (request : list string).
Implicit Types (l ms : list WebhookEntity) (e : WebhookEntity).

Definition statics e : nat := length (staticSegments e).

Definition matching l : list WebhookEntity := filter (λ e, all_static_in request e = true) l.

(** The first of the matches with the most static segments. *)
Definition first_best ms (o : option WebhookEntity) : Prop :=
  match o with
  | None => ms = []
  | Some e => ∃ l1 l2, ms = l1 ++ e :: l2 ∧ Forall (λ e', statics e' < statics e) l1 ∧ Forall (λ e', statics e' ≤ statics e) l2
  end.

Lemma no_statics_match e : statics e = 0 → all_static_in request e = true.
Proof. unfold statics, all_static_in. by destruct (staticSegments e). Qed.

Lemma matching_snoc l e : matching (l ++ [e]) = matching l ++ if all_static_in request e then [e] else [].
Proof. unfold matching. rewrite filter_app. f_equal. by destruct (all_static_in request e) eqn:H; [rewrite filter_cons_True|rewrite filter_cons_False; rewrite ?H]. Qed.

Lemma better_match_best l :
  let acc := foldl (better_match request) (None, 0) l in
  first_best (matching l) acc.1 ∧ acc.2 = match acc.1 with Some e => statics e | None => 0 end.
Proof.
  induction l as [|e l IH] using rev_ind; [done|]. cbn zeta in *. rewrite foldl_app. cbn [foldl].
  destruct (foldl (better_match request) (None, 0) l) as [w n]. cbn [fst snd] in IH. destruct IH as [Hb Hn].
  rewrite matching_snoc. unfold better_match. cbn [fst snd]. fold (statics e).
  destruct (all_static_in request e) eqn:Hall; cbn [andb].
  - destruct (Nat.ltb_spec n (statics e)) as [Hlt|Hge]; cbn [fst snd].
    + split; [|done]. exists (matching l), []. split_and!; [done| |done]. destruct w as [e0|]; cbn in Hb; [|by rewrite Hb].
      destruct Hb as (l1 & l2 & -> & H1 & H2). apply Forall_app. split; [|constructor; [lia|]].
      * eapply Forall_impl; [exact H1|]. cbn. intros; lia.
      * eapply Forall_impl; [exact H2|]. cbn. intros; lia.
    + destruct w as [e0|].
      * rewrite (bool_decide_eq_true_2 (is_Some (Some e0))) by done. rewrite andb_false_r. cbn [fst snd]. split; [|done].
        destruct Hb as (l1 & l2 & -> & H1 & H2). exists l1, (l2 ++ [e]). split_and!; [by rewrite <- app_assoc|done|].
        apply Forall_app. split; [done|]. by apply Forall_singleton; lia.
      * assert (Hz : statics e = 0) by lia. rewrite Hz. cbn. cbn in Hb. rewrite Hb. split; [|by rewrite Hn, Hz].
        by exists [], [].
  - rewrite app_nil_r. assert (Hz : statics e ≠ 0) by (intros Hz%no_statics_match; by rewrite Hz in Hall).
    apply Nat.eqb_neq in Hz. rewrite Hz. done.
Qed.

Lemma all_static_subset e : all_static_in request e = true ↔ staticSegments e ⊆ request.
Proof.
  unfold all_static_in. rewrite forallb_forall. split.
  - intros H s Hs. by apply list_elem_of_In, H, bool_decide_eq_true in Hs.
  - intros H s Hs. apply bool_decide_eq_true, H. by apply list_elem_of_In.
Qed.

Lemma matching_split l l1 e l2 :
  matching l = l1 ++ e :: l2 → ∃ before after, l = before ++ e :: after ∧ matching before = l1 ∧ matching after = l2 ∧
    all_static_in request e = true.
Proof.
  unfold matching. revert l1. induction l as [|x l IH]; intros l1 Hm; [by destruct l1|].
  destruct (all_static_in request x) eqn:Hx.
  - rewrite filter_cons_True in Hm by done. destruct l1 as [|y l1]; injection Hm as -> Hm.
    + by exists [], l.
    + destruct (IH _ Hm) as (b & a & -> & Hb & Ha & He). exists (y :: b), a. split_and!; [done| |done|done].
      rewrite filter_cons_True by done. by rewrite Hb.
  - rewrite filter_cons_False in Hm by by rewrite Hx. destruct (IH _ Hm) as (b & a & -> & Hb & Ha & He). exists (x :: b), a.
    split_and!; [done| |done|done]. by rewrite filter_cons_False by by rewrite Hx.
Qed.
End BestMatch.

(** What [findDynamicWebhook] computes. *)
Lemma findDynamic_best db path m uuid segments :
  split_path path = uuid :: segments →
  first_best (matching segments (filter (λ e, dynamic_candidate m uuid (length segments) e = true) db)) (findDynamicWebhook db path m).
Proof.
  intros Hp. unfold findDynamicWebhook. rewrite Hp.
  rewrite (list_filter_iff (λ e, Is_true (dynamic_candidate m uuid (length segments) e)) (λ e, dynamic_candidate m uuid (length segments) e = true))
    by (intros e; by rewrite Is_true_true).
  apply better_match_best.
Qed.

Lemma dynamic_found db path m uuid segments e :
  split_path path = uuid :: segments → e ∈ filter (λ e, dynamic_candidate m uuid (length segments) e = true) db →
  staticSegments e ⊆ segments →
  ∃ e', findDynamicWebhook db path m = Some e' ∧ statics e ≤ statics e'.
Proof.
  intros Hp Hin Hs. pose proof (findDynamic_best db path m uuid segments Hp) as Hb.
  assert (Hm : e ∈ matching segments (filter (λ e, dynamic_candidate m uuid (length segments) e = true) db))
    by (apply list_elem_of_filter; split; [by apply all_static_subset|done]).
  destruct (findDynamicWebhook db path m) as [e'|]; cbn in Hb; [|rewrite Hb in Hm; by apply not_elem_of_nil in Hm].
  exists e'. split; [done|]. destruct Hb as (l1 & l2 & Heq & H1 & H2). rewrite Heq in Hm. rewrite Forall_forall in H1, H2.
  apply elem_of_app in Hm as [Hm|[->|Hm]%elem_of_cons]; [apply H1 in Hm; lia|lia|by apply H2].
Qed.

(** C17: the search among the dynamic webhooks gives the first of the best matches.  A
    webhook of the uuid, the method and the length of the path matches if the segments of
    the path contain all its static segments; of the matches the first with the most static
    segments is taken, and if nothing is found nothing matches. *)
Theorem findDynamicWebhook_spec db path m uuid segments :
  split_path path = uuid :: segments →
  let candidates := filter (λ e, dynamic_candidate m uuid (length segments) e = true) db in
  match findDynamicWebhook db path m with
  | None => ∀ e, e ∈ candidates → ¬ staticSegments e ⊆ segments
  | Some e => ∃ before after, candidates = before ++ e :: after ∧ staticSegments e ⊆ segments ∧
      (∀ e', e' ∈ before → staticSegments e' ⊆ segments → length (staticSegments e') < length (staticSegments e)) ∧
      (∀ e', e' ∈ after → staticSegments e' ⊆ segments → length (staticSegments e') ≤ length (staticSegments e))
  end.
Proof.
  intros Hp candidates. pose proof (findDynamic_best db path m uuid segments Hp) as Hb. fold candidates in Hb.
  destruct (findDynamicWebhook db path m) as [e|]; cbn [first_best] in Hb.
  - destruct Hb as (l1 & l2 & Hm & H1 & H2). destruct (matching_split segments candidates l1 e l2 Hm) as (before & after & Hc & Hm1 & Hm2 & He).
    exists before, after. split_and!; [done|by apply all_static_subset| |].
    + intros e' Hin Hs. rewrite Forall_forall in H1. apply H1. rewrite <- Hm1. by apply list_elem_of_filter; split; [apply all_static_subset|].
    + intros e' Hin Hs. rewrite Forall_forall in H2. apply H2. rewrite <- Hm2. by apply list_elem_of_filter; split; [apply all_static_subset|].
  - intros e Hin Hs. assert (Hm : e ∈ matching segments candidates) by (apply list_elem_of_filter; split; [by apply all_static_subset|done]).
    rewrite Hb in Hm. by apply not_elem_of_nil in Hm.
Qed.

(** * Routes *)

(** The segments of a request: a value for each dynamic segment. *)
Definition fill (env : string → string) (seg : string) : string :=
  match dynamic_name seg with Some name => env name | None => seg end.

Definition request_path (uuid : string) (env : string → string) (path : string) : string :=
  join_path (uuid :: (fill env <$> split_path path)).

Lemma request_segments uuid env path :
  no_slash uuid → (∀ name, no_slash (env name)) → split_path (request_path uuid env path) = uuid :: (fill env <$> split_path path).
Proof.
  intros Hu He. apply split_join; [done|]. constructor; [done|]. apply Forall_fmap, (Forall_impl _ _ _ (split_segments path)).
  intros seg Hs. unfold compose, fill. by destruct (dynamic_name seg).
Qed.

Lemma starts_first s : starts_colon s = match split_path s with seg :: _ => starts_colon seg | [] => false end.
Proof.
  destruct s as [|c s]; [done|]. cbn [split_path]. destruct (Ascii.eqb c "/") eqn:Hc; [by apply Ascii.eqb_eq in Hc as ->|].
  unfold starts_colon, dynamic_name. by destruct (split_path s), (Ascii.eqb c ":").
Qed.

Lemma includes_later p : includes_slash_colon p = existsb starts_colon (tail (split_path p)).
Proof.
  induction p as [|c p IH]; [done|]. cbn [split_path includes_slash_colon]. rewrite IH.
  destruct (Ascii.eqb c "/") eqn:Hc; cbn [andb orb tail]; [|by destruct (split_path p)].
  rewrite starts_first. by destruct (split_path p).
Qed.

(** The test of [addWebhooks] is [isDynamic]. *)
Lemma dynamic_segments path : has_dynamic_segment path = existsb starts_colon (split_path path).
Proof. unfold has_dynamic_segment. rewrite includes_later, starts_first. by destruct (split_path path). Qed.

Definition add_param (elements : list string) (params : jmap string (option string)) (p : nat * string) : jmap string (option string) :=
  match dynamic_name p.2 with Some name => jm_set params name (elements !! p.1) | None => params end.

Lemma params_filled env (segs : list string) (params : jmap string (option string)) l name :
  (∀ i seg, (i, seg) ∈ l → segs !! i = Some seg) →
  jm_get (foldl (add_param (fill env <$> segs)) params l) name =
  if decide (Some name ∈ dynamic_name <$> (snd <$> l)) then Some (Some (env name)) else jm_get params name.
Proof.
  revert params. induction l as [|[i seg] l IH]; intros params Hl; cbn [foldl fmap list_fmap].
  { rewrite decide_False; [done|]. apply not_elem_of_nil. }
  rewrite IH by (intros i' seg' Hin; apply Hl, elem_of_cons; by right). unfold add_param. cbn [snd fst].
  assert (Hi : segs !! i = Some seg) by (apply Hl, elem_of_cons; by left).
  destruct (decide (Some name ∈ dynamic_name <$> (snd <$> l))) as [Hin|Hin].
  { rewrite decide_True; [done|]. apply elem_of_cons. by right. }
  destruct (dynamic_name seg) as [n|] eqn:Hn.
  - destruct (decide (n = name)) as [->|Hne].
    + rewrite decide_True by (apply elem_of_cons; by left). rewrite jm_get_set, list_lookup_fmap, Hi. cbn. unfold fill. by rewrite Hn.
    + rewrite decide_False; [by rewrite jm_get_set_ne|]. intros [[= ->]|?]%elem_of_cons; done.
  - rewrite decide_False; [done|]. intros [?|?]%elem_of_cons; done.
Qed.

Lemma segment_entry (segs : list string) i seg : (i, seg) ∈ entries segs → segs !! i = Some seg.
Proof. intros Hin. apply elem_of_lookup_imap in Hin as (i' & s' & [= <- <-] & Hi). done. Qed.

Lemma entries_snd (segs : list string) : snd <$> entries segs = segs.
Proof. unfold entries. rewrite fmap_imap. apply list_eq. intros i. rewrite list_lookup_imap. by destruct (segs !! i). Qed.

(** The parameters of a request that fills a path. *)
Lemma params_of_request e uuid env name :
  no_slash uuid → (∀ name, no_slash (env name)) →
  jm_get (request_params e (request_path uuid env (webhookPath e))) name =
  if decide (Some name ∈ dynamic_name <$> split_path (webhookPath e)) then Some (Some (env name)) else None.
Proof.
  intros Hu He. unfold request_params. rewrite request_segments by done. cbn [tail].
  pose proof (params_filled env (split_path (webhookPath e)) [] (entries (split_path (webhookPath e))) name) as H.
  rewrite entries_snd in H. etrans; [|exact (H (segment_entry _))]. f_equal.
  generalize (entries (split_path (webhookPath e))), (@nil (string * option string)). intros l.
  induction l as [|[i seg] l IH]; intros params; [done|]. apply IH.
Qed.

Lemma static_fill env path s : s ∈ filter (λ s, starts_colon s = false) (split_path path) → s ∈ fill env <$> split_path path.
Proof.
  intros [Hs Hin]%list_elem_of_filter. apply list_elem_of_fmap. exists s. split; [|done]. unfold fill, starts_colon in *.
  by destruct (dynamic_name s).
Qed.

Lemma upsert_elem db e : e ∈ upsert db e.
Proof.
  unfold upsert. case_bool_decide as H; [|apply elem_of_app; right; by apply list_elem_of_singleton].
  apply list_elem_of_fmap in H as (e0 & Heq & Hin). apply list_elem_of_fmap. exists e0. split; [|done].
  by rewrite bool_decide_eq_true_2.
Qed.

(** A path with dynamic segments can be called once it was stored.  After [storeWebhook]
    of the row that [addWebhooks] builds for a path with dynamic segments and a webhook id,
    a request for the id followed by the path with its dynamic segments filled in finds a
    webhook, one with at least as many static segments; and the parameters taken from the
    request for the stored row are the values filled in, and no others. *)
Theorem stored_route_answers s workflow path m n uuid env ok :
  has_dynamic_segment path = true → uuid ≠ EmptyString → no_slash uuid → (∀ name, no_slash (env name)) →
  let e := new_webhook workflow path m n (Some uuid) in
  let request := request_path uuid env path in
  (∃ e', findDynamicWebhook (table (storeWebhook s e ok)) request (Some m) = Some e' ∧
     length (staticSegments e) ≤ length (staticSegments e')) ∧
  isDynamic e = true ∧
  ∀ name, jm_get (request_params e request) name =
    if decide (Some name ∈ dynamic_name <$> split_path path) then Some (Some (env name)) else None.
Proof.
  intros Hd Hne Hu He e request.
  assert (He' : e = mkWebhook workflow path m n (Some uuid) (Some (length (split_path path)))).
  { unfold e, new_webhook. rewrite Hd. by destruct uuid. }
  split_and!.
  - assert (Hc : e ∈ filter (λ e, dynamic_candidate (Some m) uuid (length (fill env <$> split_path path)) e = true) (table (storeWebhook s e ok))).
    { apply list_elem_of_filter. split; [|apply upsert_elem]. rewrite He'. unfold dynamic_candidate. cbn.
      by rewrite length_fmap, !bool_decide_eq_true_2. }
    assert (Hsub : staticSegments e ⊆ fill env <$> split_path path) by (intros seg Hseg; rewrite He' in Hseg; by apply static_fill).
    destruct (dynamic_found _ _ _ _ _ _ (request_segments uuid env path Hu He) Hc Hsub) as (e1 & H1 & H2). by exists e1.
  - unfold isDynamic. rewrite He'. by rewrite <- dynamic_segments.
  - intros name. pose proof (params_of_request e uuid env name Hu He) as H. rewrite He' in H |- *. exact H.
Qed.

(** * The cache agrees with the table *)

(** The cache is told of changes, and no key is being set when the table changes. *)
Definition told (s : Service) (ev : ServiceEvent) : Prop :=
  match ev with Store _ ok | DeleteWorkflow _ ok => ok = true ∧ setting s = [] | _ => True end.

Inductive in_step : Service → Prop :=
| in_step_init : in_step (mkService [] [] [])
| in_step_next s ev : in_step s → told s ev → in_step (service_next s ev).

(** Paths without a colon: a cached row, or one being cached, is the row of its key. *)
Record agrees (s : Service) : Prop := {
  agrees_keys : NoDup (primary <$> table s);
  agrees_rows m p e : includes ":" p = false → jm_get (cache s) (m, p) = Some e ∨ ((m, p), e) ∈ setting s →
    e ∈ table s ∧ primary e = (m, p);
}.

Lemma cacheKey_static e m p : cacheKey e = (m, p) → includes ":" p = false → primary e = (m, p).
Proof.
  unfold cacheKey, uniquePath, primary. destruct (includes ":" (webhookPath e)) eqn:Hc; [|done]. intros [= Hm Hp] Hno.
  rewrite <- Hp, includes_app in Hno. apply orb_false_iff in Hno as [_ Hno]. cbn [includes] in Hno. by rewrite Hc, orb_true_r in Hno.
Qed.

Lemma primary_static e m p : primary e = (m, p) → includes ":" p = false → cacheKey e = (m, p).
Proof. unfold cacheKey, uniquePath, primary. intros [= Hm Hp] Hno. by rewrite Hp, Hno, Hm. Qed.

Lemma key_unique db e e' : NoDup (primary <$> db) → e ∈ db → e' ∈ db → primary e = primary e' → e = e'.
Proof.
  intros Hnd He He' Heq. apply list_elem_of_lookup in He as [i Hi]. apply list_elem_of_lookup in He' as [j Hj].
  assert (i = j) as ->; [|rewrite Hi in Hj; by injection Hj].
  apply (NoDup_lookup (primary <$> db) i j (primary e)); [done|rewrite list_lookup_fmap, Hi; done|].
  rewrite list_lookup_fmap, Hj. cbn. by rewrite Heq.
Qed.

Lemma upsert_primary db e : NoDup (primary <$> db) → NoDup (primary <$> upsert db e).
Proof.
  intros Hnd. unfold upsert. case_bool_decide as H.
  - rewrite <- list_fmap_compose. erewrite list_fmap_ext; [exact Hnd|]. intros i e' _. cbn. case_bool_decide; [by symmetry|done].
  - rewrite fmap_app. apply NoDup_app. split_and!; [done| |apply NoDup_singleton].
    intros k Hk ->%list_elem_of_singleton. done.
Qed.

Lemma upsert_other db e e' : e' ∈ db → primary e' ≠ primary e → e' ∈ upsert db e.
Proof.
  intros Hin Hne. unfold upsert. case_bool_decide; [|apply elem_of_app; by left].
  apply list_elem_of_fmap. exists e'. split; [|done]. by rewrite bool_decide_eq_false_2.
Qed.

Lemma deleted_keys (c : jmap (string * string) WebhookEntity) rows key e :
  jm_get (foldl (λ c e, jm_del c (cacheKey e)) c rows) key = Some e → jm_get c key = Some e ∧ key ∉ cacheKey <$> rows.
Proof.
  revert c. induction rows as [|r rows IH]; intros c; cbn [foldl fmap list_fmap]; [intros H; split; [done|by apply not_elem_of_nil]|].
  intros [H Hk]%IH. destruct (decide (cacheKey r = key)) as [<-|Hne]; [by rewrite jm_get_del in H|].
  rewrite jm_get_del_ne in H by done. split; [done|]. intros [Heq|?]%elem_of_cons; [by apply Hne|done].
Qed.

Lemma agrees_cached s key e : agrees s → includes ":" key.2 = false → jm_get (cache s) key = Some e → e ∈ table s ∧ primary e = key.
Proof. intros Hs Hp Hc. destruct key as [m p]. apply (agrees_rows s Hs); [done|by left]. Qed.

Lemma agrees_setting s key e : agrees s → includes ":" key.2 = false → (key, e) ∈ setting s → e ∈ table s ∧ primary e = key.
Proof. intros Hs Hp Hc. destruct key as [m p]. apply (agrees_rows s Hs); [done|by right]. Qed.

Lemma agrees_set s key e rest :
  agrees s → (includes ":" key.2 = false → e ∈ table s ∧ primary e = key) → (∀ x, x ∈ rest → x ∈ setting s) →
  agrees (mkService (table s) (jm_set (cache s) key e) rest).
Proof.
  intros Hs He Hr. constructor; [exact (agrees_keys s Hs)|]. intros m p e' Hp [Hc|Hin%Hr]; [|by apply (agrees_setting s (m, p))].
  cbn in Hc. destruct (decide (key = (m, p))) as [->|Hne].
  - rewrite jm_get_set in Hc. injection Hc as <-. exact (He Hp).
  - rewrite jm_get_set_ne in Hc by done. by apply (agrees_cached s (m, p)).
Qed.

Lemma findStatic_row db m p e : findStaticWebhook db m p = Some e → e ∈ db ∧ primary e = (m, p).
Proof.
  unfold findStaticWebhook. destruct (list_find _ db) as [[i e']|] eqn:H; [|done]. cbn. intros [= ->].
  apply list_find_Some in H as (H1 & H2 & _). split; [by eapply list_elem_of_lookup_2|done].
Qed.

Lemma findStatic_found db m p e : NoDup (primary <$> db) → e ∈ db → primary e = (m, p) → findStaticWebhook db m p = Some e.
Proof.
  intros Hnd Hin Hp. destruct (findStaticWebhook db m p) as [e'|] eqn:H.
  - apply findStatic_row in H as [Hin' Hp']. f_equal. apply (key_unique db); [done..|by rewrite Hp].
  - unfold findStaticWebhook in H. destruct (list_find _ db) as [x|] eqn:Hf; [done|]. apply list_find_None in Hf.
    rewrite Forall_forall in Hf. by destruct (Hf e Hin).
Qed.

Lemma agrees_step s ev : agrees s → told s ev → agrees (service_next s ev).
Proof.
  intros Hs Ht. pose proof (agrees_keys s Hs) as Hnd. destruct ev as [e ok|w ok| |m p ok|i ok|key]; cbn [service_next told] in *.
  - destruct Ht as [-> Hset]. constructor; cbn; [by apply upsert_primary|]. intros m p e' Hp. rewrite Hset.
    intros [Hc|Hin]; [|by apply not_elem_of_nil in Hin]. destruct (decide (cacheKey e = (m, p))) as [Hk|Hk].
    + rewrite Hk, jm_get_set in Hc. injection Hc as <-. split; [apply upsert_elem|by apply cacheKey_static].
    + rewrite jm_get_set_ne in Hc by done. destruct (agrees_cached s (m, p) e' Hs Hp Hc) as [Hin Hp']. split; [|done].
      apply upsert_other; [done|]. intros Heq. apply Hk. apply primary_static; [|done]. by rewrite <- Heq.
  - destruct Ht as [-> Hset]. unfold deleteWorkflowWebhooks, deleteWebhooks. set (rows := filter _ (table s)). constructor; cbn.
    + eapply sublist_NoDup; [exact Hnd|]. apply fmap_sublist, sublist_filter.
    + intros m p e' Hp. rewrite Hset. intros [[Hc Hk]%deleted_keys|Hin]; [|by apply not_elem_of_nil in Hin].
      destruct (agrees_cached s (m, p) e' Hs Hp Hc) as [Hin Hp']. split; [|done]. apply list_elem_of_filter. split; [|done].
      intros (r & Hr & Hin')%list_elem_of_fmap. apply list_elem_of_filter in Hin' as Hr'. destruct Hr' as [_ Hr'].
      assert (e' = r) as <- by by apply (key_unique (table s)). apply Hk, list_elem_of_fmap. exists e'. split; [|done].
      symmetry. by apply primary_static.
  - constructor; [done|]. cbn. intros m p e Hp [Hc|Hin]; [by apply (agrees_cached s (m, p))|].
    apply elem_of_app in Hin as [Hin|Hin]; [by apply (agrees_setting s (m, p))|].
    apply list_elem_of_fmap in Hin as (e' & [Hk ->]%pair_equal_spec & Hin). apply list_elem_of_filter in Hin as [_ Hin]. split; [done|].
    by apply cacheKey_static.
  - unfold findCached. destruct (if ok then _ else None); [done|]. destruct (findStaticWebhook (table s) m p) as [e|] eqn:Hf; [|done].
    apply findStatic_row in Hf as [Hin Hp]. constructor; [done|]. cbn. intros m' p' e' Hp' [Hc|Hs'%elem_of_app]; [by apply (agrees_cached s (m', p'))|].
    destruct Hs' as [Hs'|[= -> -> ->]%list_elem_of_singleton]; [by apply (agrees_setting s (m', p'))|exact (conj Hin Hp)].
  - destruct (setting s !! i) as [[key e]|] eqn:Hi; [|done]. pose proof (list_elem_of_lookup_2 _ _ _ Hi) as Hin.
    assert (Hrest : ∀ x, x ∈ splice1 (setting s) i → x ∈ setting s) by (intros x Hx; rewrite (splice1_perm _ _ _ Hi); apply elem_of_cons; by right).
    destruct ok; [apply agrees_set; [done| |done]; intros Hp; by apply agrees_setting|].
    constructor; [done|]. intros m p e' Hp [Hc|Hin'%Hrest]; [by apply (agrees_cached s (m, p))|by apply (agrees_setting s (m, p))].
  - constructor; [done|]. cbn. intros m p e Hp [Hc|Hin]; [|by apply (agrees_setting s (m, p))].
    destruct (decide (key = (m, p))) as [->|Hne]; [by rewrite jm_get_del in Hc|]. rewrite jm_get_del_ne in Hc by done.
    by apply (agrees_cached s (m, p)).
Qed.

Lemma in_step_agrees s : in_step s → agrees s.
Proof. induction 1 as [|s ev _ IH Ht]; [|by apply agrees_step]. constructor; [by constructor|]. by intros m p e _ [|?%not_elem_of_nil]. Qed.

(** The cache does not change what is found.  If the cache is told of every change of
    the table, and no key is being set while the table changes, then a lookup of a path
    without a colon gives what the table gives, whether the cache answers or fails. *)
Theorem cached_lookup_exact s m path ok :
  in_step s → includes ":" path = false → (findCached s m path ok).2 = find_in_db (table s) m path.
Proof.
  intros Hs Hp. apply in_step_agrees in Hs. unfold findCached, find_in_db.
  destruct (if ok then jm_get (cache s) (m, path) else None) as [e|] eqn:Hc.
  - destruct ok; [|done]. destruct (agrees_cached s (m, path) e Hs Hp Hc) as [Hin Hpe].
    by rewrite (findStatic_found _ _ _ _ (agrees_keys s Hs) Hin Hpe).
  - by destruct (findStaticWebhook (table s) m path).
Qed.

(** * Conflicts *)

Lemma no_conflicts_loop lookup workflow processed webhooks :
  conflicts_loop lookup workflow processed webhooks = [] ↔
  NoDup (webhookToKey <$> webhooks) ∧ (∀ d, d ∈ webhooks → webhookToKey d ∉ jm_keys processed) ∧
  ∀ d e, d ∈ webhooks → lookup (data_method d) (webhookToKey d).2 = Some e → workflowId e = workflow.
Proof.
  revert processed. induction webhooks as [|d webhooks IH]; intros processed; cbn [conflicts_loop fmap list_fmap].
  { split; [|done]. intros _. split_and!; [by constructor|by intros d ?%not_elem_of_nil|by intros d e ?%not_elem_of_nil]. }
  assert (Hrec : jm_get processed (webhookToKey d) = None →
    (∀ e, lookup (data_method d) (webhookToKey d).2 = Some e → workflowId e = workflow) →
    conflicts_loop lookup workflow (jm_set processed (webhookToKey d) d) webhooks = [] ↔
    NoDup (webhookToKey d :: (webhookToKey <$> webhooks)) ∧ (∀ d', d' ∈ d :: webhooks → webhookToKey d' ∉ jm_keys processed) ∧
    ∀ d' e, d' ∈ d :: webhooks → lookup (data_method d') (webhookToKey d').2 = Some e → workflowId e = workflow).
  { intros Hnew Hw. rewrite IH, NoDup_cons. apply jm_get_None in Hnew.
    assert (Hkeys : ∀ k, k ∈ jm_keys (jm_set processed (webhookToKey d) d) ↔ k ∈ jm_keys processed ∨ k = webhookToKey d).
    { intros k. rewrite jm_set_new by by apply jm_get_None. unfold jm_keys. rewrite fmap_app, elem_of_app. cbn.
      by rewrite list_elem_of_singleton. }
    split.
    - intros (H1 & H2 & H3). split_and!; [|done| |].
      + intros (d' & Heq & Hin)%list_elem_of_fmap. apply (H2 d' Hin), Hkeys. by right.
      + intros d' [->|Hin]%elem_of_cons; [done|]. intros Hk. apply (H2 d' Hin), Hkeys. by left.
      + intros d' e [->|Hin]%elem_of_cons; [apply Hw|by apply H3].
    - intros ((H0 & H1) & H2 & H3). split_and!; [done| |].
      + intros d' Hin [Hk| Hk]%Hkeys; [apply (H2 d'); [apply elem_of_cons; by right|done]|].
        apply H0, list_elem_of_fmap. by exists d'.
      + intros d' e Hin. apply H3, elem_of_cons. by right. }
  destruct (jm_get processed (webhookToKey d)) as [c|] eqn:Hc.
  { split; [done|]. intros (_ & H2 & _). destruct (H2 d); [apply elem_of_cons; by left|by eapply jm_get_key]. }
  change (getWebhookPath (data_path d) (data_webhookId d)) with (webhookToKey d).2.
  destruct (lookup (data_method d) (webhookToKey d).2) as [e|] eqn:He; [case_bool_decide as Hw|].
  - apply Hrec; [done|]. by intros e' [= <-].
  - split; [done|]. intros (_ & _ & H3). destruct Hw. by apply (H3 d e); [apply elem_of_cons; left|].
  - by apply Hrec.
Qed.

(** No node has a conflict exactly if the webhooks of the workflow differ in method or path
    and each is answered by the workflow itself or by none. *)
Lemma no_conflicts lookup workflow webhooks :
  findWebhookConflicts lookup workflow webhooks = [] ↔
  NoDup (webhookToKey <$> webhooks) ∧
  ∀ d e, d ∈ webhooks → lookup (data_method d) (webhookToKey d).2 = Some e → workflowId e = workflow.
Proof.
  unfold findWebhookConflicts. rewrite no_conflicts_loop. split; [tauto|]. intros [H1 H2]. split_and!; [done| |done].
  intros d _. apply not_elem_of_nil.
Qed.

(** * Concrete lookups *)

Definition row_users : WebhookEntity := new_webhook "w1" "users/:id" "GET" "Webhook" (Some "u"%string).
Definition row_any : WebhookEntity := new_webhook "w1" ":x/:y" "GET" "Webhook1" (Some "u"%string).
Definition row_posts : WebhookEntity := new_webhook "w2" ":id/posts" "GET" "Webhook" (Some "u"%string).
Definition row_orders : WebhookEntity := new_webhook "w3" "orders" "POST" "Webhook" (Some "v"%string).
Definition row_colon : WebhookEntity := new_webhook "w4" "a:b" "GET" "Webhook" (Some "v"%string).

Lemma findDynamicWebhook_spec_witness :
  let candidates := filter (λ e, dynamic_candidate (Some "GET"%string) "u" (length ["users"; "7"]%string) e = true) [row_any; row_users] in
  match findDynamicWebhook [row_any; row_users] "u/users/7" (Some "GET"%string) with
  | None => ∀ e, e ∈ candidates → ¬ staticSegments e ⊆ ["users"; "7"]%string
  | Some e => ∃ before after, candidates = before ++ e :: after ∧ staticSegments e ⊆ ["users"; "7"]%string ∧
      (∀ e', e' ∈ before → staticSegments e' ⊆ ["users"; "7"]%string → length (staticSegments e') < length (staticSegments e)) ∧
      (∀ e', e' ∈ after → staticSegments e' ⊆ ["users"; "7"]%string → length (staticSegments e') ≤ length (staticSegments e))
  end.
Proof. apply (findDynamicWebhook_spec [row_any; row_users] "u/users/7" (Some "GET"%string) "u" ["users"; "7"]%string). reflexivity. Defined.

Example users_found : findDynamicWebhook [row_any; row_users] "u/users/7" (Some "GET"%string) = Some row_users.
Proof. reflexivity. Qed.

Lemma stored_route_answers_witness :
  let e := new_webhook "w1" "users/:id" "GET" "Webhook" (Some "u"%string) in
  let request := request_path "u" (λ _, "7"%string) "users/:id" in
  (∃ e', findDynamicWebhook (table (storeWebhook (mkService [row_any] [] []) e true)) request (Some "GET"%string) = Some e' ∧
     length (staticSegments e) ≤ length (staticSegments e')) ∧
  isDynamic e = true ∧
  ∀ name, jm_get (request_params e request) name =
    if decide (Some name ∈ dynamic_name <$> split_path "users/:id") then Some (Some "7"%string) else None.
Proof.
  apply (stored_route_answers (mkService [row_any] [] []) "w1" "users/:id" "GET" "Webhook" "u" (λ _, "7"%string) true);
    [reflexivity|discriminate|reflexivity|intros; reflexivity].
Defined.

Definition sample_lookups : Service :=
  service_next (service_next (service_next (mkService [] [] []) (Store row_orders true)) (Store row_users true)) (Find "POST" "orders" false).

Lemma cached_lookup_exact_witness :
  (findCached sample_lookups "POST" "orders" true).2 = find_in_db (table sample_lookups) "POST" "orders".
Proof.
  apply (cached_lookup_exact sample_lookups "POST" "orders" true); [|reflexivity].
  unfold sample_lookups. repeat (apply in_step_next; [|first [exact I|split; reflexivity]]). apply in_step_init.
Defined.

(** Static segments are looked for anywhere in the path: the request is not of the form of
    the webhook that answers it. *)
Example segment_order_ignored :
  findDynamicWebhook [row_posts] "u/posts/7" (Some "GET"%string) = Some row_posts ∧
  request_params row_posts "u/posts/7" = [("id"%string, Some "posts"%string)].
Proof. done. Qed.

(** A static path with a colon: the key that is deleted is not the key that was set, and the
    webhook is found after its workflow was deactivated. *)
Example colon_survives_delete :
  let s := foldl service_next (mkService [] [] [])
    [Store row_colon true; Find "GET" "a:b" true; SetDone 0 true; DeleteWorkflow "w4" true] in
  table s = [] ∧ (findCached s "GET" "a:b" true).2 = Some row_colon.
Proof. done. Qed.

(** The cache is set after the rows were deleted. *)
Example late_set_survives_delete :
  let s := foldl service_next (mkService [] [] [])
    [Store row_orders false; Find "POST" "orders" true; DeleteWorkflow "w3" true; SetDone 0 true] in
  table s = [] ∧ (findCached s "POST" "orders" true).2 = Some row_orders.
Proof. done. Qed.

(** A dynamic path with two methods: one is named. *)
Example one_method_of_dynamic_path :
  getWebhookMethods [row_users; new_webhook "w1" "users/:id" "POST" "Webhook2" (Some "u"%string)] "u/users/7" = ["GET"%string].
Proof. reflexivity. Qed.
