(* ===== verification/QueueRecovery.v ===== *)
(** QueueRecovery: executions whose job was lost.

    packages/cli/src/scaling/scaling.service.ts: [recoverFromQueue] and its schedule, and
    the markings of executions in packages/@n8n/db (execution.repository.ts).  A cycle of
    recovery is a process between three awaits: the query for executions in progress, the
    list of jobs, the update.  What the other processes do to executions and jobs are
    events; which executions in progress a query gives is the choice of the database.  The
    update marks the executions in batches, one after the other; here it is one event. *)

From Stdlib Require Import ZArith Lia.
From stdpp Require Import prelude list strings.
From S2P Require Import Prelude.

Inductive ExecutionStatus := New | Running | Finished | Crashed.

#[export] Instance status_eq_dec : EqDecision ExecutionStatus.
Proof. solve_decision. Defined.

Definition in_progress (st : ExecutionStatus) : bool := match st with New | Running => true | _ => false end.

(** What a cycle waits for: the stored ids, the jobs, the update. *)
Inductive Cycle :=
| ReadingStored
| ReadingJobs (storedIds : list string)
| Marking (danglingIds : list string) (nextWaitMs : Z).

(** [jobs]: the executions with an active or a waiting job.  [lost]: the executions whose
    job was lost. *)
Record Recovery := mkRecovery {
  executions : jmap string ExecutionStatus;
  jobs : list string;
  lost : list string;
  timers : jmap nat Z;
  timeout : option nat;
  cycles : jmap nat Cycle;
  nextId : nat;
}.

Section Recovery.
Context (batchSize : nat) (waitMs : Z).

Definition getInProgressExecutionIds (s : Recovery) (ids : list string) : bool :=
  bool_decide (NoDup ids) &&
  forallb (λ id, match jm_get (executions s) id with Some st => in_progress st | None => false end) ids &&
  (length ids =? Nat.min batchSize (length (filter (λ p, in_progress p.2) (executions s)))).

Definition markAsCrashed (m : jmap string ExecutionStatus) (ids : list string) : jmap string ExecutionStatus :=
  foldl (λ m id, if jm_has m id then jm_set m id Crashed else m) m ids.

Definition scheduleQueueRecovery (s : Recovery) (wait : Z) : Recovery :=
  mkRecovery (executions s) (jobs s) (lost s) (jm_set (timers s) (nextId s) wait) (Some (nextId s)) (cycles s) (S (nextId s)).

(** The handle stays. *)
Definition stopQueueRecovery (s : Recovery) : Recovery :=
  match timeout s with
  | None => s
  | Some t => mkRecovery (executions s) (jobs s) (lost s) (jm_del (timers s) t) (timeout s) (cycles s) (nextId s)
  end.

Definition with_cycles (s : Recovery) c : Recovery :=
  mkRecovery (executions s) (jobs s) (lost s) (timers s) (timeout s) c (nextId s).
Definition with_executions (s : Recovery) e : Recovery :=
  mkRecovery e (jobs s) (lost s) (timers s) (timeout s) (cycles s) (nextId s).
Definition with_jobs (s : Recovery) j : Recovery :=
  mkRecovery (executions s) j (lost s) (timers s) (timeout s) (cycles s) (nextId s).

(** The cycle is over. *)
Definition next_cycle (s : Recovery) (p : nat) (wait : Z) : Recovery :=
  scheduleQueueRecovery (with_cycles s (jm_del (cycles s) p)) wait.

Definition read_stored (s : Recovery) (p : nat) (storedIds : list string) : Recovery :=
  match storedIds with
  | [] => next_cycle s p waitMs
  | _ => with_cycles s (jm_set (cycles s) p (ReadingJobs storedIds))
  end.

Definition read_jobs (s : Recovery) (p : nat) (storedIds : list string) : Recovery :=
  match filter (λ id, id ∉ jobs s) storedIds with
  | [] => next_cycle s p waitMs
  | danglingIds =>
      with_cycles s (jm_set (cycles s) p (Marking danglingIds (if batchSize <=? length storedIds then (waitMs / 2)%Z else waitMs)))
  end.

(** [Start]: a worker takes the job; a crashed execution is not run.  [Finish]: it stores the
    result; [JobDone]: then the job is done.  [Lose]: the job fails with its worker. *)
Inductive RecoveryEvent :=
| Create (id : string)
| Enqueue (id : string)
| Start (id : string)
| Finish (id : string)
| JobDone (id : string)
| Lose (id : string)
| TimerFires (t : nat)
| StoredRead (p : nat) (ids : list string)
| JobsRead (p : nat)
| Marked (p : nat)
| CycleFails (p : nat)
| LeaderTakeover
| LeaderStepdown.

Definition recovery_next (s : Recovery) (e : RecoveryEvent) : option Recovery :=
  match e with
  | Create id => if jm_has (executions s) id then None else Some (with_executions s (jm_set (executions s) id New))
  | Enqueue id =>
      if jm_has (executions s) id && negb (bool_decide (id ∈ jobs s)) then Some (with_jobs s (jobs s ++ [id])) else None
  | Start id =>
      st ← jm_get (executions s) id;
      if bool_decide (id ∈ jobs s) then
        Some (if bool_decide (st = Crashed) then with_jobs s (js_del (jobs s) id) else with_executions s (jm_set (executions s) id Running))
      else None
  | Finish id =>
      if jm_has (executions s) id && bool_decide (id ∈ jobs s) then Some (with_executions s (jm_set (executions s) id Finished)) else None
  | JobDone id =>
      st ← jm_get (executions s) id;
      if bool_decide (id ∈ jobs s) && negb (in_progress st) then Some (with_jobs s (js_del (jobs s) id)) else None
  | Lose id =>
      if bool_decide (id ∈ jobs s)
      then Some (mkRecovery (executions s) (js_del (jobs s) id) (id :: lost s) (timers s) (timeout s) (cycles s) (nextId s)) else None
  | TimerFires t =>
      _ ← jm_get (timers s) t;
      Some (mkRecovery (executions s) (jobs s) (lost s) (jm_del (timers s) t) (timeout s)
        (jm_set (cycles s) (nextId s) ReadingStored) (S (nextId s)))
  | StoredRead p ids =>
      match jm_get (cycles s) p with
      | Some ReadingStored => if getInProgressExecutionIds s ids then Some (read_stored s p ids) else None
      | _ => None
      end
  | JobsRead p => match jm_get (cycles s) p with Some (ReadingJobs ids) => Some (read_jobs s p ids) | _ => None end
  | Marked p =>
      match jm_get (cycles s) p with
      | Some (Marking ids wait) => Some (next_cycle (with_executions s (markAsCrashed (executions s) ids)) p wait)
      | _ => None
      end
  | CycleFails p => _ ← jm_get (cycles s) p; Some (next_cycle s p waitMs)
  | LeaderTakeover => Some (scheduleQueueRecovery s waitMs)
  | LeaderStepdown => Some (stopQueueRecovery s)
  end.

Definition no_recovery : Recovery := mkRecovery [] [] [] [] None [] 0.

Fixpoint recovery_run (s : Recovery) (es : list RecoveryEvent) : option Recovery :=
  match es with
  | [] => Some s
  | e :: es => s ← recovery_next s e; recovery_run s es
  end.

(** * Only lost executions are marked *)

Definition has_job_or_lost (s : Recovery) (id : string) : Prop := id ∈ jobs s ∨ id ∈ lost s.

(** The executions a cycle may mark. *)
Definition held (c : Cycle) : list string := match c with ReadingJobs ids | Marking ids _ => ids | ReadingStored => [] end.

(** A query for executions does not fall between the storing of an execution and its
    enqueueing, and no job ends during a cycle that read its execution before. *)
Definition orderly (s : Recovery) (e : RecoveryEvent) : Prop :=
  match e with
  | StoredRead _ _ => ∀ id, jm_get (executions s) id = Some New → has_job_or_lost s id
  | JobDone id => ∀ p c, jm_get (cycles s) p = Some c → id ∉ held c
  | _ => True
  end.

Inductive orderly_run : Recovery → Prop :=
| orderly_init : orderly_run no_recovery
| orderly_step s e s' : orderly_run s → orderly s e → recovery_next s e = Some s' → orderly_run s'.

Record recovery_ok (s : Recovery) : Prop := {
  ok_running id : jm_get (executions s) id = Some Running → has_job_or_lost s id;
  ok_reading p ids id : jm_get (cycles s) p = Some (ReadingJobs ids) → id ∈ ids → has_job_or_lost s id;
  ok_marking p ids w id : jm_get (cycles s) p = Some (Marking ids w) → id ∈ ids → id ∈ lost s;
  ok_crashed id : jm_get (executions s) id = Some Crashed → id ∈ lost s;
}.

Lemma ok_same s s' :
  executions s' = executions s → jobs s' = jobs s → lost s' = lost s → (∀ p c, jm_get (cycles s') p = Some c → jm_get (cycles s) p = Some c ∨ held c = []) →
  recovery_ok s → recovery_ok s'.
Proof.
  intros He Hj Hl Hc [H1 H2 H3 H4]. unfold has_job_or_lost in *. constructor; unfold has_job_or_lost; rewrite ?He, ?Hj, ?Hl; try done.
  - intros p ids id Hp Hin. destruct (Hc _ _ Hp) as [Hp'|Hh]; [by eapply H2|]. cbn in Hh. subst ids. by apply not_elem_of_nil in Hin.
  - intros p ids w id Hp Hin. destruct (Hc _ _ Hp) as [Hp'|Hh]; [by eapply H3|]. cbn in Hh. subst ids. by apply not_elem_of_nil in Hin.
Qed.

Lemma next_cycle_ok s p wait : recovery_ok s → recovery_ok (next_cycle s p wait).
Proof.
  apply ok_same; try done. cbn. intros p' c. destruct (decide (p = p')) as [<-|Hne]; [by rewrite jm_get_del|].
  rewrite jm_get_del_ne by done. by left.
Qed.

Lemma markAsCrashed_get m ids id :
  jm_get (markAsCrashed m ids) id = if decide (id ∈ ids) then (match jm_get m id with Some _ => Some Crashed | None => None end) else jm_get m id.
Proof.
  revert m. induction ids as [|i ids IH]; intros m; cbn [markAsCrashed foldl]; [by rewrite decide_False by apply not_elem_of_nil|].
  fold (markAsCrashed (if jm_has m i then jm_set m i Crashed else m) ids). rewrite IH. unfold jm_has.
  assert (Hi : jm_get (if match jm_get m i with Some _ => true | None => false end then jm_set m i Crashed else m) id =
    if decide (id = i) then (match jm_get m id with Some _ => Some Crashed | None => None end) else jm_get m id).
  { destruct (decide (id = i)) as [->|Hne]; destruct (jm_get m i) eqn:Hm; rewrite ?jm_get_set, ?jm_get_set_ne by done; try done. }
  rewrite Hi. destruct (decide (id ∈ ids)) as [Hin|Hin].
  - rewrite (decide_True (P := id ∈ i :: ids)) by (apply elem_of_cons; by right). case_decide; [by destruct (jm_get m id)|done].
  - destruct (decide (id = i)) as [->|Hne].
    + by rewrite decide_True by (apply elem_of_cons; by left).
    + rewrite decide_False; [done|]. by intros [?|?]%elem_of_cons.
Qed.

Lemma set_cycle_ok s p c :
  recovery_ok s →
  match c with
  | ReadingJobs ids => ∀ id, id ∈ ids → has_job_or_lost s id
  | Marking ids _ => ∀ id, id ∈ ids → id ∈ lost s
  | ReadingStored => True
  end → recovery_ok (with_cycles s (jm_set (cycles s) p c)).
Proof.
  intros [H1 H2 H3 H4] Hc. constructor; try done; cbn.
  - intros p' ids id. destruct (decide (p = p')) as [<-|Hne]; [rewrite jm_get_set; intros [= ->]; apply Hc|].
    rewrite jm_get_set_ne by done. apply H2.
  - intros p' ids w id. destruct (decide (p = p')) as [<-|Hne]; [rewrite jm_get_set; intros [= ->]; apply Hc|].
    rewrite jm_get_set_ne by done. apply H3.
Qed.

Lemma set_status_ok s id st :
  recovery_ok s → (st = Running → has_job_or_lost s id) → st ≠ Crashed → recovery_ok (with_executions s (jm_set (executions s) id st)).
Proof.
  intros [H1 H2 H3 H4] Hr Hc. constructor; try done; cbn; intros id'.
  - destruct (decide (id = id')) as [<-|Hne]; [rewrite jm_get_set; intros [= ->]; by apply Hr|]. rewrite jm_get_set_ne by done. apply H1.
  - destruct (decide (id = id')) as [<-|Hne]; [rewrite jm_get_set; by intros [= ->]|]. rewrite jm_get_set_ne by done. apply H4.
Qed.

(** The job of an execution that needs none ends. *)
Lemma drop_job_ok s id :
  recovery_ok s → (jm_get (executions s) id = Some Running → id ∈ lost s) →
  (∀ p c, jm_get (cycles s) p = Some c → id ∈ held c → id ∈ lost s) → recovery_ok (with_jobs s (js_del (jobs s) id)).
Proof.
  intros [H1 H2 H3 H4] Hr Hc.
  assert (Hkeep : ∀ id', has_job_or_lost s id' → (id' = id → id' ∈ lost s) → has_job_or_lost (with_jobs s (js_del (jobs s) id)) id').
  { intros id' [Hj|Hl] Hne; [|by right]. destruct (decide (id' = id)) as [->|Hn]; [right; by apply Hne|]. left. by apply js_del_elem. }
  constructor; try done.
  - intros id' He. apply Hkeep; [by apply H1|]. intros ->. by apply Hr.
  - intros p ids id' Hp Hin. apply Hkeep; [by eapply H2|]. intros ->. by apply (Hc p (ReadingJobs ids)).
Qed.

Lemma recovery_step s e s' : recovery_ok s → orderly s e → recovery_next s e = Some s' → recovery_ok s'.
Proof.
  intros Hs Ho Hn. destruct e as [id|id|id|id|id|id|t|p ids|p|p|p| |]; cbn [recovery_next orderly] in *.
  - destruct (jm_has _ id); [done|]. injection Hn as <-. by apply set_status_ok.
  - destruct (jm_has _ id && _); [|done]. injection Hn as <-. destruct Hs as [H1 H2 H3 H4].
    assert (Hk : ∀ id', has_job_or_lost s id' → has_job_or_lost (with_jobs s (jobs s ++ [id])) id').
    { intros id' [?|?]; [left; apply elem_of_app; by left|by right]. }
    constructor; try done; [intros id' He; by apply Hk, H1|intros p ids id' Hp Hin; by eapply Hk, H2].
  - destruct (jm_get (executions s) id) as [st|] eqn:He; [|done]. cbn in Hn. case_bool_decide as Hj; [|done]. injection Hn as <-.
    case_bool_decide as Hst; [|apply set_status_ok; [done|by left|done]]. subst st. pose proof (ok_crashed s Hs id He) as Hl.
    by apply drop_job_ok.
  - destruct (jm_has _ id && _); [|done]. injection Hn as <-. by apply set_status_ok.
  - destruct (jm_get (executions s) id) as [st|] eqn:He; [|done]. cbn in Hn. destruct (bool_decide _ && _) eqn:Hb; [|done].
    injection Hn as <-. apply andb_true_iff in Hb as [_ Hst]. apply drop_job_ok; [done| |].
    + rewrite He. intros [= ->]. done.
    + intros p c Hp Hin. by destruct (Ho p c Hp).
  - case_bool_decide as Hj; [|done]. injection Hn as <-. destruct Hs as [H1 H2 H3 H4].
    assert (Hk : ∀ id', has_job_or_lost s id' → id' ∈ js_del (jobs s) id ∨ id' ∈ id :: lost s).
    { intros id' [?|?]; [|right; apply elem_of_cons; by right]. destruct (decide (id' = id)) as [->|Hne]; [right; apply elem_of_cons; by left|].
      left. by apply js_del_elem. }
    constructor; cbn.
    + intros id' He. by apply Hk, H1.
    + intros p ids id' Hp Hin. by eapply Hk, H2.
    + intros p ids w id' Hp Hin. apply elem_of_cons. right. by eapply H3.
    + intros id' He. apply elem_of_cons. right. by apply H4.
  - destruct (jm_get (timers s) t); [|done]. cbn in Hn. injection Hn as <-. revert Hs. apply ok_same; try done. cbn. intros p c.
    destruct (decide (nextId s = p)) as [<-|Hne]; [rewrite jm_get_set; intros [= <-]; by right|]. rewrite jm_get_set_ne by done. by left.
  - destruct (jm_get (cycles s) p) as [[| |]|] eqn:Hp; [|done..]. destruct (getInProgressExecutionIds s ids) eqn:Hids; [|done].
    injection Hn as <-. unfold read_stored. destruct ids as [|i ids]; [by apply next_cycle_ok|]. apply set_cycle_ok; [done|].
    unfold getInProgressExecutionIds in Hids. rewrite !andb_true_iff in Hids. destruct Hids as [[_ Hin] _].
    rewrite forallb_forall in Hin. intros id Hid%list_elem_of_In. specialize (Hin id Hid).
    destruct (jm_get (executions s) id) as [[]|] eqn:He; [by apply Ho|by apply (ok_running s Hs)|done..].
  - destruct (jm_get (cycles s) p) as [[|ids|]|] eqn:Hp; [done| |done..]. injection Hn as <-. unfold read_jobs.
    assert (Hl : ∀ id, id ∈ filter (λ id, id ∉ jobs s) ids → id ∈ lost s).
    { intros id [Hnj Hin]%list_elem_of_filter. by destruct (ok_reading s Hs p ids id Hp Hin). }
    destruct (filter _ ids); [by apply next_cycle_ok|by apply set_cycle_ok].
  - destruct (jm_get (cycles s) p) as [[| |ids w]|] eqn:Hp; [done..| |done]. injection Hn as <-. apply next_cycle_ok.
    pose proof Hs as [H1 H2 H3 H4]. constructor; try done; cbn; intros id; rewrite markAsCrashed_get.
    + case_decide; [by destruct (jm_get _ id)|apply H1].
    + case_decide; [intros _; by eapply H3|apply H4].
  - destruct (jm_get (cycles s) p); [|done]. cbn in Hn. injection Hn as <-. by apply next_cycle_ok.
  - injection Hn as <-. revert Hs. by apply ok_same; [..|left].
  - injection Hn as <-. unfold stopQueueRecovery. destruct (timeout s); [|done]. revert Hs. by apply ok_same; [..|left].
Qed.

(** C18: the recovery marks an execution as crashed only if its job was lost, when every
    execution that is stored is also enqueued before the next query for executions, and no
    job ends between that query and the update of a cycle that read its execution. *)
Theorem only_lost_executions_crash s id :
  orderly_run s → jm_get (executions s) id = Some Crashed → id ∈ lost s.
Proof.
  intros Hs. apply ok_crashed. induction Hs as [|s e s' _ IH Ho Hn]; [by constructor|by eapply recovery_step].
Qed.

(** * A lost execution is marked *)

Definition fresh_cycles (s : Recovery) : Prop := ∀ p c, jm_get (cycles s) p = Some c → p < nextId s.

Definition touches (p : nat) (e : RecoveryEvent) : Prop :=
  match e with StoredRead p' _ | JobsRead p' | Marked p' | CycleFails p' => p' = p | _ => False end.

(** What an event does to the cycles. *)
Inductive cycle_change (s s' : Recovery) (e : RecoveryEvent) : Prop :=
| same_cycles : cycles s' = cycles s → nextId s ≤ nextId s' → cycle_change s s' e
| new_cycle : cycles s' = jm_set (cycles s) (nextId s) ReadingStored → nextId s' = S (nextId s) → cycle_change s s' e
| set_cycle p c c' : jm_get (cycles s) p = Some c → touches p e → cycles s' = jm_set (cycles s) p c' → nextId s' = nextId s → cycle_change s s' e
| end_cycle p c : jm_get (cycles s) p = Some c → touches p e → cycles s' = jm_del (cycles s) p → nextId s ≤ nextId s' → cycle_change s s' e.

Lemma recovery_cycles s e s' : recovery_next s e = Some s' → cycle_change s s' e.
Proof.
  intros Hn. destruct e as [id|id|id|id|id|id|t|p ids|p|p|p| |]; cbn [recovery_next] in *.
  - destruct (jm_has _ id); [done|]. injection Hn as <-. by apply same_cycles.
  - destruct (jm_has _ id && _); [|done]. injection Hn as <-. by apply same_cycles.
  - destruct (jm_get (executions s) id); [|done]. cbn in Hn. case_bool_decide; [|done]. injection Hn as <-.
    case_bool_decide; by apply same_cycles.
  - destruct (jm_has _ id && _); [|done]. injection Hn as <-. by apply same_cycles.
  - destruct (jm_get (executions s) id); [|done]. cbn in Hn. destruct (bool_decide _ && _); [|done]. injection Hn as <-. by apply same_cycles.
  - case_bool_decide; [|done]. injection Hn as <-. by apply same_cycles.
  - destruct (jm_get (timers s) t); [|done]. cbn in Hn. injection Hn as <-. by apply new_cycle.
  - destruct (jm_get (cycles s) p) as [[| |]|] eqn:Hp; [|done..]. destruct (getInProgressExecutionIds s ids); [|done].
    injection Hn as <-. destruct ids; [eapply end_cycle|eapply set_cycle]; try done. cbn. lia.
  - destruct (jm_get (cycles s) p) as [[|ids|]|] eqn:Hp; [done| |done..]. injection Hn as <-. unfold read_jobs.
    destruct (filter _ ids); [eapply end_cycle|eapply set_cycle]; try done. cbn. lia.
  - destruct (jm_get (cycles s) p) as [[| |ids w]|] eqn:Hp; [done..| |done]. injection Hn as <-. eapply end_cycle; try done. cbn. lia.
  - destruct (jm_get (cycles s) p) eqn:Hp; [|done]. cbn in Hn. injection Hn as <-. eapply end_cycle; try done. cbn. lia.
  - injection Hn as <-. apply same_cycles; [done|cbn; lia].
  - injection Hn as <-. unfold stopQueueRecovery. destruct (timeout s); by apply same_cycles.
Qed.

Lemma fresh_step s e s' : fresh_cycles s → recovery_next s e = Some s' → fresh_cycles s'.
Proof.
  intros Hf [Hc Hn|Hc Hn|p c c' Hp _ Hc Hn|p c Hp _ Hc Hn]%recovery_cycles p' x; rewrite Hc.
  - intros H%Hf. lia.
  - destruct (decide (nextId s = p')) as [<-|Hne]; [lia|]. rewrite jm_get_set_ne by done. intros H%Hf. lia.
  - destruct (decide (p = p')) as [<-|Hne]; [apply Hf in Hp; lia|]. rewrite jm_get_set_ne by done. intros H%Hf. lia.
  - destruct (decide (p = p')) as [<-|Hne]; [by rewrite jm_get_del|]. rewrite jm_get_del_ne by done. intros H%Hf. lia.
Qed.

Lemma cycle_kept s e s' p c :
  fresh_cycles s → ¬ touches p e → recovery_next s e = Some s' → jm_get (cycles s) p = Some c → jm_get (cycles s') p = Some c.
Proof.
  intros Hf Ht [Hc Hn|Hc Hn|p' c1 c' Hp Ht' Hc Hn|p' c1 Hp Ht' Hc Hn]%recovery_cycles Hg; rewrite Hc.
  - done.
  - rewrite jm_get_set_ne; [done|]. apply Hf in Hg. lia.
  - rewrite jm_get_set_ne; [done|]. by intros ->.
  - rewrite jm_get_del_ne; [done|]. by intros ->.
Qed.

Lemma stays_stored s e s' id : recovery_next s e = Some s' → jm_has (executions s) id = true → jm_has (executions s') id = true.
Proof.
  intros Hn Hh. assert (Hset : ∀ id' st, jm_has (jm_set (executions s) id' st) id = true).
  { intros id' st. unfold jm_has. destruct (decide (id' = id)) as [->|Hne]; [by rewrite jm_get_set|]. by rewrite jm_get_set_ne. }
  destruct e as [id'|id'|id'|id'|id'|id'|t|p ids|p|p|p| |]; cbn [recovery_next] in Hn.
  - destruct (jm_has _ id'); [done|]. injection Hn as <-. apply Hset.
  - destruct (jm_has _ id' && _); [|done]. by injection Hn as <-.
  - destruct (jm_get (executions s) id'); [|done]. cbn in Hn. case_bool_decide; [|done]. injection Hn as <-. case_bool_decide; [done|apply Hset].
  - destruct (jm_has _ id' && _); [|done]. injection Hn as <-. apply Hset.
  - destruct (jm_get (executions s) id'); [|done]. cbn in Hn. destruct (bool_decide _ && _); [|done]. by injection Hn as <-.
  - case_bool_decide; [|done]. by injection Hn as <-.
  - destruct (jm_get (timers s) t); [|done]. cbn in Hn. by injection Hn as <-.
  - destruct (jm_get (cycles s) p) as [[| |]|]; [|done..]. destruct (getInProgressExecutionIds s ids); [|done].
    injection Hn as <-. by destruct ids.
  - destruct (jm_get (cycles s) p) as [[|ids|]|]; [done| |done..]. injection Hn as <-. unfold read_jobs. by destruct (filter _ ids).
  - destruct (jm_get (cycles s) p) as [[| |ids w]|]; [done..| |done]. injection Hn as <-. unfold jm_has in *. cbn.
    rewrite markAsCrashed_get. case_decide; [|done]. by destruct (jm_get (executions s) id).
  - destruct (jm_get (cycles s) p); [|done]. cbn in Hn. by injection Hn as <-.
  - by injection Hn as <-.
  - injection Hn as <-. unfold stopQueueRecovery. by destruct (timeout s).
Qed.

Lemma stays_without_job s e s' id : recovery_next s e = Some s' → e ≠ Enqueue id → id ∉ jobs s → id ∉ jobs s'.
Proof.
  intros Hn He Hj. assert (Hdel : ∀ id', id ∉ js_del (jobs s) id') by (intros id' [_ ?]%js_del_elem; done).
  destruct e as [id'|id'|id'|id'|id'|id'|t|p ids|p|p|p| |]; cbn [recovery_next] in Hn.
  - destruct (jm_has _ id'); [done|]. by injection Hn as <-.
  - destruct (jm_has _ id' && _); [|done]. injection Hn as <-. cbn. intros [?|Heq%list_elem_of_singleton]%elem_of_app; [done|].
    by subst id'.
  - destruct (jm_get (executions s) id'); [|done]. cbn in Hn. case_bool_decide; [|done]. injection Hn as <-. case_bool_decide; [apply Hdel|done].
  - destruct (jm_has _ id' && _); [|done]. by injection Hn as <-.
  - destruct (jm_get (executions s) id'); [|done]. cbn in Hn. destruct (bool_decide _ && _); [|done]. injection Hn as <-. apply Hdel.
  - case_bool_decide; [|done]. injection Hn as <-. apply Hdel.
  - destruct (jm_get (timers s) t); [|done]. cbn in Hn. by injection Hn as <-.
  - destruct (jm_get (cycles s) p) as [[| |]|]; [|done..]. destruct (getInProgressExecutionIds s ids); [|done].
    injection Hn as <-. by destruct ids.
  - destruct (jm_get (cycles s) p) as [[|ids|]|]; [done| |done..]. injection Hn as <-. unfold read_jobs. by destruct (filter _ ids).
  - destruct (jm_get (cycles s) p) as [[| |ids w]|]; [done..| |done]. by injection Hn as <-.
  - destruct (jm_get (cycles s) p); [|done]. cbn in Hn. by injection Hn as <-.
  - by injection Hn as <-.
  - injection Hn as <-. unfold stopQueueRecovery. by destruct (timeout s).
Qed.

(** A part of a run that leaves the cycle alone. *)
Lemma waits_run s es s' p c id :
  fresh_cycles s → recovery_run s es = Some s' → Forall (λ e, ¬ touches p e ∧ e ≠ Enqueue id) es →
  jm_get (cycles s) p = Some c → id ∉ jobs s → jm_has (executions s) id = true →
  fresh_cycles s' ∧ jm_get (cycles s') p = Some c ∧ id ∉ jobs s' ∧ jm_has (executions s') id = true.
Proof.
  revert s. induction es as [|e es IH]; intros s Hf; cbn [recovery_run]; [by intros [= <-]|].
  destruct (recovery_next s e) as [s1|] eqn:Hn; [|done]. cbn. intros Hr [[Ht He] Hes]%Forall_cons Hp Hj Hh.
  apply (IH s1); [by eapply fresh_step|done|done|by eapply cycle_kept|by eapply stays_without_job|by eapply stays_stored].
Qed.

Lemma recovery_run_app s es es' : recovery_run s (es ++ es') = s' ← recovery_run s es; recovery_run s' es'.
Proof. revert s. induction es as [|e es IH]; intros s; [done|]. cbn [app recovery_run]. destruct (recovery_next s e); [apply IH|done]. Qed.

Lemma run_fresh s es s' : fresh_cycles s → recovery_run s es = Some s' → fresh_cycles s'.
Proof.
  revert s. induction es as [|e es IH]; intros s Hf; cbn [recovery_run]; [by intros [= <-]|].
  destruct (recovery_next s e) as [s1|] eqn:Hn; [|done]. cbn. apply IH. by eapply fresh_step.
Qed.

(** C19: an execution in progress without a job is marked by the cycle that reads it: if the
    query of a cycle gives the execution and it is not enqueued again, then when the cycle
    is through the execution is crashed, whatever happens in between, and the next cycle is
    scheduled. *)
Theorem lost_execution_recovered es0 s p ids es1 es2 s' id :
  recovery_run no_recovery es0 = Some s → id ∈ ids → id ∉ jobs s →
  Forall (λ e, ¬ touches p e ∧ e ≠ Enqueue id) es1 → Forall (λ e, ¬ touches p e ∧ e ≠ Enqueue id) es2 →
  recovery_run s (StoredRead p ids :: es1 ++ JobsRead p :: es2 ++ [Marked p]) = Some s' →
  jm_get (executions s') id = Some Crashed ∧ ∃ t wait, timeout s' = Some t ∧ jm_get (timers s') t = Some wait.
Proof.
  intros Hr0 Hin Hj H1 H2 Hr. assert (Hf : fresh_cycles s) by (eapply run_fresh; [|exact Hr0]; by intros ? ? ?).
  cbn [recovery_run] in Hr. destruct (recovery_next s (StoredRead p ids)) as [sa|] eqn:Ha; [|done]. cbn [mbind option_bind] in Hr.
  pose proof (fresh_step _ _ _ Hf Ha) as Hfa. assert (Hja : id ∉ jobs sa) by (eapply stays_without_job; [exact Ha|discriminate|done]).
  cbn [recovery_next] in Ha. destruct (jm_get (cycles s) p) as [[| |]|] eqn:Hp; [|done..].
  destruct (getInProgressExecutionIds s ids) eqn:Hids; [|done]. injection Ha as <-.
  assert (Hh : jm_has (executions s) id = true).
  { unfold getInProgressExecutionIds in Hids. rewrite !andb_true_iff in Hids. destruct Hids as [[_ Hp'] _].
    rewrite forallb_forall in Hp'. specialize (Hp' id (proj1 (list_elem_of_In _ _) Hin)). unfold jm_has.
    by destruct (jm_get (executions s) id). }
  assert (Hread : read_stored s p ids = with_cycles s (jm_set (cycles s) p (ReadingJobs ids))).
  { destruct ids; [by apply not_elem_of_nil in Hin|done]. }
  rewrite Hread in *. rewrite recovery_run_app in Hr. destruct (recovery_run _ es1) as [sb|] eqn:Hb; [|done]. cbn [mbind option_bind] in Hr.
  destruct (waits_run _ _ _ p (ReadingJobs ids) id Hfa Hb H1) as (Hfb & Hpb & Hjb & Hhb); [cbn; by rewrite jm_get_set|done|done|].
  cbn [recovery_run recovery_next] in Hr. rewrite Hpb in Hr. cbn [mbind option_bind] in Hr.
  assert (Hd : id ∈ filter (λ id, id ∉ jobs sb) ids) by by apply list_elem_of_filter.
  set (dangling := filter (λ id, id ∉ jobs sb) ids) in *. set (wait := if batchSize <=? length ids then (waitMs / 2)%Z else waitMs).
  assert (Hread' : read_jobs sb p ids = with_cycles sb (jm_set (cycles sb) p (Marking dangling wait))).
  { unfold read_jobs. fold dangling. destruct dangling; [by apply not_elem_of_nil in Hd|done]. }
  assert (Hfc : fresh_cycles (read_jobs sb p ids)).
  { apply (fresh_step sb (JobsRead p)); [done|]. cbn. by rewrite Hpb. }
  rewrite Hread' in *. rewrite recovery_run_app in Hr. destruct (recovery_run _ es2) as [sd|] eqn:Hd2; [|done]. cbn [mbind option_bind] in Hr.
  destruct (waits_run _ _ _ p (Marking dangling wait) id Hfc Hd2 H2) as (_ & Hpd & _ & Hhd); [cbn; by rewrite jm_get_set|done|done|].
  cbn [recovery_run recovery_next] in Hr. rewrite Hpd in Hr. injection Hr as <-. split.
  - cbn. rewrite markAsCrashed_get, decide_True by done. unfold jm_has in Hhd. by destruct (jm_get (executions sd) id).
  - exists (nextId sd), wait. split; [done|]. cbn. by rewrite jm_get_set.
Qed.
End Recovery.

(** * Concrete runs *)

Definition recovery_view (s : Recovery) := (executions s, jobs s, jm_keys (timers s), jm_keys (cycles s)).

(** Two executions, one of them lost with its worker. *)
Definition sample_lost : list RecoveryEvent :=
  [LeaderTakeover; Create "a"; Enqueue "a"; Create "b"; Enqueue "b"; Start "a"; Start "b"; Lose "a"; TimerFires 0]%string.
Definition sample_cycle : list RecoveryEvent := [StoredRead 1 ["a"; "b"]; JobsRead 1; Marked 1]%string.

Example sample_recovered :
  recovery_view <$> recovery_run 100 180000 no_recovery (sample_lost ++ sample_cycle)
  = Some ([("a", Crashed); ("b", Running)], ["b"], [2], [])%string.
Proof. reflexivity. Qed.

Lemma orderly_prefix bs w es s : orderly_run bs w s → ∀ s', recovery_run bs w s es = Some s' →
  Forall (λ e, match e with StoredRead _ _ | JobDone _ => False | _ => True end) es → orderly_run bs w s'.
Proof.
  revert s. induction es as [|e es IH]; intros s Hs s' Hr He; [by injection Hr as <-|].
  cbn [recovery_run] in Hr. destruct (recovery_next bs w s e) as [s1|] eqn:Hn; [|done]. apply Forall_cons in He as [H1 H2].
  apply (IH s1); [|done|done]. eapply orderly_step; [exact Hs| |done]. by destruct e.
Qed.

Definition sample_state (es : list RecoveryEvent) : Recovery := default no_recovery (recovery_run 100 180000 no_recovery es).

Lemma sample_orderly : orderly_run 100 180000 (sample_state (sample_lost ++ sample_cycle)).
Proof.
  assert (H0 : orderly_run 100 180000 (sample_state sample_lost)).
  { apply (orderly_prefix 100 180000 sample_lost no_recovery (orderly_init 100 180000)); [vm_compute; reflexivity|].
    repeat (apply Forall_cons; split; [exact I|]). apply Forall_nil_2. }
  assert (H1 : orderly_run 100 180000 (sample_state (sample_lost ++ [StoredRead 1 ["a"; "b"]%string]))).
  { apply (orderly_step 100 180000 _ (StoredRead 1 ["a"; "b"]%string) _ H0); [|vm_compute; reflexivity].
    intros id. vm_compute. by repeat case_match. }
  apply (orderly_prefix 100 180000 [JobsRead 1; Marked 1] _ H1); [vm_compute; reflexivity|].
  repeat (apply Forall_cons; split; [exact I|]). apply Forall_nil_2.
Qed.

Lemma only_lost_executions_crash_witness :
  jm_get (executions (sample_state (sample_lost ++ sample_cycle))) "a"%string = Some Crashed ∧
  "a"%string ∈ lost (sample_state (sample_lost ++ sample_cycle)).
Proof.
  split; [vm_compute; reflexivity|].
  apply (only_lost_executions_crash 100 180000 (sample_state (sample_lost ++ sample_cycle)) "a"%string sample_orderly).
  vm_compute. reflexivity.
Defined.

Lemma lost_execution_recovered_witness :
  ∃ s', recovery_run 100 180000 (default no_recovery (recovery_run 100 180000 no_recovery sample_lost))
      (StoredRead 1 ["a"; "b"]%string :: [] ++ JobsRead 1 :: [Finish "b"]%string ++ [Marked 1]) = Some s' ∧
  jm_get (executions s') "a"%string = Some Crashed ∧ ∃ t wait, timeout s' = Some t ∧ jm_get (timers s') t = Some wait.
Proof.
  eexists. split; [vm_compute; reflexivity|].
  apply (lost_execution_recovered 100 180000 sample_lost
    (default no_recovery (recovery_run 100 180000 no_recovery sample_lost)) 1 ["a"; "b"]%string [] [Finish "b"%string]).
  - vm_compute. reflexivity.
  - apply elem_of_cons. by left.
  - refine (bool_decide_unpack _ _). vm_compute. exact I.
  - apply Forall_nil_2.
  - apply Forall_cons. split; [refine (conj (λ x : False, x) _); discriminate|apply Forall_nil_2].
  - vm_compute. reflexivity.
Defined.

(** An execution that ends between the two queries is marked as crashed. *)
Example finished_execution_crashed :
  recovery_view <$> recovery_run 100 180000 no_recovery
    [LeaderTakeover; Create "a"; Enqueue "a"; Start "a"; TimerFires 0; StoredRead 1 ["a"]; Finish "a"; JobDone "a"; JobsRead 1; Marked 1]%string
  = Some ([("a", Crashed)], [], [2], [])%string.
Proof. reflexivity. Qed.

(** An execution that is stored and not yet enqueued is marked, and is never run. *)
Example unqueued_execution_crashed :
  recovery_view <$> recovery_run 100 180000 no_recovery
    [LeaderTakeover; TimerFires 0; Create "a"; StoredRead 1 ["a"]; JobsRead 1; Enqueue "a"; Marked 1; Start "a"]%string
  = Some ([("a", Crashed)], [], [2], [])%string.
Proof. reflexivity. Qed.

(** A batch of executions that run hides the lost one. *)
Example full_batch_hides_lost :
  recovery_view <$> recovery_run 1 180000 no_recovery
    [LeaderTakeover; Create "a"; Enqueue "a"; Lose "a"; Create "b"; Enqueue "b"; Start "b";
     TimerFires 0; StoredRead 1 ["b"]; JobsRead 1; TimerFires 2; StoredRead 3 ["b"]; JobsRead 3]%string
  = Some ([("a", New); ("b", Running)], ["b"], [4], [])%string.
Proof. reflexivity. Qed.

(** A cycle that is under way at the stepdown schedules the next one, and a takeover starts
    a second chain. *)
Example two_chains :
  recovery_view <$> recovery_run 100 180000 no_recovery
    [LeaderTakeover; TimerFires 0; LeaderStepdown; StoredRead 1 []; LeaderTakeover] = Some ([], [], [2; 3], []).
Proof. reflexivity. Qed.
