(* ===== verification/Deduplication.v ===== *)
(** Deduplication: items that were processed before.

    packages/cli/src/deduplication/deduplication-helper.ts: items are told apart by their
    hash, or by being greater than the greatest one seen, and what was seen is kept in the
    database by workflow and context. *)

From Stdlib Require Import ZArith Lia Sorted.
From stdpp Require Import prelude list strings sorting pretty.
From S2P Require Import Prelude.

Inductive DeduplicationMode := Mode_entries | Mode_latestIncrementalKey | Mode_latestDate.

#[export] Instance mode_eq_dec : EqDecision DeduplicationMode.
Proof. solve_decision. Defined.

Inductive DeduplicationScope := Scope_node | Scope_workflow.

Inductive DeduplicationError :=
| InvalidValue
| MissingNode
| IncompatibleMode
| RemoveInLatestMode
| MissingWorkflowId.

Section Deduplication.
(** [Item]: strings and numbers.  [value_hash]: [createValueHash].  [parse]: the number or
    the date of an item, as its place among all numbers or dates, if it has one. *)
Context {Item : Type} (value_hash : Item → string) (parse : DeduplicationMode → Item → option Z).

(** In the latest modes the value; [None]: none was saved. *)
Inductive ProcessedValue :=
| Entries (data : list string)
| Latest (data : option Item).

Record ProcessedData := mkProcessed {
  processed_mode : DeduplicationMode;
  value : ProcessedValue;
}.

(** The table, by workflow and context. *)
Notation Table := (jmap (string * string) ProcessedData).

Record Output := mkOutput {
  new : list Item;
  processed : list Item;
}.

(** Two dates are different objects: equal ones compare as less. *)
Definition compare_parsed (mode : DeduplicationMode) (a b : Z) : Z :=
  match mode with
  | Mode_latestDate => if (b <? a)%Z then 1 else -1
  | _ => if (a =? b)%Z then 0 else if (b <? a)%Z then 1 else -1
  end.

Definition compareValues (mode : DeduplicationMode) (value1 value2 : option Item) : result DeduplicationError Z :=
  match value1 ≫= parse mode, value2 ≫= parse mode with
  | Some a, Some b => Ok (compare_parsed mode a b)
  | _, _ => Err InvalidValue
  end.

(** [sort] compares as soon as there are two items. *)
Definition place (mode : DeduplicationMode) (i : Item) : Z := default 0%Z (parse mode i).

Definition sortEntries (items : list Item) (mode : DeduplicationMode) : result DeduplicationError (list Item) :=
  if (2 <=? length items) && existsb (λ i, bool_decide (parse mode i = None)) items then Err InvalidValue
  else Ok (js_sort (λ a b, (place mode a - place mode b)%Z) items).

Definition createContext (scope : DeduplicationScope) (node : option string) : result DeduplicationError string :=
  match scope, node with
  | Scope_workflow, _ => Ok ""%string
  | Scope_node, Some id => Ok ("n:" ++ id)%string
  | Scope_node, None => Err MissingNode
  end.

Definition validateMode (pd : option ProcessedData) (mode : DeduplicationMode) : result DeduplicationError unit :=
  match pd with
  | Some pd => if bool_decide (processed_mode pd = mode) then Ok tt else Err IncompatibleMode
  | None => Ok tt
  end.

(** One step of the loop of [handleLatestModes]: the items so far and the largest value. *)
Definition latest_step (mode : DeduplicationMode) (seen : option Item) (acc : Output * option Item) (item : Item)
    : result DeduplicationError (Output * option Item) :=
  let '(out, largest) := acc in
  c ← compareValues mode (Some item) seen;
  if (c =? 1)%Z then
    d ← compareValues mode (Some item) largest;
    Ok (mkOutput (new out ++ [item]) (processed out), if (d =? 1)%Z then Some item else largest)
  else Ok (mkOutput (new out) (processed out ++ [item]), largest).

Definition handleLatestModes (items : list Item) (mode : DeduplicationMode) (pd : option ProcessedData)
    : result DeduplicationError (option ProcessedData * Output) :=
  incoming ← sortEntries items mode;
  match pd with
  | None => Ok (Some (mkProcessed mode (Latest (last incoming))), mkOutput items [])
  | Some pd =>
      match value pd with
      | Entries _ => Ok (Some pd, mkOutput [] [])
      | Latest seen =>
          '(out, largest) ← foldM (latest_step mode seen) (mkOutput [] [], seen) incoming;
          Ok (Some (mkProcessed (processed_mode pd) (Latest largest)), out)
      end
  end.

(** [splice(0, length - max)]; no limit if [max] is missing or zero. *)
Definition limit_entries (max : option nat) (data : list string) : list string :=
  match max with
  | None | Some 0 => data
  | Some max => drop (length data - max) data
  end.

Definition hashed_step (known : list string) (acc : Output * list string) (item : Item) : Output * list string :=
  let '(out, data) := acc in
  if bool_decide (value_hash item ∈ known) then (mkOutput (new out) (processed out ++ [item]), data)
  else (mkOutput (new out ++ [item]) (processed out), data ++ [value_hash item]).

Definition handleHashedItems (items : list Item) (mode : DeduplicationMode) (max : option nat) (pd : option ProcessedData)
    : option ProcessedData * Output :=
  match pd with
  | None => (Some (mkProcessed mode (Entries (limit_entries max (value_hash <$> items)))), mkOutput items [])
  | Some pd =>
      match value pd with
      | Latest _ => (Some pd, mkOutput [] [])
      | Entries data =>
          let '(out, data) := foldl (hashed_step data) (mkOutput [] [], data) items in
          (Some (mkProcessed (processed_mode pd) (Entries (limit_entries max data))), out)
      end
  end.

Definition latest_mode (mode : DeduplicationMode) : bool := match mode with Mode_entries => false | _ => true end.

Definition save (table : Table) (key : string * string) (pd : option ProcessedData) : Table :=
  match pd with Some pd => jm_set table key pd | None => table end.

(** [maxEntries] is a natural number. *)
Definition checkProcessedAndRecord (table : Table) (items : list Item) (scope : DeduplicationScope) (workflow : string)
    (node : option string) (mode : DeduplicationMode) (maxEntries : option nat) : result DeduplicationError (Table * Output) :=
  dbContext ← createContext scope node;
  if bool_decide (workflow = ""%string) then Err MissingWorkflowId else
  let pd := jm_get table (workflow, dbContext) in
  _ ← validateMode pd mode;
  if latest_mode mode then
    '(pd', out) ← handleLatestModes items mode pd; Ok (save table (workflow, dbContext) pd', out)
  else
    let '(pd', out) := handleHashedItems items mode maxEntries pd in Ok (save table (workflow, dbContext) pd', out).

Definition remove_first (data : list string) (h : string) : list string :=
  match find_index (λ v, bool_decide (v = h)) data with Some i => splice1 data i | None => data end.

Definition removeProcessed (table : Table) (items : list Item) (scope : DeduplicationScope) (workflow : string)
    (node : option string) (mode : DeduplicationMode) : result DeduplicationError Table :=
  if latest_mode mode then Err RemoveInLatestMode else
  if bool_decide (workflow = ""%string) then Err MissingWorkflowId else
  dbContext ← createContext scope node;
  match jm_get table (workflow, dbContext) with
  | None => Ok table
  | Some pd =>
      match value pd with
      | Latest _ => Ok table
      | Entries data =>
          Ok (jm_set table (workflow, dbContext) (mkProcessed (processed_mode pd) (Entries (foldl remove_first data (value_hash <$> items)))))
      end
  end.

Definition clearAllProcessedItems (table : Table) (scope : DeduplicationScope) (workflow : string) (node : option string)
    : result DeduplicationError Table :=
  dbContext ← createContext scope node; Ok (jm_del table (workflow, dbContext)).

Definition getProcessedDataCount (table : Table) (scope : DeduplicationScope) (workflow : string) (node : option string)
    (mode : DeduplicationMode) : result DeduplicationError nat :=
  dbContext ← createContext scope node;
  Ok (match mode, jm_get table (workflow, dbContext) with
      | Mode_entries, Some (mkProcessed _ (Entries data)) => length data
      | _, _ => 0
      end).

(** * Several batches *)

(** The batches of one node, one after the other. *)
Fixpoint check_batches (table : Table) (batches : list (list Item)) (scope : DeduplicationScope) (workflow : string)
    (node : option string) (mode : DeduplicationMode) (maxEntries : option nat) : result DeduplicationError (Table * list Output) :=
  match batches with
  | [] => Ok (table, [])
  | items :: batches =>
      '(table, out) ← checkProcessedAndRecord table items scope workflow node mode maxEntries;
      '(table, outs) ← check_batches table batches scope workflow node mode maxEntries;
      Ok (table, out :: outs)
  end.

(** What the outputs are in terms of what was seen. *)
Definition seen_output (seen : list string) (items : list Item) : Output :=
  mkOutput (filter (λ i, value_hash i ∉ seen) items) (filter (λ i, value_hash i ∈ seen) items).

Fixpoint seen_outputs (seen : list string) (batches : list (list Item)) : list Output :=
  match batches with
  | [] => []
  | items :: batches => seen_output seen items :: seen_outputs (seen ++ (value_hash <$> items)) batches
  end.

Lemma hashed_fold known items out data :
  foldl (hashed_step known) (out, data) items =
  (mkOutput (new out ++ filter (λ i, value_hash i ∉ known) items) (processed out ++ filter (λ i, value_hash i ∈ known) items),
   data ++ (value_hash <$> filter (λ i, value_hash i ∉ known) items)).
Proof.
  revert out data. induction items as [|i items IH]; intros [n p] data; cbn [foldl]; [by rewrite !app_nil_r|].
  unfold hashed_step at 2. case_bool_decide as Hi; rewrite IH; cbn [new processed].
  - rewrite (filter_cons_True (λ i, value_hash i ∈ known)), (filter_cons_False (λ i, value_hash i ∉ known)) by (by try intros ?).
    by rewrite <- app_assoc.
  - rewrite (filter_cons_False (λ i, value_hash i ∈ known)), (filter_cons_True (λ i, value_hash i ∉ known)) by done.
    cbn. by rewrite <- !app_assoc.
Qed.

(** The record stands for what was seen. *)
Definition stands_for (pd : option ProcessedData) (seen : list string) : Prop :=
  match pd with
  | None => seen = []
  | Some (mkProcessed Mode_entries (Entries data)) => ∀ h, h ∈ data ↔ h ∈ seen
  | _ => False
  end.

Lemma filter_same_set {A} (f : A → string) (l1 l2 : list string) (items : list A) :
  (∀ h, h ∈ l1 ↔ h ∈ l2) → filter (λ i, f i ∈ l1) items = filter (λ i, f i ∈ l2) items ∧
  filter (λ i, f i ∉ l1) items = filter (λ i, f i ∉ l2) items.
Proof. intros H. split; apply list_filter_iff; intros i; by rewrite H. Qed.

Lemma handle_hashed_seen items pd seen :
  stands_for pd seen →
  ∃ pd', handleHashedItems items Mode_entries None pd = (Some pd', seen_output seen items) ∧
    stands_for (Some pd') (seen ++ (value_hash <$> items)).
Proof.
  destruct pd as [[mode [data|v]]|]; cbn [stands_for].
  - destruct mode; [|done..]. intros Hd. unfold handleHashedItems. cbn [value]. rewrite hashed_fold. cbn [new processed app limit_entries processed_mode].
    destruct (filter_same_set value_hash data seen items Hd) as [H1 H2]. eexists. split; [unfold seen_output; by rewrite H1, H2|].
    cbn. intros h. rewrite !elem_of_app, Hd. split.
    + intros [?|(i & -> & [_ Hi]%list_elem_of_filter)%list_elem_of_fmap]; [by left|right; apply list_elem_of_fmap; by exists i].
    + intros [?|(i & -> & Hi)%list_elem_of_fmap]; [by left|]. destruct (decide (value_hash i ∈ seen)); [by left|].
      right. apply list_elem_of_fmap. exists i. split; [done|]. by apply list_elem_of_filter.
  - by destruct mode.
  - intros ->. exists (mkProcessed Mode_entries (Entries (value_hash <$> items))). split; [|done].
    unfold handleHashedItems, seen_output. f_equal. f_equal.
    + induction items as [|i items IH]; [done|]. rewrite filter_cons_True by apply not_elem_of_nil. by rewrite <- IH.
    + induction items as [|i items IH]; [done|]. rewrite filter_cons_False by apply not_elem_of_nil. done.
Qed.

Lemma check_entries table items scope workflow node max ctx pd :
  createContext scope node = Ok ctx → workflow ≠ ""%string → jm_get table (workflow, ctx) = pd →
  (∀ p, pd = Some p → processed_mode p = Mode_entries) →
  checkProcessedAndRecord table items scope workflow node Mode_entries max =
  (let '(pd', out) := handleHashedItems items Mode_entries max pd in Ok (save table (workflow, ctx) pd', out)).
Proof.
  intros Hc Hw <- Hm. unfold checkProcessedAndRecord. rewrite Hc. cbn [mbind result_bind].
  rewrite bool_decide_eq_false_2 by done. destruct (jm_get table (workflow, ctx)) as [p|] eqn:Hg; cbn [validateMode]; [|done].
  by rewrite bool_decide_eq_true_2 by by apply Hm.
Qed.

(** C30: without a limit, the entries implement a set of what was seen: of every batch the
    items whose hash was in an earlier batch are processed and the others are new, both in
    their order, and no batch fails. *)
Theorem entries_refine_seen table batches scope workflow node ctx :
  createContext scope node = Ok ctx → workflow ≠ ""%string → jm_get table (workflow, ctx) = None →
  ∃ table', check_batches table batches scope workflow node Mode_entries None = Ok (table', seen_outputs [] batches).
Proof.
  intros Hc Hw Hn. assert (Hs : stands_for (jm_get table (workflow, ctx)) []) by by rewrite Hn. clear Hn.
  revert table Hs. generalize (@nil string). induction batches as [|items batches IH]; intros seen table Hs; cbn [check_batches seen_outputs].
  { by eexists. }
  rewrite (check_entries table items scope workflow node None ctx _ Hc Hw eq_refl).
  2: { intros p Hp. rewrite Hp in Hs. by destruct p as [[] []]. }
  destruct (handle_hashed_seen items _ _ Hs) as (pd' & Hh & Hs'). rewrite Hh. cbn [mbind result_bind save].
  destruct (IH (seen ++ (value_hash <$> items)) (jm_set table (workflow, ctx) pd')) as (table' & Hr); [by rewrite jm_get_set|].
  rewrite Hr. cbn. by eexists.
Qed.

Lemma limit_length max data : max ≠ 0 → length (limit_entries (Some max) data) ≤ max.
Proof. intros Hm. unfold limit_entries. destruct max; [done|]. rewrite length_drop. lia. Qed.

Lemma limit_suffix max data : limit_entries max data `suffix_of` data.
Proof.
  destruct max as [[|m]|]; cbn; [done| |done]. exists (take (length data - S m) data). by rewrite take_drop.
Qed.

(** A limit bounds the record.  A check in the mode of entries with a limit leaves at
    most that many hashes, the latest of them, and the record of a new item of the batch is
    among what the limit is applied to; the outputs are those without a limit. *)
Theorem entries_bounded table items scope workflow node max table' out ctx data :
  max ≠ 0 → createContext scope node = Ok ctx →
  checkProcessedAndRecord table items scope workflow node Mode_entries (Some max) = Ok (table', out) →
  jm_get table' (workflow, ctx) = Some (mkProcessed Mode_entries (Entries data)) →
  length data ≤ max ∧
  ∃ all, data `suffix_of` all ∧ length data = Nat.min max (length all) ∧
    (∃ out' table'', checkProcessedAndRecord table items scope workflow node Mode_entries None = Ok (table'', out') ∧ out' = out ∧
       jm_get table'' (workflow, ctx) = Some (mkProcessed Mode_entries (Entries all))).
Proof.
  intros Hm Hc Hr Hd. unfold checkProcessedAndRecord in *. rewrite Hc in *. cbn [mbind result_bind] in *.
  destruct (bool_decide (workflow = "")%string) eqn:Hw; [done|]. set (pd := jm_get table (workflow, ctx)) in *.
  destruct (validateMode pd Mode_entries) as [u|] eqn:Hv; [|done]. cbn [mbind result_bind latest_mode] in *.
  assert (Hlen : ∀ l, length (limit_entries (Some max) l) = Nat.min max (length l)).
  { intros l. unfold limit_entries. destruct max; [done|]. rewrite length_drop. lia. }
  unfold handleHashedItems in *. destruct pd as [[mode [l|v]]|] eqn:Hpd; cbn [value processed_mode] in *.
  - rewrite hashed_fold in Hr |- *. cbn [new processed app] in Hr |- *. injection Hr as <- <-. cbn [save] in *. rewrite jm_get_set in Hd.
    injection Hd as -> <-. split; [by apply limit_length|]. eexists. split; [apply (limit_suffix (Some max))|]. split; [apply Hlen|].
    eexists _, _. split; [done|]. split; [done|]. cbn. by rewrite jm_get_set.
  - injection Hr as <- <-. cbn [save] in *. by rewrite jm_get_set in Hd.
  - injection Hr as <- <-. cbn [save] in *. rewrite jm_get_set in Hd. injection Hd as <-. split; [by apply limit_length|].
    eexists. split; [apply (limit_suffix (Some max))|]. split; [apply Hlen|].
    eexists _, _. split; [done|]. split; [done|]. cbn. by rewrite jm_get_set.
Qed.

(** ** The latest modes *)

Lemma compare_greater mode a b : latest_mode mode = true → (compare_parsed mode a b =? 1)%Z = (b <? a)%Z.
Proof.
  destruct mode; [done|..]; intros _; cbn.
  - destruct (Z.eqb_spec a b) as [->|]; [by rewrite Z.ltb_irrefl|]. by destruct (b <? a)%Z.
  - by destruct (b <? a)%Z.
Qed.

Definition valid (mode : DeduplicationMode) (i : Item) : Prop := is_Some (parse mode i).

Lemma valid_place mode i : valid mode i → parse mode i = Some (place mode i).
Proof. intros [z Hz]. unfold place. by rewrite Hz. Qed.

Lemma latest_step_valid mode seen out largest i :
  latest_mode mode = true → valid mode seen → valid mode largest → valid mode i →
  latest_step mode (Some seen) (out, Some largest) i =
  Ok (if (place mode seen <? place mode i)%Z
      then (mkOutput (new out ++ [i]) (processed out), Some (if (place mode largest <? place mode i)%Z then i else largest))
      else (mkOutput (new out) (processed out ++ [i]), Some largest)).
Proof.
  intros Hm Hs Hl Hi. unfold latest_step, compareValues. cbn [mbind option_bind]. rewrite !valid_place by done.
  cbn [mbind result_bind]. rewrite !compare_greater by done.
  destruct (place mode seen <? place mode i)%Z; [|done]. by destruct (place mode largest <? place mode i)%Z.
Qed.

Lemma latest_fold mode seen incoming out largest :
  latest_mode mode = true → valid mode seen → valid mode largest → Forall (valid mode) incoming →
  ∃ largest', foldM (latest_step mode (Some seen)) (out, Some largest) incoming =
    Ok (mkOutput (new out ++ filter (λ i, (place mode seen < place mode i)%Z) incoming)
          (processed out ++ filter (λ i, ¬ (place mode seen < place mode i)%Z) incoming), Some largest') ∧
    valid mode largest' ∧
    ((place mode seen <= place mode largest)%Z → place mode largest' = foldr (λ i m, Z.max (place mode i) m) (place mode largest) incoming).
Proof.
  intros Hm Hs. revert out largest. induction incoming as [|i incoming IH]; intros [n p] largest Hl Hv.
  { exists largest. cbn. by rewrite !app_nil_r. }
  apply Forall_cons in Hv as [Hi Hv]. cbn [foldM]. rewrite latest_step_valid by done. cbn [mbind result_bind].
  assert (Hfold : ∀ a b l, foldr (λ i m, Z.max (place mode i) m) (Z.max a b) l = Z.max a (foldr (λ i m, Z.max (place mode i) m) b l)).
  { intros a b l. induction l as [|x l IHl]; [done|]. cbn. rewrite IHl. lia. }
  destruct (Z.ltb_spec (place mode seen) (place mode i)) as [Hlt|Hge].
  - set (l' := if (_ <? _)%Z then i else largest).
    assert (Hlg : valid mode l' ∧ place mode l' = Z.max (place mode i) (place mode largest)).
    { unfold l'. destruct (Z.ltb_spec (place mode largest) (place mode i)); split; try done; lia. }
    destruct Hlg as [Hvl Hpl]. destruct (IH (mkOutput (n ++ [i]) p) l' Hvl Hv) as (lf & Hr & Hvf & Hp).
    exists lf. cbn [new processed] in *. rewrite Hr. split_and!; [|done|].
    + rewrite (filter_cons_True (λ i, (place mode seen < place mode i)%Z)), (filter_cons_False (λ i, ¬ (place mode seen < place mode i)%Z)) by tauto.
      by rewrite <- app_assoc.
    + intros Hle. rewrite Hp by lia. rewrite Hpl, Hfold. done.
  - destruct (IH (mkOutput n (p ++ [i])) largest Hl Hv) as (lf & Hr & Hvf & Hp).
    exists lf. cbn [new processed] in *. rewrite Hr. split_and!; [|done|].
    + rewrite (filter_cons_False (λ i, (place mode seen < place mode i)%Z)), (filter_cons_True (λ i, ¬ (place mode seen < place mode i)%Z)) by lia.
      by rewrite <- app_assoc.
    + intros Hle. rewrite Hp by done. cbn. enough (place mode largest <= foldr (λ i m, Z.max (place mode i) m) (place mode largest) incoming)%Z by lia.
      clear. induction incoming; cbn; lia.
Qed.

Lemma fold_max_perm mode m l l' : l ≡ₚ l' → foldr (λ i m, Z.max (place mode i) m) m l = foldr (λ i m, Z.max (place mode i) m) m l'.
Proof. intros H. induction H; cbn; [done|lia|lia|congruence]. Qed.

Lemma fold_max_le mode m l i : i ∈ l → (place mode i <= foldr (λ i m, Z.max (place mode i) m) m l)%Z.
Proof. induction l as [|x l IH]; [by intros ?%not_elem_of_nil|]. cbn. intros [->|Hin%IH]%elem_of_cons; lia. Qed.

Lemma fold_max_base mode m l : (m <= foldr (λ i m, Z.max (place mode i) m) m l)%Z.
Proof. induction l; cbn; lia. Qed.

(** The greatest of some items. *)
Definition greatest (mode : DeduplicationMode) (i : Item) (items : list Item) : Z := foldr (λ i m, Z.max (place mode i) m) (place mode i) items.

Definition sorted_items (mode : DeduplicationMode) (items : list Item) : list Item :=
  js_sort (λ a b, (place mode a - place mode b)%Z) items.

(** The last of the sorted items is the greatest. *)
Lemma last_sorted mode i items : ∃ x, last (sorted_items mode (i :: items)) = Some x ∧ x ∈ i :: items ∧ place mode x = greatest mode i items.
Proof.
  assert (Hs : StronglySorted (cmp_le (λ a b, (place mode a - place mode b)%Z)) (sorted_items mode (i :: items))).
  { apply js_sort_sorted; unfold cmp_le; intros; lia. }
  pose proof (js_sort_perm (λ a b, (place mode a - place mode b)%Z) (i :: items)) as Hp. fold (sorted_items mode (i :: items)) in Hp.
  destruct (last (sorted_items mode (i :: items))) as [x|] eqn:Hl.
  2: { apply last_None in Hl. rewrite Hl in Hp. by apply Permutation_nil_cons in Hp. }
  apply last_Some in Hl as [l Hl]. rewrite Hl in *. exists x. split; [done|].
  assert (Hx : x ∈ i :: items) by (rewrite <- Hp; apply elem_of_app; right; by apply list_elem_of_singleton). split; [done|].
  assert (Hmax : ∀ y, y ∈ i :: items → (place mode y <= place mode x)%Z).
  { intros y. rewrite <- Hp. intros [Hy|Hy]%elem_of_app; [|apply list_elem_of_singleton in Hy as ->; lia].
    assert (H : cmp_le (λ a b, (place mode a - place mode b)%Z) y x) by (eapply StronglySorted_app_1_elem_of; [exact Hs|done|by apply list_elem_of_singleton]).
    unfold cmp_le in H. lia. }
  apply Z.le_antisymm.
  - unfold greatest. apply elem_of_cons in Hx as [->|Hx]; [apply fold_max_base|by apply fold_max_le].
  - unfold greatest. assert (Hi : (place mode i <= place mode x)%Z) by (apply Hmax, elem_of_cons; by left).
    assert (Hr : ∀ y, y ∈ items → (place mode y <= place mode x)%Z) by (intros y Hy; apply Hmax, elem_of_cons; by right).
    clear -Hi Hr. induction items as [|y items IH]; [done|]. cbn. apply Z.max_lub; [apply Hr, elem_of_cons; by left|].
    apply IH. intros z Hz. apply Hr, elem_of_cons. by right.
Qed.

(** What the outputs are in terms of the greatest item so far. *)
Definition latest_output (mode : DeduplicationMode) (seen : option Z) (items : list Item) : Output :=
  match seen with
  | None => mkOutput items []
  | Some m => mkOutput (filter (λ i, (m < place mode i)%Z) (sorted_items mode items))
                (filter (λ i, ¬ (m < place mode i)%Z) (sorted_items mode items))
  end.

Definition greatest_seen (mode : DeduplicationMode) (seen : option Z) (items : list Item) : option Z :=
  match seen, items with
  | _, [] => seen
  | None, i :: items => Some (greatest mode i items)
  | Some m, _ => Some (foldr (λ i m, Z.max (place mode i) m) m items)
  end.

Fixpoint latest_outputs (mode : DeduplicationMode) (seen : option Z) (batches : list (list Item)) : list Output :=
  match batches with
  | [] => []
  | items :: batches => latest_output mode seen items :: latest_outputs mode (greatest_seen mode seen items) batches
  end.

Definition records (mode : DeduplicationMode) (pd : option ProcessedData) (seen : option Z) : Prop :=
  match pd, seen with
  | None, None => True
  | Some (mkProcessed mode' (Latest (Some x))), Some m => mode' = mode ∧ valid mode x ∧ place mode x = m
  | _, _ => False
  end.

Lemma sort_valid mode items : Forall (valid mode) items → sortEntries items mode = Ok (sorted_items mode items).
Proof.
  intros Hv. unfold sortEntries. assert (He : existsb (λ i, bool_decide (parse mode i = None)) items = false).
  { induction Hv as [|i items [z Hz] _ IH]; [done|]. cbn. by rewrite IH, Hz. }
  by rewrite He, andb_false_r.
Qed.

Lemma handle_latest mode items pd seen :
  latest_mode mode = true → records mode pd seen → items ≠ [] → Forall (valid mode) items →
  ∃ pd', handleLatestModes items mode pd = Ok (Some pd', latest_output mode seen items) ∧
    records mode (Some pd') (greatest_seen mode seen items).
Proof.
  intros Hm Hr Hne Hv. unfold handleLatestModes. rewrite sort_valid by done. cbn [mbind result_bind].
  destruct pd as [[mode' [l|[x|]]]|], seen as [m|]; cbn [records] in Hr; try done.
  - destruct Hr as (-> & Hx & <-). cbn [value processed_mode].
    assert (Hvs : Forall (valid mode) (sorted_items mode items)) by (unfold sorted_items; by rewrite js_sort_perm).
    destruct (latest_fold mode x (sorted_items mode items) (mkOutput [] []) x Hm Hx Hx Hvs) as (y & Hf & Hy & Hp).
    rewrite Hf. cbn [mbind result_bind]. eexists. split; [done|]. unfold greatest_seen. destruct items as [|i items]; [done|].
    cbn [records]. split_and!; [done|done|]. rewrite Hp by lia. apply fold_max_perm. apply js_sort_perm.
  - destruct items as [|i items]; [done|]. destruct (last_sorted mode i items) as (x & Hl & Hin & Hp). rewrite Hl.
    eexists. split; [done|]. cbn [records greatest_seen]. split_and!; [done| |done]. rewrite Forall_forall in Hv. by apply Hv.
Qed.

(** The latest modes implement a maximum: of valid, non-empty batches the first is new,
    and of every later one the items greater than all earlier items are new and the others
    are processed, in increasing order, and no batch fails. *)
Theorem latest_refines_maximum table batches scope workflow node mode max ctx :
  latest_mode mode = true → createContext scope node = Ok ctx → workflow ≠ ""%string → jm_get table (workflow, ctx) = None →
  Forall (λ items, items ≠ [] ∧ Forall (valid mode) items) batches →
  ∃ table', check_batches table batches scope workflow node mode max = Ok (table', latest_outputs mode None batches).
Proof.
  intros Hm Hc Hw Hn Hb. assert (Hr : records mode (jm_get table (workflow, ctx)) None) by by rewrite Hn. clear Hn.
  revert table Hr. generalize (@None Z). induction Hb as [|items batches [Hne Hv] _ IH]; intros seen table Hr; cbn [check_batches latest_outputs].
  { by eexists. }
  destruct (handle_latest mode items _ _ Hm Hr Hne Hv) as (pd' & Hh & Hr'). unfold checkProcessedAndRecord. rewrite Hc. cbn [mbind result_bind].
  rewrite bool_decide_eq_false_2 by done.
  assert (Hval : validateMode (jm_get table (workflow, ctx)) mode = Ok tt).
  { destruct (jm_get table (workflow, ctx)) as [[mode' [l|[x|]]]|]; [| |by destruct seen|done]; destruct seen; try done.
    destruct Hr as [-> _]. cbn. by rewrite bool_decide_eq_true_2. }
  rewrite Hval, Hm. cbn [mbind result_bind]. rewrite Hh. cbn [mbind result_bind save].
  destruct (IH (greatest_seen mode seen items) (jm_set table (workflow, ctx) pd')) as (table' & Ht); [by rewrite jm_get_set|].
  rewrite Ht. cbn. by eexists.
Qed.
End Deduplication.

(** * Concrete batches *)

Definition sample_hash (i : Z + string) : string := match i with inl z => pretty z | inr s => s end.
Definition sample_parse (mode : DeduplicationMode) (i : Z + string) : option Z := match i with inl z => Some z | inr _ => None end.

Definition sample_check mode max batches :=
  snd <$> check_batches sample_hash sample_parse [] batches Scope_node "w" (Some "n"%string) mode max.

Lemma entries_refine_seen_witness :
  ∃ table', check_batches sample_hash sample_parse [] [[inl 1; inl 2]; [inl 2; inl 3]]%Z Scope_node "w" (Some "n"%string) Mode_entries None
    = Ok (table', seen_outputs sample_hash [] [[inl 1; inl 2]; [inl 2; inl 3]]%Z).
Proof.
  apply (entries_refine_seen sample_hash sample_parse [] [[inl 1; inl 2]; [inl 2; inl 3]]%Z Scope_node "w" (Some "n"%string) "n:n");
    [reflexivity|discriminate|reflexivity].
Defined.

Example second_batch : sample_check Mode_entries None [[inl 1; inl 2]; [inl 2; inl 3]]%Z
  = Ok [mkOutput [inl 1; inl 2] []; mkOutput [inl 3] [inl 2]]%Z.
Proof. reflexivity. Qed.

Lemma entries_bounded_witness :
  length ["2"; "3"]%string ≤ 2 ∧
  ∃ all, ["2"; "3"]%string `suffix_of` all ∧ length ["2"; "3"]%string = Nat.min 2 (length all) ∧
    (∃ out' table'', checkProcessedAndRecord sample_hash sample_parse [] [inl 1; inl 2; inl 3]%Z Scope_workflow "w" None Mode_entries None
       = Ok (table'', out') ∧ out' = mkOutput [inl 1; inl 2; inl 3]%Z [] ∧
       jm_get table'' ("w", "")%string = Some (mkProcessed Mode_entries (Entries all))).
Proof.
  apply (entries_bounded sample_hash sample_parse [] [inl 1; inl 2; inl 3]%Z Scope_workflow "w" None 2
    [(("w", "")%string, mkProcessed Mode_entries (Entries ["2"; "3"]%string))] (mkOutput [inl 1; inl 2; inl 3]%Z []) "" ["2"; "3"]%string);
    [discriminate|reflexivity|vm_compute; reflexivity|reflexivity].
Defined.

Lemma latest_refines_maximum_witness :
  ∃ table', check_batches sample_hash sample_parse [] [[inl 4; inl 2]; [inl 5; inl 3; inl 4]]%Z Scope_node "w" (Some "n"%string)
      Mode_latestIncrementalKey None
    = Ok (table', latest_outputs sample_parse Mode_latestIncrementalKey None [[inl 4; inl 2]; [inl 5; inl 3; inl 4]]%Z).
Proof.
  apply (latest_refines_maximum sample_hash sample_parse [] [[inl 4; inl 2]; [inl 5; inl 3; inl 4]]%Z Scope_node "w" (Some "n"%string)
    Mode_latestIncrementalKey None "n:n"); [reflexivity|reflexivity|discriminate|reflexivity|].
  repeat (apply Forall_cons; split; [split; [discriminate|repeat (apply Forall_cons; split; [by eexists|]); apply Forall_nil_2]|]).
  apply Forall_nil_2.
Defined.

Example latest_batches : sample_check Mode_latestIncrementalKey None [[inl 4; inl 2]; [inl 5; inl 3; inl 4]]%Z
  = Ok [mkOutput [inl 4; inl 2] []; mkOutput [inl 5] [inl 3; inl 4]]%Z.
Proof. reflexivity. Qed.

(** An item that occurs twice in a batch is new twice. *)
Example duplicate_in_batch_new : sample_check Mode_entries None [[inl 1; inl 1]]%Z = Ok [mkOutput [inl 1; inl 1] []]%Z.
Proof. reflexivity. Qed.

(** A single first item is not compared: one that is no number is saved, and every later
    batch fails. *)
Example invalid_first_item_blocks :
  sample_check Mode_latestIncrementalKey None [[inr "abc"%string]] = Ok [mkOutput [inr "abc"%string] []] ∧
  sample_check Mode_latestIncrementalKey None [[inr "abc"%string]; [inl 5%Z]] = Err InvalidValue.
Proof. done. Qed.

(** So does an empty first batch. *)
Example empty_first_batch_blocks : sample_check Mode_latestIncrementalKey None [[]; [inl 5%Z]] = Err InvalidValue.
Proof. reflexivity. Qed.
