(* ===== verification/Collaboration.v ===== *)
(** Collaboration: who has a workflow open in the editor and who may write to it.

    packages/cli/src/collaboration/collaboration.{state,service,message}.ts, on the Redis
    cache of services/cache/cache.service.ts.  A handler of a message is a program over
    the effects it awaits: the commands it sends to the cache, the checks of access, the
    lookup of users and the pushes.  The handlers of all messages run interleaved, one
    effect at a time; a command may fail, with or without having been executed, time
    passes and keys may be lost between any two effects.

    A text in the cache is represented by what the code reads in it: the text of a lock by
    its two fields, and a value of the hash of collaborators by the parts its bar separates. *)

From Stdlib Require Import ZArith Lia.
From stdpp Require Import prelude list gmap strings.
From S2P Require Import Prelude.

#[local] Open Scope Z_scope.

(** * The data *)

Record WriteLock := mkLock { lk_clientId : string; lk_userId : string }.

(** [`${userId}|${new Date().toISOString()}`], or a bare timestamp of the old format. *)
Inductive hash_value :=
| Tagged (userId : string) (lastSeen : Z)
| Bare (lastSeen : Z).

Record CacheEntry := mkEntry { ce_userId : string; ce_lastSeen : Z; ce_clientId : string }.

#[export] Instance WriteLock_eq_dec : EqDecision WriteLock.
Proof. solve_decision. Defined.
#[export] Instance hash_value_eq_dec : EqDecision hash_value.
Proof. solve_decision. Defined.
#[export] Instance CacheEntry_eq_dec : EqDecision CacheEntry.
Proof. solve_decision. Defined.

(** A key of Redis holds a text, which expires, or a hash. *)
Inductive redis_entry :=
| Text (lock : WriteLock) (expiry : Z)
| Hash (fields : jmap string hash_value).

Notation redis_store := (gmap string redis_entry).

Inductive WorkflowMessage :=
| workflowOpened (workflowId : string)
| workflowClosed (workflowId : string)
| writeAccessRequested (workflowId : string) (force : bool)
| writeAccessReleaseRequested (workflowId : string)
| writeAccessHeartbeat (workflowId : string).

Inductive push_message :=
| collaboratorsChanged (workflowId : string) (collaborators : list (string * Z))
| writeAccessAcquired (workflowId userId clientId : string)
| writeAccessReleased (workflowId : string)
| workflowUpdated (workflowId userId : string)
| workflowSettingsUpdated (workflowId : string) (settings : string) (checksum : option string).

Definition push_workflow (m : push_message) : string :=
  match m with
  | collaboratorsChanged w _ | writeAccessAcquired w _ _ | writeAccessReleased w
  | workflowUpdated w _ | workflowSettingsUpdated w _ _ => w
  end.

(** * Programs over effects *)

Inductive effect : Type → Type :=
| HasReadAccess (userId workflowId : string) : effect bool
| HasWriteAccess (userId workflowId : string) : effect bool
| GetByIds (userIds : list string) : effect (list string)
| DateNow : effect Z
| Get (key : string) : effect (option WriteLock)
| Set_ (key : string) (lock : WriteLock) (ttl : Z) : effect unit
| Del (key : string) : effect unit
| HSet (key field : string) (value : hash_value) : effect unit
| HDel (key field : string) : effect unit
| HGetAll (key : string) : effect (jmap string hash_value)
| PTtl (key : string) : effect bool
| SendToUsers (message : push_message) (userIds : list string) : effect unit
| Detach (key : string) (fields : list string) : effect unit.

Inductive prog (A : Type) : Type :=
| Return (a : A)
| Perform {X : Type} (e : effect X) (k : X → prog A).

Arguments Return {A} a.
Arguments Perform {A X} e k.

Fixpoint prog_bind_ {A B} (f : A → prog B) (p : prog A) : prog B :=
  match p with
  | Return a => f a
  | Perform e k => Perform e (λ x, prog_bind_ f (k x))
  end.

#[export] Instance prog_ret : MRet prog := @Return.
#[export] Instance prog_bind : MBind prog := @prog_bind_.

Definition perform {X} (e : effect X) : prog X := Perform e Return.

(** * CollaborationState *)

Definition inactivityCleanUpTime : Z := 15 * 60 * 1000.
Definition writeLockTtl : Z := 2 * 60 * 1000.

Definition formWorkflowCacheKey (workflowId : string) : string := "collaboration:" +:+ workflowId.
Definition formWriteLockCacheKey (workflowId : string) : string :=
  "collaboration:write-lock:" +:+ workflowId.

(** [CacheService.getHash]: an empty answer counts when the key exists. *)
Definition getHash (key : string) : prog (option (jmap string hash_value)) :=
  hash ← perform (HGetAll key);
  match hash with
  | [] => exists_ ← perform (PTtl key); mret (if exists_ : bool then Some [] else None)
  | _ => mret (Some hash)
  end.

Definition deleteFromHash (key field : string) : prog unit :=
  if bool_decide (field = "") then mret () else perform (HDel key field).

Definition addCollaborator (workflowId userId clientId : string) : prog unit :=
  now ← perform DateNow;
  perform (HSet (formWorkflowCacheKey workflowId) clientId (Tagged userId now)).

Definition removeCollaborator (workflowId clientId : string) : prog unit :=
  deleteFromHash (formWorkflowCacheKey workflowId) clientId.

Definition parse_step (acc : list CacheEntry * list CacheEntry) (field : string * hash_value) :
  list CacheEntry * list CacheEntry :=
  match field.2 with
  | Bare lastSeen => (acc.1, acc.2 ++ [mkEntry "" lastSeen field.1])
  | Tagged userId lastSeen => (acc.1 ++ [mkEntry userId lastSeen field.1], acc.2)
  end.

Definition parseCacheHashToCollaborators (h : jmap string hash_value) :
  list CacheEntry * list CacheEntry := foldl parse_step ([], []) h.

Definition hasSessionExpired (now lastSeen : Z) : bool :=
  now >? lastSeen + inactivityCleanUpTime.

Definition split_step (now : Z) (acc : list CacheEntry * list CacheEntry) (e : CacheEntry) :
  list CacheEntry * list CacheEntry :=
  if hasSessionExpired now (ce_lastSeen e) then (acc.1 ++ [e], acc.2) else (acc.1, acc.2 ++ [e]).

Definition splitToExpiredAndStillActive (now : Z) (l : list CacheEntry) :
  list CacheEntry * list CacheEntry := foldl (split_step now) ([], []) l.

(** The [Map] of the users, with the latest entry of each. *)
Definition latest_step (userMap : jmap string CacheEntry) (entry : CacheEntry) : jmap string CacheEntry :=
  match jm_get userMap (ce_userId entry) with
  | Some existing =>
      if ce_lastSeen entry >? ce_lastSeen existing then jm_set userMap (ce_userId entry) entry
      else userMap
  | None => jm_set userMap (ce_userId entry) entry
  end.

Definition deduplicate (stillActive : list CacheEntry) : list CacheEntry :=
  jm_vals (foldl latest_step [] stillActive).

(** [void this.removeExpiredCollaborators(workflowId, toRemove)]: one deletion per client,
    which nothing waits for. *)
Definition removeExpiredCollaborators (workflowId : string) (clients : list CacheEntry) : prog unit :=
  perform (Detach (formWorkflowCacheKey workflowId) (ce_clientId <$> clients)).

Definition getCollaborators (workflowId : string) : prog (list CacheEntry) :=
  cacheValue ← getHash (formWorkflowCacheKey workflowId);
  match cacheValue with
  | None => mret []
  | Some h =>
      now ← perform DateNow;
      let '(valid, invalid) := parseCacheHashToCollaborators h in
      let '(expired, stillActive) := splitToExpiredAndStillActive now valid in
      let toRemove := expired ++ invalid in
      _ ← (if bool_decide (toRemove = []) then mret ()
           else removeExpiredCollaborators workflowId toRemove);
      mret (deduplicate stillActive)
  end.

Definition setWriteLock (workflowId clientId userId : string) : prog unit :=
  perform (Set_ (formWriteLockCacheKey workflowId) (mkLock clientId userId) writeLockTtl).

Definition getWriteLock (workflowId : string) : prog (option WriteLock) :=
  lockData ← perform (Get (formWriteLockCacheKey workflowId));
  match lockData with
  | None => mret None
  | Some parsed =>
      if bool_decide (lk_clientId parsed = "") || bool_decide (lk_userId parsed = "")
      then mret None else mret (Some parsed)
  end.

(** [lock?.clientId === clientId] *)
Definition held_by (lock : option WriteLock) (clientId : string) : bool :=
  match lock with Some l => bool_decide (lk_clientId l = clientId) | None => false end.

Definition renewWriteLock (workflowId clientId : string) : prog unit :=
  currentLock ← getWriteLock workflowId;
  match currentLock with
  | Some lock =>
      if held_by (Some lock) clientId
      then perform (Set_ (formWriteLockCacheKey workflowId) lock writeLockTtl) else mret ()
  | None => mret ()
  end.

Definition releaseWriteLock (workflowId : string) : prog unit :=
  perform (Del (formWriteLockCacheKey workflowId)).

Definition acquireWriteLockForce (workflowId clientId userId : string) : prog bool :=
  currentLock ← getWriteLock workflowId;
  match currentLock with
  | Some lock =>
      if bool_decide (lk_userId lock ≠ userId) then mret false
      else _ ← setWriteLock workflowId clientId userId; mret true
  | None => _ ← setWriteLock workflowId clientId userId; mret true
  end.

(** * CollaborationService *)

(** Collect the users who have the workflow open and send them a message, if any. *)
Definition send_to_collaborators (workflowId : string) (message : push_message) : prog unit :=
  collaborators ← getCollaborators workflowId;
  let userIds := ce_userId <$> collaborators in
  if bool_decide (userIds = []) then mret () else perform (SendToUsers message userIds).

Definition sendWriteAccessAcquiredMessage (workflowId userId clientId : string) : prog unit :=
  send_to_collaborators workflowId (writeAccessAcquired workflowId userId clientId).

Definition sendWriteAccessReleasedMessage (workflowId : string) : prog unit :=
  send_to_collaborators workflowId (writeAccessReleased workflowId).

Definition broadcastWorkflowUpdate (workflowId updatedByUserId : string) : prog unit :=
  send_to_collaborators workflowId (workflowUpdated workflowId updatedByUserId).

Definition broadcastWorkflowSettingsUpdated (workflowId settings : string) (checksum : option string) :
  prog unit :=
  send_to_collaborators workflowId (workflowSettingsUpdated workflowId settings checksum).

(** The users found, each with the time of its entry. *)
Definition active_collaborators (collaborators : list CacheEntry) (users : list string) :
  list (string * Z) :=
  omap (λ user, (λ c, (user, ce_lastSeen c.2)) <$> list_find (λ c, ce_userId c = user) collaborators) users.

Definition sendWorkflowUsersChangedMessage (workflowId : string) : prog unit :=
  collaborators ← getCollaborators workflowId;
  let userIds := ce_userId <$> collaborators in
  if bool_decide (userIds = []) then mret () else
  users ← perform (GetByIds userIds);
  perform (SendToUsers (collaboratorsChanged workflowId (active_collaborators collaborators users)) userIds).

Definition handleWorkflowOpened (userId clientId workflowId : string) : prog unit :=
  access ← perform (HasReadAccess userId workflowId);
  if negb access then mret () else
  _ ← addCollaborator workflowId userId clientId;
  sendWorkflowUsersChangedMessage workflowId.

Definition handleWorkflowClosed (userId clientId workflowId : string) : prog unit :=
  access ← perform (HasReadAccess userId workflowId);
  if negb access then mret () else
  currentLock ← getWriteLock workflowId;
  _ ← (if held_by currentLock clientId then
         _ ← releaseWriteLock workflowId;
         sendWriteAccessReleasedMessage workflowId
       else mret ());
  _ ← removeCollaborator workflowId clientId;
  sendWorkflowUsersChangedMessage workflowId.

Definition handleWriteAccessRequested (userId clientId workflowId : string) (force : bool) : prog unit :=
  access ← perform (HasWriteAccess userId workflowId);
  if negb access then mret () else
  acquired ←
    (if force then acquireWriteLockForce workflowId clientId userId
     else
       currentLock ← getWriteLock workflowId;
       match currentLock with
       | Some lock =>
           if bool_decide (lk_clientId lock ≠ clientId) then mret false
           else _ ← setWriteLock workflowId clientId userId; mret true
       | None => _ ← setWriteLock workflowId clientId userId; mret true
       end);
  if negb acquired then mret () else sendWriteAccessAcquiredMessage workflowId userId clientId.

Definition handleWriteAccessReleaseRequested (userId clientId workflowId : string) : prog unit :=
  currentLock ← getWriteLock workflowId;
  if negb (held_by currentLock clientId) then mret () else
  _ ← releaseWriteLock workflowId;
  sendWriteAccessReleasedMessage workflowId.

Definition handleWriteAccessHeartbeat (userId clientId workflowId : string) : prog unit :=
  renewWriteLock workflowId clientId.

Definition handleUserMessage (userId clientId : string) (msg : WorkflowMessage) : prog unit :=
  match msg with
  | workflowOpened w => handleWorkflowOpened userId clientId w
  | workflowClosed w => handleWorkflowClosed userId clientId w
  | writeAccessRequested w force => handleWriteAccessRequested userId clientId w force
  | writeAccessReleaseRequested w => handleWriteAccessReleaseRequested userId clientId w
  | writeAccessHeartbeat w => handleWriteAccessHeartbeat userId clientId w
  end.

Inductive lock_error := ConflictError | LockedError.

(** [getWriteLock] of the service. *)
Definition service_getWriteLock (userId workflowId : string) : prog (option WriteLock) :=
  access ← perform (HasReadAccess userId workflowId);
  if negb access then mret None else getWriteLock workflowId.

Definition ensureWorkflowEditable (workflowId : string) : prog (result lock_error unit) :=
  lock ← getWriteLock workflowId;
  match lock with Some _ => mret (Err LockedError) | None => mret (Ok ()) end.

Definition validateWriteLock (userId : string) (clientId : option string) (workflowId : string) :
  prog (result lock_error unit) :=
  match clientId with
  | None | Some "" => mret (Ok ())
  | Some clientId =>
      lock ← getWriteLock workflowId;
      match lock with
      | None => mret (Ok ())
      | Some lock =>
          if bool_decide (lk_clientId lock = clientId) then mret (Ok ())
          else if bool_decide (lk_userId lock = userId) then mret (Err ConflictError)
          else mret (Err LockedError)
      end
  end.

(** ** Which of many workflows are open *)

Definition OPEN_WORKFLOW_CHECK_BATCH_SIZE : nat := 100.

Section OpenWorkflows.

(** The settled lookup of the collaborators of a workflow: their number, unless it failed. *)
Context (lookup : string → option nat).

Record open_state := mkOpen { openWorkflowIds : list string; warnings : list (nat * list string) }.

Definition settle_step (acc : list string * list string) (workflowId : string) : list string * list string :=
  match lookup workflowId with
  | Some n => if (0 <? n)%nat then (acc.1 ++ [workflowId], acc.2) else acc
  | None => if bool_decide (workflowId = "") then acc else (acc.1, acc.2 ++ [workflowId])
  end.

Definition open_batch (st : open_state) (chunk : list string) : open_state :=
  let '(opened, failed) := foldl settle_step (openWorkflowIds st, []) chunk in
  mkOpen opened
    (if bool_decide (failed = []) then warnings st
     else warnings st ++ [(length failed, take 10 failed)]).

Fixpoint open_batches (fuel : nat) (ids : list string) (st : open_state) : open_state :=
  match fuel, ids with
  | S fuel, _ :: _ =>
      open_batches fuel (drop OPEN_WORKFLOW_CHECK_BATCH_SIZE ids)
        (open_batch st (take OPEN_WORKFLOW_CHECK_BATCH_SIZE ids))
  | _, _ => st
  end.

Definition filterOpenWorkflowIds (workflowIds : list string) : open_state :=
  let uniqueWorkflowIds := js_of_list workflowIds in
  open_batches (length uniqueWorkflowIds) uniqueWorkflowIds (mkOpen [] []).

Definition is_open (workflowId : string) : bool :=
  match lookup workflowId with Some n => (0 <? n)%nat | None => false end.

Lemma settle_opened chunk acc :
  (foldl settle_step acc chunk).1 = acc.1 ++ filter is_open chunk.
Proof.
  revert acc; induction chunk as [|w chunk IH]; intros acc; [by rewrite app_nil_r|].
  cbn [foldl]; rewrite IH, filter_cons; unfold settle_step, is_open.
  destruct (lookup w) as [n|]; [destruct (0 <? n)%nat eqn:E|case_bool_decide]; cbn;
    rewrite ?E, ?decide_True, ?decide_False by naive_solver; cbn; rewrite <- ?app_assoc; done.
Qed.

Lemma open_batches_filter fuel ids st :
  (length ids ≤ fuel)%nat →
  openWorkflowIds (open_batches fuel ids st) = openWorkflowIds st ++ filter is_open ids.
Proof.
  revert ids st; induction fuel as [|fuel IH]; intros ids st Hfuel.
  { destruct ids; [by rewrite app_nil_r|cbn in Hfuel; lia]. }
  destruct ids as [|w ids]; [by rewrite app_nil_r|].
  cbn [open_batches]; rewrite IH by (rewrite length_drop; unfold OPEN_WORKFLOW_CHECK_BATCH_SIZE; cbn in *; lia).
  unfold open_batch; pose proof (settle_opened (take OPEN_WORKFLOW_CHECK_BATCH_SIZE (w :: ids)) (openWorkflowIds st, [])) as H.
  destruct (foldl settle_step _ _) as [opened failed]; cbn in H |- *; subst opened.
  rewrite <- app_assoc; f_equal; cbn [openWorkflowIds].
  transitivity (filter is_open (take OPEN_WORKFLOW_CHECK_BATCH_SIZE (w :: ids) ++ drop OPEN_WORKFLOW_CHECK_BATCH_SIZE (w :: ids))); [by rewrite filter_app|by rewrite take_drop].
Qed.

(** A workflow is reported open once, when its lookup found a collaborator. *)
Lemma filterOpenWorkflowIds_spec ids :
  openWorkflowIds (filterOpenWorkflowIds ids) = filter is_open (js_of_list ids).
Proof. unfold filterOpenWorkflowIds; by rewrite open_batches_filter. Qed.

End OpenWorkflows.

(** * The system: interleaved handlers *)

Record task := mkTask { t_userId : string; t_clientId : string; t_prog : prog unit }.

(** [writers] and [readers] record which client of which user passed a check of access for
    which workflow. *)
Record world := mkWorld {
  now : Z;
  store : redis_store;
  tasks : list task;
  pushed : list (push_message * list string);
  writers : gset (string * string * string);
  readers : gset (string * string * string);
}.

Definition set_store (f : redis_store → redis_store) (s : world) : world :=
  mkWorld (now s) (f (store s)) (tasks s) (pushed s) (writers s) (readers s).
Definition set_tasks (f : list task → list task) (s : world) : world :=
  mkWorld (now s) (store s) (f (tasks s)) (pushed s) (writers s) (readers s).
Definition push (m : push_message) (ids : list string) (s : world) : world :=
  mkWorld (now s) (store s) (tasks s) (pushed s ++ [(m, ids)]) (writers s) (readers s).
Definition grant_read (g : string * string * string) (s : world) : world :=
  mkWorld (now s) (store s) (tasks s) (pushed s) (writers s) ({[g]} ∪ readers s).
Definition grant_write (g : string * string * string) (s : world) : world :=
  mkWorld (now s) (store s) (tasks s) (pushed s) ({[g]} ∪ writers s) (readers s).
Definition tick (d : Z) (s : world) : world :=
  mkWorld (now s + d) (store s) (tasks s) (pushed s) (writers s) (readers s).

Section System.

(** The users of the database among those asked for. *)
Context (getByIds : list string → list string).

(** What a key holds now: a text that has expired is gone. *)
Definition entry_at (s : world) (key : string) : option redis_entry :=
  match store s !! key with
  | Some (Text l expiry) => if now s <? expiry then Some (Text l expiry) else None
  | e => e
  end.

Definition hset (s : world) (key field : string) (v : hash_value) : option world :=
  match entry_at s key with
  | Some (Text _ _) => None
  | Some (Hash h) => Some (set_store <[key := Hash (jm_set h field v)]> s)
  | None => Some (set_store <[key := Hash [(field, v)]]> s)
  end.

Definition hdel (s : world) (key field : string) : option world :=
  match entry_at s key with
  | Some (Text _ _) => None
  | Some (Hash h) =>
      Some (set_store (match jm_del h field with [] => delete key | h => <[key := Hash h]> end) s)
  | None => Some s
  end.

(** One effect of a handler of client [c]; [answer] is that of a check of access.  A
    command on a key of the other type is an error. *)
Definition execute (c : string) (answer : bool) {X} (e : effect X) (s : world) : option (X * world) :=
  match e in effect X return option (X * world) with
  | HasReadAccess u w => Some (answer, if answer then grant_read (w, c, u) s else s)
  | HasWriteAccess u w => Some (answer, if answer then grant_write (w, c, u) s else s)
  | GetByIds ids => Some (getByIds ids, s)
  | DateNow => Some (now s, s)
  | Get key =>
      match entry_at s key with
      | Some (Text l _) => Some (Some l, s)
      | Some (Hash _) => None
      | None => Some (None, s)
      end
  | Set_ key l ttl => Some ((), set_store <[key := Text l (now s + ttl)]> s)
  | Del key => Some ((), set_store (delete key) s)
  | HSet key field v => (λ s, ((), s)) <$> hset s key field v
  | HDel key field => (λ s, ((), s)) <$> hdel s key field
  | HGetAll key =>
      match entry_at s key with
      | Some (Text _ _) => None
      | Some (Hash h) => Some (h, s)
      | None => Some ([], s)
      end
  | PTtl key => Some (match entry_at s key with Some _ => true | None => false end, s)
  | SendToUsers m ids => Some ((), push m ids s)
  | Detach key fields => Some ((), set_tasks (λ ts, ts ++ ((λ f, mkTask "" "" (deleteFromHash key f)) <$> fields)) s)
  end.

Inductive event :=
| Receive (userId clientId : string) (msg : WorkflowMessage)
| Update (workflowId userId : string)
| SettingsUpdate (workflowId settings : string) (checksum : option string)
| Resume (i : nat) (answer : bool)
| Fails (i : nat)
| Lost (i : nat) (answer : bool)
| Tick (d : N)
| Evict (key : string).

Definition start (u c : string) (p : prog unit) (s : world) : world :=
  set_tasks (λ ts, ts ++ [mkTask u c p]) s.

Definition replace (i : nat) (t : task) (p : prog unit) (s : world) : world :=
  set_tasks <[i := mkTask (t_userId t) (t_clientId t) p]> s.

(** Task [i] performs its next effect.  When the effect fails, or its answer is lost, the
    handler throws: [init] logs the error and nothing more of the handler runs. *)
Definition resume (i : nat) (answer lost : bool) (s : world) : world :=
  match tasks s !! i with
  | None => s
  | Some t =>
      match t_prog t with
      | Return _ => s
      | Perform e k =>
          match execute (t_clientId t) answer e s with
          | Some (x, s') => replace i t (if lost then Return () else k x) s'
          | None => replace i t (Return ()) s
          end
      end
  end.

Definition step (s : world) (ev : event) : world :=
  match ev with
  | Receive u c msg => start u c (handleUserMessage u c msg) s
  | Update w u => start "" "" (broadcastWorkflowUpdate w u) s
  | SettingsUpdate w settings checksum => start "" "" (broadcastWorkflowSettingsUpdated w settings checksum) s
  | Resume i answer => resume i answer false s
  | Lost i answer => resume i answer true s
  | Fails i => match tasks s !! i with Some t => replace i t (Return ()) s | None => s end
  | Tick d => tick (Z.of_N d) s
  | Evict key => set_store (delete key) s
  end.

Definition empty_world : world := mkWorld 0 ∅ [] [] ∅ ∅.

Definition run_events (evs : list event) : world := foldl step empty_world evs.

End System.

(** * Any interleaving *)

(** What the handlers may rely on: the time and the checks of access passed only grow. *)
Record ghost := mkGhost { g_now : Z; g_writers : gset (string * string * string);
                          g_readers : gset (string * string * string) }.

Definition grows (g g' : ghost) : Prop :=
  g_now g ≤ g_now g' ∧ g_writers g ⊆ g_writers g' ∧ g_readers g ⊆ g_readers g'.

#[export] Instance grows_preorder : PreOrder grows.
Proof.
  split; [intros a; split; [lia|set_solver]|].
  intros a b d (? & ? & ?) (? & ? & ?); split; [lia|set_solver].
Qed.

(** A field of the hash of workflow [w] names a client and user who could read it. *)
Definition field_ok (g : ghost) (w : string) (field : string * hash_value) : Prop :=
  match field.2 with
  | Tagged u t => (w, field.1, u) ∈ g_readers g ∧ t ≤ g_now g
  | Bare _ => True
  end.

Definition lock_ok (g : ghost) (w : string) (l : WriteLock) : Prop :=
  (w, lk_clientId l, lk_userId l) ∈ g_writers g.

Definition push_ok (g : ghost) (m : push_message) (ids : list string) : Prop :=
  ∀ u, u ∈ ids → ∃ c, (push_workflow m, c, u) ∈ g_readers g.

(** What an effect needs of the state, and what its answer tells. *)
Definition requires (g : ghost) {X} (e : effect X) : Prop :=
  match e with
  | Set_ key l ttl => ttl ≤ writeLockTtl ∧ ∃ w, key = formWriteLockCacheKey w ∧ lock_ok g w l
  | HSet key field v => ∃ w, key = formWorkflowCacheKey w ∧ field_ok g w (field, v)
  | SendToUsers m ids => push_ok g m ids
  | _ => True
  end.

Definition tells (c : string) (g : ghost) {X} (e : effect X) : X → Prop :=
  match e in effect X return X → Prop with
  | HasReadAccess u w => λ access, access = true → (w, c, u) ∈ g_readers g
  | HasWriteAccess u w => λ access, access = true → (w, c, u) ∈ g_writers g
  | DateNow => λ t, t ≤ g_now g
  | Get key => λ lock, ∀ w l, key = formWriteLockCacheKey w → lock = Some l → lock_ok g w l
  | HGetAll key => λ h, ∀ w, key = formWorkflowCacheKey w → Forall (field_ok g w) h
  | _ => λ _, True
  end.

(** The weakest precondition of a handler of client [c] among the others. *)
Fixpoint wp {A} (c : string) (g : ghost) (p : prog A) (Q : ghost → A → Prop) : Prop :=
  match p with
  | Return a => Q g a
  | Perform e k => requires g e ∧ ∀ g' x, grows g g' → tells c g' e x → wp c g' (k x) Q
  end.

Lemma lock_ok_grows g g' w l : grows g g' → lock_ok g w l → lock_ok g' w l.
Proof. unfold lock_ok; intros (_ & H & _); set_solver. Qed.

Lemma field_ok_grows g g' w f : grows g g' → field_ok g w f → field_ok g' w f.
Proof. unfold field_ok; intros (? & _ & H); destruct f.2; [intros []; split; [set_solver|lia]|done]. Qed.

Lemma push_ok_grows g g' m ids : grows g g' → push_ok g m ids → push_ok g' m ids.
Proof. intros (_ & _ & H) Hm u Hu; destruct (Hm u Hu) as [c ?]; exists c; set_solver. Qed.

Lemma requires_grows g g' {X} (e : effect X) : grows g g' → requires g e → requires g' e.
Proof.
  intros Hg; destruct e; cbn; try done.
  - intros (? & w & ? & ?); eauto using lock_ok_grows.
  - intros (w & ? & ?); eauto using field_ok_grows.
  - by apply push_ok_grows.
Qed.

Lemma wp_grows {A} c g g' (p : prog A) (Q : ghost → A → Prop) :
  (∀ g g' a, grows g g' → Q g a → Q g' a) → grows g g' → wp c g p Q → wp c g' p Q.
Proof.
  intros HQ Hg; destruct p as [a|X e k]; cbn; [by apply HQ|].
  intros [Hr Hk]; split; [by eapply requires_grows|].
  intros g'' x Hg' Hx; apply Hk; [by etrans|done].
Qed.

Lemma wp_mono {A} c g (p : prog A) (P Q : ghost → A → Prop) :
  (∀ g' a, grows g g' → P g' a → Q g' a) → wp c g p P → wp c g p Q.
Proof.
  revert g; induction p as [a|X e k IH]; intros g HPQ; cbn; [by apply HPQ|].
  intros [Hr Hk]; split; [done|]; intros g' x Hg Hx.
  apply IH; [|by apply Hk]; intros g'' a Hg'; apply HPQ; by etrans.
Qed.

Lemma wp_bind {A B} c g (p : prog A) (f : A → prog B) (Q : ghost → B → Prop) :
  wp c g p (λ g a, wp c g (f a) Q) → wp c g (p ≫= f) Q.
Proof.
  revert g; induction p as [a|X e k IH]; intros g; cbn; [done|].
  intros [Hr Hk]; split; [done|]; intros g' x Hg Hx; by apply IH, Hk.
Qed.

Lemma wp_perform {X} c g (e : effect X) (Q : ghost → X → Prop) :
  requires g e → (∀ g' x, grows g g' → tells c g' e x → Q g' x) → wp c g (perform e) Q.
Proof. intros; split; [done|]; cbn; auto. Qed.

Lemma wp_skip {X A} c g (e : effect X) (k : X → prog A) (Q : ghost → A → Prop) :
  requires g e → (∀ g' x, grows g g' → tells c g' e x → wp c g' (k x) Q) → wp c g (perform e ≫= k) Q.
Proof. intros; by apply wp_bind, wp_perform. Qed.

(** ** The handlers keep what they rely on *)

Definition entry_ok (g : ghost) (w : string) (e : CacheEntry) : Prop :=
  (w, ce_clientId e, ce_userId e) ∈ g_readers g.

Definition tagged_entry (field : string * hash_value) : option CacheEntry :=
  match field.2 with Tagged u t => Some (mkEntry u t field.1) | Bare _ => None end.

Definition bare_entry (field : string * hash_value) : option CacheEntry :=
  match field.2 with Tagged _ _ => None | Bare t => Some (mkEntry "" t field.1) end.

Lemma parse_entries h :
  parseCacheHashToCollaborators h = (omap tagged_entry h, omap bare_entry h).
Proof.
  unfold parseCacheHashToCollaborators.
  assert (∀ acc, foldl parse_step acc h = (acc.1 ++ omap tagged_entry h, acc.2 ++ omap bare_entry h)) as ->; [|done].
  induction h as [|[f v] h IH]; intros [a b]; [by rewrite !app_nil_r|].
  cbn [foldl]; rewrite IH; destruct v; cbn; by rewrite <- app_assoc.
Qed.

Lemma split_entries t l :
  splitToExpiredAndStillActive t l =
  (filter (λ e, hasSessionExpired t (ce_lastSeen e)) l, filter (λ e, ¬ hasSessionExpired t (ce_lastSeen e)) l).
Proof.
  unfold splitToExpiredAndStillActive.
  assert (∀ acc, foldl (split_step t) acc l =
    (acc.1 ++ filter (λ e, hasSessionExpired t (ce_lastSeen e)) l,
     acc.2 ++ filter (λ e, ¬ hasSessionExpired t (ce_lastSeen e)) l)) as ->; [|done].
  induction l as [|e l IH]; intros [a b]; [by rewrite !app_nil_r|].
  cbn [foldl]; rewrite IH, !filter_cons; unfold split_step.
  destruct (hasSessionExpired t (ce_lastSeen e)); cbn; by rewrite <- app_assoc.
Qed.

(** The map of the users holds, of those entries seen, the latest one of each user. *)
Definition latest_of (l : list CacheEntry) (m : jmap string CacheEntry) : Prop :=
  jm_wf m ∧
  (∀ u e, (u, e) ∈ m → u = ce_userId e ∧ e ∈ l ∧ ∀ e', e' ∈ l → ce_userId e' = u → ce_lastSeen e' ≤ ce_lastSeen e) ∧
  (∀ e, e ∈ l → ce_userId e ∈ jm_keys m).

Lemma latest_of_step l m e : latest_of l m → latest_of (l ++ [e]) (latest_step m e).
Proof.
  intros (Hwf & Hm & Hall); unfold latest_step.
  assert (∀ e', e' ∈ l ++ [e] ↔ e' ∈ l ∨ e' = e) as Hin by set_solver.
  assert (∀ e0, (∀ e', e' ∈ l → ce_userId e' = ce_userId e → ce_lastSeen e' ≤ ce_lastSeen e) →
    e0 = e → latest_of (l ++ [e]) (jm_set m (ce_userId e) e0)) as Hset.
  { intros ? Hmax ->; split_and!.
    - by apply jm_wf_set.
    - intros u e1 He1.
      pose proof (jm_elem_get _ _ _ (jm_wf_set m (ce_userId e) e Hwf) He1) as Hg.
      destruct (decide (u = ce_userId e)) as [->|Hne].
      + rewrite jm_get_set in Hg; simplify_eq; split_and!; [done|set_solver|].
        intros e' [?| ->]%Hin ?; [auto|lia].
      + rewrite jm_get_set_ne in Hg by done; apply jm_get_Some_elem in Hg.
        destruct (Hm _ _ Hg) as (-> & ? & Hmax'); split_and!; [done|set_solver|].
        intros e'' [?| ->]%Hin ?; [auto|congruence].
    - intros e' [He'| ->]%Hin; rewrite jm_keys_set; case_decide; set_solver. }
  destruct (jm_get m (ce_userId e)) as [x|] eqn:Hx.
  - destruct (Hm _ _ (jm_get_Some_elem _ _ _ Hx)) as (Hu & Hl & Hmax).
    destruct (Z.gtb_spec (ce_lastSeen e) (ce_lastSeen x)).
    + apply Hset; [|done]; intros e' ??; specialize (Hmax e'); naive_solver lia.
    + split_and!; [done| |].
      * intros u e' He'; destruct (Hm _ _ He') as (-> & ? & Hmax'); split_and!; [done|set_solver|].
        intros e1 [?| ->]%Hin Heq; [auto|].
        pose proof (jm_elem_get _ _ _ Hwf He') as Hg; rewrite <- Heq, Hx in Hg; simplify_eq; lia.
      * intros e' [?| ->]%Hin; [auto|by eapply jm_get_key].
  - apply Hset; [|done]; intros e' He' Heq; apply Hall in He'; rewrite Heq in He'.
    by apply jm_get_None in Hx.
Qed.

Lemma latest_of_foldl l : latest_of l (foldl latest_step [] l).
Proof.
  induction l as [|e l IH] using rev_ind.
  - split_and!; [constructor|set_solver|set_solver].
  - rewrite foldl_app; by apply latest_of_step.
Qed.

Lemma deduplicate_elem l e :
  e ∈ deduplicate l → e ∈ l ∧ ∀ e', e' ∈ l → ce_userId e' = ce_userId e → ce_lastSeen e' ≤ ce_lastSeen e.
Proof.
  destruct (latest_of_foldl l) as (_ & Hm & _); unfold deduplicate, jm_vals.
  intros ([u e'] & -> & Hin)%list_elem_of_fmap; destruct (Hm _ _ Hin) as (-> & ? & ?); auto.
Qed.

Lemma deduplicate_users l :
  NoDup (ce_userId <$> deduplicate l) ∧ ∀ e, e ∈ l → ce_userId e ∈ ce_userId <$> deduplicate l.
Proof.
  destruct (latest_of_foldl l) as (Hwf & Hm & Hall).
  assert (ce_userId <$> deduplicate l = jm_keys (foldl latest_step [] l)) as ->; [|done].
  unfold deduplicate, jm_vals, jm_keys; rewrite <- list_fmap_compose.
  apply list_fmap_ext; intros i [u e] Hi; cbn.
  apply list_elem_of_lookup_2, Hm in Hi; naive_solver.
Qed.

Lemma collaborator_field now_ h e :
  e ∈ deduplicate (splitToExpiredAndStillActive now_ (parseCacheHashToCollaborators h).1).2 →
  (ce_clientId e, Tagged (ce_userId e) (ce_lastSeen e)) ∈ h.
Proof.
  rewrite parse_entries, split_entries; cbn.
  intros [[_ Hin]%list_elem_of_filter _]%deduplicate_elem.
  apply list_elem_of_omap in Hin as ([f v] & Hin & He).
  destruct v; cbn in He; [|done]; by injection He as <-.
Qed.

Definition entries_ok (w : string) (g : ghost) (cs : list CacheEntry) : Prop := Forall (entry_ok g w) cs.

Lemma wp_getHash c g key :
  wp c g (getHash key) (λ g' h, ∀ w h', key = formWorkflowCacheKey w → h = Some h' → Forall (field_ok g' w) h').
Proof.
  apply wp_skip; [done|]; intros g1 h _ Hh; cbn in Hh; destruct h as [|f h]; cbn.
  - split; [done|]; intros g2 [] _ _ w h' _ Heq; naive_solver.
  - intros w h' Hk [= <-]; auto.
Qed.

Lemma wp_getCollaborators c g w : wp c g (getCollaborators w) (entries_ok w).
Proof.
  apply wp_bind; eapply wp_mono, wp_getHash; cbn; intros g1 [h|] _ Hh; [|by constructor].
  specialize (Hh _ _ eq_refl eq_refl).
  apply wp_skip; [done|]; intros g2 t Hg Ht.
  assert (∀ g3, grows g1 g3 → entries_ok w g3
    (deduplicate (splitToExpiredAndStillActive t (parseCacheHashToCollaborators h).1).2)) as Hok.
  { intros g3 Hg3; apply Forall_forall; intros e He%collaborator_field.
    rewrite Forall_forall in Hh; apply Hh in He; by apply (field_ok_grows _ _ _ _ Hg3) in He as []. }
  destruct (parseCacheHashToCollaborators h) as [valid invalid]; cbn [fst snd] in Hok.
  destruct (splitToExpiredAndStillActive t valid) as [expired active]; cbn [fst snd] in Hok.
  apply wp_bind; case_bool_decide; [by apply Hok|].
  apply wp_perform; [done|]; intros g3 [] Hg3 _; apply Hok; by etrans.
Qed.

Lemma collaborators_push w m g cs :
  entries_ok w g cs → push_workflow m = w → push_ok g m (ce_userId <$> cs).
Proof.
  intros Hcs <- u (e & -> & He)%list_elem_of_fmap.
  exists (ce_clientId e); by apply (proj1 (Forall_forall _ _) Hcs).
Qed.

Definition anything {A} (_ : ghost) (_ : A) : Prop := True.

Lemma wp_send_to_collaborators c g w m : push_workflow m = w → wp c g (send_to_collaborators w m) anything.
Proof.
  intros Hm; apply wp_bind; eapply wp_mono, wp_getCollaborators; intros g' cs _ Hcs; cbn.
  case_bool_decide; [done|]; apply wp_perform; [by eapply collaborators_push|done].
Qed.

Lemma wp_sendWorkflowUsersChangedMessage c g w : wp c g (sendWorkflowUsersChangedMessage w) anything.
Proof.
  apply wp_bind; eapply wp_mono, wp_getCollaborators; intros g' cs _ Hcs; cbn.
  case_bool_decide; [done|]; apply wp_skip; [done|]; intros g2 users Hg2 _.
  apply wp_perform; [|done]; cbn; eapply push_ok_grows; [done|by eapply collaborators_push].
Qed.

Lemma wp_getWriteLock c g w :
  wp c g (getWriteLock w) (λ g' lock, ∀ l, lock = Some l → lock_ok g' w l).
Proof.
  apply wp_skip; [done|]; intros g' [l|] _ Hl; cbn; [|done].
  destruct (_ || _); [done|]; intros l' [= <-]; by apply Hl.
Qed.

Lemma wp_set_lock c g w l : lock_ok g w l →
  wp c g (perform (Set_ (formWriteLockCacheKey w) l writeLockTtl)) anything.
Proof. intros; apply wp_perform; [|done]; split; [done|by exists w]. Qed.

Lemma wp_deleteFromHash c g key f : wp c g (deleteFromHash key f) anything.
Proof. unfold deleteFromHash; case_bool_decide; [done|by apply wp_perform]. Qed.

Lemma wp_renewWriteLock c g w c' : wp c g (renewWriteLock w c') anything.
Proof.
  apply wp_bind; eapply wp_mono, wp_getWriteLock; intros g' [l|] _ Hl; cbn; [|done].
  case_bool_decide; [|done]; by apply wp_set_lock, Hl.
Qed.

(** A lock is taken by the client of the handler, for a user who may write. *)
Lemma wp_take_lock c g w u : (w, c, u) ∈ g_writers g →
  wp c g (_ ← setWriteLock w c u; mret true) (@anything bool).
Proof. intros; apply wp_bind; eapply wp_mono, wp_set_lock; done. Qed.

Lemma wp_handleWriteAccessRequested c g u w force :
  wp c g (handleWriteAccessRequested u c w force) anything.
Proof.
  apply wp_skip; [done|]; intros g1 access _ Hw; cbn in Hw; destruct access; cbn [negb]; [|done].
  specialize (Hw eq_refl).
  apply wp_bind, (wp_mono _ _ _ anything).
  { intros g2 acquired _ _; destruct acquired; cbn; [by apply wp_send_to_collaborators|done]. }
  destruct force; (apply wp_bind; eapply wp_mono, wp_getWriteLock; intros g2 lock Hg2 _; cbn beta).
  - assert ((w, c, u) ∈ g_writers g2) by (destruct Hg2 as (_ & ? & _); set_solver).
    destruct lock; [case_bool_decide; [done|]|]; by apply wp_take_lock.
  - assert ((w, c, u) ∈ g_writers g2) by (destruct Hg2 as (_ & ? & _); set_solver).
    destruct lock; [case_bool_decide; [done|]|]; by apply wp_take_lock.
Qed.

Lemma wp_release c g w :
  wp c g (_ ← releaseWriteLock w; sendWriteAccessReleasedMessage w) anything.
Proof. apply wp_skip; [done|]; intros; by apply wp_send_to_collaborators. Qed.

Lemma wp_handleUserMessage c g u msg : wp c g (handleUserMessage u c msg) anything.
Proof.
  destruct msg as [w|w|w force|w|w]; cbn [handleUserMessage].
  - apply wp_skip; [done|]; intros g1 access _ Hr; cbn in Hr; destruct access; cbn [negb]; [|done].
    specialize (Hr eq_refl); split; [done|]; intros g2 t Hg2 Ht; cbn in Ht.
    split.
    { exists w; split; [done|]; destruct Hg2 as (_ & _ & ?); split; cbn; [set_solver|lia]. }
    intros g3 [] _ _; apply wp_sendWorkflowUsersChangedMessage.
  - apply wp_skip; [done|]; intros g1 access _ _; destruct access; cbn [negb]; [|done].
    apply wp_bind; eapply wp_mono, wp_getWriteLock; intros g2 lock _ _; cbn beta.
    apply wp_bind, (wp_mono _ _ _ anything).
    + intros g3 [] _ _; apply wp_bind; eapply wp_mono, wp_deleteFromHash.
      intros; apply wp_sendWorkflowUsersChangedMessage.
    + destruct (held_by _ _); [apply wp_release|done].
  - apply wp_handleWriteAccessRequested.
  - apply wp_bind; eapply wp_mono, wp_getWriteLock; intros g2 lock _ _; cbn beta.
    destruct (held_by _ _); [apply wp_release|done].
  - apply wp_renewWriteLock.
Qed.

(** ** The invariant of the system *)

Lemma formWorkflowCacheKey_inj w w' : formWorkflowCacheKey w = formWorkflowCacheKey w' → w = w'.
Proof. apply (inj (String.append "collaboration:")). Qed.

Lemma formWriteLockCacheKey_inj w w' : formWriteLockCacheKey w = formWriteLockCacheKey w' → w = w'.
Proof. apply (inj (String.append "collaboration:write-lock:")). Qed.

Definition redis_ok (g : ghost) (key : string) (e : redis_entry) : Prop :=
  match e with
  | Text l expiry =>
      expiry ≤ g_now g + writeLockTtl ∧ ∃ w, key = formWriteLockCacheKey w ∧ lock_ok g w l
  | Hash h => ∃ w, key = formWorkflowCacheKey w ∧ Forall (field_ok g w) h
  end.

Definition task_ok (g : ghost) (t : task) : Prop := wp (t_clientId t) g (t_prog t) anything.

Record inv (g : ghost) (s : world) : Prop := mkInv {
  inv_ghost : g = mkGhost (now s) (writers s) (readers s);
  inv_store : map_Forall (redis_ok g) (store s);
  inv_tasks : Forall (task_ok g) (tasks s);
  inv_pushed : Forall (λ p, push_ok g p.1 p.2) (pushed s);
}.

Definition ghost_of (s : world) : ghost := mkGhost (now s) (writers s) (readers s).

Lemma redis_ok_grows g g' key e : grows g g' → redis_ok g key e → redis_ok g' key e.
Proof.
  intros Hg; destruct e; cbn.
  - intros (? & w & ? & ?); split; [destruct Hg; lia|]; eauto using lock_ok_grows.
  - intros (w & ? & Hf); exists w; split; [done|]; eapply Forall_impl; [done|]; intros; by eapply field_ok_grows.
Qed.

(** What the state holds stays right when time passes and further checks succeed. *)
Lemma inv_grow s g' s' : inv (ghost_of s) s → grows (ghost_of s) g' → g' = ghost_of s' →
  store s' = store s → tasks s' = tasks s → pushed s' = pushed s → inv g' s'.
Proof.
  intros [_ Hs Ht Hp] Hg -> Es Et Ep; split; [done| | |]; rewrite ?Es, ?Et, ?Ep.
  - eapply map_Forall_impl; [done|]; intros; by eapply redis_ok_grows.
  - eapply Forall_impl; [done|]; intros; by eapply wp_grows.
  - eapply Forall_impl; [done|]; intros; by eapply push_ok_grows.
Qed.

Lemma inv_set_store g s f : inv g s → map_Forall (redis_ok g) (f (store s)) → inv g (set_store f s).
Proof. by intros [-> ? ? ?] ?; split. Qed.

Lemma inv_set_tasks g s f : inv g s → Forall (task_ok g) (f (tasks s)) → inv g (set_tasks f s).
Proof. by intros [-> ? ? ?] ?; split. Qed.

Lemma entry_at_ok s key e : inv (ghost_of s) s → entry_at s key = Some e → redis_ok (ghost_of s) key e.
Proof.
  intros [_ Hs _ _]; unfold entry_at; destruct (store s !! key) as [[l x|h]|] eqn:Hk; [|intros [= <-]|done].
  - case_match; [|done]; intros [= <-]; by apply Hs in Hk.
  - by apply Hs in Hk.
Qed.

Lemma hset_inv s key f v s' :
  inv (ghost_of s) s → requires (ghost_of s) (HSet key f v) → hset s key f v = Some s' →
  inv (ghost_of s) s' ∧ ghost_of s' = ghost_of s.
Proof.
  intros Hinv (w & -> & Hf); unfold hset.
  pose proof (entry_at_ok s (formWorkflowCacheKey w)) as He.
  destruct (entry_at s _) as [[|h]|]; [done|intros [= <-]..]; (split; [|done]).
  - destruct (He _ Hinv eq_refl) as (w' & <-%formWorkflowCacheKey_inj & Hh).
    apply inv_set_store, map_Forall_insert_2; [done| |apply Hinv]; exists w; split; [done|].
    apply Forall_forall; intros p [->|Hp]%jm_elem_set; [done|by eapply Forall_forall in Hh].
  - apply inv_set_store, map_Forall_insert_2; [done| |apply Hinv]; exists w; split; [done|by constructor].
Qed.

Lemma hdel_inv s key f s' :
  inv (ghost_of s) s → hdel s key f = Some s' → inv (ghost_of s) s' ∧ ghost_of s' = ghost_of s.
Proof.
  intros Hinv; unfold hdel; pose proof (entry_at_ok s key) as He.
  destruct (entry_at s key) as [[|h]|]; [done|intros [= <-]..]; (split; [|done]); [|done].
  apply inv_set_store; [done|].
  destruct (He _ Hinv eq_refl) as (w & -> & Hh).
  assert (Forall (field_ok (ghost_of s) w) (jm_del h f)) as Hd.
  { apply Forall_forall; intros [f' v'] [_ Hp]%jm_elem_del; by eapply Forall_forall in Hh. }
  destruct (jm_del h f); [by apply map_Forall_delete, Hinv|].
  apply map_Forall_insert_2; [by exists w|apply Hinv].
Qed.

Lemma inv_execute getByIds c answer {X} (e : effect X) s x s' :
  inv (ghost_of s) s → requires (ghost_of s) e → execute getByIds c answer e s = Some (x, s') →
  inv (ghost_of s') s' ∧ grows (ghost_of s) (ghost_of s') ∧ tells c (ghost_of s') e x.
Proof.
  assert (∀ g : ghost, grows g g) as Hrefl by done.
  intros Hinv Hr; destruct e as [u w|u w|ids| |key|key l ttl|key|key f v|key f|key|key|m ids|key fields];
    cbn [execute]; intros Hx.
  - injection Hx as <- <-; destruct answer; [|done].
    assert (grows (ghost_of s) (ghost_of (grant_read (w, c, u) s))) as Hg by (split; cbn; [lia|set_solver]).
    split_and!; [by eapply inv_grow|done|cbn; set_solver].
  - injection Hx as <- <-; destruct answer; [|done].
    assert (grows (ghost_of s) (ghost_of (grant_write (w, c, u) s))) as Hg by (split; cbn; [lia|set_solver]).
    split_and!; [by eapply inv_grow|done|cbn; set_solver].
  - by injection Hx as <- <-.
  - injection Hx as <- <-; split_and!; [done..|cbn; lia].
  - pose proof (entry_at_ok s key) as He.
    destruct (entry_at s key) as [[l x'|h]|]; [injection Hx as <- <-|done|by injection Hx as <- <-].
    split_and!; [done..|]; intros w l' -> [= <-].
    by destruct (He _ Hinv eq_refl) as (_ & w' & <-%formWriteLockCacheKey_inj & Hl).
  - injection Hx as <- <-; split_and!; [|done..].
    destruct Hr as (? & w & -> & Hl); apply inv_set_store; [done|].
    apply map_Forall_insert_2; [|apply Hinv]; split; [cbn; lia|by exists w].
  - injection Hx as <- <-; split_and!; [|done..]; by apply inv_set_store, map_Forall_delete, Hinv.
  - destruct (hset s key f v) as [s1|] eqn:Hh; [|done]; injection Hx as <- <-.
    destruct (hset_inv _ _ _ _ _ Hinv Hr Hh) as [? ->]; done.
  - destruct (hdel s key f) as [s1|] eqn:Hh; [|done]; injection Hx as <- <-.
    destruct (hdel_inv _ _ _ _ Hinv Hh) as [? ->]; done.
  - pose proof (entry_at_ok s key) as He.
    destruct (entry_at s key) as [[|h]|]; [done|injection Hx as <- <-..]; (split_and!; [done..|]);
      intros w ->; [|done].
    by destruct (He _ Hinv eq_refl) as (w' & <-%formWorkflowCacheKey_inj & Hl).
  - by injection Hx as <- <-.
  - injection Hx as <- <-; split_and!; [|done..].
    destruct Hinv as [? ? ? Hp]; split; [done..|]; cbn; apply Forall_app; split; [done|by constructor].
  - injection Hx as <- <-; split_and!; [|done..].
    apply inv_set_tasks; [done|]; apply Forall_app; split; [apply Hinv|].
    apply Forall_fmap, Forall_forall; intros f _; apply wp_deleteFromHash.
Qed.

Lemma inv_replace s i t p : inv (ghost_of s) s →
  wp (t_clientId t) (ghost_of s) p anything → inv (ghost_of (replace i t p s)) (replace i t p s).
Proof. change (ghost_of (replace i t p s)) with (ghost_of s); intros Hinv ?; apply inv_set_tasks; [done|]; by apply Forall_insert; [apply Hinv|]. Qed.

Lemma inv_start s u c p : inv (ghost_of s) s → wp c (ghost_of s) p anything →
  inv (ghost_of (start u c p s)) (start u c p s).
Proof.
  change (ghost_of (start u c p s)) with (ghost_of s); intros Hinv ?; apply inv_set_tasks; [done|]; apply Forall_app; split; [apply Hinv|by constructor].
Qed.

Lemma inv_resume getByIds i answer lost s :
  inv (ghost_of s) s → inv (ghost_of (resume getByIds i answer lost s)) (resume getByIds i answer lost s).
Proof.
  intros Hinv; unfold resume; destruct (tasks s !! i) as [t|] eqn:Ht; [|done].
  pose proof (Forall_lookup_1 _ _ _ _ (inv_tasks _ _ Hinv) Ht) as Hok; unfold task_ok in Hok.
  destruct (t_prog t) as [|X e k]; [done|]; destruct Hok as [Hr Hk].
  destruct (execute getByIds (t_clientId t) answer e s) as [[x s']|] eqn:He; [|by apply inv_replace].
  destruct (inv_execute _ _ _ _ _ _ _ Hinv Hr He) as (Hinv' & Hg & Hx).
  destruct lost; apply inv_replace; auto; done.
Qed.

Lemma inv_step getByIds s ev : inv (ghost_of s) s → inv (ghost_of (step getByIds s ev)) (step getByIds s ev).
Proof.
  intros Hinv; destruct ev as [u c msg|w u|w st ck|i b|i|i b|d|key]; cbn [step].
  - apply inv_start; [done|apply wp_handleUserMessage].
  - apply inv_start; [done|by apply wp_send_to_collaborators].
  - apply inv_start; [done|by apply wp_send_to_collaborators].
  - by apply inv_resume.
  - destruct (tasks s !! i) as [t|]; [by apply inv_replace|done].
  - by apply inv_resume.
  - eapply inv_grow; [done| |done..]; split; cbn; [lia|done].
  - change (ghost_of (set_store _ s)) with (ghost_of s).
    apply inv_set_store; [done|]; apply map_Forall_delete, Hinv.
Qed.

Lemma run_events_inv getByIds evs : inv (ghost_of (run_events getByIds evs)) (run_events getByIds evs).
Proof.
  unfold run_events; induction evs as [|ev evs IH] using rev_ind; [by split|].
  rewrite foldl_app; by apply inv_step.
Qed.

(** However the handlers interleave, and whichever commands fail: the lock of a workflow is
    held for a client and user that were allowed to write it when it was requested, and
    expires within its time to live; the messages about a workflow go to users a client of
    which was allowed to read it when it opened it. *)
Theorem collaboration_checks_access (getByIds : list string → list string) (evs : list event) :
  let s := run_events getByIds evs in
  (∀ w l expiry, entry_at s (formWriteLockCacheKey w) = Some (Text l expiry) →
     (w, lk_clientId l, lk_userId l) ∈ writers s ∧ now s < expiry ≤ now s + writeLockTtl) ∧
  (∀ m ids u, (m, ids) ∈ pushed s → u ∈ ids → ∃ c, (push_workflow m, c, u) ∈ readers s).
Proof.
  cbn zeta; pose proof (run_events_inv getByIds evs) as Hinv; split.
  - intros w l x He; destruct (entry_at_ok _ _ _ Hinv He) as (? & w' & <-%formWriteLockCacheKey_inj & Hl).
    split; [exact Hl|]; unfold entry_at in He; repeat case_match; naive_solver lia.
  - intros m ids u Hm; exact (proj1 (Forall_forall _ _) (inv_pushed _ _ Hinv) _ Hm u).
Qed.

(** ** Interleavings that break the lock *)

Definition all_users (ids : list string) : list string := ids.

(** Both clients have the workflow open. *)
Definition opened_by_both : list event :=
  [Receive "alice" "tab1" (workflowOpened "w"); Receive "bob" "tab2" (workflowOpened "w")] ++
  concat (replicate 10 [Resume 0 true; Resume 1 true]).

(** Two requests are checked before either sets the lock: both clients are told that they
    have it. *)
Example both_acquire :
  let s := run_events all_users (opened_by_both ++
    [Receive "alice" "tab1" (writeAccessRequested "w" false);
     Receive "bob" "tab2" (writeAccessRequested "w" false)] ++
    concat (replicate 10 [Resume 2 true; Resume 3 true])) in
  drop 2 (pushed s) = [(writeAccessAcquired "w" "alice" "tab1", ["alice"; "bob"]);
                       (writeAccessAcquired "w" "bob" "tab2", ["alice"; "bob"])].
Proof. vm_compute. reflexivity. Qed.

Definition lock_of (s : world) (w : string) : option WriteLock :=
  match entry_at s (formWriteLockCacheKey w) with Some (Text l _) => Some l | _ => None end.

Definition alice_writes : list event :=
  Receive "alice" "tab1" (writeAccessRequested "w" false) :: replicate 5 (Resume 0 true).

(** A heartbeat reads the lock, another tab takes it by force, then the heartbeat sets it
    again as it was: the tab that was told it has the lock does not have it. *)
Example late_heartbeat_takes_back :
  let evs := alice_writes ++
    [Receive "alice" "tab1" (writeAccessHeartbeat "w"); Resume 1 true;
     Receive "alice" "tab3" (writeAccessRequested "w" true)] ++ replicate 3 (Resume 2 true) in
  lock_of (run_events all_users evs) "w" = Some (mkLock "tab3" "alice") ∧
  lock_of (run_events all_users (evs ++ [Resume 1 true])) "w" = Some (mkLock "tab1" "alice").
Proof. vm_compute. done. Qed.

(** A tab that closes reads its own lock, another tab takes the lock by force, then the
    first deletes it. *)
Example late_release_frees_other :
  let evs := alice_writes ++
    [Receive "alice" "tab1" (workflowClosed "w"); Resume 1 true; Resume 1 true;
     Receive "alice" "tab3" (writeAccessRequested "w" true)] ++ replicate 3 (Resume 2 true) in
  lock_of (run_events all_users evs) "w" = Some (mkLock "tab3" "alice") ∧
  lock_of (run_events all_users (evs ++ [Resume 1 true])) "w" = None.
Proof. vm_compute. done. Qed.

(** The removal of an expired client runs after the client opened the workflow again, and
    removes its new entry. *)
Example late_removal_hides_client :
  let evs := [Receive "alice" "tab1" (workflowOpened "w")] ++ replicate 8 (Resume 0 true) ++
    [Tick 900001; Update "w" "bob"] ++ replicate 3 (Resume 1 true) ++
    [Receive "alice" "tab1" (workflowOpened "w"); Resume 3 true; Resume 3 true; Resume 3 true] in
  store (run_events all_users evs) !! formWorkflowCacheKey "w" = Some (Hash [("tab1", Tagged "alice" 900001)]) ∧
  store (run_events all_users (evs ++ [Resume 2 true])) !! formWorkflowCacheKey "w" = None.
Proof. vm_compute. done. Qed.
