(* ===== verification/CollaborationLease.v ===== *)
(** CollaborationLease: the collaborators and the write lock when messages do not overlap.

    What [getCollaborators] returns and removes, and the lock of a workflow as a lease. *)

From Stdlib Require Import ZArith Lia.
From stdpp Require Import prelude list gmap strings.
From S2P Require Import Prelude Collaboration.

#[local] Open Scope Z_scope.

(** * One message after another *)

Section Sequential.

Context (getByIds : list string → list string).
Context (hasReadAccess hasWriteAccess : string → string → bool).

Definition answer_of {X} (e : effect X) : bool :=
  match e with
  | HasReadAccess u w => hasReadAccess u w
  | HasWriteAccess u w => hasWriteAccess u w
  | _ => true
  end.

(** A program run to its end, with nothing in between. *)
Fixpoint run {A} (c : string) (p : prog A) (s : world) : option (A * world) :=
  match p with
  | Return a => Some (a, s)
  | Perform e k =>
      match execute getByIds c (answer_of e) e s with
      | Some (x, s') => run c (k x) s'
      | None => None
      end
  end.

Lemma run_bind {A B} c (p : prog A) (f : A → prog B) s :
  run c (p ≫= f) s = '(a, s') ← run c p s; run c (f a) s'.
Proof.
  revert s; induction p as [a|X e k IH]; intros s; cbn; [done|].
  destruct (execute _ _ _ _ _) as [[x s']|]; [apply IH|done].
Qed.

Lemma execute_set_tasks c b {X} (e : effect X) i t s :
  (i < length (tasks s))%nat →
  execute getByIds c b e (set_tasks <[i := t]> s) =
  (λ r, (r.1, set_tasks <[i := t]> r.2)) <$> execute getByIds c b e s.
Proof.
  intros Hi; destruct e; cbn [execute]; try (by destruct b); try done;
    unfold hset, hdel; change (entry_at (set_tasks _ s)) with (entry_at s).
  - by destruct (entry_at s key) as [[]|].
  - by destruct (entry_at s key) as [[]|].
  - by destruct (entry_at s key) as [[]|].
  - by destruct (entry_at s key) as [[]|].
  - unfold set_tasks; cbn [tasks now store pushed writers readers fmap option_fmap option_map fst snd].
    by rewrite insert_app_l.
Qed.

Lemma execute_tasks c b {X} (e : effect X) s x s' :
  execute getByIds c b e s = Some (x, s') → ∃ ts, tasks s' = tasks s ++ ts.
Proof.
  destruct e; cbn [execute]; unfold hset, hdel; intros He;
    repeat case_match; simplify_option_eq; try (exists []; by rewrite app_nil_r); eexists; done.
Qed.

(** The run is one schedule of the task: resuming it as often as it has effects. *)
Lemma run_schedule c u p s i s' :
  (i < length (tasks s))%nat → run c p s = Some ((), s') →
  ∃ answers, foldl (step getByIds) (set_tasks <[i := mkTask u c p]> s) (Resume i <$> answers)
    = set_tasks <[i := mkTask u c (Return ())]> s'.
Proof.
  revert s; induction p as [[]|X e k IH]; intros s Hi; cbn [run].
  { intros [= <-]; by exists []. }
  destruct (execute _ _ _ _ _) as [[x s1]|] eqn:He; [|done]; intros Hrun.
  destruct (execute_tasks _ _ _ _ _ _ He) as [ts Hts].
  destruct (IH x s1) as [answers Ha]; [rewrite Hts, length_app; lia|done|].
  exists (answer_of e :: answers); rewrite <- Ha; cbn [fmap list_fmap foldl step]; f_equal.
  unfold resume; cbn [tasks set_tasks]; rewrite list_lookup_insert_eq by done; cbn [t_prog t_clientId].
  rewrite execute_set_tasks, He by done; cbn; unfold replace, set_tasks; cbn; f_equal.
  by rewrite list_insert_insert_eq.
Qed.

(** ** The collaborators of a workflow *)

Definition fields_at (s : world) (key : string) : jmap string hash_value :=
  match entry_at s key with Some (Hash h) => h | _ => [] end.

Definition no_text (s : world) (key : string) : Prop := ∀ l x, entry_at s key ≠ Some (Text l x).

Lemma set_tasks_id s : set_tasks (λ ts, ts ++ []) s = s.
Proof. destruct s; unfold set_tasks; cbn; by rewrite app_nil_r. Qed.

Definition removal (key field : string) : task := mkTask "" "" (deleteFromHash key field).

Lemma run_getCollaborators c w s (key := formWorkflowCacheKey w) :
  no_text s key →
  let '(valid, invalid) := parseCacheHashToCollaborators (fields_at s key) in
  let '(expired, stillActive) := splitToExpiredAndStillActive (now s) valid in
  run c (getCollaborators w) s =
    Some (deduplicate stillActive,
          set_tasks (λ ts, ts ++ (removal key <$> (ce_clientId <$> expired ++ invalid))) s).
Proof.
  intros Htext; unfold fields_at.
  destruct (parseCacheHashToCollaborators _) as [valid invalid] eqn:Hp.
  destruct (splitToExpiredAndStillActive _ _) as [expired stillActive] eqn:Hs.
  unfold getCollaborators; rewrite run_bind; fold key.
  assert (run c (getHash key) s = Some (match entry_at s key with Some (Hash h) => Some h | _ => None end, s)) as ->.
  { unfold getHash; rewrite run_bind; cbn; specialize (Htext); unfold no_text in Htext.
    destruct (entry_at s key) as [[l x|h]|] eqn:He; [by destruct (Htext l x)|..]; cbn; [|by rewrite He].
    destruct h; cbn; by rewrite ?He. }
  cbn [mbind option_bind].
  destruct (entry_at s key) as [[l x|h]|] eqn:He; [by destruct (Htext l x)| |].
  - rewrite run_bind; cbn; fold (parseCacheHashToCollaborators h); rewrite Hp; cbn.
    fold (splitToExpiredAndStillActive (now s) valid); rewrite Hs, run_bind.
    case_bool_decide as Hr; [rewrite Hr; cbn; by rewrite set_tasks_id|done].
  - rewrite parse_entries in Hp; cbn in Hp; simplify_eq.
    rewrite split_entries in Hs; cbn in Hs; simplify_eq; cbn; by rewrite set_tasks_id.
Qed.

Definition stale (t : Z) (v : hash_value) : Prop :=
  match v with Tagged _ seen => seen + inactivityCleanUpTime < t | Bare _ => True end.

Lemma expired_stale t seen : hasSessionExpired t seen ↔ seen + inactivityCleanUpTime < t.
Proof. unfold hasSessionExpired; destruct (Z.gtb_spec t (seen + inactivityCleanUpTime)); cbn; naive_solver lia. Qed.

(** A look at the collaborators returns one entry per user with a client that was seen in
    the last fifteen minutes, that of the client seen last, and starts the removal of
    exactly the clients not seen since, or written in the old format. *)
Theorem getCollaborators_spec c w s (key := formWorkflowCacheKey w) (h := fields_at s key) :
  no_text s key →
  ∃ collaborators removed,
    run c (getCollaborators w) s =
      Some (collaborators, set_tasks (λ ts, ts ++ (removal key <$> removed)) s) ∧
    NoDup (ce_userId <$> collaborators) ∧
    (∀ e, e ∈ collaborators →
       (ce_clientId e, Tagged (ce_userId e) (ce_lastSeen e)) ∈ h ∧
       ∀ client seen, (client, Tagged (ce_userId e) seen) ∈ h → seen ≤ ce_lastSeen e) ∧
    (∀ u, u ∈ ce_userId <$> collaborators ↔
       ∃ client seen, (client, Tagged u seen) ∈ h ∧ now s ≤ seen + inactivityCleanUpTime) ∧
    (∀ client, client ∈ removed ↔ ∃ v, (client, v) ∈ h ∧ stale (now s) v).
Proof.
  intros Htext; pose proof (run_getCollaborators c w s Htext) as Hrun; fold key h in Hrun.
  rewrite parse_entries, split_entries in Hrun.
  eexists _, _; split; [exact Hrun|]; clear Hrun.
  set (active := filter _ (omap tagged_entry h)).
  assert (∀ e, e ∈ active ↔ (ce_clientId e, Tagged (ce_userId e) (ce_lastSeen e)) ∈ h ∧
    now s ≤ ce_lastSeen e + inactivityCleanUpTime) as Hactive.
  { intros e; unfold active; rewrite list_elem_of_filter, list_elem_of_omap, expired_stale; split.
    - intros (Hn & [f v] & Hin & He); destruct v; [|done]; injection He as <-; split; [done|cbn in *; lia].
    - intros (Hin & Hn); split; [lia|]; eexists; split; [done|by destruct e]. }
  destruct (deduplicate_users active) as [Hnd Hall]; split_and!; [done| | |].
  - intros e He; destruct (deduplicate_elem _ _ He) as [[Hin Hn]%Hactive Hmax]; split; [done|].
    intros client seen Hc; destruct (decide (now s ≤ seen + inactivityCleanUpTime)); [|lia].
    apply (Hmax (mkEntry (ce_userId e) seen client)); [by apply Hactive|done].
  - intros u; split.
    + intros (e & -> & [[Hin Hn]%Hactive _]%deduplicate_elem)%list_elem_of_fmap; eauto.
    + intros (client & seen & ? & ?); apply (Hall (mkEntry u seen client)), Hactive; done.
  - intros client; rewrite list_elem_of_fmap; setoid_rewrite elem_of_app.
    setoid_rewrite list_elem_of_filter; setoid_rewrite list_elem_of_omap; setoid_rewrite expired_stale; split.
    + intros (e & -> & [(Hx & [f v] & Hin & He)|([f v] & Hin & He)]); destruct v; cbn in He; simplify_eq;
        eexists; split; try done; by cbn in *.
    + intros ([u seen|seen] & Hin & Hst); cbn in Hst.
      * exists (mkEntry u seen client); split; [done|left; split; [done|]]; eexists; split; [done|done].
      * exists (mkEntry "" seen client); split; [done|right]; eexists; split; [done|done].
Qed.

(** ** The lock as a lease *)

(** The holder of the lock of a workflow and the time until which it has it. *)
Definition lease : Type := option (WriteLock * Z).

Definition named (l : WriteLock) : bool :=
  negb (bool_decide (lk_clientId l = "") || bool_decide (lk_userId l = "")).

Definition lease_at (s : world) (w : string) : lease :=
  match entry_at s (formWriteLockCacheKey w) with
  | Some (Text l expiry) => if named l then Some (l, expiry) else None
  | _ => None
  end.

Inductive demand :=
| Acquire (l : WriteLock) (force : bool)
| GiveUp (clientId : string)
| Beat (clientId : string).

(** A free lease is granted; a lease that is held is granted again to the client that holds
    it and, on force, to another client of the same user. *)
Definition lease_step (t : Z) (d : demand) (current : lease) : lease :=
  match d, current with
  | Acquire l _, None => Some (l, t + writeLockTtl)
  | Acquire l force, Some (held, _) =>
      if (if force then bool_decide (lk_userId held = lk_userId l)
          else bool_decide (lk_clientId held = lk_clientId l))
      then Some (l, t + writeLockTtl) else current
  | GiveUp c, Some (held, _) => if bool_decide (lk_clientId held = c) then None else current
  | Beat c, Some (held, _) =>
      if bool_decide (lk_clientId held = c) then Some (held, t + writeLockTtl) else current
  | _, None => None
  end.

Definition msg_workflow (m : WorkflowMessage) : string :=
  match m with
  | workflowOpened w | workflowClosed w | writeAccessRequested w _
  | writeAccessReleaseRequested w | writeAccessHeartbeat w => w
  end.

(** What a message demands of the lease of its workflow. *)
Definition demand_of (u c : string) (m : WorkflowMessage) : option demand :=
  match m with
  | workflowOpened _ => None
  | workflowClosed w => if hasReadAccess u w then Some (GiveUp c) else None
  | writeAccessRequested w force => if hasWriteAccess u w then Some (Acquire (mkLock c u) force) else None
  | writeAccessReleaseRequested _ => Some (GiveUp c)
  | writeAccessHeartbeat _ => Some (Beat c)
  end.

Definition obey (t : Z) (d : option demand) (current : lease) : lease :=
  match d with Some d => lease_step t d current | None => current end.

(** A workflow whose key of collaborators is no key of a lock. *)
Definition plain (w : string) : Prop := ∀ v, w ≠ "write-lock:" +:+ v.

(** Each key holds what it is for. *)
Definition typed (s : world) : Prop :=
  (∀ w h, entry_at s (formWriteLockCacheKey w) ≠ Some (Hash h)) ∧
  (∀ w, plain w → no_text s (formWorkflowCacheKey w)).

(** No lock changes between [s] and [s']. *)
Definition keeps (s s' : world) : Prop :=
  now s' = now s ∧ typed s' ∧ ∀ w, lease_at s' w = lease_at s w.

Lemma plain_keys w v : plain w → formWorkflowCacheKey w ≠ formWriteLockCacheKey v.
Proof. intros Hw H; apply (Hw v), (inj (String.append "collaboration:")), H. Qed.

Lemma keeps_refl s : typed s → keeps s s.
Proof. by intros. Qed.

Lemma keeps_trans s1 s2 s3 : keeps s1 s2 → keeps s2 s3 → keeps s1 s3.
Proof. intros (H1 & _ & L1) (H2 & ? & L2); split_and!; [congruence|done|intros; by rewrite L2]. Qed.

(** A change that leaves the time and the keys alone. *)
Lemma keeps_same s s' : typed s → now s' = now s → store s' = store s → keeps s s'.
Proof.
  intros Ht Hn Hs; assert (∀ k, entry_at s' k = entry_at s k) as He.
  { intros k; unfold entry_at; by rewrite Hs, Hn. }
  split_and!; [done| |intros; unfold lease_at; by rewrite He].
  split; intros; unfold no_text; setoid_rewrite He; by apply Ht.
Qed.

Lemma entry_at_insert s k e k' : entry_at (set_store <[k := e]> s) k' =
  if decide (k = k') then match e with Text _ x => if now s <? x then Some e else None | _ => Some e end
  else entry_at s k'.
Proof.
  unfold entry_at; cbn [store set_store now]; case_decide as Hk; [subst|].
  - rewrite lookup_insert_eq; by destruct e.
  - by rewrite lookup_insert_ne.
Qed.

Lemma entry_at_delete s k k' : entry_at (set_store (delete k) s) k' =
  if decide (k = k') then None else entry_at s k'.
Proof.
  unfold entry_at; cbn [store set_store now]; case_decide as Hk; [subst|].
  - by rewrite lookup_delete_eq.
  - by rewrite lookup_delete_ne.
Qed.

(** A change of the hash of a plain workflow. *)
Lemma keeps_hash s w s' : typed s → plain w → now s' = now s →
  no_text s' (formWorkflowCacheKey w) →
  (∀ k, k ≠ formWorkflowCacheKey w → entry_at s' k = entry_at s k) → keeps s s'.
Proof.
  intros [Ht1 Ht2] Hw Hn Hx He.
  assert (∀ v, entry_at s' (formWriteLockCacheKey v) = entry_at s (formWriteLockCacheKey v)) as Hl.
  { intros v; apply He; intros Hk; by apply (plain_keys w v Hw). }
  split_and!; [done| |intros v; unfold lease_at; by rewrite Hl].
  split; [intros v h; rewrite Hl; apply Ht1|].
  intros v Hv; destruct (decide (v = w)) as [->|Hne]; [done|].
  intros l x; rewrite He; [by apply Ht2|by intros ?%formWorkflowCacheKey_inj].
Qed.

Definition silent (c : string) (p : prog unit) : Prop :=
  ∀ s, typed s → ∃ s', run c p s = Some ((), s') ∧ keeps s s'.

Lemma silent_bind c p q : silent c p → silent c q → silent c (_ ← p; q).
Proof.
  intros Hp Hq s Hs; destruct (Hp s Hs) as (s1 & E1 & K1).
  destruct (Hq s1) as (s2 & E2 & K2); [by apply K1|].
  exists s2; rewrite run_bind, E1; cbn; split; [done|by eapply keeps_trans].
Qed.

Lemma silent_collaborators c w (k : list CacheEntry → prog unit) :
  plain w → (∀ cs, silent c (k cs)) → silent c (cs ← getCollaborators w; k cs).
Proof.
  intros Hw Hk s Hs.
  destruct (getCollaborators_spec c w s) as (cs & removed & E & _); [by apply Hs|].
  rewrite run_bind, E; cbn.
  destruct (Hk cs (set_tasks (λ ts, ts ++ (removal (formWorkflowCacheKey w) <$> removed)) s)) as (s' & E' & K);
    [by apply (keeps_same s)|].
  exists s'; split; [done|]; eapply keeps_trans; [|done]; by apply keeps_same.
Qed.

Lemma silent_return c : silent c (mret ()).
Proof. intros s Hs; by exists s. Qed.

Lemma silent_push c m ids : silent c (perform (SendToUsers m ids)).
Proof. intros s Hs; eexists; split; [done|]; by apply keeps_same. Qed.

Lemma silent_send c w m : plain w → silent c (send_to_collaborators w m).
Proof.
  intros Hw; apply silent_collaborators; [done|]; intros cs; case_bool_decide;
    [apply silent_return|apply silent_push].
Qed.

Lemma silent_users_changed c w : plain w → silent c (sendWorkflowUsersChangedMessage w).
Proof.
  intros Hw; apply silent_collaborators; [done|]; intros cs; case_bool_decide; [apply silent_return|].
  intros s Hs; destruct (silent_push c (collaboratorsChanged w (active_collaborators cs (getByIds (ce_userId <$> cs))))
    (ce_userId <$> cs) s Hs) as (s' & E & K); by exists s'.
Qed.

Lemma silent_remove c w c' : plain w → silent c (removeCollaborator w c').
Proof.
  intros Hw; unfold removeCollaborator, deleteFromHash; case_bool_decide; [apply silent_return|].
  intros s Hs; cbn; unfold hdel.
  pose proof (proj2 Hs w Hw) as Hx; unfold no_text in Hx.
  destruct (entry_at s _) as [[l x|h]|] eqn:He; [by destruct (Hx l x)| |by exists s].
  eexists; split; [done|]; apply (keeps_hash _ w); [done..| |].
  - intros l x; destruct (jm_del h c'); [rewrite entry_at_delete|rewrite entry_at_insert]; by rewrite decide_True.
  - intros k Hk; destruct (jm_del h c'); [rewrite entry_at_delete|rewrite entry_at_insert]; by rewrite decide_False.
Qed.

Lemma silent_add c w u c' : plain w → silent c (addCollaborator w u c').
Proof.
  intros Hw s Hs; cbn; unfold hset.
  pose proof (proj2 Hs w Hw) as Hx; unfold no_text in Hx.
  destruct (entry_at s _) as [[l x|h]|] eqn:He; [by destruct (Hx l x)|..];
    (eexists; split; [done|]; apply (keeps_hash _ w); [done..| |]).
  1, 3: intros l x; rewrite entry_at_insert; by rewrite decide_True.
  all: intros k Hk; rewrite entry_at_insert; by rewrite decide_False.
Qed.

(** *** The commands on the lock *)

(** From [s] to [s'], the lease of [w] changes as demanded, and no other. *)
Definition changes (s s' : world) (w : string) (d : option demand) : Prop :=
  now s' = now s ∧ typed s' ∧
  ∀ v, lease_at s' v = if decide (v = w) then obey (now s) d (lease_at s v) else lease_at s v.

Lemma changes_keeps s s1 s2 w d : changes s s1 w d → keeps s1 s2 → changes s s2 w d.
Proof. intros (H1 & _ & L1) (H2 & ? & L2); split_and!; [congruence|done|intros; by rewrite L2, L1]. Qed.

Lemma keeps_changes s s1 s2 w d : keeps s s1 → changes s1 s2 w d → changes s s2 w d.
Proof. intros (H1 & _ & L1) (H2 & ? & L2); split_and!; [congruence|done|intros; by rewrite L2, L1, H1]. Qed.

(** A demand that leaves the lease as it is. *)
Lemma changes_none s w d : typed s → obey (now s) d (lease_at s w) = lease_at s w → changes s s w d.
Proof. intros; split_and!; [done..|intros v; by case_decide; subst]. Qed.

Lemma run_getWriteLock c w s : typed s → run c (getWriteLock w) s = Some (fst <$> lease_at s w, s).
Proof.
  intros [Hl _]; unfold getWriteLock, lease_at; rewrite run_bind; cbn.
  destruct (entry_at s _) as [[l x|h]|] eqn:He; [|by destruct (Hl w h)|done]; cbn.
  unfold named; by destruct (_ || _).
Qed.

Lemma lock_typed s s' w : typed s →
  (∀ h, entry_at s' (formWriteLockCacheKey w) ≠ Some (Hash h)) →
  (∀ k, k ≠ formWriteLockCacheKey w → entry_at s' k = entry_at s k) → typed s'.
Proof.
  intros [Ht1 Ht2] Hw He; split.
  - intros v h; destruct (decide (v = w)) as [->|Hne]; [apply Hw|].
    rewrite He; [apply Ht1|by intros ?%formWriteLockCacheKey_inj].
  - intros v Hv l x; rewrite He; [by apply Ht2|by apply plain_keys].
Qed.

Lemma lease_at_other s s' w v : v ≠ w → (∀ k, k ≠ formWriteLockCacheKey w → entry_at s' k = entry_at s k) →
  lease_at s' v = lease_at s v.
Proof. intros Hne He; unfold lease_at; rewrite He; [done|by intros ?%formWriteLockCacheKey_inj]. Qed.

Lemma run_set_lock c w l s d : typed s → named l = true →
  obey (now s) d (lease_at s w) = Some (l, now s + writeLockTtl) →
  ∃ s', run c (perform (Set_ (formWriteLockCacheKey w) l writeLockTtl)) s = Some ((), s') ∧ changes s s' w d.
Proof.
  intros Hs Hn Hd; eexists; split; [done|].
  set (s' := set_store _ s).
  assert (∀ k, entry_at s' k = if decide (formWriteLockCacheKey w = k) then Some (Text l (now s + writeLockTtl))
    else entry_at s k) as He.
  { intros k; unfold s'; rewrite entry_at_insert; case_decide; [|done].
    by replace (now s <? _) with true by (symmetry; apply Z.ltb_lt; unfold writeLockTtl; lia). }
  assert (∀ k, k ≠ formWriteLockCacheKey w → entry_at s' k = entry_at s k) as Hk.
  { intros k ?; rewrite He; by rewrite decide_False. }
  split_and!; [done| |].
  - eapply lock_typed; [done|intros h|done]; rewrite He; by rewrite decide_True.
  - intros v; case_decide as Hv; [subst v|by eapply lease_at_other].
    rewrite Hd; unfold lease_at; rewrite He, decide_True by done; by rewrite Hn.
Qed.

Lemma run_release c w s d : typed s → obey (now s) d (lease_at s w) = None →
  ∃ s', run c (releaseWriteLock w) s = Some ((), s') ∧ changes s s' w d.
Proof.
  intros Hs Hd; eexists; split; [done|].
  assert (∀ k, k ≠ formWriteLockCacheKey w → entry_at (set_store (delete (formWriteLockCacheKey w)) s) k = entry_at s k) as Hk.
  { intros k ?; rewrite entry_at_delete; by rewrite decide_False. }
  split_and!; [done| |].
  - eapply lock_typed; [done|intros h|done]; rewrite entry_at_delete; by rewrite decide_True.
  - intros v; case_decide as Hv; [subst v|by eapply lease_at_other].
    rewrite Hd; unfold lease_at; rewrite entry_at_delete; by rewrite decide_True.
Qed.

(** *** The handlers *)

(** A run that changes the lease of [w] as demanded. *)
Definition fulfils (c : string) (p : prog unit) (w : string) (d : option demand) : Prop :=
  ∀ s, typed s → ∃ s', run c p s = Some ((), s') ∧ changes s s' w d.

Lemma silent_fulfils c p w : silent c p → fulfils c p w None.
Proof.
  intros Hp s Hs; destruct (Hp s Hs) as (s' & E & K); exists s'; split; [done|].
  by apply (changes_keeps s s); [apply changes_none|].
Qed.

(** A change of the lock, then what tells the others. *)
Lemma run_then c p q s s1 w d :
  run c p s = Some ((), s1) → changes s s1 w d → silent c q →
  ∃ s', run c (_ ← p; q) s = Some ((), s') ∧ changes s s' w d.
Proof.
  intros E H Hq; destruct (Hq s1) as (s2 & E2 & K); [by apply H|].
  exists s2; rewrite run_bind, E; cbn; split; [done|by eapply changes_keeps].
Qed.

Lemma fulfils_read c u w (p : prog unit) d :
  fulfils c p w d →
  fulfils c (access ← perform (HasReadAccess u w); if negb access then mret () else p) w
    (if hasReadAccess u w then d else None).
Proof.
  intros Hp s Hs; cbn; destruct (hasReadAccess u w); cbn.
  - destruct (Hp (grant_read (w, c, u) s)) as (s' & E & H); [by apply (keeps_same s)|].
    exists s'; split; [done|]; eapply keeps_changes; [|done]; by apply keeps_same.
  - by apply (silent_fulfils _ _ _ (silent_return c)).
Qed.

Lemma fulfils_write c u w (p : prog unit) d :
  fulfils c p w d →
  fulfils c (access ← perform (HasWriteAccess u w); if negb access then mret () else p) w
    (if hasWriteAccess u w then d else None).
Proof.
  intros Hp s Hs; cbn; destruct (hasWriteAccess u w); cbn.
  - destruct (Hp (grant_write (w, c, u) s)) as (s' & E & H); [by apply (keeps_same s)|].
    exists s'; split; [done|]; eapply keeps_changes; [|done]; by apply keeps_same.
  - by apply (silent_fulfils _ _ _ (silent_return c)).
Qed.

Lemma lease_named s w l x : lease_at s w = Some (l, x) → named l = true.
Proof. unfold lease_at; repeat case_match; naive_solver. Qed.

(** Release the lock when the client holds it. *)
Lemma fulfils_give_up c w c' (p : prog unit) :
  silent c p →
  fulfils c (currentLock ← getWriteLock w;
    if held_by currentLock c' then _ ← releaseWriteLock w; p else mret ()) w (Some (GiveUp c')).
Proof.
  intros Hp s Hs; rewrite run_bind, run_getWriteLock by done; cbn [mbind option_bind].
  assert (obey (now s) (Some (GiveUp c')) (lease_at s w) =
    if held_by (fst <$> lease_at s w) c' then None else lease_at s w) as Ho.
  { destruct (lease_at s w) as [[l x]|]; [|done]; cbn; by case_bool_decide. }
  destruct (held_by _ c') eqn:Hh.
  - destruct (run_release c w s (Some (GiveUp c'))) as (s1 & E & H); [done|by rewrite Ho|].
    by eapply run_then.
  - exists s; split; [done|]; apply changes_none; [done|by rewrite Ho].
Qed.

Lemma fulfils_beat c w c' : fulfils c (renewWriteLock w c') w (Some (Beat c')).
Proof.
  intros s Hs; unfold renewWriteLock; rewrite run_bind, run_getWriteLock by done; cbn [mbind option_bind].
  destruct (lease_at s w) as [[l x]|] eqn:Hl; cbn [fmap option_fmap option_map fst held_by].
  - case_bool_decide as Hc.
    + apply run_set_lock; [done|by eapply lease_named|]; rewrite Hl; cbn; by rewrite bool_decide_true.
    + exists s; split; [done|]; apply changes_none; [done|]; rewrite Hl; cbn; by rewrite bool_decide_false.
  - exists s; split; [done|]; apply changes_none; [done|by rewrite Hl].
Qed.

(** Take the lock, tell whether it was taken. *)
Lemma run_take c w u s d : typed s → c ≠ "" → u ≠ "" →
  obey (now s) d (lease_at s w) = Some (mkLock c u, now s + writeLockTtl) →
  ∃ s', run c (_ ← setWriteLock w c u; mret true) s = Some (true, s') ∧ changes s s' w d.
Proof.
  intros Hs Hc Hu Hd.
  destruct (run_set_lock c w (mkLock c u) s d) as (s' & E & H); [done| |done|].
  { unfold named; cbn; by rewrite !bool_decide_false. }
  exists s'; rewrite run_bind; unfold setWriteLock; by rewrite E.
Qed.

Lemma run_acquire c w u force s (d := Some (Acquire (mkLock c u) force)) : typed s → c ≠ "" → u ≠ "" →
  ∃ acquired s', changes s s' w d ∧
    run c (if force then acquireWriteLockForce w c u
           else currentLock ← getWriteLock w;
             match currentLock with
             | Some lock =>
                 if bool_decide (lk_clientId lock ≠ c) then mret false
                 else _ ← setWriteLock w c u; mret true
             | None => _ ← setWriteLock w c u; mret true
             end) s = Some (acquired : bool, s').
Proof.
  intros Hs Hc Hu.
  assert (∀ k, obey (now s) d (lease_at s w) = k → k = Some (mkLock c u, now s + writeLockTtl) →
    ∃ acquired s', changes s s' w d ∧ run c (_ ← setWriteLock w c u; mret true) s = Some (acquired, s')) as Htake.
  { intros k Hk ->; destruct (run_take c w u s d) as (s' & E & H); [done..|]; by exists true, s'. }
  assert (obey (now s) d (lease_at s w) = lease_at s w →
    ∃ acquired s', changes s s' w d ∧ run c (mret false) s = Some (acquired, s')) as Hleave.
  { intros; exists false, s; split; [by apply changes_none|done]. }
  destruct force; unfold acquireWriteLockForce; rewrite run_bind, run_getWriteLock by done;
    cbn [mbind option_bind];
    (destruct (lease_at s w) as [[l x]|] eqn:Hl; cbn [fmap option_fmap option_map fst];
     [case_bool_decide as Hb|]).
  all: try (apply Hleave; cbn; by rewrite bool_decide_false).
  all: eapply Htake; [done|]; cbn; by rewrite ?bool_decide_true.
Qed.

Lemma handler_fulfils u c m : plain (msg_workflow m) → u ≠ "" → c ≠ "" →
  fulfils c (handleUserMessage u c m) (msg_workflow m) (demand_of u c m).
Proof.
  intros Hw Hu Hc; destruct m as [w|w|w force|w|w]; cbn [handleUserMessage demand_of msg_workflow] in *.
  - assert (None = if hasReadAccess u w then @None demand else None) as -> by by destruct (hasReadAccess u w).
    apply fulfils_read, silent_fulfils, silent_bind; [by apply silent_add|by apply silent_users_changed].
  - apply fulfils_read; intros s Hs.
    destruct (fulfils_give_up c w c (sendWriteAccessReleasedMessage w)) with (s := s) as (s1 & E & H);
      [by apply silent_send|done|].
    rewrite run_bind, run_getWriteLock by done; cbn [mbind option_bind].
    rewrite run_bind, run_getWriteLock in E by done; cbn [mbind option_bind] in E.
    eapply run_then; [exact E|exact H|].
    apply silent_bind; [by apply silent_remove|by apply silent_users_changed].
  - apply fulfils_write; intros s Hs.
    destruct (run_acquire c w u force s) as (acquired & s1 & H & E); [done..|].
    rewrite run_bind, E; cbn [mbind option_bind]; destruct acquired; cbn [negb]; [|by exists s1].
    destruct (silent_send c w (writeAccessAcquired w u c) Hw s1) as (s2 & E2 & K); [by apply H|].
    exists s2; split; [done|by eapply changes_keeps].
  - intros s Hs; destruct (fulfils_give_up c w c (sendWriteAccessReleasedMessage w) (silent_send c w _ Hw) s Hs)
      as (s1 & E & H).
    exists s1; split; [|done]; rewrite <- E; unfold handleWriteAccessReleaseRequested.
    rewrite !run_bind, run_getWriteLock by done; cbn [mbind option_bind]; by destruct (held_by _ c).
  - apply fulfils_beat.
Qed.

(** *** Any number of messages *)

(** A message of a client, some time after the message before. *)
Record arrival := mkArrival { ar_after : N; ar_userId : string; ar_clientId : string; ar_msg : WorkflowMessage }.

Fixpoint handle_all (l : list arrival) (s : world) : option world :=
  match l with
  | [] => Some s
  | mkArrival d u c m :: l =>
      '(_, s') ← run c (handleUserMessage u c m) (tick (Z.of_N d) s); handle_all l s'
  end.

Definition expire (t : Z) (l : lease) : lease :=
  match l with Some (_, x) => if t <? x then l else None | None => None end.

(** The specification: the time and the lease of workflow [w], over the messages. *)
Definition lease_trace (w : string) (st : Z * lease) (a : arrival) : Z * lease :=
  let t := st.1 + Z.of_N (ar_after a) in
  let current := expire t st.2 in
  (t, if decide (w = msg_workflow (ar_msg a))
      then obey t (demand_of (ar_userId a) (ar_clientId a) (ar_msg a)) current else current).

Definition arrival_ok (a : arrival) : Prop :=
  plain (msg_workflow (ar_msg a)) ∧ ar_userId a ≠ "" ∧ ar_clientId a ≠ "".

Lemma entry_at_tick d s k : entry_at (tick (Z.of_N d) s) k =
  match entry_at s k with
  | Some (Text l x) => if now s + Z.of_N d <? x then Some (Text l x) else None
  | e => e
  end.
Proof.
  unfold entry_at; cbn [store tick now]; destruct (store s !! k) as [[l x|]|]; try done.
  destruct (Z.ltb_spec (now s) x), (Z.ltb_spec (now s + Z.of_N d) x); try done; lia.
Qed.

Lemma lease_at_tick d s w : lease_at (tick (Z.of_N d) s) w = expire (now s + Z.of_N d) (lease_at s w).
Proof.
  unfold lease_at; rewrite entry_at_tick; destruct (entry_at s _) as [[l x|]|]; try done.
  destruct (named l) eqn:Hn; cbn; destruct (_ <? _); by rewrite ?Hn.
Qed.

Lemma typed_tick d s : typed s → typed (tick (Z.of_N d) s).
Proof.
  intros [H1 H2]; split; intros w; [intros h|intros Hw l x]; rewrite entry_at_tick.
  - specialize (H1 w); destruct (entry_at s _) as [[l x|]|]; [by destruct (_ <? _)|naive_solver..].
  - specialize (H2 w Hw); unfold no_text in H2.
    destruct (entry_at s _) as [[l' x'|]|]; [by destruct (H2 l' x')|done..].
Qed.

(** Messages handled one after another: every handler completes, and the lock of each
    workflow is the lease that the messages demand.  A message of a client changes no
    lease but that of its workflow; another client takes a lease over only when it is free,
    or by force from a client of the same user; a lease ends two minutes after the last
    request or heartbeat of its holder. *)
Theorem lock_refines_lease (s : world) (l : list arrival) :
  typed s → Forall arrival_ok l →
  ∃ s', handle_all l s = Some s' ∧ typed s' ∧
    ∀ w, (now s', lease_at s' w) = foldl (lease_trace w) (now s, lease_at s w) l.
Proof.
  intros Hs Hl; revert s Hs; induction Hl as [|[d u c m] l (Hw & Hu & Hc) _ IH]; intros s Hs; [by exists s|].
  cbn [ar_msg ar_userId ar_clientId] in *.
  destruct (handler_fulfils u c m Hw Hu Hc _ (typed_tick d s Hs)) as (s1 & E & Hn & Hs1 & Hlease).
  destruct (IH s1 Hs1) as (s' & E' & Hs' & Hall).
  exists s'; split_and!; [cbn [handle_all]; by rewrite E|done|].
  intros w; rewrite Hall; cbn [foldl]; f_equal; unfold lease_trace; cbn [fst snd ar_after ar_msg ar_userId ar_clientId].
  rewrite Hlease, Hn, lease_at_tick; by case_decide.
Qed.

(** In particular, who holds a lease keeps it against all others. *)
Lemma lease_kept t u c m held x :
  lk_clientId held ≠ c → lk_userId held ≠ u → obey t (demand_of u c m) (Some (held, x)) = Some (held, x).
Proof.
  intros; destruct m as [w|w|w []|w|w]; cbn [demand_of];
    try destruct (hasReadAccess _ _); try destruct (hasWriteAccess _ _); cbn; try done;
    by rewrite bool_decide_false.
Qed.

End Sequential.

(** ** The theorems at concrete inputs *)

Definition somebody_open : world :=
  mkWorld 1000000 {[formWorkflowCacheKey "w" :=
    Hash [("tab1", Tagged "alice" 200000); ("tab2", Tagged "bob" 900000);
          ("tab3", Tagged "bob" 950000); ("carol", Bare 990000); ("tab4", Tagged "alice" 50000)]]} [] [] ∅ ∅.

Example getCollaborators_spec_witness :
  no_text somebody_open (formWorkflowCacheKey "w") ∧
  run (λ ids, ids) (λ _ _, true) (λ _ _, true) "tab1" (getCollaborators "w") somebody_open =
    Some ([mkEntry "alice" 200000 "tab1"; mkEntry "bob" 950000 "tab3"],
          set_tasks (λ ts, ts ++ (removal (formWorkflowCacheKey "w") <$> ["tab4"; "carol"])) somebody_open) ∧
  ∃ collaborators removed,
    run (λ ids, ids) (λ _ _, true) (λ _ _, true) "tab1" (getCollaborators "w") somebody_open =
      Some (collaborators, set_tasks (λ ts, ts ++ (removal (formWorkflowCacheKey "w") <$> removed)) somebody_open) ∧
    NoDup (ce_userId <$> collaborators).
Proof.
  split_and!; [intros l x; vm_compute; congruence|vm_compute; reflexivity|].
  destruct (getCollaborators_spec (λ ids, ids) (λ _ _, true) (λ _ _, true) "tab1" "w" somebody_open)
    as (cs & removed & H1 & H2 & _); [intros l x; vm_compute; congruence|].
  exists cs, removed; split; [exact H1|exact H2].
Defined.

Definition arrivals : list arrival :=
  [mkArrival 5 "alice" "tab1" (writeAccessRequested "w" false);
   mkArrival 5 "bob" "tab2" (writeAccessRequested "w" true);
   mkArrival 60000 "alice" "tab1" (writeAccessHeartbeat "w");
   mkArrival 5 "alice" "tab3" (writeAccessRequested "w" true);
   mkArrival 130000 "bob" "tab2" (writeAccessRequested "w" false)].

Lemma plain_w : plain "w".
Proof. intros v H; discriminate H. Qed.

Lemma empty_typed : typed empty_world.
Proof. split; intros; [|intros ??]; unfold entry_at, empty_world; cbn; by rewrite lookup_empty. Qed.

Example lock_refines_lease_witness :
  foldl (lease_trace (λ _ _, true) (λ _ _, true) "w") (0, None) (take 4 arrivals) =
    (60015, Some (mkLock "tab3" "alice", 180015)) ∧
  ∃ s', handle_all (λ ids, ids) (λ _ _, true) (λ _ _, true) arrivals empty_world = Some s' ∧
    (now s', lease_at s' "w") = (190015, Some (mkLock "tab2" "bob", 310015)).
Proof.
  split; [vm_compute; reflexivity|].
  destruct (lock_refines_lease (λ ids, ids) (λ _ _, true) (λ _ _, true) empty_world arrivals)
    as (s' & H & _ & Hw); [exact empty_typed| |].
  - repeat constructor; try exact plain_w; discriminate.
  - exists s'; split; [exact H|]; rewrite (Hw "w"); vm_compute; reflexivity.
Defined.
