(* ===== verification/Text.v ===== *)
(** Text: texts as lists of characters, up to U+00FF, and the methods of JavaScript strings
    that the files on texts use; [toLowerCase] is that of ASCII. *)

From Stdlib Require Import Ascii Lia.
From stdpp Require Import prelude list strings.
From S2P Require Import Prelude.

Notation text := (list ascii).

Definition tx (s : string) : text := String.list_ascii_of_string s.
Definition str (t : text) : string := String.string_of_list_ascii t.

#[local] Open Scope char_scope.

(** * Characters *)

Definition newline : ascii := "010".
Definition backslash : ascii := "\".

Definition is_space (c : ascii) : bool :=
  let n := nat_of_ascii c in ((9 <=? n)%nat && (n <=? 13)%nat) || (n =? 32)%nat || (n =? 160)%nat.

Definition between (a b c : ascii) : bool :=
  (nat_of_ascii a <=? nat_of_ascii c)%nat && (nat_of_ascii c <=? nat_of_ascii b)%nat.

Definition is_digit (c : ascii) : bool := between "0" "9" c.
Definition is_alnum (c : ascii) : bool := between "a" "z" c || between "A" "Z" c || is_digit c.

(** * Methods *)

Fixpoint trim_start (t : text) : text :=
  match t with c :: t' => if is_space c then trim_start t' else t | [] => [] end.

Definition trim (t : text) : text := rev (trim_start (rev (trim_start t))).

Definition startsWith (p t : text) : bool := bool_decide (take (length p) t = p).
Definition endsWith (p t : text) : bool := bool_decide (drop (length t - length p) t = p).

Definition toLowerCase (t : text) : text := ascii_lower <$> t.

(** [split] at a character. *)
Fixpoint split_from (sep : ascii) (t cur : text) : list text :=
  match t with
  | [] => [cur]
  | c :: t => if bool_decide (c = sep) then cur :: split_from sep t [] else split_from sep t (cur ++ [c])
  end.

Definition split_on (sep : ascii) (t : text) : list text := split_from sep t [].

(** * Lemmas *)

Lemma trim_start_length t : (length (trim_start t) ≤ length t)%nat.
Proof. induction t as [|c t IH]; [done|]; cbn; destruct (is_space c); cbn; lia. Qed.

Lemma trim_start_app t c r y : trim_start t = c :: r → trim_start (t ++ y) = c :: r ++ y.
Proof. induction t as [|x t IH]; [done|]; cbn; destruct (is_space x); [done|by intros [= -> ->]]. Qed.

Lemma trim_start_spaces ws t : forallb is_space ws = true → trim_start (ws ++ t) = trim_start t.
Proof. induction ws as [|c ws IH]; [done|]; cbn; intros [-> ?]%andb_true_iff; by apply IH. Qed.

Lemma trim_core ws a x b ws' : forallb is_space ws = true → forallb is_space ws' = true →
  is_space a = false → is_space b = false → trim (ws ++ (a :: x ++ [b]) ++ ws') = a :: x ++ [b].
Proof.
  intros Hws Hws' Ha Hb; unfold trim; rewrite trim_start_spaces by done; cbn [app trim_start]; rewrite Ha.
  assert (rev (a :: (x ++ [b]) ++ ws') = rev ws' ++ b :: rev (a :: x)) as ->.
  { cbn; rewrite !rev_app_distr; cbn; by rewrite <- app_assoc. }
  rewrite trim_start_spaces; [cbn [trim_start]; rewrite Hb|].
  - cbn; by rewrite rev_app_distr, rev_involutive.
  - apply forallb_forall; intros c Hc%in_rev; rewrite forallb_forall in Hws'; auto.
Qed.

Lemma startsWith_app p t : startsWith p (p ++ t) = true.
Proof. apply bool_decide_eq_true; by rewrite take_app_length. Qed.

Lemma endsWith_app p t : endsWith p (t ++ p) = true.
Proof.
  apply bool_decide_eq_true; rewrite length_app.
  replace (length t + length p - length p)%nat with (length t) by lia; apply drop_app_length.
Qed.

