(* ===== verification/FromAi.v ===== *)
(** FromAi: the calls of [$fromAI] in the parameters of a node.

    packages/workflow/src/from-ai-parse-utils.ts, which finds the calls and decides which
    expressions are such a call only; the uses of it that collect the arguments of a tool
    (core/src/execution-engine/node-execution-context/utils/create-node-as-tool.ts,
    @n8n/ai-utilities/src/utils/fromai-helpers.ts); and the part of the editor that writes
    calls and reads them back (frontend/editor-ui/src/features/ndv/parameters/utils/
    fromAIOverride.utils.ts).

    Texts are lists of characters. *)

From Stdlib Require Import Ascii Lia.
From stdpp Require Import prelude list strings pretty.
From S2P Require Import Prelude Types Text.

#[local] Open Scope char_scope.

(** * Characters *)

Definition double_quote : ascii := "034".

(** One of the three quotes. *)
Definition is_quote (c : ascii) : bool :=
  bool_decide (c = double_quote) || bool_decide (c = "'") || bool_decide (c = "`").

(** [slice(1, -1)] *)
Definition slice_ends (t : text) : text := removelast (tail t).

(** * The arguments of a call *)

Inductive FromAIError := ParseError (message : string).

Record FromAIArgument := mkArgument {
  fa_key : text;
  fa_description : option text;
  fa_type : text;
  fa_defaultValue : option json;
}.

Definition isFromAIArgumentType (value : text) : bool :=
  bool_decide (toLowerCase value ∈ [tx "string"; tx "number"; tx "boolean"; tx "json"]).

(** The arguments of a text, split at the commas that are not in quotes. *)
Fixpoint split_args (argsString : text) (escapeNext : bool) (quoteChar : option ascii) (currentArg : text) :
  list text :=
  match argsString with
  | [] => if bool_decide (currentArg = []) then [] else [trim currentArg]
  | char :: rest =>
      if escapeNext then split_args rest false quoteChar (currentArg ++ [char])
      else if bool_decide (char = backslash) then split_args rest true quoteChar currentArg
      else if is_quote char then
        match quoteChar with
        | None => split_args rest false (Some char) (currentArg ++ [char])
        | Some q => split_args rest false (if bool_decide (char = q) then None else Some q) (currentArg ++ [char])
        end
      else if bool_decide (char = ",") && bool_decide (quoteChar = None) then
        trim currentArg :: split_args rest false None []
      else split_args rest false quoteChar (currentArg ++ [char])
  end.

(** [replace] of each [c] after a backslash by [c] alone. *)
Fixpoint unescape (c : ascii) (t : text) : text :=
  match t with
  | a :: t' =>
      match t' with
      | b :: t'' =>
          if bool_decide (a = backslash) && bool_decide (b = c) then c :: unescape c t''
          else a :: unescape c t'
      | [] => [a]
      end
  | [] => []
  end.

Definition quoted_by (q : ascii) (t : text) : bool := startsWith [q] t && endsWith [q] t.

Definition clean_arg (arg : text) : text :=
  let trimmed := trim arg in
  if quoted_by "'" trimmed || quoted_by "`" trimmed || quoted_by double_quote trimmed
  then unescape backslash (unescape double_quote (unescape "`" (unescape "'" (slice_ends trimmed))))
  else trimmed.

Section Parser.

(** [Number(value)], unless it is not a number, and [JSON.parse]. *)
Context (js_Number : text → option json) (jsonParse : text → option json).

Definition parseDefaultValue (value : option text) (type : text) : option json :=
  match value with
  | None => None
  | Some value =>
      let lowerValue := toLowerCase value in
      if bool_decide (type = tx "string") then Some (JStr (str value))
      else if bool_decide (type = tx "boolean") &&
              (bool_decide (lowerValue = tx "true") || bool_decide (lowerValue = tx "false"))
      then Some (JBool (bool_decide (lowerValue = tx "true")))
      else
        match (if bool_decide (type = tx "number") then js_Number value else None) with
        | Some n => Some n
        | None => match jsonParse value with Some j => Some j | None => Some (JStr (str value)) end
        end
  end.

Definition parseArguments (argsString : text) : result FromAIError FromAIArgument :=
  let cleanArgs := clean_arg <$> split_args argsString false None [] in
  let type := default (tx "string") (cleanArgs !! 2%nat) in
  if negb (isFromAIArgumentType type) then Err (ParseError "Invalid type")
  else Ok (mkArgument (default [] (cleanArgs !! 0%nat)) (cleanArgs !! 1%nat) type
                      (parseDefaultValue (cleanArgs !! 3%nat) type)).

(** * Finding the calls *)

(** What is left after the start of a call, [/\$fromAI\s*\(\s*/i], if the text has one here. *)
Fixpoint strip_word (word t : text) : option text :=
  match word, t with
  | [], _ => Some t
  | w :: word, c :: t => if bool_decide (ascii_lower c = w) then strip_word word t else None
  | _ :: _, [] => None
  end.

Definition call_start (t : text) : option text :=
  rest ← strip_word (tx "$fromai") t;
  match trim_start rest with
  | c :: rest => if bool_decide (c = "(") then Some rest else None
  | [] => None
  end.

Definition pattern_at (t : text) : option text := trim_start <$> call_start t.

(** [pattern.exec]: what follows the first start of a call. *)
Fixpoint exec_pattern (t : text) : option text :=
  match pattern_at t with
  | Some rest => Some rest
  | None => match t with _ :: t => exec_pattern t | [] => None end
  end.

(** The text up to the parenthesis that closes the call; [None] when there is none. *)
Fixpoint scan_call (t : text) (quoteChar : option ascii) (parenthesesCount : nat) : option text :=
  match t with
  | [] => None
  | char :: rest =>
      match quoteChar with
      | Some q =>
          if bool_decide (char = backslash) then
            match rest with
            | next :: rest' => (λ args, char :: next :: args) <$> scan_call rest' quoteChar parenthesesCount
            | [] => None
            end
          else cons char <$> scan_call rest (if bool_decide (char = q) then None else quoteChar) parenthesesCount
      | None =>
          if is_quote char then cons char <$> scan_call rest (Some char) parenthesesCount
          else if bool_decide (char = "(") then cons char <$> scan_call rest None (S parenthesesCount)
          else if bool_decide (char = ")") then
            match parenthesesCount with
            | S (S n) => cons char <$> scan_call rest None (S n)
            | _ => Some []
            end
          else cons char <$> scan_call rest None parenthesesCount
      end
  end.

(** The [while] over the matches; the search goes on right after the start of a call. *)
Fixpoint extract_calls (fuel : nat) (t : text) : result FromAIError (list FromAIArgument) :=
  match fuel with
  | O => Ok []
  | S fuel =>
      match exec_pattern t with
      | None => Ok []
      | Some rest =>
          match scan_call rest None 1 with
          | None => Err (ParseError "Unbalanced parentheses while parsing $fromAI call")
          | Some argsString =>
              match parseArguments argsString with
              | Err _ => Err (ParseError "Failed to parse $fromAI arguments")
              | Ok arg => cons arg <$> extract_calls fuel rest
              end
          end
      end
  end.

Definition extractFromAICalls (t : text) : result FromAIError (list FromAIArgument) :=
  extract_calls (S (length t)) t.

(** * Traversals *)

Fixpoint traverseNodeParameters (payload : json) (collectedArgs : list FromAIArgument) :
  result FromAIError (list FromAIArgument) :=
  match payload with
  | JStr s => (λ calls, collectedArgs ++ calls) <$> extractFromAICalls (tx s)
  | JArr l =>
      (fix go (l : list json) acc :=
         match l with
         | [] => Ok acc
         | item :: l => acc ← traverseNodeParameters item acc; go l acc
         end) l collectedArgs
  | JObj o =>
      (fix go (o : list (string * json)) acc :=
         match o with
         | [] => Ok acc
         | (_, v) :: o => acc ← traverseNodeParameters v acc; go o acc
         end) o collectedArgs
  | _ => Ok collectedArgs
  end.

(** [name + `[${index}]`] and [name ? name + '.' + key : key], with [undefined] as a name. *)
Definition index_name (name : option string) (index : nat) : string :=
  (default "undefined" name +:+ "[" +:+ pretty index +:+ "]")%string.
Definition key_name (name : option string) (key : string) : string :=
  (if str_truthy name then default "" name +:+ "." +:+ key else key)%string.

Fixpoint traverseNodeParametersWithParamNames (payload : json) (collectedArgs : jmap string FromAIArgument)
    (name : option string) : result FromAIError (jmap string FromAIArgument) :=
  match payload with
  | JStr s =>
      (λ calls, foldl (λ m call, jm_set m (default "undefined"%string name) call) collectedArgs calls)
        <$> extractFromAICalls (tx s)
  | JArr l =>
      (fix go (l : list json) (index : nat) acc :=
         match l with
         | [] => Ok acc
         | item :: l =>
             acc ← traverseNodeParametersWithParamNames item acc (Some (index_name name index));
             go l (S index) acc
         end) l O collectedArgs
  | JObj o =>
      (fix go (o : list (string * json)) acc :=
         match o with
         | [] => Ok acc
         | (key, v) :: o =>
             acc ← traverseNodeParametersWithParamNames v acc (Some (key_name name key));
             go o acc
         end) o collectedArgs
  | _ => Ok collectedArgs
  end.

(** [extractFromAIParameters] of the tools: the last argument of each key. *)
Definition unique_arguments (collectedArguments : list FromAIArgument) : list FromAIArgument :=
  jm_vals (foldl (λ m arg, jm_set m (fa_key arg) arg) [] collectedArguments).

Definition extractFromAIParameters (nodeParameters : json) : result FromAIError (list FromAIArgument) :=
  unique_arguments <$> traverseNodeParameters nodeParameters [].

Inductive SchemaError :=
| TraversalError (e : FromAIError)
| EmptyKey
| InvalidKey (key : text)
| DuplicateKey (key : text).

(** [/^[a-zA-Z0-9_-]{1,64}$/] *)
Definition valid_name (key : text) : bool :=
  (1 <=? length key)%nat && (length key <=? 64)%nat &&
  forallb (λ c, is_alnum c || bool_decide (c = "_") || bool_decide (c = "-")) key.

Definition check_argument (keyMap : jmap text FromAIArgument) (argument : FromAIArgument) :
  result SchemaError (jmap text FromAIArgument) :=
  if bool_decide (fa_key argument = []) then Err EmptyKey
  else if negb (valid_name (fa_key argument)) then Err (InvalidKey (fa_key argument))
  else
    match jm_get keyMap (fa_key argument) with
    | Some existingArg =>
        if bool_decide (fa_description existingArg ≠ fa_description argument) ||
           bool_decide (fa_type existingArg ≠ fa_type argument)
        then Err (DuplicateKey (fa_key argument)) else Ok keyMap
    | None => Ok (jm_set keyMap (fa_key argument) argument)
    end.

(** [getSchema], but for the schema: the arguments that it is made of. *)
Definition getSchema (parameters : json) : result SchemaError (list FromAIArgument) :=
  match traverseNodeParameters parameters [] with
  | Err e => Err (TraversalError e)
  | Ok collectedArguments =>
      _ ← foldM check_argument [] collectedArguments;
      Ok (unique_arguments collectedArguments)
  end.

End Parser.

(** * Expressions that are a call only *)

(** [/[a-zA-Z0-9.,\s-]/] and [/[a-zA-Z0-9_]/] *)
Definition literal_char (c : ascii) : bool :=
  is_alnum c || bool_decide (c = ".") || bool_decide (c = ",") || is_space c || bool_decide (c = "-").

Definition word_char (c : option ascii) : bool :=
  match c with Some c => is_alnum c || bool_decide (c = "_") | None => false end.

(** From after the opening parenthesis to what follows the closing one; [None] when the
    text is rejected or ends before. *)
Fixpoint only_walk (t : text) (quoteChar lastOutsideChar : option ascii) : option text :=
  match t with
  | [] => None
  | char :: rest =>
      match quoteChar with
      | Some q =>
          match rest with
          | [] => None
          | next :: rest' =>
              if bool_decide (char = backslash) then only_walk rest' quoteChar lastOutsideChar
              else if bool_decide (q = "`") && bool_decide (char = "$") && bool_decide (next = "{") then None
              else only_walk rest (if bool_decide (char = q) then None else quoteChar) lastOutsideChar
          end
      | None =>
          if is_quote char then
            if bool_decide (char = "`") && word_char lastOutsideChar then None
            else only_walk rest (Some char) (Some char)
          else if bool_decide (char = ")") then Some rest
          else if literal_char char then
            only_walk rest None (if is_space char then lastOutsideChar else Some char)
          else None
      end
  end.

Definition FROM_AI_AUTO_GENERATED_MARKER : text := tx "/*n8n-auto-generated-fromAI-override*/".

(** What the checks before the call strip: [=], [{{ }}], the marker, white space. *)
Definition strip_expression (expr : text) : text :=
  let t := trim (if bool_decide (head expr = Some "=") then tail expr else expr) in
  let t := if startsWith (tx "{{") t && endsWith (tx "}}") t
           then trim (take (length t - 4) (drop 2 t)) else t in
  if startsWith FROM_AI_AUTO_GENERATED_MARKER t
  then trim (drop (length FROM_AI_AUTO_GENERATED_MARKER) t) else t.

Definition isFromAIOnlyExpression (expr : text) : bool :=
  match call_start (strip_expression expr) with
  | None => false
  | Some rest =>
      match only_walk rest None None with
      | None => false
      | Some remainder => bool_decide (trim remainder = [])
      end
  end.

Definition isExpression (expr : string) : bool := bool_decide (head (tx expr) = Some "=").

(** [collectDefaults]: a property has a default and options; an option that is a collection
    has values, one that is a property has a default and options again. *)
Inductive property := mkProp (default_ : json) (options_ : list prop_option)
with prop_option := mkOption (values_ : list property) (nested_ : option property).

Definition add_default (d : json) (defaults : list string) : list string :=
  match d with JStr s => if isExpression s then js_add defaults s else defaults | _ => defaults end.

Fixpoint collect_property (p : property) (defaults : list string) : list string :=
  match p with
  | mkProp d options_ =>
      (fix go (os : list prop_option) acc :=
         match os with
         | [] => acc
         | o :: os => go os (collect_option o acc)
         end) options_ (add_default d defaults)
  end
with collect_option (o : prop_option) (defaults : list string) : list string :=
  match o with
  | mkOption values_ nested_ =>
      let acc :=
        (fix go (ps : list property) acc :=
           match ps with
           | [] => acc
           | p :: ps => go ps (collect_property p acc)
           end) values_ defaults in
      match nested_ with Some p => collect_property p acc | None => acc end
  end.

Definition collectExpressionDefaults (properties : list property) : list string :=
  foldl (λ acc p, collect_property p acc) [] properties.

Record ExpressionViolation := mkViolation { v_path : string; v_value : string }.

Fixpoint findDisallowedChatToolExpressions (payload : json) (path : string)
    (allowedExpressions : option (list string)) : list ExpressionViolation :=
  match payload with
  | JStr s =>
      if isExpression s && negb (isFromAIOnlyExpression (tx s)) &&
         negb (match allowedExpressions with Some l => js_has l s | None => false end)
      then [mkViolation path s] else []
  | JArr l =>
      (fix go (l : list json) (index : nat) :=
         match l with
         | [] => []
         | item :: l =>
             findDisallowedChatToolExpressions item (path +:+ "[" +:+ pretty index +:+ "]")%string allowedExpressions
             ++ go l (S index)
         end) l O
  | JObj o =>
      (fix go (o : list (string * json)) :=
         match o with
         | [] => []
         | (key, v) :: o =>
             findDisallowedChatToolExpressions v
               (if bool_decide (path = "") then key else path +:+ "." +:+ key)%string allowedExpressions
             ++ go o
         end) o
  | _ => []
  end.

(** * The override of the editor *)

Definition sanitizeFromAiParameterName (s : text) : text :=
  let s := (λ c, if is_alnum c || bool_decide (c = "-") then c else "_") <$> s in
  if (64 <=? length s)%nat then take 63 s else s.

(** [/\[\d+\]/.test(x)] *)
Fixpoint digits_then_bracket (t : text) (seen : bool) : bool :=
  match t with
  | c :: t => if is_digit c then digits_then_bracket t true else seen && bool_decide (c = "]")
  | [] => false
  end.

Fixpoint has_index (t : text) : bool :=
  match t with
  | c :: t => (bool_decide (c = "[") && digits_then_bracket t false) || has_index t
  | [] => false
  end.

Definition drop_brackets (t : text) : text := filter (λ c, c ≠ "[" ∧ c ≠ "]") t.

(** [join('_')] *)
Fixpoint join_ (l : list text) : text :=
  match l with
  | [] => []
  | [t] => t
  | t :: l => t ++ "_" :: join_ l
  end.

Definition buildUniqueName (path displayName : text) : text :=
  let filteredPaths := drop_brackets <$> filter (λ x, has_index x) (split_on "." path) in
  let result := join_ (filteredPaths ++ [displayName]) in
  if (1 <? length filteredPaths)%nat then drop (length result - 63) result else take 63 result.

Definition fieldTypeToFromAiType (propType : text) : text :=
  if bool_decide (propType ∈ [tx "boolean"; tx "number"; tx "json"]) then propType else tx "string".

Definition getBestQuoteChar (description : text) : ascii :=
  if bool_decide (newline ∈ description) then "`"
  else if bool_decide ("`" ∉ description) then "`"
  else if bool_decide (double_quote ∉ description) then double_quote
  else "'".

(** [replaceAll] of a character by itself after a backslash. *)
Definition escape_char (c : ascii) (t : text) : text :=
  t ≫= λ x, if bool_decide (x = c) then [backslash; x] else [x].

Definition sanitize_description (description : text) : text :=
  escape_char (getBestQuoteChar description) (escape_char backslash description).

Definition call_key (path displayName : text) : text :=
  sanitizeFromAiParameterName (buildUniqueName path displayName).

Definition buildValueFromOverride (extraDescription : option text) (path displayName propType : text)
    (includeMarker : bool) : text :=
  let marker := if includeMarker then FROM_AI_AUTO_GENERATED_MARKER ++ [" "] else [] in
  let description := default [] extraDescription in
  let quoteChar := getBestQuoteChar description in
  tx "={{ " ++ marker ++ tx "$fromAI('" ++ call_key path displayName ++ tx "', " ++
  quoteChar :: sanitize_description description ++
  quoteChar :: tx ", '" ++ fieldTypeToFromAiType propType ++ tx "') }}".

Definition isFromAIOverrideValue (s : text) : bool :=
  startsWith (tx "={{ " ++ FROM_AI_AUTO_GENERATED_MARKER ++ tx " $fromAI(") s.

(** [expression.replace(/\\[^`]/g, '\\\\')] *)
Fixpoint prepare_expression (t : text) : text :=
  match t with
  | a :: t' =>
      match t' with
      | b :: t'' =>
          if bool_decide (a = backslash) && bool_decide (b ≠ "`")
          then backslash :: backslash :: prepare_expression t''
          else a :: prepare_expression t'
      | [] => [a]
      end
  | [] => []
  end.

Section Overrides.

Context (js_Number : text → option json) (jsonParse : text → option json).

(** The description of the only call. *)
Definition parseOverrides (expression : text) : option (option text) :=
  match extractFromAICalls js_Number jsonParse (prepare_expression expression) with
  | Ok [call] => Some (fa_description call)
  | _ => None
  end.

(** The description kept in the override; the initial one, which is empty, is not kept. *)
Definition updateFromAIOverrideValues (extraDescription : option text) (expr : text) : option text :=
  match parseOverrides expr with
  | None => extraDescription
  | Some (Some []) => None
  | Some description => description
  end.

(** [makeOverrideValue] of a parameter that can be overridden. *)
Definition makeOverrideValue (value : option text) : option text :=
  updateFromAIOverrideValues None (default [] value).

End Overrides.

(** * What a call only is *)

(** A text in quotes is a list of characters, each plain or after a backslash. *)
Inductive qchar := Raw (c : ascii) | Escaped (c : ascii).

Definition render_qchar (x : qchar) : text := match x with Raw c => [c] | Escaped c => [backslash; c] end.
Definition render_body (body : list qchar) : text := body ≫= render_qchar.

(** The arguments of a call: characters outside quotes, and texts in quotes. *)
Inductive piece := Plain (c : ascii) | Quoted (q : ascii) (body : list qchar).

Definition render_piece (p : piece) : text :=
  match p with Plain c => [c] | Quoted q body => q :: render_body body ++ [q] end.
Definition render (ps : list piece) : text := ps ≫= render_piece.

(** No plain character ends the text in quotes. *)
Definition closed_body (q : ascii) (body : list qchar) : Prop :=
  Forall (λ x, match x with Raw c => c ≠ q ∧ c ≠ backslash | Escaped _ => True end) body.

(** A text in backticks has no [${]. *)
Fixpoint no_interpolation (q : ascii) (body : list qchar) : Prop :=
  match body with
  | x :: body => ¬ (q = "`" ∧ x = Raw "$" ∧ head body = Some (Raw "{")) ∧ no_interpolation q body
  | [] => True
  end.

Definition piece_ok (p : piece) : Prop :=
  match p with
  | Plain c => literal_char c = true
  | Quoted q body => is_quote q = true ∧ closed_body q body ∧ no_interpolation q body
  end.

(** No text in backticks comes after a word, which would be called with it. *)
Fixpoint untagged (last : option ascii) (ps : list piece) : Prop :=
  match ps with
  | [] => True
  | Plain c :: ps => untagged (if is_space c then last else Some c) ps
  | Quoted q _ :: ps => (q = "`" → word_char last = false) ∧ untagged (Some q) ps
  end.

Lemma literal_not_quote c : literal_char c = true → is_quote c = false ∧ c ≠ ")" ∧ c ≠ "(" ∧ c ≠ "$".
Proof. destruct c as [[] [] [] [] [] [] [] []]; vm_compute; intros; split_and!; congruence. Qed.

Lemma quote_not_backslash q : is_quote q = true → q ≠ backslash ∧ q ≠ "$" ∧ q ≠ "{" ∧ is_space q = false.
Proof. destruct q as [[] [] [] [] [] [] [] []]; vm_compute; intros; split_and!; congruence. Qed.

(** ** Inside quotes *)

Lemma walk_body q last body t : is_quote q = true → closed_body q body → no_interpolation q body → t ≠ [] →
  only_walk (render_body body ++ q :: t) (Some q) last = only_walk t None last.
Proof.
  intros Hq Hc Hi Ht; destruct (quote_not_backslash q Hq) as (Hqb & Hqd & Hqo & _).
  assert (∀ t' : text, t' ≠ [] → ∃ c r, t' = c :: r) as Hcons by (intros []; naive_solver).
  revert Hi; induction Hc as [|x body Hx _ IH]; intros Hi.
  - destruct (Hcons t Ht) as (c & r & ->); cbn.
    rewrite (bool_decide_false (q = backslash)), (bool_decide_false (q = "$")), andb_false_r, (bool_decide_true (q = q)) by done.
    done.
  - destruct Hi as [Hno Hi]; specialize (IH Hi).
    destruct (render_body body ++ q :: t) as [|n r] eqn:Hr; [by destruct (render_body body)|].
    assert (render_body (x :: body) ++ q :: t = render_qchar x ++ n :: r) as ->.
    { cbn; by rewrite <- app_assoc, <- Hr. }
    destruct x as [c|c]; cbn; [|exact IH].
    destruct Hx as [Hcq Hcb]; rewrite (bool_decide_false (c = backslash)), (bool_decide_false (c = q)) by done.
    replace (bool_decide (q = "`") && bool_decide (c = "$") && bool_decide (n = "{")) with false; [exact IH|].
    symmetry; apply not_true_is_false; rewrite !andb_true_iff, !bool_decide_eq_true; intros [[-> ->] ->].
    destruct body as [|[c'|c'] body]; cbn in Hr; simplify_eq; by destruct Hno.
Qed.

(** One character of a text in quotes. *)
Lemma walk_quoted c c' t q last :
  only_walk (c :: c' :: t) (Some q) last =
  if bool_decide (c = backslash) then only_walk t (Some q) last
  else if bool_decide (q = "`") && bool_decide (c = "$") && bool_decide (c' = "{") then None
  else only_walk (c' :: t) (if bool_decide (c = q) then None else Some q) last.
Proof. done. Qed.

Lemma body_of_walk q last : is_quote q = true → ∀ n t rest, (length t ≤ n)%nat →
  only_walk t (Some q) last = Some rest →
  ∃ body t', t = render_body body ++ q :: t' ∧ closed_body q body ∧ no_interpolation q body ∧
    only_walk t' None last = Some rest.
Proof.
  intros Hq; induction n as [|n IH]; intros t rest Hn; destruct t as [|c t]; try done; cbn in Hn; [lia|].
  destruct t as [|c' t]; [done|]; rewrite walk_quoted.
  case_bool_decide as Hb; [subst c|].
  - intros (body & t' & -> & ? & ? & ?)%IH; [|cbn in Hn; lia].
    exists (Escaped c' :: body), t'; split_and!; [done|by apply Forall_cons| |done].
    split; [naive_solver|done].
  - destruct (bool_decide (q = "`") && _ && _) eqn:Hi; [done|].
    destruct (decide (c = q)) as [->|Hcq]; [rewrite (bool_decide_true (q = q)) by done|
      rewrite (bool_decide_false (c = q)) by done].
    + intros; exists [], (c' :: t); split_and!; try done; constructor.
    + intros (body & t' & Ht & ? & ? & ?)%IH; [|cbn in *; lia].
      exists (Raw c :: body), t'; split_and!; [by rewrite Ht|by apply Forall_cons| |done].
      split; [|done]; intros (-> & [= ->] & Hh).
      destruct body as [|x body]; [done|]; injection Hh as ->; cbn in Ht; by simplify_eq.
Qed.

(** ** The whole call *)

Lemma walk_render last ps rest : Forall piece_ok ps → untagged last ps →
  only_walk (render ps ++ ")" :: rest) None last = Some rest.
Proof.
  intros Hps; revert last; induction Hps as [|p ps Hp _ IH]; intros last Hu; [done|].
  assert (render (p :: ps) ++ ")" :: rest = render_piece p ++ render ps ++ ")" :: rest) as ->.
  { cbn; by rewrite <- app_assoc. }
  destruct p as [c|q body]; cbn in Hp, Hu.
  - destruct (literal_not_quote c Hp) as (Hq & Hc & _); cbn.
    rewrite Hq, bool_decide_false, Hp by done; by apply IH.
  - destruct Hp as (Hq & Hc & Hi), Hu as [Ht Hu]; cbn [render_piece app only_walk].
    rewrite Hq, <- app_assoc.
    replace (bool_decide (q = "`") && word_char last) with false.
    + cbn [app]; rewrite walk_body; [by apply IH|done..|]; by destruct (render ps).
    + case_bool_decide as Hb; [by rewrite (Ht Hb)|done].
Qed.

Lemma render_of_walk n : ∀ t last rest, (length t ≤ n)%nat → only_walk t None last = Some rest →
  ∃ ps, t = render ps ++ ")" :: rest ∧ Forall piece_ok ps ∧ untagged last ps.
Proof.
  induction n as [|n IH]; intros t last rest Hn; destruct t as [|c t]; try done; cbn in Hn; [lia|].
  cbn [only_walk]; destruct (is_quote c) eqn:Hq.
  - destruct (bool_decide (c = "`") && word_char last) eqn:Htag; [done|]; intros Hw.
    destruct (body_of_walk c _ Hq _ _ _ (reflexivity _) Hw) as (body & t' & -> & Hc & Hi & Hw').
    rewrite length_app in Hn; cbn in Hn.
    destruct (IH t' (Some c) rest) as (ps & -> & ? & ?); [lia|done|].
    exists (Quoted c body :: ps); split_and!; [cbn; by rewrite <- !app_assoc|by constructor|].
    split; [|done]; intros ->; by destruct (word_char last).
  - case_bool_decide as Hp; [intros [= <-]; subst c; exists []; by repeat constructor|].
    destruct (literal_char c) eqn:Hl; [|done]; intros Hw.
    destruct (IH t (if is_space c then last else Some c) rest) as (ps & -> & ? & ?); [lia|done|].
    exists (Plain c :: ps); split_and!; [done|by constructor|done].
Qed.

(** An expression is accepted exactly when, without what surrounds it, it is the start of a
    call, then pieces, then the closing parenthesis and white space. *)
Lemma isFromAIOnlyExpression_grammar (expr : text) :
  isFromAIOnlyExpression expr = true ↔
  ∃ pieces remainder, call_start (strip_expression expr) = Some (render pieces ++ ")" :: remainder) ∧
    Forall piece_ok pieces ∧ untagged None pieces ∧ trim remainder = [].
Proof.
  unfold isFromAIOnlyExpression; destruct (call_start (strip_expression expr)) as [rest|]; [|naive_solver].
  split.
  - destruct (only_walk rest None None) as [r|] eqn:Hw; [|done]; intros Hr%bool_decide_eq_true.
    destruct (render_of_walk _ _ _ _ (reflexivity _) Hw) as (ps & -> & ? & ?); eauto 10.
  - intros (ps & r & [= ->] & Hok & Hu & Hr); rewrite walk_render by done; by apply bool_decide_eq_true.
Qed.

(** ** Literal arguments *)

(** [true], [false], or a number: a sign, digits, and a fraction, the first and last if any. *)
Definition literal_word (w : text) : Prop :=
  w = tx "true" ∨ w = tx "false" ∨
  ∃ sign digits fraction, w = sign ++ digits ++ fraction ∧ (sign = [] ∨ sign = ["-"]) ∧
    digits ≠ [] ∧ forallb is_digit digits = true ∧
    (fraction = [] ∨ ∃ f, fraction = "." :: f ∧ f ≠ [] ∧ forallb is_digit f = true).

(** A text in quotes, without interpolation, or a word. *)
Inductive literal : list piece → Prop :=
| literal_quoted q body : is_quote q = true → closed_body q body → no_interpolation q body → literal [Quoted q body]
| literal_plain w : literal_word w → literal (Plain <$> w).

(** No argument, or literals with white space around them and commas between them. *)
Inductive literal_args : list piece → Prop :=
| args_none ws : forallb is_space ws = true → literal_args (Plain <$> ws)
| args_last ws l ws' : forallb is_space ws = true → literal l → forallb is_space ws' = true →
    literal_args ((Plain <$> ws) ++ l ++ (Plain <$> ws'))
| args_more ws l ws' rest : forallb is_space ws = true → literal l → forallb is_space ws' = true →
    literal_args rest → literal_args ((Plain <$> ws) ++ l ++ (Plain <$> ws') ++ Plain "," :: rest).

Lemma forallb_impl {A} (f g : A → bool) l : (∀ x, f x = true → g x = true) → forallb f l = true → forallb g l = true.
Proof. intros Hfg; rewrite !forallb_forall; auto. Qed.

Lemma plain_ok t : forallb literal_char t = true → Forall piece_ok (Plain <$> t).
Proof. rewrite forallb_forall; intros Ht; apply Forall_fmap, Forall_forall; intros c Hc; by apply Ht, list_elem_of_In. Qed.

Lemma space_literal c : is_space c = true → literal_char c = true.
Proof. unfold literal_char; intros ->; by rewrite !orb_true_r. Qed.

Lemma digit_literal c : is_digit c = true → literal_char c = true.
Proof. unfold literal_char, is_alnum; intros ->; by rewrite orb_true_r. Qed.

Lemma word_literal w : literal_word w → forallb literal_char w = true.
Proof.
  pose proof (λ t, forallb_impl _ _ t digit_literal) as Hd.
  intros [->|[->|(sign & n & fr & -> & Hs & _ & Hn & Hf)]]; [done..|].
  rewrite !forallb_app, (Hd n Hn); destruct Hs as [->| ->], Hf as [->|(f & -> & _ & Hf)]; cbn; by rewrite ?(Hd f Hf).
Qed.

Lemma literal_args_ok ps : literal_args ps → Forall piece_ok ps.
Proof.
  pose proof (λ t H, plain_ok t (forallb_impl _ _ t space_literal H)) as Hsp.
  assert (∀ l, literal l → Forall piece_ok l) as Hl.
  { intros l [q body|w Hw]; [by apply Forall_singleton|by apply plain_ok, word_literal]. }
  induction 1; rewrite ?Forall_app; auto; by split_and!; auto; constructor.
Qed.

Lemma untagged_spaces ws last ps : forallb is_space ws = true → untagged last ps → untagged last ((Plain <$> ws) ++ ps).
Proof. induction ws as [|c ws IH]; [done|]; cbn; intros [-> ?]%andb_true_iff ?; auto. Qed.

Lemma untagged_plains t ps : (∀ last, untagged last ps) → ∀ last, untagged last ((Plain <$> t) ++ ps).
Proof. intros Hps; induction t as [|c t IH]; intros last; [done|]; cbn; apply IH. Qed.

Lemma untagged_literal l last ps : literal l → word_char last = false → (∀ last, untagged last ps) → untagged last (l ++ ps).
Proof. intros [q body|w Hw] Hlast Hps; [by split|by apply untagged_plains]. Qed.

Lemma literal_args_untagged ps last : literal_args ps → word_char last = false → untagged last ps.
Proof.
  intros Hps; revert last; induction Hps as [ws|ws l ws'|ws l ws' rest ? ? ? _ IH]; intros last Hlast.
  - rewrite <- (app_nil_r (Plain <$> ws)); by apply untagged_spaces.
  - rewrite <- (app_nil_r (Plain <$> ws')); apply untagged_spaces, untagged_literal; [done..|]; by apply untagged_plains.
  - apply untagged_spaces, untagged_literal; [done..|]; apply untagged_plains; intros last'; cbn; by apply IH.
Qed.

(** A call whose arguments are literals is accepted.  What is accepted is one call and
    nothing else: outside quotes its arguments have letters, digits, dots, commas, minus
    signs and white space only, so no other call, no operator and no variable that starts
    with a dollar; a text in backticks has no [${] and does not come after a word. *)
Theorem isFromAIOnlyExpression_sound_complete (expr : text) :
  (∀ args remainder, call_start (strip_expression expr) = Some (render args ++ ")" :: remainder) →
    literal_args args → trim remainder = [] → isFromAIOnlyExpression expr = true) ∧
  (isFromAIOnlyExpression expr = true →
    ∃ pieces remainder, call_start (strip_expression expr) = Some (render pieces ++ ")" :: remainder) ∧
      Forall piece_ok pieces ∧ untagged None pieces ∧ trim remainder = []).
Proof.
  split; [|apply isFromAIOnlyExpression_grammar].
  intros args remainder Hstart Hargs Hr; apply isFromAIOnlyExpression_grammar; exists args, remainder.
  split_and!; [done|by apply literal_args_ok|by apply literal_args_untagged|done].
Qed.

(** * Enough fuel *)

Lemma strip_word_length word t r : strip_word word t = Some r → length t = (length word + length r)%nat.
Proof.
  revert t; induction word as [|w word IH]; intros t; [by destruct t; intros [= <-]|].
  destruct t as [|c t]; [done|]; cbn; case_bool_decide; [intros ?%IH; lia|done].
Qed.

Lemma exec_pattern_length t rest : exec_pattern t = Some rest → (length rest < length t)%nat.
Proof.
  assert (∀ t r, pattern_at t = Some r → (length r < length t)%nat) as Hat.
  { intros t' r; unfold pattern_at, call_start; destruct (strip_word _ t') as [r1|] eqn:H1; [|done].
    apply strip_word_length in H1; cbn in H1 |- *; pose proof (trim_start_length r1).
    destruct (trim_start r1) as [|c r2]; [done|]; case_bool_decide; [|done]; intros [= <-].
    pose proof (trim_start_length r2); cbn in *; lia. }
  induction t as [|c t IH]; cbn [exec_pattern].
  - destruct (pattern_at []) as [r|] eqn:H; [|done]; by apply Hat in H; cbn in H; lia.
  - destruct (pattern_at (c :: t)) as [r|] eqn:H; [intros [= <-]; by apply Hat|].
    intros ?%IH; cbn; lia.
Qed.

(** The search ends by itself: more fuel changes nothing. *)
Lemma extract_calls_fuel js_Number jsonParse fuel fuel' t :
  (length t < fuel)%nat → (length t < fuel')%nat →
  extract_calls js_Number jsonParse fuel t = extract_calls js_Number jsonParse fuel' t.
Proof.
  revert fuel' t; induction fuel as [|fuel IH]; intros [|fuel'] t H H'; [lia..|].
  cbn [extract_calls]; destruct (exec_pattern t) as [rest|] eqn:Hr; [|done].
  apply exec_pattern_length in Hr.
  destruct (scan_call rest None 1) as [args|]; [|done]; destruct (parseArguments _ _ args); [|done].
  by rewrite (IH fuel') by lia.
Qed.

(** * The strings of the parameters *)

Lemma json_nested_ind (P : json → Prop) :
  P JNull → (∀ b, P (JBool b)) → (∀ z, P (JNum z)) → (∀ s, P (JStr s)) →
  (∀ l, Forall P l → P (JArr l)) → (∀ o, Forall (λ kv, P kv.2) o → P (JObj o)) → ∀ v, P v.
Proof.
  intros Hnull Hb Hz Hs Hl Ho; fix IH 1; intros [|b|z|s|l|o]; [exact Hnull|apply Hb|apply Hz|apply Hs| |].
  - apply Hl; induction l as [|v l IHl]; constructor; [apply IH|exact IHl].
  - apply Ho; induction o as [|[k v] o IHo]; constructor; [apply IH|exact IHo].
Qed.

Fixpoint strings_of (payload : json) : list string :=
  match payload with
  | JStr s => [s]
  | JArr l => (fix go (l : list json) := match l with [] => [] | v :: l => strings_of v ++ go l end) l
  | JObj o =>
      (fix go (o : list (string * json)) := match o with [] => [] | (_, v) :: o => strings_of v ++ go o end) o
  | _ => []
  end.

Definition disallowed (allowedExpressions : option (list string)) (s : string) : Prop :=
  isExpression s = true ∧ isFromAIOnlyExpression (tx s) = false ∧
  match allowedExpressions with Some l => s ∉ l | None => True end.

#[export] Instance disallowed_dec allowed s : Decision (disallowed allowed s).
Proof. unfold disallowed; destruct allowed; apply _. Defined.

(** The violations are the expressions among the strings of the parameters that are neither
    a call only nor a default of the node type, in the order of the parameters. *)
Theorem findDisallowed_exact (payload : json) (path : string) (allowed : option (list string)) :
  v_value <$> findDisallowedChatToolExpressions payload path allowed =
  filter (disallowed allowed) (strings_of payload).
Proof.
  revert path; induction payload as [|b|z|s|l IH|o IH] using json_nested_ind; intros path; try done.
  - cbn [findDisallowedChatToolExpressions strings_of]; rewrite filter_cons, filter_nil.
    destruct (isExpression s) eqn:He, (isFromAIOnlyExpression (tx s)) eqn:Hf; cbn [negb andb];
      try (rewrite decide_False; [done|intros (? & ? & _); congruence]).
    destruct allowed as [l|]; cbn [negb]; [|by rewrite decide_True].
    destruct (js_has l s) eqn:Hs; [apply js_has_true in Hs|apply js_has_false in Hs]; cbn [negb].
    + rewrite decide_False; [done|]; by intros (_ & _ & Hl).
    + by rewrite decide_True.
  - cbn [findDisallowedChatToolExpressions strings_of]; generalize O as i.
    induction IH as [|v l Hv _ IHl]; intros i; [done|].
    rewrite fmap_app, filter_app; f_equal; [apply Hv|apply IHl].
  - cbn [findDisallowedChatToolExpressions strings_of].
    induction IH as [|[k v] o Hv _ IHo]; [done|].
    rewrite fmap_app, filter_app; f_equal; [apply Hv|apply IHo].
Qed.

(** The traversal collects the calls of the strings in order. *)
Lemma traverse_strings js_Number jsonParse (payload : json) acc :
  traverseNodeParameters js_Number jsonParse payload acc =
  foldM (λ acc s, (λ calls, acc ++ calls) <$> extractFromAICalls js_Number jsonParse (tx s)) acc (strings_of payload).
Proof.
  revert acc; induction payload as [|b|z|s|l IH|o IH] using json_nested_ind; intros acc; try done.
  - cbn [traverseNodeParameters strings_of foldM]; by destruct (extractFromAICalls js_Number jsonParse (tx s)).
  - cbn [traverseNodeParameters strings_of]; revert acc.
    induction IH as [|v l Hv _ IHl]; intros acc; [done|].
    rewrite Hv, foldM_app; destruct (foldM _ acc (strings_of v)) as [acc'|]; cbn [mbind result_bind]; [apply IHl|done].
  - cbn [traverseNodeParameters strings_of]; revert acc.
    induction IH as [|[k v] o Hv _ IHo]; intros acc; [done|]; cbn [snd] in Hv.
    rewrite Hv, foldM_app; destruct (foldM _ acc (strings_of v)) as [acc'|]; cbn [mbind result_bind]; [apply IHo|done].
Qed.

(** * The arguments of a tool *)

Definition agree (a b : FromAIArgument) : Prop :=
  fa_description a = fa_description b ∧ fa_type a = fa_type b.

Lemma check_argument_Ok m a m' : check_argument m a = Ok m' →
  valid_name (fa_key a) = true ∧ (∃ b, jm_get m' (fa_key a) = Some b ∧ agree b a) ∧
  ∀ k b, jm_get m k = Some b → jm_get m' k = Some b.
Proof.
  unfold check_argument; case_bool_decide; [done|].
  destruct (valid_name (fa_key a)); cbn [negb]; [|done].
  destruct (jm_get m (fa_key a)) as [b|] eqn:Hb.
  - case_bool_decide; [done|]; case_bool_decide; [done|]; intros [= <-].
    split_and!; [done| |done]; exists b; by split.
  - intros [= <-]; split_and!; [done| |].
    + exists a; split; [apply jm_get_set|done].
    + intros k b Hk; rewrite jm_get_set_ne; [done|congruence].
Qed.

Lemma check_arguments_Ok m l m' : foldM check_argument m l = Ok m' →
  (∀ k b, jm_get m k = Some b → jm_get m' k = Some b) ∧
  ∀ a, a ∈ l → valid_name (fa_key a) = true ∧ ∃ b, jm_get m' (fa_key a) = Some b ∧ agree b a.
Proof.
  revert m; induction l as [|a l IH]; intros m; cbn [foldM].
  { intros [= <-]; split; [done|]; intros a []%not_elem_of_nil. }
  intros (m1 & (Hv & (b & Hb & Hab) & Hkeep)%check_argument_Ok & [Hkeep' Hl]%IH)%bind_Ok.
  split; [auto|]; intros a' [->|Ha']%elem_of_cons; eauto.
Qed.

Lemma unique_step (l : list FromAIArgument) (m : jmap text FromAIArgument) :
  jm_wf m → (∀ k a, (k, a) ∈ m → k = fa_key a) →
  let m' := foldl (λ m arg, jm_set m (fa_key arg) arg) m l in
  jm_wf m' ∧ (∀ k a, (k, a) ∈ m' → k = fa_key a ∧ ((k, a) ∈ m ∨ a ∈ l)) ∧
  (∀ a, a ∈ l → fa_key a ∈ jm_keys m') ∧ (∀ k, k ∈ jm_keys m → k ∈ jm_keys m').
Proof.
  revert m; induction l as [|x l IH]; intros m Hwf Hm; cbn [foldl].
  { split_and!; [done|auto| |done]; intros ? []%not_elem_of_nil. }
  destruct (IH (jm_set m (fa_key x) x)) as (H1 & H2 & H3 & H4); [by apply jm_wf_set| |].
  { intros k a [[= -> ->]|?]%jm_elem_set; [done|auto]. }
  assert (∀ k, k = fa_key x ∨ k ∈ jm_keys m → k ∈ jm_keys (jm_set m (fa_key x) x)) as Hk.
  { intros k; rewrite jm_keys_set; case_decide; set_solver. }
  split_and!; [done| | |auto].
  - intros k a (-> & [[[= ?]|?]%jm_elem_set|?])%H2; subst; set_solver.
  - intros a [->|?]%elem_of_cons; auto.
Qed.

(** The schema of a tool is made when the calls can be read, every key is a valid name and
    the calls with a key agree on its description and type; it then has one argument for
    each key. *)
Theorem getSchema_consistent js_Number jsonParse (parameters : json) (args : list FromAIArgument) :
  getSchema js_Number jsonParse parameters = Ok args →
  ∃ calls, traverseNodeParameters js_Number jsonParse parameters [] = Ok calls ∧
    NoDup (fa_key <$> args) ∧
    (∀ k, k ∈ fa_key <$> args ↔ k ∈ fa_key <$> calls) ∧
    (∀ a, a ∈ args → a ∈ calls ∧ valid_name (fa_key a) = true) ∧
    (∀ a b, a ∈ calls → b ∈ calls → fa_key a = fa_key b → agree a b).
Proof.
  unfold getSchema; destruct (traverseNodeParameters _ _ _ _) as [calls|]; [|done].
  intros (m & [_ Hl]%check_arguments_Ok & [= <-])%bind_Ok; exists calls.
  destruct (unique_step calls []) as (Hwf & Hin & Hall & _); [constructor|set_solver|].
  unfold unique_arguments; set (u := foldl _ _ _) in *.
  assert (fa_key <$> jm_vals u = jm_keys u) as Hkeys.
  { unfold jm_vals, jm_keys; rewrite <- list_fmap_compose; apply list_fmap_ext; intros i [k a] Hi; cbn.
    apply list_elem_of_lookup_2, Hin in Hi; symmetry; apply Hi. }
  assert (∀ a, a ∈ jm_vals u → a ∈ calls) as Hsub.
  { intros a ([k a'] & -> & Ha)%list_elem_of_fmap; apply Hin in Ha; set_solver. }
  split_and!; [done|by rewrite Hkeys| | |].
  - intros k; rewrite Hkeys, list_elem_of_fmap; split; [|intros (a & -> & ?); auto].
    intros Hk; rewrite <- Hkeys in Hk; apply list_elem_of_fmap in Hk as (a & -> & Ha); eauto.
  - intros a Ha; split; [auto|]; by apply Hl, Hsub.
  - intros a b Ha Hb Hab; destruct (Hl a Ha) as (_ & x & Hx & [H1 H2]), (Hl b Hb) as (_ & y & Hy & [H3 H4]).
    rewrite Hab in Hx; split; congruence.
Qed.

(** * What the editor writes is read back *)

(** ** Where calls start *)

Definition stop (c : ascii) : bool := is_quote c || bool_decide (c = backslash).

Fixpoint upto_stop (t : text) : text :=
  match t with c :: t => if stop c then [] else c :: upto_stop t | [] => [] end.

Lemma lower_dollar c : ascii_lower c = "$" → c = "$".
Proof. destruct c as [[] [] [] [] [] [] [] []]; vm_compute; congruence. Qed.

Lemma stop_lower c : stop c = true → ascii_lower c = c ∧ is_space c = false ∧ c ≠ "(" ∧ c ≠ "$".
Proof. destruct c as [[] [] [] [] [] [] [] []]; vm_compute; intros; split_and!; congruence. Qed.

Lemma strip_word_upto word t r : Forall (λ w, stop w = false) word →
  strip_word word t = Some r → strip_word word (upto_stop t) = Some (upto_stop r).
Proof.
  intros Hw; revert t; induction Hw as [|w word Hw _ IH]; intros t; [by destruct t; intros [= <-]|].
  destruct t as [|c t]; [done|]; cbn [strip_word upto_stop]; case_bool_decide as Hc; [|done]; intros Hr.
  destruct (stop c) eqn:Hs.
  - destruct (stop_lower c Hs) as (Hl & _); rewrite Hl in Hc; congruence.
  - cbn; rewrite bool_decide_true by done; by apply IH.
Qed.

Lemma trim_start_upto t : trim_start (upto_stop t) = upto_stop (trim_start t).
Proof.
  induction t as [|c t IH]; [done|]; cbn [trim_start upto_stop].
  destruct (stop c) eqn:Hs.
  - destruct (stop_lower c Hs) as (_ & -> & _); cbn [upto_stop]; by rewrite Hs.
  - cbn [trim_start]; destruct (is_space c); [done|]; cbn [upto_stop]; by rewrite Hs.
Qed.

(** Whether a call starts here is decided before the next quote or backslash. *)
Lemma call_start_upto t : call_start (upto_stop t) = None → call_start t = None.
Proof.
  unfold call_start; intros Hn; destruct (strip_word _ t) as [r|] eqn:Hr; [|done]; cbn [mbind option_bind].
  apply strip_word_upto in Hr; [|by repeat constructor].
  rewrite Hr in Hn; cbn [mbind option_bind] in Hn; rewrite trim_start_upto in Hn.
  destruct (trim_start r) as [|c t']; [done|]; cbn [upto_stop] in Hn.
  destruct (stop c) eqn:Hs; [destruct (stop_lower c Hs) as (_ & _ & ? & _); by rewrite bool_decide_false|].
  by case_bool_decide.
Qed.

Lemma strip_word_app word t r y : strip_word word t = Some r → strip_word word (t ++ y) = Some (r ++ y).
Proof.
  revert t; induction word as [|w word IH]; intros t; [by destruct t; intros [= <-]|].
  destruct t as [|c t]; [done|]; cbn; case_bool_decide; [apply IH|done].
Qed.

Lemma upto_prefix t : ∃ y, t = upto_stop t ++ y.
Proof.
  induction t as [|c t [y IH]]; [by exists []|]; cbn; destruct (stop c); [by exists (c :: t)|].
  exists y; cbn; by rewrite <- IH.
Qed.

Lemma call_start_shorter t : call_start t = None → call_start (upto_stop t) = None.
Proof.
  destruct (upto_prefix t) as [y Hy]; intros Hn; rewrite Hy in Hn; clear Hy.
  revert Hn; unfold call_start; destruct (strip_word _ (upto_stop t)) as [r|] eqn:Hr; [|done].
  rewrite (strip_word_app _ _ _ y Hr); cbn [mbind option_bind].
  destruct (trim_start r) as [|c t'] eqn:Ht; [done|]; rewrite (trim_start_app _ _ _ y Ht).
  by case_bool_decide.
Qed.

Lemma call_start_dollar c t : c ≠ "$" → call_start (c :: t) = None.
Proof.
  intros Hc; unfold call_start; cbn [strip_word tx String.list_ascii_of_string].
  rewrite bool_decide_false; [done|]; by intros ?%lower_dollar.
Qed.

Lemma exec_pattern_None t : exec_pattern t = None → ∀ c t', t = c :: t' →
  call_start t = None ∧ exec_pattern t' = None.
Proof.
  intros He c t' ->; cbn [exec_pattern] in He; unfold pattern_at in *.
  by destruct (call_start (c :: t')).
Qed.

Lemma exec_pattern_next c t : call_start (c :: t) = None → exec_pattern (c :: t) = exec_pattern t.
Proof. intros H; cbn [exec_pattern]; unfold pattern_at; by rewrite H. Qed.

(** No call starts in a text without a dollar. *)
Lemma exec_skip p t : "$" ∉ p → exec_pattern (p ++ t) = exec_pattern t.
Proof.
  induction p as [|c p IH]; [done|]; intros [Hc Hp]%not_elem_of_cons.
  cbn [app]; rewrite exec_pattern_next; [by apply IH|apply call_start_dollar; congruence].
Qed.

(** ** The text of a description *)

Definition in_quotes (q : ascii) (t : text) : list qchar :=
  (λ c, if bool_decide (c = q) then Escaped c else Raw c) <$> t.

Definition unescaped (x : qchar) : ascii := match x with Raw c | Escaped c => c end.

Lemma escape_char_id c t : c ∉ t → escape_char c t = t.
Proof.
  induction t as [|x t IH]; [done|]; intros [Hx Ht]%not_elem_of_cons.
  unfold escape_char in *; cbn; rewrite bool_decide_false by done; cbn; by rewrite IH.
Qed.

Lemma sanitize_render d : backslash ∉ d →
  sanitize_description d = render_body (in_quotes (getBestQuoteChar d) d).
Proof.
  intros Hd; unfold sanitize_description; rewrite (escape_char_id backslash) by done.
  generalize (getBestQuoteChar d) as q; intros q; clear Hd.
  induction d as [|c d IH]; [done|]; unfold escape_char, render_body, in_quotes in *; cbn.
  rewrite IH; by case_bool_decide.
Qed.

Lemma in_quotes_unescaped q d : unescaped <$> in_quotes q d = d.
Proof.
  unfold in_quotes; rewrite <- list_fmap_compose; rewrite <- (list_fmap_id d) at 2.
  apply list_fmap_ext; intros i c _; cbn; by case_bool_decide.
Qed.

Lemma in_quotes_closed q d : backslash ∉ d → closed_body q (in_quotes q d).
Proof.
  intros Hd; apply Forall_fmap, Forall_forall; intros c Hc; cbn.
  case_bool_decide; [done|]; split; [done|congruence].
Qed.

Lemma best_quote d : is_quote (getBestQuoteChar d) = true.
Proof. unfold getBestQuoteChar; by repeat case_bool_decide. Qed.

Lemma render_cons q c d :
  render_body (in_quotes q (c :: d)) =
  (if bool_decide (c = q) then [backslash; c] else [c]) ++ render_body (in_quotes q d).
Proof. unfold render_body, in_quotes; cbn; by case_bool_decide. Qed.

Lemma upto_render q d t : is_quote q = true → (upto_stop t = []) →
  upto_stop (render_body (in_quotes q d) ++ t) = upto_stop d.
Proof.
  intros Hq Ht; induction d as [|c d IH]; [done|]; rewrite render_cons; case_bool_decide as Hc; cbn.
  - subst c; by replace (stop q) with true by (unfold stop; by rewrite Hq).
  - by rewrite IH.
Qed.

(** Escaping the quotes of a description starts no call. *)
Lemma exec_render q d t : is_quote q = true → upto_stop t = [] →
  exec_pattern d = None → exec_pattern t = None →
  exec_pattern (render_body (in_quotes q d) ++ t) = None.
Proof.
  intros Hq Ht Hd Het; induction d as [|c d IH]; [done|].
  destruct (exec_pattern_None _ Hd c d eq_refl) as [Hc Hd'].
  pose proof (upto_render q d t Hq Ht) as Hu.
  rewrite render_cons; case_bool_decide as Hcq; [subst c|]; cbn [app].
  - rewrite exec_pattern_next by (by apply call_start_dollar).
    rewrite exec_pattern_next; [by apply IH|].
    apply call_start_dollar; by destruct (quote_not_backslash q Hq) as (_ & ? & _).
  - rewrite exec_pattern_next; [by apply IH|].
    apply call_start_upto; cbn [upto_stop]; rewrite Hu.
    exact (call_start_shorter _ Hc).
Qed.

(** ** The arguments of a call *)

Lemma render_id q d : q ∉ d → render_body (in_quotes q d) = d.
Proof.
  induction d as [|c d IH]; [done|]; intros [Hc Hd]%not_elem_of_cons.
  rewrite render_cons, bool_decide_false by congruence; cbn; by rewrite IH.
Qed.

Definition plain_char (c : ascii) : Prop := stop c = false ∧ c ≠ "(" ∧ c ≠ ")".

Lemma plain_quote c : plain_char c → is_quote c = false ∧ c ≠ backslash.
Proof. intros [Hs _]; unfold stop in Hs; split; [by destruct (is_quote c)|intros ->; done]. Qed.

Lemma scan_plain p t n : Forall plain_char p → scan_call (p ++ t) None n = app p <$> scan_call t None n.
Proof.
  induction 1 as [|c p Hc _ IH]; cbn [app scan_call]; [by destruct (scan_call t None n)|].
  destruct (plain_quote c Hc) as [-> _], Hc as (_ & ? & ?); rewrite !bool_decide_false, IH by done.
  by destruct (scan_call t None n).
Qed.

Lemma scan_body q body t n : is_quote q = true → closed_body q body →
  scan_call (render_body body ++ q :: t) (Some q) n = (λ a, render_body body ++ q :: a) <$> scan_call t None n.
Proof.
  intros Hq; destruct (quote_not_backslash q Hq) as (Hb & _).
  induction 1 as [|[c|c] body Hx _ IH].
  - cbn; rewrite bool_decide_false, bool_decide_true by done; by destruct (scan_call t None n).
  - destruct Hx; cbn; fold (render_body body); rewrite !bool_decide_false, IH by done.
    by destruct (scan_call t None n).
  - cbn; fold (render_body body); rewrite IH; by destruct (scan_call t None n).
Qed.

Lemma scan_quoted q body t n : is_quote q = true → closed_body q body →
  scan_call (q :: render_body body ++ q :: t) None n =
  (λ a, q :: render_body body ++ q :: a) <$> scan_call t None n.
Proof.
  intros Hq Hb; cbn [scan_call]; rewrite Hq, scan_body by done; by destruct (scan_call t None n).
Qed.

Lemma split_body q body t cur : is_quote q = true → closed_body q body →
  split_args (render_body body ++ q :: t) false (Some q) cur =
  split_args t false None (cur ++ (unescaped <$> body) ++ [q]).
Proof.
  intros Hq Hb; destruct (quote_not_backslash q Hq) as (Hqb & _); revert cur.
  induction Hb as [|[c|c] body Hx _ IH]; intros cur.
  - cbn; rewrite bool_decide_false by done; rewrite Hq; by rewrite bool_decide_true.
  - destruct Hx as [Hc1 Hc2]; cbn; fold (render_body body); rewrite bool_decide_false by done.
    destruct (is_quote c); [rewrite bool_decide_false by done|rewrite andb_false_r]; rewrite IH;
      by rewrite <- app_assoc.
  - cbn; fold (render_body body); rewrite IH; by rewrite <- app_assoc.
Qed.

Lemma split_quoted q body t cur : is_quote q = true → closed_body q body →
  split_args (q :: render_body body ++ q :: t) false None cur =
  split_args t false None (cur ++ q :: (unescaped <$> body) ++ [q]).
Proof.
  intros Hq Hb; cbn [split_args]; destruct (quote_not_backslash q Hq) as (? & _).
  rewrite bool_decide_false, Hq, split_body by done; by rewrite <- app_assoc.
Qed.

Lemma trim_quoted ws q d : forallb is_space ws = true → is_space q = false →
  trim (ws ++ q :: d ++ [q]) = q :: d ++ [q].
Proof.
  intros Hws Hq; unfold trim.
  assert (trim_start (ws ++ q :: d ++ [q]) = q :: d ++ [q]) as ->.
  { induction ws as [|c ws IH]; cbn in *; [by rewrite Hq|].
    apply andb_true_iff in Hws as [-> ?]; by apply IH. }
  assert (rev (q :: d ++ [q]) = q :: rev d ++ [q]) as -> by (cbn; by rewrite rev_app_distr).
  cbn [trim_start]; rewrite Hq; cbn; by rewrite rev_app_distr, rev_involutive.
Qed.

Lemma unescape_id c d : backslash ∉ d → unescape c d = d.
Proof.
  induction d as [|x d IH]; [done|]; intros [Hx Hd]%not_elem_of_cons; cbn.
  destruct d as [|y d]; [done|]; rewrite bool_decide_false by congruence; cbn [andb].
  by rewrite IH.
Qed.

Lemma quoted_by_ends q q' d : quoted_by q' (q :: d ++ [q]) = bool_decide (q = q').
Proof.
  unfold quoted_by, startsWith, endsWith; cbn [length take].
  rewrite length_app; cbn [length].
  replace (S (length d + 1) - 1) with (S (length d)) by lia; cbn [drop].
  rewrite drop_app_length; repeat case_bool_decide; naive_solver.
Qed.

Lemma clean_quoted ws q d : forallb is_space ws = true → is_quote q = true → backslash ∉ d →
  clean_arg (trim (ws ++ q :: d ++ [q])) = d.
Proof.
  intros Hws Hq Hd; destruct (quote_not_backslash q Hq) as (_ & _ & _ & Hs).
  rewrite trim_quoted by done; unfold clean_arg.
  assert (trim (q :: d ++ [q]) = q :: d ++ [q]) as -> by exact (trim_quoted [] q d eq_refl Hs).
  rewrite !quoted_by_ends.
  assert (bool_decide (q = "'") || bool_decide (q = "`") || bool_decide (q = double_quote) = true) as ->.
  { unfold is_quote in Hq; revert Hq.
    by destruct (bool_decide (q = "'")), (bool_decide (q = "`")), (bool_decide (q = double_quote)). }
  unfold slice_ends; cbn [tail]; rewrite removelast_last, !(unescape_id _ d) by done; done.
Qed.

(** ** What is written *)

Lemma sanitized_key s c : c ∈ sanitizeFromAiParameterName s →
  c ≠ "'" ∧ c ≠ "$" ∧ c ≠ backslash.
Proof.
  assert (∀ x, (if is_alnum x || bool_decide (x = "-") then x else "_") = c →
    c ≠ "'" ∧ c ≠ "$" ∧ c ≠ backslash) as Hchar.
  { intros x <-; destruct x as [[] [] [] [] [] [] [] []]; vm_compute; split_and!; congruence. }
  assert (c ∈ (λ c, if is_alnum c || bool_decide (c = "-") then c else "_") <$> s →
    c ≠ "'" ∧ c ≠ "$" ∧ c ≠ backslash) as Hmap.
  { intros (x & Hx & _)%list_elem_of_fmap; by apply (Hchar x). }
  unfold sanitizeFromAiParameterName; destruct (64 <=? _)%nat; [|exact Hmap].
  intros Hc; apply Hmap; eapply subseteq_take; exact Hc.
Qed.

(** The names that the tools accept have up to 64 characters. *)
Lemma key_length s : (length (sanitizeFromAiParameterName s) ≤ 63)%nat.
Proof.
  unfold sanitizeFromAiParameterName; destruct (Nat.leb_spec 64 (length ((λ c, if is_alnum c || bool_decide (c = "-") then c else "_") <$> s)));
    [rewrite length_take|]; lia.
Qed.

Lemma field_type_cases t :
  fieldTypeToFromAiType t ∈ [tx "boolean"; tx "number"; tx "json"; tx "string"].
Proof. unfold fieldTypeToFromAiType; case_bool_decide; set_solver. Qed.

Lemma field_type_chars t c : c ∈ fieldTypeToFromAiType t → c ≠ "'" ∧ c ≠ "$" ∧ c ≠ backslash.
Proof.
  assert (Forall (Forall (λ c, c ≠ "'" ∧ c ≠ "$" ∧ c ≠ backslash))
    [tx "boolean"; tx "number"; tx "json"; tx "string"]) as Hall.
  { repeat constructor; discriminate. }
  rewrite Forall_forall in Hall; intros Hc.
  exact (proj1 (Forall_forall _ _) (Hall _ (field_type_cases t)) c Hc).
Qed.

(** The written text: the start of a call between texts without a dollar, and its arguments. *)
Definition written_args (key d type : text) : text :=
  "'" :: render_body (in_quotes "'" key) ++ "'" :: tx ", " ++
  getBestQuoteChar d :: render_body (in_quotes (getBestQuoteChar d) d) ++ getBestQuoteChar d :: tx ", " ++
  "'" :: render_body (in_quotes "'" type) ++ "'" :: tx ") }}".

Lemma build_written d path displayName propType marker : backslash ∉ d →
  buildValueFromOverride (Some d) path displayName propType marker =
  (tx "={{ " ++ (if marker then FROM_AI_AUTO_GENERATED_MARKER ++ [" "] else [])) ++
  tx "$fromAI(" ++ written_args (call_key path displayName) d (fieldTypeToFromAiType propType).
Proof.
  intros Hd; unfold buildValueFromOverride, written_args; cbn [default]; rewrite sanitize_render by done.
  rewrite !(render_id "'").
  - by rewrite <- !app_assoc.
  - intros Hc; by apply field_type_chars in Hc as [].
  - intros Hc; by apply sanitized_key in Hc as [].
Qed.

Lemma plain_text p :
  forallb (λ c, negb (stop c) && negb (bool_decide (c = "(")) && negb (bool_decide (c = ")"))) p = true →
  Forall plain_char p.
Proof.
  rewrite forallb_forall; intros H; apply Forall_forall; intros c Hc%list_elem_of_In; specialize (H c Hc).
  apply andb_true_iff in H as [[Hs%negb_true_iff Ho%negb_true_iff]%andb_true_iff Hp%negb_true_iff].
  by apply bool_decide_eq_false in Ho, Hp.
Qed.

(** The arguments between the parentheses. *)
Lemma scan_written key d type : backslash ∉ key → backslash ∉ d → backslash ∉ type →
  scan_call (written_args key d type) None 1 =
  Some ("'" :: render_body (in_quotes "'" key) ++ "'" :: tx ", " ++
    getBestQuoteChar d :: render_body (in_quotes (getBestQuoteChar d) d) ++ getBestQuoteChar d :: tx ", " ++
    "'" :: render_body (in_quotes "'" type) ++ ["'"]).
Proof.
  intros Hk Hd Ht; unfold written_args.
  rewrite scan_quoted by (done || by apply in_quotes_closed).
  rewrite scan_plain by by apply plain_text.
  rewrite scan_quoted by (apply best_quote || by apply in_quotes_closed).
  rewrite scan_plain by by apply plain_text.
  rewrite scan_quoted by (done || by apply in_quotes_closed).
  done.
Qed.

(** What the arguments are read as. *)
Lemma parse_written js_Number jsonParse key d type :
  backslash ∉ key → backslash ∉ d → backslash ∉ type → isFromAIArgumentType type = true →
  parseArguments js_Number jsonParse ("'" :: render_body (in_quotes "'" key) ++ "'" :: tx ", " ++
    getBestQuoteChar d :: render_body (in_quotes (getBestQuoteChar d) d) ++ getBestQuoteChar d :: tx ", " ++
    "'" :: render_body (in_quotes "'" type) ++ ["'"]) =
  Ok (mkArgument key (Some d) type None).
Proof.
  intros Hk Hd Ht Htype; unfold parseArguments.
  assert (∀ q x t cur, is_quote q = true → backslash ∉ x →
    split_args (q :: render_body (in_quotes q x) ++ q :: t) false None cur =
    split_args t false None (cur ++ q :: x ++ [q])) as Hsplit.
  { intros; rewrite split_quoted, in_quotes_unescaped; [done..|by apply in_quotes_closed]. }
  rewrite Hsplit by done.
  change (split_args (tx ", " ++ ?x) false None ?c) with (trim c :: split_args x false None [" "]).
  rewrite Hsplit by (done || apply best_quote).
  change (split_args (tx ", " ++ ?x) false None ?c) with (trim c :: split_args x false None [" "]).
  rewrite Hsplit by done; cbn [split_args app].
  rewrite bool_decide_false by done; cbn [fmap list_fmap].
  assert (clean_arg (trim ("'" :: key ++ ["'"])) = key) as -> by (by apply (clean_quoted [])).
  assert (∀ q x, is_quote q = true → backslash ∉ x → clean_arg (trim (" " :: q :: x ++ [q])) = x) as Hclean
    by (by intros; apply (clean_quoted [" "])).
  rewrite !Hclean by (done || apply best_quote).
  cbn; by rewrite Htype.
Qed.

Lemma extract_one js_Number jsonParse t rest args a :
  exec_pattern t = Some rest → scan_call rest None 1 = Some args →
  parseArguments js_Number jsonParse args = Ok a → exec_pattern rest = None →
  extractFromAICalls js_Number jsonParse t = Ok [a].
Proof.
  intros H1 H2 H3 H4; unfold extractFromAICalls.
  destruct t as [|c t]; [done|].
  cbn [length extract_calls]; rewrite H1, H2, H3; cbn [extract_calls]; by rewrite H4.
Qed.

Lemma upto_quote q t : is_quote q = true → upto_stop (q :: t) = [].
Proof. intros Hq; cbn; unfold stop; by rewrite Hq. Qed.

(** No further call starts in the arguments. *)
Lemma exec_written key d type : "$" ∉ key → "$" ∉ type → "'" ∉ key → "'" ∉ type →
  exec_pattern d = None → exec_pattern (written_args key d type) = None.
Proof.
  intros Hk Ht Hk' Ht' Hd; unfold written_args; rewrite !(render_id "'") by done.
  pose proof (best_quote d) as Hq; destruct (quote_not_backslash _ Hq) as (_ & Hq' & _).
  assert (∀ c t, c ≠ "$" → exec_pattern (c :: t) = exec_pattern t) as Hskip.
  { intros; by apply exec_pattern_next, call_start_dollar. }
  rewrite Hskip, exec_skip, Hskip, exec_skip, Hskip by (done || by vm_compute; set_solver).
  apply exec_render; [done|by apply upto_quote|done|].
  rewrite Hskip, exec_skip, Hskip, exec_skip by (done || by vm_compute; set_solver).
  done.
Qed.

(** ** What surrounds the call *)

(** Stripping an expression in braces. *)
Lemma strip_braces a y b (core := a :: y ++ [b]) : is_space a = false → is_space b = false →
  strip_expression (tx "={{ " ++ core ++ tx " }}") =
  if startsWith FROM_AI_AUTO_GENERATED_MARKER core
  then trim (drop (length FROM_AI_AUTO_GENERATED_MARKER) core) else core.
Proof.
  intros Ha Hb; unfold strip_expression.
  assert (head (tx "={{ " ++ core ++ tx " }}") = Some "=") as -> by done; rewrite bool_decide_true by done.
  assert (trim (tail (tx "={{ " ++ core ++ tx " }}")) = tx "{{" ++ ([" "] ++ core ++ [" "]) ++ tx "}}") as ->.
  { assert (tail (tx "={{ " ++ core ++ tx " }}") = [] ++ ("{" :: (tx "{ " ++ core ++ tx " }") ++ ["}"]) ++ []) as ->
      by (cbn; rewrite app_nil_r; by rewrite <- !app_assoc).
    rewrite trim_core by done; cbn; by rewrite <- !app_assoc. }
  rewrite startsWith_app, (app_assoc (tx "{{")), endsWith_app, <- app_assoc; cbn [andb].
  assert (take (length (tx "{{" ++ ([" "] ++ core ++ [" "]) ++ tx "}}") - 4)
    (drop 2 (tx "{{" ++ ([" "] ++ core ++ [" "]) ++ tx "}}")) = [" "] ++ core ++ [" "]) as ->.
  { change (drop 2 (tx "{{" ++ ?x)) with x; rewrite take_app_length'; [done|].
    rewrite !length_app; cbn [length tx String.list_ascii_of_string]; lia. }
  assert (trim ([" "] ++ core ++ [" "]) = core) as -> by exact (trim_core [" "] a y b [" "] eq_refl eq_refl Ha Hb).
  done.
Qed.

(** Stripping a call, after the marker or not. *)
Lemma strip_built (marker : bool) x :
  strip_expression ((tx "={{ " ++ (if marker then FROM_AI_AUTO_GENERATED_MARKER ++ [" "] else [])) ++
    ("$" :: x ++ [")"]) ++ tx " }}") = "$" :: x ++ [")"].
Proof.
  rewrite <- app_assoc; destruct marker.
  - pose proof (strip_braces "/" (tail FROM_AI_AUTO_GENERATED_MARKER ++ " " :: "$" :: x) ")" eq_refl eq_refl) as H.
    assert ("/" :: (tail FROM_AI_AUTO_GENERATED_MARKER ++ " " :: "$" :: x) ++ [")"] =
      FROM_AI_AUTO_GENERATED_MARKER ++ [" "] ++ ("$" :: x ++ [")"]) ++ []) as Hc
      by (cbn; by rewrite app_nil_r, <- ?app_assoc).
    rewrite Hc, startsWith_app, drop_app_length, trim_core in H by done.
    etrans; [|exact H]; rewrite app_nil_r; by rewrite <- !app_assoc.
  - rewrite app_nil_l, (strip_braces "$" x ")") by done; by replace (startsWith _ _) with false.
Qed.

(** The arguments as pieces. *)
Definition written_pieces (key d type : text) : list piece :=
  [Quoted "'" (in_quotes "'" key); Plain ","; Plain " ";
   Quoted (getBestQuoteChar d) (in_quotes (getBestQuoteChar d) d); Plain ","; Plain " ";
   Quoted "'" (in_quotes "'" type)].

Lemma written_render key d type : written_args key d type = render (written_pieces key d type) ++ tx ") }}".
Proof. unfold written_args, render; cbn; rewrite <- ?app_assoc; cbn; by repeat (rewrite <- ?app_assoc; cbn). Qed.

Lemma in_quotes_no_interpolation q d :
  (q = "`" → ∀ a b, d ≠ a ++ "$" :: "{" :: b) → no_interpolation q (in_quotes q d).
Proof.
  induction d as [|c d IH]; [done|]; intros Hd; split.
  - intros (-> & Hc & Hn); destruct d as [|c' d]; [done|]; cbn in Hc, Hn.
    case_bool_decide; [done|]; case_bool_decide; [done|]; simplify_eq; by apply (Hd eq_refl [] d).
  - apply IH; intros Hq a b ->; by apply (Hd Hq (c :: a) b).
Qed.

Lemma prepare_plain p t : backslash ∉ p → prepare_expression (p ++ t) = p ++ prepare_expression t.
Proof.
  induction p as [|c p IH]; [done|]; intros [Hc Hp]%not_elem_of_cons; specialize (IH Hp).
  cbn [app prepare_expression]; destruct (p ++ t) as [|y r] eqn:E.
  - apply app_eq_nil in E as [-> ->]; done.
  - rewrite bool_decide_false by congruence; cbn [andb]; by rewrite IH.
Qed.

Lemma prepare_render q d t : backslash ∉ d → (q = "`" ∨ q ∉ d) →
  prepare_expression (render_body (in_quotes q d) ++ t) = render_body (in_quotes q d) ++ prepare_expression t.
Proof.
  intros Hd [->|Hq]; [|rewrite render_id by done; by apply prepare_plain].
  induction d as [|c d IH]; [done|]; apply not_elem_of_cons in Hd as [Hc Hd]; specialize (IH Hd).
  rewrite render_cons, <- !app_assoc; case_bool_decide as Hcq; [subst c|].
  - change ([backslash; "`"] ++ ?x) with (backslash :: "`" :: x).
    transitivity (backslash :: prepare_expression ("`" :: render_body (in_quotes "`" d) ++ t)); [done|].
    change ("`" :: ?x) with (["`"] ++ x); rewrite prepare_plain, IH by (vm_compute; set_solver); done.
  - rewrite prepare_plain, IH; [done|]; intros ?%list_elem_of_singleton; congruence.
Qed.

Lemma prepare_written prefix key d type : backslash ∉ prefix → backslash ∉ key → backslash ∉ d →
  backslash ∉ type → "'" ∉ key → "'" ∉ type → (getBestQuoteChar d = "`" ∨ getBestQuoteChar d ∉ d) →
  prepare_expression (prefix ++ written_args key d type) = prefix ++ written_args key d type.
Proof.
  intros Hp Hk Hd Ht Hk' Ht' Hq; unfold written_args; rewrite !(render_id "'") by done.
  assert (∀ p, backslash ∉ p → prepare_expression p = p) as Hid.
  { intros p Hb; rewrite <- (app_nil_r p) at 1; rewrite prepare_plain by done; by rewrite app_nil_r. }
  pose proof (quote_not_backslash _ (best_quote d)) as (Hqb & _).
  rewrite prepare_plain by done; f_equal.
  assert (∀ c t, c ≠ backslash → prepare_expression (c :: t) = c :: prepare_expression t) as Hcons.
  { intros c t Hc; change (c :: t) with ([c] ++ t); rewrite prepare_plain; [done|].
    intros ?%list_elem_of_singleton; congruence. }
  rewrite Hcons, prepare_plain, Hcons, prepare_plain, Hcons, prepare_render, Hcons, prepare_plain, Hcons
    by (done || by vm_compute; set_solver).
  rewrite prepare_plain, Hid by (done || by vm_compute; set_solver); done.
Qed.

Lemma best_quote_absent d : newline ∈ d ∨ "`" ∉ d ∨ double_quote ∉ d →
  getBestQuoteChar d = "`" ∨ getBestQuoteChar d ∉ d.
Proof. unfold getBestQuoteChar; repeat case_bool_decide; naive_solver. Qed.

(** A description without a backslash in which no call starts is read back as it was
    written, with the key and the type of the parameter: by the engine, and by the editor
    unless the description is a line with both a backtick and a double quote.  The
    expression is accepted as a call only, unless it is in backticks and has [${]. *)
Theorem override_read_back js_Number jsonParse (d path displayName propType : text) (marker : bool)
    (value := buildValueFromOverride (Some d) path displayName propType marker) :
  backslash ∉ d → exec_pattern d = None →
  extractFromAICalls js_Number jsonParse value =
    Ok [mkArgument (call_key path displayName) (Some d) (fieldTypeToFromAiType propType) None] ∧
  (newline ∈ d ∨ "`" ∉ d ∨ double_quote ∉ d → parseOverrides js_Number jsonParse value = Some (Some d)) ∧
  ((getBestQuoteChar d = "`" → ∀ a b, d ≠ a ++ "$" :: "{" :: b) → isFromAIOnlyExpression value = true).
Proof.
  intros Hd Hcalls; subst value; rewrite build_written by done.
  set (key := call_key path displayName); set (type := fieldTypeToFromAiType propType).
  assert (∀ c, c ∈ key → c ≠ "'" ∧ c ≠ "$" ∧ c ≠ backslash) as Hkey by (intros c; apply sanitized_key).
  assert (∀ c, c ∈ type → c ≠ "'" ∧ c ≠ "$" ∧ c ≠ backslash) as Htype by (intros c; apply field_type_chars).
  assert ("'" ∉ key ∧ "$" ∉ key ∧ backslash ∉ key) as (? & ? & ?) by (split_and!; intros ?%Hkey; naive_solver).
  assert ("'" ∉ type ∧ "$" ∉ type ∧ backslash ∉ type) as (? & ? & ?) by (split_and!; intros ?%Htype; naive_solver).
  set (prefix := tx "={{ " ++ (if marker then FROM_AI_AUTO_GENERATED_MARKER ++ [" "] else [])).
  assert (extractFromAICalls js_Number jsonParse (prefix ++ tx "$fromAI(" ++ written_args key d type) =
    Ok [mkArgument key (Some d) type None]) as Hread.
  { eapply (extract_one _ _ _ (written_args key d type)); [|by apply scan_written| |by apply exec_written].
    - rewrite exec_skip; [done|]; destruct marker; vm_compute; set_solver.
    - apply parse_written; [done..|]; unfold type.
      pose proof (field_type_cases propType) as Hcases; revert Hcases.
      generalize (fieldTypeToFromAiType propType) as ft; intros ft Hft.
      repeat (apply elem_of_cons in Hft as [->|Hft]; [done|]); by apply not_elem_of_nil in Hft. }
  split_and!; [exact Hread| |].
  - intros Hq; unfold parseOverrides; rewrite app_assoc, prepare_written, <- app_assoc, Hread; try done.
    + destruct marker; vm_compute; set_solver.
    + by apply best_quote_absent.
  - intros Hi; unfold isFromAIOnlyExpression.
    assert (prefix ++ tx "$fromAI(" ++ written_args key d type = prefix ++
      ("$" :: (tx "fromAI(" ++ render (written_pieces key d type)) ++ [")"]) ++ tx " }}") as ->.
    { rewrite written_render; cbn; by rewrite <- !app_assoc. }
    unfold prefix; rewrite strip_built.
    assert (call_start ("$" :: (tx "fromAI(" ++ render (written_pieces key d type)) ++ [")"]) =
      Some (render (written_pieces key d type) ++ [")"])) as -> by (by rewrite <- app_assoc).
    rewrite walk_render; [by rewrite bool_decide_true|..].
    + assert (∀ q x, is_quote q = true → backslash ∉ x → (q = "`" → ∀ a b, x ≠ a ++ "$" :: "{" :: b) →
        piece_ok (Quoted q (in_quotes q x))) as Hpiece.
      { intros; split_and!; [done|by apply in_quotes_closed|by apply in_quotes_no_interpolation]. }
      unfold written_pieces; repeat (apply Forall_cons; split; [try done|]); [..|by apply Forall_nil];
        apply Hpiece; try done; apply best_quote.
    + by split_and!.
Qed.

(** * Concrete inputs *)

Definition no_number (_ : text) : option json := None.

Definition extract : text → result FromAIError (list FromAIArgument) := extractFromAICalls no_number no_number.

Definition read {A} (f : FromAIArgument → A) (t : text) : result FromAIError (list A) :=
  (λ calls : list FromAIArgument, f <$> calls) <$> extract t.

(** The search goes on inside the arguments of a call: a description that mentions a call
    makes the whole text fail, or counts as a second call. *)
Example mention_breaks_call :
  extract (tx "={{ $fromAI('a', 'see $fromAI( below') }}") =
  Err (ParseError "Unbalanced parentheses while parsing $fromAI call").
Proof. vm_compute. reflexivity. Qed.

Example mention_counts_as_call :
  read fa_key (tx "={{ $fromAI('a', 'like $fromAI(`b`)') }}") = Ok [tx "a"; tx "b"].
Proof. vm_compute. reflexivity. Qed.

(** A backslash makes the next character stand for itself, also where it means another. *)
Example newline_becomes_n :
  read fa_description (tx "={{ $fromAI('a', 'x\ny') }}") = Ok [Some (tx "xny")].
Proof. vm_compute. reflexivity. Qed.

(** Backslashes are removed twice: of two in a description one is left. *)
Example two_backslashes_become_one :
  read fa_description (buildValueFromOverride (Some (tx "x\\y")) (tx "parameters.text") (tx "Text") (tx "string") true)
  = Ok [Some (tx "x\y")].
Proof. vm_compute. reflexivity. Qed.

(** A description with all three quotes loses its apostrophes in the editor. *)
Example apostrophe_lost :
  let description := tx "it's `x` or " ++ [double_quote] in
  parseOverrides no_number no_number
    (buildValueFromOverride (Some description) (tx "parameters.text") (tx "Text") (tx "string") true)
  = Some (Some (tx "it\s `x` or " ++ [double_quote])).
Proof. vm_compute. reflexivity. Qed.

(** The arguments of an accepted call need not be literals. *)
Example identifiers_accepted :
  isFromAIOnlyExpression (tx "={{ $fromAI(process.env.SECRET) }}") = true.
Proof. vm_compute. reflexivity. Qed.

(** What is rejected outside quotes. *)
Example calls_rejected :
  isFromAIOnlyExpression (tx "={{ $fromAI(evil()) }}") = false ∧
  isFromAIOnlyExpression (tx "={{ $fromAI('a', `${x}`) }}") = false ∧
  isFromAIOnlyExpression (tx "={{ $fromAI('a', x`y`) }}") = false ∧
  isFromAIOnlyExpression (tx "={{ $fromAI('a') + $json.b }}") = false.
Proof. vm_compute. done. Qed.

Example override_read_back_witness :
  let d := tx "the user's name" in
  let value := buildValueFromOverride (Some d) (tx "parameters.fields[0].name") (tx "Field Name") (tx "string") true in
  backslash ∉ d ∧ exec_pattern d = None ∧
  extractFromAICalls no_number no_number value =
    Ok [mkArgument (tx "fields0_Field_Name") (Some d) (tx "string") None] ∧
  isFromAIOnlyExpression value = true.
Proof.
  assert (backslash ∉ tx "the user's name") as Hb by (vm_compute; set_solver).
  destruct (override_read_back no_number no_number (tx "the user's name") (tx "parameters.fields[0].name")
    (tx "Field Name") (tx "string") true Hb eq_refl) as (H1 & _ & H3).
  split; [exact Hb|]; split; [vm_compute; reflexivity|]; split; [exact H1|].
  apply H3; intros _ a b Hab.
  assert ("$" ∈ tx "the user's name") as Hin by (rewrite Hab; set_solver).
  revert Hin; vm_compute; set_solver.
Defined.

Example getSchema_consistent_witness :
  let parameters := (JObj [("to", JStr "={{ $fromAI('to', 'who', 'string') }}");
    ("more", JArr [JStr "={{ $fromAI('to', 'who') }} and {{ $fromAI('age', '', 'number', '7') }}"])])%string in
  ∃ args, getSchema no_number no_number parameters = Ok args ∧ NoDup (fa_key <$> args) ∧
    fa_key <$> args = [tx "to"; tx "age"].
Proof.
  eexists; split; [vm_compute; reflexivity|]; split; [|reflexivity].
  destruct (getSchema_consistent no_number no_number
    (JObj [("to", JStr "={{ $fromAI('to', 'who', 'string') }}");
    ("more", JArr [JStr "={{ $fromAI('to', 'who') }} and {{ $fromAI('age', '', 'number', '7') }}"])])%string
    [mkArgument (tx "to") (Some (tx "who")) (tx "string") None;
     mkArgument (tx "age") (Some []) (tx "number") (Some (JStr "7"%string))] eq_refl) as (calls & _ & H & _).
  exact H.
Defined.

Lemma isFromAIOnlyExpression_sound_complete_witness :
  isFromAIOnlyExpression (tx "={{ $fromAI( 'key', -1.5) }}") = true.
Proof.
  apply (proj1 (isFromAIOnlyExpression_sound_complete (tx "={{ $fromAI( 'key', -1.5) }}"))
    ((Plain <$> [" "]) ++ [Quoted "'" (Raw <$> tx "key")] ++ (Plain <$> []) ++ Plain "," ::
     (Plain <$> [" "]) ++ (Plain <$> tx "-1.5") ++ (Plain <$> [])) []).
  - by vm_compute.
  - apply args_more; [done| |done|apply args_last; [done| |done]].
    + constructor; [done| |by vm_compute; naive_solver].
      unfold closed_body; rewrite Forall_fmap; by repeat constructor.
    + constructor; right; right; exists ["-"], ["1"], [".";"5"]; split_and!; try done; [by right|].
      right; by exists ["5"].
  - done.
Defined.
