(* ===== verification/OutboundRequests.v ===== *)
(** OutboundRequests: where the requests of nodes may go.

    packages/core/src/ssrf: the ranges of addresses that are blocked or allowed
    (ip-range-builder.ts), the names that are (hostname-matcher.ts), and the service that
    checks addresses, names and redirects (ssrf-protection.service.ts);
    packages/workflow/src/credential-domain-restrictions.ts: the domains a credential may be
    sent to; and their use around a request with its redirects
    (core/src/execution-engine/node-execution-context/utils/request-helpers/http-request.ts
    and axios-utils.ts).

    The parsing of URLs and of addresses, the check that a text is a range in CIDR notation,
    and the answers of the DNS are parameters.  [BlockList] and [connect] are those of
    Node.js. *)

From Stdlib Require Import Ascii ZArith Lia.
From stdpp Require Import prelude list strings.
From S2P Require Import Prelude Text.

#[local] Open Scope Z_scope.

(** * Addresses and ranges *)

Inductive ip := V4 (a : Z) | V6 (a : Z).

Definition ip_ok (x : ip) : Prop :=
  match x with V4 a => 0 ≤ a < 2 ^ 32 | V6 a => 0 ≤ a < 2 ^ 128 end.

(** An IPv4 address as the IPv6 address that stands for it, [::ffff:a.b.c.d]. *)
Definition embed (x : ip) : Z :=
  match x with V4 a => Z.lor (Z.shiftl 65535 32) a | V6 a => a end.

(** Whether the first bits of the address are those of the network; across the families,
    of the address that stands for the one of IPv4. *)
Definition in_network (x network : ip) (prefix : Z) : bool :=
  let rest := match network with V4 _ => 32 - prefix | V6 _ => 128 - prefix end in
  Z.shiftr (embed x) rest =? Z.shiftr (embed network) rest.

(** [BlockList] *)
Definition BlockList : Type := list (ip * Z).

Definition list_check (l : BlockList) (x : ip) : bool :=
  existsb (λ r, in_network x r.1 r.2) l.

(** [addSubnet] throws when the prefix is out of range. *)
Definition addSubnet (l : BlockList) (network : ip) (prefix : option Z) : option BlockList :=
  match prefix with
  | None => None
  | Some p =>
      if (0 <=? p) && (p <=? match network with V4 _ => 32 | V6 _ => 128 end)
      then Some (l ++ [(network, p)]) else None
  end.

(** [Number.parseInt(_, 10)] of a text that starts with digits. *)
Fixpoint parse_digits (t : text) (n : Z) : Z :=
  match t with
  | c :: t => if is_digit c then parse_digits t (10 * n + Z.of_nat (nat_of_ascii c - 48)) else n
  | [] => n
  end.

Definition parseInt (t : text) : option Z :=
  match t with c :: _ => if is_digit c then Some (parse_digits t 0) else None | [] => None end.

Inductive SsrfError :=
| SsrfBlockedIpError (address : text)
| InvalidUrl
| AssertionError
| DnsError
| DomainNotAllowed.

Record LookupAddress := mkAddress { la_address : text; la_family : Z }.

Record url := mkUrl { u_hostname : text; u_origin : text }.

Section Requests.

(** [isIP] with the address itself, zod's [cidr()], and [new URL]. *)
Context (parse_ip : text → option ip) (is_cidr : text → bool) (parse_url : text → option url).

Inductive IpRangeError := InvalidCidr | FailedToAdd.

Definition parseCidr (entry : text) : option (ip * option Z) :=
  if negb (is_cidr entry) then None else
  let parts := split_on "/" entry in
  network ← parse_ip (default [] (parts !! 0%nat));
  Some (network, parseInt (default [] (parts !! 1%nat))).

Definition range_step (acc : BlockList * list (text * IpRangeError)) (rawEntry : text) :
  BlockList * list (text * IpRangeError) :=
  let entry := trim rawEntry in
  if bool_decide (entry = []) then acc else
  match parseCidr entry with
  | None => (acc.1, acc.2 ++ [(entry, InvalidCidr)])
  | Some (network, prefix) =>
      match addSubnet acc.1 network prefix with
      | Some l => (l, acc.2)
      | None => (acc.1, acc.2 ++ [(entry, FailedToAdd)])
      end
  end.

Definition buildIpRangeList (cidrRanges : list text) : BlockList * list (text * IpRangeError) :=
  foldl range_step ([], []) cidrRanges.

(** * Names of hosts *)

Inductive ParsedPattern := Wildcard (suffix : text) | Exact (value : text).

Definition normalizeHostname (hostname : text) : text := toLowerCase (trim hostname).

Definition parse_pattern (value : text) : ParsedPattern :=
  if startsWith (tx "*.") value then Wildcard (tail value) else Exact value.

Definition HostnameMatcher (patterns : list text) : list ParsedPattern :=
  parse_pattern <$> filter (λ v, v ≠ []) (normalizeHostname <$> patterns).

Definition pattern_matches (hostname : text) (p : ParsedPattern) : bool :=
  match p with
  | Wildcard suffix => endsWith suffix hostname && (length suffix <? length hostname)%nat
  | Exact value => bool_decide (hostname = value)
  end.

Definition matches (parsed : list ParsedPattern) (hostname : text) : bool :=
  existsb (pattern_matches (normalizeHostname hostname)) parsed.

(** * The service *)

Record SsrfProtectionConfig := mkConfig {
  blockedIpRanges : list text;
  allowedIpRanges : list text;
  allowedHostnames : list text;
}.

Record SsrfProtectionService := mkService {
  blockedIps : BlockList;
  allowedIps : BlockList;
  allowedHostnameMatcher : list ParsedPattern;
}.

Definition new_service (c : SsrfProtectionConfig) : SsrfProtectionService :=
  mkService (buildIpRangeList (blockedIpRanges c)).1 (buildIpRangeList (allowedIpRanges c)).1
            (HostnameMatcher (allowedHostnames c)).

Definition validateIp (s : SsrfProtectionService) (address : text) : result SsrfError unit :=
  match parse_ip address with
  | None => Err AssertionError
  | Some x =>
      if list_check (allowedIps s) x then Ok ()
      else if list_check (blockedIps s) x then Err (SsrfBlockedIpError address)
      else Ok ()
  end.

Definition normalizeIpInHostname (hostname : text) : text :=
  if startsWith ["["%char] hostname && endsWith ["]"%char] hostname
  then removelast (tail hostname) else hostname.

Definition ip_family (x : ip) : Z := match x with V4 _ => 4 | V6 _ => 6 end.

(** [resolved] is what the resolver answers for the name, if it is asked. *)
Definition lookupAndValidate (s : SsrfProtectionService) (hostname : text)
    (resolved : result SsrfError (list LookupAddress)) : result SsrfError (list LookupAddress) :=
  let cleanIp := normalizeIpInHostname hostname in
  match parse_ip cleanIp with
  | Some x => _ ← validateIp s cleanIp; Ok [mkAddress cleanIp (ip_family x)]
  | None =>
      resolved ← resolved;
      if bool_decide (resolved = []) then Err AssertionError
      else if matches (allowedHostnameMatcher s) hostname then Ok resolved
      else _ ← foldM (λ _ a, validateIp s (la_address a)) () resolved; Ok resolved
  end.

Definition validateUrl (s : SsrfProtectionService) (u : text)
    (resolved : result SsrfError (list LookupAddress)) : result SsrfError unit :=
  match parse_url u with
  | None => Err InvalidUrl
  | Some parsed => _ ← lookupAndValidate s (u_hostname parsed) resolved; Ok ()
  end.

(** What the callback of the lookup gets: all addresses, or the first. *)
Definition secure_lookup (s : SsrfProtectionService) (all : bool) (hostname : text)
    (resolved : result SsrfError (list LookupAddress)) : result SsrfError (list LookupAddress) :=
  resolved ← lookupAndValidate s hostname resolved;
  Ok (if all then resolved else take 1 resolved).

Definition validateRedirectSync (s : SsrfProtectionService) (u : text) : result SsrfError unit :=
  match parse_url u with
  | None => Ok ()
  | Some parsed =>
      if matches (allowedHostnameMatcher s) (u_hostname parsed) then Ok () else
      let cleanIp := normalizeIpInHostname (u_hostname parsed) in
      match parse_ip cleanIp with Some _ => validateIp s cleanIp | None => Ok () end
  end.

(** * The domains of a credential *)

Definition drop_final_dot (t : text) : text :=
  if endsWith ["."%char] t then removelast t else t.

(** [allowedDomain.startsWith('*.')] and so on, for a host without a final dot. *)
Definition domain_matches (hostname allowedDomain : text) : bool :=
  if startsWith (tx "*.") allowedDomain then
    let domainSuffix := drop 2 allowedDomain in
    negb (bool_decide (domainSuffix = [])) && endsWith ("."%char :: domainSuffix) hostname
  else bool_decide (hostname = allowedDomain).

Definition allowed_list (allowedDomains : text) : list text :=
  filter (λ d, d ≠ []) ((λ d, drop_final_dot (toLowerCase (trim d))) <$> split_on "," allowedDomains).

Definition isDomainAllowed (u allowedDomains : text) : bool :=
  if bool_decide (trim allowedDomains = []) then true else
  match parse_url u with
  | None => false
  | Some parsed =>
      let hostname := drop_final_dot (toLowerCase (u_hostname parsed)) in
      negb (bool_decide (hostname = [])) && existsb (domain_matches hostname) (allowed_list allowedDomains)
  end.

Definition assertUrlAllowed (u : text) (allowedDomains : option text) : result SsrfError unit :=
  match allowedDomains with
  | None | Some [] => Ok ()
  | Some allowedDomains => if isDomainAllowed u allowedDomains then Ok () else Err DomainNotAllowed
  end.

Inductive DomainRestrictionMode := All | Domains | No_domain.

(** The restriction of a credential: the mode, unless it is none of the three, and the
    field, when it is a text. *)
Record restriction := mkRestriction {
  allowedHttpRequestDomains : option DomainRestrictionMode;
  allowedDomains_field : option text;
}.

Inductive RestrictionError := UsePrevented | NoDomainsSpecified | UrlNotAllowed.

Definition readAllowedDomainsField (c : restriction) : option text :=
  value ← allowedDomains_field c;
  if bool_decide (trim value = []) then None else Some (trim value).

Definition getCredentialAllowedDomains (c : restriction) : result RestrictionError (option text) :=
  match allowedHttpRequestDomains c with
  | Some No_domain => Err UsePrevented
  | Some Domains =>
      match readAllowedDomainsField c with
      | None => Err NoDomainsSpecified
      | Some d => Ok (Some d)
      end
  | _ => Ok None
  end.

(** [pinnedUrl] is [None] when the option is not passed, and may be passed as undefined. *)
Definition assertCredentialAllowsUrl (c : restriction) (u : text) (pinnedUrl : option (option text)) :
  result RestrictionError (option text) :=
  match allowedHttpRequestDomains c with
  | Some No_domain =>
      match pinnedUrl with
      | None => Err UsePrevented
      | Some None | Some (Some []) => Ok None
      | Some (Some p) => if bool_decide (u ≠ p) then Err UrlNotAllowed else Ok None
      end
  | Some Domains =>
      match readAllowedDomainsField c with
      | None => Err NoDomainsSpecified
      | Some d => match assertUrlAllowed u (Some d) with Ok _ => Ok (Some d) | Err _ => Err UrlNotAllowed end
      end
  | _ => Ok None
  end.

(** [injectDomainRestrictionFields], on the names of the properties; [inject] says whether
    the type of the credential is one that is sent. *)
Definition injectDomainRestrictionFields (inject : bool) (properties : list string) : list string :=
  if negb inject then properties
  else if bool_decide ("allowedHttpRequestDomains"%string ∈ properties) then properties
  else properties ++ ["allowedHttpRequestDomains"%string; "allowedDomains"%string].

(** * A request and its redirects *)

(** A response that redirects, what the DNS answers for its host, and whether the client
    asks for all addresses. *)
Record hop := mkHop {
  h_href : text;
  h_resolved : result SsrfError (list LookupAddress);
  h_all : bool;
}.

(** [rq_validated] is the answer for the check of the URL, [rq_first] is the first hop. *)
Record request := mkRequest {
  rq_validated : result SsrfError (list LookupAddress);
  rq_first : hop;
  rq_proxy : bool;
  rq_allowedDomains : option text;
  rq_sendCredentialsOnCrossOriginRedirect : bool;
}.

Inductive connection := Direct (address : text) | ViaProxy.

(** [s_copied]: the credentials are put on by the code, for a redirect by the callback
    before it.  Which headers the client of redirects carries over by itself is its own. *)
Record sent := mkSent { s_href : text; s_url : url; s_connection : connection; s_copied : bool }.

Section Client.

(** The service, unless protection is off. *)
Context (ssrfBridge : option SsrfProtectionService).

(** A host that is an address is connected to; for a name, the lookup of the agent is
    called.  A proxy connects to the host itself. *)
Definition connect (proxy : bool) (u : url) (all : bool) (resolved : result SsrfError (list LookupAddress)) :
  result SsrfError (list connection) :=
  if proxy then Ok [ViaProxy] else
  let host := normalizeIpInHostname (u_hostname u) in
  match parse_ip host with
  | Some _ => Ok [Direct host]
  | None =>
      (λ addresses : list LookupAddress, (λ a, Direct (la_address a)) <$> addresses) <$>
      match ssrfBridge with
      | Some s => secure_lookup s all (u_hostname u) resolved
      | None => (λ l : list LookupAddress, if all then l else take 1 l) <$> resolved
      end
  end.

Definition validateUrlSsrf (u : text) (resolved : result SsrfError (list LookupAddress)) : result SsrfError unit :=
  match ssrfBridge, parse_url u with
  | Some s, Some _ => validateUrl s u resolved
  | _, _ => Ok ()
  end.

(** The callback before a redirect: whether it copies the credentials to the request. *)
Definition getBeforeRedirectFn (rq : request) (originalOrigin : text) (href : text) : result SsrfError bool :=
  _ ← assertUrlAllowed href (rq_allowedDomains rq);
  _ ← match ssrfBridge with Some s => validateRedirectSync s href | None => Ok () end;
  match parse_url href with
  | None => Err InvalidUrl
  | Some u => Ok (bool_decide (u_origin u = originalOrigin) || rq_sendCredentialsOnCrossOriginRedirect rq)
  end.

Definition send (rq : request) (h : hop) (u : url) (auth : bool) : result SsrfError (list sent) :=
  (λ connections : list connection, (λ c, mkSent (h_href h) u c auth) <$> connections)
    <$> connect (rq_proxy rq) u (h_all h) (h_resolved h).

Fixpoint follow (rq : request) (originalOrigin : text) (hops : list hop) : list sent * option SsrfError :=
  match hops with
  | [] => ([], None)
  | h :: hops =>
      match parse_url (h_href h), getBeforeRedirectFn rq originalOrigin (h_href h) with
      | Some u, Ok auth =>
          match send rq h u auth with
          | Err e => ([], Some e)
          | Ok l => let '(rest, e) := follow rq originalOrigin hops in (l ++ rest, e)
          end
      | None, _ => ([], Some InvalidUrl)
      | _, Err e => ([], Some e)
      end
  end.

Definition httpRequest (rq : request) (redirects : list hop) : list sent * option SsrfError :=
  let h := rq_first rq in
  match (_ ← validateUrlSsrf (h_href h) (rq_validated rq); assertUrlAllowed (h_href h) (rq_allowedDomains rq)) with
  | Err e => ([], Some e)
  | Ok _ =>
      match parse_url (h_href h) with
      | None => ([], Some InvalidUrl)
      | Some u =>
          match send rq h u true with
          | Err e => ([], Some e)
          | Ok l => let '(rest, e) := follow rq (u_origin u) redirects in (l ++ rest, e)
          end
      end
  end.

End Client.

(** * Ranges *)

Lemma existsb_elem {A} (f : A → bool) l : existsb f l = true ↔ ∃ x, x ∈ l ∧ f x = true.
Proof. rewrite existsb_exists; by setoid_rewrite list_elem_of_In. Qed.

(** The bits of the prefix agree exactly on an interval. *)
Lemma shiftr_interval e n r : 0 ≤ r →
  (Z.shiftr e r =? Z.shiftr n r) = true ↔ n - n `mod` 2 ^ r ≤ e < n - n `mod` 2 ^ r + 2 ^ r.
Proof.
  intros Hr; rewrite Z.eqb_eq, !Z.shiftr_div_pow2 by done.
  pose proof (Z.pow_pos_nonneg 2 r ltac:(lia) Hr).
  pose proof (Z.div_mod e (2 ^ r) ltac:(lia)); pose proof (Z.div_mod n (2 ^ r) ltac:(lia)).
  pose proof (Z.mod_pos_bound e (2 ^ r) ltac:(lia)); pose proof (Z.mod_pos_bound n (2 ^ r) ltac:(lia)).
  split; [intros He; rewrite He in *; lia|intros He].
  assert (2 ^ r * (e / 2 ^ r) < 2 ^ r * (n / 2 ^ r + 1) ∧ 2 ^ r * (n / 2 ^ r) < 2 ^ r * (e / 2 ^ r + 1)) as [Hlt1 Hlt2] by lia.
  apply Z.mul_lt_mono_pos_l in Hlt1, Hlt2; lia.
Qed.

Definition family_bits (x : ip) : Z := match x with V4 _ => 32 | V6 _ => 128 end.

(** An entry that names the network and a prefix within the bounds of its family. *)
Definition names_range (entry : text) (network : ip) (p : Z) : Prop :=
  trim entry ≠ [] ∧ parseCidr (trim entry) = Some (network, Some p) ∧ 0 ≤ p ≤ family_bits network.

Lemma addSubnet_Some l network prefix l' : addSubnet l network prefix = Some l' ↔
  ∃ p, prefix = Some p ∧ 0 ≤ p ≤ family_bits network ∧ l' = l ++ [(network, p)].
Proof.
  unfold addSubnet; destruct prefix as [p|]; [|naive_solver].
  destruct ((0 <=? p) && _) eqn:E; fold (family_bits network) in E.
  - apply andb_true_iff in E as [?%Z.leb_le ?%Z.leb_le]; naive_solver.
  - split; [done|]; intros (p' & [= <-] & Hp & _); apply andb_false_iff in E as [?%Z.leb_gt|?%Z.leb_gt]; lia.
Qed.

Lemma range_step_elem acc entry network p :
  (network, p) ∈ (range_step acc entry).1 ↔ (network, p) ∈ acc.1 ∨ names_range entry network p.
Proof.
  unfold range_step, names_range; case_bool_decide as He; [naive_solver|].
  destruct (parseCidr (trim entry)) as [[n pr]|]; [|naive_solver].
  destruct (addSubnet acc.1 n pr) as [l|] eqn:Ha; cbn.
  - apply addSubnet_Some in Ha as (p' & -> & Hp & ->).
    rewrite elem_of_app, list_elem_of_singleton; naive_solver.
  - split; [naive_solver|]; intros [?|(_ & [= -> ->] & Hp)]; [done|].
    assert (addSubnet acc.1 network (Some p) = Some (acc.1 ++ [(network, p)])) by (apply addSubnet_Some; eauto).
    congruence.
Qed.

Lemma buildIpRangeList_elem ranges network p :
  (network, p) ∈ (buildIpRangeList ranges).1 ↔ ∃ entry, entry ∈ ranges ∧ names_range entry network p.
Proof.
  unfold buildIpRangeList; induction ranges as [|entry ranges IH] using rev_ind; [set_solver|].
  rewrite foldl_app; cbn [foldl]; rewrite range_step_elem, IH.
  setoid_rewrite elem_of_app; setoid_rewrite list_elem_of_singleton; naive_solver.
Qed.

(** A list of ranges contains an address exactly when one of its entries is a network with
    a prefix and the address is in the interval of the network: from the network with the
    bits after the prefix zero, as many as these bits allow.  An IPv4 address and the IPv6
    address that stands for it are treated alike. *)
Theorem range_list_exact (ranges : list text) (x : ip) :
  list_check (buildIpRangeList ranges).1 x = true ↔
  ∃ entry network p, entry ∈ ranges ∧ names_range entry network p ∧
    let size := 2 ^ (family_bits network - p) in
    let first := embed network - embed network `mod` size in
    first ≤ embed x < first + size.
Proof.
  unfold list_check; rewrite existsb_elem; split.
  - intros ([network p] & (entry & Hin & Hr)%buildIpRangeList_elem & Hx); cbn in Hx.
    exists entry, network, p; split; [done|split; [done|]]; destruct Hr as (_ & _ & Hp).
    apply shiftr_interval in Hx; [|destruct network; cbn in *; lia]; by destruct network.
  - intros (entry & network & p & Hin & Hr & Hx); exists (network, p); split.
    + apply buildIpRangeList_elem; eauto.
    + destruct Hr as (_ & _ & Hp); unfold in_network; cbn [fst snd].
      apply shiftr_interval; [destruct network; cbn in *; lia|]; by destruct network.
Qed.

(** * What is sent where *)

Lemma endsWith_exists p t : endsWith p t = true ↔ ∃ y, t = y ++ p.
Proof.
  split; [|intros [y ->]; apply endsWith_app].
  intros H%bool_decide_eq_true; exists (take (length t - length p) t); rewrite <- H at 2; by rewrite take_drop.
Qed.

Lemma startsWith_exists p t : startsWith p t = true ↔ ∃ y, t = p ++ y.
Proof.
  split; [|intros [y ->]; apply startsWith_app].
  intros H%bool_decide_eq_true; exists (drop (length p) t); rewrite <- H at 1; by rewrite take_drop.
Qed.

(** An address may be connected to for a host: its name is allowed, or the address is in a
    range that is allowed or in none that is blocked. *)
Definition permitted (s : SsrfProtectionService) (hostname address : text) : Prop :=
  matches (allowedHostnameMatcher s) hostname = true ∨
  ∃ x, parse_ip address = Some x ∧ (list_check (allowedIps s) x = true ∨ list_check (blockedIps s) x = false).

Lemma validateIp_permitted s hostname address : validateIp s address = Ok () → permitted s hostname address.
Proof.
  unfold validateIp, permitted; destruct (parse_ip address) as [x|]; [|done]; intros H; right; exists x.
  destruct (list_check (allowedIps s) x); [auto|]; by destruct (list_check (blockedIps s) x); auto.
Qed.

Lemma foldM_validate s l : foldM (λ _ a, validateIp s (la_address a)) () l = Ok () →
  ∀ a, a ∈ l → validateIp s (la_address a) = Ok ().
Proof.
  induction l as [|b l IH]; cbn [foldM]; [set_solver|].
  intros ([] & Hb & Hl)%bind_Ok a [->|Ha]%elem_of_cons; auto.
Qed.

(** The lookup gives addresses that may be connected to for the name. *)
Lemma lookupAndValidate_permitted s hostname resolved l : lookupAndValidate s hostname resolved = Ok l →
  ∀ a, a ∈ l → permitted s hostname (la_address a).
Proof.
  unfold lookupAndValidate; destruct (parse_ip _) as [x|].
  - intros ([] & Hv & [= <-])%bind_Ok a ->%list_elem_of_singleton; by apply validateIp_permitted.
  - intros (r & -> & H)%bind_Ok a Ha; case_bool_decide; [done|].
    destruct (matches _ hostname) eqn:Hm; [left; done|].
    apply bind_Ok in H as ([] & Hf & [= <-]); by eapply validateIp_permitted, foldM_validate.
Qed.

Lemma secure_lookup_permitted s all hostname resolved l : secure_lookup s all hostname resolved = Ok l →
  ∀ a, a ∈ l → permitted s hostname (la_address a).
Proof.
  intros (r & Hr & [= <-])%bind_Ok a Ha; eapply lookupAndValidate_permitted; [exact Hr|].
  destruct all; [done|]; by eapply subseteq_take.
Qed.

Definition connection_permitted (s : SsrfProtectionService) (x : sent) : Prop :=
  match s_connection x with
  | Direct address => permitted s (u_hostname (s_url x)) address
  | ViaProxy => True
  end.

(** A host that is an address was checked before it is connected to. *)
Definition host_checked (s : SsrfProtectionService) (u : url) : Prop :=
  ∀ x, parse_ip (normalizeIpInHostname (u_hostname u)) = Some x →
  permitted s (u_hostname u) (normalizeIpInHostname (u_hostname u)).

Lemma send_permitted s rq h u auth l : host_checked s u → send (Some s) rq h u auth = Ok l →
  Forall (connection_permitted s) l.
Proof.
  intros Hu; unfold send, connect; destruct (rq_proxy rq); [intros [= <-]; by apply Forall_singleton|].
  destruct (parse_ip _) as [x|] eqn:Hx; [intros [= <-]; apply Forall_singleton; exact (Hu x Hx)|].
  destruct (secure_lookup _ _ _ _) as [as_|] eqn:Hl; [|done]; intros [= <-].
  apply Forall_fmap, Forall_fmap, Forall_forall; intros a Ha; cbn.
  by eapply secure_lookup_permitted.
Qed.

Lemma redirect_checked s href u : parse_url href = Some u → validateRedirectSync s href = Ok () → host_checked s u.
Proof.
  unfold validateRedirectSync; intros -> H x Hx; destruct (matches _ _) eqn:Hm; [by left|].
  rewrite Hx in H; by apply validateIp_permitted.
Qed.

Lemma url_checked s href resolved u : parse_url href = Some u → validateUrl s href resolved = Ok () → host_checked s u.
Proof.
  unfold validateUrl; intros -> (l & Hl & _)%bind_Ok x Hx.
  assert (mkAddress (normalizeIpInHostname (u_hostname u)) (ip_family x) ∈ l) as Hin.
  { unfold lookupAndValidate in Hl; rewrite Hx in Hl; apply bind_Ok in Hl as (_ & _ & [= <-]); by apply list_elem_of_singleton. }
  exact (lookupAndValidate_permitted _ _ _ _ Hl _ Hin).
Qed.

(** What was sent went to a URL that is allowed, and the credentials were copied only to
    the origin of the request, unless they may leave it. *)
Definition sent_allowed (rq : request) (originalOrigin : text) (x : sent) : Prop :=
  parse_url (s_href x) = Some (s_url x) ∧
  assertUrlAllowed (s_href x) (rq_allowedDomains rq) = Ok () ∧
  (s_copied x = true → u_origin (s_url x) = originalOrigin ∨ rq_sendCredentialsOnCrossOriginRedirect rq = true).

Lemma send_allowed b rq h u auth origin l : parse_url (h_href h) = Some u →
  assertUrlAllowed (h_href h) (rq_allowedDomains rq) = Ok () →
  (auth = true → u_origin u = origin ∨ rq_sendCredentialsOnCrossOriginRedirect rq = true) →
  send b rq h u auth = Ok l → Forall (sent_allowed rq origin) l.
Proof.
  intros Hu Ha Hauth; unfold send; destruct (connect _ _ _ _ _) as [cs|]; [|done]; intros [= <-].
  apply Forall_fmap, Forall_forall; intros c _; by split_and!.
Qed.

Lemma before_redirect_Ok b rq origin href auth u : parse_url href = Some u →
  getBeforeRedirectFn b rq origin href = Ok auth →
  assertUrlAllowed href (rq_allowedDomains rq) = Ok () ∧
  (∀ s, b = Some s → validateRedirectSync s href = Ok ()) ∧
  (auth = true → u_origin u = origin ∨ rq_sendCredentialsOnCrossOriginRedirect rq = true).
Proof.
  intros Hu ([] & Ha & ([] & Hr & Hauth)%bind_Ok)%bind_Ok; rewrite Hu in Hauth; injection Hauth as <-.
  split_and!; [done|by intros s ->|].
  intros [?%bool_decide_eq_true|?]%orb_true_iff; auto.
Qed.

Lemma follow_sent b rq origin hops :
  Forall (λ x, sent_allowed rq origin x ∧ ∀ s, b = Some s → connection_permitted s x) (follow b rq origin hops).1.
Proof.
  induction hops as [|h hops IH]; cbn [follow]; [constructor|].
  destruct (parse_url (h_href h)) as [u|] eqn:Hu; [|constructor].
  destruct (getBeforeRedirectFn _ _ _ _) as [auth|] eqn:Hb; [|constructor].
  destruct (before_redirect_Ok _ _ _ _ _ _ Hu Hb) as (Ha & Hr & Hauth).
  destruct (send b rq h u auth) as [l|] eqn:Hl; [|constructor].
  destruct (follow b rq origin hops) as [rest e]; cbn [fst] in *; apply Forall_app; split; [|done].
  pose proof (send_allowed _ _ _ _ _ _ _ Hu Ha Hauth Hl) as H1; apply Forall_and; split; [done|].
  destruct b as [s|]; [|by apply Forall_forall].
  eapply Forall_impl; [eapply send_permitted; [eapply redirect_checked; eauto|exact Hl]|].
  by intros x Hx s' [= <-].
Qed.

(** Whatever the DNS answers at each step and wherever the responses redirect, a request
    that no proxy makes connects only to addresses that are permitted for the host of the
    URL; every URL it is sent to is allowed by the domains of its credential; and after the
    first its credentials are copied only to a URL at the origin of the first, unless they
    may leave it. *)
Theorem requests_go_where_permitted (ssrfBridge : option SsrfProtectionService) (rq : request) (redirects : list hop)
    (u : url) :
  parse_url (h_href (rq_first rq)) = Some u →
  ∀ x, x ∈ (httpRequest ssrfBridge rq redirects).1 →
    (∀ s, ssrfBridge = Some s → connection_permitted s x) ∧
    assertUrlAllowed (s_href x) (rq_allowedDomains rq) = Ok () ∧
    (s_copied x = true → u_origin (s_url x) = u_origin u ∨ rq_sendCredentialsOnCrossOriginRedirect rq = true).
Proof.
  intros Hu x Hx.
  assert (Forall (λ x, sent_allowed rq (u_origin u) x ∧ ∀ s, ssrfBridge = Some s → connection_permitted s x)
    (httpRequest ssrfBridge rq redirects).1) as Hall; [clear Hx|].
  - unfold httpRequest; rewrite Hu.
    destruct (_ ← validateUrlSsrf _ _ _; _) as [[]|] eqn:Hv; [|constructor].
    apply bind_Ok in Hv as ([] & Hv & Ha).
    destruct (send ssrfBridge rq (rq_first rq) u true) as [l|] eqn:Hl; [|constructor].
    pose proof (follow_sent ssrfBridge rq (u_origin u) redirects) as Hf.
    destruct (follow _ _ _ _) as [rest e]; cbn [fst] in *; apply Forall_app; split; [|done].
    pose proof (send_allowed _ _ _ _ _ _ _ Hu Ha (λ _, or_introl eq_refl) Hl) as H1.
    apply Forall_and; split; [done|]; destruct ssrfBridge as [s|]; [|by apply Forall_forall].
    unfold validateUrlSsrf in Hv; rewrite Hu in Hv.
    eapply Forall_impl; [eapply send_permitted; [eapply url_checked; eauto|exact Hl]|].
    by intros y Hy s' [= <-].
  - rewrite Forall_forall in Hall; destruct (Hall x Hx) as ((_ & ? & ?) & ?); auto.
Qed.

(** * Domains of a credential *)

(** The names that an entry of the list stands for: itself, or what ends with a dot and
    the text after its asterisk and dot, when there is some. *)
Definition stands_for (entry hostname : text) : Prop :=
  (entry = hostname ∧ startsWith (tx "*.") entry = false) ∨
  ∃ suffix y, entry = tx "*." ++ suffix ∧ suffix ≠ [] ∧ hostname = y ++ "."%char :: suffix.

Lemma domain_matches_stands hostname entry : domain_matches hostname entry = true ↔ stands_for entry hostname.
Proof.
  unfold domain_matches, stands_for; destruct (startsWith (tx "*.") entry) eqn:Hs.
  - apply startsWith_exists in Hs as [suffix ->]; change (drop 2 (tx "*." ++ suffix)) with suffix.
    rewrite andb_true_iff, negb_true_iff, bool_decide_eq_false, endsWith_exists; split.
    + intros [Hne [y ->]]; right; by exists suffix, y.
    + intros [[_ ?]|(s & y & Heq & Hne & ->)]; [done|]; injection Heq as <-; eauto.
  - rewrite bool_decide_eq_true; split; [intros ->; by left|].
    intros [[<- _]|(s & y & -> & _)]; [done|]; by rewrite startsWith_app in Hs.
Qed.

(** A list of domains allows a URL exactly when it is blank, or the URL parses and its host,
    in lower case and without a final dot, is not empty and some entry stands for it. *)
Lemma isDomainAllowed_exact u allowedDomains : isDomainAllowed u allowedDomains = true ↔
  trim allowedDomains = [] ∨
  ∃ parsed entry, parse_url u = Some parsed ∧ entry ∈ allowed_list allowedDomains ∧
    let hostname := drop_final_dot (toLowerCase (u_hostname parsed)) in
    hostname ≠ [] ∧ stands_for entry hostname.
Proof.
  unfold isDomainAllowed; case_bool_decide as Hb; [naive_solver|].
  destruct (parse_url u) as [parsed|]; [|naive_solver].
  rewrite andb_true_iff, negb_true_iff, bool_decide_eq_false, existsb_elem.
  setoid_rewrite domain_matches_stands; naive_solver.
Qed.

(** A wildcard does not stand for the bare domain. *)
Lemma wildcard_not_bare suffix : ¬ stands_for (tx "*." ++ suffix) suffix.
Proof.
  intros [[_ H]|(s & y & Heq & _ & Hy)]; [by rewrite startsWith_app in H|].
  injection Heq as <-; apply (f_equal length) in Hy; rewrite length_app in Hy; cbn in Hy; lia.
Qed.

(** A restriction lets a URL pass only as its mode says, and what it hands on for the
    redirects is the list that the URL was checked against. *)
Lemma assertCredentialAllowsUrl_Ok c u pinnedUrl d : assertCredentialAllowsUrl c u pinnedUrl = Ok d →
  match allowedHttpRequestDomains c with
  | Some No_domain => d = None ∧ ∃ p, pinnedUrl = Some p ∧ (default [] p ≠ [] → p = Some u)
  | Some Domains => ∃ l, d = Some l ∧ readAllowedDomainsField c = Some l ∧ isDomainAllowed u l = true
  | _ => d = None
  end.
Proof.
  unfold assertCredentialAllowsUrl; destruct (allowedHttpRequestDomains c) as [[]|]; [naive_solver| | |naive_solver].
  - destruct (readAllowedDomainsField c) as [l|] eqn:Hl; [|done].
    destruct (assertUrlAllowed u (Some l)) as [[]|] eqn:Ha; [|done]; intros [= <-]; exists l; split_and!; [done..|].
    destruct l as [|a l]; [|cbn in Ha; by destruct (isDomainAllowed u (a :: l))].
    revert Hl; unfold readAllowedDomainsField; destruct (allowedDomains_field c); [|done]; cbn.
    case_bool_decide; naive_solver.
  - destruct pinnedUrl as [[[|a p]|]|]; [naive_solver| |naive_solver|done].
    case_bool_decide as Hu; [done|]; intros [= <-]; split; [done|]; eexists; split; [done|]; by intros _; subst.
Qed.

End Requests.

(** The fields are added once. *)
Lemma injectDomainRestrictionFields_idempotent inject properties :
  injectDomainRestrictionFields inject (injectDomainRestrictionFields inject properties)
  = injectDomainRestrictionFields inject properties.
Proof.
  unfold injectDomainRestrictionFields; destruct inject; [cbn [negb]|done].
  destruct (decide ("allowedHttpRequestDomains"%string ∈ properties)) as [H|H].
  - by rewrite !(bool_decide_eq_true_2 _ H).
  - rewrite (bool_decide_eq_false_2 _ H), bool_decide_eq_true_2; [done|set_solver].
Qed.

(** * Examples *)

(** Addresses in dotted notation, and URLs of a scheme and a host. *)
Definition dotted (t : text) : option ip :=
  match parseInt <$> split_on "." t with
  | [Some a; Some b; Some c; Some d] =>
      if forallb (λ n, n <=? 255) [a; b; c; d] && forallb (λ c, is_digit c || bool_decide (c = "."%char)) t
      then Some (V4 (2 ^ 24 * a + 2 ^ 16 * b + 2 ^ 8 * c + d)) else None
  | _ => None
  end.

Definition plain_cidr (t : text) : bool :=
  match split_on "/" t with
  | [network; prefix] =>
      bool_decide (is_Some (dotted network)) && bool_decide (is_Some (parseInt prefix)) && forallb is_digit prefix
  | _ => false
  end.

Definition plain_url (t : text) : option url :=
  if startsWith (tx "http://") t
  then Some (mkUrl (default [] (split_on "/" (drop 7 t) !! 0%nat)) t) else None.

Definition guard (hostnames : list text) : SsrfProtectionService :=
  new_service dotted plain_cidr (mkConfig [tx "10.0.0.0/8"; tx "127.0.0.0/8"; tx "1.2.3.4/33"; tx "intranet"] [tx "10.1.0.0/16"] hostnames).

Example ranges_built : guard [] = mkService [(V4 167772160, 8); (V4 2130706432, 8)] [(V4 167837696, 16)] [].
Proof. by vm_compute. Qed.

Example ranges_issues : (buildIpRangeList dotted plain_cidr [tx "1.2.3.4/33"; tx " "; tx "intranet"]).2
  = [(tx "1.2.3.4/33", FailedToAdd); (tx "intranet", InvalidCidr)].
Proof. by vm_compute. Qed.

Example ranges_checked : validateIp dotted (guard []) <$> [tx "10.0.0.1"; tx "10.1.0.1"; tx "8.8.8.8"; tx "localhost"]
  = [Err (SsrfBlockedIpError (tx "10.0.0.1")); Ok (); Ok (); Err AssertionError].
Proof. by vm_compute. Qed.

(** The hostname allowlist is said to come first, and does for a redirect; an address in
    the URL of a request is refused all the same. *)
Example allowed_address_refused :
  let s := guard [tx "10.0.0.1"] in
  validateUrl dotted plain_url s (tx "http://10.0.0.1") (Err DnsError) = Err (SsrfBlockedIpError (tx "10.0.0.1")) ∧
  validateRedirectSync dotted plain_url s (tx "http://10.0.0.1") = Ok ().
Proof. by vm_compute. Qed.

Definition to (address : text) : result SsrfError (list LookupAddress) := Ok [mkAddress address 4].

Definition fetch (proxy : bool) : request :=
  mkRequest (to (tx "8.8.8.8")) (mkHop (tx "http://a.com") (to (tx "8.8.8.8")) true) proxy (Some (tx "a.com, *.b.com")) false.

Definition run_fetch (proxy : bool) (hops : list hop) : list sent * option SsrfError :=
  httpRequest dotted plain_url (Some (guard [])) (fetch proxy) hops.

(** The name is resolved again when the redirect connects, so its address is checked then. *)
Example redirect_rechecked :
  run_fetch false [mkHop (tx "http://x.b.com") (to (tx "9.9.9.9")) true; mkHop (tx "http://a.com") (to (tx "10.0.0.1")) true]
  = ([mkSent (tx "http://a.com") (mkUrl (tx "a.com") (tx "http://a.com")) (Direct (tx "8.8.8.8")) true;
      mkSent (tx "http://x.b.com") (mkUrl (tx "x.b.com") (tx "http://x.b.com")) (Direct (tx "9.9.9.9")) false],
     Some (SsrfBlockedIpError (tx "10.0.0.1"))).
Proof. by vm_compute. Qed.

(** Behind a proxy the name of a redirect is looked up by the proxy, and by nobody else:
    the first URL is refused when its name has a blocked address, that of a redirect is not. *)
Example proxied_redirect_unchecked :
  (run_fetch true [mkHop (tx "http://a.com") (to (tx "10.0.0.1")) true]).2 = None ∧
  validateUrl dotted plain_url (guard []) (tx "http://a.com") (to (tx "10.0.0.1")) = Err (SsrfBlockedIpError (tx "10.0.0.1")).
Proof. by vm_compute. Qed.

Example bare_domain_refused : run_fetch false [mkHop (tx "http://b.com") (to (tx "9.9.9.9")) true]
  = ([mkSent (tx "http://a.com") (mkUrl (tx "a.com") (tx "http://a.com")) (Direct (tx "8.8.8.8")) true], Some DomainNotAllowed).
Proof. by vm_compute. Qed.

Lemma requests_go_where_permitted_witness :
  plain_url (h_href (rq_first (fetch false))) = Some (mkUrl (tx "a.com") (tx "http://a.com")) ∧
  ∃ x, x ∈ (run_fetch false [mkHop (tx "http://x.b.com") (to (tx "9.9.9.9")) true]).1 ∧
    s_connection x = Direct (tx "9.9.9.9") ∧ s_copied x = false ∧
    (∀ s, Some (guard []) = Some s → connection_permitted dotted s x).
Proof.
  split; [by vm_compute|].
  exists (mkSent (tx "http://x.b.com") (mkUrl (tx "x.b.com") (tx "http://x.b.com")) (Direct (tx "9.9.9.9")) false).
  assert (mkSent (tx "http://x.b.com") (mkUrl (tx "x.b.com") (tx "http://x.b.com")) (Direct (tx "9.9.9.9")) false
    ∈ (run_fetch false [mkHop (tx "http://x.b.com") (to (tx "9.9.9.9")) true]).1) as Hin.
  { vm_compute; right; left. }
  split; [exact Hin|split; [done|split; [done|]]].
  apply (requests_go_where_permitted dotted plain_url (Some (guard [])) (fetch false)
    [mkHop (tx "http://x.b.com") (to (tx "9.9.9.9")) true] (mkUrl (tx "a.com") (tx "http://a.com"))); [by vm_compute|exact Hin].
Defined.
