(* ===== verification/DnsResolver.v ===== *)
(** DnsResolver: the addresses of names, looked up once at a time and kept for a second.

    packages/core/src/ssrf/dns-resolver.ts and in-memory-dns-cache.service.ts.  A lookup is a
    process between its awaits: of the cache, and of the query, which its own caller or
    another started; a query waits for the DNS and for the cache to store the answer.  The
    store of the cache is that of a library: an entry is gone once its time is over, and may
    be evicted before, or be lost when two first uses both create the store. *)

From Stdlib Require Import Ascii ZArith Lia.
From stdpp Require Import prelude list strings pretty.
From S2P Require Import Prelude Text OutboundRequests.

#[local] Open Scope Z_scope.

(** * Options and keys *)

Inductive IpFamily := Four | Six | Unspecified.
Inductive Family := FamilyNumber (n : Z) | IPv4 | IPv6.
Inductive Order := Ipv4first | Ipv6first | Verbatim.

Record DnsLookupOptions := mkOptions {
  o_all : option bool;
  o_family : option Family;
  o_order : option Order;
  o_verbatim : option bool;
  o_hints : option N;
}.

Record NormalizedLookupOptions := mkNormalized {
  n_all : bool;
  n_family : IpFamily;
  n_order : option Order;
  n_verbatim : option bool;
  n_hints : option N;
}.

Definition normalizeIpFamily (family : option Family) : IpFamily :=
  match family with
  | Some (FamilyNumber n) => if n =? 4 then Four else if n =? 6 then Six else Unspecified
  | Some IPv4 => Four
  | Some IPv6 => Six
  | None => Unspecified
  end.

Definition normalizeOptions (o : DnsLookupOptions) : NormalizedLookupOptions :=
  mkNormalized (bool_decide (o_all o = Some true)) (normalizeIpFamily (o_family o)) (o_order o) (o_verbatim o) (o_hints o).

Definition flag (b : bool) : text := if b then tx "1" else tx "0".

Definition family_text (f : IpFamily) : text :=
  match f with Four => tx "4" | Six => tx "6" | Unspecified => tx "0" end.

Definition order_text (o : option Order) : text :=
  match o with
  | None => tx "-"
  | Some Ipv4first => tx "ipv4first"
  | Some Ipv6first => tx "ipv6first"
  | Some Verbatim => tx "verbatim"
  end.

Definition verbatim_text (v : option bool) : text := match v with None => tx "-" | Some b => flag b end.

Definition hints_text (h : option N) : text := tx (pretty (default 0%N h)).

(** The template, each field after a bar. *)
Definition buildCacheKey (hostname : text) (o : NormalizedLookupOptions) : text :=
  ((((hostname ++ "|"%char :: tx "a:" ++ flag (n_all o))
              ++ "|"%char :: tx "f:" ++ family_text (n_family o))
              ++ "|"%char :: tx "o:" ++ order_text (n_order o))
              ++ "|"%char :: tx "v:" ++ verbatim_text (n_verbatim o))
              ++ "|"%char :: tx "h:" ++ hints_text (n_hints o).

(** * Lookups and queries *)

Abbreviation addresses := (list LookupAddress).
Abbreviation outcome := (result SsrfError (list LookupAddress)).

Definition ttlMs : Z := 1000.

(** Where a query is: the DNS is asked; the answer is being stored in the cache; the
    function returns; its promise is settled. *)
Inductive QueryState := Asking | Storing (ips : addresses) | Returning (r : outcome) | Settled (r : outcome).

(** [q_stored] and [q_removed] remember when the answer was stored, and when the query was
    taken out of the queries in flight. *)
Record Query := mkQuery {
  q_hostname : text;
  q_options : NormalizedLookupOptions;
  q_state : QueryState;
  q_stored : option Z;
  q_removed : option Z;
}.

(** Where a lookup is: it waits for the cache; the cache has answered; it waits for the
    query of another lookup; for its own; it has returned. *)
Inductive CallState :=
| Reading
| GotCached (cached : option addresses)
| Joined (q : nat)
| Owning (q : nat)
| Answered (r : outcome).

Record Call := mkCall {
  c_hostname : text;
  c_options : NormalizedLookupOptions;
  c_started : Z;
  c_state : CallState;
}.

Record CacheEntry := mkEntry { e_ips : addresses; e_written : Z }.

Record Resolver := mkResolver {
  calls : jmap nat Call;
  queries : jmap nat Query;
  inFlightByCacheKey : jmap text nat;
  cache : jmap text CacheEntry;
  now : Z;
  nextQuery : nat;
}.

Definition c_key (c : Call) : text := buildCacheKey (c_hostname c) (c_options c).
Definition q_key (q : Query) : text := buildCacheKey (q_hostname q) (q_options q).

Definition set_state (c : Call) (st : CallState) : Call := mkCall (c_hostname c) (c_options c) (c_started c) st.
Definition set_query (q : Query) (st : QueryState) : Query := mkQuery (q_hostname q) (q_options q) st (q_stored q) (q_removed q).

Definition with_call (s : Resolver) (p : nat) (c : Call) : Resolver :=
  mkResolver (jm_set (calls s) p c) (queries s) (inFlightByCacheKey s) (cache s) (now s) (nextQuery s).
Definition with_query (s : Resolver) (q : nat) (Q : Query) : Resolver :=
  mkResolver (calls s) (jm_set (queries s) q Q) (inFlightByCacheKey s) (cache s) (now s) (nextQuery s).
Definition with_inFlight (s : Resolver) (m : jmap text nat) : Resolver :=
  mkResolver (calls s) (queries s) m (cache s) (now s) (nextQuery s).
Definition with_cache (s : Resolver) (m : jmap text CacheEntry) : Resolver :=
  mkResolver (calls s) (queries s) (inFlightByCacheKey s) m (now s) (nextQuery s).

Definition cache_get (s : Resolver) (key : text) : option addresses :=
  e ← jm_get (cache s) key;
  if now s <=? e_written e + ttlMs then Some (e_ips e) else None.

Definition cache_set (s : Resolver) (key : text) (ips : addresses) : Resolver :=
  with_cache s (jm_set (cache s) key (mkEntry ips (now s))).

(** The cache has answered, with nothing: join the query in flight, or start one. *)
Definition start_query (s : Resolver) (p : nat) (c : Call) : Resolver :=
  let q := nextQuery s in
  with_call
    (mkResolver (calls s) (jm_set (queries s) q (mkQuery (c_hostname c) (c_options c) Asking None None))
      (jm_set (inFlightByCacheKey s) (c_key c) q) (cache s) (now s) (S q))
    p (set_state c (Owning q)).

Definition after_cache (s : Resolver) (p : nat) (c : Call) (cached : option addresses) : Resolver :=
  match cached with
  | Some ips => with_call s p (set_state c (Answered (Ok ips)))
  | None =>
      match jm_get (inFlightByCacheKey s) (c_key c) with
      | Some existing => with_call s p (set_state c (Joined existing))
      | None => start_query s p c
      end
  end.

(** What [dns.lookup] gives: the records, with the option [all]; a record, without. *)
Inductive DnsReply := Records (l : addresses) | OneRecord (a : LookupAddress) | DnsFails.

Definition doLookup (o : NormalizedLookupOptions) (reply : DnsReply) : option outcome :=
  match n_all o, reply with
  | _, DnsFails => Some (Err DnsError)
  | true, Records l => Some (Ok l)
  | false, OneRecord a => Some (Ok [a])
  | _, _ => None
  end.

Definition after_lookup (r : outcome) : QueryState :=
  match r with
  | Ok (a :: l) => Storing (a :: l)
  | _ => Settled r
  end.

(** The callback of [finally], and the return of the lookup that started the query. *)
Definition finish (s : Resolver) (p : nat) (c : Call) (q : nat) (Q : Query) (r : outcome) : Resolver :=
  let s := with_inFlight s (jm_del (inFlightByCacheKey s) (c_key c)) in
  let s := with_query s q (mkQuery (q_hostname Q) (q_options Q) (q_state Q) (q_stored Q) (Some (now s))) in
  with_call s p (set_state c (Answered r)).

Definition store (s : Resolver) (q : nat) (Q : Query) (ips : addresses) : Resolver :=
  with_query (cache_set s (q_key Q) ips) q
    (mkQuery (q_hostname Q) (q_options Q) (Returning (Ok ips)) (Some (now s)) (q_removed Q)).

Inductive DnsEvent :=
| Lookup (p : nat) (hostname : text) (options : DnsLookupOptions)
| CacheReads (p : nat)
| Continue (p : nat)
| DnsAnswers (q : nat) (reply : DnsReply)
| CacheStores (q : nat)
| Settle (q : nat)
| Resume (p : nat)
| Evict (key : text)
| Tick (t : Z).

Definition dns_next (s : Resolver) (e : DnsEvent) : option Resolver :=
  match e with
  | Lookup p hostname options =>
      if jm_has (calls s) p then None
      else Some (with_call s p (mkCall hostname (normalizeOptions options) (now s) Reading))
  | CacheReads p =>
      c ← jm_get (calls s) p;
      match c_state c with
      | Reading => Some (with_call s p (set_state c (GotCached (cache_get s (c_key c)))))
      | _ => None
      end
  | Continue p =>
      c ← jm_get (calls s) p;
      match c_state c with
      | GotCached cached => Some (after_cache s p c cached)
      | _ => None
      end
  | DnsAnswers q reply =>
      Q ← jm_get (queries s) q;
      match q_state Q with
      | Asking => r ← doLookup (q_options Q) reply; Some (with_query s q (set_query Q (after_lookup r)))
      | _ => None
      end
  | CacheStores q =>
      Q ← jm_get (queries s) q;
      match q_state Q with Storing ips => Some (store s q Q ips) | _ => None end
  | Settle q =>
      Q ← jm_get (queries s) q;
      match q_state Q with Returning r => Some (with_query s q (set_query Q (Settled r))) | _ => None end
  | Resume p =>
      c ← jm_get (calls s) p;
      match c_state c with
      | Owning q =>
          Q ← jm_get (queries s) q;
          match q_state Q with Settled r => Some (finish s p c q Q r) | _ => None end
      | Joined q =>
          Q ← jm_get (queries s) q;
          match q_state Q with Settled r => Some (with_call s p (set_state c (Answered r))) | _ => None end
      | _ => None
      end
  | Evict key => Some (with_cache s (jm_del (cache s) key))
  | Tick t => if now s <=? t then Some (mkResolver (calls s) (queries s) (inFlightByCacheKey s) (cache s) t (nextQuery s)) else None
  end.

Definition new_resolver (t : Z) : Resolver := mkResolver [] [] [] [] t 0.

Fixpoint dns_run (s : Resolver) (es : list DnsEvent) : option Resolver :=
  match es with
  | [] => Some s
  | e :: es => s ← dns_next s e; dns_run s es
  end.

(** * Keys tell questions apart *)

(** The options that the DNS sees alike: no hints are the hints 0. *)
Definition same_options (o o' : NormalizedLookupOptions) : Prop :=
  n_all o = n_all o' ∧ n_family o = n_family o' ∧ n_order o = n_order o' ∧ n_verbatim o = n_verbatim o' ∧
  default 0%N (n_hints o) = default 0%N (n_hints o').

Lemma last_field {A} (c : A) a b x y : c ∉ x → c ∉ y → a ++ c :: x = b ++ c :: y → a = b ∧ x = y.
Proof.
  intros Hx Hy [(k & -> & H)|(k & -> & H)]%app_eq_inv; destruct k as [|d k]; cbn in H; simplify_eq.
  1,3: by rewrite app_nil_r.
  - destruct Hy; apply elem_of_app; right; by left.
  - destruct Hx; apply elem_of_app; right; by left.
Qed.

Lemma bar_not_digit x : "|"%char ≠ pretty_N_char x.
Proof. unfold pretty_N_char; by repeat case_match. Qed.

Lemma pretty_go_no_bar x s : "|"%char ∉ tx s → "|"%char ∉ tx (pretty_N_go x s).
Proof.
  revert s; induction (N.lt_wf_0 x) as [x _ IH]; intros s Hs.
  destruct (decide (x = 0)%N) as [->|Hx]; [by rewrite pretty_N_go_0|].
  rewrite pretty_N_go_step by lia; apply IH; [apply N.div_lt; lia|].
  cbn; intros [H|H]%elem_of_cons; [by apply bar_not_digit in H|done].
Qed.

Lemma hints_no_bar h : "|"%char ∉ hints_text h.
Proof.
  unfold hints_text, pretty, pretty_N; case_decide; [by apply (bool_decide_unpack _); vm_compute|].
  apply pretty_go_no_bar; cbn; set_solver.
Qed.

Lemma tx_inj s s' : tx s = tx s' → s = s'.
Proof.
  intros H; rewrite <- (String.string_of_list_ascii_of_string s), <- (String.string_of_list_ascii_of_string s').
  unfold tx in H; by rewrite H.
Qed.

Ltac no_bar := apply (bool_decide_unpack _); vm_compute; exact I.

(** Keys are the same exactly for the same name and options that the DNS sees alike. *)
Lemma buildCacheKey_inj h o h' o' : buildCacheKey h o = buildCacheKey h' o' ↔ h = h' ∧ same_options o o'.
Proof.
  unfold same_options; split.
  - unfold buildCacheKey; intros H.
    apply last_field in H as [H Hh]; [|apply not_elem_of_app; split; [no_bar|apply hints_no_bar]..].
    apply last_field in H as [H Hv]; [|destruct (n_verbatim o) as [[]|]; no_bar|destruct (n_verbatim o') as [[]|]; no_bar].
    apply last_field in H as [H Ho]; [|destruct (n_order o) as [[]|]; no_bar|destruct (n_order o') as [[]|]; no_bar].
    apply last_field in H as [H Hf]; [|destruct (n_family o); no_bar|destruct (n_family o'); no_bar].
    apply last_field in H as [H Ha]; [|destruct (n_all o); no_bar|destruct (n_all o'); no_bar].
    split_and!; [done|..].
    + by destruct (n_all o), (n_all o').
    + by destruct (n_family o), (n_family o').
    + by destruct (n_order o) as [[]|], (n_order o') as [[]|].
    + by destruct (n_verbatim o) as [[]|], (n_verbatim o') as [[]|].
    + unfold hints_text in Hh; injection Hh as Hh; by apply tx_inj, (inj pretty) in Hh.
  - intros (-> & Ha & Hf & Ho & Hv & Hh); unfold buildCacheKey, hints_text; by rewrite Ha, Hf, Ho, Hv, Hh.
Qed.

(** * What holds at any time *)

Lemma jm_get_set_if {K V} `{EqDecision K} (m : jmap K V) k v k' :
  jm_get (jm_set m k v) k' = if decide (k = k') then Some v else jm_get m k'.
Proof. case_decide as H; [subst; apply jm_get_set|by apply jm_get_set_ne]. Qed.

Lemma jm_get_del_if {K V} `{EqDecision K} (m : jmap K V) k k' :
  jm_get (jm_del m k) k' = if decide (k = k') then None else jm_get m k'.
Proof. case_decide as H; [subst; apply jm_get_del|by apply jm_get_del_ne]. Qed.

Definition outcome_of (Q : Query) : option outcome :=
  match q_state Q with Returning r | Settled r => Some r | _ => None end.

Definition settled (Q : Query) : bool := match q_state Q with Settled _ => true | _ => false end.

(** The query was in flight at the time or after. *)
Definition in_flight_since (Q : Query) (t : Z) : Prop :=
  match q_removed Q with None => True | Some t' => t ≤ t' end.

(** Its answer was in the cache, and its time not over, at the time or after. *)
Definition kept_since (Q : Query) (t : Z) : Prop := ∃ w, q_stored Q = Some w ∧ t ≤ w + ttlMs.

(** A query gives the lookup its result: it asks the same, its outcome is the result, and
    it is recent enough. *)
Definition provided (s : Resolver) (c : Call) (r : outcome) : Prop :=
  ∃ q Q, jm_get (queries s) q = Some Q ∧ q_key Q = c_key c ∧ outcome_of Q = Some r ∧
    (in_flight_since Q (c_started c) ∨ kept_since Q (c_started c)).

Definition call_ok (s : Resolver) (c : Call) : Prop :=
  c_started c ≤ now s ∧
  match c_state c with
  | GotCached (Some ips) => provided s c (Ok ips)
  | Joined q => ∃ Q, jm_get (queries s) q = Some Q ∧ q_key Q = c_key c ∧ in_flight_since Q (c_started c)
  | Answered r => provided s c r
  | _ => True
  end.

Definition query_ok (s : Resolver) (q : nat) (Q : Query) : Prop :=
  (q < nextQuery s)%nat ∧
  match q_state Q with
  | Asking | Storing _ => q_stored Q = None ∧ q_removed Q = None
  | Returning _ => q_removed Q = None
  | Settled _ => True
  end ∧
  (q_removed Q = None → jm_get (inFlightByCacheKey s) (q_key Q) = Some q).

(** The query is this lookup's, and still in flight. *)
Definition owns (s : Resolver) (c : Call) (q : nat) : Prop :=
  ∃ Q, jm_get (queries s) q = Some Q ∧ q_key Q = c_key c ∧ q_removed Q = None.

Definition entry_ok (s : Resolver) (key : text) (e : CacheEntry) : Prop :=
  ∃ q Q, jm_get (queries s) q = Some Q ∧ q_key Q = key ∧ outcome_of Q = Some (Ok (e_ips e)) ∧ q_stored Q = Some (e_written e).

Record dns_ok (s : Resolver) : Prop := {
  ok_calls p c : jm_get (calls s) p = Some c → call_ok s c;
  ok_queries q Q : jm_get (queries s) q = Some Q → query_ok s q Q;
  ok_inFlight key q : jm_get (inFlightByCacheKey s) key = Some q →
    ∃ Q, jm_get (queries s) q = Some Q ∧ q_key Q = key ∧ q_removed Q = None;
  ok_owning p c q : jm_get (calls s) p = Some c → c_state c = Owning q → owns s c q;
  ok_owner p p' c c' q : jm_get (calls s) p = Some c → jm_get (calls s) p' = Some c' →
    c_state c = Owning q → c_state c' = Owning q → p = p';
  ok_cache key e : jm_get (cache s) key = Some e → entry_ok s key e;
}.

(** Queries go forward. *)
Definition query_le (t : Z) (Q Q' : Query) : Prop :=
  q_hostname Q' = q_hostname Q ∧ q_options Q' = q_options Q ∧
  (∀ r, outcome_of Q = Some r → outcome_of Q' = Some r) ∧
  (∀ w, q_stored Q = Some w → q_stored Q' = Some w) ∧
  (q_removed Q' = q_removed Q ∨ q_removed Q = None ∧ ∃ t', q_removed Q' = Some t' ∧ t ≤ t').

Definition queries_le (s s' : Resolver) : Prop :=
  now s ≤ now s' ∧ ∀ q Q, jm_get (queries s) q = Some Q → ∃ Q', jm_get (queries s') q = Some Q' ∧ query_le (now s) Q Q'.

Lemma query_le_refl t Q : query_le t Q Q.
Proof. split_and!; auto. Qed.

Lemma queries_le_same s s' : now s ≤ now s' → queries s' = queries s → queries_le s s'.
Proof. intros Hn Hq; split; [done|]; rewrite Hq; eauto using query_le_refl. Qed.

Lemma query_le_key t Q Q' : query_le t Q Q' → q_key Q' = q_key Q.
Proof. intros (Hh & Ho & _); unfold q_key; by rewrite Hh, Ho. Qed.

Lemma query_le_in_flight t t0 Q Q' : query_le t Q Q' → t0 ≤ t → in_flight_since Q t0 → in_flight_since Q' t0.
Proof.
  unfold in_flight_since; intros (_ & _ & _ & _ & [->|[Hn (t' & -> & Ht)]]) Ht0; [done|]; intros _; lia.
Qed.

Lemma provided_le s s' c r : queries_le s s' → c_started c ≤ now s → provided s c r → provided s' c r.
Proof.
  intros [_ Hq] Hc (q & Q & HQ & Hk & Hr & Hf); destruct (Hq _ _ HQ) as (Q' & HQ' & Hle); exists q, Q'.
  split_and!; [done|by rewrite (query_le_key _ _ _ Hle)|by apply Hle|].
  destruct Hf as [Hf|(w & Hw & ?)]; [left; by eapply query_le_in_flight|].
  right; exists w; split; [by apply Hle|done].
Qed.

Lemma call_ok_le s s' c : queries_le s s' → call_ok s c → call_ok s' c.
Proof.
  intros Hle [Hc Hs]; split; [destruct Hle; lia|].
  destruct (c_state c) as [|[ips|]|q|q|r]; [done|by eapply provided_le|done| |done|by eapply provided_le].
  destruct Hs as (Q & HQ & Hk & Hf); destruct (proj2 Hle _ _ HQ) as (Q' & HQ' & Hl); exists Q'.
  split_and!; [done|by rewrite (query_le_key _ _ _ Hl)|by eapply query_le_in_flight].
Qed.

Lemma entry_ok_le s s' key e : queries_le s s' → entry_ok s key e → entry_ok s' key e.
Proof.
  intros [_ Hq] (q & Q & HQ & Hk & Ho & Hw); destruct (Hq _ _ HQ) as (Q' & HQ' & Hl); exists q, Q'.
  split_and!; [done|by rewrite (query_le_key _ _ _ Hl)|by apply Hl..].
Qed.

(** ** Steps *)

(** A lookup goes on to a state in which it has no query of its own. *)
Lemma with_call_ok s p c : dns_ok s → call_ok s c → (∀ q, c_state c ≠ Owning q) → dns_ok (with_call s p c).
Proof.
  intros [H1 H2 H3 H4 H5 H6] Hc Ho; constructor; cbn; try done.
  - intros p' c'; rewrite jm_get_set_if; case_decide; [by intros [= <-]|apply H1].
  - intros p' c' q; rewrite jm_get_set_if; case_decide; [intros [= <-] Hs; by destruct (Ho q)|apply H4].
  - intros p1 p2 c1 c2 q; rewrite !jm_get_set_if.
    case_decide; [intros [= <-] _ Hs; by destruct (Ho q)|].
    case_decide; [intros _ [= <-] _ Hs; by destruct (Ho q)|apply H5].
Qed.

(** A query goes forward, in flight or not as before. *)
Lemma with_query_ok s q Q Q' : dns_ok s → jm_get (queries s) q = Some Q → query_le (now s) Q Q' →
  q_removed Q' = q_removed Q → query_ok s q Q' → dns_ok (with_query s q Q').
Proof.
  intros [H1 H2 H3 H4 H5 H6] HQ Hle Hr HQ'.
  assert (queries_le s (with_query s q Q')) as Hs.
  { split; [done|]; cbn; intros q0 Q0 HQ0; rewrite jm_get_set_if; case_decide; [simplify_eq; eauto|eauto using query_le_refl]. }
  assert (∀ key q0, (∃ Q0, jm_get (queries s) q0 = Some Q0 ∧ q_key Q0 = key ∧ q_removed Q0 = None) →
    ∃ Q0, jm_get (jm_set (queries s) q Q') q0 = Some Q0 ∧ q_key Q0 = key ∧ q_removed Q0 = None) as Hk.
  { intros key q0 (Q0 & HQ0 & Hk & Hn); rewrite jm_get_set_if; case_decide; [|eauto]; simplify_eq.
    exists Q'; split_and!; [done|by apply query_le_key in Hle|congruence]. }
  constructor; cbn; try done.
  - intros p c Hp; eapply call_ok_le; eauto.
  - intros q0 Q0; rewrite jm_get_set_if; case_decide; [intros [= <-]; by subst|apply H2].
  - intros key q0 Hf; apply Hk, (H3 _ _ Hf).
  - intros p c q0 Hp Ho; apply Hk, (H4 _ _ _ Hp Ho).
  - intros key e He; eapply entry_ok_le; eauto.
Qed.

Lemma with_cache_ok s m : dns_ok s → (∀ key e, jm_get m key = Some e → entry_ok s key e) → dns_ok (with_cache s m).
Proof. intros [H1 H2 H3 H4 H5 H6] Hm; by constructor. Qed.

Lemma unused_id s : dns_ok s → jm_get (queries s) (nextQuery s) = None.
Proof. intros Hs; destruct (jm_get _ _) as [Q|] eqn:HQ; [|done]; apply (ok_queries s Hs) in HQ as [? _]; lia. Qed.

(** Only the query in flight for a key is not removed. *)
Lemma active_unique s q q' Q Q' : dns_ok s → jm_get (queries s) q = Some Q → jm_get (queries s) q' = Some Q' →
  q_removed Q = None → q_removed Q' = None → q_key Q = q_key Q' → q = q'.
Proof.
  intros Hs HQ HQ' Hr Hr' Hk; apply (ok_queries s Hs) in HQ as (_ & _ & HQ), HQ' as (_ & _ & HQ').
  specialize (HQ Hr); specialize (HQ' Hr'); congruence.
Qed.

Lemma start_query_ok s p c cached : dns_ok s → jm_get (calls s) p = Some c → c_state c = GotCached cached →
  jm_get (inFlightByCacheKey s) (c_key c) = None → dns_ok (start_query s p c).
Proof.
  intros Hs Hp Hc Hf; pose proof (unused_id s Hs) as Hn.
  assert (queries_le s (start_query s p c)) as Hle.
  { split; [done|]; cbn; intros q0 Q0 HQ0; rewrite jm_get_set_if; case_decide; [congruence|eauto using query_le_refl]. }
  destruct Hs as [H1 H2 H3 H4 H5 H6].
  assert (∀ c' q, owns s c' q → owns (start_query s p c) c' q) as Ho.
  { intros c' q (Q & HQ & ?); exists Q; cbn; rewrite jm_get_set_ne; [done|congruence]. }
  assert (∀ p' c', jm_get (calls s) p' = Some c' → c_state c' ≠ Owning (nextQuery s)) as Hno.
  { intros p' c' Hp' Hc'; destruct (H4 _ _ _ Hp' Hc') as (Q & HQ & _); congruence. }
  constructor; cbn.
  - intros p' c'; rewrite jm_get_set_if; case_decide; [intros [= <-]; split; [exact (proj1 (H1 _ _ Hp))|done]|].
    intros Hp'; eapply call_ok_le; eauto.
  - intros q Q; rewrite jm_get_set_if; case_decide as Hq.
    + intros [= <-]; split_and!; [cbn; lia|done..|]; intros _; cbn; rewrite <- Hq; apply jm_get_set.
    + intros (? & ? & Ha)%H2; split_and!; [cbn; lia|done|]; intros Hr; cbn; rewrite jm_get_set_ne; [auto|].
      intros Hk; specialize (Ha Hr); congruence.
  - intros key q; rewrite !jm_get_set_if; case_decide as Hk.
    + intros [= <-]; rewrite decide_True by done; eexists; split_and!; [done|exact Hk|done].
    + intros (Q & HQ & ?)%H3; exists Q; rewrite decide_False; [done|congruence].
  - intros p' c' q; rewrite jm_get_set_if; case_decide; [|intros; apply Ho; eauto].
    intros [= <-] [= <-]; eexists; split; [apply jm_get_set|done].
  - intros p1 p2 c1 c2 q; rewrite !jm_get_set_if; do 2 case_decide; [congruence|..|apply H5].
    + intros [= <-] Hp2 [= <-] Hc2; by destruct (Hno _ _ Hp2).
    + intros Hp1 [= <-] Hc1 [= <-]; by destruct (Hno _ _ Hp1).
  - intros key e He; eapply entry_ok_le; eauto.
Qed.

Lemma query_finished_ok s p c q Q r : dns_ok s → jm_get (calls s) p = Some c → c_state c = Owning q →
  jm_get (queries s) q = Some Q → q_state Q = Settled r → dns_ok (finish s p c q Q r).
Proof.
  intros Hs Hp Hc HQ Hr; destruct (ok_owning s Hs _ _ _ Hp Hc) as (Q0 & HQ0 & Hk & Hn); simplify_eq.
  pose proof (λ q' Q', active_unique s q q' Q Q' Hs HQ) as Hact; destruct Hs as [H1 H2 H3 H4 H5 H6].
  set (s' := finish s p c q Q r).
  assert (queries_le s s') as Hle.
  { split; [done|]; cbn; intros q0 Q0 HQ0; rewrite jm_get_set_if; case_decide; [|eauto using query_le_refl]; simplify_eq.
    eexists; split; [done|]; split_and!; try done; right; split; [done|]; eexists; split; [done|lia]. }
  constructor.
  - intros p' c'; cbn; rewrite jm_get_set_if; case_decide; [|intros Hp'; eapply call_ok_le; eauto].
    intros [= <-]; split; [exact (proj1 (H1 _ _ Hp))|]; cbn; exists q; eexists; split; [apply jm_get_set|].
    split_and!; [done|by cbv [outcome_of]; cbn; rewrite Hr|left; exact (proj1 (H1 _ _ Hp))].
  - intros q' Q'; cbn; rewrite jm_get_set_if; case_decide as Hq; [intros [= <-]; split_and!; [|by cbn; rewrite Hr|done]|].
    + subst; exact (proj1 (H2 _ _ HQ)).
    + intros HQ'; destruct (H2 _ _ HQ') as (? & ? & Ha); split_and!; [done..|]; intros Hr'; cbn; rewrite jm_get_del_ne; [auto|].
      intros Hk'; destruct Hq; apply (Hact _ _ HQ'); congruence.
  - intros key q'; cbn; rewrite jm_get_del_if; case_decide; [done|]; intros (Q' & HQ' & Hk' & Hr')%H3.
    exists Q'; rewrite jm_get_set_ne; [done|]; congruence.
  - intros p' c' q'; cbn; rewrite jm_get_set_if; case_decide as Hpp; [by intros [= <-]|]; intros Hp' Hc'.
    destruct (H4 _ _ _ Hp' Hc') as (Q' & HQ' & ?); exists Q'; cbn; rewrite jm_get_set_ne; [done|].
    intros <-; by destruct Hpp, (H5 _ _ _ _ _ Hp Hp' Hc Hc').
  - intros p1 p2 c1 c2 q'; cbn; rewrite !jm_get_set_if; case_decide; [by intros [= <-]|].
    case_decide; [by intros _ [= <-]|apply H5].
  - intros key e He; eapply entry_ok_le; eauto.
Qed.

Lemma tick_ok s t : dns_ok s → now s ≤ t →
  dns_ok (mkResolver (calls s) (queries s) (inFlightByCacheKey s) (cache s) t (nextQuery s)).
Proof.
  intros [H1 H2 H3 H4 H5 H6] Ht; constructor; try done; cbn.
  intros p c Hp; eapply call_ok_le; [|by eapply H1]; by apply queries_le_same.
Qed.

Lemma read_ok s p c : dns_ok s → jm_get (calls s) p = Some c →
  dns_ok (with_call s p (set_state c (GotCached (cache_get s (c_key c))))).
Proof.
  intros Hs Hp; pose proof (ok_calls s Hs _ _ Hp) as [Hc _]; apply with_call_ok; [done| |done]; split; [done|]; cbn.
  unfold cache_get; destruct (jm_get (cache s) (c_key c)) as [e|] eqn:He; [|done]; cbn.
  destruct (Z.leb_spec (now s) (e_written e + ttlMs)); [|done].
  destruct (ok_cache s Hs _ _ He) as (q & Q & HQ & Hk & Ho & Hw); exists q, Q; split_and!; [done..|].
  right; exists (e_written e); split; [done|]; cbn; lia.
Qed.

Lemma store_ok s q Q ips : dns_ok s → jm_get (queries s) q = Some Q → q_state Q = Storing ips → dns_ok (store s q Q ips).
Proof.
  intros Hs HQ Hst; destruct (ok_queries s Hs _ _ HQ) as (Hid & Hno & Ha); rewrite Hst in Hno; destruct Hno as [Hno Hr].
  set (Q' := mkQuery (q_hostname Q) (q_options Q) (Returning (Ok ips)) (Some (now s)) (q_removed Q)).
  assert (query_le (now s) Q Q') as Hle.
  { split_and!; [done..| | |by left]; [unfold outcome_of; by rewrite Hst|by rewrite Hno]. }
  assert (dns_ok (with_query s q Q')) as Hs' by (eapply with_query_ok; [done..|by split_and!]).
  change (store s q Q ips) with (with_cache (with_query s q Q') (jm_set (cache s) (q_key Q) (mkEntry ips (now s)))).
  apply with_cache_ok; [done|]; intros key e; rewrite jm_get_set_if; case_decide; [|apply (ok_cache _ Hs')].
  intros [= <-]; exists q, Q'; split_and!; [apply jm_get_set|done..].
Qed.

Lemma after_cache_ok s p c cached : dns_ok s → jm_get (calls s) p = Some c → c_state c = GotCached cached →
  dns_ok (after_cache s p c cached).
Proof.
  intros Hs Hp Hc; pose proof (ok_calls s Hs _ _ Hp) as [Ht Hcall]; rewrite Hc in Hcall.
  destruct cached as [ips|]; cbn [after_cache]; [by apply with_call_ok|].
  destruct (jm_get (inFlightByCacheKey s) (c_key c)) as [q|] eqn:Hf; [|by eapply start_query_ok].
  apply with_call_ok; [done|split; [done|]|done]; destruct (ok_inFlight s Hs _ _ Hf) as (Q & HQ & Hk & Hr).
  exists Q; split_and!; [done..|]; unfold in_flight_since; by rewrite Hr.
Qed.

Lemma answer_ok s q Q r : dns_ok s → jm_get (queries s) q = Some Q → q_state Q = Asking →
  dns_ok (with_query s q (set_query Q (after_lookup r))).
Proof.
  intros Hs HQ Hst; destruct (ok_queries s Hs _ _ HQ) as (Hid & Hno & Ha); rewrite Hst in Hno; destruct Hno.
  eapply with_query_ok; [done..| |done|].
  - split_and!; try done; [unfold outcome_of; by rewrite Hst|by left].
  - split_and!; [done| |done]; destruct r as [[|a l]|e]; by cbn.
Qed.

Lemma query_settled_ok s q Q r : dns_ok s → jm_get (queries s) q = Some Q → q_state Q = Returning r →
  dns_ok (with_query s q (set_query Q (Settled r))).
Proof.
  intros Hs HQ Hst; destruct (ok_queries s Hs _ _ HQ) as (Hid & Hno & Ha).
  eapply with_query_ok; [done..| |done|by split_and!].
  split_and!; try done; [unfold outcome_of; by rewrite Hst|by left].
Qed.

Lemma joined_ok s p c q Q r : dns_ok s → jm_get (calls s) p = Some c → c_state c = Joined q →
  jm_get (queries s) q = Some Q → q_state Q = Settled r → dns_ok (with_call s p (set_state c (Answered r))).
Proof.
  intros Hs Hp Hc HQ Hst; pose proof (ok_calls s Hs _ _ Hp) as [Ht Hcall]; rewrite Hc in Hcall.
  apply with_call_ok; [done|split; [done|]|done]; destruct Hcall as (Q' & HQ' & Hk & Hf); simplify_eq.
  exists q, Q; split_and!; [done..|unfold outcome_of; by rewrite Hst|by left].
Qed.

Lemma dns_step s e s' : dns_ok s → dns_next s e = Some s' → dns_ok s'.
Proof.
  intros Hs; destruct e as [p h o|p|p|q reply|q|q|p|key|t]; cbn [dns_next].
  - destruct (jm_has (calls s) p); [done|]; intros [= <-]; apply with_call_ok; [done|split; cbn; [lia|done]|done].
  - intros (c & Hp & H)%bind_Some; destruct (c_state c); simplify_eq; by apply read_ok.
  - intros (c & Hp & H)%bind_Some; destruct (c_state c) eqn:Hc; simplify_eq; by apply after_cache_ok.
  - intros (Q & HQ & H)%bind_Some; destruct (q_state Q) eqn:Hst; simplify_eq.
    apply bind_Some in H as (r & _ & [= <-]); by apply answer_ok.
  - intros (Q & HQ & H)%bind_Some; destruct (q_state Q) eqn:Hst; simplify_eq; by apply store_ok.
  - intros (Q & HQ & H)%bind_Some; destruct (q_state Q) eqn:Hst; simplify_eq; by eapply query_settled_ok.
  - intros (c & Hp & H)%bind_Some; destruct (c_state c) eqn:Hc; try done.
    all: apply bind_Some in H as (Q & HQ & H); destruct (q_state Q) eqn:Hst; simplify_eq.
    + by eapply joined_ok.
    + by apply query_finished_ok.
  - intros [= <-]; apply with_cache_ok; [done|]; intros k e; rewrite jm_get_del_if; case_decide; [done|].
    apply (ok_cache s Hs).
  - destruct (Z.leb_spec (now s) t); [|done]; intros [= <-]; by apply tick_ok.
Qed.

Lemma dns_run_ok es t s : dns_run (new_resolver t) es = Some s → dns_ok s.
Proof.
  assert (dns_ok (new_resolver t)) as H0 by by constructor.
  revert H0; generalize (new_resolver t); induction es as [|e es IH]; cbn [dns_run]; intros s0 H0; [by intros [= <-]|].
  intros (s1 & Hn & Hr)%bind_Some; eapply IH; [|exact Hr]; by eapply dns_step.
Qed.

(** * Progress *)

(** What the process does itself: all but new lookups, the DNS, the clock and evictions. *)
Definition internal (e : DnsEvent) : bool :=
  match e with CacheReads _ | Continue _ | CacheStores _ | Settle _ | Resume _ => true | _ => false end.

Definition call_work (c : Call) : nat :=
  match c_state c with Reading => 3 | GotCached _ => 2 | Joined _ | Owning _ => 1 | Answered _ => 0 end.

Definition query_work (Q : Query) : nat :=
  match q_state Q with Storing _ => 2 | Returning _ => 1 | _ => 0 end.

Definition work (s : Resolver) : nat := jm_sum call_work (calls s) + jm_sum query_work (queries s).

Lemma jm_sum_set_lt {K V} `{EqDecision K} (f : V → nat) (m : jmap K V) k v w :
  jm_get m k = Some v → (f w < f v)%nat → (jm_sum f (jm_set m k w) < jm_sum f m)%nat.
Proof. intros Hk; pose proof (jm_sum_set f m k w) as H; rewrite Hk in H; cbn in H; lia. Qed.

Lemma jm_sum_set_eq {K V} `{EqDecision K} (f : V → nat) (m : jmap K V) k w :
  default 0%nat (f <$> jm_get m k) = f w → jm_sum f (jm_set m k w) = jm_sum f m.
Proof. intros Hk; pose proof (jm_sum_set f m k w) as H; rewrite Hk in H; lia. Qed.

(** A lookup goes on to a state with less work. *)
Lemma call_goes_on (m : jmap nat Call) p c st n : jm_get m p = Some c → call_work c = S n → (call_work (set_state c st) ≤ n)%nat →
  (jm_sum call_work (jm_set m p (set_state c st)) < jm_sum call_work m)%nat.
Proof. intros Hp Hc Hst; apply jm_sum_set_lt with (v := c); [done|lia]. Qed.

Lemma query_goes_on (m : jmap nat Query) q Q Q' n : jm_get m q = Some Q → query_work Q = S n → (query_work Q' ≤ n)%nat →
  (jm_sum query_work (jm_set m q Q') < jm_sum query_work m)%nat.
Proof. intros HQ Hq Hst; apply jm_sum_set_lt with (v := Q); [done|lia]. Qed.

Lemma after_cache_work s p c cached : dns_ok s → jm_get (calls s) p = Some c → c_state c = GotCached cached →
  (work (after_cache s p c cached) < work s)%nat.
Proof.
  intros Hs Hp Hc; assert (call_work c = 2%nat) as Hw by (unfold call_work; by rewrite Hc).
  unfold after_cache, work; destruct cached as [ips|]; [|destruct (jm_get (inFlightByCacheKey s) (c_key c)) as [n|]].
  - apply Nat.add_lt_mono_r; eapply call_goes_on; [done..|cbn; lia].
  - apply Nat.add_lt_mono_r; eapply call_goes_on; [done..|cbn; lia].
  - cbn [start_query with_call calls queries]; rewrite (jm_sum_set_eq query_work) by (by rewrite (unused_id s Hs)).
    apply Nat.add_lt_mono_r; eapply call_goes_on; [done..|cbn; lia].
Qed.

Lemma finish_work s p c q Q r : jm_get (calls s) p = Some c → c_state c = Owning q → jm_get (queries s) q = Some Q →
  (work (finish s p c q Q r) < work s)%nat.
Proof.
  intros Hp Hc HQ; unfold work; cbn [finish with_call with_query with_inFlight calls queries].
  rewrite (jm_sum_set_eq query_work) by (by rewrite HQ).
  apply Nat.add_lt_mono_r; eapply (call_goes_on _ _ _ _ 0); [done|unfold call_work; by rewrite Hc|done].
Qed.

Lemma internal_work s e s' : dns_ok s → internal e = true → dns_next s e = Some s' → (work s' < work s)%nat.
Proof.
  intros Hs; destruct e as [p h o|p|p|q reply|q|q|p|key|t]; cbn [internal dns_next]; try done; intros _.
  - intros (c & Hp & H)%bind_Some; destruct (c_state c) eqn:Hc; simplify_eq.
    apply Nat.add_lt_mono_r; eapply (call_goes_on _ _ _ _ 2); [done|unfold call_work; by rewrite Hc|done].
  - intros (c & Hp & H)%bind_Some; destruct (c_state c) eqn:Hc; simplify_eq; by apply after_cache_work.
  - intros (Q & HQ & H)%bind_Some; destruct (q_state Q) eqn:Hst; simplify_eq.
    apply Nat.add_lt_mono_l; eapply (query_goes_on _ _ _ _ 1); [done|unfold query_work; by rewrite Hst|done].
  - intros (Q & HQ & H)%bind_Some; destruct (q_state Q) eqn:Hst; simplify_eq.
    apply Nat.add_lt_mono_l; eapply (query_goes_on _ _ _ _ 0); [done|unfold query_work; by rewrite Hst|done].
  - intros (c & Hp & H)%bind_Some; destruct (c_state c) eqn:Hc; try done.
    all: apply bind_Some in H as (Q & HQ & H); destruct (q_state Q) eqn:Hst; simplify_eq.
    + apply Nat.add_lt_mono_r; eapply (call_goes_on _ _ _ _ 0); [done|unfold call_work; by rewrite Hc|done].
    + by eapply finish_work.
Qed.

(** The lookup waits for a query that waits for the DNS. *)
Definition waits_for_dns (s : Resolver) (c : Call) : Prop :=
  ∃ q Q, (c_state c = Joined q ∨ c_state c = Owning q) ∧ jm_get (queries s) q = Some Q ∧ q_key Q = c_key c ∧ q_state Q = Asking.

Lemma pending_progress s p c : dns_ok s → jm_get (calls s) p = Some c → call_work c ≠ 0%nat →
  waits_for_dns s c ∨ ∃ e s', internal e = true ∧ dns_next s e = Some s'.
Proof.
  intros Hs Hp Hw.
  assert (∀ q Q, (c_state c = Joined q ∨ c_state c = Owning q) → jm_get (queries s) q = Some Q → q_key Q = c_key c →
    waits_for_dns s c ∨ ∃ e s', internal e = true ∧ dns_next s e = Some s') as Hq.
  { intros q Q Hc HQ Hk; destruct (q_state Q) as [|ips|r|r] eqn:Hst; [left; by exists q, Q|right..].
    - exists (CacheStores q); eexists; split; [done|]; cbn; by rewrite HQ; cbn; rewrite Hst.
    - exists (Settle q); eexists; split; [done|]; cbn; by rewrite HQ; cbn; rewrite Hst.
    - exists (Resume p); destruct Hc as [Hc|Hc]; eexists; split; try done; cbn; by rewrite Hp; cbn; rewrite Hc, HQ; cbn; rewrite Hst. }
  unfold call_work in Hw; destruct (c_state c) as [|cached|q|q|r] eqn:Hc; [right|right|..|done].
  - exists (CacheReads p); eexists; split; [done|]; cbn; by rewrite Hp; cbn; rewrite Hc.
  - exists (Continue p); eexists; split; [done|]; cbn; by rewrite Hp; cbn; rewrite Hc.
  - pose proof (ok_calls s Hs _ _ Hp) as [_ Hcall]; rewrite Hc in Hcall; destruct Hcall as (Q & HQ & Hk & _); eauto.
  - destruct (ok_owning s Hs _ _ _ Hp Hc) as (Q & HQ & Hk & _); eauto.
Qed.

Lemma internal_bound es s s' : dns_ok s → Forall (λ e, internal e = true) es → dns_run s es = Some s' →
  (length es + work s' ≤ work s)%nat.
Proof.
  revert s; induction es as [|e es IH]; cbn [dns_run length]; intros s Hs He; [intros [= <-]; lia|].
  apply Forall_cons in He as [He Hes]; intros (s1 & Hn & Hr)%bind_Some.
  pose proof (internal_work _ _ _ Hs He Hn); pose proof (IH s1 (dns_step _ _ _ Hs Hn) Hes Hr); lia.
Qed.

(** * Theorems *)

(** However lookups interleave, at most one query is waiting for the DNS or for the cache
    for the same name and options, those that the DNS sees alike. *)
Theorem one_query_at_a_time (t : Z) (es : list DnsEvent) (s : Resolver) (q q' : nat) (Q Q' : Query) :
  dns_run (new_resolver t) es = Some s →
  jm_get (queries s) q = Some Q → jm_get (queries s) q' = Some Q' →
  settled Q = false → settled Q' = false →
  q_hostname Q = q_hostname Q' → same_options (q_options Q) (q_options Q') → q = q'.
Proof.
  intros Hs%dns_run_ok HQ HQ' Hst Hst' Hh Ho.
  assert (∀ q Q, jm_get (queries s) q = Some Q → settled Q = false → q_removed Q = None) as Hr.
  { intros q0 Q0 (_ & H & _)%(ok_queries s Hs) H0; unfold settled in H0; destruct (q_state Q0); naive_solver. }
  eapply active_unique; eauto; by apply buildCacheKey_inj.
Qed.

(** A lookup returns what the DNS answered to a query for its name and options, which was
    in flight when the lookup started or later, or was kept in the cache, for at most its
    time; and nothing but the DNS makes it wait: the steps of the process itself end, and
    one can be taken while a lookup is not over and does not wait for the DNS. *)
Theorem lookups_answered (t : Z) (es : list DnsEvent) (s : Resolver) :
  dns_run (new_resolver t) es = Some s →
  (∀ p c r, jm_get (calls s) p = Some c → c_state c = Answered r →
    ∃ q Q, jm_get (queries s) q = Some Q ∧ q_hostname Q = c_hostname c ∧ same_options (q_options Q) (c_options c) ∧
      outcome_of Q = Some r ∧ (in_flight_since Q (c_started c) ∨ kept_since Q (c_started c))) ∧
  (∀ es' s', Forall (λ e, internal e = true) es' → dns_run s es' = Some s' → (length es' ≤ work s)%nat) ∧
  (∀ p c, jm_get (calls s) p = Some c → (∀ r, c_state c ≠ Answered r) →
    waits_for_dns s c ∨ ∃ e s', internal e = true ∧ dns_next s e = Some s').
Proof.
  intros Hs%dns_run_ok; split_and!.
  - intros p c r Hp Hc; pose proof (ok_calls s Hs _ _ Hp) as [_ H]; rewrite Hc in H.
    destruct H as (q & Q & HQ & [Hh Ho]%buildCacheKey_inj & ? & ?); exists q, Q; do 4 (split; [done|]); done.
  - intros es' s' He Hr; pose proof (internal_bound _ _ _ Hs He Hr); lia.
  - intros p c Hp Hc; eapply pending_progress; [done..|]; unfold call_work.
    destruct (c_state c) as [| | | |r]; [done..|by destruct (Hc r)].
Qed.

(** * Examples *)

Definition found (a : string) : LookupAddress := mkAddress (tx a) 4.
Definition any : DnsLookupOptions := mkOptions (Some true) None None None None.

(** Two lookups share a query, and a third finds the answer in the cache. *)
Definition shared : list DnsEvent :=
  [Lookup 0 (tx "a.com") any; CacheReads 0; Lookup 1 (tx "a.com") any; CacheReads 1; Continue 0; Continue 1;
   DnsAnswers 0 (Records [found "9.9.9.9"]); CacheStores 0; Settle 0; Resume 0; Resume 1;
   Tick 1000; Lookup 2 (tx "a.com") any; CacheReads 2; Continue 2].

Definition answers (s : Resolver) : list CallState := c_state <$> jm_vals (calls s).

Example shared_query : (λ s, (answers s, length (queries s))) <$> dns_run (new_resolver 0) shared
  = Some (replicate 3 (Answered (Ok [found "9.9.9.9"])), 1%nat).
Proof. by vm_compute. Qed.

(** A lookup that read the cache before the answer was stored asks again after it. *)
Example asked_again : (λ s, (answers s, length (queries s))) <$> dns_run (new_resolver 0)
    [Lookup 0 (tx "a.com") any; CacheReads 0; Continue 0; Lookup 1 (tx "a.com") any; CacheReads 1;
     DnsAnswers 0 (Records [found "9.9.9.9"]); CacheStores 0; Settle 0; Resume 0; Continue 1]
  = Some ([Answered (Ok [found "9.9.9.9"]); Owning 1], 2%nat).
Proof. by vm_compute. Qed.

(** An answer of none is not kept, nor is a failure. *)
Example nothing_kept : (λ s, (answers s, cache s, inFlightByCacheKey s)) <$> dns_run (new_resolver 0)
    [Lookup 0 (tx "a.com") any; CacheReads 0; Continue 0; DnsAnswers 0 (Records []); Resume 0;
     Lookup 1 (tx "a.com") any; CacheReads 1; Continue 1; DnsAnswers 1 DnsFails; Resume 1]
  = Some ([Answered (Ok []); Answered (Err DnsError)], [], []).
Proof. by vm_compute. Qed.

Definition two_names : list DnsEvent :=
  [Lookup 0 (tx "a.com") any; CacheReads 0; Continue 0; Lookup 1 (tx "b.com") any; CacheReads 1; Continue 1].

Definition two_names_state : Resolver := default (new_resolver 0) (dns_run (new_resolver 0) two_names).
Definition first_query : Query := mkQuery (tx "a.com") (normalizeOptions any) Asking None None.

Lemma one_query_at_a_time_witness : jm_get (queries two_names_state) 0%nat = Some first_query ∧ (0 = 0)%nat.
Proof.
  split; [by vm_compute|].
  apply (one_query_at_a_time 0 two_names two_names_state 0 0 first_query first_query); try (by vm_compute); split_and!; reflexivity.
Defined.

Definition shared_state : Resolver := default (new_resolver 0) (dns_run (new_resolver 0) shared).

Lemma lookups_answered_witness : ∃ c, jm_get (calls shared_state) 2%nat = Some c ∧
  c_state c = Answered (Ok [found "9.9.9.9"]) ∧ ∃ q Q, jm_get (queries shared_state) q = Some Q ∧
    q_hostname Q = tx "a.com" ∧ outcome_of Q = Some (Ok [found "9.9.9.9"]).
Proof.
  exists (mkCall (tx "a.com") (normalizeOptions any) 1000 (Answered (Ok [found "9.9.9.9"]))).
  split; [by vm_compute|split; [done|]].
  assert (dns_run (new_resolver 0) shared = Some shared_state) as Hr by (by vm_compute).
  destruct (proj1 (lookups_answered 0 shared shared_state Hr) 2%nat
    (mkCall (tx "a.com") (normalizeOptions any) 1000 (Answered (Ok [found "9.9.9.9"]))) (Ok [found "9.9.9.9"])) as (q & Q & HQ & Hh & _ & Ho & _).
  - by vm_compute.
  - done.
  - exists q, Q; split; [exact HQ|split; [exact Hh|exact Ho]].
Defined.
